(* ===== verification/_CoqProject ===== *)
-Q . S2P
Prelude.v
TaskTypes.v
Autobatcher.v
DetailsView.v
SchedUtils.v
TaskQueue.v
BatchQueue.v
Queue.v
Auth.v
Query.v
CreateBatch.v
ProcessBatch.v
Tick.v
Lru.v
IndexMap.v
Versions.v
Ids.v
Documents.v
DocumentVectors.v
DocumentsSpec.v
Score.v
BucketSort.v
BucketSortPage.v
Facet.v
FacetSort.v
FacetDistribution.v
FacetBulk.v
FacetIncremental.v
SortRule.v
GeoSort.v
VectorStore.v
SmallBitmap.v
QueryGraph.v
RuleGraph.v
RulePaths.v
RuleCosts.v
QueryGraphSpec.v
GraphRule.v
GraphRuleSpec.v
Bytes.v
Codecs.v
AttributeRules.v
FieldMetadata.v
FacetLevels.v
Filter.v
FilterSpec.v
JsonHelpers.v
IndexOp.v
Archive.v
Upgrade.v
RunBatch.v
Front.v
