(* ===== verification/Prelude.v ===== *)
(** * Meilisearch: a verification library

    Meilisearch is a search server.  A client sends documents and settings for an
    index and later searches it.  Every write is stored as a _task_ and processed
    later by the crate [index-scheduler]: a client registers a task
    ([IndexScheduler::register]); a scheduler thread runs [tick] in a loop: it
    chooses the next batch of tasks ([create_next_batch], which lets the
    autobatcher merge compatible tasks of one index), processes the batch
    ([process_batch]), and writes the outcome of every task.  Clients query the
    tasks and the batches, seeing only the indexes that their API key and tenant
    token allow ([meilisearch-auth]).  The indexes are LMDB environments that the
    index mapper opens, closes, resizes and deletes behind an LRU cache.  What is
    inside an index is the search engine, [milli-core]: a batch of documents
    becomes documents, fields and facets; a search filters the documents with the
    facets and ranks them, bucket after bucket.

    ** Files

    Every path below is under [src/crates].  A file requires only files of the
    list that come before it.

    Shared:
    - [Prelude]: fallible code ([outcome]: [Ok], [Err], or [Panic] for a panic),
      bitmaps, wrap-around integers, and the hint database [sched].
    - [Bytes]: slices of bytes, big-endian integers, UTF-8, string functions and
      the order of keys.

    The scheduler ([index-scheduler], [meilisearch-types], [meilisearch-auth]):
    - [TaskTypes]: [meilisearch-types/src/tasks.rs]: tasks, kinds, statuses,
      details.  The class [Externals] holds what comes from other crates (JSON
      values, settings and their merge, errors of the search engine, ...).
    - [DetailsView]: [meilisearch-types/src/task_view.rs]: the views returned to
      a client and the accumulation of details over a batch.
    - [SchedUtils]: [index-scheduler/src/utils.rs], [error.rs] and
      [meilisearch-types/src/batches.rs]: [ProcessingBatch], the date tables, the
      rewriting of index names in tasks, the dichotomic search.
    - [Autobatcher]: [scheduler/autobatcher.rs]: the state machine [accumulate].
    - [TaskQueue], [BatchQueue], [Queue]: [queue/tasks.rs], [queue/batches.rs],
      [queue/mod.rs], [processing.rs]: one record per struct, a field per
      database, an operation per method.
    - [Auth]: index names and patterns, [AuthFilter], [SearchRules]; the class
      [IndexAuthorizer] is what the queries use of a filter.
    - [Query]: the selection of tasks and batches by a [Query].
    - [CreateBatch]: [scheduler/create_batch.rs].
    - [ProcessBatch]: [scheduler/process_batch.rs]: cancelation, deletion, swap.
    - [Tick]: [scheduler/mod.rs]: a whole [tick] over any processing of batches
      that keeps the interface [BatchProcessor], and [step], the relation of the
      states reached by registrations, arrivals of files and ticks.
    - [IndexOp]: [scheduler/process_index_operation.rs]: what each operation does
      to an index and to its tasks; the search engine is the class [Indexer].
    - [Archive]: [process_snapshot_creation.rs], [process_dump_creation.rs].
    - [Versions], [Upgrade]: the version file, the start of the server as a
      sequence of commits that may be interrupted, the upgrade of an index
      ([versioning.rs], [upgrade], [milli-core/src/update/upgrade]).
    - [RunBatch]: all the branches of [process_batch] together, as an instance of
      [BatchProcessor].
    - [Lru]: [lru.rs], with its specification as a list in order of use.
    - [IndexMap]: [index_mapper/index_map.rs] and [index_mapper/mod.rs]: the
      states of an index in memory and the loops that wait for them.  The other
      threads are a [Schedule]: what the map has become each time the lock is
      taken again.
    - [Front]: [lib.rs]: the memory budget, [register], the run loop's decision.

    The search engine ([milli-core/src] unless said otherwise):
    - [Ids]: [fields_ids_map.rs], [available_documents_ids.rs],
      [update/concurrent_available_ids.rs], the last one as interleaved steps.
    - [Documents], [DocumentVectors], [DocumentsSpec]:
      [update/new/indexer/document_operation.rs] and what it calls: from the
      payloads of a batch to the documents; the vectors they carry
      ([update/new/vector_document.rs], [vector/parsed_vectors.rs]): which are
      accepted, what is stored; the specification of a batch as a sequence of
      payloads.
    - [Facet], [FacetSort], [FacetDistribution]: [search/facet]: the databases of
      facets with their levels, the range search, both sorts, both distributions.
    - [FacetBulk]: [update/facet/bulk.rs]: how the levels are built.
    - [FacetIncremental]: [update/facet/new_incremental.rs]: how the levels follow
      the values that changed.
    - [FieldMetadata]: [fields_ids_map/metadata.rs], [global.rs]: what the settings
      say of each field, and the map of the fields shared by the threads.
    - [FacetLevels]: [update/new/merger.rs], [indexer/post_processing.rs]: the
      merge of the changes of facets and the updates of levels that follow.
    - [Codecs]: [heed_codec]: keys and bitmaps as bytes.
    - [AttributeRules]: [attribute_patterns.rs], [filterable_attributes_rules.rs]:
      the fields that may be filtered and those that are faceted.
    - [Filter], [FilterSpec]: [search/facet/filter.rs] and the syntax of
      [filter-parser]: the evaluation of filters, and what it means.
    - [Score]: [score_details.rs]: ranks and scores.
    - [BucketSort], [BucketSortPage], [SortRule]: [search/new/bucket_sort.rs],
      [distinct.rs], [sort.rs]: the loop over ranking rules (the class
      [RankingRule]), its result as a page, and the rule that sorts by a field.
    - [GeoSort]: [search/new/geo_sort.rs]: the rule that sorts by distance, with
      its two strategies; the R-tree and the distance are the class [GeoEnv].
    - [SmallBitmap]: [search/new/small_bitmap.rs]: bitmaps as words of 64 bits.
    - [QueryGraph], [QueryGraphSpec]: [search/new/query_graph.rs] and
      [resolve_query_graph.rs]: the graph of the ways to read a query.  The class
      [QueryTerms] is what it reads of the terms: the documents of a subset of
      their derivations, their phrases, their hash.
    - [RuleGraph], [RulePaths], [RuleCosts]: [search/new/ranking_rule_graph]: the
      graph of a ranking rule, for any rule (the class [RankingRuleGraphTrait]);
      the search of its paths of a cost; the costs of its paths.
    - [GraphRule], [GraphRuleSpec]: [search/new/graph_based_ranking_rule.rs]: the
      ranking rule whose buckets are the documents of the paths of its graph by
      increasing cost, an instance of [RankingRule].
    - [VectorStore]: [vector/mod.rs]: the vectors of an embedder, spread over 256
      databases of the crate arroy (the class [Arroy]), and flat embeddings.
    - [JsonHelpers]: the crates [flatten-serde-json], [permissive-json-pointer]
      and [json-depth-checker].

    ** How the code is represented

    An LMDB database is a finite map ([gmap]), or the list of its entries in the
    order of their keys where the code iterates over it (facets); a transaction is
    the state it leaves when it commits (on an error or a panic the previous state
    is kept), a [RoaringBitmap] is a finite set of integers, a Rust enum [E] is
    the type [E.t].  Dates are nanoseconds since 1970 and the clock is an
    argument.  [u16], [u32], [u64] and [usize] are integers with the wrap-around
    of a release build written out where the code computes with them; an [f64] is
    its 64 bits where its order or its bytes matter, and the class [Float]
    elsewhere.  Files are a map from uuid to size.  What comes from other crates
    (LMDB environments, JSON texts, normalization, roaring bitmaps as bytes,
    R-trees) is a class with its laws apart, and each has a sample instance.

    ** What is proved

    - The queue: every index of the task queue is exact (it lists a task exactly
      under its status, kind, indexes and dates) and every operation preserves
      it: registration, update, deletion, cancelation, swap.
    - The scheduler: a batch is made of distinct pending tasks of the most urgent
      class and holds the task to serve first; the autobatcher takes a prefix of
      the tasks of an index and never mixes primary keys or creates an index
      without the right to; from an empty database, whatever is registered and
      whatever the search engine answers, every tick waits with nothing pending,
      gives its batch up, or finishes it with all its tasks over, and fails only
      where resizing a full index does ([reachable_tick]); a registered
      cancelation is the next batch.
    - The queries: the ids found through the indexes are those of the tasks that
      match the query one by one, and no task of a forbidden index is returned.
    - The open indexes: the cache refines a list in order of use; however the
      threads interleave, an index is never created twice nor while it closes.
    - Snapshots, dumps, versions: what they hold, and what an interrupted start
      leaves.
    - Documents: a batch does what the payloads it accepts do one after the other,
      and refuses the others for a reason; it fails because it is asked to stop,
      a payload is cut, the ids of fields run out or the vectors of a document are
      refused, and for nothing else ([batch_refines_payloads]); the ids given by
      concurrent threads are distinct.
    - Facets: the levels built by a bulk update, or brought up to date by an
      incremental one, are groups of the values; a whole indexing of facets writes
      the documents of each value and keeps the levels so; and on such levels the
      range search, the sorts and the distributions give what a scan of the values
      gives.
    - Fields: names and ids are in bijection; however the threads of an indexing
      interleave, they agree on the id and the metadata of each field.
    - Codecs: keys and bitmaps are decoded as they were encoded, and the bytes of
      the keys are in the order the searches assume.
    - Filters: the result is the documents that satisfy the filter one by one;
      every field that can be filtered is faceted.
    - Ranking: every search ends with rules that keep the contract
      [RankingRuleOk], which the rules by field ([SortRule]), by distance
      ([geo_rule_ok]) and of graphs ([graph_rule_ok]) are proved to keep; with
      rules that sort exhaustively it returns the page asked for of the complete
      ranking; scores order documents as the ranks of the rules do, as long as no
      rule is skipped and no product overflows.
    - Vectors: the databases of an embedder hold a list of vectors for each
      document, which every operation but the removal of one vector keeps
      packed ([vector_store_refines], [del_item_leaves_holes]).
    - Query graphs and graph-based rules: the documents of a query graph are those
      of its paths; a graph-based rule gives each document at the least cost of a
      path whose conditions it satisfies, if no path of conditions is a prefix of
      another of the same cost ([prefix_paths_panic]), whatever the caches, the dead ends and
      the edges removed on the way; the costs that are updated are those computed
      from scratch; a small bitmap is the set of its bits.
    - JSON helpers: flattening, selecting and mapping fields, and the check of
      nesting on texts, each against a definition on whole values.
    - Where the code departs from its documentation or intent, a theorem or an
      example states what it does: [Query.authorized_batches_drop_task_ids],
      [Query.processing_batch_lost_by_started_at], [Query.keep_ids_before_epoch],
      [ProcessBatch.deleted_tasks_stay_in_batch], [IndexMap.delete_loop_spec],
      [Front.dry_run_cancelation_stops_batch], [Versions.restarted_upgrade],
      [Ids.concurrent_ids_wrap], [Score.rank_merge_wraps],
      [Codecs.minus_zero_is_another_key], [FacetIncremental.blank_value_lost],
      [AttributeRules.leading_wildcard_not_visited],
      [AttributeRules.disabled_parent_not_visited],
      [FilterSpec.not_equal_on_unknown_field],
      [SmallBitmap.from_iter_is_longer], [SmallBitmap.universe_length_wraps],
      [JsonHelpers.Pointer.dotted_key_overwritten],
      [JsonHelpers.Flatten.flatten_readme_examples],
      [GraphRuleSpec.prefix_paths_panic], [DocumentsSpec.sample_bad_vectors],
      [VectorStore.del_item_leaves_holes].

    ** Bounds

    [dichotomic_search] takes 128 steps of fuel: 64 halvings after at most 64
    doublings reach any threshold below 2^62 ([dichotomic_search_spec] proves it
    enough).  The loops of the index mapper carry the source's own limit of 100
    attempts, and running out of them is the source's panic.  A facet sort has
    [sort_fuel] rounds, a number computed from the entries, and [facet_sort_scan]
    proves it enough; the bulk update has 32 levels, which [bulk_update_groups]
    proves enough for any database; the loops of the incremental update have the
    number of entries as fuel, and [execute_groups] proves it enough.  The loop of
    bucket sort has fuel, and [bucket_sort_returns] and [bucket_sort_page] prove
    that some fuel gives the result.  The search of paths has the number of nodes
    as fuel and the traversals of a graph its square, which [visit_paths_exhausts],
    [traverse_backward_spec] and [query_graph_docids] prove enough for a graph
    without cycle.  The trimming of a selector has its length as fuel.  The queue of the geo sort
    has the number of candidates, plus two, as fuel.

    ** What is not modelled

    Failures of LMDB and of the file system, the webhook, progress and tracing,
    debugging assertions; reading dumps, experimental features, key storage; the
    HTTP server and the settings of the API.  In the search engine: the terms of a
    query and their typos, which are built on tokenizers and automata of other
    crates, and so the conditions of each graph-based rule; the extraction of
    words and facets, the computation of embeddings; the settings of an index; the parsers of filters,
    which are nom combinators. *)

From stdpp Require Export prelude gmap strings list fin_maps sorting pretty.
From Stdlib Require Ascii String.

Open Scope Z_scope.

(** ** Outcomes of fallible code

    [outcome E A] is a Rust [Result<A, E>] together with the third way a call
    can end, a panic ([unreachable!], [unwrap] on [None], [assert!]). *)

Inductive outcome (E A : Type) : Type :=
| Ok (a : A)
| Err (e : E)
| Panic.
Arguments Ok {E A} a.
Arguments Err {E A} e.
Arguments Panic {E A}.

#[global] Instance outcome_ret {E} : MRet (outcome E) := λ A a, Ok a.
#[global] Instance outcome_bind {E} : MBind (outcome E) := λ A B f m,
  match m with
  | Ok a => f a
  | Err e => Err e
  | Panic => Panic
  end.

Section outcome_ops.
Context {E : Type}.

(** [Option::ok_or]. *)
Definition ok_or {A} (e : E) (o : option A) : outcome E A :=
  match o with Some a => Ok a | None => Err e end.

(** [Option::unwrap]. *)
Definition unwrap {A} (o : option A) : outcome E A :=
  match o with Some a => Ok a | None => Panic end.

(** [Result::map_err]. *)
Definition map_err {A E'} (f : E → E') (m : outcome E A) : outcome E' A :=
  match m with Ok a => Ok a | Err e => Err (f e) | Panic => Panic end.

(** [iter.map(f).collect::<Result<Vec<_>>>()]: left to right, first error
    wins. *)
Fixpoint collect {A B} (f : A → outcome E B) (l : list A) : outcome E (list B) :=
  match l with
  | [] => Ok []
  | x :: l' => y ← f x; ys ← collect f l'; Ok (y :: ys)
  end.

(** A [for] loop whose body updates a state and can fail. *)
Fixpoint for_each {A S} (f : S → A → outcome E S) (s : S) (l : list A) : outcome E S :=
  match l with
  | [] => Ok s
  | x :: l' => s' ← f s x; for_each f s' l'
  end.

Lemma bind_Ok {A B} (m : outcome E A) (f : A → outcome E B) b :
  mbind f m = Ok b ↔ ∃ a, m = Ok a ∧ f a = Ok b.
Proof.
  split.
  - destruct m; simpl; intros H; [by eauto | done | done].
  - by intros (a & -> & Hf).
Qed.

Lemma for_each_app {A S} (f : S → A → outcome E S) s l1 l2 :
  for_each f s (l1 ++ l2) = (s' ← for_each f s l1; for_each f s' l2).
Proof.
  revert s; induction l1 as [|x l1 IH]; intros s; simpl; [done|].
  destruct (f s x); simpl; [apply IH | done | done].
Qed.

Lemma for_each_inv {A S} (P : S → Prop) (f : S → A → outcome E S) s l s' :
  P s → (∀ s x s1, x ∈ l → P s → f s x = Ok s1 → P s1) →
  for_each f s l = Ok s' → P s'.
Proof.
  revert s; induction l as [|x l IH]; intros s HP Hstep; simpl.
  - by intros [= <-].
  - intros (s1 & H1 & H2)%bind_Ok. eapply (IH s1); [|intros; eapply Hstep; eauto|done].
    + eapply Hstep; eauto. left.
    + by right.
Qed.

Lemma for_each_total {A S} (P : S → Prop) (f : S → A → outcome E S) s l :
  P s → (∀ s x, x ∈ l → P s → ∃ s1, f s x = Ok s1 ∧ P s1) →
  ∃ s', for_each f s l = Ok s' ∧ P s'.
Proof.
  revert s; induction l as [|x l IH]; intros s HP Hstep; simpl; [by eauto|].
  destruct (Hstep s x) as (s1 & -> & HP1); [by left|done|]. simpl.
  apply IH; [done|]. intros; apply Hstep; [by right|done].
Qed.

Lemma collect_Ok {A B} (f : A → outcome E B) l ys :
  collect f l = Ok ys ↔ Forall2 (λ x y, f x = Ok y) l ys.
Proof.
  revert ys; induction l as [|x l IH]; intros ys; simpl.
  - split; [by intros [= <-] | by inversion 1].
  - rewrite bind_Ok. split.
    + intros (y & Hy & (ys' & Hys & [= <-])%bind_Ok). constructor; [done|by apply IH].
    + inversion 1 as [|? y ? ys' Hy Hys]; subst. exists y; split; [done|].
      apply bind_Ok. exists ys'. by rewrite IH.
Qed.
Lemma collect_total {A B} (f : A → outcome E B) l :
  Forall (λ x, ∃ y, f x = Ok y) l → ∃ ys, collect f l = Ok ys.
Proof.
  induction 1 as [|x l [y Hy] _ [ys Hys]]; simpl; [by eauto|]. rewrite Hy. simpl. rewrite Hys. simpl. eauto.
Qed.
End outcome_ops.

(** ** Sorted lists *)

Lemma StronglySorted_filter {A} (R : A → A → Prop) (P : A → Prop) `{!∀ x, Decision (P x)} l :
  StronglySorted R l → StronglySorted R (filter P l).
Proof.
  induction 1 as [|x l Hs IH Hf]; [constructor|]. destruct (decide (P x)).
  - rewrite filter_cons_True by done. constructor; [done|]. apply Forall_forall. rewrite Forall_forall in Hf.
    intros y [_ Hy]%list_elem_of_filter. by apply Hf.
  - by rewrite filter_cons_False.
Qed.

(** [Vec::dedup] of sorted integers. *)
Fixpoint dedup (l : list Z) : list Z :=
  match l with
  | x :: ((y :: _) as l') => if x =? y then dedup l' else x :: dedup l'
  | l => l
  end.

Lemma dedup_cons a b l : dedup (a :: b :: l) = if a =? b then dedup (b :: l) else a :: dedup (b :: l).
Proof. done. Qed.

Lemma dedup_elem x l : x ∈ dedup l ↔ x ∈ l.
Proof.
  induction l as [|a [|b l] IH]; [done|done|]. rewrite dedup_cons. destruct (Z.eqb_spec a b) as [->|Hne].
  - rewrite IH, !elem_of_cons. tauto.
  - rewrite elem_of_cons, IH, (elem_of_cons _ _ a). done.
Qed.

Lemma dedup_sorted l : StronglySorted Z.le l → StronglySorted Z.le (dedup l) ∧ NoDup (dedup l).
Proof.
  induction l as [|a [|b l] IH]; intros Hs; [split; constructor|split; [done|apply NoDup_singleton]|].
  apply StronglySorted_inv in Hs as [Hs Ha]. destruct (IH Hs) as [IHs IHn]. rewrite dedup_cons.
  destruct (Z.eqb_spec a b) as [->|Hne]; [done|]. split.
  - constructor; [done|]. apply Forall_forall. intros x Hx. rewrite dedup_elem in Hx. by apply (proj1 (Forall_forall _ _) Ha).
  - constructor; [|done]. intros Hin. rewrite dedup_elem in Hin. apply elem_of_cons in Hin as [->|Hin]; [done|].
    apply StronglySorted_inv in Hs as [_ Hb]. pose proof (proj1 (Forall_forall _ _) Hb a Hin).
    apply Forall_cons in Ha as [? _]. lia.
Qed.

(** ** Machine integers *)

Definition u32_max : Z := 2 ^ 32 - 1.
Definition u64_max : Z := 2 ^ 64 - 1.

(** [u32] addition of a release build: overflow wraps. *)
Definition u32_wrap (z : Z) : Z := z mod 2 ^ 32.
Definition u64_wrap (z : Z) : Z := z mod 2 ^ 64.

(** [saturating_add]. *)
Definition u32_saturating_add (x y : Z) : Z := Z.min (x + y) u32_max.
Definition u64_saturating_add (x y : Z) : Z := Z.min (x + y) u64_max.

Lemma u32_wrap_id z : 0 ≤ z ≤ u32_max → u32_wrap z = z.
Proof. unfold u32_wrap, u32_max. intros. apply Z.mod_small. lia. Qed.

(** ** Bitmaps

    A [RoaringBitmap] is a finite set of [u32]; it is iterated in increasing
    order. *)

Abbreviation bitmap := (gset Z).

Definition bm_iter (b : bitmap) : list Z := merge_sort Z.le (elements b).
Definition bm_len (b : bitmap) : Z := Z.of_nat (size b).
Definition bm_min (b : bitmap) : option Z := head (bm_iter b).
Definition bm_max (b : bitmap) : option Z := last (bm_iter b).
Definition bm_is_empty (b : bitmap) : bool := bool_decide (b = ∅).
Definition bm_contains (b : bitmap) (x : Z) : bool := bool_decide (x ∈ b).
(** [remove_range(lo..hi)] and [remove_range(lo..)]. *)
Definition bm_remove_range (lo hi : Z) (b : bitmap) : bitmap :=
  filter (λ x, ¬ (lo ≤ x < hi)) b.
Definition bm_remove_from (lo : Z) (b : bitmap) : bitmap := filter (λ x, x < lo) b.
Definition bm_is_disjoint (b1 b2 : bitmap) : bool := bm_is_empty (b1 ∩ b2).

Section bitmap_lemmas.
Implicit Types b : bitmap.

Lemma elem_of_bm_iter b x : x ∈ bm_iter b ↔ x ∈ b.
Proof. unfold bm_iter. by rewrite merge_sort_Permutation, elem_of_elements. Qed.

Lemma NoDup_bm_iter b : NoDup (bm_iter b).
Proof. unfold bm_iter. rewrite merge_sort_Permutation. apply NoDup_elements. Qed.

Lemma StronglySorted_bm_iter b : StronglySorted Z.le (bm_iter b).
Proof. apply StronglySorted_merge_sort; apply _. Qed.

Lemma length_bm_iter b : Z.of_nat (length (bm_iter b)) = bm_len b.
Proof. unfold bm_len, bm_iter. by rewrite merge_sort_Permutation. Qed.

Lemma bm_min_Some b x : bm_min b = Some x → x ∈ b ∧ ∀ y, y ∈ b → x ≤ y.
Proof.
  unfold bm_min. pose proof (StronglySorted_bm_iter b) as Hs.
  setoid_rewrite <-(elem_of_bm_iter b).
  destruct (bm_iter b) as [|z l]; simpl; [done|]. intros [= ->].
  split; [by left|]. intros y [->|Hy]%elem_of_cons; [done|].
  apply StronglySorted_inv in Hs as [_ Hf]. rewrite Forall_forall in Hf. by apply Hf.
Qed.

Lemma bm_min_None b : bm_min b = None ↔ b = ∅.
Proof.
  unfold bm_min. rewrite head_None. split.
  - intros H. apply set_eq. intros x. rewrite <-elem_of_bm_iter, H. set_solver.
  - intros ->. done.
Qed.

Lemma last_sorted_max (l : list Z) x :
  StronglySorted Z.le l → last l = Some x → x ∈ l ∧ ∀ y, y ∈ l → y ≤ x.
Proof.
  induction l as [|z l IH]; [done|]. intros [Hs Hf]%StronglySorted_inv.
  destruct l as [|z' l'].
  - simpl. intros [= ->]. split; [by left|]. intros y ->%list_elem_of_singleton. done.
  - intros Hl. change (last (z :: z' :: l')) with (last (z' :: l')) in Hl.
    destruct (IH Hs Hl) as [Hx Hmax]. split; [by right|].
    intros y [->|Hy]%elem_of_cons; [|by apply Hmax].
    rewrite Forall_forall in Hf. by apply Hf.
Qed.

Lemma bm_max_Some b x : bm_max b = Some x → x ∈ b ∧ ∀ y, y ∈ b → y ≤ x.
Proof.
  unfold bm_max. intros H. apply last_sorted_max in H as [Hx Hmax];
    [|apply StronglySorted_bm_iter].
  rewrite elem_of_bm_iter in Hx. split; [done|].
  intros y Hy. apply Hmax. by rewrite elem_of_bm_iter.
Qed.

Lemma bm_max_None b : bm_max b = None ↔ b = ∅.
Proof.
  unfold bm_max. rewrite last_None. split.
  - intros H. apply set_eq. intros x. rewrite <-elem_of_bm_iter, H. set_solver.
  - intros ->. done.
Qed.

Lemma elem_of_bm_remove_range lo hi b x :
  x ∈ bm_remove_range lo hi b ↔ x ∈ b ∧ ¬ (lo ≤ x < hi).
Proof. unfold bm_remove_range. rewrite elem_of_filter. tauto. Qed.

Lemma elem_of_bm_remove_from lo b x :
  x ∈ bm_remove_from lo b ↔ x ∈ b ∧ x < lo.
Proof. unfold bm_remove_from. rewrite elem_of_filter. tauto. Qed.
End bitmap_lemmas.

(** ** Tables of bitmaps

    A [Database<K, RoaringBitmap>] is a finite map; reading a missing key gives
    the empty bitmap ([get(..)?.unwrap_or_default()]). *)

Section tables.
Context {K : Type} `{Countable K}.
Implicit Types m : gmap K bitmap.

Definition bm_get (m : gmap K bitmap) (k : K) : bitmap := default ∅ (m !! k).

(** Store a bitmap, or delete the key when the bitmap is empty. *)
Definition put_or_delete (k : K) (b : bitmap) (m : gmap K bitmap) : gmap K bitmap :=
  if bm_is_empty b then delete k m else <[k := b]> m.

(** No key maps to an empty bitmap. *)
Definition no_empty (m : gmap K bitmap) : Prop := ∀ k, m !! k ≠ Some ∅.

Lemma bm_get_insert m k b k' :
  bm_get (<[k := b]> m) k' = if decide (k = k') then b else bm_get m k'.
Proof.
  unfold bm_get. case_decide; subst; [by rewrite lookup_insert_eq | by rewrite lookup_insert_ne].
Qed.

Lemma bm_get_put_or_delete m k b k' :
  bm_get (put_or_delete k b m) k' = if decide (k = k') then b else bm_get m k'.
Proof.
  unfold put_or_delete, bm_is_empty. case_bool_decide; [|apply bm_get_insert]. subst.
  unfold bm_get. case_decide; subst; [by rewrite lookup_delete_eq | by rewrite lookup_delete_ne].
Qed.

Lemma no_empty_put_or_delete m k b : no_empty m → no_empty (put_or_delete k b m).
Proof.
  intros Hm k'. unfold put_or_delete, bm_is_empty. case_bool_decide.
  - rewrite lookup_delete_Some. intros [_ ?]. by eapply Hm.
  - rewrite lookup_insert_Some. intros [[_ ?]|[_ ?]]; [done | by eapply Hm].
Qed.

Lemma no_empty_insert m k b : b ≠ ∅ → no_empty m → no_empty (<[k := b]> m).
Proof. intros Hb Hm k'. rewrite lookup_insert_Some. intros [[_ ?]|[_ ?]]; [done | by eapply Hm]. Qed.

Lemma no_empty_get m k : no_empty m → is_Some (m !! k) ↔ bm_get m k ≠ ∅.
Proof.
  intros Hm. unfold bm_get. specialize (Hm k). destruct (m !! k) as [b|]; simpl.
  - split; [naive_solver | by eauto].
  - split; [by intros [? ?] | done].
Qed.
End tables.

(** ** Automation

    [sched] closes the goals about membership in tables and about the
    [outcome] monad that the components have in common. *)

Create HintDb sched.
#[export] Hint Resolve no_empty_put_or_delete no_empty_insert NoDup_bm_iter
  StronglySorted_bm_iter : sched.
#[export] Hint Rewrite @bm_get_insert @bm_get_put_or_delete using (exact _) : sched.
#[export] Hint Rewrite elem_of_bm_remove_range elem_of_bm_remove_from elem_of_bm_iter : sched.

(** Split a goal about a table at the keys it compares. *)
Ltac table_cases :=
  repeat (autorewrite with sched; try case_decide; subst).

(** Turn [x ← m; f x = Ok b] hypotheses into their parts. *)
Ltac inv_bind H :=
  let a := fresh "r" in let H1 := fresh "H" in
  apply bind_Ok in H as (a & H1 & H).
