(* ===== verification/TaskTypes.v ===== *)
(** * Tasks, kinds, statuses and details

    The data model of [crates/meilisearch-types/src/tasks.rs]: the enums with
    their constructors, [Task], and every pure function on them.  A Rust enum
    [E] is the inductive [E.t], so that a constructor reads [E.Variant] as in
    the source.  [OffsetDateTime] is the instant it denotes, in nanoseconds
    since the Unix epoch. *)

From S2P Require Import Prelude.
From Stdlib Require Ascii String.
Open Scope Z_scope.

(** ** What the scheduler only carries around

    Types and functions of other crates: [serde_json::Value] and its
    [to_string], [serde_json::Map], API keys, [Settings<Unchecked>] with
    [merge] and [hide_secrets], [ResponseError] and the error codes, the errors
    of the other crates, the progress of a batch, the version constants baked in
    at build time, and the iteration order of a [HashSet<&str>], which the
    standard library leaves unspecified. *)

Class Externals := {
  Value : Type;
  value_to_string : Value → string;
  Object : Type;
  object_empty : Object;
  Key : Type;
  Settings : Type;
  settings_merge : Settings → Settings → Settings;
  settings_hide_secrets : Settings → Settings;
  ResponseError : Type;
  Code : Type;
  MilliError : Type;
  is_aborted_indexation : MilliError → bool;
  is_max_database_size_reached : MilliError → bool;
  RollbackOutcome : Type;
  ForeignError : Type;
  ProgressView : Type;
  VERSION : Z * Z * Z;
  hash_iter : gset string → list string;
}.

(** A [HashSet] iterator yields each element exactly once. *)
Class ExternalsOk `{Externals} := {
  hash_iter_perm : ∀ s, hash_iter s ≡ₚ elements s;
}.

Abbreviation TaskId := Z.
Abbreviation BatchId := Z.
Abbreviation DateTime := Z.
Abbreviation Uuid := Z.

(** ** ASCII case-insensitive comparison: [str::eq_ignore_ascii_case] *)

Definition ascii_to_lower (a : Ascii.ascii) : Ascii.ascii :=
  let n := Ascii.nat_of_ascii a in
  if ((65 <=? n) && (n <=? 90))%nat then Ascii.ascii_of_nat (n + 32) else a.

Fixpoint to_lower (s : string) : string :=
  match s with
  | String.EmptyString => String.EmptyString
  | String.String a s' => String.String (ascii_to_lower a) (to_lower s')
  end.

Definition eq_ignore_ascii_case (s1 s2 : string) : bool :=
  String.eqb (to_lower s1) (to_lower s2).

(** [first match wins] over a chain of [if s.eq_ignore_ascii_case(..)]. *)
Fixpoint from_str_chain {A} (table : list (string * A)) (s : string) : option A :=
  match table with
  | [] => None
  | (name, a) :: table' =>
      if eq_ignore_ascii_case s name then Some a else from_str_chain table' s
  end.

(** ** Status *)

Module Status.
Inductive t := Enqueued | Processing | Succeeded | Failed | Canceled.

#[global] Instance eq_dec : EqDecision t.
Proof. solve_decision. Defined.

Definition to_pos (s : t) : positive :=
  match s with Enqueued => 1 | Processing => 2 | Succeeded => 3 | Failed => 4 | Canceled => 5 end.
Definition of_pos (p : positive) : option t :=
  match p with
  | 1 => Some Enqueued | 2 => Some Processing | 3 => Some Succeeded
  | 4 => Some Failed | 5 => Some Canceled | _ => None
  end%positive.
#[global] Program Instance countable : Countable t :=
  {| encode := to_pos; decode := of_pos |}.
Next Obligation. by intros []. Qed.

(** [enum_iterator::all::<Status>()]. *)
Definition all : list t := [Enqueued; Processing; Succeeded; Failed; Canceled].

Definition to_string (s : t) : string :=
  match s with
  | Enqueued => "enqueued"
  | Processing => "processing"
  | Succeeded => "succeeded"
  | Failed => "failed"
  | Canceled => "canceled"
  end.

Definition from_str_table : list (string * t) :=
  [("enqueued", Enqueued); ("processing", Processing); ("succeeded", Succeeded);
   ("failed", Failed); ("canceled", Canceled)].

Definition from_str (s : string) : option t := from_str_chain from_str_table s.

End Status.

(** ** Kind *)

Module Kind.
Inductive t :=
| DocumentAdditionOrUpdate
| DocumentEdition
| DocumentDeletion
| SettingsUpdate
| IndexCreation
| IndexDeletion
| IndexUpdate
| IndexSwap
| TaskCancelation
| TaskDeletion
| DumpCreation
| SnapshotCreation
| UpgradeDatabase.

#[global] Instance eq_dec : EqDecision t.
Proof. solve_decision. Defined.

(** [enum_iterator::all::<Kind>()]. *)
Definition all : list t :=
  [DocumentAdditionOrUpdate; DocumentEdition; DocumentDeletion; SettingsUpdate; IndexCreation;
   IndexDeletion; IndexUpdate; IndexSwap; TaskCancelation; TaskDeletion; DumpCreation;
   SnapshotCreation; UpgradeDatabase].

Definition to_pos (k : t) : positive :=
  match k with
  | DocumentAdditionOrUpdate => 1 | DocumentEdition => 2 | DocumentDeletion => 3
  | SettingsUpdate => 4 | IndexCreation => 5 | IndexDeletion => 6 | IndexUpdate => 7
  | IndexSwap => 8 | TaskCancelation => 9 | TaskDeletion => 10 | DumpCreation => 11
  | SnapshotCreation => 12 | UpgradeDatabase => 13
  end.
Definition of_pos (p : positive) : option t := all !! Nat.pred (Pos.to_nat p).
#[global] Program Instance countable : Countable t :=
  {| encode := to_pos; decode := of_pos |}.
Next Obligation. by intros []. Qed.

Definition related_to_one_index (k : t) : bool :=
  match k with
  | DocumentAdditionOrUpdate | DocumentEdition | DocumentDeletion | SettingsUpdate
  | IndexCreation | IndexDeletion | IndexUpdate => true
  | IndexSwap | TaskCancelation | TaskDeletion | DumpCreation | UpgradeDatabase
  | SnapshotCreation => false
  end.

Definition to_string (k : t) : string :=
  match k with
  | DocumentAdditionOrUpdate => "documentAdditionOrUpdate"
  | DocumentEdition => "documentEdition"
  | DocumentDeletion => "documentDeletion"
  | SettingsUpdate => "settingsUpdate"
  | IndexCreation => "indexCreation"
  | IndexDeletion => "indexDeletion"
  | IndexUpdate => "indexUpdate"
  | IndexSwap => "indexSwap"
  | TaskCancelation => "taskCancelation"
  | TaskDeletion => "taskDeletion"
  | DumpCreation => "dumpCreation"
  | SnapshotCreation => "snapshotCreation"
  | UpgradeDatabase => "upgradeDatabase"
  end.

Definition from_str_table : list (string * t) :=
  [("indexCreation", IndexCreation); ("indexUpdate", IndexUpdate); ("indexSwap", IndexSwap);
   ("indexDeletion", IndexDeletion); ("documentAdditionOrUpdate", DocumentAdditionOrUpdate);
   ("documentEdition", DocumentEdition); ("documentDeletion", DocumentDeletion);
   ("settingsUpdate", SettingsUpdate); ("taskCancelation", TaskCancelation);
   ("taskDeletion", TaskDeletion); ("dumpCreation", DumpCreation);
   ("snapshotCreation", SnapshotCreation); ("upgradeDatabase", UpgradeDatabase)].

Definition from_str (s : string) : option t := from_str_chain from_str_table s.

End Kind.

(** [milli::update::IndexDocumentsMethod]. *)
Module IndexDocumentsMethod.
Inductive t := ReplaceDocuments | UpdateDocuments.
End IndexDocumentsMethod.

(** [IndexSwap { indexes: (lhs, rhs) }]. *)
Abbreviation IndexSwap := (string * string)%type.

(** ** KindWithContent *)

Module KindWithContent.
Section KindWithContent.
Context `{Externals}.

Inductive t :=
| DocumentAdditionOrUpdate (index_uid : string) (primary_key : option string)
    (method : IndexDocumentsMethod.t) (content_file : Uuid) (documents_count : Z)
    (allow_index_creation : bool)
| DocumentDeletion (index_uid : string) (documents_ids : list string)
| DocumentDeletionByFilter (index_uid : string) (filter_expr : Value)
| DocumentEdition (index_uid : string) (filter_expr : option Value) (context : option Object)
    (function : string)
| DocumentClear (index_uid : string)
| SettingsUpdate (index_uid : string) (new_settings : Settings) (is_deletion : bool)
    (allow_index_creation : bool)
| IndexDeletion (index_uid : string)
| IndexCreation (index_uid : string) (primary_key : option string)
| IndexUpdate (index_uid : string) (primary_key : option string)
| IndexSwap (swaps : list IndexSwap)
| TaskCancelation (query : string) (tasks : bitmap)
| TaskDeletion (query : string) (tasks : bitmap)
| DumpCreation (keys : list Key) (instance_uid : option Uuid)
| SnapshotCreation
| UpgradeDatabase (from : Z * Z * Z).

Definition as_kind (k : t) : Kind.t :=
  match k with
  | DocumentAdditionOrUpdate _ _ _ _ _ _ => Kind.DocumentAdditionOrUpdate
  | DocumentEdition _ _ _ _ => Kind.DocumentEdition
  | DocumentDeletion _ _ => Kind.DocumentDeletion
  | DocumentDeletionByFilter _ _ => Kind.DocumentDeletion
  | DocumentClear _ => Kind.DocumentDeletion
  | SettingsUpdate _ _ _ _ => Kind.SettingsUpdate
  | IndexCreation _ _ => Kind.IndexCreation
  | IndexDeletion _ => Kind.IndexDeletion
  | IndexUpdate _ _ => Kind.IndexUpdate
  | IndexSwap _ => Kind.IndexSwap
  | TaskCancelation _ _ => Kind.TaskCancelation
  | TaskDeletion _ _ => Kind.TaskDeletion
  | DumpCreation _ _ => Kind.DumpCreation
  | SnapshotCreation => Kind.SnapshotCreation
  | UpgradeDatabase _ => Kind.UpgradeDatabase
  end.

(** The set a swap task collects in its local [HashSet]. *)
Definition swap_indexes (swaps : list TaskTypes.IndexSwap) : gset string :=
  foldl (λ s sw, {[sw.2]} ∪ ({[sw.1]} ∪ s)) ∅ swaps.

Definition indexes (k : t) : list string :=
  match k with
  | DumpCreation _ _ | SnapshotCreation | TaskCancelation _ _ | TaskDeletion _ _
  | UpgradeDatabase _ => []
  | DocumentAdditionOrUpdate index_uid _ _ _ _ _
  | DocumentEdition index_uid _ _ _
  | DocumentDeletion index_uid _
  | DocumentDeletionByFilter index_uid _
  | DocumentClear index_uid
  | SettingsUpdate index_uid _ _ _
  | IndexCreation index_uid _
  | IndexUpdate index_uid _
  | IndexDeletion index_uid => [index_uid]
  | IndexSwap swaps => hash_iter (swap_indexes swaps)
  end.
End KindWithContent.
End KindWithContent.

(** ** Details *)

Module Details.
Section Details.
Context `{Externals}.

Inductive t :=
| DocumentAdditionOrUpdate (received_documents : Z) (indexed_documents : option Z)
| SettingsUpdate (settings : Settings)
| IndexInfo (primary_key : option string)
| DocumentDeletion (provided_ids : Z) (deleted_documents : option Z)
| DocumentDeletionByFilter (original_filter : string) (deleted_documents : option Z)
| DocumentEdition (deleted_documents : option Z) (edited_documents : option Z)
    (original_filter : option string) (context : option Object) (function : string)
| ClearAll (deleted_documents : option Z)
| TaskCancelation (matched_tasks : Z) (canceled_tasks : option Z) (original_filter : string)
| TaskDeletion (matched_tasks : Z) (deleted_tasks : option Z) (original_filter : string)
| Dump (dump_uid : option string)
| IndexSwap (swaps : list IndexSwap)
| UpgradeDatabase (from to : Z * Z * Z).

Definition to_failed (d : t) : t :=
  match d with
  | DocumentAdditionOrUpdate received_documents _ =>
      DocumentAdditionOrUpdate received_documents (Some 0)
  | DocumentEdition deleted_documents _ original_filter context function =>
      DocumentEdition deleted_documents (Some 0) original_filter context function
  | DocumentDeletion provided_ids _ => DocumentDeletion provided_ids (Some 0)
  | DocumentDeletionByFilter original_filter _ =>
      DocumentDeletionByFilter original_filter (Some 0)
  | ClearAll _ => ClearAll (Some 0)
  | TaskCancelation matched_tasks _ original_filter =>
      TaskCancelation matched_tasks (Some 0) original_filter
  | TaskDeletion matched_tasks _ original_filter =>
      TaskDeletion matched_tasks (Some 0) original_filter
  | SettingsUpdate _ | IndexInfo _ | Dump _ | UpgradeDatabase _ _ | IndexSwap _ => d
  end.
End Details.
End Details.

Section default_details.
Context `{Externals}.
Import KindWithContent.

(** [KindWithContent::default_details]. *)
Definition default_details (k : KindWithContent.t) : option Details.t :=
  match k with
  | DocumentAdditionOrUpdate _ _ _ _ documents_count _ =>
      Some (Details.DocumentAdditionOrUpdate documents_count None)
  | DocumentEdition _ filter_expr context function =>
      Some (Details.DocumentEdition None None (value_to_string <$> filter_expr) context function)
  | DocumentDeletion _ documents_ids =>
      Some (Details.DocumentDeletion (Z.of_nat (length documents_ids)) None)
  | DocumentDeletionByFilter _ filter_expr =>
      Some (Details.DocumentDeletionByFilter (value_to_string filter_expr) None)
  | DocumentClear _ | IndexDeletion _ => Some (Details.ClearAll None)
  | SettingsUpdate _ new_settings _ _ => Some (Details.SettingsUpdate new_settings)
  | IndexCreation _ primary_key | IndexUpdate _ primary_key =>
      Some (Details.IndexInfo primary_key)
  | IndexSwap swaps => Some (Details.IndexSwap swaps)
  | TaskCancelation query tasks => Some (Details.TaskCancelation (bm_len tasks) None query)
  | TaskDeletion query tasks => Some (Details.TaskDeletion (bm_len tasks) None query)
  | DumpCreation _ _ => Some (Details.Dump None)
  | SnapshotCreation => None
  | UpgradeDatabase from => Some (Details.UpgradeDatabase from VERSION)
  end.

(** [KindWithContent::default_finished_details]; [todo!()] for a swap. *)
Definition default_finished_details {E} (k : KindWithContent.t) : outcome E (option Details.t) :=
  match k with
  | DocumentAdditionOrUpdate _ _ _ _ documents_count _ =>
      Ok (Some (Details.DocumentAdditionOrUpdate documents_count (Some 0)))
  | DocumentEdition _ filter_expr context function =>
      Ok (Some (Details.DocumentEdition (Some 0) (Some 0)
                  (value_to_string <$> filter_expr) context function))
  | DocumentDeletion _ documents_ids =>
      Ok (Some (Details.DocumentDeletion (Z.of_nat (length documents_ids)) (Some 0)))
  | DocumentDeletionByFilter _ filter_expr =>
      Ok (Some (Details.DocumentDeletionByFilter (value_to_string filter_expr) (Some 0)))
  | DocumentClear _ => Ok (Some (Details.ClearAll None))
  | SettingsUpdate _ new_settings _ _ => Ok (Some (Details.SettingsUpdate new_settings))
  | IndexDeletion _ => Ok None
  | IndexCreation _ primary_key | IndexUpdate _ primary_key =>
      Ok (Some (Details.IndexInfo primary_key))
  | IndexSwap _ => Panic
  | TaskCancelation query tasks =>
      Ok (Some (Details.TaskCancelation (bm_len tasks) (Some 0) query))
  | TaskDeletion query tasks => Ok (Some (Details.TaskDeletion (bm_len tasks) (Some 0) query))
  | DumpCreation _ _ => Ok (Some (Details.Dump None))
  | SnapshotCreation => Ok None
  | UpgradeDatabase from => Ok (Some (Details.UpgradeDatabase from VERSION))
  end.

(** [impl From<&KindWithContent> for Option<Details>]. *)
Definition details_of_kind (k : KindWithContent.t) : option Details.t :=
  match k with
  | DocumentAdditionOrUpdate _ _ _ _ documents_count _ =>
      Some (Details.DocumentAdditionOrUpdate documents_count None)
  | DocumentEdition _ _ _ _ | DocumentDeletion _ _ | DocumentDeletionByFilter _ _
  | DocumentClear _ => None
  | SettingsUpdate _ new_settings _ _ => Some (Details.SettingsUpdate new_settings)
  | IndexDeletion _ => None
  | IndexCreation _ primary_key => Some (Details.IndexInfo primary_key)
  | IndexUpdate _ primary_key => Some (Details.IndexInfo primary_key)
  | IndexSwap _ => None
  | TaskCancelation query tasks => Some (Details.TaskCancelation (bm_len tasks) None query)
  | TaskDeletion query tasks => Some (Details.TaskDeletion (bm_len tasks) None query)
  | DumpCreation _ _ => Some (Details.Dump None)
  | SnapshotCreation => None
  | UpgradeDatabase from => Some (Details.UpgradeDatabase from VERSION)
  end.
End default_details.

(** ** Task *)

Section Task.
Context `{Externals}.

Record Task := mkTask {
  uid : TaskId;
  batch_uid : option BatchId;
  enqueued_at : DateTime;
  started_at : option DateTime;
  finished_at : option DateTime;
  error : option ResponseError;
  canceled_by : option TaskId;
  details : option Details.t;
  status : Status.t;
  kind : KindWithContent.t;
}.

Definition Task_index_uid (t : Task) : option string :=
  match kind t with
  | KindWithContent.DumpCreation _ _ | KindWithContent.SnapshotCreation
  | KindWithContent.TaskCancelation _ _ | KindWithContent.TaskDeletion _ _
  | KindWithContent.UpgradeDatabase _ | KindWithContent.IndexSwap _ => None
  | KindWithContent.DocumentAdditionOrUpdate index_uid _ _ _ _ _
  | KindWithContent.DocumentEdition index_uid _ _ _
  | KindWithContent.DocumentDeletion index_uid _
  | KindWithContent.DocumentDeletionByFilter index_uid _
  | KindWithContent.DocumentClear index_uid
  | KindWithContent.SettingsUpdate index_uid _ _ _
  | KindWithContent.IndexCreation index_uid _
  | KindWithContent.IndexUpdate index_uid _
  | KindWithContent.IndexDeletion index_uid => Some index_uid
  end.

Definition Task_indexes (t : Task) : list string := KindWithContent.indexes (kind t).

Definition content_uuid (t : Task) : option Uuid :=
  match kind t with
  | KindWithContent.DocumentAdditionOrUpdate _ _ _ content_file _ _ => Some content_file
  | _ => None
  end.

Definition task_kind (t : Task) : Kind.t := KindWithContent.as_kind (kind t).
End Task.

(** ** Reasons for closing a batch *)

Module PrimaryKeyMismatchReason.
Inductive t :=
| TaskPrimaryKeyDifferFromIndexPrimaryKey (task_pk index_pk : string)
| TaskPrimaryKeyDifferFromCurrentBatchPrimaryKey (task_pk batch_pk : string)
| CannotInterfereWithPrimaryKeyGuessing (task_pk : string).
End PrimaryKeyMismatchReason.

Module BatchStopReason.
Inductive t :=
| Unspecified
| TaskCannotBeBatched (kind : Kind.t) (id : TaskId)
| TaskKindCannotBeBatched (kind : Kind.t)
| ExhaustedEnqueuedTasks
| ExhaustedEnqueuedTasksForIndex (index : string)
| ReachedTaskLimit (task_limit : Z)
| ReachedSizeLimit (size_limit size : Z)
| PrimaryKeyIndexMismatch (id : TaskId) (in_index in_task : string)
| IndexCreationMismatch (id : TaskId)
| PrimaryKeyMismatch (id : TaskId) (reason : PrimaryKeyMismatchReason.t)
| IndexDeletion (id : TaskId)
| DocumentOperationWithSettings (id : TaskId)
| DocumentOperationWithDeletionByFilter (id : TaskId)
| DeletionByFilterWithDocumentOperation (id : TaskId)
| SettingsWithDocumentOperation (id : TaskId).

Definition replace_unspecified (self new : t) : t :=
  match self with Unspecified => new | _ => self end.

(** [impl Display for BatchStopReason]. *)
Definition to_string (r : t) : string :=
  match r with
  | Unspecified => "unspecified"
  | TaskKindCannotBeBatched kind =>
      "a batch of tasks of type `" +:+ Kind.to_string kind
      +:+ "` cannot be batched with any other type of task"
  | TaskCannotBeBatched kind id =>
      "task with id " +:+ pretty id +:+ " of type `" +:+ Kind.to_string kind
      +:+ "` cannot be batched"
  | ExhaustedEnqueuedTasks => "batched all enqueued tasks"
  | ExhaustedEnqueuedTasksForIndex index =>
      "batched all enqueued tasks for index `" +:+ index +:+ "`"
  | ReachedTaskLimit task_limit =>
      "reached configured batch limit of " +:+ pretty task_limit +:+ " tasks"
  | ReachedSizeLimit size_limit size =>
      "reached configured batch size limit of " +:+ pretty size_limit
      +:+ "B with a total of " +:+ pretty size +:+ "B"
  | PrimaryKeyIndexMismatch id in_index in_task =>
      "primary key `" +:+ in_task +:+ "` in task with id " +:+ pretty id
      +:+ " is different from the primary key of the index `" +:+ in_index +:+ "`"
  | IndexCreationMismatch id =>
      "task with id " +:+ pretty id +:+ " has different index creation rules as in the batch"
  | PrimaryKeyMismatch id reason =>
      match reason with
      | PrimaryKeyMismatchReason.TaskPrimaryKeyDifferFromIndexPrimaryKey task_pk index_pk =>
          "primary key `" +:+ task_pk +:+ "` in task with id " +:+ pretty id
          +:+ " is different from the primary key of the index `" +:+ index_pk +:+ "`"
      | PrimaryKeyMismatchReason.TaskPrimaryKeyDifferFromCurrentBatchPrimaryKey task_pk batch_pk =>
          "primary key `" +:+ task_pk +:+ "` in task with id " +:+ pretty id
          +:+ " is different from the primary key of the batch `" +:+ batch_pk +:+ "`"
      | PrimaryKeyMismatchReason.CannotInterfereWithPrimaryKeyGuessing task_pk =>
          "task with id " +:+ pretty id +:+ " is setting the `" +:+ task_pk
          +:+ "` primary key but cannot interfere with primary key guessing of the batch"
      end
  | IndexDeletion id => "task with id " +:+ pretty id +:+ " deletes the index"
  | DocumentOperationWithSettings id =>
      "task with id " +:+ pretty id
      +:+ " is a settings change in a batch of document operations"
  | DocumentOperationWithDeletionByFilter id =>
      "task with id " +:+ pretty id
      +:+ " is a deletion by filter in a batch of document operations"
  | DeletionByFilterWithDocumentOperation id =>
      "task with id " +:+ pretty id
      +:+ " is a document operation in a batch of deletions by filter"
  | SettingsWithDocumentOperation id =>
      "task with id " +:+ pretty id
      +:+ " is a document operation in a batch of settings changes"
  end.
End BatchStopReason.

(** ** A concrete instance of the external types, for the witnesses *)

Definition sample_externals : Externals := {|
  Value := string;
  value_to_string := λ v, v;
  Object := string;
  object_empty := "";
  Key := unit;
  Settings := list string;
  settings_merge := λ a b, a ++ b;
  settings_hide_secrets := λ s, s;
  ResponseError := string;
  Code := string;
  MilliError := string;
  is_aborted_indexation := λ e, String.eqb e "aborted";
  is_max_database_size_reached := λ e, String.eqb e "full";
  RollbackOutcome := string;
  ForeignError := string;
  ProgressView := unit;
  VERSION := (1, 15, 1);
  hash_iter := elements;
|}.

Lemma sample_externals_ok : @ExternalsOk sample_externals.
Proof. constructor. by intros s. Qed.

(** ** Parsing of statuses and kinds *)

Section from_str.
Context {A : Type}.

Lemma from_str_chain_Some (table : list (string * A)) s a :
  from_str_chain table s = Some a →
  ∃ name, (name, a) ∈ table ∧ to_lower s = to_lower name.
Proof.
  induction table as [|[name a'] table IH]; simpl; [done|].
  unfold eq_ignore_ascii_case. destruct (String.eqb_spec (to_lower s) (to_lower name)).
  - intros [= ->]. exists name. split; [left|done].
  - intros (name' & ? & ?)%IH. exists name'. split; [by right|done].
Qed.

Lemma from_str_chain_unique (table : list (string * A)) name a s :
  NoDup ((to_lower ∘ fst) <$> table) → (name, a) ∈ table → to_lower s = to_lower name →
  from_str_chain table s = Some a.
Proof.
  intros Hnd Hin Hs. induction table as [|[name' a'] table IH]; simpl; [by apply not_elem_of_nil in Hin|].
  rewrite fmap_cons, NoDup_cons in Hnd. destruct Hnd as [Hni Hnd].
  unfold eq_ignore_ascii_case. apply elem_of_cons in Hin as [[= <- <-]|Hin].
  - by rewrite Hs, String.eqb_refl.
  - destruct (String.eqb_spec (to_lower s) (to_lower name')) as [Heq|]; [|by apply IH].
    destruct Hni. rewrite Heq in Hs. simpl. rewrite Hs.
    apply list_elem_of_fmap. by exists (name, a).
Qed.
End from_str.

(** A parsing table that lists every value under the name it is printed with. *)
Lemma from_str_table_spec {A} (table : list (string * A)) (name : A → string) s a :
  bool_decide (NoDup ((to_lower ∘ fst) <$> table)) = true →
  Forall (λ x, x.1 = name x.2) table → (name a, a) ∈ table →
  from_str_chain table s = Some a ↔ to_lower s = to_lower (name a).
Proof.
  intros Hnd%bool_decide_eq_true Hname Ha. split; [|by apply from_str_chain_unique].
  intros (n & Hin & ->)%from_str_chain_Some. rewrite Forall_forall in Hname.
  specialize (Hname _ Hin). simpl in Hname. by subst.
Qed.

(** [Kind::from_str] accepts exactly the names [Display] prints, up to
    the case of ASCII letters: in particular printing then parsing a kind gives
    that kind back. *)
Theorem Kind_from_str_spec s k :
  Kind.from_str s = Some k ↔ to_lower s = to_lower (Kind.to_string k).
Proof.
  apply from_str_table_spec; [by vm_compute | by repeat constructor|].
  unfold Kind.from_str_table. destruct k; repeat first [left | right].
Qed.

(** The same for [Status::from_str]. *)
Theorem Status_from_str_spec s st :
  Status.from_str s = Some st ↔ to_lower s = to_lower (Status.to_string st).
Proof.
  apply from_str_table_spec; [by vm_compute | by repeat constructor|].
  unfold Status.from_str_table. destruct st; repeat first [left | right].
Qed.

(** ** Indexes of a task *)

Section indexes.
Context `{Externals}.

Lemma elem_of_swap_indexes swaps i :
  i ∈ KindWithContent.swap_indexes swaps ↔ ∃ sw, sw ∈ swaps ∧ (i = sw.1 ∨ i = sw.2).
Proof.
  unfold KindWithContent.swap_indexes.
  assert (Hgen : ∀ s : gset string, i ∈ foldl (λ s (sw : IndexSwap), {[sw.2]} ∪ ({[sw.1]} ∪ s)) s swaps ↔
    i ∈ s ∨ ∃ sw, sw ∈ swaps ∧ (i = sw.1 ∨ i = sw.2)).
  { induction swaps as [|sw swaps IH]; intros s; simpl; [set_solver|]. rewrite IH. set_solver. }
  rewrite Hgen. set_solver.
Qed.

Lemma Task_index_uid_indexes t i : Task_index_uid t = Some i → Task_indexes t = [i].
Proof. unfold Task_index_uid, Task_indexes. destruct (kind t); naive_solver. Qed.

(** A task is associated with exactly one index iff its kind says so. *)
Lemma related_to_one_index_spec t :
  Kind.related_to_one_index (task_kind t) = true ↔ is_Some (Task_index_uid t).
Proof.
  unfold task_kind, Task_index_uid.
  destruct (kind t); simpl; split; try (by eauto); by intros [].
Qed.
End indexes.
