(* ===== verification/Autobatcher.v ===== *)
(** * The autobatcher

    [crates/index-scheduler/src/scheduler/autobatcher.rs]: how the next
    enqueued tasks of one index are combined into a batch.  [BatchKind.new]
    opens a batch, [BatchKind.accumulate] is the transition function of its
    state machine, [autobatch] the driver.  [panic!] and [unreachable!] are
    [Panic]. *)

From S2P Require Import Prelude TaskTypes.
Open Scope Z_scope.

Module AutobatchKind.
Inductive t :=
| DocumentImport (allow_index_creation : bool) (primary_key : option string)
| DocumentEdition
| DocumentDeletion (by_filter : bool)
| DocumentClear
| Settings (allow_index_creation : bool)
| IndexCreation
| IndexDeletion
| IndexUpdate
| IndexSwap.

Definition allow_index_creation (k : t) : option bool :=
  match k with
  | DocumentImport allow_index_creation _ | Settings allow_index_creation =>
      Some allow_index_creation
  | _ => None
  end.

Definition primary_key (k : t) : option (option string) :=
  match k with
  | DocumentImport _ primary_key => Some primary_key
  | _ => None
  end.

(** [impl From<KindWithContent> for AutobatchKind]. *)
Definition from `{Externals} {E} (k : KindWithContent.t) : outcome E t :=
  match k with
  | KindWithContent.DocumentAdditionOrUpdate _ primary_key _ _ _ allow_index_creation =>
      Ok (DocumentImport allow_index_creation primary_key)
  | KindWithContent.DocumentEdition _ _ _ _ => Ok DocumentEdition
  | KindWithContent.DocumentDeletion _ _ => Ok (DocumentDeletion false)
  | KindWithContent.DocumentClear _ => Ok DocumentClear
  | KindWithContent.DocumentDeletionByFilter _ _ => Ok (DocumentDeletion true)
  | KindWithContent.SettingsUpdate _ _ is_deletion allow_index_creation =>
      Ok (Settings (allow_index_creation && negb is_deletion))
  | KindWithContent.IndexDeletion _ => Ok IndexDeletion
  | KindWithContent.IndexCreation _ _ => Ok IndexCreation
  | KindWithContent.IndexUpdate _ _ => Ok IndexUpdate
  | KindWithContent.IndexSwap _ => Ok IndexSwap
  | KindWithContent.TaskCancelation _ _
  | KindWithContent.TaskDeletion _ _
  | KindWithContent.DumpCreation _ _
  | KindWithContent.UpgradeDatabase _
  | KindWithContent.SnapshotCreation => Panic
  end.
End AutobatchKind.

(** [std::ops::ControlFlow]. *)
Inductive ControlFlow (B C : Type) := Break (b : B) | Continue (c : C).
Arguments Break {B C} b.
Arguments Continue {B C} c.

Module BatchKind.
Inductive t :=
| DocumentClear (ids : list TaskId)
| DocumentOperation (allow_index_creation : bool) (primary_key : option string)
    (operation_ids : list TaskId)
| DocumentEdition (id : TaskId)
| DocumentDeletion (deletion_ids : list TaskId) (includes_by_filter : bool)
| ClearAndSettings (other : list TaskId) (allow_index_creation : bool)
    (settings_ids : list TaskId)
| Settings (allow_index_creation : bool) (settings_ids : list TaskId)
| IndexDeletion (ids : list TaskId)
| IndexCreation (id : TaskId)
| IndexUpdate (id : TaskId)
| IndexSwap (id : TaskId).

Definition allow_index_creation (b : t) : option bool :=
  match b with
  | DocumentOperation allow_index_creation _ _
  | ClearAndSettings _ allow_index_creation _
  | Settings allow_index_creation _ => Some allow_index_creation
  | _ => None
  end.

Definition primary_key (b : t) : option (option string) :=
  match b with
  | DocumentOperation _ primary_key _ => Some primary_key
  | _ => None
  end.

Abbreviation step := (ControlFlow (t * BatchStopReason.t) t).

Section BatchKind.
Context `{Externals} {E : Type}.

(** [BatchKind::new]. *)
Definition new (task_id : TaskId) (kind_with_content : KindWithContent.t)
    (index_pk : option string) : outcome E (step * bool) :=
  let kind := KindWithContent.as_kind kind_with_content in
  k ← AutobatchKind.from kind_with_content;
  match k with
  | AutobatchKind.IndexCreation =>
      Ok (Break (IndexCreation task_id, BatchStopReason.TaskCannotBeBatched kind task_id), true)
  | AutobatchKind.IndexDeletion =>
      Ok (Break (IndexDeletion [task_id], BatchStopReason.IndexDeletion task_id), false)
  | AutobatchKind.IndexUpdate =>
      Ok (Break (IndexUpdate task_id, BatchStopReason.TaskCannotBeBatched kind task_id), false)
  | AutobatchKind.IndexSwap =>
      Ok (Break (IndexSwap task_id, BatchStopReason.TaskCannotBeBatched kind task_id), false)
  | AutobatchKind.DocumentClear => Ok (Continue (DocumentClear [task_id]), false)
  | AutobatchKind.DocumentImport allow_index_creation pk =>
      if bool_decide (index_pk = None) || bool_decide (pk = None) || bool_decide (index_pk = pk)
      then Ok (Continue (DocumentOperation allow_index_creation pk [task_id]),
               allow_index_creation)
      else
        in_index ← unwrap index_pk;
        in_task ← unwrap pk;
        Ok (Break (DocumentOperation allow_index_creation pk [task_id],
                   BatchStopReason.PrimaryKeyIndexMismatch task_id in_index in_task),
            allow_index_creation)
  | AutobatchKind.DocumentEdition =>
      Ok (Break (DocumentEdition task_id, BatchStopReason.TaskCannotBeBatched kind task_id),
          false)
  | AutobatchKind.DocumentDeletion by_filter =>
      Ok (Continue (DocumentDeletion [task_id] by_filter), false)
  | AutobatchKind.Settings allow_index_creation =>
      Ok (Continue (Settings allow_index_creation [task_id]), allow_index_creation)
  end.

(** The primary key of the batch once the incoming task is added to it, or the
    reason the task cannot be added: the first [match] of
    [BatchKind::accumulate]. *)
Definition accumulate_pk (batch_pk task_pk : option (option string)) (index_pk : option string)
    (id : TaskId) : BatchStopReason.t + option string :=
  match batch_pk, task_pk, index_pk with
  (* 1. the incoming task does not interact with the primary key *)
  | _, None, _ | _, Some None, _ => inr (mjoin batch_pk)
  (* 2.1 the index already has a primary key *)
  | _, Some (Some task_pk), Some index_pk =>
      if bool_decide (task_pk = index_pk) then inr (Some task_pk)
      else inl (BatchStopReason.PrimaryKeyMismatch id
             (PrimaryKeyMismatchReason.TaskPrimaryKeyDifferFromIndexPrimaryKey task_pk index_pk))
  (* 2.2 it does not *)
  | Some None, Some (Some task_pk), None =>
      inl (BatchStopReason.PrimaryKeyMismatch id
             (PrimaryKeyMismatchReason.CannotInterfereWithPrimaryKeyGuessing task_pk))
  | Some (Some batch_pk), Some (Some task_pk), None =>
      if bool_decide (task_pk = batch_pk) then inr (Some task_pk)
      else inl (BatchStopReason.PrimaryKeyMismatch id
             (PrimaryKeyMismatchReason.TaskPrimaryKeyDifferFromCurrentBatchPrimaryKey
                task_pk batch_pk))
  | None, Some (Some task_pk), None => inr (Some task_pk)
  end.

(** The second [match] of [BatchKind::accumulate], after its first two arms:
    the transitions of the batch. *)
Definition accumulate_step (self : t) (k : AutobatchKind.t) (id : TaskId)
    (index_already_exists : bool) (pk : option string) : outcome E step :=
  match self, k with
  (* the index deletion can batch with everything but must stop after *)
  | DocumentClear ids, AutobatchKind.IndexDeletion
  | DocumentDeletion ids _, AutobatchKind.IndexDeletion
  | DocumentOperation _ _ ids, AutobatchKind.IndexDeletion
  | Settings _ ids, AutobatchKind.IndexDeletion =>
      Ok (Break (IndexDeletion (ids ++ [id]), BatchStopReason.IndexDeletion id))
  | ClearAndSettings other _ ids, AutobatchKind.IndexDeletion =>
      Ok (Break (IndexDeletion ((ids ++ [id]) ++ other), BatchStopReason.IndexDeletion id))

  | DocumentClear ids, AutobatchKind.DocumentClear
  | DocumentClear ids, AutobatchKind.DocumentDeletion _ =>
      Ok (Continue (DocumentClear (ids ++ [id])))
  | DocumentClear _, AutobatchKind.DocumentImport _ _
  | DocumentClear _, AutobatchKind.Settings _ =>
      Ok (Break (self, BatchStopReason.DocumentOperationWithSettings id))
  | DocumentOperation _ _ operation_ids, AutobatchKind.DocumentClear =>
      Ok (Continue (DocumentClear (operation_ids ++ [id])))

  (* document operations of different kinds can be mixed *)
  | DocumentOperation allow_index_creation _ operation_ids, AutobatchKind.DocumentImport _ _ =>
      Ok (Continue (DocumentOperation allow_index_creation pk (operation_ids ++ [id])))
  | DocumentOperation allow_index_creation _ operation_ids,
    AutobatchKind.DocumentDeletion false =>
      Ok (Continue (DocumentOperation allow_index_creation pk (operation_ids ++ [id])))
  | DocumentOperation _ _ _, AutobatchKind.DocumentDeletion true =>
      Ok (Break (self, BatchStopReason.DocumentOperationWithDeletionByFilter id))
  | DocumentOperation _ _ _, AutobatchKind.Settings _ =>
      Ok (Break (self, BatchStopReason.DocumentOperationWithSettings id))

  | DocumentDeletion deletion_ids _, AutobatchKind.DocumentClear =>
      Ok (Continue (DocumentClear (deletion_ids ++ [id])))
  (* a deletion by filter cannot be batched with an import *)
  | DocumentDeletion _ true, AutobatchKind.DocumentImport _ _ =>
      Ok (Break (self, BatchStopReason.DeletionByFilterWithDocumentOperation id))
  (* a deletion and an import can be batched if the index exists or if none of them creates it *)
  | DocumentDeletion deletion_ids false,
    AutobatchKind.DocumentImport allow_index_creation primary_key =>
      if index_already_exists then
        Ok (Continue (DocumentOperation allow_index_creation primary_key (deletion_ids ++ [id])))
      else if negb allow_index_creation then
        Ok (Continue (DocumentOperation allow_index_creation primary_key (deletion_ids ++ [id])))
      else Ok (Break (self, BatchStopReason.IndexCreationMismatch id))
  | DocumentDeletion deletion_ids includes_by_filter, AutobatchKind.DocumentDeletion by_filter =>
      Ok (Continue (DocumentDeletion (deletion_ids ++ [id]) (includes_by_filter || by_filter)))
  | DocumentDeletion _ _, AutobatchKind.Settings _ =>
      Ok (Break (self, BatchStopReason.DocumentOperationWithSettings id))

  | Settings allow_index_creation settings_ids, AutobatchKind.DocumentClear =>
      Ok (Continue (ClearAndSettings [id] allow_index_creation settings_ids))
  | Settings _ _, AutobatchKind.DocumentImport _ _
  | Settings _ _, AutobatchKind.DocumentDeletion _ =>
      Ok (Break (self, BatchStopReason.SettingsWithDocumentOperation id))
  | Settings allow_index_creation settings_ids, AutobatchKind.Settings _ =>
      Ok (Continue (Settings allow_index_creation (settings_ids ++ [id])))

  | ClearAndSettings other allow_index_creation settings_ids, AutobatchKind.DocumentClear =>
      Ok (Continue (ClearAndSettings (other ++ [id]) allow_index_creation settings_ids))
  | ClearAndSettings _ _ _, AutobatchKind.DocumentImport _ _ =>
      Ok (Break (self, BatchStopReason.SettingsWithDocumentOperation id))
  | ClearAndSettings other allow_index_creation settings_ids, AutobatchKind.DocumentDeletion _ =>
      Ok (Continue (ClearAndSettings (other ++ [id]) allow_index_creation settings_ids))
  | ClearAndSettings other allow_index_creation settings_ids, AutobatchKind.Settings _ =>
      Ok (Continue (ClearAndSettings other allow_index_creation (settings_ids ++ [id])))

  | IndexCreation _, _ | IndexDeletion _, _ | IndexUpdate _, _ | IndexSwap _, _
  | DocumentEdition _, _ => Panic

  (* these incoming kinds are handled before this point *)
  | _, AutobatchKind.IndexCreation | _, AutobatchKind.IndexUpdate
  | _, AutobatchKind.IndexSwap | _, AutobatchKind.DocumentEdition => Panic
  end.

(** [BatchKind::accumulate]. *)
Definition accumulate (self : t) (id : TaskId) (kind_with_content : KindWithContent.t)
    (index_already_exists : bool) (index_pk : option string) : outcome E step :=
  let kind := KindWithContent.as_kind kind_with_content in
  autobatch_kind ← AutobatchKind.from kind_with_content;
  match accumulate_pk (primary_key self) (AutobatchKind.primary_key autobatch_kind)
          index_pk id with
  | inl reason => Ok (Break (self, reason))
  | inr pk =>
      match autobatch_kind with
      (* we don't batch any of these operations *)
      | AutobatchKind.IndexCreation | AutobatchKind.IndexUpdate | AutobatchKind.IndexSwap
      | AutobatchKind.DocumentEdition =>
          Ok (Break (self, BatchStopReason.TaskCannotBeBatched kind id))
      | _ =>
          (* tasks with different index creation rights, on an index that does not exist *)
          if negb index_already_exists
             && bool_decide (allow_index_creation self = Some false)
             && bool_decide (AutobatchKind.allow_index_creation autobatch_kind = Some true)
          then Ok (Break (self, BatchStopReason.IndexCreationMismatch id))
          else accumulate_step self autobatch_kind id index_already_exists pk
      end
  end.
End BatchKind.
End BatchKind.

Section autobatch.
Context `{Externals} {E : Type}.

(** The [for] loop of [autobatch]. *)
Fixpoint autobatch_loop (acc : BatchKind.t) (must_create_index index_exist : bool)
    (primary_key : option string) (enqueued : list (TaskId * KindWithContent.t))
    : outcome E (BatchKind.t * bool * option BatchStopReason.t) :=
  match enqueued with
  | [] => Ok (acc, must_create_index, None)
  | (id, kind_with_content) :: enqueued =>
      r ← BatchKind.accumulate acc id kind_with_content index_exist primary_key;
      match r with
      | Continue acc => autobatch_loop acc must_create_index index_exist primary_key enqueued
      | Break (acc, batch_stop_reason) => Ok (acc, must_create_index, Some batch_stop_reason)
      end
  end.

(** [autobatch]. *)
Definition autobatch (enqueued : list (TaskId * KindWithContent.t)) (index_already_exists : bool)
    (primary_key : option string)
    : outcome E (option (BatchKind.t * bool * option BatchStopReason.t)) :=
  match enqueued with
  | [] => Ok None
  | (id, kind) :: enqueued =>
      r ← BatchKind.new id kind primary_key;
      match r with
      | (Continue acc, must_create_index) =>
          let index_exist := index_already_exists || must_create_index in
          r ← autobatch_loop acc must_create_index index_exist primary_key enqueued;
          Ok (Some r)
      | (Break (acc, batch_stop_reason), create) => Ok (Some (acc, create, Some batch_stop_reason))
      end
  end.
End autobatch.

(** ** What a batch may contain

    The kinds of tasks each batch is made of, as the code that turns a
    [BatchKind] into a [Batch] expects them. *)

Section kinds.
Context `{Externals}.

Definition is_import (k : KindWithContent.t) : bool :=
  match k with KindWithContent.DocumentAdditionOrUpdate _ _ _ _ _ _ => true | _ => false end.
Definition is_deletion (k : KindWithContent.t) : bool :=
  match k with KindWithContent.DocumentDeletion _ _ => true | _ => false end.
Definition is_deletion_by_filter (k : KindWithContent.t) : bool :=
  match k with KindWithContent.DocumentDeletionByFilter _ _ => true | _ => false end.
Definition is_clear (k : KindWithContent.t) : bool :=
  match k with KindWithContent.DocumentClear _ => true | _ => false end.
Definition is_settings (k : KindWithContent.t) : bool :=
  match k with KindWithContent.SettingsUpdate _ _ _ _ => true | _ => false end.
Definition is_edition (k : KindWithContent.t) : bool :=
  match k with KindWithContent.DocumentEdition _ _ _ _ => true | _ => false end.
Definition is_index_deletion (k : KindWithContent.t) : bool :=
  match k with KindWithContent.IndexDeletion _ => true | _ => false end.
Definition is_index_creation (k : KindWithContent.t) : bool :=
  match k with KindWithContent.IndexCreation _ _ => true | _ => false end.
Definition is_index_update (k : KindWithContent.t) : bool :=
  match k with KindWithContent.IndexUpdate _ _ => true | _ => false end.
Definition is_index_swap (k : KindWithContent.t) : bool :=
  match k with KindWithContent.IndexSwap _ => true | _ => false end.

(** The kinds the autobatcher accepts: those that apply to an index. *)
Definition applies_to_index (k : KindWithContent.t) : bool :=
  match k with
  | KindWithContent.TaskCancelation _ _ | KindWithContent.TaskDeletion _ _
  | KindWithContent.DumpCreation _ _ | KindWithContent.UpgradeDatabase _
  | KindWithContent.SnapshotCreation => false
  | _ => true
  end.

Abbreviation tasks := (list (TaskId * KindWithContent.t)).

Definition all_kinds (p : KindWithContent.t → bool) (done : tasks) : Prop :=
  Forall (λ x, p x.2 = true) done.

Definition only_task (p : KindWithContent.t → bool) (id : TaskId) (done : tasks) : Prop :=
  ∃ k, done = [(id, k)] ∧ p k = true.

(** [BatchInv done b]: [b] is a batch of exactly the tasks [done], in the order
    they were enqueued, and each has a kind that batch can hold. *)
Definition BatchInv (done : tasks) (b : BatchKind.t) : Prop :=
  match b with
  | BatchKind.DocumentClear ids =>
      ids = done.*1 ∧
      all_kinds (λ k, is_clear k || is_import k || is_deletion k || is_deletion_by_filter k) done
  | BatchKind.DocumentOperation _ _ ids =>
      ids = done.*1 ∧ all_kinds (λ k, is_import k || is_deletion k) done ∧
      Exists (λ x, is_import x.2 = true) done
  | BatchKind.DocumentEdition id => only_task is_edition id done
  | BatchKind.DocumentDeletion ids by_filter =>
      ids = done.*1 ∧ all_kinds (λ k, is_deletion k || is_deletion_by_filter k) done ∧
      (by_filter = true ↔ Exists (λ x, is_deletion_by_filter x.2 = true) done)
  | BatchKind.ClearAndSettings other _ settings_ids =>
      settings_ids = (filter (λ x, is_settings x.2 = true) done).*1 ∧
      other = (filter (λ x, ¬ is_settings x.2 = true) done).*1 ∧
      all_kinds (λ k, is_settings k || is_clear k || is_deletion k || is_deletion_by_filter k)
        done
  | BatchKind.Settings _ ids => ids = done.*1 ∧ all_kinds is_settings done
  | BatchKind.IndexDeletion ids =>
      ids ≡ₚ done.*1 ∧
      all_kinds (λ k, is_index_deletion k || is_settings k || is_clear k || is_import k ||
                      is_deletion k || is_deletion_by_filter k) done ∧
      (∃ id k, last done = Some (id, k) ∧ is_index_deletion k = true)
  | BatchKind.IndexCreation id => only_task is_index_creation id done
  | BatchKind.IndexUpdate id => only_task is_index_update id done
  | BatchKind.IndexSwap id => only_task is_index_swap id done
  end.

(** A batch the loop can still extend. *)
Definition is_open (b : BatchKind.t) : bool :=
  match b with
  | BatchKind.DocumentClear _ | BatchKind.DocumentOperation _ _ _
  | BatchKind.DocumentDeletion _ _ | BatchKind.ClearAndSettings _ _ _
  | BatchKind.Settings _ _ => true
  | _ => false
  end.

(** The primary key declared by the first import of a list of tasks. *)
Fixpoint first_import_pk (done : tasks) : option (option string) :=
  match done with
  | [] => None
  | (_, KindWithContent.DocumentAdditionOrUpdate _ pk _ _ _ _) :: _ => Some pk
  | _ :: done => first_import_pk done
  end.

Definition import_pk (k : KindWithContent.t) : option string :=
  match k with KindWithContent.DocumentAdditionOrUpdate _ pk _ _ _ _ => pk | _ => None end.

(** The imports of a batch agree on the primary key of the documents. *)
Definition PkInv (index_pk : option string) (done : tasks) (b : BatchKind.t) : Prop :=
  match b with
  | BatchKind.DocumentOperation _ batch_pk _ =>
      match index_pk with
      | Some index_pk => Forall (λ x, ∀ p, import_pk x.2 = Some p → p = index_pk) done
      | None => first_import_pk done = Some batch_pk ∧
                Forall (λ x, ∀ p, import_pk x.2 = Some p → batch_pk = Some p) done
      end
  | _ => True
  end.

(** Whether a task is allowed to create the index it applies to. *)
Definition may_create_index (k : KindWithContent.t) : bool :=
  match k with
  | KindWithContent.DocumentAdditionOrUpdate _ _ _ _ _ allow => allow
  | KindWithContent.SettingsUpdate _ _ is_deletion allow => allow && negb is_deletion
  | KindWithContent.IndexCreation _ _ => true
  | _ => false
  end.

(** No task of the batch was allowed to create the index. *)
Definition NoCreateInv (done : tasks) (b : BatchKind.t) : Prop :=
  BatchKind.allow_index_creation b ≠ Some true ∧ all_kinds (λ k, negb (may_create_index k)) done.
End kinds.

Section autobatch_lemmas.
Context `{Externals} {E : Type}.
Implicit Types (done : list (TaskId * KindWithContent.t)) (b : BatchKind.t).
Implicit Types (k : KindWithContent.t) (id : TaskId).

Lemma all_kinds_snoc p done id k :
  all_kinds p (done ++ [(id, k)]) ↔ all_kinds p done ∧ p k = true.
Proof. unfold all_kinds. by rewrite Forall_app, Forall_singleton. Qed.

Lemma all_kinds_weaken p q done :
  (∀ k, p k = true → q k = true) → all_kinds p done → all_kinds q done.
Proof. unfold all_kinds. intros Hpq Hp. eapply Forall_impl; eauto. Qed.

Lemma Exists_snoc {A} (P : A → Prop) l x : Exists P (l ++ [x]) ↔ Exists P l ∨ P x.
Proof. by rewrite Exists_app, Exists_cons, Exists_nil, (right_id False (∨)). Qed.

Lemma first_import_pk_snoc done id k :
  first_import_pk (done ++ [(id, k)]) =
    match first_import_pk done with
    | Some pk => Some pk
    | None => if is_import k then Some (import_pk k) else None
    end.
Proof. induction done as [|[? []] done IH]; simpl; try done. by destruct k. Qed.

Lemma first_import_pk_None done :
  all_kinds (λ k, negb (is_import k)) done → first_import_pk done = None.
Proof. induction 1 as [|[? []]]; simpl in *; done. Qed.

Lemma deletions_not_by_filter done :
  all_kinds (λ k, is_deletion k || is_deletion_by_filter k) done →
  (false = true ↔ Exists (λ x, is_deletion_by_filter x.2 = true) done) →
  all_kinds is_deletion done.
Proof.
  unfold all_kinds. rewrite !Forall_forall, Exists_exists. intros Hd Hf x Hx.
  specialize (Hd x Hx). destruct (is_deletion x.2) eqn:?; [done|].
  destruct Hf as [_ Hf]. simpl in *. discriminate Hf. eauto.
Qed.

Lemma filter_settings_all done :
  all_kinds is_settings done →
  filter (λ x, is_settings x.2 = true) done = done ∧
  filter (λ x, ¬ is_settings x.2 = true) done = [].
Proof.
  induction 1 as [|x done Hx _ [IH1 IH2]]; [done|].
  rewrite !filter_cons, decide_True, decide_False by (simpl; tauto).
  split; [by rewrite IH1 | done].
Qed.

Lemma filter_partition_Permutation {A} (P : A → Prop) `{!∀ x, Decision (P x)} l :
  filter P l ++ filter (λ x, ¬ P x) l ≡ₚ l.
Proof.
  induction l as [|x l IH]; [done|]. rewrite !filter_cons.
  destruct (decide (P x)), (decide (¬ P x)); try tauto; simpl.
  - by rewrite IH.
  - by rewrite <-Permutation_middle, IH.
Qed.

Lemma BatchInv_IndexDeletion_snoc done id k ids :
  is_index_deletion k = true → ids ≡ₚ done.*1 →
  all_kinds (λ k, is_settings k || is_clear k || is_import k ||
                  is_deletion k || is_deletion_by_filter k) done →
  BatchInv (done ++ [(id, k)]) (BatchKind.IndexDeletion (ids ++ [id])).
Proof.
  intros Hk Hids Hd. simpl. rewrite fmap_app, Hids. split; [done|]. split.
  - rewrite all_kinds_snoc, Hk. split; [|done]. eapply all_kinds_weaken; [|done].
    intros []; done.
  - exists id, k. by rewrite last_snoc.
Qed.

(** Close the goals about the kinds in a batch, after the case analysis. *)
Ltac kinds :=
  repeat match goal with
  | Hb : _ ∧ _ |- _ => destruct Hb
  | Hb : only_task _ _ _ |- _ => destruct Hb as (? & -> & ?)
  end; subst;
  try (apply BatchInv_IndexDeletion_snoc; [done|done|]);
  unfold BatchInv;
  rewrite ?fmap_app, ?filter_app, ?all_kinds_snoc, ?Exists_snoc, ?fmap_app; simpl;
  rewrite ?app_nil_r; repeat split; try done;
  try (eapply all_kinds_weaken; [|eassumption]; intros []; simpl; done);
  try tauto.

Lemma new_inv id k pk r create :
  BatchKind.new (E:=E) id k pk = Ok (r, create) →
  match r with
  | Continue b => BatchInv [(id, k)] b ∧ is_open b = true
  | Break (b, _) => BatchInv [(id, k)] b
  end.
Proof.
  unfold BatchKind.new. destruct k; simpl; intros Hn;
    [destruct (_ || _ || _); [|destruct pk, primary_key; simpl in Hn] | ..];
    simplify_eq; unfold BatchInv, only_task, all_kinds;
    rewrite ?Forall_singleton, ?Exists_cons, ?Exists_nil; naive_solver.
Qed.

Lemma accumulate_inv done b id k ex pk r :
  BatchInv done b → is_open b = true →
  BatchKind.accumulate (E:=E) b id k ex pk = Ok r →
  match r with
  | Continue b' => BatchInv (done ++ [(id, k)]) b' ∧ is_open b' = true
  | Break (b', _) =>
      b' = b ∨ (BatchInv (done ++ [(id, k)]) b' ∧ ∃ ids, b' = BatchKind.IndexDeletion ids)
  end.
Proof.
  intros HI Ho. unfold BatchKind.accumulate.
  destruct (AutobatchKind.from k) as [ak| |] eqn:Hk; simpl; [|done|done].
  destruct (BatchKind.accumulate_pk _ _ _ _) as [|bpk]; [intros; simplify_eq; by left|].
  destruct ak; try (intros; simplify_eq; by left);
    (destruct (negb ex && _ && _); [intros; simplify_eq; by left|]);
    destruct b; simpl in Ho |- *; try done;
    repeat case_match; intros ?; simplify_eq; try (by left);
    destruct k; simpl in Hk; simplify_eq; simpl in HI;
    try (right; split; [|by eexists]); try (split; [|done]); kinds.
  - eapply all_kinds_weaken; [|by apply deletions_not_by_filter]. intros []; done.
  - eapply all_kinds_weaken; [|by apply deletions_not_by_filter]. intros []; done.
  - by rewrite (proj1 (filter_settings_all done ltac:(done))).
  - by rewrite (proj2 (filter_settings_all done ltac:(done))).
  - rewrite <-(app_assoc _ [id]), (Permutation_app_comm [id]), (app_assoc _ _ [id]),
      <-fmap_app. by rewrite filter_partition_Permutation.
  - eexists id, _. by rewrite last_snoc.
Qed.

Ltac pks :=
  repeat match goal with Hd : bool_decide _ = true |- _ => apply bool_decide_eq_true in Hd end;
  simpl; rewrite ?Forall_app, ?Forall_singleton, ?first_import_pk_snoc;
  try match goal with Hf : first_import_pk _ = _ |- _ => rewrite Hf end; simpl;
  repeat split;
  try match goal with
  | Hno : Forall (λ x, ∀ p, _ → False) ?l |- Forall _ ?l =>
      eapply Forall_impl; [exact Hno|]
  end; naive_solver.

Lemma accumulate_pk_inv done b id k ex pk b' :
  BatchInv done b → PkInv pk done b →
  BatchKind.accumulate (E:=E) b id k ex pk = Ok (Continue b') →
  PkInv pk (done ++ [(id, k)]) b'.
Proof.
  intros HI Hpk. unfold BatchKind.accumulate.
  destruct (AutobatchKind.from k) as [ak| |] eqn:Hk; simpl; [|done|done].
  destruct b as [ids|aic bpk ids|?|ids bf|oth aic sids|aic sids|?|?|?|?]; simpl in HI;
    destruct k; simpl in Hk; simplify_eq; simpl;
    try (intros ?; repeat case_match; simplify_eq; exact I).
  - (* a document operation receives an import *)
    destruct pk as [q|]; simpl in Hpk; [|destruct Hpk]; intros ?; repeat case_match;
      simplify_eq; pks.
  - (* a document operation receives a deletion *)
    destruct pk as [q|]; simpl in Hpk; [|destruct Hpk]; intros ?; repeat case_match;
      simplify_eq; pks.
  - (* a deletion becomes a document operation *)
    destruct HI as (_ & Hd & _).
    assert (Hno : Forall (λ x, ∀ p, import_pk x.2 = Some p → False) done).
    { eapply Forall_impl; [exact Hd|]. intros [? []]; simpl; done. }
    assert (Hf : first_import_pk done = None).
    { apply first_import_pk_None. eapply all_kinds_weaken; [|exact Hd]. intros []; done. }
    destruct pk as [q|]; intros ?; repeat case_match; simplify_eq; pks.
Qed.

Lemma new_pk_inv id k pk b create :
  BatchKind.new (E:=E) id k pk = Ok (Continue b, create) → PkInv pk [(id, k)] b.
Proof.
  unfold BatchKind.new. destruct k; simpl; intros Hn; simplify_eq; try exact I.
  destruct pk as [q|], primary_key as [p|]; simpl in Hn;
    repeat case_bool_decide; simplify_eq; simpl; rewrite ?Forall_singleton; naive_solver.
Qed.

Lemma new_create id k pk r create :
  BatchKind.new (E:=E) id k pk = Ok (r, create) → create = may_create_index k.
Proof.
  unfold BatchKind.new. destruct k; simpl; intros Hn; simplify_eq; try done.
  destruct (_ || _ || _); simplify_eq; [done|]. by destruct pk, primary_key; simplify_eq/=.
Qed.

Lemma new_no_create id k pk b :
  BatchKind.new (E:=E) id k pk = Ok (Continue b, false) → NoCreateInv [(id, k)] b.
Proof.
  intros Hn. split.
  - unfold BatchKind.new in Hn. destruct k; simpl in Hn; simplify_eq; simpl; try congruence.
    destruct (_ || _ || _); simplify_eq; [done|]. by destruct pk, primary_key; simplify_eq/=.
  - apply new_create in Hn. unfold all_kinds. rewrite Forall_singleton. simpl. by rewrite <-Hn.
Qed.

Lemma accumulate_no_create done b id k pk b' :
  NoCreateInv done b → BatchKind.accumulate (E:=E) b id k false pk = Ok (Continue b') →
  NoCreateInv (done ++ [(id, k)]) b'.
Proof.
  intros [Hb Hd]. unfold BatchKind.accumulate.
  destruct (AutobatchKind.from k) as [ak| |] eqn:Hk; simpl; [|done|done].
  destruct (BatchKind.accumulate_pk _ _ _ _) as [|bpk]; [done|].
  unfold NoCreateInv. rewrite all_kinds_snoc.
  destruct k; simpl in Hk; simplify_eq; simpl; try done;
    destruct b; simpl in Hb |- *; intros; repeat case_match; simplify_eq/=; try done;
    repeat match goal with b : bool |- _ => destruct b end; simpl in *; try done.
Qed.

(** Rule induction on the run of the loop: [P] holds of the open batch after
    each accumulated task, [Q] of the batch that is returned. *)
Lemma autobatch_loop_ind (P Q : list (TaskId * KindWithContent.t) → BatchKind.t → Prop)
    ex pk create l done b b' create' reason :
  (∀ done b, P done b → Q done b) →
  (∀ done b id k b', P done b →
     BatchKind.accumulate (E:=E) b id k ex pk = Ok (Continue b') → P (done ++ [(id, k)]) b') →
  (∀ done b id k b' r, P done b →
     BatchKind.accumulate (E:=E) b id k ex pk = Ok (Break (b', r)) →
     b' = b ∨ Q (done ++ [(id, k)]) b') →
  P done b →
  autobatch_loop (E:=E) b create ex pk l = Ok (b', create', reason) →
  create' = create ∧
  ∃ l1 l2, l = l1 ++ l2 ∧ Q (done ++ l1) b' ∧ (reason = None → l2 = []).
Proof.
  intros HPQ Hc Hb. revert done b. induction l as [|[id k] l IH]; intros done b HP; simpl.
  - intros [= <- <- <-]. split; [done|]. exists [], []. rewrite (app_nil_r done). auto.
  - intros (r & Hr & Hl)%bind_Ok. destruct r as [[b1 r]|b1].
    + simplify_eq. split; [done|]. apply (Hb done) in Hr as [->|HQ]; [..|done].
      * exists [], ((id, k) :: l). rewrite (app_nil_r done). naive_solver.
      * exists [(id, k)], l. naive_solver.
    + apply Hc with (done:=done) in Hr; [|done].
      destruct (IH _ _ Hr Hl) as (-> & l1 & l2 & -> & HQ & Hn). split; [done|].
      exists ((id, k) :: l1), l2. by rewrite <-app_assoc in HQ.
Qed.

Lemma autobatch_ind (P Q : list (TaskId * KindWithContent.t) → BatchKind.t → Prop)
    enqueued ex pk b create reason :
  let ex' := ex || create in
  (∀ done b, P done b → Q done b) →
  (∀ done b id k b', P done b →
     BatchKind.accumulate (E:=E) b id k ex' pk = Ok (Continue b') → P (done ++ [(id, k)]) b') →
  (∀ done b id k b' r, P done b →
     BatchKind.accumulate (E:=E) b id k ex' pk = Ok (Break (b', r)) →
     b' = b ∨ Q (done ++ [(id, k)]) b') →
  (∀ id k b, BatchKind.new (E:=E) id k pk = Ok (Continue b, create) → P [(id, k)] b) →
  (∀ id k r, BatchKind.new (E:=E) id k pk = Ok (Break (b, r), create) →
     reason = Some r → Q [(id, k)] b) →
  autobatch (E:=E) enqueued ex pk = Ok (Some (b, create, reason)) →
  ∃ done rest, enqueued = done ++ rest ∧ done ≠ [] ∧ Q done b ∧ (reason = None → rest = []).
Proof.
  intros ex' HPQ Hc Hb Hn1 Hn2. unfold autobatch. destruct enqueued as [|[id k] l]; [done|].
  intros (r & Hr & Hl)%bind_Ok. destruct r as [[[b1 r]|b1] create1].
  - simplify_eq. exists [(id, k)], l. split_and!; [done|done|by eapply Hn2|done].
  - apply bind_Ok in Hl as ([[b2 create2] reason2] & Hl & [= -> -> ->]).
    assert (create1 = create) as ->.
    { revert Hl. generalize (ex || create1). clear -E. intros ex. revert b1.
      induction l as [|[id k] l IH]; intros b1; simpl; [by intros [= <- <- <-]|].
      intros ([[b2 r]|b2] & _ & Hl)%bind_Ok; [by simplify_eq | by eapply IH]. }
    eapply (autobatch_loop_ind P Q _ _ _ _ [(id, k)]) in Hl; [|eauto..].
    destruct Hl as (_ & l1 & l2 & -> & HQ & Hr'). exists ((id, k) :: l1), l2. split_and!; done.
Qed.

Lemma BatchInv_not_index_deletion_last done id k ids :
  BatchInv (done ++ [(id, k)]) (BatchKind.IndexDeletion ids) → is_index_deletion k = true.
Proof. intros (_ & _ & id' & k' & Hl & Hk). rewrite last_snoc in Hl. by simplify_eq. Qed.

Lemma from_applies_to_index k :
  applies_to_index k = true → ∃ ak, AutobatchKind.from (E:=E) k = Ok ak.
Proof. destruct k; simpl; eauto; done. Qed.

Lemma new_total id k pk :
  applies_to_index k = true →
  ∃ r create, BatchKind.new (E:=E) id k pk = Ok (r, create) ∧
    (∀ b, r = Continue b → is_open b = true).
Proof.
  unfold BatchKind.new.
  destruct k; simpl; intros ?; try done; try (by eexists _, _; split; [done|]; naive_solver).
  case_bool_decide; simpl; [by eexists _, _; split; [done|]; naive_solver|].
  case_bool_decide; simpl; [by eexists _, _; split; [done|]; naive_solver|].
  case_bool_decide; simpl; [by eexists _, _; split; [done|]; naive_solver|].
  destruct pk, primary_key; simpl; try done. eexists _, _; split; [done|]; naive_solver.
Qed.

Lemma accumulate_total b id k ex pk :
  is_open b = true → applies_to_index k = true →
  ∃ r, BatchKind.accumulate (E:=E) b id k ex pk = Ok r ∧
    (∀ b', r = Continue b' → is_open b' = true).
Proof.
  intros Hb Hk. unfold BatchKind.accumulate.
  destruct (from_applies_to_index k Hk) as [ak ->]. simpl.
  destruct (BatchKind.accumulate_pk _ _ _ _) as [|bpk];
    [eexists; split; [done|]; naive_solver|].
  destruct ak; try (by eexists; split; [done|]; naive_solver);
    (destruct (negb ex && _ && _); [by eexists; split; [done|]; naive_solver|]);
    destruct b; simpl in Hb |- *; try done; repeat case_match;
    try (by eexists; split; [done|]; naive_solver).
Qed.

Lemma autobatch_loop_total b create ex pk l :
  is_open b = true → Forall (λ x, applies_to_index x.2 = true) l →
  ∃ r, autobatch_loop (E:=E) b create ex pk l = Ok r.
Proof.
  intros Hb Hl. revert b Hb. induction Hl as [|[id k] l Hk _ IH]; intros b Hb; simpl; [eauto|].
  destruct (accumulate_total b id k ex pk Hb Hk) as (r & -> & Hr). simpl.
  destruct r as [[b' r]|b']; [eauto|]. apply IH. by apply Hr.
Qed.
End autobatch_lemmas.

(** ** Correctness of the autobatcher *)

Section autobatch_theorems.
Context `{Externals} {E : Type}.

(** What a returned batch is made of. *)
Lemma autobatch_inv enqueued index_already_exists primary_key b create reason :
  autobatch (E:=E) enqueued index_already_exists primary_key = Ok (Some (b, create, reason)) →
  ∃ done rest, enqueued = done ++ rest ∧ done ≠ [] ∧ BatchInv done b ∧
    (reason = None → rest = []).
Proof.
  apply (autobatch_ind (λ done b, BatchInv done b ∧ is_open b = true) BatchInv).
  - by intros ?? [].
  - intros ????? [HI Ho] Hr. by apply (accumulate_inv _ _ _ _ _ _ _ HI Ho) in Hr.
  - intros ?????? [HI Ho] Hr. apply (accumulate_inv _ _ _ _ _ _ _ HI Ho) in Hr.
    destruct Hr as [?|[? _]]; [by left|by right].
  - intros ??? Hr. by apply new_inv in Hr.
  - intros ??? Hr _. by apply new_inv in Hr.
Qed.

(** The imports of one batch agree on the primary key: they declare either
    none, or the one of the index when it has one, or else the one the first
    import declares (which is also the one recorded in the batch).  The only
    exception is the batch of one task that is meant to fail because its
    primary key is not the one of the index. *)
Theorem autobatch_primary_key enqueued index_already_exists primary_key b create reason :
  autobatch (E:=E) enqueued index_already_exists primary_key = Ok (Some (b, create, reason)) →
  (∀ id in_index in_task,
     reason ≠ Some (BatchStopReason.PrimaryKeyIndexMismatch id in_index in_task)) →
  ∃ done rest, enqueued = done ++ rest ∧ BatchInv done b ∧ PkInv primary_key done b.
Proof.
  intros Ha Hreason.
  eapply (autobatch_ind
    (λ done b, (BatchInv done b ∧ is_open b = true) ∧ PkInv primary_key done b)
    (λ done b, BatchInv done b ∧ PkInv primary_key done b)) in Ha; [naive_solver|..].
  - naive_solver.
  - intros ????? [[HI Ho] Hp] Hr. split.
    + by apply (accumulate_inv _ _ _ _ _ _ _ HI Ho) in Hr.
    + by apply (accumulate_pk_inv _ _ _ _ _ _ _ HI Hp) in Hr.
  - intros ?????? [[HI Ho] _] Hr. apply (accumulate_inv _ _ _ _ _ _ _ HI Ho) in Hr.
    destruct Hr as [?|[? [ids ->]]]; [by left|by right].
  - intros ??? Hr. split; [by apply new_inv in Hr | by apply new_pk_inv in Hr].
  - intros id k r Hr ->. split; [by apply new_inv in Hr|].
    unfold BatchKind.new in Hr. destruct k; simpl in Hr; simplify_eq; try exact I.
    destruct (_ || _ || _); simplify_eq.
    destruct primary_key as [?|], primary_key0 as [?|]; simplify_eq/=.
    by destruct (Hreason id s s0).
Qed.

(** The index creation flag is sound: it says whether the first task of
    the batch may create the index, and when it is false for an index that does
    not exist, no task of the batch was allowed to create that index. *)
Theorem autobatch_index_creation enqueued index_already_exists primary_key b create reason :
  autobatch (E:=E) enqueued index_already_exists primary_key = Ok (Some (b, create, reason)) →
  (∃ id k, head enqueued = Some (id, k) ∧ create = may_create_index k) ∧
  (index_already_exists = false → create = false →
   ∃ done rest, enqueued = done ++ rest ∧ BatchInv done b ∧
     all_kinds (λ k, negb (may_create_index k)) done).
Proof.
  intros Ha. split.
  - unfold autobatch in Ha. destruct enqueued as [|[id k] l]; [done|].
    apply bind_Ok in Ha as ([r create1] & Hn & Hl). exists id, k. split; [done|].
    apply new_create in Hn as ->. destruct r as [[]|]; [by simplify_eq|].
    apply bind_Ok in Hl as ([[b2 create2] reason2] & Hl & [= -> -> ->]).
    eapply (autobatch_loop_ind (λ _ _, True) (λ _ _, True) _ _ _ _ []) in Hl; naive_solver.
  - intros -> ->.
    eapply (autobatch_ind
      (λ done b, (BatchInv done b ∧ is_open b = true) ∧ NoCreateInv done b)
      (λ done b, BatchInv done b ∧ all_kinds (λ k, negb (may_create_index k)) done)) in Ha;
      [naive_solver|..].
    + intros ?? [[] []]. done.
    + intros ????? [[HI Ho] Hp] Hr. split.
      * by apply (accumulate_inv _ _ _ _ _ _ _ HI Ho) in Hr.
      * by apply (accumulate_no_create _ _ _ _ _ _ Hp) in Hr.
    + intros ? ? ? k ?? [[HI Ho] [_ Hp]] Hr. apply (accumulate_inv _ _ _ _ _ _ _ HI Ho) in Hr.
      destruct Hr as [?|[HI' [ids ->]]]; [by left|right]. split; [done|].
      rewrite all_kinds_snoc. split; [done|].
      apply BatchInv_not_index_deletion_last in HI'. by destruct k.
    + intros ??? Hr. split; [by apply new_inv in Hr | by apply new_no_create in Hr].
    + intros ??? Hr _. split; [by apply new_inv in Hr|]. apply new_create in Hr.
      unfold all_kinds. rewrite Forall_singleton. simpl. by rewrite <-Hr.
Qed.

(** The autobatcher neither panics nor gives up on tasks that all apply to an
    index: its [unreachable!]s and [panic!]s are unreachable. *)
Lemma autobatch_returns enqueued index_already_exists primary_key :
  enqueued ≠ [] → Forall (λ x, applies_to_index x.2 = true) enqueued →
  ∃ r, autobatch (E:=E) enqueued index_already_exists primary_key = Ok (Some r).
Proof.
  intros Hne Hall. unfold autobatch. destruct Hall as [|[id k] l Hk Hl]; [done|].
  destruct (new_total (E:=E) id k primary_key Hk) as (r & create & -> & Hr). simpl.
  destruct r as [[b r]|b]; [eauto|].
  destruct (autobatch_loop_total (E:=E) b create (index_already_exists || create) primary_key l)
    as [r' ->]; [by apply Hr | done | simpl; eauto].
Qed.
(** C10. On a non-empty list of tasks that all apply to an index the autobatcher
    returns a batch (none of its [unreachable!]s and [panic!]s is reached), made
    of a non-empty prefix of the list: it holds exactly the ids of the prefix, only
    tasks of the kinds its variant stands for, and the prefix is the whole list when no
    stop reason is given.  The ids are in the order the tasks were enqueued,
    except in the deletion of an index, which ends the prefix and where the ids it takes over can come in
    another order (a permutation); settings batched with a clear keep apart the ids of the settings from the others, each in
    order. *)
Theorem autobatch_prefix enqueued index_already_exists primary_key :
  enqueued ≠ [] → Forall (λ x, applies_to_index x.2 = true) enqueued →
  ∃ b create reason,
    autobatch (E:=E) enqueued index_already_exists primary_key = Ok (Some (b, create, reason)) ∧
    ∃ done rest, enqueued = done ++ rest ∧ done ≠ [] ∧ BatchInv done b ∧
      (reason = None → rest = []).
Proof.
  intros Hne Hall.
  destruct (autobatch_returns enqueued index_already_exists primary_key Hne Hall) as [[[b c] r] Hr].
  exists b, c, r. split; [done|]. by eapply autobatch_inv.
Qed.
End autobatch_theorems.

(** ** Witnesses *)

Section autobatch_witnesses.
#[local] Existing Instance sample_externals.

(** An import, a deletion and a settings change: the last one closes the batch. *)
Definition sample_enqueued : list (TaskId * KindWithContent.t) :=
  [ (0, KindWithContent.DocumentAdditionOrUpdate "movies" (Some "id")
          IndexDocumentsMethod.ReplaceDocuments 7 1 true);
    (1, KindWithContent.DocumentDeletion "movies" ["a"; "b"]);
    (2, KindWithContent.SettingsUpdate "movies" [] false true) ].

Definition sample_batch : BatchKind.t * bool * option BatchStopReason.t :=
  (BatchKind.DocumentOperation true (Some "id") [0; 1], true,
   Some (BatchStopReason.DocumentOperationWithSettings 2)).

Lemma sample_autobatch :
  autobatch (E:=unit) sample_enqueued false None = Ok (Some sample_batch).
Proof. reflexivity. Qed.

Lemma autobatch_prefix_witness :
  ∃ b create reason,
    autobatch (E:=unit) sample_enqueued false None = Ok (Some (b, create, reason)) ∧
    ∃ done rest, sample_enqueued = done ++ rest ∧ done ≠ [] ∧ BatchInv done b ∧
      (reason = None → rest = []).
Proof. apply autobatch_prefix; [done | by repeat constructor]. Defined.

Lemma autobatch_primary_key_witness :
  ∃ done rest, sample_enqueued = done ++ rest ∧
    BatchInv done (BatchKind.DocumentOperation true (Some "id") [0; 1]) ∧
    PkInv None done (BatchKind.DocumentOperation true (Some "id") [0; 1]).
Proof.
  apply (autobatch_primary_key (E:=unit) sample_enqueued false None _ true
           (Some (BatchStopReason.DocumentOperationWithSettings 2))); [reflexivity | done].
Defined.

(** Two imports that may not create the index, then one that may. *)
Definition sample_enqueued_no_create : list (TaskId * KindWithContent.t) :=
  [ (4, KindWithContent.DocumentAdditionOrUpdate "movies" None
          IndexDocumentsMethod.UpdateDocuments 7 1 false);
    (5, KindWithContent.DocumentClear "movies");
    (6, KindWithContent.DocumentAdditionOrUpdate "movies" None
          IndexDocumentsMethod.UpdateDocuments 8 1 true) ].

Lemma autobatch_index_creation_witness :
  (∃ id k, head sample_enqueued_no_create = Some (id, k) ∧ false = may_create_index k) ∧
  ∃ done rest, sample_enqueued_no_create = done ++ rest ∧
    BatchInv done (BatchKind.DocumentClear [4; 5]) ∧
    all_kinds (λ k, negb (may_create_index k)) done.
Proof.
  destruct (autobatch_index_creation (E:=unit) sample_enqueued_no_create false None
    (BatchKind.DocumentClear [4; 5]) false
    (Some (BatchStopReason.DocumentOperationWithSettings 6))) as [H1 H2]; [reflexivity|].
  split; [exact H1 | apply H2; reflexivity].
Defined.
End autobatch_witnesses.
