(* ===== verification/DetailsView.v ===== *)
(** * Details of a batch

    [crates/meilisearch-types/src/task_view.rs]: the view of a task's details
    and how the details of the tasks of a batch are accumulated into one. *)

From S2P Require Import Prelude TaskTypes.
Open Scope Z_scope.

Section DetailsView.
Context `{Externals}.

Record DetailsView := mkDetailsView {
  received_documents : option Z;
  indexed_documents : option (option Z);
  edited_documents : option (option Z);
  primary_key : option (option string);
  provided_ids : option Z;
  deleted_documents : option (option Z);
  matched_tasks : option Z;
  canceled_tasks : option (option Z);
  deleted_tasks : option (option Z);
  original_filter : option (option string);
  dump_uid : option (option string);
  context : option (option Object);
  function : option string;
  settings : option Settings;
  swaps : option (list IndexSwap);
  upgrade_from : option string;
  upgrade_to : option string;
}.

(** [DetailsView::default()]. *)
Definition DetailsView_default : DetailsView :=
  mkDetailsView None None None None None None None None None None None None None None None
    None None.

(** The three shapes of [match] of [accumulate]: a plain field, a field whose
    value can itself be absent, and what happens when both sides have one. *)
Definition acc {A} (both : A → A → A) (left right : option A) : option A :=
  match left, right with
  | None, None => None
  | None, Some x | Some x, None => Some x
  | Some l, Some r => Some (both l r)
  end.

Definition acc_opt {A} (both : A → A → A) (left right : option (option A)) : option (option A) :=
  match left, right with
  | None, None => None
  | None, Some None | Some None, None | Some None, Some None => Some None
  | None, Some (Some x) | Some None, Some (Some x)
  | Some (Some x), None | Some (Some x), Some None => Some (Some x)
  | Some (Some l), Some (Some r) => Some (Some (both l r))
  end.

Definition keep_left {A} (l r : A) : A := l.
Definition keep_right {A} (l r : A) : A := r.
Definition add_u64 (l r : Z) : Z := u64_wrap (l + r).
Definition join_filters (l r : string) : string := l +:+ "&" +:+ r.

(** [DetailsView::accumulate]. *)
Definition accumulate (self other : DetailsView) : DetailsView := {|
  received_documents := acc add_u64 (received_documents self) (received_documents other);
  indexed_documents := acc_opt add_u64 (indexed_documents self) (indexed_documents other);
  edited_documents := acc_opt add_u64 (edited_documents self) (edited_documents other);
  primary_key := acc_opt keep_left (primary_key self) (primary_key other);
  provided_ids := acc add_u64 (provided_ids self) (provided_ids other);
  deleted_documents := acc_opt add_u64 (deleted_documents self) (deleted_documents other);
  matched_tasks := acc add_u64 (matched_tasks self) (matched_tasks other);
  canceled_tasks := acc_opt add_u64 (canceled_tasks self) (canceled_tasks other);
  deleted_tasks := acc_opt add_u64 (deleted_tasks self) (deleted_tasks other);
  original_filter := acc_opt join_filters (original_filter self) (original_filter other);
  dump_uid := acc_opt keep_left (dump_uid self) (dump_uid other);
  context := acc_opt keep_left (context self) (context other);
  function := acc keep_left (function self) (function other);
  settings := acc settings_merge (settings self) (settings other);
  swaps := acc app (swaps self) (swaps other);
  upgrade_from := acc keep_left (upgrade_from self) (upgrade_from other);
  upgrade_to := acc keep_right (upgrade_to self) (upgrade_to other);
|}.

Definition version_to_string (v : Z * Z * Z) : string :=
  let '(major, minor, patch) := v in
  "v" +:+ pretty major +:+ "." +:+ pretty minor +:+ "." +:+ pretty patch.

(** [impl From<Details> for DetailsView]. *)
Definition DetailsView_from (d : Details.t) : DetailsView :=
  let 'mkDetailsView a b c d0 e f g h i j k l m n o p q := DetailsView_default in
  match d with
  | Details.DocumentAdditionOrUpdate received_documents indexed_documents =>
      mkDetailsView (Some received_documents) (Some indexed_documents)
        c d0 e f g h i j k l m n o p q
  | Details.DocumentEdition deleted_documents edited_documents original_filter context function =>
      mkDetailsView a b (Some edited_documents) d0 e (Some deleted_documents) g h i
        (Some original_filter) k (Some context) (Some function) n o p q
  | Details.SettingsUpdate settings =>
      mkDetailsView a b c d0 e f g h i j k l m (Some (settings_hide_secrets settings)) o p q
  | Details.IndexInfo primary_key =>
      mkDetailsView a b c (Some primary_key) e f g h i j k l m n o p q
  | Details.DocumentDeletion received_document_ids deleted_documents =>
      mkDetailsView a b c d0 (Some received_document_ids) (Some deleted_documents) g h i
        (Some None) k l m n o p q
  | Details.DocumentDeletionByFilter original_filter deleted_documents =>
      mkDetailsView a b c d0 (Some 0) (Some deleted_documents) g h i
        (Some (Some original_filter)) k l m n o p q
  | Details.ClearAll deleted_documents =>
      mkDetailsView a b c d0 e (Some deleted_documents) g h i j k l m n o p q
  | Details.TaskCancelation matched_tasks canceled_tasks original_filter =>
      mkDetailsView a b c d0 e f (Some matched_tasks) (Some canceled_tasks) i
        (Some (Some original_filter)) k l m n o p q
  | Details.TaskDeletion matched_tasks deleted_tasks original_filter =>
      mkDetailsView a b c d0 e f (Some matched_tasks) h (Some deleted_tasks)
        (Some (Some original_filter)) k l m n o p q
  | Details.Dump dump_uid =>
      mkDetailsView a b c d0 e f g h i j (Some dump_uid) l m n o p q
  | Details.IndexSwap swaps =>
      mkDetailsView a b c d0 e f g h i j k l m n (Some swaps) p q
  | Details.UpgradeDatabase from to =>
      mkDetailsView a b c d0 e f g h i j k l m n o
        (Some (version_to_string from)) (Some (version_to_string to))
  end.

(** [TaskView] and [TaskView::from_task]. *)
Record TaskView := mkTaskView {
  tv_uid : TaskId;
  tv_batch_uid : option BatchId;
  tv_index_uid : option string;
  tv_status : Status.t;
  tv_kind : Kind.t;
  tv_canceled_by : option TaskId;
  tv_details : option DetailsView;
  tv_error : option ResponseError;
  tv_duration : option Z;
  tv_enqueued_at : DateTime;
  tv_started_at : option DateTime;
  tv_finished_at : option DateTime;
}.

Definition from_task (task : Task) : TaskView := {|
  tv_uid := uid task;
  tv_batch_uid := batch_uid task;
  tv_index_uid := Task_index_uid task;
  tv_status := status task;
  tv_kind := task_kind task;
  tv_canceled_by := canceled_by task;
  tv_details := DetailsView_from <$> details task;
  tv_error := error task;
  tv_duration :=
    match started_at task, finished_at task with
    | Some start, Some end_ => Some (end_ - start)
    | _, _ => None
    end;
  tv_enqueued_at := enqueued_at task;
  tv_started_at := started_at task;
  tv_finished_at := finished_at task;
|}.
End DetailsView.

(** ** Accumulation is a monoid *)

Section acc_lemmas.
Context {A : Type} (both : A → A → A).

Lemma acc_assoc : Assoc (=) both → Assoc (=) (acc both).
Proof. intros Ha [x|] [y|] [z|]; simpl; by rewrite ?(assoc _). Qed.

Lemma acc_opt_assoc : Assoc (=) both → Assoc (=) (acc_opt both).
Proof. intros Ha [[x|]|] [[y|]|] [[z|]|]; simpl; by rewrite ?(assoc _). Qed.

Lemma acc_left_id x : acc both None x = x.
Proof. by destruct x. Qed.

Lemma acc_right_id x : acc both x None = x.
Proof. by destruct x. Qed.

Lemma acc_opt_left_id x : acc_opt both None x = x.
Proof. by destruct x as [[]|]. Qed.

Lemma acc_opt_right_id x : acc_opt both x None = x.
Proof. by destruct x as [[]|]. Qed.
End acc_lemmas.

#[export] Instance add_u64_assoc : Assoc (=) add_u64.
Proof.
  intros x y z. unfold add_u64, u64_wrap.
  rewrite Zplus_mod_idemp_r, Zplus_mod_idemp_l. f_equal. lia.
Qed.

#[export] Instance keep_left_assoc {A} : Assoc (=) (@keep_left A).
Proof. by intros x y z. Qed.

#[export] Instance keep_right_assoc {A} : Assoc (=) (@keep_right A).
Proof. by intros x y z. Qed.

Lemma string_app_assoc (x y z : string) : x +:+ (y +:+ z) = (x +:+ y) +:+ z.
Proof.
  induction x as [|a x IH]; [done|].
  change (String.String a (x +:+ (y +:+ z)) = String.String a ((x +:+ y) +:+ z)). by rewrite IH.
Qed.

#[export] Instance join_filters_assoc : Assoc (=) join_filters.
Proof. intros x y z. unfold join_filters. by rewrite !string_app_assoc. Qed.

Section monoid.
Context `{Externals}.

(** Accumulating details is a monoid with the default view as unit,
    provided merging settings is associative: the details of a batch do not
    depend on how its tasks are grouped, only on their order. *)
Theorem accumulate_monoid :
  Assoc (=) settings_merge →
  Assoc (=) accumulate ∧ LeftId (=) DetailsView_default accumulate ∧
  RightId (=) DetailsView_default accumulate.
Proof.
  intros Hm. split_and!.
  - intros x y z. unfold accumulate; simpl. f_equal;
      first [apply acc_assoc | apply acc_opt_assoc]; apply _.
  - intros []. unfold accumulate, DetailsView_default.
    f_equal; first [apply acc_left_id | apply acc_opt_left_id].
  - intros []. unfold accumulate, DetailsView_default.
    f_equal; first [apply acc_right_id | apply acc_opt_right_id].
Qed.
End monoid.

Section monoid_witness.
#[local] Existing Instance sample_externals.

Lemma accumulate_monoid_witness :
  Assoc (=) (accumulate (H:=sample_externals)).
Proof. apply (accumulate_monoid (H:=sample_externals)). intros x y z. apply app_assoc. Defined.
End monoid_witness.
