(* ===== verification/SchedUtils.v ===== *)
(** * Utilities of the scheduler

    [crates/index-scheduler/src/utils.rs], [error.rs] and the batch types of
    [crates/meilisearch-types/src/batches.rs]: the batch being processed, the
    date tables, the functions that rewrite or check a task, and the
    dichotomic search. *)

From S2P Require Import Prelude TaskTypes DetailsView.
Open Scope Z_scope.

(** ** Errors of the index scheduler *)

Section Error.
Context `{Externals}.

Inductive Error :=
| WithCustomErrorCode (code : Code) (e : Error)
| BadTaskId (received expected : TaskId)
| IndexNotFound (index : string)
| IndexAlreadyExists (index : string)
| SwapDuplicateIndexFound (index : string)
| SwapDuplicateIndexesFound (indexes : list string)
| SwapIndexNotFound (index : string)
| NoSpaceLeftInTaskQueue
| SwapIndexesNotFound (indexes : list string)
| CorruptedDump
| InvalidTaskDate (field date : string)
| InvalidTaskUid (task_uid : string)
| InvalidBatchUid (batch_uid : string)
| InvalidTaskStatuses (status : string)
| InvalidTaskTypes (type_ : string)
| InvalidTaskCanceledBy (canceled_by : string)
| InvalidIndexUid (index_uid : string)
| TaskNotFound (id : TaskId)
| TaskFileNotFound (id : TaskId)
| BatchNotFound (id : BatchId)
| TaskDeletionWithEmptyQuery
| TaskCancelationWithEmptyQuery
| AbortedTask
| Dump (e : ForeignError)
| Heed (e : ForeignError)
| Milli (error : MilliError) (index_uid : option string)
| ProcessBatchPanicked (msg : string)
| FileStore (e : ForeignError)
| IoError (e : ForeignError)
| Persist (e : ForeignError)
| FeatureNotEnabled (e : ForeignError)
| Anyhow (e : ForeignError)
| CreateBatch (e : Error)
| CorruptedTaskQueue
| DatabaseUpgrade (e : Error)
| RollbackFailed (index : string) (rollback_outcome : RollbackOutcome)
| UnrecoverableError (e : Error)
| IndexSchedulerVersionMismatch (index_scheduler_version package_version : Z * Z * Z)
| IndexVersionMismatch (index : string) (index_version package_version : Z * Z * Z)
| HeedTransaction (e : ForeignError).

Definition is_recoverable (e : Error) : bool :=
  match e with
  | CreateBatch _ | CorruptedTaskQueue | DatabaseUpgrade _ | UnrecoverableError _
  | IndexSchedulerVersionMismatch _ _ | IndexVersionMismatch _ _ _ | RollbackFailed _ _
  | HeedTransaction _ => false
  | _ => true
  end.
End Error.

(** ** Batches *)

Record BatchEnqueuedAt := mkBatchEnqueuedAt { earliest : DateTime; oldest : DateTime }.

Section batches.
Context `{Externals}.

Record BatchStats := mkBatchStats {
  total_nb_tasks : Z;
  bs_status : gmap Status.t Z;
  bs_types : gmap Kind.t Z;
  bs_index_uids : gmap string Z;
  progress_trace : Object;
  write_channel_congestion : option Object;
  internal_database_sizes : Object;
}.

Definition BatchStats_default : BatchStats :=
  mkBatchStats 0 ∅ ∅ ∅ object_empty None object_empty.

Record Batch := mkBatch {
  b_uid : BatchId;
  b_progress : option ProgressView;
  b_details : DetailsView;
  b_stats : BatchStats;
  b_started_at : DateTime;
  b_finished_at : option DateTime;
  b_enqueued_at : option BatchEnqueuedAt;
  b_stop_reason : string;
}.

Record ProcessingBatch := mkProcessingBatch {
  pb_uid : BatchId;
  pb_details : DetailsView;
  pb_stats : BatchStats;
  pb_statuses : gset Status.t;
  pb_kinds : gset Kind.t;
  pb_indexes : gset string;
  pb_canceled_by : gset TaskId;
  pb_enqueued_at : option BatchEnqueuedAt;
  pb_started_at : DateTime;
  pb_finished_at : option DateTime;
  pb_reason : BatchStopReason.t;
}.

(** [ProcessingBatch::new]; [now] is [OffsetDateTime::now_utc()]. *)
Definition ProcessingBatch_new (now : DateTime) (uid : BatchId) : ProcessingBatch := {|
  pb_uid := uid;
  pb_details := DetailsView_default;
  pb_stats := BatchStats_default;
  pb_statuses := {[Status.Processing]};
  pb_kinds := ∅;
  pb_indexes := ∅;
  pb_canceled_by := ∅;
  pb_enqueued_at := None;
  pb_started_at := now;
  pb_finished_at := None;
  pb_reason := BatchStopReason.Unspecified;
|}.

(** [*map.entry(k).or_default() += 1] on a counter of type [u32]. *)
Definition incr {K} `{Countable K} (k : K) (m : gmap K Z) : gmap K Z :=
  <[k := u32_wrap (default 0 (m !! k) + 1)]> m.

Definition with_batch_uid (task : Task) (b : option BatchId) : Task :=
  mkTask (uid task) b (enqueued_at task) (started_at task) (finished_at task) (error task)
    (canceled_by task) (details task) (status task) (kind task).

Definition accumulate_details (d : DetailsView) (task : Task) : DetailsView :=
  match details task with
  | Some details => accumulate d (DetailsView_from details)
  | None => d
  end.

Definition count_index_uid (m : gmap string Z) (task : Task) : gmap string Z :=
  match Task_index_uid task with
  | Some index_uid => incr index_uid m
  | None => m
  end.

(** The body of the loop of [ProcessingBatch::processing]. *)
Definition processing_one (self : ProcessingBatch) (task : Task) : ProcessingBatch * Task :=
  let task := with_batch_uid task (Some (pb_uid self)) in
  let stats := pb_stats self in
  ({| pb_uid := pb_uid self;
      pb_details := accumulate_details (pb_details self) task;
      pb_stats := {|
        total_nb_tasks := u32_wrap (total_nb_tasks stats + 1);
        bs_status := incr Status.Processing (bs_status stats);
        bs_types := incr (task_kind task) (bs_types stats);
        bs_index_uids := count_index_uid (bs_index_uids stats) task;
        progress_trace := progress_trace stats;
        write_channel_congestion := write_channel_congestion stats;
        internal_database_sizes := internal_database_sizes stats |};
      pb_statuses := pb_statuses self;
      pb_kinds := {[task_kind task]} ∪ pb_kinds self;
      pb_indexes := list_to_set (Task_indexes task) ∪ pb_indexes self;
      pb_canceled_by :=
        match canceled_by task with
        | Some canceled_by => {[canceled_by]} ∪ pb_canceled_by self
        | None => pb_canceled_by self
        end;
      pb_enqueued_at :=
        match pb_enqueued_at self with
        | Some e => Some (mkBatchEnqueuedAt (Z.max (enqueued_at task) (earliest e))
                                            (Z.min (enqueued_at task) (oldest e)))
        | None => Some (mkBatchEnqueuedAt (enqueued_at task) (enqueued_at task))
        end;
      pb_started_at := pb_started_at self;
      pb_finished_at := pb_finished_at self;
      pb_reason := pb_reason self |},
   task).

(** [ProcessingBatch::processing]: updates the batch and the tasks. *)
Fixpoint processing (self : ProcessingBatch) (tasks : list Task)
    : ProcessingBatch * list Task :=
  match tasks with
  | [] => (self, [])
  | task :: tasks =>
      let '(self, task) := processing_one self task in
      let '(self, tasks) := processing self tasks in
      (self, task :: tasks)
  end.

(** [ProcessingBatch::reason]. *)
Definition set_reason (self : ProcessingBatch) (reason : BatchStopReason.t) : ProcessingBatch :=
  mkProcessingBatch (pb_uid self) (pb_details self) (pb_stats self) (pb_statuses self)
    (pb_kinds self) (pb_indexes self) (pb_canceled_by self) (pb_enqueued_at self)
    (pb_started_at self) (pb_finished_at self) reason.

(** [ProcessingBatch::finished]. *)
Definition finished (now : DateTime) (self : ProcessingBatch) : ProcessingBatch :=
  mkProcessingBatch (pb_uid self) DetailsView_default BatchStats_default ∅
    (pb_kinds self) (pb_indexes self) (pb_canceled_by self) (pb_enqueued_at self)
    (pb_started_at self) (Some now) (pb_reason self).

(** [ProcessingBatch::update]. *)
Definition update (self : ProcessingBatch) (task : Task) : ProcessingBatch * Task :=
  let task := mkTask (uid task) (Some (pb_uid self)) (enqueued_at task)
    (Some (pb_started_at self)) (pb_finished_at self) (error task) (canceled_by task)
    (details task) (status task) (kind task) in
  let stats := pb_stats self in
  (mkProcessingBatch (pb_uid self) (accumulate_details (pb_details self) task)
     {| total_nb_tasks := u32_wrap (total_nb_tasks stats + 1);
        bs_status := incr (status task) (bs_status stats);
        bs_types := incr (task_kind task) (bs_types stats);
        bs_index_uids := count_index_uid (bs_index_uids stats) task;
        progress_trace := progress_trace stats;
        write_channel_congestion := write_channel_congestion stats;
        internal_database_sizes := internal_database_sizes stats |}
     ({[status task]} ∪ pb_statuses self) (pb_kinds self) (pb_indexes self)
     (pb_canceled_by self) (pb_enqueued_at self) (pb_started_at self) (pb_finished_at self)
     (pb_reason self),
   task).

(** [ProcessingBatch::to_batch]. *)
Definition to_batch (self : ProcessingBatch) : Batch := {|
  b_uid := pb_uid self;
  b_progress := None;
  b_details := pb_details self;
  b_stats := pb_stats self;
  b_started_at := pb_started_at self;
  b_finished_at := pb_finished_at self;
  b_enqueued_at := pb_enqueued_at self;
  b_stop_reason := BatchStopReason.to_string (pb_reason self);
|}.
End batches.

(** ** Date tables

    A [Database<BEI128, CboRoaringBitmapCodec>] maps a timestamp to the ids of
    the tasks with that date.  Its keys are ordered as big-endian bytes, hence
    by their value modulo 2^128. *)

Abbreviation datedb := (gmap DateTime bitmap).

Definition be_i128 (z : Z) : Z := z mod 2 ^ 128.

Definition insert_task_datetime (db : datedb) (time : DateTime) (task_id : Z) : datedb :=
  let task_ids := bm_get db time in
  <[time := {[task_id]} ∪ task_ids]> db.

Definition remove_task_datetime (db : datedb) (time : DateTime) (task_id : Z) : datedb :=
  match db !! time with
  | Some existing =>
      let existing := existing ∖ {[task_id]} in
      put_or_delete time existing db
  | None => db
  end.

(** The order of the keys. *)
Definition be_i128_le (x y : Z) : Prop := be_i128 x ≤ be_i128 y.
#[global] Instance be_i128_le_dec : RelDecision be_i128_le.
Proof. intros x y. unfold be_i128_le. apply _. Defined.

(** The keys below [earlier_than], from the last to the first. *)
Definition rev_range_to (db : datedb) (earlier_than : DateTime) : list DateTime :=
  reverse (merge_sort be_i128_le
    (elements (filter (λ t, be_i128 t < be_i128 earlier_than) (dom db)))).

Fixpoint remove_n_loop (db : datedb) (keys : list DateTime) (count : Z) (task_id : Z) : datedb :=
  match keys with
  | [] => db
  | current :: keys =>
      let existing := bm_get db current in
      let count := u64_wrap (count - (if bm_contains existing task_id then 1 else 0)) in
      let existing := existing ∖ {[task_id]} in
      let db := put_or_delete current existing db in
      if count =? 0 then db else remove_n_loop db keys count task_id
  end.

Definition remove_n_tasks_datetime_earlier_than (db : datedb) (earlier_than : DateTime)
    (count : Z) (task_id : Z) : datedb :=
  remove_n_loop db (rev_range_to db earlier_than) count task_id.

(** [std::ops::Bound] and [map_bound]. *)
Inductive Bound (A : Type) := Included (a : A) | Excluded (a : A) | Unbounded.
Arguments Included {A} a.
Arguments Excluded {A} a.
Arguments Unbounded {A}.

Definition map_bound {A B} (f : A → B) (b : Bound A) : Bound B :=
  match b with
  | Included x => Included (f x)
  | Excluded x => Excluded (f x)
  | Unbounded => Unbounded
  end.

(** [RangeBounds::contains] for a pair of bounds. *)
Definition range_contains (start end_ : Bound Z) (x : Z) : bool :=
  match start with Included s => s <=? x | Excluded s => s <? x | Unbounded => true end &&
  match end_ with Included e => x <=? e | Excluded e => x <? e | Unbounded => true end.

(** The exclusive bounds of a pair of optional dates. *)
Definition date_bounds (after before : option DateTime) : option (Bound DateTime * Bound DateTime) :=
  match after, before with
  | None, None => None
  | None, Some before => Some (Unbounded, Excluded before)
  | Some after, None => Some (Excluded after, Unbounded)
  | Some after, Some before => Some (Excluded after, Excluded before)
  end.

Definition keep_ids_within_datetimes (ids : bitmap) (db : datedb)
    (after before : option DateTime) : bitmap :=
  match date_bounds after before with
  | None => ids
  | Some (start, end_) =>
      let start := map_bound be_i128 start in
      let end_ := map_bound be_i128 end_ in
      ids ∩ map_fold (λ timestamp b collected_ids,
               if range_contains start end_ (be_i128 timestamp)
               then collected_ids ∪ b else collected_ids) ∅ db
  end.

(** ** Rewriting and checking a task *)

Section tasks.
Context `{Externals}.

(** The last loop of [swap_index_uid_in_task], on one name. *)
Definition swap_name (swap : string * string) (index_uid : string) : string :=
  if String.eqb index_uid swap.1 then swap.2
  else if String.eqb index_uid swap.2 then swap.1
  else index_uid.

Definition swap_in_swaps (swap : string * string) (swaps : list IndexSwap) : list IndexSwap :=
  map (λ s : IndexSwap, (swap_name swap s.1, swap_name swap s.2)) swaps.

Definition swap_in_kind (swap : string * string) (k : KindWithContent.t) : KindWithContent.t :=
  match k with
  | KindWithContent.DocumentAdditionOrUpdate i pk m c d a =>
      KindWithContent.DocumentAdditionOrUpdate (swap_name swap i) pk m c d a
  | KindWithContent.DocumentEdition i f c fn =>
      KindWithContent.DocumentEdition (swap_name swap i) f c fn
  | KindWithContent.DocumentDeletion i ids =>
      KindWithContent.DocumentDeletion (swap_name swap i) ids
  | KindWithContent.DocumentDeletionByFilter i f =>
      KindWithContent.DocumentDeletionByFilter (swap_name swap i) f
  | KindWithContent.DocumentClear i => KindWithContent.DocumentClear (swap_name swap i)
  | KindWithContent.SettingsUpdate i s d a =>
      KindWithContent.SettingsUpdate (swap_name swap i) s d a
  | KindWithContent.IndexDeletion i => KindWithContent.IndexDeletion (swap_name swap i)
  | KindWithContent.IndexCreation i pk => KindWithContent.IndexCreation (swap_name swap i) pk
  | KindWithContent.IndexUpdate i pk => KindWithContent.IndexUpdate (swap_name swap i) pk
  | KindWithContent.IndexSwap swaps => KindWithContent.IndexSwap (swap_in_swaps swap swaps)
  | KindWithContent.TaskCancelation _ _ | KindWithContent.TaskDeletion _ _
  | KindWithContent.DumpCreation _ _ | KindWithContent.UpgradeDatabase _
  | KindWithContent.SnapshotCreation => k
  end.

Definition swap_in_details (swap : string * string) (d : option Details.t) : option Details.t :=
  match d with
  | Some (Details.IndexSwap swaps) => Some (Details.IndexSwap (swap_in_swaps swap swaps))
  | d => d
  end.

Definition swap_index_uid_in_task (task : Task) (swap : string * string) : Task :=
  mkTask (uid task) (batch_uid task) (enqueued_at task) (started_at task) (finished_at task)
    (error task) (canceled_by task) (swap_in_details swap (details task)) (status task)
    (swap_in_kind swap (kind task)).

(** The second half of [filter_out_references_to_newer_tasks]. *)
Definition set_matched_tasks (n : Z) (d : option Details.t) : option Details.t :=
  match d with
  | Some (Details.TaskCancelation _ c f) => Some (Details.TaskCancelation n c f)
  | Some (Details.TaskDeletion _ c f) => Some (Details.TaskDeletion n c f)
  | d => d
  end.

Definition filter_out_references_to_newer_tasks (task : Task) : Task :=
  let with_kind k tasks :=
    mkTask (uid task) (batch_uid task) (enqueued_at task) (started_at task) (finished_at task)
      (error task) (canceled_by task) (set_matched_tasks (bm_len tasks) (details task))
      (status task) k in
  match kind task with
  | KindWithContent.TaskCancelation query tasks =>
      let tasks := bm_remove_from (uid task) tasks in
      with_kind (KindWithContent.TaskCancelation query tasks) tasks
  | KindWithContent.TaskDeletion query tasks =>
      let tasks := bm_remove_from (uid task) tasks in
      with_kind (KindWithContent.TaskDeletion query tasks) tasks
  | _ => task
  end.

(** The body of the loops of [check_index_swap_validity]. *)
Definition insert_swap_name (acc : gset string * gset string) (name : string)
    : gset string * gset string :=
  let '(all_indexes, duplicate_indexes) := acc in
  if bool_decide (name ∈ all_indexes)
  then (all_indexes, {[name]} ∪ duplicate_indexes)
  else ({[name]} ∪ all_indexes, duplicate_indexes).

Definition swap_names (swaps : list IndexSwap) : list string :=
  swaps ≫= λ s : IndexSwap, [s.1; s.2].

(** The iteration order of a [BTreeSet<&String>]. *)
Definition btree_iter (s : gset string) : list string := merge_sort String.le (elements s).

Definition check_index_swap_validity (task : Task) : outcome Error () :=
  match kind task with
  | KindWithContent.IndexSwap swaps =>
      let '(_, duplicate_indexes) := foldl insert_swap_name (∅, ∅) (swap_names swaps) in
      match btree_iter duplicate_indexes with
      | [] => Ok ()
      | [name] => Err (SwapDuplicateIndexFound name)
      | names => Err (SwapDuplicateIndexesFound names)
      end
  | _ => Ok ()
  end.
End tasks.

(** [page_size] is [page_size::get()]. *)
Definition clamp_to_page_size (page_size size : Z) : Z := size / page_size * page_size.

(** ** The dichotomic search *)

Record dichotomy := mkDichotomy {
  biggest_good : option Z;
  smallest_bad : option Z;
  current : Z;
}.

(** One iteration of the loop: the next state, or the returned value.  [usize]
    is 64 bits wide. *)
Definition dichotomic_step (is_good : Z → bool) (s : dichotomy) : dichotomy + Z :=
  let cur := current s in
  let s' :=
    match biggest_good s, smallest_bad s, is_good cur with
    | None, None, false => mkDichotomy None (Some cur) (cur / 2)
    | None, None, true => mkDichotomy (Some cur) None (u64_wrap (cur * 2))
    | None, Some b, true => mkDichotomy (Some cur) (Some b) (u64_wrap (cur + b) / 2)
    | None, Some _, false => mkDichotomy None (Some cur) (cur / 2)
    | Some _, None, true => mkDichotomy (Some cur) None (u64_wrap (cur * 2))
    | Some g, None, false => mkDichotomy (Some g) (Some cur) (u64_wrap (g + cur) / 2)
    | Some _, Some b, true => mkDichotomy (Some cur) (Some b) (u64_wrap (b + cur) / 2)
    | Some g, Some _, false => mkDichotomy (Some g) (Some cur) (u64_wrap (g + cur) / 2)
    end in
  if current s' =? 0 then inr (current s')
  else match smallest_bad s', biggest_good s' with
       | Some _, Some g => if current s' <=? g then inr (current s') else inl s'
       | _, _ => inl s'
       end.

Fixpoint dichotomic_loop (fuel : nat) (is_good : Z → bool) (s : dichotomy) : option Z :=
  match fuel with
  | O => None
  | S fuel =>
      match dichotomic_step is_good s with
      | inl s' => dichotomic_loop fuel is_good s'
      | inr n => Some n
      end
  end.

Definition dichotomic_search (fuel : nat) (start_point : Z) (is_good : Z → bool) : option Z :=
  dichotomic_loop fuel is_good (mkDichotomy None None start_point).

(** ** Facts about the date tables *)

Section datedb_facts.
Implicit Types db : datedb.

Lemma elem_of_insert_task_datetime db time x t y :
  y ∈ bm_get (insert_task_datetime db time x) t ↔ (t = time ∧ y = x) ∨ y ∈ bm_get db t.
Proof. unfold insert_task_datetime. table_cases; set_solver. Qed.

Lemma elem_of_remove_task_datetime db time x t y :
  y ∈ bm_get (remove_task_datetime db time x) t ↔ y ∈ bm_get db t ∧ ¬ (t = time ∧ y = x).
Proof.
  unfold remove_task_datetime. destruct (db !! time) as [b|] eqn:Hb.
  - table_cases; [|set_solver]. unfold bm_get. rewrite Hb. set_solver.
  - unfold bm_get. split; [|tauto]. intros Hy. split; [done|]. intros [-> ->]. by rewrite Hb in Hy.
Qed.

Lemma no_empty_insert_task_datetime db time x :
  no_empty db → no_empty (insert_task_datetime db time x).
Proof. intros. apply no_empty_insert; set_solver. Qed.

Lemma no_empty_remove_task_datetime db time x :
  no_empty db → no_empty (remove_task_datetime db time x).
Proof. unfold remove_task_datetime. destruct (db !! time); auto with sched. Qed.

(** A date whose big-endian bytes order as the date does. *)
Definition valid_date (d : DateTime) : Prop := 0 ≤ d < 2 ^ 127.

Lemma be_i128_valid d : valid_date d → be_i128 d = d.
Proof. unfold valid_date, be_i128. intros. apply Z.mod_small. lia. Qed.

(** The date is strictly after [after] and strictly before [before]. *)
Definition within (after before : option DateTime) (d : DateTime) : Prop :=
  (∀ a, after = Some a → a < d) ∧ (∀ b, before = Some b → d < b).

Lemma elem_of_collected (P : DateTime → bool) db x :
  x ∈ map_fold (λ t b (acc : bitmap), if P t then acc ∪ b else acc) ∅ db ↔
  ∃ t, P t = true ∧ x ∈ bm_get db t.
Proof.
  induction db as [|t b db Hn Hfst IH] using map_first_key_ind.
  - unfold bm_get. setoid_rewrite map_fold_empty. setoid_rewrite lookup_empty. set_solver.
  - rewrite map_fold_insert_first_key by done. setoid_rewrite bm_get_insert.
    assert (Ht : bm_get db t = ∅) by (unfold bm_get; by rewrite Hn).
    transitivity ((P t = true ∧ x ∈ b) ∨ ∃ t', P t' = true ∧ x ∈ bm_get db t').
    { rewrite <-IH. destruct (P t); set_solver. }
    split.
    + intros [[??]|(t' & ? & Hx)]; [exists t; by rewrite decide_True|]. exists t'. split; [done|].
      rewrite decide_False; [done|]. intros ->. rewrite Ht in Hx. set_solver.
    + intros (t' & HP & Hx). case_decide; subst; eauto.
Qed.

Lemma range_contains_within after before start end_ d :
  valid_date d → (∀ a, after = Some a → valid_date a) → (∀ b, before = Some b → valid_date b) →
  date_bounds after before = Some (start, end_) →
  range_contains (map_bound be_i128 start) (map_bound be_i128 end_) (be_i128 d) = true ↔
  within after before d.
Proof.
  intros Hd Ha Hb Hbounds. unfold within.
  destruct after as [a|], before as [b|]; simpl in Hbounds; simplify_eq;
    unfold range_contains; simpl; rewrite ?(be_i128_valid d) by done;
    rewrite ?(be_i128_valid a) by auto; rewrite ?(be_i128_valid b) by auto;
    rewrite ?andb_true_iff, ?Z.ltb_lt; naive_solver.
Qed.

Lemma elem_of_keep_ids ids db after before x :
  (∀ t, bm_get db t ≠ ∅ → valid_date t) →
  (∀ a, after = Some a → valid_date a) → (∀ b, before = Some b → valid_date b) →
  x ∈ keep_ids_within_datetimes ids db after before ↔
  x ∈ ids ∧ ((after = None ∧ before = None) ∨ ∃ t, within after before t ∧ x ∈ bm_get db t).
Proof.
  intros Hdb Ha Hb. unfold keep_ids_within_datetimes.
  destruct (date_bounds after before) as [[start end_]|] eqn:Hbounds.
  - rewrite elem_of_intersection.
    rewrite (elem_of_collected (λ t, range_contains (map_bound be_i128 start)
      (map_bound be_i128 end_) (be_i128 t))).
    apply and_iff_compat_l. split.
    + intros (t & Hr & Hx). right. exists t. split; [|done].
      apply (range_contains_within after before start end_); auto. apply Hdb. set_solver.
    + intros [[-> ->]|(t & Hw & Hx)]; [done|]. exists t. split; [|done].
      apply (range_contains_within after before start end_); auto. apply Hdb. set_solver.
  - destruct after, before; simpl in *; try done. tauto.
Qed.
End datedb_facts.

(** ** Facts about index swaps *)

Section swap_facts.
Context `{Externals}.

Lemma swap_name_involutive swap i : swap_name swap (swap_name swap i) = i.
Proof.
  unfold swap_name. destruct swap as [a b]; simpl.
  destruct (String.eqb_spec i a) as [->|?].
  - destruct (String.eqb_spec b a) as [->|?]; [done|]. by rewrite String.eqb_refl.
  - destruct (String.eqb_spec i b) as [->|?]; [by rewrite String.eqb_refl|].
    destruct (String.eqb_spec i a), (String.eqb_spec i b); congruence.
Qed.

Lemma swap_in_swaps_involutive swap l : swap_in_swaps swap (swap_in_swaps swap l) = l.
Proof.
  unfold swap_in_swaps. rewrite map_map. induction l as [|[a b] l IH]; simpl; [done|].
  rewrite !swap_name_involutive. by f_equal.
Qed.

Lemma swap_in_kind_as_kind swap k :
  KindWithContent.as_kind (swap_in_kind swap k) = KindWithContent.as_kind k.
Proof. by destruct k. Qed.

Lemma swap_indexes_swap_in_swaps swap l i :
  i ∈ KindWithContent.swap_indexes (swap_in_swaps swap l) ↔
  swap_name swap i ∈ KindWithContent.swap_indexes l.
Proof.
  rewrite !elem_of_swap_indexes. unfold swap_in_swaps. setoid_rewrite list_elem_of_fmap. split.
  - intros (? & ([a b] & -> & Hin) & Hi). exists (a, b). split; [done|]. simpl in *.
    destruct Hi as [-> | ->]; rewrite swap_name_involutive; auto.
  - intros ([a b] & Hin & Hi). exists (swap_name swap a, swap_name swap b). split; [by exists (a, b)|].
    simpl in *. destruct Hi as [<- | <-]; [left|right]; by rewrite swap_name_involutive.
Qed.

(** The indexes of a swapped task are the swapped indexes of the task. *)
Lemma swap_in_kind_indexes `{!ExternalsOk} swap k i :
  i ∈ KindWithContent.indexes (swap_in_kind swap k) ↔
  swap_name swap i ∈ KindWithContent.indexes k.
Proof.
  assert (Hone : ∀ j, i ∈ [swap_name swap j] ↔ swap_name swap i ∈ [j]).
  { intros j. rewrite !list_elem_of_singleton.
    split; [intros -> | intros <-]; by rewrite swap_name_involutive. }
  destruct k; simpl; try apply Hone; try (by rewrite !elem_of_nil).
  rewrite !hash_iter_perm, !elem_of_elements. apply swap_indexes_swap_in_swaps.
Qed.
End swap_facts.

(** ** Facts about duplicated swaps *)

Section swap_validity.
Context `{Externals}.

Lemma insert_swap_name_fold names all dup :
  let '(all', dup') := foldl insert_swap_name (all, dup) names in
  (∀ n, n ∈ all' ↔ n ∈ all ∨ n ∈ names) ∧
  (∀ n, n ∈ dup' ↔ n ∈ dup ∨ (n ∈ all ∧ n ∈ names) ∨
     ∃ l1 l2, names = l1 ++ n :: l2 ∧ n ∈ l2).
Proof.
  revert all dup. induction names as [|x names IH]; intros all dup; simpl.
  - split; [set_solver|]. intros n. split; [by left|].
    intros [?|[[_ []%elem_of_nil]|(l1 & l2 & ? & _)]]; [done|]. by destruct l1.
  - assert (Hcons : ∀ n, (∃ l1 l2, x :: names = l1 ++ n :: l2 ∧ n ∈ l2) ↔
      (n = x ∧ n ∈ names) ∨ ∃ l1 l2, names = l1 ++ n :: l2 ∧ n ∈ l2).
    { intros n. split.
      - intros ([|y l1] & l2 & Heq & Hin); simplify_eq/=; [by left|]. right; eauto.
      - intros [[-> Hin]|(l1 & l2 & -> & Hin)]; [by exists [], names|]. by exists (x :: l1), l2. }
    case_bool_decide as Hx.
    + specialize (IH all ({[x]} ∪ dup)). destruct (foldl _ _ _) as [all' dup'].
      destruct IH as [IH1 IH2]. split; [set_solver|]. intros n. rewrite IH2, Hcons. set_solver.
    + specialize (IH ({[x]} ∪ all) dup). destruct (foldl _ _ _) as [all' dup'].
      destruct IH as [IH1 IH2]. split; [set_solver|]. intros n. rewrite IH2, Hcons. set_solver.
Qed.

Lemma NoDup_no_repeat (l : list string) :
  NoDup l ↔ ∀ n l1 l2, l = l1 ++ n :: l2 → n ∉ l2.
Proof.
  induction l as [|x l IH].
  - split; [|constructor]. intros _ n l1 l2 ?. by destruct l1.
  - rewrite NoDup_cons, IH. split.
    + intros [Hx Hl] n [|y l1] l2 Heq; simplify_eq/=; eauto.
    + intros Hn. split; [by apply (Hn x [] l)|]. intros n l1 l2 ->. by apply (Hn n (x :: l1)).
Qed.

(** The duplicated names reported by the check. *)
Lemma swap_duplicates_spec swaps all dup :
  foldl insert_swap_name (∅, ∅) (swap_names swaps) = (all, dup) →
  ∀ n, n ∈ dup ↔ ∃ l1 l2, swap_names swaps = l1 ++ n :: l2 ∧ n ∈ l2.
Proof.
  intros Hf. pose proof (insert_swap_name_fold (swap_names swaps) ∅ ∅) as Hs.
  rewrite Hf in Hs. destruct Hs as [_ Hs]. intros n. rewrite Hs. set_solver.
Qed.

Lemma elem_of_btree_iter s n : n ∈ btree_iter s ↔ n ∈ s.
Proof. unfold btree_iter. by rewrite merge_sort_Permutation, elem_of_elements. Qed.

Lemma btree_iter_nil s : btree_iter s = [] → s = ∅.
Proof.
  intros Hs. apply set_eq. intros n. rewrite <-elem_of_btree_iter, Hs. set_solver.
Qed.

(** [check_index_swap_validity] accepts a task iff it is not an
    index swap or no index name occurs twice among its swaps; otherwise it
    reports exactly the names that occur more than once, sorted and without
    repetition, with the singular error when there is one. *)
Theorem check_index_swap_validity_spec task :
  match kind task with
  | KindWithContent.IndexSwap swaps =>
      (NoDup (swap_names swaps) ∧ check_index_swap_validity task = Ok ()) ∨
      ∃ names, names ≠ [] ∧ StronglySorted String.le names ∧ NoDup names ∧
        (∀ n, n ∈ names ↔ ∃ l1 l2, swap_names swaps = l1 ++ n :: l2 ∧ n ∈ l2) ∧
        check_index_swap_validity task =
          Err (match names with
               | [n] => SwapDuplicateIndexFound n
               | _ => SwapDuplicateIndexesFound names
               end)
  | _ => check_index_swap_validity task = Ok ()
  end.
Proof.
  unfold check_index_swap_validity. destruct (kind task) as [| | | | | | | | |swaps| | | | |]; try done.
  destruct (foldl _ _ _) as [all dup] eqn:Hf. pose proof (swap_duplicates_spec _ _ _ Hf) as Hdup.
  destruct (btree_iter dup) as [|n names] eqn:Hit.
  - left. split; [|done]. apply btree_iter_nil in Hit as ->. apply NoDup_no_repeat.
    intros n l1 l2 Heq Hin. apply (not_elem_of_empty (C:=gset string) n), Hdup; eauto.
  - right. exists (n :: names). split; [done|]. rewrite <-Hit. split; [|split; [|split]].
    + apply StronglySorted_merge_sort; apply _.
    + unfold btree_iter. rewrite merge_sort_Permutation. apply NoDup_elements.
    + intros n'. by rewrite elem_of_btree_iter, Hdup.
    + rewrite Hit. by destruct names.
Qed.
End swap_validity.

(** ** The dichotomic search finds the threshold *)

Section dichotomic_facts.
#[local] Ltac Zify.zify_post_hook ::= Z.to_euclidean_division_equations.
Variables (N : Z) (is_good : Z → bool).
Hypothesis N_range : 0 ≤ N < 2 ^ 62.
Hypothesis is_good_spec : ∀ n, 0 ≤ n < 2 ^ 64 → is_good n = (n <=? N).

Lemma is_good_cases n : 0 ≤ n < 2 ^ 64 → (is_good n = true ∧ n ≤ N) ∨ (is_good n = false ∧ N < n).
Proof. intros Hn. rewrite is_good_spec by done. destruct (Z.leb_spec n N); auto. Qed.

Lemma u64_wrap_small z : 0 ≤ z < 2 ^ 64 → u64_wrap z = z.
Proof. unfold u64_wrap. intros. by apply Z.mod_small. Qed.

(** The state after a good and a bad value were seen: the search returns [N]
    at once or goes on with a gap at most half as large. *)
Lemma dichotomic_between k : ∀ fuel g b, (k < fuel)%nat →
  0 < g → g ≤ N < b → b < 2 ^ 63 → g < (g + b) / 2 → b - g ≤ 2 ^ Z.of_nat k →
  dichotomic_loop fuel is_good (mkDichotomy (Some g) (Some b) ((g + b) / 2)) = Some N.
Proof.
  induction k as [|k IH]; intros fuel g b Hfuel Hg HN Hb Hcur Hgap.
  { change (2 ^ Z.of_nat 0) with 1 in Hgap. lia. }
  rewrite Nat2Z.inj_succ, Z.pow_succ_r in Hgap by lia.
  destruct fuel as [|fuel]; [lia|]. simpl. unfold dichotomic_step; simpl.
  destruct (is_good_cases ((g + b) / 2)) as [[-> Hle]|[-> Hlt]]; [lia| |]; simpl.
  - rewrite u64_wrap_small by lia. destruct (Z.eqb_spec ((b + (g + b) / 2) / 2) 0); [lia|].
    destruct (Z.leb_spec ((b + (g + b) / 2) / 2) ((g + b) / 2)); [f_equal; lia|].
    rewrite (Z.add_comm b) in *. apply IH; lia.
  - rewrite u64_wrap_small by lia. destruct (Z.eqb_spec ((g + (g + b) / 2) / 2) 0); [lia|].
    destruct (Z.leb_spec ((g + (g + b) / 2) / 2) g); [f_equal; lia|]. apply IH; lia.
Qed.

Lemma dichotomic_found fuel g b : (63 < fuel)%nat →
  0 < g → g ≤ N < b → b < 2 ^ 63 →
  (if (g + b) / 2 <=? g then Some ((g + b) / 2)
   else dichotomic_loop fuel is_good (mkDichotomy (Some g) (Some b) ((g + b) / 2))) = Some N.
Proof.
  intros. destruct (Z.leb_spec ((g + b) / 2) g); [f_equal; lia|].
  apply (dichotomic_between 63); try lia; exact _.
Qed.

(** Only bad values so far: halve. *)
Lemma dichotomic_down k : ∀ fuel b, (k + 64 < fuel)%nat →
  N < b → b < 2 ^ 62 → 0 < b / 2 → b < 2 ^ Z.of_nat k →
  dichotomic_loop fuel is_good (mkDichotomy None (Some b) (b / 2)) = Some N.
Proof.
  induction k as [|k IH]; intros fuel b Hfuel HN Hb Hcur Hk.
  { change (2 ^ Z.of_nat 0) with 1 in Hk. lia. }
  rewrite Nat2Z.inj_succ, Z.pow_succ_r in Hk by lia.
  destruct fuel as [|fuel]; [lia|]. simpl. unfold dichotomic_step; simpl.
  destruct (is_good_cases (b / 2)) as [[-> Hle]|[-> Hlt]]; [lia| |]; simpl.
  - rewrite u64_wrap_small by lia. destruct (Z.eqb_spec ((b / 2 + b) / 2) 0); [lia|].
    pose proof (dichotomic_found fuel (b / 2) b ltac:(lia) ltac:(lia) ltac:(lia) ltac:(lia)) as Hf.
    by destruct (_ <=? _).
  - destruct (Z.eqb_spec (b / 2 / 2) 0); [f_equal; lia|]. apply IH; lia.
Qed.

(** Only good values so far: double. *)
Lemma dichotomic_up k : ∀ fuel g, (k + 64 < fuel)%nat →
  0 < g ≤ N → N < g * 2 ^ Z.of_nat k →
  dichotomic_loop fuel is_good (mkDichotomy (Some g) None (g * 2)) = Some N.
Proof.
  induction k as [|k IH]; intros fuel g Hfuel HN Hk.
  { change (2 ^ Z.of_nat 0) with 1 in Hk. lia. }
  rewrite Nat2Z.inj_succ, Z.pow_succ_r in Hk by lia.
  destruct fuel as [|fuel]; [lia|]. simpl. unfold dichotomic_step; simpl.
  destruct (is_good_cases (g * 2)) as [[-> Hle]|[-> Hlt]]; [lia| |]; simpl.
  - rewrite u64_wrap_small by lia. destruct (Z.eqb_spec (g * 2 * 2) 0); [lia|].
    apply IH; lia.
  - rewrite u64_wrap_small by lia. destruct (Z.eqb_spec ((g + g * 2) / 2) 0); [lia|].
    pose proof (dichotomic_found fuel g (g * 2) ltac:(lia) ltac:(lia) ltac:(lia) ltac:(lia)) as Hf.
    by destruct (_ <=? _).
Qed.

(** For a predicate that holds exactly up to a threshold [N] below
    2^62, [dichotomic_search] from any start point between 1 and 2^62
    terminates within 128 iterations and returns [N]. *)
Lemma dichotomic_search_spec start_point :
  0 < start_point < 2 ^ 62 → dichotomic_search 128 start_point is_good = Some N.
Proof.
  intros Hs. unfold dichotomic_search. change 128%nat with (S 127).
  assert (∃ fuel, fuel = 127%nat) as [fuel Hfuel] by eauto. rewrite <-Hfuel.
  simpl. unfold dichotomic_step; simpl.
  destruct (is_good_cases start_point) as [[-> Hle]|[-> Hlt]]; [lia| |]; simpl.
  - rewrite u64_wrap_small by lia. destruct (Z.eqb_spec (start_point * 2) 0); [lia|].
    apply (dichotomic_up 62); [lia..|]. change (2 ^ Z.of_nat 62) with (2 ^ 62). nia.
  - destruct (Z.eqb_spec (start_point / 2) 0); [f_equal; lia|].
    apply (dichotomic_down 62); lia.
Qed.
End dichotomic_facts.

(** ** What a processing batch accumulates *)

Section processing_facts.
Context `{Externals}.

(** The tasks counted by [f]. *)
Definition counted (f : Task → bool) (tasks : list Task) : Z :=
  Z.of_nat (length (filter (λ t, f t = true) tasks)).

Lemma counted_cons f t ts : counted f (t :: ts) = (if f t then 1 else 0) + counted f ts.
Proof.
  unfold counted. rewrite filter_cons.
  case_decide as Hd; [rewrite Hd | apply not_true_is_false in Hd; rewrite Hd]; simpl; lia.
Qed.

Lemma u32_wrap_add a b : u32_wrap (u32_wrap a + b) = u32_wrap (a + b).
Proof. unfold u32_wrap. by rewrite Z.add_mod_idemp_l. Qed.

(** The state of a batch that has just been created, and what [processing]
    makes of it. *)
Lemma processing_uids self tasks :
  (processing self tasks).2 = map (λ t, with_batch_uid t (Some (pb_uid self))) tasks ∧
  pb_uid (processing self tasks).1 = pb_uid self.
Proof.
  revert self. induction tasks as [|t ts IH]; intros self; simpl; [done|].
  unfold processing_one; simpl.
  match goal with |- context [processing ?s ts] =>
    specialize (IH s); destruct (processing s ts) as [self' ts']; simpl in * end.
  destruct IH as [-> ->]. done.
Qed.

(** [lo] and [hi] are the least and the greatest enqueuing dates of [tasks]. *)
Definition enqueued_bounds (tasks : list Task) (o : option BatchEnqueuedAt) : Prop :=
  match o with
  | None => tasks = []
  | Some e => (∃ t, t ∈ tasks ∧ enqueued_at t = oldest e) ∧
      (∃ t, t ∈ tasks ∧ enqueued_at t = earliest e) ∧
      ∀ t, t ∈ tasks → oldest e ≤ enqueued_at t ≤ earliest e
  end.

Definition processing_inv (self : ProcessingBatch) (tasks : list Task) : Prop :=
  total_nb_tasks (pb_stats self) = u32_wrap (Z.of_nat (length tasks)) ∧
  (∀ k, k ∈ pb_kinds self ↔ ∃ t, t ∈ tasks ∧ task_kind t = k) ∧
  (∀ i, i ∈ pb_indexes self ↔ ∃ t, t ∈ tasks ∧ i ∈ Task_indexes t) ∧
  (∀ k, default 0 (bs_types (pb_stats self) !! k) =
     u32_wrap (counted (λ t, bool_decide (task_kind t = k)) tasks)) ∧
  enqueued_bounds tasks (pb_enqueued_at self).

Lemma default_incr {K} `{Countable K} (k k' : K) (m : gmap K Z) :
  default 0 (incr k m !! k') =
  if decide (k = k') then u32_wrap (default 0 (m !! k') + 1) else default 0 (m !! k').
Proof.
  unfold incr. case_decide; subst; [by rewrite lookup_insert_eq|by rewrite lookup_insert_ne].
Qed.

Lemma enqueued_bounds_step tasks o t :
  enqueued_bounds tasks o →
  enqueued_bounds (t :: tasks)
    (match o with
     | Some e => Some (mkBatchEnqueuedAt (Z.max (enqueued_at t) (earliest e))
                                         (Z.min (enqueued_at t) (oldest e)))
     | None => Some (mkBatchEnqueuedAt (enqueued_at t) (enqueued_at t))
     end).
Proof.
  destruct o as [e|]; simpl.
  - intros ((t1 & Ht1 & He1) & (t2 & Ht2 & He2) & Hall). split; [|split].
    + destruct (Z.min_spec (enqueued_at t) (oldest e)) as [[_ ->]|[_ ->]]; set_solver.
    + destruct (Z.max_spec (enqueued_at t) (earliest e)) as [[_ ->]|[_ ->]]; set_solver.
    + intros t' [->|Ht']%elem_of_cons; [lia|]. specialize (Hall _ Ht'). lia.
  - intros ->. split; [set_solver|split; [set_solver|]].
    intros t' ->%list_elem_of_singleton. lia.
Qed.

Lemma processing_one_inv self seen t :
  processing_inv self seen → processing_inv (processing_one self t).1 (t :: seen).
Proof.
  intros (Htot & Hk & Hi & Hty & He). unfold processing_one, processing_inv; simpl.
  split; [|split; [|split; [|split]]].
  - rewrite Htot, u32_wrap_add. f_equal. lia.
  - intros k. change (task_kind (with_batch_uid t _)) with (task_kind t). set_solver.
  - intros i. change (Task_indexes (with_batch_uid t _)) with (Task_indexes t). set_solver.
  - intros k. change (task_kind (with_batch_uid t _)) with (task_kind t).
    rewrite default_incr, counted_cons, Hty.
    case_decide as Hd; [rewrite bool_decide_true by done | rewrite bool_decide_false by done].
    + rewrite u32_wrap_add. f_equal. lia.
    + done.
  - by apply enqueued_bounds_step.
Qed.

(** After [new] and [processing], the batch knows exactly the
    kinds and the indexes of its tasks, the number of its tasks in total and by
    kind (modulo 2^32) and the least and greatest enqueuing dates, and every
    task is assigned to the batch. *)
Theorem processing_new_spec now id tasks :
  let '(batch, tasks') := processing (ProcessingBatch_new now id) tasks in
  processing_inv batch (rev tasks) ∧ pb_uid batch = id ∧
  tasks' = map (λ t, with_batch_uid t (Some id)) tasks.
Proof.
  assert (Hgen : ∀ self seen, processing_inv self seen →
    processing_inv (processing self tasks).1 (rev tasks ++ seen)).
  { induction tasks as [|t ts IH]; intros self seen Hinv; [done|]. cbn [processing rev].
    pose proof (processing_one_inv self seen t Hinv) as H1.
    destruct (processing_one self t) as [self1 t1]. specialize (IH self1 _ H1).
    destruct (processing self1 ts) as [self2 ts2]. rewrite <-app_assoc. exact IH. }
  pose proof (processing_uids (ProcessingBatch_new now id) tasks) as [Ht Hu].
  specialize (Hgen (ProcessingBatch_new now id) []).
  destruct (processing _ _) as [batch tasks']; simpl in *. rewrite app_nil_r in Hgen.
  split; [|done]. apply Hgen. unfold processing_inv; simpl.
  split; [done|]. split; [set_solver|]. split; [set_solver|]. split; [|done].
  intros k. by rewrite lookup_empty.
Qed.
End processing_facts.
