(* ===== verification/TaskQueue.v ===== *)
(** * The task queue

    [crates/index-scheduler/src/queue/tasks.rs]: the eight databases of the
    [TaskQueue], the operations that read and write them, and the invariant
    that ties the seven indexes to the main table. *)

From S2P Require Import Prelude TaskTypes DetailsView SchedUtils.
Open Scope Z_scope.

Section TaskQueue.
Context `{Externals}.

(** ** State *)

Record TaskQueue := mkTaskQueue {
  all_tasks : gmap TaskId Task;
  tq_status : gmap Status.t bitmap;
  tq_kind : gmap Kind.t bitmap;
  tq_index_tasks : gmap string bitmap;
  tq_canceled_by : gmap TaskId bitmap;
  tq_enqueued_at : datedb;
  tq_started_at : datedb;
  tq_finished_at : datedb;
}.

(** [TaskQueue::new] on a fresh environment. *)
Definition TaskQueue_new : TaskQueue := mkTaskQueue ∅ ∅ ∅ ∅ ∅ ∅ ∅ ∅.

Definition set_all_tasks (f : gmap TaskId Task → gmap TaskId Task) (q : TaskQueue) : TaskQueue :=
  mkTaskQueue (f (all_tasks q)) (tq_status q) (tq_kind q) (tq_index_tasks q) (tq_canceled_by q)
    (tq_enqueued_at q) (tq_started_at q) (tq_finished_at q).
Definition set_status (m : gmap Status.t bitmap) (q : TaskQueue) : TaskQueue :=
  mkTaskQueue (all_tasks q) m (tq_kind q) (tq_index_tasks q) (tq_canceled_by q)
    (tq_enqueued_at q) (tq_started_at q) (tq_finished_at q).
Definition set_kind (m : gmap Kind.t bitmap) (q : TaskQueue) : TaskQueue :=
  mkTaskQueue (all_tasks q) (tq_status q) m (tq_index_tasks q) (tq_canceled_by q)
    (tq_enqueued_at q) (tq_started_at q) (tq_finished_at q).
Definition set_index_tasks (m : gmap string bitmap) (q : TaskQueue) : TaskQueue :=
  mkTaskQueue (all_tasks q) (tq_status q) (tq_kind q) m (tq_canceled_by q)
    (tq_enqueued_at q) (tq_started_at q) (tq_finished_at q).
Definition set_canceled_by (m : gmap TaskId bitmap) (q : TaskQueue) : TaskQueue :=
  mkTaskQueue (all_tasks q) (tq_status q) (tq_kind q) (tq_index_tasks q) m
    (tq_enqueued_at q) (tq_started_at q) (tq_finished_at q).
Definition set_enqueued_at (m : datedb) (q : TaskQueue) : TaskQueue :=
  mkTaskQueue (all_tasks q) (tq_status q) (tq_kind q) (tq_index_tasks q) (tq_canceled_by q)
    m (tq_started_at q) (tq_finished_at q).
Definition set_started_at (m : datedb) (q : TaskQueue) : TaskQueue :=
  mkTaskQueue (all_tasks q) (tq_status q) (tq_kind q) (tq_index_tasks q) (tq_canceled_by q)
    (tq_enqueued_at q) m (tq_finished_at q).
Definition set_finished_at (m : datedb) (q : TaskQueue) : TaskQueue :=
  mkTaskQueue (all_tasks q) (tq_status q) (tq_kind q) (tq_index_tasks q) (tq_canceled_by q)
    (tq_enqueued_at q) (tq_started_at q) m.

(** ** Operations *)

(** [last_task_id] is the last id plus one. *)
Definition last_task_id (q : TaskQueue) : option TaskId :=
  (λ k, u32_wrap (k + 1)) <$> bm_max (dom (all_tasks q)).

Definition next_task_id (q : TaskQueue) : TaskId := default 0 (last_task_id q).

Definition get_status (q : TaskQueue) (s : Status.t) : bitmap := bm_get (tq_status q) s.
Definition put_status (s : Status.t) (b : bitmap) (q : TaskQueue) : TaskQueue :=
  set_status (<[s := b]> (tq_status q)) q.
Definition update_status (s : Status.t) (f : bitmap → bitmap) (q : TaskQueue) : TaskQueue :=
  put_status s (f (get_status q s)) q.

Definition get_kind (q : TaskQueue) (k : Kind.t) : bitmap := bm_get (tq_kind q) k.
Definition put_kind (k : Kind.t) (b : bitmap) (q : TaskQueue) : TaskQueue :=
  set_kind (<[k := b]> (tq_kind q)) q.
Definition update_kind (k : Kind.t) (f : bitmap → bitmap) (q : TaskQueue) : TaskQueue :=
  put_kind k (f (get_kind q k)) q.

Definition index_tasks (q : TaskQueue) (index : string) : bitmap := bm_get (tq_index_tasks q) index.
Definition update_index (index : string) (f : bitmap → bitmap) (q : TaskQueue) : TaskQueue :=
  let tasks := f (index_tasks q index) in
  set_index_tasks (put_or_delete index tasks (tq_index_tasks q)) q.

Definition all_task_ids (q : TaskQueue) : bitmap := ⋃ (get_status q <$> Status.all).

Definition get_task (q : TaskQueue) (task_id : TaskId) : option Task := all_tasks q !! task_id.

(** The update of a date table from an old to a new optional date. *)
Definition update_datetime (db : datedb) (old new : option DateTime) (id : TaskId) : datedb :=
  let db := match old with Some d => remove_task_datetime db d id | None => db end in
  match new with Some d => insert_task_datetime db d id | None => db end.

Definition update_task (q : TaskQueue) (task : Task) : outcome Error TaskQueue :=
  old_task ← ok_or CorruptedTaskQueue (get_task q (uid task));
  let reprocessing := bool_decide (status old_task ≠ Status.Enqueued) in
  let insert_uid (b : bitmap) := {[uid task]} ∪ b in
  let remove_uid (b : bitmap) := b ∖ {[uid task]} in
  let q :=
    if decide (status old_task = status task) then q
    else update_status (status task) insert_uid (update_status (status old_task) remove_uid q) in
  let q :=
    if decide (task_kind old_task = task_kind task) then q
    else update_kind (task_kind task) insert_uid (update_kind (task_kind old_task) remove_uid q) in
  if negb (bool_decide (enqueued_at old_task = enqueued_at task)) then Panic else
  q ← (if decide (started_at old_task = started_at task) then Ok q
       else if negb (reprocessing || bool_decide (started_at old_task = None)) then Panic
       else Ok (set_started_at (update_datetime (tq_started_at q) (started_at old_task)
                  (started_at task) (uid task)) q));
  q ← (if decide (finished_at old_task = finished_at task) then Ok q
       else if negb (reprocessing || bool_decide (finished_at old_task = None)) then Panic
       else Ok (set_finished_at (update_datetime (tq_finished_at q) (finished_at old_task)
                  (finished_at task) (uid task)) q));
  Ok (set_all_tasks <[uid task := task]> q).

Definition get_existing_tasks (q : TaskQueue) (tasks : list TaskId) : outcome Error (list Task) :=
  collect (λ task_id, ok_or CorruptedTaskQueue (get_task q task_id)) tasks.

(** [TaskQueue::register]. *)
Definition tq_register (q : TaskQueue) (task : Task) : TaskQueue :=
  let insert_uid (b : bitmap) := {[uid task]} ∪ b in
  let q := set_all_tasks <[uid task := task]> q in
  let q := foldl (λ q index, update_index index insert_uid q) q (Task_indexes task) in
  let q := update_status Status.Enqueued insert_uid q in
  let q := update_kind (task_kind task) insert_uid q in
  set_enqueued_at (insert_task_datetime (tq_enqueued_at q) (enqueued_at task) (uid task)) q.

(** ** The invariant

    A table tabulates [P] when it lists under [k] the ids of the tasks [t] with
    [P t k]. *)

Definition tabulates {K} `{Countable K} (m : gmap K bitmap) (all : gmap TaskId Task)
    (P : Task → K → Prop) : Prop :=
  ∀ k id, id ∈ bm_get m k ↔ ∃ t, all !! id = Some t ∧ P t k.

Definition has_status (t : Task) (s : Status.t) : Prop := status t = s.
Definition has_kind (t : Task) (k : Kind.t) : Prop := task_kind t = k.
Definition has_index (t : Task) (i : string) : Prop := i ∈ Task_indexes t.
Definition has_enqueued_at (t : Task) (d : DateTime) : Prop := enqueued_at t = d.
Definition has_started_at (t : Task) (d : DateTime) : Prop := started_at t = Some d.
Definition has_finished_at (t : Task) (d : DateTime) : Prop := finished_at t = Some d.

Record tq_wf (q : TaskQueue) : Prop := {
  wf_uid : ∀ id t, all_tasks q !! id = Some t → uid t = id;
  wf_range : ∀ id, is_Some (all_tasks q !! id) → 0 ≤ id ≤ u32_max;
  wf_status : tabulates (tq_status q) (all_tasks q) has_status;
  wf_kind : tabulates (tq_kind q) (all_tasks q) has_kind;
  wf_index : tabulates (tq_index_tasks q) (all_tasks q) has_index;
  wf_enqueued : tabulates (tq_enqueued_at q) (all_tasks q) has_enqueued_at;
  wf_started : tabulates (tq_started_at q) (all_tasks q) has_started_at;
  wf_finished : tabulates (tq_finished_at q) (all_tasks q) has_finished_at;
  wf_index_ne : no_empty (tq_index_tasks q);
  wf_enqueued_ne : no_empty (tq_enqueued_at q);
  wf_started_ne : no_empty (tq_started_at q);
  wf_finished_ne : no_empty (tq_finished_at q);
}.
End TaskQueue.

(** ** How the invariant changes with the main table *)

Section tabulates_facts.
Context `{Externals} {K : Type} `{Countable K}.
Implicit Types (m : gmap K bitmap) (all : gmap TaskId Task) (P : Task → K → Prop).

Lemma tabulates_empty P : tabulates ∅ ∅ P.
Proof.
  intros k id. unfold bm_get. rewrite lookup_empty. setoid_rewrite lookup_empty.
  split; [set_solver | by intros (? & ? & _)].
Qed.

(** Adding a task. *)
Lemma tabulates_insert m m' all P id t :
  tabulates m all P → all !! id = None →
  (∀ k y, y ∈ bm_get m' k ↔ (P t k ∧ y = id) ∨ y ∈ bm_get m k) →
  tabulates m' (<[id := t]> all) P.
Proof.
  intros Hm Hid Hm' k y. rewrite Hm', (Hm k y). destruct (decide (y = id)) as [->|Hne].
  - rewrite lookup_insert_eq, Hid. naive_solver.
  - rewrite lookup_insert_ne by done. naive_solver.
Qed.

(** Replacing a task. *)
Lemma tabulates_update m m' all P id old t :
  tabulates m all P → all !! id = Some old →
  (∀ k y, y ∈ bm_get m' k ↔ (P t k ∧ y = id) ∨ (y ∈ bm_get m k ∧ ¬ (P old k ∧ y = id))) →
  tabulates m' (<[id := t]> all) P.
Proof.
  intros Hm Hid Hm' k y. rewrite Hm', (Hm k y). destruct (decide (y = id)) as [->|Hne].
  - rewrite lookup_insert_eq, Hid. naive_solver.
  - rewrite lookup_insert_ne by done. naive_solver.
Qed.

Lemma tabulates_same m all P id old t :
  tabulates m all P → all !! id = Some old → (∀ k, P t k ↔ P old k) →
  tabulates m (<[id := t]> all) P.
Proof.
  intros Hm Hid HP k y. rewrite (Hm k y). destruct (decide (y = id)) as [->|Hne].
  - rewrite lookup_insert_eq, Hid. naive_solver.
  - by rewrite lookup_insert_ne by done.
Qed.

(** Removing a set of tasks. *)
Lemma tabulates_filter m m' all all' P (D : bitmap) :
  tabulates m all P → (∀ y, all' !! y = if decide (y ∈ D) then None else all !! y) →
  (∀ k y, y ∈ bm_get m' k ↔ y ∈ bm_get m k ∧ y ∉ D) →
  tabulates m' all' P.
Proof.
  intros Hm Hall Hm' k y. rewrite Hm', (Hm k y), Hall. case_decide; naive_solver.
Qed.

Lemma tabulates_get m all P k id t :
  tabulates m all P → all !! id = Some t → id ∈ bm_get m k ↔ P t k.
Proof. intros Hm Ht. rewrite (Hm k id), Ht. naive_solver. Qed.

(** Moving an id from a key to another. *)
Lemma elem_of_move m old new (id : Z) k y :
  let m1 := <[old := bm_get m old ∖ {[id]}]> m in
  y ∈ bm_get (<[new := {[id]} ∪ bm_get m1 new]> m1) k ↔
  (new = k ∧ y = id) ∨ (y ∈ bm_get m k ∧ ¬ (old = k ∧ y = id)).
Proof. intros m1. unfold m1. table_cases; set_solver. Qed.
End tabulates_facts.

Section datetime_facts.
Lemma elem_of_update_datetime db old new id k y :
  y ∈ bm_get (update_datetime db old new id) k ↔
  (new = Some k ∧ y = id) ∨ (y ∈ bm_get db k ∧ ¬ (old = Some k ∧ y = id)).
Proof.
  unfold update_datetime. destruct old as [o|], new as [n|];
    rewrite ?elem_of_insert_task_datetime, ?elem_of_remove_task_datetime; naive_solver.
Qed.

Lemma no_empty_update_datetime db old new id :
  no_empty db → no_empty (update_datetime db old new id).
Proof.
  intros. unfold update_datetime. destruct old, new;
    auto using no_empty_insert_task_datetime, no_empty_remove_task_datetime.
Qed.
End datetime_facts.

Section wf_facts.
Context `{Externals}.

Lemma TaskQueue_new_wf : tq_wf TaskQueue_new.
Proof.
  constructor; simpl; try apply tabulates_empty; try (intros ?; by rewrite lookup_empty).
Qed.

Lemma elem_of_all_task_ids q id :
  tq_wf q → id ∈ all_task_ids q ↔ is_Some (all_tasks q !! id).
Proof.
  intros Hwf. unfold all_task_ids. rewrite elem_of_union_list. split.
  - intros (b & Hb & Hid). apply list_elem_of_fmap in Hb as (s & -> & _).
    apply (wf_status _ Hwf) in Hid as (t & ? & _). by eauto.
  - intros [t Ht]. exists (get_status q (status t)). split.
    + apply list_elem_of_fmap. exists (status t). split; [done|].
      unfold Status.all. destruct (status t); set_solver.
    + apply (wf_status _ Hwf). exists t. by split.
Qed.

(** [next_task_id] is not the id of a task, and no larger id is in use. *)
Lemma next_task_id_fresh q id :
  tq_wf q → (∀ t, all_tasks q !! u32_max ≠ Some t) →
  is_Some (all_tasks q !! id) → id < next_task_id q.
Proof.
  intros Hwf Hmax Hid. unfold next_task_id, last_task_id.
  destruct (bm_max (dom (all_tasks q))) as [k|] eqn:Hk; simpl.
  - apply bm_max_Some in Hk as [Hin Hle]. apply elem_of_dom in Hin.
    assert (k ≠ u32_max) by (intros ->; destruct Hin as [t Ht]; by apply (Hmax t)).
    apply (wf_range _ Hwf) in Hin. rewrite u32_wrap_id by lia.
    specialize (Hle id). rewrite elem_of_dom in Hle. specialize (Hle Hid). lia.
  - apply bm_max_None in Hk. apply elem_of_dom in Hid. rewrite Hk in Hid. set_solver.
Qed.
End wf_facts.

(** ** Registration *)

Section register.
Context `{Externals}.

Lemma update_index_fold f l q :
  let q' := foldl (λ q index, update_index index f q) q l in
  all_tasks q' = all_tasks q ∧ tq_status q' = tq_status q ∧ tq_kind q' = tq_kind q ∧
  tq_canceled_by q' = tq_canceled_by q ∧ tq_enqueued_at q' = tq_enqueued_at q ∧
  tq_started_at q' = tq_started_at q ∧ tq_finished_at q' = tq_finished_at q.
Proof. revert q; induction l as [|i l IH]; intros q; [done|]. apply (IH (update_index i f q)). Qed.

Lemma elem_of_update_index_fold (id : TaskId) l q i y :
  let q' := foldl (λ q index, update_index index (λ b, {[id]} ∪ b) q) q l in
  y ∈ bm_get (tq_index_tasks q') i ↔ (i ∈ l ∧ y = id) ∨ y ∈ bm_get (tq_index_tasks q) i.
Proof.
  simpl. revert q; induction l as [|j l IH]; intros q; simpl; [set_solver|].
  rewrite IH. unfold update_index, index_tasks; simpl. table_cases; set_solver.
Qed.

Lemma no_empty_update_index_fold f l q :
  no_empty (tq_index_tasks q) →
  no_empty (tq_index_tasks (foldl (λ q index, update_index index f q) q l)).
Proof.
  revert q; induction l as [|j l IH]; intros q Hq; simpl; [done|].
  apply IH. unfold update_index; simpl. auto with sched.
Qed.

(** A task as [register] receives it. *)
Record fresh_task (q : TaskQueue) (t : Task) : Prop := {
  fresh_uid : all_tasks q !! uid t = None;
  fresh_range : 0 ≤ uid t ≤ u32_max;
  fresh_status : status t = Status.Enqueued;
  fresh_started : started_at t = None;
  fresh_finished : finished_at t = None;
}.

(** Registering a new enqueued task adds it to the main table and leaves every
    index of the queue exact. *)
Lemma tq_register_wf q t :
  tq_wf q → fresh_task q t →
  tq_wf (tq_register q t) ∧ all_tasks (tq_register q t) = <[uid t := t]> (all_tasks q).
Proof.
  intros Hwf Hf. unfold tq_register.
  pose proof (update_index_fold (λ b, {[uid t]} ∪ b) (Task_indexes t)
    (set_all_tasks <[uid t := t]> q)) as Hfold.
  pose proof (elem_of_update_index_fold (uid t) (Task_indexes t)
    (set_all_tasks <[uid t := t]> q)) as Hidx.
  pose proof (no_empty_update_index_fold (λ b, {[uid t]} ∪ b) (Task_indexes t)
    (set_all_tasks <[uid t := t]> q) (wf_index_ne _ Hwf)) as Hne.
  destruct (foldl _ _ _) as [all st kd idx cb enq sta fin]. simpl in *.
  destruct Hfold as (-> & -> & -> & -> & -> & -> & ->). split; [|done].
  destruct Hf as [Hnew Hrange Hst Hsta Hfin]. destruct Hwf.
  constructor; simpl; try done.
  - intros id t'. rewrite lookup_insert_Some. naive_solver.
  - intros id. rewrite lookup_insert_is_Some'. naive_solver.
  - eapply tabulates_insert; [done..|]. intros k y. unfold get_status, has_status; simpl.
    table_cases; set_solver.
  - eapply tabulates_insert; [done..|]. intros k y. unfold get_kind, has_kind; simpl.
    table_cases; set_solver.
  - eapply tabulates_insert; [done..|]. intros k y. by rewrite Hidx.
  - eapply tabulates_insert; [done..|]. intros k y. rewrite elem_of_insert_task_datetime.
    unfold has_enqueued_at. naive_solver.
  - eapply tabulates_insert; [done..|]. intros k y. unfold has_started_at. naive_solver.
  - eapply tabulates_insert; [done..|]. intros k y. unfold has_finished_at. naive_solver.
  - by apply no_empty_insert_task_datetime.
Qed.
End register.

(** ** Update *)

Section update.
Context `{Externals}.

(** An update the code accepts: the task exists, keeps its enqueuing date and
    its indexes, and its dates are written only once while it is enqueued. *)
Record acceptable_update (old t : Task) : Prop := {
  upd_enqueued : enqueued_at old = enqueued_at t;
  upd_started : status old = Status.Enqueued → started_at old = None ∨ started_at old = started_at t;
  upd_finished : status old = Status.Enqueued → finished_at old = None ∨ finished_at old = finished_at t;
}.

Lemma update_dates (reprocessing : bool) (old new : option DateTime) (q : TaskQueue) (f : TaskQueue → TaskQueue) :
  (reprocessing = false → old = None ∨ old = new) →
  (if decide (old = new) then Ok q
   else if negb (reprocessing || bool_decide (old = None)) then Panic else Ok (f q)) =
  Ok (E:=Error) (if decide (old = new) then q else f q).
Proof.
  intros Hre. case_decide; [done|]. destruct reprocessing; simpl; [done|].
  destruct (Hre eq_refl) as [->|]; [|done]. by rewrite bool_decide_true.
Qed.

(** What an accepted update computes. *)
Lemma update_task_Ok q old t :
  get_task q (uid t) = Some old → acceptable_update old t →
  ∃ q', update_task q t = Ok q' ∧
    all_tasks q' = <[uid t := t]> (all_tasks q) ∧ tq_index_tasks q' = tq_index_tasks q ∧
    tq_canceled_by q' = tq_canceled_by q ∧ tq_enqueued_at q' = tq_enqueued_at q ∧
    tq_status q' = (if decide (status old = status t) then tq_status q
      else tq_status (update_status (status t) (λ b, {[uid t]} ∪ b)
             (update_status (status old) (λ b, b ∖ {[uid t]}) q))) ∧
    tq_kind q' = (if decide (task_kind old = task_kind t) then tq_kind q
      else tq_kind (update_kind (task_kind t) (λ b, {[uid t]} ∪ b)
             (update_kind (task_kind old) (λ b, b ∖ {[uid t]}) q))) ∧
    tq_started_at q' = (if decide (started_at old = started_at t) then tq_started_at q
      else update_datetime (tq_started_at q) (started_at old) (started_at t) (uid t)) ∧
    tq_finished_at q' = (if decide (finished_at old = finished_at t) then tq_finished_at q
      else update_datetime (tq_finished_at q) (finished_at old) (finished_at t) (uid t)).
Proof.
  intros Hold [He Hs Hf]. unfold update_task. rewrite Hold. cbn [ok_or mbind outcome_bind].
  rewrite (bool_decide_true (enqueued_at old = _)) by done. cbn [negb].
  assert (Hre : bool_decide (status old ≠ Status.Enqueued) = false → status old = Status.Enqueued).
  { intros Hd%bool_decide_eq_false. by destruct (decide (status old = Status.Enqueued)). }
  match goal with |- context [if decide (started_at old = started_at t) then Ok ?q1 else _] =>
    set (qk := q1) end.
  rewrite (update_dates _ _ _ qk (λ q, set_started_at (update_datetime (tq_started_at q) (started_at old)
                  (started_at t) (uid t)) q)) by auto. cbn [mbind outcome_bind].
  match goal with |- context [if decide (finished_at old = finished_at t) then Ok ?q1 else _] =>
    set (qs := q1) end.
  rewrite (update_dates _ _ _ qs (λ q, set_finished_at (update_datetime (tq_finished_at q)
    (finished_at old) (finished_at t) (uid t)) q)) by auto. cbn [mbind outcome_bind].
  eexists. split; [done|]. unfold qs, qk. repeat case_decide; simpl; try done.
Qed.

(** An acceptable update that keeps the indexes of the task leaves every index
    of the queue exact. *)
Lemma update_task_wf q old t :
  tq_wf q → get_task q (uid t) = Some old → acceptable_update old t →
  (∀ i, i ∈ Task_indexes t ↔ i ∈ Task_indexes old) →
  ∃ q', update_task q t = Ok q' ∧ tq_wf q' ∧ all_tasks q' = <[uid t := t]> (all_tasks q).
Proof.
  intros Hwf Hold Hacc Hidx.
  destruct (update_task_Ok q old t Hold Hacc)
    as (q' & Hq' & Hall & Hit & _ & Henq & Hst & Hkd & Hsta & Hfin).
  exists q'. split; [done|]. split; [|done]. unfold get_task in Hold. destruct Hwf.
  constructor; rewrite ?Hall, ?Hit, ?Henq, ?Hst, ?Hkd, ?Hsta, ?Hfin;
    clear Hst Hkd Hsta Hfin; try done.
  - intros id t'. rewrite lookup_insert_Some. intros [[<- <-]|[_ ?]]; auto.
  - intros id. rewrite lookup_insert_is_Some'. intros [<-|?]; [|by auto]. eapply wf_range0; eauto.
  - case_decide; [eapply tabulates_same | eapply tabulates_update]; try done.
    + intros k. unfold has_status. split; congruence.
    + intros k y. apply elem_of_move.
  - case_decide; [eapply tabulates_same | eapply tabulates_update]; try done.
    + intros k. unfold has_kind. split; congruence.
    + intros k y. apply elem_of_move.
  - by eapply tabulates_same.
  - eapply tabulates_same; [done..|]. intros k. unfold has_enqueued_at.
    by rewrite (upd_enqueued _ _ Hacc).
  - case_decide as Hd; [eapply tabulates_same | eapply tabulates_update]; try done.
    + intros k. unfold has_started_at. by rewrite Hd.
    + intros k y. apply elem_of_update_datetime.
  - case_decide as Hd; [eapply tabulates_same | eapply tabulates_update]; try done.
    + intros k. unfold has_finished_at. by rewrite Hd.
    + intros k y. apply elem_of_update_datetime.
  - case_decide; auto using no_empty_update_datetime.
  - case_decide; auto using no_empty_update_datetime.
Qed.

#[global] Instance acceptable_update_dec old t : Decision (acceptable_update old t).
Proof.
  refine (cast_if (decide (enqueued_at old = enqueued_at t ∧
    (status old = Status.Enqueued → started_at old = None ∨ started_at old = started_at t) ∧
    (status old = Status.Enqueued → finished_at old = None ∨ finished_at old = finished_at t)))).
  - abstract (constructor; tauto).
  - abstract (intros []; tauto).
Defined.

Lemma update_dates_Panic (reprocessing : bool) (old new : option DateTime) (m : outcome Error TaskQueue) q :
  ¬ (reprocessing = false → old = None ∨ old = new) →
  (if decide (old = new) then Ok q
   else if negb (reprocessing || bool_decide (old = None)) then Panic else m) = Panic.
Proof.
  intros Hre. case_decide; [tauto|]. destruct reprocessing; simpl; [by destruct Hre|].
  rewrite bool_decide_false; [done|tauto].
Qed.

Lemma update_task_Panic q old t :
  get_task q (uid t) = Some old → ¬ acceptable_update old t → update_task q t = Panic.
Proof.
  intros Hold Hacc. unfold update_task. rewrite Hold. cbn [ok_or mbind outcome_bind].
  assert (Hre : bool_decide (status old ≠ Status.Enqueued) = false ↔ status old = Status.Enqueued).
  { rewrite bool_decide_eq_false. split; [|tauto]. by destruct (decide (status old = Status.Enqueued)). }
  destruct (decide (enqueued_at old = enqueued_at t)) as [He|He];
    [rewrite (bool_decide_true (enqueued_at old = _)) by done
    |by rewrite (bool_decide_false (enqueued_at old = _))].
  cbn [negb].
  destruct (decide (bool_decide (status old ≠ Status.Enqueued) = false →
    started_at old = None ∨ started_at old = started_at t)) as [Hs|Hs];
    [|by rewrite update_dates_Panic].
  match goal with |- context [if decide (started_at old = started_at t) then Ok ?q1 else _] =>
    rewrite (update_dates _ _ _ q1 (λ q, set_started_at (update_datetime (tq_started_at q)
      (started_at old) (started_at t) (uid t)) q)) by done end.
  cbn [mbind outcome_bind]. rewrite update_dates_Panic; [done|].
  intros Hf. destruct Hacc. constructor; tauto.
Qed.

(** C12. Every outcome of [update_task] on a well-formed queue.  An unknown
    task is [CorruptedTaskQueue]; an update that changes the enqueuing date, or
    a date already set on a task still enqueued, is refused by an assertion; any
    other update succeeds and replaces the task in the main table; provided the
    indexes the task is about are the same as before, it leaves every index of the queue exact (the
    task is listed under its new status, kind and dates and under no other).  Nothing is said
    of the tables when the indexes of the task change, which the code does not look at. *)
Theorem update_task_outcome q t :
  tq_wf q →
  match get_task q (uid t) with
  | None => update_task q t = Err CorruptedTaskQueue
  | Some old =>
      (¬ acceptable_update old t ∧ update_task q t = Panic) ∨
      (acceptable_update old t ∧ ∃ q', update_task q t = Ok q' ∧
         all_tasks q' = <[uid t := t]> (all_tasks q) ∧
         ((∀ i, i ∈ Task_indexes t ↔ i ∈ Task_indexes old) → tq_wf q'))
  end.
Proof.
  intros Hwf. destruct (get_task q (uid t)) as [old|] eqn:Hold.
  - destruct (decide (acceptable_update old t)) as [Hacc|Hacc].
    + right. split; [done|].
      destruct (update_task_Ok q old t Hold Hacc) as (q' & Hq' & Hall & _).
      exists q'. split; [done|]. split; [done|]. intros Hidx.
      destruct (update_task_wf q old t Hwf Hold Hacc Hidx) as (q'' & Hq'' & ? & _).
      rewrite Hq' in Hq''. by simplify_eq.
    + left. split; [done|]. by eapply update_task_Panic.
  - unfold update_task. by rewrite Hold.
Qed.
End update.

(** ** Witnesses *)

Section witnesses.
#[local] Existing Instance sample_externals.

Definition sample_task : Task :=
  mkTask 0 None 10 None None None None None Status.Enqueued
    (KindWithContent.IndexCreation "movies" None).

Definition sample_done : Task :=
  mkTask 0 (Some 0) 10 (Some 20) (Some 30) None None None Status.Succeeded
    (KindWithContent.IndexCreation "movies" None).

Definition sample_queue : TaskQueue := tq_register TaskQueue_new sample_task.

Lemma sample_queue_wf : tq_wf sample_queue.
Proof. apply tq_register_wf; [apply TaskQueue_new_wf | by constructor]. Qed.

Lemma update_task_outcome_witness :
  tq_wf sample_queue ∧ get_task sample_queue (uid sample_done) = Some sample_task ∧
  ∃ q', update_task sample_queue sample_done = Ok q' ∧ tq_wf q'.
Proof.
  split; [exact sample_queue_wf|]. split; [by vm_compute|].
  pose proof (update_task_outcome sample_queue sample_done sample_queue_wf) as Hout.
  change (get_task sample_queue (uid sample_done)) with (Some sample_task) in Hout.
  destruct Hout as [[Hacc _]|[_ (q' & Hq' & _ & Hwf')]].
  - destruct Hacc. constructor; [done | by left | by left].
  - exists q'. split; [exact Hq'|]. apply Hwf'. done.
Defined.
End witnesses.
