(* ===== verification/BatchQueue.v ===== *)
(** * The batch queue

    [crates/index-scheduler/src/queue/batches.rs], the [BatchQueue] half: the
    seven databases that describe the batches, [write_batch] and the invariant
    it preserves. *)

From S2P Require Import Prelude TaskTypes DetailsView SchedUtils TaskQueue.
Open Scope Z_scope.

Section BatchQueue.
Context `{Externals}.

Record BatchQueue := mkBatchQueue {
  all_batches : gmap BatchId Batch;
  bq_status : gmap Status.t bitmap;
  bq_kind : gmap Kind.t bitmap;
  bq_index_tasks : gmap string bitmap;
  bq_enqueued_at : datedb;
  bq_started_at : datedb;
  bq_finished_at : datedb;
}.

(** [BatchQueue::new] on a fresh environment. *)
Definition BatchQueue_new : BatchQueue := mkBatchQueue ∅ ∅ ∅ ∅ ∅ ∅ ∅.

Definition bq_set_all_batches (m : gmap BatchId Batch) (q : BatchQueue) : BatchQueue :=
  mkBatchQueue m (bq_status q) (bq_kind q) (bq_index_tasks q) (bq_enqueued_at q)
    (bq_started_at q) (bq_finished_at q).
Definition bq_set_status (m : gmap Status.t bitmap) (q : BatchQueue) : BatchQueue :=
  mkBatchQueue (all_batches q) m (bq_kind q) (bq_index_tasks q) (bq_enqueued_at q)
    (bq_started_at q) (bq_finished_at q).
Definition bq_set_kind (m : gmap Kind.t bitmap) (q : BatchQueue) : BatchQueue :=
  mkBatchQueue (all_batches q) (bq_status q) m (bq_index_tasks q) (bq_enqueued_at q)
    (bq_started_at q) (bq_finished_at q).
Definition bq_set_index_tasks (m : gmap string bitmap) (q : BatchQueue) : BatchQueue :=
  mkBatchQueue (all_batches q) (bq_status q) (bq_kind q) m (bq_enqueued_at q)
    (bq_started_at q) (bq_finished_at q).
Definition bq_set_enqueued_at (m : datedb) (q : BatchQueue) : BatchQueue :=
  mkBatchQueue (all_batches q) (bq_status q) (bq_kind q) (bq_index_tasks q) m
    (bq_started_at q) (bq_finished_at q).
Definition bq_set_started_at (m : datedb) (q : BatchQueue) : BatchQueue :=
  mkBatchQueue (all_batches q) (bq_status q) (bq_kind q) (bq_index_tasks q) (bq_enqueued_at q)
    m (bq_finished_at q).
Definition bq_set_finished_at (m : datedb) (q : BatchQueue) : BatchQueue :=
  mkBatchQueue (all_batches q) (bq_status q) (bq_kind q) (bq_index_tasks q) (bq_enqueued_at q)
    (bq_started_at q) m.

(** ** Operations *)

Definition bq_get_status (q : BatchQueue) (s : Status.t) : bitmap := bm_get (bq_status q) s.
Definition bq_update_status (s : Status.t) (f : bitmap → bitmap) (q : BatchQueue) : BatchQueue :=
  bq_set_status (<[s := f (bq_get_status q s)]> (bq_status q)) q.

Definition bq_get_kind (q : BatchQueue) (k : Kind.t) : bitmap := bm_get (bq_kind q) k.
Definition bq_update_kind (k : Kind.t) (f : bitmap → bitmap) (q : BatchQueue) : BatchQueue :=
  bq_set_kind (<[k := f (bq_get_kind q k)]> (bq_kind q)) q.

Definition index_batches (q : BatchQueue) (i : string) : bitmap := bm_get (bq_index_tasks q) i.
Definition bq_update_index (i : string) (f : bitmap → bitmap) (q : BatchQueue) : BatchQueue :=
  bq_set_index_tasks (put_or_delete i (f (index_batches q i)) (bq_index_tasks q)) q.

Definition all_batch_ids (q : BatchQueue) : bitmap := ⋃ (bq_get_status q <$> Status.all).

Definition next_batch_id (q : BatchQueue) : BatchId :=
  default 0 ((λ k, u32_wrap (k + 1)) <$> bm_max (dom (all_batches q))).

Definition get_batch (q : BatchQueue) (batch_id : BatchId) : option Batch :=
  all_batches q !! batch_id.

(** [u32::clamp(1, 2)]. *)
Definition clamp_1_2 (n : Z) : Z := Z.min 2 (Z.max 1 n).

(** The removal of the enqueuing dates of a batch from the date table. *)
Definition remove_batch_enqueued_at (db : datedb) (batch : Batch) (id : BatchId) : datedb :=
  match b_enqueued_at batch with
  | Some e => remove_task_datetime (remove_task_datetime db (earliest e) id) (oldest e) id
  | None =>
      remove_n_tasks_datetime_earlier_than db (b_started_at batch)
        (clamp_1_2 (total_nb_tasks (b_stats batch))) id
  end.

(** The three pairs of loops of [write_batch]: the id leaves the keys the old
    batch had and enters those of the new one.  The iteration order over the
    hash sets does not matter: each step writes its own key. *)
Definition retag_status (id : BatchId) (old new : gset Status.t) (q : BatchQueue) : BatchQueue :=
  let q := foldl (λ q s, bq_update_status s (λ b, b ∖ {[id]}) q) q (elements old) in
  foldl (λ q s, bq_update_status s (λ b, {[id]} ∪ b) q) q (elements new).
Definition retag_kind (id : BatchId) (old new : gset Kind.t) (q : BatchQueue) : BatchQueue :=
  let q := foldl (λ q k, bq_update_kind k (λ b, b ∖ {[id]}) q) q (elements old) in
  foldl (λ q k, bq_update_kind k (λ b, {[id]} ∪ b) q) q (elements new).
Definition retag_index (id : BatchId) (old new : gset string) (q : BatchQueue) : BatchQueue :=
  let q := foldl (λ q i, bq_update_index i (λ b, b ∖ {[id]}) q) q (elements old) in
  foldl (λ q i, bq_update_index i (λ b, {[id]} ∪ b) q) q (elements new).

(** [BatchQueue::write_batch]. *)
Definition bq_write_batch (q : BatchQueue) (batch : ProcessingBatch) : outcome Error BatchQueue :=
  let id := pb_uid batch in
  let old_batch := all_batches q !! id in
  let q := bq_set_all_batches (<[id := to_batch batch]> (all_batches q)) q in
  (* the statuses *)
  let old_statuses :=
    match old_batch with Some old => dom (bs_status (b_stats old)) | None => ∅ end in
  let q := retag_status id old_statuses (pb_statuses batch) q in
  (* the kinds *)
  let old_kinds :=
    match old_batch with Some old => dom (bs_types (b_stats old)) ∖ pb_kinds batch | None => ∅ end in
  let q := retag_kind id old_kinds (pb_kinds batch) q in
  (* the indexes *)
  let old_indexes :=
    match old_batch with
    | Some old => dom (bs_index_uids (b_stats old)) ∖ pb_indexes batch
    | None => ∅
    end in
  let q := retag_index id old_indexes (pb_indexes batch) q in
  (* the dates *)
  let enq :=
    match old_batch with
    | Some old => remove_batch_enqueued_at (bq_enqueued_at q) old (b_uid old)
    | None => bq_enqueued_at q
    end in
  e ← unwrap (pb_enqueued_at batch);
  let enq := insert_task_datetime (insert_task_datetime enq (earliest e) id) (oldest e) id in
  let q := bq_set_enqueued_at enq q in
  let sta :=
    match old_batch with
    | Some old => remove_task_datetime (bq_started_at q) (b_started_at old) (b_uid old)
    | None => bq_started_at q
    end in
  let fin :=
    match old_batch with
    | Some old =>
        match b_finished_at old with
        | Some d => remove_task_datetime (bq_finished_at q) d (b_uid old)
        | None => bq_finished_at q
        end
    | None => bq_finished_at q
    end in
  let q := bq_set_started_at (insert_task_datetime sta (pb_started_at batch) id) q in
  d ← unwrap (pb_finished_at batch);
  Ok (bq_set_finished_at (insert_task_datetime fin d id) q).

(** ** The invariant

    The batches are stored under their ids and the date tables are exact. *)

Record bq_wf (q : BatchQueue) : Prop := {
  bwf_uid : ∀ id b, all_batches q !! id = Some b → b_uid b = id;
  bwf_dates : ∀ id b, all_batches q !! id = Some b → b_enqueued_at b ≠ None;
  bwf_enqueued : ∀ d id, id ∈ bm_get (bq_enqueued_at q) d ↔
    ∃ b e, all_batches q !! id = Some b ∧ b_enqueued_at b = Some e ∧ (d = earliest e ∨ d = oldest e);
  bwf_started : ∀ d id, id ∈ bm_get (bq_started_at q) d ↔
    ∃ b, all_batches q !! id = Some b ∧ b_started_at b = d;
  bwf_finished : ∀ d id, id ∈ bm_get (bq_finished_at q) d ↔
    ∃ b, all_batches q !! id = Some b ∧ b_finished_at b = Some d;
}.

(** The other tables list only batches. *)
Record bq_listed (q : BatchQueue) : Prop := {
  bl_status : ∀ s id, id ∈ bm_get (bq_status q) s → is_Some (all_batches q !! id);
  bl_kind : ∀ k id, id ∈ bm_get (bq_kind q) k → is_Some (all_batches q !! id);
  bl_index : ∀ i id, id ∈ bm_get (bq_index_tasks q) i → is_Some (all_batches q !! id);
}.
End BatchQueue.

(** ** The loops of [write_batch] *)

Section loops.
Context `{Externals}.
Implicit Types q : BatchQueue.

(** [id] is listed in [m'] under [new], and otherwise as in [m] but not under
    [old]; the other ids do not move. *)
Definition retagged {K} `{Countable K} (id : BatchId) (old new : gset K) (m m' : gmap K bitmap) : Prop :=
  ∀ k y, y ∈ bm_get m' k ↔ (y = id ∧ k ∈ new) ∨ (y ∈ bm_get m k ∧ ¬ (y = id ∧ k ∈ old)).

(** A table after a loop that applies [f] under each key of [l]. *)
Lemma table_remove_fold {K} `{Countable K} (id : Z) (l : list K) (m : gmap K bitmap)
    (upd : bitmap → K → gmap K bitmap → gmap K bitmap) k y :
  (∀ b k m k', bm_get (upd b k m) k' = if decide (k = k') then b else bm_get m k') →
  y ∈ bm_get (foldl (λ m k, upd (bm_get m k ∖ {[id]}) k m) m l) k ↔
  y ∈ bm_get m k ∧ ¬ (y = id ∧ k ∈ l).
Proof.
  intros Hupd. revert m; induction l as [|x l IH]; intros m; simpl; [set_solver|].
  rewrite IH, Hupd. case_decide; set_solver.
Qed.

Lemma table_insert_fold {K} `{Countable K} (id : Z) (l : list K) (m : gmap K bitmap)
    (upd : bitmap → K → gmap K bitmap → gmap K bitmap) k y :
  (∀ b k m k', bm_get (upd b k m) k' = if decide (k = k') then b else bm_get m k') →
  y ∈ bm_get (foldl (λ m k, upd ({[id]} ∪ bm_get m k) k m) m l) k ↔
  (y = id ∧ k ∈ l) ∨ y ∈ bm_get m k.
Proof.
  intros Hupd. revert m; induction l as [|x l IH]; intros m; simpl; [set_solver|].
  rewrite IH, Hupd. case_decide; set_solver.
Qed.

Lemma retagged_fold {K} `{Countable K} (id : Z) (old new : gset K) (m : gmap K bitmap)
    (upd : bitmap → K → gmap K bitmap → gmap K bitmap) :
  (∀ b k m k', bm_get (upd b k m) k' = if decide (k = k') then b else bm_get m k') →
  retagged id old new m
    (foldl (λ m k, upd ({[id]} ∪ bm_get m k) k m)
       (foldl (λ m k, upd (bm_get m k ∖ {[id]}) k m) m (elements old)) (elements new)).
Proof.
  intros Hupd k y. rewrite table_insert_fold, table_remove_fold by done.
  by rewrite !elem_of_elements.
Qed.

(** Each pair of loops changes its own table only. *)
Lemma retag_status_eq id old new q :
  ∃ m, retag_status id old new q = bq_set_status m q ∧ retagged id old new (bq_status q) m.
Proof.
  eexists. split; [|apply (retagged_fold id old new (bq_status q) (λ b k m, <[k := b]> m));
    intros; apply bm_get_insert].
  assert (Hf : ∀ f l m, foldl (λ q s, bq_update_status s f q) (bq_set_status m q) l =
    bq_set_status (foldl (λ m k, <[k := f (bm_get m k)]> m) m l) q).
  { intros f l. induction l as [|x l IH]; intros m; simpl; [done|].
    rewrite <-IH. done. }
  unfold retag_status. destruct q as [all st kd ix en sa fi]. 
  etransitivity; [|apply (Hf (λ b, {[id]} ∪ b))]. f_equal.
  apply (Hf (λ b, b ∖ {[id]})).
Qed.

Lemma retag_kind_eq id old new q :
  ∃ m, retag_kind id old new q = bq_set_kind m q ∧ retagged id old new (bq_kind q) m.
Proof.
  eexists. split; [|apply (retagged_fold id old new (bq_kind q) (λ b k m, <[k := b]> m));
    intros; apply bm_get_insert].
  assert (Hf : ∀ f l m, foldl (λ q s, bq_update_kind s f q) (bq_set_kind m q) l =
    bq_set_kind (foldl (λ m k, <[k := f (bm_get m k)]> m) m l) q).
  { intros f l. induction l as [|x l IH]; intros m; simpl; [done|].
    rewrite <-IH. done. }
  unfold retag_kind. destruct q as [all st kd ix en sa fi]. 
  etransitivity; [|apply (Hf (λ b, {[id]} ∪ b))]. f_equal.
  apply (Hf (λ b, b ∖ {[id]})).
Qed.

Lemma retag_index_eq id old new q :
  ∃ m, retag_index id old new q = bq_set_index_tasks m q ∧
    retagged id old new (bq_index_tasks q) m.
Proof.
  eexists. split; [|apply (retagged_fold id old new (bq_index_tasks q) (λ b k m, put_or_delete k b m));
    intros; apply bm_get_put_or_delete].
  assert (Hf : ∀ f l m, foldl (λ q s, bq_update_index s f q) (bq_set_index_tasks m q) l =
    bq_set_index_tasks (foldl (λ m k, put_or_delete k (f (bm_get m k)) m) m l) q).
  { intros f l. induction l as [|x l IH]; intros m; simpl; [done|].
    rewrite <-IH. done. }
  unfold retag_index. destruct q as [all st kd ix en sa fi]. 
  etransitivity; [|apply (Hf (λ b, {[id]} ∪ b))]. f_equal.
  apply (Hf (λ b, b ∖ {[id]})).
Qed.
End loops.

(** ** What [write_batch] does *)

Section write_batch.
Context `{Externals}.

(** The table of the finishing dates without the old batch. *)
Definition without_finished_at (q : BatchQueue) (id : BatchId) : datedb :=
  match all_batches q !! id with
  | Some old =>
      match b_finished_at old with
      | Some d => remove_task_datetime (bq_finished_at q) d (b_uid old)
      | None => bq_finished_at q
      end
  | None => bq_finished_at q
  end.
Definition without_started_at (q : BatchQueue) (id : BatchId) : datedb :=
  match all_batches q !! id with
  | Some old => remove_task_datetime (bq_started_at q) (b_started_at old) (b_uid old)
  | None => bq_started_at q
  end.
Definition without_enqueued_at (q : BatchQueue) (id : BatchId) : datedb :=
  match all_batches q !! id with
  | Some old => remove_batch_enqueued_at (bq_enqueued_at q) old (b_uid old)
  | None => bq_enqueued_at q
  end.

Lemma write_batch_effect q b e d :
  pb_enqueued_at b = Some e → pb_finished_at b = Some d →
  ∃ st kd ix old_st old_kd old_ix,
    bq_write_batch q b = Ok (mkBatchQueue (<[pb_uid b := to_batch b]> (all_batches q)) st kd ix
      (insert_task_datetime (insert_task_datetime (without_enqueued_at q (pb_uid b))
         (earliest e) (pb_uid b)) (oldest e) (pb_uid b))
      (insert_task_datetime (without_started_at q (pb_uid b)) (pb_started_at b) (pb_uid b))
      (insert_task_datetime (without_finished_at q (pb_uid b)) d (pb_uid b))) ∧
    retagged (pb_uid b) old_st (pb_statuses b) (bq_status q) st ∧
    retagged (pb_uid b) old_kd (pb_kinds b) (bq_kind q) kd ∧
    retagged (pb_uid b) old_ix (pb_indexes b) (bq_index_tasks q) ix.
Proof.
  intros He Hd. unfold bq_write_batch. rewrite He, Hd. cbn [unwrap mbind outcome_bind].
  set (q0 := bq_set_all_batches _ q).
  match goal with |- context [retag_status _ ?o _ q0] => set (o1 := o) end.
  match goal with |- context [retag_kind _ ?o _ _] => set (o2 := o) end.
  match goal with |- context [retag_index _ ?o _ _] => set (o3 := o) end.
  destruct (retag_status_eq (pb_uid b) o1 (pb_statuses b) q0) as (st & -> & Hst).
  destruct (retag_kind_eq (pb_uid b) o2 (pb_kinds b) (bq_set_status st q0)) as (kd & -> & Hkd).
  destruct (retag_index_eq (pb_uid b) o3 (pb_indexes b) (bq_set_kind kd (bq_set_status st q0)))
    as (ix & -> & Hix).
  by exists st, kd, ix, o1, o2, o3.
Qed.

(** On a well-formed queue the old batch leaves the date tables entirely. *)
Lemma elem_of_without_enqueued_at q id k y :
  bq_wf q → y ∈ bm_get (without_enqueued_at q id) k ↔ y ∈ bm_get (bq_enqueued_at q) k ∧ y ≠ id.
Proof.
  intros Hwf. unfold without_enqueued_at, remove_batch_enqueued_at.
  destruct (all_batches q !! id) as [old|] eqn:Hold.
  - rewrite (bwf_uid _ Hwf _ _ Hold). destruct (b_enqueued_at old) as [e|] eqn:He;
      [|by destruct (bwf_dates _ Hwf _ _ Hold)].
    rewrite !elem_of_remove_task_datetime. split; [|naive_solver].
    intros [[Hy H1] H2]. split; [done|]. intros ->.
    apply (bwf_enqueued _ Hwf) in Hy as (b & e' & ? & ? & ?). naive_solver.
  - split; [|tauto]. intros Hy. split; [done|]. intros ->.
    apply (bwf_enqueued _ Hwf) in Hy as (b & e' & ? & ? & ?). congruence.
Qed.

Lemma elem_of_without_started_at q id k y :
  bq_wf q → y ∈ bm_get (without_started_at q id) k ↔ y ∈ bm_get (bq_started_at q) k ∧ y ≠ id.
Proof.
  intros Hwf. unfold without_started_at. destruct (all_batches q !! id) as [old|] eqn:Hold.
  - rewrite (bwf_uid _ Hwf _ _ Hold), elem_of_remove_task_datetime. split; [|naive_solver].
    intros [Hy H1]. split; [done|]. intros ->.
    apply (bwf_started _ Hwf) in Hy as (b & ? & ?). naive_solver.
  - split; [|tauto]. intros Hy. split; [done|]. intros ->.
    apply (bwf_started _ Hwf) in Hy as (b & ? & ?). congruence.
Qed.

Lemma elem_of_without_finished_at q id k y :
  bq_wf q → y ∈ bm_get (without_finished_at q id) k ↔ y ∈ bm_get (bq_finished_at q) k ∧ y ≠ id.
Proof.
  intros Hwf. unfold without_finished_at. destruct (all_batches q !! id) as [old|] eqn:Hold.
  - rewrite (bwf_uid _ Hwf _ _ Hold). destruct (b_finished_at old) as [d|] eqn:Hd.
    + rewrite elem_of_remove_task_datetime. split; [|naive_solver].
      intros [Hy H1]. split; [done|]. intros ->.
      apply (bwf_finished _ Hwf) in Hy as (b & ? & ?). naive_solver.
    + split; [|tauto]. intros Hy. split; [done|]. intros ->.
      apply (bwf_finished _ Hwf) in Hy as (b & ? & ?). congruence.
  - split; [|tauto]. intros Hy. split; [done|]. intros ->.
    apply (bwf_finished _ Hwf) in Hy as (b & ? & ?). congruence.
Qed.

(** The keys of a rewritten table still belong to batches. *)
Lemma retagged_dom {K} `{Countable K} id old new (m m' : gmap K bitmap) (all : gmap BatchId Batch) b k y :
  retagged id old new m m' → (∀ k y, y ∈ bm_get m k → is_Some (all !! y)) →
  y ∈ bm_get m' k → is_Some (<[id := b]> all !! y).
Proof.
  intros Hr Hm Hy. apply lookup_insert_is_Some'. apply Hr in Hy as [[-> _]|[Hy _]]; eauto.
Qed.

Lemma retagged_fresh {K} `{Countable K} id old new (m m' : gmap K bitmap) k :
  retagged id old new m m' → (∀ k, id ∉ bm_get m k) → id ∈ bm_get m' k ↔ k ∈ new.
Proof. intros Hr Hm. rewrite (Hr k id). specialize (Hm k). tauto. Qed.

(** Writing a batch that has its dates. *)
Lemma bq_write_batch_ok q b e d :
  bq_wf q → pb_enqueued_at b = Some e → pb_finished_at b = Some d →
  ∃ q', bq_write_batch q b = Ok q' ∧ bq_wf q' ∧
    all_batches q' = <[pb_uid b := to_batch b]> (all_batches q) ∧
    (∀ s y, y ≠ pb_uid b → y ∈ bm_get (bq_status q') s ↔ y ∈ bm_get (bq_status q) s) ∧
    (bq_listed q → bq_listed q' ∧ (all_batches q !! pb_uid b = None →
      (∀ s, pb_uid b ∈ bm_get (bq_status q') s ↔ s ∈ pb_statuses b) ∧
      (∀ k, pb_uid b ∈ bm_get (bq_kind q') k ↔ k ∈ pb_kinds b) ∧
      (∀ i, pb_uid b ∈ bm_get (bq_index_tasks q') i ↔ i ∈ pb_indexes b))).
Proof.
  intros Hwf He Hd.
  destruct (write_batch_effect q b e d He Hd)
    as (st & kd & ix & o1 & o2 & o3 & Hw & Hst & Hkd & Hix).
  eexists. split; [exact Hw|]. simpl. split; [|split; [done|split]].
  - constructor; simpl.
    + intros id b'. rewrite lookup_insert_Some. intros [[<- <-]|[_ ?]]; [done|by apply (bwf_uid _ Hwf)].
    + intros id b'. rewrite lookup_insert_Some. intros [[<- <-]|[_ ?]]; [by simpl; rewrite He|].
      by eapply (bwf_dates _ Hwf).
    + intros k y. rewrite !elem_of_insert_task_datetime, elem_of_without_enqueued_at by done.
      rewrite (bwf_enqueued _ Hwf k y). setoid_rewrite lookup_insert_Some. split.
      * intros [[-> ->]|[[-> ->]|[(b' & e' & ? & ? & ?) ?]]];
          [exists (to_batch b), e; simpl; auto.. | exists b', e'; auto].
      * intros (b' & e' & [[-> <-]|[? ?]] & He' & Hk); simpl in *; [|right; right; eauto 6].
        rewrite He in He'. simplify_eq. tauto.
    + intros k y. rewrite !elem_of_insert_task_datetime, elem_of_without_started_at by done.
      rewrite (bwf_started _ Hwf k y). setoid_rewrite lookup_insert_Some. split.
      * intros [[-> ->]|[(b' & ? & ?) ?]]; [exists (to_batch b); simpl; auto | exists b'; auto].
      * intros (b' & [[-> <-]|[? ?]] & Hk); simpl in *; [by left|right; eauto].
    + intros k y. rewrite !elem_of_insert_task_datetime, elem_of_without_finished_at by done.
      rewrite (bwf_finished _ Hwf k y). setoid_rewrite lookup_insert_Some. split.
      * intros [[-> ->]|[(b' & ? & ?) ?]]; [exists (to_batch b); simpl; auto | exists b'; auto].
      * intros (b' & [[-> <-]|[? ?]] & Hk); simpl in *; [rewrite Hd in Hk; simplify_eq; by left|right; eauto].
  - intros s y Hy. rewrite (Hst s y). tauto.
  - intros [Hl1 Hl2 Hl3]. split.
    { constructor; simpl; intros *; [by apply (retagged_dom _ _ _ _ _ _ _ _ _ Hst)
        |by apply (retagged_dom _ _ _ _ _ _ _ _ _ Hkd)|by apply (retagged_dom _ _ _ _ _ _ _ _ _ Hix)]. }
    intros Hnew. split; [|split]; intros k.
    + eapply retagged_fresh; [exact Hst|]. intros k' [b' ?]%Hl1. congruence.
    + eapply retagged_fresh; [exact Hkd|]. intros k' [b' ?]%Hl2. congruence.
    + eapply retagged_fresh; [exact Hix|]. intros k' [b' ?]%Hl3. congruence.
Qed.

(** C23. Writing a finished batch always succeeds (a batch without an
    enqueuing or a finishing date panics), stores the batch and keeps the
    queue well-formed: the date tables list each batch under its dates and no
    other.  If the other tables list only batches they still do, and a new batch
    is listed exactly under its statuses, kinds and indexes; the other batches
    do not move. *)
Theorem bq_write_batch_wf q b :
  bq_wf q →
  match pb_enqueued_at b, pb_finished_at b with
  | Some e, Some d => ∃ q', bq_write_batch q b = Ok q' ∧ bq_wf q' ∧
      all_batches q' = <[pb_uid b := to_batch b]> (all_batches q) ∧
      (∀ s y, y ≠ pb_uid b → y ∈ bm_get (bq_status q') s ↔ y ∈ bm_get (bq_status q) s) ∧
      (bq_listed q → bq_listed q' ∧ (all_batches q !! pb_uid b = None →
        (∀ s, pb_uid b ∈ bm_get (bq_status q') s ↔ s ∈ pb_statuses b) ∧
        (∀ k, pb_uid b ∈ bm_get (bq_kind q') k ↔ k ∈ pb_kinds b) ∧
        (∀ i, pb_uid b ∈ bm_get (bq_index_tasks q') i ↔ i ∈ pb_indexes b)))
  | _, _ => bq_write_batch q b = Panic
  end.
Proof.
  intros Hwf. destruct (pb_enqueued_at b) as [e|] eqn:He;
    [|unfold bq_write_batch; by rewrite He].
  destruct (pb_finished_at b) as [d|] eqn:Hd; [|unfold bq_write_batch; by rewrite He, Hd].
  by eapply bq_write_batch_ok.
Qed.

Lemma BatchQueue_new_wf : bq_wf BatchQueue_new.
Proof.
  constructor; simpl; intros *; unfold bm_get; rewrite ?lookup_empty; simpl; try set_solver.
Qed.

Lemma BatchQueue_new_listed : bq_listed BatchQueue_new.
Proof. constructor; intros *; unfold bm_get; simpl; rewrite ?lookup_empty; set_solver. Qed.

(** Removing a batch from the main table and the date tables. *)
Lemma bq_remove_wf q id st kd ix :
  bq_wf q →
  bq_wf (mkBatchQueue (delete id (all_batches q)) st kd ix (without_enqueued_at q id)
    (without_started_at q id) (without_finished_at q id)).
Proof.
  intros Hwf. constructor; simpl; intros *; rewrite ?lookup_delete_Some.
  - intros [_ Hb]. by apply (bwf_uid _ Hwf).
  - intros [_ Hb]. by eapply (bwf_dates _ Hwf).
  - rewrite elem_of_without_enqueued_at, (bwf_enqueued _ Hwf) by done.
    setoid_rewrite lookup_delete_Some. naive_solver.
  - rewrite elem_of_without_started_at, (bwf_started _ Hwf) by done.
    setoid_rewrite lookup_delete_Some. naive_solver.
  - rewrite elem_of_without_finished_at, (bwf_finished _ Hwf) by done.
    setoid_rewrite lookup_delete_Some. naive_solver.
Qed.

Lemma next_batch_id_fresh q :
  (∀ id, is_Some (all_batches q !! id) → 0 ≤ id < u32_max) → all_batches q !! next_batch_id q = None.
Proof.
  intros Hr. apply eq_None_not_Some. intros Hs. unfold next_batch_id in Hs.
  destruct (bm_max (dom (all_batches q))) as [k|] eqn:Hk; simpl in Hs.
  - apply bm_max_Some in Hk as [Hin Hle]. apply elem_of_dom in Hin. specialize (Hr _ Hin).
    rewrite u32_wrap_id in Hs by lia. specialize (Hle (k + 1)). rewrite elem_of_dom in Hle.
    specialize (Hle Hs). lia.
  - apply bm_max_None in Hk. apply elem_of_dom in Hs. rewrite Hk in Hs. set_solver.
Qed.
End write_batch.

(** ** Witnesses *)

Section witnesses.
#[local] Existing Instance sample_externals.

(** The batch of one task, processed then finished. *)
Definition sample_processing_batch : ProcessingBatch :=
  (update (finished 30 (processing (ProcessingBatch_new 20 0) [sample_task]).1) sample_done).1.

Lemma bq_write_batch_wf_witness :
  bq_wf BatchQueue_new ∧ bq_listed BatchQueue_new ∧
  ∃ q', bq_write_batch BatchQueue_new sample_processing_batch = Ok q' ∧ bq_wf q' ∧ bq_listed q'.
Proof.
  split; [exact BatchQueue_new_wf|]. split; [exact BatchQueue_new_listed|].
  pose proof (bq_write_batch_wf BatchQueue_new sample_processing_batch BatchQueue_new_wf) as Hw.
  destruct Hw as (q' & Hw & Hwf & _ & _ & Hl). exists q'. split; [exact Hw|]. split; [exact Hwf|].
  exact (proj1 (Hl BatchQueue_new_listed)).
Defined.
End witnesses.
