(* ===== verification/Queue.v ===== *)
(** * The queue

    [crates/index-scheduler/src/queue/mod.rs] and the state of
    [crates/index-scheduler/src/processing.rs]: the queue made of the task
    queue, the batch queue, the mapping from batches to tasks and the update
    files; the registration of tasks, the cleanup of a full queue and the
    statistics. *)

From S2P Require Import Prelude TaskTypes DetailsView SchedUtils TaskQueue BatchQueue.
Open Scope Z_scope.

(** ** Queries *)

Record Query := mkQuery {
  q_limit : option Z;
  q_from : option Z;
  q_reverse : option bool;
  q_uids : option (list TaskId);
  q_batch_uids : option (list BatchId);
  q_statuses : option (list Status.t);
  q_types : option (list Kind.t);
  q_index_uids : option (list string);
  q_canceled_by : option (list TaskId);
  before_enqueued_at : option DateTime;
  after_enqueued_at : option DateTime;
  before_started_at : option DateTime;
  after_started_at : option DateTime;
  before_finished_at : option DateTime;
  after_finished_at : option DateTime;
}.

Definition Query_default : Query :=
  mkQuery None None None None None None None None None None None None None None None.

Definition Query_is_empty (q : Query) : bool :=
  match q with
  | mkQuery None None None None None None None None None None None None None None None => true
  | _ => false
  end.

Definition with_index (q : Query) (index_uid : string) : Query :=
  mkQuery (q_limit q) (q_from q) (q_reverse q) (q_uids q) (q_batch_uids q) (q_statuses q)
    (q_types q) (Some (default [] (q_index_uids q) ++ [index_uid])) (q_canceled_by q)
    (before_enqueued_at q) (after_enqueued_at q) (before_started_at q) (after_started_at q)
    (before_finished_at q) (after_finished_at q).

Definition without_limits (q : Query) : Query :=
  mkQuery None None (q_reverse q) (q_uids q) (q_batch_uids q) (q_statuses q)
    (q_types q) (q_index_uids q) (q_canceled_by q)
    (before_enqueued_at q) (after_enqueued_at q) (before_started_at q) (after_started_at q)
    (before_finished_at q) (after_finished_at q).

Section Queue.
Context `{Externals}.

(** ** The processing tasks *)

Record ProcessingTasks := mkProcessingTasks {
  pt_batch : option ProcessingBatch;
  pt_processing : bitmap;
  pt_progress : option ProgressView;
}.

Definition ProcessingTasks_new : ProcessingTasks := mkProcessingTasks None ∅ None.

(** [progress] is the view of the progress that [start_processing] creates. *)
Definition start_processing (progress : ProgressView) (self : ProcessingTasks)
    (processing_batch : ProcessingBatch) (processing : bitmap) : ProcessingTasks :=
  mkProcessingTasks (Some processing_batch) processing (Some progress).

(** The state left behind and the value returned. *)
Definition stop_processing (self : ProcessingTasks) : ProcessingTasks * ProcessingTasks :=
  (mkProcessingTasks None ∅ None, mkProcessingTasks (pt_batch self) (pt_processing self) None).

Definition must_cancel_processing_tasks (self : ProcessingTasks) (canceled_tasks : bitmap) : bool :=
  negb (bm_is_disjoint (pt_processing self) canceled_tasks).

(** ** State *)

(** [file_store] maps the uuid of an update file to its size in bytes. *)
Record Queue := mkQueue {
  tasks : TaskQueue;
  batches : BatchQueue;
  batch_to_tasks_mapping : gmap BatchId bitmap;
  file_store : gmap Uuid Z;
  max_number_of_tasks : Z;
}.

Definition set_tasks (t : TaskQueue) (q : Queue) : Queue :=
  mkQueue t (batches q) (batch_to_tasks_mapping q) (file_store q) (max_number_of_tasks q).
Definition set_batches (b : BatchQueue) (q : Queue) : Queue :=
  mkQueue (tasks q) b (batch_to_tasks_mapping q) (file_store q) (max_number_of_tasks q).
Definition set_mapping (m : gmap BatchId bitmap) (q : Queue) : Queue :=
  mkQueue (tasks q) (batches q) m (file_store q) (max_number_of_tasks q).
Definition set_file_store (m : gmap Uuid Z) (q : Queue) : Queue :=
  mkQueue (tasks q) (batches q) (batch_to_tasks_mapping q) m (max_number_of_tasks q).

(** [Queue::new] on a fresh environment. *)
Definition Queue_new (max_number_of_tasks : Z) : Queue :=
  mkQueue TaskQueue_new BatchQueue_new ∅ ∅ max_number_of_tasks.

(** ** Operations *)

Definition tasks_in_batch (q : Queue) (batch_id : BatchId) : bitmap :=
  bm_get (batch_to_tasks_mapping q) batch_id.

(** Each task that exists is added to the processing batch as it is read. *)
Fixpoint get_existing_tasks_for_processing_batch (q : Queue) (processing_batch : ProcessingBatch)
    (ids : list TaskId) : outcome Error (list Task * ProcessingBatch) :=
  match ids with
  | [] => Ok ([], processing_batch)
  | task_id :: ids =>
      task ← ok_or CorruptedTaskQueue (get_task (tasks q) task_id);
      let '(processing_batch, task) := processing_one processing_batch task in
      '(rest, processing_batch) ← get_existing_tasks_for_processing_batch q processing_batch ids;
      Ok (task :: rest, processing_batch)
  end.

(** [Queue::write_batch]. *)
Definition write_batch (q : Queue) (batch : ProcessingBatch) (ids : bitmap) : outcome Error Queue :=
  let q := set_mapping (<[pb_uid batch := ids]> (batch_to_tasks_mapping q)) q in
  b ← bq_write_batch (batches q) batch;
  Ok (set_batches b q).

(** [FileStore::delete]: removing a file that does not exist is an error. *)
Definition delete_update_file (not_found : ForeignError) (q : Queue) (uuid : Uuid)
    : outcome Error Queue :=
  match file_store q !! uuid with
  | Some _ => Ok (set_file_store (delete uuid (file_store q)) q)
  | None => Err (FileStore not_found)
  end.

Definition delete_persisted_task_data (not_found : ForeignError) (q : Queue) (task : Task)
    : outcome Error Queue :=
  match content_uuid task with
  | Some content_file => delete_update_file not_found q content_file
  | None => Ok q
  end.

(** The task [register] builds. *)
Definition new_task (now : DateTime) (uid : TaskId) (kind : KindWithContent.t) : Task :=
  mkTask uid None now None None None None (default_details kind) Status.Enqueued kind.

(** [Queue::register]; [now] is [OffsetDateTime::now_utc()].  The result is the
    task and the new state of the queue. *)
Definition register (now : DateTime) (q : Queue) (kind : KindWithContent.t)
    (task_id : option TaskId) (dry_run : bool) : outcome Error (Task * Queue) :=
  let next_task_id := next_task_id (tasks q) in
  let bad := match task_id with Some uid => uid <? next_task_id | None => false end in
  if bad then Err (BadTaskId (default 0 task_id) next_task_id) else
  let task := new_task now (default next_task_id task_id) kind in
  let task := filter_out_references_to_newer_tasks task in
  _ ← check_index_swap_validity task;
  if dry_run then Ok (task, q)
  else Ok (task, set_tasks (tq_register (tasks q) task) q).

(** [Queue::cleanup_task_queue]; [format_date] is the RFC 3339 printer of the
    [time] crate, which can fail. *)
Definition cleanup_task_queue (format_date : DateTime → option string) (now : DateTime) (q : Queue)
    : outcome Error Queue :=
  let nb_tasks := bm_len (all_task_ids (tasks q)) in
  if nb_tasks <? max_number_of_tasks q then Ok q else
  let finished := get_status (tasks q) Status.Succeeded ∪ get_status (tasks q) Status.Failed
                  ∪ get_status (tasks q) Status.Canceled in
  let to_delete : bitmap := list_to_set (take 100000 (reverse (bm_iter finished))) in
  if bm_len to_delete <? 2 then Ok q else
  newest_task_id ← unwrap (last (bm_iter to_delete));
  last_task_to_delete ← ok_or CorruptedTaskQueue (get_task (tasks q) newest_task_id);
  let delete_before := enqueued_at last_task_to_delete + 1 in
  date ← ok_or CorruptedTaskQueue (format_date delete_before);
  '(_, q) ← register now q
    (KindWithContent.TaskDeletion
       ("?beforeEnqueuedAt=" +:+ date +:+ "&statuses=succeeded,failed,canceled") to_delete)
    None false;
  Ok q.

(** [Queue::get_stats]. *)
Definition get_stats (q : Queue) (processing : ProcessingTasks) : gmap string (gmap string Z) :=
  let processing_tasks := bm_len (pt_processing processing) in
  let statuses : gmap string Z := list_to_map ((λ s,
      let n := bm_len (get_status (tasks q) s) in
      (Status.to_string s,
       match s with
       | Status.Enqueued => u64_wrap (n - processing_tasks)
       | Status.Processing => processing_tasks
       | _ => n
       end)) <$> Status.all) in
  let types : gmap string Z :=
    list_to_map ((λ k, (Kind.to_string k, bm_len (get_kind (tasks q) k))) <$> Kind.all) in
  let indexes : gmap string Z := bm_len <$> tq_index_tasks (tasks q) in
  <["indexes" := indexes]> (<["types" := types]> {["statuses" := statuses]}).
End Queue.

(** ** Registration *)

Section register_facts.
Context `{Externals}.

(** The ids a cancelation or a deletion task refers to. *)
Definition referenced_tasks (k : KindWithContent.t) : bitmap :=
  match k with
  | KindWithContent.TaskCancelation _ ids | KindWithContent.TaskDeletion _ ids => ids
  | _ => ∅
  end.

Lemma filter_out_references_spec task :
  let task' := filter_out_references_to_newer_tasks task in
  uid task' = uid task ∧ status task' = status task ∧ enqueued_at task' = enqueued_at task ∧
  started_at task' = started_at task ∧ finished_at task' = finished_at task ∧
  check_index_swap_validity task' = check_index_swap_validity task ∧
  (∀ x, x ∈ referenced_tasks (kind task') ↔ x ∈ referenced_tasks (kind task) ∧ x < uid task).
Proof.
  unfold filter_out_references_to_newer_tasks, check_index_swap_validity.
  destruct (kind task) eqn:Hk; simpl; rewrite ?Hk; simpl; split_and!; try done; try set_solver;
    intros x; apply elem_of_bm_remove_from.
Qed.

Lemma next_task_id_range q : 0 ≤ next_task_id q ≤ u32_max.
Proof.
  unfold next_task_id, last_task_id. destruct (bm_max _) as [k|]; simpl; [|by vm_compute].
  unfold u32_wrap, u32_max. pose proof (Z.mod_pos_bound (k + 1) (2 ^ 32)). lia.
Qed.

(** The task [register] builds is new to the queue. *)
Lemma new_task_fresh now q kind id :
  tq_wf q → (∀ t, all_tasks q !! u32_max ≠ Some t) → next_task_id q ≤ id → id ≤ u32_max →
  fresh_task q (filter_out_references_to_newer_tasks (new_task now id kind)).
Proof.
  intros Hwf Hmax Hle Hid. pose proof (next_task_id_range q).
  pose proof (filter_out_references_spec (new_task now id kind)) as (Hu & Hs & _ & Hsta & Hfin & _).
  constructor; [|rewrite Hu; simpl; lia|done..].
  rewrite Hu. apply eq_None_not_Some. intros Hy%(next_task_id_fresh _ _ Hwf Hmax). simpl in Hy. lia.
Qed.


(** ** Cleanup of a full queue *)

Definition finished_tasks (q : TaskQueue) : bitmap :=
  get_status q Status.Succeeded ∪ get_status q Status.Failed ∪ get_status q Status.Canceled.

Lemma sorted_suffix (l1 l2 : list Z) x y :
  StronglySorted Z.le (l1 ++ l2) → NoDup (l1 ++ l2) → x ∈ l1 → y ∈ l2 → x < y.
Proof.
  induction l1 as [|z l1 IH]; simpl; [set_solver|].
  intros [Hs Hf]%StronglySorted_inv [Hn Hnd]%NoDup_cons [->|Hx]%elem_of_cons Hy; [|by apply IH].
  rewrite Forall_forall in Hf. specialize (Hf y).
  assert (y ∈ l1 ++ l2) as Hin by set_solver. specialize (Hf Hin).
  assert (z ≠ y) by (intros ->; done). lia.
Qed.

(** The bitmap of the [n] greatest ids. *)
Lemma newest_spec n (b : bitmap) :
  let newest : bitmap := list_to_set (take n (reverse (bm_iter b))) in
  newest ⊆ b ∧ bm_len newest ≤ Z.of_nat n ∧
  ∀ x y, x ∈ b → x ∉ newest → y ∈ newest → x < y.
Proof.
  intros newest.
  pose proof (take_drop n (reverse (bm_iter b))) as Htd.
  set (l := take n (reverse (bm_iter b))) in *. set (r := drop n (reverse (bm_iter b))) in *.
  assert (Hb : bm_iter b = reverse r ++ reverse l) by (by rewrite <-reverse_app, Htd, reverse_involutive).
  assert (Hin : ∀ x, x ∈ b ↔ x ∈ r ∨ x ∈ l).
  { intros x. rewrite <-elem_of_bm_iter, Hb, elem_of_app, !elem_of_reverse. done. }
  split_and!.
  - intros x. unfold newest. rewrite elem_of_list_to_set, Hin. by right.
  - unfold newest, bm_len. rewrite size_list_to_set.
    + unfold l. rewrite length_take. lia.
    + pose proof (NoDup_bm_iter b) as Hnd. rewrite Hb in Hnd.
      apply NoDup_app in Hnd as (_ & _ & Hnd). by rewrite reverse_Permutation in Hnd.
  - intros x y Hx Hnx Hy. unfold newest in Hnx, Hy. rewrite elem_of_list_to_set in Hnx, Hy.
    apply Hin in Hx as [Hx|]; [|done]. eapply (sorted_suffix (reverse r) (reverse l));
      rewrite ?elem_of_reverse; try done.
    + rewrite <-Hb. apply StronglySorted_bm_iter.
    + rewrite <-Hb. apply NoDup_bm_iter.
Qed.

Lemma elem_of_finished_tasks q x :
  tq_wf q → x ∈ finished_tasks q ↔ ∃ t, all_tasks q !! x = Some t ∧
    (status t = Status.Succeeded ∨ status t = Status.Failed ∨ status t = Status.Canceled).
Proof.
  intros Hwf. unfold finished_tasks, get_status. rewrite !elem_of_union.
  rewrite !(wf_status _ Hwf _ x). unfold has_status. naive_solver.
Qed.

(** What a cleanup does. *)
Lemma cleanup_task_queue_effect format_date now q :
  tq_wf (tasks q) → (∀ t, all_tasks (tasks q) !! u32_max ≠ Some t) → (∀ d, is_Some (format_date d)) →
  ∃ q', cleanup_task_queue format_date now q = Ok q' ∧ tq_wf (tasks q') ∧
    batches q' = batches q ∧ file_store q' = file_store q ∧
    (q' = q ∨
     max_number_of_tasks q ≤ bm_len (all_task_ids (tasks q)) ∧
     ∃ task query ids,
       all_tasks (tasks q') = <[next_task_id (tasks q) := task]> (all_tasks (tasks q)) ∧
       kind task = KindWithContent.TaskDeletion query ids ∧ status task = Status.Enqueued ∧
       started_at task = None ∧ finished_at task = None ∧
       2 ≤ bm_len ids ≤ 100000 ∧ ids ⊆ finished_tasks (tasks q) ∧
       ∀ x y, x ∈ finished_tasks (tasks q) → x ∉ ids → y ∈ ids → x < y).
Proof.
  intros Hwf Hmax Hfmt. unfold cleanup_task_queue. fold (finished_tasks (tasks q)).
  destruct (Z.ltb_spec (bm_len (all_task_ids (tasks q))) (max_number_of_tasks q)); [by exists q; auto 6|].
  pose proof (newest_spec 100000 (finished_tasks (tasks q))) as (Hsub & Hlen & Hnew).
  set (ids := list_to_set _ : bitmap) in *.
  destruct (Z.ltb_spec (bm_len ids) 2); [by exists q; auto 6|].
  destruct (last (bm_iter ids)) as [m|] eqn:Hm.
  2:{ apply bm_max_None in Hm. rewrite Hm in *. unfold bm_len in *. rewrite size_empty in *. lia. }
  cbn [unwrap mbind outcome_bind]. apply bm_max_Some in Hm as [Hm _].
  assert (Hids : ∀ x, x ∈ ids → is_Some (all_tasks (tasks q) !! x)).
  { intros x Hx. apply Hsub, (elem_of_finished_tasks _ _ Hwf) in Hx as (t & ? & _). eauto. }
  destruct (Hids m Hm) as [t Ht]. unfold get_task. rewrite Ht. cbn [ok_or mbind outcome_bind].
  destruct (Hfmt (enqueued_at t + 1)) as [date ->]. cbn [ok_or mbind outcome_bind].
  unfold register. cbn [default mbind outcome_bind].
  set (query := ("?beforeEnqueuedAt=" +:+ _)%string).
  set (task := filter_out_references_to_newer_tasks _).
  destruct (tq_register_wf (tasks q) task Hwf) as [Hwf' Hall].
  { apply new_task_fresh; [done..|lia|apply next_task_id_range]. }
  eexists. split; [done|]. split; [done|]. split; [done|]. split; [done|]. right. split; [done|].
  exists task, query, ids. split; [done|]. split_and!; try done.
  simpl. f_equal. apply set_eq. intros x. rewrite elem_of_bm_remove_from. split; [tauto|].
  intros Hx. split; [done|]. by apply (next_task_id_fresh _ _ Hwf Hmax), Hids.
Qed.

(** [cleanup_task_queue] never fails on a well-formed queue (when
    dates can be printed) and keeps it well-formed.  Below the limit nothing
    happens; otherwise it may register one deletion task, which names between 2
    and 100000 tasks, all of them finished, and keeps older finished tasks than
    those it names. *)
Theorem cleanup_task_queue_spec format_date now q :
  tq_wf (tasks q) → (∀ t, all_tasks (tasks q) !! u32_max ≠ Some t) → (∀ d, is_Some (format_date d)) →
  ∃ q', cleanup_task_queue format_date now q = Ok q' ∧ tq_wf (tasks q') ∧
    (q' = q ∨
     max_number_of_tasks q ≤ bm_len (all_task_ids (tasks q)) ∧
     ∃ task query ids,
       all_tasks (tasks q') = <[next_task_id (tasks q) := task]> (all_tasks (tasks q)) ∧
       kind task = KindWithContent.TaskDeletion query ids ∧ status task = Status.Enqueued ∧
       2 ≤ bm_len ids ≤ 100000 ∧ ids ⊆ finished_tasks (tasks q) ∧
       ∀ x y, x ∈ finished_tasks (tasks q) → x ∉ ids → y ∈ ids → x < y).
Proof.
  intros Hwf Hmax Hfmt.
  destruct (cleanup_task_queue_effect format_date now q Hwf Hmax Hfmt)
    as (q' & Hq' & Hwf' & _ & _ & [->|(Hn & task & query & ids & Hall & Hk & Hs & _ & _ & Hr)]).
  - exists q. auto.
  - exists q'. split; [done|]. split; [done|]. right. split; [done|]. by exists task, query, ids.
Qed.
End register_facts.

(** ** Witnesses *)

Section witnesses.
#[local] Existing Instance sample_externals.

Definition sample_q : Queue :=
  mkQueue (tq_register TaskQueue_new sample_task) BatchQueue_new ∅ ∅ 10.

Lemma sample_q_wf : tq_wf (tasks sample_q).
Proof. exact sample_queue_wf. Qed.

Lemma sample_q_no_max t : all_tasks (tasks sample_q) !! u32_max ≠ Some t.
Proof. by vm_compute. Qed.


Lemma cleanup_task_queue_spec_witness :
  tq_wf (tasks sample_q) ∧
  ∃ q', cleanup_task_queue (λ _, Some "") 50 sample_q = Ok q' ∧ tq_wf (tasks q').
Proof.
  split; [exact sample_q_wf|].
  destruct (cleanup_task_queue_spec (λ _, Some "") 50 sample_q sample_q_wf sample_q_no_max)
    as (q' & Hc & Hwf & _); [by intros; eauto|].
  exists q'. split; [exact Hc | exact Hwf].
Defined.
End witnesses.
