(* ===== verification/Auth.v ===== *)
(** * Index names, patterns and the authorization filter

    [crates/meilisearch-types/src/index_uid.rs], [index_uid_pattern.rs] and the
    filter half of [crates/meilisearch-auth/src/lib.rs]: which indexes an API
    key and a tenant token give access to, and which search rules apply. *)

From S2P Require Import Prelude TaskTypes.
From Stdlib Require Ascii String.
Open Scope Z_scope.

(** ** Strings *)

(** [str::strip_suffix('*')]. *)
Fixpoint strip_star (s : string) : option string :=
  match s with
  | String.EmptyString => None
  | String.String a s' =>
      if String.eqb s "*" then Some ""
      else String.String a <$> strip_star s'
  end.

Fixpoint forallb_string (f : Ascii.ascii → bool) (s : string) : bool :=
  match s with
  | String.EmptyString => true
  | String.String a s' => f a && forallb_string f s'
  end.

(** [x.is_ascii_alphanumeric() || x == '-' || x == '_'].  A string is its UTF-8
    bytes: a character outside ASCII fails the test as each of its bytes does. *)
Definition is_uid_char (a : Ascii.ascii) : bool :=
  let n := Ascii.N_of_ascii a in
  ((48 <=? n) && (n <=? 57) || (65 <=? n) && (n <=? 90) || (97 <=? n) && (n <=? 122)
   || (n =? 45) || (n =? 95))%N.

(** ** Index uids and patterns *)

(** [IndexUid::try_from]; the error carries the invalid uid. *)
Definition IndexUid_try_from (uid : string) : outcome string string :=
  if negb (forallb_string is_uid_char uid) || String.eqb uid ""
     || (400 <? Z.of_nat (String.length uid))
  then Err uid else Ok uid.

(** [IndexUidPattern::try_from]. *)
Definition IndexUidPattern_try_from (uid : string) : outcome string string :=
  match strip_star uid with
  | Some prefix =>
      if String.eqb prefix "" then Ok uid
      else _ ← IndexUid_try_from prefix; Ok uid
  | None => IndexUid_try_from uid
  end.

Definition IndexUidPattern_all : string := "*".
Definition matches_all (pattern : string) : bool := String.eqb pattern "*".
(** [!self.0.ends_with('*')]. *)
Definition is_exact (pattern : string) : bool :=
  match strip_star pattern with Some _ => false | None => true end.
Definition matches_str (pattern uid : string) : bool :=
  match strip_star pattern with
  | Some prefix => String.prefix prefix uid
  | None => String.eqb pattern uid
  end.

(** ** Search rules *)

Section SearchRules.
Context `{Externals}.

Record IndexSearchRules := mkIndexSearchRules { filter_rule : option Value }.
Definition IndexSearchRules_default : IndexSearchRules := mkIndexSearchRules None.

Inductive SearchRules :=
| RulesSet (patterns : gset string)
| RulesMap (rules : gmap string (option IndexSearchRules)).

Definition SearchRules_default : SearchRules := RulesSet {[IndexUidPattern_all]}.

(** The patterns a rule set lists, in the order its hash table is iterated. *)
Definition rules_patterns (r : SearchRules) : list string :=
  match r with
  | RulesSet set => hash_iter set
  | RulesMap map => hash_iter (dom map)
  end.

Definition rules_is_index_authorized (r : SearchRules) (index : string) : bool :=
  let contains s :=
    match r with
    | RulesSet set => bool_decide (s ∈ set)
    | RulesMap map => bool_decide (is_Some (map !! s))
    end in
  contains "*" || contains index
  || existsb (λ pattern, matches_str pattern index) (rules_patterns r).

Definition rules_all_indexes_authorized (r : SearchRules) : bool :=
  match r with
  | RulesSet set => bool_decide ("*" ∈ set)
  | RulesMap map => bool_decide (is_Some (map !! "*"))
  end.

(** The key [(pattern.is_exact(), pattern.len())] and its order. *)
Definition specificity_le (p q : string) : bool :=
  match is_exact p, is_exact q with
  | false, true => true
  | true, false => false
  | _, _ => (String.length p <=? String.length q)%nat
  end.

(** [Iterator::max_by_key]: the last of the greatest elements. *)
Fixpoint max_pattern (best : option string) (l : list string) : option string :=
  match l with
  | [] => best
  | p :: l =>
      max_pattern (match best with
                   | Some b => if specificity_le b p then Some p else Some b
                   | None => Some p
                   end) l
  end.

Definition rules_get_index_search_rules (r : SearchRules) (index : string)
    : option IndexSearchRules :=
  match r with
  | RulesSet _ =>
      if rules_is_index_authorized r index then Some IndexSearchRules_default else None
  | RulesMap map =>
      p ← max_pattern None (filter (λ p, matches_str p index = true) (hash_iter (dom map)));
      rule ← map !! p;
      rule
  end.

(** ** The authorization filter *)

Record AuthFilter := mkAuthFilter {
  search_rules : option SearchRules;
  key_authorized_indexes : SearchRules;
  af_allow_index_creation : bool;
}.

Definition AuthFilter_default : AuthFilter := mkAuthFilter None SearchRules_default true.

Definition with_allowed_indexes (allowed_indexes : gset string) : AuthFilter :=
  mkAuthFilter None (RulesSet allowed_indexes) false.

Definition is_tenant_token (f : AuthFilter) : bool :=
  match search_rules f with Some _ => true | None => false end.

Definition api_key_is_index_authorized (f : AuthFilter) (index : string) : bool :=
  rules_is_index_authorized (key_authorized_indexes f) index.

Definition tenant_token_is_index_authorized (f : AuthFilter) (index : string) : bool :=
  default true ((λ r, rules_is_index_authorized r index) <$> search_rules f).

Definition filter_all_indexes_authorized (f : AuthFilter) : bool :=
  rules_all_indexes_authorized (key_authorized_indexes f)
  && default true (rules_all_indexes_authorized <$> search_rules f).

Definition filter_is_index_authorized (f : AuthFilter) (index : string) : bool :=
  rules_is_index_authorized (key_authorized_indexes f) index
  && default true ((λ r, rules_is_index_authorized r index) <$> search_rules f).

Definition allow_index_creation (f : AuthFilter) (index : string) : bool :=
  af_allow_index_creation f && filter_is_index_authorized f index.

Definition get_index_search_rules (f : AuthFilter) (index : string) : option IndexSearchRules :=
  if negb (filter_is_index_authorized f index) then None
  else rules_get_index_search_rules (default (key_authorized_indexes f) (search_rules f)) index.

(** [tenant_token_list_index_authorized] and [api_key_list_index_authorized]. *)
Definition sorted_patterns (r : SearchRules) : list string :=
  merge_sort String.le (rules_patterns r).
Definition tenant_token_list_index_authorized (f : AuthFilter) : list string :=
  match search_rules f with Some r => sorted_patterns r | None => [] end.
Definition api_key_list_index_authorized (f : AuthFilter) : list string :=
  sorted_patterns (key_authorized_indexes f).
End SearchRules.

(** ** What the filter promises to the task queue *)

Class IndexAuthorizer (F : Type) := {
  all_indexes_authorized : F → bool;
  is_index_authorized : F → string → bool;
}.
Class IndexAuthorizerOk (F : Type) `{IndexAuthorizer F} := {
  all_indexes_authorized_spec (f : F) i :
    all_indexes_authorized f = true → is_index_authorized f i = true;
}.

#[global] Instance AuthFilter_authorizer `{Externals} : IndexAuthorizer AuthFilter := {|
  all_indexes_authorized := filter_all_indexes_authorized;
  is_index_authorized := filter_is_index_authorized;
|}.

(** ** Patterns *)

(** A pattern names an index, or ends with a star and names a prefix. *)
Definition pattern_matches (p i : string) : Prop :=
  match strip_star p with
  | Some pre => ∃ suf, i = pre +:+ suf
  | None => p = i
  end.

Lemma string_app_cons a s t : String.String a s +:+ t = String.String a (s +:+ t).
Proof. done. Qed.

Lemma strip_star_Some p pre : strip_star p = Some pre ↔ p = pre +:+ "*".
Proof.
  revert pre. induction p as [|a p IH]; intros pre.
  { split; [done|]. by destruct pre. }
  cbn [strip_star]. destruct (String.eqb_spec (String.String a p) "*") as [[= -> ->]|Hne].
  - split; [by intros [= <-]|]. destruct pre as [|b [|c pre]]; [done|by intros [=]..].
  - rewrite fmap_Some. setoid_rewrite IH. split; [by intros (s & -> & ->)|].
    destruct pre as [|b pre]; [done|]. rewrite string_app_cons. intros [= <- ->]. eauto.
Qed.

Lemma prefix_cons a p b s :
  String.prefix (String.String a p) (String.String b s) =
  if Ascii.ascii_dec a b then String.prefix p s else false.
Proof. done. Qed.

Lemma prefix_spec p s : String.prefix p s = true ↔ ∃ suf, s = p +:+ suf.
Proof.
  revert s. induction p as [|a p IH]; intros s.
  - split; [|by destruct s]. intros _. by exists s.
  - destruct s as [|b s]; [split; [done | by intros [? [=]]]|]. rewrite prefix_cons.
    destruct (Ascii.ascii_dec a b) as [->|Hne].
    + rewrite IH. split; intros [suf Hs]; exists suf; [by rewrite Hs|].
      rewrite string_app_cons in Hs. by simplify_eq.
    + split; [done|]. intros [suf Hs]. rewrite string_app_cons in Hs. by simplify_eq.
Qed.

Lemma matches_str_spec p i : matches_str p i = true ↔ pattern_matches p i.
Proof.
  unfold matches_str, pattern_matches. destruct (strip_star p).
  - apply prefix_spec.
  - apply String.eqb_eq.
Qed.

(** Every pattern matches its own text. *)
Lemma pattern_matches_refl p : pattern_matches p p.
Proof.
  unfold pattern_matches. destruct (strip_star p) as [pre|] eqn:Hp; [|done].
  apply strip_star_Some in Hp as ->. by exists "*".
Qed.

(** ** Authorization *)

Section auth_facts.
Context `{Externals} `{!ExternalsOk}.

Lemma elem_of_hash_iter (s : gset string) p : p ∈ hash_iter s ↔ p ∈ s.
Proof. by rewrite hash_iter_perm, elem_of_elements. Qed.

Lemma elem_of_rules_patterns r p :
  p ∈ rules_patterns r ↔
  match r with RulesSet set => p ∈ set | RulesMap map => is_Some (map !! p) end.
Proof. destruct r; simpl; rewrite elem_of_hash_iter; [done|]. by rewrite elem_of_dom. Qed.

Lemma existsb_matches l i :
  existsb (λ p, matches_str p i) l = true ↔ ∃ p, p ∈ l ∧ pattern_matches p i.
Proof.
  rewrite existsb_exists. setoid_rewrite matches_str_spec.
  by setoid_rewrite <-list_elem_of_In.
Qed.

Lemma rules_is_index_authorized_spec r i :
  rules_is_index_authorized r i = true ↔ ∃ p, p ∈ rules_patterns r ∧ pattern_matches p i.
Proof.
  unfold rules_is_index_authorized. rewrite !orb_true_iff, existsb_matches.
  split; [|by intros ?; right].
  intros [[Hstar|Hi]|?]; [|exists i; split; [|apply pattern_matches_refl] | done].
  - exists "*". split; [|by exists i]. apply elem_of_rules_patterns.
    destruct r; by apply bool_decide_eq_true in Hstar.
  - apply elem_of_rules_patterns. destruct r; by apply bool_decide_eq_true in Hi.
Qed.

Lemma rules_all_indexes_authorized_spec r i :
  rules_all_indexes_authorized r = true → rules_is_index_authorized r i = true.
Proof.
  intros Hall. apply rules_is_index_authorized_spec. exists "*". split; [|by exists i].
  apply elem_of_rules_patterns. destruct r; by apply bool_decide_eq_true in Hall.
Qed.

#[global] Instance AuthFilter_authorizer_ok : IndexAuthorizerOk AuthFilter.
Proof.
  constructor. intros f i. simpl. unfold filter_all_indexes_authorized, filter_is_index_authorized.
  rewrite !andb_true_iff. intros [Hk Ht]. split; [by apply rules_all_indexes_authorized_spec|].
  destruct (search_rules f); simpl in *; [by apply rules_all_indexes_authorized_spec | done].
Qed.

(** An index is authorized exactly when a pattern of the API key
    matches it and, with a tenant token, a pattern of the token matches it too;
    a pattern matches the index it names, or, ending with a star, every index
    that starts with the rest.  A filter that authorizes all the indexes
    authorizes each. *)
Theorem filter_is_index_authorized_spec f i :
  (filter_is_index_authorized f i = true ↔
   (∃ p, p ∈ rules_patterns (key_authorized_indexes f) ∧ pattern_matches p i) ∧
   ∀ r, search_rules f = Some r → ∃ p, p ∈ rules_patterns r ∧ pattern_matches p i) ∧
  (filter_all_indexes_authorized f = true → filter_is_index_authorized f i = true).
Proof.
  split; [|exact (all_indexes_authorized_spec f i)].
  unfold filter_is_index_authorized. rewrite andb_true_iff, rules_is_index_authorized_spec.
  apply and_iff_compat_l. destruct (search_rules f) as [r|]; simpl; [|done].
  rewrite rules_is_index_authorized_spec. split; [by intros ? ? [= <-] | by auto].
Qed.
End auth_facts.

(** ** The most specific rule *)

Section max_pattern_facts.
Context `{Externals} `{!ExternalsOk}.

Lemma specificity_le_refl p : specificity_le p p = true.
Proof. unfold specificity_le. destruct (is_exact p); apply Nat.leb_refl. Qed.

Lemma specificity_le_trans p q r :
  specificity_le p q = true → specificity_le q r = true → specificity_le p r = true.
Proof.
  unfold specificity_le. destruct (is_exact p), (is_exact q), (is_exact r); try done;
    rewrite !Nat.leb_le; lia.
Qed.

Lemma specificity_le_total p q : specificity_le p q = false → specificity_le q p = true.
Proof.
  unfold specificity_le. destruct (is_exact p), (is_exact q); try done;
    rewrite Nat.leb_le, Nat.leb_gt; lia.
Qed.

Lemma max_pattern_Some l : ∀ best p, max_pattern best l = Some p →
  (best = Some p ∨ p ∈ l) ∧ (∀ b, best = Some b → specificity_le b p = true) ∧
  ∀ q, q ∈ l → specificity_le q p = true.
Proof.
  induction l as [|x l IH]; intros best p; simpl.
  - intros ->. split; [by left|]. split; [intros ? [= <-]; apply specificity_le_refl | set_solver].
  - intros (Hp & Hb & Hl)%IH. destruct best as [b|].
    + destruct (specificity_le b x) eqn:Hbx.
      * specialize (Hb x eq_refl). split; [|split].
        { right. destruct Hp as [[= ->]|?]; set_solver. }
        { intros ? [= <-]. by eapply specificity_le_trans. }
        { intros q [->|?]%elem_of_cons; auto. }
      * specialize (Hb b eq_refl). split; [|split].
        { destruct Hp as [?|?]; set_solver. }
        { by intros ? [= <-]. }
        { intros q [->|?]%elem_of_cons; [|by auto].
          eapply specificity_le_trans; [by apply specificity_le_total|done]. }
    + specialize (Hb x eq_refl). split; [|split; [done|]].
      { right. destruct Hp as [[= ->]|?]; set_solver. }
      { intros q [->|?]%elem_of_cons; auto. }
Qed.

Lemma max_pattern_None l : ∀ best, max_pattern best l = None → best = None ∧ l = [].
Proof.
  induction l as [|x l IH]; intros best; simpl; [done|]. intros [Hb ->]%IH.
  destruct best as [b|]; [by destruct (specificity_le b x)|done].
Qed.

Lemma app_inj_length (p q s t : string) :
  String.length p = String.length q → p +:+ s = q +:+ t → p = q.
Proof.
  revert q. induction p as [|a p IH]; intros [|b q]; simpl; try done.
  intros [= Hl]. rewrite !string_app_cons. intros [= -> Heq]. f_equal. by apply IH.
Qed.

Lemma length_app_star p : String.length (p +:+ "*") = S (String.length p).
Proof. induction p as [|a p IH]; [done|]. rewrite string_app_cons. simpl. by rewrite IH. Qed.

(** Two patterns that match the same index are equal when neither is more
    specific than the other. *)
Lemma specificity_le_antisym p q i :
  pattern_matches p i → pattern_matches q i →
  specificity_le p q = true → specificity_le q p = true → p = q.
Proof.
  unfold pattern_matches, specificity_le, is_exact.
  destruct (strip_star p) as [pre|] eqn:Hp, (strip_star q) as [pre'|] eqn:Hq; try done.
  - apply strip_star_Some in Hp as ->, Hq as ->. intros [s ->] [t Heq].
    rewrite !length_app_star, !Nat.leb_le. intros. f_equal.
    eapply app_inj_length; [|done]. lia.
  - by intros -> ->.
Qed.

(** The search rules that apply to an index are those of the most
    specific matching pattern (an exact one before any prefix, else the longest
    prefix), whatever the order in which the hash map is iterated; no pattern
    matching, there are none. *)
Theorem rules_get_index_search_rules_spec map i :
  (∃ p rule, map !! p = Some rule ∧ pattern_matches p i ∧
     rules_get_index_search_rules (RulesMap map) i = rule ∧
     ∀ q, is_Some (map !! q) → pattern_matches q i → q ≠ p → specificity_le p q = false) ∨
  ((∀ p, is_Some (map !! p) → ¬ pattern_matches p i) ∧
   rules_get_index_search_rules (RulesMap map) i = None).
Proof.
  unfold rules_get_index_search_rules.
  destruct (max_pattern None _) as [p|] eqn:Hmax; simpl.
  - left. apply max_pattern_Some in Hmax as ([?|Hp] & _ & Hle); [done|].
    apply list_elem_of_filter in Hp as [Hpi [rule Hrule]%elem_of_hash_iter%elem_of_dom].
    apply matches_str_spec in Hpi. exists p, rule. rewrite Hrule. split_and!; try done.
    intros q Hq Hqi Hne. apply not_true_is_false. intros Hpq. destruct Hne.
    eapply specificity_le_antisym; [done..| |done]. apply Hle.
    apply list_elem_of_filter. by rewrite matches_str_spec, elem_of_hash_iter, elem_of_dom.
  - right. split; [|done]. apply max_pattern_None in Hmax as [_ Hnil].
    intros p Hp Hm. apply (not_elem_of_nil p). rewrite <-Hnil.
    apply list_elem_of_filter. by rewrite matches_str_spec, elem_of_hash_iter, elem_of_dom.
Qed.
End max_pattern_facts.

(** ** Valid names *)

Lemma IndexUid_try_from_cases s : IndexUid_try_from s = Ok s ∨ IndexUid_try_from s = Err s.
Proof. unfold IndexUid_try_from. destruct (_ || _ || _); auto. Qed.

Lemma IndexUid_no_star pre : IndexUid_try_from (pre +:+ "*") = Err (pre +:+ "*").
Proof.
  unfold IndexUid_try_from.
  assert (forallb_string is_uid_char (pre +:+ "*") = false) as ->; [|done].
  induction pre as [|a pre IH]; [done|]. rewrite string_app_cons. simpl. rewrite IH.
  by destruct (is_uid_char a).
Qed.

(** [IndexUidPattern::try_from] accepts exactly the star, the valid
    index uids and the valid index uids followed by a star, and returns what it
    was given. *)
Theorem IndexUidPattern_try_from_spec s t :
  IndexUidPattern_try_from s = Ok t ↔
  s = t ∧ (s = "*" ∨ IndexUid_try_from s = Ok s ∨
           ∃ pre, s = pre +:+ "*" ∧ IndexUid_try_from pre = Ok pre).
Proof.
  unfold IndexUidPattern_try_from. destruct (strip_star s) as [pre|] eqn:Hs.
  - apply strip_star_Some in Hs as ->. destruct (String.eqb_spec pre "") as [->|Hne].
    { split; [by intros [= <-]; auto | by intros [<- _]]. }
    destruct (IndexUid_try_from_cases pre) as [Hpre|Hpre]; rewrite Hpre; simpl.
    + split; [intros [= <-]; eauto 6 | by intros [<- _]].
    + split; [done|]. rewrite IndexUid_no_star. intros (_ & [Heq|[?|(pre' & Heq & Hok)]]); [|done|].
      * by apply (app_inj_length pre "" "*" "*") in Heq as ->; [|destruct pre as [|? [|]]].
      * assert (pre = pre') as ->; [|congruence].
        apply strip_star_Some in Heq. rewrite (proj2 (strip_star_Some _ _) eq_refl) in Heq. congruence.
  - destruct (IndexUid_try_from_cases s) as [Hok|Hok]; rewrite Hok.
    + split; [intros [= <-]; auto | by intros [<- _]].
    + split; [done|]. intros (_ & [->|[?|(pre & -> & _)]]); [done|done|].
      by rewrite (proj2 (strip_star_Some _ _) eq_refl) in Hs.
Qed.

(** ** Witnesses *)

Section witnesses.
#[local] Existing Instance sample_externals.

Definition sample_rules : gmap string (option IndexSearchRules) :=
  {["mov*" := Some (mkIndexSearchRules (Some "genre = horror"));
    "movies" := Some (mkIndexSearchRules (Some "public = true"))]}.

Definition sample_filter : AuthFilter :=
  mkAuthFilter (Some (RulesMap sample_rules)) (RulesSet {["*"]}) true.

Lemma filter_is_index_authorized_spec_witness :
  filter_is_index_authorized sample_filter "movies" = true ∧
  ∃ p, p ∈ rules_patterns (RulesSet {["*"]}) ∧ pattern_matches p "movies".
Proof.
  assert (Ht : filter_is_index_authorized sample_filter "movies" = true) by (by vm_compute).
  split; [exact Ht|].
  apply (proj1 (@filter_is_index_authorized_spec sample_externals sample_externals_ok
    sample_filter "movies")) in Ht as [Hp _]. exact Hp.
Defined.

Lemma rules_get_index_search_rules_spec_witness :
  ∃ p rule, sample_rules !! p = Some rule ∧ pattern_matches p "movies" ∧
    rules_get_index_search_rules (RulesMap sample_rules) "movies" = rule.
Proof.
  destruct (@rules_get_index_search_rules_spec sample_externals sample_externals_ok
    sample_rules "movies") as [(p & rule & ? & ? & ? & _)|[Hn _]].
  - exists p, rule. split; [assumption|]. split; assumption.
  - exfalso. apply (Hn "movies"); [by vm_compute; eauto | apply pattern_matches_refl].
Defined.
End witnesses.
