(* ===== verification/Query.v ===== *)
(** * Queries

    The [impl Queue] blocks of [crates/index-scheduler/src/queue/tasks.rs] and
    [batches.rs]: the ids of the tasks and of the batches that match a query,
    with and without the authorization filter, and the views returned to the
    user. *)

From S2P Require Import Prelude TaskTypes DetailsView SchedUtils TaskQueue BatchQueue Queue Auth.
Open Scope Z_scope.

Section Query.
Context `{Externals}.

(** ** Shared steps *)

(** Union of the bitmaps [f x] for the [x] of a list. *)
Definition union_of {A} (f : A → bitmap) (l : list A) : bitmap :=
  foldl (λ acc x, acc ∪ f x) ∅ l.

(** [if let Some(l) = o { ids &= union }]. *)
Definition restrict {A} (o : option (list A)) (f : A → bitmap) (ids : bitmap) : bitmap :=
  match o with Some l => ids ∩ union_of f l | None => ids end.

(** The [from] step. *)
Definition restrict_from (query : Query) (ids : bitmap) : bitmap :=
  match q_from query with
  | Some from =>
      if default false (q_reverse query) then bm_remove_range 0 from ids
      else bm_remove_range (u32_saturating_add from 1) u32_max ids
  | None => ids
  end.

(** The [limit] step. *)
Definition restrict_limit (query : Query) (ids : bitmap) : bitmap :=
  match q_limit query with
  | Some limit =>
      list_to_set (take (Z.to_nat limit)
        (if default false (q_reverse query) then bm_iter ids else reverse (bm_iter ids)))
  | None => ids
  end.

(** The [started_at] step: [processing_ids] are treated apart, by the date at
    which the processing batch started; [now] is read when there is none. *)
Definition restrict_started (now : DateTime) (query : Query) (started : datedb)
    (batch : option ProcessingBatch) (processing_ids ids : bitmap) : bitmap :=
  let non_processing := ids ∖ processing_ids in
  let processing := ids ∩ processing_ids in
  let processing :=
    match date_bounds (after_started_at query) (before_started_at query) with
    | None => processing
    | Some (start, end_) =>
        let started_at := match batch with Some b => pb_started_at b | None => now end in
        if range_contains start end_ started_at then processing else ∅
    end in
  keep_ids_within_datetimes non_processing started (after_started_at query) (before_started_at query)
  ∪ processing.

(** ** Tasks *)

(** The [batch_uids] step. *)
Definition ids_of_batch (q : Queue) (p : ProcessingTasks) (batch_uid : BatchId) : bitmap :=
  if bool_decide (pb_uid <$> pt_batch p = Some batch_uid) then pt_processing p
  else tasks_in_batch q batch_uid.

(** The [statuses] step. *)
Definition restrict_statuses (q : Queue) (p : ProcessingTasks) (o : option (list Status.t))
    (ids : bitmap) : bitmap :=
  match o with
  | Some statuses =>
      let status_tasks := union_of (λ s,
        match s with
        | Status.Processing => pt_processing p
        | s => get_status (tasks q) s
        end) statuses in
      let ids := if bool_decide (Status.Processing ∈ statuses) then ids else ids ∖ pt_processing p in
      ids ∩ status_tasks
  | None => ids
  end.

Definition get_task_ids (now : DateTime) (q : Queue) (query : Query) (p : ProcessingTasks) : bitmap :=
  let ids := all_task_ids (tasks q) in
  let ids := restrict_from query ids in
  let ids := restrict (q_batch_uids query) (ids_of_batch q p) ids in
  let ids := restrict_statuses q p (q_statuses query) ids in
  let ids := match q_uids query with Some uids => ids ∩ list_to_set uids | None => ids end in
  let all_canceled_tasks :=
    union_of (λ c, bm_get (tq_canceled_by (tasks q)) c) (default [] (q_canceled_by query)) in
  if bool_decide (is_Some (q_canceled_by query)) && bm_is_empty all_canceled_tasks then ∅ else
  let ids := match q_canceled_by query with Some _ => ids ∩ all_canceled_tasks | None => ids end in
  let ids := restrict (q_types query) (get_kind (tasks q)) ids in
  let ids := restrict (q_index_uids query) (index_tasks (tasks q)) ids in
  let ids := restrict_started now query (tq_started_at (tasks q)) (pt_batch p) (pt_processing p) ids in
  let ids := keep_ids_within_datetimes ids (tq_enqueued_at (tasks q))
               (after_enqueued_at query) (before_enqueued_at query) in
  let ids := keep_ids_within_datetimes ids (tq_finished_at (tasks q))
               (after_finished_at query) (before_finished_at query) in
  restrict_limit query ids.

(** The kinds that are not related to exactly one index. *)
Definition global_kinds : list Kind.t :=
  filter (λ k, Kind.related_to_one_index k = false) Kind.all.

Section authorized.
Context {F : Type} `{IndexAuthorizer F}.

Definition get_task_ids_from_authorized_indexes (now : DateTime) (q : Queue) (query : Query)
    (filters : F) (p : ProcessingTasks) : bitmap * Z :=
  let total_tasks := get_task_ids now q (without_limits query) p in
  let ids := get_task_ids now q query p in
  let ids :=
    if bool_decide (is_Some (q_index_uids query)) || negb (all_indexes_authorized filters)
    then foldl (λ ids kind, ids ∖ get_kind (tasks q) kind) ids global_kinds
    else ids in
  let ids :=
    if negb (all_indexes_authorized filters)
    then map_fold (λ index index_tasks ids,
           if is_index_authorized filters index then ids else ids ∖ index_tasks)
         ids (tq_index_tasks (tasks q))
    else ids in
  (ids, bm_len total_tasks).

(** A processing task as the user sees it. *)
Definition processing_view (batch : ProcessingBatch) (processing : bitmap) (task : Task) : Task :=
  if bm_contains processing (uid task)
  then mkTask (uid task) (Some (pb_uid batch)) (enqueued_at task) (Some (pb_started_at batch))
         (finished_at task) (error task) (canceled_by task) (details task) Status.Processing (kind task)
  else task.

Definition get_tasks_from_authorized_indexes (now : DateTime) (q : Queue) (query : Query)
    (filters : F) (p : ProcessingTasks) : outcome Error (list Task * Z) :=
  let '(ids, total) := get_task_ids_from_authorized_indexes now q query filters p in
  let ids := if default false (q_reverse query) then bm_iter ids else reverse (bm_iter ids) in
  tasks ← get_existing_tasks (tasks q) (take (Z.to_nat (default u32_max (q_limit query))) ids);
  match pt_batch p with
  | Some batch =>
      if bm_is_empty (pt_processing p) then Ok (tasks, total)
      else Ok (map (processing_view batch (pt_processing p)) tasks, total)
  | None => Ok (tasks, total)
  end.
End authorized.

(** ** Batches *)

Definition processing_batch_id (p : ProcessingTasks) : bitmap :=
  match pt_batch p with Some b => {[pb_uid b]} | None => ∅ end.

(** The [statuses] step. *)
Definition restrict_batch_statuses (q : Queue) (p : ProcessingTasks) (o : option (list Status.t))
    (ids : bitmap) : bitmap :=
  match o with
  | Some statuses =>
      let status_batches := union_of (λ s,
        match s with
        | Status.Processing => processing_batch_id p
        | Status.Enqueued => ∅
        | s => bq_get_status (batches q) s
        end) statuses in
      let ids :=
        if bool_decide (Status.Processing ∈ statuses) then ids else ids ∖ processing_batch_id p in
      ids ∩ status_batches
  | None => ids
  end.

(** The batch of a task, as a bitmap. *)
Definition batch_of_task (q : Queue) (ok : Task → bool) (task_uid : TaskId) : bitmap :=
  match get_task (tasks q) task_uid with
  | Some task =>
      if ok task then match batch_uid task with Some b => {[b]} | None => ∅ end else ∅
  | None => ∅
  end.

Definition is_succeeded_cancelation (task : Task) : bool :=
  bool_decide (task_kind task = Kind.TaskCancelation) && bool_decide (status task = Status.Succeeded).

(** The batches a kind or an index is listed under, the processing one included. *)
Definition batches_with_kind (q : Queue) (p : ProcessingTasks) (k : Kind.t) : bitmap :=
  bq_get_kind (batches q) k ∪
  match pt_batch p with
  | Some b => if bool_decide (k ∈ pb_kinds b) then {[pb_uid b]} else ∅
  | None => ∅
  end.
Definition batches_with_index (q : Queue) (p : ProcessingTasks) (i : string) : bitmap :=
  index_batches (batches q) i ∪
  match pt_batch p with
  | Some b => if bool_decide (i ∈ pb_indexes b) then {[pb_uid b]} else ∅
  | None => ∅
  end.

Definition get_batch_ids (now : DateTime) (q : Queue) (query : Query) (p : ProcessingTasks) : bitmap :=
  let ids := all_batch_ids (batches q) ∪ processing_batch_id p in
  let ids := restrict_from query ids in
  let ids := match q_batch_uids query with Some uids => ids ∩ list_to_set uids | None => ids end in
  let ids := restrict_batch_statuses q p (q_statuses query) ids in
  let ids := restrict (q_uids query) (batch_of_task q (λ _, true)) ids in
  let all_canceled_batches :=
    union_of (batch_of_task q is_succeeded_cancelation) (default [] (q_canceled_by query)) in
  if bool_decide (is_Some (q_canceled_by query)) && bm_is_empty all_canceled_batches then ∅ else
  let ids := match q_canceled_by query with Some _ => ids ∩ all_canceled_batches | None => ids end in
  let ids := restrict (q_types query) (batches_with_kind q p) ids in
  let ids := restrict (q_index_uids query) (batches_with_index q p) ids in
  let ids := restrict_started now query (bq_started_at (batches q)) (pt_batch p) (pt_processing p) ids in
  let ids := keep_ids_within_datetimes ids (bq_enqueued_at (batches q))
               (after_enqueued_at query) (before_enqueued_at query) in
  let ids := keep_ids_within_datetimes ids (bq_finished_at (batches q))
               (after_finished_at query) (before_finished_at query) in
  restrict_limit query ids.

Section authorized_batches.
Context {F : Type} `{IndexAuthorizer F}.

(** One iteration of the loop over the kinds. *)
Definition remove_global_kind (q : Queue) (p : ProcessingTasks) (ids : bitmap) (kind : Kind.t) : bitmap :=
  let ids := ids ∖ get_kind (tasks q) kind in
  match pt_batch p with
  | Some batch => if bool_decide (kind ∈ pb_kinds batch) then ids ∖ {[pb_uid batch]} else ids
  | None => ids
  end.

(** The batches that touch only indexes the filter refuses. *)
Definition invalid_batches (q : Queue) (filters : F) (p : ProcessingTasks) : bitmap :=
  let '(valid, forbidden) :=
    map_fold (λ index index_tasks '(valid, forbidden),
      if is_index_authorized filters index then (valid ∪ index_tasks, forbidden)
      else (valid, forbidden ∪ index_tasks)) (∅, ∅) (bq_index_tasks (batches q)) in
  let '(valid, forbidden) :=
    match pt_batch p with
    | Some batch =>
        foldl (λ '(valid, forbidden) index,
          if is_index_authorized filters index then ({[pb_uid batch]} ∪ valid, forbidden)
          else (valid, {[pb_uid batch]} ∪ forbidden)) (valid, forbidden) (elements (pb_indexes batch))
    | None => (valid, forbidden)
    end in
  forbidden ∖ valid.

Definition get_batch_ids_from_authorized_indexes (now : DateTime) (q : Queue) (query : Query)
    (filters : F) (p : ProcessingTasks) : bitmap * Z :=
  let total_batches := get_batch_ids now q (without_limits query) p in
  let ids := get_batch_ids now q query p in
  let ids :=
    if bool_decide (is_Some (q_index_uids query)) || negb (all_indexes_authorized filters)
    then foldl (remove_global_kind q p) ids global_kinds
    else ids in
  let ids := if negb (all_indexes_authorized filters) then ids ∖ invalid_batches q filters p else ids in
  (ids, bm_len total_batches).

(** [BatchQueue::get_existing_batches]. *)
Definition get_existing_batches (q : Queue) (ids : list BatchId) (p : ProcessingTasks)
    : outcome Error (list Batch) :=
  collect (λ id,
    match pt_batch p with
    | Some batch =>
        if pb_uid batch =? id then
          let b := to_batch batch in
          Ok (mkBatch (b_uid b) (pt_progress p) (b_details b) (b_stats b) (b_started_at b)
                (b_finished_at b) (b_enqueued_at b) (b_stop_reason b))
        else ok_or CorruptedTaskQueue (get_batch (batches q) id)
    | None => ok_or CorruptedTaskQueue (get_batch (batches q) id)
    end) ids.

Definition get_batches_from_authorized_indexes (now : DateTime) (q : Queue) (query : Query)
    (filters : F) (p : ProcessingTasks) : outcome Error (list Batch * Z) :=
  let '(ids, total) := get_batch_ids_from_authorized_indexes now q query filters p in
  let ids := if default false (q_reverse query) then bm_iter ids else reverse (bm_iter ids) in
  bs ← get_existing_batches q (take (Z.to_nat (default u32_max (q_limit query))) ids) p;
  Ok (bs, total).
End authorized_batches.
End Query.

(** ** Membership in the shared steps *)

Section step_facts.
Context `{Externals}.

Lemma elem_of_union_of {A} (f : A → bitmap) l x : x ∈ union_of f l ↔ ∃ a, a ∈ l ∧ x ∈ f a.
Proof.
  unfold union_of.
  assert (Hgen : ∀ acc, x ∈ foldl (λ acc a, acc ∪ f a) acc l ↔ x ∈ acc ∨ ∃ a, a ∈ l ∧ x ∈ f a).
  { induction l as [|a l IH]; intros acc; simpl; [set_solver|]. rewrite IH. set_solver. }
  rewrite Hgen. set_solver.
Qed.

(** A filter over a list of values: absent, or satisfied by one of them. *)
Definition one_of {A} (o : option (list A)) (P : A → Prop) : Prop :=
  match o with Some l => ∃ a, a ∈ l ∧ P a | None => True end.

Lemma elem_of_restrict {A} (o : option (list A)) f ids x :
  x ∈ restrict o f ids ↔ x ∈ ids ∧ one_of o (λ a, x ∈ f a).
Proof. destruct o; simpl; [|tauto]. by rewrite elem_of_intersection, elem_of_union_of. Qed.

(** The [from] filter. *)
Definition after_from (query : Query) (id : Z) : Prop :=
  match q_from query with
  | Some from => if default false (q_reverse query) then from ≤ id else id ≤ from
  | None => True
  end.

Lemma elem_of_restrict_from query ids x :
  0 ≤ x < u32_max → x ∈ restrict_from query ids ↔ x ∈ ids ∧ after_from query x.
Proof.
  intros Hx. unfold restrict_from, after_from, u32_saturating_add.
  destruct (q_from query) as [from|]; [|tauto].
  destruct (default false (q_reverse query)); rewrite elem_of_bm_remove_range;
    (split; [intros [? ?]; split; [done|lia] | intros [? ?]; split; [done|lia]]).
Qed.

(** The filter on an optional date. *)
Definition date_ok (after before : option DateTime) (d : option DateTime) : Prop :=
  (after = None ∧ before = None) ∨ ∃ t, d = Some t ∧ within after before t.

Definition valid_bounds (after before : option DateTime) : Prop :=
  (∀ a, after = Some a → valid_date a) ∧ (∀ b, before = Some b → valid_date b).

(** A date table that lists [x] under the date [d] only. *)
Lemma elem_of_keep_ids_date ids db after before x d :
  (∀ t, bm_get db t ≠ ∅ → valid_date t) → valid_bounds after before →
  (∀ t, x ∈ bm_get db t ↔ d = Some t) →
  x ∈ keep_ids_within_datetimes ids db after before ↔ x ∈ ids ∧ date_ok after before d.
Proof.
  intros Hdb [Ha Hb] Hd. rewrite elem_of_keep_ids by done. unfold date_ok.
  setoid_rewrite Hd. naive_solver.
Qed.

Lemma range_contains_date_ok after before start end_ d :
  date_bounds after before = Some (start, end_) →
  range_contains start end_ d = true ↔ date_ok after before (Some d).
Proof.
  intros Hb. unfold date_ok, within.
  destruct after as [a|], before as [b|]; simpl in Hb; simplify_eq; unfold range_contains;
    rewrite ?andb_true_iff, ?Z.ltb_lt; naive_solver.
Qed.

Lemma elem_of_restrict_started now query started batch processing ids x d :
  (∀ t, bm_get started t ≠ ∅ → valid_date t) →
  valid_bounds (after_started_at query) (before_started_at query) →
  (∀ t, x ∈ bm_get started t ↔ d = Some t) →
  x ∈ restrict_started now query started batch processing ids ↔
  x ∈ ids ∧ date_ok (after_started_at query) (before_started_at query)
    (if decide (x ∈ processing)
     then Some (match batch with Some b => pb_started_at b | None => now end) else d).
Proof.
  intros Hdb Hb Hd. unfold restrict_started.
  rewrite elem_of_union, (elem_of_keep_ids_date _ _ _ _ x d) by done.
  destruct (date_bounds _ _) as [[start end_]|] eqn:Hbounds.
  - pose proof (range_contains_date_ok _ _ _ _
      (match batch with Some b => pb_started_at b | None => now end) Hbounds) as Hr.
    destruct (range_contains start end_ _); case_decide; set_solver.
  - destruct (after_started_at query), (before_started_at query); simpl in Hbounds; try done.
    unfold date_ok. case_decide; set_solver.
Qed.
End step_facts.

(** ** The tasks a query selects *)

Section task_queries.
Context `{Externals}.

(** The task as the user sees it. *)
Definition task_view (p : ProcessingTasks) (t : Task) : Task :=
  match pt_batch p with Some b => processing_view b (pt_processing p) t | None => t end.

(** The meaning of a query: each field that is set restricts the tasks further. *)
Record task_matches (query : Query) (t : Task) : Prop := {
  match_from : after_from query (uid t);
  match_uids : one_of (q_uids query) (λ u, uid t = u);
  match_batch : one_of (q_batch_uids query) (λ b, batch_uid t = Some b);
  match_status : one_of (q_statuses query) (λ s, status t = s);
  match_kind : one_of (q_types query) (λ k, task_kind t = k);
  match_index : one_of (q_index_uids query) (λ i, i ∈ Task_indexes t);
  match_canceled : one_of (q_canceled_by query) (λ c, canceled_by t = Some c);
  match_enqueued : date_ok (after_enqueued_at query) (before_enqueued_at query) (Some (enqueued_at t));
  match_started : date_ok (after_started_at query) (before_started_at query) (started_at t);
  match_finished : date_ok (after_finished_at query) (before_finished_at query) (finished_at t);
}.

(** The links between the tables the query reads. *)
Record query_ok (q : Queue) (p : ProcessingTasks) : Prop := {
  qok_wf : tq_wf (tasks q);
  qok_max : ∀ id t, all_tasks (tasks q) !! id = Some t → id < u32_max;
  qok_status : ∀ id t, all_tasks (tasks q) !! id = Some t → status t ≠ Status.Processing;
  qok_mapping : ∀ id t b, all_tasks (tasks q) !! id = Some t →
    id ∈ tasks_in_batch q b ↔ batch_uid t = Some b;
  qok_canceled : ∀ id t c, all_tasks (tasks q) !! id = Some t →
    id ∈ bm_get (tq_canceled_by (tasks q)) c ↔ canceled_by t = Some c;
  qok_dates : ∀ id t, all_tasks (tasks q) !! id = Some t → valid_date (enqueued_at t) ∧
    (∀ d, started_at t = Some d → valid_date d) ∧ (∀ d, finished_at t = Some d → valid_date d);
  qok_processing : ∀ id t, all_tasks (tasks q) !! id = Some t →
    match pt_batch p with
    | Some b => (id ∈ pt_processing p → batch_uid t = None ∨ batch_uid t = Some (pb_uid b)) ∧
                (batch_uid t = Some (pb_uid b) → id ∈ pt_processing p)
    | None => id ∉ pt_processing p
    end;
}.

Definition query_dates_ok (query : Query) : Prop :=
  valid_bounds (after_enqueued_at query) (before_enqueued_at query) ∧
  valid_bounds (after_started_at query) (before_started_at query) ∧
  valid_bounds (after_finished_at query) (before_finished_at query).

Section one_task.
Context (q : Queue) (p : ProcessingTasks) (id : TaskId) (t : Task).
Hypothesis Hok : query_ok q p.
Hypothesis Ht : all_tasks (tasks q) !! id = Some t.

Lemma view_uid : uid (task_view p t) = id.
Proof.
  rewrite <-(wf_uid _ (qok_wf _ _ Hok) _ _ Ht). unfold task_view, processing_view.
  destruct (pt_batch p); [|done]. by destruct (bm_contains _ _).
Qed.

(** The fields of the view. *)
Lemma view_fields :
  task_kind (task_view p t) = task_kind t ∧ Task_indexes (task_view p t) = Task_indexes t ∧
  canceled_by (task_view p t) = canceled_by t ∧ enqueued_at (task_view p t) = enqueued_at t ∧
  finished_at (task_view p t) = finished_at t.
Proof.
  unfold task_view, processing_view. destruct (pt_batch p); [|done]. by destruct (bm_contains _ _).
Qed.

Lemma view_processing :
  (id ∈ pt_processing p ∧ ∃ b, pt_batch p = Some b ∧ status (task_view p t) = Status.Processing ∧
     batch_uid (task_view p t) = Some (pb_uid b) ∧ started_at (task_view p t) = Some (pb_started_at b)) ∨
  (id ∉ pt_processing p ∧ task_view p t = t).
Proof.
  pose proof (qok_processing _ _ Hok _ _ Ht) as Hp. unfold task_view, processing_view.
  rewrite (wf_uid _ (qok_wf _ _ Hok) _ _ Ht). unfold bm_contains.
  destruct (pt_batch p) as [b|]; [|by right]. case_bool_decide; [left|by right].
  split; [done|]. by exists b.
Qed.

Lemma elem_of_ids_of_batch b : id ∈ ids_of_batch q p b ↔ batch_uid (task_view p t) = Some b.
Proof.
  unfold ids_of_batch. pose proof (qok_processing _ _ Hok _ _ Ht) as Hp.
  destruct view_processing as [(Hin & b' & Hb & _ & -> & _)|[Hin ->]].
  - rewrite Hb in *. simpl. case_bool_decide as Hd; [naive_solver|].
    rewrite (qok_mapping _ _ Hok _ _ _ Ht). destruct Hp as [Hp _]. split; [|congruence].
    intros Hbt. destruct (Hp Hin) as [?|?]; congruence.
  - destruct (pt_batch p) as [b'|]; simpl;
      [|by apply (qok_mapping _ _ Hok)].
    case_bool_decide as Hd; [|by apply (qok_mapping _ _ Hok)].
    simplify_eq. split; [done|]. by intros ?%Hp.
Qed.

Lemma elem_of_restrict_statuses o ids :
  id ∈ restrict_statuses q p o ids ↔ id ∈ ids ∧ one_of o (λ s, status (task_view p t) = s).
Proof.
  unfold restrict_statuses. destruct o as [l|]; simpl; [|tauto].
  rewrite elem_of_intersection, elem_of_union_of.
  assert (Hst : ∀ s, id ∈ get_status (tasks q) s ↔ status t = s).
  { intros s. by apply (tabulates_get _ _ _ _ _ _ (wf_status _ (qok_wf _ _ Hok)) Ht). }
  pose proof (qok_status _ _ Hok _ _ Ht) as Hnp.
  destruct view_processing as [(Hin & b' & Hb & -> & _)|[Hin ->]].
  - case_bool_decide as Hl.
    + apply and_iff_compat_l. split; [by eauto|]. intros _. by exists Status.Processing.
    + rewrite elem_of_difference. naive_solver.
  - assert (Hs : ∀ s, id ∈ (match s with Status.Processing => pt_processing p | s => get_status (tasks q) s end)
      ↔ status t = s).
    { intros []; [apply Hst | | apply Hst..]. split; [done|]. intros Hs. done. }
    setoid_rewrite Hs. case_bool_decide; [done|]. rewrite elem_of_difference. tauto.
Qed.
End one_task.

(** The query without its limit. *)
Definition no_limit (query : Query) : Query :=
  mkQuery None (q_from query) (q_reverse query) (q_uids query) (q_batch_uids query)
    (q_statuses query) (q_types query) (q_index_uids query) (q_canceled_by query)
    (before_enqueued_at query) (after_enqueued_at query) (before_started_at query)
    (after_started_at query) (before_finished_at query) (after_finished_at query).

Lemma restrict_limit_empty query : restrict_limit query ∅ = ∅.
Proof.
  unfold restrict_limit. destruct (q_limit query) as [n|]; [|done].
  by destruct (default false (q_reverse query)); destruct (Z.to_nat n).
Qed.

Lemma get_task_ids_limit now q query p :
  get_task_ids now q query p = restrict_limit query (get_task_ids now q (no_limit query) p).
Proof.
  unfold get_task_ids. simpl. destruct (_ && _); [by rewrite restrict_limit_empty | done].
Qed.

Lemma one_of_iff {A} (o : option (list A)) P Q :
  (∀ a, P a ↔ Q a) → one_of o P ↔ one_of o Q.
Proof. intros HPQ. destruct o; simpl; [|done]. by setoid_rewrite HPQ. Qed.

Lemma elem_of_canceled q query id ids :
  let all : bitmap :=
    union_of (λ c, bm_get (tq_canceled_by (tasks q)) c) (default [] (q_canceled_by query)) in
  id ∈ match q_canceled_by query with Some _ => ids ∩ all | None => ids end ↔
  id ∈ ids ∧ one_of (q_canceled_by query) (λ c, id ∈ bm_get (tq_canceled_by (tasks q)) c).
Proof.
  simpl. destruct (q_canceled_by query) as [l|]; simpl; [|tauto].
  by rewrite elem_of_intersection, elem_of_union_of.
Qed.

(** The fields of [task_matches], read off the tables. *)
Lemma task_matches_tables q query p id t :
  query_ok q p → all_tasks (tasks q) !! id = Some t →
  task_matches query (task_view p t) ↔
  after_from query id ∧
  one_of (q_batch_uids query) (λ b, id ∈ ids_of_batch q p b) ∧
  one_of (q_statuses query) (λ s, status (task_view p t) = s) ∧
  one_of (q_uids query) (λ u, id = u) ∧
  one_of (q_canceled_by query) (λ c, id ∈ bm_get (tq_canceled_by (tasks q)) c) ∧
  one_of (q_types query) (λ k, id ∈ get_kind (tasks q) k) ∧
  one_of (q_index_uids query) (λ i, id ∈ index_tasks (tasks q) i) ∧
  date_ok (after_started_at query) (before_started_at query) (started_at (task_view p t)) ∧
  date_ok (after_enqueued_at query) (before_enqueued_at query) (Some (enqueued_at t)) ∧
  date_ok (after_finished_at query) (before_finished_at query) (finished_at t).
Proof.
  intros Hok Ht. pose proof (qok_wf _ _ Hok) as Hwf.
  pose proof (view_uid q p id t Hok Ht) as Hvu.
  destruct (view_fields p t) as (Hvk & Hvi & Hvc & Hve & Hvf).
  rewrite (one_of_iff _ _ _ (elem_of_ids_of_batch q p id t Hok Ht)).
  rewrite (one_of_iff _ _ _ (λ c, qok_canceled _ _ Hok id t c Ht)).
  rewrite (one_of_iff _ _ _ (λ k, tabulates_get _ _ _ k id t (wf_kind _ Hwf) Ht)).
  rewrite (one_of_iff _ _ _ (λ i, tabulates_get _ _ _ i id t (wf_index _ Hwf) Ht)).
  unfold has_kind, has_index. split.
  - intros []. by rewrite Hvu, Hvk, Hvi, Hvc, Hve, Hvf in *.
  - intros (? & ? & ? & ? & ? & ? & ? & ? & ? & ?).
    constructor; rewrite ?Hvu, ?Hvk, ?Hvi, ?Hvc, ?Hve, ?Hvf; done.
Qed.

(** The dates under which the tables list a task. *)
Lemma date_tables q p :
  query_ok q p →
  (∀ d, bm_get (tq_enqueued_at (tasks q)) d ≠ ∅ → valid_date d) ∧
  (∀ d, bm_get (tq_started_at (tasks q)) d ≠ ∅ → valid_date d) ∧
  (∀ d, bm_get (tq_finished_at (tasks q)) d ≠ ∅ → valid_date d).
Proof.
  intros Hok. pose proof (qok_wf _ _ Hok) as Hwf.
  split_and!; intros d [x Hx]%set_choose_L;
    [apply (wf_enqueued _ Hwf) in Hx | apply (wf_started _ Hwf) in Hx | apply (wf_finished _ Hwf) in Hx];
    destruct Hx as (t & Ht & Hd); destruct (qok_dates _ _ Hok _ _ Ht) as (? & ? & ?); red in Hd; subst; auto.
Qed.

Lemma elem_of_get_task_ids now q query p id t :
  query_ok q p → query_dates_ok query → all_tasks (tasks q) !! id = Some t →
  id ∈ get_task_ids now q (no_limit query) p ↔ task_matches query (task_view p t).
Proof.
  intros Hok (Hde & Hds & Hdf) Ht. pose proof (qok_wf _ _ Hok) as Hwf.
  destruct (date_tables _ _ Hok) as (Hte & Hts & Htf).
  assert (Hrange : 0 ≤ id < u32_max).
  { split; [|by eapply (qok_max _ _ Hok)]. apply (wf_range _ Hwf); eauto. }
  destruct (view_fields p t) as (Hvk & Hvi & Hvc & Hve & Hvf).
  assert (Hstart : started_at (task_view p t) = if decide (id ∈ pt_processing p)
      then Some (match pt_batch p with Some b => pb_started_at b | None => now end) else started_at t).
  { destruct (view_processing q p id t Hok Ht) as [(? & b & -> & _ & _ & ->)|[? ->]];
      [by rewrite decide_True | by rewrite decide_False]. }
  transitivity (id ∈ all_task_ids (tasks q) ∧ task_matches query (task_view p t)).
  2:{ rewrite (elem_of_all_task_ids _ _ Hwf), Ht. naive_solver. }
  rewrite (task_matches_tables q query p id t Hok Ht).
  unfold get_task_ids. simpl.
    destruct (bool_decide (is_Some (q_canceled_by query)) && _) eqn:Hearly.
    + apply andb_true_iff in Hearly as [[l Hl]%bool_decide_eq_true He%bool_decide_eq_true].
      rewrite Hl in *. split; [set_solver|]. simpl in *. intros (_ & _ & _ & _ & _ & (c & Hc & Hid) & _).
      assert (id ∈ union_of (λ c, bm_get (tq_canceled_by (tasks q)) c) l) as Hin
        by (apply elem_of_union_of; eauto). rewrite He in Hin. set_solver.
    + clear Hearly. unfold restrict_limit; simpl.
      rewrite (elem_of_keep_ids_date _ _ _ _ id (finished_at t)), (elem_of_keep_ids_date _ _ _ _ id (Some (enqueued_at t))),
        (elem_of_restrict_started _ _ _ _ _ _ id (started_at t)), !elem_of_restrict, elem_of_canceled by
        (done || (intros d; etransitivity; [eapply tabulates_get; [apply Hwf|done]|]; unfold has_enqueued_at, has_started_at, has_finished_at; naive_solver)).
      rewrite <-Hstart.
      assert (Hu : ∀ ids : bitmap, id ∈ match q_uids query with Some uids => ids ∩ list_to_set uids | None => ids end
        ↔ id ∈ ids ∧ one_of (q_uids query) (λ u, id = u)).
      { intros ids. destruct (q_uids query) as [us|]; simpl; [|tauto]. set_solver. }
      rewrite Hu, (elem_of_restrict_statuses q p id t Hok Ht), !elem_of_restrict, elem_of_restrict_from by done.
      tauto.
Qed.

(** Every step only removes ids. *)
Lemma keep_ids_sub ids db after before : keep_ids_within_datetimes ids db after before ⊆ ids.
Proof. unfold keep_ids_within_datetimes. destruct (date_bounds _ _) as [[]|]; set_solver. Qed.

Lemma restrict_started_sub now query db batch processing ids :
  restrict_started now query db batch processing ids ⊆ ids.
Proof.
  unfold restrict_started. pose proof (keep_ids_sub (ids ∖ processing) db (after_started_at query)
    (before_started_at query)).
  destruct (date_bounds _ _) as [[]|]; [destruct (range_contains _ _ _)|]; set_solver.
Qed.

Lemma restrict_sub {A} (o : option (list A)) f ids : restrict o f ids ⊆ ids.
Proof. intros x. rewrite elem_of_restrict. tauto. Qed.

Lemma restrict_statuses_sub q p o ids : restrict_statuses q p o ids ⊆ ids.
Proof. unfold restrict_statuses. destruct o; [|done]. case_bool_decide; set_solver. Qed.

Lemma restrict_from_sub query ids : restrict_from query ids ⊆ ids.
Proof.
  unfold restrict_from. destruct (q_from query); [|done].
  destruct (default _ _); intros x; rewrite elem_of_bm_remove_range; tauto.
Qed.

Lemma match_sub {A} (o : option A) (f : A → bitmap) (ids : bitmap) :
  match o with Some a => ids ∩ f a | None => ids end ⊆ ids.
Proof. destruct o; set_solver. Qed.

Lemma get_task_ids_exist now q query p id :
  tq_wf (tasks q) → id ∈ get_task_ids now q (no_limit query) p → is_Some (all_tasks (tasks q) !! id).
Proof.
  intros Hwf Hid. apply (elem_of_all_task_ids _ _ Hwf). revert Hid.
  unfold get_task_ids; simpl. destruct (_ && _); [set_solver|]. unfold restrict_limit; simpl.
  intros Hid%keep_ids_sub%keep_ids_sub%restrict_started_sub%restrict_sub%restrict_sub.
  apply (match_sub _ (λ _, _)), (match_sub _ list_to_set) in Hid.
  by apply restrict_statuses_sub, restrict_sub, restrict_from_sub in Hid.
Qed.

(** The first elements of a list without duplicates. *)
Lemma take_set_spec n (l : list Z) :
  NoDup l → 0 ≤ n →
  let s : bitmap := list_to_set (take (Z.to_nat n) l) in
  bm_len s = Z.min n (Z.of_nat (length l)) ∧
  ∀ x y, x ∈ l → x ∉ s → y ∈ s → ∃ l1 l2, l = l1 ++ l2 ∧ y ∈ l1 ∧ x ∈ l2.
Proof.
  intros Hnd Hn s. pose proof (take_drop (Z.to_nat n) l) as Htd. split.
  - unfold s, bm_len. rewrite size_list_to_set; [rewrite length_take; lia|].
    rewrite <-Htd in Hnd. by apply NoDup_app in Hnd as [? _].
  - intros x y Hx Hnx Hy. unfold s in *. rewrite elem_of_list_to_set in Hnx, Hy.
    exists (take (Z.to_nat n) l), (drop (Z.to_nat n) l). split; [done|]. split; [done|].
    rewrite <-Htd in Hx. by apply elem_of_app in Hx as [?|?].
Qed.

(** The ids a limit keeps: the first ones in the order of the query. *)
Lemma restrict_limit_spec query (ids : bitmap) :
  restrict_limit query ids ⊆ ids ∧
  ∀ n, q_limit query = Some n → 0 ≤ n →
    bm_len (restrict_limit query ids) = Z.min n (bm_len ids) ∧
    ∀ x y, x ∈ ids → x ∉ restrict_limit query ids → y ∈ restrict_limit query ids →
      if default false (q_reverse query) then y < x else x < y.
Proof.
  unfold restrict_limit. destruct (q_limit query) as [n|]; [|done].
  pose proof (NoDup_bm_iter ids) as Hnd. pose proof (StronglySorted_bm_iter ids) as Hss.
  pose proof (length_bm_iter ids) as Hlen.
  destruct (default false (q_reverse query)); split.
  - intros x Hx%elem_of_list_to_set%subseteq_take. by apply elem_of_bm_iter.
  - intros ? [= <-] Hn. destruct (take_set_spec n (bm_iter ids) Hnd Hn) as [-> Hord].
    split; [by rewrite Hlen|]. intros x y Hx%elem_of_bm_iter Hnx Hy.
    destruct (Hord x y Hx Hnx Hy) as (l1 & l2 & Heq & ? & ?). rewrite Heq in Hss, Hnd.
    by eapply sorted_suffix.
  - intros x Hx%elem_of_list_to_set%subseteq_take. by apply elem_of_bm_iter, elem_of_reverse.
  - intros ? [= <-] Hn.
    destruct (take_set_spec n (reverse (bm_iter ids))) as [-> Hord]; [by rewrite reverse_Permutation|done|].
    split; [by rewrite length_reverse, Hlen|]. intros x y Hx%elem_of_bm_iter%elem_of_reverse Hnx Hy.
    destruct (Hord x y Hx Hnx Hy) as (l1 & l2 & Heq & ? & ?).
    apply (f_equal reverse) in Heq. rewrite reverse_involutive, reverse_app in Heq.
    rewrite Heq in Hss, Hnd. eapply sorted_suffix; try done; by apply elem_of_reverse.
Qed.

(** C13. For a query with no date before 1970, on a queue whose tables agree
    ([query_ok]), the ids [get_task_ids] selects are those of the tasks that match
    every field of the query that is set, as the user sees them (a processing
    task has the status, the batch and the starting date of the batch being
    processed), restricted by the limit to the newest ones, or to the oldest
    ones in a reversed query.  [query_ok] asks, besides a well-formed task queue, that the batches and the
    cancelations list the tasks that name them, that no task is stored as processing nor numbered [u32::MAX], that the dates of the tasks are
    after 1970 and that the tasks being processed are those of the batch being processed.  A bound before 1970 does not select what it should, see the findings. *)
Theorem get_task_ids_spec now q query p :
  query_ok q p → query_dates_ok query →
  ∃ matching : bitmap,
    (∀ id, id ∈ matching ↔ ∃ t, all_tasks (tasks q) !! id = Some t ∧
       task_matches query (task_view p t)) ∧
    get_task_ids now q query p ⊆ matching ∧
    match q_limit query with
    | None => get_task_ids now q query p = matching
    | Some n => 0 ≤ n →
        bm_len (get_task_ids now q query p) = Z.min n (bm_len matching) ∧
        ∀ x y, x ∈ matching → x ∉ get_task_ids now q query p → y ∈ get_task_ids now q query p →
          if default false (q_reverse query) then y < x else x < y
    end.
Proof.
  intros Hok Hd. exists (get_task_ids now q (no_limit query) p). split.
  - intros id. split.
    + intros Hid. destruct (get_task_ids_exist _ _ _ _ _ (qok_wf _ _ Hok) Hid) as [t Ht].
      exists t. split; [done|]. by eapply elem_of_get_task_ids.
    + intros (t & Ht & Hm). by eapply elem_of_get_task_ids.
  - rewrite get_task_ids_limit.
    destruct (restrict_limit_spec query (get_task_ids now q (no_limit query) p)) as [Hsub Hlim].
    split; [done|]. destruct (q_limit query) as [n|] eqn:Hn; [by apply Hlim|].
    unfold restrict_limit. by rewrite Hn.
Qed.
End task_queries.

(** ** Authorized queries *)

Section authorized_queries.
Context `{Externals} {F : Type} `{!IndexAuthorizer F} `{!IndexAuthorizerOk F}.

Lemma elem_of_remove_kinds q l ids x :
  x ∈ foldl (λ ids k, ids ∖ get_kind (tasks q) k) ids l ↔
  x ∈ ids ∧ ∀ k, k ∈ l → x ∉ get_kind (tasks q) k.
Proof. revert ids; induction l as [|k l IH]; intros ids; simpl; [set_solver|]. rewrite IH. set_solver. Qed.

Lemma elem_of_remove_indexes (ok : string → bool) (m : gmap string bitmap) (ids : bitmap) x :
  x ∈ map_fold (λ i b ids, if ok i then ids else ids ∖ b) ids m ↔
  x ∈ ids ∧ ∀ i, ok i = false → x ∉ bm_get m i.
Proof.
  induction m as [|i b m Hn Hfst IH] using map_first_key_ind.
  - rewrite map_fold_empty. unfold bm_get. setoid_rewrite lookup_empty. set_solver.
  - rewrite map_fold_insert_first_key by done. setoid_rewrite bm_get_insert.
    assert (Hi : bm_get m i = ∅) by (unfold bm_get; by rewrite Hn).
    transitivity ((x ∈ ids ∧ ∀ j, ok j = false → x ∉ bm_get m j) ∧ (ok i = false → x ∉ b)).
    { rewrite <-IH. destruct (ok i); set_solver. }
    split.
    + intros [[? Hm] Hb]. split; [done|]. intros j Hj. case_decide; subst; auto.
    + intros [? Hm]. split; [split; [done|]|].
      * intros j Hj. specialize (Hm j Hj). case_decide; [subst; rewrite Hi; set_solver | done].
      * intros Hok. specialize (Hm i Hok). by rewrite decide_True in Hm.
Qed.

Lemma elem_of_global_kinds k : k ∈ global_kinds ↔ Kind.related_to_one_index k = false.
Proof.
  unfold global_kinds. rewrite list_elem_of_filter. split; [tauto|]. intros Hk. split; [done|].
  unfold Kind.all. destruct k; set_solver.
Qed.

Lemma get_task_ids_sub now q query p id :
  tq_wf (tasks q) → id ∈ get_task_ids now q query p → is_Some (all_tasks (tasks q) !! id).
Proof.
  intros Hwf Hid. rewrite get_task_ids_limit in Hid.
  apply (proj1 (restrict_limit_spec query _)) in Hid. by eapply get_task_ids_exist.
Qed.

Lemma elem_of_authorized now q query filters p id :
  tq_wf (tasks q) →
  id ∈ (get_task_ids_from_authorized_indexes now q query filters p).1 ↔
  id ∈ get_task_ids now q query p ∧
  ∃ t, all_tasks (tasks q) !! id = Some t ∧
    (is_Some (q_index_uids query) ∨ all_indexes_authorized filters = false →
     Kind.related_to_one_index (task_kind t) = true) ∧
    ∀ i, i ∈ Task_indexes t → is_index_authorized filters i = true.
Proof.
  intros Hwf. unfold get_task_ids_from_authorized_indexes. cbn [fst].
  set (ids0 := get_task_ids now q query p).
  set (c1 := bool_decide _ || _).
  assert (Hc1 : c1 = true ↔ is_Some (q_index_uids query) ∨ all_indexes_authorized filters = false).
  { unfold c1. by rewrite orb_true_iff, bool_decide_eq_true, negb_true_iff. }
  transitivity (id ∈ ids0 ∧ (c1 = true → ∀ k, k ∈ global_kinds → id ∉ get_kind (tasks q) k) ∧
    (all_indexes_authorized filters = false →
     ∀ i, is_index_authorized filters i = false → id ∉ bm_get (tq_index_tasks (tasks q)) i)).
  { clearbody c1 ids0. clear Hc1.
    destruct (all_indexes_authorized filters), c1; cbn [negb];
      rewrite ?(elem_of_remove_indexes (is_index_authorized filters)), ?elem_of_remove_kinds;
      (split; [intros ?; split_and!; try done; tauto | intros (? & Hk & Hi); repeat split; auto]). }
  split.
  - intros (Hid & Hk & Hi). split; [done|]. destruct (get_task_ids_sub _ _ _ _ _ Hwf Hid) as [t Ht].
    exists t. split; [done|]. split.
    + intros Hc%Hc1. apply not_false_is_true. intros Hr.
      apply (Hk Hc (task_kind t)); [by apply elem_of_global_kinds|].
      by apply (tabulates_get _ _ _ _ _ _ (wf_kind _ Hwf) Ht).
    + intros i Hit. destruct (all_indexes_authorized filters) eqn:Hall;
        [by apply all_indexes_authorized_spec|].
      apply not_false_is_true. intros Hni. apply (Hi eq_refl i Hni).
      by apply (tabulates_get _ _ _ _ _ _ (wf_index _ Hwf) Ht).
  - intros (Hid & t & Ht & Hr & Hauth). split; [done|]. split.
    + intros Hc k Hk%elem_of_global_kinds Hin.
      apply (tabulates_get _ _ _ _ _ _ (wf_kind _ Hwf) Ht) in Hin. unfold has_kind in Hin.
      specialize (Hr (proj1 Hc1 Hc)). congruence.
    + intros _ i Hni Hin. apply (tabulates_get _ _ _ _ _ _ (wf_index _ Hwf) Ht) in Hin.
      specialize (Hauth i Hin). congruence.
Qed.

Lemma get_existing_tasks_Ok q ids :
  (∀ id, id ∈ ids → is_Some (all_tasks q !! id)) →
  ∃ l, get_existing_tasks q ids = Ok l ∧ Forall2 (λ id t, all_tasks q !! id = Some t) ids l.
Proof.
  intros Hids.
  assert (∃ l, Forall2 (λ id t, all_tasks q !! id = Some t) ids l) as [l Hl].
  { induction ids as [|id ids IH]; [by exists []|].
    destruct (Hids id) as [t Ht]; [by left|]. destruct IH as [l Hl]; [by intros; apply Hids; right|].
    exists (t :: l). by constructor. }
  exists l. split; [|done]. apply collect_Ok. eapply Forall2_impl; [exact Hl|].
  intros id t Ht. unfold get_task. simpl in Ht. by rewrite Ht.
Qed.

(** C14. Through an authorization filter a user receives exactly the
    tasks the query selects, of which every associated index is authorized and
    which, when the query names indexes or the filter is not unrestricted, are
    associated with one index; they come as the user sees them, newest first
    (oldest first in a reversed query), and the call never fails on a
    well-formed queue. *)
Theorem get_tasks_from_authorized_indexes_spec now q query (filters : F) p :
  tq_wf (tasks q) →
  ∃ (ids : bitmap) stored,
    (∀ id, id ∈ ids ↔ id ∈ get_task_ids now q query p ∧
      ∃ t, all_tasks (tasks q) !! id = Some t ∧
        (is_Some (q_index_uids query) ∨ all_indexes_authorized filters = false →
         Kind.related_to_one_index (task_kind t) = true) ∧
        ∀ i, i ∈ Task_indexes t → is_index_authorized filters i = true) ∧
    Forall2 (λ id t, all_tasks (tasks q) !! id = Some t)
      (take (Z.to_nat (default u32_max (q_limit query)))
         (if default false (q_reverse query) then bm_iter ids else reverse (bm_iter ids))) stored ∧
    get_tasks_from_authorized_indexes now q query filters p =
      Ok (map (task_view p) stored, bm_len (get_task_ids now q (without_limits query) p)).
Proof.
  intros Hwf. exists (get_task_ids_from_authorized_indexes now q query filters p).1.
  set (order := λ b, if default false (q_reverse query) then bm_iter b else reverse (bm_iter b)).
  set (ids := (get_task_ids_from_authorized_indexes now q query filters p).1).
  set (n := Z.to_nat (default u32_max (q_limit query))).
  destruct (get_existing_tasks_Ok (tasks q) (take n (order ids))) as (l & Hl & Hf).
  { intros id Hid%subseteq_take. assert (id ∈ ids) as Hin.
    { unfold order in Hid. destruct (default _ _); rewrite ?elem_of_reverse in Hid; by apply elem_of_bm_iter. }
    apply (elem_of_authorized _ _ _ _ _ _ Hwf) in Hin as (_ & t & Ht & _). eauto. }
  exists l. split; [by intros; apply elem_of_authorized|]. split; [done|].
  unfold get_tasks_from_authorized_indexes.
  destruct (get_task_ids_from_authorized_indexes now q query filters p) as [ids' total] eqn:Hids.
  assert (total = bm_len (get_task_ids now q (without_limits query) p)) as ->
    by (unfold get_task_ids_from_authorized_indexes in Hids; by simplify_eq).
  unfold ids in Hl. simpl in Hl. unfold order in Hl. fold n. rewrite Hl. simpl. unfold task_view.
  destruct (pt_batch p) as [b|]; [|by rewrite map_id].
  unfold bm_is_empty. case_bool_decide as He; [|done]. rewrite He. do 2 f_equal.
  etransitivity; [symmetry; apply map_id|]. apply map_ext. intros t. unfold processing_view, bm_contains.
  by rewrite bool_decide_false by set_solver.
Qed.
End authorized_queries.

(** ** Where the queries depart from their documentation *)

Section divergences.
Context `{Externals} {F : Type} `{!IndexAuthorizer F}.

Lemma foldl_remove_sub q p l ids : foldl (remove_global_kind q p) ids l ⊆ ids.
Proof.
  revert ids; induction l as [|k l IH]; intros ids; simpl; [done|].
  etransitivity; [apply IH|]. unfold remove_global_kind.
  destruct (pt_batch p); [case_bool_decide|]; set_solver.
Qed.

Lemma foldl_remove_kind q p l ids k x :
  k ∈ l → x ∈ get_kind (tasks q) k → x ∉ foldl (remove_global_kind q p) ids l.
Proof.
  revert ids; induction l as [|k' l IH]; intros ids; [set_solver|]. simpl.
  intros [->|Hk]%elem_of_cons Hx; [|by apply IH]. intros Hin%foldl_remove_sub. revert Hin.
  unfold remove_global_kind. destruct (pt_batch p); [case_bool_decide|]; set_solver.
Qed.

(** The loop that hides the batches of global tasks subtracts the ids of the
    global tasks: a batch whose id happens to be the id of a task deletion, a
    dump or another global task is hidden from a query on an index whatever the
    batch contains. *)
Theorem authorized_batches_drop_task_ids now q query (filters : F) p k x :
  is_Some (q_index_uids query) → Kind.related_to_one_index k = false →
  x ∈ get_kind (tasks q) k →
  x ∉ (get_batch_ids_from_authorized_indexes now q query filters p).1.
Proof.
  intros Hi Hk Hx. unfold get_batch_ids_from_authorized_indexes. cbn [fst].
  rewrite bool_decide_true by done. cbn [orb].
  assert (Hni : x ∉ foldl (remove_global_kind q p) (get_batch_ids now q query p) global_kinds).
  { eapply foldl_remove_kind; [|done]. unfold global_kinds. apply list_elem_of_filter.
    split; [done|]. unfold Kind.all. destruct k; set_solver. }
  destruct (negb _); set_solver.
Qed.

(** The starting date of the processing batch is not taken into account: a
    query on starting dates loses the batch unless its id is also the id of a
    processing task. *)
Theorem processing_batch_lost_by_started_at now q query p b a :
  pt_batch p = Some b → pb_uid b ∉ pt_processing p →
  (∀ d, pb_uid b ∉ bm_get (bq_started_at (batches q)) d) →
  after_started_at query = Some a →
  pb_uid b ∉ get_batch_ids now q query p.
Proof.
  intros Hb Hni Hst Ha. unfold get_batch_ids. destruct (_ && _); [set_solver|].
  intros Hin%(proj1 (restrict_limit_spec query _))%keep_ids_sub%keep_ids_sub.
  revert Hin. match goal with |- context [restrict_started _ _ _ _ _ ?i] => generalize i end.
  intros ids. unfold restrict_started. rewrite elem_of_union. intros [Hin|Hin].
  - revert Hin. unfold keep_ids_within_datetimes. rewrite Ha. destruct (date_bounds _ _) as [[s e]|] eqn:Hd;
      [|by destruct (before_started_at query)].
    intros [_ Hc]%elem_of_intersection. apply elem_of_collected in Hc as (t & _ & Hc). by apply (Hst t).
  - destruct (date_bounds _ _) as [[s e]|]; [destruct (range_contains _ _ _)|]; set_solver.
Qed.
End divergences.

(** Dates before 1970 order after all the others as keys of the date tables: a
    query for what happened before such a date keeps everything. *)
Theorem keep_ids_before_epoch (ids : bitmap) (db : datedb) before d x :
  - 2 ^ 127 ≤ before < 0 → valid_date d → x ∈ ids → x ∈ bm_get db d →
  x ∈ keep_ids_within_datetimes ids db None (Some before).
Proof.
  intros Hb Hd Hx Hdx. unfold keep_ids_within_datetimes. simpl.
  rewrite elem_of_intersection. split; [done|].
  apply (elem_of_collected (λ t, range_contains Unbounded (Excluded (be_i128 before)) (be_i128 t))).
  exists d. split; [|done]. unfold range_contains; simpl. rewrite (be_i128_valid d) by done.
  apply Z.ltb_lt. unfold be_i128, valid_date in *. rewrite <-(Z.mod_unique before (2 ^ 128) (-1) (before + 2 ^ 128)); lia.
Qed.

(** ** Witnesses *)

Section witnesses.
#[local] Existing Instance sample_externals.

Lemma sample_tasks_singleton id t : all_tasks (tasks sample_q) !! id = Some t → id = 0 ∧ t = sample_task.
Proof.
  change (all_tasks (tasks sample_q)) with ({[0 := sample_task]} : gmap TaskId Task).
  by intros [<- <-]%lookup_singleton_Some.
Qed.

Lemma sample_query_ok : query_ok sample_q ProcessingTasks_new.
Proof.
  constructor; [exact sample_q_wf|..].
  - by intros id t [-> ->]%sample_tasks_singleton.
  - by intros id t [-> ->]%sample_tasks_singleton.
  - intros id t b [-> ->]%sample_tasks_singleton. unfold tasks_in_batch, bm_get. simpl.
    rewrite lookup_empty. set_solver.
  - intros id t b [-> ->]%sample_tasks_singleton.
    change (tq_canceled_by (tasks sample_q)) with (∅ : gmap TaskId bitmap). unfold bm_get.
    rewrite lookup_empty. set_solver.
  - intros id t [-> ->]%sample_tasks_singleton. by split_and!.
  - intros id t [-> ->]%sample_tasks_singleton. simpl. set_solver.
Qed.

Definition sample_query : Query :=
  mkQuery (Some 5) None None None None (Some [Status.Enqueued]) None (Some ["movies"]) None
    (Some 100) None None None None None.

Lemma sample_query_dates : query_dates_ok sample_query.
Proof. unfold query_dates_ok, valid_bounds. simpl. split_and!; by intros ? [= <-]. Qed.

Lemma get_task_ids_spec_witness :
  query_ok sample_q ProcessingTasks_new ∧ query_dates_ok sample_query ∧
  0 ∈ get_task_ids 50 sample_q sample_query ProcessingTasks_new ∧
  ∃ matching : bitmap, get_task_ids 50 sample_q sample_query ProcessingTasks_new ⊆ matching ∧
    ∀ id, id ∈ matching → ∃ t, all_tasks (tasks sample_q) !! id = Some t.
Proof.
  split; [exact sample_query_ok|]. split; [exact sample_query_dates|]. split; [by vm_compute|].
  destruct (get_task_ids_spec 50 sample_q sample_query ProcessingTasks_new sample_query_ok
    sample_query_dates) as (m & Hm & Hsub & _).
  exists m. split; [exact Hsub|]. intros id (t & Ht & _)%Hm. exists t. exact Ht.
Defined.

Lemma get_tasks_from_authorized_indexes_spec_witness :
  tq_wf (tasks sample_q) ∧
  ∃ l n, get_tasks_from_authorized_indexes 50 sample_q sample_query sample_filter ProcessingTasks_new
    = Ok (l, n).
Proof.
  split; [exact sample_q_wf|].
  destruct (@get_tasks_from_authorized_indexes_spec sample_externals AuthFilter _
    (@AuthFilter_authorizer_ok sample_externals sample_externals_ok)
    50 sample_q sample_query sample_filter ProcessingTasks_new sample_q_wf) as (ids & st & _ & _ & Heq).
  eexists _, _. exact Heq.
Defined.

(** A queue whose task 0 creates a dump, and the batch 0 being processed. *)
Definition sample_dump_queue : Queue :=
  mkQueue (tq_register TaskQueue_new (new_task 10 0 (KindWithContent.DumpCreation [] None)))
    BatchQueue_new ∅ ∅ 10.
Definition sample_processing : ProcessingTasks :=
  mkProcessingTasks (Some (ProcessingBatch_new 20 0)) {[1]} None.

Lemma authorized_batches_drop_task_ids_witness :
  0 ∈ get_kind (tasks sample_dump_queue) Kind.DumpCreation ∧
  0 ∉ (get_batch_ids_from_authorized_indexes 50 sample_dump_queue
         (with_index Query_default "movies") sample_filter sample_processing).1.
Proof.
  assert (Hk : 0 ∈ get_kind (tasks sample_dump_queue) Kind.DumpCreation) by (by vm_compute).
  split; [exact Hk|].
  apply (authorized_batches_drop_task_ids 50 sample_dump_queue (with_index Query_default "movies")
    sample_filter sample_processing Kind.DumpCreation 0); [by eexists | reflexivity | exact Hk].
Defined.

Lemma processing_batch_lost_by_started_at_witness :
  pt_batch sample_processing = Some (ProcessingBatch_new 20 0) ∧
  0 ∉ get_batch_ids 50 sample_dump_queue
    (mkQuery None None None None None None None None None None None None (Some 15) None None)
    sample_processing.
Proof.
  split; [reflexivity|].
  apply (processing_batch_lost_by_started_at 50 sample_dump_queue
    (mkQuery None None None None None None None None None None None None (Some 15) None None)
    sample_processing (ProcessingBatch_new 20 0) 15); try reflexivity.
  - by vm_compute.
  - intros d. unfold bm_get. simpl. rewrite lookup_empty. by vm_compute.
Defined.

Lemma keep_ids_before_epoch_witness :
  0 ∈ keep_ids_within_datetimes {[0]} {[10 := {[0]}]} None (Some (-1)).
Proof.
  apply (keep_ids_before_epoch {[0]} {[10 := {[0]}]} (-1) 10 0); [lia | | by vm_compute | by vm_compute].
  unfold valid_date. lia.
Defined.
End witnesses.
