(* ===== verification/CreateBatch.v ===== *)
(** * Creation of the next batch

    [crates/index-scheduler/src/scheduler/create_batch.rs]: the batches the
    scheduler processes, and the choice of the next one from the state of the
    queue. *)

From S2P Require Import Prelude TaskTypes DetailsView SchedUtils TaskQueue BatchQueue Queue Autobatcher.
Open Scope Z_scope.

(** ** Batches to process *)

Module DocumentOperation.
Inductive t :=
| Replace (content_file : Uuid)
| Update (content_file : Uuid)
| Delete (documents_ids : list string).
End DocumentOperation.

Module IndexOperation.
Section IndexOperation.
Context `{Externals}.

Inductive t :=
| DocumentOperation (index_uid : string) (primary_key : option string)
    (operations : list DocumentOperation.t) (tasks : list Task)
| DocumentEdition (index_uid : string) (task : Task)
| DocumentDeletion (index_uid : string) (tasks : list Task)
| DocumentClear (index_uid : string) (tasks : list Task)
| Settings (index_uid : string) (settings : list (bool * Settings)) (tasks : list Task)
| DocumentClearAndSetting (index_uid : string) (cleared_tasks : list Task)
    (settings : list (bool * TaskTypes.Settings)) (settings_tasks : list Task).

Definition index_uid (op : t) : string :=
  match op with
  | DocumentOperation i _ _ _ | DocumentEdition i _ | DocumentDeletion i _ | DocumentClear i _
  | Settings i _ _ | DocumentClearAndSetting i _ _ _ => i
  end.

(** The tasks of an operation. *)
Definition tasks (op : t) : list Task :=
  match op with
  | DocumentOperation _ _ _ tasks | Settings _ _ tasks | DocumentDeletion _ tasks
  | DocumentClear _ tasks => tasks
  | DocumentEdition _ task => [task]
  | DocumentClearAndSetting _ cleared _ other => cleared ++ other
  end.
End IndexOperation.
End IndexOperation.

Module SchedBatch.
Section SchedBatch.
Context `{Externals}.

(** The enum [Batch] of [create_batch.rs]. *)
Inductive t :=
| TaskCancelation (task : Task)
| TaskDeletions (tasks : list Task)
| SnapshotCreation (tasks : list Task)
| Dump (task : Task)
| IndexOperation (op : IndexOperation.t) (must_create_index : bool)
| IndexCreation (index_uid : string) (primary_key : option string) (task : Task)
| IndexUpdate (index_uid : string) (primary_key : option string) (task : Task)
| IndexDeletion (index_uid : string) (tasks : list Task) (index_has_been_created : bool)
| IndexSwap (task : Task)
| UpgradeDatabase (tasks : list Task).

(** The tasks of a batch, in the order [ids] reads them. *)
Definition tasks (b : t) : list Task :=
  match b with
  | TaskCancelation task | Dump task | IndexCreation _ _ task | IndexUpdate _ _ task
  | IndexSwap task => [task]
  | SnapshotCreation tasks | TaskDeletions tasks | UpgradeDatabase tasks
  | IndexDeletion _ tasks _ => tasks
  | IndexOperation op _ => IndexOperation.tasks op
  end.

(** [Batch::ids]. *)
Definition ids (b : t) : bitmap := list_to_set (uid <$> tasks b).

(** [Batch::index_uid]. *)
Definition index_uid (b : t) : option string :=
  match b with
  | TaskCancelation _ | TaskDeletions _ | SnapshotCreation _ | Dump _ | UpgradeDatabase _
  | IndexSwap _ => None
  | IndexOperation op _ => Some (IndexOperation.index_uid op)
  | IndexCreation index_uid _ _ | IndexUpdate index_uid _ _ | IndexDeletion index_uid _ _ =>
      Some index_uid
  end.
End SchedBatch.
End SchedBatch.

(** ** What the scheduler reads besides the queue

    The index mapper answers whether an index exists and which primary key it
    has; the update files have a size. *)

Record SchedulerEnv := mkSchedulerEnv {
  autobatching_enabled : bool;
  max_number_of_batched_tasks : Z;
  batched_tasks_size_limit : Z;
  db_version : option (Z * Z * Z);
  index_exists : string → bool;
  index_primary_key : string → option string;
}.

Section create_batch.
Context `{Externals}.

(** ** From an autobatch to a batch *)

(** The primary key of the first import, [unreachable!] on another kind. *)
Fixpoint find_primary_key (tasks : list Task) : outcome Error (option string) :=
  match tasks with
  | [] => Ok None
  | task :: tasks =>
      match kind task with
      | KindWithContent.DocumentAdditionOrUpdate _ primary_key _ _ _ _ => Ok primary_key
      | KindWithContent.DocumentDeletion _ _ => find_primary_key tasks
      | _ => Panic
      end
  end.

Definition document_operation (task : Task) : outcome Error DocumentOperation.t :=
  match kind task with
  | KindWithContent.DocumentAdditionOrUpdate _ _ method content_file _ _ =>
      Ok (match method with
          | IndexDocumentsMethod.ReplaceDocuments => DocumentOperation.Replace content_file
          | IndexDocumentsMethod.UpdateDocuments => DocumentOperation.Update content_file
          end)
  | KindWithContent.DocumentDeletion _ documents_ids => Ok (DocumentOperation.Delete documents_ids)
  | _ => Panic
  end.

Definition settings_operation (task : Task) : outcome Error (bool * Settings) :=
  match kind task with
  | KindWithContent.SettingsUpdate _ new_settings is_deletion _ => Ok (is_deletion, new_settings)
  | _ => Panic
  end.

(** Read one task and add it to the batch. *)
Definition get_one_task (q : Queue) (current_batch : ProcessingBatch) (id : TaskId)
    : outcome Error (Task * ProcessingBatch) :=
  task ← ok_or CorruptedTaskQueue (get_task (tasks q) id);
  let '(current_batch, task) := processing_one current_batch task in
  Ok (task, current_batch).

(** The [Settings] branch of [create_next_batch_index]. *)
Definition settings_batch (q : Queue) (index_uid : string) (settings_ids : list TaskId)
    (current_batch : ProcessingBatch)
    : outcome Error (list (bool * Settings) * list Task * ProcessingBatch) :=
  '(tasks, current_batch) ← get_existing_tasks_for_processing_batch q current_batch settings_ids;
  settings ← collect settings_operation tasks;
  Ok (settings, tasks, current_batch).

(** [create_next_batch_index]; the recursive calls of the [ClearAndSettings]
    branch are those of the [Settings] and [DocumentClear] branches. *)
Definition create_next_batch_index (q : Queue) (index_uid : string) (batch : BatchKind.t)
    (current_batch : ProcessingBatch) (must_create_index : bool)
    : outcome Error (SchedBatch.t * ProcessingBatch) :=
  match batch with
  | BatchKind.DocumentClear ids =>
      '(tasks, current_batch) ← get_existing_tasks_for_processing_batch q current_batch ids;
      Ok (SchedBatch.IndexOperation (IndexOperation.DocumentClear index_uid tasks)
            must_create_index, current_batch)
  | BatchKind.DocumentEdition id =>
      '(task, current_batch) ← get_one_task q current_batch id;
      match kind task with
      | KindWithContent.DocumentEdition index_uid _ _ _ =>
          Ok (SchedBatch.IndexOperation (IndexOperation.DocumentEdition index_uid task) false,
              current_batch)
      | _ => Panic
      end
  | BatchKind.DocumentOperation _ _ operation_ids =>
      '(tasks, current_batch) ← get_existing_tasks_for_processing_batch q current_batch operation_ids;
      primary_key ← find_primary_key tasks;
      operations ← collect document_operation tasks;
      Ok (SchedBatch.IndexOperation
            (IndexOperation.DocumentOperation index_uid primary_key operations tasks)
            must_create_index, current_batch)
  | BatchKind.DocumentDeletion deletion_ids _ =>
      '(tasks, current_batch) ← get_existing_tasks_for_processing_batch q current_batch deletion_ids;
      Ok (SchedBatch.IndexOperation (IndexOperation.DocumentDeletion index_uid tasks)
            must_create_index, current_batch)
  | BatchKind.Settings _ settings_ids =>
      '(settings, tasks, current_batch) ← settings_batch q index_uid settings_ids current_batch;
      Ok (SchedBatch.IndexOperation (IndexOperation.Settings index_uid settings tasks)
            must_create_index, current_batch)
  | BatchKind.ClearAndSettings other _ settings_ids =>
      '(settings, settings_tasks, current_batch) ←
        settings_batch q index_uid settings_ids current_batch;
      '(cleared_tasks, current_batch) ←
        get_existing_tasks_for_processing_batch q current_batch other;
      Ok (SchedBatch.IndexOperation
            (IndexOperation.DocumentClearAndSetting index_uid cleared_tasks settings settings_tasks)
            must_create_index, current_batch)
  | BatchKind.IndexCreation id =>
      '(task, current_batch) ← get_one_task q current_batch id;
      match kind task with
      | KindWithContent.IndexCreation index_uid primary_key =>
          Ok (SchedBatch.IndexCreation index_uid primary_key task, current_batch)
      | _ => Panic
      end
  | BatchKind.IndexUpdate id =>
      '(task, current_batch) ← get_one_task q current_batch id;
      match kind task with
      | KindWithContent.IndexUpdate _ primary_key =>
          Ok (SchedBatch.IndexUpdate index_uid primary_key task, current_batch)
      | _ => Panic
      end
  | BatchKind.IndexDeletion ids =>
      '(tasks, current_batch) ← get_existing_tasks_for_processing_batch q current_batch ids;
      Ok (SchedBatch.IndexDeletion index_uid tasks must_create_index, current_batch)
  | BatchKind.IndexSwap id =>
      '(task, current_batch) ← get_one_task q current_batch id;
      Ok (SchedBatch.IndexSwap task, current_batch)
  end.

(** ** The next batch *)

(** The loop that collects the tasks of an index: at most [tasks_limit] of them,
    and no more than [size_limit] bytes of update files unless the first one
    alone exceeds it.  [enqueued] is in the order of the pushes. *)
Fixpoint collect_index_tasks (not_found : ForeignError) (q : Queue) (tasks_limit size_limit : Z)
    (ids : list TaskId) (enqueued : list (TaskId * KindWithContent.t)) (total_size : Z)
    : outcome Error (list (TaskId * KindWithContent.t) * BatchStopReason.t) :=
  match ids with
  | [] => Ok (enqueued, BatchStopReason.Unspecified)
  | task_id :: ids =>
      if tasks_limit <=? Z.of_nat (length enqueued)
      then Ok (enqueued, BatchStopReason.ReachedTaskLimit tasks_limit)
      else
        task ← ok_or CorruptedTaskQueue (get_task (tasks q) task_id);
        total_size ←
          match content_uuid task with
          | Some uuid =>
              content_size ← ok_or (FileStore not_found) (file_store q !! uuid);
              Ok (u64_saturating_add total_size content_size)
          | None => Ok total_size
          end;
        if (size_limit <? total_size) && negb (bool_decide (enqueued = []))
        then Ok (enqueued, BatchStopReason.ReachedSizeLimit size_limit total_size)
        else collect_index_tasks not_found q tasks_limit size_limit ids
               (enqueued ++ [(uid task, kind task)]) total_size
  end.

Definition with_uid (b : ProcessingBatch) (uid : BatchId) : ProcessingBatch :=
  mkProcessingBatch uid (pb_details b) (pb_stats b) (pb_statuses b) (pb_kinds b) (pb_indexes b)
    (pb_canceled_by b) (pb_enqueued_at b) (pb_started_at b) (pb_finished_at b) (pb_reason b).

(** The batches of a whole kind: deletions and snapshots. *)
Definition kind_batch (q : Queue) (current_batch : ProcessingBatch) (k : Kind.t) (ids : bitmap)
    (mk : list Task → SchedBatch.t) : outcome Error (option (SchedBatch.t * ProcessingBatch)) :=
  ts ← get_existing_tasks (tasks q) (bm_iter ids);
  let '(current_batch, ts) := processing current_batch ts in
  Ok (Some (mk ts, set_reason current_batch (BatchStopReason.TaskKindCannotBeBatched k))).

(** The last step: the tasks of the index of the next enqueued task. *)
Definition create_index_batch (not_found : ForeignError) (env : SchedulerEnv) (q : Queue)
    (current_batch : ProcessingBatch) (enqueued : bitmap) (index_name : string)
    : outcome Error (option (SchedBatch.t * ProcessingBatch)) :=
  let index_already_exists := index_exists env index_name in
  let primary_key := if index_already_exists then index_primary_key env index_name else None in
  let index_tasks := index_tasks (tasks q) index_name ∩ enqueued in
  let tasks_limit := if autobatching_enabled env then max_number_of_batched_tasks env else 1 in
  '(collected, stop_reason) ←
    collect_index_tasks not_found q tasks_limit (batched_tasks_size_limit env) (bm_iter index_tasks) [] 0;
  let stop_reason := BatchStopReason.replace_unspecified stop_reason
    (if Z.of_nat (length collected) =? bm_len enqueued
     then BatchStopReason.ExhaustedEnqueuedTasks
     else BatchStopReason.ExhaustedEnqueuedTasksForIndex index_name) in
  autobatch ← autobatch collected index_already_exists primary_key;
  match autobatch with
  | Some (batchkind, create_index, autobatch_stop_reason) =>
      let current_batch := set_reason current_batch (default stop_reason autobatch_stop_reason) in
      '(batch, current_batch) ←
        create_next_batch_index q index_name batchkind current_batch create_index;
      Ok (Some (batch, current_batch))
  | None => Ok None
  end.

(** [create_next_batch]. *)
Definition create_next_batch (not_found : ForeignError) (now : DateTime) (env : SchedulerEnv)
    (q : Queue) : outcome Error (option (SchedBatch.t * ProcessingBatch)) :=
  let batch_id := next_batch_id (batches q) in
  let current_batch := ProcessingBatch_new now batch_id in
  let enqueued := get_status (tasks q) Status.Enqueued in
  let failed := get_status (tasks q) Status.Failed in
  (* 0. the last task to cancel *)
  match bm_max (get_kind (tasks q) Kind.TaskCancelation ∩ enqueued) with
  | Some task_id =>
      '(task, current_batch) ← get_one_task q current_batch task_id;
      Ok (Some (SchedBatch.TaskCancelation task,
        set_reason current_batch (BatchStopReason.TaskCannotBeBatched Kind.TaskCancelation task_id)))
  | None =>
  (* 1. the upgrade of the instance *)
  let upgrade := get_kind (tasks q) Kind.UpgradeDatabase ∩ (enqueued ∪ failed) in
  if negb (bm_is_empty upgrade) then
    ts ← get_existing_tasks (tasks q) (bm_iter upgrade);
    last_task ← unwrap (last ts);
    let current_batch :=
      match batch_uid last_task with Some b => with_uid current_batch b | None => current_batch end in
    let '(current_batch, ts) := processing current_batch ts in
    Ok (Some (SchedBatch.UpgradeDatabase ts,
      set_reason current_batch (BatchStopReason.TaskKindCannotBeBatched Kind.UpgradeDatabase)))
  else
  (* the version of the scheduler *)
  if negb (bool_decide (db_version env = Some VERSION)) then
    Err (UnrecoverableError (IndexSchedulerVersionMismatch (default (1, 12, 0) (db_version env)) VERSION))
  else
  (* 2. the deletions *)
  let to_delete := get_kind (tasks q) Kind.TaskDeletion ∩ enqueued in
  if negb (bm_is_empty to_delete) then
    kind_batch q current_batch Kind.TaskDeletion to_delete SchedBatch.TaskDeletions
  else
  (* 3. the snapshots *)
  let to_snapshot := get_kind (tasks q) Kind.SnapshotCreation ∩ enqueued in
  if negb (bm_is_empty to_snapshot) then
    kind_batch q current_batch Kind.SnapshotCreation to_snapshot SchedBatch.SnapshotCreation
  else
  (* 4. the dumps *)
  match bm_min (get_kind (tasks q) Kind.DumpCreation ∩ enqueued) with
  | Some to_dump =>
      '(task, current_batch) ← get_one_task q current_batch to_dump;
      Ok (Some (SchedBatch.Dump task,
        set_reason current_batch (BatchStopReason.TaskCannotBeBatched Kind.DumpCreation (uid task))))
  | None =>
  (* 5. the unprioritised tasks *)
  match bm_min enqueued with
  | None => Ok None
  | Some task_id =>
      task ← ok_or CorruptedTaskQueue (get_task (tasks q) task_id);
      match head (Task_indexes task) with
      | Some index_name => create_index_batch not_found env q current_batch enqueued index_name
      | None =>
          match kind task with
          | KindWithContent.IndexSwap [] =>
              let '(current_batch, task) := processing_one current_batch task in
              Ok (Some (SchedBatch.IndexSwap task,
                set_reason current_batch (BatchStopReason.TaskCannotBeBatched Kind.IndexSwap (uid task))))
          | _ => Panic
          end
      end
  end
  end
  end.
End create_batch.

(** ** Reading the tasks of a batch *)

Section read_facts.
Context `{Externals}.

(** The stored task [id], assigned to the batch [b]. *)
Definition assigned (q : Queue) (b : BatchId) (id : TaskId) : option Task :=
  (λ t, with_batch_uid t (Some b)) <$> get_task (tasks q) id.

Lemma processing_one_uid pb t :
  pb_uid (processing_one pb t).1 = pb_uid pb ∧
  (processing_one pb t).2 = with_batch_uid t (Some (pb_uid pb)).
Proof. done. Qed.

Lemma get_existing_for_batch_Ok q ids : ∀ pb,
  (∀ id, id ∈ ids → is_Some (all_tasks (tasks q) !! id)) →
  ∃ pb', get_existing_tasks_for_processing_batch q pb ids =
    Ok (omap (assigned q (pb_uid pb)) ids, pb') ∧ pb_uid pb' = pb_uid pb.
Proof.
  induction ids as [|id ids IH]; intros pb Hids; [by exists pb|].
  cbn [get_existing_tasks_for_processing_batch omap list_omap].
  destruct (Hids id) as [t Ht]; [by left|].
  unfold assigned at 1, get_task. rewrite Ht. cbn [ok_or mbind outcome_bind fmap option_fmap option_map].
  destruct (processing_one_uid pb t) as [Hu Ht']. destruct (processing_one pb t) as [pb1 t1]. simpl in *.
  destruct (IH pb1) as (pb' & -> & Hu'); [by intros; apply Hids; right|]. simpl.
  exists pb'. subst t1. rewrite Hu'. by rewrite Hu.
Qed.

Lemma get_one_task_Ok q pb id t :
  all_tasks (tasks q) !! id = Some t →
  ∃ pb', get_one_task q pb id = Ok (with_batch_uid t (Some (pb_uid pb)), pb') ∧ pb_uid pb' = pb_uid pb.
Proof.
  intros Ht. unfold get_one_task, get_task. rewrite Ht. cbn [ok_or mbind outcome_bind].
  eexists. split; [done|]. done.
Qed.

Lemma omap_assigned_kinds q b (stored : list Task) :
  Forall (λ t, all_tasks (tasks q) !! uid t = Some t) stored →
  omap (assigned q b) (uid <$> stored) = (λ t, with_batch_uid t (Some b)) <$> stored.
Proof.
  induction 1 as [|t stored Ht _ IH]; [done|]. simpl. unfold assigned at 1, get_task. rewrite Ht. simpl.
  f_equal. exact IH.
Qed.

End read_facts.

(** ** From an autobatch to a batch, without panic *)

Section batch_index_facts.
Context `{Externals}.
Context (q : Queue) (stored : list Task) (pb : ProcessingBatch).

Abbreviation done := ((λ t, (uid t, kind t)) <$> stored).
Abbreviation assigned_stored := ((λ t, with_batch_uid t (Some (pb_uid pb))) <$> stored).

Hypothesis Hstored : Forall (λ t, all_tasks (tasks q) !! uid t = Some t) stored.

Lemma done_ids : done.*1 = uid <$> stored.
Proof. by rewrite <-list_fmap_compose. Qed.

Lemma read_done : ∃ pb', get_existing_tasks_for_processing_batch q pb done.*1 =
  Ok (assigned_stored, pb') ∧ pb_uid pb' = pb_uid pb.
Proof.
  rewrite done_ids. rewrite <-(omap_assigned_kinds q (pb_uid pb) stored Hstored).
  apply get_existing_for_batch_Ok. intros id (t & -> & Ht)%list_elem_of_fmap.
  rewrite Forall_forall in Hstored. rewrite (Hstored _ Ht). eauto.
Qed.

Lemma all_kinds_stored p : all_kinds p done → Forall (λ t, p (kind t) = true) assigned_stored.
Proof. unfold all_kinds. rewrite !Forall_fmap. done. Qed.

(** Any list of ids of stored tasks. *)
Lemma read_permuted ids : ids ≡ₚ done.*1 →
  ∃ l pb', get_existing_tasks_for_processing_batch q pb ids = Ok (l, pb') ∧
    l ≡ₚ assigned_stored ∧ pb_uid pb' = pb_uid pb.
Proof.
  intros Hids. destruct (get_existing_for_batch_Ok q ids pb) as (pb' & Hr & Hu).
  { intros id. rewrite Hids, done_ids. intros (t & -> & Ht)%list_elem_of_fmap.
    rewrite Forall_forall in Hstored. rewrite (Hstored _ Ht). eauto. }
  eexists _, pb'. split; [done|]. split; [|done].
  by rewrite Hids, done_ids, omap_assigned_kinds.
Qed.

Lemma find_primary_key_Ok l :
  Forall (λ t, is_import (kind t) || is_deletion (kind t) = true) l → ∃ pk, find_primary_key l = Ok pk.
Proof.
  induction 1 as [|t l Ht _ IH]; simpl; [by eauto|]. destruct (kind t); try done; by eauto.
Qed.

Lemma document_operations_Ok l :
  Forall (λ t, is_import (kind t) || is_deletion (kind t) = true) l →
  ∃ ops, collect document_operation l = Ok ops.
Proof.
  intros Hl. apply collect_total. eapply Forall_impl; [exact Hl|]. intros t Ht.
  simpl in Ht. unfold document_operation. destruct (kind t); try done; by eauto.
Qed.

Lemma settings_operations_Ok l :
  Forall (λ t, is_settings (kind t) = true) l → ∃ ops, collect settings_operation l = Ok ops.
Proof.
  intros Hl. apply collect_total. eapply Forall_impl; [exact Hl|]. intros t Ht.
  simpl in Ht. unfold settings_operation. destruct (kind t); try done; by eauto.
Qed.

Lemma only_task_stored p id :
  only_task p id done → ∃ t, stored = [t] ∧ uid t = id ∧ p (kind t) = true ∧
    all_tasks (tasks q) !! id = Some t.
Proof.
  intros (k & Hd & Hp). destruct stored as [|t [|]]; simplify_eq/=.
  inversion_clear Hstored. eauto.
Qed.
End batch_index_facts.

(** The tasks of a batch of settings and other tasks. *)
Section clear_and_settings.
Context `{Externals}.

Lemma filter_done_fmap (P : KindWithContent.t → Prop)
    (D1 : ∀ x : TaskId * KindWithContent.t, Decision (P x.2)) (D2 : ∀ t, Decision (P (kind t)))
    (stored : list Task) :
  filter (λ x : TaskId * KindWithContent.t, P x.2) ((λ t, (uid t, kind t)) <$> stored) =
  (λ t, (uid t, kind t)) <$> filter (λ t, P (kind t)) stored.
Proof.
  induction stored as [|t l IH]; [done|]. rewrite fmap_cons, !filter_cons. simpl.
  repeat case_decide; simpl in *; try done. f_equal. exact IH.
Qed.

Lemma settings_batch_Ok q i (stored : list Task) pb ids :
  Forall (λ t, all_tasks (tasks q) !! uid t = Some t) stored →
  Forall (λ t, is_settings (kind t) = true) stored → ids = uid <$> stored →
  ∃ settings pb', settings_batch q i ids pb =
    Ok (settings, (λ t, with_batch_uid t (Some (pb_uid pb))) <$> stored, pb') ∧ pb_uid pb' = pb_uid pb.
Proof.
  intros Hst Hk ->. unfold settings_batch. destruct (read_done q stored pb Hst) as (pb' & Hr & Hu).
  rewrite done_ids in Hr. rewrite Hr. cbn [mbind outcome_bind].
  destruct (settings_operations_Ok ((λ t, with_batch_uid t (Some (pb_uid pb))) <$> stored)) as [ops ->].
  { by rewrite Forall_fmap. }
  by exists ops, pb'.
Qed.

(** A batch of the autobatcher made of stored tasks is
    turned into a batch of exactly these tasks. *)
Lemma create_next_batch_index_Ok q i b (stored : list Task) pb create :
  Forall (λ t, all_tasks (tasks q) !! uid t = Some t) stored →
  BatchInv ((λ t, (uid t, kind t)) <$> stored) b →
  ∃ batch pb', create_next_batch_index q i b pb create = Ok (batch, pb') ∧
    SchedBatch.tasks batch ≡ₚ (λ t, with_batch_uid t (Some (pb_uid pb))) <$> stored ∧
    pb_uid pb' = pb_uid pb.
Proof.
  intros Hst Hinv. destruct (read_done q stored pb Hst) as (pb' & Hr & Hu).
  destruct b as [ids|? ? ids|id|ids ?|other ? sids|? ids|ids|id|id|id]; simpl in Hinv.
  - destruct Hinv as [-> _]. simpl. rewrite Hr. by eexists _, pb'.
  - destruct Hinv as (-> & Hk & _). simpl. rewrite Hr. cbn [mbind outcome_bind].
    apply (all_kinds_stored stored pb) in Hk.
    destruct (find_primary_key_Ok _ Hk) as [pk ->]. cbn [mbind outcome_bind].
    destruct (document_operations_Ok _ Hk) as [ops ->]. by eexists _, pb'.
  - apply (only_task_stored q stored Hst) in Hinv as (t & -> & Hid & Hk & Ht). simpl.
    destruct (get_one_task_Ok q pb id t Ht) as (pb1 & -> & Hu1). simpl.
    destruct (kind t); try done. by eexists _, pb1.
  - destruct Hinv as (-> & _). simpl. rewrite Hr. by eexists _, pb'.
  - destruct Hinv as (Hs & Ho & _). cbn [create_next_batch_index].
    set (st := filter (λ t, is_settings (kind t) = true) stored).
    set (ot := filter (λ t, ¬ is_settings (kind t) = true) stored).
    assert (sids = uid <$> st) as ->.
    { rewrite Hs, <-(done_ids st). apply f_equal, (filter_done_fmap (λ k, is_settings k = true)). }
    assert (other = uid <$> ot) as ->.
    { rewrite Ho, <-(done_ids ot). apply f_equal, (filter_done_fmap (λ k, ¬ is_settings k = true)). }
    assert (Hsub : ∀ P (HP : ∀ t : Task, Decision (P t)), Forall (λ t, all_tasks (tasks q) !! uid t = Some t) (filter P stored)).
    { intros P HP. rewrite Forall_forall in Hst |- *. intros t [_ Ht]%list_elem_of_filter. by apply Hst. }
    destruct (settings_batch_Ok q i st pb (uid <$> st) (Hsub _ _)) as (ops & pb1 & -> & Hu1); [|done|].
    { apply Forall_forall. intros t Ht. apply list_elem_of_filter in Ht. tauto. }
    cbn [mbind outcome_bind]. destruct (read_done q ot pb1 (Hsub _ _)) as (pb2 & Hr2 & Hu2).
    rewrite done_ids in Hr2. rewrite Hr2. cbn [mbind outcome_bind].
    eexists _, pb2. split; [done|]. simpl. rewrite Hu2, Hu1. split; [|done].
    rewrite <-fmap_app. apply fmap_Permutation. rewrite (comm (++)). apply filter_partition_Permutation.
  - destruct Hinv as (-> & Hk). simpl.
    destruct (settings_batch_Ok q i stored pb ((λ t, (uid t, kind t)) <$> stored).*1 Hst)
      as (ops & pb1 & -> & Hu1); [|by rewrite done_ids|by eexists _, pb1].
    unfold all_kinds in Hk. by rewrite Forall_fmap in Hk.
  - destruct Hinv as (Hids & _). simpl.
    destruct (read_permuted q stored pb Hst ids Hids) as (l & pb1 & -> & Hl & Hu1). by eexists _, pb1.
  - apply (only_task_stored q stored Hst) in Hinv as (t & -> & Hid & Hk & Ht). simpl.
    destruct (get_one_task_Ok q pb id t Ht) as (pb1 & -> & Hu1). simpl.
    destruct (kind t); try done. by eexists _, pb1.
  - apply (only_task_stored q stored Hst) in Hinv as (t & -> & Hid & Hk & Ht). simpl.
    destruct (get_one_task_Ok q pb id t Ht) as (pb1 & -> & Hu1). simpl.
    destruct (kind t); try done. by eexists _, pb1.
  - apply (only_task_stored q stored Hst) in Hinv as (t & -> & Hid & Hk & Ht). simpl.
    destruct (get_one_task_Ok q pb id t Ht) as (pb1 & -> & Hu1). simpl. by eexists _, pb1.
Qed.
End clear_and_settings.

(** ** The choice of the next batch *)

Section next_batch.
Context `{Externals}.

(** The tasks the scheduler may pick: the enqueued ones, and the upgrades that
    failed, which are retried. *)
Definition pending (q : Queue) (t : Task) : Prop :=
  all_tasks (tasks q) !! uid t = Some t ∧
  (status t = Status.Enqueued ∨ status t = Status.Failed ∧ task_kind t = Kind.UpgradeDatabase).

(** The order in which kinds are served. *)
Definition priority (t : Task) : Z :=
  match task_kind t with
  | Kind.TaskCancelation => 0
  | Kind.UpgradeDatabase => 1
  | Kind.TaskDeletion => 2
  | Kind.SnapshotCreation => 3
  | Kind.DumpCreation => 4
  | _ => 5
  end.

(** The class of a kind. *)
Ltac class_kind := intros t; unfold priority; by destruct (task_kind t).

(** The newest of the cancelations, the oldest of another class. *)
Definition first_served (q : Queue) (t : Task) : Prop :=
  ∀ t', pending q t' → priority t' = priority t →
    if decide (priority t = 0) then uid t' ≤ uid t else uid t ≤ uid t'.

(** A batch made of [stored], of which [t] had to be served first. *)
Record good_batch (q : Queue) (b : SchedBatch.t) (pb : ProcessingBatch) (stored : list Task) (t : Task)
    : Prop := {
  gb_tasks : SchedBatch.tasks b ≡ₚ (λ t, with_batch_uid t (Some (pb_uid pb))) <$> stored;
  gb_pending : Forall (pending q) stored;
  gb_nodup : NoDup (uid <$> stored);
  gb_in : t ∈ stored;
  gb_first : first_served q t;
  gb_priority : ∀ t1 t2, t1 ∈ stored → pending q t2 → priority t1 ≤ priority t2;
}.

Section facts.
Context (q : Queue).
Hypothesis Hwf : tq_wf (tasks q).

Lemma elem_of_kind_status k s id :
  id ∈ get_kind (tasks q) k ∩ get_status (tasks q) s ↔
  ∃ t, all_tasks (tasks q) !! id = Some t ∧ task_kind t = k ∧ status t = s.
Proof.
  unfold get_kind, get_status.
  rewrite elem_of_intersection, (wf_kind _ Hwf k id), (wf_status _ Hwf s id).
  unfold has_kind, has_status. naive_solver.
Qed.

Lemma stored_of_ids (l : list TaskId) :
  (∀ id, id ∈ l → is_Some (all_tasks (tasks q) !! id)) →
  ∃ stored, l = uid <$> stored ∧ Forall (λ t, all_tasks (tasks q) !! uid t = Some t) stored.
Proof.
  induction l as [|id l IH]; intros Hl; [by exists []|].
  destruct (Hl id) as [t Ht]; [by left|]. destruct IH as (st & -> & Hst); [by intros; apply Hl; right|].
  exists (t :: st). pose proof (wf_uid _ Hwf _ _ Ht). subst. split; [done|]. by constructor.
Qed.

Lemma get_existing_stored stored :
  Forall (λ t, all_tasks (tasks q) !! uid t = Some t) stored →
  get_existing_tasks (tasks q) (uid <$> stored) = Ok stored.
Proof.
  intros Hst. apply collect_Ok. rewrite Forall2_fmap_l. apply Forall_Forall2_diag.
  eapply Forall_impl; [exact Hst|]. intros t Ht. unfold get_task. simpl in *. by rewrite Ht.
Qed.

(** The ids of a bitmap of tasks, read in increasing order. *)
Lemma stored_of_bitmap (b : bitmap) :
  (∀ id, id ∈ b → is_Some (all_tasks (tasks q) !! id)) →
  ∃ stored, bm_iter b = uid <$> stored ∧ Forall (λ t, all_tasks (tasks q) !! uid t = Some t) stored ∧
    NoDup (uid <$> stored) ∧ (∀ t, all_tasks (tasks q) !! uid t = Some t → t ∈ stored ↔ uid t ∈ b) ∧
    (stored = [] ↔ b = ∅).
Proof.
  intros Hb. destruct (stored_of_ids (bm_iter b)) as (st & Heq & Hst).
  { intros id Hid%elem_of_bm_iter. by apply Hb. }
  exists st. split; [done|]. split; [done|]. rewrite <-Heq. split; [apply NoDup_bm_iter|]. split.
  - intros t Ht. rewrite <-elem_of_bm_iter, Heq, list_elem_of_fmap. split; [by eauto|].
    intros (t' & Hu & Ht'). rewrite Forall_forall in Hst. specialize (Hst _ Ht').
    rewrite <-Hu, Ht in Hst. by simplify_eq.
  - rewrite <-bm_min_None. unfold bm_min. rewrite Heq. by destruct st.
Qed.

(** A batch of all the pending tasks of a class. *)
Lemma good_batch_class (ids : bitmap) (b : SchedBatch.t) pb stored :
  bm_iter ids = uid <$> stored → Forall (λ t, all_tasks (tasks q) !! uid t = Some t) stored →
  stored ≠ [] →
  (∀ t, all_tasks (tasks q) !! uid t = Some t → t ∈ stored ↔ uid t ∈ ids) →
  SchedBatch.tasks b ≡ₚ (λ t, with_batch_uid t (Some (pb_uid pb))) <$> stored →
  (∀ t, t ∈ stored → pending q t ∧ priority t ≠ 0 ∧ ∀ t', pending q t' → priority t ≤ priority t' ∧
     (priority t' = priority t → uid t' ∈ ids)) →
  ∃ t, good_batch q b pb stored t.
Proof.
  intros Hit Hst Hne Hin Hb Hall. destruct stored as [|t st]; [done|]. exists t. constructor.
  - done.
  - apply Forall_forall. intros t' Ht'. by apply Hall.
  - rewrite <-Hit. apply NoDup_bm_iter.
  - by left.
  - intros t' Hp Hpr. destruct (Hall t) as (_ & Hn0 & Hmin); [by left|].
    rewrite decide_False by done. destruct (Hmin t' Hp) as [_ Hid]. specialize (Hid Hpr).
    assert (bm_min ids = Some (uid t)) as Hm by (unfold bm_min; by rewrite Hit).
    apply bm_min_Some in Hm as [_ Hle]. by apply Hle.
  - intros t1 t2 Ht1 Hp. by apply Hall.
Qed.

(** No pending task of a kind. *)
Definition no_pending (k : Kind.t) : Prop := ∀ t, pending q t → task_kind t ≠ k.

Lemma no_pending_enqueued k :
  k ≠ Kind.UpgradeDatabase →
  get_kind (tasks q) k ∩ get_status (tasks q) Status.Enqueued = ∅ → no_pending k.
Proof.
  intros Hk He t [Ht [Hs|[_ ?]]] Hkt; [|congruence].
  apply (not_elem_of_empty (C:=bitmap) (uid t)). rewrite <-He. apply elem_of_kind_status. eauto.
Qed.

Definition upgrades : bitmap :=
  get_kind (tasks q) Kind.UpgradeDatabase ∩
  (get_status (tasks q) Status.Enqueued ∪ get_status (tasks q) Status.Failed).

Lemma elem_of_upgrades id :
  id ∈ upgrades ↔ ∃ t, all_tasks (tasks q) !! id = Some t ∧ task_kind t = Kind.UpgradeDatabase ∧
    (status t = Status.Enqueued ∨ status t = Status.Failed).
Proof.
  unfold upgrades. rewrite intersection_union_l_L, elem_of_union, !elem_of_kind_status. naive_solver.
Qed.

Lemma no_pending_upgrades : upgrades = ∅ → no_pending Kind.UpgradeDatabase.
Proof.
  intros He t [Ht Hs] Hkt. apply (not_elem_of_empty (C:=bitmap) (uid t)). rewrite <-He.
  apply elem_of_upgrades. exists t. naive_solver.
Qed.

(** The classes before [n] are empty. *)
Definition classes_before (n : Z) : Prop := ∀ t, pending q t → n ≤ priority t.

Lemma classes_before_0 : classes_before 0.
Proof. intros t _. unfold priority. by destruct (task_kind t). Qed.

Lemma classes_before_next n k :
  classes_before n → no_pending k → (∀ t, priority t = n → task_kind t = k) → classes_before (n + 1).
Proof.
  intros Hn Hk Hp t Ht. specialize (Hn t Ht). specialize (Hk t Ht). specialize (Hp t).
  destruct (decide (priority t = n)) as [Heq|]; [|lia]. by specialize (Hp Heq).
Qed.

Lemma processing_tasks pb ts :
  (processing pb ts).2 = (λ t, with_batch_uid t (Some (pb_uid pb))) <$> ts ∧
  pb_uid (processing pb ts).1 = pb_uid pb.
Proof. apply processing_uids. Qed.

Lemma kind_batch_good k mk pb n :
  k ≠ Kind.UpgradeDatabase → (∀ ts, SchedBatch.tasks (mk ts) = ts) →
  n ≠ 0 → (∀ t, task_kind t = k ↔ priority t = n) → classes_before n →
  let ids := get_kind (tasks q) k ∩ get_status (tasks q) Status.Enqueued in
  ids ≠ ∅ →
  ∃ b pb' stored t, kind_batch q pb k ids mk = Ok (Some (b, pb')) ∧ good_batch q b pb' stored t.
Proof.
  intros Hk Hmk Hn Hkp Hcl ids Hne.
  destruct (stored_of_bitmap ids) as (st & Hit & Hst & _ & Hin & Hemp).
  { intros id (t & ? & _)%elem_of_kind_status. eauto. }
  unfold kind_batch. rewrite Hit, get_existing_stored by done. cbn [mbind outcome_bind].
  destruct (processing_tasks pb st) as [H2 H1]. destruct (processing pb st) as [pb' ts]. simpl in *.
  destruct (good_batch_class ids (mk ts) (set_reason pb' (BatchStopReason.TaskKindCannotBeBatched k)) st)
    as [t Ht]; try done.
  - tauto.
  - rewrite Hmk, H2. simpl. by rewrite H1.
  - intros t Ht. assert (Hta : all_tasks (tasks q) !! uid t = Some t) by (rewrite Forall_forall in Hst; auto).
    apply (Hin t Hta), elem_of_kind_status in Ht as (t' & Ht' & Hkt & Hs). rewrite Hta in Ht'. simplify_eq.
    assert (priority t' = n) as Hp by (by apply Hkp). split; [by split; [|left]|].
    rewrite Hp. split; [done|]. intros t2 Ht2. split; [by apply Hcl|]. intros Hp2.
    apply elem_of_kind_status. destruct Ht2 as [Ht2 Hs2]. exists t2. split; [done|].
    apply Hkp in Hp2. split; [done|]. destruct Hs2 as [?|[_ ?]]; [done|congruence].
  - eexists _, _, st, t. split; [done|]. done.
Qed.

(** The update files of the enqueued tasks are in the store. *)
Definition files_present : Prop := ∀ t u, pending q t → content_uuid t = Some u →
  is_Some (file_store q !! u).

Lemma collect_index_tasks_Ok nf limit size stored :
  files_present → Forall (pending q) stored →
  ∀ acc total, ∃ n reason,
    collect_index_tasks nf q limit size (uid <$> stored) acc total =
      Ok (acc ++ ((λ t, (uid t, kind t)) <$> take n stored), reason) ∧
    (acc = [] → 1 ≤ limit → stored ≠ [] → n ≠ 0%nat).
Proof.
  intros Hfiles Hst. induction Hst as [|t st Ht Hst IH]; intros acc total.
  { exists 0%nat. eexists. simpl. by rewrite app_nil_r. }
  cbn [fmap list_fmap collect_index_tasks].
  destruct (Z.leb_spec limit (Z.of_nat (length acc))).
  { exists 0%nat. eexists. simpl. rewrite app_nil_r. split; [done|]. intros ->. simpl in *. lia. }
  unfold get_task. rewrite (proj1 Ht). cbn [ok_or mbind outcome_bind].
  assert (Hsz : ∃ total', match content_uuid t with
    | Some uuid => mbind (λ c, Ok (u64_saturating_add total c)) (ok_or (FileStore nf) (file_store q !! uuid))
    | None => Ok total end = Ok (E:=Error) total').
  { destruct (content_uuid t) as [u|] eqn:Hu; [|by eauto].
    destruct (Hfiles t u Ht Hu) as [c ->]. simpl. eauto. }
  destruct Hsz as [total' Hsz]. rewrite Hsz. cbn [mbind outcome_bind].
  destruct ((size <? total') && negb (bool_decide (acc = []))) eqn:Hlim.
  { exists 0%nat. eexists. simpl. rewrite app_nil_r. split; [done|]. intros ->.
    rewrite bool_decide_true in Hlim by done. by rewrite andb_false_r in Hlim. }
  destruct (IH (acc ++ [(uid t, kind t)]) total') as (n & reason & Hc & _).
  exists (S n), reason. split; [|done]. rewrite Hc. cbn [take fmap list_fmap].
  by rewrite <-app_assoc.
Qed.

Lemma head_min (ids enq : bitmap) x :
  ids ⊆ enq → bm_min enq = Some x → x ∈ ids → head (bm_iter ids) = Some x.
Proof.
  intros Hsub [_ Hmin]%bm_min_Some Hx. change (head (bm_iter ids)) with (bm_min ids).
  destruct (bm_min ids) as [y|] eqn:Hy; [|apply bm_min_None in Hy; set_solver].
  apply bm_min_Some in Hy as [Hyi Hy]. f_equal. specialize (Hy x Hx). specialize (Hmin y (Hsub _ Hyi)). lia.
Qed.

Lemma enqueued_applies t :
  pending q t → classes_before 5 → applies_to_index (kind t) = true.
Proof.
  intros Hp Hcl. specialize (Hcl t Hp). unfold priority, task_kind in Hcl.
  destruct (kind t); simpl in *; first [done | lia].
Qed.

Lemma create_index_batch_good nf env pb t i :
  files_present → 1 ≤ max_number_of_batched_tasks env → classes_before 5 →
  bm_min (get_status (tasks q) Status.Enqueued) = Some (uid t) →
  all_tasks (tasks q) !! uid t = Some t → head (Task_indexes t) = Some i →
  ∃ b pb' stored, create_index_batch nf env q pb (get_status (tasks q) Status.Enqueued) i =
    Ok (Some (b, pb')) ∧ good_batch q b pb' stored t.
Proof.
  intros Hfiles Hlimit Hcl Hmin Ht Hi. set (enq := get_status (tasks q) Status.Enqueued) in *.
  assert (Henq : ∀ id, id ∈ enq ↔ ∃ t, all_tasks (tasks q) !! id = Some t ∧ status t = Status.Enqueued)
    by apply (wf_status _ Hwf Status.Enqueued).
  set (ids := index_tasks (tasks q) i ∩ enq).
  destruct (stored_of_bitmap ids) as (st & Hit & Hst & Hnd & Hin & Hemp).
  { intros id [_ Hid]%elem_of_intersection. apply Henq in Hid as (t' & ? & _). eauto. }
  assert (Hpend : Forall (pending q) st).
  { rewrite Forall_forall in Hst |- *. intros t' Ht'. pose proof (Hst _ Ht') as Ha. split; [done|]. left.
    apply (Hin t' Ha), elem_of_intersection in Ht' as [_ Hs]. apply Henq in Hs as (t'' & ? & ?). congruence. }
  assert (Htin : uid t ∈ ids).
  { apply elem_of_intersection. split; [|by apply bm_min_Some in Hmin as [? _]].
    apply (tabulates_get _ _ _ _ _ _ (wf_index _ Hwf) Ht). unfold has_index.
    destruct (Task_indexes t); [done|]. simplify_eq/=. by left. }
  assert (Hhead : head st = Some t).
  { pose proof (head_min ids enq (uid t) ltac:(set_solver) Hmin Htin) as Hh. rewrite Hit in Hh.
    destruct st as [|t' st]; simplify_eq/=. inversion Hst as [|? ? Ha _]; subst. congruence. }
  unfold create_index_batch. fold ids. rewrite Hit.
  set (limit := if autobatching_enabled env then max_number_of_batched_tasks env else 1).
  destruct (collect_index_tasks_Ok nf limit (batched_tasks_size_limit env) st Hfiles Hpend [] 0)
    as (n & reason & -> & Hn). cbn [mbind outcome_bind]. simpl app.
  assert (n ≠ 0%nat) as Hn0.
  { apply Hn; [done | by unfold limit; destruct (autobatching_enabled env) | by destruct st]. }
  set (collected := (λ t, (uid t, kind t)) <$> take n st).
  assert (Hcol : collected ≠ []) by (unfold collected; destruct st, n; done).
  assert (Hap : Forall (λ x, applies_to_index x.2 = true) collected).
  { unfold collected. rewrite Forall_fmap. apply Forall_take. eapply Forall_impl; [exact Hpend|].
    intros t' Hp. simpl. by apply enqueued_applies. }
  destruct (autobatch_returns (E:=Error) collected (index_exists env i)
    (if index_exists env i then index_primary_key env i else None) Hcol Hap) as [[[bk create] r] Hab].
  rewrite Hab. cbn [mbind outcome_bind].
  apply autobatch_inv in Hab as (dn & rest & Hsplit & Hdn & Hinv & _).
  assert (∃ m, dn = (λ t, (uid t, kind t)) <$> take m st ∧ m ≠ 0%nat) as (m & -> & Hm0).
  { exists (length dn `min` n)%nat. unfold collected in Hsplit.
    apply (f_equal (take (length dn))) in Hsplit. rewrite take_app_length, <-fmap_take, take_take in Hsplit.
    split; [done|]. destruct dn, n; done. }
  destruct (create_next_batch_index_Ok q i bk (take m st)
    (set_reason pb (default (BatchStopReason.replace_unspecified reason
      (if Z.of_nat (length collected) =? bm_len enq then BatchStopReason.ExhaustedEnqueuedTasks
       else BatchStopReason.ExhaustedEnqueuedTasksForIndex i)) r)) create) as (b & pb' & Hb & Htasks & Hu);
    [by apply Forall_take | done |].
  fold collected. rewrite Hb. cbn [mbind outcome_bind]. eexists b, pb', (take m st). split; [done|].
  rewrite <-Hu in Htasks. constructor.
  - done.
  - by apply Forall_take.
  - rewrite fmap_take. apply (NoDup_app (take m (uid <$> st)) (drop m (uid <$> st))). by rewrite take_drop.
  - destruct st as [|t' st], m; simplify_eq/=. by left.
  - intros t' Hp Hpr. assert (5 ≤ priority t) by (apply Hcl; rewrite Forall_forall in Hpend; apply Hpend; destruct st; simplify_eq/=; by left).
    rewrite decide_False by lia. apply bm_min_Some in Hmin as [_ Hmin]. apply Hmin, Henq.
    destruct Hp as [Ha [Hs|[_ Hk]]]; [eauto|]. unfold priority in Hpr at 1. rewrite Hk in Hpr. lia.
  - intros t1 t2 Ht1 Hp2. specialize (Hcl _ Hp2). unfold priority at 1. destruct (task_kind t1); lia.
Qed.

(** A batch of one pending task. *)
Lemma single_good (b : SchedBatch.t) pb t n :
  pending q t → SchedBatch.tasks b = [with_batch_uid t (Some (pb_uid pb))] →
  priority t = n → classes_before n → first_served q t → good_batch q b pb [t] t.
Proof.
  intros Hp Hb Hn Hcl Hf. constructor; [by rewrite Hb|..].
  - by constructor.
  - simpl. apply NoDup_singleton.
  - by left.
  - done.
  - intros t1 t2 ->%list_elem_of_singleton Ht2. rewrite Hn. by apply Hcl.
Qed.

Lemma pick_one k id pb n :
  id ∈ get_kind (tasks q) k ∩ get_status (tasks q) Status.Enqueued →
  (∀ t, task_kind t = k ↔ priority t = n) →
  ∃ t pb', get_one_task q pb id = Ok (with_batch_uid t (Some (pb_uid pb)), pb') ∧
    pb_uid pb' = pb_uid pb ∧ uid t = id ∧ pending q t ∧ priority t = n ∧ task_kind t = k.
Proof.
  intros (t & Ht & Hk & Hs)%elem_of_kind_status Hn.
  destruct (get_one_task_Ok q pb id t Ht) as (pb' & Hg & Hu).
  pose proof (wf_uid _ Hwf _ _ Ht). subst id. exists t, pb'. split_and!; try done.
  - by split; [|left].
  - by apply Hn.
Qed.

(** The newest task of the first class, or the oldest task of another class of
    one kind. *)
Lemma single_class_good k id pb n (mk : Task → SchedBatch.t) reason :
  k ≠ Kind.UpgradeDatabase → (∀ t, SchedBatch.tasks (mk t) = [t]) →
  (∀ t, task_kind t = k ↔ priority t = n) → classes_before n →
  let ids := get_kind (tasks q) k ∩ get_status (tasks q) Status.Enqueued in
  id ∈ ids → (∀ y, y ∈ ids → if decide (n = 0) then y ≤ id else id ≤ y) →
  ∃ t pb', get_one_task q pb id = Ok (with_batch_uid t (Some (pb_uid pb)), pb') ∧ uid t = id ∧
    good_batch q (mk (with_batch_uid t (Some (pb_uid pb)))) (set_reason pb' reason) [t] t.
Proof.
  intros Hk Hmk Hkp Hcl ids Hin Hext.
  destruct (pick_one k id pb n Hin Hkp) as (t & pb' & Hg & Hu & Hid & Hp & Hpr & _).
  exists t, pb'. split; [done|]. split; [done|]. eapply single_good; try done.
  - rewrite Hmk. simpl. by rewrite Hu.
  - intros t' [Ht' Hs'] Hpr'. rewrite Hpr in *. rewrite Hid. apply Hext, elem_of_kind_status.
    exists t'. apply Hkp in Hpr'. split_and!; [done..|]. destruct Hs' as [?|[_ ?]]; [done|congruence].
Qed.

Lemma upgrade_good :
  classes_before 1 → upgrades ≠ ∅ →
  ∃ ts l, get_existing_tasks (tasks q) (bm_iter upgrades) = Ok ts ∧ last ts = Some l ∧
    ∀ pb0 pb' ts', processing pb0 ts = (pb', ts') →
      ∃ t, good_batch q (SchedBatch.UpgradeDatabase ts')
             (set_reason pb' (BatchStopReason.TaskKindCannotBeBatched Kind.UpgradeDatabase)) ts t.
Proof.
  intros Hcl Hne. destruct (stored_of_bitmap upgrades) as (st & Hit & Hst & _ & Hin & Hemp).
  { intros id (t & ? & _)%elem_of_upgrades. eauto. }
  assert (Hstne : st ≠ []) by tauto.
  rewrite Hit, get_existing_stored by done.
  destruct (last st) as [l|] eqn:Hl; [|by apply last_None in Hl].
  exists st, l. split; [done|]. split; [done|]. intros pb0 pb' ts' Hp.
  destruct (processing_tasks pb0 st) as [H2 H1]. rewrite Hp in H1, H2. simpl in *.
  apply (good_batch_class upgrades); try done; [by rewrite H2, <-H1|].
  intros t Ht. assert (Hta : all_tasks (tasks q) !! uid t = Some t) by (rewrite Forall_forall in Hst; auto).
  apply (Hin t Hta), elem_of_upgrades in Ht as (t' & Ht' & Hkt & Hs). rewrite Hta in Ht'. simplify_eq.
  assert (priority t' = 1) as Hp1 by (unfold priority; by rewrite Hkt).
  split; [split; [done|tauto]|]. rewrite Hp1. split; [done|]. intros t2 Ht2. split; [by apply Hcl|].
  intros Hp2. apply elem_of_upgrades. destruct Ht2 as [Ht2 Hs2]. exists t2. split; [done|].
  split; [|tauto]. unfold priority in Hp2. by destruct (task_kind t2).
Qed.

Lemma empty_swap t :
  ExternalsOk → pending q t → classes_before 5 → head (Task_indexes t) = None →
  kind t = KindWithContent.IndexSwap [].
Proof.
  intros Hext Hp Hcl Hh. specialize (Hcl t Hp). unfold priority, task_kind in Hcl. unfold Task_indexes in Hh.
  destruct (kind t); simpl in *; try done; try lia.
  apply head_None in Hh. f_equal. destruct swaps as [|sw swaps]; [done|].
  assert (sw.1 ∈ KindWithContent.swap_indexes (sw :: swaps)) as Hin.
  { apply elem_of_swap_indexes. exists sw. split; [by left|auto]. }
  apply elem_of_elements in Hin. rewrite <-hash_iter_perm, Hh in Hin. by apply elem_of_nil in Hin.
Qed.
End facts.

Context `{!ExternalsOk}.

(** The last step of [create_next_batch]. *)
Lemma unprioritised_good nf env q pb :
  tq_wf (tasks q) → 1 ≤ max_number_of_batched_tasks env → files_present q →
  classes_before q 5 → no_pending q Kind.UpgradeDatabase →
  let r :=
    match bm_min (get_status (tasks q) Status.Enqueued) with
    | None => Ok None
    | Some task_id =>
        task ← ok_or CorruptedTaskQueue (get_task (tasks q) task_id);
        match head (Task_indexes task) with
        | Some index_name => create_index_batch nf env q pb (get_status (tasks q) Status.Enqueued) index_name
        | None =>
            match kind task with
            | KindWithContent.IndexSwap [] =>
                let '(current_batch, task) := processing_one pb task in
                Ok (Some (SchedBatch.IndexSwap task,
                  set_reason current_batch (BatchStopReason.TaskCannotBeBatched Kind.IndexSwap (uid task))))
            | _ => Panic
            end
        end
    end in
  (r = Ok None ∧ ∀ t, ¬ pending q t) ∨
  ∃ b pb stored t, r = Ok (Some (b, pb)) ∧ good_batch q b pb stored t.
Proof.
  intros Hwf Hlim Hfiles Hc5 Hup r. subst r.
  destruct (bm_min (get_status (tasks q) Status.Enqueued)) as [id|] eqn:Henq.
  - right. pose proof Henq as [Hin Hle]%bm_min_Some.
    apply (wf_status _ Hwf) in Hin as (t & Ht & Hst). pose proof (wf_uid _ Hwf _ _ Ht). subst id.
    assert (Hp : pending q t) by (by split; [|left]).
    unfold get_task. rewrite Ht. cbn [ok_or mbind outcome_bind].
    destruct (head (Task_indexes t)) as [i|] eqn:Hi.
    + destruct (create_index_batch_good q Hwf nf env pb t i) as (b & pb' & st & Hb & Hg); try done. eauto 10.
    + pose proof (empty_swap q t _ Hp Hc5 Hi) as Hk. rewrite Hk.
      assert (Hpr : priority t = 5) by (unfold priority, task_kind; by rewrite Hk).
      eexists _, _, [t], t. split; [done|]. eapply single_good; try done.
      intros t' Hp' Hpr'. rewrite Hpr, decide_False by done. apply Hle, (wf_status _ Hwf).
      exists t'. split; [apply Hp'|]. destruct (proj2 Hp') as [?|[? Hk']]; [done|]. by destruct (Hup t' Hp').
  - left. split; [done|]. apply bm_min_None in Henq. intros t Hp. pose proof (Hup t Hp).
    destruct Hp as [Ht [Hs'|[_ ?]]]; [|done]. apply (not_elem_of_empty (C:=bitmap) (uid t)).
    rewrite <-Henq. apply (wf_status _ Hwf). by exists t.
Qed.

(** The next batch of a well-formed queue. *)
Lemma create_next_batch_good nf now env q :
  tq_wf (tasks q) → db_version env = Some VERSION → 1 ≤ max_number_of_batched_tasks env →
  files_present q →
  (create_next_batch nf now env q = Ok None ∧ ∀ t, ¬ pending q t) ∨
  ∃ b pb stored t, create_next_batch nf now env q = Ok (Some (b, pb)) ∧ good_batch q b pb stored t.
Proof.
  intros Hwf Hver Hlim Hfiles. unfold create_next_batch, bm_is_empty.
  pose proof (classes_before_0 q) as Hc0.
  destruct (bm_max _) as [id|] eqn:Hmax.
  { right. apply bm_max_Some in Hmax as [Hin Hmax].
    destruct (single_class_good q Hwf Kind.TaskCancelation id
      (ProcessingBatch_new now (next_batch_id (batches q))) 0 SchedBatch.TaskCancelation
      (BatchStopReason.TaskCannotBeBatched Kind.TaskCancelation id)) as (t & pb' & -> & <- & Hg); try done.
    { class_kind. }
    cbn [mbind outcome_bind]. eauto 10. }
  apply bm_max_None, (no_pending_enqueued q Hwf) in Hmax; [|done].
  assert (Hc1 : classes_before q (0 + 1)) by (eapply classes_before_next; [done..|class_kind]).
  fold (upgrades q). case_bool_decide as Hup; cbn [negb].
  2:{ right. destruct (upgrade_good q Hwf Hc1 Hup) as (ts & l & -> & Hl & Hg).
      cbn [mbind outcome_bind]. rewrite Hl. cbn [unwrap mbind outcome_bind].
      destruct (processing _ ts) as [pb' ts'] eqn:Hp. destruct (Hg _ _ _ Hp) as [t Ht]. eauto 10. }
  rewrite (bool_decide_true (db_version env = _)) by done. cbn [negb].
  apply (no_pending_upgrades q Hwf) in Hup.
  assert (Hc2 : classes_before q (1 + 1)) by (eapply classes_before_next; [done..|class_kind]).
  case_bool_decide as Hd; cbn [negb].
  2:{ right. eapply (kind_batch_good q Hwf Kind.TaskDeletion _ _ 2); try done. class_kind. }
  apply (no_pending_enqueued q Hwf) in Hd; [|done].
  assert (Hc3 : classes_before q (2 + 1)) by (eapply classes_before_next; [done..|class_kind]).
  case_bool_decide as Hs; cbn [negb].
  2:{ right. eapply (kind_batch_good q Hwf Kind.SnapshotCreation _ _ 3); try done. class_kind. }
  apply (no_pending_enqueued q Hwf) in Hs; [|done].
  assert (Hc4 : classes_before q (3 + 1)) by (eapply classes_before_next; [done..|class_kind]).
  destruct (bm_min (get_kind (tasks q) Kind.DumpCreation ∩ _)) as [id|] eqn:Hmin.
  { right. apply bm_min_Some in Hmin as [Hin Hmin].
    destruct (single_class_good q Hwf Kind.DumpCreation id
      (ProcessingBatch_new now (next_batch_id (batches q))) 4 SchedBatch.Dump
      (BatchStopReason.TaskCannotBeBatched Kind.DumpCreation id)) as (t & pb' & -> & <- & Hg); try done.
    { class_kind. }
    cbn [mbind outcome_bind]. eauto 10. }
  apply bm_min_None, (no_pending_enqueued q Hwf) in Hmin; [|done].
  assert (Hc5 : classes_before q (4 + 1)) by (eapply classes_before_next; [done..|class_kind]).
  by apply unprioritised_good.
Qed.

(** A batch is dated once a task has entered it. *)
Definition dated (pb : ProcessingBatch) : Prop := pb_enqueued_at pb ≠ None.

Lemma processing_one_dated pb t : dated (processing_one pb t).1.
Proof. unfold dated; simpl. by destruct (pb_enqueued_at pb). Qed.

Lemma processing_dated ts : ∀ pb, ts ≠ [] ∨ dated pb → dated (processing pb ts).1.
Proof.
  induction ts as [|t ts IH]; intros pb Hd; [by destruct Hd|]. cbn [processing].
  pose proof (processing_one_dated pb t) as H1. destruct (processing_one pb t) as [pb1 t1].
  specialize (IH pb1 (or_intror H1)). by destruct (processing pb1 ts).
Qed.

Lemma get_existing_dated q ids : ∀ pb ts pb',
  get_existing_tasks_for_processing_batch q pb ids = Ok (ts, pb') → ts ≠ [] ∨ dated pb → dated pb'.
Proof.
  induction ids as [|id ids IH]; intros pb ts pb' Hr Hd; cbn [get_existing_tasks_for_processing_batch] in Hr; [simplify_eq; by destruct Hd|].
  inv_bind Hr. pose proof (processing_one_dated pb r) as Hp1.
  destruct (processing_one pb r) as [pb1 t1]. inv_bind Hr. destruct r0 as [rest pb2]. simplify_eq.
  eapply IH; [done|right; exact Hp1].
Qed.

Lemma get_one_task_dated q pb id t pb' : get_one_task q pb id = Ok (t, pb') → dated pb'.
Proof.
  unfold get_one_task. intros Hr. inv_bind Hr. pose proof (processing_one_dated pb r) as Hp1.
  destruct (processing_one pb r). by simplify_eq/=.
Qed.

Lemma settings_batch_dated q i ids pb ops ts pb' :
  settings_batch q i ids pb = Ok (ops, ts, pb') → ts ≠ [] ∨ dated pb → dated pb'.
Proof.
  unfold settings_batch. intros Hr. inv_bind Hr. destruct r as [ts1 pb1]. inv_bind Hr. simplify_eq.
  by eapply get_existing_dated.
Qed.

(** Reduce a hypothesis [m = Ok _] to the parts of [m]. *)
Ltac split_run Hr :=
  repeat (inv_bind Hr; repeat match goal with r : _ * _ |- _ => destruct r end);
  repeat match type of Hr with match ?x with _ => _ end = Ok _ => destruct x; try done end; simplify_eq/=.

Lemma create_next_batch_index_dated q i k pb create b pb' :
  create_next_batch_index q i k pb create = Ok (b, pb') → SchedBatch.tasks b ≠ [] → dated pb'.
Proof.
  intros Hr Hb. destruct k; cbn [create_next_batch_index] in Hr; split_run Hr;
    eauto using get_existing_dated, get_one_task_dated, settings_batch_dated.
  eapply get_existing_dated; [exact H2|]. destruct l1; [right|by left].
  eapply settings_batch_dated; [exact H1|]. by left.
Qed.

Lemma processed_dated pb ts pb' ts' : processing pb ts = (pb', ts') → ts' ≠ [] → dated pb'.
Proof.
  intros Hp Hne. pose proof (processing_uids pb ts) as [Hts _]. pose proof (processing_dated ts pb) as Hd.
  rewrite Hp in Hts, Hd. apply Hd. left. intros ->. by apply Hne.
Qed.

Lemma kind_batch_dated q pb k ids mk b pb' :
  (∀ ts, SchedBatch.tasks (mk ts) = ts) → kind_batch q pb k ids mk = Ok (Some (b, pb')) →
  SchedBatch.tasks b ≠ [] → dated pb'.
Proof.
  unfold kind_batch. intros Hmk Hr Hb. inv_bind Hr. destruct (processing pb r) as [pb1 ts1] eqn:Hp.
  simplify_eq. rewrite Hmk in Hb. by eapply processed_dated in Hp.
Qed.

Lemma create_next_batch_dated nf now env q b pb :
  create_next_batch nf now env q = Ok (Some (b, pb)) → SchedBatch.tasks b ≠ [] → dated pb.
Proof.
  unfold create_next_batch. intros Hr Hb.
  destruct (bm_max _). { split_run Hr. by eapply get_one_task_dated in H1. }
  destruct (negb _).
  { inv_bind Hr. inv_bind Hr. destruct (processing _ r) as [pb1 ts1] eqn:Hp. simplify_eq/=.
    by eapply processed_dated in Hp. }
  destruct (negb _); [done|]. destruct (negb _); [by eapply (kind_batch_dated q); [|exact Hr|exact Hb]|].
  destruct (negb _); [by eapply (kind_batch_dated q); [|exact Hr|exact Hb]|].
  destruct (bm_min _). { split_run Hr. by eapply get_one_task_dated in H1. }
  destruct (bm_min _); [|done]. inv_bind Hr. destruct (head _).
  - unfold create_index_batch in Hr. inv_bind Hr. destruct r0 as [c reason]. inv_bind Hr.
    destruct r0 as [[[bk create] stop]|]; [|done]. inv_bind Hr. destruct r0. simplify_eq.
    by eapply create_next_batch_index_dated.
  - destruct (kind r); try done. destruct swaps; [|done].
    pose proof (processing_one_dated (ProcessingBatch_new now (next_batch_id (batches q))) r) as Hd.
    destruct (processing_one _ r). by simplify_eq.
Qed.

(** Each task of an operation comes with its own part of the operation. *)
Definition shaped (b : SchedBatch.t) : Prop :=
  match b with
  | SchedBatch.IndexOperation (IndexOperation.DocumentOperation _ _ operations ts) _ =>
      length operations = length ts
  | SchedBatch.IndexOperation (IndexOperation.Settings _ settings ts) _
  | SchedBatch.IndexOperation (IndexOperation.DocumentClearAndSetting _ _ settings ts) _ =>
      length settings = length ts
  | _ => True
  end.

Lemma collect_length {A B} (f : A → outcome Error B) l : ∀ l', collect f l = Ok l' → length l' = length l.
Proof.
  induction l as [|x l IH]; intros l' Hr; cbn [collect] in Hr; [by simplify_eq|].
  inv_bind Hr. inv_bind Hr. simplify_eq/=. f_equal. by apply IH.
Qed.

Lemma settings_batch_shaped q i ids pb ops ts pb' :
  settings_batch q i ids pb = Ok (ops, ts, pb') → length ops = length ts.
Proof.
  unfold settings_batch. intros Hr. inv_bind Hr. destruct r as [ts1 pb1]. inv_bind Hr. simplify_eq.
  by eapply collect_length.
Qed.

Lemma create_next_batch_index_shaped q i k pb create b pb' :
  create_next_batch_index q i k pb create = Ok (b, pb') → shaped b.
Proof.
  intros Hr. destruct k; cbn [create_next_batch_index] in Hr; split_run Hr; try done;
    eauto using settings_batch_shaped, collect_length.
Qed.

Lemma create_next_batch_shaped nf now env q b pb :
  create_next_batch nf now env q = Ok (Some (b, pb)) → shaped b.
Proof.
  unfold create_next_batch, kind_batch. intros Hr.
  destruct (bm_max _); [by split_run Hr|].
  destruct (negb _). { inv_bind Hr. inv_bind Hr. destruct (processing _ r). by simplify_eq/=. }
  destruct (negb _); [done|].
  destruct (negb _). { inv_bind Hr. destruct (processing _ r). by simplify_eq/=. }
  destruct (negb _). { inv_bind Hr. destruct (processing _ r). by simplify_eq/=. }
  destruct (bm_min _); [by split_run Hr|]. destruct (bm_min _); [|done]. inv_bind Hr. destruct (head _).
  - unfold create_index_batch in Hr. inv_bind Hr. destruct r0 as [c reason]. inv_bind Hr.
    destruct r0 as [[[bk create] stop]|]; [|done]. inv_bind Hr. destruct r0. simplify_eq.
    by eapply create_next_batch_index_shaped.
  - destruct (kind r); try done. destruct swaps; [|done]. destruct (processing_one _ r). by simplify_eq.
Qed.

Lemma create_next_batch_returns nf now env q :
  tq_wf (tasks q) → db_version env = Some VERSION → 1 ≤ max_number_of_batched_tasks env →
  files_present q →
  (create_next_batch nf now env q = Ok None ∧ ∀ t, ¬ pending q t) ∨
  ∃ b pb stored t, create_next_batch nf now env q = Ok (Some (b, pb)) ∧ good_batch q b pb stored t ∧
    dated pb ∧ shaped b.
Proof.
  intros Hwf Hver Hlim Hfiles. destruct (create_next_batch_good nf now env q) as [?|(b & pb & st & t & Hb & Hg)];
    try done; [by left|]. right. exists b, pb, st, t. split; [done|]. split; [done|].
  split; [|by eapply create_next_batch_shaped]. eapply create_next_batch_dated; [done|]. intros Hn. pose proof (gb_tasks _ _ _ _ _ Hg) as Hp.
  pose proof (gb_in _ _ _ _ _ Hg) as Hin. rewrite Hn in Hp. apply Permutation_nil, fmap_nil_inv in Hp.
  subst. by apply elem_of_nil in Hin.
Qed.

Lemma good_batch_ids q b pb stored t :
  good_batch q b pb stored t → SchedBatch.ids b = list_to_set (uid <$> stored).
Proof.
  intros Hg. unfold SchedBatch.ids. apply list_to_set_perm_L.
  rewrite (gb_tasks _ _ _ _ _ Hg), <-list_fmap_compose. done.
Qed.

(** C9. On a well-formed queue (at the current version, with the
    update files of the pending tasks in the store and a positive batch size)
    [create_next_batch] neither fails nor panics.  It returns no batch only if
    no task is pending; otherwise the batch is made of distinct pending tasks,
    all assigned to it, no pending task is of a class served before theirs
    (cancelations, upgrades, deletions, snapshots, dumps, then the rest), and it
    contains the task to serve first: the newest cancelation, or the oldest
    pending task of another class. *)
Theorem create_next_batch_spec nf now env q :
  tq_wf (tasks q) → db_version env = Some VERSION → 1 ≤ max_number_of_batched_tasks env →
  files_present q →
  (create_next_batch nf now env q = Ok None ∧ ∀ t, ¬ pending q t) ∨
  ∃ b pb stored t, create_next_batch nf now env q = Ok (Some (b, pb)) ∧ good_batch q b pb stored t ∧
    SchedBatch.ids b = list_to_set (uid <$> stored).
Proof.
  intros Hwf Hver Hlim Hfiles.
  destruct (create_next_batch_returns nf now env q) as [?|(b & pb & st & t & Hb & Hg & _)]; try done; [by left|].
  right. exists b, pb, st, t. eauto using good_batch_ids.
Qed.
End next_batch.

(** ** Witness *)

Section witnesses.
#[local] Existing Instance sample_externals.

Definition sample_env : SchedulerEnv :=
  mkSchedulerEnv true 100 1000 (Some (1, 15, 1)) (λ _, false) (λ _, None).

Lemma sample_files_present : files_present sample_q.
Proof.
  intros t u [Ht _]. revert Ht.
  change (all_tasks (tasks sample_q)) with ({[0 := sample_task]} : gmap TaskId Task).
  by intros [_ <-]%lookup_singleton_Some.
Qed.

Lemma create_next_batch_spec_witness :
  pending sample_q sample_task ∧
  ∃ b pb stored t, create_next_batch "" 40 sample_env sample_q = Ok (Some (b, pb)) ∧
    good_batch sample_q b pb stored t.
Proof.
  assert (Hp : pending sample_q sample_task) by (split; [reflexivity | left; reflexivity]).
  split; [exact Hp|].
  destruct (@create_next_batch_spec sample_externals sample_externals_ok "" 40 sample_env sample_q
    sample_q_wf eq_refl) as [[_ Hn]|(b & pb & st & t & Hb & Hg & _)];
    [by vm_compute | exact sample_files_present | | exists b, pb, st, t; split; [exact Hb | exact Hg]].
  exfalso. exact (Hn _ Hp).
Defined.
End witnesses.
