(* ===== verification/ProcessBatch.v ===== *)
(** * Processing a batch

    [crates/index-scheduler/src/scheduler/process_batch.rs]: the cancelation and
    the deletion of tasks, the swap of indexes, and the batches that only touch
    the queue and the index mapping. *)

From S2P Require Import Prelude TaskTypes DetailsView SchedUtils TaskQueue BatchQueue Queue Autobatcher CreateBatch.
Open Scope Z_scope.

(** [IndexMapper::index_mapping]. *)
Abbreviation mapping := (gmap string Uuid).

Section process_batch.
Context `{Externals}.

(** ** Task deletion *)

(** What the first loop of [delete_matched_tasks] collects. *)
Record Affected := mkAffected {
  affected_indexes : gset string;
  affected_statuses : gset Status.t;
  affected_kinds : gset Kind.t;
  affected_canceled_by : bitmap;
  affected_batches : gmap BatchId bitmap;
}.

Definition no_affected : Affected := mkAffected ∅ ∅ ∅ ∅ ∅.

Definition affect (a : Affected) (task_id : TaskId) (task : Task) : Affected :=
  mkAffected
    (list_to_set (Task_indexes task) ∪ affected_indexes a)
    ({[status task]} ∪ affected_statuses a)
    ({[task_kind task]} ∪ affected_kinds a)
    (match canceled_by task with
     | Some c => {[c]} ∪ affected_canceled_by a
     | None => affected_canceled_by a
     end)
    (match batch_uid task with
     | Some b => <[b := {[task_id]} ∪ bm_get (affected_batches a) b]> (affected_batches a)
     | None => affected_batches a
     end).

Definition remove_date (db : datedb) (d : option DateTime) (id : TaskId) : datedb :=
  match d with Some d => remove_task_datetime db d id | None => db end.

(** The body of the first loop. *)
Definition delete_task_dates (acc : TaskQueue * Affected) (task_id : TaskId)
    : outcome Error (TaskQueue * Affected) :=
  let '(q, a) := acc in
  task ← ok_or CorruptedTaskQueue (get_task q task_id);
  let q := set_enqueued_at (remove_task_datetime (tq_enqueued_at q) (enqueued_at task) (uid task)) q in
  let q := set_started_at (remove_date (tq_started_at q) (started_at task) (uid task)) q in
  let q := set_finished_at (remove_date (tq_finished_at q) (finished_at task) (uid task)) q in
  Ok (q, affect a task_id task).

(** The update of the table of the canceling tasks. *)
Definition delete_canceled_by (to_delete : bitmap) (q : TaskQueue) (c : TaskId) : TaskQueue :=
  match tq_canceled_by q !! c with
  | Some tasks => set_canceled_by (put_or_delete c (tasks ∖ to_delete) (tq_canceled_by q)) q
  | None => q
  end.

(** The loops over the tables of the task queue. *)
Definition delete_task_metadata (to_delete : bitmap) (a : Affected) (q : TaskQueue) : TaskQueue :=
  let minus (b : bitmap) := b ∖ to_delete in
  let q := foldl (λ q i, update_index i minus q) q (elements (affected_indexes a)) in
  let q := foldl (λ q s, update_status s minus q) q (elements (affected_statuses a)) in
  let q := foldl (λ q k, update_kind k minus q) q (elements (affected_kinds a)) in
  let q := foldl (λ q id, set_all_tasks (delete id) q) q (bm_iter to_delete) in
  foldl (delete_canceled_by to_delete) q (bm_iter (affected_canceled_by a)).

(** A batch that lost all its tasks. *)
Definition delete_batch (batch_id : BatchId) (q : Queue) : Queue :=
  match get_batch (batches q) batch_id with
  | Some batch =>
      let b := batches q in
      let b := bq_set_enqueued_at (remove_batch_enqueued_at (bq_enqueued_at b) batch batch_id) b in
      let b := bq_set_started_at
                 (remove_task_datetime (bq_started_at b) (b_started_at batch) batch_id) b in
      let b := bq_set_finished_at (remove_date (bq_finished_at b) (b_finished_at batch) batch_id) b in
      let b := bq_set_all_batches (delete batch_id (all_batches b)) b in
      set_mapping (delete batch_id (batch_to_tasks_mapping q)) (set_batches b q)
  | None => q
  end.

(** The body of the loop over the affected batches. *)
Definition delete_batch_tasks (a : Affected) (q : Queue) (entry : BatchId * bitmap) : Queue :=
  let '(batch_id, to_delete) := entry in
  match batch_to_tasks_mapping q !! batch_id with
  | Some tasks_of_batch =>
      let remaining := tasks_of_batch ∖ to_delete in
      let q := if bm_is_empty remaining then delete_batch batch_id q else q in
      let remove_id (b : bitmap) := b ∖ {[batch_id]} in
      let q := foldl (λ q i,
        if bm_is_empty (index_tasks (tasks q) i ∩ remaining)
        then set_batches (bq_update_index i remove_id (batches q)) q else q)
        q (elements (affected_indexes a)) in
      let q := foldl (λ q s,
        if bm_is_empty (get_status (tasks q) s ∩ remaining)
        then set_batches (bq_update_status s remove_id (batches q)) q else q)
        q (elements (affected_statuses a)) in
      foldl (λ q k,
        if bm_is_empty (get_kind (tasks q) k ∩ remaining)
        then set_batches (bq_update_kind k remove_id (batches q)) q else q)
        q (elements (affected_kinds a))
  | None => q
  end.

(** The tasks of [matched_tasks] that may be deleted. *)
Definition deletable (q : TaskQueue) (processing matched_tasks : bitmap) : bitmap :=
  (all_task_ids q ∩ matched_tasks) ∖ processing ∖ get_status q Status.Enqueued.

Definition delete_matched_tasks (q : Queue) (processing matched_tasks : bitmap)
    : outcome Error (bitmap * Queue) :=
  let to_delete := deletable (tasks q) processing matched_tasks in
  '(tq, a) ← for_each delete_task_dates (tasks q, no_affected) (bm_iter to_delete);
  let q := set_tasks (delete_task_metadata to_delete a tq) q in
  Ok (to_delete, foldl (delete_batch_tasks a) q (map_to_list (affected_batches a))).

(** ** Task cancelation *)

(** [rollback] is [process_rollback] on the version to go back to, a panic of
    which is caught; [S] is the state it changes. *)
Definition tasks_to_cancel (q : TaskQueue) (matched_tasks : bitmap) : bitmap :=
  let enqueued_tasks := get_status q Status.Enqueued in
  let upgrade_tasks := get_kind q Kind.UpgradeDatabase in
  let is_canceling_upgrade := negb (bm_is_disjoint matched_tasks upgrade_tasks) in
  (if is_canceling_upgrade then upgrade_tasks ∩ (enqueued_tasks ∪ get_status q Status.Failed) else ∅)
  ∪ (enqueued_tasks ∩ matched_tasks).

(** The rollback of the latest upgrade that is canceled. *)
Definition cancel_upgrade {S} (rollback : S → Z * Z * Z → outcome Error () * S) (panic_msg : string)
    (q : TaskQueue) (s : S) (to_cancel : bitmap) : outcome Error () * S :=
  match bm_max (to_cancel ∩ get_kind q Kind.UpgradeDatabase) with
  | None => (Ok (), s)
  | Some latest_upgrade_task =>
      match get_task q latest_upgrade_task with
      | None => (Panic, s)
      | Some task =>
          match details task with
          | Some (Details.UpgradeDatabase from to) =>
              if bool_decide (to = VERSION) then
                match rollback s from with
                | (Ok _, s) => (Ok (), s)
                | (Err e, s) => (Err (DatabaseUpgrade e), s)
                | (Panic, s) => (Err (DatabaseUpgrade (ProcessBatchPanicked panic_msg)), s)
                end
              else (Ok (), s)
          | _ => (Panic, s)
          end
      end
  end.

(** The body of the last loop of [cancel_matched_tasks]. *)
Definition cancel_task (cancel_task_id : TaskId) (acc : ProcessingBatch * list Task) (task : Task)
    : ProcessingBatch * list Task :=
  let '(current_batch, cancelled) := acc in
  let task := mkTask (uid task) (batch_uid task) (enqueued_at task) (started_at task)
    (finished_at task) (error task) (Some cancel_task_id) (Details.to_failed <$> details task)
    Status.Canceled (kind task) in
  let '(current_batch, task) := processing_one current_batch task in
  (current_batch, cancelled ++ [task]).

Definition cancel_matched_tasks {S} (rollback : S → Z * Z * Z → outcome Error () * S) (panic_msg : string)
    (q : TaskQueue) (s : S) (cancel_task_id : TaskId) (current_batch : ProcessingBatch)
    (matched_tasks : bitmap) : outcome Error (list Task * ProcessingBatch) * S :=
  let to_cancel := tasks_to_cancel q matched_tasks in
  let '(r, s) := cancel_upgrade rollback panic_msg q s to_cancel in
  (_ ← r;
   ts ← get_existing_tasks q (bm_iter to_cancel);
   let '(current_batch, ts) := foldl (cancel_task cancel_task_id) (current_batch, []) ts in
   Ok (ts, current_batch), s).

(** ** Index swap *)

(** [IndexMapper::swap]. *)
Definition swap_mapping (m : mapping) (lhs rhs : string) : outcome Error mapping :=
  lhs_uuid ← ok_or (IndexNotFound lhs) (m !! lhs);
  rhs_uuid ← ok_or (IndexNotFound rhs) (m !! rhs);
  Ok (<[rhs := lhs_uuid]> (<[lhs := rhs_uuid]> m)).

(** The body of the loop over the tasks to update. *)
Definition swap_task (lhs rhs : string) (q : TaskQueue) (task_id : TaskId) : outcome Error TaskQueue :=
  task ← ok_or CorruptedTaskQueue (get_task q task_id);
  Ok (set_all_tasks <[task_id := swap_index_uid_in_task task (lhs, rhs)]> q).

Definition apply_index_swap (q : TaskQueue) (m : mapping) (task_id : TaskId) (lhs rhs : string)
    : outcome Error (TaskQueue * mapping) :=
  if negb (bool_decide (is_Some (m !! lhs))) then Err (IndexNotFound lhs) else
  if negb (bool_decide (is_Some (m !! rhs))) then Err (IndexNotFound rhs) else
  let index_lhs_task_ids := bm_remove_from task_id (index_tasks q lhs) in
  let index_rhs_task_ids := bm_remove_from task_id (index_tasks q rhs) in
  q ← for_each (swap_task lhs rhs) q (bm_iter (index_lhs_task_ids ∪ index_rhs_task_ids));
  let q := update_index lhs (λ b, (b ∖ index_lhs_task_ids) ∪ index_rhs_task_ids) q in
  let q := update_index rhs (λ b, (b ∖ index_rhs_task_ids) ∪ index_lhs_task_ids) q in
  m ← swap_mapping m lhs rhs;
  Ok (q, m).

(** The names of the swaps that are not indexes. *)
Definition not_found_indexes (m : mapping) (swaps : list IndexSwap) : gset string :=
  list_to_set (filter (λ i, m !! i = None) (swap_names swaps)).

(** The [IndexSwap] branch of [process_batch]. *)
Definition process_index_swap (q : TaskQueue) (m : mapping) (task : Task)
    : outcome Error (list Task * TaskQueue * mapping) :=
  match kind task with
  | KindWithContent.IndexSwap swaps =>
      match btree_iter (not_found_indexes m swaps) with
      | [] =>
          '(q, m) ← for_each (λ qm (swap : IndexSwap),
             apply_index_swap qm.1 qm.2 (uid task) swap.1 swap.2) (q, m) swaps;
          Ok ([mkTask (uid task) (batch_uid task) (enqueued_at task) (started_at task)
                (finished_at task) (error task) (canceled_by task) (details task)
                Status.Succeeded (kind task)], q, m)
      | [name] => Err (SwapIndexNotFound name)
      | names => Err (SwapIndexesNotFound names)
      end
  | _ => Panic
  end.

(** ** The branches that only touch the queue *)

Definition with_status_details (task : Task) (s : Status.t) (d : option Details.t) : Task :=
  mkTask (uid task) (batch_uid task) (enqueued_at task) (started_at task) (finished_at task)
    (error task) (canceled_by task) d s (kind task).

(** The [TaskCancelation] branch: the batch and the state change even if it
    fails. *)
Definition process_cancelation {S} (rollback : S → Z * Z * Z → outcome Error () * S) (panic_msg : string)
    (q : TaskQueue) (s : S) (current_batch : ProcessingBatch) (task : Task)
    : outcome Error (list Task) * ProcessingBatch * S :=
  match kind task with
  | KindWithContent.TaskCancelation _ matched_tasks =>
      match cancel_matched_tasks rollback panic_msg q s (uid task) current_batch matched_tasks with
      | (Ok (canceled_tasks, current_batch), s) =>
          (match details task with
           | Some (Details.TaskCancelation matched _ original_filter) =>
               let d := Details.TaskCancelation matched (Some (Z.of_nat (length canceled_tasks)))
                          original_filter in
               Ok (canceled_tasks ++ [with_status_details task Status.Succeeded (Some d)])
           | _ => Panic
           end, current_batch, s)
      | (Err e, s) => (Err e, current_batch, s)
      | (Panic, s) => (Panic, current_batch, s)
      end
  | _ => (Panic, current_batch, s)
  end.

(** One task of the second loop of the [TaskDeletions] branch: it is credited
    with the deleted tasks it matched that no earlier one was credited with. *)
Definition credit_deletion (acc : bitmap * list Task) (task : Task)
    : outcome Error (bitmap * list Task) :=
  let '(deleted_tasks, out) := acc in
  match kind task with
  | KindWithContent.TaskDeletion _ matched =>
      let deleted_tasks_count := bm_len (deleted_tasks ∩ matched) in
      let deleted_tasks := deleted_tasks ∖ matched in
      match details task with
      | Some (Details.TaskDeletion matched_tasks _ original_filter) =>
          let d := Details.TaskDeletion matched_tasks (Some deleted_tasks_count) original_filter in
          Ok (deleted_tasks, out ++ [with_status_details task Status.Succeeded (Some d)])
      | _ => Panic
      end
  | _ => Panic
  end.

(** The union of the tasks the deletions matched. *)
Definition matched_by (task : Task) : outcome Error bitmap :=
  match kind task with
  | KindWithContent.TaskDeletion _ matched => Ok matched
  | _ => Panic
  end.

(** The [TaskDeletions] branch: the deletion is committed before the deletion
    tasks are updated. *)
Definition process_deletions (q : Queue) (processing : bitmap) (ts : list Task)
    : outcome Error (list Task) * Queue :=
  match ms ← collect matched_by ts; delete_matched_tasks q processing (⋃ ms) with
  | Ok (deleted_tasks, q) =>
      ('(_, ts) ← for_each credit_deletion (deleted_tasks, []) ts; Ok ts, q)
  | Err e => (Err e, q)
  | Panic => (Panic, q)
  end.

(** The last loop of the [IndexDeletion] branch. *)
Definition finish_index_deletion (number_of_documents : Z) (task : Task) : outcome Error Task :=
  match kind task with
  | KindWithContent.IndexDeletion _ =>
      Ok (with_status_details task Status.Succeeded
            (Some (Details.ClearAll (Some number_of_documents))))
  | otherwise =>
      d ← default_finished_details otherwise;
      Ok (with_status_details task Status.Succeeded d)
  end.

(** The end of the [UpgradeDatabase] branch. *)
Definition finish_upgrade (task : Task) : Task :=
  mkTask (uid task) (batch_uid task) (enqueued_at task) (started_at task) (finished_at task)
    None (canceled_by task) (details task) Status.Succeeded (kind task).
End process_batch.

(** ** Deleting tasks keeps the queue well-formed *)

Section delete_facts.
Context `{Externals}.

Lemma elem_of_deletable q processing matched id :
  tq_wf q →
  id ∈ deletable q processing matched ↔
  ∃ t, all_tasks q !! id = Some t ∧ id ∈ matched ∧ id ∉ processing ∧ status t ≠ Status.Enqueued.
Proof.
  intros Hwf. unfold deletable. rewrite !elem_of_difference, elem_of_intersection, elem_of_all_task_ids by done.
  split.
  - intros [[[[t Ht] Hm] Hp] Hs]. exists t. split_and!; try done.
    intros Hst. apply Hs. by apply (tabulates_get _ _ _ _ _ _ (wf_status _ Hwf) Ht).
  - intros (t & Ht & Hm & Hp & Hs). split_and!; try done.
    intros Hst. apply Hs. by apply (tabulates_get _ _ _ _ _ _ (wf_status _ Hwf) Ht) in Hst.
Qed.

Lemma elem_of_remove_date db d id k y :
  y ∈ bm_get (remove_date db d id) k ↔ y ∈ bm_get db k ∧ ¬ (d = Some k ∧ y = id).
Proof.
  unfold remove_date. destruct d as [d|]; [|naive_solver].
  rewrite elem_of_remove_task_datetime. naive_solver.
Qed.

Lemma no_empty_remove_date db d id : no_empty db → no_empty (remove_date db d id).
Proof. destruct d; simpl; auto using no_empty_remove_task_datetime. Qed.

(** The state of the first loop after the ids [seen]. *)
Record dates_deleted (q q' : TaskQueue) (a : Affected) (seen : list TaskId) : Prop := {
  dd_all : all_tasks q' = all_tasks q;
  dd_status : tq_status q' = tq_status q;
  dd_kind : tq_kind q' = tq_kind q;
  dd_index : tq_index_tasks q' = tq_index_tasks q;
  dd_enqueued : ∀ d y, y ∈ bm_get (tq_enqueued_at q') d ↔ y ∈ bm_get (tq_enqueued_at q) d ∧ y ∉ seen;
  dd_started : ∀ d y, y ∈ bm_get (tq_started_at q') d ↔ y ∈ bm_get (tq_started_at q) d ∧ y ∉ seen;
  dd_finished : ∀ d y, y ∈ bm_get (tq_finished_at q') d ↔ y ∈ bm_get (tq_finished_at q) d ∧ y ∉ seen;
  dd_ne : no_empty (tq_enqueued_at q') ∧ no_empty (tq_started_at q') ∧ no_empty (tq_finished_at q');
  dd_affected : ∀ id t, id ∈ seen → all_tasks q !! id = Some t →
    status t ∈ affected_statuses a ∧ task_kind t ∈ affected_kinds a ∧
    ∀ i, i ∈ Task_indexes t → i ∈ affected_indexes a;
}.

Lemma delete_task_dates_step q q' a seen id t :
  tq_wf q → dates_deleted q q' a seen → all_tasks q !! id = Some t →
  ∃ q'', delete_task_dates (q', a) id = Ok (q'', affect a id t) ∧
    dates_deleted q q'' (affect a id t) (id :: seen).
Proof.
  intros Hwf [Ha Hs Hk Hi He Hsta Hf (Hne1 & Hne2 & Hne3) Haff] Ht.
  unfold delete_task_dates, get_task. rewrite Ha, Ht. cbn [ok_or mbind outcome_bind].
  eexists. split; [done|]. pose proof (wf_uid _ Hwf _ _ Ht) as Hu.
  constructor; simpl; try done.
  - intros d y. rewrite elem_of_remove_task_datetime, He, Hu, not_elem_of_cons.
    rewrite (wf_enqueued _ Hwf d y). unfold has_enqueued_at. naive_solver.
  - intros d y. rewrite elem_of_remove_date, Hsta, Hu, not_elem_of_cons.
    rewrite (wf_started _ Hwf d y). unfold has_started_at. naive_solver.
  - intros d y. rewrite elem_of_remove_date, Hf, Hu, not_elem_of_cons.
    rewrite (wf_finished _ Hwf d y). unfold has_finished_at. naive_solver.
  - auto using no_empty_remove_task_datetime, no_empty_remove_date.
  - intros id' t' [->|Hin]%elem_of_cons Ht'; [rewrite Ht in Ht'; simplify_eq; set_solver|].
    destruct (Haff id' t' Hin Ht') as (? & ? & ?). set_solver.
Qed.

Lemma delete_task_dates_loop q l : ∀ q' a seen,
  tq_wf q → (∀ id, id ∈ l → is_Some (all_tasks q !! id)) → dates_deleted q q' a seen →
  ∃ q'' a', for_each delete_task_dates (q', a) l = Ok (q'', a') ∧ dates_deleted q q'' a' (rev l ++ seen).
Proof.
  induction l as [|id l IH]; intros q' a seen Hwf Hl Hd; [by exists q', a|].
  destruct (Hl id) as [t Ht]; [by left|].
  destruct (delete_task_dates_step q q' a seen id t Hwf Hd Ht) as (q1 & Hstep & Hd1).
  destruct (IH q1 (affect a id t) (id :: seen)) as (q2 & a2 & Hr & Hd2); [done|by intros; apply Hl; right|done|].
  exists q2, a2. cbn [for_each]. rewrite Hstep. cbn [mbind outcome_bind]. split; [done|].
  cbn [rev]. by rewrite <-app_assoc.
Qed.

(** A loop that subtracts [D] from a table under the keys [l] clears [D] from
    the table when every id of [D] is listed under keys of [l] only. *)
Lemma table_minus_fold {K} `{Countable K} (D : bitmap) (l : list K) (m : gmap K bitmap)
    (upd : bitmap → K → gmap K bitmap → gmap K bitmap) k y :
  (∀ b k m k', bm_get (upd b k m) k' = if decide (k = k') then b else bm_get m k') →
  (∀ k y, y ∈ D → y ∈ bm_get m k → k ∈ l) →
  y ∈ bm_get (foldl (λ m k, upd (bm_get m k ∖ D) k m) m l) k ↔ y ∈ bm_get m k ∧ y ∉ D.
Proof.
  intros Hupd Hl.
  assert (Hgen : ∀ m, y ∈ bm_get (foldl (λ m k, upd (bm_get m k ∖ D) k m) m l) k ↔
    y ∈ bm_get m k ∧ ¬ (y ∈ D ∧ k ∈ l)).
  { clear Hl m. induction l as [|x l IH]; intros m; simpl; [set_solver|].
    rewrite IH, Hupd. case_decide; set_solver. }
  rewrite Hgen. split; [|naive_solver]. intros [Hy Hn]. split; [done|]. intros HD. apply Hn. eauto.
Qed.

(** The tables after the loops of [delete_task_metadata]. *)
Lemma delete_task_metadata_eq D a q :
  ∃ cb, delete_task_metadata D a q = mkTaskQueue
    (foldl (λ m id, delete id m) (all_tasks q) (bm_iter D))
    (foldl (λ m k, <[k := bm_get m k ∖ D]> m) (tq_status q) (elements (affected_statuses a)))
    (foldl (λ m k, <[k := bm_get m k ∖ D]> m) (tq_kind q) (elements (affected_kinds a)))
    (foldl (λ m k, put_or_delete k (bm_get m k ∖ D) m) (tq_index_tasks q) (elements (affected_indexes a)))
    cb (tq_enqueued_at q) (tq_started_at q) (tq_finished_at q).
Proof.
  unfold delete_task_metadata.
  assert (H1 : ∀ l q, foldl (λ q i, update_index i (λ b, b ∖ D) q) q l =
    set_index_tasks (foldl (λ m k, put_or_delete k (bm_get m k ∖ D) m) (tq_index_tasks q) l) q).
  { intros l. induction l as [|x l IH]; intros q1; simpl; [by destruct q1|]. by rewrite IH. }
  assert (H2 : ∀ l q, foldl (λ q i, update_status i (λ b, b ∖ D) q) q l =
    set_status (foldl (λ m k, <[k := bm_get m k ∖ D]> m) (tq_status q) l) q).
  { intros l. induction l as [|x l IH]; intros q1; simpl; [by destruct q1|]. by rewrite IH. }
  assert (H3 : ∀ l q, foldl (λ q i, update_kind i (λ b, b ∖ D) q) q l =
    set_kind (foldl (λ m k, <[k := bm_get m k ∖ D]> m) (tq_kind q) l) q).
  { intros l. induction l as [|x l IH]; intros q1; simpl; [by destruct q1|]. by rewrite IH. }
  assert (H4 : ∀ l q, foldl (λ q id, set_all_tasks (delete id) q) q l =
    set_all_tasks (λ m, foldl (λ m id, delete id m) m l) q).
  { intros l. induction l as [|x l IH]; intros q1; simpl; [by destruct q1|]. by rewrite IH. }
  assert (H5 : ∀ l q, ∃ cb, foldl (delete_canceled_by D) q l = set_canceled_by cb q).
  { intros l. induction l as [|x l IH]; intros q1; simpl; [exists (tq_canceled_by q1); by destruct q1|].
    unfold delete_canceled_by at 2. destruct (tq_canceled_by q1 !! x) as [b|]; [|apply IH].
    destruct (IH (set_canceled_by (put_or_delete x (b ∖ D) (tq_canceled_by q1)) q1)) as [cb ->]. by exists cb. }
  rewrite H1, H2, H3, H4. destruct (H5 (bm_iter (affected_canceled_by a))
    (set_all_tasks (λ m, foldl (λ m id, delete id m) m (bm_iter D)) (set_kind
      (foldl (λ m k, <[k := bm_get m k ∖ D]> m) (tq_kind q) (elements (affected_kinds a)))
      (set_status (foldl (λ m k, <[k := bm_get m k ∖ D]> m) (tq_status q) (elements (affected_statuses a)))
      (set_index_tasks (foldl (λ m k, put_or_delete k (bm_get m k ∖ D) m) (tq_index_tasks q) (elements (affected_indexes a))) q))))) as [cb Hcb].
  exists cb. exact Hcb.
Qed.

Lemma lookup_foldl_delete {A} (l : list Z) (m : gmap Z A) y :
  foldl (λ m id, delete id m) m l !! y = if decide (y ∈ l) then None else m !! y.
Proof.
  revert m. induction l as [|x l IH]; intros m; [by rewrite decide_False by set_solver|].
  cbn [foldl]. rewrite IH. destruct (decide (y = x)) as [->|Hne].
  - rewrite lookup_delete_eq. rewrite (decide_True (P := x ∈ x :: l)) by set_solver. by case_decide.
  - rewrite lookup_delete_ne by done. repeat case_decide; set_solver.
Qed.

Lemma no_empty_fold_put {K} `{Countable K} (D : bitmap) (l : list K) (m : gmap K bitmap) :
  no_empty m → no_empty (foldl (λ m k, put_or_delete k (bm_get m k ∖ D) m) m l).
Proof. revert m. induction l as [|x l IH]; intros m Hm; simpl; [done|]. apply IH. auto with sched. Qed.

(** The batch loops do not touch the tasks. *)
Lemma delete_batch_tasks_tasks a q entry : tasks (delete_batch_tasks a q entry) = tasks q.
Proof.
  destruct entry as [b D]. unfold delete_batch_tasks.
  destruct (batch_to_tasks_mapping q !! b) as [ts|]; [|done].
  assert (Hf : ∀ {A} (c : Queue → A → bool) (g : A → Queue → BatchQueue) (l : list A) q,
    tasks (foldl (λ q x, if c q x then set_batches (g x q) q else q) q l) = tasks q).
  { intros A c g l. induction l as [|x l IH]; intros q1; simpl; [done|]. rewrite IH. by destruct (c q1 x). }
  etransitivity; [exact (Hf _ (λ q k, bm_is_empty (get_kind (tasks q) k ∩ _)) (λ k q, bq_update_kind k _ (batches q)) _ _)|].
  etransitivity; [exact (Hf _ (λ q k, bm_is_empty (get_status (tasks q) k ∩ _)) (λ k q, bq_update_status k _ (batches q)) _ _)|].
  etransitivity; [exact (Hf _ (λ q k, bm_is_empty (index_tasks (tasks q) k ∩ _)) (λ k q, bq_update_index k _ (batches q)) _ _)|].
  destruct (bm_is_empty _); [|done]. unfold delete_batch. by destruct (get_batch _ _).
Qed.

Lemma delete_metadata_wf q q' a D :
  tq_wf q → dates_deleted q q' a (rev (bm_iter D)) → (∀ id, id ∈ D → is_Some (all_tasks q !! id)) →
  let q'' := delete_task_metadata D a q' in
  tq_wf q'' ∧ ∀ y, all_tasks q'' !! y = if decide (y ∈ D) then None else all_tasks q !! y.
Proof.
  intros Hwf [Ha Hs Hk Hi He Hsta Hf (Hne1 & Hne2 & Hne3) Haff] HD q''.
  destruct (delete_task_metadata_eq D a q') as [cb Heq]. unfold q''. rewrite Heq, Ha, Hs, Hk, Hi.
  assert (Hseen : ∀ y, y ∈ rev (bm_iter D) ↔ y ∈ D).
  { intros y. rewrite list_elem_of_In, <-in_rev, <-list_elem_of_In. apply elem_of_bm_iter. }
  assert (Hall : ∀ y, foldl (λ m id, delete id m) (all_tasks q) (bm_iter D) !! y =
    if decide (y ∈ D) then None else all_tasks q !! y).
  { intros y. rewrite lookup_foldl_delete. repeat case_decide; try done; rewrite elem_of_bm_iter in *; done. }
  assert (Haff' : ∀ y t, y ∈ D → all_tasks q !! y = Some t → status t ∈ affected_statuses a ∧
    task_kind t ∈ affected_kinds a ∧ ∀ i, i ∈ Task_indexes t → i ∈ affected_indexes a).
  { intros y t Hy%Hseen Ht. eauto. }
  split; [|exact Hall]. constructor; simpl.
  - intros id t. rewrite Hall. case_decide; [done|]. apply (wf_uid _ Hwf).
  - intros id. rewrite Hall. case_decide; [by intros []|]. apply (wf_range _ Hwf).
  - eapply tabulates_filter; [apply (wf_status _ Hwf)|exact Hall|]. intros k y.
    apply (table_minus_fold D _ _ (λ b k m, <[k := b]> m)); [intros; apply bm_get_insert|].
    intros k' y' HyD (t & Ht & <-)%(wf_status _ Hwf). apply elem_of_elements. by eapply Haff'.
  - eapply tabulates_filter; [apply (wf_kind _ Hwf)|exact Hall|]. intros k y.
    apply (table_minus_fold D _ _ (λ b k m, <[k := b]> m)); [intros; apply bm_get_insert|].
    intros k' y' HyD (t & Ht & <-)%(wf_kind _ Hwf). apply elem_of_elements. by eapply Haff'.
  - eapply tabulates_filter; [apply (wf_index _ Hwf)|exact Hall|]. intros k y.
    apply (table_minus_fold D _ _ (λ b k m, put_or_delete k b m)); [intros; apply bm_get_put_or_delete|].
    intros k' y' HyD (t & Ht & Hti)%(wf_index _ Hwf). apply elem_of_elements. by eapply Haff'.
  - eapply tabulates_filter; [apply (wf_enqueued _ Hwf)|exact Hall|]. intros k y. by rewrite He, Hseen.
  - eapply tabulates_filter; [apply (wf_started _ Hwf)|exact Hall|]. intros k y. by rewrite Hsta, Hseen.
  - eapply tabulates_filter; [apply (wf_finished _ Hwf)|exact Hall|]. intros k y. by rewrite Hf, Hseen.
  - apply no_empty_fold_put, (wf_index_ne _ Hwf).
  - done.
  - done.
  - done.
Qed.

(** The loops over the batches keep the batch queue well-formed and the files. *)
Definition batches_follow (q q' : Queue) : Prop :=
  file_store q' = file_store q ∧ (bq_wf (batches q) → bq_wf (batches q')).

#[local] Instance batches_follow_preorder : PreOrder batches_follow.
Proof. split; [by intros q|]. intros q1 q2 q3 [H1 H2] [H3 H4]. split; [congruence|auto]. Qed.

Lemma bq_tables_wf q st kd ix :
  bq_wf q → bq_wf (mkBatchQueue (all_batches q) st kd ix (bq_enqueued_at q) (bq_started_at q) (bq_finished_at q)).
Proof. intros []. by constructor. Qed.

Lemma delete_batch_follow b q : batches_follow q (delete_batch b q).
Proof.
  unfold delete_batch, get_batch. destruct (all_batches (batches q) !! b) as [old|] eqn:Hb; [|done].
  split; [done|]. intros Hwf. cbn [batches set_mapping set_batches].
  pose proof (bq_remove_wf (batches q) b (bq_status (batches q)) (bq_kind (batches q))
    (bq_index_tasks (batches q)) Hwf) as Hr.
  unfold without_enqueued_at, without_started_at, without_finished_at in Hr.
  rewrite Hb, (bwf_uid _ Hwf _ _ Hb) in Hr. exact Hr.
Qed.

Lemma set_batches_fold_follow {A} (c : Queue → A → bool) (g : A → BatchQueue → BatchQueue) (l : list A) q :
  (∀ x b, bq_wf b → bq_wf (g x b)) →
  batches_follow q (foldl (λ q x, if c q x then set_batches (g x (batches q)) q else q) q l).
Proof.
  intros Hg. revert q. induction l as [|x l IH]; intros q; [done|]. cbn [foldl].
  etransitivity; [|apply IH]. destruct (c q x); [|done]. split; [done|]. apply Hg.
Qed.

Lemma delete_batch_tasks_follow a q entry : batches_follow q (delete_batch_tasks a q entry).
Proof.
  destruct entry as [b D]. unfold delete_batch_tasks.
  destruct (batch_to_tasks_mapping q !! b) as [ts|]; [|done].
  etransitivity; [|apply (set_batches_fold_follow (λ q k, bm_is_empty (get_kind (tasks q) k ∩ _))
    (λ k b, bq_update_kind k _ b)); intros; by apply bq_tables_wf].
  etransitivity; [|apply (set_batches_fold_follow (λ q k, bm_is_empty (get_status (tasks q) k ∩ _))
    (λ k b, bq_update_status k _ b)); intros; by apply bq_tables_wf].
  etransitivity; [|apply (set_batches_fold_follow (λ q k, bm_is_empty (index_tasks (tasks q) k ∩ _))
    (λ k b, bq_update_index k _ b)); intros; by apply bq_tables_wf].
  destruct (bm_is_empty _); [apply delete_batch_follow|done].
Qed.

Lemma delete_matched_Ok q processing matched :
  tq_wf (tasks q) →
  let D := deletable (tasks q) processing matched in
  ∃ q', delete_matched_tasks q processing matched = Ok (D, q') ∧ tq_wf (tasks q') ∧ batches_follow q q' ∧
    ∀ id, all_tasks (tasks q') !! id = if decide (id ∈ D) then None else all_tasks (tasks q) !! id.
Proof.
  intros Hwf D.
  assert (HDs : ∀ id, id ∈ D → is_Some (all_tasks (tasks q) !! id)).
  { intros id (t & Ht & _)%(elem_of_deletable _ _ _ _ Hwf). eauto. }
  destruct (delete_task_dates_loop (tasks q) (bm_iter D) (tasks q) no_affected []) as (tq & a & Hloop & Hdd); [done|..].
  { intros id Hid%elem_of_bm_iter. auto. }
  { constructor; try done; [set_solver..| |set_solver]. split_and!; apply Hwf. }
  rewrite app_nil_r in Hdd.
  destruct (delete_metadata_wf (tasks q) tq a D Hwf Hdd HDs) as [Hwf' Hall].
  unfold delete_matched_tasks. fold D. rewrite Hloop. cbn [mbind outcome_bind].
  assert (Hfold : ∀ l q, tasks (foldl (delete_batch_tasks a) q l) = tasks q).
  { intros l. induction l as [|e l IH]; intros q1; simpl; [done|]. by rewrite IH, delete_batch_tasks_tasks. }
  assert (Hfollow : ∀ l q, batches_follow q (foldl (delete_batch_tasks a) q l)).
  { intros l. induction l as [|e l IH]; intros q1; [done|]. cbn [foldl].
    etransitivity; [apply delete_batch_tasks_follow|apply IH]. }
  eexists _. split; [done|]. rewrite Hfold. split; [done|]. split; [|done].
  etransitivity; [|apply Hfollow]. by split.
Qed.

(** C15. [delete_matched_tasks] never fails on a well-formed queue.  It
    deletes exactly the matched tasks that exist, are not being processed and
    are not enqueued, removes them from every index of the task queue, which
    stays well-formed, and leaves the other tasks as they were. *)
Theorem delete_matched_tasks_spec q processing matched :
  tq_wf (tasks q) →
  ∃ D q', delete_matched_tasks q processing matched = Ok (D, q') ∧ tq_wf (tasks q') ∧
    (∀ id, id ∈ D ↔ ∃ t, all_tasks (tasks q) !! id = Some t ∧ id ∈ matched ∧
       id ∉ processing ∧ status t ≠ Status.Enqueued) ∧
    ∀ id, all_tasks (tasks q') !! id = if decide (id ∈ D) then None else all_tasks (tasks q) !! id.
Proof.
  intros Hwf. destruct (delete_matched_Ok q processing matched Hwf) as (q' & Hd & Hwf' & _ & Hall).
  eexists _, q'. split; [exact Hd|]. split; [done|]. split; [|done].
  intros id. by apply elem_of_deletable.
Qed.
End delete_facts.

(** ** What deletion leaves behind *)

Section delete_batches.
Context `{Externals}.

Lemma set_batches_fold_mapping {A} (c : Queue → A → bool) (g : A → Queue → BatchQueue) (l : list A) q :
  batch_to_tasks_mapping (foldl (λ q x, if c q x then set_batches (g x q) q else q) q l) =
  batch_to_tasks_mapping q.
Proof. revert q. induction l as [|x l IH]; intros q; simpl; [done|]. rewrite IH. by destruct (c q x). Qed.

(** The ids of the deleted tasks stay in the mapping of a batch that keeps
    some of its tasks: the reduced bitmap is not written back.  A later
    deletion of the remaining tasks therefore finds the batch non-empty. *)
Theorem deleted_tasks_stay_in_batch a q b ts D :
  batch_to_tasks_mapping q !! b = Some ts → ts ∖ D ≠ ∅ →
  tasks_in_batch (delete_batch_tasks a q (b, D)) b = ts.
Proof.
  intros Hb Hne. unfold tasks_in_batch, bm_get, delete_batch_tasks. rewrite Hb.
  assert (bm_is_empty (ts ∖ D) = false) as -> by (by apply bool_decide_eq_false).
  rewrite (set_batches_fold_mapping (λ q k, bm_is_empty (get_kind (tasks q) k ∩ _)) (λ k q, bq_update_kind k _ (batches q))).
  rewrite (set_batches_fold_mapping (λ q k, bm_is_empty (get_status (tasks q) k ∩ _)) (λ k q, bq_update_status k _ (batches q))).
  rewrite (set_batches_fold_mapping (λ q k, bm_is_empty (index_tasks (tasks q) k ∩ _)) (λ k q, bq_update_index k _ (batches q))).
  by rewrite Hb.
Qed.
End delete_batches.

(** ** Cancelation *)

Section cancel_facts.
Context `{Externals}.

(** A canceled task. *)
Definition canceled (c : TaskId) (b : BatchId) (t : Task) : Task :=
  mkTask (uid t) (Some b) (enqueued_at t) (started_at t) (finished_at t) (error t) (Some c)
    (Details.to_failed <$> details t) Status.Canceled (kind t).

Lemma cancel_tasks_fold c l : ∀ pb out,
  ∃ pb', foldl (cancel_task c) (pb, out) l = (pb', out ++ (canceled c (pb_uid pb) <$> l)) ∧
    pb_uid pb' = pb_uid pb.
Proof.
  induction l as [|t l IH]; intros pb out; cbn [foldl fmap list_fmap];
    [exists pb; by rewrite app_nil_r|].
  destruct (cancel_task c (pb, out) t) as [pb1 out1] eqn:Hstep.
  assert (out1 = out ++ [canceled c (pb_uid pb) t] ∧ pb_uid pb1 = pb_uid pb) as [-> Hu]
    by (unfold cancel_task in Hstep; by simplify_eq/=).
  destruct (IH pb1 (out ++ [canceled c (pb_uid pb) t])) as (pb' & -> & Hu').
  exists pb'. rewrite Hu, <-app_assoc. split; [done|]. by rewrite Hu', Hu.
Qed.

Lemma elem_of_tasks_to_cancel q matched id :
  tq_wf q →
  id ∈ tasks_to_cancel q matched ↔
  ∃ t, all_tasks q !! id = Some t ∧
    ((id ∈ matched ∧ status t = Status.Enqueued) ∨
     (task_kind t = Kind.UpgradeDatabase ∧ (status t = Status.Enqueued ∨ status t = Status.Failed) ∧
      ∃ id' t', id' ∈ matched ∧ all_tasks q !! id' = Some t' ∧ task_kind t' = Kind.UpgradeDatabase)).
Proof.
  intros Hwf. unfold tasks_to_cancel, bm_is_disjoint, bm_is_empty.
  assert (Hst : ∀ s, id ∈ get_status q s ↔ ∃ t, all_tasks q !! id = Some t ∧ status t = s)
    by (intros; apply (wf_status _ Hwf)).
  assert (Hkd : ∀ id, id ∈ get_kind q Kind.UpgradeDatabase ↔
    ∃ t, all_tasks q !! id = Some t ∧ task_kind t = Kind.UpgradeDatabase)
    by (intros; apply (wf_kind _ Hwf)).
  assert (Hdis : matched ∩ get_kind q Kind.UpgradeDatabase ≠ ∅ ↔ ∃ id' t', id' ∈ matched ∧
    all_tasks q !! id' = Some t' ∧ task_kind t' = Kind.UpgradeDatabase).
  { split.
    - intros [x [Hx (t & ? & ?)%Hkd]%elem_of_intersection]%set_choose_L. eauto.
    - intros (x & t & Hm & Ht & Hk) He. apply (not_elem_of_empty (C:=bitmap) x). rewrite <-He.
      apply elem_of_intersection. split; [done|]. apply Hkd. eauto. }
  rewrite elem_of_union, elem_of_intersection, Hst.
  case_bool_decide as He; cbn [negb].
  - split; [|]; [intros [?|[(t & ? & ?) ?]]; [set_solver|eauto 10]|].
    intros (t & Ht & [[Hm Hs]|(_ & _ & Hex)]); [eauto 10|]. by apply Hdis in Hex.
  - rewrite elem_of_intersection, elem_of_union, !Hst, Hkd. apply Hdis in He. split.
    + intros [[(t & Ht & Hk) Hs]|[(t & Ht & Hs) Hm]]; exists t; (split; [done|]); [right|left]; [|done].
      split; [done|]. split; [|done]. destruct Hs as [(t' & ? & ?)|(t' & ? & ?)]; [left|right]; congruence.
    + intros (t & Ht & [[Hm Hs]|(Hk & Hs & _)]); [right; eauto|left]. split; [eauto|].
      destruct Hs; [left|right]; eauto.
Qed.

(** What canceling selects and returns. *)
Lemma cancel_matched_tasks_effect {S} rollback msg q (s : S) c pb matched :
  tq_wf q →
  ∃ stored, uid <$> stored = bm_iter (tasks_to_cancel q matched) ∧
    Forall (λ t, all_tasks q !! uid t = Some t) stored ∧
    (∀ t, all_tasks q !! uid t = Some t →
       t ∈ stored ↔ (uid t ∈ matched ∧ status t = Status.Enqueued) ∨
         (task_kind t = Kind.UpgradeDatabase ∧ (status t = Status.Enqueued ∨ status t = Status.Failed) ∧
          ∃ id' t', id' ∈ matched ∧ all_tasks q !! id' = Some t' ∧ task_kind t' = Kind.UpgradeDatabase)) ∧
    let '(r, s') := cancel_upgrade rollback msg q s (tasks_to_cancel q matched) in
    match r with
    | Ok _ => ∃ pb', cancel_matched_tasks rollback msg q s c pb matched =
        (Ok (canceled c (pb_uid pb) <$> stored, pb'), s') ∧ pb_uid pb' = pb_uid pb
    | Err e => cancel_matched_tasks rollback msg q s c pb matched = (Err e, s')
    | Panic => cancel_matched_tasks rollback msg q s c pb matched = (Panic, s')
    end ∧
    (Forall (λ t, task_kind t ≠ Kind.UpgradeDatabase) stored → r = Ok () ∧ s' = s).
Proof.
  intros Hwf. set (C := tasks_to_cancel q matched).
  set (qq := mkQueue q BatchQueue_new ∅ ∅ 0).
  destruct (stored_of_bitmap qq Hwf C) as (st & Hit & Hst & _ & Hin & _).
  { intros id (t & Ht & _)%(elem_of_tasks_to_cancel _ _ _ Hwf). simpl. eauto. }
  exists st. split; [done|]. split; [done|]. split.
  { intros t Ht. rewrite (Hin t Ht). unfold C. rewrite elem_of_tasks_to_cancel by done.
    split; [|by eauto]. intros (t' & Ht' & Hc). simpl in *. rewrite Ht in Ht'. by simplify_eq. }
  unfold cancel_matched_tasks. fold C.
  destruct (cancel_upgrade rollback msg q s C) as [r s'] eqn:Hup. split.
  - destruct r; [|done|done]. cbn [mbind outcome_bind]. rewrite Hit.
    pose proof (get_existing_stored qq st Hst) as Hg. simpl in Hg. rewrite Hg. cbn [mbind outcome_bind].
    destruct (cancel_tasks_fold c st pb []) as (pb' & -> & Hu). by exists pb'.
  - intros Hno. unfold cancel_upgrade in Hup. destruct (bm_max _) as [x|] eqn:Hx; [|by simplify_eq].
    apply bm_max_Some in Hx as [[HxC (t & Ht & Hk)%(wf_kind _ Hwf)]%elem_of_intersection _].
    pose proof (wf_uid _ Hwf _ _ Ht). subst x. apply Hin in HxC; [|done].
    rewrite Forall_forall in Hno. by destruct (Hno t HxC).
Qed.

(** C25. Canceling selects the matched tasks that are enqueued and, when an
    upgrade is matched, every upgrade that is enqueued or failed.  If no upgrade
    is selected the call cannot fail; in any case what it returns is exactly
    the selected tasks by increasing id, marked as canceled by the canceling
    task, with their details set to failed, and assigned to the current batch;
    processing and finished tasks are left alone, and the state changes only by
    the rollback of an upgrade. *)
Theorem cancel_matched_tasks_spec {S} rollback msg q (s : S) c pb matched :
  tq_wf q →
  ∃ stored, uid <$> stored = bm_iter (tasks_to_cancel q matched) ∧
    Forall (λ t, all_tasks q !! uid t = Some t) stored ∧
    (∀ t, all_tasks q !! uid t = Some t →
       t ∈ stored ↔ (uid t ∈ matched ∧ status t = Status.Enqueued) ∨
         (task_kind t = Kind.UpgradeDatabase ∧ (status t = Status.Enqueued ∨ status t = Status.Failed) ∧
          ∃ id' t', id' ∈ matched ∧ all_tasks q !! id' = Some t' ∧ task_kind t' = Kind.UpgradeDatabase)) ∧
    let '(r, s') := cancel_upgrade rollback msg q s (tasks_to_cancel q matched) in
    match r with
    | Ok _ => ∃ pb', cancel_matched_tasks rollback msg q s c pb matched =
        (Ok (canceled c (pb_uid pb) <$> stored, pb'), s') ∧ pb_uid pb' = pb_uid pb
    | Err e => cancel_matched_tasks rollback msg q s c pb matched = (Err e, s')
    | Panic => cancel_matched_tasks rollback msg q s c pb matched = (Panic, s')
    end ∧
    (Forall (λ t, task_kind t ≠ Kind.UpgradeDatabase) stored → r = Ok () ∧ s' = s).
Proof. apply cancel_matched_tasks_effect. Qed.
End cancel_facts.

(** ** Index swap *)

Section swap_facts.
Context `{Externals} `{!ExternalsOk}.

Lemma swap_task_loop lhs rhs l : ∀ q,
  (∀ id, id ∈ l → is_Some (all_tasks q !! id)) → NoDup l →
  ∃ q', for_each (swap_task lhs rhs) q l = Ok q' ∧
    tq_status q' = tq_status q ∧ tq_kind q' = tq_kind q ∧ tq_index_tasks q' = tq_index_tasks q ∧
    tq_canceled_by q' = tq_canceled_by q ∧ tq_enqueued_at q' = tq_enqueued_at q ∧
    tq_started_at q' = tq_started_at q ∧ tq_finished_at q' = tq_finished_at q ∧
    ∀ id, all_tasks q' !! id =
      if decide (id ∈ l) then (λ t, swap_index_uid_in_task t (lhs, rhs)) <$> all_tasks q !! id
      else all_tasks q !! id.
Proof.
  induction l as [|x l IH]; intros q Hl Hnd.
  { by exists q. }
  apply NoDup_cons in Hnd as [Hx Hnd]. destruct (Hl x) as [t Ht]; [by left|].
  cbn [for_each].
  assert (swap_task lhs rhs q x = Ok (set_all_tasks <[x := swap_index_uid_in_task t (lhs, rhs)]> q)) as ->
    by (unfold swap_task, get_task; by rewrite Ht).
  cbn [mbind outcome_bind].
  destruct (IH (set_all_tasks <[x := swap_index_uid_in_task t (lhs, rhs)]> q))
    as (q' & -> & H1 & H2 & H3 & H4 & H5 & H6 & H7 & Hall); [|done|].
  { intros id Hid. simpl. apply lookup_insert_is_Some'. right. apply Hl. by right. }
  exists q'. split_and!; try done. intros id. rewrite Hall. simpl.
  destruct (decide (id = x)) as [->|Hne].
  - rewrite lookup_insert_eq, Ht. rewrite (decide_True (P := x ∈ x :: l)) by set_solver.
    by rewrite decide_False by done.
  - rewrite lookup_insert_ne by done. repeat case_decide; set_solver.
Qed.

Lemma swap_fields t sw :
  uid (swap_index_uid_in_task t sw) = uid t ∧ status (swap_index_uid_in_task t sw) = status t ∧
  task_kind (swap_index_uid_in_task t sw) = task_kind t ∧
  enqueued_at (swap_index_uid_in_task t sw) = enqueued_at t ∧
  started_at (swap_index_uid_in_task t sw) = started_at t ∧
  finished_at (swap_index_uid_in_task t sw) = finished_at t.
Proof. split_and!; try done. apply swap_in_kind_as_kind. Qed.

(** Replacing the tasks by tasks with the same attribute. *)
Lemma tabulates_map {K} `{Countable K} (m : gmap K bitmap) all all' (f : Task → Task) (D : bitmap) P :
  tabulates m all P → (∀ t k, P (f t) k ↔ P t k) →
  (∀ y, all' !! y = if decide (y ∈ D) then f <$> all !! y else all !! y) → tabulates m all' P.
Proof.
  intros Hm HP Hall k y. rewrite (Hm k y), Hall. case_decide; [|done].
  setoid_rewrite fmap_Some. naive_solver.
Qed.

Lemma swap_name_l lhs rhs : swap_name (lhs, rhs) lhs = rhs.
Proof. unfold swap_name. simpl. by rewrite String.eqb_refl. Qed.
Lemma swap_name_r lhs rhs : swap_name (lhs, rhs) rhs = lhs.
Proof.
  unfold swap_name. simpl. destruct (String.eqb_spec rhs lhs); [done|]. by rewrite String.eqb_refl.
Qed.
Lemma swap_name_other lhs rhs i : i ≠ lhs → i ≠ rhs → swap_name (lhs, rhs) i = i.
Proof. unfold swap_name. simpl. by destruct (String.eqb_spec i lhs), (String.eqb_spec i rhs). Qed.

(** The table of the indexes after a swap. *)
Lemma elem_of_swapped (m : gmap string bitmap) (L R : bitmap) lhs rhs i y :
  let m1 := put_or_delete lhs ((bm_get m lhs ∖ L) ∪ R) m in
  let m2 := put_or_delete rhs ((bm_get m1 rhs ∖ R) ∪ L) m1 in
  (lhs = rhs → L = R) →
  y ∈ bm_get m2 i ↔
    if decide (i = lhs) then (y ∈ bm_get m lhs ∧ y ∉ L) ∨ y ∈ R
    else if decide (i = rhs) then (y ∈ bm_get m rhs ∧ y ∉ R) ∨ y ∈ L
    else y ∈ bm_get m i.
Proof.
  intros m1 m2 Heq. unfold m2, m1. destruct (decide (lhs = rhs)) as [<-|]; [rewrite <-(Heq eq_refl) in *|];
    table_cases; set_solver.
Qed.

(** The renamed tasks are where the table of the indexes says. *)
Lemma swapped_index q q' task_id lhs rhs i y :
  tq_wf q →
  let L := bm_remove_from task_id (index_tasks q lhs) in
  let R := bm_remove_from task_id (index_tasks q rhs) in
  (∀ y, all_tasks q' !! y = if decide (y ∈ L ∪ R)
    then (λ t, swap_index_uid_in_task t (lhs, rhs)) <$> all_tasks q !! y else all_tasks q !! y) →
  (if decide (i = lhs) then (y ∈ bm_get (tq_index_tasks q) lhs ∧ y ∉ L) ∨ y ∈ R
   else if decide (i = rhs) then (y ∈ bm_get (tq_index_tasks q) rhs ∧ y ∉ R) ∨ y ∈ L
   else y ∈ bm_get (tq_index_tasks q) i) ↔
  ∃ t, all_tasks q' !! y = Some t ∧ has_index t i.
Proof.
  intros Hwf L R Hall. rewrite Hall.
  assert (HL : ∀ i, y ∈ bm_remove_from task_id (index_tasks q i) ↔ y ∈ bm_get (tq_index_tasks q) i ∧ y < task_id)
    by (intros; apply elem_of_bm_remove_from).
  destruct (all_tasks q !! y) as [t|] eqn:Ht.
  2:{ assert (Hno : ∀ i, y ∉ bm_get (tq_index_tasks q) i)
        by (intros j (t & ? & _)%(wf_index _ Hwf); congruence).
      assert (y ∉ L ∧ y ∉ R) as [HnL HnR] by (unfold L, R; rewrite !HL; naive_solver).
      pose proof (Hno lhs). pose proof (Hno rhs). pose proof (Hno i).
      destruct (decide (y ∈ L ∪ R)); [set_solver|]. repeat case_decide; naive_solver. }
  assert (Hidx : ∀ i, y ∈ bm_get (tq_index_tasks q) i ↔ i ∈ Task_indexes t)
    by (intros; apply (tabulates_get _ _ _ _ _ _ (wf_index _ Hwf) Ht)).
  destruct (decide (y ∈ L ∪ R)) as [Hin|Hin]; simpl.
  - transitivity (swap_name (lhs, rhs) i ∈ Task_indexes t).
    2:{ rewrite <-(swap_in_kind_indexes (lhs, rhs) (kind t) i). unfold has_index, Task_indexes. naive_solver. }
    unfold L, R in *. rewrite elem_of_union, !HL in Hin.
    case_decide as H1; [subst; rewrite swap_name_l, !HL, !Hidx; rewrite !Hidx in Hin; tauto|].
    case_decide as H2; [subst; rewrite swap_name_r, !HL, !Hidx; rewrite !Hidx in Hin; tauto|].
    by rewrite swap_name_other, Hidx.
  - transitivity (i ∈ Task_indexes t); [|unfold has_index; naive_solver].
    apply not_elem_of_union in Hin as [HnL HnR].
    repeat case_decide; subst; rewrite Hidx; tauto.
Qed.

Lemma swap_mapping_Ok (m : mapping) lhs rhs a b :
  m !! lhs = Some a → m !! rhs = Some b →
  swap_mapping m lhs rhs = Ok (<[rhs := a]> (<[lhs := b]> m)).
Proof. intros Ha Hb. unfold swap_mapping. by rewrite Ha, Hb. Qed.

(** Both outcomes of a swap. *)
Lemma apply_index_swap_effect q (m : mapping) task_id lhs rhs :
  tq_wf q →
  match m !! lhs, m !! rhs with
  | None, _ => apply_index_swap q m task_id lhs rhs = Err (IndexNotFound lhs)
  | Some _, None => apply_index_swap q m task_id lhs rhs = Err (IndexNotFound rhs)
  | Some a, Some b => ∃ q', apply_index_swap q m task_id lhs rhs =
        Ok (q', <[rhs := a]> (<[lhs := b]> m)) ∧ tq_wf q' ∧
      ∀ id, all_tasks q' !! id = (λ t,
        if decide (id < task_id ∧ (lhs ∈ Task_indexes t ∨ rhs ∈ Task_indexes t))
        then swap_index_uid_in_task t (lhs, rhs) else t) <$> all_tasks q !! id
  end.
Proof.
  intros Hwf. unfold apply_index_swap.
  destruct (m !! lhs) as [a|] eqn:Ha; [|by rewrite bool_decide_false by (by intros [])].
  rewrite bool_decide_true by eauto. cbn [negb].
  destruct (m !! rhs) as [b|] eqn:Hb; [|by rewrite bool_decide_false by (by intros [])].
  rewrite bool_decide_true by eauto. cbn [negb].
  set (L := bm_remove_from task_id (index_tasks q lhs)).
  set (R := bm_remove_from task_id (index_tasks q rhs)).
  assert (HL : ∀ i y, y ∈ bm_remove_from task_id (index_tasks q i) ↔
    y < task_id ∧ ∃ t, all_tasks q !! y = Some t ∧ i ∈ Task_indexes t).
  { intros i y. rewrite elem_of_bm_remove_from. unfold index_tasks. rewrite (wf_index _ Hwf i y). tauto. }
  destruct (swap_task_loop lhs rhs (bm_iter (L ∪ R)) q)
    as (q' & Hloop & Hs & Hk & Hi & Hc & He & Hsta & Hf & Hall); [|apply NoDup_bm_iter|].
  { intros id Hid%elem_of_bm_iter. apply elem_of_union in Hid as [(_ & t & ? & _)%HL|(_ & t & ? & _)%HL]; eauto. }
  rewrite Hloop. cbn [mbind outcome_bind]. rewrite (swap_mapping_Ok m lhs rhs a b) by done. cbn [mbind outcome_bind].
  eexists. split; [done|].
  assert (Hall' : ∀ y, all_tasks q' !! y = if decide (y ∈ L ∪ R)
    then (λ t, swap_index_uid_in_task t (lhs, rhs)) <$> all_tasks q !! y else all_tasks q !! y).
  { intros y. rewrite Hall. repeat case_decide; try done; rewrite elem_of_bm_iter in *; done. }
  split.
  - constructor; simpl; rewrite ?Hs, ?Hk, ?He, ?Hsta, ?Hf; try apply Hwf.
    + intros id t. rewrite Hall'. case_decide; [|apply (wf_uid _ Hwf)].
      intros (t' & Ht' & ->)%fmap_Some. exact (wf_uid _ Hwf _ _ Ht').
    + intros id. rewrite Hall'. case_decide; rewrite ?fmap_is_Some; apply (wf_range _ Hwf).
    + eapply tabulates_map; [apply (wf_status _ Hwf)| |exact Hall']. done.
    + eapply tabulates_map; [apply (wf_kind _ Hwf)| |exact Hall'].
      intros t k. unfold has_kind. by rewrite (proj1 (proj2 (proj2 (swap_fields t (lhs, rhs))))).
    + intros i y. unfold update_index. simpl. unfold index_tasks. simpl. rewrite !Hi.
      etransitivity; [apply elem_of_swapped; unfold L, R; congruence|]. by apply (swapped_index q q' task_id).
    + eapply tabulates_map; [apply (wf_enqueued _ Hwf)| |exact Hall']. done.
    + eapply tabulates_map; [apply (wf_started _ Hwf)| |exact Hall']. done.
    + eapply tabulates_map; [apply (wf_finished _ Hwf)| |exact Hall']. done.
    + apply no_empty_put_or_delete, no_empty_put_or_delete. rewrite Hi. apply Hwf.
  - intros id. simpl. rewrite Hall'. destruct (all_tasks q !! id) as [t|] eqn:Ht; simpl; [|by case_decide].
    assert (id ∈ L ∪ R ↔ id < task_id ∧ (lhs ∈ Task_indexes t ∨ rhs ∈ Task_indexes t)) as Hd.
    { rewrite elem_of_union. unfold L, R. rewrite !HL, Ht. naive_solver. }
    repeat case_decide; try done; tauto.
Qed.

(** Swapping two indexes fails exactly when one does not exist,
    and then names it.  Otherwise the two names exchange their indexes in the
    mapping, every task older than the swap that mentions one of the names
    mentions the other one instead, no other task changes, and the queue stays
    well-formed: the table of the indexes follows the renamed tasks. *)
Theorem apply_index_swap_spec q (m : mapping) task_id lhs rhs :
  tq_wf q →
  match m !! lhs, m !! rhs with
  | None, _ => apply_index_swap q m task_id lhs rhs = Err (IndexNotFound lhs)
  | Some _, None => apply_index_swap q m task_id lhs rhs = Err (IndexNotFound rhs)
  | Some a, Some b => ∃ q', apply_index_swap q m task_id lhs rhs =
        Ok (q', <[rhs := a]> (<[lhs := b]> m)) ∧ tq_wf q' ∧
      ∀ id, all_tasks q' !! id = (λ t,
        if decide (id < task_id ∧ (lhs ∈ Task_indexes t ∨ rhs ∈ Task_indexes t))
        then swap_index_uid_in_task t (lhs, rhs) else t) <$> all_tasks q !! id
  end.
Proof. apply apply_index_swap_effect. Qed.
End swap_facts.

(** ** The deletions of a batch *)

Section deletions.
Context `{Externals}.

(** A deletion task as [register] builds it. *)
Definition is_task_deletion (t : Task) : bool :=
  match kind t, details t with
  | KindWithContent.TaskDeletion _ _, Some (Details.TaskDeletion _ _ _) => true
  | _, _ => false
  end.

Definition deleted_count (t : Task) : Z :=
  match details t with
  | Some (Details.TaskDeletion _ (Some n) _) => n
  | _ => 0
  end.

Definition total_deleted (ts : list Task) : Z := foldr (λ t n, deleted_count t + n) 0 ts.

Lemma total_deleted_app ts1 ts2 : total_deleted (ts1 ++ ts2) = total_deleted ts1 + total_deleted ts2.
Proof. unfold total_deleted. induction ts1 as [|t ts1 IH]; simpl; [done|]. rewrite IH. lia. Qed.

Lemma bm_len_split (A B : bitmap) : bm_len A = bm_len (A ∩ B) + bm_len (A ∖ B).
Proof.
  unfold bm_len. rewrite <-Nat2Z.inj_add, <-size_union by set_solver. do 2 f_equal.
  apply set_eq. intros x. destruct (decide (x ∈ B)); set_solver.
Qed.

Lemma credit_deletion_loop ts : ∀ D out,
  Forall (λ t, is_task_deletion t = true) ts →
  ∃ D' ts' ms, for_each credit_deletion (D, out) ts = Ok (D', out ++ ts') ∧
    collect matched_by ts = Ok ms ∧ D' = D ∖ ⋃ ms ∧
    (uid <$> ts') = (uid <$> ts) ∧ Forall (λ t, status t = Status.Succeeded) ts' ∧
    total_deleted ts' + bm_len D' = bm_len D.
Proof.
  induction ts as [|t ts IH]; intros D out Hts.
  { exists D, [], []. rewrite app_nil_r. split_and!; try done. set_solver. }
  apply Forall_cons in Hts as [Ht Hts]. unfold is_task_deletion in Ht.
  assert (∃ m t1, matched_by t = Ok m ∧ credit_deletion (D, out) t = Ok (D ∖ m, out ++ [t1]) ∧
    uid t1 = uid t ∧ status t1 = Status.Succeeded ∧ deleted_count t1 = bm_len (D ∩ m))
    as (m & t1 & Hm & Hcr & Hu1 & Hs1 & Hc1).
  { unfold matched_by, credit_deletion. destruct (kind t) eqn:Hk; try done.
    destruct (details t) as [[]|] eqn:Hd; try done. by eexists _, _. }
  destruct (IH (D ∖ m) (out ++ [t1]) Hts) as (D' & ts' & ms & Hfor & Hcol & HD & Hu & Hs & Htot).
  cbn [for_each collect]. rewrite Hcr, Hm. cbn [mbind outcome_bind]. rewrite Hfor, Hcol.
  exists D', (t1 :: ts'), (m :: ms). cbn [mbind outcome_bind]. rewrite <-app_assoc. split_and!; try done.
  - rewrite HD. set_solver.
  - cbn [fmap list_fmap]. by rewrite Hu1, Hu.
  - by constructor.
  - cbn [total_deleted foldr]. fold (total_deleted ts'). rewrite (bm_len_split D m), Hc1. lia.
Qed.

(** A batch of deletion tasks never fails on a well-formed queue:
    it deletes the tasks matched by any of them that may be deleted, marks every
    deletion as succeeded, and the numbers of deleted tasks they report add up
    to the number of tasks deleted (a task matched by several deletions is
    counted once). *)
Theorem process_deletions_spec q processing ts :
  tq_wf (tasks q) → Forall (λ t, is_task_deletion t = true) ts →
  ∃ ts' q' ms, process_deletions q processing ts = (Ok ts', q') ∧ tq_wf (tasks q') ∧
    collect matched_by ts = Ok ms ∧ uid <$> ts' = uid <$> ts ∧
    Forall (λ t, status t = Status.Succeeded) ts' ∧
    total_deleted ts' = bm_len (deletable (tasks q) processing (⋃ ms)) ∧
    ∀ id, all_tasks (tasks q') !! id =
      if decide (id ∈ deletable (tasks q) processing (⋃ ms)) then None else all_tasks (tasks q) !! id.
Proof.
  intros Hwf Hts.
  destruct (credit_deletion_loop ts ∅ [] Hts) as (_ & _ & ms & _ & Hms & _).
  destruct (delete_matched_Ok q processing (⋃ ms) Hwf) as (q' & Hdel & Hwf' & _ & Hall).
  set (D := deletable (tasks q) processing (⋃ ms)) in *.
  destruct (credit_deletion_loop ts D [] Hts) as (D' & ts' & ms' & Hcr & Hms' & HD & Hu & Hs & Htot).
  assert (ms' = ms) as -> by congruence. exists ts', q', ms.
  unfold process_deletions. rewrite Hms. cbn [mbind outcome_bind]. rewrite Hdel. cbn [mbind outcome_bind].
  rewrite Hcr. split_and!; try done.
  fold D. rewrite <-Htot, HD. assert (D ∖ ⋃ ms = ∅) as ->; [|unfold bm_len; rewrite size_empty; lia].
  unfold D, deletable. set_solver.
Qed.
End deletions.

(** ** Index deletions *)

Section index_deletion.
Context `{Externals}.

(** The [todo!()] of [default_finished_details] is not reached from a batch of
    the autobatcher. *)
Lemma finish_index_deletion_Ok n done ids ts :
  BatchInv done (BatchKind.IndexDeletion ids) → Forall (λ t, (uid t, kind t) ∈ done) ts →
  ∃ ts', collect (finish_index_deletion n) ts = Ok ts' ∧
    uid <$> ts' = uid <$> ts ∧ Forall (λ t, status t = Status.Succeeded) ts'.
Proof.
  intros (_ & Hk & _) Hts. unfold all_kinds in Hk. rewrite Forall_forall in Hk.
  induction Hts as [|t ts Ht _ (ts' & IH & Hu & Hs)]; [exists []; by split_and!|].
  specialize (Hk _ Ht). simpl in Hk.
  assert (∃ t', finish_index_deletion n t = Ok t' ∧ uid t' = uid t ∧ status t' = Status.Succeeded)
    as (t' & Hf & Hu' & Hs').
  { unfold finish_index_deletion. destruct (kind t); try done; by eexists. }
  exists (t' :: ts'). cbn [collect]. rewrite Hf, IH. cbn [mbind outcome_bind]. split_and!; [done| |by constructor].
  cbn [fmap list_fmap]. by rewrite Hu', Hu.
Qed.
End index_deletion.

(** ** The tasks a branch returns *)

Section progress.
Context `{Externals} `{!ExternalsOk}.

(** [t'] is [t] after its processing. *)
Record progressed (t t' : Task) : Prop := {
  pg_uid : uid t' = uid t;
  pg_enqueued : enqueued_at t' = enqueued_at t;
  pg_kind : kind t' = kind t;
  pg_status : status t' ≠ Status.Enqueued;
}.

Lemma with_status_details_progressed t s d :
  s ≠ Status.Enqueued → progressed t (with_status_details t s d).
Proof. by constructor. Qed.

Lemma credit_progressed ts : ∀ D out D' out',
  for_each credit_deletion (D, out) ts = Ok (D', out') → ∃ ts', out' = out ++ ts' ∧ Forall2 progressed ts ts'.
Proof.
  induction ts as [|t ts IH]; intros D out D' out' Hr; cbn [for_each] in Hr.
  { simplify_eq. exists []. by rewrite app_nil_r. }
  inv_bind Hr. destruct r as [D1 out1].
  assert (∃ t', out1 = out ++ [t'] ∧ progressed t t') as (t' & -> & Ht).
  { unfold credit_deletion in *. destruct (kind t); try done. destruct (details t) as [[]|]; try done.
    simplify_eq. eexists. split; [done|]. by constructor. }
  apply IH in Hr as (ts' & -> & Hts). exists (t' :: ts'). rewrite <-app_assoc. split; [done|by constructor].
Qed.

Lemma collect_Forall2 {A B} (f : A → outcome Error B) (P : A → B → Prop) l :
  (∀ x y, f x = Ok y → P x y) → ∀ l', collect f l = Ok l' → Forall2 P l l'.
Proof.
  intros Hf. induction l as [|x l IH]; intros l' Hr; cbn [collect] in Hr; [by simplify_eq|].
  inv_bind Hr. inv_bind Hr. simplify_eq. constructor; auto.
Qed.

Lemma finish_index_deletion_progressed n t t' : finish_index_deletion n t = Ok t' → progressed t t'.
Proof.
  unfold finish_index_deletion. destruct (kind t) eqn:Hk; intros Hr; try (inv_bind Hr); simplify_eq;
    by apply with_status_details_progressed.
Qed.

(** [q'] is [q] with other index names in the tasks older than [id]. *)
Definition renamed (t t' : Task) : Prop :=
  uid t' = uid t ∧ status t' = status t ∧ enqueued_at t' = enqueued_at t ∧ started_at t' = started_at t ∧
  finished_at t' = finished_at t ∧ content_uuid t' = content_uuid t ∧
  referenced_tasks (kind t') = referenced_tasks (kind t).

Definition renamed_before (id : TaskId) (q q' : TaskQueue) : Prop :=
  ∀ y, match all_tasks q !! y, all_tasks q' !! y with
       | Some t, Some t' => renamed t t' ∧ (id ≤ y → t' = t)
       | None, None => True
       | _, _ => False
       end.

#[export] Instance renamed_preorder : PreOrder renamed.
Proof.
  split; [by intros t; split_and!|]. intros t1 t2 t3 (?&?&?&?&?&?&?) (?&?&?&?&?&?&?).
  split_and!; congruence.
Qed.

#[export] Instance renamed_before_preorder id : PreOrder (renamed_before id).
Proof.
  split.
  - intros q y. by destruct (all_tasks q !! y).
  - intros q1 q2 q3 H1 H2 y. specialize (H1 y). specialize (H2 y).
    destruct (all_tasks q1 !! y), (all_tasks q2 !! y), (all_tasks q3 !! y); try done.
    destruct H1 as [H1 E1], H2 as [H2 E2]. split; [by etransitivity|].
    intros Hy. rewrite (E2 Hy). by apply E1.
Qed.

Lemma swap_renamed t sw : renamed t (swap_index_uid_in_task t sw).
Proof.
  split_and!; try done; unfold content_uuid, referenced_tasks, swap_index_uid_in_task; simpl;
    by destruct (kind t).
Qed.

Lemma apply_index_swap_renamed q m id lhs rhs q' m' :
  tq_wf q → apply_index_swap q m id lhs rhs = Ok (q', m') → tq_wf q' ∧ renamed_before id q q'.
Proof.
  intros Hwf Hr. pose proof (apply_index_swap_effect q m id lhs rhs Hwf) as He.
  destruct (m !! lhs) as [a|]; [|congruence]. destruct (m !! rhs) as [b|]; [|congruence].
  destruct He as (q1 & He & Hwf1 & Hall). rewrite Hr in He. simplify_eq. split; [done|].
  intros y. rewrite Hall. destruct (all_tasks q !! y) as [t|]; simpl; [|done].
  case_decide; [|done]. split; [apply swap_renamed|lia].
Qed.

Lemma process_index_swap_renamed q m task ts q' m' :
  tq_wf q → process_index_swap q m task = Ok (ts, q', m') →
  tq_wf q' ∧ renamed_before (uid task) q q' ∧
  ts = [with_status_details task Status.Succeeded (details task)].
Proof.
  intros Hwf Hr. unfold process_index_swap in Hr. destruct (kind task) eqn:Hk; try done.
  destruct (btree_iter _) as [|? []]; try done. inv_bind Hr. destruct r as [q1 m1]. simplify_eq.
  enough (tq_wf q' ∧ renamed_before (uid task) q q') as [? ?].
  { split_and!; try done. unfold with_status_details. by rewrite Hk. }
  match goal with H : for_each _ _ _ = _ |- _ => rename H into Hfor end.
  clear Hk. revert q m Hwf Hfor. induction swaps as [|sw swaps IH]; intros q m Hwf Hfor; cbn [for_each] in Hfor;
    [by simplify_eq|].
  inv_bind Hfor. destruct r as [q1 m1]. cbn [fst snd] in *.
  match goal with H : apply_index_swap _ _ _ _ _ = _ |- _ => apply apply_index_swap_renamed in H as [Hwf1 Hr1]; [|done] end.
  destruct (IH q1 m1 Hwf1 Hfor) as [? ?]. split; [done|]. by etransitivity.
Qed.
End progress.

(** ** Witnesses *)

Section witnesses.
#[local] Existing Instance sample_externals.

(** The queue once its task has succeeded. *)
Definition sample_done_queue : TaskQueue :=
  match update_task sample_queue sample_done with Ok q => q | _ => sample_queue end.

Lemma sample_done_queue_wf : tq_wf sample_done_queue.
Proof.
  destruct (update_task_wf sample_queue sample_task sample_done sample_queue_wf) as (q' & Hq' & Hwf & _).
  - reflexivity.
  - constructor; [done | by left | by left].
  - done.
  - unfold sample_done_queue. by rewrite Hq'.
Qed.

Definition sample_q_done : Queue := mkQueue sample_done_queue BatchQueue_new ∅ ∅ 10.

Lemma delete_matched_tasks_spec_witness :
  tq_wf (tasks sample_q_done) ∧
  ∃ D q', delete_matched_tasks sample_q_done ∅ {[0; 1]} = Ok (D, q') ∧ tq_wf (tasks q') ∧ 0 ∈ D.
Proof.
  split; [exact sample_done_queue_wf|].
  destruct (delete_matched_tasks_spec sample_q_done ∅ {[0; 1]} sample_done_queue_wf)
    as (D & q' & Hd & Hwf & HD & _).
  exists D, q'. split; [exact Hd|]. split; [exact Hwf|]. apply HD. exists sample_done. by vm_compute.
Defined.

Definition sample_deletion : Task :=
  mkTask 1 None 40 None None None None (Some (Details.TaskDeletion 2 None "?")) Status.Enqueued
    (KindWithContent.TaskDeletion "?" {[0; 1]}).

Lemma process_deletions_spec_witness :
  tq_wf (tasks sample_q_done) ∧
  ∃ ts' q', process_deletions sample_q_done ∅ [sample_deletion] = (Ok ts', q') ∧ total_deleted ts' = 1.
Proof.
  split; [exact sample_done_queue_wf|].
  destruct (process_deletions_spec sample_q_done ∅ [sample_deletion] sample_done_queue_wf)
    as (ts' & q' & ms & Hp & _ & Hms & _ & _ & Htot & _); [by repeat constructor|].
  exists ts', q'. split; [exact Hp|]. rewrite Htot. simpl in Hms. injection Hms as <-. by vm_compute.
Defined.

Lemma cancel_matched_tasks_spec_witness :
  tq_wf sample_queue ∧
  ∃ ts pb', cancel_matched_tasks (λ s _, (Ok (), s)) "" sample_queue () 5 (ProcessingBatch_new 50 3) {[0]}
    = (Ok (ts, pb'), ()) ∧
    pb_uid pb' = 3.
Proof.
  split; [exact sample_queue_wf|].
  destruct (cancel_matched_tasks_spec (λ s _, (Ok (), s)) "" sample_queue () 5 (ProcessingBatch_new 50 3) {[0]}
    sample_queue_wf) as (st & _ & _ & _ & Hc & _).
  destruct Hc as (pb' & Hc & Hu). exists (canceled 5 3 <$> st), pb'. split; [exact Hc | exact Hu].
Defined.

Lemma apply_index_swap_spec_witness :
  tq_wf sample_queue ∧
  ∃ q' m', apply_index_swap sample_queue {["movies" := 1; "books" := 2]} 3 "movies" "books" = Ok (q', m') ∧
    tq_wf q'.
Proof.
  split; [exact sample_queue_wf|].
  pose proof (@apply_index_swap_spec sample_externals sample_externals_ok sample_queue
    {["movies" := 1; "books" := 2]} 3 "movies" "books" sample_queue_wf) as Hs.
  destruct Hs as (q' & Hs & Hwf & _). eexists q', _. split; [exact Hs | exact Hwf].
Defined.

(** The batch 7 holds the tasks 0 and 1. *)
Definition sample_mapped : Queue := mkQueue sample_done_queue BatchQueue_new {[7 := {[0; 1]}]} ∅ 10.

Lemma deleted_tasks_stay_in_batch_witness :
  ({[0; 1]} : bitmap) ∖ {[0]} ≠ ∅ ∧
  tasks_in_batch (delete_batch_tasks no_affected sample_mapped (7, {[0]})) 7 = {[0; 1]}.
Proof.
  assert (Hne : ({[0; 1]} : bitmap) ∖ {[0]} ≠ ∅) by (by vm_compute).
  split; [exact Hne|].
  apply (deleted_tasks_stay_in_batch no_affected sample_mapped 7 {[0; 1]} {[0]}); [reflexivity | exact Hne].
Defined.
End witnesses.
