(* ===== verification/Tick.v ===== *)
(** * One iteration of the scheduler

    [crates/index-scheduler/src/scheduler/mod.rs]: what [tick] writes once a
    batch has been processed, with or without success, and how it decides what
    to do next. *)

From S2P Require Import Prelude TaskTypes DetailsView SchedUtils TaskQueue BatchQueue Queue CreateBatch ProcessBatch.
Open Scope Z_scope.

Inductive TickOutcome := TickAgain (n : Z) | WaitForSignal | StopProcessingForever.

Section tick.
Context `{Externals}.

(** What [tick] reads from the rest of the system: the response a failed batch
    is reported with, whether an index could be resized, and the progress and
    the sizes the batch is stored with. *)
Record TickEnv := mkTickEnv {
  into_response_error : Error → ResponseError;
  resize_index : string → outcome Error ();
  batch_progress_trace : Object;
  batch_congestion : option Object;
  batch_database_sizes : Object;
}.

(** The state of the loops over the processed tasks. *)
Record TickState := mkTickState {
  ts_queue : TaskQueue;
  ts_batch : ProcessingBatch;
  ts_canceled : bitmap;
  ts_canceled_by : option TaskId;
}.

(** The body of the loop over the tasks of a batch that succeeded. *)
Definition write_processed_task (st : TickState) (task : Task) : outcome Error TickState :=
  let '(processing_batch, task) := update (ts_batch st) task in
  let is_canceled := bool_decide (status task = Status.Canceled) in
  q ← map_err UnrecoverableError (update_task (ts_queue st) task);
  Ok (mkTickState q processing_batch
        (if is_canceled then {[uid task]} ∪ ts_canceled st else ts_canceled st)
        (if is_canceled then canceled_by task else ts_canceled_by st)).

Definition fail_task (error : ResponseError) (task : Task) : Task :=
  mkTask (uid task) (batch_uid task) (enqueued_at task) (started_at task) (finished_at task)
    (Some error) (canceled_by task) (Details.to_failed <$> details task) Status.Failed (kind task).

(** The body of the loop over the ids of a batch that failed. *)
Definition write_failed_task (error : ResponseError) (st : TickState) (id : TaskId)
    : outcome Error TickState :=
  task ← ok_or CorruptedTaskQueue (get_task (ts_queue st) id);
  let '(processing_batch, task) := update (ts_batch st) (fail_task error task) in
  q ← map_err UnrecoverableError (update_task (ts_queue st) task);
  Ok (mkTickState q processing_batch (ts_canceled st) (ts_canceled_by st)).

Definition with_stats (env : TickEnv) (b : ProcessingBatch) : ProcessingBatch :=
  let s := pb_stats b in
  mkProcessingBatch (pb_uid b) (pb_details b)
    (mkBatchStats (total_nb_tasks s) (bs_status s) (bs_types s) (bs_index_uids s)
       (batch_progress_trace env) (batch_congestion env) (batch_database_sizes env))
    (pb_statuses b) (pb_kinds b) (pb_indexes b) (pb_canceled_by b) (pb_enqueued_at b)
    (pb_started_at b) (pb_finished_at b) (pb_reason b).

(** Whether an error is an abortion, or a full index. *)
Definition is_abort (e : Error) : bool :=
  match e with
  | Milli error _ => is_aborted_indexation error
  | AbortedTask => true
  | _ => false
  end.
Definition is_full (e : Error) : bool :=
  match e with Milli error _ => is_max_database_size_reached error | _ => false end.
Definition is_upgrade_error (e : Error) : bool :=
  match e with DatabaseUpgrade _ => true | _ => false end.

(** The write transaction that ends a tick, from the result [res] of the
    processing (a panic of its thread being already [ProcessBatchPanicked]).
    [None] is an aborted transaction: the tick stops there and the tasks will be
    scheduled again. *)
Definition write_results (env : TickEnv) (now : DateTime) (q : Queue) (batch : SchedBatch.t)
    (processing_batch : ProcessingBatch) (res : sum (list Task) Error)
    : outcome Error (option (Queue * bitmap)) :=
  let ids := SchedBatch.ids batch in
  let processing_batch := finished now processing_batch in
  let st := mkTickState (tasks q) processing_batch ∅ None in
  match res with
  | inl ts =>
      st ← for_each write_processed_task st ts;
      let tq :=
        match ts_canceled_by st with
        | Some c => set_canceled_by (<[c := ts_canceled st]> (tq_canceled_by (ts_queue st))) (ts_queue st)
        | None => ts_queue st
        end in
      let ids := ids ∪ ts_canceled st in
      q ← write_batch (set_tasks tq q) (with_stats env (ts_batch st)) ids;
      Ok (Some (q, ids))
  | inr e =>
      if is_abort e then Ok None else
      match (if is_full e then SchedBatch.index_uid batch else None) with
      | Some index_uid => _ ← resize_index env index_uid; Ok None
      | None =>
          st ← for_each (write_failed_task (into_response_error env e)) st (bm_iter ids);
          let ids := ids ∪ ts_canceled st in
          q ← write_batch (set_tasks (ts_queue st) q) (with_stats env (ts_batch st)) ids;
          Ok (Some (q, ids))
      end
  end.

(** The deletion of the update files of the processed tasks.  A file that cannot
    be deleted is only logged.  The threads of the code take the ids one by one
    from a shared counter: here they are taken in order. *)
Fixpoint delete_files (not_found : ForeignError) (q : Queue) (ids : list TaskId)
    : Queue * outcome Error () :=
  match ids with
  | [] => (q, Ok ())
  | id :: ids =>
      match get_task (tasks q) id with
      | Some task =>
          delete_files not_found
            (match delete_persisted_task_data not_found q task with Ok q => q | _ => q end) ids
      | None => (q, Err CorruptedTaskQueue)
      end
  end.

Definition stops_forever (res : sum (list Task) Error) : bool :=
  match res with inr e => is_upgrade_error e | inl _ => false end.

(** From the result of the processing to the end of [tick]: the state left
    behind and the value returned. *)
Definition finish_tick (env : TickEnv) (not_found : ForeignError) (now : DateTime)
    (s : Queue * ProcessingTasks) (batch : SchedBatch.t) (processing_batch : ProcessingBatch)
    (res : sum (list Task) Error) : (Queue * ProcessingTasks) * outcome Error TickOutcome :=
  match write_results env now s.1 batch processing_batch res with
  | Ok (Some (q, ids)) =>
      let processing := (stop_processing s.2).1 in
      let '(q, r) := delete_files not_found q (bm_iter ids) in
      (q, processing,
       _ ← r;
       Ok (if stops_forever res then StopProcessingForever else TickAgain (bm_len (SchedBatch.ids batch))))
  | Ok None => (s, Ok (TickAgain 0))
  | Err e => (s, Err e)
  | Panic => (s, Panic)
  end.

(** [IndexScheduler::tick].  [process_batch] is the processing of a batch: it
    returns the queue it leaves, the processing batch it was lent and the
    processed tasks or an error.  [now] and [later] are the dates at which the
    batch is created and finished.  The webhook is not covered. *)
Definition tick (env : TickEnv) (senv : SchedulerEnv) (cleanup_enabled : bool)
    (format_date : DateTime → option string) (not_found : ForeignError) (progress : ProgressView)
    (process_batch : Queue → SchedBatch.t → ProcessingBatch → Queue * ProcessingBatch * (list Task + Error))
    (now later : DateTime) (s : Queue * ProcessingTasks)
    : (Queue * ProcessingTasks) * outcome Error TickOutcome :=
  match (if cleanup_enabled then cleanup_task_queue format_date now s.1 else Ok s.1) with
  | Ok q =>
      match map_err CreateBatch (create_next_batch not_found now senv q) with
      | Ok (Some (batch, processing_batch)) =>
          let processing := start_processing progress s.2 processing_batch (SchedBatch.ids batch) in
          let '(q, processing_batch, res) := process_batch q batch processing_batch in
          finish_tick env not_found later (q, processing) batch processing_batch res
      | Ok None => (q, s.2, Ok WaitForSignal)
      | Err e => (q, s.2, Err e)
      | Panic => (q, s.2, Panic)
      end
  | Err e => (s, Err e)
  | Panic => (s, Panic)
  end.
End tick.

(** ** The loops over the processed tasks *)

Section tick_facts.
Context `{Externals}.

(** A task as [ProcessingBatch::update] leaves it. *)
Definition finished_task (pb : ProcessingBatch) (t : Task) : Task :=
  mkTask (uid t) (Some (pb_uid pb)) (enqueued_at t) (Some (pb_started_at pb)) (pb_finished_at pb)
    (error t) (canceled_by t) (details t) (status t) (kind t).

(** The fields of a processing batch that [update] does not change. *)
Definition same_identity (pb pb' : ProcessingBatch) : Prop :=
  pb_uid pb' = pb_uid pb ∧ pb_started_at pb' = pb_started_at pb ∧
  pb_finished_at pb' = pb_finished_at pb ∧ pb_enqueued_at pb' = pb_enqueued_at pb.

#[global] Instance same_identity_preorder : PreOrder same_identity.
Proof.
  split; [by intros pb; split_and!|]. intros a b c (?&?&?&?) (?&?&?&?). unfold same_identity.
  by split_and!; etransitivity.
Qed.

Lemma update_spec pb t :
  ∃ pb', update pb t = (pb', finished_task pb t) ∧ same_identity pb pb'.
Proof. eexists. by split. Qed.

Lemma finished_task_same pb pb' t : same_identity pb pb' → finished_task pb' t = finished_task pb t.
Proof. intros (Hu & Hs & Hf & _). unfold finished_task. by rewrite Hu, Hs, Hf. Qed.

(** A task that is still enqueued has not been started. *)
Definition not_started (t : Task) : Prop :=
  status t = Status.Enqueued → started_at t = None ∧ finished_at t = None.

(** [t] may replace [old] at the end of a batch. *)
Definition replaces (q : TaskQueue) (t : Task) : Prop :=
  ∃ old, all_tasks q !! uid t = Some old ∧ not_started old ∧ enqueued_at old = enqueued_at t ∧
    ∀ i, i ∈ Task_indexes t ↔ i ∈ Task_indexes old.

Lemma replaces_update q pb t :
  tq_wf q → replaces q t →
  ∃ q', update_task q (finished_task pb t) = Ok q' ∧ tq_wf q' ∧
    all_tasks q' = <[uid t := finished_task pb t]> (all_tasks q).
Proof.
  intros Hwf (old & Hold & Hns & He & Hi).
  destruct (update_task_wf q old (finished_task pb t) Hwf Hold) as (q' & Hq' & Hwf' & Hall); [|done|].
  - constructor; [done|..]; intros Hs; left; by apply Hns.
  - by exists q'.
Qed.

Lemma replaces_other q q' t t' :
  all_tasks q' = <[uid t := t']> (all_tasks q) → ∀ u, uid u ≠ uid t → replaces q u → replaces q' u.
Proof.
  intros Hall u Hne (old & Hold & Hr). exists old. rewrite Hall, lookup_insert_ne by done. by split.
Qed.

(** The ids of the tasks a batch canceled. *)
Definition canceled_ids (ts : list Task) : bitmap :=
  list_to_set (uid <$> filter (λ t, status t = Status.Canceled) ts).

Lemma write_processed_loop pb ts : ∀ st,
  tq_wf (ts_queue st) → same_identity pb (ts_batch st) → NoDup (uid <$> ts) →
  Forall (replaces (ts_queue st)) ts →
  ∃ st', for_each write_processed_task st ts = Ok st' ∧ tq_wf (ts_queue st') ∧
    same_identity pb (ts_batch st') ∧ ts_canceled st' = canceled_ids ts ∪ ts_canceled st ∧
    all_tasks (ts_queue st') =
      foldl (λ m t, <[uid t := finished_task pb t]> m) (all_tasks (ts_queue st)) ts.
Proof.
  induction ts as [|t ts IH]; intros st Hwf Hid Hnd Hrep.
  { exists st. split_and!; try done. unfold canceled_ids. set_solver. }
  apply NoDup_cons in Hnd as [Hni Hnd]. apply Forall_cons in Hrep as [Ht Hrep].
  destruct (update_spec (ts_batch st) t) as (pb1 & Hup & Hid1).
  rewrite (finished_task_same pb (ts_batch st) t Hid) in Hup.
  destruct (replaces_update (ts_queue st) pb t Hwf Ht) as (q1 & Hq1 & Hwf1 & Hall1).
  set (st1 := mkTickState q1 pb1
    (if bool_decide (status t = Status.Canceled) then {[uid t]} ∪ ts_canceled st else ts_canceled st)
    (if bool_decide (status t = Status.Canceled) then canceled_by t else ts_canceled_by st)).
  assert (Hstep : write_processed_task st t = Ok st1).
  { unfold write_processed_task. rewrite Hup. rewrite Hq1. done. }
  destruct (IH st1) as (st' & Hr & Hwf' & Hid' & Hc' & Hall'); try done.
  { by transitivity (ts_batch st). }
  { rewrite Forall_forall in Hrep |- *. intros u Hu. eapply (replaces_other (ts_queue st)); [exact Hall1| |by apply Hrep].
    intros Heq. apply Hni, list_elem_of_fmap. by exists u. }
  exists st'. cbn [for_each]. rewrite Hstep. cbn [mbind outcome_bind]. split_and!; try done.
  - rewrite Hc'. simpl. unfold canceled_ids. rewrite filter_cons.
    destruct (decide (status t = Status.Canceled)); [rewrite bool_decide_true by done|rewrite bool_decide_false by done];
      [rewrite fmap_cons|]; set_solver.
  - rewrite Hall'. simpl. by rewrite Hall1.
Qed.

Lemma write_failed_loop err pb l : ∀ st,
  tq_wf (ts_queue st) → same_identity pb (ts_batch st) → NoDup l →
  (∀ id, id ∈ l → ∃ t, all_tasks (ts_queue st) !! id = Some t ∧ not_started t) →
  ∃ st', for_each (write_failed_task err) st l = Ok st' ∧ tq_wf (ts_queue st') ∧
    same_identity pb (ts_batch st') ∧ ts_canceled st' = ts_canceled st ∧
    ∀ id, all_tasks (ts_queue st') !! id =
      if decide (id ∈ l) then (λ t, finished_task pb (fail_task err t)) <$> all_tasks (ts_queue st) !! id
      else all_tasks (ts_queue st) !! id.
Proof.
  induction l as [|x l IH]; intros st Hwf Hid Hnd Hl.
  { by exists st. }
  apply NoDup_cons in Hnd as [Hx Hnd]. destruct (Hl x) as (t & Ht & Hns); [by left|].
  pose proof (wf_uid _ Hwf _ _ Ht) as Hu.
  destruct (update_spec (ts_batch st) (fail_task err t)) as (pb1 & Hup & Hid1).
  rewrite (finished_task_same pb (ts_batch st) _ Hid) in Hup.
  destruct (replaces_update (ts_queue st) pb (fail_task err t) Hwf) as (q1 & Hq1 & Hwf1 & Hall1).
  { exists t. simpl. by rewrite Hu. }
  assert (Hstep : write_failed_task err st x = Ok (mkTickState q1 pb1 (ts_canceled st) (ts_canceled_by st))).
  { unfold write_failed_task, get_task. rewrite Ht. cbn [ok_or mbind outcome_bind]. rewrite Hup, Hq1. done. }
  simpl in Hall1. rewrite Hu in Hall1.
  destruct (IH (mkTickState q1 pb1 (ts_canceled st) (ts_canceled_by st))) as (st' & Hr & Hwf' & Hid' & Hc' & Hall'); try done.
  { by transitivity (ts_batch st). }
  { intros id Hin. simpl. rewrite Hall1. rewrite lookup_insert_ne by (intros ->; done). apply Hl. by right. }
  exists st'. cbn [for_each]. rewrite Hstep. cbn [mbind outcome_bind]. split_and!; try done.
  intros id. rewrite Hall'. simpl. rewrite Hall1. destruct (decide (id = x)) as [->|Hne].
  - rewrite lookup_insert_eq, Ht. rewrite (decide_True (P := x ∈ x :: l)) by set_solver.
    by rewrite decide_False by done.
  - rewrite lookup_insert_ne by done. repeat case_decide; set_solver.
Qed.

(** The tasks of [ts], each stored under its id. *)
Lemma lookup_foldl_insert pb ts (m : gmap TaskId Task) :
  NoDup (uid <$> ts) →
  let m' := foldl (λ m t, <[uid t := finished_task pb t]> m) m ts in
  (∀ t, t ∈ ts → m' !! uid t = Some (finished_task pb t)) ∧
  (∀ id, id ∉ uid <$> ts → m' !! id = m !! id).
Proof.
  revert m. induction ts as [|t ts IH]; intros m Hnd m'; [by split; [set_solver|]|].
  apply NoDup_cons in Hnd as [Hni Hnd]. destruct (IH (<[uid t := finished_task pb t]> m) Hnd) as [Hin Hout].
  split.
  - intros u [->|Hu]%elem_of_cons; [|by apply Hin]. unfold m'. simpl. rewrite Hout by done.
    apply lookup_insert_eq.
  - intros id Hid. apply not_elem_of_cons in Hid as [Hne Hid]. unfold m'. simpl. rewrite Hout by done.
    by rewrite lookup_insert_ne.
Qed.

(** Recording who canceled the tasks does not touch the indexes. *)
Lemma set_canceled_by_wf m q : tq_wf q → tq_wf (set_canceled_by m q).
Proof. intros []. by constructor. Qed.

(** What the end of a tick writes: the batch and the ids of its tasks. *)
Record recorded (q q' : Queue) (pb : ProcessingBatch) (now : DateTime) (ids : bitmap) : Prop := {
  rec_tq : tq_wf (tasks q');
  rec_bq : bq_wf (batches q');
  rec_batch : ∃ b, all_batches (batches q') = <[pb_uid pb := b]> (all_batches (batches q)) ∧
    b_finished_at b = Some now ∧ b_started_at b = pb_started_at pb;
  rec_mapping : batch_to_tasks_mapping q' = <[pb_uid pb := ids]> (batch_to_tasks_mapping q);
}.

Lemma write_batch_recorded env now q tq pb pb' ids :
  tq_wf tq → bq_wf (batches q) → pb_enqueued_at pb ≠ None → same_identity (finished now pb) pb' →
  ∃ q', write_batch (set_tasks tq q) (with_stats env pb') ids = Ok q' ∧ tasks q' = tq ∧
    file_store q' = file_store q ∧ recorded q q' pb now ids.
Proof.
  intros Htq Hbq He (Hu & Hs & Hf & He'). destruct (pb_enqueued_at pb) as [e|] eqn:Hpe; [|done].
  simpl in Hu, Hs, Hf, He'. rewrite Hpe in He'.
  destruct (bq_write_batch_ok (batches q) (with_stats env pb') e now Hbq He' Hf) as (bq & Hw & Hwf & Hall & _).
  unfold write_batch. cbn [set_mapping set_tasks batches]. rewrite Hw. cbn [mbind outcome_bind].
  eexists. split; [done|]. split; [done|]. split; [done|]. simpl in Hall. rewrite Hu in Hall.
  constructor; try done.
  - exists (to_batch (with_stats env pb')). by split_and!.
  - simpl. by rewrite Hu.
Qed.

(** The transaction of a batch that succeeded. *)
Lemma write_results_processed env now q batch pb ts :
  tq_wf (tasks q) → bq_wf (batches q) → pb_enqueued_at pb ≠ None →
  NoDup (uid <$> ts) → Forall (replaces (tasks q)) ts →
  let ids := SchedBatch.ids batch ∪ canceled_ids ts in
  ∃ q', write_results env now q batch pb (inl ts) = Ok (Some (q', ids)) ∧
    file_store q' = file_store q ∧ recorded q q' pb now ids ∧
    (∀ t, t ∈ ts → all_tasks (tasks q') !! uid t = Some (finished_task (finished now pb) t)) ∧
    (∀ id, id ∉ uid <$> ts → all_tasks (tasks q') !! id = all_tasks (tasks q) !! id).
Proof.
  intros Htq Hbq He Hnd Hrep ids.
  destruct (write_processed_loop (finished now pb) ts (mkTickState (tasks q) (finished now pb) ∅ None))
    as (st & Hst & Hwf & Hid & Hc & Hall); try done.
  simpl in Hc, Hall. rewrite (right_id_L ∅ (∪)) in Hc.
  unfold write_results. rewrite Hst. cbn [mbind outcome_bind]. rewrite Hc. fold ids.
  set (tq := match ts_canceled_by st with Some _ => _ | None => _ end).
  assert (tq_wf tq ∧ all_tasks tq = all_tasks (ts_queue st)) as [Htq' Hall'].
  { unfold tq. destruct (ts_canceled_by st); [|done]. split; [by apply set_canceled_by_wf|done]. }
  destruct (write_batch_recorded env now q tq pb (ts_batch st) ids) as (q' & -> & Htasks & Hfs & Hrec); try done.
  exists q'. split; [done|]. split; [done|]. split; [done|]. rewrite Htasks, Hall', Hall. by apply lookup_foldl_insert.
Qed.

(** The transaction of a batch that failed. *)
Lemma write_results_failed env now q batch pb e :
  tq_wf (tasks q) → bq_wf (batches q) → pb_enqueued_at pb ≠ None → is_abort e = false →
  (is_full e = true → SchedBatch.index_uid batch = None) →
  (∀ id, id ∈ SchedBatch.ids batch → ∃ t, all_tasks (tasks q) !! id = Some t ∧ not_started t) →
  let ids := SchedBatch.ids batch in
  ∃ q', write_results env now q batch pb (inr e) = Ok (Some (q', ids)) ∧
    file_store q' = file_store q ∧ recorded q q' pb now ids ∧
    ∀ id, all_tasks (tasks q') !! id =
      if decide (id ∈ ids)
      then (λ t, finished_task (finished now pb) (fail_task (into_response_error env e) t))
             <$> all_tasks (tasks q) !! id
      else all_tasks (tasks q) !! id.
Proof.
  intros Htq Hbq He Ha Hf Hids ids.
  destruct (write_failed_loop (into_response_error env e) (finished now pb) (bm_iter ids)
    (mkTickState (tasks q) (finished now pb) ∅ None)) as (st & Hst & Hwf & Hid & Hc & Hall); try done.
  { apply NoDup_bm_iter. }
  { intros id Hi%elem_of_bm_iter. by apply Hids. }
  simpl in Hc, Hall. unfold write_results. rewrite Ha. fold ids.
  replace (if is_full e then SchedBatch.index_uid batch else None) with (None : option string)
    by (destruct (is_full e); [by rewrite Hf|done]).
  rewrite Hst. cbn [mbind outcome_bind]. rewrite Hc, (right_id_L ∅ (∪)).
  destruct (write_batch_recorded env now q (ts_queue st) pb (ts_batch st) ids)
    as (q' & -> & Htasks & Hfs & Hrec); try done.
  exists q'. split; [done|]. split; [done|]. split; [done|]. intros id. rewrite Htasks, Hall.
  destruct (decide (id ∈ ids)) as [Hi|Hi]; [rewrite decide_True by (by apply elem_of_bm_iter)
    |rewrite decide_False by (by rewrite elem_of_bm_iter)]; done.
Qed.

(** ** The update files *)

(** The update file [u] belongs to one of the tasks [ids]. *)
Definition owned (q : Queue) (ids : list TaskId) (u : Uuid) : Prop :=
  ∃ id t, id ∈ ids ∧ all_tasks (tasks q) !! id = Some t ∧ content_uuid t = Some u.

Lemma delete_files_spec nf ids : ∀ q,
  (∀ id, id ∈ ids → is_Some (all_tasks (tasks q) !! id)) →
  ∃ fs, delete_files nf q ids = (set_file_store fs q, Ok ()) ∧
    ∀ u, (owned q ids u → fs !! u = None) ∧ (¬ owned q ids u → fs !! u = file_store q !! u).
Proof.
  induction ids as [|id ids IH]; intros q Hids.
  { exists (file_store q). split; [by destruct q|]. intros u. split; [|done]. intros (? & ? & Hn & _).
    by apply elem_of_nil in Hn. }
  cbn [delete_files]. unfold get_task. destruct (Hids id) as [t Ht]; [by left|]. rewrite Ht.
  set (q1 := match delete_persisted_task_data nf q t with Ok q => q | _ => q end).
  assert (∃ fs, q1 = set_file_store fs q ∧ ∀ u, fs !! u =
    if decide (content_uuid t = Some u) then None else file_store q !! u) as (fs & Hq1 & Hfs).
  { unfold q1, delete_persisted_task_data, delete_update_file. destruct (content_uuid t) as [u|].
    - destruct (file_store q !! u) eqn:Hu; [exists (delete u (file_store q))|exists (file_store q)];
        (split; [by destruct q|]); intros u'; case_decide as Hd; simplify_eq; try done.
      + by rewrite lookup_delete_eq.
      + rewrite lookup_delete_ne; congruence.
    - exists (file_store q). split; [by destruct q|]. intros u. by rewrite decide_False. }
  destruct (IH q1) as (fs' & -> & Hfs'); [rewrite Hq1; intros; apply Hids; by right|].
  exists fs'. split; [by rewrite Hq1|]. intros u. destruct (Hfs' u) as [Hin Hout]. rewrite Hq1 in *.
  unfold owned in *. cbn [tasks set_file_store file_store] in *. rewrite Hfs in Hout.
  destruct (decide (content_uuid t = Some u)) as [Hu|Hu].
  - split; [|intros Hn; destruct Hn; exists id, t; split; [by left|done]]. intros _.
    destruct (fs' !! u) eqn:Hx; [|done]. exfalso.
    assert (Hno : ¬ ∃ id0 t0, id0 ∈ ids ∧ all_tasks (tasks q) !! id0 = Some t0 ∧ content_uuid t0 = Some u)
      by (intros Hy; by specialize (Hin Hy)).
    by specialize (Hout Hno).
  - split.
    + intros (i & t' & [->|Hi]%elem_of_cons & Ht' & Hu'); [congruence|]. apply Hin. eauto.
    + intros Hn. apply Hout. intros (i & t' & Hi & Ht'). apply Hn. exists i, t'. split; [by right|done].
Qed.
End tick_facts.

(** ** Ticks *)

Section ticks.
Context `{Externals}.

Lemma recorded_files q q' pb now ids fs :
  recorded q q' pb now ids → recorded q (set_file_store fs q') pb now ids.
Proof. intros []. by constructor. Qed.

(** The end of a tick that committed its transaction. *)
Lemma finish_committed env nf now q pt batch pb res q1 ids :
  write_results env now q batch pb res = Ok (Some (q1, ids)) →
  (∀ id, id ∈ ids → is_Some (all_tasks (tasks q1) !! id)) →
  ∃ fs, finish_tick env nf now (q, pt) batch pb res = (set_file_store fs q1, ProcessingTasks_new,
      Ok (if stops_forever res then StopProcessingForever else TickAgain (bm_len (SchedBatch.ids batch)))) ∧
    ∀ u, (owned q1 (bm_iter ids) u → fs !! u = None) ∧
         (¬ owned q1 (bm_iter ids) u → fs !! u = file_store q1 !! u).
Proof.
  intros Hw Hids. destruct (delete_files_spec nf (bm_iter ids) q1) as (fs & Hdel & Hown).
  { intros id Hid%elem_of_bm_iter. by apply Hids. }
  exists fs. split; [|done]. unfold finish_tick. cbn [fst snd]. by rewrite Hw, Hdel.
Qed.

(** The tasks listed by a batch are among the processed ones. *)
Lemma listed_processed (m : gmap TaskId Task) pb batch ts id :
  (∀ t, t ∈ ts → m !! uid t = Some (finished_task pb t)) → SchedBatch.ids batch ⊆ list_to_set (uid <$> ts) →
  id ∈ SchedBatch.ids batch ∪ canceled_ids ts →
  ∃ t, t ∈ ts ∧ uid t = id ∧ m !! id = Some (finished_task pb t).
Proof.
  intros Hin Hsub Hid. assert (id ∈ uid <$> ts) as (t & -> & Ht)%list_elem_of_fmap; [|by eauto].
  apply elem_of_union in Hid as [Hid|Hid]; [by apply Hsub, elem_of_list_to_set in Hid|].
  apply elem_of_list_to_set, list_elem_of_fmap in Hid as (t & -> & [_ Ht]%list_elem_of_filter).
  apply list_elem_of_fmap. eauto.
Qed.

(** C16. The end of a tick whose batch succeeded.  If the processed tasks
    are distinct and each replaces a stored one, the tick goes on: every
    processed task is stored with the dates and the id of the batch, the other
    tasks do not change, the batch is stored as finished and lists its tasks
    together with the tasks it canceled, both queues stay well-formed, nothing
    is processing any more, and the update files of exactly these tasks are
    gone. *)
Theorem finish_tick_success env nf now q pt batch pb ts :
  tq_wf (tasks q) → bq_wf (batches q) → dated pb →
  NoDup (uid <$> ts) → Forall (replaces (tasks q)) ts → SchedBatch.ids batch ⊆ list_to_set (uid <$> ts) →
  let ids := SchedBatch.ids batch ∪ canceled_ids ts in
  ∃ q', finish_tick env nf now (q, pt) batch pb (inl ts) =
      (q', ProcessingTasks_new, Ok (TickAgain (bm_len (SchedBatch.ids batch)))) ∧
    recorded q q' pb now ids ∧
    (∀ t, t ∈ ts → all_tasks (tasks q') !! uid t = Some (finished_task (finished now pb) t)) ∧
    (∀ id, id ∉ uid <$> ts → all_tasks (tasks q') !! id = all_tasks (tasks q) !! id) ∧
    (∀ u, owned q' (bm_iter ids) u → file_store q' !! u = None) ∧
    (∀ u, ¬ owned q' (bm_iter ids) u → file_store q' !! u = file_store q !! u).
Proof.
  intros Htq Hbq He Hnd Hrep Hsub ids.
  destruct (write_results_processed env now q batch pb ts Htq Hbq He Hnd Hrep)
    as (q1 & Hw & Hfs & Hrec & Hin & Hout).
  destruct (finish_committed env nf now q pt batch pb (inl ts) q1 ids Hw) as (fs & -> & Hown).
  { intros id Hid. destruct (listed_processed _ _ _ _ _ Hin Hsub Hid) as (t & _ & _ & ->). eauto. }
  exists (set_file_store fs q1). split; [done|]. split; [by apply recorded_files|]. split; [done|].
  split; [done|]. rewrite <-Hfs. split; intros u; apply Hown.
Qed.

(** C22. The end of a tick whose batch failed.  An aborted batch, or a
    full index once resized, leaves the whole state as it is and asks for
    another tick.  Any other error is written to all the tasks of the batch,
    which are stored as failed and finished with that error, and to no other
    task; only the failure of an upgrade stops the scheduler for good. *)
Theorem finish_tick_failure env nf now q pt batch pb e :
  tq_wf (tasks q) → bq_wf (batches q) → dated pb →
  (∀ id, id ∈ SchedBatch.ids batch → ∃ t, all_tasks (tasks q) !! id = Some t ∧ not_started t) →
  let ids := SchedBatch.ids batch in
  let r := finish_tick env nf now (q, pt) batch pb (inr e) in
  if is_abort e then r = (q, pt, Ok (TickAgain 0))
  else match (if is_full e then SchedBatch.index_uid batch else None) with
  | Some i => r = (q, pt, _ ← resize_index env i; Ok (TickAgain 0))
  | None => ∃ q', r = (q', ProcessingTasks_new,
        Ok (if is_upgrade_error e then StopProcessingForever else TickAgain (bm_len ids))) ∧
      recorded q q' pb now ids ∧
      (∀ id t, id ∈ ids → all_tasks (tasks q) !! id = Some t →
        all_tasks (tasks q') !! id =
          Some (finished_task (finished now pb) (fail_task (into_response_error env e) t))) ∧
      (∀ id, id ∉ ids → all_tasks (tasks q') !! id = all_tasks (tasks q) !! id)
  end.
Proof.
  intros Htq Hbq He Hids ids r. unfold r. destruct (is_abort e) eqn:Ha.
  { unfold finish_tick, write_results. simpl. by rewrite Ha. }
  destruct (if is_full e then _ else _) as [i|] eqn:Hf.
  { unfold finish_tick, write_results. simpl. rewrite Ha, Hf. by destruct (resize_index env i). }
  destruct (write_results_failed env now q batch pb e Htq Hbq He Ha) as (q1 & Hw & Hfs & Hrec & Hall); [|done|].
  { by destruct (is_full e). }
  assert (Hin : ∀ id t, id ∈ ids → all_tasks (tasks q) !! id = Some t → all_tasks (tasks q1) !! id =
    Some (finished_task (finished now pb) (fail_task (into_response_error env e) t))).
  { intros id t Hi Ht. rewrite Hall. fold ids. rewrite decide_True by done. by rewrite Ht. }
  destruct (finish_committed env nf now q pt batch pb (inr e) q1 ids Hw) as (fs & -> & _).
  { intros id Hid. destruct (Hids id Hid) as (t & Ht & _). rewrite (Hin id t Hid Ht). eauto. }
  exists (set_file_store fs q1). split; [done|]. split; [by apply recorded_files|]. split; [done|].
  intros id Hi. simpl. rewrite Hall. fold ids. by rewrite decide_False.
Qed.

End ticks.

(** ** The interface with the processing of batches *)

Section interface.
Context `{Externals}.

(** What holds between two ticks: the indexes of both queues are exact, the
    tasks still enqueued have not been started and have their update file, no two
    tasks share an update file, and no task cancels or deletes itself. *)
Record queue_ok (q : Queue) : Prop := {
  ok_tq : tq_wf (tasks q);
  ok_bq : bq_wf (batches q);
  ok_started : ∀ id t, all_tasks (tasks q) !! id = Some t → not_started t;
  ok_files : ∀ id t u, all_tasks (tasks q) !! id = Some t → status t = Status.Enqueued →
    content_uuid t = Some u → is_Some (file_store q !! u);
  ok_owner : ∀ id1 id2 t1 t2 u, all_tasks (tasks q) !! id1 = Some t1 → all_tasks (tasks q) !! id2 = Some t2 →
    content_uuid t1 = Some u → content_uuid t2 = Some u → id1 = id2;
  ok_refs : ∀ id t, all_tasks (tasks q) !! id = Some t → id ∉ referenced_tasks (kind t);
}.

Lemma queue_ok_files q : queue_ok q → files_present q.
Proof.
  intros Hq t u [Ht [Hs|[_ Hk]]] Hu; [by eapply (ok_files _ Hq)|].
  unfold task_kind in Hk. unfold content_uuid in Hu. by destruct (kind t).
Qed.

(** What the processing of a batch promises, whether it succeeds or not: the
    queue stays in order; on success every task of the batch is returned, the
    tasks returned are distinct, no longer enqueued, and replace stored tasks of
    the same kind; on failure the tasks of the batch are still there. *)
Record processed (batch : SchedBatch.t) (r : Queue * ProcessingBatch * (list Task + Error)) : Prop := {
  pr_queue : queue_ok r.1.1;
  pr_dated : dated r.1.2;
  pr_tasks :
    match r.2 with
    | inl ts => NoDup (uid <$> ts) ∧ Forall (replaces (tasks r.1.1)) ts ∧
        Forall (λ t, status t ≠ Status.Enqueued ∧
          ∀ old, all_tasks (tasks r.1.1) !! uid t = Some old → kind t = kind old) ts ∧
        SchedBatch.ids batch ⊆ list_to_set (uid <$> ts)
    | inr _ => ∀ id, id ∈ SchedBatch.ids batch → is_Some (all_tasks (tasks r.1.1) !! id)
    end;
}.

(** A processor keeps this promise on every batch the scheduler creates. *)
Class BatchProcessor
    (process_batch : Queue → SchedBatch.t → ProcessingBatch → Queue * ProcessingBatch * (list Task + Error))
    : Prop :=
  process_batch_ok q b pb stored t :
    queue_ok q → good_batch q b pb stored t → dated pb → shaped b → processed b (process_batch q b pb).

Lemma content_uuid_kind t t0 : kind t = kind t0 → content_uuid t = content_uuid t0.
Proof. unfold content_uuid. by intros ->. Qed.

(** The tasks that are still enqueued after a commit have not been touched, and
    their files are still there. *)
Lemma committed_ok q q1 pb now ids fs :
  queue_ok q → recorded q q1 pb now ids → file_store q1 = file_store q →
  (∀ id t, all_tasks (tasks q1) !! id = Some t → ∃ t0, all_tasks (tasks q) !! id = Some t0 ∧
     kind t = kind t0 ∧ (status t = Status.Enqueued → t = t0 ∧ id ∉ ids)) →
  (∀ u, ¬ owned q1 (bm_iter ids) u → fs !! u = file_store q1 !! u) →
  queue_ok (set_file_store fs q1).
Proof.
  intros Hq [Htq Hbq _ _] Hfs Hkeep Hown. constructor; try done; simpl.
  - intros id t Ht Hs. destruct (Hkeep id t Ht) as (t0 & Ht0 & _ & He). destruct (He Hs) as [-> _].
    by apply (ok_started _ Hq _ _ Ht0).
  - intros id t u Ht Hs Hu. destruct (Hkeep id t Ht) as (t0 & Ht0 & Hc & He). destruct (He Hs) as [-> Hid].
    rewrite Hown, Hfs; [by eapply (ok_files _ Hq)|]. intros (id2 & t2 & Hid2 & Ht2 & Hu2).
    apply elem_of_bm_iter in Hid2. destruct (Hkeep id2 t2 Ht2) as (t02 & Ht02 & Hc2 & _).
    destruct Hid. rewrite (ok_owner _ Hq id id2 t0 t02 u); try done; rewrite <-?(content_uuid_kind _ _ Hc2); done.
  - intros id1 id2 t1 t2 u Ht1 Ht2 Hu1 Hu2. destruct (Hkeep id1 t1 Ht1) as (t01 & Ht01 & Hc1 & _).
    destruct (Hkeep id2 t2 Ht2) as (t02 & Ht02 & Hc2 & _).
    apply (ok_owner _ Hq id1 id2 t01 t02 u); try done;
      [by rewrite <-(content_uuid_kind _ _ Hc1)|by rewrite <-(content_uuid_kind _ _ Hc2)].
  - intros id t Ht. destruct (Hkeep id t Ht) as (t0 & Ht0 & -> & _). by apply (ok_refs _ Hq _ _ Ht0).
Qed.

(** [ids] are over in [q]. *)
Definition over (q : Queue) (now : DateTime) (ids : bitmap) : Prop :=
  ∀ id, id ∈ ids → ∃ t, all_tasks (tasks q) !! id = Some t ∧ status t ≠ Status.Enqueued ∧
    finished_at t = Some now.

(** The end of a tick whose transaction is committed. *)
Definition tick_over (now : DateTime) (batch : SchedBatch.t) (res : list Task + Error)
    (r : (Queue * ProcessingTasks) * outcome Error TickOutcome) : Prop :=
  queue_ok r.1.1 ∧ r.1.2 = ProcessingTasks_new ∧ over r.1.1 now (SchedBatch.ids batch) ∧
  r.2 = Ok (if stops_forever res then StopProcessingForever else TickAgain (bm_len (SchedBatch.ids batch))).

Lemma finish_processed env nf now q pt batch pb ts :
  processed batch (q, pb, inl ts) →
  tick_over now batch (inl ts) (finish_tick env nf now (q, pt) batch pb (inl ts)).
Proof.
  intros [Hq Hd Ht]. simpl in Hq, Hd, Ht. destruct Ht as (Hnd & Hrep & Hst & Hsub).
  rewrite Forall_forall in Hst.
  destruct (write_results_processed env now q batch pb ts (ok_tq _ Hq) (ok_bq _ Hq) Hd Hnd Hrep)
    as (q1 & Hw & Hfs & Hrec & Hin & Hout).
  destruct (finish_committed env nf now q pt batch pb (inl ts) q1 _ Hw) as (fs & -> & Hown).
  { intros id Hid. destruct (listed_processed _ _ _ _ _ Hin Hsub Hid) as (t & _ & _ & ->). eauto. }
  split; [eapply committed_ok; try done; [|apply Hown]|].
  - intros id t Hl. destruct (decide (id ∈ uid <$> ts)) as [(t' & -> & Ht')%list_elem_of_fmap|Hn].
    + rewrite (Hin t' Ht') in Hl. simplify_eq. rewrite Forall_forall in Hrep.
      destruct (Hrep t' Ht') as (old & Hold & _). destruct (Hst t' Ht') as [Hs Hc].
      exists old. split; [done|]. split; [exact (Hc old Hold)|done].
    + rewrite (Hout id Hn) in Hl. exists t. split; [done|]. split; [done|]. intros _. split; [done|].
      intros Hid. destruct (listed_processed _ _ _ _ _ Hin Hsub Hid) as (t' & Ht' & <- & _).
      apply Hn, list_elem_of_fmap. eauto.
  - split; [done|]. split; [|done]. intros id Hid.
    destruct (listed_processed _ _ batch ts id Hin Hsub) as (t & Hti & _ & Hl); [set_solver|].
    eexists. split; [exact Hl|]. split; [by apply (Hst t)|done].
Qed.

Lemma finish_failed env nf now q pt batch pb e :
  processed batch (q, pb, inr e) → is_abort e = false →
  (is_full e = true → SchedBatch.index_uid batch = None) →
  tick_over now batch (inr e) (finish_tick env nf now (q, pt) batch pb (inr e)).
Proof.
  intros [Hq Hd Ht] Ha Hf. simpl in Hq, Hd, Ht.
  assert (Hids : ∀ id, id ∈ SchedBatch.ids batch → ∃ t, all_tasks (tasks q) !! id = Some t ∧ not_started t).
  { intros id Hid. destruct (Ht id Hid) as [t Hl]. exists t. split; [done|]. by eapply (ok_started _ Hq). }
  destruct (write_results_failed env now q batch pb e (ok_tq _ Hq) (ok_bq _ Hq) Hd Ha Hf Hids)
    as (q1 & Hw & Hfs & Hrec & Hall).
  destruct (finish_committed env nf now q pt batch pb (inr e) q1 _ Hw) as (fs & -> & Hown).
  { intros id Hid. rewrite Hall, decide_True by done. destruct (Ht id Hid) as [t ->]. eauto. }
  split; [eapply committed_ok; try done; [|apply Hown]|].
  - intros id t Hl. rewrite Hall in Hl. case_decide.
    + apply fmap_Some in Hl as (t' & Ht' & ->). by exists t'.
    + by exists t.
  - split; [done|]. split; [|done]. intros id Hid. destruct (Ht id Hid) as [t Hl].
    eexists. simpl. rewrite Hall, decide_True by done. rewrite Hl. done.
Qed.

(** What a tick that gives up on its batch answers: the scheduler asks for another
    tick, once the index is resized if it was full; [None] for the batches that are over. *)
Definition gave_up (env : TickEnv) (b : SchedBatch.t) (res : list Task + Error) : option (outcome Error TickOutcome) :=
  match res with
  | inl _ => None
  | inr e =>
      if is_abort e then Some (Ok (TickAgain 0))
      else match (if is_full e then SchedBatch.index_uid b else None) with
           | Some i => Some (_ ← resize_index env i; Ok (TickAgain 0))
           | None => None
           end
  end.

(** The end of a tick, whatever the processing did. *)
Lemma finish_tick_ok env nf now q pt batch pb res :
  processed batch (q, pb, res) →
  let r := finish_tick env nf now (q, pt) batch pb res in
  match gave_up env batch res with
  | Some o => r = (q, pt, o)
  | None => tick_over now batch res r
  end.
Proof.
  intros Hp r. destruct res as [ts|e]; [by eapply finish_processed|]. unfold gave_up.
  destruct (is_abort e) eqn:Ha.
  { unfold r, finish_tick, write_results. simpl. by rewrite Ha. }
  destruct (if is_full e then SchedBatch.index_uid batch else None) as [i|] eqn:Hf.
  - unfold r, finish_tick, write_results. simpl. rewrite Ha, Hf.
    assert (is_full e = true) by (by destruct (is_full e)). by destruct (resize_index env i).
  - eapply finish_failed; [done..|]. by destruct (is_full e).
Qed.
End interface.

(** ** The scheduler as a transition system *)

Section reachable.
Context `{Externals, !ExternalsOk}.

(** A queue with one more enqueued task. *)
Lemma registered_ok q q' id task :
  queue_ok q → tq_wf (tasks q') → batches q' = batches q → file_store q' = file_store q →
  all_tasks (tasks q') = <[id := task]> (all_tasks (tasks q)) → not_started task →
  (∀ u, content_uuid task = Some u → is_Some (file_store q !! u) ∧
     ∀ id2 t2, all_tasks (tasks q) !! id2 = Some t2 → content_uuid t2 ≠ Some u) →
  id ∉ referenced_tasks (kind task) →
  queue_ok q'.
Proof.
  intros Hq Hwf Hb Hfs Hall Hns Hu Hrefs. constructor; [done|by rewrite Hb; apply Hq|..]; rewrite Hall, ?Hfs.
  - intros id' t. rewrite lookup_insert_Some. intros [[<- <-]|[_ ?]]; [done|by eapply (ok_started _ Hq)].
  - intros id' t u. rewrite lookup_insert_Some. intros [[<- <-]|[_ ?]] Hs Hc; [by apply Hu|by eapply (ok_files _ Hq)].
  - intros id1 id2 t1 t2 u. rewrite !lookup_insert_Some.
    intros [[<- <-]|[_ H1]] [[<- <-]|[_ H2]] Hc1 Hc2; [done|..].
    + destruct (Hu u Hc1) as [_ Hn]. by destruct (Hn _ _ H2).
    + destruct (Hu u Hc2) as [_ Hn]. by destruct (Hn _ _ H1).
    + by eapply (ok_owner _ Hq id1 id2).
  - intros id' t. rewrite lookup_insert_Some. intros [[<- <-]|[_ ?]]; [done|by apply (ok_refs _ Hq)].
Qed.

(** The first step of a tick. *)
Lemma cleaned_ok (enabled : bool) format_date now q :
  queue_ok q → (∀ t, all_tasks (tasks q) !! u32_max ≠ Some t) → (∀ d, is_Some (format_date d)) →
  ∃ q', (if enabled then cleanup_task_queue format_date now q else Ok q) = Ok q' ∧ queue_ok q'.
Proof.
  intros Hq Hmax Hfmt. destruct enabled; [|by eauto].
  destruct (cleanup_task_queue_effect format_date now q (ok_tq _ Hq) Hmax Hfmt)
    as (q' & -> & Hwf & Hb & Hfs & [->|(_ & task & query & ids & Hall & Hk & _ & Hst & Hfin & _ & Hsub & _)]); [by eauto|].
  exists q'. split; [done|]. eapply registered_ok; try done.
  - intros u. unfold content_uuid. by rewrite Hk.
  - rewrite Hk. intros Hin%Hsub. apply elem_of_finished_tasks in Hin as (t & Ht & _); [|apply Hq].
    pose proof (next_task_id_fresh (tasks q) (next_task_id (tasks q)) (ok_tq _ Hq) Hmax ltac:(eauto)). lia.
Qed.

Definition processor : Type :=
  Queue → SchedBatch.t → ProcessingBatch → Queue * ProcessingBatch * (list Task + Error).

(** What a tick does from the state [s]: [q0] is the queue once it has been cleaned
    up, and the batch is the one created from it.  Either nothing is pending, and the
    tick waits; or the batch, which contains the task to serve first, is processed,
    and the tick gives it up or finishes it. *)
Section ticked.
Context (process_batch : processor) (env : TickEnv) (senv : SchedulerEnv) (cleanup_enabled : bool).
Context (format_date : DateTime → option string) (nf : ForeignError) (progress : ProgressView).
Context (now later : DateTime) (s : Queue * ProcessingTasks).

Record attempted (q0 : Queue) (b : SchedBatch.t) (pb : ProcessingBatch) (q1 : Queue) (res : list Task + Error) : Prop := {
  at_batch : create_next_batch nf now senv q0 = Ok (Some (b, pb));
  at_good : ∃ stored t, good_batch q0 b pb stored t;
  at_some : 0 < bm_len (SchedBatch.ids b);
  at_run : ∃ pb1, process_batch q0 b pb = (q1, pb1, res);
}.

Definition ticked (r : (Queue * ProcessingTasks) * outcome Error TickOutcome) : Prop :=
  ∃ q0, (if cleanup_enabled then cleanup_task_queue format_date now s.1 else Ok s.1) = Ok q0 ∧
    ((∀ t, ¬ pending q0 t) ∧ queue_ok q0 ∧ r = (q0, s.2, Ok WaitForSignal) ∨
     ∃ b pb q1 res, attempted q0 b pb q1 res ∧
       match gave_up env b res with
       | Some o => queue_ok q1 ∧ r = (q1, start_processing progress s.2 pb (SchedBatch.ids b), o)
       | None => tick_over later b res r
       end).

Lemma tick_ok `{!BatchProcessor process_batch} :
  queue_ok s.1 → (∀ t, all_tasks (tasks s.1) !! u32_max ≠ Some t) → (∀ d, is_Some (format_date d)) →
  db_version senv = Some VERSION → 1 ≤ max_number_of_batched_tasks senv →
  ticked (tick env senv cleanup_enabled format_date nf progress process_batch now later s).
Proof.
  intros Hq Hmax Hfmt Hver Hlim. unfold tick, ticked.
  destruct (cleaned_ok cleanup_enabled format_date now s.1 Hq Hmax Hfmt) as (q0 & -> & Hq0).
  exists q0. split; [done|].
  destruct (create_next_batch_returns nf now senv q0 (ok_tq _ Hq0) Hver Hlim (queue_ok_files _ Hq0))
    as [[-> Hn]|(b & pb & stored & t & Hb & Hg & Hd & Hsh)]; cbn [map_err]; [by left|].
  right. rewrite Hb. cbn [map_err].
  pose proof (process_batch_ok q0 b pb stored t Hq0 Hg Hd Hsh) as Hp.
  destruct (process_batch q0 b pb) as [[q1 pb1] res] eqn:Hrun.
  pose proof (finish_tick_ok env nf later q1 (start_processing progress s.2 pb (SchedBatch.ids b)) b pb1 res Hp) as Hf.
  cbv zeta in Hf. exists b, pb, q1, res. split.
  - constructor; [done|by eauto| |by eauto]. rewrite (good_batch_ids _ _ _ _ _ Hg).
    pose proof (gb_in _ _ _ _ _ Hg) as Hin. unfold bm_len.
    enough (size (list_to_set (C:=bitmap) (uid <$> stored)) ≠ 0%nat) by lia.
    intros Hz%size_empty_inv. apply (not_elem_of_empty (C:=bitmap) (uid t)), Hz.
    apply elem_of_list_to_set, list_elem_of_fmap. eauto.
  - destruct (gave_up env b res); [|done]. split; [apply Hp|done].
Qed.

Lemma ticked_queue_ok r : ticked r → queue_ok r.1.1.
Proof.
  intros (q0 & _ & [(_ & ? & ->)|(b & pb & q1 & res & _ & Ho)]); [done|].
  destruct (gave_up env b res); [by destruct Ho as [? ->]|apply Ho].
Qed.

(** The only failure of a tick is that of the resizing of an index that is full. *)
Lemma ticked_no_failure r : ticked r → (∀ i, resize_index env i = Ok ()) → ∃ o, r.2 = Ok o.
Proof.
  intros (q0 & _ & [(_ & _ & ->)|(b & pb & q1 & res & _ & Ho)]) Hres; [by eauto|].
  unfold gave_up in Ho. destruct res as [ts|e]; [destruct Ho as (_ & _ & _ & ->); eauto|].
  destruct (is_abort e); [destruct Ho as [_ ->]; eauto|].
  destruct (if is_full e then _ else _) as [i|]; [rewrite Hres in Ho; destruct Ho as [_ ->]; simpl; eauto|].
  destruct Ho as (_ & _ & _ & ->). eauto.
Qed.
End ticked.

(** The events of the life of a scheduler: the arrival of an update file, the
    registration of a task whose file, if any, is there and is its own, and a
    tick, with any processing of the batch that keeps its promise.  Fewer than [u32::MAX] tasks have been registered, dates can be printed
    and the database is at the version of the program. *)
Definition room (q : Queue) : Prop := ∀ t, all_tasks (tasks q) !! u32_max ≠ Some t.

Inductive step : Queue * ProcessingTasks → Queue * ProcessingTasks → Prop :=
| step_file q pt u size :
    file_store q !! u = None → step (q, pt) (set_file_store (<[u := size]> (file_store q)) q, pt)
| step_register q pt now k id dry_run task q' :
    room q → (∀ u, id = Some u → 0 ≤ u ≤ u32_max) →
    (∀ u, content_uuid (new_task now 0 k) = Some u → is_Some (file_store q !! u) ∧
       ∀ id2 t2, all_tasks (tasks q) !! id2 = Some t2 → content_uuid t2 ≠ Some u) →
    register now q k id dry_run = Ok (task, q') → step (q, pt) (q', pt)
| step_tick process_batch env senv cleanup_enabled format_date nf progress now later s :
    BatchProcessor process_batch → room s.1 → (∀ d, is_Some (format_date d)) → db_version senv = Some VERSION →
    1 ≤ max_number_of_batched_tasks senv →
    step s (tick env senv cleanup_enabled format_date nf progress process_batch now later s).1.

Lemma step_register_ok q now k id dry_run task q' :
  queue_ok q → room q → (∀ u, id = Some u → 0 ≤ u ≤ u32_max) →
  (∀ u, content_uuid (new_task now 0 k) = Some u → is_Some (file_store q !! u) ∧
     ∀ id2 t2, all_tasks (tasks q) !! id2 = Some t2 → content_uuid t2 ≠ Some u) →
  register now q k id dry_run = Ok (task, q') → queue_ok q'.
Proof.
  intros Hq Hroom Hrange Hu Hr. unfold register in Hr.
  destruct (match id with Some u => _ | None => _ end) eqn:Hbad; [done|]. inv_bind Hr.
  set (i := default _ id) in *. destruct dry_run; [by simplify_eq|]. simplify_eq.
  set (task := filter_out_references_to_newer_tasks (new_task now i k)) in *.
  destruct (tq_register_wf (tasks q) task (ok_tq _ Hq)) as [Hwf Hall].
  { apply new_task_fresh; [apply Hq|done|unfold i; destruct id; simpl; lia|].
    unfold i. destruct id; simpl; [by apply Hrange|apply next_task_id_range]. }
  pose proof (filter_out_references_spec (new_task now i k)) as (Huid & _ & _ & _ & _ & _ & Href).
  eapply registered_ok; try done.
  - pose proof (filter_out_references_spec (new_task now i k)) as (_ & _ & _ & Hs & Hf & _). done.
  - intros u Hc. apply Hu. unfold content_uuid in *. unfold task, filter_out_references_to_newer_tasks in Hc.
    by destruct k.
  - intros Hin. apply Href in Hin as [_ Hlt]. fold task in Huid. rewrite Huid in Hlt. simpl in Hlt. lia.
Qed.

(** Every state reached from an empty database is in order. *)
Lemma reachable_ok max s : rtc step (Queue_new max, ProcessingTasks_new) s → queue_ok s.1.
Proof.
  intros Hrtc. remember (Queue_new max, ProcessingTasks_new) as s0 eqn:Hs0.
  assert (queue_ok s0.1) as Hinit.
  { subst. constructor; [apply TaskQueue_new_wf|apply BatchQueue_new_wf|simpl; intros *; by rewrite lookup_empty..]. }
  clear Hs0. induction Hrtc as [|x y z Hstep _ IH]; [done|]. apply IH. clear IH.
  destruct Hstep as [q pt u size Hnew|q pt ? k id dry task q' Hroom Hrange Hu Hr|]; simpl in *.
  - destruct Hinit. constructor; try done. simpl. intros id t u' Ht Hs Hu.
    destruct (decide (u' = u)) as [->|]; [rewrite lookup_insert_eq|rewrite lookup_insert_ne by done]; eauto.
  - by eapply step_register_ok.
  - eapply ticked_queue_ok, tick_ok; done.
Qed.
End reachable.

(** ** Witnesses *)

Section witnesses.
#[local] Existing Instance sample_externals.
#[local] Existing Instance sample_externals_ok.

(** A task that succeeded. *)
Definition succeed (t : Task) : Task :=
  mkTask (uid t) (batch_uid t) (enqueued_at t) (started_at t) (finished_at t) (error t) (canceled_by t)
    (details t) Status.Succeeded (kind t).

Definition sample_tick_env : TickEnv := mkTickEnv (λ _, "") (λ _, Ok ()) "" None "".

(** The queue with one registered task. *)
Definition sample_new : Task := new_task 10 0 (KindWithContent.IndexCreation "movies" None).
Definition sample_state : Queue * ProcessingTasks :=
  (set_tasks (tq_register TaskQueue_new sample_new) (Queue_new 10), ProcessingTasks_new).

Lemma sample_room : room sample_state.1.
Proof. intros t. by vm_compute. Qed.

Lemma sample_reachable : rtc step (Queue_new 10, ProcessingTasks_new) sample_state.
Proof.
  apply rtc_once.
  apply (step_register (Queue_new 10) _ 10 (KindWithContent.IndexCreation "movies" None) None false sample_new);
    [intros t; by vm_compute | done | done | reflexivity].
Qed.

(** The batch of that task, being processed. *)
Definition sample_batch : SchedBatch.t := SchedBatch.IndexCreation "movies" None sample_new.
Definition sample_running : ProcessingBatch := (processing (ProcessingBatch_new 20 0) [sample_new]).1.

Lemma sample_lookup : all_tasks (tasks sample_state.1) !! 0 = Some sample_new.
Proof. by vm_compute. Qed.

Lemma sample_state_wf : tq_wf (tasks sample_state.1).
Proof. apply tq_register_wf; [apply TaskQueue_new_wf | by constructor]. Qed.

Lemma sample_replaces : Forall (replaces (tasks sample_state.1)) [succeed sample_new].
Proof. constructor; [|done]. by exists sample_new. Qed.

Lemma finish_tick_success_witness :
  Forall (replaces (tasks sample_state.1)) [succeed sample_new] ∧
  ∃ q', finish_tick sample_tick_env "" 30 sample_state sample_batch sample_running (inl [succeed sample_new]) =
      (q', ProcessingTasks_new, Ok (TickAgain 1)) ∧
    all_tasks (tasks q') !! 0 = Some (finished_task (finished 30 sample_running) (succeed sample_new)).
Proof.
  split; [exact sample_replaces|].
  destruct (finish_tick_success sample_tick_env "" 30 sample_state.1 sample_state.2 sample_batch sample_running
    [succeed sample_new] sample_state_wf BatchQueue_new_wf) as (q' & Hr & _ & Hin & _).
  - by vm_compute.
  - apply NoDup_singleton.
  - exact sample_replaces.
  - intros x Hx. exact Hx.
  - exists q'. split; [exact Hr|]. apply (Hin (succeed sample_new)). left.
Defined.

Lemma finish_tick_failure_witness :
  all_tasks (tasks sample_state.1) !! 0 = Some sample_new ∧
  ∃ q', finish_tick sample_tick_env "" 30 sample_state sample_batch sample_running (inr CorruptedTaskQueue) =
      (q', ProcessingTasks_new, Ok (TickAgain 1)) ∧
    all_tasks (tasks q') !! 0 = Some (finished_task (finished 30 sample_running) (fail_task "" sample_new)).
Proof.
  split; [exact sample_lookup|].
  destruct (finish_tick_failure sample_tick_env "" 30 sample_state.1 sample_state.2 sample_batch sample_running
    CorruptedTaskQueue sample_state_wf BatchQueue_new_wf) as (q' & Hr & _ & Hin & _).
  - by vm_compute.
  - intros id Hid. apply elem_of_list_to_set, list_elem_of_singleton in Hid. exists sample_new.
    split; [rewrite Hid; exact sample_lookup | done].
  - exists q'. split; [exact Hr|]. apply (Hin 0 sample_new); [|exact sample_lookup].
    apply elem_of_list_to_set. left.
Defined.
End witnesses.
