(* ===== verification/Lru.v ===== *)
(** * The LRU cache of the open indexes

    [crates/index-scheduler/src/lru.rs]: a vector of values with a generation
    number, the oldest of which is evicted when the cache is full, and the map
    built on it.  Reading a value through a shared reference also writes its
    generation, so [get] returns the new state too. *)

From S2P Require Import Prelude.
Open Scope Z_scope.

(** [Vec::swap_remove]: the element at [i], and the vector where the last
    element takes its place. *)
Definition swap_remove {A} (i : nat) (l : list A) : option (A * list A) :=
  match l !! i, last l with
  | Some x, Some y => Some (x, take (pred (length l)) (<[i := y]> l))
  | _, _ => None
  end.

Section Lru.
Context {T : Type}.

Record Lru := mkLru {
  data : list (Z * T);
  lru_generation : Z;
  cap : nat;
}.

Definition Lru_new {E} (cap : nat) : outcome E Lru :=
  if decide (cap = 0%nat) then Panic else Ok (mkLru [] 0 cap).

(** [next_generation] and [next_generation_mut]. *)
Definition lru_next_generation (self : Lru) : Z * Lru :=
  let g := u64_wrap (lru_generation self + 1) in (g, mkLru (data self) g (cap self)).

(** The loop of [pop]: the position and the generation of the first oldest
    element seen so far, and the position of the next element. *)
Definition min_step (acc : option (nat * Z) * nat) (entry : Z * T) : option (nat * Z) * nat :=
  let '(best, index) := acc in
  let generation := entry.1 in
  (match best with
   | Some (_, min_generation) =>
       if generation <? min_generation then Some (index, generation) else best
   | None => Some (index, generation)
   end, S index).

Definition lru_pop (self : Lru) : option T * Lru :=
  match (foldl min_step (None, 0%nat) (data self)).1 with
  | Some (min_index, _) =>
      match swap_remove min_index (data self) with
      | Some (x, l) => (Some x.2, mkLru l (lru_generation self) (cap self))
      | None => (None, self)
      end
  | None => (None, self)
  end.

Definition lru_is_full (self : Lru) : bool := bool_decide (length (data self) = cap self).

Definition lru_put (self : Lru) (value : T) : option T * Lru :=
  let '(next_generation, self) := lru_next_generation self in
  let '(evicted, self) := if lru_is_full self then lru_pop self else (None, self) in
  (evicted, mkLru (data self ++ [(next_generation, value)]) (lru_generation self) (cap self)).
End Lru.
Arguments Lru : clear implicits.

Section LruMap.
Context {K V : Type} `{EqDecision K}.

Inductive InsertionOutcome :=
| InsertedNew
| Evicted (k : K) (v : V)
| Replaced (v : V).

Abbreviation LruMap := (Lru (K * V)).

(** The position of a key. *)
Fixpoint position (key : K) (l : list (Z * (K * V))) : option nat :=
  match l with
  | [] => None
  | (_, (candidate, _)) :: l =>
      if decide (key = candidate) then Some 0%nat else S <$> position key l
  end.

(** [LruMap::get]: the counter advances only when the key is found. *)
Definition lru_get (self : LruMap) (key : K) : option V * LruMap :=
  match position key (data self) with
  | Some i =>
      match data self !! i with
      | Some (_, (candidate, value)) =>
          let '(generation, self) := lru_next_generation self in
          (Some value, mkLru (<[i := (generation, (candidate, value))]> (data self))
                         (lru_generation self) (cap self))
      | None => (None, self)
      end
  | None => (None, self)
  end.

(** [LruMap::insert], the value found by [get_mut] being replaced in place. *)
Definition lru_insert (self : LruMap) (key : K) (value : V) : InsertionOutcome * LruMap :=
  let '(next_generation, self) := lru_next_generation self in
  match position key (data self) with
  | Some i =>
      match data self !! i with
      | Some (_, (candidate, old_value)) =>
          (Replaced old_value,
           mkLru (<[i := (next_generation, (candidate, value))]> (data self))
             (lru_generation self) (cap self))
      | None => (InsertedNew, self)
      end
  | None =>
      match lru_put self (key, value) with
      | (Some (key, value), self) => (Evicted key value, self)
      | (None, self) => (InsertedNew, self)
      end
  end.

Definition lru_remove (self : LruMap) (key : K) : option V * LruMap :=
  match position key (data self) with
  | Some i =>
      match swap_remove i (data self) with
      | Some (x, l) => (Some x.2.2, mkLru l (lru_generation self) (cap self))
      | None => (None, self)
      end
  | None => (None, self)
  end.
End LruMap.
Arguments InsertionOutcome : clear implicits.

(** ** The cache as a list, the least recently used entry first *)

Section spec.
Context {K V : Type} `{EqDecision K}.
Implicit Types a : list (K * V).

Fixpoint find_entry (key : K) a : option V :=
  match a with
  | [] => None
  | (k, v) :: a => if decide (key = k) then Some v else find_entry key a
  end.

Definition without (key : K) a : list (K * V) := filter (λ kv, kv.1 ≠ key) a.

Definition cache_get (key : K) a : option V * list (K * V) :=
  match find_entry key a with
  | Some v => (Some v, without key a ++ [(key, v)])
  | None => (None, a)
  end.

Definition cache_insert (cap : nat) (key : K) (value : V) a : InsertionOutcome K V * list (K * V) :=
  match find_entry key a with
  | Some old => (Replaced old, without key a ++ [(key, value)])
  | None =>
      if decide (length a = cap) then
        match a with
        | (k, v) :: a => (Evicted k v, a ++ [(key, value)])
        | [] => (InsertedNew, [(key, value)])
        end
      else (InsertedNew, a ++ [(key, value)])
  end.

Definition cache_remove (key : K) a : option V * list (K * V) := (find_entry key a, without key a).

(** ** The representation *)

(** [a] lists the entries of the cache by increasing generation. *)
Record lru_repr (l : Lru (K * V)) a (d : list (Z * (K * V))) : Prop := {
  repr_perm : d ≡ₚ data l;
  repr_sorted : StronglySorted Z.lt d.*1;
  repr_entries : d.*2 = a;
  repr_generation : Forall (λ g, g ≤ lru_generation l) d.*1;
  repr_keys : NoDup a.*1;
  repr_cap : (length a ≤ cap l)%nat;
  repr_counter : 0 ≤ lru_generation l;
  repr_nonzero : cap l ≠ 0%nat;
}.

Lemma swap_remove_spec {A} i (l : list A) x :
  l !! i = Some x → ∃ l', swap_remove i l = Some (x, l') ∧ l ≡ₚ x :: l'.
Proof.
  intros Hx. unfold swap_remove. rewrite Hx.
  apply list_elem_of_split_length in Hx as (l1 & l2 & -> & ->).
  destruct l2 as [|y l2] using rev_ind.
  - rewrite last_snoc. eexists. split; [done|]. rewrite insert_app_r_alt, Nat.sub_diag by lia. simpl.
    rewrite length_app. simpl. replace (pred (length l1 + 1)) with (length l1) by lia.
    rewrite take_app_length. by rewrite Permutation_app_comm.
  - clear IHl2. replace (l1 ++ x :: l2 ++ [y]) with ((l1 ++ x :: l2) ++ [y]) by (by rewrite <-app_assoc).
    rewrite last_snoc. eexists. split; [done|].
    rewrite <-app_assoc. cbn [app]. rewrite insert_app_r_alt, Nat.sub_diag by lia. cbn [insert list_insert].
    assert (take (pred (length (l1 ++ x :: l2 ++ [y]))) (l1 ++ y :: l2 ++ [y]) = l1 ++ y :: l2) as ->.
    { replace (l1 ++ y :: l2 ++ [y]) with ((l1 ++ y :: l2) ++ [y]) by (by rewrite <-app_assoc).
      apply take_app_length'. rewrite !length_app; simpl. rewrite length_app; simpl. lia. }
    rewrite !Permutation_middle. f_equiv. rewrite <-Permutation_middle. by rewrite <-Permutation_cons_append.
Qed.

Lemma insert_spec {A} i (l : list A) x :
  l !! i = Some x → ∃ rest, l ≡ₚ x :: rest ∧ ∀ y, <[i := y]> l ≡ₚ y :: rest.
Proof.
  intros (l1 & l2 & -> & ->)%list_elem_of_split_length. exists (l1 ++ l2). split; [by rewrite Permutation_middle|].
  intros y. rewrite insert_app_r_alt, Nat.sub_diag by lia. simpl. by rewrite Permutation_middle.
Qed.

Lemma sorted_delete_middle (l1 l2 : list Z) x :
  StronglySorted Z.lt (l1 ++ x :: l2) → StronglySorted Z.lt (l1 ++ l2).
Proof.
  induction l1 as [|y l1 IH]; simpl; [by intros [? _]%StronglySorted_inv|].
  intros [Hs Hf]%StronglySorted_inv. constructor; [by apply IH|].
  rewrite !Forall_app, Forall_cons in Hf. rewrite Forall_app. tauto.
Qed.

Lemma sorted_snoc (l : list Z) g :
  StronglySorted Z.lt l → Forall (λ x, x < g) l → StronglySorted Z.lt (l ++ [g]).
Proof.
  induction l as [|y l IH]; simpl; [by repeat constructor|].
  intros [Hs Hf]%StronglySorted_inv [Hy Hl]%Forall_cons. constructor; [by apply IH|].
  rewrite Forall_app. by repeat constructor.
Qed.

Lemma find_entry_None key a : find_entry key a = None ↔ key ∉ a.*1.
Proof.
  induction a as [|[k v] a IH]; simpl; [by split; [intros _ ?%elem_of_nil|]|].
  rewrite not_elem_of_cons. case_decide; subst; [naive_solver|]. rewrite IH. naive_solver.
Qed.

Lemma find_entry_Some key v a : NoDup a.*1 → find_entry key a = Some v ↔ (key, v) ∈ a.
Proof.
  induction a as [|[k v'] a IH]; simpl; [by split; [|intros ?%elem_of_nil]|].
  intros [Hk Hnd]%NoDup_cons. rewrite elem_of_cons. case_decide as Hd; subst.
  - split; [intros [= ->]; by left|]. intros [[= ->]|Hin]; [done|]. destruct Hk.
    apply list_elem_of_fmap. by exists (k, v).
  - rewrite IH by done. naive_solver.
Qed.

Lemma without_notin key a : key ∉ a.*1 → without key a = a.
Proof.
  unfold without. induction a as [|[k v] a IH]; [done|]. simpl. rewrite not_elem_of_cons.
  intros [Hne Hk]. rewrite filter_cons_True by done. by rewrite IH.
Qed.

Lemma without_middle key v (a1 a2 : list (K * V)) :
  NoDup (a1 ++ (key, v) :: a2).*1 → without key (a1 ++ (key, v) :: a2) = a1 ++ a2.
Proof.
  rewrite fmap_app, fmap_cons. simpl. intros Hnd.
  assert (key ∉ (a1.*1 ++ a2.*1)) as Hn.
  { rewrite <-Permutation_middle in Hnd. by apply NoDup_cons in Hnd as [? _]. }
  rewrite elem_of_app in Hn. unfold without. rewrite filter_app, filter_cons_False by (simpl; tauto).
  pose proof (without_notin key a1) as H1. pose proof (without_notin key a2) as H2. unfold without in *.
  rewrite H1, H2 by tauto. done.
Qed.

Lemma position_spec key (l : list (Z * (K * V))) :
  match position key l with
  | Some i => ∃ g v, l !! i = Some (g, (key, v))
  | None => key ∉ l.*2.*1
  end.
Proof.
  induction l as [|[g [k v]] l IH]; simpl; [by intros ?%elem_of_nil|].
  case_decide; subst; [by eauto|]. destruct (position key l); simpl; [done|].
  rewrite not_elem_of_cons. done.
Qed.

(** Where a key of the cache is. *)
Lemma repr_position l a d key :
  lru_repr l a d →
  match position key (data l) with
  | Some i => ∃ g v, data l !! i = Some (g, (key, v)) ∧ find_entry key a = Some v
  | None => find_entry key a = None
  end.
Proof.
  intros Hr. pose proof (position_spec key (data l)) as Hp.
  pose proof (repr_perm _ _ _ Hr) as Hperm. pose proof (repr_entries _ _ _ Hr) as Ha.
  destruct (position key (data l)) as [i|].
  - destruct Hp as (g & v & Hi). exists g, v. split; [done|].
    apply find_entry_Some; [apply Hr|]. rewrite <-Ha, Hperm. apply list_elem_of_fmap.
    exists (g, (key, v)). split; [done|]. by eapply list_elem_of_lookup_2.
  - apply find_entry_None. by rewrite <-Ha, Hperm.
Qed.

(** Taking an entry out of the cache. *)
Lemma repr_take_out l a d g key v rest :
  lru_repr l a d → data l ≡ₚ (g, (key, v)) :: rest →
  ∃ d', d' ≡ₚ rest ∧ StronglySorted Z.lt d'.*1 ∧ d'.*2 = without key a ∧
    Forall (λ g, g ≤ lru_generation l) d'.*1 ∧ NoDup (without key a).*1 ∧ key ∉ (without key a).*1 ∧
    S (length (without key a)) = length a.
Proof.
  intros [Hp Hs He Hg Hk _ _ _] Hr. rewrite Hr in Hp.
  assert ((g, (key, v)) ∈ d) as (d1 & d2 & ->)%list_elem_of_split by (rewrite Hp; by left).
  exists (d1 ++ d2). rewrite <-Permutation_middle in Hp. apply Permutation_cons_inv in Hp.
  rewrite fmap_app, fmap_cons in Hs. rewrite fmap_app, fmap_cons in Hg. rewrite fmap_app, fmap_cons in He.
  cbn [fst snd] in *. subst a.
  rewrite without_middle by done. rewrite fmap_app, fmap_cons in Hk. cbn [fst] in Hk.
  rewrite <-Permutation_middle in Hk. apply NoDup_cons in Hk as [Hn Hk].
  rewrite Forall_app, Forall_cons in Hg.
  split_and!; rewrite ?fmap_app; try done.
  - by eapply sorted_delete_middle.
  - rewrite Forall_app. tauto.
  - rewrite !length_app. simpl. lia.
Qed.

(** The cache [l] holds the entries [a], the least recently used first. *)
Definition represents (l : Lru (K * V)) a : Prop := ∃ d, lru_repr l a d.

Lemma next_generation_eq (l : Lru (K * V)) :
  0 ≤ lru_generation l → lru_generation l + 1 < 2 ^ 64 →
  lru_next_generation l = (lru_generation l + 1, mkLru (data l) (lru_generation l + 1) (cap l)).
Proof. intros. unfold lru_next_generation, u64_wrap. by rewrite Z.mod_small by lia. Qed.

(** Writing an entry as the most recent one. *)
Lemma repr_put_back (l : Lru (K * V)) a d' data' g key v' rest :
  d' ≡ₚ rest → StronglySorted Z.lt d'.*1 → d'.*2 = a → Forall (λ g, g ≤ lru_generation l) d'.*1 →
  NoDup a.*1 → key ∉ a.*1 → (length a < cap l)%nat → 0 ≤ lru_generation l →
  lru_generation l < g → data' ≡ₚ (g, (key, v')) :: rest →
  represents (mkLru data' g (cap l)) (a ++ [(key, v')]).
Proof.
  intros Hp Hs <- Hg Hk Hn Hlen H0 Hlt Hd. exists (d' ++ [(g, (key, v'))]). constructor; simpl.
  - by rewrite Hd, <-Hp, <-Permutation_cons_append.
  - rewrite fmap_app. apply sorted_snoc; [done|]. eapply Forall_impl; [exact Hg|]. simpl. lia.
  - by rewrite fmap_app.
  - rewrite fmap_app, Forall_app. split; [|by repeat constructor]. eapply Forall_impl; [exact Hg|]. simpl. lia.
  - rewrite fmap_app. apply NoDup_app. split; [done|]. split; [|apply NoDup_singleton].
    intros k Hin ->%list_elem_of_singleton. done.
  - rewrite length_app. simpl. lia.
  - lia.
  - lia.
Qed.

(** Replacing the entry of a key and making it the most recent one. *)
Lemma repr_replace l a i g key v v' g' :
  represents l a → data l !! i = Some (g, (key, v)) → lru_generation l < g' →
  represents (mkLru (<[i := (g', (key, v'))]> (data l)) g' (cap l)) (without key a ++ [(key, v')]).
Proof.
  intros [d Hr] Hi Hlt. destruct (insert_spec i (data l) _ Hi) as (rest & Hperm & Hins).
  destruct (repr_take_out l a d g key v rest Hr Hperm) as (d' & Hp & Hs & He & Hg & Hk & Hn & Hlen).
  pose proof (repr_cap _ _ _ Hr). pose proof (repr_counter _ _ _ Hr).
  eapply (repr_put_back l (without key a) d' _ g' key v' rest); try done; lia.
Qed.

Lemma lru_get_spec l a key :
  represents l a → lru_generation l + 1 < 2 ^ 64 →
  ∃ l', lru_get l key = ((cache_get key a).1, l') ∧ represents l' (cache_get key a).2 ∧
    cap l' = cap l ∧ lru_generation l ≤ lru_generation l' ≤ lru_generation l + 1.
Proof.
  intros [d Hr] Hlt. pose proof (repr_counter _ _ _ Hr). unfold lru_get, cache_get.
  pose proof (repr_position l a d key Hr) as Hp. destruct (position key (data l)) as [i|].
  - destruct Hp as (g & v & Hi & Hf). rewrite Hi, Hf, next_generation_eq by done.
    eexists. split; [done|]. simpl. split; [|lia].
    eapply repr_replace; [by exists d|done|lia].
  - rewrite Hp. exists l. split; [done|]. split; [by exists d|]. lia.
Qed.

Lemma lru_remove_spec l a key :
  represents l a →
  ∃ l', lru_remove l key = ((cache_remove key a).1, l') ∧ represents l' (cache_remove key a).2 ∧
    cap l' = cap l ∧ lru_generation l' = lru_generation l.
Proof.
  intros [d Hr]. unfold lru_remove, cache_remove.
  pose proof (repr_position l a d key Hr) as Hp. destruct (position key (data l)) as [i|].
  - destruct Hp as (g & v & Hi & Hf). destruct (swap_remove_spec i (data l) _ Hi) as (l' & -> & Hperm).
    rewrite Hf. eexists. split; [done|]. simpl. split; [|done].
    destruct (repr_take_out l a d g key v l' Hr Hperm) as (d' & Hp & Hs & He & Hg & Hk & Hn & Hlen).
    exists d'. constructor; try done; simpl; try apply Hr. pose proof (repr_cap _ _ _ Hr). lia.
  - rewrite Hp. simpl. exists l. split; [done|]. split; [|done].
    rewrite without_notin by (by apply find_entry_None). by exists d.
Qed.

(** The loop of [pop]. *)
Lemma min_step_spec {T} (l : list (Z * T)) :
  (foldl min_step (None, 0%nat) l).2 = length l ∧
  match (foldl min_step (None, 0%nat) l).1 with
  | Some (i, g) => (∃ x, l !! i = Some (g, x)) ∧ Forall (λ e, g ≤ e.1) l
  | None => l = []
  end.
Proof.
  induction l as [|e l [Hn Hm]] using rev_ind; [done|]. rewrite foldl_snoc.
  destruct (foldl min_step (None, 0%nat) l) as [best n]. simpl in Hn, Hm. subst n. destruct e as [g x].
  unfold min_step. cbn [fst snd]. split; [rewrite length_app; simpl; lia|].
  destruct best as [[i gm]|].
  - destruct Hm as [[y Hy] Hf]. destruct (Z.ltb_spec g gm).
    + split; [exists x; by rewrite lookup_app_r, Nat.sub_diag by lia|].
      rewrite Forall_app. split; [|by repeat constructor]. eapply Forall_impl; [exact Hf|]. simpl. lia.
    + split; [exists y; by rewrite lookup_app_l by (by eapply lookup_lt_Some)|].
      rewrite Forall_app. by repeat constructor.
  - subst l. simpl. split; [by exists x|]. by repeat constructor.
Qed.

(** The entry evicted is the least recently used one. *)
Lemma lru_pop_spec l kv a :
  represents l (kv :: a) →
  ∃ l', lru_pop l = (Some kv, l') ∧ represents l' a ∧ cap l' = cap l ∧ lru_generation l' = lru_generation l.
Proof.
  intros [d [Hp Hs He Hg Hk Hc H0 Hz]]. unfold lru_pop. destruct d as [|[g0 x0] d]; [done|].
  simpl in He. injection He as -> He. destruct (min_step_spec (data l)) as [_ Hm].
  destruct (foldl min_step _ (data l)) as [[[i g]|] n]; simpl in Hm.
  2:{ rewrite Hm in Hp. symmetry in Hp. by apply Permutation_nil in Hp. }
  destruct Hm as [[x Hi] Hmin]. destruct (swap_remove_spec i (data l) _ Hi) as (l' & Hsw & Hperm).
  cbn [fst]. rewrite Hsw.
  assert ((g, x) = (g0, kv)) as Hx.
  { assert ((g, x) ∈ (g0, kv) :: d) as [?|Hin]%elem_of_cons by (rewrite Hp, Hperm; by left); [done|].
    rewrite fmap_cons in Hs. apply StronglySorted_inv in Hs as [_ Hf].
    rewrite Forall_forall in Hf. specialize (Hf g (list_elem_of_fmap_2 fst d (g, x) Hin)).
    rewrite Forall_forall in Hmin. specialize (Hmin (g0, kv)). simpl in *.
    assert (g ≤ g0); [|lia]. apply Hmin. rewrite <-Hp. by left. }
  injection Hx as -> ->. eexists. split; [done|]. split; [|done].
  rewrite Hperm in Hp. apply Permutation_cons_inv in Hp. exists d. constructor; try done; simpl in *.
  - by apply StronglySorted_inv in Hs as [? _].
  - by apply Forall_cons in Hg as [_ ?].
  - by apply NoDup_cons in Hk as [_ ?].
  - lia.
Qed.

(** Adding a key that is not in a cache with some room. *)
Lemma repr_push l a key v g :
  represents l a → key ∉ a.*1 → (length a < cap l)%nat → lru_generation l < g →
  represents (mkLru (data l ++ [(g, (key, v))]) g (cap l)) (a ++ [(key, v)]).
Proof.
  intros [d Hr] Hk Hlen Hlt.
  eapply (repr_put_back l a d _ g key v (data l)); try apply Hr; try done.
  by rewrite <-Permutation_cons_append.
Qed.

Lemma repr_length l a : represents l a → length (data l) = length a.
Proof.
  intros [d Hr]. rewrite <-(Permutation_length (repr_perm _ _ _ Hr)), <-(repr_entries _ _ _ Hr).
  by rewrite length_fmap.
Qed.

(** Advancing the counter. *)
Lemma repr_advance l a : represents l a →
  represents (mkLru (data l) (lru_generation l + 1) (cap l)) a.
Proof.
  intros [d [Hp Hs He Hg Hk Hc H0 Hz]]. exists d. constructor; try done; simpl; [|lia].
  eapply Forall_impl; [exact Hg|]. simpl. lia.
Qed.

Lemma lru_put_spec l a key v :
  represents l a → key ∉ a.*1 → lru_generation l + 1 < 2 ^ 64 →
  let a' := if decide (length a = cap l) then tail a else a in
  ∃ l', lru_put l (key, v) = (if decide (length a = cap l) then head a else None, l') ∧
    represents l' (a' ++ [(key, v)]) ∧ cap l' = cap l ∧ lru_generation l' = lru_generation l + 1.
Proof.
  intros Hr Hk Hlt a'. pose proof Hr as [d Hd].
  pose proof (repr_counter _ _ _ Hd). pose proof (repr_nonzero _ _ _ Hd). pose proof (repr_cap _ _ _ Hd).
  unfold lru_put. rewrite next_generation_eq by done. unfold lru_is_full. cbn [data cap].
  rewrite (repr_length l a Hr). unfold a'. case_decide as Hfull.
  - rewrite bool_decide_true by done. destruct a as [|kv a]; [by simpl in *; lia|].
    destruct (lru_pop_spec l kv a Hr) as (l' & Hpop & Hr' & Hc & Hg).
    assert (lru_pop (mkLru (data l) (lru_generation l + 1) (cap l)) =
      (Some kv, mkLru (data l') (lru_generation l + 1) (cap l))) as ->.
    { unfold lru_pop in *. simpl. destruct (foldl _ _ _) as [[[i g]|] n]; simpl in *; [|done].
      destruct (swap_remove i (data l)) as [[x l1]|]; [|done]. by simplify_eq/=. }
    eexists. split; [done|]. cbn [data lru_generation cap]. split; [|done]. rewrite <-Hc.
    apply not_elem_of_cons in Hk as [_ Hk]. simpl in *. apply repr_push; try done; lia.
  - rewrite bool_decide_false by done. eexists. split; [done|]. cbn [data lru_generation cap].
    split; [|done]. apply repr_push; try done; lia.
Qed.

Lemma lru_insert_spec l a key v :
  represents l a → lru_generation l + 2 < 2 ^ 64 →
  ∃ l', lru_insert l key v = ((cache_insert (cap l) key v a).1, l') ∧
    represents l' (cache_insert (cap l) key v a).2 ∧ cap l' = cap l ∧
    lru_generation l ≤ lru_generation l' ≤ lru_generation l + 2.
Proof.
  intros Hr Hlt. pose proof Hr as [d Hd]. pose proof (repr_counter _ _ _ Hd). unfold lru_insert, cache_insert.
  rewrite next_generation_eq by lia. cbn [data].
  pose proof (repr_position l a d key Hd) as Hp. destruct (position key (data l)) as [i|].
  - destruct Hp as (g & v0 & Hi & Hf). rewrite Hi, Hf. eexists. split; [done|]. cbn [fst snd lru_generation cap].
    split; [|lia]. eapply repr_replace; [done..|lia].
  - rewrite Hp. apply find_entry_None in Hp.
    destruct (lru_put_spec _ a key v (repr_advance l a Hr) Hp) as (l' & -> & Hr' & Hc & Hg); [simpl; lia|].
    cbn [cap lru_generation] in *. destruct (decide (length a = cap l)) as [Hfull|Hfull].
    + destruct a as [|[k0 v1] a]; [pose proof (repr_nonzero _ _ _ Hd); simpl in *; lia|].
      exists l'. split; [done|]. split; [exact Hr'|]. split; [done|]. lia.
    + exists l'. split; [done|]. split; [exact Hr'|]. split; [done|]. lia.
Qed.

Lemma Lru_new_represents c : c ≠ 0%nat → represents (mkLru [] 0 c) [].
Proof. intros. exists []. constructor; simpl; try done; try constructor; lia. Qed.

(** C30. The cache refines a list of entries kept from the least to the most
    recently used: reading or replacing an entry moves it to the end, inserting
    into a full cache evicts the first entry and no other, removing takes out
    one entry, and the capacity never changes nor is exceeded.  (The counter of
    generations must not have run through its 64 bits.) *)
Theorem lru_refines l a :
  represents l a → lru_generation l + 2 < 2 ^ 64 →
  (∀ key, (lru_get l key).1 = (cache_get key a).1 ∧
     represents (lru_get l key).2 (cache_get key a).2) ∧
  (∀ key v, (lru_insert l key v).1 = (cache_insert (cap l) key v a).1 ∧
     represents (lru_insert l key v).2 (cache_insert (cap l) key v a).2) ∧
  (∀ key, (lru_remove l key).1 = (cache_remove key a).1 ∧
     represents (lru_remove l key).2 (cache_remove key a).2) ∧
  length (data l) = length a ∧ (length (data l) ≤ cap l)%nat.
Proof.
  intros Hr Hlt. split; [|split; [|split; [|split]]].
  - intros key. destruct (lru_get_spec l a key Hr) as (l' & -> & ? & _); [lia|done].
  - intros key v. by destruct (lru_insert_spec l a key v Hr Hlt) as (l' & -> & ? & _).
  - intros key. by destruct (lru_remove_spec l a key Hr) as (l' & -> & ? & _).
  - by apply repr_length.
  - rewrite (repr_length l a Hr). destruct Hr as [d Hd]. apply Hd.
Qed.
End spec.

(** ** The cache as a map

    Whatever the counter does, and in particular when it wraps, the cache is a
    bounded map: what follows does not mention generations. *)

Section map_view.
Context {K V : Type} `{Countable K}.
Implicit Types l : Lru (K * V).

Record lru_ok l : Prop := {
  ok_keys : NoDup (data l).*2.*1;
  ok_bound : (length (data l) ≤ cap l)%nat;
  ok_cap : cap l ≠ 0%nat;
}.

Definition entries l : gmap K V := list_to_map (data l).*2.

Lemma entries_perm l (d : list (Z * (K * V))) :
  NoDup (data l).*2.*1 → data l ≡ₚ d → NoDup d.*2.*1 ∧ entries l = list_to_map d.*2.
Proof.
  intros Hnd Hp. split; [by rewrite <-Hp|]. unfold entries. apply list_to_map_proper; [done|]. by rewrite Hp.
Qed.

Lemma entries_position l key :
  lru_ok l →
  match position key (data l) with
  | Some i => ∃ g v, data l !! i = Some (g, (key, v)) ∧ entries l !! key = Some v
  | None => entries l !! key = None
  end.
Proof.
  intros Hok. pose proof (position_spec key (data l)) as Hp. destruct (position key (data l)) as [i|].
  - destruct Hp as (g & v & Hi). exists g, v. split; [done|].
    apply elem_of_list_to_map_1; [apply Hok|]. apply list_elem_of_fmap. exists (g, (key, v)).
    split; [done|]. by eapply list_elem_of_lookup_2.
  - by apply not_elem_of_list_to_map_1.
Qed.

(** Rewriting the entry of a key. *)
Lemma entries_replace l i g g' key v v' n :
  lru_ok l → data l !! i = Some (g, (key, v)) →
  let l' := mkLru (<[i := (g', (key, v'))]> (data l)) n (cap l) in
  lru_ok l' ∧ entries l' = <[key := v']> (entries l).
Proof.
  intros [Hk Hb Hc] Hi l'. destruct (insert_spec i (data l) _ Hi) as (rest & Hp & Hins).
  specialize (Hins (g', (key, v'))).
  destruct (entries_perm l _ Hk Hp) as [Hnd He]. split.
  - constructor; simpl; [|by rewrite length_insert|done]. by rewrite Hins.
  - destruct (entries_perm l' _ ltac:(simpl; by rewrite Hins) Hins) as [_ ->]. rewrite He. simpl.
    by rewrite insert_insert_eq.
Qed.

(** Taking out the entry at a position. *)
Lemma entries_swap_remove l i g key v n :
  lru_ok l → data l !! i = Some (g, (key, v)) →
  ∃ d, swap_remove i (data l) = Some ((g, (key, v)), d) ∧ S (length d) = length (data l) ∧
    lru_ok (mkLru d n (cap l)) ∧ entries (mkLru d n (cap l)) = delete key (entries l).
Proof.
  intros [Hk Hb Hc] Hi. destruct (swap_remove_spec i (data l) _ Hi) as (d & Hsw & Hp).
  destruct (entries_perm l _ Hk Hp) as [Hnd He]. simpl in Hnd. apply NoDup_cons in Hnd as [Hn Hnd].
  exists d. split; [done|]. split; [by rewrite Hp|]. split.
  - constructor; simpl; [done| |done]. rewrite Hp in Hb. simpl in Hb. lia.
  - rewrite He. unfold entries. simpl. rewrite delete_insert_id; [done|]. by apply not_elem_of_list_to_map_1.
Qed.

Lemma lru_get_entries l key :
  lru_ok l → (lru_get l key).1 = entries l !! key ∧
    lru_ok (lru_get l key).2 ∧ entries (lru_get l key).2 = entries l ∧ cap (lru_get l key).2 = cap l.
Proof.
  intros Hok. unfold lru_get. pose proof (entries_position l key Hok) as Hp.
  destruct (position key (data l)) as [i|]; [|by rewrite Hp].
  destruct Hp as (g & v & Hi & He). rewrite Hi. unfold lru_next_generation.
  cbn [fst snd data lru_generation cap].
  edestruct (entries_replace l i g) as [Hok' He']; [done..|]. split; [done|]. split; [exact Hok'|].
  split; [|done]. rewrite He'. by rewrite insert_id.
Qed.

Lemma lru_remove_entries l key :
  lru_ok l → (lru_remove l key).1 = entries l !! key ∧
    lru_ok (lru_remove l key).2 ∧ entries (lru_remove l key).2 = delete key (entries l) ∧
    cap (lru_remove l key).2 = cap l.
Proof.
  intros Hok. unfold lru_remove. pose proof (entries_position l key Hok) as Hp.
  destruct (position key (data l)) as [i|].
  - destruct Hp as (g & v & Hi & He).
    destruct (entries_swap_remove l i g key v (lru_generation l) Hok Hi) as (d & -> & _ & Hok' & He').
    cbn [fst snd]. done.
  - simpl. rewrite Hp. by rewrite delete_id.
Qed.

(** The evicted entry is one of a full cache. *)
Lemma lru_pop_entries l :
  lru_ok l → data l ≠ [] →
  ∃ k v, (lru_pop l).1 = Some (k, v) ∧ entries l !! k = Some v ∧ lru_ok (lru_pop l).2 ∧
    S (length (data (lru_pop l).2)) = length (data l) ∧
    entries (lru_pop l).2 = delete k (entries l) ∧ cap (lru_pop l).2 = cap l.
Proof.
  intros Hok Hne. unfold lru_pop. destruct (min_step_spec (data l)) as [_ Hm].
  destruct (foldl min_step _ (data l)) as [[[i g]|] n]; simpl in Hm; [|done]. cbn [fst].
  destruct Hm as [[[k v] Hi] _].
  destruct (entries_swap_remove l i g k v (lru_generation l) Hok Hi) as (d & -> & Hlen & Hok' & He').
  exists k, v. cbn [fst snd]. split; [done|]. split; [|done].
  apply elem_of_list_to_map_1; [apply Hok|]. apply list_elem_of_fmap. exists (g, (k, v)).
  split; [done|]. by eapply list_elem_of_lookup_2.
Qed.

Lemma entries_push l g key v n :
  lru_ok l → entries l !! key = None → (length (data l) < cap l)%nat →
  let l' := mkLru (data l ++ [(g, (key, v))]) n (cap l) in
  lru_ok l' ∧ entries l' = <[key := v]> (entries l).
Proof.
  intros [Hk Hb Hc] Hn Hlt l'. apply not_elem_of_list_to_map in Hn.
  assert (Hp : data l' ≡ₚ (g, (key, v)) :: data l) by (simpl; by rewrite <-Permutation_cons_append).
  assert (Hnd : NoDup (data l').*2.*1) by (rewrite Hp; simpl; by constructor).
  split; [|by destruct (entries_perm l' _ Hnd Hp) as [_ ->]].
  constructor; [done| |done]. simpl. rewrite length_app. simpl. lia.
Qed.

(** What an insertion does to the map. *)
Definition inserted l key v (r : InsertionOutcome K V) l' : Prop :=
  match r with
  | Replaced old => entries l !! key = Some old ∧ entries l' = <[key := v]> (entries l)
  | InsertedNew => entries l !! key = None ∧ entries l' = <[key := v]> (entries l)
  | Evicted k0 v0 => entries l !! key = None ∧ length (data l) = cap l ∧ entries l !! k0 = Some v0 ∧
      entries l' = <[key := v]> (delete k0 (entries l))
  end.

Lemma lru_insert_entries l key v :
  lru_ok l → lru_ok (lru_insert l key v).2 ∧ cap (lru_insert l key v).2 = cap l ∧
    inserted l key v (lru_insert l key v).1 (lru_insert l key v).2.
Proof.
  intros Hok. unfold lru_insert, lru_next_generation. cbn [data].
  pose proof (entries_position l key Hok) as Hp. destruct (position key (data l)) as [i|].
  - destruct Hp as (g & v0 & Hi & He). rewrite Hi. cbn [fst snd data lru_generation cap].
    edestruct (entries_replace l i g) as [Hok' He']; [done..|]. split; [exact Hok'|]. split; [done|]. by split.
  - unfold lru_put, lru_next_generation, lru_is_full. cbn [data lru_generation cap].
    set (l2 := mkLru (data l) _ (cap l)). assert (Hok2 : lru_ok l2) by (by destruct Hok; constructor).
    case_bool_decide as Hfull.
    + assert (data l2 ≠ []) as Hne by (intros Hnil; simpl in Hnil; rewrite Hnil in Hfull; by apply (ok_cap l)).
      destruct (lru_pop_entries l2 Hok2 Hne) as (k0 & v1 & H1 & H2 & H3 & H4 & H5 & H6).
      destruct (lru_pop l2) as [o l3]. cbn [fst snd] in *. subst o.
      edestruct (entries_push l3) as [Hok' He']; [done| |cbn [data] in *; rewrite H6; simpl in *; lia|].
      { rewrite H5. rewrite lookup_delete_None. by right. }
      cbn [fst snd]. split; [exact Hok'|]. split; [exact H6|]. unfold inserted.
      split; [done|]. split; [done|]. split; [done|]. etransitivity; [exact He'|]. by rewrite H5.
    + edestruct (entries_push l2) as [Hok' He']; [done|done| |].
      { pose proof (ok_bound l Hok). simpl. lia. }
      cbn [fst snd]. split; [exact Hok'|]. split; [done|]. split; [done|]. exact He'.
Qed.
End map_view.

(** ** Witness *)

(** A cache of two entries in which the first one has been read last. *)
Definition sample_lru : Lru (Z * Z) := mkLru [(3, (1, 10)); (2, (2, 20))] 3 2.

Lemma lru_refines_witness :
  represents sample_lru [(2, 20); (1, 10)] ∧
  (lru_insert sample_lru 5 50).1 = Evicted 2 20 ∧
  represents (lru_insert sample_lru 5 50).2 [(1, 10); (5, 50)].
Proof.
  assert (Hr : represents sample_lru [(2, 20); (1, 10)]).
  { exists [(2, (2, 20)); (3, (1, 10))]. constructor; simpl; try done.
    - apply Permutation_swap.
    - repeat constructor; lia.
    - repeat constructor; lia.
    - repeat constructor; set_solver. }
  split; [exact Hr|].
  destruct (lru_refines sample_lru [(2, 20); (1, 10)] Hr) as (_ & Hi & _); [by vm_compute|].
  exact (Hi 5 50).
Defined.
