(* ===== verification/IndexMap.v ===== *)
(** * The open indexes

    [crates/index-scheduler/src/index_mapper/index_map.rs] and the operations of
    [index_mapper/mod.rs] that open, resize and delete an index: the state
    machine of an index in memory (missing, available, closing, being deleted)
    and the loops that wait for an index to be closed. *)

From S2P Require Import Prelude TaskTypes DetailsView SchedUtils Lru.
Open Scope Z_scope.

(** What the map needs of an index: [Index::map_size], [prepare_for_closing],
    opening the environment of an index, at a size that is a multiple of the
    page size, which can fail, its statistics and [Index::rollback].  [IndexStore] is
    the content of the indexes on disk. *)
Class IndexEnv `{Externals} := {
  Index : Type;
  EnvClosingEvent : Type;
  index_map_size : Index → Z;
  prepare_for_closing : Index → EnvClosingEvent;
  index_new (uuid : Uuid) (date : option (DateTime * DateTime)) (enable_mdb_writemap : bool)
    (map_size : Z) (creation : bool) : MilliError + Index;
  page_size : Z;
  uuid_to_string : Uuid → string;
  is_invalid_filter : MilliError → bool;
  InvalidDocumentFilter : Code;
  IndexStats : Type;
  IndexStore : Type;
  IndexStats_new : IndexStore → Index → MilliError + IndexStats;
  index_rollback : Uuid → Z * Z * Z → IndexStore → outcome MilliError RollbackOutcome * IndexStore;
  rollback_succeeded : RollbackOutcome → bool;
}.

(** The documented behaviour of LMDB environments: an environment has the map
    size it was opened with. *)
Class IndexEnvOk `{IndexEnv} : Prop := {
  index_new_size uuid date w size c i : index_new uuid date w size c = inr i → index_map_size i = size;
  page_size_pos : 0 < page_size;
}.

Section IndexMap.
Context `{IndexEnv}.

Record ClosingIndex := mkClosingIndex {
  ci_uuid : Uuid;
  closing_event : EnvClosingEvent;
  ci_enable_mdb_writemap : bool;
  ci_map_size : Z;
  ci_generation : Z;
}.

Record ReopenableIndex := mkReopenableIndex {
  ri_uuid : Uuid;
  ri_enable_mdb_writemap : bool;
  ri_map_size : Z;
  ri_generation : Z;
}.

Record IndexMap := mkIndexMap {
  available : Lru (Uuid * Index);
  unavailable : gmap Uuid (option ClosingIndex);
  generation : Z;
}.

Inductive IndexStatus :=
| Missing
| BeingDeleted
| Closing (c : ClosingIndex)
| Available (i : Index).

(** [ClosingIndex::wait_timeout]; [closed] tells whether the environment was
    closed in time. *)
Definition wait_timeout (self : ClosingIndex) (closed : bool) : option ReopenableIndex :=
  if closed then
    Some (mkReopenableIndex (ci_uuid self) (ci_enable_mdb_writemap self) (ci_map_size self)
            (ci_generation self))
  else None.

Definition IndexMap_new (cap : nat) : outcome MilliError IndexMap :=
  available ← Lru_new cap; Ok (mkIndexMap available ∅ 0).

Definition get_unavailable (self : IndexMap) (uuid : Uuid) : IndexStatus :=
  match unavailable self !! uuid with
  | Some (Some reopen) => Closing reopen
  | Some None => BeingDeleted
  | None => Missing
  end.

(** [IndexMap::get]; the cache remembers the access. *)
Definition map_get (self : IndexMap) (uuid : Uuid) : IndexStatus * IndexMap :=
  let '(r, available) := lru_get (available self) uuid in
  let self := mkIndexMap available (unavailable self) (generation self) in
  (match r with Some index => Available index | None => get_unavailable self uuid end, self).

Definition next_generation (self : IndexMap) : Z * IndexMap :=
  let g := u64_wrap (generation self + 1) in (g, mkIndexMap (available self) (unavailable self) g).

(** [IndexMap::close]. *)
Definition map_close (self : IndexMap) (uuid : Uuid) (index : Index) (enable_mdb_writemap : bool)
    (map_size_growth : Z) : IndexMap :=
  let map_size := u64_wrap (index_map_size index + map_size_growth) in
  let closing_event := prepare_for_closing index in
  let '(generation, self) := next_generation self in
  mkIndexMap (available self)
    (<[uuid := Some (mkClosingIndex uuid closing_event enable_mdb_writemap map_size generation)]>
       (unavailable self)) generation.

(** [create_or_open_index], for the readers count set in the environment. *)
Definition create_or_open_index (uuid : Uuid) (date : option (DateTime * DateTime))
    (enable_mdb_writemap : bool) (map_size : Z) (creation : bool) : outcome MilliError Index :=
  match index_new uuid date enable_mdb_writemap (clamp_to_page_size page_size map_size) creation with
  | inr index => Ok index
  | inl e => Err e
  end.

(** [IndexMap::create]. *)
Definition map_create (self : IndexMap) (uuid : Uuid) (date : option (DateTime * DateTime))
    (enable_mdb_writemap : bool) (map_size : Z) (creation : bool)
    : outcome MilliError (Index * IndexMap) :=
  match get_unavailable self uuid with
  | Missing =>
      index ← create_or_open_index uuid date enable_mdb_writemap map_size creation;
      let '(r, available) := lru_insert (available self) uuid index in
      let self := mkIndexMap available (unavailable self) (generation self) in
      match r with
      | InsertedNew => Ok (index, self)
      | Evicted evicted_uuid evicted_index =>
          Ok (index, map_close self evicted_uuid evicted_index enable_mdb_writemap 0)
      | Replaced _ => Panic
      end
  | _ => Panic
  end.

Definition close_for_resize (self : IndexMap) (uuid : Uuid) (enable_mdb_writemap : bool)
    (map_size_growth : Z) : IndexMap :=
  match lru_remove (available self) uuid with
  | (Some index, available) =>
      map_close (mkIndexMap available (unavailable self) (generation self)) uuid index
        enable_mdb_writemap map_size_growth
  | (None, available) => mkIndexMap available (unavailable self) (generation self)
  end.

(** [IndexMap::start_deletion]: [inl] is the [Ok] of the code. *)
Definition start_deletion (self : IndexMap) (uuid : Uuid)
    : (option EnvClosingEvent + option ClosingIndex) * IndexMap :=
  match lru_remove (available self) uuid with
  | (Some index, available) =>
      (inl (Some (prepare_for_closing index)),
       mkIndexMap available (<[uuid := None]> (unavailable self)) (generation self))
  | (None, available) =>
      (match unavailable self !! uuid with
       | Some (Some reopen) => inr (Some reopen)
       | Some None => inr None
       | None => inl None
       end, mkIndexMap available (delete uuid (unavailable self)) (generation self))
  end.

(** [IndexMap::end_deletion]; an access that finds nothing leaves the cache as
    it is. *)
Definition end_deletion (self : IndexMap) (uuid : Uuid) : outcome MilliError IndexMap :=
  match lru_get (available self) uuid with
  | (Some _, _) => Panic
  | (None, available) =>
      match unavailable self !! uuid with
      | Some (Some _) => Panic
      | _ => Ok (mkIndexMap available (delete uuid (unavailable self)) (generation self))
      end
  end.

(** [ReopenableIndex::reopen]: the state of the map is returned with the result,
    since the closing entry is gone even when opening fails. *)
Definition reopen (self : ReopenableIndex) (m : IndexMap) : outcome MilliError () * IndexMap :=
  match map_get m (ri_uuid self) with
  | (Closing c, m) =>
      if negb (ci_generation c =? ri_generation self) then (Ok (), m) else
      let m := mkIndexMap (available m) (delete (ri_uuid self) (unavailable m)) (generation m) in
      match map_create m (ri_uuid self) None (ri_enable_mdb_writemap self) (ri_map_size self) false with
      | Ok (_, m) => (Ok (), m)
      | Err e => (Err e, m)
      | Panic => (Panic, m)
      end
  | (_, m) => (Ok (), m)
  end.

(** [ReopenableIndex::close]. *)
Definition close_reopenable (self : ReopenableIndex) (m : IndexMap) : IndexMap :=
  match map_get m (ri_uuid self) with
  | (Closing c, m) =>
      if negb (ci_generation c =? ri_generation self) then m
      else mkIndexMap (available m) (delete (ri_uuid self) (unavailable m)) (generation m)
  | (_, m) => m
  end.

(** ** The loops of the index mapper *)

(** [Error::from_milli]. *)
Definition from_milli (err : MilliError) (index_uid : option string) : Error :=
  if is_invalid_filter err then WithCustomErrorCode InvalidDocumentFilter (Milli err index_uid)
  else Milli err index_uid.

(** The options of [IndexMapper] that do not change. *)
Record MapperOptions := mkMapperOptions {
  index_base_map_size : Z;
  index_growth_amount : Z;
  enable_mdb_writemap : bool;
}.

(** What the other threads do while the lock on the map is released: [other k m]
    is the map found when the lock is taken for the [k]-th time.  [closed k]
    tells whether the environment waited for at the [k]-th attempt is closed. *)
Record Schedule := mkSchedule {
  other : nat → IndexMap → IndexMap;
  closed : nat → bool;
}.

Inductive loop_result (A : Type) :=
| Returned (a : A)
| OutOfTries.
Arguments Returned {A} a.
Arguments OutOfTries {A}.

(** The loop of [IndexMapper::index]; [k] numbers the times the lock is taken. *)
Fixpoint index_loop (opts : MapperOptions) (sch : Schedule) (name : string) (uuid : Uuid)
    (tries k : nat) (m : IndexMap) : loop_result (outcome Error Index) * IndexMap :=
  match tries with
  | O => (OutOfTries, m)
  | S tries =>
      match map_get (other sch k m) uuid with
      | (Available index, m) => (Returned (Ok index), m)
      | (Closing c, m) =>
          match wait_timeout c (closed sch k) with
          | None => index_loop opts sch name uuid tries (S k) m
          | Some r =>
              match reopen r (other sch (S k) m) with
              | (Ok _, m) => index_loop opts sch name uuid tries (S (S k)) m
              | (Err e, m) => (Returned (Err (from_milli e (Some (uuid_to_string uuid)))), m)
              | (Panic, m) => (Returned Panic, m)
              end
          end
      | (BeingDeleted, m) => (Returned (Err (IndexNotFound name)), m)
      | (Missing, m) =>
          match map_get (other sch (S k) m) uuid with
          | (Missing, m) =>
              match map_create m uuid None (enable_mdb_writemap opts) (index_base_map_size opts) false with
              | Ok (index, m) => (Returned (Ok index), m)
              | Err e => (Returned (Err (from_milli e (Some (uuid_to_string uuid)))), m)
              | Panic => (Returned Panic, m)
              end
          | (Available index, m) => (Returned (Ok index), m)
          | (Closing _, m) => index_loop opts sch name uuid tries (S (S k)) m
          | (BeingDeleted, m) => (Returned (Err (IndexNotFound name)), m)
          end
      end
  end.

(** The state of [IndexMapper]. *)
Record IndexMapper := mkIndexMapper {
  index_map : IndexMap;
  index_mapping : gmap string Uuid;
  index_stats : gmap Uuid IndexStats;
  currently_updating_index : option (string * Index);
}.

Definition set_index_map (m : IndexMap) (self : IndexMapper) : IndexMapper :=
  mkIndexMapper m (index_mapping self) (index_stats self) (currently_updating_index self).

Definition mapper_exists (self : IndexMapper) (name : string) : bool :=
  bool_decide (is_Some (index_mapping self !! name)).

(** [IndexMapper::index]: the index being updated, if it is the one asked for,
    or at most 100 attempts, then a panic. *)
Definition mapper_index (opts : MapperOptions) (sch : Schedule) (self : IndexMapper) (name : string)
    : outcome Error Index * IndexMapper :=
  match
    match currently_updating_index self with
    | Some (current_name, current_index) =>
        if String.eqb current_name name then Some current_index else None
    | None => None
    end
  with
  | Some current_index => (Ok current_index, self)
  | None =>
      match index_mapping self !! name with
      | Some uuid =>
          match index_loop opts sch name uuid 100 0 (index_map self) with
          | (Returned r, m) => (r, set_index_map m self)
          | (OutOfTries, m) => (Panic, set_index_map m self)
          end
      | None => (Err (IndexNotFound name), self)
      end
  end.

(** [IndexMapper::resize_index]. *)
Definition mapper_resize_index (opts : MapperOptions) (self : IndexMapper) (name : string)
    : outcome Error IndexMapper :=
  uuid ← ok_or (IndexNotFound name) (index_mapping self !! name);
  Ok (set_index_map
        (close_for_resize (index_map self) uuid (enable_mdb_writemap opts) (index_growth_amount opts)) self).

Definition store_stats_of (self : IndexMapper) (index_uid : string) (stats : IndexStats)
    : outcome Error IndexMapper :=
  uuid ← ok_or (IndexNotFound index_uid) (index_mapping self !! index_uid);
  Ok (mkIndexMapper (index_map self) (index_mapping self) (<[uuid := stats]> (index_stats self))
        (currently_updating_index self)).

(** [IndexMapper::create_index]; [uuid] is the fresh [Uuid::new_v4()].  The
    mapping and the statistics are committed only on success, the map in memory
    changes anyway. *)
Definition mapper_create_index (opts : MapperOptions) (sch : Schedule) (uuid : Uuid) (milli : IndexStore)
    (self : IndexMapper) (name : string) (date : option (DateTime * DateTime)) : outcome Error Index * IndexMapper :=
  match mapper_index opts sch self name with
  | (Err (IndexNotFound _), self) =>
      match map_create (index_map self) uuid date (enable_mdb_writemap opts) (index_base_map_size opts) true with
      | Ok (index, m) =>
          match IndexStats_new milli index with
          | inr stats =>
              (Ok index, mkIndexMapper m (<[name := uuid]> (index_mapping self))
                 (<[uuid := stats]> (index_stats self)) (currently_updating_index self))
          | inl e => (Err (from_milli e (Some name)), set_index_map m self)
          end
      | Err e => (Err (from_milli e (Some (uuid_to_string uuid))), self)
      | Panic => (Panic, self)
      end
  | r => r
  end.

(** The loop of [IndexMapper::delete_index]: the event to wait for before the
    files are removed, or [None] when the index is already being deleted. *)
Fixpoint delete_loop (sch : Schedule) (uuid : Uuid) (tries k : nat) (m : IndexMap)
    : loop_result (option (option EnvClosingEvent)) * IndexMap :=
  match start_deletion (other sch k m) uuid with
  | (inl env_closing, m) => (Returned (Some env_closing), m)
  | (inr None, m) => (Returned None, m)
  | (inr (Some c), m) =>
      match tries with
      | O => (OutOfTries, m)
      | S tries =>
          match wait_timeout c (closed sch k) with
          | None => delete_loop sch uuid tries (S k) m
          | Some r => delete_loop sch uuid tries (S (S k)) (close_reopenable r (other sch (S k) m))
          end
      end
  end.

(** [IndexMapper::delete_index]: 99 retries, then a panic.  The mapping is
    committed before the loop.  The result is the event the thread that removes
    the files waits for, [None] if no thread is started. *)
Definition mapper_delete_index (sch : Schedule) (self : IndexMapper) (name : string)
    : outcome Error (option (option EnvClosingEvent)) * IndexMapper :=
  match index_mapping self !! name with
  | None => (Err (IndexNotFound name), self)
  | Some uuid =>
      let self := mkIndexMapper (index_map self) (delete name (index_mapping self))
        (delete uuid (index_stats self)) (currently_updating_index self) in
      match delete_loop sch uuid 99 0 (index_map self) with
      | (Returned r, m) => (Ok r, set_index_map m self)
      | (OutOfTries, m) => (Panic, set_index_map m self)
      end
  end.

(** [IndexMapper::stats_of]. *)
Definition stats_of (opts : MapperOptions) (sch : Schedule) (milli : IndexStore) (self : IndexMapper)
    (index_uid : string)
    : outcome Error IndexStats * IndexMapper :=
  match index_mapping self !! index_uid with
  | None => (Err (IndexNotFound index_uid), self)
  | Some uuid =>
      match index_stats self !! uuid with
      | Some stats => (Ok stats, self)
      | None =>
          match mapper_index opts sch self index_uid with
          | (Ok index, self) =>
              (match IndexStats_new milli index with
               | inr stats => Ok stats
               | inl e => Err (from_milli e (Some (uuid_to_string uuid)))
               end, self)
          | (Err e, self) => (Err e, self)
          | (Panic, self) => (Panic, self)
          end
      end
  end.

Definition set_currently_updating_index (index : option (string * Index)) (self : IndexMapper) : IndexMapper :=
  mkIndexMapper (index_map self) (index_mapping self) (index_stats self) index.

(** The loop of [IndexMapper::rollback_index], which keeps the lock: [closed]
    tells whether the environment closes in time, otherwise it panics. *)
Fixpoint rollback_loop (opts : MapperOptions) (closed : bool) (name : string) (uuid : Uuid) (tries : nat)
    (m : IndexMap) : loop_result (outcome Error ()) * IndexMap :=
  match tries with
  | O => (OutOfTries, m)
  | S tries =>
      match map_get m uuid with
      | (Available _, m) =>
          rollback_loop opts closed name uuid tries (close_for_resize m uuid (enable_mdb_writemap opts) 0)
      | (Missing, m) => (Returned (Ok ()), m)
      | (Closing c, m) =>
          (Returned (match wait_timeout c closed with Some _ => Ok () | None => Panic end), m)
      | (BeingDeleted, m) => (Returned (Err (IndexNotFound name)), m)
      end
  end.

(** [IndexMapper::rollback_index]. *)
Definition rollback_index (opts : MapperOptions) (closed : bool) (milli : IndexStore) (self : IndexMapper)
    (name : string) (to : Z * Z * Z) : outcome Error RollbackOutcome * IndexMapper * IndexStore :=
  let self := set_currently_updating_index None self in
  match index_mapping self !! name with
  | None => (Err (IndexNotFound name), self, milli)
  | Some uuid =>
      match rollback_loop opts closed name uuid 2 (index_map self) with
      | (Returned (Ok _), m) =>
          let '(r, milli) := index_rollback uuid to milli in
          (map_err (λ e, from_milli e (Some name)) r, set_index_map m self, milli)
      | (Returned (Err e), m) => (Err e, set_index_map m self, milli)
      | (Returned Panic, m) | (OutOfTries, m) => (Panic, set_index_map m self, milli)
      end
  end.

(** [IndexMapper::index_names]. *)
Definition index_names (self : IndexMapper) : list string := btree_iter (dom (index_mapping self)).
End IndexMap.
Arguments Returned {A} a.
Arguments OutOfTries {A}.

(** ** The invariant and the statuses *)

Section facts.
Context `{IndexEnv}.
Implicit Types m : IndexMap.

(** No index is both available and unavailable, and a closing entry knows its
    index. *)
Record imap_wf m : Prop := {
  wf_lru : lru_ok (available m);
  wf_disjoint : ∀ k, is_Some (entries (available m) !! k) → unavailable m !! k = None;
  wf_closing : ∀ k c, unavailable m !! k = Some (Some c) → ci_uuid c = k;
}.

Definition index_status m (uuid : Uuid) : IndexStatus :=
  match entries (available m) !! uuid with
  | Some index => Available index
  | None => get_unavailable m uuid
  end.

(** The statuses of the indexes other than [ks] are the same. *)
Definition same_except (ks : gset Uuid) m m' : Prop := ∀ k, k ∉ ks → index_status m' k = index_status m k.

Lemma status_eq m m' k :
  entries (available m') !! k = entries (available m) !! k → unavailable m' !! k = unavailable m !! k →
  index_status m' k = index_status m k.
Proof. intros He Hu. unfold index_status, get_unavailable. by rewrite He, Hu. Qed.

Lemma map_get_spec m k :
  imap_wf m →
  (map_get m k).1 = index_status m k ∧ imap_wf (map_get m k).2 ∧ same_except ∅ m (map_get m k).2 ∧
  entries (available (map_get m k).2) = entries (available m) ∧
  unavailable (map_get m k).2 = unavailable m ∧ generation (map_get m k).2 = generation m.
Proof.
  intros [Hl Hd Hc]. unfold map_get. destruct (lru_get_entries (available m) k Hl) as (H1 & H2 & H3 & _).
  destruct (lru_get (available m) k) as [r l]. cbn [fst snd] in *. subst r.
  split; [unfold index_status; by destruct (_ !! k)|]. split; [constructor; simpl; [done|by rewrite H3|done]|].
  split; [|done]. intros k' _. apply status_eq; simpl; [by rewrite H3|done].
Qed.

(** The entry of a closing index. *)
Definition closing_of m (uuid : Uuid) (index : Index) (w : bool) (growth : Z) : ClosingIndex :=
  mkClosingIndex uuid (prepare_for_closing index) w (u64_wrap (index_map_size index + growth))
    (u64_wrap (generation m + 1)).

(** Closing an index that has left the cache. *)
Lemma map_close_spec m uuid index w growth :
  imap_wf m → entries (available m) !! uuid = None →
  let m' := map_close m uuid index w growth in
  imap_wf m' ∧ index_status m' uuid = Closing (closing_of m uuid index w growth) ∧
  same_except {[uuid]} m m' ∧ entries (available m') = entries (available m) ∧
  generation m' = u64_wrap (generation m + 1).
Proof.
  intros [Hl Hd Hc] Hn m'. unfold m', map_close, next_generation. cbn [available unavailable generation].
  split.
  - constructor; simpl; [done|..].
    + intros k Hk. rewrite lookup_insert_ne; [by apply Hd|]. intros ->. rewrite Hn in Hk. by destruct Hk.
    + intros k c. rewrite lookup_insert_Some. intros [[<- [= <-]]|[_ ?]]; [done|by apply Hc].
  - split; [unfold index_status, get_unavailable; simpl; by rewrite Hn, lookup_insert_eq|].
    split; [|done]. intros k Hk. apply status_eq; simpl; [done|]. rewrite lookup_insert_ne by set_solver. done.
Qed.

Lemma close_for_resize_spec m uuid w growth :
  imap_wf m →
  let m' := close_for_resize m uuid w growth in
  imap_wf m' ∧ same_except {[uuid]} m m' ∧
  index_status m' uuid =
    match index_status m uuid with
    | Available index => Closing (closing_of m uuid index w growth)
    | s => s
    end.
Proof.
  intros Hwf m'. pose proof Hwf as [Hl Hd Hc]. unfold m', close_for_resize.
  destruct (lru_remove_entries (available m) uuid Hl) as (H1 & H2 & H3 & _).
  destruct (lru_remove (available m) uuid) as [r l]. cbn [fst snd] in *. subst r.
  set (m1 := mkIndexMap l (unavailable m) (generation m)).
  assert (Hwf1 : imap_wf m1).
  { constructor; simpl; [done| |done]. intros k [i Hi]. rewrite H3, lookup_delete_Some in Hi. apply Hd. naive_solver. }
  assert (Hs1 : same_except {[uuid]} m m1).
  { intros k Hk. apply status_eq; simpl; [|done]. rewrite H3, lookup_delete_ne by set_solver. done. }
  unfold index_status at 2. destruct (entries (available m) !! uuid) as [index|] eqn:Hi.
  - destruct (map_close_spec m1 uuid index w growth Hwf1) as (Hw & Hst & Hsame & _).
    { simpl. by rewrite H3, lookup_delete_eq. }
    split; [done|]. split; [|exact Hst]. intros k Hk. rewrite Hsame by done. by apply Hs1.
  - split; [done|]. split; [done|]. unfold index_status, get_unavailable. simpl. rewrite H3, lookup_delete_eq.
    by destruct (unavailable m !! uuid) as [[]|].
Qed.

(** Removing an unavailable entry. *)
Lemma drop_unavailable_spec m uuid l :
  imap_wf m → entries (available m) !! uuid = None → lru_ok l → entries l = entries (available m) →
  let m' := mkIndexMap l (delete uuid (unavailable m)) (generation m) in
  imap_wf m' ∧ index_status m' uuid = Missing ∧ same_except {[uuid]} m m'.
Proof.
  intros [_ Hd Hc] Hn Hl He m'. split.
  - constructor; simpl; [done|..].
    + intros k Hk. rewrite lookup_delete_None. right. apply Hd. by rewrite <-He.
    + intros k c. rewrite lookup_delete_Some. naive_solver.
  - split; [unfold index_status, get_unavailable; simpl; by rewrite He, Hn, lookup_delete_eq|].
    intros k Hk. apply status_eq; simpl; [by rewrite He|]. rewrite lookup_delete_ne by set_solver. done.
Qed.

(** [create] on an index that is not in the map. *)
Lemma map_create_missing m uuid date w size creation :
  imap_wf m → index_status m uuid = Missing →
  match create_or_open_index uuid date w size creation with
  | Ok index => ∃ m', map_create m uuid date w size creation = Ok (index, m') ∧ imap_wf m' ∧
      index_status m' uuid = Available index ∧
      (same_except {[uuid]} m m' ∨
       ∃ k0 i0, k0 ≠ uuid ∧ length (data (available m)) = cap (available m) ∧
         index_status m k0 = Available i0 ∧ index_status m' k0 = Closing (closing_of m k0 i0 w 0) ∧
         same_except {[uuid; k0]} m m')
  | Err e => map_create m uuid date w size creation = Err e
  | Panic => False
  end.
Proof.
  intros Hwf Hs. pose proof Hwf as [Hl Hd Hc]. unfold map_create.
  assert (entries (available m) !! uuid = None ∧ unavailable m !! uuid = None) as [Hn Hu].
  { unfold index_status in Hs. destruct (entries (available m) !! uuid); [done|]. split; [done|].
    unfold get_unavailable in Hs. by destruct (unavailable m !! uuid) as [[]|]. }
  assert (get_unavailable m uuid = Missing) as -> by (unfold get_unavailable; by rewrite Hu).
  unfold create_or_open_index. destruct (index_new _ _ _ _ _) as [e|index]; [done|]. cbn [mbind outcome_bind].
  destruct (lru_insert_entries (available m) uuid index Hl) as (Hl' & _ & Hins).
  destruct (lru_insert (available m) uuid index) as [r l]. cbn [fst snd] in *.
  destruct r as [|k0 i0|old]; simpl in Hins.
  - destruct Hins as [_ He]. eexists. split; [done|]. split.
    { constructor; simpl; [done| |done]. intros k. rewrite He, lookup_insert_is_Some'. intros [<-|?]; auto. }
    split; [unfold index_status; simpl; by rewrite He, lookup_insert_eq|]. left. intros k Hk.
    apply status_eq; simpl; [|done]. rewrite He, lookup_insert_ne by set_solver. done.
  - destruct Hins as (_ & Hfull & Hk0 & He). assert (k0 ≠ uuid) as Hne by congruence.
    set (m1 := mkIndexMap l (unavailable m) (generation m)).
    assert (Hwf1 : imap_wf m1).
    { constructor; simpl; [done| |done]. intros k. rewrite He, lookup_insert_is_Some'.
      intros [<-|[i Hi]]; [done|]. apply Hd. rewrite lookup_delete_Some in Hi. naive_solver. }
    destruct (map_close_spec m1 k0 i0 w 0 Hwf1) as (Hw & Hst & Hsame & He1 & _).
    { simpl. by rewrite He, lookup_insert_ne, lookup_delete_eq. }
    eexists. split; [done|]. split; [done|]. split.
    { rewrite Hsame by set_solver. unfold index_status. simpl. by rewrite He, lookup_insert_eq. }
    right. exists k0, i0. split; [done|]. split; [done|].
    split; [unfold index_status; by rewrite Hk0|]. split; [exact Hst|].
    intros k Hk. rewrite Hsame by set_solver. apply status_eq; simpl; [|done].
    rewrite He, lookup_insert_ne, lookup_delete_ne by set_solver. done.
  - destruct Hins as [Hsome _]. congruence.
Qed.

(** The status table of [create].  An index that is not in the map
    becomes available, unless it cannot be opened; if the cache was full the one
    index evicted starts closing at its own size, and no other index moves.  An
    index that is closing or being deleted makes it panic, and so does one that
    is available, once opened a second time.  The invariant is kept. *)
Theorem map_create_spec m uuid date w size creation :
  imap_wf m →
  match index_status m uuid, create_or_open_index uuid date w size creation with
  | Missing, Ok index => ∃ m', map_create m uuid date w size creation = Ok (index, m') ∧ imap_wf m' ∧
      index_status m' uuid = Available index ∧
      (same_except {[uuid]} m m' ∨
       ∃ k0 i0, k0 ≠ uuid ∧ length (data (available m)) = cap (available m) ∧
         index_status m k0 = Available i0 ∧ index_status m' k0 = Closing (closing_of m k0 i0 w 0) ∧
         same_except {[uuid; k0]} m m')
  | Missing, Err e | Available _, Err e => map_create m uuid date w size creation = Err e
  | _, Panic => False
  | _, _ => map_create m uuid date w size creation = Panic
  end.
Proof.
  intros Hwf. destruct (index_status m uuid) as [| |c|i] eqn:Hs.
  - pose proof (map_create_missing m uuid date w size creation Hwf Hs) as Hm.
    by destruct (create_or_open_index uuid date w size creation).
  - unfold index_status in Hs. destruct (entries (available m) !! uuid); [done|].
    unfold map_create. rewrite Hs. unfold create_or_open_index. by destruct (index_new _ _ _ _ _).
  - unfold index_status in Hs. destruct (entries (available m) !! uuid); [done|].
    unfold map_create. rewrite Hs. unfold create_or_open_index. by destruct (index_new _ _ _ _ _).
  - unfold index_status in Hs. destruct (entries (available m) !! uuid) as [i'|] eqn:He.
    2:{ unfold get_unavailable in Hs. by destruct (unavailable m !! uuid) as [[]|]. }
    assert (get_unavailable m uuid = Missing) as Hg.
    { unfold get_unavailable. by rewrite (wf_disjoint _ Hwf) by (rewrite He; eauto). }
    unfold map_create. rewrite Hg. unfold create_or_open_index. destruct (index_new _ _ _ _ _) as [e|i2]; [done|].
    cbn [mbind outcome_bind]. destruct (lru_insert_entries (available m) uuid i2 (wf_lru _ Hwf)) as (_ & _ & Hins).
    destruct (lru_insert (available m) uuid i2) as [[|k0 i0|old] l]; simpl in Hins; [|..|done]; destruct Hins; congruence.
Qed.

Lemma status_not_available m uuid : (∀ i, index_status m uuid ≠ Available i) → entries (available m) !! uuid = None.
Proof. unfold index_status. destruct (entries (available m) !! uuid) as [i|]; [|done]. intros Hn. by destruct (Hn i). Qed.

(** The closing entry of [r], if it is the one [r] waited for, is removed. *)
Lemma close_reopenable_spec r m :
  imap_wf m →
  let m' := close_reopenable r m in
  imap_wf m' ∧ same_except {[ri_uuid r]} m m' ∧
  index_status m' (ri_uuid r) =
    match index_status m (ri_uuid r) with
    | Closing c => if ci_generation c =? ri_generation r then Missing else Closing c
    | s => s
    end.
Proof.
  intros Hwf m'. unfold m', close_reopenable.
  destruct (map_get_spec m (ri_uuid r) Hwf) as (H1 & H2 & H3 & H4 & H5 & H6).
  destruct (map_get m (ri_uuid r)) as [s m1]. cbn [fst snd] in *. subst s.
  assert (Hsame : same_except {[ri_uuid r]} m m1) by (intros k _; by apply H3).
  pose proof (H3 (ri_uuid r) ltac:(set_solver)) as Hr.
  destruct (index_status m (ri_uuid r)) as [| |c|i] eqn:Hs; try (by split_and!).
  destruct (ci_generation c =? ri_generation r); cbn [negb]; [|by split_and!].
  destruct (drop_unavailable_spec m1 (ri_uuid r) (available m1) H2) as (Hw & Hm & Hx); try done.
  { apply status_not_available. rewrite Hr. done. }
  { apply H2. }
  split; [done|]. split; [|done]. intros k Hk. rewrite Hx by done. by apply Hsame.
Qed.

Lemma reopen_spec r m :
  imap_wf m →
  let '(o, m') := reopen r m in
  imap_wf m' ∧
  match index_status m (ri_uuid r) with
  | Closing c =>
      if ci_generation c =? ri_generation r then
        match create_or_open_index (ri_uuid r) None (ri_enable_mdb_writemap r) (ri_map_size r) false with
        | Ok index => o = Ok () ∧ index_status m' (ri_uuid r) = Available index
        | Err e => o = Err e ∧ index_status m' (ri_uuid r) = Missing ∧ same_except {[ri_uuid r]} m m'
        | Panic => False
        end
      else o = Ok () ∧ same_except ∅ m m'
  | _ => o = Ok () ∧ same_except ∅ m m'
  end.
Proof.
  intros Hwf. unfold reopen. destruct (map_get_spec m (ri_uuid r) Hwf) as (H1 & H2 & H3 & H4 & H5 & H6).
  destruct (map_get m (ri_uuid r)) as [s m1]. cbn [fst snd] in *. subst s.
  pose proof (H3 (ri_uuid r) ltac:(set_solver)) as Hr.
  destruct (index_status m (ri_uuid r)) as [| |c|i] eqn:Hs; try (by split_and!).
  destruct (ci_generation c =? ri_generation r); cbn [negb]; [|by split_and!].
  destruct (drop_unavailable_spec m1 (ri_uuid r) (available m1) H2) as (Hw & Hm & Hx); try done.
  { apply status_not_available. rewrite Hr. done. }
  { apply H2. }
  set (m2 := mkIndexMap _ _ _) in *.
  pose proof (map_create_missing m2 (ri_uuid r) None (ri_enable_mdb_writemap r) (ri_map_size r) false Hw Hm) as Hc.
  destruct (create_or_open_index _ _ _ _ _) as [index|e|]; [..|done].
  - by destruct Hc as (m' & -> & Hw' & Hst & _).
  - rewrite Hc. split; [done|]. split; [done|]. split; [done|]. intros k Hk. rewrite Hx by done. by apply H3.
Qed.

Lemma end_deletion_spec m uuid :
  imap_wf m →
  match index_status m uuid with
  | Missing | BeingDeleted =>
      ∃ m', end_deletion m uuid = Ok m' ∧ imap_wf m' ∧ index_status m' uuid = Missing ∧ same_except {[uuid]} m m'
  | _ => end_deletion m uuid = Panic
  end.
Proof.
  intros Hwf. unfold end_deletion. destruct (lru_get_entries (available m) uuid (wf_lru _ Hwf)) as (H1 & H2 & H3 & _).
  destruct (lru_get (available m) uuid) as [r l]. cbn [fst snd] in *. subst r.
  unfold index_status. destruct (entries (available m) !! uuid) as [i|] eqn:He; [done|]. unfold get_unavailable.
  destruct (drop_unavailable_spec m uuid l Hwf He H2 H3) as (Hw & Hm & Hx).
  destruct (unavailable m !! uuid) as [[c|]|]; [done|..]; eauto.
Qed.

(** The status tables of the operations around a closing index.
    Closing for a resize moves an available index, and no other, to closing at
    its grown size; reopening or closing it once its environment is closed does
    something only to the closing request that was waited for: a request of
    another generation, and an index in another state, are left alone; the end
    of a deletion panics on an available or closing index.  All of them keep
    the invariant. *)
Theorem closing_tables m uuid w growth r :
  imap_wf m →
  (imap_wf (close_for_resize m uuid w growth) ∧ same_except {[uuid]} m (close_for_resize m uuid w growth) ∧
   index_status (close_for_resize m uuid w growth) uuid =
     match index_status m uuid with
     | Available index => Closing (closing_of m uuid index w growth)
     | s => s
     end) ∧
  (imap_wf (reopen r m).2 ∧
   match index_status m (ri_uuid r) with
   | Closing c =>
       if ci_generation c =? ri_generation r then
         match create_or_open_index (ri_uuid r) None (ri_enable_mdb_writemap r) (ri_map_size r) false with
         | Ok index => (reopen r m).1 = Ok () ∧ index_status (reopen r m).2 (ri_uuid r) = Available index
         | Err e => (reopen r m).1 = Err e ∧ index_status (reopen r m).2 (ri_uuid r) = Missing
         | Panic => False
         end
       else (reopen r m).1 = Ok () ∧ same_except ∅ m (reopen r m).2
   | _ => (reopen r m).1 = Ok () ∧ same_except ∅ m (reopen r m).2
   end) ∧
  (imap_wf (close_reopenable r m) ∧ same_except {[ri_uuid r]} m (close_reopenable r m) ∧
   index_status (close_reopenable r m) (ri_uuid r) =
     match index_status m (ri_uuid r) with
     | Closing c => if ci_generation c =? ri_generation r then Missing else Closing c
     | s => s
     end) ∧
  match index_status m uuid with
  | Missing | BeingDeleted => ∃ m', end_deletion m uuid = Ok m' ∧ imap_wf m' ∧
      index_status m' uuid = Missing ∧ same_except {[uuid]} m m'
  | _ => end_deletion m uuid = Panic
  end.
Proof.
  intros Hwf. split; [by apply close_for_resize_spec|]. split; [|split; [by apply close_reopenable_spec|by apply end_deletion_spec]].
  pose proof (reopen_spec r m Hwf) as Hr. destruct (reopen r m) as [o m']. cbn [fst snd].
  destruct Hr as [Hw Hr]. split; [done|]. destruct (index_status m (ri_uuid r)); try done.
  destruct (_ =? _); [|done]. destruct (create_or_open_index _ _ _ _ _); tauto.
Qed.

Lemma start_deletion_table m uuid :
  imap_wf m →
  let '(r, m') := start_deletion m uuid in
  imap_wf m' ∧ same_except {[uuid]} m m' ∧
  match index_status m uuid with
  | Missing => r = inl None ∧ index_status m' uuid = Missing
  | BeingDeleted => r = inr None ∧ index_status m' uuid = Missing
  | Closing c => r = inr (Some c) ∧ index_status m' uuid = Missing
  | Available i => r = inl (Some (prepare_for_closing i)) ∧ index_status m' uuid = BeingDeleted
  end.
Proof.
  intros Hwf. unfold start_deletion. destruct (lru_remove_entries (available m) uuid (wf_lru _ Hwf)) as (H1 & H2 & H3 & _).
  destruct (lru_remove (available m) uuid) as [r l]. cbn [fst snd] in *. subst r.
  unfold index_status at 1. destruct (entries (available m) !! uuid) as [i|] eqn:He.
  - split; [|split].
    + constructor; simpl; [done|..].
      * intros k [j Hj]. rewrite H3, lookup_delete_Some in Hj. destruct Hj as [Hne Hj].
        rewrite lookup_insert_ne by done. apply (wf_disjoint _ Hwf). by exists j.
      * intros k c. rewrite lookup_insert_Some. intros [[_ ?]|[_ ?]]; [done|by apply (wf_closing _ Hwf)].
    + intros k Hk. apply status_eq; simpl; [rewrite H3, lookup_delete_ne|rewrite lookup_insert_ne]; set_solver.
    + split; [done|]. unfold index_status, get_unavailable. simpl. by rewrite H3, lookup_delete_eq, lookup_insert_eq.
  - rewrite delete_id in H3 by done.
    destruct (drop_unavailable_spec m uuid l Hwf He H2 H3) as (Hw & Hm & Hx).
    split; [done|]. split; [done|]. unfold get_unavailable.
    destruct (unavailable m !! uuid) as [[c|]|]; by split.
Qed.

Lemma status_closing m uuid c : imap_wf m → index_status m uuid = Closing c → ci_uuid c = uuid.
Proof.
  intros Hwf. unfold index_status, get_unavailable. destruct (entries _ !! uuid); [done|].
  destruct (unavailable m !! uuid) as [[c'|]|] eqn:Hu; intros [= <-]. by apply (wf_closing _ Hwf).
Qed.

Lemma delete_loop_missing sch uuid tries k m :
  imap_wf m → (∀ k m, other sch k m = m) → index_status m uuid = Missing →
  ∃ m', delete_loop sch uuid tries k m = (Returned (Some None), m') ∧ imap_wf m' ∧
    same_except {[uuid]} m m' ∧ index_status m' uuid = Missing.
Proof.
  intros Hwf Hoth Hs. pose proof (start_deletion_table m uuid Hwf) as Hsd.
  destruct tries; cbn [delete_loop]; rewrite Hoth; destruct (start_deletion m uuid) as [r m1];
    destruct Hsd as (Hw1 & Hs1 & Ht); rewrite Hs in Ht; destruct Ht as [-> Hst]; by exists m1.
Qed.

(** Deleting an index, the other threads leaving the map alone.  An
    available index is marked as being deleted and its environment is waited for;
    a missing one is deleted at once, unmarked.  An index that is closing leaves
    the map at the first attempt, so that the second one finds it missing: its
    files are removed without waiting for its environment, even if the
    [wait_timeout] in between ran out; and an index already being deleted is
    unmarked. *)
Theorem delete_loop_spec sch uuid tries m :
  imap_wf m → (∀ k m, other sch k m = m) →
  ∃ m', imap_wf m' ∧ same_except {[uuid]} m m' ∧
  match index_status m uuid with
  | Missing => delete_loop sch uuid (S tries) 0 m = (Returned (Some None), m') ∧ index_status m' uuid = Missing
  | BeingDeleted => delete_loop sch uuid (S tries) 0 m = (Returned None, m') ∧ index_status m' uuid = Missing
  | Closing c => delete_loop sch uuid (S tries) 0 m = (Returned (Some None), m') ∧ index_status m' uuid = Missing
  | Available i => delete_loop sch uuid (S tries) 0 m = (Returned (Some (Some (prepare_for_closing i))), m') ∧
      index_status m' uuid = BeingDeleted
  end.
Proof.
  intros Hwf Hoth. pose proof (start_deletion_table m uuid Hwf) as Hsd. cbn [delete_loop]. rewrite Hoth.
  destruct (start_deletion m uuid) as [r m1]. destruct Hsd as (Hw1 & Hs1 & Ht).
  destruct (index_status m uuid) as [| |c|i] eqn:Hs; destruct Ht as [-> Hst]; try (by exists m1).
  set (m2 := match wait_timeout c (closed sch 0) with
             | Some r => close_reopenable r m1 | None => m1 end).
  assert (imap_wf m2 ∧ same_except {[uuid]} m1 m2 ∧ index_status m2 uuid = Missing) as (Hw2 & Hs2 & Hst2).
  { unfold m2, wait_timeout. destruct (closed sch 0); [|by split_and!].
    match goal with |- context [close_reopenable ?r m1] => set (r1 := r) end.
    destruct (close_reopenable_spec r1 m1 Hw1) as (Hw & Hsm & Hst').
    assert (ri_uuid r1 = uuid) as Hri by (by apply (status_closing m)).
    rewrite Hri in *. split; [done|]. split; [done|]. by rewrite Hst', Hst. }
  assert (∃ k, match wait_timeout c (closed sch 0) with
    | None => delete_loop sch uuid tries 1 m1
    | Some r => delete_loop sch uuid tries 2 (close_reopenable r (other sch 1 m1))
    end = delete_loop sch uuid tries k m2) as [k ->].
  { unfold m2, wait_timeout. destruct (closed sch 0); [exists 2%nat; by rewrite Hoth|by exists 1%nat]. }
  destruct (delete_loop_missing sch uuid tries k m2 Hw2 Hoth Hst2) as (m3 & -> & Hw3 & Hs3 & Hst3).
  exists m3. split; [done|]. split; [|done]. intros x Hx. rewrite Hs3, Hs2, Hs1 by done. done.
Qed.

(** ** Opening an index *)

(** C26. Looking up an index while other threads do anything that keeps the
    invariant of the map, each time the lock is released.  However they
    interleave, the map is never misused: none of the panics of [create] is
    reached, so the lookup ends with an index, an error, or the exhaustion of
    its attempts, and the invariant is kept. *)
Theorem index_loop_safe opts sch name uuid :
  (∀ k m, imap_wf m → imap_wf (other sch k m)) →
  ∀ tries k m, imap_wf m →
  let '(r, m') := index_loop opts sch name uuid tries k m in
  imap_wf m' ∧ r ≠ Returned Panic ∧
  ∀ i, r = Returned (Ok i) → index_status m' uuid = Available i.
Proof.
  intros Hoth tries. induction tries as [|tries IH]; intros k m Hwf; [by split_and!|].
  cbn [index_loop]. pose proof (map_get_spec (other sch k m) uuid (Hoth _ _ Hwf)) as (H1 & H2 & H3 & _).
  pose proof (H3 uuid ltac:(set_solver)) as Hs.
  destruct (map_get (other sch k m) uuid) as [s m1]. cbn [fst snd] in *. subst s.
  destruct (index_status (other sch k m) uuid) as [| |c|i]; cbn [fst snd] in *.
  - pose proof (map_get_spec (other sch (S k) m1) uuid (Hoth _ _ H2)) as (H4 & H5 & H6 & _).
    pose proof (H6 uuid ltac:(set_solver)) as Hs2.
    destruct (map_get (other sch (S k) m1) uuid) as [s m2]. cbn [fst snd] in *. subst s.
    destruct (index_status (other sch (S k) m1) uuid) as [| |c|i]; cbn [fst snd] in *.
    + pose proof (map_create_missing m2 uuid None (enable_mdb_writemap opts) (index_base_map_size opts)
        false H5 Hs2) as Hc.
      destruct (create_or_open_index _ _ _ _ _) as [index|e|]; [..|done].
      * destruct Hc as (m' & -> & Hw & Hst & _). split; [done|]. split; [done|]. by intros i [= <-].
      * rewrite Hc. by split_and!.
    + by split_and!.
    + by apply IH.
    + split; [done|]. split; [done|]. by intros j [= <-].
  - by split_and!.
  - destruct (wait_timeout c (closed sch k)) as [r|]; [|by apply IH].
    pose proof (reopen_spec r (other sch (S k) m1) (Hoth _ _ H2)) as Hr.
    destruct (reopen r (other sch (S k) m1)) as [[u|e|] m2]; destruct Hr as [Hw2 Hr].
    + by apply IH.
    + by split_and!.
    + exfalso. destruct (index_status (other sch (S k) m1) (ri_uuid r)); try (by destruct Hr).
      destruct (_ =? _); [|by destruct Hr].
      by destruct (create_or_open_index _ _ _ _ _); destruct Hr.
  - split; [done|]. split; [done|]. by intros j [= <-].
Qed.

(** What a lookup finds when nothing disturbs it and environments do close. *)
Lemma index_loop_quiet `{!IndexEnvOk} opts sch name uuid tries k m :
  imap_wf m → (∀ k m, other sch k m = m) → (∀ k, closed sch k = true) →
  (∀ date w size creation, is_Some (match index_new uuid date w size creation with inr i => Some i | inl _ => None end)) →
  match index_status m uuid with
  | BeingDeleted => ∃ m', index_loop opts sch name uuid (S (S tries)) k m = (Returned (Err (IndexNotFound name)), m')
  | s => ∃ i m', index_loop opts sch name uuid (S (S tries)) k m = (Returned (Ok i), m') ∧
      imap_wf m' ∧ index_status m' uuid = Available i ∧
      index_map_size i =
        match s with
        | Available i0 => index_map_size i0
        | Closing c => clamp_to_page_size page_size (ci_map_size c)
        | _ => clamp_to_page_size page_size (index_base_map_size opts)
        end
  end.
Proof.
  intros Hwf Hoth Hcl Hopen. cbn [index_loop]. rewrite Hoth.
  pose proof (map_get_spec m uuid Hwf) as (G1 & G2 & G3 & _). pose proof (G3 uuid ltac:(set_solver)) as Hs.
  destruct (map_get m uuid) as [s m1]. cbn [fst snd] in *. subst s.
  destruct (index_status m uuid) as [| |c|i] eqn:Hst.
  - rewrite !Hoth. pose proof (map_get_spec m1 uuid G2) as (G4 & G5 & G6 & _).
    pose proof (G6 uuid ltac:(set_solver)) as Hs2. rewrite Hs in G4, Hs2.
    destruct (map_get m1 uuid) as [s m2]. cbn [fst snd] in *. subst s.
    pose proof (map_create_missing m2 uuid None (enable_mdb_writemap opts) (index_base_map_size opts) false G5 Hs2) as Hc.
    unfold create_or_open_index in Hc.
    specialize (Hopen None (enable_mdb_writemap opts) (clamp_to_page_size page_size (index_base_map_size opts)) false).
    destruct (index_new _ _ _ _ _) as [e|i] eqn:Hi; [by destruct Hopen|].
    destruct Hc as (m' & -> & Hw & Ha & _). exists i, m'. split_and!; try done. by eapply index_new_size.
  - by exists m1.
  - pose proof (status_closing m uuid c Hwf Hst) as Hcu. unfold wait_timeout. rewrite Hcl, Hoth.
    set (r := mkReopenableIndex _ _ _ _). pose proof (reopen_spec r m1 G2) as Hr.
    destruct (reopen r m1) as [o m2]. destruct Hr as [Hw2 Hr]. assert (ri_uuid r = uuid) as Hru by done.
    rewrite Hru, Hs in Hr. cbn [ri_generation r] in Hr. rewrite Z.eqb_refl in Hr. unfold create_or_open_index in Hr.
    specialize (Hopen None (ri_enable_mdb_writemap r) (clamp_to_page_size page_size (ri_map_size r)) false).
    destruct (index_new _ _ _ _ _) as [e|i] eqn:Hi; [by destruct Hopen|]. destruct Hr as [-> Ha].
    rewrite Hoth. pose proof (map_get_spec m2 uuid Hw2) as (G4 & G5 & G6 & _).
    pose proof (G6 uuid ltac:(set_solver)) as Hs2. rewrite Ha in G4, Hs2.
    destruct (map_get m2 uuid) as [s m3]. cbn [fst snd] in *. subst s.
    exists i, m3. split_and!; try done. by eapply index_new_size in Hi.
  - exists i, m1. by split_and!.
Qed.

(** A quiet schedule: no other thread, and environments close when asked to. *)
Record quiet (sch : Schedule) : Prop := {
  quiet_other : ∀ k m, other sch k m = m;
  quiet_closed : ∀ k, closed sch k = true;
}.

(** C33. When nothing disturbs it, an open index that is full is closed and reopened at the next
    access with its size grown by the configured amount, rounded down to a whole
    number of pages.  That is, when no other thread changes the map meanwhile and the
    environment being closed is closed in time ([quiet]), the index is not one being
    updated, and every environment that is opened opens.  Otherwise the code gives
    up: it panics after a hundred tries, and the growth is lost when the index cannot be
    reopened. *)
Theorem resized_index_grows `{!IndexEnvOk} opts sch self name uuid i0 :
  imap_wf (index_map self) → quiet sch → currently_updating_index self = None →
  index_mapping self !! name = Some uuid → index_status (index_map self) uuid = Available i0 →
  (∀ date w size creation, is_Some (match index_new uuid date w size creation with inr i => Some i | inl _ => None end)) →
  ∃ self1 i self2, mapper_resize_index opts self name = Ok self1 ∧
    mapper_index opts sch self1 name = (Ok i, self2) ∧ imap_wf (index_map self2) ∧
    index_status (index_map self2) uuid = Available i ∧
    index_map_size i =
      clamp_to_page_size page_size (u64_wrap (index_map_size i0 + index_growth_amount opts)).
Proof.
  intros Hwf [Hoth Hcl] Hcur Hmap Hst Hopen. unfold mapper_resize_index. rewrite Hmap. cbn [ok_or mbind outcome_bind].
  destruct (close_for_resize_spec (index_map self) uuid (enable_mdb_writemap opts) (index_growth_amount opts) Hwf)
    as (Hw & _ & Hs). rewrite Hst in Hs.
  pose proof (index_loop_quiet opts sch name uuid 98 0 _ Hw Hoth Hcl Hopen) as Hq. rewrite Hs in Hq.
  destruct Hq as (i & m2 & Hl & Hw2 & Ha & Hsize).
  eexists _, i, _. split; [done|]. unfold mapper_index. cbn [currently_updating_index set_index_map index_mapping index_map].
  rewrite Hcur, Hmap, Hl. done.
Qed.
End facts.

(** ** Witnesses *)

Section witnesses.
#[local] Existing Instance sample_externals.

(** An index is its map size. *)
#[local] Instance sample_index_env : IndexEnv := {|
  Index := Z;
  EnvClosingEvent := unit;
  index_map_size := λ i, i;
  prepare_for_closing := λ _, tt;
  index_new := λ _ _ _ size _, inr size;
  page_size := 4096;
  uuid_to_string := λ _, "";
  is_invalid_filter := λ _, false;
  InvalidDocumentFilter := "";
  IndexStats := Z;
  IndexStore := option (Z * Z * Z);
  IndexStats_new := λ _ i, inr i;
  index_rollback := λ _ _ m, (Ok "", m);
  rollback_succeeded := λ _, true;
|}.

#[local] Instance sample_index_env_ok : IndexEnvOk.
Proof. constructor; [by intros * [= <-]|done]. Qed.

(** A full cache: the index 7 is open, the index 9 is closing. *)
Definition sample_map : IndexMap :=
  mkIndexMap (mkLru [(1, (7, 8192))] 1 1) {[9 := Some (mkClosingIndex 9 tt false 4096 3)]} 3.

Lemma sample_map_wf : imap_wf sample_map.
Proof.
  constructor.
  - constructor; simpl; [apply NoDup_singleton|lia|done].
  - intros k [i Hi]. apply elem_of_list_to_map_2, list_elem_of_singleton in Hi. injection Hi as -> ->. reflexivity.
  - intros k c Hc. cbn [sample_map unavailable] in Hc. apply lookup_singleton_Some in Hc as [<- Hc].
    by injection Hc as <-.
Qed.

Definition quiet_schedule : Schedule := mkSchedule (λ _ m, m) (λ _, true).
Definition sample_opts : MapperOptions := mkMapperOptions 4096 10000 false.

Lemma map_create_spec_witness :
  index_status sample_map 5 = Missing ∧
  ∃ m', map_create sample_map 5 None false 5000 true = Ok (4096, m') ∧ imap_wf m' ∧
    index_status m' 5 = Available 4096 ∧ length (data (available sample_map)) = cap (available sample_map).
Proof.
  split; [reflexivity|].
  pose proof (map_create_spec sample_map 5 None false 5000 true sample_map_wf) as Hc.
  change (index_status sample_map 5) with Missing in Hc.
  change (create_or_open_index 5 None false 5000 true) with (Ok (E:=MilliError) (4096 : Index)) in Hc.
  destruct Hc as (m' & Hm & Hw & Hs & _). exists m'.
  split; [exact Hm|]. split; [exact Hw|]. split; [exact Hs | reflexivity].
Defined.

Lemma closing_tables_witness :
  index_status sample_map 9 = Closing (mkClosingIndex 9 tt false 4096 3) ∧
  index_status (close_for_resize sample_map 7 false 4096) 7 = Closing (mkClosingIndex 7 tt false 12288 4) ∧
  index_status (reopen (mkReopenableIndex 9 false 4096 3) sample_map).2 9 = Available 4096 ∧
  same_except ∅ sample_map (reopen (mkReopenableIndex 9 false 4096 2) sample_map).2.
Proof.
  split; [reflexivity|].
  destruct (closing_tables sample_map 7 false 4096 (mkReopenableIndex 9 false 4096 3) sample_map_wf)
    as ((_ & _ & Hc) & (_ & Hr) & _).
  destruct (closing_tables sample_map 7 false 4096 (mkReopenableIndex 9 false 4096 2) sample_map_wf)
    as (_ & (_ & Hr2) & _).
  split; [exact Hc|]. split; [exact (proj2 Hr) | exact (proj2 Hr2)].
Defined.

(** The environment of the index 9 never closes: its files are removed anyway. *)
Lemma delete_loop_spec_witness :
  index_status sample_map 9 = Closing (mkClosingIndex 9 tt false 4096 3) ∧
  ∃ m', delete_loop (mkSchedule (λ _ m, m) (λ _, false)) 9 99 0 sample_map = (Returned (Some None), m') ∧
    imap_wf m'.
Proof.
  split; [reflexivity|].
  destruct (delete_loop_spec (mkSchedule (λ _ m, m) (λ _, false)) 9 98 sample_map sample_map_wf)
    as (m' & Hw & _ & Hd & _); [done|].
  exists m'. split; [exact Hd | exact Hw].
Defined.

Lemma index_loop_safe_witness :
  imap_wf sample_map ∧
  let '(r, m') := index_loop sample_opts quiet_schedule "movies" 9 100 0 sample_map in
  imap_wf m' ∧ r ≠ Returned Panic ∧ ∀ i, r = Returned (Ok i) → index_status m' 9 = Available i.
Proof.
  split; [exact sample_map_wf|].
  exact (index_loop_safe sample_opts quiet_schedule "movies" 9 (λ _ m Hm, Hm) 100 0 sample_map sample_map_wf).
Defined.

Definition sample_mapper : IndexMapper := mkIndexMapper sample_map {["movies" := 7]} ∅ None.

Lemma resized_index_grows_witness :
  index_status sample_map 7 = Available 8192 ∧
  ∃ self1 i self2, mapper_resize_index sample_opts sample_mapper "movies" = Ok self1 ∧
    mapper_index sample_opts quiet_schedule self1 "movies" = (Ok i, self2) ∧ index_map_size i = 16384.
Proof.
  split; [reflexivity|].
  destruct (resized_index_grows sample_opts quiet_schedule sample_mapper "movies" 7 8192)
    as (self1 & i & self2 & H1 & H2 & _ & _ & Hsize); try reflexivity.
  - exact sample_map_wf.
  - by constructor.
  - intros. by eexists.
  - exists self1, i, self2. split; [exact H1|]. split; [exact H2 | exact Hsize].
Defined.
End witnesses.
