(* ===== verification/Versions.v ===== *)
(** * Versions: the version file, the start of the server, the upgrade of an index

    [crates/meilisearch-types/src/versioning.rs] (the version file),
    [crates/meilisearch/src/lib.rs] (the checks made before the database is
    opened), [crates/index-scheduler/src/versioning.rs] and
    [crates/index-scheduler/src/upgrade/mod.rs] (the version of the task
    database), and [crates/milli-core/src/update/upgrade] (the upgrade of one
    index).  The start of the server is a sequence of durable commits, and may be
    interrupted after any of them. *)

From S2P Require Import Prelude TaskTypes TaskQueue Queue.
From Stdlib Require Import Ascii.
Open Scope Z_scope.

Abbreviation Version := (Z * Z * Z)%type.
Abbreviation bytes := (list ascii).

(** [from > to] as the code writes it out. *)
Definition version_gt (from to : Version) : bool :=
  let '(from_major, from_minor, from_patch) := from in
  let '(to_major, to_minor, to_patch) := to in
  (to_major <? from_major)
  || ((from_major =? to_major) && (to_minor <? from_minor))
  || ((from_major =? to_major) && (from_minor =? to_minor) && (to_patch <? from_patch)).

(** ** The text of the version file *)

Definition byte (n : Z) : ascii := ascii_of_N (Z.to_N n).
Definition byte_val (a : ascii) : Z := Z.of_N (N_of_ascii a).

(** The decimal digits of [n < 10 ^ fuel]: [Display for u32]. *)
Fixpoint decimal (fuel : nat) (n : Z) : bytes :=
  match fuel with
  | O => []
  | S fuel => (if n / 10 =? 0 then [] else decimal fuel (n / 10)) ++ [byte (48 + n mod 10)]
  end.

(** Ten digits are enough for an [u32]. *)
Definition display_u32 (n : Z) : bytes := decimal 10 n.

(** What [create_version_file] writes. *)
Definition print_version (v : Version) : bytes :=
  let '(major, minor, patch) := v in
  display_u32 major ++ byte 46 :: display_u32 minor ++ byte 46 :: display_u32 patch.

(** The encodings of the characters with the property [White_Space]. *)
Definition white_spaces : list bytes :=
  map (map byte)
    ([[9]; [10]; [11]; [12]; [13]; [32]; [194; 133]; [194; 160]; [225; 154; 128];
      [226; 128; 168]; [226; 128; 169]; [226; 128; 175]; [226; 129; 159]; [227; 128; 128]]
     ++ map (λ i, [226; 128; 128 + i]) (seqZ 0 11)).

Fixpoint strip_prefix (p s : bytes) : option bytes :=
  match p, s with
  | [], _ => Some s
  | a :: p, b :: s => if Ascii.eqb a b then strip_prefix p s else None
  | _ :: _, [] => None
  end.

(** Removes leading words of [ws]; each round removes a byte at least. *)
Fixpoint trim_start (ws : list bytes) (fuel : nat) (s : bytes) : bytes :=
  match fuel with
  | O => s
  | S fuel =>
      match head (omap (λ w, strip_prefix w s) ws) with
      | Some s' => trim_start ws fuel s'
      | None => s
      end
  end.

(** [str::trim]. *)
Definition trim (s : bytes) : bytes :=
  let s := trim_start white_spaces (length s) s in
  reverse (trim_start (map reverse white_spaces) (length s) (reverse s)).

(** [split('.')]. *)
Fixpoint split (sep : ascii) (s : bytes) : list bytes :=
  match s with
  | [] => [[]]
  | c :: s =>
      if Ascii.eqb c sep then [] :: split sep s
      else match split sep s with w :: ws => (c :: w) :: ws | [] => [[c]] end
  end.

Inductive IntErrorKind := Empty | InvalidDigit | PosOverflow.

Definition to_digit (c : ascii) : option Z :=
  let n := byte_val c in if (48 <=? n) && (n <=? 57) then Some (n - 48) else None.

(** The loop of [u32::from_str]. *)
Fixpoint parse_digits (acc : Z) (s : bytes) : outcome IntErrorKind Z :=
  match s with
  | [] => Ok acc
  | c :: s =>
      match to_digit c with
      | None => Err InvalidDigit
      | Some d => if acc * 10 + d <=? u32_max then parse_digits (acc * 10 + d) s else Err PosOverflow
      end
  end.

(** [u32::from_str]: an optional plus sign and digits; a sign alone is not a
    number. *)
Definition parse_u32 (s : bytes) : outcome IntErrorKind Z :=
  match s with
  | [] => Err Empty
  | [c] => parse_digits 0 s
  | c :: s' => if byte_val c =? 43 then parse_digits 0 s' else parse_digits 0 s
  end.

Inductive Malformed :=
| CouldNotParse (part : string) (e : IntErrorKind)
| Parts (n : nat).

Inductive VersionFileError :=
| MissingVersionFile
| MalformedVersionFile (context : Malformed)
| VersionMismatch (v : Version)
| DowngradeNotSupported (v : Version)
| TooOldForAutomaticUpgrade (v : Version).

Definition parse_version (version : bytes) : outcome VersionFileError Version :=
  let part name s := map_err (λ e, MalformedVersionFile (CouldNotParse name e)) (parse_u32 s) in
  match split (byte 46) (trim version) with
  | [major; minor; patch] =>
      major ← part "major" major;
      minor ← part "minor" minor;
      patch ← part "patch" patch;
      Ok (major, minor, patch)
  | components => Err (MalformedVersionFile (Parts (length components)))
  end.

(** [get_version]: the version file of the database, if there is one. *)
Definition get_version (file : option bytes) : outcome VersionFileError Version :=
  match file with
  | Some version => parse_version version
  | None => Err MissingVersionFile
  end.

(** ** The start of the server *)

(** The refusals of [upgrade_index_scheduler]. *)
Inductive UpgradeRefusal := IsHigher | IsTooOld | IsUnknown.

Inductive BootError :=
| VersionFile (e : VersionFileError)
| UpgradeRefused (r : UpgradeRefusal) (v : Version)
| AuthFailed.

(** The result of a start that may be killed. *)
Inductive booted (A : Type) := Booted (a : A) | Refused (e : BootError) | Killed.
#[global] Arguments Booted {_} _.
#[global] Arguments Refused {_} _.
#[global] Arguments Killed {_}.

Section boot.
Context `{Externals}.

(** What is on disk: the version file, the version stored in the task database
    and the task queue. *)
Record Disk := mkDisk {
  d_file : option bytes;
  d_version : option Version;
  d_tasks : TaskQueue;
}.


(** A computation that commits to the disk.  The process is killed after [n]
    commits: the next one does not happen. *)
Definition Boot (A : Type) : Type := nat → Disk → booted A * nat * Disk.

#[global] Instance boot_ret : MRet Boot := λ A a n d, (Booted a, n, d).
#[global] Instance boot_bind : MBind Boot := λ A B f m n d,
  match m n d with
  | (Booted a, n, d) => f a n d
  | (Refused e, n, d) => (Refused e, n, d)
  | (Killed, n, d) => (Killed, n, d)
  end.

Definition commit (f : Disk → Disk) : Boot () := λ n d,
  match n with
  | O => (Killed, O, d)
  | S n => (Booted (), n, f d)
  end.

Definition read {A} (f : Disk → A) : Boot A := λ n d, (Booted (f d), n, d).
Definition refuse {A} (e : BootError) : Boot A := λ n d, (Refused e, n, d).
Definition lift_file {A} (r : outcome VersionFileError A) : Boot A := λ n d,
  match r with
  | Ok a => (Booted a, n, d)
  | Err e => (Refused (VersionFile e), n, d)
  | Panic => (Killed, n, d)
  end.

Definition write_version (v : Version) (d : Disk) : Disk := mkDisk (d_file d) (Some v) (d_tasks d).
Definition write_file (v : Version) (d : Disk) : Disk := mkDisk (Some (print_version v)) (d_version d) (d_tasks d).

(** The task [upgrade_index_scheduler] registers. *)
Definition upgrade_task (now : DateTime) (id : TaskId) (from to : Version) : Task :=
  mkTask id None now None None None None (Some (Details.UpgradeDatabase from to)) Status.Enqueued
    (KindWithContent.UpgradeDatabase from).

Definition register_upgrade (now : DateTime) (from to : Version) (d : Disk) : Disk :=
  mkDisk (d_file d) (d_version d)
    (tq_register (d_tasks d) (upgrade_task now (next_task_id (d_tasks d)) from to)).

(** [upgrade_index_scheduler]: the only step of the task queue does nothing but
    write the version of the binary. *)
Definition upgrade_index_scheduler (now : DateTime) (from to : Version) : Boot () :=
  let '(major, minor, patch) := from in
  if (major =? 1) && ((minor =? 12) || (minor =? 13) || (minor =? 14) || (minor =? 15)) then
    _ ← commit (write_version VERSION);
    commit (register_upgrade now from to)
  else if version_gt from to then refuse (UpgradeRefused IsHigher from)
  else if (major <? 1) || ((major =? to.1.1) && (minor <? 12)) then refuse (UpgradeRefused IsTooOld from)
  else refuse (UpgradeRefused IsUnknown from).

(** [Versioning::new]. *)
Definition Versioning_new (now : DateTime) (db_version : Version) : Boot () :=
  stored ← read d_version;
  let from := default db_version stored in
  _ ← commit (write_version from);
  _ ← (if bool_decide (from = VERSION) then mret () else upgrade_index_scheduler now from VERSION);
  commit (write_version VERSION).

(** [update_version_file_for_dumpless_upgrade]: a database of version 1.12 does
    not contain its version, which is written first. *)
Definition update_version_file_for_dumpless_upgrade (from to : Version) : Boot () :=
  let '(from_major, from_minor, from_patch) := from in
  let '(to_major, to_minor, to_patch) := to in
  if version_gt from to then refuse (VersionFile (DowngradeNotSupported from))
  else if (from_major <? 1) || ((from_major =? to_major) && (from_minor <? 12))
  then refuse (VersionFile (TooOldForAutomaticUpgrade from))
  else
    _ ← (if (from_major =? 1) && (from_minor =? 12) then commit (write_version from) else mret ());
    commit (write_file VERSION).

(** [check_version]. *)
Definition check_version (dumpless_upgrade : bool) (binary_version : Version) : Boot Version :=
  file ← read d_file;
  db_version ← lift_file (get_version file);
  _ ← (if bool_decide (db_version = binary_version) then mret ()
       else if dumpless_upgrade then update_version_file_for_dumpless_upgrade db_version binary_version
       else refuse (VersionFile (VersionMismatch db_version)));
  mret db_version.

(** The version file is written whatever the opening of the databases gave, but
    not if the process was killed. *)
Definition always {A} (m : Boot A) (next : Boot ()) : Boot A := λ n d,
  match m n d with
  | (Killed, n, d) => (Killed, n, d)
  | (r, n, d) =>
      match next n d with
      | (Booted _, n, d) => (r, n, d)
      | (Refused e, n, d) => (match r with Booted _ => Refused e | r => r end, n, d)
      | (Killed, n, d) => (Killed, n, d)
      end
  end.

(** [open_or_create_database_unchecked], when the database is kept on failure;
    [auth_ok] is the result of [AuthController::new]. *)
Definition open_or_create_database_unchecked (now : DateTime) (auth_ok : bool) (version : Version) : Boot () :=
  always (Versioning_new now version) (commit (write_file VERSION)) ≫= λ _,
  if auth_ok then mret () else refuse AuthFailed.

(** [open_or_create_database]. *)
Definition open_or_create_database (now : DateTime) (dumpless_upgrade auth_ok empty_db : bool)
    (binary_version : Version) : Boot () :=
  version ← (if empty_db then mret binary_version else check_version dumpless_upgrade binary_version);
  open_or_create_database_unchecked now auth_ok version.

(** A start of the server, killed after [n] commits. *)
Definition start (now : DateTime) (dumpless_upgrade auth_ok empty_db : bool) (n : nat) (d : Disk)
    : booted () * Disk :=
  let '(r, _, d) := open_or_create_database now dumpless_upgrade auth_ok empty_db VERSION n d in (r, d).
End boot.

(** ** Printing and parsing the version file *)

(** The digits are the bytes 48 to 57. *)
Lemma to_digit_byte d : 0 ≤ d < 10 → to_digit (byte (48 + d)) = Some d.
Proof.
  intros Hd. assert (∃ n : nat, d = Z.of_nat n ∧ (n < 10)%nat) as (n & -> & Hn) by (exists (Z.to_nat d); lia).
  do 10 (destruct n as [|n]; [reflexivity|]). lia.
Qed.

Lemma parse_digits_snoc acc s c :
  parse_digits acc (s ++ [c]) =
    n ← parse_digits acc s; parse_digits n [c].
Proof.
  revert acc. induction s as [|a s IH]; intros acc; [done|]. cbn [app parse_digits].
  destruct (to_digit a) as [d|]; [|done]. destruct (acc * 10 + d <=? u32_max); [apply IH|done].
Qed.

Lemma parse_decimal fuel n : 0 ≤ n ≤ u32_max → n < 10 ^ Z.of_nat fuel → parse_digits 0 (decimal fuel n) = Ok n.
Proof.
  revert n. induction fuel as [|fuel IH]; intros n Hn Hf; [cbn in Hf; assert (n = 0) as -> by lia; done|].
  cbn [decimal]. rewrite parse_digits_snoc.
  assert (Hq : parse_digits 0 (if n / 10 =? 0 then [] else decimal fuel (n / 10)) = Ok (n / 10)).
  { destruct (Z.eqb_spec (n / 10) 0) as [->|Hne]; [done|].
    assert (n / 10 < n) by (apply Z.div_lt; destruct (Z.eq_dec n 0); [subst; done|lia..]).
    apply IH; [split; [apply Z.div_pos; lia|lia]|].
    rewrite Nat2Z.inj_succ, Z.pow_succ_r in Hf by lia. apply Z.div_lt_upper_bound; lia. }
  rewrite Hq. cbn [mbind outcome_bind parse_digits].
  rewrite to_digit_byte by (apply Z.mod_pos_bound; lia).
  rewrite Z.mul_comm, <-(Z_div_mod_eq_full n 10). by rewrite (proj2 (Z.leb_le _ _)) by lia.
Qed.

(** A printed number is a non-empty list of digits. *)
Definition is_digit (c : ascii) : bool := bool_decide (is_Some (to_digit c)).

Lemma decimal_digits fuel n : 0 ≤ n → Forall is_digit (decimal fuel n).
Proof.
  revert n. induction fuel as [|fuel IH]; intros n Hn; [constructor|]. cbn [decimal].
  apply Forall_app; split.
  - destruct (n / 10 =? 0); [constructor|]. apply IH, Z.div_pos; lia.
  - repeat constructor. unfold is_digit. rewrite to_digit_byte by (apply Z.mod_pos_bound; lia).
    by apply bool_decide_pack.
Qed.

Lemma display_u32_shape n : 0 ≤ n → ∃ s c, display_u32 n = s ++ [c] ∧ Forall is_digit (s ++ [c]).
Proof.
  intros Hn. pose proof (decimal_digits 10 n Hn) as Hd. unfold display_u32. cbn [decimal] in *. by eexists _, _.
Qed.

Lemma parse_display n : 0 ≤ n ≤ u32_max → parse_u32 (display_u32 n) = Ok n.
Proof.
  intros Hn. assert (Hp : parse_digits 0 (display_u32 n) = Ok n) by (apply parse_decimal; [done|unfold u32_max in *; lia]).
  destruct (display_u32_shape n) as (s & c & Heq & Hd); [lia|]. rewrite Heq in *.
  destruct s as [|a s]; [done|]. cbn [app parse_u32] in *.
  destruct (s ++ [c]) as [|b l] eqn:Hl; [by destruct s|]. rewrite <-Hl in *.
  inversion Hd as [|?? Ha _]; subst. destruct (Z.eqb_spec (byte_val a) 43) as [Hplus|]; [|done].
  exfalso. unfold is_digit, to_digit in Ha. rewrite Hplus in Ha. apply bool_decide_unpack in Ha. by destruct Ha.
Qed.

Lemma digit_not_dot c : is_digit c → Ascii.eqb c (byte 46) = false.
Proof. intros Hc. destruct (Ascii.eqb_spec c (byte 46)) as [->|]; [|done]. exfalso. revert Hc. by vm_compute. Qed.

Lemma split_digits s r : Forall is_digit s → split (byte 46) (s ++ byte 46 :: r) = s :: split (byte 46) r.
Proof.
  induction 1 as [|c s Hc _ IH]; [done|]. cbn [app split]. by rewrite digit_not_dot, IH.
Qed.

Lemma split_last s : Forall is_digit s → split (byte 46) s = [s].
Proof. induction 1 as [|c s Hc _ IH]; [done|]. cbn [split]. by rewrite digit_not_dot, IH. Qed.

(** A text that starts with a digit has nothing to trim. *)
Definition no_digit_start (w : bytes) : bool :=
  match w with [] => false | a :: _ => negb (is_digit a) end.

Lemma trim_start_digit ws fuel c s :
  is_digit c → Forall no_digit_start ws →
  trim_start ws fuel (c :: s) = c :: s.
Proof.
  intros Hc Hws. destruct fuel as [|fuel]; [done|]. cbn [trim_start].
  assert (omap (λ w, strip_prefix w (c :: s)) ws = []) as ->; [|done].
  induction Hws as [|w ws Hw _ IH]; [done|]. cbn. destruct w as [|a w]; [done|]. cbn [strip_prefix].
  destruct (Ascii.eqb_spec a c) as [->|]; [|exact IH]. exfalso. cbn in Hw. by destruct (is_digit c).
Qed.

Lemma white_spaces_start : Forall no_digit_start white_spaces.
Proof. apply (bool_decide_unpack _). by vm_compute. Qed.

Lemma white_spaces_end : Forall no_digit_start (map reverse white_spaces).
Proof. apply (bool_decide_unpack _). by vm_compute. Qed.

Lemma trim_digits c s d : is_digit c → is_digit d → trim (c :: s ++ [d]) = c :: s ++ [d].
Proof.
  intros Hc Hd. unfold trim. rewrite trim_start_digit by (done || apply white_spaces_start).
  rewrite app_comm_cons, reverse_app. change (reverse [d] ++ reverse (c :: s)) with (d :: reverse (c :: s)).
  rewrite trim_start_digit by (done || apply white_spaces_end).
  by rewrite reverse_cons, reverse_involutive.
Qed.

Definition is_version (v : Version) : Prop :=
  (0 ≤ v.1.1 ≤ u32_max) ∧ (0 ≤ v.1.2 ≤ u32_max) ∧ (0 ≤ v.2 ≤ u32_max).

Lemma parse_print v : is_version v → parse_version (print_version v) = Ok v.
Proof.
  destruct v as [[major minor] patch]. intros (Hmajor & Hminor & Hpatch).
  cbn [fst snd] in Hmajor, Hminor, Hpatch. unfold parse_version, print_version.
  destruct (display_u32_shape major) as (s1 & c1 & H1 & D1); [lia|].
  destruct (display_u32_shape minor) as (s2 & c2 & H2 & D2); [lia|].
  destruct (display_u32_shape patch) as (s3 & c3 & H3 & D3); [lia|].
  assert (Ht : trim (display_u32 major ++ byte 46 :: display_u32 minor ++ byte 46 :: display_u32 patch) =
    display_u32 major ++ byte 46 :: display_u32 minor ++ byte 46 :: display_u32 patch).
  { rewrite H3. apply Forall_app in D3 as [_ D3]. inversion D3; subst.
    destruct (s1 ++ [c1]) as [|a l] eqn:E; [by destruct s1|]. inversion D1; subst. rewrite H1. cbn [app].
    pose proof (trim_digits a (l ++ byte 46 :: display_u32 minor ++ byte 46 :: s3) c3 H6 H4) as Ht.
    rewrite <-!app_assoc in Ht. cbn [app] in Ht. rewrite <-!app_assoc in Ht. cbn [app] in Ht. exact Ht. }
  rewrite Ht, split_digits by (rewrite H1; done). rewrite split_digits by (rewrite H2; done).
  rewrite split_last by (rewrite H3; done).
  rewrite (parse_display major), (parse_display minor), (parse_display patch) by done. done.
Qed.

(** The version written in the version file is the one read from it,
    for all the versions: printing three [u32] separated by dots, trimming,
    splitting and parsing gives them back. *)
Theorem version_file_roundtrip v :
  is_version v → get_version (Some (print_version v)) = Ok v.
Proof. apply parse_print. Qed.

Lemma version_file_roundtrip_witness : get_version (Some (print_version (1, 15, 4294967295))) = Ok (1, 15, 4294967295).
Proof. apply version_file_roundtrip. vm_compute. intuition discriminate. Defined.

(** ** The start of the server *)

Section start_facts.
Context `{Externals}.
Hypothesis current_version : is_version VERSION.

(** The versions a database can be upgraded from without a dump. *)
Definition upgradable (v : Version) : Prop :=
  is_version v ∧ v.1.1 = 1 ∧ 12 ≤ v.1.2 ≤ 15 ∧ version_gt VERSION v = true.

(** A database of version [v]: the version file says so, and so does the task
    database, except in 1.12. *)
Definition database_of (v : Version) (d : Disk) : Prop :=
  d_file d = Some (print_version v) ∧ (d_version d = Some v ∨ (v.1.2 = 12 ∧ d_version d = None)).

(** The database after the start: at the version of the binary, with the queue
    [tq]. *)
Definition current (tq : TaskQueue) : Disk := mkDisk (Some (print_version VERSION)) (Some VERSION) tq.

Definition with_upgrade (now : DateTime) (v : Version) (tq : TaskQueue) : TaskQueue :=
  tq_register tq (upgrade_task now (next_task_id tq) v VERSION).

Lemma version_gt_asym v w : version_gt v w = true → version_gt w v = false ∧ v ≠ w.
Proof.
  destruct v as [[a b] c], w as [[a' b'] c']. unfold version_gt.
  rewrite !orb_true_iff, !andb_true_iff, !Z.ltb_lt, !Z.eqb_eq. intros Hgt. split.
  - apply not_true_is_false. rewrite !orb_true_iff, !andb_true_iff, !Z.ltb_lt, !Z.eqb_eq. lia.
  - intros [= -> -> ->]. lia.
Qed.

(** The checks an upgradable version passes. *)
Lemma upgradable_checks v :
  upgradable v → v ≠ VERSION ∧ version_gt v VERSION = false ∧
  ((v.1.1 =? 1) && ((v.1.2 =? 12) || (v.1.2 =? 13) || (v.1.2 =? 14) || (v.1.2 =? 15))) = true ∧
  ((v.1.1 <? 1) || ((v.1.1 =? VERSION.1.1) && (v.1.2 <? 12))) = false.
Proof.
  intros (_ & Hmaj & Hmin & Hgt). destruct (version_gt_asym _ _ Hgt) as [Hngt Hne]. split_and!; [by intros ->|done|..].
  - rewrite Hmaj. change (1 =? 1) with true. cbn [andb]. rewrite !orb_true_iff, !Z.eqb_eq. lia.
  - rewrite Hmaj. change (1 <? 1) with false. cbn [orb]. apply not_true_is_false. rewrite andb_true_iff, Z.ltb_lt. lia.
Qed.

(** The commits of a start, in order. *)
Definition upgrade_commits (now : DateTime) (v : Version) : list (Disk → Disk) :=
  (if v.1.2 =? 12 then [write_version v] else []) ++
  [write_file VERSION; write_version v; write_version VERSION; register_upgrade now v VERSION;
   write_version VERSION; write_file VERSION].

Definition current_commits : list (Disk → Disk) :=
  [write_version VERSION; write_version VERSION; write_file VERSION].

Fixpoint run_commits (fs : list (Disk → Disk)) (n : nat) (d : Disk) : booted () * Disk :=
  match fs, n with
  | [], _ => (Booted (), d)
  | _ :: _, O => (Killed, d)
  | f :: fs, S n => run_commits fs n (f d)
  end.

Lemma get_version_of v d : is_version v → d_file d = Some (print_version v) → get_version (d_file d) = Ok v.
Proof. intros Hv ->. by apply parse_print. Qed.

(** The file of an upgradable database is replaced. *)
Lemma check_version_upgradable v n d :
  upgradable v → d_file d = Some (print_version v) →
  check_version true VERSION n d =
    (_ ← (if v.1.2 =? 12 then commit (write_version v) else mret ()); _ ← commit (write_file VERSION); mret v) n d.
Proof.
  intros Hv Hf. destruct (upgradable_checks v Hv) as (Hne & Hgt & _ & Hold).
  unfold check_version, mbind, boot_bind, read. rewrite (get_version_of v) by (done || apply Hv).
  cbn [lift_file]. rewrite bool_decide_eq_false_2 by done.
  unfold update_version_file_for_dumpless_upgrade. rewrite Hgt.
  destruct v as [[major minor] patch], VERSION as [[vmajor vminor] vpatch]. cbn [fst snd] in *. rewrite Hold.
  destruct Hv as (_ & Hmaj & _). cbn in Hmaj. subst major. change (1 =? 1) with true. cbn [andb].
  destruct (minor =? 12); [|by destruct n]. by destruct n as [|[|n]].
Qed.

Lemma Versioning_new_upgradable now v w n d :
  upgradable v → d_version d = Some v →
  Versioning_new now w n d =
    (_ ← commit (write_version v); _ ← commit (write_version VERSION);
     _ ← commit (register_upgrade now v VERSION); commit (write_version VERSION)) n d.
Proof.
  intros Hv Hd. destruct (upgradable_checks v Hv) as (Hne & _ & Hok & _). unfold Versioning_new, mbind, boot_bind, read.
  rewrite Hd. change (default w (Some v)) with v. rewrite bool_decide_eq_false_2 by done.
  unfold upgrade_index_scheduler. destruct v as [[major minor] patch]. cbn [fst snd] in Hok. rewrite Hok.
  by destruct n as [|[|[|[|n]]]].
Qed.

Lemma start_upgradable now v n d :
  upgradable v → database_of v d →
  start now true true false n d = run_commits (upgrade_commits now v) n d.
Proof.
  intros Hv [Hf Hd]. unfold start, open_or_create_database, open_or_create_database_unchecked, always.
  cbv beta iota. unfold mbind at 1, boot_bind at 1. rewrite (check_version_upgradable v) by done.
  unfold upgrade_commits. destruct (Z.eqb_spec v.1.2 12) as [H12|H12].
  - destruct n as [|[|n]]; [done..|]. unfold mbind, boot_bind, commit, mret, boot_ret. cbn [app run_commits].
    pose proof (Versioning_new_upgradable now v v n (write_file VERSION (write_version v d)) Hv eq_refl) as Hnew.
    rewrite Hnew. by destruct n as [|[|[|[|[|n]]]]].
  - destruct Hd as [Hd|[]]; [|done].
    destruct n as [|n]; [done|]. unfold mbind, boot_bind, commit, mret, boot_ret. cbn [app run_commits].
    pose proof (Versioning_new_upgradable now v v n (write_file VERSION d) Hv Hd) as Hnew.
    rewrite Hnew. by destruct n as [|[|[|[|[|n]]]]].
Qed.

(** A start on a database whose file is at the version of the binary. *)
Lemma start_current now v n d :
  d_file d = Some (print_version VERSION) → d_version d = Some v → (v = VERSION ∨ upgradable v) →
  start now true true false n d =
    run_commits (if decide (v = VERSION) then current_commits
                 else [write_version v; write_version VERSION; register_upgrade now v VERSION;
                       write_version VERSION; write_file VERSION]) n d.
Proof.
  intros Hf Hd Hv. unfold start, open_or_create_database, open_or_create_database_unchecked, always.
  cbv beta iota. unfold mbind at 1, boot_bind at 1, check_version, mbind, boot_bind, read.
  rewrite (get_version_of VERSION) by done. cbn [lift_file]. rewrite bool_decide_eq_true_2 by done.
  cbn [mret boot_ret]. case_decide as Hc.
  - subst v. unfold Versioning_new, mbind, boot_bind, read. rewrite Hd. cbn [from_option].
    rewrite bool_decide_eq_true_2 by done. by destruct n as [|[|[|n]]].
  - destruct Hv as [|Hv]; [done|]. rewrite (Versioning_new_upgradable now v VERSION n d Hv Hd).
    by destruct n as [|[|[|[|[|n]]]]].
Qed.

(** Starting the server.  On a database of another version the start
    is refused and nothing is written, unless the upgrade without a dump is
    enabled; it is refused as well, and nothing is written, when the version is
    newer or too old.  Otherwise the start ends with the version of the binary in
    the file and in the task database, and one task is registered, that upgrades
    from the version found.  A database of the version of the binary, and an
    empty one, are opened as they are.  Seven commits are enough. *)
Theorem start_spec now v d n :
  is_version v → d_file d = Some (print_version v) → (7 ≤ n)%nat →
  (v ≠ VERSION → start now false true false n d = (Refused (VersionFile (VersionMismatch v)), d)) ∧
  (version_gt v VERSION = true →
     start now true true false n d = (Refused (VersionFile (DowngradeNotSupported v)), d)) ∧
  (v.1.1 = VERSION.1.1 ∧ v.1.2 < 12 ∧ v.1.2 < VERSION.1.2 →
     start now true true false n d = (Refused (VersionFile (TooOldForAutomaticUpgrade v)), d)) ∧
  (upgradable v → database_of v d →
     start now true true false n d = (Booted (), current (with_upgrade now v (d_tasks d)))) ∧
  (v = VERSION → d_version d = Some v → start now true true false n d = (Booted (), current (d_tasks d))) ∧
  ∀ tq, start now true true true n (mkDisk None None tq) = (Booted (), current tq).
Proof.
  intros Hv Hf Hn. do 7 (destruct n as [|n]; [lia|]).
  assert (Hget := get_version_of v d Hv Hf).
  split_and!.
  - intros Hne. unfold start, open_or_create_database, check_version, mbind, boot_bind, read. rewrite Hget.
    cbn [lift_file]. by rewrite bool_decide_eq_false_2.
  - intros Hgt. unfold start, open_or_create_database, check_version, mbind, boot_bind, read. rewrite Hget.
    cbn [lift_file]. rewrite bool_decide_eq_false_2 by (by apply version_gt_asym).
    unfold update_version_file_for_dumpless_upgrade. destruct v as [[??]?], VERSION as [[??]?]. by rewrite Hgt.
  - intros (Hmaj & Hmin & Hlt). unfold start, open_or_create_database, check_version, mbind, boot_bind, read.
    rewrite Hget. cbn [lift_file]. rewrite bool_decide_eq_false_2 by (intros ->; lia).
    unfold update_version_file_for_dumpless_upgrade.
    assert (version_gt v VERSION = false) as ->.
    { apply (version_gt_asym VERSION v). destruct v as [[??]?], VERSION as [[??]?]. cbn in *.
      rewrite !orb_true_iff, !andb_true_iff, !Z.ltb_lt, !Z.eqb_eq. lia. }
    destruct v as [[a b] c], VERSION as [[??]?]. cbn [fst snd] in *. subst a. rewrite Z.eqb_refl.
    rewrite (proj2 (Z.ltb_lt b 12)) by done. by rewrite orb_true_r.
  - intros Hup Hd. rewrite (start_upgradable now v) by done. unfold upgrade_commits. by destruct (v.1.2 =? 12).
  - intros -> Hd. rewrite (start_current now VERSION) by auto. by rewrite decide_True.
  - intros tq. unfold start, open_or_create_database, open_or_create_database_unchecked, always, Versioning_new,
      mbind, boot_bind, read, mret, boot_ret. cbn [d_version from_option commit].
    by rewrite bool_decide_eq_true_2.
Qed.

(** The number of commits after which the version of the task database is that
    of the binary and the upgrade task is not registered yet. *)
Definition window (v : Version) : nat := if v.1.2 =? 12 then 4 else 3.

(** The states an upgrade can be interrupted in. *)
Lemma upgrade_states now v n d :
  database_of v d →
  let d1 := (run_commits (upgrade_commits now v) n d).2 in
  (n ≠ window v ∧ database_of v d1 ∧ d_tasks d1 = d_tasks d) ∨
  (n ≠ window v ∧ d_file d1 = Some (print_version VERSION) ∧ d_version d1 = Some v ∧ d_tasks d1 = d_tasks d) ∨
  (n = window v ∧ d1 = current (d_tasks d)) ∨
  (n ≠ window v ∧ d1 = current (with_upgrade now v (d_tasks d))).
Proof.
  intros Hd. destruct d as [f w tq]. unfold database_of in *. destruct Hd as [Hf Hw]. cbn in Hf. subst f.
  unfold window, upgrade_commits. destruct (Z.eqb_spec v.1.2 12) as [H12|H12].
  - destruct n as [|[|[|[|[|[|[|n]]]]]]]; cbn; unfold current, with_upgrade; naive_solver.
  - destruct Hw as [Hw|[]]; [|done]. cbn in Hw. subst w.
    destruct n as [|[|[|[|[|[|n]]]]]]; cbn; unfold current, with_upgrade; naive_solver.
Qed.

Lemma restart_current now' tq n' :
  (7 ≤ n')%nat → start now' true true false n' (current tq) = (Booted (), current tq).
Proof.
  intros Hn. do 7 (destruct n' as [|n']; [lia|]). rewrite (start_current now' VERSION) by auto.
  by rewrite decide_True.
Qed.

(** C40. A start that upgrades the database is killed after any number of
    commits, and the server is started again.  The second start succeeds at the
    version of the binary, and exactly one upgrade task was registered by the
    two, whose version of origin is that of the database -- except when the first
    start was killed between the commit of the version and that of the task:
    then no upgrade task is ever registered. *)
Theorem restarted_upgrade now now' v d n n' :
  upgradable v → database_of v d → (7 ≤ n')%nat →
  ∃ tq, start now' true true false n' (start now true true false n d).2 = (Booted (), current tq) ∧
    if decide (n = window v) then tq = d_tasks d
    else tq = with_upgrade now v (d_tasks d) ∨ tq = with_upgrade now' v (d_tasks d).
Proof.
  intros Hv Hd Hn'. destruct (upgradable_checks v Hv) as (Hne & _).
  rewrite (start_upgradable now v) by done.
  destruct (upgrade_states now v n d Hd) as [(Hn & Hd1 & Ht)|[(Hn & Hf1 & Hd1 & Ht)|[(Hn & ->)|(Hn & ->)]]];
    destruct (decide (n = window v)); try done.
  - exists (with_upgrade now' v (d_tasks d)). split; [|by right]. rewrite (start_upgradable now' v) by done.
    do 7 (destruct n' as [|n']; [lia|]). rewrite <-Ht. unfold upgrade_commits. by destruct (v.1.2 =? 12).
  - exists (with_upgrade now' v (d_tasks d)). split; [|by right]. rewrite (start_current now' v) by auto.
    do 7 (destruct n' as [|n']; [lia|]). rewrite <-Ht. by rewrite decide_False.
  - exists (d_tasks d). by rewrite restart_current.
  - exists (with_upgrade now v (d_tasks d)). split; [by rewrite restart_current|by left].
Qed.
End start_facts.

(** ** Witnesses *)

Section witnesses.
#[local] Existing Instance sample_externals.

Lemma sample_version : is_version VERSION.
Proof. vm_compute. intuition discriminate. Qed.

(** A database of version 1.13.2. *)
Definition sample_disk : Disk := mkDisk (Some (print_version (1, 13, 2))) (Some (1, 13, 2)) TaskQueue_new.

Lemma sample_upgradable : upgradable (1, 13, 2) ∧ database_of (1, 13, 2) sample_disk.
Proof. split; [|split; [done|by left]]. unfold upgradable, is_version, u32_max. cbn. lia. Qed.

Lemma start_spec_witness :
  start 10 true true false 7 sample_disk = (Booted (), current (with_upgrade 10 (1, 13, 2) TaskQueue_new)).
Proof.
  destruct sample_upgradable as [Hv Hd].
  destruct (start_spec sample_version 10 (1, 13, 2) sample_disk 7 (proj1 Hv) eq_refl (le_n 7))
    as (_ & _ & _ & Hup & _).
  exact (Hup Hv Hd).
Defined.

Lemma restarted_upgrade_witness :
  start 20 true true false 7 (start 10 true true false 3 sample_disk).2 = (Booted (), current TaskQueue_new).
Proof.
  destruct sample_upgradable as [Hv Hd].
  destruct (restarted_upgrade sample_version 10 20 (1, 13, 2) sample_disk 3 7 Hv Hd (le_n 7)) as (tq & -> & Htq).
  rewrite decide_True in Htq by reflexivity. rewrite Htq. reflexivity.
Defined.
End witnesses.
