(* ===== verification/Ids.v ===== *)
(** * Identifiers of fields and of documents

    [crates/milli-core/src/fields_ids_map.rs], [update/available_ids.rs] and
    [update/concurrent_available_ids.rs]: the numbers given to the fields and to
    the documents of an index. *)

From S2P Require Import Prelude.
From Stdlib Require Import Ascii.
Open Scope Z_scope.

Definition u16_max : Z := 2 ^ 16 - 1.

(** ** The fields of an index *)

(** [is_faceted_by]: [field] is [facet] or one of its nested fields. *)
Fixpoint is_faceted_by (field facet : string) : bool :=
  match facet, field with
  | "", "" => true
  | "", String c _ => Ascii.eqb c "."
  | String a facet, String b field => Ascii.eqb a b && is_faceted_by field facet
  | String _ _, "" => false
  end%string.

Record FieldsIdsMap := mkFieldsIdsMap {
  names_ids : gmap string Z;
  ids_names : gmap Z string;
  next_id : option Z;
}.

Definition FieldsIdsMap_new : FieldsIdsMap := mkFieldsIdsMap ∅ ∅ (Some 0).

(** [checked_add(1)] on [u16]. *)
Definition u16_succ (id : Z) : option Z := if id + 1 <=? u16_max then Some (id + 1) else None.

(** [FieldsIdsMap::insert]. *)
Definition fields_insert (name : string) (m : FieldsIdsMap) : option Z * FieldsIdsMap :=
  match names_ids m !! name with
  | Some id => (Some id, m)
  | None =>
      match next_id m with
      | None => (None, m)
      | Some id =>
          (Some id, mkFieldsIdsMap (<[name := id]> (names_ids m)) (<[id := name]> (ids_names m)) (u16_succ id))
      end
  end.

(** [FieldsIdsMap::remove]. *)
Definition fields_remove (name : string) (m : FieldsIdsMap) : option Z * FieldsIdsMap :=
  match names_ids m !! name with
  | Some id =>
      ((λ _, id) <$> ids_names m !! id,
       mkFieldsIdsMap (delete name (names_ids m)) (delete id (ids_names m)) (next_id m))
  | None => (None, m)
  end.

Definition field_id (m : FieldsIdsMap) (name : string) : option Z := names_ids m !! name.
Definition field_name (m : FieldsIdsMap) (id : Z) : option string := ids_names m !! id.

(** The names of a [BTreeMap], in the order of their bytes. *)
Definition sorted_names (m : gmap string Z) : list string := merge_sort String.le (elements (dom m)).

Fixpoint take_while {A} (p : A → bool) (l : list A) : list A :=
  match l with
  | [] => []
  | x :: l => if p x then x :: take_while p l else []
  end.

(** [FieldsIdsMap::nested_ids]: a range of the sorted names, up to the first
    that does not start with [name]. *)
Definition nested_ids (m : FieldsIdsMap) (name : string) : list Z :=
  omap (λ key, names_ids m !! key)
    (filter (λ key, is_faceted_by key name)
       (take_while (λ key, String.prefix name key)
          (filter (λ key, String.le name key) (sorted_names (names_ids m))))).

(** The two tables are inverse of each other, and the ids not given yet start at
    [next_id]. *)
Record fields_wf (m : FieldsIdsMap) : Prop := {
  fw_inverse : ∀ name id, names_ids m !! name = Some id ↔ ids_names m !! id = Some name;
  fw_range : ∀ name id, names_ids m !! name = Some id → 0 ≤ id ≤ u16_max;
  fw_next : ∀ n, next_id m = Some n → 0 ≤ n ≤ u16_max ∧ ∀ name id, names_ids m !! name = Some id → id < n;
}.

Lemma fields_new_wf : fields_wf FieldsIdsMap_new.
Proof.
  constructor; cbn; [intros *; by rewrite !lookup_empty|intros *; by rewrite lookup_empty|].
  intros n [= <-]. split; [done|]. intros *. by rewrite lookup_empty.
Qed.

Lemma fields_insert_wf name m :
  fields_wf m → fields_wf (fields_insert name m).2.
Proof.
  intros [Hinv Hr Hn]. unfold fields_insert. destruct (names_ids m !! name) as [id|] eqn:Hl; [by constructor|].
  destruct (next_id m) as [n|] eqn:Hnext; [|by constructor; cbn; rewrite ?Hnext].
  destruct (Hn n eq_refl) as [Hrange Hlt].
  assert (Hfree : ids_names m !! n = None).
  { apply eq_None_not_Some. intros [x Hx]. apply Hinv in Hx. specialize (Hlt _ _ Hx). lia. }
  constructor; cbn [names_ids ids_names next_id snd].
  - intros x id. rewrite !lookup_insert_Some. split.
    + intros [[<- <-]|[Hne Hx]]; [by left|]. right. split; [|by apply Hinv]. specialize (Hlt _ _ Hx). lia.
    + intros [[<- <-]|[Hne Hx]]; [by left|]. right. apply Hinv in Hx. split; [|done]. by intros ->; rewrite Hl in Hx.
  - intros x id [[<- <-]|[_ Hx]]%lookup_insert_Some; [done|by apply (Hr x)].
  - intros n'. unfold u16_succ. case_match eqn:Hle; [|done]. intros [= <-]. apply Z.leb_le in Hle.
    split; [lia|]. intros x id [[<- <-]|[_ Hx]]%lookup_insert_Some; [lia|]. specialize (Hlt _ _ Hx). lia.
Qed.

Lemma fields_remove_wf name m : fields_wf m → fields_wf (fields_remove name m).2.
Proof.
  intros [Hinv Hr Hn]. unfold fields_remove. destruct (names_ids m !! name) as [id|] eqn:Hl; [|by constructor].
  constructor; cbn [names_ids ids_names next_id snd].
  - intros x y. rewrite !lookup_delete_Some, <-Hinv. split; intros [Hne Hx]; (split; [|done]).
    + intros <-. apply Hinv in Hl, Hx. rewrite Hl in Hx. by injection Hx.
    + intros <-. rewrite Hl in Hx. by injection Hx.
  - intros x y [_ Hx]%lookup_delete_Some. by apply (Hr x).
  - intros n Hnext. destruct (Hn n Hnext) as [? Hlt]. split; [done|].
    intros x y [_ Hx]%lookup_delete_Some. by apply (Hlt x).
Qed.

(** ** The life of a map *)

(** The calls made on a map since it was created. *)
Inductive FieldsOp := InsertField (name : string) | RemoveField (name : string).

(** The map after a call, with the names to which a new id was given and that id,
    the last one at the end. *)
Definition fields_op (s : FieldsIdsMap * list (string * Z)) (op : FieldsOp) : FieldsIdsMap * list (string * Z) :=
  let '(m, given) := s in
  match op with
  | InsertField name =>
      let '(r, m') := fields_insert name m in
      (m', match field_id m name, r with None, Some id => given ++ [(name, id)] | _, _ => given end)
  | RemoveField name => ((fields_remove name m).2, given)
  end.
Definition fields_run (ops : list FieldsOp) : FieldsIdsMap * list (string * Z) :=
  foldl fields_op (FieldsIdsMap_new, []) ops.

(** The ids are given from 0 on, and [next_id] is the number of them. *)
Record fields_history (m : FieldsIdsMap) (given : list (string * Z)) : Prop := {
  fh_wf : fields_wf m;
  fh_ids : given.*2 = seqZ 0 (Z.of_nat (length given));
  fh_known : ∀ name id, field_id m name = Some id → (name, id) ∈ given;
  fh_len : Z.of_nat (length given) ≤ u16_max + 1;
  fh_next : next_id m = if Z.of_nat (length given) <=? u16_max then Some (Z.of_nat (length given)) else None;
}.

Lemma fields_op_history s op : fields_history s.1 s.2 → fields_history (fields_op s op).1 (fields_op s op).2.
Proof.
  destruct s as [m given]. intros [Hwf Hids Hknown Hlen Hnext]. cbn [fst snd] in *. destruct op as [name|name]; cbn [fields_op].
  - pose proof (fields_insert_wf name m Hwf) as Hwf'. unfold field_id in *. revert Hwf'. unfold fields_insert.
    destruct (names_ids m !! name) as [id|] eqn:Hn; [by constructor|].
    rewrite Hnext. destruct (Z.leb_spec (Z.of_nat (length given)) u16_max) as [Hle|Hgt]; cbn [fst snd].
    + intros Hwf'. constructor; rewrite ?length_app, ?fmap_app; cbn [length fmap list_fmap next_id names_ids].
      * done.
      * rewrite Hids. replace (Z.of_nat (length given + 1)) with (Z.of_nat (length given) + 1) by lia.
        by rewrite seqZ_app by lia.
      * intros x id. unfold field_id. cbn [names_ids].
        intros [[<- <-]|[_ Hx]]%lookup_insert_Some; apply elem_of_app; [right; by left|left; by apply Hknown].
      * lia.
      * unfold u16_succ. replace (Z.of_nat (length given + 1)) with (Z.of_nat (length given) + 1) by lia.
        done.
    + intros _. constructor; cbn; try done. rewrite Hnext. by destruct (Z.leb_spec (Z.of_nat (length given)) u16_max); [lia|].
  - constructor; try done; cbn [fst snd].
    + by apply fields_remove_wf.
    + intros x id. unfold fields_remove, field_id. destruct (names_ids m !! name); [|by apply Hknown]. cbn.
      intros [_ Hx]%lookup_delete_Some. by apply Hknown.
    + rewrite <-Hnext. unfold fields_remove. by destruct (names_ids m !! name).
Qed.

Lemma fields_run_history ops : fields_history (fields_run ops).1 (fields_run ops).2.
Proof.
  induction ops as [|op ops IH] using rev_ind; [|unfold fields_run; rewrite foldl_app; by apply fields_op_history].
  constructor; cbn; [apply fields_new_wf|done|intros *; unfold field_id; cbn; by rewrite lookup_empty|unfold u16_max; lia|done].
Qed.

(** C32. The map between the names and the ids of the fields, after any
    calls that insert and remove names.  The two tables are inverse of each
    other.  The ids are given one after the other from 0 to [u16::MAX], each once,
    even when its name has been removed since; an insertion gives a known name its
    id, a new name the first id never given, and fails only when [u16::MAX] has
    been given, each of the 65536 ids then having been given.  It changes no other name.  A
    removal gives the id of the name and forgets that name only. *)
Theorem fields_ids_bijection ops name :
  let '(m, given) := fields_run ops in
  (∀ x id, field_id m x = Some id ↔ field_name m id = Some x) ∧
  given.*2 = seqZ 0 (Z.of_nat (length given)) ∧ Z.of_nat (length given) ≤ u16_max + 1 ∧
  (∀ x id, field_id m x = Some id → (x, id) ∈ given) ∧
  (fields_insert name m).1 =
    match field_id m name with
    | Some id => Some id
    | None => if Z.of_nat (length given) <=? u16_max then Some (Z.of_nat (length given)) else None
    end ∧
  (∀ x, field_id (fields_insert name m).2 x = if decide (x = name) then (fields_insert name m).1 else field_id m x) ∧
  (fields_remove name m).1 = field_id m name ∧
  (∀ x, field_id (fields_remove name m).2 x = if decide (x = name) then None else field_id m x).
Proof.
  destruct (fields_run ops) as [m given] eqn:Hrun.
  destruct (fields_run_history ops) as [Hwf Hids Hknown Hlen Hnext]. rewrite Hrun in *. cbn [fst snd] in *.
  split; [apply (fw_inverse _ Hwf)|]. split; [done|]. split; [done|]. split; [done|].
  unfold fields_insert, fields_remove, field_id in *. rewrite Hnext.
  destruct (names_ids m !! name) as [id|] eqn:Hn; cbn [fst snd].
  - split; [done|]. split; [intros x; case_decide; by subst|]. split.
    + apply (fw_inverse _ Hwf) in Hn. by rewrite Hn.
    + intros x. cbn. case_decide; subst; [apply lookup_delete_eq|by rewrite lookup_delete_ne].
  - destruct (Z.of_nat (length given) <=? u16_max); cbn [fst snd names_ids];
      (split; [done|]; split; [|split; [done|intros x; case_decide; by subst]]); intros x; case_decide; subst; try done;
      [apply lookup_insert_eq|by rewrite lookup_insert_ne].
Qed.

(** ** Nested fields *)

Lemma faceted_prefix field facet : is_faceted_by field facet = true → String.prefix facet field = true.
Proof.
  revert field. induction facet as [|a facet IH]; intros [|b field]; try done.
  cbn [is_faceted_by String.prefix]. intros [Hab Hf]%andb_true_iff. apply Ascii.eqb_eq in Hab as ->.
  destruct (ascii_dec b b); [by apply IH|done].
Qed.

(** The names with a given prefix follow each other in the order of bytes. *)
Lemma prefix_between p k1 k2 :
  String.le p k1 → String.le k1 k2 → String.prefix p k2 = true → String.prefix p k1 = true.
Proof.
  unfold String.le, String.leb. revert k1 k2. induction p as [|a p IH]; intros k1 k2 H1 H2 Hp; [by destruct k1|].
  destruct k2 as [|c k2]; [done|]. cbn [String.prefix] in Hp. destruct (ascii_dec a c) as [->|]; [|done].
  destruct k1 as [|b k1]; cbn [String.compare] in H1, H2; [done|]. cbn [String.prefix].
  rewrite (Ascii.compare_antisym c b) in H1. destruct (Ascii.compare b c) eqn:Hbc; cbn in H1; try done.
  apply Ascii.compare_eq_iff in Hbc as ->. destruct (ascii_dec c c); [|done]. by apply (IH k1 k2).
Qed.

Lemma ascii_compare_refl a : Ascii.compare a a = Eq.
Proof. pose proof (Ascii.compare_antisym a a). by destruct (Ascii.compare a a). Qed.

Lemma prefix_le p k : String.prefix p k = true → String.le p k.
Proof.
  unfold String.le, String.leb. revert k. induction p as [|a p IH]; intros [|b k] Hp; try done.
  cbn [String.prefix] in Hp. destruct (ascii_dec a b) as [->|]; [|done]. cbn [String.compare].
  rewrite ascii_compare_refl. by apply IH.
Qed.

Lemma take_while_prefix p l :
  StronglySorted String.le l → (∀ k, k ∈ l → String.le p k) →
  take_while (λ k, String.prefix p k) l = filter (λ k, String.prefix p k) l.
Proof.
  induction 1 as [|k l Hs IH Hf]; intros Hle; [done|]. cbn [take_while].
  destruct (String.prefix p k) eqn:Hp.
  - rewrite filter_cons_True by (cbv beta; by rewrite Hp). f_equal. apply IH. intros; apply Hle; by right.
  - rewrite filter_cons_False by (cbv beta; rewrite Hp; by intros []). symmetry. apply elem_of_nil_inv. intros k' [Hk' Hin]%list_elem_of_filter.
    rewrite Forall_forall in Hf. apply Is_true_true in Hk'.
    rewrite (prefix_between p k k') in Hp; [done|apply Hle; by left|by apply Hf|done].
Qed.

(** The ids of a field and of its nested fields: reading the sorted
    names from the name of the field as long as they start with it finds them
    all. *)
Theorem nested_ids_spec m name :
  nested_ids m name =
    omap (λ key, names_ids m !! key) (filter (λ key, is_faceted_by key name) (sorted_names (names_ids m))).
Proof.
  unfold nested_ids, sorted_names. f_equal.
  assert (Hs : StronglySorted String.le (merge_sort String.le (elements (dom (names_ids m)))))
    by (apply StronglySorted_merge_sort; apply _).
  set (l := merge_sort _ _) in *. clearbody l. rewrite take_while_prefix.
  - rewrite !list_filter_filter. apply list_filter_iff. intros k. split; [tauto|]. intros Hf.
    pose proof (faceted_prefix _ _ (Is_true_true_1 _ Hf)) as Hp. split; [|by apply prefix_le].
    split; [done|by rewrite Hp].
  - by apply StronglySorted_filter.
  - intros k [Hk _]%list_elem_of_filter. done.
Qed.

(** ** The ids of the new documents *)

(** The ids below the largest one that are free, then the range above it. *)
Record AvailableIds := mkAvailableIds {
  ai_free : list Z;
  ai_from : Z;
}.

(** [AvailableIds::new]. *)
Definition AvailableIds_new (docids : bitmap) : AvailableIds :=
  match bm_max docids with
  | Some last_id => mkAvailableIds (bm_iter (list_to_set (seqZ 0 last_id) ∖ docids)) (last_id + 1)
  | None => mkAvailableIds [] 0
  end.

(** [AvailableIds::next]. *)
Definition available_next (a : AvailableIds) : option Z * AvailableIds :=
  match ai_free a with
  | id :: ids => (Some id, mkAvailableIds ids (ai_from a))
  | [] => if ai_from a <=? u32_max then (Some (ai_from a), mkAvailableIds [] (ai_from a + 1)) else (None, a)
  end.

(** The ids that are still to be given. *)
Definition gives (a : AvailableIds) (id : Z) : Prop := id ∈ ai_free a ∨ ai_from a ≤ id ≤ u32_max.

Record available_wf (a : AvailableIds) : Prop := {
  aw_nodup : NoDup (ai_free a);
  aw_below : ∀ id, id ∈ ai_free a → 0 ≤ id < ai_from a ∧ id ≤ u32_max;
  aw_from : 0 ≤ ai_from a;
}.

Definition u32_set (b : bitmap) : Prop := ∀ x, x ∈ b → 0 ≤ x ≤ u32_max.

Lemma AvailableIds_new_wf docids :
  u32_set docids → available_wf (AvailableIds_new docids) ∧
  ∀ id, gives (AvailableIds_new docids) id ↔ 0 ≤ id ≤ u32_max ∧ id ∉ docids.
Proof.
  intros Hu. unfold AvailableIds_new. destruct (bm_max docids) as [last|] eqn:Hmax.
  - apply bm_max_Some in Hmax as [Hin Hmax]. specialize (Hu _ Hin) as Hlast.
    assert (Hfree : ∀ id, id ∈ bm_iter (list_to_set (seqZ 0 last) ∖ docids) ↔ 0 ≤ id < last ∧ id ∉ docids).
    { intros id. rewrite elem_of_bm_iter, elem_of_difference, elem_of_list_to_set, elem_of_seqZ. naive_solver lia. }
    split.
    + constructor; cbn [ai_free ai_from]; [apply NoDup_bm_iter| |lia].
      intros id [? _]%Hfree. lia.
    + intros id. unfold gives. cbn [ai_free ai_from]. rewrite Hfree. split.
      * intros [[? ?]|?]; [split; [lia|done]|]. split; [lia|]. intros Hid%Hmax. lia.
      * intros [Hid Hn]. destruct (decide (id < last)); [left; split; [lia|done]|].
        right. assert (id ≠ last) by (by intros ->). lia.
  - apply bm_max_None in Hmax as ->. split.
    + constructor; cbn; [constructor|set_solver|lia].
    + intros id. unfold gives. cbn. set_solver by lia.
Qed.

Lemma available_next_spec a :
  available_wf a → available_wf (available_next a).2 ∧
  match (available_next a).1 with
  | Some id => gives a id ∧ 0 ≤ id ≤ u32_max ∧ ∀ x, gives (available_next a).2 x ↔ gives a x ∧ x ≠ id
  | None => (∀ x, ¬ gives a x) ∧ (available_next a).2 = a
  end.
Proof.
  intros [Hnd Hb Hf]. unfold available_next, gives. destruct (ai_free a) as [|id ids] eqn:Hfree.
  - destruct (Z.leb_spec (ai_from a) u32_max); cbn [fst snd ai_free ai_from].
    + split; [constructor; cbn [ai_free ai_from]; [constructor|set_solver|lia]|].
      split; [right; lia|]. split; [lia|]. intros x. set_solver by lia.
    + split; [by constructor; rewrite ?Hfree|]. split; [|done]. intros x [?%not_elem_of_nil|?]; [done|lia].
  - cbn [fst snd ai_free ai_from]. apply NoDup_cons in Hnd as [Hni Hnd]. pose proof (Hb id ltac:(by left)) as Hid. split.
    + constructor; cbn [ai_free ai_from]; [done| |done]. intros x Hx. apply Hb. by right.
    + split; [left; by left|]. split; [lia|]. intros x. rewrite elem_of_cons. split.
      * intros [Hx|Hx]; [split; [by left; right|by intros ->]|split; [by right|lia]].
      * intros [[[->|Hx]|Hx] Hne]; [done|by left|by right].
Qed.

(** Calling [next] repeatedly. *)
Fixpoint available_take (n : nat) (a : AvailableIds) : list Z :=
  match n with
  | O => []
  | S n =>
      match available_next a with
      | (Some id, a) => id :: available_take n a
      | (None, _) => []
      end
  end.

Lemma available_take_spec n : ∀ a,
  available_wf a →
  NoDup (available_take n a) ∧ (∀ id, id ∈ available_take n a → gives a id) ∧
  ((length (available_take n a) < n)%nat → ∀ id, gives a id → id ∈ available_take n a).
Proof.
  induction n as [|n IH]; intros a Ha; cbn [available_take].
  { split; [constructor|]. split; [set_solver|]. cbn. lia. }
  destruct (available_next_spec a Ha) as [Ha' Hnext]. destruct (available_next a) as [[id|] a']; cbn [fst snd] in *.
  - destruct Hnext as (Hg & _ & Hrest). destruct (IH a' Ha') as (Hnd & Hin & Hall). split_and!.
    + constructor; [|done]. intros [_ Hne]%Hin%Hrest. done.
    + intros x [->|Hx]%elem_of_cons; [done|]. by apply Hin, Hrest in Hx as [? _].
    + cbn [length]. intros Hlen x Hx. destruct (decide (x = id)) as [->|Hne]; [by left|]. right.
      apply Hall; [lia|]. by apply Hrest.
  - destruct Hnext as [Hnone _]. split; [constructor|]. split; [set_solver|]. intros _ x Hx. by destruct (Hnone x).
Qed.

(** The ids given to new documents: distinct [u32] that no document of
    the index has; and the generator stops only once all of them are given. *)
Theorem available_ids_fresh docids n :
  u32_set docids →
  let ids := available_take n (AvailableIds_new docids) in
  NoDup ids ∧ (∀ id, id ∈ ids → 0 ≤ id ≤ u32_max ∧ id ∉ docids) ∧
  ((length ids < n)%nat → ∀ id, 0 ≤ id ≤ u32_max → id ∈ docids ∨ id ∈ ids).
Proof.
  intros Hu ids. destruct (AvailableIds_new_wf docids Hu) as [Hwf Hg].
  destruct (available_take_spec n _ Hwf) as (Hnd & Hin & Hall). split_and!; [done| |].
  - intros id Hid. by apply Hg, Hin.
  - intros Hlen id Hid. destruct (decide (id ∈ docids)); [by left|right]. apply (Hall Hlen), Hg. done.
Qed.

(** ** The concurrent generator *)

(** The fields shared by the threads. *)
Record ConcurrentAvailableIds := mkConcurrent {
  ca_current : Z;
  ca_used : Z;
  ca_available : list Z;
  ca_select : Z;
  ca_look : bool;
}.

(** [ConcurrentAvailableIds::new]: [id + 1] wraps around. *)
Definition Concurrent_new (used : bitmap) : ConcurrentAvailableIds :=
  let last_id := match bm_max used with Some id => u32_wrap (id + 1) | None => 0 end in
  let available := bm_iter (list_to_set (seqZ 0 last_id) ∖ used) in
  mkConcurrent last_id (bm_len used) available 0 (negb (bool_decide (available = []))).

(** Where a call of [next] is: one constructor per access to a shared field. *)
Inductive call :=
| AtUsed
| AtLook
| AtSelect
| AtStore
| AtCurrent
| Returned (id : option Z).

(** One access of a call. *)
Definition call_step (c : ConcurrentAvailableIds) (pc : call) : call * ConcurrentAvailableIds :=
  match pc with
  | AtUsed =>
      (if u32_max <? ca_used c then Returned None else AtLook,
       mkConcurrent (ca_current c) (u64_wrap (ca_used c + 1)) (ca_available c) (ca_select c) (ca_look c))
  | AtLook => (if ca_look c then AtSelect else AtCurrent, c)
  | AtSelect =>
      (match ca_available c !! Z.to_nat (ca_select c) with
       | Some id => Returned (Some id)
       | None => AtStore
       end,
       mkConcurrent (ca_current c) (ca_used c) (ca_available c) (u32_wrap (ca_select c + 1)) (ca_look c))
  | AtStore => (AtCurrent, mkConcurrent (ca_current c) (ca_used c) (ca_available c) (ca_select c) false)
  | AtCurrent =>
      (Returned (Some (ca_current c)),
       mkConcurrent (u32_wrap (ca_current c + 1)) (ca_used c) (ca_available c) (ca_select c) (ca_look c))
  | Returned id => (Returned id, c)
  end.

(** The accesses of the calls interleave in any way. *)
Inductive calls_step : ConcurrentAvailableIds * list call → ConcurrentAvailableIds * list call → Prop :=
| calls_step_one c l1 pc l2 :
    calls_step (c, l1 ++ pc :: l2) ((call_step c pc).2, l1 ++ (call_step c pc).1 :: l2).

Lemma elem_of_take_list {A} (x : A) n l : x ∈ take n l → x ∈ l.
Proof. intros (i & Hi & _)%elem_of_take. by eapply list_elem_of_lookup_2. Qed.

(** The ids returned so far. *)
Definition returned (pcs : list call) : list Z :=
  omap (λ pc, match pc with Returned id => id | _ => None end) pcs.

(** Counting the calls by where they are. *)
Definition cnt (f : call → bool) (l : list call) : Z := Z.of_nat (length (filter f l)).

Lemma cnt_app f l1 l2 : cnt f (l1 ++ l2) = cnt f l1 + cnt f l2.
Proof. unfold cnt. rewrite filter_app, length_app. lia. Qed.

Lemma cnt_cons f pc l : cnt f (pc :: l) = (if f pc then 1 else 0) + cnt f l.
Proof.
  unfold cnt. destruct (f pc) eqn:Hf;
    [rewrite filter_cons_True by (by rewrite Hf)|rewrite filter_cons_False by (rewrite Hf; by intros [])];
    cbn [length]; lia.
Qed.

Lemma cnt_nonneg f l : 0 ≤ cnt f l.
Proof. unfold cnt. lia. Qed.

Lemma cnt_le (f g : call → bool) l : (∀ pc, f pc → g pc) → cnt f l ≤ cnt g l.
Proof.
  intros Hfg. induction l as [|pc l IH]; [done|]. rewrite !cnt_cons. specialize (Hfg pc).
  destruct (f pc), (g pc); try lia. by destruct Hfg.
Qed.

Definition started (pc : call) : bool := match pc with AtUsed => false | _ => true end.
Definition passed (pc : call) : bool := match pc with AtUsed | Returned None => false | _ => true end.
Definition selected (pc : call) : bool := match pc with AtStore | AtCurrent | Returned (Some _) => true | _ => false end.
Definition done_some (pc : call) : bool := match pc with Returned (Some _) => true | _ => false end.
Definition exhausted (pc : call) : bool := match pc with AtStore | AtCurrent => true | _ => false end.

Lemma cnt_started_length l : cnt started l ≤ Z.of_nat (length l).
Proof. unfold cnt. pose proof (length_filter started l). lia. Qed.

Lemma length_returned l : Z.of_nat (length (returned l)) = cnt done_some l.
Proof.
  induction l as [|pc l IH]; [done|]. rewrite cnt_cons, <-IH. unfold returned. cbn.
  destruct pc as [| | | | |[id|]]; cbn; lia.
Qed.

Lemma returned_app l1 l2 : returned (l1 ++ l2) = returned l1 ++ returned l2.
Proof.
  unfold returned. induction l1 as [|pc l1 IH]; [done|]. cbn. rewrite IH. by destruct pc as [| | | | |[id|]].
Qed.

Section concurrent.
Variable used : bitmap.
Hypothesis used_u32 : ∀ x, x ∈ used → 0 ≤ x < u32_max.

Definition last_used : Z := match bm_max used with Some id => id + 1 | None => 0 end.
Definition free_ids : list Z := bm_iter (list_to_set (seqZ 0 last_used) ∖ used).

Lemma last_used_range : 0 ≤ last_used ≤ u32_max ∧ ∀ x, x ∈ used → x < last_used.
Proof.
  unfold last_used. destruct (bm_max used) as [m|] eqn:Hm.
  - apply bm_max_Some in Hm as [Hin Hmax]. specialize (used_u32 _ Hin) as ?. split; [lia|].
    intros x Hx%Hmax. lia.
  - apply bm_max_None in Hm as ->. split; [unfold u32_max; lia|set_solver].
Qed.

Lemma elem_of_free_ids id : id ∈ free_ids ↔ 0 ≤ id < last_used ∧ id ∉ used.
Proof. unfold free_ids. rewrite elem_of_bm_iter, elem_of_difference, elem_of_list_to_set, elem_of_seqZ. naive_solver lia. Qed.

(** The free ids and the used ones are the numbers below the last one. *)
Lemma length_free_ids : Z.of_nat (length free_ids) + bm_len used = last_used.
Proof.
  unfold free_ids. rewrite length_bm_iter. unfold bm_len. rewrite <-Nat2Z.inj_add, <-size_union by set_solver.
  assert (list_to_set (seqZ 0 last_used) ∖ used ∪ used = (list_to_set (seqZ 0 last_used) : bitmap)) as ->.
  { apply set_eq. intros x. rewrite elem_of_union, elem_of_difference, elem_of_list_to_set, elem_of_seqZ.
    destruct (decide (x ∈ used)) as [Hx|]; [|tauto]. apply last_used_range in Hx as Hlt.
    specialize (used_u32 _ Hx). split; [intros _; lia|tauto]. }
  rewrite size_list_to_set by apply NoDup_seqZ. rewrite length_seqZ. pose proof last_used_range. lia.
Qed.

(** [s] calls have selected in the bitmap and [k] have taken the current id. *)
Record calls_inv (n : nat) (c : ConcurrentAvailableIds) (l : list call) (s k : Z) : Prop := {
  ci_length : length l = n;
  ci_available : ca_available c = free_ids;
  ci_used : ca_used c = bm_len used + cnt started l;
  ci_passed : cnt passed l = Z.min (cnt started l) (2 ^ 32 - bm_len used);
  ci_select : ca_select c = u32_wrap s;
  ci_selected : 0 ≤ s ≤ cnt selected l;
  ci_current : ca_current c = u32_wrap (last_used + k);
  ci_k : 0 ≤ k ∧ last_used + k ≤ 2 ^ 32;
  ci_returned : returned l ≡ₚ take (Z.to_nat s) free_ids ++ seqZ last_used k;
  ci_exhausted : 0 < cnt exhausted l ∨ ca_look c = false ∨ 0 < k → Z.of_nat (length free_ids) ≤ s;
}.

Lemma calls_inv_new n :
  calls_inv n (Concurrent_new used) (replicate n AtUsed) 0 0.
Proof.
  assert (Hlast : match bm_max used with Some id => u32_wrap (id + 1) | None => 0 end = last_used).
  { pose proof last_used_range as [Hr _]. unfold last_used in *. destruct (bm_max used); [|done]. by apply u32_wrap_id. }
  assert (Hcnt : ∀ f, f AtUsed = false → cnt f (replicate n AtUsed) = 0).
  { intros f Hf. induction n as [|m IH]; [done|]. cbn [replicate]. by rewrite cnt_cons, Hf, IH. }
  assert (Hret : returned (replicate n AtUsed) = []) by (clear; induction n as [|n IH]; [done|exact IH]).
  unfold Concurrent_new. rewrite Hlast. fold free_ids. pose proof last_used_range as [Hr _].
  constructor; cbn [ca_available ca_used ca_select ca_current ca_look];
    rewrite ?Hcnt, ?Hret, ?Z.add_0_r by done.
  - apply length_replicate.
  - done.
  - done.
  - pose proof length_free_ids. unfold u32_max in *. lia.
  - done.
  - lia.
  - symmetry. by apply u32_wrap_id.
  - unfold u32_max in *. lia.
  - done.
  - intros [?|[Hl|?]]; [lia| |lia]. apply negb_false_iff, bool_decide_eq_true in Hl. rewrite Hl. done.
Qed.

(** The numbers of calls in each part of a list of calls. *)
Lemma cnt_bounds l :
  0 ≤ cnt exhausted l ∧ cnt done_some l + cnt exhausted l = cnt selected l ∧ 0 ≤ cnt done_some l ∧
  cnt selected l ≤ cnt passed l ≤ cnt started l.
Proof.
  induction l as [|pc l IH]; [done|]. rewrite !cnt_cons. destruct pc as [| | | | |[id|]]; cbn; lia.
Qed.

(** The ids returned are all known: those of the bitmap, then the current ones. *)
Lemma calls_inv_done n c l s k :
  calls_inv n c l s k → cnt done_some l = Z.min s (Z.of_nat (length free_ids)) + k.
Proof.
  intros [? ? ? ? ? Hs ? Hk Hret _]. rewrite <-length_returned, Hret, length_app, length_take, length_seqZ. lia.
Qed.

Lemma calls_inv_step n c l1 pc l2 s k :
  Z.of_nat n < 2 ^ 63 → calls_inv n c (l1 ++ pc :: l2) s k →
  ∃ s' k', calls_inv n (call_step c pc).2 (l1 ++ (call_step c pc).1 :: l2) s' k'.
Proof.
  intros Hn Hi. pose proof (calls_inv_done _ _ _ _ _ Hi) as Hdone.
  destruct Hi as [Hlen Hav Hused Hpassed Hsel Hs Hcur Hk Hret Hex].
  pose proof (cnt_started_length (l1 ++ pc :: l2)) as Hst. pose proof length_free_ids as Hfree.
  pose proof last_used_range as [Hlast _]. pose proof (cnt_bounds l1) as Hb1. pose proof (cnt_bounds l2) as Hb2.
  assert (Hlen' : ∀ pc', length (l1 ++ pc' :: l2) = n) by (intros; rewrite length_app in *; cbn in *; lia).
  rewrite !cnt_app, !cnt_cons in *. rewrite returned_app in Hret.
  assert (0 ≤ bm_len used) by (unfold bm_len; lia). unfold u32_max in Hlast.
  destruct pc as [| | | | |id]; cbn [call_step fst snd]; cbn [started passed selected done_some exhausted] in *.
  - (* AtUsed *)
    exists s, k. destruct (Z.ltb_spec u32_max (ca_used c)) as [Hfull|Hroom]; unfold u32_max in *;
      (constructor; cbn [ca_available ca_used ca_select ca_current ca_look];
       rewrite ?cnt_app, ?cnt_cons, ?returned_app; cbn [started passed selected done_some exhausted]; try done);
      try (unfold u64_wrap; rewrite Z.mod_small by lia); try lia; intros Hor; apply Hex; lia || tauto.
  - (* AtLook *)
    exists s, k. destruct (ca_look c) eqn:Hlook;
      (constructor; rewrite ?cnt_app, ?cnt_cons, ?returned_app; cbn [started passed selected done_some exhausted];
       try done; try lia); intros Hor; apply Hex; rewrite ?Hlook in *; lia || tauto.
  - (* AtSelect *)
    assert (Hs32 : u32_wrap s = s) by (apply u32_wrap_id; unfold u32_max; lia). rewrite Hs32 in Hsel.
    rewrite Hav, Hsel. exists (s + 1), k. destruct (free_ids !! Z.to_nat s) as [id|] eqn:Hid.
    + pose proof (lookup_lt_Some _ _ _ Hid) as Hlt.
      assert (Htake : take (Z.to_nat (s + 1)) free_ids = take (Z.to_nat s) free_ids ++ [id])
        by (rewrite Z2Nat.inj_add, Nat.add_1_r by lia; by apply take_S_r).
      constructor; cbn [ca_available ca_used ca_select ca_current ca_look]; rewrite ?cnt_app, ?cnt_cons, ?returned_app;
        cbn [started passed selected done_some exhausted]; try done; try lia.
      * rewrite Htake. change (returned (Returned (Some id) :: l2)) with (id :: returned l2).
        rewrite <-Permutation_middle, <-app_assoc. cbn [app]. rewrite <-Permutation_middle. by rewrite <-Hret.
      * intros Hor. transitivity s; [|lia]. apply Hex. lia || tauto.
    + apply lookup_ge_None in Hid.
      assert (Htake : take (Z.to_nat (s + 1)) free_ids = take (Z.to_nat s) free_ids) by (rewrite !take_ge by lia; done).
      constructor; cbn [ca_available ca_used ca_select ca_current ca_look]; rewrite ?cnt_app, ?cnt_cons, ?returned_app;
        cbn [started passed selected done_some exhausted]; try done; try lia. by rewrite Htake.
  - (* AtStore *)
    exists s, k. constructor; cbn [ca_available ca_used ca_select ca_current ca_look];
      rewrite ?cnt_app, ?cnt_cons, ?returned_app; cbn [started passed selected done_some exhausted]; try done; try lia.
  - (* AtCurrent *)
    assert (Hge : Z.of_nat (length free_ids) ≤ s) by (apply Hex; lia).
    assert (Hwrap : u32_wrap (last_used + k) = last_used + k) by (apply u32_wrap_id; unfold u32_max; lia).
    rewrite Hcur, Hwrap. exists s, (k + 1).
    constructor; cbn [ca_available ca_used ca_select ca_current ca_look]; rewrite ?cnt_app, ?cnt_cons, ?returned_app;
      cbn [started passed selected done_some exhausted]; try done; try lia.
    + by rewrite Z.add_assoc.
    + rewrite seqZ_app by lia.
      change (returned (Returned (Some (last_used + k)) :: l2)) with (last_used + k :: returned l2).
      rewrite <-Permutation_middle, app_assoc.
      change (seqZ (last_used + k) 1) with [last_used + k]. rewrite <-Permutation_cons_append. by rewrite <-Hret.
  - (* Returned *)
    exists s, k. constructor; rewrite ?cnt_app, ?cnt_cons, ?returned_app; done.
Qed.

Lemma calls_inv_reachable n c l :
  Z.of_nat n < 2 ^ 63 → rtc calls_step (Concurrent_new used, replicate n AtUsed) (c, l) →
  ∃ s k, calls_inv n c l s k.
Proof.
  intros Hn Hrtc. remember (Concurrent_new used, replicate n AtUsed) as x0 eqn:H0.
  assert (Hinit : ∃ s k, calls_inv n x0.1 x0.2 s k) by (rewrite H0; exists 0, 0; apply calls_inv_new). clear H0.
  remember (c, l) as x1 eqn:H1. assert (∃ s k, calls_inv n x1.1 x1.2 s k) as Hx1; [|by rewrite H1 in Hx1].
  clear H1. induction Hrtc as [|x y z Hstep _ IH]; [done|]. apply IH. destruct Hstep as [c' l1 pc l2].
  destruct Hinit as (s & k & Hi). by eapply calls_inv_step.
Qed.
End concurrent.

(** C31. The ids given to concurrent callers.  Unless the largest [u32] is in
    use, and however the accesses of the calls interleave, no two calls return
    the same id, no id in use is returned, and once all the calls are over as
    many of them have an id as there are free ones, or all have. *)
Theorem concurrent_ids_distinct used n c l :
  (∀ x, x ∈ used → 0 ≤ x < u32_max) → Z.of_nat n < 2 ^ 63 →
  rtc calls_step (Concurrent_new used, replicate n AtUsed) (c, l) →
  NoDup (returned l) ∧ (∀ id, id ∈ returned l → 0 ≤ id ≤ u32_max ∧ id ∉ used) ∧
  (Forall (λ pc, ∃ id, pc = Returned id) l →
     Z.of_nat (length (returned l)) = Z.min (Z.of_nat n) (2 ^ 32 - bm_len used)).
Proof.
  intros Hu Hn Hrtc. destruct (calls_inv_reachable used Hu n c l Hn Hrtc) as (s & k & Hi).
  destruct Hi as [Hlen _ _ Hpassed _ Hs _ Hk Hret _]. pose proof (last_used_range used Hu) as [Hr Hlt]. split_and!.
  - rewrite Hret. apply NoDup_app. split_and!.
    + eapply sublist_NoDup; [apply NoDup_bm_iter|apply sublist_take].
    + intros id Hid%elem_of_take_list Hid'%elem_of_seqZ. apply elem_of_free_ids in Hid; [lia|done].
    + apply NoDup_seqZ.
  - intros id. rewrite Hret, elem_of_app. intros [Hid|Hid].
    + apply elem_of_take_list, elem_of_free_ids in Hid; [|done]. split; [lia|tauto].
    + apply elem_of_seqZ in Hid. unfold u32_max in *. split; [lia|]. intros Hin%Hlt. lia.
  - intros Hall. rewrite length_returned.
    assert (Heq : cnt done_some l = cnt passed l ∧ cnt started l = Z.of_nat (length l)).
    { clear -Hall. induction Hall as [|pc l [id ->] _ IH]; [done|]. rewrite !cnt_cons. destruct id; cbn in *; lia. }
    destruct Heq as [-> Hst]. rewrite Hpassed, Hst, Hlen. done.
Qed.

(** The largest [u32] in use makes the successor of the largest id wrap around:
    the ids are then given from 0, whether they are in use or not. *)
Lemma concurrent_ids_wrap used :
  u32_max ∈ used → u32_set used → bm_len used ≤ u32_max →
  ∃ c, rtc calls_step (Concurrent_new used, [AtUsed]) (c, [Returned (Some 0)]).
Proof.
  intros Hin Hu Hlen. destruct (bm_max used) as [m|] eqn:Hm; [|apply bm_max_None in Hm; set_solver].
  assert (m = u32_max) as ->.
  { apply bm_max_Some in Hm as [Hm Hmax]. pose proof (Hmax _ Hin). pose proof (Hu _ Hm). lia. }
  assert (Hnew : Concurrent_new used = mkConcurrent 0 (bm_len used) [] 0 false).
  { unfold Concurrent_new. rewrite Hm. change (u32_wrap (u32_max + 1)) with 0. change (seqZ 0 0) with (@nil Z).
    assert (list_to_set [] ∖ used = ∅) as -> by set_solver. done. }
  rewrite Hnew. eexists.
  eapply rtc_l; [apply (calls_step_one _ [] AtUsed [])|]. cbn [call_step fst snd app ca_used].
  rewrite (proj2 (Z.ltb_ge _ _)) by done.
  eapply rtc_l; [apply (calls_step_one _ [] AtLook [])|]. cbn [call_step fst snd app ca_look].
  eapply rtc_l; [apply (calls_step_one _ [] AtCurrent [])|]. cbn [call_step fst snd app ca_current].
  reflexivity.
Qed.

(** ** Witnesses *)

Lemma available_ids_fresh_witness :
  available_take 3 (AvailableIds_new {[0; 2]}) = [1; 3; 4] ∧ NoDup [1; 3; 4].
Proof.
  assert (Hu : u32_set {[0; 2]}) by (intros x Hx; unfold u32_max; set_solver by lia).
  assert (Heq : available_take 3 (AvailableIds_new {[0; 2]}) = [1; 3; 4]) by (vm_compute; reflexivity).
  split; [exact Heq|]. pose proof (available_ids_fresh {[0; 2]} 3 Hu) as [Hnd _]. rewrite Heq in Hnd. exact Hnd.
Defined.

(** Two calls, the second of which finds the bitmap empty. *)
Lemma concurrent_ids_distinct_witness :
  ∃ c, rtc calls_step (Concurrent_new {[1]}, [AtUsed; AtUsed]) (c, [Returned (Some 2); Returned (Some 0)]) ∧
    NoDup [2; 0].
Proof.
  assert (Hrun : ∃ c, rtc calls_step (Concurrent_new {[1]}, [AtUsed; AtUsed]) (c, [Returned (Some 2); Returned (Some 0)])).
  { assert (Concurrent_new {[1]} = mkConcurrent 2 1 [0] 0 true) as -> by (vm_compute; reflexivity). eexists.
    eapply rtc_l; [apply (calls_step_one _ [AtUsed] AtUsed [])|].
    eapply rtc_l; [apply (calls_step_one _ [] AtUsed _)|].
    eapply rtc_l; [apply (calls_step_one _ [] AtLook _)|].
    eapply rtc_l; [apply (calls_step_one _ [AtSelect] AtLook [])|].
    eapply rtc_l; [apply (calls_step_one _ [AtSelect] AtSelect [])|].
    eapply rtc_l; [apply (calls_step_one _ [] AtSelect _)|].
    eapply rtc_l; [apply (calls_step_one _ [] AtStore _)|].
    eapply rtc_l; [apply (calls_step_one _ [] AtCurrent _)|]. vm_compute. apply rtc_refl. }
  destruct Hrun as [c Hrun]. exists c. split; [exact Hrun|].
  assert (Hu : ∀ x, x ∈ ({[1]} : bitmap) → 0 ≤ x < u32_max) by (intros x Hx; unfold u32_max; set_solver by lia).
  destruct (concurrent_ids_distinct {[1]} 2 c _ Hu eq_refl Hrun) as [Hnd _]. exact Hnd.
Defined.
