(* ===== verification/Documents.v ===== *)
(** * Document operations: from the payloads to the documents of an index

    [crates/milli-core/src/update/new/indexer/document_operation.rs] (the
    operations of the payloads, grouped by document), [guess_primary_key.rs],
    [de.rs] and [documents/primary_key.rs] (the id of a document),
    [update/new/document.rs] and [document_change.rs] (versions and changes), and
    [update/new/extract/documents.rs] with [indexer/extract.rs] (writing the
    documents and the distribution of the fields), [update/new/vector_document.rs]
    and [vector/parsed_vectors.rs] (the vectors that documents carry).

    That a batch of payloads has the effect of the payloads one after the other
    is in [DocumentsSpec]. *)

From S2P Require Import Prelude TaskTypes Versions Ids.
From Stdlib Require Import Ascii.
From Stdlib Require String.
Open Scope Z_scope.

(** ** JSON *)

Inductive json :=
| JNull
| JBool (b : bool)
| JU64 (n : Z)
| JI64 (n : Z)
| JF64 (text : string)
| JString (s : string)
| JArray (l : list json)
| JObject (entries : list (string * json)).

(** The parser of JSON: the text of a value, what it means, its entries without
    duplicated keys ([RawMap], which fails on what is not an object), and the
    values of a payload, up to the first syntax error if there is one. *)
Class JsonText := {
  RawValue : Type;
  json_of : RawValue → json;
  raw_map : RawValue → option (list (string * RawValue));
  Payload : Type;
  payload_values : Payload → list RawValue * bool;
  payload_is_empty : Payload → bool;
}.

(** A document: the raw values of its top-level fields. *)
Abbreviation Document := (gmap string RawValue).

Class JsonTextOk `{JsonText} := {
  raw_map_object : ∀ v entries, json_of v = JObject entries → is_Some (raw_map v);
}.

(** ** The id of a document *)

(** What is wrong with the vectors of one embedder: [RawVectorsError], without the
    texts of the parser. *)
Inductive RawVectorsError :=
| DeserializeSeq (index : Z)
| DeserializeKey
| DeserializeRegenerate
| UnknownField (field : string)
| MissingRegenerate
| WrongKind (value : json)
| VectorsParsing.

(** The message of [InvalidVectorsEmbedderConf] is that of the embedder and the error. *)
Inductive DocUserError :=
| SerdeJson
| InvalidVectorsEmbedderConf (document_id embedder : string) (error : RawVectorsError)
| AttributeLimitReached
| DocumentLimitReached
| PrimaryKeyCannotBeChanged (name : string)
| NoPrimaryKeyCandidateFound
| MultiplePrimaryKeyCandidatesFound (candidates : list string)
| UnknownInternalDocumentId (id : Z)
| InvalidDocumentId (v : json)
| MissingDocumentId (primary_key : string) (document : json)
| TooManyDocumentIds (primary_key : string) (document : json).

Inductive DocError :=
| UserError (e : DocUserError)
| InternalSerdeJson
| InternalVectorsDecoding
| AbortedIndexation.

Inductive DocumentIdExtractionError :=
| ExtractInvalid (v : json)
| ExtractMissing
| ExtractTooMany (n : Z).

Definition is_id_char (c : ascii) : bool :=
  let n := byte_val c in
  ((48 <=? n) && (n <=? 57)) || ((65 <=? n) && (n <=? 90)) || ((97 <=? n) && (n <=? 122)) || (n =? 45) || (n =? 95).

(** [validate_document_id_str]. *)
Definition validate_document_id_str (id : string) : option string :=
  if bool_decide (id = "") || (512 <=? Z.of_nat (String.length id)) || negb (forallb is_id_char (Stdlib.Strings.String.list_ascii_of_string id))
  then None else Some id.

(** [Display] for [u64] and [i64], which have at most twenty digits. *)
Definition display_int (n : Z) : string :=
  Stdlib.Strings.String.string_of_list_ascii (if n <? 0 then byte 45 :: decimal 20 (- n) else decimal 20 n).

(** [DocumentIdVisitor]. *)
Definition document_id_of (v : json) : DocumentIdExtractionError + string :=
  match v with
  | JString s => match validate_document_id_str s with Some s => inr s | None => inl (ExtractInvalid v) end
  | JU64 n | JI64 n => inr (display_int n)
  | _ => inl (ExtractInvalid v)
  end.

(** [possible_level_names]: the ways to cut a path at a dot, then the path. *)
Fixpoint level_names (path rest : string) : list (string * string) :=
  match rest with
  | "" => [(path, "")]
  | String c rest =>
      let names := level_names (path +:+ String c "") rest in
      if Ascii.eqb c "." then (path, rest) :: names else names
  end%string.

(** [ComponentsSeedVisitor::match_str]. *)
Definition match_str (name key : string) : string * string :=
  default ("", name)%string (list_find (λ p, p.1 = key) (level_names "" name) ≫= λ '(_, p), Some p).

(** [match_component]; the loop of [NestedPrimaryKeyVisitor] is inside. *)
Fixpoint match_component (first_level rest : string) (v : json) (docid : option string)
    : DocumentIdExtractionError + option string :=
  if bool_decide (first_level = "")%string then inr docid else
  let value :=
    if bool_decide (rest = "")%string then
      match document_id_of v with inr id => inr (Some id) | inl e => inl e end
    else
      match v with
      | JObject entries =>
          (fix nested (entries : list (string * json)) (docid : option string) :=
             match entries with
             | [] => inr docid
             | (key, v) :: entries =>
                 let '(level, rest) := match_str rest key in
                 match match_component level rest v docid with
                 | inr docid => nested entries docid
                 | inl e => inl e
                 end
             end) entries None
      | _ => inr None
      end in
  match value with
  | inl e => inl e
  | inr None => inr docid
  | inr (Some id) => match docid with None => inr (Some id) | Some _ => inl (ExtractTooMany 2) end
  end.

Module PrimaryKey.
Inductive t := Flat (name : string) (field_id : Z) | Nested (name : string).
Definition name (pk : t) : string := match pk with Flat name _ | Nested name => name end.
End PrimaryKey.

Definition contains_dot (path : string) : bool := existsb (λ c, Ascii.eqb c ".") (Stdlib.Strings.String.list_ascii_of_string path).

(** [PrimaryKey::new_or_insert]. *)
Definition new_or_insert (path : string) (fields : FieldsIdsMap) : (DocUserError + PrimaryKey.t) * FieldsIdsMap :=
  if contains_dot path then (inr (PrimaryKey.Nested path), fields)
  else match fields_insert path fields with
       | (Some id, fields) => (inr (PrimaryKey.Flat path id), fields)
       | (None, fields) => (inl AttributeLimitReached, fields)
       end.

(** The loop of [FieldAndDocidExtractor::visit_map]: all the names are inserted,
    even after an error. *)
Fixpoint visit_entries (pk : string) (entries : list (string * json)) (fields : FieldsIdsMap)
    (limit_reached : bool) (error : option DocumentIdExtractionError) (docid : option string)
    : (DocUserError + (DocumentIdExtractionError + string)) * FieldsIdsMap :=
  match entries with
  | [] =>
      (if limit_reached then inl AttributeLimitReached
       else inr match error with
                | Some e => inl e
                | None => match docid with Some id => inr id | None => inl ExtractMissing end
                end, fields)
  | (key, v) :: entries =>
      let '(level, rest) := match_str pk key in
      let '(fid, fields) := fields_insert key fields in
      if limit_reached || bool_decide (is_Some error) then visit_entries pk entries fields limit_reached error docid
      else match fid with
           | None => visit_entries pk entries fields true error docid
           | Some _ =>
               match match_component level rest v docid with
               | inr docid => visit_entries pk entries fields limit_reached error docid
               | inl e => visit_entries pk entries fields limit_reached (Some e) docid
               end
           end
  end.

(** [PrimaryKey::extract_fields_and_docid]. *)
Definition extract_fields_and_docid (pk : PrimaryKey.t) (document : json) (fields : FieldsIdsMap)
    : (DocUserError + string) * FieldsIdsMap :=
  match document with
  | JObject entries =>
      let '(r, fields) := visit_entries (PrimaryKey.name pk) entries fields false None None in
      (match r with
       | inl e => inl e
       | inr (inr id) => inr id
       | inr (inl (ExtractInvalid v)) => inl (InvalidDocumentId v)
       | inr (inl ExtractMissing) => inl (MissingDocumentId (PrimaryKey.name pk) document)
       | inr (inl (ExtractTooMany _)) => inl (TooManyDocumentIds (PrimaryKey.name pk) document)
       end, fields)
  | _ => (inl SerdeJson, fields)
  end.

(** ** The primary key *)

(** [str::ends_with]. *)
Definition ends_with (s suffix : string) : bool :=
  String.prefix (String.rev suffix) (String.rev s).

Section documents.
Context `{JsonText}.

(** The loop over the names of the first document: the names that end with "id",
    whatever their case. *)
Fixpoint guess_names (names : list string) (fields : FieldsIdsMap)
    : (DocUserError + list string) * FieldsIdsMap :=
  match names with
  | [] => (inr [], fields)
  | name :: names =>
      match fields_insert name fields with
      | (None, fields) => (inl AttributeLimitReached, fields)
      | (Some _, fields) =>
          let '(r, fields) := guess_names names fields in
          (match r with
           | inr guesses => inr (if ends_with (to_lower name) "id" then name :: guesses else guesses)
           | inl e => inl e
           end, fields)
      end
  end.

(** [retrieve_or_guess_primary_key]. *)
Definition retrieve_or_guess_primary_key (db_primary_key primary_key_from_op : option string)
    (first_document : option (list (string * RawValue))) (fields : FieldsIdsMap)
    : (DocUserError + PrimaryKey.t) * FieldsIdsMap :=
  match db_primary_key with
  | Some from_db =>
      match primary_key_from_op with
      | Some from_op => if bool_decide (from_op = from_db) then new_or_insert from_db fields
                        else (inl (PrimaryKeyCannotBeChanged from_db), fields)
      | None => new_or_insert from_db fields
      end
  | None =>
      match primary_key_from_op with
      | Some from_op => new_or_insert from_op fields
      | None =>
          match first_document with
          | None => (inl NoPrimaryKeyCandidateFound, fields)
          | Some document =>
              match guess_names (fst <$> document) fields with
              | (inl e, fields) => (inl e, fields)
              | (inr guesses, fields) =>
                  match merge_sort String.le guesses with
                  | [] => (inl NoPrimaryKeyCandidateFound, fields)
                  | [name] => new_or_insert name fields
                  | candidates => (inl (MultiplePrimaryKeyCandidatesFound candidates), fields)
                  end
              end
          end
      end
  end.

(** ** The operations on one document *)

Inductive InnerDocOp :=
| OpReplace (content : RawValue)
| OpUpdate (content : RawValue)
| OpDeletion.

Record PayloadOperations := mkPayloadOperations {
  po_docid : Z;
  po_is_new : bool;
  po_operations : list InnerDocOp;
}.

Definition is_tombstone (op : InnerDocOp) : bool :=
  match op with OpDeletion | OpReplace _ => true | OpUpdate _ => false end.

(** [push_replacement], [push_update] and [push_deletion]: what precedes a
    replacement or a deletion is dropped. *)
Definition push_operation (op : InnerDocOp) (po : PayloadOperations) : PayloadOperations :=
  mkPayloadOperations (po_docid po) (po_is_new po) (if is_tombstone op then [op] else po_operations po ++ [op]).

(** [append_operations]. *)
Definition append_operations (ops : list InnerDocOp) (po : PayloadOperations) : PayloadOperations :=
  let kept := match ops with op :: _ => if is_tombstone op then [] else po_operations po | [] => po_operations po end in
  mkPayloadOperations (po_docid po) (po_is_new po) (kept ++ ops).

(** [merge_version_offsets]. *)
Definition merge_version_offsets (main new : gmap string PayloadOperations) : gmap string PayloadOperations :=
  if bool_decide (main = ∅) then new
  else union_with (λ po new_po, Some (append_operations (po_operations new_po) po)) main new.

(** ** Reading a payload *)

(** What reading a payload changes, even if the payload is refused. *)
Record Preparation := mkPreparation {
  pr_available : AvailableIds;
  pr_fields : FieldsIdsMap;
  pr_primary_key : option PrimaryKey.t;
}.

(** The index as it is before the batch. *)
Record IndexView := mkIndexView {
  iv_external_ids : gmap string Z;
  iv_primary_key : option string;
}.

(** The entry of the document [id] in the operations of the payload. *)
Definition put_entry (id : string) (op : InnerDocOp) (docid : Z) (is_new : bool)
    (new : gmap string PayloadOperations) : gmap string PayloadOperations :=
  match new !! id with
  | Some po => <[id := push_operation op po]> new
  | None => <[id := mkPayloadOperations docid is_new [op]]> new
  end.

(** One replacement or update of the document [id]: the number of the document
    is that of an earlier payload, that of the index, or a new one. *)
Definition add_operation (iv : IndexView) (main : gmap string PayloadOperations) (id : string) (op : InnerDocOp)
    (new : gmap string PayloadOperations) (available : AvailableIds)
    : option (gmap string PayloadOperations) * AvailableIds :=
  match main !! id with
  | None =>
      match iv_external_ids iv !! id with
      | Some docid => (Some (put_entry id op docid false new), available)
      | None =>
          match new !! id with
          | Some po => (Some (<[id := push_operation op po]> new), available)
          | None =>
              match available_next available with
              | (Some docid, available) => (Some (<[id := mkPayloadOperations docid true [op]]> new), available)
              | (None, available) => (None, available)
              end
          end
      end
  | Some po => (Some (put_entry id op (po_docid po) (po_is_new po) new), available)
  end.

(** One deletion: a number is taken for an unknown document before the payload is
    looked at. *)
Definition delete_operation (iv : IndexView) (main : gmap string PayloadOperations) (id : string)
    (new : gmap string PayloadOperations) (available : AvailableIds)
    : option (gmap string PayloadOperations) * AvailableIds :=
  match main !! id with
  | None =>
      match iv_external_ids iv !! id with
      | Some docid => (Some (put_entry id OpDeletion docid false new), available)
      | None =>
          match available_next available with
          | (Some docid, available) => (Some (put_entry id OpDeletion docid true new), available)
          | (None, available) => (None, available)
          end
      end
  | Some po => (Some (put_entry id OpDeletion (po_docid po) (po_is_new po) new), available)
  end.

(** The primary key of a document: it is looked for at the first document of a
    payload, and the first one found is kept. *)
Definition document_primary_key (iv : IndexView) (from_op : option string) (first : bool) (v : RawValue)
    (st : Preparation) : outcome DocError PrimaryKey.t * Preparation :=
  if first then
    match raw_map v with
    | None => (Err (UserError SerdeJson), st)
    | Some document =>
        let '(r, fields) := retrieve_or_guess_primary_key (iv_primary_key iv) from_op (Some document) (pr_fields st) in
        match r with
        | inl e => (Err (UserError e), mkPreparation (pr_available st) fields (pr_primary_key st))
        | inr pk =>
            let pk := default pk (pr_primary_key st) in
            (Ok pk, mkPreparation (pr_available st) fields (Some pk))
        end
    end
  else
    match pr_primary_key st with Some pk => (Ok pk, st) | None => (Panic, st) end.

Definition operation_of (method : IndexDocumentsMethod.t) (v : RawValue) : InnerDocOp :=
  match method with
  | IndexDocumentsMethod.ReplaceDocuments => OpReplace v
  | IndexDocumentsMethod.UpdateDocuments => OpUpdate v
  end.

(** The loop of [extract_addition_payload_changes]. *)
Fixpoint addition_loop (iv : IndexView) (from_op : option string) (main : gmap string PayloadOperations)
    (method : IndexDocumentsMethod.t) (first : bool) (values : list RawValue)
    (new : gmap string PayloadOperations) (st : Preparation)
    : outcome DocError (gmap string PayloadOperations) * Preparation :=
  match values with
  | [] => (Ok new, st)
  | v :: values =>
      match document_primary_key iv from_op first v st with
      | (Ok pk, st) =>
          let '(id, fields) := extract_fields_and_docid pk (json_of v) (pr_fields st) in
          let st := mkPreparation (pr_available st) fields (pr_primary_key st) in
          match id with
          | inl e => (Err (UserError e), st)
          | inr id =>
              let '(r, available) := add_operation iv main id (operation_of method v) new (pr_available st) in
              let st := mkPreparation available (pr_fields st) (pr_primary_key st) in
              match r with
              | Some new => addition_loop iv from_op main method false values new st
              | None => (Err (UserError DocumentLimitReached), st)
              end
          end
      | (Err e, st) => (Err e, st)
      | (Panic, st) => (Panic, st)
      end
  end.

(** [extract_addition_payload_changes]. *)
Definition extract_addition_payload_changes (iv : IndexView) (from_op : option string)
    (main : gmap string PayloadOperations) (method : IndexDocumentsMethod.t) (payload : Payload) (st : Preparation)
    : outcome DocError (gmap string PayloadOperations) * Preparation :=
  let '(values, well_formed) := payload_values payload in
  match addition_loop iv from_op main method true values ∅ st with
  | (Ok new, st) =>
      if negb well_formed then (Err InternalSerdeJson, st)
      else if payload_is_empty payload then
        let '(r, fields) := retrieve_or_guess_primary_key (iv_primary_key iv) from_op None (pr_fields st) in
        match r with
        | inr pk => (Ok new, mkPreparation (pr_available st) fields (Some (default pk (pr_primary_key st))))
        | inl NoPrimaryKeyCandidateFound => (Ok new, mkPreparation (pr_available st) fields (pr_primary_key st))
        | inl e => (Err (UserError e), mkPreparation (pr_available st) fields (pr_primary_key st))
        end
      else (Ok new, st)
  | r => r
  end.

(** [extract_deletion_payload_changes]. *)
Fixpoint extract_deletion_payload_changes (iv : IndexView) (main : gmap string PayloadOperations)
    (to_delete : list string) (new : gmap string PayloadOperations) (st : Preparation)
    : outcome DocError (gmap string PayloadOperations) * Preparation :=
  match to_delete with
  | [] => (Ok new, st)
  | id :: to_delete =>
      let '(r, available) := delete_operation iv main id new (pr_available st) in
      let st := mkPreparation available (pr_fields st) (pr_primary_key st) in
      match r with
      | Some new => extract_deletion_payload_changes iv main to_delete new st
      | None => (Err (UserError DocumentLimitReached), st)
      end
  end.

(** ** The payloads of a batch *)

Inductive DocPayload :=
| PayloadReplace (p : Payload)
| PayloadUpdate (p : Payload)
| PayloadDeletion (ids : list string).

Record PayloadStats := mkPayloadStats {
  document_count : Z;
  ps_error : option DocUserError;
}.

Definition extract_payload (iv : IndexView) (from_op : option string) (main : gmap string PayloadOperations)
    (operation : DocPayload) (st : Preparation) : outcome DocError (gmap string PayloadOperations) * Preparation :=
  match operation with
  | PayloadReplace p => extract_addition_payload_changes iv from_op main IndexDocumentsMethod.ReplaceDocuments p st
  | PayloadUpdate p => extract_addition_payload_changes iv from_op main IndexDocumentsMethod.UpdateDocuments p st
  | PayloadDeletion ids => extract_deletion_payload_changes iv main ids ∅ st
  end.

(** The loop of [into_changes]; [must_stop k] is the flag read at the [k]-th
    payload.  A payload the user is responsible for is dropped. *)
Fixpoint into_changes_loop (must_stop : nat → bool) (iv : IndexView) (from_op : option string) (k : nat)
    (operations : list DocPayload) (main : gmap string PayloadOperations) (st : Preparation)
    : outcome DocError (list PayloadStats * gmap string PayloadOperations * Preparation) :=
  match operations with
  | [] => Ok ([], main, st)
  | operation :: operations =>
      if must_stop k then Err AbortedIndexation else
      match extract_payload iv from_op main operation st with
      | (Ok new, st) =>
          '(stats, main, st) ← into_changes_loop must_stop iv from_op (S k) operations
                                 (merge_version_offsets main new) st;
          Ok (mkPayloadStats (Z.of_nat (size new)) None :: stats, main, st)
      | (Err (UserError e), st) =>
          '(stats, main, st) ← into_changes_loop must_stop iv from_op (S k) operations main st;
          Ok (mkPayloadStats 0 (Some e) :: stats, main, st)
      | (Err e, st) => Err e
      | (Panic, st) => Panic
      end
  end.

(** [DocumentOperation::into_changes]. *)
Definition into_changes (must_stop : nat → bool) (iv : IndexView) (documents_ids : bitmap) (fields : FieldsIdsMap)
    (from_op : option string) (operations : list DocPayload)
    : outcome DocError (gmap string PayloadOperations * list PayloadStats * Preparation) :=
  '(stats, main, st) ← into_changes_loop must_stop iv from_op 0 operations ∅
                         (mkPreparation (AvailableIds_new documents_ids) fields None);
  Ok (main, stats, st).

(** ** The changes of the documents *)

Definition RESERVED_VECTORS_FIELD_NAME : string := "_vectors".
Definition RESERVED_GEO_FIELD_NAME : string := "_geo".

Inductive DocumentChange :=
| ChangeDeletion (docid : Z) (external_id : string)
| ChangeUpdate (docid : Z) (external_id : string) (new : Document) (from_scratch : bool)
| ChangeInsertion (docid : Z) (external_id : string) (new : Document).

(** The content of an operation: [RawMap::from_raw_value_and_hasher]. *)
Definition document_of (v : RawValue) : outcome DocError Document :=
  match raw_map v with
  | Some entries => Ok (list_to_map entries)
  | None => Err (UserError SerdeJson)
  end.

(** [Versions::multiple]: the fields of the later versions replace those of the
    first. *)
Definition versions_multiple (versions : list (outcome DocError Document)) : outcome DocError (option Document) :=
  match versions with
  | [] => Ok None
  | data :: versions =>
      data ← data;
      data ← for_each (λ data future, future ← future; Ok (future ∪ data)) data versions;
      Ok (Some data)
  end.

(** The content of the operations after the last tombstone, which is kept if it
    is a replacement; [None] without a tombstone. *)
Fixpoint after_tombstone (ops : list InnerDocOp) : option (list InnerDocOp) :=
  match ops with
  | [] => None
  | op :: ops =>
      match after_tombstone ops with
      | Some kept => Some kept
      | None =>
          match op with
          | OpDeletion => Some ops
          | OpReplace _ => Some (op :: ops)
          | OpUpdate _ => None
          end
      end
  end.

Definition operation_content (op : InnerDocOp) : outcome DocError Document :=
  match op with
  | OpReplace v | OpUpdate v => document_of v
  | OpDeletion => Panic
  end.

(** [PayloadOperations::merge]. *)
Definition merge (external_id : string) (po : PayloadOperations) : outcome DocError (option DocumentChange) :=
  match last (po_operations po) with
  | Some (OpReplace v) =>
      document ← document_of v;
      Ok (Some (if po_is_new po then ChangeInsertion (po_docid po) external_id document
                else ChangeUpdate (po_docid po) external_id document true))
  | Some (OpUpdate _) =>
      let tombstone := after_tombstone (po_operations po) in
      let from_scratch := bool_decide (is_Some tombstone) in
      versions ← versions_multiple (operation_content <$> default (po_operations po) tombstone);
      Ok match versions with
         | None => None
         | Some versions =>
             Some (if po_is_new po then ChangeInsertion (po_docid po) external_id versions
                   else ChangeUpdate (po_docid po) external_id versions from_scratch)
         end
  | Some OpDeletion =>
      Ok (if po_is_new po then None else Some (ChangeDeletion (po_docid po) external_id))
  | None => Panic
  end.

(** ** The vectors of the documents *)

(** What [serde_json] shows a visitor of a value: the first element of an array
    that cannot be read, the entries of an object up to the first key that is not
    plain text, or the value. *)
Inductive Visited :=
| VisitNull
| VisitSeq (bad_element : option Z)
| VisitMap (entries : list (string * RawValue)) (bad_key : bool)
| VisitOther (value : json)
| VisitError.

Inductive RawVectors :=
| ExplicitVectors (regenerate : bool) (embeddings : option RawValue)
| ImplicitlyUserProvided (value : option RawValue).

(** The loop of [RawVectorsVisitor::visit_map]. *)
Fixpoint visit_map (regenerate : option bool) (embeddings : option RawValue) (entries : list (string * RawValue))
    (bad_key : bool) : outcome RawVectorsError RawVectors :=
  match entries with
  | [] =>
      if bad_key then Err DeserializeKey
      else match regenerate with
           | None => Err MissingRegenerate
           | Some regenerate => Ok (ExplicitVectors regenerate embeddings)
           end
  | (key, value) :: entries =>
      if String.eqb key "regenerate" then
        match json_of value with
        | JBool b => visit_map (Some b) embeddings entries bad_key
        | _ => Err DeserializeRegenerate
        end
      else if String.eqb key "embeddings" then visit_map regenerate (Some value) entries bad_key
      else Err (UnknownField key)
  end.

(** [RawVectors::from_raw_value], [visited] being what is shown of [raw]. *)
Definition raw_vectors_from (raw : RawValue) (visited : Visited) : outcome RawVectorsError RawVectors :=
  match visited with
  | VisitNull => Ok (ImplicitlyUserProvided None)
  | VisitSeq None => Ok (ImplicitlyUserProvided (Some raw))
  | VisitSeq (Some index) => Err (DeserializeSeq index)
  | VisitMap entries bad_key => visit_map None None entries bad_key
  | VisitOther value => Err (WrongKind value)
  | VisitError => Err VectorsParsing
  end.
End documents.
Arguments Visited : clear implicits.
Arguments Visited {_}.

(** Serde: what is shown of a value, [to_raw_value], the parsing of a text as a
    [Value], which can fail on a [RawValue] (a number out of range, a depth of more
    than 128), and the vectors of a database as a [Value]. *)
Class VectorText `{JsonText} := {
  visited : RawValue → Visited;
  to_raw_value : json → RawValue;
  parse_value : RawValue → option json;
  Embedding : Type;
  embeddings_value : list Embedding → json;
}.

Section vectors.
Context `{VectorText}.

Inductive Embeddings :=
| FromJsonExplicit (value : RawValue)
| FromJsonImplicityUserProvided (value : RawValue)
| FromDb (vectors : list Embedding).

Record VectorEntry := mkVectorEntry {
  has_configured_embedder : bool;
  ve_embeddings : option Embeddings;
  ve_regenerate : bool;
  ve_implicit : bool;
}.

(** What the vectors of a document depend on: the embedders of the task, and those of the
    index with the documents whose vectors come from the user, their numbers, and
    the vectors stored for an embedder and a document. *)
Record VectorEnv := mkVectorEnv {
  en_embedders : string → bool;
  en_configs : list (string * bitmap);
  en_category : gmap string Z;
  en_item_vectors : Z → Z → list Embedding;
}.

Definition entry_from_raw_value (value : RawValue) (configured : bool) : outcome RawVectorsError VectorEntry :=
  raw ← raw_vectors_from value (visited value);
  Ok match raw with
     | ExplicitVectors regenerate embeddings =>
         mkVectorEntry configured (FromJsonExplicit <$> embeddings) regenerate false
     | ImplicitlyUserProvided value =>
         mkVectorEntry configured
           (Some match value with Some v => FromJsonImplicityUserProvided v | None => FromDb [] end) false true
     end.

Definition entry_from_raw_value_user (external_id embedder : string) (value : RawValue) (configured : bool)
    : outcome DocError VectorEntry :=
  map_err (λ error, UserError (InvalidVectorsEmbedderConf external_id embedder error))
    (entry_from_raw_value value configured).

(** An iterator of results. *)
Abbreviation VectorIter := (list (outcome DocError (string * VectorEntry))).

(** [VectorDocumentFromVersions::new] and its [iter_vectors]. *)
Definition version_vectors (env : VectorEnv) (external_id : string) (x : string * RawValue)
    : outcome DocError (string * VectorEntry) :=
  entry ← entry_from_raw_value_user external_id x.1 x.2 (en_embedders env x.1);
  Ok (x.1, entry).

Definition vectors_from_versions (env : VectorEnv) (external_id : string) (versions : Document)
    : outcome DocError (option VectorIter) :=
  match versions !! "_vectors"%string with
  | None => Ok None
  | Some field =>
      vectors ← ok_or (UserError SerdeJson) (raw_map field);
      Ok (Some (map (version_vectors env external_id) vectors))
  end.

(** [VectorDocumentFromDb::entry_from_db]. *)
Definition entry_from_db (env : VectorEnv) (docid embedder_id : Z) (user_provided : bitmap) : VectorEntry :=
  mkVectorEntry true (Some (FromDb (en_item_vectors env embedder_id docid)))
    (negb (bool_decide (docid ∈ user_provided))) false.

(** [VectorDocumentFromDb::new] on a stored document and its [iter_vectors]. *)
Definition config_vectors (env : VectorEnv) (docid : Z) (config : string * bitmap)
    : outcome DocError (string * VectorEntry) :=
  embedder_id ← unwrap (en_category env !! config.1);
  Ok (config.1, entry_from_db env docid embedder_id config.2).

Definition stored_vectors (x : string * RawValue) : outcome DocError (string * VectorEntry) :=
  entry ← map_err (λ _, InternalVectorsDecoding) (entry_from_raw_value x.2 false);
  Ok (x.1, entry).

Definition vectors_from_db (env : VectorEnv) (docid : Z) (stored : Document) : outcome DocError VectorIter :=
  vectors ← match stored !! "_vectors"%string with
            | None => Ok []
            | Some field => ok_or InternalSerdeJson (raw_map field)
            end;
  Ok (map (config_vectors env docid) (en_configs env) ++ map stored_vectors vectors).

(** [MergedVectorDocument::iter_vectors]: the entries of the database whose name was
    seen are skipped. *)
Definition merged_iter (new_doc db : VectorIter) : VectorIter :=
  let seen := omap (λ next, match next with Ok (name, _) => Some name | _ => None end) new_doc in
  new_doc ++ List.filter (λ next, match next with Ok (name, _) => negb (bool_decide (name ∈ seen)) | _ => true end) db.

(** [Update::merged_vectors]. *)
Definition merged_vectors (env : VectorEnv) (old : option Document) (docid : Z) (external_id : string)
    (new : Document) (from_scratch : bool) : outcome DocError (option VectorIter) :=
  if from_scratch then vectors_from_versions env external_id new
  else
    db ← match old with
         | None => Ok None
         | Some stored => vectors ← vectors_from_db env docid stored; Ok (Some vectors)
         end;
    new_doc ← vectors_from_versions env external_id new;
    Ok match new_doc, db with
       | None, None => None
       | _, _ => Some (merged_iter (default [] new_doc) (default [] db))
       end.
(** ** Writing the documents *)

Record Documents := mkDocuments {
  external_ids : gmap string Z;
  documents : gmap Z Document;
}.

(** The fields of a document but the vectors, which are stored elsewhere unless no
    embedder is configured for them. *)
Definition visible (d : Document) : Document := delete RESERVED_VECTORS_FIELD_NAME d.

(** The content written, [vectors] being what is left of the vectors. *)
Definition obkv_content (d : Document) (vectors : option RawValue) : Document :=
  match vectors with
  | Some v => <[RESERVED_VECTORS_FIELD_NAME := v]> (visible d)
  | None => visible d
  end.

(** [id_or_insert] on the map of the fields the threads share. *)
Definition id_or_insert (fields : FieldsIdsMap) (name : string) : outcome DocError FieldsIdsMap :=
  match fields_insert name fields with
  | (Some _, fields) => Ok fields
  | (None, _) => Err (UserError AttributeLimitReached)
  end.

(** [serde_json::json!] on the embeddings of an entry, which panics on a text that
    is not a [Value]. *)
Definition embeddings_json (embeddings : option Embeddings) : outcome DocError json :=
  match embeddings with
  | None => Ok JNull
  | Some (FromJsonExplicit v) | Some (FromJsonImplicityUserProvided v) => unwrap (parse_value v)
  | Some (FromDb vectors) => Ok (embeddings_value vectors)
  end.

(** One round of the loop on the vectors; those of a configured embedder are not written. *)
Definition inject_vector (vectors : gmap string json) (next : outcome DocError (string * VectorEntry))
    : outcome DocError (gmap string json) :=
  '(name, entry) ← next;
  if has_configured_embedder entry then Ok vectors
  else
    embeddings ← embeddings_json (ve_embeddings entry);
    Ok (<[name := if ve_implicit entry then embeddings
                  else JObject [("regenerate", JBool (ve_regenerate entry)); ("embeddings", embeddings)]%string]> vectors).

(** The entries of a [BTreeMap], in the order of the keys. *)
Definition sorted_entries (m : gmap string json) : list (string * json) :=
  omap (λ name, (λ v, (name, v)) <$> m !! name) (merge_sort String.le (elements (dom m))).

(** [write_to_obkv]: every field has an id, the vectors and the coordinates come
    after the other fields. *)
Definition write_to_obkv (d : Document) (vectors : option VectorIter) (fields : FieldsIdsMap)
    : outcome DocError (Document * FieldsIdsMap) :=
  fields ← for_each id_or_insert fields (elements (dom (delete RESERVED_GEO_FIELD_NAME (visible d))));
  vectors ← for_each inject_vector ∅ (default [] vectors);
  let vectors := if bool_decide (vectors = ∅) then None else Some (to_raw_value (JObject (sorted_entries vectors))) in
  fields ← match vectors with
           | Some _ => id_or_insert fields RESERVED_VECTORS_FIELD_NAME
           | None => Ok fields
           end;
  fields ← match d !! RESERVED_GEO_FIELD_NAME with
           | Some _ => for_each id_or_insert fields [RESERVED_GEO_FIELD_NAME; "_geo.lat"; "_geo.lng"]%string
           | None => Ok fields
           end;
  Ok (obkv_content d vectors, fields).

(** [MergedDocument]: the new fields, then those of the database. *)
Definition merged (new current : Document) (from_scratch : bool) : Document :=
  if from_scratch then visible new else visible new ∪ visible current.

(** The change of the number of documents that have each field. *)
Definition count_fields (sign : Z) (d : Document) (delta : gmap string Z) : gmap string Z :=
  foldl (λ delta f, <[f := default 0 (delta !! f) + sign]> delta) delta (elements (dom (visible d))).

(** The data of one thread. *)
Record ExtractorData := mkExtractorData {
  docids_del : bitmap;
  docids_add : bitmap;
  field_distribution_delta : gmap string Z;
}.

(** [DocumentsExtractor::process], on one change: the content is read from the
    index as it is before the batch, and written to the new one. *)
Definition process_change (env : VectorEnv) (old : Documents) (change : DocumentChange)
    (acc : Documents * FieldsIdsMap * ExtractorData) : outcome DocError (Documents * FieldsIdsMap * ExtractorData) :=
  let '(db, fields, data) := acc in
  match change with
  | ChangeDeletion docid external_id =>
      current ← ok_or (UserError (UnknownInternalDocumentId docid)) (documents old !! docid);
      Ok (mkDocuments (delete external_id (external_ids db)) (delete docid (documents db)), fields,
          mkExtractorData ({[docid]} ∪ docids_del data) (docids_add data)
            (count_fields (-1) current (field_distribution_delta data)))
  | ChangeUpdate docid external_id new from_scratch =>
      current ← ok_or (UserError (UnknownInternalDocumentId docid)) (documents old !! docid);
      let content := merged new current from_scratch in
      let delta := count_fields 1 content (count_fields (-1) current (field_distribution_delta data)) in
      vectors ← merged_vectors env (documents old !! docid) docid external_id new from_scratch;
      '(content, fields) ← write_to_obkv content vectors fields;
      Ok (mkDocuments (<[external_id := docid]> (external_ids db)) (<[docid := content]> (documents db)), fields,
          mkExtractorData (docids_del data) (docids_add data) delta)
  | ChangeInsertion docid external_id new =>
      let delta := count_fields 1 new (field_distribution_delta data) in
      vectors ← vectors_from_versions env external_id new;
      '(content, fields) ← write_to_obkv new vectors fields;
      Ok (mkDocuments (<[external_id := docid]> (external_ids db)) (<[docid := content]> (documents db)), fields,
          mkExtractorData (docids_del data) ({[docid]} ∪ docids_add data) delta)
  end.

(** The changes one thread processes. *)
Definition process_item (env : VectorEnv) (old : Documents)
    (acc : Documents * FieldsIdsMap * ExtractorData) (item : string * PayloadOperations)
    : outcome DocError (Documents * FieldsIdsMap * ExtractorData) :=
  change ← merge item.1 item.2;
  match change with
  | Some change => process_change env old change acc
  | None => Ok acc
  end.

(** What is kept of an index besides the documents. *)
Record DocumentsStats := mkDocumentsStats {
  ds_documents_ids : bitmap;
  ds_distribution : gmap string Z;
}.

(** [saturating_add_signed]. *)
Definition add_signed (n delta : Z) : Z := Z.max 0 (Z.min (n + delta) u64_max).

(** The loop of [extract_all] over the data of the threads. *)
Definition merge_data (stats : DocumentsStats) (data : ExtractorData) : DocumentsStats :=
  mkDocumentsStats ((ds_documents_ids stats ∖ docids_del data) ∪ docids_add data)
    (map_fold (λ f delta d, <[f := add_signed (default 0 (d !! f)) delta]> d)
       (ds_distribution stats) (field_distribution_delta data)).

(** The documents written by the threads, one after the other: each has its own
    changes and its own data. *)
Fixpoint process_threads (env : VectorEnv) (old : Documents)
    (threads : list (list (string * PayloadOperations))) (db : Documents) (fields : FieldsIdsMap)
    : outcome DocError (Documents * FieldsIdsMap * list ExtractorData) :=
  match threads with
  | [] => Ok (db, fields, [])
  | items :: threads =>
      '(db, fields, data) ← for_each (process_item env old) (db, fields, mkExtractorData ∅ ∅ ∅) items;
      '(db, fields, rest) ← process_threads env old threads db fields;
      Ok (db, fields, data :: rest)
  end.

(** The part of [extract_all] about the documents. *)
Definition extract_documents (env : VectorEnv) (old : Documents) (stats : DocumentsStats)
    (fields : FieldsIdsMap) (threads : list (list (string * PayloadOperations)))
    : outcome DocError (Documents * FieldsIdsMap * DocumentsStats) :=
  '(db, fields, data) ← process_threads env old threads old fields;
  let stats := foldl merge_data stats data in
  Ok (db, fields,
      mkDocumentsStats (ds_documents_ids stats) (filter (λ e, e.2 ≠ 0) (ds_distribution stats))).
End vectors.

(** ** Statistics *)

Lemma into_changes_length `{JsonText} must_stop iv ids fields from_op operations main stats st :
  into_changes must_stop iv ids fields from_op operations = Ok (main, stats, st) → length stats = length operations.
Proof.
  unfold into_changes. intros Hr. apply bind_Ok in Hr as ([[stats1 main1] st1] & Hloop & Hr). simplify_eq. revert Hloop.
  generalize 0%nat (∅ : gmap string PayloadOperations) (mkPreparation (AvailableIds_new ids) fields None).
  intros k m0 st0 Hloop. revert k m0 st0 main stats st Hloop.
  induction operations as [|p operations IH]; intros k m0 st0 main stats st Hr; cbn [into_changes_loop] in Hr;
    [by simplify_eq|].
  destruct (must_stop k); [done|]. destruct (extract_payload iv from_op m0 p st0) as [[new|[e| | |]|] st1]; try done;
    apply bind_Ok in Hr as ([[stats1 main1] st2] & Hrest & Hr); simplify_eq; cbn [length]; f_equal; by eapply IH.
Qed.

(** ** An instance *)

(** Values that are already parsed. *)
#[local] Instance sample_json : JsonText := {|
  RawValue := json;
  json_of := λ v, v;
  raw_map := λ v, match v with JObject entries => Some entries | _ => None end;
  Payload := list json;
  payload_values := λ p, (p, true);
  payload_is_empty := λ p, match p with [] => true | _ => false end;
|}.

#[local] Instance sample_vector_text : VectorText := {|
  visited := λ v, match v with
                  | JNull => VisitNull
                  | JArray _ => VisitSeq None
                  | JObject entries => VisitMap entries false
                  | v => VisitOther v
                  end;
  to_raw_value := λ v, v;
  parse_value := Some;
  Embedding := list Z;
  embeddings_value := λ l, JArray ((λ e, JArray (JU64 <$> e)) <$> l);
|}.

#[local] Instance sample_json_ok : JsonTextOk.
Proof. constructor. intros v entries Hv. cbn in *. by rewrite Hv. Qed.

Definition sample_document (id : string) (field value : string) : json :=
  JObject [("id"%string, JString id); (field, JString value)].
