(* ===== verification/DocumentVectors.v ===== *)
(** * The vectors of the documents of a batch

    The specification of [update/new/vector_document.rs] and of the vectors written
    by [write_to_obkv] ([update/new/document.rs]), both modelled in [Documents]: what
    is left of the [_vectors] field of a document in the documents database can
    always be read again, and writing the vectors fails exactly on the [_vectors] of the
    payloads, never on those of the database. *)

From S2P Require Import Prelude TaskTypes Versions Ids Documents.
From Stdlib Require String.
Open Scope Z_scope.

(** What serde promises: a printed [Value] is read as that [Value], the entries of
    an object are printed in their order, and the text of an array is parsed as an array. *)
Class VectorTextOk `{VectorText} := {
  raw_map_printed : ∀ entries, NoDup entries.*1 →
    raw_map (to_raw_value (JObject entries)) = Some ((λ e, (e.1, to_raw_value e.2)) <$> entries);
  visited_array : ∀ l, visited (to_raw_value (JArray l)) = VisitSeq None;
  visited_entry : ∀ a b,
    visited (to_raw_value (JObject [("regenerate", a); ("embeddings", b)]%string)) =
      VisitMap [("regenerate", to_raw_value a); ("embeddings", to_raw_value b)]%string false;
  json_of_printed : ∀ b, json_of (to_raw_value (JBool b)) = JBool b;
  parse_printed : ∀ j, parse_value (to_raw_value j) = Some j;
  parse_array : ∀ v j, visited v = VisitSeq None → parse_value v = Some j → ∃ l, j = JArray l;
  embeddings_array : ∀ vectors, ∃ l, embeddings_value vectors = JArray l;
}.

Section spec.
Context `{VectorText}.

(** What is written of an entry. *)
Definition entry_json (entry : VectorEntry) (embeddings : json) : json :=
  if ve_implicit entry then embeddings
  else JObject [("regenerate", JBool (ve_regenerate entry)); ("embeddings", embeddings)]%string.

(** A value of [_vectors] that can be read and written back. *)
Definition readable (value : RawValue) : Prop :=
  ∃ entry j, entry_from_raw_value value false = Ok entry ∧ embeddings_json (ve_embeddings entry) = Ok j.

(** The [_vectors] field of a stored document can be read. *)
Definition vectors_stored (d : Document) : Prop :=
  ∀ field, d !! RESERVED_VECTORS_FIELD_NAME = Some field →
    ∃ entries, raw_map field = Some entries ∧ ∀ x, x ∈ entries → readable x.2.

(** Why the vectors of the new fields [new] of the document [id] cannot be written, with
    the error, [None] being a panic: [_vectors] is not an object; one of its
    values is not what an embedder expects; the embeddings given for an embedder that
    is not configured are not a [Value]. *)
Inductive bad_vectors (env : VectorEnv) (id : string) (new : Document) : option DocError → Prop :=
| bad_field field :
    new !! RESERVED_VECTORS_FIELD_NAME = Some field → raw_map field = None →
    bad_vectors env id new (Some (UserError SerdeJson))
| bad_embedder field entries name value error :
    new !! RESERVED_VECTORS_FIELD_NAME = Some field → raw_map field = Some entries → (name, value) ∈ entries →
    raw_vectors_from value (visited value) = Err error →
    bad_vectors env id new (Some (UserError (InvalidVectorsEmbedderConf id name error)))
| bad_embeddings field entries name value entry v :
    new !! RESERVED_VECTORS_FIELD_NAME = Some field → raw_map field = Some entries → (name, value) ∈ entries →
    en_embedders env name = false → entry_from_raw_value value false = Ok entry →
    ve_embeddings entry = Some (FromJsonExplicit v) ∨ ve_embeddings entry = Some (FromJsonImplicityUserProvided v) →
    parse_value v = None → bad_vectors env id new None.

(** A computation that ends as [b] says. *)
Definition fails {A} (r : outcome DocError A) (b : option DocError) : Prop :=
  r = match b with Some e => Err e | None => Panic end.

(** The embedders of the index have a number. *)
Definition env_ok (env : VectorEnv) : Prop :=
  ∀ config, config ∈ en_configs env → is_Some (en_category env !! config.1).

Context `{!VectorTextOk}.

Lemma visit_map_no_panic entries : ∀ r e b, visit_map r e entries b ≠ Panic.
Proof.
  induction entries as [|[key value] entries IH]; intros r e b; cbn [visit_map].
  - destruct b; [done|]. by destruct r.
  - destruct (String.eqb key "regenerate"); [destruct (json_of value); try done; apply IH|].
    destruct (String.eqb key "embeddings"); [apply IH|done].
Qed.

Lemma visit_map_explicit entries o : ∀ r e b, visit_map r e entries b ≠ Ok (ImplicitlyUserProvided o).
Proof.
  induction entries as [|[key value] entries IH]; intros r e b; cbn [visit_map].
  - destruct b; [done|]. by destruct r.
  - destruct (String.eqb key "regenerate"); [destruct (json_of value); try done; apply IH|].
    destruct (String.eqb key "embeddings"); [apply IH|done].
Qed.

Lemma raw_vectors_no_panic raw v : raw_vectors_from raw v ≠ Panic.
Proof. destruct v as [|[]| | |]; try done. apply visit_map_no_panic. Qed.

Lemma printed_array_readable l : readable (to_raw_value (JArray l)).
Proof.
  eexists _, _. unfold entry_from_raw_value. rewrite visited_array. cbn. split; [done|]. cbn. by rewrite parse_printed.
Qed.

(** What is written of an entry can be read. *)
Lemma entry_json_readable value configured entry j :
  entry_from_raw_value value configured = Ok entry → embeddings_json (ve_embeddings entry) = Ok j →
  readable (to_raw_value (entry_json entry j)).
Proof.
  unfold entry_from_raw_value. intros (raw & Hraw & [= <-])%bind_Ok. destruct raw as [r e|o]; cbn.
  - intros _. unfold entry_json. cbn. eexists _, j. unfold entry_from_raw_value. rewrite visited_entry. cbn.
    rewrite json_of_printed. cbn. split; [done|]. cbn. by rewrite parse_printed.
  - unfold entry_json. cbn. intros Hj. enough (∃ l, j = JArray l) as [l ->] by apply printed_array_readable.
    destruct o as [v|]; cbn in Hj.
    + assert (Hv : visited v = VisitSeq None).
      { destruct (visited value) as [|[]|entries bad| |] eqn:Hvis; cbn in Hraw; try done; [by simplify_eq|].
        by apply visit_map_explicit in Hraw. }
      destruct (parse_value v) eqn:Hp; simplify_eq/=. by eapply parse_array.
    + simplify_eq. apply embeddings_array.
Qed.

(** The result of a step of [iter_vectors]: a failure of the payload, or an entry that is not
    written, is written, or whose embeddings are not a [Value]. *)
Definition good_step (bad : option DocError → Prop) (next : outcome DocError (string * VectorEntry)) : Prop :=
  (∃ b, bad b ∧ fails next b) ∨
  ∃ name entry, next = Ok (name, entry) ∧
    (has_configured_embedder entry = true ∨ (bad None ∧ embeddings_json (ve_embeddings entry) = Panic) ∨
     ∃ j, embeddings_json (ve_embeddings entry) = Ok j ∧ readable (to_raw_value (entry_json entry j))).

Definition all_readable (m : gmap string json) : Prop := ∀ name j, m !! name = Some j → readable (to_raw_value j).

Lemma inject_vectors_spec bad l : ∀ m,
  Forall (good_step bad) l → all_readable m →
  (∃ b, bad b ∧ fails (for_each inject_vector m l) b) ∨ ∃ m', for_each inject_vector m l = Ok m' ∧ all_readable m'.
Proof.
  induction l as [|next l IH]; intros m Hl Hm; [right; by exists m|]. inversion Hl as [|?? Hn Hl']; subst.
  cbn [for_each]. destruct Hn as [(b & Hb & Hf)|(name & entry & -> & Hn)].
  { left. exists b. split; [done|]. unfold fails in *. subst next. by destruct b. }
  unfold inject_vector at 1 3. cbn. destruct (has_configured_embedder entry) eqn:Hc; cbn; [by apply IH|].
  destruct Hn as [?|[[Hb ->]|(j & -> & Hj)]]; [done|left; by exists None|]. cbn. apply IH; [done|].
  intros name' j'. rewrite lookup_insert_Some. intros [[<- <-]|[_ ?]]; [exact Hj|by eapply Hm].
Qed.

Lemma version_vectors_good env id new field entries x :
  new !! RESERVED_VECTORS_FIELD_NAME = Some field → raw_map field = Some entries → x ∈ entries →
  good_step (bad_vectors env id new) (version_vectors env id x).
Proof.
  intros Hf He Hx. destruct x as [name value]. unfold version_vectors, entry_from_raw_value_user. cbn [fst snd].
  destruct (entry_from_raw_value value (en_embedders env name)) as [entry|error|] eqn:Hentry; cbn [map_err mbind outcome_bind].
  - right. exists name, entry. split; [done|]. destruct (en_embedders env name) eqn:Hn.
    { left. unfold entry_from_raw_value in Hentry. apply bind_Ok in Hentry as ([] & _ & [= <-]); done. }
    right. destruct (embeddings_json (ve_embeddings entry)) as [j|e|] eqn:Hj.
    + right. exists j. split; [done|]. by eapply entry_json_readable.
    + exfalso. destruct (ve_embeddings entry) as [[v|v|]|]; cbn in Hj; try done; by destruct (parse_value v).
    + left. split; [|done]. destruct (ve_embeddings entry) as [[v|v|]|] eqn:Hv; cbn in Hj; try done;
        (eapply (bad_embeddings _ _ _ _ _ name value entry v); try done;
          [rewrite Hv; auto|by destruct (parse_value v)]).
  - left. exists (Some (UserError (InvalidVectorsEmbedderConf id name error))). split; [|done].
    eapply bad_embedder; [done..|]. unfold entry_from_raw_value in Hentry.
    destruct (raw_vectors_from value (visited value)); cbn in Hentry; by simplify_eq.
  - exfalso. unfold entry_from_raw_value in Hentry.
    pose proof (raw_vectors_no_panic value (visited value)) as Hp. by destruct (raw_vectors_from value (visited value)).
Qed.

(** The vectors of an insertion. *)
Lemma vectors_from_versions_spec env id new :
  (∃ b, bad_vectors env id new b ∧ fails (vectors_from_versions env id new) b) ∨
  ∃ o, vectors_from_versions env id new = Ok o ∧ Forall (good_step (bad_vectors env id new)) (default [] o).
Proof.
  unfold vectors_from_versions. change "_vectors"%string with RESERVED_VECTORS_FIELD_NAME.
  destruct (new !! RESERVED_VECTORS_FIELD_NAME) as [field|] eqn:Hf; [|right; exists None; split; [done|by constructor]].
  destruct (raw_map field) as [entries|] eqn:He; cbn;
    [|left; exists (Some (UserError SerdeJson)); split; [by eapply bad_field|done]].
  right. eexists. split; [done|]. apply Forall_map, Forall_forall. intros x Hx. by eapply version_vectors_good.
Qed.

Lemma vectors_from_db_spec bad env docid stored :
  env_ok env → vectors_stored stored →
  ∃ l, vectors_from_db env docid stored = Ok l ∧ Forall (good_step bad) l.
Proof.
  intros Henv Hst. unfold vectors_from_db. change "_vectors"%string with RESERVED_VECTORS_FIELD_NAME.
  assert (Hc : Forall (good_step bad) (map (config_vectors env docid) (en_configs env))).
  { apply Forall_map, Forall_forall. intros [name provided] Hin. right. unfold config_vectors.
    destruct (Henv _ Hin) as [i Hi]. cbn [fst] in *. rewrite Hi. cbn. eexists _, _. split; [done|]. by left. }
  destruct (stored !! RESERVED_VECTORS_FIELD_NAME) as [field|] eqn:Hf; cbn.
  - destruct (Hst _ Hf) as (entries & -> & He). cbn. eexists. split; [done|]. apply Forall_app. split; [done|].
    apply Forall_map, Forall_forall. intros [name value] Hx. destruct (He _ Hx) as (entry & j & Hentry & Hj).
    right. exists name, entry. unfold stored_vectors. cbn [fst snd] in *. rewrite Hentry. split; [done|].
    right. right. exists j. split; [done|]. by eapply entry_json_readable.
  - eexists. split; [done|]. by rewrite app_nil_r.
Qed.

(** The vectors of an update. *)
Lemma merged_vectors_spec env old docid id new scratch :
  env_ok env → (∀ d, old = Some d → vectors_stored d) →
  (∃ b, bad_vectors env id new b ∧ fails (merged_vectors env old docid id new scratch) b) ∨
  ∃ o, merged_vectors env old docid id new scratch = Ok o ∧ Forall (good_step (bad_vectors env id new)) (default [] o).
Proof.
  intros Henv Hst. unfold merged_vectors. destruct scratch; [apply vectors_from_versions_spec|].
  assert (Hdb : ∃ db, match old with
      | Some stored => vectors ← vectors_from_db env docid stored; Ok (Some vectors) | None => Ok None end = Ok db ∧
      Forall (good_step (bad_vectors env id new)) (default [] db)).
  { destruct old as [d|]; [|exists None; split; [done|by constructor]].
    destruct (vectors_from_db_spec (bad_vectors env id new) env docid d Henv (Hst d eq_refl)) as (l & -> & Hl).
    by exists (Some l). }
  destruct Hdb as (db & -> & Hdb). cbn [mbind outcome_bind].
  destruct (vectors_from_versions_spec env id new) as [(b & Hb & Hf)|(o & -> & Ho)]; cbn [mbind outcome_bind].
  { left. exists b. split; [done|]. unfold fails in *. rewrite Hf. by destruct b. }
  right. eexists. split; [done|].
  assert (Hm : Forall (good_step (bad_vectors env id new)) (merged_iter (default [] o) (default [] db))).
  { unfold merged_iter. apply Forall_app. split; [done|]. rewrite Forall_forall in *. intros next Hin.
    apply Hdb. apply list_elem_of_In, filter_In in Hin as [Hin _]. by apply list_elem_of_In. }
  by destruct o, db.
Qed.

Lemma sorted_entries_lookup m name j : (name, j) ∈ sorted_entries m → m !! name = Some j.
Proof. unfold sorted_entries. intros (n & _ & Hn)%list_elem_of_omap. destruct (m !! n) eqn:Hl; cbn in Hn; by simplify_eq. Qed.

Lemma sorted_entries_nodup m : NoDup (sorted_entries m).*1.
Proof.
  unfold sorted_entries. assert (Hnd : NoDup (merge_sort String.le (elements (dom m)))).
  { rewrite merge_sort_Permutation. apply NoDup_elements. }
  induction Hnd as [|name l Hn Hnd IH]; [by constructor|]. cbn. destruct (m !! name) as [j|]; [|done]. cbn.
  constructor; [|done]. intros ([x y] & -> & Hx)%list_elem_of_fmap. apply list_elem_of_omap in Hx as (n & Hin & Hx).
  cbn in Hn. destruct (m !! n); cbn in Hx; by simplify_eq.
Qed.

(** What is written can be read. *)
Lemma written_vectors_stored d (m : gmap string json) :
  all_readable m →
  vectors_stored (obkv_content d (if bool_decide (m = ∅) then None else Some (to_raw_value (JObject (sorted_entries m))))).
Proof.
  intros Hm field. case_bool_decide; cbn.
  - unfold visible. by rewrite lookup_delete_eq.
  - rewrite lookup_insert_eq. intros [= <-]. eexists. split; [apply raw_map_printed, sorted_entries_nodup|].
    intros x ([name j] & -> & Hx%sorted_entries_lookup)%list_elem_of_fmap. by eapply Hm.
Qed.
End spec.

(** ** An instance *)

#[local] Existing Instance sample_json.
#[local] Existing Instance sample_vector_text.

#[local] Instance sample_vector_text_ok : VectorTextOk.
Proof.
  constructor; cbn; try done.
  - intros entries _. f_equal. induction entries as [|[k v] entries IH]; [done|]. cbn. by f_equal.
  - intros v j Hv [= <-]. destruct v; try done. by eexists.
  - intros vectors. by eexists.
Qed.

(** No embedder at all. *)
Definition sample_vector_env : VectorEnv := mkVectorEnv (λ _, false) [] ∅ (λ _ _, []).

Lemma sample_vector_env_ok : env_ok sample_vector_env.
Proof. intros config Hc. by apply elem_of_nil in Hc. Qed.

(** Vectors that are left in a document, and vectors that are refused. *)
Example sample_vectors :
  vectors_from_versions sample_vector_env "a" {["_vectors"%string := JObject [("e"%string, JString "x")]]} =
    Ok (Some [Err (UserError (InvalidVectorsEmbedderConf "a" "e" (WrongKind (JString "x"))))]) ∧
  write_to_obkv {["title"%string := JString "one"]}
      (Some [Ok ("e"%string, mkVectorEntry false (Some (FromDb [])) false true)]) FieldsIdsMap_new =
    Ok (<["_vectors"%string := JObject [("e"%string, JArray [])]]> {["title"%string := JString "one"]},
        mkFieldsIdsMap {["title"%string := 0; "_vectors"%string := 1]} {[0 := "title"%string; 1 := "_vectors"%string]} (Some 2)).
Proof. split; vm_compute; reflexivity. Qed.
