(* ===== verification/DocumentsSpec.v ===== *)
(** * Document operations: a batch refines its payloads

    The operations of [Documents], grouped by document and written by several
    threads, have the effect of the payloads one after the other. *)

From S2P Require Import Prelude TaskTypes Versions Ids Documents DocumentVectors.
From Stdlib Require Import Ascii.
From Stdlib Require String.
Open Scope Z_scope.

(** ** What the operations of one document amount to *)

Section semantics.
Context `{JsonText}.

(** The document an operation carries. *)
Definition content (v : RawValue) : Document := default ∅ (list_to_map <$> raw_map v).

(** The effect of one operation on a document, by its visible fields. *)
Definition step_doc (d : option Document) (op : InnerDocOp) : option Document :=
  match op with
  | OpReplace v => Some (visible (content v))
  | OpUpdate v => Some (visible (content v) ∪ default ∅ d)
  | OpDeletion => None
  end.

(** The content of an operation is an object. *)
Definition op_ok (op : InnerDocOp) : Prop :=
  match op with OpReplace v | OpUpdate v => is_Some (raw_map v) | OpDeletion => True end.

Lemma document_of_ok v : is_Some (raw_map v) → document_of v = Ok (content v).
Proof. intros [e He]. unfold document_of, content. by rewrite He. Qed.

Lemma visible_union (a b : Document) : visible (a ∪ b) = visible a ∪ visible b.
Proof. apply delete_union. Qed.

Lemma visible_visible (d : Document) : visible (visible d) = visible d.
Proof. unfold visible. by rewrite delete_delete_eq. Qed.

Lemma step_doc_tombstone op d d' : is_tombstone op = true → step_doc d op = step_doc d' op.
Proof. by destruct op. Qed.

Lemma push_operation_step op po d :
  foldl step_doc d (po_operations (push_operation op po)) = step_doc (foldl step_doc d (po_operations po)) op.
Proof.
  unfold push_operation. cbn [po_operations]. destruct (is_tombstone op) eqn:Ht.
  - by apply step_doc_tombstone.
  - by rewrite foldl_snoc.
Qed.

Lemma append_operations_step ops po d :
  foldl step_doc d (po_operations (append_operations ops po)) =
    foldl step_doc (foldl step_doc d (po_operations po)) ops.
Proof.
  unfold append_operations. cbn [po_operations]. rewrite foldl_app. destruct ops as [|op ops]; [done|].
  destruct (is_tombstone op) eqn:Ht; [|done]. cbn [foldl]. f_equal. by apply step_doc_tombstone.
Qed.

(** Updates only. *)
Definition is_update (op : InnerDocOp) : bool := match op with OpUpdate _ => true | _ => false end.

Lemma updates_versions ops : ∀ data d,
  Forall op_ok ops → Forall is_update ops →
  ∃ data', for_each (λ data future, future ← future; Ok (future ∪ data)) data (operation_content <$> ops) = Ok data' ∧
    foldl step_doc (Some (visible data ∪ d)) ops = Some (visible data' ∪ d).
Proof.
  induction ops as [|op ops IH]; intros data d Hok Hup; [by exists data|].
  inversion Hok as [|?? Ho Hok']; inversion Hup as [|?? Hu Hup']; subst. destruct op as [|v|]; try done.
  cbn [fmap list_fmap operation_content for_each]. rewrite document_of_ok by done. cbn [mbind outcome_bind].
  destruct (IH (content v ∪ data) d Hok' Hup') as (data' & -> & Hd). exists data'. split; [done|].
  rewrite <-Hd, visible_union.
  change (foldl step_doc (Some (visible (content v) ∪ (visible data ∪ d))) ops =
    foldl step_doc (Some ((visible (content v) ∪ visible data) ∪ d)) ops). by rewrite (assoc_L (∪)).
Qed.

Lemma after_tombstone_spec ops d :
  match after_tombstone ops with
  | Some kept =>
      foldl step_doc d ops = foldl step_doc None kept ∧
      (∀ op, op ∈ kept → op ∈ ops) ∧
      (kept = [] ∨ ∃ op rest, kept = op :: rest ∧ op ≠ OpDeletion ∧ Forall is_update rest) ∧
      (∀ op, last ops = Some op → is_update op → kept ≠ [])
  | None => Forall is_update ops
  end.
Proof.
  revert d. induction ops as [|op ops IH]; intros d; [constructor|]. cbn [after_tombstone foldl].
  specialize (IH (step_doc d op)). destruct (after_tombstone ops) as [kept|] eqn:Hat.
  - destruct IH as (-> & Hin & Hk & Hl). split_and!; [done|intros; right; auto|done|].
    intros o Ho. destruct ops as [|o' ops]; [done|]. by apply Hl.
  - destruct op as [v|v|].
    + split_and!; [done|intros ? [->|?]%elem_of_cons; [by left|by right]| |done].
      right. by exists (OpReplace v), ops.
    + by constructor.
    + split_and!; [done|intros; by right| |].
      * destruct ops as [|o ops]; [by left|]. right. inversion IH; subst. exists o, ops.
        split_and!; [done|by destruct o|done].
      * intros o Ho. destruct ops; [|done]. injection Ho as <-. done.
Qed.

(** Merging the operations of a document that is in the index, as [current], or
    is not. *)
Lemma merge_spec id po (current : option Document) :
  Forall op_ok (po_operations po) → po_operations po ≠ [] → (po_is_new po = true ↔ current = None) →
  ∃ change, merge id po = Ok change ∧
    match foldl step_doc (visible <$> current) (po_operations po), current with
    | None, None => change = None
    | None, Some _ => change = Some (ChangeDeletion (po_docid po) id)
    | Some d, None => ∃ new, change = Some (ChangeInsertion (po_docid po) id new) ∧ visible new = d
    | Some d, Some c => ∃ new scratch, change = Some (ChangeUpdate (po_docid po) id new scratch) ∧ merged new c scratch = d
    end.
Proof.
  intros Hok Hne Hnew.
  assert (Hisnew : po_is_new po = match current with None => true | Some _ => false end).
  { destruct current as [c|]; [|by apply Hnew]. destruct (po_is_new po); [|done]. by discriminate (proj1 Hnew eq_refl). }
  clear Hnew. unfold merge. destruct (last (po_operations po)) as [op|] eqn:Hlast; [|by apply last_None in Hlast].
  apply last_Some in Hlast as Hsplit. destruct Hsplit as [pre Hpre].
  destruct op as [v|v|].
  - assert (Ho : op_ok (OpReplace v)) by (rewrite Forall_forall in Hok; apply Hok; rewrite Hpre; set_solver).
    rewrite document_of_ok by done. cbn [mbind outcome_bind]. eexists. split; [done|].
    rewrite Hpre, foldl_snoc. cbn [step_doc]. rewrite Hisnew. destruct current as [c|].
    + by eexists _, true.
    + by eexists.
  - pose proof (after_tombstone_spec (po_operations po) (visible <$> current)) as Hat.
    destruct (after_tombstone (po_operations po)) as [kept|].
    + destruct Hat as (Hfold & Hsub & Hkept & Hnn). rewrite bool_decide_eq_true_2 by done.
      destruct Hkept as [->|(op & rest & -> & Hop & Hups)]; [by destruct (Hnn _ Hlast)|].
      rewrite Forall_forall in Hok.
      assert (Hoks : Forall op_ok rest) by (apply Forall_forall; intros; apply Hok, Hsub; by right).
      assert (Ho : op_ok op) by (apply Hok, Hsub; by left).
      assert (∃ w, operation_content op = Ok (content w) ∧ step_doc None op = Some (visible (content w) ∪ ∅)) as (w & Hw & Hs).
      { destruct op as [w|w|]; [| |done]; exists w; (split; [by apply document_of_ok|]); cbn; by rewrite (right_id_L ∅ (∪)). }
      change (default (po_operations po) (Some (op :: rest))) with (op :: rest).
      cbn [fmap list_fmap versions_multiple]. rewrite Hw. cbn [mbind outcome_bind].
      destruct (updates_versions rest (content w) ∅ Hoks Hups) as (data & -> & Hd). cbn [mbind outcome_bind].
      eexists. split; [done|]. rewrite Hfold. cbn [foldl]. rewrite Hs, Hd, (right_id_L ∅ (∪)).
      rewrite Hisnew. destruct current as [c|]; [by eexists _, true|by eexists].
    + destruct (po_operations po) as [|op rest]; [done|]. inversion Hat as [|?? Hup Hups]; subst.
      inversion Hok as [|?? Ho Hoks]; subst. destruct op as [|w|]; try done.
      change (default (OpUpdate w :: rest) None) with (OpUpdate w :: rest).
      cbn [fmap list_fmap versions_multiple operation_content]. rewrite document_of_ok by done. cbn [mbind outcome_bind].
      assert (Hstep : ∃ d0, d0 = default ∅ (visible <$> current)) by eauto. destruct Hstep as [d0 Hd0].
      destruct (updates_versions rest (content w) d0 Hoks Hups) as (data & Hfor & Hd). rewrite Hfor.
      cbn [mbind outcome_bind]. eexists. split; [done|]. cbn [foldl step_doc]. rewrite <-Hd0, Hd. clear Hfor Hd.
      rewrite Hisnew. destruct current as [c|].
      * subst d0. eexists _, false. split; [by rewrite bool_decide_eq_false_2 by (by intros [])|]. done.
      * eexists. split; [done|]. subst d0. cbn [fmap option_fmap option_map from_option]. by rewrite (right_id_L ∅ (∪)).
  - eexists. split; [done|]. rewrite Hpre, foldl_snoc. cbn [step_doc].
    rewrite Hisnew. by destruct current.
Qed.
End semantics.

(** ** The operations of the payloads, grouped by document *)

Section grouping.
Context `{JsonText}.

(** The operations on one document, in order. *)
Definition ops_on (id : string) (ops : list (string * InnerDocOp)) : list InnerDocOp :=
  omap (λ e, if decide (e.1 = id) then Some e.2 else None) ops.

Lemma ops_on_app id ops ops' : ops_on id (ops ++ ops') = ops_on id ops ++ ops_on id ops'.
Proof.
  induction ops as [|[i op] ops IH]; [done|]. unfold ops_on in *. cbn. case_decide; cbn; by rewrite IH.
Qed.

Lemma ops_on_single id i op : ops_on id [(i, op)] = if decide (i = id) then [op] else [].
Proof. unfold ops_on. cbn. by case_decide. Qed.

(** The table [m] groups [ops]: by document, the operations it keeps have the
    effect of all of them. *)
Definition means (m : gmap string PayloadOperations) (ops : list (string * InnerDocOp)) : Prop :=
  ∀ id, match m !! id with
        | Some po => po_operations po ≠ [] ∧ Forall op_ok (po_operations po) ∧
            ∀ d, foldl step_doc d (po_operations po) = foldl step_doc d (ops_on id ops)
        | None => ops_on id ops = []
        end.

Lemma means_empty : means ∅ [].
Proof. intros id. by rewrite lookup_empty. Qed.

Lemma put_entry_means id op docid is_new new ops :
  means new ops → op_ok op → means (put_entry id op docid is_new new) (ops ++ [(id, op)]).
Proof.
  intros Hm Hop i. specialize (Hm i). unfold put_entry.
  destruct (decide (id = i)) as [->|Hne].
  - destruct (new !! i) as [po|]; rewrite lookup_insert_eq.
    + destruct Hm as (Hne & Hok & Hsem). split_and!.
      * unfold push_operation. cbn. destruct (is_tombstone op); [done|]. by destruct (po_operations po).
      * unfold push_operation. cbn. destruct (is_tombstone op); [by constructor|]. apply Forall_app. by repeat constructor.
      * intros d. rewrite push_operation_step, Hsem, ops_on_app, ops_on_single, decide_True by done.
        by rewrite foldl_snoc.
    + split_and!; [done|by repeat constructor|]. intros d. rewrite ops_on_app, Hm, ops_on_single, decide_True by done. done.
  - rewrite ops_on_app, ops_on_single, decide_False, app_nil_r by done.
    destruct (new !! id); by rewrite lookup_insert_ne.
Qed.

Lemma merge_version_offsets_means main new ops ops' :
  means main ops → means new ops' → means (merge_version_offsets main new) (ops ++ ops').
Proof.
  intros Hm Hn id. specialize (Hm id). specialize (Hn id). unfold merge_version_offsets. rewrite ops_on_app.
  case_bool_decide as He.
  { subst main. rewrite lookup_empty in Hm. rewrite Hm. done. }
  rewrite lookup_union_with. destruct (main !! id) as [po|], (new !! id) as [po'|]; cbn [union_with option_union_with].
  - destruct Hm as (Hne & Hok & Hsem), Hn as (Hne' & Hok' & Hsem'). split_and!.
    + unfold append_operations. cbn. destruct (po_operations po'); [done|]. by case_match; [|destruct (po_operations po)].
    + unfold append_operations. cbn. apply Forall_app. split; [|done].
      destruct (po_operations po') as [|op ?]; [done|]. by destruct (is_tombstone op).
    + intros d. by rewrite append_operations_step, Hsem, Hsem', foldl_app.
  - rewrite Hn, app_nil_r. done.
  - rewrite Hm. done.
  - by rewrite Hm, Hn.
Qed.

(** ** The numbers of the documents *)

Definition num (po : PayloadOperations) : Z * bool := (po_docid po, po_is_new po).

(** The documents of [m] are numbered: by the index, or with fresh numbers that
    are not to be given again. *)
Record numbered (iv : IndexView) (ids : bitmap) (av : AvailableIds) (m : gmap string (Z * bool)) : Prop := {
  nb_old : ∀ id docid, m !! id = Some (docid, false) → iv_external_ids iv !! id = Some docid;
  nb_new : ∀ id docid, m !! id = Some (docid, true) →
    iv_external_ids iv !! id = None ∧ docid ∉ ids ∧ ¬ gives av docid ∧ 0 ≤ docid ≤ u32_max;
  nb_inj : ∀ id1 id2 docid, m !! id1 = Some (docid, true) → m !! id2 = Some (docid, true) → id1 = id2;
  nb_available : available_wf av;
  nb_fresh : ∀ x, gives av x → x ∉ ids;
}.

Lemma numbered_next iv ids av m :
  numbered iv ids av m → numbered iv ids (available_next av).2 m.
Proof.
  intros [Hold Hnew Hinj Hav Hfresh]. destruct (available_next_spec av Hav) as [Hav' Hnext].
  assert (Hsub : ∀ x, gives (available_next av).2 x → gives av x).
  { destruct (available_next av) as [[d|] av']; cbn in *; [intros x Hx; by apply Hnext in Hx as [? _]|].
    destruct Hnext as [_ ->]. done. }
  constructor; try done; [|eauto]. intros id docid Hm. destruct (Hnew id docid Hm) as (? & ? & ? & ?). eauto 10.
Qed.

Lemma numbered_subset iv ids av m m' : numbered iv ids av m → m' ⊆ m → numbered iv ids av m'.
Proof.
  intros [Hold Hnew Hinj Hav Hfresh] Hsub.
  constructor; eauto using lookup_weaken.
Qed.

Lemma numbered_new iv ids av m id docid av' :
  numbered iv ids av m → m !! id = None → iv_external_ids iv !! id = None → available_next av = (Some docid, av') →
  numbered iv ids av' (<[id := (docid, true)]> m).
Proof.
  intros Hnb Hm Hext Hnext. pose proof (numbered_next _ _ _ _ Hnb) as Hnb'. rewrite Hnext in Hnb'. cbn in Hnb'.
  destruct (available_next_spec av (nb_available _ _ _ _ Hnb)) as [_ Hs]. rewrite Hnext in Hs. cbn in Hs.
  destruct Hs as (Hg & Hr & Hrest). destruct Hnb' as [Hold Hnew Hinj Hav Hfresh].
  constructor; try done.
  - intros i d [[<- [=]]|[_ Hi]]%lookup_insert_Some. eauto.
  - intros i d [[<- [= <-]]|[_ Hi]]%lookup_insert_Some; [|eauto].
    split_and!; [done|by apply (nb_fresh _ _ _ _ Hnb)| |lia..]. intros [_ ?]%Hrest. done.
  - assert (Hdiff : ∀ i, m !! i = Some (docid, true) → False).
    { intros i Hi. apply (nb_new _ _ _ _ Hnb) in Hi as (_ & _ & Hng & _). done. }
    intros i1 i2 d [[<- [= <-]]|[_ H1]]%lookup_insert_Some [[<- Heq]|[_ H2]]%lookup_insert_Some.
    + done.
    + by destruct (Hdiff i2).
    + injection Heq as <-. by destruct (Hdiff i1).
    + eauto.
Qed.

Lemma numbered_old iv ids av m id docid :
  numbered iv ids av m → iv_external_ids iv !! id = Some docid → numbered iv ids av (<[id := (docid, false)]> m).
Proof.
  intros [Hold Hnew Hinj Hav Hfresh] Hext. constructor; try done.
  - intros i d [[<- [= <-]]|[_ Hi]]%lookup_insert_Some; eauto.
  - intros i d [[_ [=]]|[_ Hi]]%lookup_insert_Some. eauto.
  - intros i1 i2 d [[_ [=]]|[_ H1]]%lookup_insert_Some [[_ [=]]|[_ H2]]%lookup_insert_Some. eauto.
Qed.

(** The numbers known while a payload is read: those of the earlier payloads
    first. *)
Definition numbers (main new : gmap string PayloadOperations) : gmap string (Z * bool) :=
  (num <$> main) ∪ (num <$> new).

(** The payload numbers the documents of the earlier ones as they do. *)
Definition agrees (main new : gmap string PayloadOperations) : Prop :=
  ∀ id po po', main !! id = Some po → new !! id = Some po' → num po' = num po.

Lemma lookup_numbers main new id :
  numbers main new !! id = match main !! id with Some po => Some (num po) | None => num <$> new !! id end.
Proof. unfold numbers. rewrite lookup_union, !lookup_fmap. by destruct (main !! id), (new !! id). Qed.

Lemma put_entry_numbers main new id op docid is_new :
  match main !! id, new !! id with
  | None, None => numbers main (put_entry id op docid is_new new) = <[id := (docid, is_new)]> (numbers main new)
  | _, _ => numbers main (put_entry id op docid is_new new) = numbers main new
  end.
Proof.
  assert (Hl : ∀ i, numbers main (put_entry id op docid is_new new) !! i =
    if decide (i = id) then
      match main !! id, new !! id with
      | Some po, _ | None, Some po => Some (num po)
      | None, None => Some (docid, is_new)
      end
    else numbers main new !! i).
  { intros i. rewrite !lookup_numbers. unfold put_entry. case_decide as Hi.
    - subst. destruct (main !! id); [done|]. by destruct (new !! id); rewrite lookup_insert_eq.
    - destruct (new !! id); by rewrite lookup_insert_ne. }
  destruct (main !! id) as [po|] eqn:Hm, (new !! id) as [po'|] eqn:Hn; apply map_eq; intros i; rewrite Hl.
  1-3: case_decide; [subst; rewrite lookup_numbers, Hm, ?Hn; done|done].
  case_decide; [subst; by rewrite lookup_insert_eq|by rewrite lookup_insert_ne].
Qed.

Lemma put_entry_agrees main new id op docid is_new :
  agrees main new → (∀ po, main !! id = Some po → (docid, is_new) = num po) →
  agrees main (put_entry id op docid is_new new).
Proof.
  intros Ha Hn i po po' Hm. unfold put_entry. destruct (decide (i = id)) as [->|Hne].
  - destruct (new !! id) as [po1|] eqn:H1; rewrite lookup_insert_eq; intros [= <-]; [change (num po1 = num po); by apply (Ha id)|by apply Hn].
  - destruct (new !! id); rewrite lookup_insert_ne by done; by apply (Ha i).
Qed.

(** Adding one operation to a payload. *)
Record reading (iv : IndexView) (ids : bitmap) (main new : gmap string PayloadOperations)
    (ops : list (string * InnerDocOp)) (av : AvailableIds) : Prop := {
  rd_means : means new ops;
  rd_agrees : agrees main new;
  rd_numbered : numbered iv ids av (numbers main new);
}.

Lemma reading_put iv ids main new ops av av' id op docid is_new :
  reading iv ids main new ops av → op_ok op → (∀ po, main !! id = Some po → (docid, is_new) = num po) →
  (numbered iv ids av (numbers main new) → numbered iv ids av' (numbers main new)) →
  (main !! id = None → new !! id = None → numbered iv ids av' (<[id := (docid, is_new)]> (numbers main new))) →
  reading iv ids main (put_entry id op docid is_new new) (ops ++ [(id, op)]) av'.
Proof.
  intros [Hme Ha Hnb] Hop Hmain Hav Hnew. constructor.
  - by apply put_entry_means.
  - by apply put_entry_agrees.
  - pose proof (put_entry_numbers main new id op docid is_new) as Hput.
    destruct (main !! id), (new !! id); rewrite Hput; eauto.
Qed.

Lemma numbers_None main new id : main !! id = None → new !! id = None → numbers main new !! id = None.
Proof. intros Hm Hn. by rewrite lookup_numbers, Hm, Hn. Qed.

Lemma add_operation_reading iv ids main new ops av id op r av' :
  add_operation iv main id op new av = (r, av') → reading iv ids main new ops av → op_ok op →
  match r with
  | Some new' => reading iv ids main new' (ops ++ [(id, op)]) av'
  | None => numbered iv ids av' (numbers main new)
  end.
Proof.
  intros Hadd Hrd Hop. unfold add_operation in Hadd. pose proof (rd_numbered _ _ _ _ _ _ Hrd) as Hnb.
  destruct (main !! id) as [po|] eqn:Hm.
  { simplify_eq. eapply reading_put; try done; [rewrite Hm; by intros ? [= <-]|by rewrite Hm]. }
  destruct (iv_external_ids iv !! id) as [docid|] eqn:Hext.
  { simplify_eq. eapply reading_put; try done; [by rewrite Hm|]. intros _ _. by apply numbered_old. }
  destruct (new !! id) as [po|] eqn:Hn.
  { simplify_eq. pose proof (reading_put iv ids main new ops av' av' id op 0 true Hrd Hop) as Hput.
    unfold put_entry in Hput. rewrite Hn in Hput. apply Hput; [by rewrite Hm|done|done]. }
  destruct (available_next av) as [[docid|] av1] eqn:Hnext; simplify_eq.
  - pose proof (reading_put iv ids main new ops av av' id op docid true Hrd Hop) as Hput.
    unfold put_entry in Hput. rewrite Hn in Hput. apply Hput; [by rewrite Hm| |].
    + intros Hnb'. apply numbered_next in Hnb'. by rewrite Hnext in Hnb'.
    + intros _ _. eapply numbered_new; [exact Hnb|by apply numbers_None|done|done].
  - apply numbered_next in Hnb. by rewrite Hnext in Hnb.
Qed.

Lemma delete_operation_reading iv ids main new ops av id r av' :
  delete_operation iv main id new av = (r, av') → reading iv ids main new ops av →
  match r with
  | Some new' => reading iv ids main new' (ops ++ [(id, OpDeletion)]) av'
  | None => numbered iv ids av' (numbers main new)
  end.
Proof.
  intros Hadd Hrd. unfold delete_operation in Hadd. pose proof (rd_numbered _ _ _ _ _ _ Hrd) as Hnb.
  destruct (main !! id) as [po|] eqn:Hm.
  { simplify_eq. eapply reading_put; try done; [rewrite Hm; by intros ? [= <-]|by rewrite Hm]. }
  destruct (iv_external_ids iv !! id) as [docid|] eqn:Hext.
  { simplify_eq. eapply reading_put; try done; [by rewrite Hm|]. intros _ _. by apply numbered_old. }
  assert (Hn' : numbered iv ids (available_next av).2 (numbers main new)) by (by apply numbered_next).
  destruct (available_next av) as [[docid|] av1] eqn:Hnext; simplify_eq; [|done].
  eapply reading_put; [done|done|by rewrite Hm|done|].
  intros _ Hn. eapply numbered_new; [exact Hnb|by apply numbers_None|done|done].
Qed.

(** ** The operations of a payload *)

Fixpoint entries_docid (pk : string) (entries : list (string * json)) (docid : option string) : option string :=
  match entries with
  | [] => docid
  | (key, v) :: entries =>
      match match_component (match_str pk key).1 (match_str pk key).2 v docid with
      | inr docid => entries_docid pk entries docid
      | inl _ => None
      end
  end.

(** The id of a document, by the name of the primary key. *)
Definition docid_of (pk : string) (v : json) : option string :=
  match v with JObject entries => entries_docid pk entries None | _ => None end.

Lemma visit_entries_docid pk entries : ∀ fields limit err docid id,
  (visit_entries pk entries fields limit err docid).1 = inr (inr id) →
  limit = false ∧ err = None ∧ entries_docid pk entries docid = Some id.
Proof.
  induction entries as [|[key v] entries IH]; intros fields limit err docid id; cbn [visit_entries entries_docid].
  { cbn. destruct limit; [done|]. destruct err; [done|]. destruct docid; [|done]. by intros [= <-]. }
  destruct (match_str pk key) as [level rest]. destruct (fields_insert key fields) as [fid fields']. cbn [fst snd].
  destruct limit, err as [e|]; cbn [orb];
    rewrite ?bool_decide_eq_true_2, ?bool_decide_eq_false_2 by (by eauto || by intros []);
    try (intros (? & ? & _)%IH; done).
  destruct fid; [|intros (? & _)%IH; done]. destruct (match_component level rest v docid) as [e|docid'].
  - by intros (_ & ? & _)%IH.
  - by intros (_ & _ & ?)%IH.
Qed.

Lemma extract_docid pk v fields id :
  (extract_fields_and_docid pk v fields).1 = inr id →
  docid_of (PrimaryKey.name pk) v = Some id ∧ ∃ entries, v = JObject entries.
Proof.
  unfold extract_fields_and_docid, docid_of. destruct v as [| | | | | | |entries]; try done.
  destruct (visit_entries _ _ _ _ _ _) as [r fields'] eqn:Hv. cbn [fst].
  destruct r as [e|[e|id']]; [done|by destruct e|]. intros [= <-]. split; [|by eexists].
  apply (visit_entries_docid _ _ fields false None None id'). by rewrite Hv.
Qed.

Definition additions (pk : option PrimaryKey.t) (method : IndexDocumentsMethod.t) (values : list RawValue)
    : list (string * InnerDocOp) :=
  match pk with
  | Some pk => omap (λ v, (λ id, (id, operation_of method v)) <$> docid_of (PrimaryKey.name pk) (json_of v)) values
  | None => []
  end.

(** The operations of a payload, when the primary key is [pk]. *)
Definition payload_operations (pk : option PrimaryKey.t) (p : DocPayload) : list (string * InnerDocOp) :=
  match p with
  | PayloadReplace p => additions pk IndexDocumentsMethod.ReplaceDocuments (payload_values p).1
  | PayloadUpdate p => additions pk IndexDocumentsMethod.UpdateDocuments (payload_values p).1
  | PayloadDeletion ids => (λ id, (id, OpDeletion)) <$> ids
  end.

(** The primary key, once chosen, is kept. *)
Definition grows (st st' : Preparation) : Prop :=
  ∀ pk, pr_primary_key st = Some pk → pr_primary_key st' = Some pk.

#[local] Instance grows_preorder : PreOrder grows.
Proof. split; [by intros st pk|]. intros st1 st2 st3 H12 H23 pk Hpk. by apply H23, H12. Qed.

Lemma document_primary_key_spec iv from_op first v st r st' :
  document_primary_key iv from_op first v st = (r, st') →
  pr_available st' = pr_available st ∧ grows st st' ∧ ∀ pk, r = Ok pk → pr_primary_key st' = Some pk.
Proof.
  unfold document_primary_key. destruct first.
  - destruct (raw_map v); [|intros [= <- <-]; by split_and!].
    destruct (retrieve_or_guess_primary_key _ _ _ _) as [[e|pk] fields]; intros [= <- <-];
      [split_and!; [done|by intros ? ?|done]|].
    cbn. split_and!; [done| |by intros ? [= <-]]. intros pk' Hpk'. by rewrite Hpk'.
  - destruct (pr_primary_key st) as [pk|] eqn:Hpk; intros [= <- <-]; [|by split_and!]. split_and!; [done|done|].
    by intros ? [= <-].
Qed.

Context `{!JsonTextOk}.

(** Reading the documents of a payload. *)
Lemma addition_loop_spec iv ids from_op main method values : ∀ first new ops st r st',
  addition_loop iv from_op main method first values new st = (r, st') →
  reading iv ids main new ops (pr_available st) →
  grows st st' ∧ numbered iv ids (pr_available st') (num <$> main) ∧
  ∀ new', r = Ok new' → ∃ ops', reading iv ids main new' (ops ++ ops') (pr_available st') ∧
    ∀ st'', grows st' st'' → ops' = additions (pr_primary_key st'') method values.
Proof.
  assert (Hmain : ∀ new av, numbered iv ids av (numbers main new) → numbered iv ids av (num <$> main)).
  { intros new av Hnb. eapply numbered_subset; [exact Hnb|]. apply map_union_subseteq_l. }
  induction values as [|v values IH]; intros first new ops st r st' Hr Hrd; cbn [addition_loop] in Hr.
  { simplify_eq. split; [done|]. split; [eapply Hmain, rd_numbered, Hrd|]. intros ? [= <-]. exists [].
    rewrite app_nil_r. split; [done|]. intros st'' _. unfold additions. by destruct (pr_primary_key st''). }
  destruct (document_primary_key iv from_op first v st) as [rpk st1] eqn:Hpk.
  destruct (document_primary_key_spec _ _ _ _ _ _ _ Hpk) as (Hav & Hg1 & Hst1).
  assert (Hfail : ∀ st2, pr_available st2 = pr_available st → numbered iv ids (pr_available st2) (num <$> main)).
  { intros st2 ->. eapply Hmain, rd_numbered, Hrd. }
  destruct rpk as [pk|e|]; [|simplify_eq; by split_and!; [|apply Hfail|]..].
  specialize (Hst1 pk eq_refl).
  destruct (extract_fields_and_docid pk (json_of v) (pr_fields st1)) as [rid fields] eqn:Hid.
  destruct rid as [e|id]; [simplify_eq; split_and!; [done|by apply Hfail|done]|].
  destruct (extract_docid pk (json_of v) (pr_fields st1) id ltac:(by rewrite Hid)) as [Hdoc [entries Hobj]].
  cbn [pr_available pr_fields pr_primary_key] in Hr.
  destruct (add_operation iv main id (operation_of method v) new (pr_available st1)) as [radd av] eqn:Hadd.
  rewrite Hav in Hadd.
  assert (Hop : op_ok (operation_of method v)) by (pose proof (raw_map_object v entries Hobj); by destruct method).
  pose proof (add_operation_reading _ ids _ _ ops _ _ _ _ _ Hadd Hrd Hop) as Hrd'.
  destruct radd as [new'|]; [|simplify_eq; split_and!; [done|by eapply Hmain|done]].
  apply (IH false new' (ops ++ [(id, operation_of method v)])) in Hr as (Hg2 & Hnb & Hok); [|exact Hrd'].
  assert (Hg : grows st1 st') by exact Hg2.
  split; [by transitivity st1|]. split; [done|]. intros new'' Hn. destruct (Hok new'' Hn) as (ops' & Hrd'' & Hops).
  exists ((id, operation_of method v) :: ops'). split; [by rewrite <-app_assoc in Hrd''|].
  intros st'' Hg'. rewrite (Hops st'' Hg'). unfold additions. rewrite (Hg' pk (Hg pk Hst1)). cbn. by rewrite Hdoc.
Qed.

Lemma deletion_spec iv ids main to_delete : ∀ new ops st r st',
  extract_deletion_payload_changes iv main to_delete new st = (r, st') →
  reading iv ids main new ops (pr_available st) →
  grows st st' ∧ numbered iv ids (pr_available st') (num <$> main) ∧
  ∀ new', r = Ok new' → reading iv ids main new' (ops ++ ((λ id, (id, OpDeletion)) <$> to_delete)) (pr_available st').
Proof.
  assert (Hmain : ∀ new av, numbered iv ids av (numbers main new) → numbered iv ids av (num <$> main)).
  { intros new av Hnb. eapply numbered_subset; [exact Hnb|]. apply map_union_subseteq_l. }
  induction to_delete as [|id to_delete IH]; intros new ops st r st' Hr Hrd; cbn [extract_deletion_payload_changes] in Hr.
  { simplify_eq. split; [done|]. split; [eapply Hmain, rd_numbered, Hrd|]. intros ? [= <-]. by rewrite app_nil_r. }
  destruct (delete_operation iv main id new (pr_available st)) as [rdel av] eqn:Hdel.
  pose proof (delete_operation_reading _ ids _ _ ops _ _ _ _ Hdel Hrd) as Hrd'.
  destruct rdel as [new'|]; [|simplify_eq; split_and!; [by intros ? ?|by eapply Hmain|done]].
  apply (IH new' (ops ++ [(id, OpDeletion)])) in Hr as (Hg & Hnb & Hok); [|exact Hrd'].
  split_and!; [exact Hg|done|]. intros new'' Hn. specialize (Hok new'' Hn). by rewrite <-app_assoc in Hok.
Qed.

Lemma reading_start iv ids main av :
  numbered iv ids av (num <$> main) → reading iv ids main ∅ [] av.
Proof.
  intros Hnb. constructor; [apply means_empty|intros ? ? ? _; by rewrite lookup_empty|].
  unfold numbers. by rewrite fmap_empty, (right_id_L ∅ (∪)).
Qed.

(** Reading a payload: whatever happens the documents stay numbered, and if it
    succeeds the operations are those of the payload. *)
Lemma extract_payload_spec iv ids from_op main p st r st' :
  extract_payload iv from_op main p st = (r, st') → numbered iv ids (pr_available st) (num <$> main) →
  grows st st' ∧ numbered iv ids (pr_available st') (num <$> main) ∧
  ∀ new, r = Ok new → ∃ ops, reading iv ids main new ops (pr_available st') ∧
    ∀ st'', grows st' st'' → ops = payload_operations (pr_primary_key st'') p.
Proof.
  intros Hr Hnb. pose proof (reading_start _ _ _ _ Hnb) as Hrd.
  assert (Hadd : ∀ method p, extract_addition_payload_changes iv from_op main method p st = (r, st') →
    grows st st' ∧ numbered iv ids (pr_available st') (num <$> main) ∧
    ∀ new, r = Ok new → ∃ ops, reading iv ids main new ops (pr_available st') ∧
      ∀ st'', grows st' st'' → ops = additions (pr_primary_key st'') method (payload_values p).1).
  { clear Hr p. intros method p Hr. unfold extract_addition_payload_changes in Hr.
    destruct (payload_values p) as [values wf]. cbn [fst].
    destruct (addition_loop iv from_op main method true values ∅ st) as [r1 st1] eqn:Hloop.
    destruct (addition_loop_spec _ ids _ _ _ _ _ _ [] _ _ _ Hloop Hrd) as (Hg & Hnb1 & Hok).
    destruct r1 as [new|e|]; [|simplify_eq; by split_and!..].
    destruct wf; cbn [negb] in Hr; [|simplify_eq; by split_and!].
    destruct (Hok new eq_refl) as (ops & Hrd' & Hops). cbn [app] in Hrd'.
    destruct (payload_is_empty p).
    - destruct (retrieve_or_guess_primary_key _ _ _ _) as [rpk fields].
      assert (Hst : ∀ pk', pk' = pr_primary_key st1 ∨ (∃ pk, pk' = Some (default pk (pr_primary_key st1))) →
        grows st1 (mkPreparation (pr_available st1) fields pk')).
      { intros pk' [->|[pk ->]] x Hx; cbn; by rewrite Hx. }
      assert (Hgo : ∃ pk', st' = mkPreparation (pr_available st1) fields pk' ∧
        grows st1 (mkPreparation (pr_available st1) fields pk') ∧ ∀ new', r = Ok new' → new' = new).
      { destruct rpk as [e|pk]; [destruct e|]; simplify_eq; eexists;
          (split; [done|]); (split; [apply Hst; eauto|]); by intros ? [= <-]. }
      destruct Hgo as (pk' & -> & Hgrow & Hnew). split_and!; [by transitivity st1|done|].
      intros new' ->%Hnew. exists ops. split; [done|]. intros st'' Hg''. apply Hops. by etransitivity.
    - simplify_eq. split_and!; [done|done|]. intros ? [= <-]. by exists ops. }
  destruct p as [p|p|to_delete]; [by apply Hadd|by apply Hadd|]. cbn [extract_payload] in Hr.
  apply (deletion_spec _ ids _ _ _ [] _ _ _ Hr) in Hrd as (Hg & Hnb' & Hok). split_and!; [done|done|].
  intros new Hn. eexists. split; [by apply Hok|]. done.
Qed.

Lemma merge_numbers main new :
  agrees main new → num <$> merge_version_offsets main new = numbers main new.
Proof.
  intros Ha. apply map_eq. intros id. rewrite lookup_numbers, lookup_fmap. unfold merge_version_offsets.
  case_bool_decide as He; [subst; by rewrite lookup_empty|]. rewrite lookup_union_with.
  by destruct (main !! id), (new !! id).
Qed.

(** The operations of the payloads that were not refused. *)
Definition accepted (pk : option PrimaryKey.t) (operations : list DocPayload) (stats : list PayloadStats)
    : list (string * InnerDocOp) :=
  concat (zip_with (λ p s, match ps_error s with None => payload_operations pk p | Some _ => [] end) operations stats).

Lemma into_changes_loop_spec must_stop iv ids from_op operations : ∀ k main ops st stats main' st',
  into_changes_loop must_stop iv from_op k operations main st = Ok (stats, main', st') →
  means main ops → numbered iv ids (pr_available st) (num <$> main) →
  grows st st' ∧ numbered iv ids (pr_available st') (num <$> main') ∧ length stats = length operations ∧
  means main' (ops ++ accepted (pr_primary_key st') operations stats).
Proof.
  induction operations as [|p operations IH]; intros k main ops st stats main' st' Hr Hm Hnb; cbn [into_changes_loop] in Hr.
  { simplify_eq. split_and!; [done..|]. by rewrite app_nil_r. }
  destruct (must_stop k); [done|]. destruct (extract_payload iv from_op main p st) as [r1 st1] eqn:Hp.
  destruct (extract_payload_spec _ ids _ _ _ _ _ _ Hp Hnb) as (Hg1 & Hnb1 & Hok).
  destruct r1 as [new|e|]; [| |done].
  - apply bind_Ok in Hr as ([[stats1 main1] st2] & Hrest & Hr). simplify_eq.
    destruct (Hok new eq_refl) as (ops1 & Hrd & Hops).
    apply (IH _ _ (ops ++ ops1)) in Hrest as (Hg2 & Hnb2 & Hlen & Hmeans).
    + split_and!; [by transitivity st1|done|by cbn; rewrite Hlen|].
      rewrite (Hops _ Hg2), <-app_assoc in Hmeans. exact Hmeans.
    + apply merge_version_offsets_means; [done|apply Hrd].
    + rewrite merge_numbers by apply Hrd. apply Hrd.
  - destruct e as [e| | |]; [|done..]. apply bind_Ok in Hr as ([[stats1 main1] st2] & Hrest & Hr). simplify_eq.
    apply (IH _ _ ops) in Hrest as (Hg2 & Hnb2 & Hlen & Hmeans); [|done..].
    split_and!; [by transitivity st1|done|by cbn; rewrite Hlen|exact Hmeans].
Qed.
(** ** Payloads that are refused, batches that are not extracted *)

(** No number is left for a new document. *)
Definition no_number (st : Preparation) : Prop := ∀ x, ¬ gives (pr_available st) x.

(** Why the documents of a payload are refused, [st] being what has been prepared
    in the end: no number is left; the first document is not an object
    or no primary key is found from it; a document has no valid id. *)
Definition refused_values (iv : IndexView) (from_op : option string) (first : bool) (values : list RawValue)
    (st : Preparation) (e : DocUserError) : Prop :=
  (e = DocumentLimitReached ∧ no_number st) ∨
  (first = true ∧ ∃ v, head values = Some v ∧
     match raw_map v with
     | None => e = SerdeJson
     | Some document => ∃ fields,
         (retrieve_or_guess_primary_key (iv_primary_key iv) from_op (Some document) fields).1 = inl e
     end) ∨
  (∃ v pk fields, v ∈ values ∧ pr_primary_key st = Some pk ∧ (extract_fields_and_docid pk (json_of v) fields).1 = inl e).

(** Why a payload is refused; the primary key is looked for even without documents. *)
Definition refusal (iv : IndexView) (from_op : option string) (p : DocPayload) (st : Preparation)
    (e : DocUserError) : Prop :=
  match p with
  | PayloadReplace p | PayloadUpdate p =>
      refused_values iv from_op true (payload_values p).1 st e ∨
      payload_is_empty p = true ∧ e ≠ NoPrimaryKeyCandidateFound ∧
        ∃ fields, (retrieve_or_guess_primary_key (iv_primary_key iv) from_op None fields).1 = inl e
  | PayloadDeletion _ => e = DocumentLimitReached ∧ no_number st
  end.

(** The text of a payload is cut by a syntax error. *)
Definition payload_cut (p : DocPayload) : Prop :=
  match p with
  | PayloadReplace p | PayloadUpdate p => (payload_values p).2 = false
  | PayloadDeletion _ => False
  end.

(** What is prepared later: the primary key found is kept, the numbers given are
    not given again. *)
Record later (st st' : Preparation) : Prop := {
  lt_grows : grows st st';
  lt_wf : available_wf (pr_available st');
  lt_gives : ∀ x, gives (pr_available st') x → gives (pr_available st) x;
}.

#[local] Instance later_transitive : Transitive later.
Proof. intros st1 st2 st3 [Hg Hw Hi] [Hg' Hw' Hi']. constructor; [by transitivity st2|done|auto]. Qed.

Lemma later_same st st' : available_wf (pr_available st) → pr_available st' = pr_available st → grows st st' → later st st'.
Proof. intros Hw Ha Hg. constructor; [done|by rewrite Ha|by rewrite Ha]. Qed.

Lemma no_number_later st st' : no_number st → later st st' → no_number st'.
Proof. intros Hn Hl x Hx. by apply (Hn x), (lt_gives _ _ Hl). Qed.

(** What reading a payload returns. *)
Definition extracted {A} (why : Preparation → DocUserError → Prop) (cut : Prop) (st : Preparation)
    (r : outcome DocError A * Preparation) : Prop :=
  available_wf (pr_available st) → later st r.2 ∧
  match r.1 with
  | Ok _ => True
  | Err (UserError e) => ∀ st', later r.2 st' → why st' e
  | Err e => e = InternalSerdeJson ∧ cut
  | Panic => False
  end.

(** Taking a number for an operation. *)
Lemma taken_later st (r : option (gmap string PayloadOperations)) av fields :
  available_wf (pr_available st) →
  av = pr_available st ∧ is_Some r ∨
    av = (available_next (pr_available st)).2 ∧ (r = None → (available_next (pr_available st)).1 = None) →
  later st (mkPreparation av fields (pr_primary_key st)) ∧
  (r = None → no_number (mkPreparation av fields (pr_primary_key st))).
Proof.
  intros Hw [[-> [m ->]]|[-> Hr]]; [by split; [apply later_same; [| |intros ? ?]|]|].
  destruct (available_next_spec _ Hw) as [Hw' Hn]. split.
  - constructor; [by intros ? ?|done|]. intros x. cbn [pr_available].
    destruct (available_next (pr_available st)) as [[d|] av']; cbn [fst snd] in *; [|by destruct Hn as [_ ->]].
    destruct Hn as (_ & _ & Hn). by intros [? _]%Hn.
  - intros Hn1. rewrite (Hr Hn1) in Hn. destruct Hn as [Hn ->]. exact Hn.
Qed.

Lemma add_operation_taken iv main id op new av :
  let '(r, av') := add_operation iv main id op new av in
  av' = av ∧ is_Some r ∨ av' = (available_next av).2 ∧ (r = None → (available_next av).1 = None).
Proof.
  unfold add_operation. repeat case_match; simplify_eq; eauto; right; done.
Qed.

Lemma delete_operation_taken iv main id new av :
  let '(r, av') := delete_operation iv main id new av in
  av' = av ∧ is_Some r ∨ av' = (available_next av).2 ∧ (r = None → (available_next av).1 = None).
Proof.
  unfold delete_operation. repeat case_match; simplify_eq; eauto; right; done.
Qed.

Lemma document_primary_key_outcome iv from_op first v values st :
  first = true ∨ is_Some (pr_primary_key st) →
  extracted (refused_values iv from_op first (v :: values)) False st (document_primary_key iv from_op first v st).
Proof.
  intros Hfirst Hw. destruct (document_primary_key iv from_op first v st) as [r st1] eqn:Hr.
  destruct (document_primary_key_spec _ _ _ _ _ _ _ Hr) as (Ha & Hg & _). split; [by apply later_same|]. cbn [fst snd].
  unfold document_primary_key in Hr. destruct first.
  - destruct (raw_map v) as [document|] eqn:Hv.
    + destruct (retrieve_or_guess_primary_key _ _ _ _) as [[e|pk] fields] eqn:Hret; injection Hr as <- <-; [|done].
      intros st' _. right. left. split; [done|]. exists v. split; [done|]. rewrite Hv. exists (pr_fields st). by rewrite Hret.
    + injection Hr as <- <-. intros st' _. right. left. split; [done|]. exists v. by rewrite Hv.
  - destruct Hfirst as [|[pk Hpk]]; [done|]. rewrite Hpk in Hr. by injection Hr as <- <-.
Qed.

Lemma addition_loop_outcome iv from_op main method values : ∀ first new st,
  first = true ∨ is_Some (pr_primary_key st) →
  extracted (refused_values iv from_op first values) False st (addition_loop iv from_op main method first values new st).
Proof.
  induction values as [|v values IH]; intros first new st Hfirst Hw; cbn [addition_loop]; [by split; [apply later_same|]|].
  destruct (document_primary_key_outcome iv from_op first v values st Hfirst Hw) as [Hg Hr].
  destruct (document_primary_key iv from_op first v st) as [rpk st1] eqn:Hpk. cbn [fst snd] in Hg, Hr.
  destruct (document_primary_key_spec _ _ _ _ _ _ _ Hpk) as (_ & _ & Hst1).
  destruct rpk as [pk|e|]; [|by split..]. specialize (Hst1 pk eq_refl).
  destruct (extract_fields_and_docid pk (json_of v) (pr_fields st1)) as [[e|id] fields] eqn:Hid.
  { split; [transitivity st1; [done|apply later_same; [apply Hg|done|by intros ? ?]]|]. intros st' Hg'. right. right.
    exists v, pk, (pr_fields st1). split; [by left|]. split; [by apply (lt_grows _ _ Hg')|by rewrite Hid]. }
  cbn [pr_available pr_fields pr_primary_key].
  pose proof (add_operation_taken iv main id (operation_of method v) new (pr_available st1)) as Htaken.
  destruct (add_operation iv main id _ new _) as [new' av].
  destruct (taken_later st1 new' av fields (lt_wf _ _ Hg) Htaken) as [Hg1 Hnone].
  assert (Hg' : later st (mkPreparation av fields (pr_primary_key st1))) by (by transitivity st1).
  destruct new' as [new'|]; [|split; [done|]; intros st' Hl; left; split; [done|]; by eapply no_number_later; [apply Hnone|]].
  destruct (IH false new' (mkPreparation av fields (pr_primary_key st1)) (or_intror (mk_is_Some _ _ Hst1)) (lt_wf _ _ Hg1)) as [Hg2 Hr2].
  split; [by etransitivity|].
  destruct (addition_loop _ _ _ _ _ _ _ _).1 as [|[e| | |]|]; [done| |done..].
  intros st' Hl. destruct (Hr2 st' Hl) as [?|[[? _]|(w & pk' & f & Hw' & ?)]]; [by left|done|].
  right. right. exists w, pk', f. split; [by right|done].
Qed.

Lemma addition_outcome iv from_op main method p st :
  extracted (refusal iv from_op (PayloadReplace p)) (payload_cut (PayloadReplace p)) st
    (extract_addition_payload_changes iv from_op main method p st).
Proof.
  intros Hw. unfold extract_addition_payload_changes. cbn [refusal payload_cut]. destruct (payload_values p) as [values wf].
  destruct (addition_loop_outcome iv from_op main method values true ∅ st (or_introl eq_refl) Hw) as [Hg Hr].
  destruct (addition_loop _ _ _ _ _ _ _ _) as [[new|e|] st1]; cbn [fst snd] in *; [|split; [done|]|done].
  - destruct wf; cbn [negb]; [|done]. destruct (payload_is_empty p); [|done].
    destruct (retrieve_or_guess_primary_key _ _ _ _) as [[e|pk] fields] eqn:Hret.
    + assert (Hg1 : later st (mkPreparation (pr_available st1) fields (pr_primary_key st1)))
        by (transitivity st1; [done|apply later_same; [apply Hg|done|by intros ? ?]]).
      destruct e; (split; [exact Hg1|]); try done; intros st' _; right;
        (split; [done|]); (split; [done|]); exists (pr_fields st1); by rewrite Hret.
    + split; [|done]. transitivity st1; [done|]. apply later_same; [apply Hg|done|]. intros x Hx. cbn. by rewrite Hx.
  - destruct e; [intros st' Hg'; left; by apply Hr|by destruct Hr..].
Qed.

Lemma deletion_outcome iv main to_delete cut : ∀ new st,
  extracted (λ st' e, e = DocumentLimitReached ∧ no_number st') cut st (extract_deletion_payload_changes iv main to_delete new st).
Proof.
  induction to_delete as [|id to_delete IH]; intros new st Hw; cbn [extract_deletion_payload_changes]; [by split; [apply later_same|]|].
  pose proof (delete_operation_taken iv main id new (pr_available st)) as Htaken.
  destruct (delete_operation iv main id new (pr_available st)) as [new' av].
  destruct (taken_later st new' av (pr_fields st) Hw Htaken) as [Hg Hnone]. destruct new' as [new'|].
  - destruct (IH new' (mkPreparation av (pr_fields st) (pr_primary_key st)) (lt_wf _ _ Hg)) as [Hg2 Hr]. split; [by etransitivity|done].
  - split; [done|]. intros st' Hl. split; [done|]. by eapply no_number_later; [apply Hnone|].
Qed.

Lemma extract_payload_outcome iv from_op main p st :
  extracted (refusal iv from_op p) (payload_cut p) st (extract_payload iv from_op main p st).
Proof. destruct p; [apply addition_outcome..|apply deletion_outcome]. Qed.

(** What is told of the payloads: one line each, and why it is refused if it is. *)
Definition told (iv : IndexView) (from_op : option string) (st : Preparation) : list DocPayload → list PayloadStats → Prop :=
  Forall2 (λ p s, ∀ e, ps_error s = Some e → refusal iv from_op p st e).

(** Why the operations of a batch are not extracted: it was asked to stop, or a
    payload is cut. *)
Definition not_extracted (must_stop : nat → bool) (k : nat) (operations : list DocPayload) (e : DocError) : Prop :=
  e = AbortedIndexation ∧ (∃ i, k ≤ i < k + length operations ∧ must_stop i = true)%nat ∨
  e = InternalSerdeJson ∧ Exists payload_cut operations.

Lemma not_extracted_cons must_stop k p operations e :
  not_extracted must_stop (S k) operations e → not_extracted must_stop k (p :: operations) e.
Proof.
  intros [[-> (i & Hi & Hs)]|[-> Hc]]; [left|right]; (split; [done|]); [|by right].
  exists i. cbn [length]. split; [lia|done].
Qed.

Lemma into_changes_loop_outcome must_stop iv from_op operations : ∀ k main st,
  available_wf (pr_available st) →
  match into_changes_loop must_stop iv from_op k operations main st with
  | Ok (stats, _, st') => later st st' ∧ told iv from_op st' operations stats
  | Err e => not_extracted must_stop k operations e
  | Panic => False
  end.
Proof.
  induction operations as [|p operations IH]; intros k main st Hw; cbn [into_changes_loop];
    [by split; [apply later_same|constructor]|].
  destruct (must_stop k) eqn:Hs; [left; split; [done|]; exists k; cbn [length]; split; [lia|done]|].
  destruct (extract_payload_outcome iv from_op main p st Hw) as [Hg Hr].
  destruct (extract_payload iv from_op main p st) as [[new|e|] st1]; cbn [fst snd] in *; [| |done].
  - specialize (IH (S k) (merge_version_offsets main new) st1 (lt_wf _ _ Hg)).
    destruct (into_changes_loop _ _ _ _ _ _ _) as [[[stats main'] st2]|e|]; cbn [mbind outcome_bind]; [|by apply not_extracted_cons|done].
    destruct IH as [Hg2 Ht]. split; [by etransitivity|]. by constructor.
  - destruct e as [e| | |]; [|destruct Hr as [He Hc]; (done || by right; split; [|left])..].
    specialize (IH (S k) main st1 (lt_wf _ _ Hg)).
    destruct (into_changes_loop _ _ _ _ _ _ _) as [[[stats main'] st2]|e'|]; cbn [mbind outcome_bind]; [|by apply not_extracted_cons|done].
    destruct IH as [Hg2 Ht]. split; [by etransitivity|]. constructor; [|done]. intros e' [= <-]. by apply Hr.
Qed.
End grouping.

(** ** The map of the fields only grows *)

Section fields_grow.
Context `{JsonText}.

Notation "m ⊑f m'" := (names_ids m ⊆ names_ids m') (at level 70).

Lemma fields_insert_grows name fields : fields ⊑f (fields_insert name fields).2.
Proof.
  unfold fields_insert. destruct (names_ids fields !! name) eqn:Hn; [done|].
  destruct (next_id fields); [by apply insert_subseteq|done].
Qed.

Lemma new_or_insert_grows path fields : fields ⊑f (new_or_insert path fields).2.
Proof.
  unfold new_or_insert. destruct (contains_dot path); [done|]. pose proof (fields_insert_grows path fields) as Hg.
  by destruct (fields_insert path fields) as [[id|] fields'].
Qed.

Lemma visit_entries_grows pk entries : ∀ fields limit err docid,
  fields ⊑f (visit_entries pk entries fields limit err docid).2.
Proof.
  induction entries as [|[key v] entries IH]; intros fields limit err docid; [done|]. cbn [visit_entries].
  destruct (match_str pk key) as [level rest]. pose proof (fields_insert_grows key fields) as Hg.
  destruct (fields_insert key fields) as [fid fields']. etransitivity; [exact Hg|].
  destruct (limit || _); [apply IH|]. destruct fid; [|apply IH]. destruct (match_component level rest v docid); apply IH.
Qed.

Lemma guess_names_grows names : ∀ fields, fields ⊑f (guess_names names fields).2.
Proof.
  induction names as [|name names IH]; intros fields; [done|]. cbn [guess_names].
  pose proof (fields_insert_grows name fields) as Hg. destruct (fields_insert name fields) as [[id|] fields']; [|done].
  etransitivity; [exact Hg|]. pose proof (IH fields') as Hg'. by destruct (guess_names names fields') as [[e|l] f].
Qed.

Lemma retrieve_grows db_pk from_op document fields :
  fields ⊑f (retrieve_or_guess_primary_key db_pk from_op document fields).2.
Proof.
  unfold retrieve_or_guess_primary_key. destruct db_pk as [d|].
  { destruct from_op; [case_bool_decide|]; [apply new_or_insert_grows|done|apply new_or_insert_grows]. }
  destruct from_op; [apply new_or_insert_grows|]. destruct document as [document|]; [|done].
  pose proof (guess_names_grows (fst <$> document) fields) as Hg.
  destruct (guess_names (fst <$> document) fields) as [[e|guesses] fields']; [done|].
  destruct (merge_sort String.le guesses) as [|name [|? ?]]; [done| |done].
  etransitivity; [exact Hg|apply new_or_insert_grows].
Qed.

Lemma document_primary_key_grows iv from_op first v st :
  pr_fields st ⊑f pr_fields (document_primary_key iv from_op first v st).2.
Proof.
  unfold document_primary_key. destruct first; [|by destruct (pr_primary_key st)]. destruct (raw_map v) as [document|]; [|done].
  pose proof (retrieve_grows (iv_primary_key iv) from_op (Some document) (pr_fields st)) as Hg.
  by destruct (retrieve_or_guess_primary_key _ _ _ _) as [[e|pk] fields].
Qed.

Lemma addition_loop_grows iv from_op main method values : ∀ first new st,
  pr_fields st ⊑f pr_fields (addition_loop iv from_op main method first values new st).2.
Proof.
  induction values as [|v values IH]; intros first new st; [done|]. cbn [addition_loop].
  pose proof (document_primary_key_grows iv from_op first v st) as Hg.
  destruct (document_primary_key iv from_op first v st) as [[pk|e|] st1]; [|done..]. etransitivity; [exact Hg|]. cbn [snd].
  assert (Hx : pr_fields st1 ⊑f (extract_fields_and_docid pk (json_of v) (pr_fields st1)).2).
  { unfold extract_fields_and_docid. destruct (json_of v); try done.
    pose proof (visit_entries_grows (PrimaryKey.name pk) entries (pr_fields st1) false None None).
    by destruct (visit_entries _ _ _ _ _ _). }
  destruct (extract_fields_and_docid pk (json_of v) (pr_fields st1)) as [[e|id] fields]; [done|].
  etransitivity; [exact Hx|]. cbn [pr_available pr_fields pr_primary_key snd].
  destruct (add_operation iv main id (operation_of method v) new (pr_available st1)) as [[new'|] av]; [|done].
  etransitivity; [|apply IH]. done.
Qed.

Lemma deletion_grows iv main to_delete : ∀ new st,
  pr_fields st ⊑f pr_fields (extract_deletion_payload_changes iv main to_delete new st).2.
Proof.
  induction to_delete as [|id to_delete IH]; intros new st; [done|]. cbn [extract_deletion_payload_changes].
  destruct (delete_operation iv main id new (pr_available st)) as [[new'|] av]; [|done]. etransitivity; [|apply IH]. done.
Qed.

Lemma extract_payload_grows iv from_op main p st : pr_fields st ⊑f pr_fields (extract_payload iv from_op main p st).2.
Proof.
  assert (Hadd : ∀ method p, pr_fields st ⊑f pr_fields (extract_addition_payload_changes iv from_op main method p st).2).
  { clear p. intros method p. unfold extract_addition_payload_changes. destruct (payload_values p) as [values wf].
    pose proof (addition_loop_grows iv from_op main method values true ∅ st) as Hg.
    destruct (addition_loop iv from_op main method true values ∅ st) as [[new|e|] st1]; [|done..].
    destruct wf; [|done]. cbn [negb]. destruct (payload_is_empty p); [|done]. etransitivity; [exact Hg|]. cbn [snd].
    pose proof (retrieve_grows (iv_primary_key iv) from_op None (pr_fields st1)) as Hr.
    by destruct (retrieve_or_guess_primary_key _ _ _ _) as [[[]|pk] fields]. }
  destruct p; [apply Hadd|apply Hadd|apply deletion_grows].
Qed.

Lemma into_changes_loop_grows must_stop iv from_op operations : ∀ k main st stats main' st',
  into_changes_loop must_stop iv from_op k operations main st = Ok (stats, main', st') →
  pr_fields st ⊑f pr_fields st'.
Proof.
  induction operations as [|p operations IH]; intros k main st stats main' st' Hr; cbn [into_changes_loop] in Hr;
    [by simplify_eq|].
  destruct (must_stop k); [done|]. pose proof (extract_payload_grows iv from_op main p st) as Hg.
  destruct (extract_payload iv from_op main p st) as [[new|[e| | |]|] st1]; try done;
    apply bind_Ok in Hr as ([[stats1 main1] st2] & Hrest & Hr); simplify_eq; (etransitivity; [exact Hg|]); by eapply IH.
Qed.
End fields_grow.

(** ** Counting the documents that have a field *)

Section counting.
Context `{JsonText}.

Definition has (f : string) (d : option Document) : Z :=
  match d with Some d => if decide (f ∈ dom (visible d)) then 1 else 0 | None => 0 end.

Definition count (f : string) (docs : gmap Z Document) : Z :=
  Z.of_nat (size (filter (λ e : Z * Document, f ∈ dom (visible e.2)) docs)).

Lemma count_delete f docs k : count f (delete k docs) = count f docs - has f (docs !! k).
Proof.
  unfold count, has. rewrite map_filter_delete. destruct (docs !! k) as [d|] eqn:Hk.
  - case_decide as Hf.
    + assert (Hin : filter (λ e : Z * Document, f ∈ dom (visible e.2)) docs !! k = Some d)
        by (by apply map_lookup_filter_Some).
      rewrite map_size_delete_Some by eauto.
      assert (size (filter (λ e : Z * Document, f ∈ dom (visible e.2)) docs) ≠ 0%nat).
      { intros Hz%map_size_empty_inv. by rewrite Hz, lookup_empty in Hin. } lia.
    + rewrite delete_id; [lia|]. apply map_lookup_filter_None. right. intros d' Hd'. rewrite Hk in Hd'. by simplify_eq.
  - rewrite delete_id; [lia|]. apply map_lookup_filter_None. by left.
Qed.

Lemma count_insert f docs k d : count f (<[k := d]> docs) = count f docs - has f (docs !! k) + has f (Some d).
Proof.
  rewrite <-insert_delete_eq, <-count_delete. unfold count, has. cbn.
  assert (Hnone : filter (λ e : Z * Document, f ∈ dom (visible e.2)) (delete k docs) !! k = None)
    by (apply map_lookup_filter_None; left; apply lookup_delete_eq).
  case_decide as Hf.
  - rewrite map_filter_insert_True by done. rewrite map_size_insert_None by done. lia.
  - rewrite map_filter_insert_False, delete_delete_eq by done. lia.
Qed.

Lemma count_alter f docs k (d : option Document) :
  count f (partial_alter (λ _, d) k docs) = count f docs - has f (docs !! k) + has f d.
Proof. destruct d as [d|]; [apply count_insert|]. rewrite Z.add_0_r. apply count_delete. Qed.

Lemma count_fields_get sign d delta f :
  default 0 (count_fields sign d delta !! f) =
    default 0 (delta !! f) + (if decide (f ∈ dom (visible d)) then sign else 0).
Proof.
  unfold count_fields. rewrite <-(decide_ext _ _ _ _ (elem_of_elements (dom (visible d)) f)).
  pose proof (NoDup_elements (dom (visible d))) as Hnd. revert delta.
  induction Hnd as [|x l Hx _ IH]; intros delta; [cbn; rewrite decide_False by set_solver; lia|].
  cbn [foldl]. rewrite IH. destruct (decide (x = f)) as [->|Hne].
  - rewrite lookup_insert_eq, decide_False, (decide_True (P := f ∈ f :: l)) by set_solver. cbn. lia.
  - rewrite lookup_insert_ne by done. destruct (decide (f ∈ l)) as [Hin|Hin];
      [rewrite decide_True by set_solver|rewrite decide_False by set_solver]; lia.
Qed.

Lemma visible_write d v : visible (obkv_content d v) = visible d.
Proof.
  destruct v; [|apply visible_visible]. cbn [obkv_content]. unfold visible at 1.
  rewrite delete_insert_eq. apply visible_visible.
Qed.

Lemma visible_merged new c scratch : visible (merged new c scratch) = merged new c scratch.
Proof. unfold merged. destruct scratch; rewrite ?visible_union, !visible_visible; done. Qed.

(** The number of documents is bounded by that of the numbers. *)
Lemma count_bound f docs :
  (∀ d, is_Some (docs !! d) → 0 ≤ d ≤ u32_max) → 0 ≤ count f docs ≤ u64_max.
Proof.
  intros Hu. unfold count. split; [lia|].
  assert (Hsize : Z.of_nat (size docs) ≤ u32_max + 1).
  { rewrite <-size_dom. assert (Hsub : dom docs ⊆ list_to_set (seqZ 0 (u32_max + 1))).
    { intros d Hd%elem_of_dom%Hu. apply elem_of_list_to_set, elem_of_seqZ. lia. }
    apply subseteq_size in Hsub. rewrite size_list_to_set in Hsub by apply NoDup_seqZ.
    rewrite length_seqZ in Hsub. unfold u32_max in *. lia. }
  pose proof (map_size_filter (λ e : Z * Document, f ∈ dom (visible e.2)) docs). unfold u32_max, u64_max in *. lia.
Qed.
End counting.

(** ** Writing the documents of the batch *)

(** The map of the fields after insertions of names in [P]. *)
Definition insertion (P : string → Prop) (fields fields' : FieldsIdsMap) : Prop :=
  ∃ name id, P name ∧ fields_insert name fields = (Some id, fields').
Definition grows_by (P : string → Prop) : relation FieldsIdsMap := rtc (insertion P).

(** Once names in [P] are inserted, no id is left for another one. *)
Definition runs_out (P : string → Prop) (fields : FieldsIdsMap) : Prop :=
  ∃ fields' name, grows_by P fields fields' ∧ P name ∧ (fields_insert name fields').1 = None.

Lemma insertion_subseteq P fields fields' : insertion P fields fields' → names_ids fields ⊆ names_ids fields'.
Proof.
  intros (name & id & _ & Hi). unfold fields_insert in Hi. destruct (names_ids fields !! name) eqn:Hl; [by simplify_eq|].
  destruct (next_id fields); simplify_eq. cbn. by apply insert_subseteq.
Qed.

Lemma grows_by_subseteq P fields fields' : grows_by P fields fields' → names_ids fields ⊆ names_ids fields'.
Proof. induction 1 as [|x y z Hs _ IH]; [done|]. etransitivity; [by eapply insertion_subseteq|done]. Qed.

Lemma grows_by_mono (P Q : string → Prop) fields fields' :
  (∀ name, P name → Q name) → grows_by P fields fields' → grows_by Q fields fields'.
Proof.
  intros HPQ. induction 1 as [|x y z (name & id & HP & Hi) _ IH]; [apply rtc_refl|]. eapply rtc_l; [|exact IH].
  exists name, id. auto.
Qed.

(** Every field of every document has an id. *)
Definition fields_known `{JsonText} (db : Documents) (fields : FieldsIdsMap) : Prop :=
  ∀ d doc name, documents db !! d = Some doc → is_Some (doc !! name) → is_Some (names_ids fields !! name).

Lemma fields_known_mono `{JsonText} db fields fields' :
  names_ids fields ⊆ names_ids fields' → fields_known db fields → fields_known db fields'.
Proof. intros Hs Hk d doc name Hd Hn. destruct (Hk d doc name Hd Hn) as [i Hi]. exists i. by eapply lookup_weaken. Qed.

(** A step of the writing: it fails because the ids of the fields run out, fails as
    [bad] tells, or goes on with more fields. *)
Definition writes {A} (bad : option DocError → Prop) (P : string → Prop) (fields : FieldsIdsMap)
    (r : outcome DocError A) (Q : A → Prop) (k : A → FieldsIdsMap) : Prop :=
  (r = Err (UserError AttributeLimitReached) ∧ runs_out P fields) ∨ (∃ b, bad b ∧ fails r b) ∨
  ∃ a, r = Ok a ∧ grows_by P fields (k a) ∧ Q a.

Lemma writes_bind {A B} bad P fields (m : outcome DocError A) (g : A → outcome DocError B) (Q : A → Prop) (R : B → Prop) k l :
  writes bad P fields m Q k → (∀ a, Q a → writes bad P (k a) (g a) R l) → writes bad P fields (mbind g m) R l.
Proof.
  intros [[-> ?]|[(b & Hb & Hf)|(a & -> & Hg & Ha)]] Hm; [by left|right; left; exists b; split; [done|]|].
  { unfold fails in *. rewrite Hf. by destruct b. }
  cbn [mbind outcome_bind]. destruct (Hm a Ha) as [[-> (f & name & Hf & Hn)]|[?|(c & -> & Hc & HR)]].
  - left. split; [done|]. exists f, name. split; [by etransitivity|done].
  - by right; left.
  - right. right. exists c. split; [done|]. split; [by etransitivity|done].
Qed.

Lemma writes_mono {A} (bad bad' : option DocError → Prop) (P P' : string → Prop) fields (r : outcome DocError A) (Q Q' : A → Prop) k :
  writes bad P fields r Q k → (∀ b, bad b → bad' b) → (∀ name, P name → P' name) → (∀ a, Q a → Q' a) →
  writes bad' P' fields r Q' k.
Proof.
  intros [[-> (f & name & Hf & Hn)]|[(b & ? & ?)|(a & -> & Hg & Ha)]] Hb HP HQ.
  - left. split; [done|]. exists f, name. split; [by eapply grows_by_mono|]. destruct Hn. auto.
  - right. left. eauto.
  - right. right. exists a. split; [done|]. split; [by eapply grows_by_mono|]. auto.
Qed.

(** What [Q] says of the result can use that the fields only grow. *)
Lemma writes_grows {A} bad P fields (r : outcome DocError A) (Q Q' : A → Prop) k :
  writes bad P fields r Q k → (∀ a, names_ids fields ⊆ names_ids (k a) → Q a → Q' a) → writes bad P fields r Q' k.
Proof.
  intros [?|[?|(a & -> & Hg & Ha)]] HQ; [by left|by right; left|]. right. right. exists a. split; [done|]. split; [done|].
  apply HQ; [by eapply grows_by_subseteq|done].
Qed.

Lemma writes_ret {A} bad P fields (a : A) (Q : A → Prop) k : k a = fields → Q a → writes bad P fields (Ok a) Q k.
Proof. intros <- ?. right. right. exists a. split; [done|]. split; [apply rtc_refl|done]. Qed.

Lemma id_or_insert_writes bad (P : string → Prop) fields name :
  P name → writes bad P fields (id_or_insert fields name) (λ fields', is_Some (names_ids fields' !! name)) id.
Proof.
  intros HP. unfold id_or_insert. destruct (fields_insert name fields) as [[i|] fields'] eqn:Hi.
  - right. right. exists fields'. split; [done|]. split; [apply rtc_once; by exists name, i|].
    unfold fields_insert in Hi. destruct (names_ids fields !! name) eqn:Hl; [by simplify_eq; rewrite Hl|].
    destruct (next_id fields); simplify_eq. cbn. by rewrite lookup_insert_eq.
  - left. split; [done|]. exists fields, name. split; [apply rtc_refl|]. by rewrite Hi.
Qed.

Lemma ids_or_insert_writes bad (P : string → Prop) names : ∀ fields,
  (∀ name, name ∈ names → P name) →
  writes bad P fields (for_each id_or_insert fields names)
    (λ fields', ∀ name, name ∈ names → is_Some (names_ids fields' !! name)) id.
Proof.
  induction names as [|name names IH]; intros fields HP; cbn [for_each].
  { apply writes_ret; [done|]. set_solver. }
  eapply writes_bind; [apply id_or_insert_writes, HP; by left|]. intros f1 Hn. cbn [id] in *.
  eapply writes_grows; [apply IH; intros; apply HP; by right|]. cbn [id]. intros f2 Hs Hns n [->|?]%elem_of_cons; [|by apply Hns].
  destruct Hn as [i Hi]. exists i. by eapply lookup_weaken.
Qed.

Section writing.
Context `{VectorTextOk}.
Variable env : VectorEnv.
Variable old : Documents.

(** The documents of an index: each has one number and one external id. *)
Record db_wf (db : Documents) : Prop := {
  dw_inj : ∀ id1 id2 d, external_ids db !! id1 = Some d → external_ids db !! id2 = Some d → id1 = id2;
  dw_docs : ∀ d, is_Some (documents db !! d) ↔ ∃ id, external_ids db !! id = Some d;
  dw_u32 : ∀ d, is_Some (documents db !! d) → 0 ≤ d ≤ u32_max;
}.

(** The operations of a document of the index, or of a new one. *)
Record item_ok (item : string * PayloadOperations) : Prop := {
  it_ops : po_operations item.2 ≠ [];
  it_ok : Forall op_ok (po_operations item.2);
  it_old : po_is_new item.2 = false → external_ids old !! item.1 = Some (po_docid item.2);
  it_new : po_is_new item.2 = true → external_ids old !! item.1 = None ∧ documents old !! po_docid item.2 = None;
  it_u32 : 0 ≤ po_docid item.2 ≤ u32_max;
}.

(** The document once the batch is over. *)
Definition final (item : string * PayloadOperations) : option Document :=
  foldl step_doc (visible <$> documents old !! po_docid item.2) (po_operations item.2).

(** The state of the item in [db] is still that of the old index. *)
Definition untouched (db : Documents) (item : string * PayloadOperations) : Prop :=
  documents db !! po_docid item.2 = documents old !! po_docid item.2 ∧
  external_ids db !! item.1 = external_ids old !! item.1.

(** The vectors of every document can be read. *)
Definition vectors_kept (db : Documents) : Prop := ∀ d doc, documents db !! d = Some doc → vectors_stored doc.

(** The names that get an id when the item is written. *)
Definition reserved (name : string) : Prop :=
  name ∈ [RESERVED_VECTORS_FIELD_NAME; RESERVED_GEO_FIELD_NAME; "_geo.lat"; "_geo.lng"]%string.
Definition wanted (item : string * PayloadOperations) (name : string) : Prop :=
  reserved name ∨ ∃ d, final item = Some d ∧ is_Some (d !! name).

(** The new fields of a change, and why its vectors cannot be written. *)
Definition change_new (change : DocumentChange) : option Document :=
  match change with
  | ChangeUpdate _ _ new _ | ChangeInsertion _ _ new => Some new
  | ChangeDeletion _ _ => None
  end.
Definition vectors_failure (item : string * PayloadOperations) (b : option DocError) : Prop :=
  ∃ change new, merge item.1 item.2 = Ok (Some change) ∧ change_new change = Some new ∧ bad_vectors env item.1 new b.

Hypothesis old_wf : db_wf old.
Hypothesis old_vectors : vectors_kept old.
Hypothesis configs_ok : env_ok env.

Ltac no_new_docid :=
  let d := fresh "d" in let H1 := fresh in let H2 := fresh in
  intros d; split; [by left|]; intros [?|(-> & H1 & H2)]; [done|];
  exfalso; first [discriminate|congruence|by destruct H1; congruence|by destruct H2; congruence].

Ltac one_new_docid :=
  let d := fresh "d" in
  intros d; rewrite elem_of_union, elem_of_singleton; split;
  [intros [->|?]; [right; split_and!; eauto|by left]|intros [?|(-> & _)]; [by right|by left]].

Lemma write_to_obkv_writes bad d o fields :
  Forall (good_step bad) (default [] o) →
  writes bad (λ name, reserved name ∨ is_Some (visible d !! name)) fields (write_to_obkv d o fields)
    (λ r, visible r.1 = visible d ∧ vectors_stored r.1 ∧
       ∀ name, is_Some (r.1 !! name) → is_Some (names_ids r.2 !! name)) snd.
Proof.
  intros Ho. unfold write_to_obkv.
  eapply writes_bind; [apply ids_or_insert_writes|].
  { intros name [x Hx%lookup_delete_Some]%elem_of_elements%elem_of_dom. right. exists x. apply Hx. }
  intros f1 Hn1. cbn [id] in *.
  destruct (inject_vectors_spec bad _ ∅ Ho) as [(b & Hb & Hf)|(m & -> & Hm)]; [intros ? ?; by rewrite lookup_empty| |].
  { right. left. exists b. split; [done|]. unfold fails in *. rewrite Hf. by destruct b. }
  cbn [mbind outcome_bind]. pose proof (written_vectors_stored d m Hm) as Hst. cbv zeta.
  set (v := if bool_decide (m = ∅) then None else _) in *.
  set (Q2 := λ f2 : FieldsIdsMap, names_ids f1 ⊆ names_ids f2 ∧ (is_Some v → is_Some (names_ids f2 !! RESERVED_VECTORS_FIELD_NAME))).
  apply (writes_bind _ _ _ _ _ Q2 _ id).
  { destruct v as [v|]; [|apply writes_ret; [done|]; split; [done|by intros []]].
    eapply writes_grows; [apply id_or_insert_writes; left; by left|]. intros f2 Hs Hn. by split. }
  intros f2 [Hs2 Hn2]. cbn [id].
  set (Q3 := λ f3 : FieldsIdsMap, names_ids f2 ⊆ names_ids f3 ∧
    (is_Some (d !! RESERVED_GEO_FIELD_NAME) → is_Some (names_ids f3 !! RESERVED_GEO_FIELD_NAME))).
  apply (writes_bind _ _ _ _ _ Q3 _ id).
  { destruct (d !! RESERVED_GEO_FIELD_NAME) as [g|]; [|apply writes_ret; [done|]; split; [done|by intros []]].
    eapply writes_grows; [apply ids_or_insert_writes; intros name Hname; left; by right|].
    intros f3 Hs Hn. split; [done|]. intros _. apply Hn. by left. }
  intros f3 [Hs3 Hn3]. cbn [id]. apply writes_ret; [done|]. cbn [fst snd].
  split; [apply visible_write|]. split; [done|]. intros name Hname.
  destruct (decide (name = RESERVED_GEO_FIELD_NAME)) as [->|Hgeo].
  { apply Hn3. unfold obkv_content, visible in Hname. destruct v;
      [rewrite lookup_insert_ne in Hname by done|]; by rewrite lookup_delete_ne in Hname. }
  destruct (decide (name = RESERVED_VECTORS_FIELD_NAME)) as [->|Hvec].
  { destruct Hn2 as [i Hi]; [|exists i; by eapply lookup_weaken].
    destruct v; [done|]. cbn in Hname. unfold visible in Hname. rewrite lookup_delete_eq in Hname. by destruct Hname. }
  destruct (Hn1 name) as [i Hi]; [|exists i; eapply lookup_weaken; [done|by etransitivity]].
  apply elem_of_elements, elem_of_dom. rewrite lookup_delete_ne by done. unfold obkv_content in Hname.
  destruct v; [by rewrite lookup_insert_ne in Hname|done].
Qed.

Lemma process_item_spec db fields data item :
  item_ok item → untouched db item →
  writes (vectors_failure item) (wanted item) fields (process_item env old (db, fields, data) item) (λ r, ∃ stored,
    let '(db', fields', data') := r in
    db' = mkDocuments (partial_alter (λ _, (λ _, po_docid item.2) <$> stored) item.1 (external_ids db))
            (partial_alter (λ _, stored) (po_docid item.2) (documents db)) ∧
    (∀ content, stored = Some content → vectors_stored content ∧
       ∀ name, is_Some (content !! name) → is_Some (names_ids fields' !! name)) ∧
    visible <$> stored = final item ∧
    (∀ f, default 0 (field_distribution_delta data' !! f) =
       default 0 (field_distribution_delta data !! f) - has f (documents old !! po_docid item.2) + has f stored) ∧
    (∀ d, d ∈ docids_del data' ↔ d ∈ docids_del data ∨
       (d = po_docid item.2 ∧ is_Some (documents old !! d) ∧ stored = None)) ∧
    (∀ d, d ∈ docids_add data' ↔ d ∈ docids_add data ∨
       (d = po_docid item.2 ∧ documents old !! d = None ∧ is_Some stored))) (λ r, r.1.2).
Proof.
  destruct item as [id po]. cbn [fst snd]. intros [Hne Hok Hold Hnew Hu] [Hdocs Hext]. cbn [fst snd] in *.
  assert (Hiff : po_is_new po = true ↔ documents old !! po_docid po = None).
  { split; [by intros []%Hnew|]. intros Hn. destruct (po_is_new po); [done|]. exfalso.
    destruct (proj2 (dw_docs _ old_wf (po_docid po)) (ex_intro _ _ (Hold eq_refl))) as [x Hx]. by rewrite Hx in Hn. }
  destruct (merge_spec id po (documents old !! po_docid po) Hok Hne Hiff) as (change & Hmerge & Hchange).
  assert (Hbad : ∀ ch new b, change = Some ch → change_new ch = Some new → bad_vectors env id new b → vectors_failure (id, po) b).
  { intros ch new b -> Hnew' Hb. by exists ch, new. }
  unfold process_item. cbn [fst snd]. rewrite Hmerge. cbn [mbind outcome_bind].
  destruct (documents old !! po_docid po) as [cur|] eqn:Hcur;
    destruct (foldl step_doc _ (po_operations po)) as [fin|] eqn:Hfin;
    (assert (Hfinal : final (id, po) = foldl step_doc (visible <$> documents old !! po_docid po) (po_operations po)) by done);
    rewrite Hcur, Hfin in Hfinal.
  - destruct Hchange as (new & scratch & -> & Hm). cbn [process_change]. rewrite Hcur. cbn [ok_or mbind outcome_bind].
    destruct (merged_vectors_spec env (Some cur) (po_docid po) id new scratch configs_ok) as [(b & Hb & Hf)|(o & -> & Ho)].
    { intros ? [= <-]. by eapply old_vectors. }
    { right. left. exists b. split; [by eapply Hbad|]. unfold fails in *. rewrite Hf. by destruct b. }
    cbn [mbind outcome_bind]. eapply writes_bind.
    { eapply writes_mono; [exact (write_to_obkv_writes _ (merged new cur scratch) o fields Ho)|intros b Hb; by eapply Hbad| |by intros a Ha; exact Ha].
      rewrite visible_merged, Hm. intros name [?|?]; [by left|right]. by exists fin. }
    intros [c f'] (Hc & Hv & Hn). cbn [fst snd] in *. apply writes_ret; [done|]. exists (Some c). split; [done|].
    split; [by intros ? [= <-]|]. rewrite visible_merged in Hc. cbn [fmap option_fmap option_map]. rewrite Hc, Hm. split; [done|].
    cbn [field_distribution_delta docids_del docids_add]. split_and!.
    + intros f. rewrite !count_fields_get. cbn [has]. rewrite Hc, <-Hm, visible_merged. repeat case_decide; lia.
    + no_new_docid.
    + no_new_docid.
  - subst change. cbn [process_change]. rewrite Hcur. cbn [ok_or mbind outcome_bind].
    apply writes_ret; [done|]. exists None. split; [done|].
    split; [done|]. split; [done|]. cbn [field_distribution_delta docids_del docids_add]. split_and!.
    + intros f. rewrite count_fields_get. cbn [has]. case_decide; lia.
    + one_new_docid.
    + no_new_docid.
  - destruct Hchange as (new & -> & Hm). cbn [process_change].
    destruct (vectors_from_versions_spec env id new) as [(b & Hb & Hf)|(o & -> & Ho)].
    { right. left. exists b. split; [by eapply Hbad|]. unfold fails in *. rewrite Hf. by destruct b. }
    cbn [mbind outcome_bind]. eapply writes_bind.
    { eapply writes_mono; [exact (write_to_obkv_writes _ new o fields Ho)|intros b Hb; by eapply Hbad| |by intros a Ha; exact Ha].
      rewrite Hm. intros name [?|?]; [by left|right]. by exists fin. }
    intros [c f'] (Hc & Hv & Hn). cbn [fst snd] in *. apply writes_ret; [done|]. exists (Some c). split; [done|].
    split; [by intros ? [= <-]|]. cbn [fmap option_fmap option_map]. rewrite Hc, Hm. split; [done|].
    cbn [field_distribution_delta docids_del docids_add]. split_and!.
    + intros f. rewrite count_fields_get. cbn [has]. rewrite Hc. case_decide; lia.
    + no_new_docid.
    + one_new_docid.
  - subst change. apply writes_ret; [done|]. exists None. split.
    { cbn [fmap option_fmap option_map]. destruct (Hnew (proj2 Hiff eq_refl)) as [He _].
      change (partial_alter (λ _ : option Z, None) id (external_ids db)) with (delete id (external_ids db)).
      change (partial_alter (λ _ : option Document, None) (po_docid po) (documents db))
        with (delete (po_docid po) (documents db)).
      rewrite !delete_id by congruence. by destruct db. }
    split; [done|]. split; [done|]. split_and!; [intros f; cbn [has]; lia|no_new_docid..].
Qed.

(** What the items [items] change from [db] to [db']. *)
Record written (items : list (string * PayloadOperations)) (db db' : Documents) : Prop := {
  wr_in : ∀ item, item ∈ items → ∃ stored, visible <$> stored = final item ∧
    documents db' !! po_docid item.2 = stored ∧ external_ids db' !! item.1 = (λ _, po_docid item.2) <$> stored;
  wr_docs : ∀ d, (∀ item, item ∈ items → d ≠ po_docid item.2) → documents db' !! d = documents db !! d;
  wr_ids : ∀ id, (∀ item, item ∈ items → id ≠ item.1) → external_ids db' !! id = external_ids db !! id;
}.

(** Distinct items, on distinct documents. *)
Definition distinct (items : list (string * PayloadOperations)) : Prop :=
  NoDup (fst <$> items) ∧ NoDup ((λ item, po_docid item.2) <$> items).

Lemma distinct_app items1 items2 :
  distinct (items1 ++ items2) →
  distinct items1 ∧ distinct items2 ∧
  ∀ i1 i2, i1 ∈ items1 → i2 ∈ items2 → i1.1 ≠ i2.1 ∧ po_docid i1.2 ≠ po_docid i2.2.
Proof.
  unfold distinct. rewrite !fmap_app, !NoDup_app. intros [(? & Hid & ?) (? & Hnum & ?)]. split_and!; try done.
  intros i1 i2 Hi1 Hi2. split; intros Heq;
    [apply (Hid i1.1)|apply (Hnum (po_docid i1.2))]; apply list_elem_of_fmap; eauto.
Qed.

Lemma written_app items1 items2 db db1 db2 :
  distinct (items1 ++ items2) → written items1 db db1 → written items2 db1 db2 → written (items1 ++ items2) db db2.
Proof.
  intros (_ & _ & Hdis)%distinct_app [Hin1 Hd1 Hi1] [Hin2 Hd2 Hi2]. constructor.
  - intros item [Hitem|Hitem]%elem_of_app; [|by apply Hin2]. destruct (Hin1 item Hitem) as (stored & Hs & Hd & Hi).
    exists stored. split; [done|]. rewrite Hd2, Hi2; [done|..]; intros i2 Hi2'; by apply Hdis.
  - intros d Hd. rewrite Hd2, Hd1; [done|..]; intros; apply Hd, elem_of_app; auto.
  - intros id Hid. rewrite Hi2, Hi1; [done|..]; intros; apply Hid, elem_of_app; auto.
Qed.

Lemma untouched_written items1 items2 db db1 :
  distinct (items1 ++ items2) → written items1 db db1 →
  (∀ item, item ∈ items2 → untouched db item) → ∀ item, item ∈ items2 → untouched db1 item.
Proof.
  intros (_ & _ & Hdis)%distinct_app [_ Hd Hi] Hun item Hitem. destruct (Hun item Hitem) as [Hdocs Hids].
  split; [rewrite Hd|rewrite Hi]; try done; intros i1 Hi1; apply not_eq_sym; by apply Hdis.
Qed.

Definition some_failure (items : list (string * PayloadOperations)) (b : option DocError) : Prop :=
  ∃ item, item ∈ items ∧ vectors_failure item b.
Definition some_wanted (items : list (string * PayloadOperations)) (name : string) : Prop :=
  ∃ item, item ∈ items ∧ wanted item name.

Lemma process_items_spec items : ∀ db fields data,
  Forall item_ok items → distinct items → (∀ item, item ∈ items → untouched db item) →
  writes (some_failure items) (some_wanted items) fields (for_each (process_item env old) (db, fields, data) items) (λ r,
    let '(db', fields', data') := r in written items db db' ∧ (vectors_kept db → vectors_kept db') ∧
    (fields_known db fields → fields_known db' fields') ∧
    (∀ f, default 0 (field_distribution_delta data' !! f) - default 0 (field_distribution_delta data !! f) =
       count f (documents db') - count f (documents db)) ∧
    (∀ D, dom (documents db) = (D ∖ docids_del data) ∪ docids_add data →
       (∀ item, item ∈ items → po_docid item.2 ∉ docids_add data) →
       dom (documents db') = (D ∖ docids_del data') ∪ docids_add data')) (λ r, r.1.2).
Proof.
  induction items as [|item items IH]; intros db fields data Hok Hdis Hun.
  { apply writes_ret; [done|]. split; [constructor; [set_solver|done|done]|].
    split; [done|]. split; [done|]. split; [lia|done]. }
  inversion Hok as [|?? Hitem Hok']; subst. pose proof (Hun item ltac:(by left)) as [Hund Hune].
  cbn [for_each]. eapply writes_bind.
  { eapply (writes_mono _ _ _ _ _ _ _ (λ r, names_ids fields ⊆ names_ids r.1.2 ∧ _));
      [eapply writes_grows; [exact (process_item_spec db fields data item Hitem (conj Hund Hune))|intros a Hs Ha; exact (conj Hs Ha)]| | |
       by intros a Ha; exact Ha].
    - intros b Hb. exists item. split; [by left|done].
    - intros name Hname. exists item. split; [by left|done]. }
  intros [[db1 fields1] data1] (Hsub & stored & Hdb1 & Hkn & Hs & Hdelta & Hdel & Hadd).
  cbn [fst snd] in *. rewrite Hdb1. clear db1 Hdb1. set (db1 := mkDocuments _ _) in *.
  assert (Hw1 : written [item] db db1).
  { constructor; cbn [documents external_ids db1].
    - intros ? ->%list_elem_of_singleton. exists stored. by rewrite !lookup_partial_alter_eq.
    - intros d Hd. rewrite lookup_partial_alter_ne; [done|]. apply not_eq_sym, Hd. by left.
    - intros id Hid. rewrite lookup_partial_alter_ne; [done|]. apply not_eq_sym, Hid. by left. }
  change (item :: items) with ([item] ++ items) in Hdis |- *.
  destruct (distinct_app _ _ Hdis) as (_ & Hdis' & Hne).
  assert (Hun1 : ∀ i, i ∈ items → untouched db1 i).
  { eapply untouched_written; [exact Hdis|exact Hw1|]. intros i Hi. apply Hun. by right. }
  eapply writes_mono; [exact (IH db1 fields1 data1 Hok' Hdis' Hun1)| | |].
  { intros b (i & Hi & Hb). exists i. split; [by right|done]. }
  { intros name (i & Hi & Hb). exists i. split; [by right|done]. }
  intros [[db' fields'] data'] (Hw & Hvec & Hknown & Hcount & Hdom).
  split; [by eapply written_app|]. split; [|split; [|split]].
  - intros Hv. apply Hvec. intros d doc. cbn [db1 documents].
    destruct (decide (d = po_docid item.2)) as [->|Hd]; [rewrite lookup_partial_alter_eq; intros ?; by apply Hkn|].
    rewrite lookup_partial_alter_ne by done. apply Hv.
  - intros Hk. apply Hknown. intros d doc name. cbn [db1 documents].
    destruct (decide (d = po_docid item.2)) as [->|Hd]; [rewrite lookup_partial_alter_eq; intros ?; by apply Hkn|].
    rewrite lookup_partial_alter_ne by done. intros Hdoc Hn. by eapply fields_known_mono.
  - intros f. specialize (Hcount f). specialize (Hdelta f). cbn [db1 documents] in Hcount.
    rewrite count_alter, Hund in Hcount. lia.
  - intros D HD Hfresh. apply Hdom.
    + assert (Hmem : ∀ d, is_Some (documents db !! d) ↔ (d ∈ D ∧ d ∉ docids_del data) ∨ d ∈ docids_add data)
        by (intros d; rewrite <-elem_of_dom, HD; set_solver).
      apply set_eq. intros d. rewrite elem_of_union, elem_of_difference, Hdel, Hadd, elem_of_dom. cbn [db1 documents].
      destruct (decide (d = po_docid item.2)) as [->|Hd].
      * rewrite lookup_partial_alter_eq. specialize (Hmem (po_docid item.2)). rewrite Hund in Hmem.
        pose proof (Hfresh item ltac:(by left)) as Hf.
        destruct stored as [x|], (documents old !! po_docid item.2) as [y|]; rewrite ?is_Some_alt in *; cbn in *;
          intuition congruence.
      * rewrite lookup_partial_alter_ne by done. rewrite Hmem. tauto.
    + intros i Hi Hin. apply Hadd in Hin as [Hin|[Heq _]]; [apply (Hfresh i); [by right|done]|].
      apply (Hne item i); [by left|done|by rewrite Heq].
Qed.

(** ** The statistics *)

(** The set of documents and the distribution of the fields are exact. *)
Definition stats_ok (db : Documents) (ds : DocumentsStats) : Prop :=
  ds_documents_ids ds = dom (documents db) ∧ ∀ f, default 0 (ds_distribution ds !! f) = count f (documents db).

Lemma merge_data_get ds data f :
  default 0 (ds_distribution (merge_data ds data) !! f) =
    match field_distribution_delta data !! f with
    | Some delta => add_signed (default 0 (ds_distribution ds !! f)) delta
    | None => default 0 (ds_distribution ds !! f)
    end.
Proof.
  cbn [merge_data ds_distribution].
  assert (Hl : map_fold (λ f delta d, <[f := add_signed (default 0 (d !! f)) delta]> d)
      (ds_distribution ds) (field_distribution_delta data) !! f =
    match field_distribution_delta data !! f with
    | Some delta => Some (add_signed (default 0 (ds_distribution ds !! f)) delta)
    | None => ds_distribution ds !! f
    end); [|rewrite Hl; by destruct (field_distribution_delta data !! f)].
  revert f. apply (map_fold_weak_ind (λ r m, ∀ f, r !! f = match m !! f with
    | Some delta => Some (add_signed (default 0 (ds_distribution ds !! f)) delta) | None => ds_distribution ds !! f end)).
  - intros f. by rewrite lookup_empty.
  - intros g delta m r Hg IH f. destruct (decide (g = f)) as [->|Hne].
    + rewrite !lookup_insert_eq. specialize (IH f). rewrite Hg in IH. by rewrite IH.
    + by rewrite !lookup_insert_ne.
Qed.

Definition docs_u32 (db : Documents) : Prop := ∀ d, is_Some (documents db !! d) → 0 ≤ d ≤ u32_max.

Lemma written_u32 items db db' : Forall item_ok items → docs_u32 db → written items db db' → docs_u32 db'.
Proof.
  intros Hok Hu Hw d Hd. rewrite Forall_forall in Hok.
  destruct (decide (d ∈ (λ item, po_docid item.2) <$> items)) as [(item & -> & Hitem)%list_elem_of_fmap|Hn];
    [by apply it_u32, Hok|]. apply Hu. rewrite <-(wr_docs _ _ _ Hw); [done|].
  intros item Hitem ->. apply Hn, list_elem_of_fmap. eauto.
Qed.

Lemma process_threads_spec threads : ∀ db fields ds,
  stats_ok db ds → docs_u32 db → Forall item_ok (concat threads) → distinct (concat threads) →
  (∀ item, item ∈ concat threads → untouched db item) →
  writes (some_failure (concat threads)) (some_wanted (concat threads)) fields (process_threads env old threads db fields) (λ r,
    let '(db', fields', data) := r in written (concat threads) db db' ∧ (vectors_kept db → vectors_kept db') ∧
    (fields_known db fields → fields_known db' fields') ∧ stats_ok db' (foldl merge_data ds data)) (λ r, r.1.2).
Proof.
  induction threads as [|items threads IH]; intros db fields ds Hst Hu Hok Hdis Hun.
  { apply writes_ret; [done|]. split; [|done]. constructor; [set_solver|done|done]. }
  cbn [concat] in *. apply Forall_app in Hok as [Hok1 Hok2]. destruct (distinct_app _ _ Hdis) as (Hd1 & Hd2 & _).
  cbn [process_threads]. eapply writes_bind.
  { eapply writes_mono; [apply (process_items_spec items db fields (mkExtractorData ∅ ∅ ∅) Hok1 Hd1)| | |by intros a Ha; exact Ha].
    - intros i Hi. apply Hun, elem_of_app. by left.
    - intros b (i & Hi & Hb). exists i. split; [apply elem_of_app; by left|done].
    - intros name (i & Hi & Hb). exists i. split; [apply elem_of_app; by left|done]. }
  intros [[db1 fields1] data1] (Hw1 & Hv1 & Hkn1 & Hcount & Hdom). cbn [fst snd] in *.
  pose proof (written_u32 _ _ _ Hok1 Hu Hw1) as Hu1.
  eapply writes_bind.
  { eapply writes_mono; [apply (IH db1 fields1 (merge_data ds data1))| | |by intros a Ha; exact Ha]; try done.
    - destruct Hst as [Hids Hdist]. split.
      + cbn [merge_data ds_documents_ids]. rewrite Hids. symmetry. apply Hdom; [cbn; set_solver|cbn; set_solver].
      + intros f. rewrite merge_data_get, Hdist. specialize (Hcount f). cbn [field_distribution_delta] in Hcount.
        rewrite lookup_empty in Hcount. cbn [from_option id] in Hcount. pose proof (count_bound f _ Hu1).
        destruct (field_distribution_delta data1 !! f) as [delta|]; cbn in Hcount; [unfold add_signed; lia|lia].
    - eapply untouched_written; [exact Hdis|exact Hw1|]. intros i Hi. apply Hun, elem_of_app. by right.
    - intros b (i & Hi & Hb). exists i. split; [apply elem_of_app; by right|done].
    - intros name (i & Hi & Hb). exists i. split; [apply elem_of_app; by right|done]. }
  intros [[db' fields'] data] (Hw & Hv & Hkn & Hst'). apply writes_ret; [done|].
  split; [by eapply written_app|]. split; [auto|]. split; [auto|done].
Qed.
End writing.

(** ** A batch has the effect of its payloads one after the other *)

Lemma NoDup_fmap_inj_elem {A B} (f : A → B) l x y :
  NoDup (f <$> l) → x ∈ l → y ∈ l → f x = f y → x = y.
Proof.
  induction l as [|z l IH]; [set_solver|]. cbn. intros [Hz Hl]%NoDup_cons.
  intros [->|Hx]%elem_of_cons [->|Hy]%elem_of_cons Heq; [done| | |by apply IH];
    exfalso; apply Hz, list_elem_of_fmap; eauto.
Qed.

Section refinement.
Context `{VectorTextOk, !JsonTextOk}.

(** The documents of an index by their external id, with their visible fields. *)
Definition contents (db : Documents) : gmap string Document :=
  omap (λ docid, visible <$> documents db !! docid) (external_ids db).

(** The specification: one operation replaces, updates or deletes one document. *)
Definition apply_op (m : gmap string Document) (op : string * InnerDocOp) : gmap string Document :=
  partial_alter (λ d, step_doc d op.2) op.1 m.

Lemma lookup_apply_ops ops : ∀ m id,
  foldl apply_op m ops !! id = foldl step_doc (m !! id) (ops_on id ops).
Proof.
  induction ops as [|[i op] ops IH]; intros m id; [done|]. cbn [foldl]. rewrite IH. unfold ops_on. cbn.
  unfold apply_op. cbn [fst snd]. case_decide; [subst; by rewrite lookup_partial_alter_eq|].
  by rewrite lookup_partial_alter_ne.
Qed.

Lemma lookup_contents db id :
  contents db !! id = external_ids db !! id ≫= λ d, visible <$> documents db !! d.
Proof. unfold contents. apply lookup_omap. Qed.

Lemma numbered_item_ok old av main ops id po pk :
  db_wf old → numbered (mkIndexView (external_ids old) pk) (dom (documents old)) av (num <$> main) →
  means main ops → main !! id = Some po → item_ok old (id, po).
Proof.
  intros Hwf Hnb Hm Hpo. pose proof (Hm id) as Hid. rewrite Hpo in Hid. destruct Hid as (Hne & Hok & _).
  assert (Hnum : (num <$> main) !! id = Some (po_docid po, po_is_new po)) by (by rewrite lookup_fmap, Hpo).
  constructor; cbn [fst snd]; [done|done|..]; destruct (po_is_new po) eqn:Hnew; try done.
  - intros _. by apply (nb_old _ _ _ _ Hnb).
  - intros _. destruct (nb_new _ _ _ _ Hnb _ _ Hnum) as (He & Hd & _). split; [done|]. by apply not_elem_of_dom.
  - by destruct (nb_new _ _ _ _ Hnb _ _ Hnum) as (_ & _ & _ & ?).
  - apply (dw_u32 _ Hwf), (dw_docs _ Hwf). exists id. by apply (nb_old _ _ _ _ Hnb).
Qed.

(** An item and a document of the old index with the same number are the same. *)
Lemma item_docid old item id d :
  db_wf old → item_ok old item → external_ids old !! id = Some d → po_docid item.2 = d → id = item.1.
Proof.
  intros Hwf [_ _ Hold Hnew _] Hid <-. destruct (po_is_new item.2) eqn:Hb.
  - destruct (Hnew eq_refl) as [_ Hn]. destruct (proj2 (dw_docs _ Hwf (po_docid item.2)) (ex_intro _ _ Hid)) as [x Hx].
    by rewrite Hx in Hn.
  - by apply (dw_inj _ Hwf _ _ (po_docid item.2)); [|apply Hold].
Qed.

Lemma item_external old item d :
  item_ok old item → external_ids old !! item.1 = Some d → po_docid item.2 = d.
Proof.
  intros [_ _ Hold Hnew _] Hid. destruct (po_is_new item.2).
  - destruct (Hnew eq_refl) as [He _]. by rewrite He in Hid.
  - specialize (Hold eq_refl). rewrite Hold in Hid. by injection Hid.
Qed.

Lemma main_distinct old av main ops pk :
  db_wf old → numbered (mkIndexView (external_ids old) pk) (dom (documents old)) av (num <$> main) →
  means main ops → distinct (map_to_list main).
Proof.
  intros Hwf Hnb Hm. split; [apply NoDup_fst_map_to_list|].
  apply NoDup_fmap_2_strong; [|apply NoDup_map_to_list].
  intros [id1 po1] [id2 po2] Hpo1%elem_of_map_to_list Hpo2%elem_of_map_to_list. cbn [snd]. intros Heq.
  assert (id1 = id2) as ->; [|congruence].
  pose proof (numbered_item_ok _ _ _ _ _ _ _ Hwf Hnb Hm Hpo1) as Hok1.
  pose proof (numbered_item_ok _ _ _ _ _ _ _ Hwf Hnb Hm Hpo2) as Hok2.
  destruct (po_is_new po2) eqn:Hn2.
  - destruct (po_is_new po1) eqn:Hn1.
    + apply (nb_inj _ _ _ _ Hnb _ _ (po_docid po2)); rewrite lookup_fmap, ?Hpo1, ?Hpo2; cbn; unfold num; congruence.
    + symmetry. apply (item_docid old (id1, po1) id2 (po_docid po1)); try done.
      exfalso. destruct (it_new _ _ Hok2 Hn2) as [_ Hnone]. cbn in Hnone.
      destruct (proj2 (dw_docs _ Hwf (po_docid po1)) (ex_intro _ _ (it_old _ _ Hok1 Hn1))) as [x Hx]. congruence.
  - symmetry. apply (item_docid old (id1, po1) id2 (po_docid po2) Hwf Hok1 (it_old _ _ Hok2 Hn2)). done.
Qed.

Section written_facts.
Context (old db' : Documents) (items : list (string * PayloadOperations)).
Hypotheses (Hwf : db_wf old) (Hok : Forall (item_ok old) items) (Hdis : distinct items)
  (Hw : written old items old db').

(** The entry of an item, and that of an id which is not in an item. *)
Lemma written_entry id :
  (∃ po stored, (id, po) ∈ items ∧ visible <$> stored = final old (id, po) ∧
     documents db' !! po_docid po = stored ∧ external_ids db' !! id = (λ _, po_docid po) <$> stored) ∨
  ((∀ item, item ∈ items → id ≠ item.1) ∧ external_ids db' !! id = external_ids old !! id ∧
     ∀ d, external_ids old !! id = Some d → documents db' !! d = documents old !! d).
Proof.
  destruct (decide (id ∈ items.*1)) as [([i po] & -> & Hitem)%list_elem_of_fmap|Hn].
  - left. destruct (wr_in _ _ _ _ Hw _ Hitem) as (stored & Hs & Hd & Hi). by exists po, stored.
  - right. assert (Hne : ∀ item, item ∈ items → id ≠ item.1) by (intros item Hitem ->; apply Hn, list_elem_of_fmap; eauto).
    split_and!; [done|by apply (wr_ids _ _ _ _ Hw)|]. intros d Hd. apply (wr_docs _ _ _ _ Hw).
    intros item Hitem ->. rewrite Forall_forall in Hok. by apply (Hne item Hitem), (item_docid old item id (po_docid item.2) Hwf (Hok item Hitem) Hd eq_refl).
Qed.

Lemma written_wf : db_wf db'.
Proof.
  pose proof Hok as Hok'. rewrite Forall_forall in Hok'.
  assert (Hsame : ∀ id1 po1 id2 d, (id1, po1) ∈ items → external_ids old !! id2 = Some d →
    (∀ item, item ∈ items → id2 ≠ item.1) → po_docid po1 ≠ d).
  { intros id1 po1 id2 d Hin Hid Hne Heq. apply (Hne _ Hin). exact (item_docid _ _ _ _ Hwf (Hok' _ Hin) Hid Heq). }
  constructor.
  - intros id1 id2 d.
    destruct (written_entry id1) as [(po1 & st1 & Hin1 & _ & _ & ->)|(Hne1 & -> & _)];
    destruct (written_entry id2) as [(po2 & st2 & Hin2 & _ & _ & ->)|(Hne2 & -> & _)].
    + intros (? & _ & Heq1)%fmap_Some (? & _ & Heq2)%fmap_Some.
      assert ((id1, po1) = (id2, po2)) as [=]; [|done].
      apply (NoDup_fmap_inj_elem (λ item : string * PayloadOperations, po_docid item.2) items);
        [apply Hdis|done..|cbn; congruence].
    + intros (? & _ & ->)%fmap_Some Hid2. by destruct (Hsame _ _ _ _ Hin1 Hid2 Hne2).
    + intros Hid1 (? & _ & ->)%fmap_Some. by destruct (Hsame _ _ _ _ Hin2 Hid1 Hne1).
    + by apply (dw_inj _ Hwf).
  - intros d. split.
    + intros Hd. destruct (decide (d ∈ (λ item, po_docid item.2) <$> items)) as [([id po] & -> & Hin)%list_elem_of_fmap|Hn].
      * destruct (wr_in _ _ _ _ Hw _ Hin) as (stored & _ & Hs & Hi). cbn [fst snd] in *. exists id.
        rewrite Hi. rewrite Hs in Hd. destruct Hd as [x ->]. done.
      * assert (Hnd : ∀ item, item ∈ items → d ≠ po_docid item.2)
          by (intros item Hin ->; apply Hn, list_elem_of_fmap; eauto).
        rewrite (wr_docs _ _ _ _ Hw d Hnd) in Hd. apply (dw_docs _ Hwf) in Hd as [id Hid]. exists id.
        destruct (written_entry id) as [(po & st & Hin & _)|(_ & -> & _)]; [|done].
        by destruct (Hnd _ Hin (eq_sym (item_external _ _ _ (Hok' _ Hin) Hid))).
    + intros [id Hid]. destruct (written_entry id) as [(po & st & Hin & _ & Hd & Hi)|(_ & Hi & Hd)].
      * rewrite Hi in Hid. apply fmap_Some in Hid as (x & -> & ->). rewrite Hd. eauto.
      * rewrite Hi in Hid. rewrite (Hd d Hid). apply (dw_docs _ Hwf). eauto.
  - apply (written_u32 old items old db' Hok (dw_u32 _ Hwf) Hw).
Qed.
End written_facts.

(** The counts of fields that became 0 are dropped. *)
Lemma drop_zero_counts (m : gmap string Z) f : default 0 (filter (λ e, e.2 ≠ 0) m !! f) = default 0 (m !! f).
Proof.
  destruct (m !! f) as [n|] eqn:Hf; [|by rewrite (proj2 (map_lookup_filter_None _ _ _)) by (by left)].
  destruct (decide (n = 0)) as [->|Hn]; [|by rewrite (proj2 (map_lookup_filter_Some _ _ _ n))].
  rewrite (proj2 (map_lookup_filter_None _ _ _)); [done|]. right. intros n Hn [].
  rewrite Hf in Hn. by injection Hn.
Qed.

(** The documents of an index after its items are written are what the operations
    they stand for do to the documents it had. *)
Lemma written_contents old av pk main ops items db :
  db_wf old → numbered (mkIndexView (external_ids old) pk) (dom (documents old)) av (num <$> main) →
  means main ops → (∀ item, item ∈ items ↔ main !! item.1 = Some item.2) → written old items old db →
  contents db = foldl apply_op (contents old) ops.
Proof.
  intros Hwf Hnb Hmeans Hitems Hw.
  assert (Hok : Forall (item_ok old) items).
  { apply Forall_forall. intros [id po] Hin%Hitems. by eapply numbered_item_ok. }
  apply map_eq. intros id. rewrite lookup_apply_ops, !lookup_contents. pose proof (Hmeans id) as Hm.
  destruct (written_entry old db _ Hwf Hok Hw id) as [(po & stored & Hin & Hs & Hd & ->)|(Hne & -> & Hd)].
  - pose proof Hin as Hpo. apply Hitems in Hpo. cbn [fst snd] in Hpo. rewrite Hpo in Hm. destruct Hm as (_ & _ & Hm).
    rewrite <-Hm. rewrite Forall_forall in Hok. specialize (Hok _ Hin).
    assert (Hcur : external_ids old !! id ≫= (λ d, visible <$> documents old !! d) =
      visible <$> documents old !! po_docid po).
    { destruct (po_is_new po) eqn:Hnew.
      - destruct (it_new _ _ Hok Hnew) as [He Hn]. cbn [fst snd] in He, Hn. by rewrite He, Hn.
      - pose proof (it_old _ _ Hok Hnew) as He. cbn [fst snd] in He. by rewrite He. }
    rewrite Hcur. unfold final in Hs. cbn [fst snd] in Hs. rewrite <-Hs.
    destruct stored as [x|]; [|done]. cbn. by rewrite Hd.
  - destruct (main !! id) as [po|] eqn:Hpo; [by destruct (Hne (id, po) (proj2 (Hitems (id, po)) Hpo))|].
    rewrite Hm. cbn. destruct (external_ids old !! id) as [d|]; [|done]. cbn. by rewrite (Hd d).
Qed.

(** What becomes of the documents, of their statistics and of the fields when the
    changes [main] of the operations [ops] are extracted: the ids of the fields run
    out, the vectors of a document are refused, or all is written. *)
Definition batch_written (env : VectorEnv) (old : Documents) (ds : DocumentsStats) (fields : FieldsIdsMap)
    (main : gmap string PayloadOperations) (ops : list (string * InnerDocOp))
    (r : outcome DocError (Documents * FieldsIdsMap * DocumentsStats)) : Prop :=
  (r = Err (UserError AttributeLimitReached) ∧
   runs_out (λ name, ∃ id po, main !! id = Some po ∧ wanted old (id, po) name) fields) ∨
  (∃ id po b, main !! id = Some po ∧ vectors_failure env (id, po) b ∧ fails r b) ∨
  ∃ db fields' ds', r = Ok (db, fields', ds') ∧
    db_wf db ∧ vectors_kept db ∧ stats_ok db ds' ∧ names_ids fields ⊆ names_ids fields' ∧ fields_known db fields' ∧
    contents db = foldl apply_op (contents old) ops.

Lemma extract_documents_written env old ds fields av pk main ops threads :
  db_wf old → vectors_kept old → env_ok env → stats_ok old ds → fields_known old fields →
  numbered (mkIndexView (external_ids old) pk) (dom (documents old)) av (num <$> main) → means main ops →
  concat threads ≡ₚ map_to_list main →
  batch_written env old ds fields main ops (extract_documents env old ds fields threads).
Proof.
  intros Hwf Hvec Henv Hst Hkn Hnb Hmeans Hth.
  assert (Hitems : ∀ item, item ∈ concat threads ↔ main !! item.1 = Some item.2).
  { intros [id po]. rewrite Hth. apply elem_of_map_to_list. }
  assert (Hok : Forall (item_ok old) (concat threads)).
  { apply Forall_forall. intros [id po] Hin%Hitems. by eapply numbered_item_ok. }
  assert (Hdis : distinct (concat threads)).
  { destruct (main_distinct _ _ _ _ _ Hwf Hnb Hmeans). split; by rewrite Hth. }
  assert (Hrun : writes (some_failure env (concat threads)) (some_wanted old (concat threads)) fields
      (process_threads env old threads old fields) _ _)
    by (apply (process_threads_spec env old Hwf Hvec Henv threads old fields ds Hst (dw_u32 _ Hwf) Hok Hdis); done).
  unfold extract_documents, batch_written.
  destruct Hrun as [[-> (f & name & Hf & Hn)]|[(b & ([id po] & Hpo%Hitems & Hb) & Hf)|
    ([[db fields'] data] & -> & Hsub%grows_by_subseteq & Hw & Hkept & Hkn' & Hst')]].
  - left. split; [done|]. exists f, name.
    assert (Hwant : ∀ x, some_wanted old (concat threads) x → ∃ id po, main !! id = Some po ∧ wanted old (id, po) x).
    { intros x ([id po] & Hpo%Hitems & Hx). by exists id, po. }
    split; [by eapply grows_by_mono|]. destruct Hn. auto.
  - right. left. exists id, po, b. split; [done|]. split; [done|]. unfold fails in *. rewrite Hf. by destruct b.
  - right. right. cbn [fst snd mbind outcome_bind] in *. eexists db, fields', _. split; [done|].
    split; [by eapply written_wf|]. split; [auto|]. split; [|split; [done|split]].
    + destruct Hst' as [Hids Hdist]. split; [done|]. intros f. cbn [ds_distribution]. rewrite <-Hdist.
      apply drop_zero_counts.
    + apply Hkn'. by eapply fields_known_mono.
    + by eapply written_contents.
Qed.

(** C11. A batch of document payloads, whatever the threads that write the documents.  The
    operations are grouped by document, the new documents are
    numbered, the changes are computed against the old index and written in any
    order.  The operations of the payloads are always extracted, unless the batch is asked to
    stop before one of them or the text of one is cut ([not_extracted]); each payload is then
    accepted, or refused for a reason that is told ([refusal]: no number left, no
    primary key, a document without a valid id).  Then writing the documents fails only when the
    ids of the fields run out for the names of the documents
    written, or when the vectors of one of these documents cannot be: its [_vectors] is not
    an object ([SerdeJson]), one of its values is not what an embedder expects
    ([InvalidVectorsEmbedderConf]), or the embeddings given for an embedder that is not configured
    are not a JSON value within serde's limits (a panic).  Otherwise the result is what
    the accepted payloads do to the documents one after the other -- a replacement puts the document, an update
    puts its fields over those of the document, a deletion removes it; the
    [_vectors] field is apart, what is left of it in a document can be read again.  The
    payloads that are refused have no effect.  The external ids and
    the numbers of the documents stay in bijection, and the set of documents and
    the number of documents that have each field stay exact; the map of the fields
    only grows, and every field of every document has an id in it.  The old index is
    as such batches leave it, and its embedders have a number. *)
Theorem batch_refines_payloads env old ds fields must_stop pk from_op operations :
  db_wf old → vectors_kept old → env_ok env → stats_ok old ds → fields_known old fields →
  let iv := mkIndexView (external_ids old) pk in
  match into_changes must_stop iv (dom (documents old)) fields from_op operations with
  | Ok (main, stats, st) =>
      told iv from_op st operations stats ∧
      names_ids fields ⊆ names_ids (pr_fields st) ∧
      ∀ threads, concat threads ≡ₚ map_to_list main →
        batch_written env old ds (pr_fields st) main (accepted (pr_primary_key st) operations stats)
          (extract_documents env old ds (pr_fields st) threads)
  | Err e => not_extracted must_stop 0 operations e
  | Panic => False
  end.
Proof.
  intros Hwf Hvec Henv Hst Hkn iv. unfold into_changes.
  set (st0 := mkPreparation (AvailableIds_new (dom (documents old))) fields None).
  assert (Hu : u32_set (dom (documents old))) by (intros d Hd%elem_of_dom; by apply (dw_u32 _ Hwf)).
  destruct (AvailableIds_new_wf _ Hu) as [Hav Hg].
  pose proof (into_changes_loop_outcome must_stop iv from_op operations 0 ∅ st0 Hav) as Hout.
  destruct (into_changes_loop must_stop iv from_op 0 operations ∅ st0) as [[[stats main] st]|e|] eqn:Hloop; [|done..].
  cbn [mbind outcome_bind]. destruct Hout as [_ Htold].
  pose proof (into_changes_loop_grows _ _ _ _ _ _ _ _ _ _ Hloop) as Hgrow. cbn [pr_fields] in Hgrow.
  apply (into_changes_loop_spec _ _ (dom (documents old)) _ _ _ _ []) in Hloop as (_ & Hnb & _ & Hmeans); [|apply means_empty|].
  - split; [done|]. split; [done|]. intros threads Hth. eapply extract_documents_written; try done.
    by eapply fields_known_mono.
  - cbn [pr_available st0]. rewrite fmap_empty. constructor; try (intros *; by rewrite lookup_empty); [done|].
    intros x Hx. by apply Hg.
Qed.
End refinement.

(** ** Witness *)

Section witnesses.

#[local] Existing Instance sample_json.
#[local] Existing Instance sample_json_ok.
#[local] Existing Instance sample_vector_text.
#[local] Existing Instance sample_vector_text_ok.

Definition sample_documents : Documents := mkDocuments ∅ ∅.
Definition sample_stats : DocumentsStats := mkDocumentsStats ∅ ∅.

Lemma sample_documents_wf : db_wf sample_documents ∧ stats_ok sample_documents sample_stats.
Proof.
  split; [constructor; cbn|split; [done|]].
  - intros id1 id2 d. by rewrite lookup_empty.
  - intros d. rewrite lookup_empty. split; [by intros []|]. intros [id Hid]. by rewrite lookup_empty in Hid.
  - intros d. rewrite lookup_empty. by intros [].
  - intros f. reflexivity.
Qed.

(** The document "a" is put, then updated; "b" is put in a payload that is
    refused. *)
Definition sample_payloads : list DocPayload :=
  [PayloadReplace [sample_document "a" "title" "one"];
   PayloadReplace [sample_document "b" "title" "two"; JObject []];
   PayloadUpdate [sample_document "a" "year" "1999"];
   PayloadDeletion ["b"%string];
   PayloadReplace [JObject [("id", JString "c"); ("_vectors", JObject [("e", JArray [])])]%string]].

Definition sample_view : IndexView := mkIndexView (external_ids sample_documents) None.
Definition sample_changes : outcome DocError (gmap string PayloadOperations * list PayloadStats * Preparation) :=
  into_changes (λ _, false) sample_view (dom (documents sample_documents)) FieldsIdsMap_new None sample_payloads.

Lemma sample_changes_ok :
  match sample_changes with
  | Ok (main, stats, st) => (fst <$> accepted (pr_primary_key st) sample_payloads stats) = ["a"; "a"; "b"; "c"]%string ∧
      match extract_documents sample_vector_env sample_documents sample_stats (pr_fields st) [map_to_list main] with
      | Ok _ => True | _ => False end
  | _ => False
  end.
Proof. vm_compute. by split. Qed.

Lemma batch_refines_payloads_witness :
  ∃ main stats st db fields ds, sample_changes = Ok (main, stats, st) ∧
    told sample_view None st sample_payloads stats ∧
    extract_documents sample_vector_env sample_documents sample_stats (pr_fields st) [map_to_list main] = Ok (db, fields, ds) ∧
    db_wf db ∧ contents db = foldl apply_op (contents sample_documents) (accepted (pr_primary_key st) sample_payloads stats).
Proof.
  pose proof sample_changes_ok as Hok. pose proof (batch_refines_payloads sample_vector_env sample_documents sample_stats
    FieldsIdsMap_new (λ _, false) None None sample_payloads) as Hb. cbv zeta in Hb. fold sample_view sample_changes in Hb.
  destruct sample_changes as [[[main stats] st]|e|] eqn:Hr; [destruct Hok as [_ Hok]|destruct Hok..].
  destruct Hb as (Ht & _ & Hb).
  - apply sample_documents_wf.
  - intros d doc Hd. cbn in Hd. by rewrite lookup_empty in Hd.
  - apply sample_vector_env_ok.
  - apply sample_documents_wf.
  - intros d doc name Hd. cbn in Hd. by rewrite lookup_empty in Hd.
  - destruct (Hb [map_to_list main]) as [[Hx _]|[(id & po & b & _ & _ & Hx)|(db & fields & ds & Hx & Hwf & _ & _ & _ & _ & Hc)]].
    + cbn. by rewrite app_nil_r.
    + rewrite Hx in Hok. destruct Hok.
    + unfold fails in Hx. rewrite Hx in Hok. destruct b; destruct Hok.
    + exists main, stats, st, db, fields, ds. split; [reflexivity|]. split; [exact Ht|]. split; [exact Hx|]. split; [exact Hwf|exact Hc].
Defined.

(** The same batch with vectors that are refused. *)
Example sample_bad_vectors :
  let payloads := [PayloadReplace [JObject [("id", JString "c"); ("_vectors", JObject [("e", JString "x")])]%string]] in
  match into_changes (λ _, false) sample_view ∅ FieldsIdsMap_new None payloads with
  | Ok (main, _, st) =>
      extract_documents sample_vector_env sample_documents sample_stats (pr_fields st) [map_to_list main] =
        Err (UserError (InvalidVectorsEmbedderConf "c" "e" (WrongKind (JString "x"))))
  | _ => False
  end.
Proof. vm_compute. reflexivity. Qed.
End witnesses.
