(* ===== verification/Score.v ===== *)
(** * Scores

    [crates/milli-core/src/score_details.rs]: what each ranking rule tells of a
    document, the rank that follows, and how the ranks of successive rules are
    merged into one score.  Floating point numbers are the class [Float]. *)

From S2P Require Import Prelude TaskTypes.
Open Scope Z_scope.

(** The floating point operations on scores: [f64_div a b] is the quotient of two
    [u32] converted to [f64]. *)
Class Float := {
  F64 : Type;
  f64_div : Z → Z → F64;
  f64_zero : F64;
  f64_one : F64;
  f64_lt : F64 → F64 → bool;
}.

(** The division of two [u32], which is correctly rounded, is monotone; two
    quotients by the same [u32] are far enough from each other, as 53 bits are kept. *)
Class FloatOk `{Float} := {
  f64_div_mono : ∀ a b c d, 0 ≤ a → 0 < b → 0 ≤ c → 0 < d → a * d ≤ c * b →
    f64_lt (f64_div c d) (f64_div a b) = false;
  f64_div_lt : ∀ a b c, 0 ≤ a → a < c → c ≤ u32_max → 0 < b → b ≤ u32_max →
    f64_lt (f64_div a b) (f64_div c b) = true;
}.

(** ** Ranks *)

Record Rank := mkRank {
  r_rank : Z;
  r_max_rank : Z;
}.

(** [u32::saturating_sub]. *)
Definition u32_saturating_sub (x y : Z) : Z := Z.max 0 (x - y).

(** [Rank::merge]; the products and the sum wrap around. *)
Definition rank_merge (outer inner : Rank) : Rank :=
  mkRank (u32_wrap (u32_wrap (u32_saturating_sub (r_rank outer) 1 * r_max_rank inner) + r_rank inner))
    (u32_wrap (r_max_rank outer * r_max_rank inner)).

(** The loop of [Rank::global_score]. *)
Definition global_rank (details : list Rank) : Rank := foldl rank_merge (mkRank 1 1) details.

(** ** The details of each rule *)

Module Words.
Record t := mk { matching_words : Z; max_matching_words : Z }.
Definition rank (w : t) : Rank := mkRank (matching_words w) (max_matching_words w).
Definition from_rank (r : Rank) : t := mk (r_rank r) (r_max_rank r).
End Words.

Module ExactWords.
Record t := mk { matching_words : Z; max_matching_words : Z }.
Definition rank (w : t) : Rank := mkRank (u32_wrap (matching_words w + 1)) (u32_wrap (max_matching_words w + 1)).
Definition from_rank (r : Rank) : t := mk (u32_saturating_sub (r_rank r) 1) (u32_saturating_sub (r_max_rank r) 1).
End ExactWords.

Module Typo.
Record t := mk { typo_count : Z; max_typo_count : Z }.
Definition rank (t : t) : Rank :=
  mkRank (u32_saturating_sub (u32_wrap (max_typo_count t + 1)) (typo_count t)) (u32_wrap (max_typo_count t + 1)).
Definition from_rank (r : Rank) : t :=
  mk (u32_saturating_sub (r_max_rank r) (r_rank r)) (u32_saturating_sub (r_max_rank r) 1).
End Typo.

Module ExactAttribute.
Inductive t := ExactMatch | MatchesStart | NoExactMatch.
Definition rank (e : t) : Rank :=
  mkRank (match e with ExactMatch => 3 | MatchesStart => 2 | NoExactMatch => 1 end) 3.
End ExactAttribute.

Section score.
Context `{Float}.

Record SortDetails := mkSortDetails {
  field_name : string;
  sd_ascending : bool;
  redacted : bool;
  sd_value : option (F64 + string);
}.

Record GeoSortDetails := mkGeoSortDetails {
  target_point : F64 * F64;
  gs_ascending : bool;
  gs_value : option (F64 * F64);
}.

(** [ScoreDetails]; the value of a sort is null, a number or a string. *)
Inductive ScoreDetails :=
| SdWords (w : Words.t)
| SdTypo (t : Typo.t)
| SdProximity (r : Rank)
| SdFid (r : Rank)
| SdPosition (r : Rank)
| SdExactAttribute (e : ExactAttribute.t)
| SdExactWords (w : ExactWords.t)
| SdSort (s : SortDetails)
| SdVector (similarity : option F64)
| SdGeoSort (g : GeoSortDetails)
| SdSkipped.

Inductive RankOrValue :=
| RvRank (r : Rank)
| RvSort (s : SortDetails)
| RvGeoSort (g : GeoSortDetails)
| RvScore (s : F64).

Inductive ScoreValue :=
| SvScore (s : F64)
| SvSort (s : SortDetails)
| SvGeoSort (g : GeoSortDetails).

(** [Rank::local_score]. *)
Definition local_score (r : Rank) : F64 := f64_div (r_rank r) (r_max_rank r).

(** [ScoreDetails::rank_or_value]. *)
Definition rank_or_value (d : ScoreDetails) : RankOrValue :=
  match d with
  | SdWords w => RvRank (Words.rank w)
  | SdTypo t => RvRank (Typo.rank t)
  | SdProximity r | SdFid r | SdPosition r => RvRank r
  | SdExactAttribute e => RvRank (ExactAttribute.rank e)
  | SdExactWords w => RvRank (ExactWords.rank w)
  | SdSort s => RvSort s
  | SdGeoSort g => RvGeoSort g
  | SdVector similarity => RvScore (default f64_zero similarity)
  | SdSkipped => RvRank (mkRank 0 1)
  end.

(** [ScoreDetails::rank]. *)
Definition details_rank (d : ScoreDetails) : option Rank :=
  match rank_or_value d with RvRank r => Some r | _ => None end.

(** [Itertools::coalesce] with the closure of [score_values]: neighbouring ranks
    are merged; [last] is the element that is not emitted yet. *)
Fixpoint coalesce (last : RankOrValue) (l : list RankOrValue) : list RankOrValue :=
  match l with
  | [] => [last]
  | x :: l =>
      match last, x with
      | RvRank outer, RvRank inner => coalesce (RvRank (rank_merge outer inner)) l
      | _, _ => last :: coalesce x l
      end
  end.

Definition score_value (v : RankOrValue) : ScoreValue :=
  match v with
  | RvRank r => SvScore (local_score r)
  | RvSort s => SvSort s
  | RvGeoSort g => SvGeoSort g
  | RvScore s => SvScore s
  end.

(** [ScoreDetails::score_values]. *)
Definition score_values (details : list ScoreDetails) : list ScoreValue :=
  match rank_or_value <$> details with
  | [] => []
  | v :: l => score_value <$> coalesce v l
  end.

(** [ScoreDetails::global_score]: the first score, 1 if there is none. *)
Definition global_score (details : list ScoreDetails) : F64 :=
  default f64_one (head (omap (λ v, match v with SvScore s => Some s | _ => None end) (score_values details))).
End score.

(** ** The order of the ranks *)

(** A rank a document can have. *)
Definition rank_ok (r : Rank) : Prop := 1 ≤ r_rank r ≤ r_max_rank r.

(** The number of merged ranks. *)
Definition rank_product (l : list Rank) : Z := foldr (λ r n, r_max_rank r * n) 1 l.

(** A list of ranks read as digits, the first one being the most significant. *)
Fixpoint rank_number (l : list Rank) : Z :=
  match l with
  | [] => 0
  | r :: l => (r_rank r - 1) * rank_product l + rank_number l
  end.

(** The lexicographic order. *)
Fixpoint rank_lt (l1 l2 : list Rank) : Prop :=
  match l1, l2 with
  | r1 :: l1, r2 :: l2 => r_rank r1 < r_rank r2 ∨ (r_rank r1 = r_rank r2 ∧ rank_lt l1 l2)
  | _, _ => False
  end.

Lemma rank_product_pos l : Forall rank_ok l → 1 ≤ rank_product l.
Proof. induction 1 as [|r l Hr _ IH]; [done|]. change (rank_product (r :: l)) with (r_max_rank r * rank_product l). unfold rank_ok in Hr. nia. Qed.

Lemma rank_number_range l : Forall rank_ok l → 0 ≤ rank_number l < rank_product l.
Proof.
  induction 1 as [|r l Hr Hl IH]; [done|]. unfold rank_ok in Hr. pose proof (rank_product_pos l Hl).
  change (rank_product (r :: l)) with (r_max_rank r * rank_product l). cbn [rank_number]. nia.
Qed.

Lemma rank_product_maxes l1 : ∀ l2, r_max_rank <$> l1 = r_max_rank <$> l2 → rank_product l1 = rank_product l2.
Proof.
  induction l1 as [|x l1 IH]; intros [|y l2] Heq; try done. injection Heq as Hx Heq.
  change (r_max_rank x * rank_product l1 = r_max_rank y * rank_product l2). by rewrite Hx, (IH l2).
Qed.

Lemma rank_lt_total l1 : ∀ l2, r_max_rank <$> l1 = r_max_rank <$> l2 → l1 = l2 ∨ rank_lt l1 l2 ∨ rank_lt l2 l1.
Proof.
  induction l1 as [|[a m] l1 IH]; intros [|[b n] l2] Heq; try done; [by left|]. injection Heq as Hx Heq. cbn in *.
  destruct (IH l2 Heq) as [->|[?|?]], (Z.lt_trichotomy a b) as [?|[->|?]]; subst; tauto.
Qed.

Lemma rank_number_lt l1 : ∀ l2, Forall rank_ok l1 → Forall rank_ok l2 →
  r_max_rank <$> l1 = r_max_rank <$> l2 → rank_number l1 < rank_number l2 ↔ rank_lt l1 l2.
Proof.
  induction l1 as [|r1 l1 IH]; intros [|r2 l2] H1 H2 Heq; try done; cbn [rank_number rank_lt].
  inversion H1 as [|?? Hr1 Hl1]; subst. inversion H2 as [|?? Hr2 Hl2]; subst. injection Heq as Hm Heq.
  pose proof (rank_product_maxes _ _ Heq) as Hp.
  rewrite <-(IH l2) by done. pose proof (rank_number_range l1 Hl1) as H3. pose proof (rank_number_range l2 Hl2) as H4.
  rewrite Hp in *. pose proof (rank_product_pos l2 Hl2). split; [|intros [?|[-> ?]]; nia].
  intros Hlt. destruct (Z.lt_trichotomy (r_rank r1) (r_rank r2)) as [?|[Heq'|?]]; [by left|right|nia].
  split; [done|]. rewrite Heq' in Hlt. lia.
Qed.

Lemma foldl_rank_merge l : ∀ outer,
  rank_ok outer → Forall rank_ok l → r_max_rank outer * rank_product l ≤ u32_max →
  foldl rank_merge outer l = mkRank ((r_rank outer - 1) * rank_product l + rank_number l + 1) (r_max_rank outer * rank_product l).
Proof.
  induction l as [|r l IH]; intros outer Ho Hl Hb; cbn [foldl rank_product foldr rank_number] in *.
  { destruct outer as [a b]. cbn. f_equal; lia. }
  inversion Hl as [|?? Hr Hl']; subst. fold (rank_product l) in *. pose proof (rank_product_pos l Hl') as Hp.
  destruct outer as [a b], r as [c d]. unfold rank_ok in Ho, Hr. cbn [r_rank r_max_rank] in *.
  assert (Hbd : b * d ≤ u32_max).
  { assert (b * d * 1 ≤ b * d * rank_product l) by (apply Z.mul_le_mono_nonneg_l; nia). lia. }
  assert (Hm : rank_merge (mkRank a b) (mkRank c d) = mkRank ((a - 1) * d + c) (b * d)).
  { unfold rank_merge, u32_saturating_sub. cbn [r_rank r_max_rank]. rewrite Z.max_r by lia.
    assert (0 ≤ (a - 1) * d ≤ u32_max) by nia. rewrite (u32_wrap_id ((a - 1) * d)) by done.
    rewrite !u32_wrap_id by nia. done. }
  rewrite Hm, IH; [|unfold rank_ok; cbn [r_rank r_max_rank]; nia|done|cbn [r_max_rank]; lia]. cbn [r_rank r_max_rank]. f_equal; ring.
Qed.

Lemma global_rank_number l : Forall rank_ok l → rank_product l ≤ u32_max →
  global_rank l = mkRank (rank_number l + 1) (rank_product l).
Proof.
  intros Hl Hb. unfold global_rank. rewrite foldl_rank_merge; [|unfold rank_ok; cbn; lia|done|cbn; lia].
  cbn [r_rank r_max_rank]. f_equal; lia.
Qed.

(** The score of details that all give a rank is that of the merged rank. *)
Section ranked.
Context `{Float}.

Lemma coalesce_ranks l : ∀ r, coalesce (RvRank r) (RvRank <$> l) = [RvRank (foldl rank_merge r l)].
Proof. induction l as [|x l IH]; intros r; [done|]. apply IH. Qed.

Lemma details_ranks (details : list ScoreDetails) (l : list Rank) : details_rank <$> details = Some <$> l → rank_or_value <$> details = RvRank <$> l.
Proof.
  revert l. induction details as [|d details IH]; intros [|r l] Hl; try done. injection Hl as Hd Hl.
  cbn [fmap list_fmap]. f_equal; [|by apply IH]. unfold details_rank in Hd. destruct (rank_or_value d); try done. by simplify_eq.
Qed.

Lemma global_score_ranks (details : list ScoreDetails) (l : list Rank) :
  details_rank <$> details = Some <$> l → l ≠ [] → Forall rank_ok l → rank_product l ≤ u32_max →
  global_score details = local_score (global_rank l).
Proof.
  intros Hd Hne Hl Hb. unfold global_score, score_values. rewrite (details_ranks _ _ Hd).
  destruct l as [|r l]; [done|]. cbn [fmap list_fmap]. rewrite coalesce_ranks. cbn.
  inversion Hl as [|?? Hr Hl']; subst. do 2 f_equal. unfold global_rank. cbn [foldl]. f_equal.
  pose proof (rank_product_pos l Hl') as Hp. change (rank_product (r :: l)) with (r_max_rank r * rank_product l) in Hb.
  destruct r as [c d]. unfold rank_ok in Hr. unfold rank_merge, u32_saturating_sub. cbn [r_rank r_max_rank] in *.
  assert (d ≤ u32_max) by nia. change (Z.max 0 (1 - 1)) with 0. rewrite !Z.mul_0_l, Z.mul_1_l, (u32_wrap_id 0) by done. rewrite Z.add_0_l. rewrite !u32_wrap_id by lia.
  done.
Qed.
End ranked.

(** C21. The score of a document whose rules all give ranks from 1 to their
    maximum (so none was skipped, a skipped rule having the rank 0), when the product of
    the maximal ranks fits in 32 bits.  The score is the quotient of the merged
    rank by that product, and the merged rank is the ranks read as the digits
    of a number, plus one.  Of two documents ranked by the same rules, a better rank in an earlier
    rule gives a higher merged rank and a higher score, whatever the later rules
    say: the order of the merged ranks, that of the scores and the lexicographic one of the
    ranks are the same; only equal lists of ranks have the same merged rank or
    scores none of which is lower. *)
Theorem global_rank_lexicographic `{FloatOk} (details1 details2 : list ScoreDetails) (l1 l2 : list Rank) :
  details_rank <$> details1 = Some <$> l1 → details_rank <$> details2 = Some <$> l2 → l1 ≠ [] →
  Forall rank_ok l1 → Forall rank_ok l2 → r_max_rank <$> l1 = r_max_rank <$> l2 → rank_product l1 ≤ u32_max →
  let s1 := global_score details1 in
  let s2 := global_score details2 in
  s1 = f64_div (r_rank (global_rank l1)) (rank_product l1) ∧
  global_rank l1 = mkRank (rank_number l1 + 1) (rank_product l1) ∧ rank_ok (global_rank l1) ∧
  (r_rank (global_rank l1) < r_rank (global_rank l2) ↔ rank_lt l1 l2) ∧
  (global_rank l1 = global_rank l2 ↔ l1 = l2) ∧
  (f64_lt s1 s2 = true ↔ rank_lt l1 l2) ∧
  (f64_lt s1 s2 = false ∧ f64_lt s2 s1 = false ↔ l1 = l2).
Proof.
  intros Hd1 Hd2 Hne H1 H2 Heq Hb s1 s2.
  pose proof (rank_product_maxes _ _ Heq) as Hp.
  assert (Hne2 : l2 ≠ []) by (intros ->; by destruct l1).
  unfold s1, s2. rewrite (global_score_ranks _ l1), (global_score_ranks _ l2) by (done || by rewrite <-Hp).
  unfold local_score. rewrite !global_rank_number by (done || by rewrite <-Hp). rewrite <-Hp. cbn [r_rank r_max_rank].
  pose proof (rank_number_range l1 H1). pose proof (rank_number_range l2 H2).
  pose proof (rank_number_lt l1 l2 H1 H2 Heq) as Hlt. pose proof (rank_number_lt l2 l1 H2 H1 (eq_sym Heq)) as Hgt.
  assert (Hn : rank_number l1 = rank_number l2 ↔ l1 = l2).
  { split; [|by intros ->]. intros Hn. destruct (rank_lt_total l1 l2 Heq) as [?|[?%Hlt|?%Hgt]]; [done|lia..]. }
  assert (Hdiv : ∀ a b, 0 ≤ a < rank_product l1 → 0 ≤ b < rank_product l1 →
    f64_lt (f64_div (a + 1) (rank_product l1)) (f64_div (b + 1) (rank_product l1)) = true ↔ a < b).
  { intros a b Ha Hb'. split; [|intros ?; apply f64_div_lt; lia]. intros Hf.
    destruct (Z.lt_ge_cases a b) as [?|?]; [done|]. rewrite f64_div_mono in Hf; [done|nia..]. }
  split; [done|]. split; [done|]. split; [unfold rank_ok; cbn; lia|]. split; [rewrite <-Hlt; lia|]. split.
  - rewrite <-Hn. split; [by intros [= ?]; lia|by intros ->].
  - rewrite <-!not_true_iff_false, !Hdiv by lia. split; [done|]. rewrite <-Hn. lia.
Qed.

(** The details of the words, exact words and typos rules can be read back
    from their rank, and the other way around. *)
Theorem details_rank_roundtrip n m r :
  0 ≤ n ≤ m → m < u32_max → rank_ok r → r_max_rank r ≤ u32_max →
  Words.from_rank (Words.rank (Words.mk n m)) = Words.mk n m ∧
  ExactWords.from_rank (ExactWords.rank (ExactWords.mk n m)) = ExactWords.mk n m ∧
  Typo.from_rank (Typo.rank (Typo.mk n m)) = Typo.mk n m ∧
  Words.rank (Words.from_rank r) = r ∧ ExactWords.rank (ExactWords.from_rank r) = r ∧
  Typo.rank (Typo.from_rank r) = r.
Proof.
  unfold rank_ok. intros Hn Hm Hr Hmax. destruct r as [a b]. cbn [r_rank r_max_rank] in *.
  unfold Words.from_rank, Words.rank, ExactWords.from_rank, ExactWords.rank, Typo.from_rank, Typo.rank, u32_saturating_sub.
  cbn [r_rank r_max_rank Words.matching_words Words.max_matching_words ExactWords.matching_words
    ExactWords.max_matching_words Typo.typo_count Typo.max_typo_count].
  rewrite !u32_wrap_id by (unfold u32_max in *; lia). split_and!; f_equal; lia.
Qed.

(** Nothing bounds the product of the maximal ranks: merged ranks can wrap around
    and a better document get a lower rank. *)
Lemma rank_merge_wraps :
  let l1 := [mkRank 3 3; mkRank 65536 65536; mkRank 65536 65536] in
  let l2 := [mkRank 2 3; mkRank 65536 65536; mkRank 65535 65536] in
  Forall rank_ok l1 ∧ Forall rank_ok l2 ∧ rank_lt l2 l1 ∧ r_max_rank (global_rank l1) = 0.
Proof. split_and!; [by repeat (constructor; [unfold rank_ok; cbn; lia|])..|cbn; lia|reflexivity]. Qed.

(** ** Witnesses *)

Section witnesses.

(** Scores kept as fractions. *)
#[local] Instance sample_float : Float := {|
  F64 := Z * Z;
  f64_div := λ a b, (a, b);
  f64_zero := (0, 1);
  f64_one := (1, 1);
  f64_lt := λ x y, x.1 * y.2 <? y.1 * x.2;
|}.

#[local] Instance sample_float_ok : FloatOk.
Proof.
  constructor; [intros a b c d Ha Hb Hc Hd Hle|intros a b c Ha Hc Hm Hb Hmb]; cbn; [apply Z.ltb_ge; lia|apply Z.ltb_lt; nia].
Qed.

Definition sample_typo (n : Z) : ScoreDetails := SdTypo (Typo.mk n 3).

Lemma global_rank_lexicographic_witness :
  rank_lt [mkRank 2 3; mkRank 1 4] [mkRank 2 3; mkRank 3 4] ∧
  f64_lt (global_score [SdFid (mkRank 2 3); sample_typo 3]) (global_score [SdFid (mkRank 2 3); sample_typo 1]) = true.
Proof.
  destruct (global_rank_lexicographic [SdFid (mkRank 2 3); sample_typo 3] [SdFid (mkRank 2 3); sample_typo 1]
    [mkRank 2 3; mkRank 1 4] [mkRank 2 3; mkRank 3 4]) as (_ & _ & _ & _ & _ & Hf & _).
  - reflexivity.
  - reflexivity.
  - discriminate.
  - by repeat (constructor; [unfold rank_ok; cbn; lia|]).
  - by repeat (constructor; [unfold rank_ok; cbn; lia|]).
  - reflexivity.
  - cbn. unfold u32_max. lia.
  - assert (Hl : rank_lt [mkRank 2 3; mkRank 1 4] [mkRank 2 3; mkRank 3 4]) by (right; split; [reflexivity|]; left; cbn; lia).
    split; [exact Hl|]. apply Hf, Hl.
Defined.

Lemma details_rank_roundtrip_witness : Typo.from_rank (Typo.rank (Typo.mk 2 5)) = Typo.mk 2 5.
Proof.
  destruct (details_rank_roundtrip 2 5 (mkRank 1 3)) as (_ & _ & Ht & _); [lia|unfold u32_max; lia| | |exact Ht].
  - unfold rank_ok; cbn; lia.
  - unfold u32_max; cbn; lia.
Defined.
End witnesses.
