(* ===== verification/BucketSort.v ===== *)
(** * Bucket sort

    [crates/milli-core/src/search/new/bucket_sort.rs], with the distinct rule of
    [distinct.rs] and the trait of [ranking_rules.rs]: the documents of a search
    are sorted by ranking rules, each one splitting the buckets of the previous
    one, and one page of them is returned. *)

From S2P Require Import Prelude TaskTypes Score.
Open Scope Z_scope.

(** ** Ranking rules *)

(** [RankingRuleOutput]. *)
Record RankingRuleOutput `{Float} (Query : Type) := mkRankingRuleOutput {
  rr_query : Query;
  rr_candidates : bitmap;
  rr_score : ScoreDetails;
}.
Arguments mkRankingRuleOutput {_ _} rr_query rr_candidates rr_score.
Arguments rr_query {_ _} r.
Arguments rr_candidates {_ _} r.
Arguments rr_score {_ _} r.

(** The trait [RankingRule]; a [Rule] is a boxed rule with its state. *)
Class RankingRule `{Float} := {
  Query : Type;
  Rule : Type;
  SearchError : Type;
  start_iteration : Rule → bitmap → Query → outcome SearchError Rule;
  next_bucket : Rule → bitmap → outcome SearchError (option (RankingRuleOutput Query) * Rule);
  end_iteration : Rule → Rule;
}.

(** A rule after some buckets, in universes that lose them and maybe more (the
    documents excluded by the distinct rule). *)
Inductive after_buckets `{RankingRule} : Rule → bitmap → Rule → bitmap → Prop :=
  | after_none r u : after_buckets r u r u
  | after_bucket r u b r1 v r2 w : next_bucket r u = Ok (Some b, r1) → v ⊆ u ∖ rr_candidates b →
      after_buckets r1 v r2 w → after_buckets r u r2 w.

Inductive ScoringStrategy := Skip | Detailed.

(** ** The distinct rule *)

(** The values of the facets of each document, and the documents of each value
    (level 0 of the databases of facets). *)
Record FacetTables := mkFacetTables {
  facet_strings : gmap (Z * Z) (list string);
  facet_numbers : gmap (Z * Z) (list string);
  facet_string_docids : gmap (Z * string) bitmap;
  facet_number_docids : gmap (Z * string) bitmap;
}.

(** [distinct_single_docid]; a number is the bytes of its key. *)
Definition distinct_single_docid (ft : FacetTables) (field_id docid : Z) (excluded : bitmap) : bitmap :=
  let add (docids : gmap (Z * string) bitmap) excluded value :=
    match docids !! (field_id, value) with Some b => excluded ∪ b | None => excluded end in
  let excluded := foldl (add (facet_string_docids ft)) excluded (default [] (facet_strings ft !! (field_id, docid))) in
  foldl (add (facet_number_docids ft)) excluded (default [] (facet_numbers ft !! (field_id, docid))).

(** The loop of [apply_distinct_rule]. *)
Fixpoint distinct_loop (ft : FacetTables) (field_id : Z) (docids : list Z) (remaining excluded : bitmap)
    : bitmap * bitmap :=
  match docids with
  | [] => (remaining, excluded)
  | docid :: docids =>
      if bm_contains excluded docid then distinct_loop ft field_id docids remaining excluded
      else distinct_loop ft field_id docids (remaining ∪ {[docid]}) (distinct_single_docid ft field_id docid excluded)
  end.

(** [apply_distinct_rule]: the documents kept, and those excluded. *)
Definition apply_distinct_rule (ft : FacetTables) (field_id : Z) (candidates : bitmap) : bitmap * bitmap :=
  distinct_loop ft field_id (bm_iter candidates) ∅ ∅.

(** The loop of [bucket_sort] without ranking rules; [limit] is
    [from + length]. *)
Fixpoint placeholder_loop (ft : FacetTables) (field_id : Z) (limit : Z) (docids : list Z)
    (results : list Z) (excluded : bitmap) : list Z * bitmap :=
  match docids with
  | [] => (results, excluded)
  | docid :: docids =>
      if limit <=? Z.of_nat (length results) then (results, excluded)
      else if bm_contains excluded docid then placeholder_loop ft field_id limit docids results excluded
      else placeholder_loop ft field_id limit docids (results ++ [docid])
             (distinct_single_docid ft field_id docid excluded)
  end.

Section bucket_sort.
Context `{RankingRule}.

Record BucketSortOutput := mkBucketSortOutput {
  out_docids : list Z;
  out_scores : list (list ScoreDetails);
  out_all_candidates : bitmap;
  out_degraded : bool;
}.

(** The parameters of a search. *)
Record SearchParams := mkSearchParams {
  sp_facets : FacetTables;
  sp_distinct : option Z;
  sp_from : Z;
  sp_length : Z;
  sp_strategy : ScoringStrategy;
  sp_threshold : option F64;
  sp_exceeded : nat → bool;
}.

(** The local variables of [bucket_sort]. *)
Record SortState := mkSortState {
  ss_rules : list Rule;
  ss_universes : list bitmap;
  ss_cur : nat;
  ss_rule_scores : list ScoreDetails;
  ss_all : bitmap;
  ss_docids : list Z;
  ss_scores : list (list ScoreDetails);
  ss_offset : Z;
}.

Variable P : SearchParams.

(** [cur_offset], [valid_docids] and [valid_scores] after adding the documents
    of a bucket. *)
Definition add_docids (candidates : bitmap) (st : SortState) : SortState :=
  let len := bm_len candidates in
  let add docids :=
    let docids := take (Z.to_nat (sp_length P - Z.of_nat (length (ss_docids st)))) docids in
    (ss_docids st ++ docids, ss_scores st ++ replicate (length docids) (ss_rule_scores st)) in
  let '(docids, scores) :=
    if ss_offset st <? sp_from P then
      if ss_offset st + len <? sp_from P then (ss_docids st, ss_scores st)
      else add (drop (Z.to_nat (sp_from P - ss_offset st)) (bm_iter candidates))
    else add (bm_iter candidates) in
  mkSortState (ss_rules st) (ss_universes st) (ss_cur st) (ss_rule_scores st) (ss_all st) docids scores
    (ss_offset st + len).

(** [maybe_add_to_results]. *)
Definition maybe_add_to_results (candidates : bitmap) (st : SortState) : SortState :=
  let '(candidates, universes, all) :=
    match sp_distinct P with
    | Some fid =>
        let '(remaining, excluded) := apply_distinct_rule (sp_facets P) fid candidates in
        (remaining, (λ u, u ∖ excluded) <$> ss_universes st,
         match ss_universes st with [] => ss_all st | _ => ss_all st ∖ excluded end)
    | None => (candidates, ss_universes st, ss_all st)
    end in
  let st := mkSortState (ss_rules st) universes (ss_cur st) (ss_rule_scores st) (all ∪ candidates)
              (ss_docids st) (ss_scores st) (ss_offset st) in
  if bm_is_empty candidates then st else add_docids candidates st.

Definition output (st : SortState) (degraded : bool) : BucketSortOutput :=
  mkBucketSortOutput (ss_docids st) (ss_scores st) (ss_all st) degraded.

Definition set_universe (u : bitmap) (st : SortState) : SortState :=
  mkSortState (ss_rules st) (<[ss_cur st := u]> (ss_universes st)) (ss_cur st) (ss_rule_scores st) (ss_all st)
    (ss_docids st) (ss_scores st) (ss_offset st).
Definition set_scores (l : list ScoreDetails) (st : SortState) : SortState :=
  mkSortState (ss_rules st) (ss_universes st) (ss_cur st) l (ss_all st) (ss_docids st) (ss_scores st) (ss_offset st).
Definition set_rule (r : Rule) (st : SortState) : SortState :=
  mkSortState (<[ss_cur st := r]> (ss_rules st)) (ss_universes st) (ss_cur st) (ss_rule_scores st) (ss_all st)
    (ss_docids st) (ss_scores st) (ss_offset st).
Definition set_cur (cur : nat) (st : SortState) : SortState :=
  mkSortState (ss_rules st) (ss_universes st) cur (ss_rule_scores st) (ss_all st) (ss_docids st) (ss_scores st)
    (ss_offset st).
Definition drop_candidates (b : bitmap) (st : SortState) : SortState :=
  mkSortState (ss_rules st) (ss_universes st) (ss_cur st) (ss_rule_scores st) (ss_all st ∖ b) (ss_docids st)
    (ss_scores st) (ss_offset st).

(** [Vec::pop]. *)
Definition pop {A} (l : list A) : list A := take (length l - 1) l.

(** The macro [back!]; [None] when there is no parent rule. *)
Definition back (st : SortState) : outcome SearchError (option SortState) :=
  rule ← unwrap (ss_rules st !! ss_cur st);
  let st := set_rule (end_iteration rule) (set_universe ∅ st) in
  match ss_cur st with
  | O => Ok None
  | S cur =>
      Ok (Some (set_cur cur (set_scores (if (cur <? length (ss_rule_scores st))%nat then pop (ss_rule_scores st)
                                         else ss_rule_scores st) st)))
  end.

Definition is_below_threshold (scores : list ScoreDetails) : bool :=
  match sp_threshold P with
  | Some threshold => f64_lt (global_score scores) threshold
  | None => false
  end.

(** The loop that empties the universes once the time budget is exceeded: what is
    left at each level is added unsorted. *)
Fixpoint degrade (fuel : nat) (st : SortState) : outcome SearchError SortState :=
  universe ← unwrap (ss_universes st !! ss_cur st);
  let st := set_universe ∅ st in
  let scores := ss_rule_scores st ++ [SdSkipped] in
  let st := set_scores scores st in
  let st := if is_below_threshold scores then drop_candidates universe st
            else maybe_add_to_results universe st in
  let st := set_scores (pop (ss_rule_scores st)) st in
  match fuel, ss_cur st with
  | S fuel, S _ =>
      parent ← back st;
      match parent with Some st => degrade fuel st | None => Ok st end
  | _, _ => Ok st
  end.

(** What one round of the main loop does: go on, or return. *)
Definition back_or_end (st : SortState) : outcome SearchError (SortState + BucketSortOutput) :=
  parent ← back st;
  Ok match parent with Some st => inl st | None => inr (output st false) end.

Definition is_skip (s : ScoringStrategy) : bool := match s with Skip => true | Detailed => false end.

(** A bucket of the current rule: add it to the results, or let the next rule
    sort it. *)
Definition use_bucket (bucket : RankingRuleOutput Query) (st : SortState) : outcome SearchError SortState :=
  let candidates := rr_candidates bucket in
  let st := set_scores (ss_rule_scores st ++ [rr_score bucket]) st in
  let below := is_below_threshold (ss_rule_scores st) in
  universe ← unwrap (ss_universes st !! ss_cur st);
  let universe := universe ∖ candidates in
  let st := set_universe universe st in
  if (ss_cur st =? length (ss_rules st) - 1)%nat
     || (is_skip (sp_strategy P) && (bm_len candidates <=? 1))
     || (ss_offset st + bm_len candidates <? sp_from P)
     || below
  then
    let st := if below then drop_candidates universe (drop_candidates candidates st)
              else maybe_add_to_results candidates st in
    Ok (set_scores (pop (ss_rule_scores st)) st)
  else
    let st := set_universe candidates (set_cur (S (ss_cur st)) st) in
    rule ← unwrap (ss_rules st !! ss_cur st);
    rule ← start_iteration rule candidates (rr_query bucket);
    Ok (set_rule rule st).

(** One round of the [while] loop; [k] counts the rounds. *)
Definition sort_round (k : nat) (st : SortState) : outcome SearchError (SortState + BucketSortOutput) :=
  if sp_length P <=? Z.of_nat (length (ss_docids st)) then Ok (inr (output st false))
  else if sp_exceeded P k then
    st ← degrade (ss_cur st) st;
    Ok (inr (output st true))
  else
    universe ← unwrap (ss_universes st !! ss_cur st);
    if bm_is_empty universe || (is_skip (sp_strategy P) && (bm_len universe =? 1)) then
      back_or_end (maybe_add_to_results universe (set_universe ∅ st))
    else
      rule ← unwrap (ss_rules st !! ss_cur st);
      '(bucket, rule) ← next_bucket rule universe;
      let st := set_rule rule st in
      match bucket with
      | None => back_or_end st
      | Some bucket => st ← use_bucket bucket st; Ok (inl st)
      end.

(** The [while] loop; [None] is out of fuel. *)
Fixpoint sort_loop (fuel k : nat) (st : SortState) : option (outcome SearchError BucketSortOutput) :=
  match fuel with
  | O => None
  | S fuel =>
      match sort_round k st with
      | Ok (inl st) => sort_loop fuel (S k) st
      | Ok (inr out) => Some (Ok out)
      | Err e => Some (Err e)
      | Panic => Some Panic
      end
  end.

(** [bucket_sort]. *)
Definition bucket_sort (fuel : nat) (rules : list Rule) (query : Query) (universe : bitmap)
    : option (outcome SearchError BucketSortOutput) :=
  let from := sp_from P in
  let length' := sp_length P in
  if bm_len universe <? from then Some (Ok (mkBucketSortOutput [] [] universe false))
  else
    match rules with
    | [] =>
        match sp_distinct P with
        | Some fid =>
            let '(results, excluded) :=
              placeholder_loop (sp_facets P) fid (u64_wrap (from + length')) (bm_iter universe) [] ∅ in
            let all := (universe ∖ excluded) ∪ list_to_set results in
            let results := if from <=? Z.of_nat (length results) then drop (Z.to_nat from) results else [] in
            Some (Ok (mkBucketSortOutput results (replicate (length results) []) all false))
        | None =>
            let docids := take (Z.to_nat length') (drop (Z.to_nat from) (bm_iter universe)) in
            Some (Ok (mkBucketSortOutput docids (replicate (length docids) []) universe false))
        end
    | rule :: rules =>
        match start_iteration rule universe query with
        | Ok rule =>
            sort_loop fuel 0 (mkSortState (rule :: rules) (universe :: replicate (length rules) ∅) 0 [] universe [] [] 0)
        | Err e => Some (Err e)
        | Panic => Some Panic
        end
    end.
End bucket_sort.

(** ** The distinct rule *)

Section distinct.
Variable ft : FacetTables.
Variable fid : Z.

(** The documents that share a value with [x]. *)
Definition sharing (x : Z) : bitmap := distinct_single_docid ft fid x ∅.

Lemma distinct_single_union x excluded : distinct_single_docid ft fid x excluded = excluded ∪ sharing x.
Proof.
  assert (Hadd : ∀ (m : gmap (Z * string) bitmap) (l : list string) e, foldl (λ (e : bitmap) v,
      match m !! (fid, v) with Some b => e ∪ b | None => e end) e l = e ∪ foldl (λ (e : bitmap) v,
      match m !! (fid, v) with Some b => e ∪ b | None => e end) ∅ l).
  { intros m l. induction l as [|v l IH]; intros e; cbn; [set_solver|].
    destruct (m !! (fid, v)) as [b|]; [|apply IH]. rewrite IH, (IH (∅ ∪ b)). set_solver. }
  unfold sharing, distinct_single_docid.
  rewrite (Hadd _ _ (foldl _ excluded _)), (Hadd _ _ (foldl _ ∅ _)), (Hadd _ _ excluded). set_solver.
Qed.

(** Documents of which no two share a value. *)
Definition unrelated (l : list Z) : Prop := ∀ x y, x ∈ l → y ∈ l → x ≠ y → y ∉ sharing x.

(** Values and documents agree, so that sharing a value is symmetric. *)
Definition sharing_symmetric : Prop := ∀ x y, y ∈ sharing x → x ∈ sharing y.

Hypothesis Hsym : sharing_symmetric.

Lemma distinct_loop_spec docids : ∀ remaining excluded remaining' excluded',
  distinct_loop ft fid docids remaining excluded = (remaining', excluded') →
  (∀ y, y ∈ excluded ↔ ∃ x, x ∈ remaining ∧ y ∈ sharing x) →
  (∀ x y, x ∈ remaining → y ∈ remaining → x ≠ y → y ∉ sharing x) →
  remaining ⊆ remaining' ∧ (∀ x, x ∈ remaining' → x ∈ remaining ∨ x ∈ docids) ∧
  (∀ y, y ∈ excluded' ↔ ∃ x, x ∈ remaining' ∧ y ∈ sharing x) ∧
  (∀ x y, x ∈ remaining' → y ∈ remaining' → x ≠ y → y ∉ sharing x) ∧
  (∀ x, x ∈ docids → x ∈ remaining' ∨ x ∈ excluded').
Proof.
  induction docids as [|d docids IH]; intros remaining excluded remaining' excluded' Hr He Hp; cbn [distinct_loop] in Hr.
  { simplify_eq. split_and!; [done|by left|done|done|]. by intros x ?%elem_of_nil. }
  unfold bm_contains in Hr. case_bool_decide as Hd.
  - destruct (IH _ _ _ _ Hr He Hp) as (Hs & Hin & He' & Hp' & Hall). split_and!; [done| |done|done|].
    + intros x Hx. destruct (Hin x Hx); [by left|right; by right].
    + intros x [->|?]%elem_of_cons; [right|by apply Hall]. apply He'. apply He in Hd as (x & Hx & Hy). eauto.
  - destruct (IH _ _ _ _ Hr) as (Hs & Hin & He' & Hp' & Hall).
    + intros y. rewrite distinct_single_union, elem_of_union, He. split.
      * intros [(x & ? & ?)|?]; [exists x|exists d]; (split; [apply elem_of_union|done]); [by left|right; by apply elem_of_singleton].
      * intros (x & [?| ->%elem_of_singleton]%elem_of_union & ?); [left; eauto|by right].
    + assert (Hfree : ∀ x, x ∈ remaining → d ∉ sharing x) by (intros x Hx Hin; apply Hd, He; eauto).
      intros x y [Hx| ->%elem_of_singleton]%elem_of_union [Hy| ->%elem_of_singleton]%elem_of_union Hne;
        [by apply Hp|by apply Hfree|intros Hin%Hsym; by apply (Hfree y)|done].
    + split_and!; [set_solver| |done|done|].
      * intros x Hx. destruct (Hin x Hx) as [[?| ->%elem_of_singleton]%elem_of_union|?]; [by left|right; by left|right; by right].
      * intros x [->|?]%elem_of_cons; [left; set_solver|by apply Hall].
Qed.

Lemma apply_distinct_spec candidates remaining excluded :
  apply_distinct_rule ft fid candidates = (remaining, excluded) →
  remaining ⊆ candidates ∧ (∀ y, y ∈ excluded ↔ ∃ x, x ∈ remaining ∧ y ∈ sharing x) ∧
  (∀ x y, x ∈ remaining → y ∈ remaining → x ≠ y → y ∉ sharing x) ∧
  (∀ x, x ∈ candidates → x ∈ remaining ∨ x ∈ excluded).
Proof.
  unfold apply_distinct_rule. intros Hr.
  destruct (distinct_loop_spec _ _ _ _ _ Hr) as (_ & Hin & He & Hp & Hall).
  - intros y. split; [set_solver|]. intros (x & ? & _). set_solver.
  - intros x y Hx. set_solver.
  - split_and!; [|done|done|]; intros x Hx.
    + destruct (Hin x Hx) as [?|?%elem_of_bm_iter]; [set_solver|done].
    + apply Hall. by apply elem_of_bm_iter.
Qed.
End distinct.

(** ** What every search returns *)

Section safety.
Context `{RankingRule}.
Variable P : SearchParams.
Variable U : bitmap.
Variable n : nat.
Hypothesis Hlength : 0 ≤ sp_length P.
Hypothesis Hfrom : 0 ≤ sp_from P.
Hypothesis Hsym : ∀ fid, sp_distinct P = Some fid → sharing_symmetric (sp_facets P) fid.

(** The state of the loop: the universes are disjoint, empty below the current
    rule, and hold no document that was returned or that shares its distinct
    value with one that was. *)
Record sort_inv (st : SortState) : Prop := {
  si_cur : (ss_cur st < n)%nat;
  si_rules : length (ss_rules st) = n;
  si_universes : length (ss_universes st) = n;
  si_sub : ∀ i u, ss_universes st !! i = Some u → u ⊆ U;
  si_below : ∀ i u, (ss_cur st < i)%nat → ss_universes st !! i = Some u → u = ∅;
  si_disjoint : ∀ i j u v, i ≠ j → ss_universes st !! i = Some u → ss_universes st !! j = Some v → u ## v;
  si_all : ss_all st ⊆ U;
  si_docids : ∀ x, x ∈ ss_docids st → x ∈ ss_all st;
  si_fresh : ∀ x i u, x ∈ ss_docids st → ss_universes st !! i = Some u → x ∉ u;
  si_nodup : NoDup (ss_docids st);
  si_length : Z.of_nat (length (ss_docids st)) ≤ sp_length P;
  si_scores : length (ss_scores st) = length (ss_docids st);
  si_offset : 0 ≤ ss_offset st;
  si_distinct : ∀ fid, sp_distinct P = Some fid → unrelated (sp_facets P) fid (ss_docids st) ∧
    ∀ x i u y, x ∈ ss_docids st → ss_universes st !! i = Some u → y ∈ u → y ∉ sharing (sp_facets P) fid x;
}.

(** Documents that were just taken out of the universes. *)
Record usable (c : bitmap) (st : SortState) : Prop := {
  us_sub : c ⊆ U;
  us_disjoint : ∀ i u, ss_universes st !! i = Some u → c ## u;
  us_fresh : ∀ x, x ∈ ss_docids st → x ∉ c;
  us_distinct : ∀ fid x y, sp_distinct P = Some fid → x ∈ ss_docids st → y ∈ c → y ∉ sharing (sp_facets P) fid x;
}.

Lemma lookup_set_universe u st i v :
  (ss_cur st < length (ss_universes st))%nat → ss_universes (set_universe u st) !! i = Some v →
  (i = ss_cur st ∧ v = u) ∨ (i ≠ ss_cur st ∧ ss_universes st !! i = Some v).
Proof.
  intros Hlt. cbn. destruct (decide (i = ss_cur st)) as [->|Hne].
  - rewrite list_lookup_insert_eq by done. intros [= <-]. by left.
  - rewrite list_lookup_insert_ne by done. by right.
Qed.

(** Taking the documents [c] out of the current universe. *)
Lemma take_out c u st :
  sort_inv st → ss_universes st !! ss_cur st = Some u → c ⊆ u →
  sort_inv (set_universe (u ∖ c) st) ∧ usable c (set_universe (u ∖ c) st).
Proof.
  intros [Hcur Hrules Huniv Hsub Hbelow Hdis Hall Hdoc Hfresh Hnd Hlen Hsc Hoff Hdist] Hu Hc.
  assert (Hlt : (ss_cur st < length (ss_universes st))%nat) by lia. split; constructor; cbn; try done.
  - by rewrite length_insert.
  - intros i v [[-> ->]|[_ Hv]]%lookup_set_universe; [|by eapply Hsub|done]. pose proof (Hsub _ _ Hu). set_solver.
  - intros i v Hi [[-> ->]|[_ Hv]]%lookup_set_universe; [lia|by eapply Hbelow|done].
  - intros i j v w Hij [[-> ->]|[Hi Hv]]%lookup_set_universe [[-> ->]|[Hj Hw]]%lookup_set_universe; try done.
    + pose proof (Hdis _ _ _ _ Hij Hu Hw). set_solver.
    + pose proof (Hdis _ _ _ _ Hij Hv Hu). set_solver.
    + exact (Hdis _ _ _ _ Hij Hv Hw).
  - intros x i v Hx [[-> ->]|[_ Hv]]%lookup_set_universe; [|by eapply Hfresh|done].
    pose proof (Hfresh _ _ _ Hx Hu). set_solver.
  - intros fid Hfid. destruct (Hdist fid Hfid) as [Hun Hd]. split; [done|].
    intros x i v y Hx [[-> ->]|[_ Hv]]%lookup_set_universe Hy; [|by eapply Hd|done].
    eapply Hd; [done|exact Hu|]. set_solver.
  - pose proof (Hsub _ _ Hu). set_solver.
  - intros i v [[-> ->]|[Hi Hv]]%lookup_set_universe; [set_solver| |done].
    pose proof (Hdis _ _ _ _ Hi Hv Hu). set_solver.
  - intros x Hx Hin. apply (Hfresh _ _ _ Hx Hu). set_solver.
  - intros fid x y Hfid Hx Hy. destruct (Hdist fid Hfid) as [_ Hd]. eapply Hd; [done|exact Hu|]. set_solver.
Qed.

Lemma add_docids_eq c st : 0 ≤ ss_offset st → ∃ l,
  l `sublist_of` bm_iter c ∧ Z.of_nat (length l) ≤ Z.max 0 (sp_length P - Z.of_nat (length (ss_docids st))) ∧
  add_docids P c st = mkSortState (ss_rules st) (ss_universes st) (ss_cur st) (ss_rule_scores st) (ss_all st)
    (ss_docids st ++ l) (ss_scores st ++ replicate (length l) (ss_rule_scores st)) (ss_offset st + bm_len c).
Proof.
  intros Hoff. unfold add_docids.
  set (L := Z.to_nat (sp_length P - Z.of_nat (length (ss_docids st)))).
  assert (Hlen : ∀ l : list Z, Z.of_nat (length (take L l)) ≤ Z.max 0 (sp_length P - Z.of_nat (length (ss_docids st)))).
  { intros l. rewrite length_take. lia. }
  destruct (ss_offset st <? sp_from P); [destruct (ss_offset st + bm_len c <? sp_from P)|].
  - exists []. split; [apply sublist_nil_l|]. split; [cbn; lia|]. by rewrite !app_nil_r.
  - eexists. split; [|split; [apply Hlen|reflexivity]].
    etransitivity; [apply sublist_take|apply sublist_drop].
  - eexists. split; [|split; [apply Hlen|reflexivity]]. apply sublist_take.
Qed.

Lemma lookup_fmap_difference (l : list bitmap) e i v :
  (λ u, u ∖ e) <$> l !! i = Some v → ∃ u, l !! i = Some u ∧ v = u ∖ e.
Proof. intros (u & Hu & ->)%fmap_Some. eauto. Qed.

Lemma maybe_add_inv c st : sort_inv st → usable c st → sort_inv (maybe_add_to_results P c st).
Proof.
  intros [Hcur Hrules Huniv Hsub Hbelow Hdis Hall Hdoc Hfresh Hnd Hlen Hsc Hoff Hdist] [Us Ud Uf Udist].
  assert (Hadd : ∀ c' universes all, c' ⊆ c → all ⊆ U → c' ⊆ all → length universes = n →
    (∀ x, x ∈ ss_docids st → x ∈ all) →
    (∀ i v, universes !! i = Some v → ∃ u, ss_universes st !! i = Some u ∧ v ⊆ u) →
    (∀ fid, sp_distinct P = Some fid → (∀ x y, x ∈ c' → y ∈ c' → x ≠ y → y ∉ sharing (sp_facets P) fid x) ∧
      ∀ i v x y, universes !! i = Some v → x ∈ c' → y ∈ v → y ∉ sharing (sp_facets P) fid x) →
    sort_inv (let st := mkSortState (ss_rules st) universes (ss_cur st) (ss_rule_scores st) all (ss_docids st)
                (ss_scores st) (ss_offset st) in if bm_is_empty c' then st else add_docids P c' st)).
  { intros c' universes all Hc' Hall' Hca Hlu Hda Hmon Hshare. cbv zeta.
    set (st1 := mkSortState _ universes _ _ all _ _ _).
    assert (Hl : ∃ l off, l `sublist_of` bm_iter c' ∧ ss_offset st ≤ off ∧
      Z.of_nat (length l) ≤ Z.max 0 (sp_length P - Z.of_nat (length (ss_docids st))) ∧
      (if bm_is_empty c' then st1 else add_docids P c' st1) =
      mkSortState (ss_rules st) universes (ss_cur st) (ss_rule_scores st) all (ss_docids st ++ l)
        (ss_scores st ++ replicate (length l) (ss_rule_scores st)) off).
    { destruct (bm_is_empty c').
      - exists [], (ss_offset st). split; [apply sublist_nil_l|]. split; [lia|]. split; [cbn; lia|]. cbn. by rewrite !app_nil_r.
      - destruct (add_docids_eq c' st1 Hoff) as (l & ? & ? & Heq). exists l, (ss_offset st + bm_len c').
        split_and!; [done|unfold bm_len; lia|done|exact Heq]. }
    destruct Hl as (l & off & Hsl & Hoff' & Hll & ->).
    assert (Hin : ∀ x, x ∈ l → x ∈ c') by (intros x Hx; apply elem_of_bm_iter; by eapply elem_of_sublist).
    constructor; cbn; try done.
    - intros i v (u & Hu & Hv)%Hmon. etransitivity; [exact Hv|by eapply Hsub].
    - intros i v Hi (u & Hu & Hv)%Hmon. rewrite (Hbelow i u Hi Hu) in Hv. set_solver.
    - intros i j v w Hij (u & Hu & Hv)%Hmon (u' & Hu' & Hw)%Hmon. pose proof (Hdis _ _ _ _ Hij Hu Hu'). set_solver.
    - intros x [?|?%Hin]%elem_of_app; [by apply Hda|set_solver].
    - intros x i v Hx (u & Hu & Hv)%Hmon Hxv. apply elem_of_app in Hx as [Hx|Hx%Hin].
      + apply (Hfresh x i u Hx Hu). set_solver.
      + pose proof (Ud i u Hu). set_solver.
    - apply NoDup_app. split_and!; [done| |].
      + intros x Hx Hx'%Hin. apply (Uf x Hx). set_solver.
      + eapply sublist_NoDup; [apply NoDup_bm_iter|done].
    - rewrite length_app. lia.
    - rewrite !length_app, length_replicate. lia.
    - lia.
    - intros fid Hfid. destruct (Hdist fid Hfid) as [Hun Hd]. destruct (Hshare fid Hfid) as [Hcc Hcu].
      assert (Hold : ∀ x y, x ∈ ss_docids st → y ∈ c' → y ∉ sharing (sp_facets P) fid x)
        by (intros x y Hx Hy; apply Udist; [done|done|set_solver]).
      split.
      + intros x y [Hx|Hx%Hin]%elem_of_app [Hy|Hy%Hin]%elem_of_app Hne; [by apply Hun|by apply Hold| |by apply Hcc].
        intros Hs%(Hsym fid Hfid). by apply (Hold y x).
      + intros x i v y [Hx|Hx%Hin]%elem_of_app Hv Hy; [|by eapply Hcu].
        destruct (Hmon i v Hv) as (u & Hu & Hvu). eapply Hd; [done|exact Hu|set_solver]. }
  unfold maybe_add_to_results. destruct (sp_distinct P) as [fid|] eqn:Hfid.
  - destruct (apply_distinct_rule (sp_facets P) fid c) as [remaining excluded] eqn:Hr.
    destruct (apply_distinct_spec _ _ (Hsym fid eq_refl) _ _ _ Hr) as (Hrem & Hexc & Hpair & _).
    destruct (ss_universes st) as [|u0 us] eqn:Hus; [cbn in Huniv; lia|]. rewrite <-Hus in *. clear Hus u0 us.
    apply Hadd; [done|set_solver|set_solver|by rewrite length_fmap| | |].
    + intros x Hx. apply elem_of_union_l, elem_of_difference. split; [by apply Hdoc|].
      intros (y & Hy & Hs%(Hsym fid eq_refl))%Hexc. eapply (Udist fid x y); [done|done|set_solver|done].
    + intros i v Hv. rewrite list_lookup_fmap in Hv. apply lookup_fmap_difference in Hv as (u & Hu & ->). exists u. set_solver.
    + intros fid' [= <-]. split; [done|]. intros i v x y Hv Hx Hy Hs. rewrite list_lookup_fmap in Hv.
      apply lookup_fmap_difference in Hv as (u & Hu & ->). apply elem_of_difference in Hy as [_ Hy]. apply Hy, Hexc. eauto.
  - apply Hadd; [done|set_solver|set_solver|done|set_solver| |done]. intros i v Hv. by exists v.
Qed.

Lemma drop_inv b st : sort_inv st → (∀ x, x ∈ ss_docids st → x ∉ b) → sort_inv (drop_candidates b st).
Proof.
  intros [Hcur Hrules Huniv Hsub Hbelow Hdis Hall Hdoc Hfresh Hnd Hlen Hsc Hoff Hdist] Hb.
  constructor; cbn; try done; [set_solver|]. intros x Hx. apply elem_of_difference. split; [by apply Hdoc|by apply Hb].
Qed.

Lemma scores_inv l st : sort_inv st → sort_inv (set_scores l st).
Proof. intros []. by constructor. Qed.

Lemma rule_inv r st : sort_inv st → sort_inv (set_rule r st).
Proof. intros []. constructor; try done. cbn. by rewrite length_insert. Qed.

Lemma usable_scores c l st : usable c st → usable c (set_scores l st).
Proof. intros []. by constructor. Qed.

(** Handing the documents [c] to the next rule. *)
Lemma push_inv c st :
  sort_inv st → usable c st → (S (ss_cur st) < n)%nat → sort_inv (set_universe c (set_cur (S (ss_cur st)) st)).
Proof.
  intros [Hcur Hrules Huniv Hsub Hbelow Hdis Hall Hdoc Hfresh Hnd Hlen Hsc Hoff Hdist] [Us Ud Uf Udist] Hn.
  assert (Hlt : (ss_cur (set_cur (S (ss_cur st)) st) < length (ss_universes (set_cur (S (ss_cur st)) st)))%nat) by (cbn; lia).
  constructor; try done.
  - cbn. by rewrite length_insert.
  - intros i v [[-> ->]|[_ Hv]]%lookup_set_universe; [done|by eapply Hsub|done].
  - intros i v Hi [[-> ->]|[_ Hv]]%lookup_set_universe; [cbn in Hi; lia| |done].
    eapply Hbelow; [|exact Hv]. cbn in Hi. lia.
  - intros i j v w Hij [[-> ->]|[Hi Hv]]%lookup_set_universe [[-> ->]|[Hj Hw]]%lookup_set_universe; try done.
    + by eapply Ud.
    + symmetry. by eapply Ud.
    + exact (Hdis _ _ _ _ Hij Hv Hw).
  - intros x i v Hx [[-> ->]|[_ Hv]]%lookup_set_universe; [by apply Uf|by eapply Hfresh|done].
  - intros fid Hfid. destruct (Hdist fid Hfid) as [Hun Hd]. split; [done|].
    intros x i v y Hx [[-> ->]|[_ Hv]]%lookup_set_universe Hy; [by apply Udist|by eapply Hd|done].
Qed.

(** Going back to the parent rule. *)
Lemma back_inv st : sort_inv st →
  (ss_cur st = O ∧ back st = Ok None) ∨
  ∃ st' cur, ss_cur st = S cur ∧ back st = Ok (Some st') ∧ sort_inv st' ∧ ss_cur st' = cur ∧
    (∃ r, ss_rules st' = <[S cur := r]> (ss_rules st)) ∧ ss_universes st' = <[S cur := ∅]> (ss_universes st).
Proof.
  intros Hi. destruct (lookup_lt_is_Some_2 (ss_rules st) (ss_cur st)) as [r Hr]; [destruct Hi; lia|].
  destruct (lookup_lt_is_Some_2 (ss_universes st) (ss_cur st)) as [u Hu]; [destruct Hi; lia|].
  unfold back. rewrite Hr. cbn [unwrap mbind outcome_bind].
  destruct (take_out u u st Hi Hu ltac:(done)) as [Hi' _].
  replace (u ∖ u) with (∅ : bitmap) in Hi' by set_solver.
  apply (rule_inv (end_iteration r)) in Hi'. set (st1 := set_rule _ _) in *.
  assert (Hc1 : ss_cur st1 = ss_cur st) by done. rewrite Hc1.
  destruct (ss_cur st) as [|cur] eqn:Hcur; [by left|right].
  eexists _, cur. split; [done|]. split; [done|]. split; [|split; [done|split; [|]]].
  - pose proof (scores_inv (if (cur <? length (ss_rule_scores st1))%nat then pop (ss_rule_scores st1)
      else ss_rule_scores st1) st1 Hi') as [Hcur' ?? Hsub Hbelow ?????????].
    constructor; try done; [cbn; cbn in Hcur'; lia|]. cbn [set_cur ss_cur ss_universes].
    intros i v Hi1 Hv. destruct (decide (i = S cur)) as [->|Hne].
    + cbn in Hv. rewrite Hcur in Hv. rewrite list_lookup_insert_eq in Hv; [by simplify_eq|].
      apply lookup_lt_Some in Hu. done.
    + eapply Hbelow; [|exact Hv]. cbn. rewrite Hcur. lia.
  - cbn. rewrite Hcur. eauto.
  - cbn. by rewrite Hcur.
Qed.

Lemma degrade_inv fuel : ∀ st, sort_inv st → ∃ st', degrade P fuel st = Ok st' ∧ sort_inv st'.
Proof.
  induction fuel as [|fuel IH]; intros st Hi; cbn [degrade];
    (destruct (lookup_lt_is_Some_2 (ss_universes st) (ss_cur st)) as [u Hu]; [destruct Hi; lia|]);
    rewrite Hu; cbn [unwrap mbind outcome_bind];
    (destruct (take_out u u st Hi Hu ltac:(done)) as [Hi' Hus]);
    replace (u ∖ u) with (∅ : bitmap) in Hi', Hus by set_solver;
    (set (scores := ss_rule_scores _ ++ _) in * );
    apply (scores_inv scores) in Hi'; apply (usable_scores _ scores) in Hus;
    set (st1 := set_scores scores _) in *;
    (assert (Hi2 : sort_inv (if is_below_threshold P scores then drop_candidates u st1 else maybe_add_to_results P u st1));
     [destruct (is_below_threshold P scores); [apply drop_inv; [done|by apply Hus]|by apply maybe_add_inv]|]);
    set (st2 := if is_below_threshold P scores then _ else _) in *;
    apply (scores_inv (pop (ss_rule_scores st2))) in Hi2.
  - by eexists.
  - cbn [ss_cur set_scores]. destruct (ss_cur st2) as [|cur] eqn:Hcur; [by eexists|].
    destruct (back_inv _ Hi2) as [[Hc ->]|(st' & cur' & _ & -> & Hi3 & _)].
    + cbn in Hc. congruence.
    + cbn [mbind outcome_bind]. by apply IH.
Qed.

(** ** Every search ends *)

(** The contract of a ranking rule.  A rule that is not in use starts on any
    universe, with a valid query; started on a universe it is started on what is left of
    it; a bucket is a subset of the universe with a valid query for the rule that
    follows; only finitely many buckets in a row are empty, and nothing panics. *)
Class RankingRuleOk := {
  query_valid : Query → Prop;
  rule_idle : Rule → Prop;
  rule_started : Rule → bitmap → Prop;
  rule_remaining : Rule → nat;
  started_mono : ∀ r u v, v ⊆ u → rule_started r u → rule_started r v;
  end_idle : ∀ r u, rule_started r u → rule_idle (end_iteration r);
  start_ok : ∀ r u q, rule_idle r → query_valid q →
    match start_iteration r u q with Ok r' => rule_started r' u | Err _ => True | Panic => False end;
  next_ok : ∀ r u, rule_started r u → u ≠ ∅ →
    match next_bucket r u with
    | Ok (Some b, r') => rr_candidates b ⊆ u ∧ query_valid (rr_query b) ∧ rule_started r' (u ∖ rr_candidates b) ∧
        (rr_candidates b ≠ ∅ ∨ (rule_remaining r' < rule_remaining r)%nat)
    | Ok (None, r') => rule_idle (end_iteration r')
    | Err _ => True
    | Panic => False
    end;
}.
Context `{!RankingRuleOk}.

Definition lt2 (x y : nat * nat) : Prop := (x.1 < y.1)%nat ∨ (x.1 = y.1 ∧ (x.2 < y.2)%nat).
Definition le2 (x y : nat * nat) : Prop := x = y ∨ lt2 x y.

Lemma lt2_wf : well_founded lt2.
Proof.
  intros [a b]. revert b. induction (lt_wf a) as [a _ IHa]. intros b. induction (lt_wf b) as [b _ IHb].
  constructor. intros [c d] [Hlt|[Heq Hlt]]; cbn in *; [by apply IHa|subst; by apply IHb].
Qed.

(** The order of a dictionary. *)
Inductive dict : list (nat * nat) → list (nat * nat) → Prop :=
| dict_nil x l : dict [] (x :: l)
| dict_lt x y l l' : lt2 x y → dict (x :: l) (y :: l')
| dict_eq x l l' : dict l l' → dict (x :: l) (x :: l').

Lemma dict_app a b s t : Forall2 le2 a b → dict s t → dict (a ++ s) (b ++ t).
Proof. induction 1 as [|x y a b [->|Hlt] _ IH]; intros Hst; [done|by apply dict_eq, IH|by apply dict_lt]. Qed.

Lemma dict_wf m : ∀ l, (length l ≤ m)%nat → Acc (λ a b, (length a ≤ m)%nat ∧ dict a b) l.
Proof.
  induction m as [|m IH]; intros l Hl.
  { destruct l; [|cbn in Hl; lia]. constructor. intros a [_ Ha]. inversion Ha. }
  destruct l as [|y l]; [constructor; intros a [_ Ha]; inversion Ha|]. revert l Hl.
  induction (lt2_wf y) as [y _ IHy]. intros l Hl. cbn in Hl.
  induction (IH l ltac:(lia)) as [l _ IHl]. constructor. intros a [Ha Hd].
  inversion Hd as [|x ? l' ? Hlt|? l' ? Hd']; subst.
  - constructor. intros b [_ Hb]. inversion Hb.
  - by apply IHy.
  - cbn in Ha. apply IHl; [split; [lia|done]|lia].
Qed.

Definition level (u : bitmap) (r : Rule) : nat * nat := (size u, rule_remaining r).
Definition levels (st : SortState) : list (nat * nat) :=
  zip_with level (take (S (ss_cur st)) (ss_universes st)) (take (S (ss_cur st)) (ss_rules st)).
Definition lower (st : SortState) : list (nat * nat) :=
  zip_with level (take (ss_cur st) (ss_universes st)) (take (ss_cur st) (ss_rules st)).

Lemma levels_split st u r :
  ss_universes st !! ss_cur st = Some u → ss_rules st !! ss_cur st = Some r → levels st = lower st ++ [level u r].
Proof.
  intros Hu Hr. unfold levels, lower. rewrite (take_S_r _ _ _ Hu), (take_S_r _ _ _ Hr).
  rewrite zip_with_app; [done|]. apply lookup_lt_Some in Hu, Hr. rewrite !length_take. lia.
Qed.

Lemma le2_list_refl l : Forall2 le2 l l.
Proof. induction l; constructor; [by left|done]. Qed.

(** The rules before the current one are started on their universes, those after
    it are not in use. *)
Record others_ok (st : SortState) : Prop := {
  oo_below : ∀ i r u, (i < ss_cur st)%nat → ss_rules st !! i = Some r → ss_universes st !! i = Some u → rule_started r u;
  oo_above : ∀ i r, (ss_cur st < i)%nat → ss_rules st !! i = Some r → rule_idle r;
}.
(** What is true of the current rule. *)
Definition current (Q : Rule → bitmap → Prop) (st : SortState) : Prop :=
  ∀ r u, ss_rules st !! ss_cur st = Some r → ss_universes st !! ss_cur st = Some u → Q r u.
Definition ready (st : SortState) : Prop := others_ok st ∧ current rule_started st.
Definition ended (r : Rule) (_ : bitmap) : Prop := rule_idle (end_iteration r).

Lemma others_set_rule r st : others_ok st → others_ok (set_rule r st).
Proof.
  intros [Hb Ha]. constructor; cbn; intros i r' .
  - intros u Hi. rewrite list_lookup_insert_ne by lia. by apply Hb.
  - intros Hi. rewrite list_lookup_insert_ne by lia. by apply Ha.
Qed.
Lemma others_set_universe u st : others_ok st → others_ok (set_universe u st).
Proof.
  intros [Hb Ha]. constructor; cbn; [|done]. intros i r u' Hi Hr. rewrite list_lookup_insert_ne by lia. by apply Hb.
Qed.
Lemma current_set_rule (Q : Rule → bitmap → Prop) r st :
  (∀ u, ss_universes st !! ss_cur st = Some u → Q r u) → current Q (set_rule r st).
Proof. intros HQ r' u Hr Hu. cbn in Hr, Hu. apply list_lookup_insert_Some in Hr as [(_ & <- & _)|[? _]]; [by apply HQ|done]. Qed.
Lemma ready_same st st' : ss_rules st' = ss_rules st → ss_universes st' = ss_universes st → ss_cur st' = ss_cur st → ready st → ready st'.
Proof. intros Hr Hu Hc [[Hb Ha] Hcur]. split; [constructor|unfold current]; by rewrite Hr, ?Hu, Hc. Qed.
Lemma current_ended st : current rule_started st → current ended st.
Proof. intros Hc r u Hr Hu. eapply end_idle. by apply Hc. Qed.

(** The universes only shrink. *)
Definition shrunk (st' st : SortState) : Prop :=
  ss_rules st' = ss_rules st ∧ ss_cur st' = ss_cur st ∧ Forall2 (⊆) (ss_universes st') (ss_universes st).

Lemma shrunk_lower st' st : shrunk st' st → Forall2 le2 (lower st') (lower st).
Proof.
  intros (Hr & Hc & Hu). unfold lower. rewrite Hr, Hc. generalize (ss_cur st) (ss_rules st). intros k.
  revert k. induction Hu as [|u v us vs Huv _ IH]; intros [|k] [|r rules]; cbn; constructor; [|apply IH].
  unfold level. destruct (decide (u = v)) as [->|Hne]; [by left|]. right. left. cbn. apply subset_size. set_solver.
Qed.

Lemma Forall2_subseteq_refl (l : list bitmap) : Forall2 (⊆) l l.
Proof. induction l; by constructor. Qed.

Lemma maybe_add_shrunk c st : shrunk (maybe_add_to_results P c st) st.
Proof.
  assert (Hadd : ∀ c st, ss_rules (add_docids P c st) = ss_rules st ∧ ss_cur (add_docids P c st) = ss_cur st ∧
    ss_universes (add_docids P c st) = ss_universes st).
  { intros c' st'. unfold add_docids. by repeat case_match. }
  unfold maybe_add_to_results, shrunk. destruct (sp_distinct P) as [fid|].
  - destruct (apply_distinct_rule (sp_facets P) fid c) as [remaining excluded].
    assert (Hsh : Forall2 (⊆) ((λ u, u ∖ excluded) <$> ss_universes st) (ss_universes st)).
    { induction (ss_universes st); cbn; constructor; [set_solver|done]. }
    destruct (bm_is_empty remaining); [done|].
    match goal with |- context [add_docids P remaining ?s] => by destruct (Hadd remaining s) as (-> & -> & ->) end.
  - destruct (bm_is_empty c); [split_and!; [done|done|apply Forall2_subseteq_refl]|].
    destruct (Hadd c (mkSortState (ss_rules st) (ss_universes st) (ss_cur st) (ss_rule_scores st) (ss_all st ∪ c)
      (ss_docids st) (ss_scores st) (ss_offset st))) as (-> & -> & ->).
    split_and!; [done|done|apply Forall2_subseteq_refl].
Qed.

Lemma shrunk_universe c st u' :
  ss_universes st !! ss_cur st = Some u' → ∃ u, ss_universes (maybe_add_to_results P c st) !! ss_cur st = Some u ∧ u ⊆ u'.
Proof.
  destruct (maybe_add_shrunk c st) as (_ & _ & Hu). intros Hu'.
  destruct (Forall2_lookup_r _ _ _ _ _ Hu Hu') as (u & ? & ?). eauto.
Qed.

Lemma shrunk_others st' st : shrunk st' st → others_ok st → others_ok st'.
Proof.
  intros (Hr & Hc & Hu) [Hb Ha]. constructor; rewrite Hr, Hc; [|done]. intros i r u Hi Hri Hui.
  destruct (Forall2_lookup_l _ _ _ _ _ Hu Hui) as (v & Hv & Huv). eapply started_mono; [done|]. by eapply Hb.
Qed.
Lemma shrunk_current st' st : shrunk st' st → current rule_started st → current rule_started st'.
Proof.
  intros (Hr & Hc & Hu) Hcur r u. rewrite Hr, Hc. intros Hri Hui.
  destruct (Forall2_lookup_l _ _ _ _ _ Hu Hui) as (v & Hv & Huv). eapply started_mono; [done|]. by apply Hcur.
Qed.
Lemma shrunk_ready st' st : shrunk st' st → ready st → ready st'.
Proof. intros Hs [Ho Hc]. split; [by eapply shrunk_others|by eapply shrunk_current]. Qed.

(** The parent rule goes on. *)
Lemma back_ready st st' : sort_inv st → others_ok st → current ended st → back st = Ok (Some st') → ready st'.
Proof.
  intros Hi Ho He. unfold back. destruct (ss_rules st !! ss_cur st) as [r|] eqn:Hr; [|done]. cbn [unwrap mbind outcome_bind].
  destruct (lookup_lt_is_Some_2 (ss_universes st) (ss_cur st)) as [u Hu]; [destruct Hi; lia|]. pose proof (He r u Hr Hu) as Hidle.
  set (st1 := set_rule _ _). assert (Ho1 : others_ok st1) by (by apply others_set_rule, others_set_universe).
  destruct (ss_cur st1) as [|cur] eqn:Hcur; [done|]. intros [= <-]. destruct Ho1 as [Hb Ha]. split; [constructor|]; cbn.
  - intros i r' u' Hi' Hr' Hu'. eapply Hb; [|exact Hr'|exact Hu']. lia.
  - intros i r' Hi' Hr'. destruct (decide (i = S cur)) as [->|Hne]; [|eapply Ha; [|exact Hr']; lia].
    cbn in Hcur. rewrite Hcur in *. rewrite list_lookup_insert_eq in Hr' by (by eapply lookup_lt_Some). by injection Hr' as <-.
  - intros r' u' Hr' Hu'. cbn in Hr', Hu'. eapply Hb; [|exact Hr'|exact Hu']. lia.
Qed.

Lemma lower_set_universe u st : lower (set_universe u st) = lower st.
Proof. unfold lower. cbn. by rewrite take_insert_ge by lia. Qed.
Lemma lower_set_rule r st : lower (set_rule r st) = lower st.
Proof. unfold lower. cbn. by rewrite take_insert_ge by lia. Qed.

(** The levels once the current rule is over. *)
Lemma back_levels st st' : sort_inv st → back st = Ok (Some st') → levels st' = lower st.
Proof.
  intros Hi Hb. destruct (back_inv st Hi) as [[_ Hn]|(st1 & cur & Hc & Hb' & _ & Hc' & [r Hr] & Hu)];
    [congruence|]. rewrite Hb' in Hb. simplify_eq. unfold levels, lower. rewrite Hr, Hu, Hc.
  by rewrite !take_insert_ge by lia.
Qed.

Lemma level_lt u c r r' :
  u ≠ ∅ → c ⊆ u → c ≠ ∅ ∨ (rule_remaining r' < rule_remaining r)%nat → ∀ v, v ⊆ u ∖ c → lt2 (level v r') (level u r).
Proof.
  intros Hu Hc Hlt v Hv. unfold lt2, level. cbn. pose proof (subseteq_size v u ltac:(set_solver)).
  destruct (decide (v = u)) as [->|Hne].
  - right. split; [done|]. destruct Hlt as [Hne|?]; [|done]. exfalso. apply Hne. set_solver.
  - left. apply subset_size. set_solver.
Qed.

(** The next rule comes. *)
Lemma push_others st : ready st → others_ok (set_cur (S (ss_cur st)) st).
Proof.
  intros [[Hb Ha] Hc]. constructor; cbn; intros i r.
  - intros u Hi Hr Hu. destruct (decide (i = ss_cur st)) as [->|Hne]; [by apply Hc|]. eapply Hb; [|exact Hr|exact Hu]. lia.
  - intros Hi. apply Ha. lia.
Qed.

(** A round goes on with smaller levels, or the search is over. *)
Lemma sort_round_spec k st : sort_inv st → ready st →
  match sort_round P k st with
  | Ok (inl st') => sort_inv st' ∧ ready st' ∧ dict (levels st') (levels st)
  | Ok (inr out) => ∃ st', sort_inv st' ∧ out = output st' (out_degraded out)
  | Err _ => True
  | Panic => False
  end.
Proof.
  intros Hi [Hoth Hcur]. unfold sort_round. destruct (sp_length P <=? _); [by exists st|].
  destruct (sp_exceeded P k).
  { destruct (degrade_inv (ss_cur st) st Hi) as (st' & -> & Hi'). cbn. by exists st'. }
  destruct (lookup_lt_is_Some_2 (ss_universes st) (ss_cur st)) as [u Hu]; [destruct Hi; lia|].
  destruct (lookup_lt_is_Some_2 (ss_rules st) (ss_cur st)) as [r Hr]; [destruct Hi; lia|].
  rewrite Hu. cbn [unwrap mbind outcome_bind].
  pose proof (levels_split _ _ _ Hu Hr) as Hlv.
  assert (Hback : ∀ st1, sort_inv st1 → others_ok st1 → current ended st1 → Forall2 le2 (lower st1) (lower st) →
    match back_or_end st1 with
    | Ok (inl st') => sort_inv st' ∧ ready st' ∧ dict (levels st') (levels st)
    | Ok (inr out) => ∃ st', sort_inv st' ∧ out = output st' (out_degraded out)
    | Err _ => True
    | Panic => False
    end).
  { intros st1 Hi1 Ho1 He1 Hle. unfold back_or_end.
    destruct (back_inv st1 Hi1) as [[_ ->]|(st' & cur & _ & Hb & Hi' & _)]; [by exists st1|].
    rewrite Hb. cbn [mbind outcome_bind]. split; [done|]. split; [by apply (back_ready st1)|]. rewrite (back_levels _ _ Hi1 Hb), Hlv.
    rewrite <-(app_nil_r (lower st1)). apply dict_app; [done|constructor]. }
  destruct (bm_is_empty u || _) eqn:He.
  { destruct (take_out u u st Hi Hu ltac:(done)) as [Hi1 Hus].
    replace (u ∖ u) with (∅ : bitmap) in Hi1, Hus by set_solver. pose proof (maybe_add_shrunk u (set_universe ∅ st)) as Hsh.
    apply Hback; [by apply maybe_add_inv|eapply shrunk_others; [exact Hsh|by apply others_set_universe]| |].
    { apply current_ended. eapply shrunk_current; [exact Hsh|]. intros r' u' Hr' Hu'. cbn in Hr', Hu'. apply list_lookup_insert_Some in Hu' as [(_ & <- & _)|[? _]]; [|done].
      eapply started_mono; [|by apply Hcur]. set_solver. }
    rewrite <-(lower_set_universe ∅ st). apply shrunk_lower, maybe_add_shrunk. }
  apply orb_false_iff in He as [He _]. apply bool_decide_eq_false in He. rewrite Hr. cbn [unwrap mbind outcome_bind].
  pose proof (next_ok r u (Hcur r u Hr Hu) He) as Hnext.
  destruct (next_bucket r u) as [[[b|] r']|e|]; [| |done|done]; cbn [mbind outcome_bind].
  2:{ apply Hback; [by apply rule_inv|by apply others_set_rule|by apply current_set_rule|]. rewrite lower_set_rule. apply le2_list_refl. }
  destruct Hnext as (Hsub & Hqv & Hst' & Hdec). apply (others_set_rule r') in Hoth.
  apply (rule_inv r') in Hi. set (st0 := set_rule r' st) in *.
  assert (Hr0 : ss_rules st0 !! ss_cur st0 = Some r').
  { cbn. apply list_lookup_insert_eq. by eapply lookup_lt_Some. }
  assert (Hlow : lower st0 = lower st) by apply lower_set_rule. clear Hback.
  unfold use_bucket. set (scores := ss_rule_scores st0 ++ _). apply (scores_inv scores) in Hi.
  set (st1 := set_scores scores st0) in *. assert (Hu1 : ss_universes st1 !! ss_cur st1 = Some u) by exact Hu.
  rewrite Hu1. cbn [unwrap mbind outcome_bind].
  destruct (take_out _ u st1 Hi Hu1 Hsub) as [Hi2 Hus]. set (st2 := set_universe (u ∖ rr_candidates b) st1) in *.
  assert (Hu2 : ss_universes st2 !! ss_cur st2 = Some (u ∖ rr_candidates b)).
  { cbn. apply list_lookup_insert_eq. by eapply lookup_lt_Some. }
  assert (Hlow2 : lower st2 = lower st) by (rewrite <-Hlow; apply (lower_set_universe _ st1)).
  assert (Hready : ready st2).
  { split.
    - apply others_set_universe. destruct Hoth as [Hb Ha]. by constructor.
    - intros r2 v Hr2 Hv. change (ss_rules st2) with (ss_rules st0) in Hr2. rewrite Hu2 in Hv. change (ss_cur st2) with (ss_cur st0) in Hr2.
      rewrite Hr0 in Hr2. by injection Hr2 as <-; injection Hv as <-. }
  pose proof (level_lt u (rr_candidates b) r r' He Hsub Hdec) as Hlt.
  destruct (_ || _) eqn:Hcond; [|].
  - cbn [mbind outcome_bind].
    set (below := is_below_threshold P (ss_rule_scores st1)).
    set (st3 := if below then _ else _).
    assert (H3 : sort_inv st3 ∧ ready st3 ∧ Forall2 le2 (lower st3) (lower st) ∧ ss_cur st3 = ss_cur st2 ∧ ss_rules st3 = ss_rules st2 ∧
      ∃ v, ss_universes st3 !! ss_cur st2 = Some v ∧ v ⊆ u ∖ rr_candidates b).
    { destruct below; unfold st3.
      - split_and!; [| | |done|done|by eexists].
        + apply drop_inv; [apply drop_inv; [done|by apply Hus]|]. cbn. intros x Hx. by eapply (si_fresh _ Hi2).
        + by apply (ready_same st2).
        + rewrite <-Hlow2. apply le2_list_refl.
      - split_and!; [by apply maybe_add_inv|eapply shrunk_ready; [apply maybe_add_shrunk|done]| |apply maybe_add_shrunk|apply maybe_add_shrunk|by apply shrunk_universe].
        rewrite <-Hlow2. apply shrunk_lower, maybe_add_shrunk. }
    destruct H3 as (Hi3 & Hrd3 & Hle & Hc3 & Hr3 & v & Hv & Hvu). split; [by apply scores_inv|].
    split; [by apply (ready_same st3)|].
    rewrite Hlv. change (levels (set_scores _ st3)) with (levels st3).
    rewrite (levels_split st3 v r'); [|by rewrite Hc3|by rewrite Hc3, Hr3]. apply dict_app; [done|].
    by apply dict_lt, Hlt.
  - apply orb_false_iff in Hcond as [[[Hlast _]%orb_false_iff _]%orb_false_iff _].
    apply Nat.eqb_neq in Hlast.
    assert (Hn : (S (ss_cur st2) < n)%nat).
    { destruct Hi2 as [Hc2 Hr2 _]. cbn in Hc2, Hr2, Hlast. cbn. lia. }
    pose proof (push_inv _ st2 Hi2 Hus Hn) as Hi4. set (st4 := set_universe _ (set_cur _ st2)) in *.
    destruct (lookup_lt_is_Some_2 (ss_rules st4) (ss_cur st4)) as [r4 Hr4]; [destruct Hi4; lia|].
    rewrite Hr4. cbn [unwrap mbind outcome_bind]. pose proof (start_ok r4 (rr_candidates b) (rr_query b)) as Hsp.
    destruct (start_iteration r4 (rr_candidates b) (rr_query b)) as [r5|e|]; [|done|].
    2:{ apply Hsp; [|done]. eapply (oo_above _ (proj1 Hready)); [|exact Hr4]. cbn. lia. }
    cbn [mbind outcome_bind]. split; [by apply rule_inv|]. split.
    { split; [apply others_set_rule, others_set_universe; by apply push_others|].
      apply current_set_rule. intros v Hv. cbn in Hv. rewrite list_lookup_insert_eq in Hv; [injection Hv as <-|].
      - apply Hsp; [|done]. eapply (oo_above _ (proj1 Hready)); [|exact Hr4]. cbn. lia.
      - destruct Hi2 as [_ _ Hlu _]. cbn in Hlu, Hn. lia. }
    rewrite Hlv. rewrite (levels_split _ (rr_candidates b) r5).
    + rewrite lower_set_rule. unfold st4. rewrite lower_set_universe.
      change (lower (set_cur (S (ss_cur st2)) st2)) with (levels st2).
      rewrite (levels_split st2 _ r' Hu2 Hr0), Hlow2, <-app_assoc. apply dict_app; [apply le2_list_refl|].
      apply dict_lt, Hlt. done.
    + cbn. apply list_lookup_insert_eq. rewrite length_insert.
      destruct Hi2 as [_ _ Hlu _]. cbn in Hlu, Hn. rewrite length_insert in Hlu. lia.
    + cbn. apply list_lookup_insert_eq. destruct Hi2 as [_ Hlr _ _]. cbn in Hlr, Hn. lia.
Qed.

Lemma sort_loop_spec k st : sort_inv st → ready st → ∃ fuel r, sort_loop P fuel k st = Some r ∧
  match r with Ok out => ∃ st', sort_inv st' ∧ out = output st' (out_degraded out) | Err _ => True | Panic => False end.
Proof.
  intros Hi Hst. assert (Hlen : ∀ st, sort_inv st → (length (levels st) ≤ n)%nat).
  { intros st' [Hc Hr Hu _]. unfold levels. rewrite length_zip_with, !length_take. lia. }
  pose proof (dict_wf n (levels st) (Hlen st Hi)) as Hacc.
  remember (levels st) as l eqn:Hl. revert k st Hi Hst Hl. induction Hacc as [l _ IH]. intros k st Hi Hst ->.
  pose proof (sort_round_spec k st Hi Hst) as Hround.
  destruct (sort_round P k st) as [[st'|out]|e|] eqn:Hr; [|..].
  - destruct Hround as (Hi' & Hs' & Hd). destruct (IH (levels st') (conj (Hlen _ Hi') Hd) (S k) st' Hi' Hs' eq_refl) as (fuel & r & Hf & Hres).
    exists (S fuel), r. cbn [sort_loop]. by rewrite Hr.
  - exists 1%nat, (Ok out). cbn [sort_loop]. by rewrite Hr.
  - exists 1%nat, (Err e). cbn [sort_loop]. by rewrite Hr.
  - destruct Hround.
Qed.
End safety.

(** Reading one more round does not change the result. *)
Lemma sort_loop_more `{RankingRule} P fuel : ∀ fuel' k st r,
  (fuel ≤ fuel')%nat → sort_loop P fuel k st = Some r → sort_loop P fuel' k st = Some r.
Proof.
  induction fuel as [|fuel IH]; intros [|fuel'] k st r Hle; try done; [lia|]. cbn [sort_loop].
  destruct (sort_round P k st) as [[st'|out]|e|]; try done. apply IH. lia.
Qed.

Lemma placeholder_loop_spec ft fid limit docids : ∀ results excluded results' excluded',
  sharing_symmetric ft fid →
  placeholder_loop ft fid limit docids results excluded = (results', excluded') →
  NoDup (results ++ docids) → (∀ y, y ∈ excluded ↔ ∃ x, x ∈ results ∧ y ∈ sharing ft fid x) → unrelated ft fid results →
  Z.of_nat (length results) ≤ limit →
  NoDup results' ∧ (∀ x, x ∈ results' → x ∈ results ∨ x ∈ docids) ∧ unrelated ft fid results' ∧
  Z.of_nat (length results') ≤ limit.
Proof.
  induction docids as [|d docids IH]; intros results excluded results' excluded' Hsym Hr Hnd He Hun Hlen;
    cbn [placeholder_loop] in Hr.
  { simplify_eq. rewrite app_nil_r in Hnd. split_and!; try done. by left. }
  destruct (Z.leb_spec limit (Z.of_nat (length results))).
  { simplify_eq. apply NoDup_app in Hnd as [? _]. split_and!; try done. by left. }
  unfold bm_contains in Hr. case_bool_decide as Hd.
  - destruct (IH _ _ _ _ Hsym Hr) as (? & Hin & ? & ?); try done.
    + apply NoDup_app in Hnd as (? & Hdis & [_ ?]%NoDup_cons). apply NoDup_app. split_and!; try done.
      intros x Hx Hx'. apply (Hdis x Hx). by right.
    + split_and!; try done. intros x [?|?]%Hin; [by left|right; by right].
  - assert (Hfree : ∀ x, x ∈ results → d ∉ sharing ft fid x) by (intros x Hx Hin; apply Hd, He; eauto).
    destruct (IH _ _ _ _ Hsym Hr) as (? & Hin & ? & ?); try done.
    + by rewrite <-app_assoc.
    + intros y. rewrite distinct_single_union, elem_of_union, He. split.
      * intros [(x & ? & ?)|?]; [exists x|exists d]; (split; [apply elem_of_app|done]); [by left|right; by left].
      * intros (x & [?| ->%list_elem_of_singleton]%elem_of_app & ?); [left; eauto|by right].
    + intros x y [Hx| ->%list_elem_of_singleton]%elem_of_app [Hy| ->%list_elem_of_singleton]%elem_of_app Hne;
        [by apply Hun|by apply Hfree|intros Hin%Hsym; by apply (Hfree y)|done].
    + rewrite length_app. cbn. lia.
    + split_and!; try done. intros x [[?| ->%list_elem_of_singleton]%elem_of_app|?]%Hin; [by left|right; by left|right; by right].
Qed.

(** What a search returns. *)
Definition output_ok `{RankingRule} (P : SearchParams) (universe : bitmap) (out : BucketSortOutput) : Prop :=
  NoDup (out_docids out) ∧ (∀ x, x ∈ out_docids out → x ∈ out_all_candidates out) ∧
  out_all_candidates out ⊆ universe ∧ Z.of_nat (length (out_docids out)) ≤ sp_length P ∧
  length (out_scores out) = length (out_docids out) ∧
  ∀ fid, sp_distinct P = Some fid → unrelated (sp_facets P) fid (out_docids out).

(** Without ranking rules and with a distinct field. *)
Lemma placeholder_output_ok `{RankingRule} P universe fid results excluded :
  0 ≤ sp_from P → 0 ≤ sp_length P → sp_from P + sp_length P ≤ u64_max → sharing_symmetric (sp_facets P) fid → sp_distinct P = Some fid →
  placeholder_loop (sp_facets P) fid (u64_wrap (sp_from P + sp_length P)) (bm_iter universe) [] ∅ = (results, excluded) →
  let l := if sp_from P <=? Z.of_nat (length results) then drop (Z.to_nat (sp_from P)) results else [] in
  output_ok P universe (mkBucketSortOutput l (replicate (length l) []) ((universe ∖ excluded) ∪ list_to_set results) false).
Proof.
  intros Hf Hl Hfl Hsym Hfid Hr l. unfold u64_wrap in Hr. rewrite (Z.mod_small (sp_from P + sp_length P)) in Hr by (unfold u64_max in Hfl; lia).
  destruct (placeholder_loop_spec _ _ _ _ _ _ _ _ Hsym Hr) as (Hnd & Hin & Hun & Hlen).
  - apply NoDup_bm_iter.
  - intros y. split; [set_solver|]. by intros (x & ?%elem_of_nil & _).
  - by intros x y ?%elem_of_nil.
  - cbn. lia.
  - assert (Hsl : l `sublist_of` results ∧ Z.of_nat (length l) ≤ sp_length P).
    { unfold l. destruct (Z.leb_spec (sp_from P) (Z.of_nat (length results))); [|split; [apply sublist_nil_l|done]].
      split; [apply sublist_drop|]. rewrite length_drop. lia. }
    destruct Hsl as [Hsl Hll].
    assert (Hres : ∀ x, x ∈ l → x ∈ results) by (intros x Hx; by eapply elem_of_sublist).
    unfold output_ok. cbn [out_docids out_scores out_all_candidates].
    split_and!; [by eapply sublist_NoDup| | |done|by rewrite length_replicate|].
    + intros x Hx%Hres. apply elem_of_union_r. by apply elem_of_list_to_set.
    + intros x [[? _]%elem_of_difference|Hx%elem_of_list_to_set]%elem_of_union; [done|].
      destruct (Hin x Hx) as [?%elem_of_nil|?%elem_of_bm_iter]; done.
    + intros fid' Hfid'. simplify_eq. intros x y Hx Hy. apply Hun; by apply Hres.
Qed.

(** Without ranking rules nor distinct field. *)
Lemma slice_output_ok `{RankingRule} P universe : 0 ≤ sp_length P → sp_distinct P = None →
  let docids := take (Z.to_nat (sp_length P)) (drop (Z.to_nat (sp_from P)) (bm_iter universe)) in
  output_ok P universe (mkBucketSortOutput docids (replicate (length docids) []) universe false).
Proof.
  intros Hl Hfid docids. assert (Hsub : docids `sublist_of` bm_iter universe) by (etransitivity; [apply sublist_take|apply sublist_drop]).
  split_and!; cbn; [eapply sublist_NoDup; [apply (NoDup_bm_iter universe)|done]| |done| |by rewrite length_replicate|congruence].
  - intros x Hx. apply elem_of_bm_iter. by eapply elem_of_sublist.
  - unfold docids. rewrite length_take. lia.
Qed.

(** The state the loop starts in. *)
Lemma initial_sort_inv `{RankingRule} P universe rule rules : 0 ≤ sp_from P → 0 ≤ sp_length P →
  sort_inv P universe (S (length rules)) (mkSortState (rule :: rules) (universe :: replicate (length rules) ∅) 0 [] universe [] [] 0).
Proof.
  intros Hf Hl. set (st := mkSortState _ _ _ _ _ _ _ _).
  assert (Hu : ∀ i u, ss_universes st !! i = Some u → u = if decide (i = O) then universe else ∅).
  { intros [|i] u; cbn; [by intros [= <-]|]. by intros [-> _]%lookup_replicate. }
  constructor; cbn; try done; try lia; try (by intros ? ?%elem_of_nil); try (by intros ? ? ? ?%elem_of_nil).
  - by rewrite length_replicate.
  - intros i u ->%Hu. case_decide; set_solver.
  - intros i u Hi ->%Hu. rewrite decide_False; [done|lia].
  - intros i j u v Hij ->%Hu ->%Hu. repeat case_decide; set_solver.
  - constructor.
  - intros fid _. split; [by intros x y ?%elem_of_nil|by intros x i u y ?%elem_of_nil].
Qed.

(** C17. Every search ends, whatever the time budget, the score threshold and the
    distinct field, with any rules that keep the contract [RankingRuleOk] and are not in
    use when it starts, and a query that is valid for them (the rule that sorts by a
    field and, under the conditions of [graph_rule_ok], the graph-based rules keep that contract).  Unless a rule fails it returns at
    most [length] distinct documents of the universe with as many scores, all of
    them among the candidates it reports, and no two of them share a value of
    the distinct field.  More fuel does not change the result.  The offset and the limit are
    not negative and their sum is a [u64]; a document that shares a value of the distinct field with
    another is shared with by it, that is, the two tables of the facets agree. *)
Theorem bucket_sort_returns `{RankingRule, !RankingRuleOk} P rules query universe :
  Forall rule_idle rules → query_valid query →
  0 ≤ sp_from P → 0 ≤ sp_length P → sp_from P + sp_length P ≤ u64_max →
  (∀ fid, sp_distinct P = Some fid → sharing_symmetric (sp_facets P) fid) →
  ∃ fuel r, (∀ fuel', (fuel ≤ fuel')%nat → bucket_sort P fuel' rules query universe = Some r) ∧
  match r with
  | Ok out => NoDup (out_docids out) ∧ (∀ x, x ∈ out_docids out → x ∈ out_all_candidates out) ∧
      out_all_candidates out ⊆ universe ∧ Z.of_nat (length (out_docids out)) ≤ sp_length P ∧
      length (out_scores out) = length (out_docids out) ∧
      ∀ fid, sp_distinct P = Some fid → unrelated (sp_facets P) fid (out_docids out)
  | Err _ => True
  | Panic => False
  end.
Proof.
  intros Hidle Hq Hf Hl Hfl Hsym. unfold bucket_sort.
  destruct (bm_len universe <? sp_from P).
  { eexists O, _. split; [done|]. cbn. split_and!; try done; [constructor|by intros x ?%elem_of_nil|by intros fid _ x y ?%elem_of_nil]. }
  destruct rules as [|rule rules].
  { destruct (sp_distinct P) as [fid|] eqn:Hfid.
    - destruct (placeholder_loop _ _ _ _ _ _) as [results excluded] eqn:Hr. eexists O, _. split; [done|]. rewrite <-Hfid.
      apply (placeholder_output_ok P universe fid); try done. by apply Hsym.
    - eexists O, _. split; [done|]. rewrite <-Hfid. by apply slice_output_ok. }
  apply Forall_cons in Hidle as [Hrule Hidle]. pose proof (start_ok rule universe query Hrule Hq) as Hstart.
  destruct (start_iteration rule universe query) as [rule'|e|]; [|by eexists O, _|done].
  set (st := mkSortState _ _ _ _ _ _ _ _).
  assert (Hi : sort_inv P universe (S (length rules)) st) by (by apply initial_sort_inv).
  assert (Hst : ready st).
  { split; [constructor; cbn; [intros i r u Hlt; lia|]|intros r u; cbn; by intros [= <-] [= <-]].
    intros [|i] r Hlt; [lia|]. intros Hr. by eapply Forall_lookup_1. }
  destruct (sort_loop_spec P universe _ Hl Hf Hsym 0 st Hi Hst) as (fuel & r & Hr & Hres).
  exists fuel, r. split; [intros fuel' Hle; by eapply sort_loop_more|]. destruct r as [out|e|]; [|done|done].
  destruct Hres as (st' & [] & ->). cbn. split_and!; try done. intros fid Hfid. by apply si_distinct0.
Qed.
