(* ===== verification/BucketSortPage.v ===== *)
(** * Bucket sort returns a page of the ranking

    The loop of [BucketSort] skips the buckets before the page it returns, adds
    small buckets without sorting them and stops once the page is full.  The page
    is that of the complete ranking, in which every rule sorts every bucket. *)

From S2P Require Import Prelude TaskTypes Score BucketSort.
Open Scope Z_scope.

Section page.
Context `{RankingRule}.

Notation bucket := (RankingRuleOutput Query).

(** The buckets a rule gives, one after the other, until the universe is
    empty. *)
Inductive iterates : Rule → bitmap → list bucket → Prop :=
| iterates_end r : iterates r ∅ []
| iterates_next r u b r' bs :
    u ≠ ∅ → next_bucket r u = Ok (Some b, r') → rr_candidates b ⊆ u →
    iterates r' (u ∖ rr_candidates b) bs → iterates r u (b :: bs).

(** The contract of rules that sort their universe exhaustively: the buckets
    depend on the universe and the query alone, not on what the rule was used
    for before. *)
Class ExhaustiveRules := {
  RuleId : Type;
  rule_id : Rule → RuleId;
  buckets : RuleId → bitmap → Query → list bucket;
  start_iterates : ∀ r u q, ∃ r', start_iteration r u q = Ok r' ∧ rule_id r' = rule_id r ∧
    iterates r' u (buckets (rule_id r) u q);
  next_rule_id : ∀ r u b r', next_bucket r u = Ok (b, r') → rule_id r' = rule_id r;
  end_rule_id : ∀ r, rule_id (end_iteration r) = rule_id r;
}.
Context `{!ExhaustiveRules}.

(** The complete ranking of a universe: every bucket of every rule is sorted by
    the rules that follow, and documents no rule separates come by id. *)
Fixpoint ranking (ids : list RuleId) (u : bitmap) (q : Query) : list Z :=
  match ids with
  | [] => bm_iter u
  | id :: ids => concat ((λ b, ranking ids (rr_candidates b) (rr_query b)) <$> buckets id u q)
  end.

(** The buckets left to a rule, sorted by the rules that follow. *)
Definition ranked (ids : list RuleId) (bs : list bucket) : list Z :=
  concat ((λ b, ranking ids (rr_candidates b) (rr_query b)) <$> bs).

(** How many rounds of the loop this takes. *)
Fixpoint rounds (ids : list RuleId) (u : bitmap) (q : Query) : nat :=
  match ids with
  | [] => O
  | id :: ids => S (sum_list_with (λ b, S (rounds ids (rr_candidates b) (rr_query b))) (buckets id u q))
  end.
Definition level_rounds (ids : list RuleId) (bs : list bucket) : nat :=
  S (sum_list_with (λ b, S (rounds ids (rr_candidates b) (rr_query b))) bs).

(** Rules that exist. *)
Definition known (ids : list RuleId) : Prop := Forall (λ id, ∃ r, rule_id r = id) ids.

Lemma ranked_perm ids : (∀ u q, ranking ids u q ≡ₚ bm_iter u) → ∀ r u bs, iterates r u bs → ranked ids bs ≡ₚ bm_iter u.
Proof.
  intros Hids r u bs. induction 1 as [r|r u b r' bs Hu Hn Hsub _ IH]; [done|].
  change (ranked ids (b :: bs)) with (ranking ids (rr_candidates b) (rr_query b) ++ ranked ids bs).
  rewrite IH, Hids. apply NoDup_Permutation.
  - apply NoDup_app. split_and!; [apply NoDup_bm_iter| |apply NoDup_bm_iter].
    intros x. rewrite !elem_of_bm_iter. set_solver.
  - apply NoDup_bm_iter.
  - intros x. rewrite elem_of_app, !elem_of_bm_iter. destruct (decide (x ∈ rr_candidates b)); set_solver.
Qed.

Lemma ranking_perm ids : known ids → ∀ u q, ranking ids u q ≡ₚ bm_iter u.
Proof.
  induction 1 as [|id ids [r Hr] _ IH]; intros u q; [done|].
  destruct (start_iterates r u q) as (r' & _ & _ & Hit). rewrite Hr in Hit. by eapply ranked_perm.
Qed.

(** A set of at most one document has one ranking. *)
Lemma ranking_small l u : l ≡ₚ bm_iter u → bm_len u ≤ 1 → l = bm_iter u.
Proof.
  intros Hp Hu. pose proof (length_bm_iter u) as Hl. destruct (bm_iter u) as [|x [|y l']]; cbn in Hl.
  - by apply Permutation_nil_r in Hp.
  - by apply Permutation_singleton_r in Hp.
  - lia.
Qed.

(** ** The state of the loop *)

Variable P : SearchParams.
Hypothesis Hdistinct : sp_distinct P = None.
Hypothesis Hthreshold : sp_threshold P = None.
Hypothesis Hbudget : ∀ k, sp_exceeded P k = false.
Hypothesis Hfrom : 0 ≤ sp_from P.
Hypothesis Hlength : 0 ≤ sp_length P.

Definition page (l : list Z) : list Z := take (Z.to_nat (sp_length P)) (drop (Z.to_nat (sp_from P)) l).

(** The buckets left to the rules in use, the current one first. *)
Fixpoint frames (rules : list Rule) (universes : list bitmap) (bss : list (list bucket)) : Prop :=
  match bss with
  | [] => True
  | bs :: bss => (∃ r u, rules !! length bss = Some r ∧ universes !! length bss = Some u ∧ iterates r u bs) ∧
      frames rules universes bss
  end.

(** What is left to rank, and the rounds it takes. *)
Fixpoint pending (ids : list RuleId) (bss : list (list bucket)) : list Z :=
  match bss with
  | [] => []
  | bs :: bss => ranked (drop (S (length bss)) ids) bs ++ pending ids bss
  end.
Fixpoint pending_rounds (ids : list RuleId) (bss : list (list bucket)) : nat :=
  match bss with
  | [] => O
  | bs :: bss => (level_rounds (drop (S (length bss)) ids) bs + pending_rounds ids bss)%nat
  end.

Lemma frames_insert_rule rules universes bss i r :
  (length bss ≤ i)%nat → frames rules universes bss → frames (<[i := r]> rules) universes bss.
Proof.
  induction bss as [|bs bss IH]; [done|]. cbn. intros Hi [(r0 & u & Hr & Hu & Hit) Hf]. split; [|apply IH; [lia|done]].
  exists r0, u. by rewrite list_lookup_insert_ne by lia.
Qed.
Lemma frames_insert_universe rules universes bss i u :
  (length bss ≤ i)%nat → frames rules universes bss → frames rules (<[i := u]> universes) bss.
Proof.
  induction bss as [|bs bss IH]; [done|]. cbn. intros Hi [(r0 & u0 & Hr & Hu & Hit) Hf]. split; [|apply IH; [lia|done]].
  exists r0, u0. by rewrite list_lookup_insert_ne by lia.
Qed.

(** The documents of [l], for which those of [c] are added. *)
Lemma add_page c st done l :
  ss_docids st = page done → ss_offset st = Z.of_nat (length done) →
  l = bm_iter c ∨ (ss_offset st + bm_len c < sp_from P ∧ Z.of_nat (length l) = bm_len c) →
  ∃ docids scores, maybe_add_to_results P c st =
    mkSortState (ss_rules st) (ss_universes st) (ss_cur st) (ss_rule_scores st) (ss_all st ∪ c) docids scores
      (Z.of_nat (length (done ++ l))) ∧ docids = page (done ++ l) ∧
    (length (ss_scores st) = length (ss_docids st) → length scores = length docids).
Proof.
  intros Hd Ho Hl. unfold maybe_add_to_results. rewrite Hdistinct.
  assert (Hlen : Z.of_nat (length l) = bm_len c) by (destruct Hl as [->|[_ ?]]; [apply length_bm_iter|done]).
  unfold bm_is_empty. case_bool_decide as Hc.
  { subst c. exists (ss_docids st), (ss_scores st). destruct l as [|x l]; [|by cbn in Hlen].
    rewrite app_nil_r. split; [by rewrite Ho|]. done. }
  unfold add_docids. cbn [ss_docids ss_offset ss_scores ss_rule_scores ss_rules ss_universes ss_cur ss_all].
  rewrite length_app, Nat2Z.inj_add, <-Ho, Hlen. unfold page in *.
  destruct (Z.ltb_spec (ss_offset st) (sp_from P)) as [Hlt|Hge]; [destruct (Z.ltb_spec (ss_offset st + bm_len c) (sp_from P)) as [Hlt'|Hge']|].
  - eexists _, _. split; [done|]. split; [|done]. rewrite Hd, !drop_ge; [done|rewrite length_app; lia|lia].
  - destruct Hl as [->|[? _]]; [|lia]. eexists _, _. split; [done|].
    assert (Hnil : ss_docids st = []) by (rewrite Hd, drop_ge by lia; apply take_nil). rewrite Hnil. cbn [app length].
    split; [|intros Hs; by rewrite length_app, length_replicate, Hs].
    rewrite drop_app_ge by lia. f_equal; [lia|]. f_equal. lia.
  - destruct Hl as [->|[? _]]; [|lia]. eexists _, _. split; [done|].
    split; [|intros Hs; by rewrite !length_app, length_replicate, Hs].
    rewrite drop_app_le by lia. rewrite take_app, Hd. f_equal. f_equal. rewrite length_take. lia.
Qed.

Variable ids : list RuleId.
Variable U : bitmap.
Variable total : list Z.
Hypothesis Hids : known ids.

(** The state when the buckets [bss] are left to the first rules and the documents
    [rest] are left to rank. *)
Record partial (bss : list (list bucket)) (rest : list Z) (st : SortState) : Prop := {
  pa_frames : frames (ss_rules st) (ss_universes st) bss;
  pa_ids : rule_id <$> ss_rules st = ids;
  pa_universes : length (ss_universes st) = length (ss_rules st);
  pa_cur : (ss_cur st < length (ss_rules st))%nat;
  pa_sub : ∀ i u, ss_universes st !! i = Some u → u ⊆ U;
  pa_all : ss_all st = U;
  pa_scores : length (ss_scores st) = length (ss_docids st);
  pa_done : ∃ done, total = done ++ rest ∧ ss_docids st = page done ∧ ss_offset st = Z.of_nat (length done);
}.

(** The result expected. *)
Definition is_page (out : BucketSortOutput) : Prop :=
  out_docids out = page total ∧ out_all_candidates out = U ∧ out_degraded out = false ∧
  length (out_scores out) = length (out_docids out).

Definition round_ok (bss : list (list bucket)) (r : outcome SearchError (SortState + BucketSortOutput)) : Prop :=
  match r with
  | Ok (inl st) => ∃ bss', partial bss' (pending ids bss') st ∧ length bss' = S (ss_cur st) ∧
      (pending_rounds ids bss' < pending_rounds ids bss)%nat
  | Ok (inr out) => is_page out
  | _ => False
  end.

Lemma fmap_insert_same {A B} (f : A → B) (l : list A) i x y :
  l !! i = Some x → f y = f x → f <$> <[i := y]> l = f <$> l.
Proof. intros Hx Hf. rewrite list_fmap_insert, Hf. apply list_insert_id. by rewrite list_lookup_fmap, Hx. Qed.

Lemma partial_universe bss rest u st :
  partial bss rest st → (length bss ≤ ss_cur st)%nat → u ⊆ U → partial bss rest (set_universe u st).
Proof.
  intros [Hf Hi Hu Hc Hs Ha Hsc Hd] Hlen Huu. constructor; cbn; try done; [by apply frames_insert_universe|by rewrite length_insert|].
  intros i v. destruct (decide (i = ss_cur st)) as [->|Hne]; [|rewrite list_lookup_insert_ne by done; apply Hs].
  rewrite list_lookup_insert_eq by lia. by intros [= <-].
Qed.

Lemma partial_rule bss rest r r' st :
  partial bss rest st → (length bss ≤ ss_cur st)%nat → ss_rules st !! ss_cur st = Some r → rule_id r' = rule_id r →
  partial bss rest (set_rule r' st).
Proof.
  intros [Hf Hi Hu Hc Hs Ha Hsc Hd] Hlen Hr Hid. constructor; cbn; try done; rewrite ?length_insert; try done.
  - by apply frames_insert_rule.
  - by rewrite (fmap_insert_same _ _ _ _ _ Hr Hid).
Qed.

Lemma partial_scores bss rest l st : partial bss rest st → partial bss rest (set_scores l st).
Proof. intros []. by constructor. Qed.

(** The current rule is over. *)
Lemma back_page bs bss st :
  partial bss (pending ids bss) st → length bss = ss_cur st → round_ok (bs :: bss) (back_or_end st).
Proof.
  intros Hp Hlen. unfold back_or_end, back.
  destruct (lookup_lt_is_Some_2 (ss_rules st) (ss_cur st)) as [r Hr]; [apply Hp|].
  rewrite Hr. cbn [unwrap mbind outcome_bind]. set (st1 := set_rule _ _).
  assert (Hp1 : partial bss (pending ids bss) st1).
  { apply (partial_rule _ _ r); [apply partial_universe; [done|lia|set_solver]|cbn; lia|done|apply end_rule_id]. }
  change (ss_cur st1) with (ss_cur st). destruct (ss_cur st) as [|cur] eqn:Hcur.
  - destruct bss as [|? ?]; [|done]. destruct Hp as [_ _ _ _ _ Ha Hsc (done & Htot & Hd & _)].
    cbn in Htot. rewrite app_nil_r in Htot. subst. by split_and!.
  - cbn. exists bss. split_and!; [|done|].
    + destruct (partial_scores bss _ (if (cur <? length (ss_rule_scores st1))%nat then pop (ss_rule_scores st1)
        else ss_rule_scores st1) st1 Hp1) as [? ? ? Hc ? ? ? ?]. constructor; try done. cbn in *. rewrite length_insert in *. lia.
    + unfold level_rounds. lia.
Qed.

(** The documents [c] are added, being the next ones of the ranking or skipped. *)
Lemma add_partial c l bss rest st :
  partial bss (l ++ rest) st → c ⊆ U →
  l = bm_iter c ∨ (ss_offset st + bm_len c < sp_from P ∧ Z.of_nat (length l) = bm_len c) →
  partial bss rest (maybe_add_to_results P c st) ∧ ss_cur (maybe_add_to_results P c st) = ss_cur st ∧
  ss_rules (maybe_add_to_results P c st) = ss_rules st ∧ ss_universes (maybe_add_to_results P c st) = ss_universes st.
Proof.
  intros [Hf Hi Hu Hc Hs Ha Hsc (done & Htot & Hd & Ho)] Hcu Hl.
  destruct (add_page c st done l Hd Ho Hl) as (docids & scores & -> & Hdoc & Hsco). split; [|by split_and!].
  constructor; cbn; try done; [set_solver|by apply Hsco|]. exists (done ++ l). split_and!; [|done|done].
  by rewrite Htot, app_assoc.
Qed.

Lemma partial_frames bs bss rest st :
  partial bss rest st → (∃ r u, ss_rules st !! length bss = Some r ∧ ss_universes st !! length bss = Some u ∧ iterates r u bs) →
  partial (bs :: bss) rest st.
Proof. intros [] Hf. by constructor. Qed.

Lemma known_drop k : known (drop k ids).
Proof. by apply Forall_drop. Qed.

(** One round. *)
Lemma sort_round_page k bss st :
  partial bss (pending ids bss) st → length bss = S (ss_cur st) → round_ok bss (sort_round P k st).
Proof.
  intros Hp Hlen. unfold sort_round. rewrite Hbudget.
  destruct (Z.leb_spec (sp_length P) (Z.of_nat (length (ss_docids st)))) as [Hfull|Hnot].
  { destruct Hp as [_ _ _ _ _ Ha Hsc (done & Htot & Hd & _)]. cbn. split_and!; try done. cbn. rewrite Hd, Htot.
    unfold page in *. rewrite Hd, length_take, length_drop in Hfull.
    destruct (decide (Z.to_nat (sp_length P) = O)) as [->|Hpos]; [done|].
    rewrite drop_app_le by lia. rewrite take_app_le; [done|]. rewrite length_drop. lia. }
  destruct bss as [|bs bss]; [done|]. cbn in Hlen. assert (Hlen' : length bss = ss_cur st) by lia.
  assert (Hlow : partial bss (pending ids (bs :: bss)) st).
  { destruct Hp as [[_ Hf] ? ? ? ? ? ? ?]. by constructor. }
  destruct Hp as [[(r & u & Hr & Hu & Hit) _] Hpi _ Hpc Hps _ _ _]. rewrite Hlen' in Hr, Hu.
  rewrite Hu. cbn [unwrap mbind outcome_bind]. cbn [pending] in Hlow. rewrite Hlen' in Hlow.
  pose proof (ranked_perm _ (ranking_perm _ (known_drop (S (ss_cur st)))) _ _ _ Hit) as Hperm.
  destruct (bm_is_empty u || _) eqn:He.
  { assert (Hsmall : bm_len u ≤ 1).
    { apply orb_true_iff in He as [He|[_ He]%andb_true_iff]; [|lia].
      apply bool_decide_eq_true in He. subst. by vm_compute. }
    pose proof (ranking_small _ _ Hperm Hsmall) as Heq. rewrite Heq in Hlow.
    apply (partial_universe _ _ ∅) in Hlow; [|lia|set_solver].
    destruct (add_partial u (bm_iter u) _ _ _ Hlow) as (Hadd & Hcur & _); [by eapply Hps|by left|].
    apply back_page; [done|]. by rewrite Hcur. }
  apply orb_false_iff in He as [He _]. apply bool_decide_eq_false in He. rewrite Hr. cbn [unwrap mbind outcome_bind].
  inversion Hit as [|? ? b r' bs' _ Hnext Hsub Hit' ]; subst; [done|]. rewrite Hnext. cbn [mbind outcome_bind].
  assert (Hid : rule_id r' = rule_id r) by (by eapply next_rule_id).
  apply (partial_rule _ _ _ _ _ Hlow) in Hid; [|lia|done]. clear Hlow. rename Hid into Hlow.
  set (st0 := set_rule r' st) in *. set (nexts := drop (S (ss_cur st)) ids) in *.
  change (ranked nexts (b :: bs')) with (ranking nexts (rr_candidates b) (rr_query b) ++ ranked nexts bs') in Hlow.
  rewrite <-app_assoc in Hlow.
  pose proof (ranking_perm nexts (known_drop _) (rr_candidates b) (rr_query b)) as Hpb.
  unfold use_bucket, is_below_threshold. rewrite Hthreshold.
  set (st1 := set_scores _ st0). change (ss_universes st1 !! ss_cur st1) with (ss_universes st !! ss_cur st).
  rewrite Hu. cbn [unwrap mbind outcome_bind]. set (st2 := set_universe _ st1).
  assert (Huu : u ⊆ U) by (by eapply Hps).
  assert (Hlow2 : partial bss (ranking nexts (rr_candidates b) (rr_query b) ++ ranked nexts bs' ++ pending ids bss) st2).
  { apply partial_universe; [by apply partial_scores|cbn; lia|set_solver]. }
  assert (Hr2 : ss_rules st2 !! length bss = Some r') by (rewrite Hlen'; apply list_lookup_insert_eq; by eapply lookup_lt_Some).
  assert (Hu2 : ss_universes st2 !! length bss = Some (u ∖ rr_candidates b))
    by (rewrite Hlen'; apply list_lookup_insert_eq; by eapply lookup_lt_Some).
  rewrite orb_false_r. destruct (_ || _) eqn:Hcond; cbn [mbind outcome_bind].
  - destruct (add_partial (rr_candidates b) (ranking nexts (rr_candidates b) (rr_query b)) _ _ _ Hlow2) as (Hadd & Hcur & Hr3 & Hu3).
    { set_solver. }
    { apply orb_true_iff in Hcond as [[Hlast|[_ Hone]%andb_true_iff]%orb_true_iff|Hskip].
      - left. apply Nat.eqb_eq in Hlast.
        replace nexts with (@nil RuleId); [done|]. symmetry. apply drop_ge. rewrite <-Hpi, length_fmap.
        change (ss_cur st2) with (ss_cur st) in Hlast. cbn in Hlast. rewrite length_insert in Hlast. lia.
      - left. apply ranking_small; [done|lia].
      - right. split; [lia|]. by rewrite Hpb, length_bm_iter. }
    exists (bs' :: bss). split; [|split].
    + apply partial_scores. cbn [pending]. rewrite Hlen'. apply partial_frames; [done|].
      exists r', (u ∖ rr_candidates b). by rewrite Hr3, Hu3.
    + cbn. rewrite Hcur. cbn. lia.
    + cbn [pending_rounds]. rewrite Hlen'. fold nexts. unfold level_rounds. cbn. lia.
  - apply orb_false_iff in Hcond as [[Hlast _]%orb_false_iff _]. apply Nat.eqb_neq in Hlast.
    change (ss_cur st2) with (ss_cur st) in *. cbn [ss_rules st2 st1 set_universe set_scores st0 set_rule] in Hlast.
    rewrite length_insert in Hlast.
    destruct (lookup_lt_is_Some_2 (ss_rules st2) (S (ss_cur st))) as [r4 Hr4]; [cbn; rewrite length_insert; lia|].
    set (st4 := set_universe _ (set_cur _ st2)).
    change (ss_rules st4 !! ss_cur st4) with (ss_rules st2 !! S (ss_cur st)). rewrite Hr4. cbn [unwrap mbind outcome_bind].
    destruct (start_iterates r4 (rr_candidates b) (rr_query b)) as (r5 & -> & Hid5 & Hit5). cbn [mbind outcome_bind].
    assert (Hids4 : nexts = rule_id r4 :: drop (S (S (ss_cur st))) ids).
    { unfold nexts. apply drop_S. rewrite <-(pa_ids _ _ _ Hlow2), list_lookup_fmap, Hr4. done. }
    assert (Hp4 : partial (bs' :: bss) (ranking nexts (rr_candidates b) (rr_query b) ++ ranked nexts bs' ++ pending ids bss) st2).
    { apply partial_frames; [done|]. eauto. }
    assert (Hp5 : partial (bs' :: bss) (ranking nexts (rr_candidates b) (rr_query b) ++ ranked nexts bs' ++ pending ids bss)
      (set_rule r5 st4)).
    { apply (partial_rule _ _ r4); [|cbn; lia|done|done]. apply partial_universe; [|cbn; lia|set_solver].
      destruct Hp4 as [? ? ? ? ? ? ? ?]. constructor; try done. cbn. rewrite length_insert. lia. }
    exists (buckets (rule_id r4) (rr_candidates b) (rr_query b) :: bs' :: bss). split; [|split].
    + cbn [pending length]. rewrite Hlen'. fold nexts.
      replace (ranked (drop (S (S (ss_cur st))) ids) (buckets (rule_id r4) (rr_candidates b) (rr_query b)))
        with (ranking nexts (rr_candidates b) (rr_query b)) by (rewrite Hids4; done).
      apply partial_frames; [done|]. cbn [length]. rewrite Hlen'. exists r5, (rr_candidates b). split_and!; [| |done].
      * cbn. apply list_lookup_insert_eq. rewrite length_insert. lia.
      * cbn. apply list_lookup_insert_eq. rewrite length_insert.
        destruct Hlow2 as [_ _ Hl2 _]. cbn in Hl2. rewrite !length_insert in Hl2. lia.
    + cbn. lia.
    + cbn [pending_rounds length]. rewrite Hlen'. fold nexts. unfold level_rounds. cbn [sum_list_with].
      assert (Hrounds : rounds nexts (rr_candidates b) (rr_query b) = S (sum_list_with (λ b,
        S (rounds (drop (S (S (ss_cur st))) ids) (rr_candidates b) (rr_query b)))
        (buckets (rule_id r4) (rr_candidates b) (rr_query b)))) by (rewrite Hids4; done).
      rewrite Hrounds. lia.
Qed.

Lemma sort_loop_page fuel : ∀ k bss st,
  partial bss (pending ids bss) st → length bss = S (ss_cur st) → (pending_rounds ids bss ≤ fuel)%nat →
  ∃ out, sort_loop P fuel k st = Some (Ok out) ∧ is_page out.
Proof.
  induction fuel as [|fuel IH]; intros k bss st Hp Hlen Hfuel.
  { destruct bss as [|bs bss]; [done|]. cbn in Hfuel. lia. }
  pose proof (sort_round_page k bss st Hp Hlen) as Hround. cbn [sort_loop]. unfold round_ok in Hround.
  destruct (sort_round P k st) as [[st'|out]|e|]; [|by exists out|done|done].
  destruct Hround as (bss' & Hp' & Hlen' & Hlt). apply (IH (S k) bss'); [done|done|lia].
Qed.
End page.

Lemma search_page `{RankingRule, !ExhaustiveRules} P rules query universe fuel :
  sp_distinct P = None → sp_threshold P = None → (∀ k, sp_exceeded P k = false) →
  0 ≤ sp_from P → 0 ≤ sp_length P →
  let ids := rule_id <$> rules in
  (rounds ids universe query ≤ fuel)%nat →
  ranking ids universe query ≡ₚ bm_iter universe ∧
  ∃ out, bucket_sort P fuel rules query universe = Some (Ok out) ∧
    out_docids out = page P (ranking ids universe query) ∧
    out_all_candidates out = universe ∧ out_degraded out = false ∧
    length (out_scores out) = length (out_docids out).
Proof.
  intros Hd Ht Hb Hf Hl ids Hfuel.
  assert (Hids : known ids) by (unfold known, ids; rewrite Forall_fmap; apply Forall_forall; intros r _; by exists r).
  pose proof (ranking_perm ids Hids universe query) as Hperm. split; [done|]. unfold bucket_sort.
  destruct (Z.ltb_spec (bm_len universe) (sp_from P)) as [Hlt|Hge].
  { eexists. split; [done|]. cbn. split_and!; try done. unfold page. rewrite drop_ge; [by rewrite take_nil|].
    rewrite Hperm. pose proof (length_bm_iter universe). lia. }
  destruct rules as [|rule rules].
  { rewrite Hd. eexists. split; [done|]. cbn. split_and!; try done. by rewrite length_replicate. }
  destruct (start_iterates rule universe query) as (rule' & -> & Hid & Hit).
  set (st := mkSortState _ _ _ _ _ _ _ _).
  destruct (sort_loop_page P Hd Ht Hb Hf Hl ids universe (ranking ids universe query) Hids fuel 0
    [buckets (rule_id rule) universe query] st) as (out & -> & Hpage).
  - constructor; cbn; try done.
    + split; [|done]. exists rule', universe. done.
    + by rewrite Hid.
    + by rewrite length_replicate.
    + lia.
    + intros [|i] u; cbn; [by intros [= <-]|]. intros [-> _]%lookup_replicate. set_solver.
    + exists []. cbn. split_and!; [|unfold page; by rewrite drop_nil, take_nil|done]. by rewrite app_nil_r.
  - done.
  - cbn [pending_rounds]. rewrite Nat.add_0_r. exact Hfuel.
  - exists out. split; [done|]. done.
Qed.

(** C2. The page a search returns.  With rules that sort their universe
    exhaustively, no distinct field, no score threshold and time enough, the
    loop returns after at most [rounds] rounds, and what it returns is the slice
    of [length] documents from position [from] of the complete ranking; every
    document of the universe is in that ranking once, so that the pages of a
    search do not overlap and miss no document. *)
Theorem bucket_sort_page `{RankingRule, !ExhaustiveRules} P rules query universe fuel :
  sp_distinct P = None → sp_threshold P = None → (∀ k, sp_exceeded P k = false) →
  0 ≤ sp_from P → 0 ≤ sp_length P →
  let ids := rule_id <$> rules in
  (rounds ids universe query ≤ fuel)%nat →
  ranking ids universe query ≡ₚ bm_iter universe ∧
  ∃ out, bucket_sort P fuel rules query universe = Some (Ok out) ∧
    out_docids out = page P (ranking ids universe query) ∧
    out_all_candidates out = universe ∧ out_degraded out = false ∧
    length (out_scores out) = length (out_docids out).
Proof. exact (search_page P rules query universe fuel). Qed.
