(* ===== verification/Facet.v ===== *)
(** * Facets

    The databases of facets of an index, [crates/milli-core/src/search/facet]:
    [mod.rs], [facet_range_search.rs], [facet_sort_ascending.rs] and
    [facet_sort_descending.rs].

    The values of a field are the entries of level 0; an entry of a higher level
    stands for a group of consecutive entries of the level below.  The searches
    go down the levels only where needed, and give what a scan of level 0 would
    give. *)

From S2P Require Import Prelude TaskTypes SchedUtils.
From Stdlib Require Import Ascii.
From Stdlib Require String.
Open Scope Z_scope.

(** ** The database *)

(** The order of the bytes of two values. *)
Definition b_le (x y : string) : bool := bool_decide (String.le x y).
Definition b_lt (x y : string) : bool := negb (b_le y x).

Record FacetGroupKey := mkFacetGroupKey {
  fk_field_id : Z;
  fk_level : nat;
  fk_left_bound : string;
}.

Record FacetGroupValue := mkFacetGroupValue {
  fv_size : Z;
  fv_bitmap : bitmap;
}.

(** The order of the encoded keys: the field, the level, then the bound. *)
Definition key_lt (k1 k2 : FacetGroupKey) : bool :=
  (fk_field_id k1 <? fk_field_id k2) ||
  ((fk_field_id k1 =? fk_field_id k2) &&
    ((fk_level k1 <? fk_level k2)%nat ||
     ((fk_level k1 =? fk_level k2)%nat && b_lt (fk_left_bound k1) (fk_left_bound k2)))).

(** The entries, in the order of their keys. *)
Notation FacetDb := (list (FacetGroupKey * FacetGroupValue)).

(** [db.range(key..)]. *)
Definition db_range (db : FacetDb) (k : FacetGroupKey) : FacetDb := filter (λ e, key_lt e.1 k = false) db.

(** Whether a key is before the end of a range. *)
Definition key_before (e : Bound FacetGroupKey) (k : FacetGroupKey) : bool :=
  match e with Included e => negb (key_lt e k) | Excluded e => key_lt k e | Unbounded => true end.

(** [db.rev_range]. *)
Definition db_rev_range (db : FacetDb) (k : FacetGroupKey) (e : Bound FacetGroupKey) : FacetDb :=
  reverse (filter (λ x, key_before e x.1 = true) (db_range db k)).

(** [Iterator::take]. *)
Fixpoint ztake {A} (n : Z) (l : list A) : list A :=
  match l with
  | [] => []
  | x :: l => if 0 <? n then x :: ztake (n - 1) l else []
  end.

(** A step of an iterator over facet values. *)
Inductive Step (S : Type) :=
| Yield (docids : bitmap) (value : string) (s : S)
| Continue (s : S)
| End.
Arguments Yield {S} docids value s.
Arguments Continue {S} s.
Arguments End {S}.

(** All the items of an iterator; [None] is out of fuel. *)
Fixpoint iterate_all {S} (step : S → Step S) (fuel : nat) (s : S) : option (list (bitmap * string)) :=
  match fuel with
  | O => None
  | Datatypes.S fuel =>
      match step s with
      | End => Some []
      | Continue s => iterate_all step fuel s
      | Yield docids value s => cons (docids, value) <$> iterate_all step fuel s
      end
  end.

Section search.
Variable db : FacetDb.
Variable field_id : Z.

(** [get_first_facet_value] and [get_last_facet_value]: the bounds of level 0. *)
Definition level0_bounds : list string :=
  (λ e, fk_left_bound e.1) <$> filter (λ e, fk_field_id e.1 = field_id ∧ fk_level e.1 = O) db.
Definition get_first_facet_value : option string := head level0_bounds.
Definition get_last_facet_value : option string := last level0_bounds.

(** [get_highest_level]. *)
Definition get_highest_level : nat :=
  match last (filter (λ e, fk_field_id e.1 = field_id) db) with Some e => fk_level e.1 | None => O end.

(** ** Range search *)

(** [RangeBounds::contains]. *)
Definition in_bounds (left right : Bound string) (b : string) : bool :=
  match left with Included l => b_le l b | Excluded l => b_lt l b | Unbounded => true end &&
  match right with Included r => b_le b r | Excluded r => b_lt b r | Unbounded => true end.

Variables left right : Bound string.
Variable universe : option bitmap.

(** [intersection_with_serialized], or the whole bitmap without universe. *)
Definition useful (b : bitmap) : bitmap := match universe with Some u => b ∩ u | None => b end.

(** The loop of [run_level_0]. *)
Fixpoint level_0_loop (l : FacetDb) (docids : bitmap) : bitmap :=
  match l with
  | [] => docids
  | (key, value) :: l =>
      let bound := fk_left_bound key in
      if negb (fk_field_id key =? field_id) then docids
      else if match left with Included l => b_lt bound l | Excluded l => b_le bound l | Unbounded => false end
      then level_0_loop l docids
      else if match right with Included r => b_lt r bound | Excluded r => b_le r bound | Unbounded => false end
      then docids
      else level_0_loop l (if in_bounds left right bound then docids ∪ useful (fv_bitmap value) else docids)
  end.

Definition run_level_0 (start : string) (group_size : Z) (docids : bitmap) : bitmap :=
  level_0_loop (ztake group_size (db_range db (mkFacetGroupKey field_id 0 start))) docids.

(** Whether all the values after [bound] are out of reach. *)
Definition should_stop (bound : string) : bool :=
  match right with Included r => b_lt r bound | Excluded r => b_le r bound | Unbounded => false end.
(** Whether [bound] is after the left bound. *)
Definition left_condition (bound : string) : bool :=
  match left with Included l => b_le l bound | Excluded l => b_lt l bound | Unbounded => true end.

(** The loop of [run] over the entries of a level, [previous] being the one
    before; [visit] is [run] on the level below.  It is over when there is
    nothing more to find ([inl]), or at the last entry. *)
Fixpoint run_loop (visit : string → Bound string → Z → bitmap → outcome unit bitmap)
    (previous : FacetGroupKey * FacetGroupValue) (l : FacetDb) (docids : bitmap)
    : outcome unit (bitmap + (FacetGroupKey * FacetGroupValue) * bitmap) :=
  match l with
  | [] => Ok (inr (previous, docids))
  | next :: l =>
      let next_bound := fk_left_bound next.1 in
      let bound := fk_left_bound previous.1 in
      if negb (fk_field_id next.1 =? field_id) then Ok (inr (previous, docids))
      else if match left with Included l | Excluded l => b_le next_bound l | Unbounded => false end
      then run_loop visit next l docids
      else if should_stop bound then Ok (inl docids)
      else if left_condition bound &&
              match right with Included r | Excluded r => b_le next_bound r | Unbounded => true end
      then run_loop visit next l (docids ∪ useful (fv_bitmap previous.2))
      else docids ← visit bound (Excluded next_bound) (fv_size previous.2) docids;
           run_loop visit next l docids
  end.

(** [run]. *)
Fixpoint run (level : nat) (start : string) (rightmost : Bound string) (group_size : Z) (docids : bitmap)
    : outcome unit bitmap :=
  match level with
  | O => Ok (run_level_0 start group_size docids)
  | S below =>
      match ztake group_size (db_range db (mkFacetGroupKey field_id level start)) with
      | [] => Panic
      | first :: l =>
          r ← run_loop (run below) first l docids;
          match r with
          | inl docids => Ok docids
          | inr (previous, docids) =>
              let bound := fk_left_bound previous.1 in
              if match left, rightmost with
                 | Included l, Included r => b_lt r l
                 | Included l, Excluded r | Excluded l, Included r | Excluded l, Excluded r => b_le r l
                 | _, _ => false
                 end
              then Ok docids
              else if should_stop bound then Ok docids
              else if left_condition bound &&
                      match right, rightmost with
                      | Included r, Included m | Included r, Excluded m | Excluded r, Excluded m => b_le m r
                      | Excluded r, Included m => b_lt m r
                      | Unbounded, _ => true
                      | _, Unbounded => false
                      end
              then Ok (docids ∪ useful (fv_bitmap previous.2))
              else run below bound rightmost (fv_size previous.2) docids
          end
      end
  end.

(** [find_docids_of_facet_within_bounds]. *)
Definition find_docids_of_facet_within_bounds (docids : bitmap) : outcome unit bitmap :=
  match get_first_facet_value with
  | Some first =>
      last ← unwrap get_last_facet_value;
      run get_highest_level first (Included last) u64_max docids
  | None => Ok docids
  end.

(** ** Sorting by facet *)

(** One round of the loops of [AscendingFacetSort::next]. *)
Definition ascending_step (stack : list (bitmap * FacetDb)) : Step (list (bitmap * FacetDb)) :=
  match stack with
  | [] => End
  | (_, []) :: stack => Continue stack
  | (documents_ids, (key, value) :: iter) :: stack =>
      if negb (fk_field_id key =? field_id) then End
      else if bm_is_empty documents_ids then Continue stack
      else
        let b := fv_bitmap value ∩ documents_ids in
        if bm_is_empty b then Continue ((documents_ids, iter) :: stack)
        else
          let stack := (documents_ids ∖ b, iter) :: stack in
          match fk_level key with
          | O => Yield b (fk_left_bound key) stack
          | S below =>
              Continue ((b, ztake (fv_size value)
                              (db_range db (mkFacetGroupKey field_id below (fk_left_bound key)))) :: stack)
          end
  end.

(** One round of the loops of [DescendingFacetSort::next]. *)
Definition descending_step (stack : list (bitmap * FacetDb * Bound string))
    : Step (list (bitmap * FacetDb * Bound string)) :=
  match stack with
  | [] => End
  | (_, [], _) :: stack => Continue stack
  | (documents_ids, (key, value) :: iter, right_bound) :: stack =>
      if negb (fk_field_id key =? field_id) then End
      else if bm_is_empty documents_ids then Continue stack
      else
        let b := fv_bitmap value ∩ documents_ids in
        if bm_is_empty b then Continue ((documents_ids, iter, Excluded (fk_left_bound key)) :: stack)
        else
          match fk_level key with
          | O => Yield b (fk_left_bound key) ((documents_ids ∖ b, iter, right_bound) :: stack)
          | S below =>
              let bound := fk_left_bound key in
              let iter_below := ztake (fv_size value)
                (db_rev_range db (mkFacetGroupKey field_id below bound)
                   (map_bound (mkFacetGroupKey field_id below) right_bound)) in
              Continue ((b, iter_below, right_bound) :: (documents_ids ∖ b, iter, Excluded bound) :: stack)
          end
  end.

(** [ascending_facet_sort]. *)
Definition ascending_facet_sort (fuel : nat) (candidates : bitmap) : option (list (bitmap * string)) :=
  match get_first_facet_value with
  | Some first =>
      iterate_all ascending_step fuel
        [(candidates, ztake u64_max (db_range db (mkFacetGroupKey field_id get_highest_level first)))]
  | None => Some []
  end.

(** [descending_facet_sort]. *)
Definition descending_facet_sort (fuel : nat) (candidates : bitmap) : option (list (bitmap * string)) :=
  match get_first_facet_value, get_last_facet_value with
  | Some first, Some last =>
      let key := mkFacetGroupKey field_id get_highest_level in
      iterate_all descending_step fuel
        [(candidates, ztake u64_max (db_rev_range db (key first) (Included (key last))), Included last)]
  | _, _ => Some []
  end.
End search.

(** ** The order of the values *)

Lemma b_le_refl x : b_le x x = true.
Proof. apply bool_decide_eq_true. reflexivity. Qed.
Lemma b_le_trans x y z : b_le x y = true → b_le y z = true → b_le x z = true.
Proof. unfold b_le. rewrite !bool_decide_eq_true. intros. by transitivity y. Qed.
Lemma b_lt_le x y : b_lt x y = true → b_le x y = true.
Proof.
  unfold b_lt, b_le. rewrite negb_true_iff, bool_decide_eq_false, bool_decide_eq_true.
  destruct (total String.le x y); tauto.
Qed.
Lemma b_lt_le_trans x y z : b_lt x y = true → b_le y z = true → b_lt x z = true.
Proof. unfold b_lt. rewrite !negb_true_iff. intros Hxy Hyz. destruct (b_le z x) eqn:Hzx; [|done].
  by rewrite (b_le_trans y z x) in Hxy. Qed.
Lemma b_le_lt_trans x y z : b_le x y = true → b_lt y z = true → b_lt x z = true.
Proof. unfold b_lt. rewrite !negb_true_iff. intros Hxy Hyz. destruct (b_le z x) eqn:Hzx; [|done].
  by rewrite (b_le_trans z x y) in Hyz. Qed.
Lemma b_lt_irrefl x : b_lt x x = false.
Proof. unfold b_lt. by rewrite b_le_refl. Qed.
Lemma b_lt_not_le x y : b_lt x y = negb (b_le y x).
Proof. done. Qed.
Lemma b_le_not_lt x y : b_le x y = negb (b_lt y x).
Proof. unfold b_lt. by rewrite negb_involutive. Qed.
Lemma b_lt_trans x y z : b_lt x y = true → b_lt y z = true → b_lt x z = true.
Proof. intros Hxy Hyz. eapply b_lt_le_trans; [done|by apply b_lt_le]. Qed.

Lemma list_filter_all {A} (P : A → Prop) `{!∀ x, Decision (P x)} l : Forall P l → filter P l = l.
Proof. induction 1 as [|x l Hx _ IH]; [done|]. by rewrite filter_cons_True, IH. Qed.
Lemma list_filter_none {A} (P : A → Prop) `{!∀ x, Decision (P x)} l : Forall (λ x, ¬ P x) l → filter P l = [].
Proof. induction 1 as [|x l Hx _ IH]; [done|]. by rewrite filter_cons_False, IH. Qed.

Lemma ztake_all {A} n (l : list A) : Z.of_nat (length l) ≤ n → ztake n l = l.
Proof.
  revert n. induction l as [|x l IH]; intros n Hn; [done|]. cbn [length ztake] in *.
  rewrite (proj2 (Z.ltb_lt 0 n)) by lia. f_equal. apply IH. lia.
Qed.
Lemma ztake_app {A} (l r : list A) : ztake (Z.of_nat (length l)) (l ++ r) = l.
Proof.
  induction l as [|x l IH]; [by destruct r|]. cbn [length ztake app].
  rewrite (proj2 (Z.ltb_lt _ _)) by lia. f_equal.
  replace (Z.of_nat (S (length l)) - 1) with (Z.of_nat (length l)) by lia. exact IH.
Qed.

(** ** The groups of a field as a forest *)

(** A group of level [h] is the list of the groups of the level below. *)
Fixpoint tree (h : nat) : Type := match h with O => string * bitmap | S h => list (tree h) end.

Fixpoint leaves (h : nat) : tree h → list (string * bitmap) :=
  match h with O => λ t, [t] | S h => λ t, concat (leaves h <$> t) end.
Definition all_leaves (h : nat) (F : list (tree h)) : list (string * bitmap) := concat (leaves h <$> F).
Definition g_bound (h : nat) (t : tree h) : string := default "" (fst <$> head (leaves h t)).
Definition docs (l : list (string * bitmap)) : bitmap := ⋃ (snd <$> l).
Definition g_size (h : nat) : tree h → Z := match h with O => λ _, 1 | S h => λ t, Z.of_nat (length t) end.

(** Groups are not empty. *)
Fixpoint tree_ok (h : nat) : tree h → Prop :=
  match h with O => λ _, True | S h => λ t, t ≠ [] ∧ Forall (tree_ok h) t end.

Section entries.
Variable fid : Z.

Definition entry (h : nat) (t : tree h) : FacetGroupKey * FacetGroupValue :=
  (mkFacetGroupKey fid h (g_bound h t), mkFacetGroupValue (g_size h t) (docs (leaves h t))).
Fixpoint field_entries (h : nat) : list (tree h) → FacetDb :=
  match h with
  | O => λ F, entry 0 <$> F
  | S h => λ F, field_entries h (concat F) ++ (entry (S h) <$> F)
  end.

(** The position of an entry relative to the level [h] of the field. *)
Definition below_level (h : nat) (e : FacetGroupKey * FacetGroupValue) : Prop :=
  fk_field_id e.1 < fid ∨ (fk_field_id e.1 = fid ∧ (fk_level e.1 < h)%nat).
Definition above_level (h : nat) (e : FacetGroupKey * FacetGroupValue) : Prop :=
  fid < fk_field_id e.1 ∨ (fk_field_id e.1 = fid ∧ (h < fk_level e.1)%nat).

(** The levels up to [h] of the field are the forest [F]. *)
Definition in_db (db : FacetDb) (h : nat) (F : list (tree h)) : Prop :=
  ∃ before after, db = before ++ field_entries h F ++ after ∧
    Forall (λ e, fk_field_id e.1 < fid) before ∧ Forall (above_level h) after.

Definition sorted (l : list (string * bitmap)) : Prop := StronglySorted (λ x y, b_lt x.1 y.1 = true) l.

(** The groups of a field in a database: [F] is the highest level. *)
Record facet_tree (db : FacetDb) (h : nat) (F : list (tree h)) : Prop := {
  ft_db : ∃ before after, db = before ++ field_entries h F ++ after ∧
    Forall (λ e, fk_field_id e.1 < fid) before ∧ Forall (λ e, fid < fk_field_id e.1) after;
  ft_ok : Forall (tree_ok h) F;
  ft_nonempty : F ≠ [];
  ft_sorted : sorted (all_leaves h F);
  ft_small : Z.of_nat (length db) ≤ u64_max;
}.

(** Consecutive groups of a level. *)
Definition located (db : FacetDb) (h : nat) (seg : list (tree h)) : Prop :=
  ∃ pre post, in_db db h (pre ++ seg ++ post) ∧ Forall (tree_ok h) (pre ++ seg ++ post) ∧
    sorted (all_leaves h (pre ++ seg ++ post)).

Lemma field_entries_below h : ∀ F, Forall (λ e, fk_field_id e.1 = fid ∧ (fk_level e.1 ≤ h)%nat) (field_entries h F).
Proof.
  induction h as [|h IH]; intros F; cbn [field_entries].
  - apply Forall_fmap, Forall_forall. intros t _. done.
  - apply Forall_app. split; [eapply Forall_impl; [apply IH|]; cbn; intros e [? ?]; split; [done|lia]|].
    apply Forall_fmap, Forall_forall. intros t _. done.
Qed.

Lemma in_db_below db h F : in_db db (S h) F → in_db db h (concat F).
Proof.
  intros (before & after & -> & Hb & Ha). exists before, ((entry (S h) <$> F) ++ after).
  split; [cbn [field_entries]; by rewrite <-app_assoc|]. split; [done|]. apply Forall_app. split.
  - apply Forall_fmap, Forall_forall. intros t _. right. cbn. lia.
  - eapply Forall_impl; [exact Ha|]. intros e [?|[? ?]]; [by left|right]. split; [done|lia].
Qed.

(** A level of the database. *)
Lemma in_db_level db h F : in_db db h F →
  ∃ A C, db = A ++ (entry h <$> F) ++ C ∧ Forall (below_level h) A ∧ Forall (above_level h) C.
Proof.
  intros (before & after & -> & Hb & Ha).
  assert (Hbef : Forall (below_level h) before) by (eapply Forall_impl; [exact Hb|]; by left).
  destruct h as [|h]; cbn [field_entries].
  - by exists before, after.
  - exists (before ++ field_entries h (concat F)), after. split; [by rewrite <-!app_assoc|]. split; [|done].
    apply Forall_app. split; [done|]. eapply Forall_impl; [apply field_entries_below|].
    intros e [? ?]. right. split; [done|lia].
Qed.

Lemma all_leaves_app h F G : all_leaves h (F ++ G) = all_leaves h F ++ all_leaves h G.
Proof. unfold all_leaves. by rewrite fmap_app, concat_app. Qed.

Lemma all_leaves_concat h (F : list (tree (S h))) : all_leaves h (concat F) = all_leaves (S h) F.
Proof. induction F as [|t F IH]; [done|]. cbn [concat]. rewrite all_leaves_app, IH. done. Qed.

Lemma all_leaves_0 (F : list (tree 0)) : all_leaves 0 F = F.
Proof. induction F as [|t F IH]; [done|]. unfold all_leaves in *. cbn. by f_equal. Qed.

Lemma leaves_nonempty h : ∀ t, tree_ok h t → leaves h t ≠ [].
Proof.
  induction h as [|h IH]; intros t Ht; [done|]. destruct Ht as [Hne Hok]. destruct t as [|x t]; [done|].
  inversion Hok as [|?? Hx _]; subst. cbn. specialize (IH x Hx). destruct (leaves h x); [done|done].
Qed.

Lemma sorted_app l r : sorted (l ++ r) ↔ sorted l ∧ sorted r ∧ ∀ x y, x ∈ l → y ∈ r → b_lt x.1 y.1 = true.
Proof. unfold sorted. rewrite StronglySorted_app. tauto. Qed.

Lemma g_bound_leaf h t : tree_ok h t → ∃ b l, leaves h t = (g_bound h t, b) :: l.
Proof.
  intros Ht. pose proof (leaves_nonempty h t Ht). unfold g_bound. destruct (leaves h t) as [|[x b] l]; [done|]. cbn. eauto.
Qed.

Lemma g_bound_node h c (cs : list (tree h)) : tree_ok h c → g_bound (S h) (c :: cs) = g_bound h c.
Proof. intros Hc. pose proof (leaves_nonempty h c Hc). unfold g_bound. cbn. by destruct (leaves h c). Qed.

(** The bound of a group is its least value. *)
Lemma g_bound_least h t x : tree_ok h t → sorted (leaves h t) → x ∈ leaves h t → b_le (g_bound h t) x.1 = true.
Proof.
  intros Ht Hs Hx. destruct (g_bound_leaf h t Ht) as (b & l & Heq). rewrite Heq in *.
  apply elem_of_cons in Hx as [->|Hx]; [apply b_le_refl|]. apply StronglySorted_inv in Hs as [_ Hall].
  rewrite Forall_forall in Hall. by apply b_lt_le, (Hall x).
Qed.
End entries.

Section located.
Variable db : FacetDb.
Variable fid : Z.

Notation key h := (mkFacetGroupKey fid h).

(** The children of a group are consecutive in the level below. *)
Lemma located_children h seg1 t seg2 : located fid db (S h) (seg1 ++ t :: seg2) → located fid db h t.
Proof.
  intros (pre & post & Hdb & Hok & Hs). exists (concat (pre ++ seg1)), (concat (seg2 ++ post)).
  assert (Heq : @app (tree h) (concat (pre ++ seg1)) (@app (tree h) t (concat (seg2 ++ post))) =
    @concat (tree h) (pre ++ (seg1 ++ t :: seg2) ++ post)).
  { rewrite !concat_app. cbn [concat]. by rewrite <-!app_assoc. }
  unfold tree in Heq |- *. fold tree in Heq |- *. rewrite Heq. split; [by apply in_db_below|]. split.
  - apply Forall_concat. eapply Forall_impl; [exact Hok|]. by intros x [_ ?].
  - by rewrite all_leaves_concat.
Qed.

Lemma located_facts h seg : located fid db h seg → Forall (tree_ok h) seg ∧ sorted (all_leaves h seg).
Proof.
  intros (pre & post & _ & Hok & Hs). rewrite !Forall_app in Hok. destruct Hok as (_ & Hok & _). split; [done|].
  rewrite !all_leaves_app, !sorted_app in Hs. tauto.
Qed.

Lemma located_one h seg1 t seg2 : located fid db h (seg1 ++ t :: seg2) → tree_ok h t ∧ sorted (leaves h t).
Proof.
  intros [Hok Hs]%located_facts. rewrite Forall_app, Forall_cons in Hok. split; [tauto|].
  change (t :: seg2) with ([t] ++ seg2) in Hs. rewrite !all_leaves_app, !sorted_app in Hs.
  destruct Hs as (_ & (Ht & _) & _). unfold all_leaves in Ht. cbn in Ht. by rewrite app_nil_r in Ht.
Qed.

Lemma located_app h seg1 seg2 : located fid db h (seg1 ++ seg2) → located fid db h seg2 ∧ located fid db h seg1.
Proof.
  intros (pre & post & Hl). split; [exists (pre ++ seg1), post|exists pre, (seg2 ++ post)]; by rewrite <-!app_assoc in *.
Qed.

(** Two groups of a level: the values of the first are before the bound of the
    second. *)
Lemma located_lt h seg t t' : located fid db h seg →
  (∃ s1 s2 s3, seg = s1 ++ t :: s2 ++ t' :: s3) → ∀ x, x ∈ leaves h t → b_lt x.1 (g_bound h t') = true.
Proof.
  intros [Hok Hs]%located_facts (s1 & s2 & s3 & ->) x Hx.
  rewrite all_leaves_app, sorted_app in Hs. destruct Hs as (_ & Hs & _).
  change (t :: s2 ++ t' :: s3) with ([t] ++ s2 ++ t' :: s3) in Hs.
  rewrite all_leaves_app, sorted_app in Hs. destruct Hs as (_ & _ & Hlt).
  rewrite Forall_app, Forall_cons, Forall_app, Forall_cons in Hok.
  destruct (g_bound_leaf h t' ltac:(tauto)) as (b & l & Heq). apply (Hlt x (g_bound h t', b)).
  - unfold all_leaves. cbn. rewrite app_nil_r. done.
  - rewrite all_leaves_app. apply elem_of_app. right. unfold all_leaves. cbn. rewrite Heq. apply elem_of_app. left. by left.
Qed.

Lemma key_lt_same h b b' : key_lt (key h b) (key h b') = b_lt b b'.
Proof. unfold key_lt. cbn [fk_field_id fk_level fk_left_bound]. rewrite Z.ltb_irrefl, Z.eqb_refl, (proj2 (Nat.ltb_ge h h)), Nat.eqb_refl by lia. done. Qed.
Lemma key_lt_below h b e : below_level fid h e → key_lt e.1 (key h b) = true.
Proof.
  unfold key_lt, below_level. cbn [fk_field_id fk_level fk_left_bound]. destruct (Z.ltb_spec (fk_field_id e.1) fid); [done|]. rewrite orb_false_l.
  intros [?|[Heq Hlt]]; [lia|]. rewrite (proj2 (Z.eqb_eq _ _) Heq), (proj2 (Nat.ltb_lt _ _) Hlt). done.
Qed.
Lemma key_lt_above h b e : above_level fid h e → key_lt e.1 (key h b) = false ∧ key_lt (key h b) e.1 = true.
Proof.
  unfold key_lt, above_level. cbn [fk_field_id fk_level fk_left_bound]. intros [Hlt|[Heq Hlt]].
  - rewrite (proj2 (Z.ltb_ge (fk_field_id e.1) fid)), (proj2 (Z.ltb_lt fid _)), (proj2 (Z.eqb_neq (fk_field_id e.1) fid)) by lia. done.
  - rewrite Heq, Z.ltb_irrefl, Z.eqb_refl, (proj2 (Nat.ltb_ge (fk_level e.1) h)), (proj2 (Nat.ltb_lt h _)),
      (proj2 (Nat.eqb_neq (fk_level e.1) h)) by lia. done.
Qed.

Lemma range_split h A (pre : list (tree h)) t seg C :
  Forall (below_level fid h) A → Forall (above_level fid h) C →
  (∀ x, x ∈ pre → b_lt (g_bound h x) (g_bound h t) = true) →
  (∀ x, x ∈ seg → b_lt (g_bound h t) (g_bound h x) = true) →
  db_range (A ++ (entry fid h <$> pre ++ t :: seg) ++ C) (key h (g_bound h t)) = (entry fid h <$> t :: seg) ++ C.
Proof.
  intros HA HC Hpre Hseg. unfold db_range. rewrite fmap_app, !filter_app.
  rewrite (list_filter_none _ A), (list_filter_none _ (entry fid h <$> pre)).
  - cbn [app]. f_equal; apply list_filter_all.
    + apply Forall_fmap, Forall_cons. cbn [compose entry fst]. rewrite key_lt_same. split; [apply b_lt_irrefl|].
      apply Forall_forall. intros x Hx. cbn [compose entry fst]. rewrite key_lt_same.
      unfold b_lt. apply negb_false_iff, b_lt_le, Hseg, Hx.
    + eapply Forall_impl; [exact HC|]. intros e He. by apply key_lt_above.
  - apply Forall_fmap, Forall_forall. intros x Hx. cbn [compose entry fst]. rewrite key_lt_same. by rewrite (Hpre x Hx).
  - eapply Forall_impl; [exact HA|]. intros e He. by rewrite key_lt_below.
Qed.

(** The bounds of the groups of a level, around one of them. *)
Lemma located_bounds h pre t seg : located fid db h (pre ++ t :: seg) →
  (∀ x, x ∈ pre → b_lt (g_bound h x) (g_bound h t) = true) ∧ (∀ x, x ∈ seg → b_lt (g_bound h t) (g_bound h x) = true).
Proof.
  intros Hl. pose proof (located_facts _ _ Hl) as [Hok _]. rewrite Forall_app, Forall_cons in Hok.
  assert (Hb : ∀ x, tree_ok h x → ∃ b, (g_bound h x, b) ∈ leaves h x).
  { intros x Hx. destruct (g_bound_leaf h x Hx) as (b & l & ->). exists b. by left. }
  split; intros x Hx; apply list_elem_of_split in Hx as (s1 & s2 & ->).
  - destruct (Hb x) as [b Hin]; [rewrite Forall_app, Forall_cons in Hok; tauto|].
    refine (located_lt _ _ _ _ Hl _ _ Hin). exists s1, s2, seg. by rewrite <-app_assoc.
  - destruct (Hb t) as [b Hin]; [tauto|]. refine (located_lt _ _ _ _ Hl _ _ Hin). by exists pre, s1, s2.
Qed.

(** The entries from the first of consecutive groups on. *)
Lemma located_range h t seg : located fid db h (t :: seg) →
  ∃ rest, db_range db (key h (g_bound h t)) = (entry fid h <$> t :: seg) ++ rest.
Proof.
  intros (pre & post & Hdb & Hok & Hs).
  assert (Hl : located fid db h (pre ++ t :: (seg ++ post))) by (exists [], []; by rewrite app_nil_r).
  apply located_bounds in Hl as [Hpre Hseg]. destruct (in_db_level _ _ _ _ Hdb) as (A & C & Heq & HA & HC).
  exists ((entry fid h <$> post) ++ C). rewrite Heq.
  change ((t :: seg) ++ post) with (t :: (seg ++ post)). rewrite range_split by done.
  by rewrite app_assoc, <-fmap_app.
Qed.

Lemma facet_tree_located h F : facet_tree fid db h F → located fid db h F.
Proof.
  intros [(before & after & Heq & Hb & Ha) Hok _ Hs _]. exists [], []. rewrite app_nil_r. split; [|done].
  exists before, after. split_and!; [done|done|]. eapply Forall_impl; [exact Ha|]. by left.
Qed.

(** The highest level of a field is followed by other fields. *)
Lemma facet_tree_range h t F : facet_tree fid db h (t :: F) → ∃ rest,
  db_range db (key h (g_bound h t)) = (entry fid h <$> t :: F) ++ rest ∧ Forall (λ e, fk_field_id e.1 ≠ fid) rest.
Proof.
  intros Ht. pose proof (facet_tree_located _ _ Ht) as Hl. apply (located_bounds _ []) in Hl as [Hpre Hseg].
  destruct Ht as [(before & after & Heq & Hb & Ha) _ _ _ _].
  destruct (in_db_level fid db h (t :: F)) as (A & C & Heq' & HA & HC).
  { exists before, after. split_and!; [done|done|]. eapply Forall_impl; [exact Ha|]. by left. }
  exists after. split; [|eapply Forall_impl; [exact Ha|]; cbn; intros; lia].
  assert (Hbef : ∃ A, before ++ field_entries fid h (t :: F) ++ after = A ++ (entry fid h <$> [] ++ t :: F) ++ after ∧
    Forall (below_level fid h) A).
  { assert (Forall (below_level fid h) before) by (eapply Forall_impl; [exact Hb|]; by left).
    destruct h as [|h]; cbn [field_entries]; [by exists before|].
    exists (before ++ field_entries fid h (concat (t :: F))). split; [by rewrite <-!app_assoc|].
    apply Forall_app. split; [done|]. eapply Forall_impl; [apply field_entries_below|].
    intros e [? ?]. right. split; [done|lia]. }
  destruct Hbef as (A' & HeqA & HA'). rewrite Heq, HeqA. apply range_split; [done| |done|done].
  eapply Forall_impl; [exact Ha|]. by left.
Qed.

Lemma level0_entries h : ∀ F,
  (λ e, fk_left_bound e.1) <$> filter (λ e, fk_field_id e.1 = fid ∧ fk_level e.1 = O) (field_entries fid h F) =
  fst <$> all_leaves h F.
Proof.
  induction h as [|h IH]; intros F; cbn [field_entries].
  - rewrite list_filter_all by (apply Forall_fmap, Forall_forall; by intros t _).
    induction F as [|[x b] F IH]; [done|]. cbn. by f_equal.
  - rewrite filter_app, (list_filter_none _ (entry fid (S h) <$> F)), app_nil_r, IH, all_leaves_concat; [done|].
    apply Forall_fmap, Forall_forall. intros t _ [_ ?]. done.
Qed.

Lemma top_level0 h F : facet_tree fid db h F → level0_bounds db fid = fst <$> all_leaves h F.
Proof.
  intros [(before & after & Heq & Hb & Ha) _ _ _ _]. unfold level0_bounds.
  rewrite Heq, !filter_app, (list_filter_none _ before), (list_filter_none _ after), app_nil_r, app_nil_l.
  - apply level0_entries.
  - eapply Forall_impl; [exact Ha|]. cbn. intros e ? [? _]. lia.
  - eapply Forall_impl; [exact Hb|]. cbn. intros e ? [? _]. lia.
Qed.

Lemma field_entries_last h (F : list (tree h)) t : last (field_entries fid h (F ++ [t])) = Some (entry fid h t).
Proof.
  destruct h; cbn [field_entries]; rewrite fmap_app; cbn [fmap list_fmap]; [by rewrite last_snoc|]. by rewrite app_assoc, last_snoc.
Qed.

Lemma top_highest h F : facet_tree fid db h F → get_highest_level db fid = h.
Proof.
  intros [(before & after & Heq & Hb & Ha) _ Hne _ _]. unfold get_highest_level.
  rewrite Heq, !filter_app, (list_filter_none _ before), (list_filter_none _ after), app_nil_r, app_nil_l.
  - rewrite list_filter_all by (eapply Forall_impl; [apply field_entries_below|]; by intros e [? _]).
    destruct (exists_last Hne) as (F' & t & ->). by rewrite field_entries_last.
  - eapply Forall_impl; [exact Ha|]. cbn. lia.
  - eapply Forall_impl; [exact Hb|]. cbn. lia.
Qed.

Lemma top_first h t F : facet_tree fid db h (t :: F) → get_first_facet_value db fid = Some (g_bound h t).
Proof.
  intros Ht. unfold get_first_facet_value. rewrite (top_level0 _ _ Ht). destruct Ht as [_ Hok _ _ _].
  inversion Hok as [|?? Hx _]; subst. destruct (g_bound_leaf h t Hx) as (b & l & Heq).
  unfold all_leaves. cbn. by rewrite Heq.
Qed.

Lemma top_last h F : facet_tree fid db h F → ∃ x, get_last_facet_value db fid = Some x ∧ ∀ y, y ∈ all_leaves h F → b_le y.1 x = true.
Proof.
  intros Ht. unfold get_last_facet_value. rewrite (top_level0 _ _ Ht). destruct Ht as [_ Hok Hne Hs _].
  assert (Hl : all_leaves h F ≠ []).
  { destruct F as [|t F']; [done|]. inversion Hok as [|?? Hx _]; subst. destruct (g_bound_leaf h t Hx) as (b & l & Heq).
    unfold all_leaves. cbn. by rewrite Heq. }
  destruct (exists_last Hl) as (l & z & Heq). rewrite Heq in *. rewrite fmap_app. cbn [fmap list_fmap]. rewrite last_snoc.
  exists z.1. split; [done|]. intros y [Hy| ->%list_elem_of_singleton]%elem_of_app; [|apply b_le_refl].
  apply sorted_app in Hs as (_ & _ & Hlt). apply b_lt_le, Hlt; [done|by left].
Qed.

(** The highest level, as the searches read it. *)
Lemma top_range h t F : facet_tree fid db h (t :: F) → ∃ rest,
  ztake u64_max (db_range db (key h (g_bound h t))) = (entry fid h <$> t :: F) ++ rest ∧
  Forall (λ e, fk_field_id e.1 ≠ fid) rest.
Proof.
  intros Ht. destruct (facet_tree_range _ _ _ Ht) as (rest & Hr & Hrest). exists rest. split; [|done].
  rewrite Hr. apply ztake_all. rewrite <-Hr. pose proof (ft_small _ _ _ _ Ht). etransitivity; [|eassumption].
  apply inj_le. unfold db_range. apply length_filter.
Qed.
End located.

(** ** Range search *)

Section range_search.
Variable db : FacetDb.
Variable fid : Z.
Variables left right : Bound string.
Variable universe : option bitmap.

(** The documents that have a value between the bounds, by a scan of level 0. *)
Definition hits (l : list (string * bitmap)) : bitmap :=
  ⋃ ((λ x, useful universe x.2) <$> filter (λ x, in_bounds left right x.1 = true) l).

Lemma hits_app l r : hits (l ++ r) = hits l ∪ hits r.
Proof. unfold hits. by rewrite filter_app, fmap_app, union_list_app_L. Qed.

Lemma hits_none l : (∀ x, x ∈ l → in_bounds left right x.1 = false) → hits l = ∅.
Proof.
  intros Hl. unfold hits. rewrite list_filter_none; [done|]. apply Forall_forall. intros x Hx. by rewrite Hl.
Qed.

Lemma hits_all l : (∀ x, x ∈ l → in_bounds left right x.1 = true) → hits l = useful universe (docs l).
Proof.
  intros Hl. unfold hits, docs. rewrite list_filter_all by (by apply Forall_forall). clear Hl.
  induction l as [|x l IH]; cbn; [destruct universe; set_solver|]. rewrite IH. destruct universe; cbn; set_solver.
Qed.

Lemma hits_cons h (t : tree h) F : hits (all_leaves h (t :: F)) = hits (leaves h t) ∪ hits (all_leaves h F).
Proof. apply (hits_app (leaves h t)). Qed.

Lemma docs_leaf x b : docs (leaves 0 (x, b)) = b.
Proof. unfold docs. cbn [leaves fmap list_fmap]. rewrite union_list_singleton_L. done. Qed.

Definition within (rightmost : Bound string) (x : string * bitmap) : Prop :=
  match rightmost with Included m => b_le x.1 m = true | Excluded m => b_lt x.1 m = true | Unbounded => True end.

Lemma after_right bound x : should_stop right bound = true → b_le bound x = true → in_bounds left right x = false.
Proof.
  unfold should_stop, in_bounds. intros Hs Hb. apply andb_false_iff. right. destruct right as [r|r|]; [| |done].
  - rewrite b_le_not_lt. apply negb_false_iff. by eapply b_lt_le_trans.
  - rewrite b_lt_not_le. apply negb_false_iff. by eapply b_le_trans.
Qed.

Lemma before_left next x :
  match left with Included l | Excluded l => b_le next l | Unbounded => false end = true → b_lt x next = true →
  in_bounds left right x = false.
Proof.
  intros Hl Hx. unfold in_bounds. apply andb_false_iff. left. destruct left as [l|l|]; [| |done].
  - rewrite b_le_not_lt. apply negb_false_iff. by eapply b_lt_le_trans.
  - rewrite b_lt_not_le. apply negb_false_iff, b_lt_le. by eapply b_lt_le_trans.
Qed.

Lemma left_of bound x : left_condition left bound = true → b_le bound x = true →
  match left with Included l => b_le l x | Excluded l => b_lt l x | Unbounded => true end = true.
Proof.
  unfold left_condition. intros Hc Hx. destruct left; [by eapply b_le_trans|by eapply b_lt_le_trans|done].
Qed.

Lemma between bound next x : left_condition left bound = true →
  match right with Included r | Excluded r => b_le next r | Unbounded => true end = true →
  b_le bound x = true → b_lt x next = true → in_bounds left right x = true.
Proof.
  intros Hl Hr Hb Hx. unfold in_bounds. apply andb_true_iff. split; [by eapply left_of|].
  destruct right; [|by eapply b_lt_le_trans|done]. apply b_lt_le. by eapply b_lt_le_trans.
Qed.

(** Level 0. *)
Lemma level_0_loop_spec seg rest : ∀ docids, sorted seg → Forall (λ e, fk_field_id e.1 ≠ fid) rest →
  level_0_loop fid left right universe ((entry fid 0 <$> (seg : list (tree 0))) ++ rest) docids = docids ∪ hits seg.
Proof.
  induction seg as [|[x b] seg IH]; intros docids Hs Hrest.
  { change (hits []) with (∅ : bitmap). rewrite (right_id_L ∅ (∪)). cbn [fmap list_fmap app].
    destruct Hrest as [|[k v] rest Hk _]; [done|].
    cbn [level_0_loop]. cbn in Hk. by rewrite (proj2 (Z.eqb_neq _ _) Hk). }
  apply StronglySorted_inv in Hs as [Hs Hx]. rewrite Forall_forall in Hx.
  change ((x, b) :: seg) with ([(x, b)] ++ seg) at 2. rewrite hits_app.
  cbn [fmap list_fmap app level_0_loop entry fk_field_id fk_left_bound fv_bitmap].
  change (g_bound 0 (x, b)) with x. rewrite Z.eqb_refl. cbn [negb].
  rewrite docs_leaf.
  assert (Hone : hits [(x, b)] = if in_bounds left right x then useful universe b else ∅).
  { destruct (in_bounds left right x) eqn:Hin.
    - rewrite hits_all; [change (docs [(x, b)]) with (docs (leaves 0 (x, b))); by rewrite docs_leaf|]. by intros y ->%list_elem_of_singleton.
    - apply hits_none. by intros y ->%list_elem_of_singleton. }
  rewrite Hone. set (skip := match left with Included _ => _ | _ => _ end).
  set (stop := match right with Included _ => _ | _ => _ end).
  destruct skip eqn:Hskip; [|destruct stop eqn:Hstop].
  - rewrite IH by done. assert (Hf : in_bounds left right x = false); [|rewrite Hf; set_solver].
    unfold in_bounds. apply andb_false_iff. left. unfold skip in Hskip. destruct left as [l|l|]; [| |done].
    + by rewrite b_le_not_lt, Hskip.
    + by rewrite b_lt_not_le, Hskip.
  - rewrite (after_right x x Hstop (b_le_refl x)).
    rewrite hits_none; [set_solver|]. intros y Hy. eapply after_right; [exact Hstop|]. by apply b_lt_le, (Hx y).
  - rewrite IH by done. destruct (in_bounds left right x); set_solver.
Qed.

Definition last_tree (h : nat) (t : tree h) (ts : list (tree h)) : tree h := default t (last (t :: ts)).

(** The loop over a level: everything is found, or all but the last group. *)
Lemma run_loop_spec h visit : ∀ seg t rest docids pre,
  located fid db h (pre ++ t :: seg) → Forall (λ e, fk_field_id e.1 ≠ fid) rest →
  (∀ s1 x s2 y s3 d, pre ++ t :: seg = s1 ++ x :: s2 ++ y :: s3 → s2 = [] →
     visit (g_bound h x) (Excluded (g_bound h y)) (g_size h x) d = Ok (d ∪ hits (leaves h x))) →
  run_loop fid left right universe visit (entry fid h t) ((entry fid h <$> seg) ++ rest) docids =
    Ok (inl (docids ∪ hits (all_leaves h (t :: seg)))) ∨
  ∃ init t', t :: seg = init ++ [t'] ∧
    run_loop fid left right universe visit (entry fid h t) ((entry fid h <$> seg) ++ rest) docids =
    Ok (inr (entry fid h t', docids ∪ hits (all_leaves h init))).
Proof.
  induction seg as [|next seg IH]; intros t rest docids pre Hl Hrest Hvisit.
  { right. exists [], t. split; [done|]. cbn [fmap list_fmap app]. change (hits (all_leaves h [])) with (∅ : bitmap).
    rewrite (right_id_L ∅ (∪)). destruct Hrest as [|[k v] rest Hk _]; [done|].
    cbn [run_loop fst]. cbn in Hk. by rewrite (proj2 (Z.eqb_neq _ _) Hk). }
  cbn [fmap list_fmap app run_loop].
  change (fk_field_id (entry fid h next).1) with fid. rewrite Z.eqb_refl. cbn [negb].
  change (fk_left_bound (entry fid h next).1) with (g_bound h next).
  change (fk_left_bound (entry fid h t).1) with (g_bound h t).
  change (fv_bitmap (entry fid h t).2) with (docs (leaves h t)).
  change (fv_size (entry fid h t).2) with (g_size h t).
  destruct (located_one _ _ _ _ _ _ Hl) as [Hok Hsort].
  assert (Hlt : ∀ x, x ∈ leaves h t → b_lt x.1 (g_bound h next) = true).
  { intros x Hx. refine (located_lt _ _ _ _ _ _ Hl _ _ Hx). by exists pre, [], seg. }
  assert (Hge : ∀ x, x ∈ leaves h t → b_le (g_bound h t) x.1 = true).
  { intros x Hx. by apply (g_bound_least h t). }
  assert (Hgo : ∀ d, d = docids ∪ hits (leaves h t) →
    run_loop fid left right universe visit (entry fid h next) ((entry fid h <$> seg) ++ rest) d =
      Ok (inl (docids ∪ hits (all_leaves h (t :: next :: seg)))) ∨
    ∃ init t', t :: next :: seg = init ++ [t'] ∧
      run_loop fid left right universe visit (entry fid h next) ((entry fid h <$> seg) ++ rest) d =
      Ok (inr (entry fid h t', docids ∪ hits (all_leaves h init)))).
  { intros d ->. assert (Happ : (pre ++ [t]) ++ next :: seg = pre ++ t :: next :: seg) by (by rewrite <-app_assoc).
    destruct (IH next rest (docids ∪ hits (leaves h t)) (pre ++ [t])) as [->|(init & t' & Heq & ->)].
    - by rewrite Happ.
    - done.
    - rewrite Happ. exact Hvisit.
    - left. do 2 f_equal. rewrite (hits_cons h t). set_solver.
    - right. exists (t :: init), t'. split; [by rewrite Heq|]. do 3 f_equal.
      rewrite (hits_cons h t). set_solver. }
  destruct (match left with Included l | Excluded l => b_le (g_bound h next) l | Unbounded => false end) eqn:Hskip.
  { apply Hgo. rewrite hits_none; [set_solver|]. intros x Hx. eapply before_left; [exact Hskip|by apply Hlt]. }
  destruct (should_stop right (g_bound h t)) eqn:Hstop.
  { left. do 2 f_equal. rewrite hits_none; [set_solver|]. intros x Hx.
    apply (located_facts _ _ _ _) in Hl as [Hok' Hs'].
    eapply after_right; [exact Hstop|]. unfold all_leaves in Hx. cbn [fmap list_fmap concat] in Hx.
    apply elem_of_app in Hx as [Hx|Hx]; [by apply Hge|].
    rewrite all_leaves_app, sorted_app in Hs'. destruct Hs' as (_ & Hs' & _).
    unfold all_leaves in Hs'. cbn [fmap list_fmap concat] in Hs'. apply sorted_app in Hs' as (_ & _ & Hlt').
    destruct (g_bound_leaf h t Hok) as (b & l & Heq).
    apply b_lt_le, (Hlt' (g_bound h t, b) x); [rewrite Heq; by left|done]. }
  destruct (left_condition left (g_bound h t) && _) eqn:Hwhole.
  { apply andb_true_iff in Hwhole as [Hlc Hrc]. apply Hgo. rewrite hits_all; [done|].
    intros x Hx. eapply between; [exact Hlc|exact Hrc|by apply Hge|by apply Hlt]. }
  rewrite (Hvisit pre t [] next seg docids eq_refl eq_refl). cbn [mbind outcome_bind]. by apply Hgo.
Qed.

(** The last group of a run. *)
Lemma last_group h t rightmost :
  tree_ok h t → sorted (leaves h t) → (∀ x, x ∈ leaves h t → within rightmost x) →
  (match left, rightmost with
   | Included l, Included r => b_lt r l
   | Included l, Excluded r | Excluded l, Included r | Excluded l, Excluded r => b_le r l
   | _, _ => false
   end = true ∨ should_stop right (g_bound h t) = true → hits (leaves h t) = ∅) ∧
  (left_condition left (g_bound h t) &&
   match right, rightmost with
   | Included r, Included m | Included r, Excluded m | Excluded r, Excluded m => b_le m r
   | Excluded r, Included m => b_lt m r
   | Unbounded, _ => true
   | _, Unbounded => false
   end = true → hits (leaves h t) = useful universe (docs (leaves h t))).
Proof.
  intros Hok Hs Hw. assert (Hge : ∀ x, x ∈ leaves h t → b_le (g_bound h t) x.1 = true).
  { intros x Hx. by apply (g_bound_least h t). }
  split.
  - intros [Hskip|Hstop]; apply hits_none; intros x Hx; [|eapply after_right; [exact Hstop|by apply Hge]].
    specialize (Hw x Hx). unfold in_bounds, within in *. apply andb_false_iff. left.
    destruct left as [l|l|], rightmost as [m|m|]; try done; rewrite ?b_le_not_lt, ?(b_lt_not_le l); apply negb_false_iff.
    + by eapply b_le_lt_trans.
    + by eapply b_lt_le_trans.
    + by eapply b_le_trans.
    + apply b_lt_le. by eapply b_lt_le_trans.
  - intros [Hl Hr]%andb_true_iff. apply hits_all. intros x Hx. unfold in_bounds. apply andb_true_iff.
    split; [eapply left_of; [exact Hl|by apply Hge]|]. specialize (Hw x Hx). unfold within in Hw.
    destruct right as [r|r|], rightmost as [m|m|]; try done.
    + by eapply b_le_trans.
    + apply b_lt_le. by eapply b_lt_le_trans.
    + by eapply b_le_lt_trans.
    + by eapply b_lt_le_trans.
Qed.

(** [run] on consecutive groups, followed by other fields. *)
Lemma run_spec h : ∀ t seg rightmost n docids rest,
  located fid db h (t :: seg) → (∀ x, x ∈ all_leaves h (t :: seg) → within rightmost x) →
  ztake n (db_range db (mkFacetGroupKey fid h (g_bound h t))) = (entry fid h <$> t :: seg) ++ rest →
  Forall (λ e, fk_field_id e.1 ≠ fid) rest →
  run db fid left right universe h (g_bound h t) rightmost n docids = Ok (docids ∪ hits (all_leaves h (t :: seg))).
Proof.
  induction h as [|h IH]; intros t seg rightmost n docids rest Hl Hw Htake Hrest.
  { cbn [run]. unfold run_level_0. rewrite Htake. apply located_facts in Hl as [_ Hs].
    rewrite all_leaves_0 in *. by rewrite level_0_loop_spec. }
  assert (Hvisit : ∀ s1 x s2 m d, t :: seg = s1 ++ x :: s2 → (∀ y, y ∈ leaves (S h) x → within m y) →
    run db fid left right universe h (g_bound (S h) x) m (g_size (S h) x) d = Ok (d ∪ hits (leaves (S h) x))).
  { intros s1 x s2 m d Heq Hx. rewrite Heq in Hl. pose proof (located_one _ _ _ _ _ _ Hl) as [[Hne Hok] _].
    apply located_children in Hl. destruct x as [|c cs]; [done|]. inversion Hok as [|?? Hc _]; subst.
    rewrite g_bound_node by done. destruct (located_range _ _ _ _ _ Hl) as (rest' & Hr).
    apply (IH c cs m _ d []); [done|done| |done]. rewrite Hr, app_nil_r. cbn [g_size].
    rewrite <-(length_fmap (entry fid h)). apply ztake_app. }
  cbn [run]. rewrite Htake. cbn [fmap list_fmap app].
  destruct (run_loop_spec (S h) (run db fid left right universe h) seg t rest docids [] Hl Hrest) as [->|(init & t' & Heq & ->)].
  - intros s1 x s2 y s3 d Heq ->. cbn [app] in *. eapply Hvisit; [exact Heq|].
    intros z Hz. refine (located_lt _ _ _ _ _ _ Hl _ _ Hz). rewrite Heq. by exists s1, [], s3.
  - done.
  - cbn [mbind outcome_bind]. change (fk_left_bound (entry fid (S h) t').1) with (g_bound (S h) t').
    change (fv_bitmap (entry fid (S h) t').2) with (docs (leaves (S h) t')).
    change (fv_size (entry fid (S h) t').2) with (g_size (S h) t').
    assert (Hall : all_leaves (S h) (t :: seg) = all_leaves (S h) init ++ leaves (S h) t').
    { rewrite Heq, all_leaves_app. f_equal. unfold all_leaves. cbn [fmap list_fmap concat]. by rewrite app_nil_r. }
    rewrite Hall, hits_app, (assoc_L (∪)). rewrite Hall in Hw.
    assert (Hwt : ∀ x, x ∈ leaves (S h) t' → within rightmost x) by (intros x Hx; apply Hw, elem_of_app; by right).
    pose proof Hl as Hl'. rewrite Heq in Hl'. apply located_one in Hl' as [Hok Hs].
    destruct (last_group (S h) t' rightmost Hok Hs Hwt) as [Hnone Hwhole].
    set (skip := match left with Included _ => _ | _ => _ end) in *.
    destruct skip eqn:Hskip; [rewrite Hnone by (by left); by rewrite (right_id_L ∅ (∪))|].
    destruct (should_stop right (g_bound (S h) t')); [rewrite Hnone by (by right); by rewrite (right_id_L ∅ (∪))|].
    destruct (left_condition left (g_bound (S h) t') && _); [by rewrite Hwhole|].
    by eapply (Hvisit init t' []).
Qed.
End range_search.

Lemma range_search_leaves db fid h F left right universe docids :
  facet_tree fid db h F →
  find_docids_of_facet_within_bounds db fid left right universe docids =
    Ok (docids ∪ hits left right universe (all_leaves h F)).
Proof.
  intros Ht. unfold find_docids_of_facet_within_bounds. destruct F as [|t F]; [by destruct Ht|].
  rewrite (top_first _ _ _ _ _ Ht), (top_highest _ _ _ _ Ht).
  destruct (top_last _ _ _ _ Ht) as (x & -> & Hx). cbn [unwrap mbind outcome_bind].
  destruct (top_range _ _ _ _ _ Ht) as (rest & Hr & Hrest).
  eapply run_spec; [by apply facet_tree_located|done|exact Hr|exact Hrest].
Qed.

(** C7. A range search over the levels of a facet finds exactly the documents
    of the universe that have a value between the bounds, as a scan of all the
    values would, and adds them to those already found. *)
Theorem range_search_scan db fid h F left right universe docids :
  facet_tree fid db h F →
  find_docids_of_facet_within_bounds db fid left right universe docids =
    Ok (docids ∪ hits left right universe (all_leaves h F)).
Proof. apply range_search_leaves. Qed.

(** The values of a field, by a scan of the database. *)
Definition level0_values (db : FacetDb) (fid : Z) : list (string * bitmap) :=
  (λ e, (fk_left_bound e.1, fv_bitmap e.2)) <$> filter (λ e, fk_field_id e.1 = fid ∧ fk_level e.1 = O) db.

Lemma level0_leaves fid h : ∀ F,
  (λ e, (fk_left_bound e.1, fv_bitmap e.2)) <$> filter (λ e, fk_field_id e.1 = fid ∧ fk_level e.1 = O) (field_entries fid h F) =
  all_leaves h F.
Proof.
  induction h as [|h IH]; intros F; cbn [field_entries].
  - rewrite list_filter_all by (apply Forall_fmap, Forall_forall; by intros t _). rewrite all_leaves_0.
    induction F as [|[x b] F IH]; [done|]. cbn [fmap list_fmap]. f_equal; [|exact IH].
    cbn [entry fst snd fk_left_bound fv_bitmap]. by rewrite docs_leaf.
  - rewrite filter_app, (list_filter_none _ (entry fid (S h) <$> F)), app_nil_r, IH, all_leaves_concat; [done|].
    apply Forall_fmap, Forall_forall. intros t _ [_ ?]. done.
Qed.

Lemma level0_values_tree db fid h F : facet_tree fid db h F → level0_values db fid = all_leaves h F.
Proof.
  intros [(before & after & -> & Hb & Ha) _ _ _ _]. unfold level0_values.
  rewrite !filter_app, (list_filter_none _ before), (list_filter_none _ after).
  - rewrite app_nil_r. cbn [app]. apply level0_leaves.
  - eapply Forall_impl; [exact Ha|]. cbn. intros e ? [? _]. lia.
  - eapply Forall_impl; [exact Hb|]. cbn. intros e ? [? _]. lia.
Qed.

(** ** A sample *)

(** Three values of a field in two groups, between two other fields. *)
Definition sample_forest : list (tree 1) := [[("a", {[1; 2]}); ("b", {[2; 3]})]; [("c", {[4]})]].
Definition sample_facets : FacetDb :=
  field_entries 4 0 [("z", {[1]})] ++ field_entries 5 1 sample_forest ++ field_entries 6 0 [("a", {[3]})].

Lemma sample_tree : facet_tree 5 sample_facets 1 sample_forest.
Proof.
  constructor.
  - exists (field_entries 4 0 [("z", {[1]})]), (field_entries 6 0 [("a", {[3]})]).
    split; [done|]. split; repeat constructor.
  - repeat constructor; done.
  - done.
  - repeat constructor; vm_compute; reflexivity.
  - done.
Qed.

Lemma range_search_scan_witness :
  facet_tree 5 sample_facets 1 sample_forest ∧
  find_docids_of_facet_within_bounds sample_facets 5 (Included "b") Unbounded (Some {[3; 4; 7]}) ∅ = Ok {[3; 4]}.
Proof.
  split; [exact sample_tree|].
  rewrite (range_search_scan sample_facets 5 1 sample_forest (Included "b") Unbounded (Some {[3; 4; 7]}) ∅ sample_tree).
  vm_compute. reflexivity.
Defined.
