(* ===== verification/FacetSort.v ===== *)
(** * Sorting by facet

    The iterators of [facet_sort_ascending.rs] and [facet_sort_descending.rs] go
    down the levels of a facet only where there are candidates; they give the
    candidates in the order of a scan of all the values. *)

From S2P Require Import Prelude TaskTypes SchedUtils Facet.
From Stdlib Require Import Ascii.
From Stdlib Require String.
Open Scope Z_scope.

(** The documents by value, by a scan of level 0: each document comes with its
    first value. *)
Fixpoint facet_order (d : bitmap) (l : list (string * bitmap)) : list (bitmap * string) :=
  match l with
  | [] => []
  | (x, b) :: l => if bm_is_empty (b ∩ d) then facet_order d l else (b ∩ d, x) :: facet_order (d ∖ (b ∩ d)) l
  end.

Lemma docs_cons x (l : list (string * bitmap)) : docs (x :: l) = x.2 ∪ docs l.
Proof. done. Qed.

Lemma docs_reverse l : docs (reverse l) = docs l.
Proof. unfold docs. rewrite fmap_reverse. apply set_eq. intros x. rewrite !elem_of_union_list. by setoid_rewrite elem_of_reverse. Qed.

Lemma facet_order_same l : ∀ d d', (∀ x, x ∈ docs l → x ∈ d ↔ x ∈ d') → facet_order d l = facet_order d' l.
Proof.
  induction l as [|[v b] l IH]; intros d d' Hd; [done|]. cbn [facet_order]. rewrite docs_cons in Hd. cbn in Hd.
  assert (Heq : b ∩ d = b ∩ d') by (apply set_eq; intros x; specialize (Hd x); set_solver). rewrite Heq.
  destruct (bm_is_empty (b ∩ d')); [apply IH; intros x Hx; apply Hd; set_solver|]. f_equal. apply IH.
  intros x Hx. specialize (Hd x). set_solver.
Qed.

Lemma facet_order_empty l : facet_order ∅ l = [].
Proof.
  induction l as [|[v b] l IH]; [done|]. cbn [facet_order].
  replace (b ∩ ∅) with (∅ : bitmap) by set_solver. done.
Qed.

Lemma facet_order_app l r : ∀ d, facet_order d (l ++ r) = facet_order d l ++ facet_order (d ∖ docs l) r.
Proof.
  induction l as [|[v b] l IH]; intros d; cbn [facet_order app].
  { change (docs []) with (∅ : bitmap). by rewrite (difference_empty_L d). }
  rewrite docs_cons. cbn [snd]. unfold bm_is_empty. case_bool_decide as He; rewrite IH; cbn; [|f_equal]; f_equal;
    apply facet_order_same; intros x _; set_solver.
Qed.

(** The documents of a group come first, those left after. *)
Lemma facet_order_group l r d : facet_order d (l ++ r) = facet_order (docs l ∩ d) l ++ facet_order (d ∖ (docs l ∩ d)) r.
Proof.
  rewrite facet_order_app. f_equal; apply facet_order_same; intros x; set_solver.
Qed.

(** The number of groups of some groups, at all the levels below. *)
Fixpoint nodes (h : nat) : tree h → nat := match h with O => λ _, 1%nat | S h => λ t, S (sum_list_with (nodes h) t) end.

Lemma nodes_S h (t : tree (S h)) : nodes (S h) t = S (sum_list_with (nodes h) t).
Proof. done. Qed.

Lemma nodes_pos h (t : tree h) : (1 ≤ nodes h t)%nat.
Proof. destruct h; [done|]. rewrite nodes_S. lia. Qed.

Lemma length_field_entries fid h : ∀ F, length (field_entries fid h F) = sum_list_with (nodes h) F.
Proof.
  induction h as [|h IH]; intros F; cbn [field_entries].
  - rewrite length_fmap. induction F as [|t F IHF]; [done|]. cbn. by f_equal.
  - rewrite length_app, length_fmap, IH. induction F as [|t F IHF]; [done|]. cbn [concat length].
    rewrite sum_list_with_app. cbn [sum_list_with]. rewrite nodes_S. lia.
Qed.

(** The rounds an iterator takes at most. *)
Definition sort_fuel (db : FacetDb) : nat := 2 * length db + 2.

Lemma facet_tree_fuel fid db h F : facet_tree fid db h F → (2 * sum_list_with (nodes h) F + 2 ≤ sort_fuel db)%nat.
Proof.
  intros [(before & after & -> & _ & _) _ _ _ _]. unfold sort_fuel.
  rewrite !length_app, length_field_entries. lia.
Qed.

Section ascending.
Variable db : FacetDb.
Variable fid : Z.

Notation steps := (iterate_all (ascending_step db fid)).

Lemma ascending_spec h : ∀ seg d stack rest,
  located fid db h seg → Forall (λ e, fk_field_id e.1 ≠ fid) rest → rest = [] ∨ stack = [] →
  ∃ n, (n ≤ 2 * sum_list_with (nodes h) seg + 1)%nat ∧ ∀ fuel, (1 ≤ fuel)%nat → steps (n + fuel)%nat ((d, (entry fid h <$> seg) ++ rest) :: stack) =
    app (facet_order d (all_leaves h seg)) <$> steps fuel stack.
Proof.
  induction h as [h IHh] using lt_wf_ind. induction seg as [|t seg IH]; intros d stack rest Hl Hrest Hend.
  { cbn [fmap list_fmap app]. destruct Hrest as [|[k v] rest Hk _].
    - exists 1%nat. split; [lia|]. intros fuel _. cbn. by destruct (steps fuel stack).
    - destruct Hend as [?| ->]; [done|]. exists O. split; [lia|]. intros [|fuel] Hf; [lia|]. cbn. cbn in Hk.
      by rewrite (proj2 (Z.eqb_neq _ _) Hk). }
  assert (Hl' : located fid db h seg) by (by apply (located_app _ _ _ [t] seg)).
  cbn [fmap list_fmap app]. change (all_leaves h (t :: seg)) with (leaves h t ++ all_leaves h seg).
  rewrite facet_order_group.
  assert (Hstep : ∀ fuel, steps (S fuel) ((d, entry fid h t :: (entry fid h <$> seg) ++ rest) :: stack) =
    match (if bm_is_empty d then Continue stack
      else let b := docs (leaves h t) ∩ d in
           if bm_is_empty b then Continue ((d, (entry fid h <$> seg) ++ rest) :: stack)
           else let stack := (d ∖ b, (entry fid h <$> seg) ++ rest) :: stack in
             match h with
             | O => Yield b (g_bound h t) stack
             | S below => Continue ((b, ztake (g_size h t) (db_range db (mkFacetGroupKey fid below (g_bound h t)))) :: stack)
             end) with
    | End => Some [] | Continue s => steps fuel s | Yield docids value s => cons (docids, value) <$> steps fuel s end).
  { intros fuel. cbn. rewrite Z.eqb_refl. cbn. repeat case_match; done. }
  unfold bm_is_empty in Hstep. destruct (decide (d = ∅)) as [->|Hd].
  { exists 1%nat. split; [lia|]. intros fuel _. change (1 + fuel)%nat with (S fuel). rewrite Hstep. rewrite bool_decide_true by done.
    replace (docs (leaves h t) ∩ ∅) with (∅ : bitmap) by set_solver. rewrite (difference_empty_L ∅), !facet_order_empty.
    by destruct (steps fuel stack). }
  rewrite bool_decide_false in Hstep by done. cbv zeta in Hstep.
  set (b := docs (leaves h t) ∩ d) in *.
  destruct (IH (d ∖ b) stack rest Hl' Hrest Hend) as (n & Hle & Hn).
  cbn [sum_list_with].
  destruct (decide (b = ∅)) as [Hb|Hb].
  { rewrite bool_decide_true in Hstep by done. rewrite Hb in *. rewrite facet_order_empty.
    replace (d ∖ ∅) with d in * by set_solver. exists (S n).
    split; [pose proof (nodes_pos h t); lia|]. intros fuel Hf. cbn [Nat.add]. rewrite Hstep. by apply Hn. }
  rewrite bool_decide_false in Hstep by done. destruct h as [|h].
  - exists (S n). split; [pose proof (nodes_pos 0 t); lia|]. intros fuel Hf. cbn [Nat.add]. rewrite Hstep, Hn by done. destruct t as [x bm].
    assert (Hone : facet_order b (leaves 0 (x, bm)) = [(b, x)]).
    { cbn [leaves facet_order]. unfold b in *. rewrite docs_leaf in *.
      replace (bm ∩ (bm ∩ d)) with (bm ∩ d) by set_solver. unfold bm_is_empty. by rewrite bool_decide_false. }
    rewrite Hone. change (g_bound 0 (x, bm)) with x. by destruct (steps fuel stack).
  - pose proof (located_one _ _ _ [] _ _ Hl) as [[Hne Hok] _].
    apply (located_children _ _ _ []) in Hl. destruct t as [|c cs]; [done|]. inversion Hok as [|?? Hc _]; subst.
    destruct (located_range _ _ _ _ _ Hl) as (rest' & Hr).
    assert (Htake : ztake (g_size (S h) (c :: cs)) (db_range db (mkFacetGroupKey fid h (g_bound (S h) (c :: cs)))) =
      entry fid h <$> c :: cs).
    { rewrite g_bound_node by done. rewrite Hr. cbn [g_size]. rewrite <-(length_fmap (entry fid h)). apply ztake_app. }
    rewrite Htake in Hstep.
    destruct (IHh h ltac:(lia) (c :: cs) b ((d ∖ b, (entry fid (S h) <$> seg) ++ rest) :: stack) [] Hl) as (m & Hle' & Hm);
      [done|by left|].
    exists (S (m + n)). split; [rewrite ?nodes_S; lia|]. intros fuel Hf. cbn [Nat.add]. rewrite Hstep. rewrite app_nil_r in Hm.
    rewrite <-Nat.add_assoc, Hm, Hn by lia. change (leaves (S h) (c :: cs)) with (all_leaves h (c :: cs)).
    destruct (steps fuel stack); cbn; [|done]. by rewrite app_assoc.
Qed.
End ascending.

Section descending.
Variable db : FacetDb.
Variable fid : Z.

Notation steps := (iterate_all (descending_step db fid)).

(** The bound [rb] is just after the groups [seg]. *)
Definition cut (h : nat) (seg : list (tree h)) (rb : Bound string) : Prop :=
  rb ≠ Unbounded ∧ ∃ pre post, in_db fid db h (pre ++ seg ++ post) ∧ Forall (tree_ok h) (pre ++ seg ++ post) ∧
    sorted (all_leaves h (pre ++ seg ++ post)) ∧ (∀ x, x ∈ all_leaves h seg → within rb x) ∧
    ∀ x, x ∈ all_leaves h post → ¬ within rb x.

Lemma cut_located h seg rb : cut h seg rb → located fid db h seg.
Proof. intros (_ & pre & post & ? & ? & ? & _). by exists pre, post. Qed.

(** The last group of [seg], once it is done with. *)
Lemma cut_before h seg t rb : cut h (seg ++ [t]) rb → cut h seg (Excluded (g_bound h t)).
Proof.
  intros Hc. pose proof (cut_located _ _ _ Hc) as Hl. destruct Hc as (_ & pre & post & Hdb & Hok & Hs & _ & _).
  assert (Heq : pre ++ (seg ++ [t]) ++ post = pre ++ seg ++ t :: post) by (by rewrite <-app_assoc). rewrite Heq in *.
  split; [done|]. exists pre, (t :: post). split_and!; try done.
  - intros x Hx. unfold all_leaves in Hx. apply list_elem_of_In, in_concat in Hx as (l & Hl' & Hx).
    apply list_elem_of_In in Hl', Hx. apply list_elem_of_fmap in Hl' as (t' & -> & Ht').
    apply list_elem_of_split in Ht' as (s1 & s2 & ->). refine (located_lt _ _ _ _ _ _ Hl _ _ Hx).
    exists s1, s2, []. by rewrite <-app_assoc.
  - intros x Hx. unfold within. rewrite b_lt_not_le, negb_true_iff, not_false_iff_true.
    rewrite !all_leaves_app, !sorted_app in Hs. destruct Hs as (_ & (_ & Hs & _) & _).
    assert (Hokt : tree_ok h t) by (rewrite !Forall_app, Forall_cons in Hok; tauto).
    destruct (g_bound_leaf h t Hokt) as (b & l & Heq').
    change (all_leaves h (t :: post)) with (leaves h t ++ all_leaves h post) in Hx, Hs.
    rewrite Heq' in *. cbn [app] in *. apply StronglySorted_inv in Hs as [_ Hall]. rewrite Forall_forall in Hall.
    apply elem_of_cons in Hx as [->|Hx]; [apply b_le_refl|]. by apply b_lt_le, (Hall x).
Qed.

Lemma cut_children h seg t rb : cut (S h) (seg ++ [t]) rb → cut h t rb.
Proof.
  intros (Hrb & pre & post & Hdb & Hok & Hs & Hin & Hout). split; [done|]. exists (concat (pre ++ seg)), (concat post).
  assert (Heq : @app (tree h) (concat (pre ++ seg)) (@app (tree h) t (concat post)) =
    @concat (tree h) (pre ++ (seg ++ [t]) ++ post)).
  { rewrite !concat_app. cbn [concat]. by rewrite app_nil_r, <-!app_assoc. }
  unfold tree in Heq |- *. fold tree in Heq |- *. rewrite Heq. split_and!.
  - by apply in_db_below.
  - apply Forall_concat. eapply Forall_impl; [exact Hok|]. by intros x [_ ?].
  - by rewrite all_leaves_concat.
  - intros x Hx. apply Hin. rewrite all_leaves_app. apply elem_of_app. right. unfold all_leaves. cbn. by rewrite app_nil_r.
  - intros x Hx. apply Hout. by rewrite <-all_leaves_concat.
Qed.

Lemma key_before_within h rb b : rb ≠ Unbounded →
  key_before (map_bound (mkFacetGroupKey fid h) rb) (mkFacetGroupKey fid h b) = true ↔
  ∀ x : bitmap, within rb (b, x).
Proof.
  destruct rb as [m|m|]; [| |done]; intros _; cbn; rewrite key_lt_same.
  - rewrite b_lt_not_le, negb_involutive. split; [done|]. intros Hx. apply (Hx ∅).
  - split; [done|]. intros Hx. apply (Hx ∅).
Qed.

(** The groups [seg] in descending order. *)
Lemma cut_range h t seg rb : cut h (t :: seg) rb →
  db_rev_range db (mkFacetGroupKey fid h (g_bound h t)) (map_bound (mkFacetGroupKey fid h) rb) =
  reverse (entry fid h <$> t :: seg).
Proof.
  intros (Hrb & pre & post & Hdb & Hok & Hs & Hin & Hout).
  assert (Hl : located fid db h (pre ++ t :: (seg ++ post))) by (exists [], []; by rewrite app_nil_r).
  apply located_bounds in Hl as [Hpre Hseg]. destruct (in_db_level _ _ _ _ Hdb) as (A & C & Heq & HA & HC).
  unfold db_rev_range. rewrite Heq. change ((t :: seg) ++ post) with (t :: (seg ++ post)). rewrite range_split by done.
  change (t :: (seg ++ post)) with ((t :: seg) ++ post). rewrite fmap_app, !filter_app.
  assert (Hb : ∀ x, tree_ok h x → ∃ b, (g_bound h x, b) ∈ leaves h x).
  { intros x Hx. destruct (g_bound_leaf h x Hx) as (b & l & ->). exists b. by left. }
  assert (Hleaf : ∀ x G, x ∈ G → ∀ y, y ∈ leaves h x → y ∈ all_leaves h G).
  { intros x G (g1 & g2 & ->)%list_elem_of_split y Hy. rewrite all_leaves_app. apply elem_of_app. right.
    change (all_leaves h (x :: g2)) with (leaves h x ++ all_leaves h g2). apply elem_of_app. by left. }
  rewrite !Forall_app in Hok. destruct Hok as (_ & Hok1 & Hok2). rewrite Forall_forall in Hok1, Hok2.
  rewrite (list_filter_none _ (entry fid h <$> post)), (list_filter_none _ C), !app_nil_r.
  - f_equal. apply list_filter_all, Forall_fmap, Forall_forall. intros x Hx. cbn [compose entry fst].
    destruct (Hb x (Hok1 x Hx)) as (b & Hbx). apply key_before_within; [done|].
    specialize (Hin _ (Hleaf x _ Hx _ Hbx)). intros y. by destruct rb.
  - eapply Forall_impl; [exact HC|]. intros e He. destruct rb as [m|m|]; [| |done]; cbn [map_bound key_before];
      destruct (key_lt_above fid h m e He) as [H1 H2]; rewrite ?H1, ?H2; done.
  - apply Forall_fmap, Forall_forall. intros x Hx. cbn [compose entry fst]. rewrite key_before_within by done.
    destruct (Hb x (Hok2 x Hx)) as (b & Hbx). intros Hw. by apply (Hout _ (Hleaf x _ Hx _ Hbx)).
Qed.

Lemma reverse_concat {A} (l : list (list A)) : reverse (concat l) = concat (reverse <$> reverse l).
Proof.
  induction l as [|x l IH]; [done|]. cbn [concat]. rewrite reverse_app, reverse_cons, fmap_app, concat_app, IH.
  cbn. by rewrite app_nil_r.
Qed.

(** A round on the last group of a level. *)
Lemma descending_round h seg t d rb stack fuel :
  steps (S fuel) ((d, entry fid h t :: reverse (entry fid h <$> seg), rb) :: stack) =
    match (if bm_is_empty d then Continue stack
      else let b := docs (leaves h t) ∩ d in
           if bm_is_empty b then Continue ((d, reverse (entry fid h <$> seg), Excluded (g_bound h t)) :: stack)
           else match h with
             | O => Yield b (g_bound h t) ((d ∖ b, reverse (entry fid h <$> seg), rb) :: stack)
             | S below => Continue ((b, ztake (g_size h t) (db_rev_range db (mkFacetGroupKey fid below (g_bound h t))
                 (map_bound (mkFacetGroupKey fid below) rb)), rb) ::
                 (d ∖ b, reverse (entry fid h <$> seg), Excluded (g_bound h t)) :: stack)
             end) with
    | End => Some [] | Continue s => steps fuel s | Yield docids value s => cons (docids, value) <$> steps fuel s end.
Proof. cbn. rewrite Z.eqb_refl. cbn. repeat case_match; done. Qed.

(** The groups [seg] of level [h], whatever the level: at level 0 the bound does
    not matter. *)
Lemma descending_spec h : ∀ seg d stack rb, h = O ∨ cut h seg rb →
  ∃ n, (n ≤ 2 * sum_list_with (nodes h) seg + 1)%nat ∧ ∀ fuel, steps (n + fuel)%nat ((d, reverse (entry fid h <$> seg), rb) :: stack) =
    app (facet_order d (reverse (all_leaves h seg))) <$> steps fuel stack.
Proof.
  induction h as [|h IHh]; induction seg as [|t seg IH] using rev_ind; intros d stack rb Hc;
    try (exists 1%nat; split; [lia|]; intros fuel; cbn; by destruct (steps fuel stack)).
  all: rewrite sum_list_with_app; cbn [sum_list_with].
  all: rewrite fmap_app, reverse_app, all_leaves_app, reverse_app, facet_order_group, docs_reverse.
  all: unfold all_leaves at 1 2 3; cbn [fmap list_fmap concat]; rewrite app_nil_r.
  all: change (reverse [?e]) with [e]; cbn [app].
  all: pose proof (λ n, descending_round _ seg t d rb stack n) as Hstep; unfold bm_is_empty in Hstep.
  all: destruct (decide (d = ∅)) as [->|Hd];
    [exists 1%nat; split; [lia|]; intros fuel; cbn [Nat.add]; rewrite Hstep, bool_decide_true by done;
     rewrite (intersection_empty_r_L), (difference_empty_L ∅), !facet_order_empty;
     by destruct (steps fuel stack)|].
  all: rewrite bool_decide_false in Hstep by done; cbv zeta in Hstep.
  all: set (b := docs _ ∩ d) in *.
  all: destruct (decide (b = ∅)) as [Hb|Hb];
    [rewrite bool_decide_true in Hstep by done; rewrite Hb, facet_order_empty, (difference_empty_L d)|
     rewrite bool_decide_false in Hstep by done].
  - destruct (IH d stack (Excluded (g_bound 0 t)) (or_introl eq_refl)) as (n & Hle & Hn). exists (S n). split; [pose proof (nodes_pos _ t); lia|]. intros fuel. cbn [Nat.add].
    rewrite Hstep. apply Hn.
  - destruct (IH (d ∖ b) stack rb (or_introl eq_refl)) as (n & Hle & Hn). exists (S n). split; [pose proof (nodes_pos _ t); lia|]. intros fuel. cbn [Nat.add].
    rewrite Hstep, Hn. destruct t as [x bm].
    assert (Hone : facet_order b (reverse (leaves 0 (x, bm))) = [(b, x)]).
    { cbn [leaves]. change (reverse [(x, bm)]) with [(x, bm)]. cbn [facet_order]. unfold b in *. rewrite docs_leaf in *.
      replace (bm ∩ (bm ∩ d)) with (bm ∩ d) by set_solver. unfold bm_is_empty. by rewrite bool_decide_false. }
    rewrite Hone. change (g_bound 0 (x, bm)) with x. by destruct (steps fuel stack).
  - destruct Hc as [?|Hc]; [done|]. apply cut_before in Hc.
    destruct (IH d stack (Excluded (g_bound (S h) t)) (or_intror Hc)) as (n & Hle & Hn). exists (S n). split; [pose proof (nodes_pos _ t); lia|]. intros fuel.
    cbn [Nat.add]. rewrite Hstep. apply Hn.
  - destruct Hc as [?|Hc]; [done|]. pose proof (cut_before _ _ _ _ Hc) as Hc'. pose proof (cut_located _ _ _ Hc) as Hl.
    destruct (IH (d ∖ b) stack (Excluded (g_bound (S h) t)) (or_intror Hc')) as (n & Hle & Hn).
    pose proof (located_one _ _ _ _ _ _ Hl) as [[Hne Hok] _].
    apply cut_children in Hc. destruct t as [|c cs]; [done|]. inversion Hok as [|?? Hx _]; subst.
    assert (Htake : ztake (g_size (S h) (c :: cs)) (db_rev_range db (mkFacetGroupKey fid h (g_bound (S h) (c :: cs)))
      (map_bound (mkFacetGroupKey fid h) rb)) = reverse (entry fid h <$> c :: cs)).
    { rewrite g_bound_node by done. rewrite (cut_range _ _ _ _ Hc). apply ztake_all.
      rewrite length_reverse, length_fmap. apply Z.le_refl. }
    rewrite Htake in Hstep.
    destruct (IHh (c :: cs) b ((d ∖ b, reverse (entry fid (S h) <$> seg), Excluded (g_bound (S h) (c :: cs))) :: stack)
      rb (or_intror Hc)) as (m & Hle' & Hm).
    exists (S (m + n)). split; [rewrite ?nodes_S; lia|]. intros fuel. cbn [Nat.add]. rewrite Hstep, <-Nat.add_assoc, Hm, Hn.
    change (leaves (S h) (c :: cs)) with (all_leaves h (c :: cs)).
    destruct (steps fuel stack); cbn; [|done]. by rewrite app_assoc.
Qed.
End descending.

Lemma ascending_sort_ends db fid h F fuel candidates :
  facet_tree fid db h F → (sort_fuel db ≤ fuel)%nat →
  ascending_facet_sort db fid fuel candidates = Some (facet_order candidates (all_leaves h F)).
Proof.
  intros Ht Hf. pose proof (facet_tree_fuel _ _ _ _ Ht) as Hfuel. unfold ascending_facet_sort. destruct F as [|t F]; [by destruct Ht|].
  rewrite (top_first _ _ _ _ _ Ht), (top_highest _ _ _ _ Ht).
  destruct (top_range _ _ _ _ _ Ht) as (rest & Htake & Hrest).
  rewrite Htake. destruct (ascending_spec db fid h (t :: F) candidates [] rest) as (n & Hle & Hn);
    [by apply facet_tree_located|done|by right|].
  replace fuel with (n + (fuel - n))%nat by lia. rewrite Hn by lia.
  destruct (fuel - n)%nat eqn:He; [lia|]. cbn. by rewrite app_nil_r.
Qed.

Lemma descending_sort_ends db fid h F fuel candidates :
  facet_tree fid db h F → (sort_fuel db ≤ fuel)%nat →
  descending_facet_sort db fid fuel candidates = Some (facet_order candidates (reverse (all_leaves h F))).
Proof.
  intros Ht Hf. pose proof (facet_tree_fuel _ _ _ _ Ht) as Hfuel. unfold descending_facet_sort. destruct F as [|t F]; [by destruct Ht|].
  rewrite (top_first _ _ _ _ _ Ht), (top_highest _ _ _ _ Ht).
  destruct (top_last _ _ _ _ Ht) as (x & -> & Hx).
  assert (Hc : cut db fid h (t :: F) (Included x)).
  { split; [done|]. destruct (facet_tree_located _ _ _ _ Ht) as (pre & post & Hl).
    pose proof Ht as [(before & after & Heq & Hb & Ha) Hok _ Hs _]. exists [], []. rewrite app_nil_r. split_and!; try done.
    - exists before, after. split_and!; [done|done|]. eapply Forall_impl; [exact Ha|]. by left.
    - by intros y ?%elem_of_nil. }
  assert (Htake : ztake u64_max (db_rev_range db (mkFacetGroupKey fid h (g_bound h t))
    (Included (mkFacetGroupKey fid h x))) = reverse (entry fid h <$> t :: F)).
  { pose proof (cut_range db fid h t F (Included x) Hc) as Hr. cbn [map_bound] in Hr. rewrite Hr. apply ztake_all.
    rewrite <-Hr. unfold db_rev_range, db_range. rewrite length_reverse. pose proof (ft_small _ _ _ _ Ht).
    etransitivity; [|eassumption]. apply inj_le. etransitivity; apply length_filter. }
  rewrite Htake. destruct (descending_spec db fid h (t :: F) candidates [] (Included x) (or_intror Hc)) as (n & Hle & Hn).
  replace fuel with (n + (fuel - n))%nat by lia. rewrite Hn.
  destruct (fuel - n)%nat eqn:He; [lia|]. cbn. by rewrite app_nil_r.
Qed.

(** C19. Sorting by facet goes down the levels of groups only where there are
    candidates, ends after at most [sort_fuel] rounds, and gives what a scan of
    all the values gives: in ascending order each candidate comes once, with its
    least value, and in descending order once, with its greatest value. *)
Theorem facet_sort_scan db fid h F fuel candidates :
  facet_tree fid db h F → (sort_fuel db ≤ fuel)%nat →
  ascending_facet_sort db fid fuel candidates = Some (facet_order candidates (all_leaves h F)) ∧
  descending_facet_sort db fid fuel candidates = Some (facet_order candidates (reverse (all_leaves h F))).
Proof. intros Ht Hf. split; [by apply ascending_sort_ends|by apply descending_sort_ends]. Qed.

Lemma facet_sort_scan_witness :
  facet_tree 5 sample_facets 1 sample_forest ∧
  ascending_facet_sort sample_facets 5 (sort_fuel sample_facets) {[2; 3; 4; 9]} =
    Some [({[2]}, "a"); ({[3]}, "b"); ({[4]}, "c")] ∧
  descending_facet_sort sample_facets 5 (sort_fuel sample_facets) {[2; 3; 4; 9]} = Some [({[4]}, "c"); ({[2; 3]}, "b")].
Proof.
  split; [exact sample_tree|].
  destruct (facet_sort_scan sample_facets 5 1 sample_forest (sort_fuel sample_facets) {[2; 3; 4; 9]} sample_tree (le_n _))
    as [-> ->].
  split; apply (bool_decide_unpack _); vm_compute; reflexivity.
Defined.
