(* ===== verification/FacetDistribution.v ===== *)
(** * Facet distribution

    [crates/milli-core/src/search/facet/facet_distribution_iter.rs]: a callback is
    called with the values of a facet that some candidates have, in the order of
    the values or by decreasing number of candidates, until it stops. *)

From S2P Require Import Prelude TaskTypes SchedUtils Facet FacetSort.
From Stdlib Require Import Ascii.
From Stdlib Require String.
Open Scope Z_scope.

(** The entries of the heap, [LevelEntry]. *)
Record LevelEntry := mkLevelEntry {
  le_count : Z;
  le_level : nat;
  le_left_bound : string;
  le_group_size : Z;
  le_any_docid : Z;
}.

(** The derived order: the count, the reverse of the level, then the other
    fields. *)
Definition entry_lt (x y : LevelEntry) : bool :=
  (le_count x <? le_count y) || ((le_count x =? le_count y) &&
  ((le_level y <? le_level x)%nat || ((le_level x =? le_level y)%nat &&
  (b_lt (le_left_bound x) (le_left_bound y) || (bool_decide (le_left_bound x = le_left_bound y) &&
  ((le_group_size x <? le_group_size y) || ((le_group_size x =? le_group_size y) &&
  (le_any_docid x <? le_any_docid y)))))))).

(** ** In the order of the values *)

Section distribution.
Variable db : FacetDb.
Variable field_id : Z.
Context {T : Type} (callback : string → Z → Z → T → T * bool).

(** The loop of [LexicographicFacetDistribution]: the callback tells whether to
    stop; [visit] is the level below. *)
Fixpoint iterate_loop (visit : bitmap → string → Z → T → outcome unit (T * bool)) (candidates : bitmap)
    (l : FacetDb) (t : T) : outcome unit (T * bool) :=
  match l with
  | [] => Ok (t, false)
  | (key, value) :: l =>
      if negb (fk_field_id key =? field_id) then Ok (t, true)
      else
        let common := fv_bitmap value ∩ candidates in
        if bm_is_empty common then iterate_loop visit candidates l t
        else
          '(t, stop) ← visit common (fk_left_bound key) (fv_size value) t;
          if (stop : bool) then Ok (t, true) else iterate_loop visit candidates l t
  end.

(** [iterate] and [iterate_level_0]. *)
Fixpoint iterate (level : nat) (candidates : bitmap) (start : string) (group_size : Z) (t : T)
    : outcome unit (T * bool) :=
  let l := ztake group_size (db_range db (mkFacetGroupKey field_id level start)) in
  match level with
  | O => iterate_loop (λ common bound _ t,
           docid ← unwrap (bm_min common); Ok (callback bound (bm_len common) docid t)) candidates l t
  | S below => iterate_loop (iterate below) candidates l t
  end.

(** [lexicographically_iterate_over_facet_distribution]. *)
Definition lexicographic_distribution (candidates : bitmap) (t : T) : outcome unit T :=
  match get_first_facet_value db field_id with
  | Some first => '(t, _) ← iterate (get_highest_level db field_id) candidates first u64_max t; Ok t
  | None => Ok t
  end.
(** ** By count *)

(** [BinaryHeap::push] is [cons]; [BinaryHeap::pop] takes out the greatest
    entry. *)
Fixpoint heap_pop (heap : list LevelEntry) : option (LevelEntry * list LevelEntry) :=
  match heap with
  | [] => None
  | e :: heap =>
      match heap_pop heap with
      | None => Some (e, [])
      | Some (m, rest) => Some (if entry_lt e m then (m, e :: rest) else (e, m :: rest))
      end
  end.

(** The loops of [count_iterate_over_facet_distribution] that fill the heap. *)
Fixpoint fill_heap (candidates : bitmap) (l : FacetDb) (heap : list LevelEntry) : outcome unit (list LevelEntry) :=
  match l with
  | [] => Ok heap
  | (key, value) :: l =>
      if negb (fk_field_id key =? field_id) then Ok heap
      else
        let intersection := fv_bitmap value ∩ candidates in
        let count := bm_len intersection in
        if count =? 0 then fill_heap candidates l heap
        else
          any_docid ← unwrap (bm_min intersection);
          fill_heap candidates l
            (mkLevelEntry count (fk_level key) (fk_left_bound key) (fv_size value) any_docid :: heap)
  end.

(** Its main loop; [None] is out of fuel. *)
Fixpoint count_loop (candidates : bitmap) (fuel : nat) (heap : list LevelEntry) (t : T) : option (outcome unit T) :=
  match fuel with
  | O => None
  | S fuel =>
      match heap_pop heap with
      | None => Some (Ok t)
      | Some (e, heap) =>
          match le_level e with
          | O =>
              let '(t, stop) := callback (le_left_bound e) (le_count e) (le_any_docid e) t in
              if (stop : bool) then Some (Ok t) else count_loop candidates fuel heap t
          | S below =>
              match fill_heap candidates
                  (ztake (le_group_size e) (db_range db (mkFacetGroupKey field_id below (le_left_bound e)))) heap with
              | Ok heap => count_loop candidates fuel heap t
              | Err e => Some (Err e)
              | Panic => Some Panic
              end
          end
      end
  end.

(** [count_iterate_over_facet_distribution]. *)
Definition count_distribution (fuel : nat) (candidates : bitmap) (t : T) : option (outcome unit T) :=
  match get_first_facet_value db field_id with
  | Some first =>
      match fill_heap candidates
          (ztake u64_max (db_range db (mkFacetGroupKey field_id (get_highest_level db field_id) first))) [] with
      | Ok heap => count_loop candidates fuel heap t
      | Err e => Some (Err e)
      | Panic => Some Panic
      end
  | None => Some (Ok t)
  end.
End distribution.

(** ** What the callback is called with *)

(** The values some candidates have, with how many of them and the first one. *)
Fixpoint distribution (candidates : bitmap) (l : list (string * bitmap)) : list (string * Z * Z) :=
  match l with
  | [] => []
  | (x, b) :: l =>
      if bm_is_empty (b ∩ candidates) then distribution candidates l
      else (x, bm_len (b ∩ candidates), default 0 (bm_min (b ∩ candidates))) :: distribution candidates l
  end.

(** The calls, until the callback stops. *)
Fixpoint feed {T} (callback : string → Z → Z → T → T * bool) (l : list (string * Z * Z)) (t : T) : T * bool :=
  match l with
  | [] => (t, false)
  | (x, count, docid) :: l =>
      let '(t, stop) := callback x count docid t in
      if (stop : bool) then (t, true) else feed callback l t
  end.

Lemma distribution_app c l r : distribution c (l ++ r) = distribution c l ++ distribution c r.
Proof. induction l as [|[x b] l IH]; [done|]. cbn. rewrite IH. by destruct (bm_is_empty (b ∩ c)). Qed.

Lemma distribution_same c d l : docs l ∩ c = docs l ∩ d → distribution c l = distribution d l.
Proof.
  induction l as [|[x b] l IH]; [done|]. intros Heq. rewrite !docs_cons in Heq. cbn [distribution snd] in *.
  replace (b ∩ d) with (b ∩ c) by (apply set_eq; intros z; set_solver). rewrite IH; [done|].
  apply set_eq. intros z. set_solver.
Qed.

Lemma distribution_none c l : docs l ∩ c = ∅ → distribution c l = [].
Proof.
  intros Hc. rewrite (distribution_same c ∅) by (rewrite Hc; set_solver).
  induction l as [|[x b] l IH]; [done|]. cbn. replace (b ∩ ∅) with (∅ : bitmap) by set_solver. apply IH.
  rewrite docs_cons in Hc. set_solver.
Qed.

Lemma feed_app {T} (callback : string → Z → Z → T → T * bool) l r t :
  feed callback (l ++ r) t = (let '(t, stop) := feed callback l t in if stop then (t, true) else feed callback r t).
Proof.
  revert t. induction l as [|[[x n] d] l IH]; intros t; [done|]. cbn.
  destruct (callback x n d t) as [t' []]; [done|]. apply IH.
Qed.

Lemma bm_min_nonempty (b : bitmap) : b ≠ ∅ → bm_min b = Some (default 0 (bm_min b)).
Proof.
  intros Hb. unfold bm_min. destruct (bm_iter b) as [|x l] eqn:Hi; [|done]. exfalso. apply Hb.
  apply set_eq. intros x. rewrite <-elem_of_bm_iter, Hi. set_solver.
Qed.

Section lexicographic.
Variable db : FacetDb.
Variable fid : Z.
Context {T : Type} (callback : string → Z → Z → T → T * bool).

(** A level, given what the groups below it do. *)
Lemma iterate_loop_spec h visit c : ∀ seg rest t,
  Forall (λ e, fk_field_id e.1 ≠ fid) rest →
  (∀ x t, x ∈ seg → docs (leaves h x) ∩ c ≠ ∅ →
     visit (docs (leaves h x) ∩ c) (g_bound h x) (g_size h x) t = Ok (feed callback (distribution c (leaves h x)) t)) →
  ∃ stop, iterate_loop fid visit c ((entry fid h <$> seg) ++ rest) t =
    Ok ((feed callback (distribution c (all_leaves h seg)) t).1, stop) ∧
    (rest = [] → stop = (feed callback (distribution c (all_leaves h seg)) t).2).
Proof.
  induction seg as [|x seg IH]; intros rest t Hrest Hvisit.
  { cbn. destruct Hrest as [|[k v] rest Hk _]; [by exists false|]. cbn in Hk |- *.
    rewrite (proj2 (Z.eqb_neq _ _) Hk). by exists true. }
  change (all_leaves h (x :: seg)) with (leaves h x ++ all_leaves h seg). rewrite distribution_app, feed_app.
  cbn [fmap list_fmap app iterate_loop entry fk_field_id fv_bitmap fk_left_bound fv_size].
  rewrite Z.eqb_refl. cbn [negb]. unfold bm_is_empty. case_bool_decide as He.
  - rewrite (distribution_none _ _ He). cbn [feed]. apply IH; [done|]. intros y t' Hy. apply Hvisit. by right.
  - rewrite Hvisit by (done || by left). cbn [mbind outcome_bind].
    destruct (feed callback (distribution c (leaves h x)) t) as [t' []]; [by exists true|].
    apply IH; [done|]. intros y t'' Hy. apply Hvisit. by right.
Qed.

Lemma iterate_spec h : ∀ x seg c n rest t,
  located fid db h (x :: seg) → Forall (λ e, fk_field_id e.1 ≠ fid) rest →
  ztake n (db_range db (mkFacetGroupKey fid h (g_bound h x))) = (entry fid h <$> x :: seg) ++ rest →
  ∃ stop, iterate db fid callback h c (g_bound h x) n t =
    Ok ((feed callback (distribution c (all_leaves h (x :: seg))) t).1, stop) ∧
    (rest = [] → stop = (feed callback (distribution c (all_leaves h (x :: seg))) t).2).
Proof.
  induction h as [|h IH]; intros x seg c n rest t Hl Hrest Htake; cbn [iterate]; rewrite Htake;
    apply iterate_loop_spec; try done; intros y t' Hy Hne.
  - rewrite bm_min_nonempty by done. cbn [unwrap mbind outcome_bind]. destruct y as [v b].
    rewrite docs_leaf in *. cbn [leaves distribution]. unfold bm_is_empty.
    rewrite bool_decide_false by done. cbn [feed]. change (g_bound 0 (v, b)) with v.
    by destruct (callback v _ _ t') as [? []].
  - apply list_elem_of_split in Hy as (s1 & s2 & Heq). rewrite Heq in Hl.
    pose proof (located_one _ _ _ _ _ _ Hl) as [[Hne' Hok] _]. apply located_children in Hl.
    destruct y as [|z zs]; [done|]. inversion Hok as [|?? Hz _]; subst. rewrite g_bound_node by done.
    destruct (located_range _ _ _ _ _ Hl) as (rest' & Hr).
    assert (Ht : ztake (g_size (S h) (z :: zs)) (db_range db (mkFacetGroupKey fid h (g_bound h z))) =
      (entry fid h <$> z :: zs) ++ []).
    { rewrite Hr, app_nil_r. cbn [g_size]. rewrite <-(length_fmap (entry fid h)). apply ztake_app. }
    destruct (IH z zs (docs (leaves (S h) (z :: zs)) ∩ c) _ [] t' Hl ltac:(constructor) Ht) as (stop & -> & Hs).
    rewrite (Hs eq_refl). change (leaves (S h) (z :: zs)) with (all_leaves h (z :: zs)).
    rewrite (distribution_same (docs (all_leaves h (z :: zs)) ∩ c) c) by set_solver.
    by destruct (feed callback (distribution c (all_leaves h (z :: zs))) t').
Qed.
End lexicographic.

(** The distribution of a facet in the order of its values calls the
    callback with each value that some candidates have, in order, with the number
    of these candidates and the first of them, until the callback stops. *)
Theorem lexicographic_distribution_scan {T} db fid h F (callback : string → Z → Z → T → T * bool) candidates t :
  facet_tree fid db h F →
  lexicographic_distribution db fid callback candidates t =
    Ok (feed callback (distribution candidates (all_leaves h F)) t).1.
Proof.
  intros Ht. unfold lexicographic_distribution. destruct F as [|x F]; [by destruct Ht|].
  rewrite (top_first _ _ _ _ _ Ht), (top_highest _ _ _ _ Ht). destruct (top_range _ _ _ _ _ Ht) as (rest & Hr & Hrest).
  destruct (iterate_spec db fid callback h x F candidates u64_max rest t (facet_tree_located _ _ _ _ Ht) Hrest Hr)
    as (stop & -> & _).
  done.
Qed.

Lemma entry_lt_count x y : entry_lt x y = true → le_count x ≤ le_count y.
Proof. unfold entry_lt. destruct (Z.ltb_spec (le_count x) (le_count y)); [lia|]. destruct (Z.eqb_spec (le_count x) (le_count y)); [lia|done]. Qed.

Lemma entry_lt_count' x y : entry_lt x y = false → le_count y ≤ le_count x.
Proof. unfold entry_lt. destruct (Z.ltb_spec (le_count x) (le_count y)); [done|]. lia. Qed.

(** The greatest entry is taken out of the heap. *)
Lemma heap_pop_spec heap :
  match heap_pop heap with
  | None => heap = []
  | Some (e, rest) => e :: rest ≡ₚ heap ∧ ∀ x, x ∈ rest → le_count x ≤ le_count e
  end.
Proof.
  induction heap as [|e heap IH]; [done|]. cbn [heap_pop]. destruct (heap_pop heap) as [[m rest]|].
  - destruct IH as [Hp Hm]. destruct (entry_lt e m) eqn:Hlt.
    + split; [rewrite <-Hp; constructor|]. intros x [->|Hx]%elem_of_cons; [by apply entry_lt_count|by apply Hm].
    + split; [by rewrite <-Hp|]. apply entry_lt_count' in Hlt. intros x [->|Hx]%elem_of_cons; [done|].
      etransitivity; [by apply Hm|done].
  - subst. split; [done|]. by intros x ?%elem_of_nil.
Qed.

Section by_count.
Variable db : FacetDb.
Variable fid : Z.
Variable c : bitmap.
Context {T : Type} (callback : string → Z → Z → T → T * bool).

(** A group of some level. *)
Definition node : Type := {h : nat & tree h}.
Definition node_leaves (n : node) : list (string * bitmap) := leaves (projT1 n) (projT2 n).
Definition node_size (n : node) : nat := nodes (projT1 n) (projT2 n).
Definition node_entry (n : node) : LevelEntry :=
  let b := docs (node_leaves n) ∩ c in
  mkLevelEntry (bm_len b) (projT1 n) (g_bound _ (projT2 n)) (g_size _ (projT2 n)) (default 0 (bm_min b)).
Definition live (n : node) : Prop := docs (node_leaves n) ∩ c ≠ ∅.
Definition in_place (n : node) : Prop := located fid db (projT1 n) [projT2 n].

(** The values below the groups of the heap. *)
Definition below (ns : list node) : list (string * Z * Z) := concat (distribution c ∘ node_leaves <$> ns).
Definition total (ns : list node) : nat := sum_list_with node_size ns.

Lemma bm_len_0 (b : bitmap) : bm_len b = 0 ↔ b = ∅.
Proof.
  unfold bm_len. split; [intros Hs; apply leibniz_equiv, size_empty_iff; lia|]. intros ->. by rewrite size_empty.
Qed.

(** The groups with candidates are added to the heap. *)
Lemma fill_heap_spec h : ∀ seg rest ns, Forall (λ e, fk_field_id e.1 ≠ fid) rest →
  ∃ ns', fill_heap fid c ((entry fid h <$> seg) ++ rest) (node_entry <$> ns) = Ok (node_entry <$> ns') ∧
    ns' ≡ₚ filter live (existT h <$> seg) ++ ns.
Proof.
  induction seg as [|t seg IH]; intros rest ns Hrest; cbn [fmap list_fmap app].
  { exists ns. split; [|done]. destruct Hrest as [|[k v] rest Hk _]; [done|]. cbn in Hk |- *.
    by rewrite (proj2 (Z.eqb_neq _ _) Hk). }
  cbn [fill_heap entry fk_field_id fv_bitmap fk_level fk_left_bound fv_size]. rewrite Z.eqb_refl. cbn [negb].
  destruct (decide (docs (leaves h t) ∩ c = ∅)) as [He|Hne].
  - rewrite He. cbn. destruct (IH rest ns Hrest) as (ns' & -> & Hp). exists ns'. split; [done|].
    rewrite Hp, decide_False; [done|]. intros Hl. by apply Hl.
  - rewrite (proj2 (Z.eqb_neq _ _)) by (by rewrite bm_len_0). rewrite bm_min_nonempty by done.
    cbn [unwrap mbind outcome_bind]. destruct (IH rest (existT h t :: ns) Hrest) as (ns' & Heq & Hp).
    exists ns'. split; [exact Heq|]. rewrite Hp, filter_cons_True by exact Hne. by rewrite <-Permutation_middle.
Qed.

(** The groups without candidates have nothing to give. *)
Lemma below_live ns : below (filter live ns) = below ns.
Proof.
  induction ns as [|n ns IH]; [done|]. unfold below in *. cbn [fmap list_fmap concat compose]. rewrite <-IH.
  destruct (decide (live n)) as [Hl|Hl]; [by rewrite filter_cons_True by done|].
  rewrite filter_cons_False by done. rewrite distribution_none; [done|]. by apply dec_stable.
Qed.

Lemma below_app ns ms : below (ns ++ ms) = below ns ++ below ms.
Proof. unfold below. by rewrite fmap_app, concat_app. Qed.

Lemma below_level_list h (seg : list (tree h)) : below (existT h <$> seg) = distribution c (all_leaves h seg).
Proof.
  induction seg as [|t seg IH]; [done|]. change (all_leaves h (t :: seg)) with (leaves h t ++ all_leaves h seg).
  rewrite distribution_app, <-IH. done.
Qed.

Lemma total_live ns : (total (filter live ns) ≤ total ns)%nat.
Proof.
  unfold total. induction ns as [|n ns IH]; [done|]. destruct (decide (live n));
    [rewrite filter_cons_True by done|rewrite filter_cons_False by done]; cbn [sum_list_with]; lia.
Qed.

Lemma total_level h (seg : list (tree h)) : total (existT h <$> seg) = sum_list_with (nodes h) seg.
Proof. induction seg as [|t seg IH]; [done|]. cbn. by rewrite <-IH. Qed.

Lemma total_perm ns ms : ns ≡ₚ ms → total ns = total ms.
Proof. unfold total. induction 1; cbn; lia. Qed.

Lemma below_perm ns ms : ns ≡ₚ ms → below ns ≡ₚ below ms.
Proof. unfold below. by intros ->. Qed.

(** A value below a group has at most the candidates of the group. *)
Lemma below_count n x : x ∈ distribution c (node_leaves n) → x.1.2 ≤ le_count (node_entry n).
Proof.
  cbn [node_entry le_count]. unfold bm_len. induction (node_leaves n) as [|[v b] l IH]; [by intros ?%elem_of_nil|].
  assert (Hsub : docs l ∩ c ⊆ docs ((v, b) :: l) ∩ c) by (rewrite docs_cons; set_solver). apply subseteq_size in Hsub.
  intros Hx. assert (Hin : x = (v, bm_len (b ∩ c), default 0 (bm_min (b ∩ c))) ∨ x ∈ distribution c l).
  { cbn in Hx. destruct (bm_is_empty (b ∩ c)); [by right|]. by apply elem_of_cons in Hx. }
  destruct Hin as [->|Hx']; [|specialize (IH Hx'); lia]. cbn [fst snd]. apply inj_le, subseteq_size. rewrite docs_cons. set_solver.
Qed.

Lemma below_counts ns m x : (∀ n, n ∈ ns → le_count (node_entry n) ≤ m) → x ∈ below ns → x.1.2 ≤ m.
Proof.
  intros Hm Hx. unfold below in Hx. apply list_elem_of_In, in_concat in Hx as (l & Hl & Hx).
  apply list_elem_of_In in Hl, Hx. apply list_elem_of_fmap in Hl as (n & -> & Hn).
  etransitivity; [by apply below_count|by apply Hm].
Qed.

(** The children of a group, as the heap reads them. *)
Lemma node_children h (t : tree (S h)) : located fid db (S h) [t] → ∃ x xs, t = x :: xs ∧
  ztake (g_size (S h) t) (db_range db (mkFacetGroupKey fid h (g_bound (S h) t))) = (entry fid h <$> x :: xs) ++ [] ∧
  Forall in_place (existT h <$> x :: xs).
Proof.
  intros Hl. pose proof (located_one _ _ _ [] _ [] Hl) as [[Hne Hok] _]. apply (located_children _ _ _ [] _ []) in Hl.
  destruct t as [|x xs]; [done|]. exists x, xs. split; [done|]. inversion Hok as [|?? Hx _]; subst. split.
  - rewrite g_bound_node by done. destruct (located_range _ _ _ _ _ Hl) as (rest & ->). rewrite app_nil_r.
    cbn [g_size]. rewrite <-(length_fmap (entry fid h)). apply ztake_app.
  - apply Forall_fmap, Forall_forall. intros y Hy. unfold in_place. cbn.
    apply list_elem_of_split in Hy as (s1 & s2 & Heq). assert (Hl' : located fid db h (s1 ++ y :: s2)) by (rewrite <-Heq; exact Hl).
    apply located_app in Hl' as [Hl' _]. by apply (located_app _ _ _ [y] s2).
Qed.

(** The loop calls the callback by decreasing count. *)
Lemma count_loop_spec m : ∀ ns, (total ns ≤ m)%nat → Forall (λ n, in_place n ∧ live n) ns →
  ∃ l, l ≡ₚ below ns ∧ StronglySorted (λ x y, y.1.2 ≤ x.1.2) l ∧
    ∀ fuel t, (m < fuel)%nat →
      count_loop db fid callback c fuel (node_entry <$> ns) t = Some (Ok (feed callback l t).1).
Proof.
  induction m as [|m IH]; intros ns Htot Hin; pose proof (heap_pop_spec (node_entry <$> ns)) as Hpop;
    destruct (heap_pop (node_entry <$> ns)) as [[e heap]|] eqn:Hheap.
  2,4: (apply fmap_nil_inv in Hpop as ->; exists []; split_and!; [done|constructor|];
    intros [|fuel] t Hf; [lia|]; cbn [count_loop]; by rewrite Hheap).
  all: destruct Hpop as [Hp Hmax]; apply Permutation_map_inv in Hp as ([|n ns'] & Heq & Hp); [done|].
  all: rewrite (total_perm _ _ Hp) in Htot; rewrite Hp in Hin; apply Forall_cons in Hin as [[Hn Hlive] Hin'].
  all: pose proof (nodes_pos _ (projT2 n)) as Hpos; unfold total in Htot; cbn [sum_list_with] in Htot;
    change (nodes (projT1 n) (projT2 n)) with (node_size n) in Hpos.
  { exfalso. lia. }
  injection Heq as -> ->. fold (total ns') in Htot. setoid_rewrite (below_perm _ _ Hp).
  assert (Hmax' : ∀ x, x ∈ ns' → le_count (node_entry x) ≤ le_count (node_entry n)).
  { intros x Hx. apply Hmax. by apply list_elem_of_fmap_2. }
  change (below (n :: ns')) with (distribution c (node_leaves n) ++ below ns').
  destruct n as [[|h] t].
  - destruct (IH ns' ltac:(lia) Hin') as (l & Hl & Hs & Hloop). destruct t as [v b].
    assert (Hb : b ∩ c ≠ ∅) by (unfold live, node_leaves in Hlive; cbn [projT1 projT2] in Hlive; by rewrite docs_leaf in Hlive).
    exists ((v, bm_len (b ∩ c), default 0 (bm_min (b ∩ c))) :: l). split_and!.
    + cbn. unfold bm_is_empty. rewrite bool_decide_false by done. cbn. by rewrite Hl.
    + constructor; [done|]. apply Forall_forall. intros x. rewrite Hl. intros Hx.
      pose proof (below_counts _ _ _ Hmax' Hx) as Hle. cbn [node_entry le_count node_leaves projT1 projT2] in Hle.
      unfold node_leaves in Hle. cbn [projT1 projT2] in Hle. by rewrite docs_leaf in Hle.
    + intros [|fuel] t Hf; [lia|]. cbn [count_loop]. rewrite Hheap. cbn [node_entry le_level projT1 le_left_bound le_count le_any_docid].
      unfold node_leaves. cbn [projT1 projT2]. rewrite docs_leaf. cbn [feed]. change (g_bound 0 (v, b)) with v.
      destruct (callback v _ _ t) as [t' []]; [done|]. apply Hloop. lia.
  - destruct (node_children h t Hn) as (x & xs & -> & Htake & Hch).
    destruct (fill_heap_spec h (x :: xs) [] ns' ltac:(constructor)) as (ns2 & Hfill & Hp2).
    destruct (IH ns2) as (l & Hl & Hs & Hloop).
    + rewrite (total_perm _ _ Hp2). unfold total. rewrite sum_list_with_app. fold (total ns').
      pose proof (total_live (existT h <$> x :: xs)) as Hle. unfold total at 1 in Hle. rewrite total_level in Hle.
      assert (Hk : (S (sum_list_with (nodes h) (x :: xs)) + total ns' ≤ S m)%nat) by exact Htot.
      etransitivity; [apply Nat.add_le_mono_r; exact Hle|lia].
    + rewrite Hp2. apply Forall_app. split; [|done]. rewrite Forall_forall in Hch. apply Forall_forall.
      intros y [Hy1 Hy2]%list_elem_of_filter. split; [by apply Hch|done].
    + exists l. split_and!; [|done|].
      * rewrite Hl, (below_perm _ _ Hp2), below_app, below_live, below_level_list. done.
      * intros [|fuel] t Hf; [lia|]. cbn [count_loop]. rewrite Hheap.
        cbn [node_entry le_level projT1 projT2 le_left_bound le_group_size]. rewrite Htake. change (map node_entry ns') with (node_entry <$> ns'). rewrite Hfill. apply Hloop. lia.
Qed.
End by_count.

(** C20. The distribution of a facet by count ends after at most [sort_fuel]
    rounds, without exploring the groups that have no candidate: the callback is
    called with each value that some candidates have, once, by decreasing number
    of candidates, until it stops. *)
Theorem count_distribution_sorted {T} db fid h F (callback : string → Z → Z → T → T * bool) fuel candidates :
  facet_tree fid db h F → (sort_fuel db ≤ fuel)%nat →
  ∃ l, l ≡ₚ distribution candidates (all_leaves h F) ∧ StronglySorted (λ x y, y.1.2 ≤ x.1.2) l ∧
    ∀ t, count_distribution db fid callback fuel candidates t = Some (Ok (feed callback l t).1).
Proof.
  intros Ht Hf. pose proof (facet_tree_fuel _ _ _ _ Ht) as Hfuel. unfold count_distribution.
  destruct F as [|x F]; [by destruct Ht|].
  rewrite (top_first _ _ _ _ _ Ht), (top_highest _ _ _ _ Ht). destruct (top_range _ _ _ _ _ Ht) as (rest & -> & Hrest).
  destruct (fill_heap_spec fid candidates h (x :: F) rest [] Hrest) as (ns & Hfill & Hp). rewrite app_nil_r in Hp.
  destruct (count_loop_spec db fid candidates callback (sum_list_with (nodes h) (x :: F)) ns) as (l & Hl & Hs & Hloop).
  - rewrite (total_perm _ _ Hp). etransitivity; [apply total_live|]. by rewrite total_level.
  - rewrite Hp. apply Forall_forall. intros n [Hn Hin]%list_elem_of_filter. split; [|done].
    apply list_elem_of_fmap in Hin as (t & -> & Hin). apply list_elem_of_split in Hin as (s1 & s2 & Heq).
    pose proof (facet_tree_located _ _ _ _ Ht) as Hloc. rewrite Heq in Hloc.
    apply located_app in Hloc as [Hloc _]. by apply (located_app _ _ _ [t] s2).
  - exists l. split_and!; [|done|].
    + by rewrite Hl, (below_perm _ _ _ Hp), below_live, below_level_list.
    + intros t. change (node_entry candidates <$> []) with (@nil LevelEntry) in Hfill. rewrite Hfill. apply Hloop. lia.
Qed.

(** A callback that keeps the values it is called with, at most two. *)
Definition sample_callback (x : string) (count docid : Z) (t : list (string * Z * Z)) : list (string * Z * Z) * bool :=
  (t ++ [(x, count, docid)], (2 <=? length (t ++ [(x, count, docid)]))%nat).

Lemma lexicographic_distribution_scan_witness :
  facet_tree 5 sample_facets 1 sample_forest ∧
  lexicographic_distribution sample_facets 5 sample_callback {[2; 3; 4]} [] = Ok [("a", 1, 2); ("b", 2, 2)].
Proof.
  split; [exact sample_tree|].
  rewrite (lexicographic_distribution_scan sample_facets 5 1 sample_forest sample_callback {[2; 3; 4]} [] sample_tree).
  vm_compute. reflexivity.
Defined.

Lemma count_distribution_sorted_witness :
  facet_tree 5 sample_facets 1 sample_forest ∧
  ∃ l, l ≡ₚ [("a", 1, 2); ("b", 2, 2); ("c", 1, 4)] ∧
    count_distribution sample_facets 5 sample_callback (sort_fuel sample_facets) {[2; 3; 4]} [] =
      Some (Ok (feed sample_callback l []).1).
Proof.
  split; [exact sample_tree|].
  destruct (count_distribution_sorted sample_facets 5 1 sample_forest sample_callback (sort_fuel sample_facets)
    {[2; 3; 4]} sample_tree (le_n _)) as (l & Hl & _ & Hc).
  exists l. split; [|apply Hc]. rewrite Hl. vm_compute. reflexivity.
Defined.
