(* ===== verification/FacetBulk.v ===== *)
(** * Building the levels of facets

    [crates/milli-core/src/update/facet]: [bulk.rs] updates the values of the
    facets (level 0) and builds the groups of the higher levels from them, with
    [clear_facet_levels] of [mod.rs].  What they build is the groups the searches
    rely on. *)

From S2P Require Import Prelude TaskTypes SchedUtils Facet FacetSort.
From Stdlib Require Import Ascii.
From Stdlib Require String.
Open Scope Z_scope.

(** ** The database *)

#[export] Instance FacetGroupKey_eq_dec : EqDecision FacetGroupKey.
Proof. solve_decision. Defined.

Definition key_eqb (k1 k2 : FacetGroupKey) : bool := negb (key_lt k1 k2) && negb (key_lt k2 k1).

(** [db.get], [db.put] and [db.delete]. *)
Definition db_get (db : FacetDb) (k : FacetGroupKey) : option FacetGroupValue :=
  snd <$> find (λ e, key_eqb e.1 k) db.
Definition db_put (db : FacetDb) (k : FacetGroupKey) (v : FacetGroupValue) : FacetDb :=
  filter (λ e, key_lt e.1 k = true) db ++ (k, v) :: filter (λ e, key_lt k e.1 = true) db.
Definition db_delete (db : FacetDb) (k : FacetGroupKey) : FacetDb :=
  filter (λ e, key_eqb e.1 k = false) db.

(** [prefix_iter] on a field and a level. *)
Definition level_entries (db : FacetDb) (field_id : Z) (level : nat) : FacetDb :=
  filter (λ e, fk_field_id e.1 = field_id ∧ fk_level e.1 = level) db.

(** [clear_facet_levels]: the keys from level 1 to level 255 with an empty
    bound. *)
Definition clear_facet_levels (db : FacetDb) (field_ids : list Z) : FacetDb :=
  foldl (λ db field_id,
    filter (λ e, key_lt e.1 (mkFacetGroupKey field_id 1 "") || key_lt (mkFacetGroupKey field_id 255 "") e.1 = true) db)
    db field_ids.

(** ** Bulk update *)

(** The change of a value: documents removed and added. *)
Record DelAdd := mkDelAdd {
  da_deletion : option bitmap;
  da_addition : option bitmap;
}.

(** The length of an encoded key. *)
Definition key_length (k : FacetGroupKey) : nat := (3 + String.length (fk_left_bound k))%nat.

(** [valid_lmdb_key], with [MAX_LMDB_KEY_LENGTH = 500]. *)
Definition valid_lmdb_key (k : FacetGroupKey) : bool := (key_length k <=? 500 - 3)%nat.

(** [CboRoaringBitmapCodec::merge_deladd_into]. *)
Definition merge_deladd (d : DelAdd) (previous : bitmap) : bitmap :=
  let previous := match da_deletion d with Some b => previous ∖ b | None => previous end in
  match da_addition d with Some b => previous ∪ b | None => previous end.

(** The loop of [update_level0] on a database that is not empty. *)
Definition update_value (db : FacetDb) (change : FacetGroupKey * DelAdd) : FacetDb :=
  let '(key, value) := change in
  if negb (valid_lmdb_key key) then db
  else
    match (match db_get db key with
           | Some previous => Some (merge_deladd value (fv_bitmap previous))
           | None => da_addition value
           end) with
    | None => db
    | Some new => if bm_is_empty new then db_delete db key else db_put db key (mkFacetGroupValue 1 new)
    end.

(** The same on an empty database, where the entries are appended. *)
Definition append_value (db : FacetDb) (change : FacetGroupKey * DelAdd) : FacetDb :=
  let '(key, value) := change in
  if negb (valid_lmdb_key key) then db
  else match da_addition value with Some new => db ++ [(key, mkFacetGroupValue 1 new)] | None => db end.

(** [update_level0]. *)
Definition update_level0 (db : FacetDb) (delta_data : option (list (FacetGroupKey * DelAdd))) : FacetDb :=
  match delta_data with
  | None => db
  | Some delta => foldl (if bool_decide (db = []) then append_value else update_value) db delta
  end.

Section bulk.
Variables group_size min_level_size : Z.
Variable field_id : Z.

(** The variables of [compute_higher_levels] for one level: the writer, and the
    three vectors of the group being filled. *)
Record Level := mkLevel {
  lv_writer : FacetDb;
  lv_bitmaps : list bitmap;
  lv_left_bounds : list string;
  lv_group_sizes : list Z;
}.

(** The entries of a group that are written ([drain] and [zip]). *)
Fixpoint drain (level : nat) (bitmaps : list bitmap) (left_bounds : list string) (sizes : list Z) : FacetDb :=
  match bitmaps, left_bounds, sizes with
  | bitmap :: bitmaps, left_bound :: left_bounds, size :: sizes =>
      (mkFacetGroupKey field_id level left_bound, mkFacetGroupValue size bitmap) :: drain level bitmaps left_bounds sizes
  | _, _, _ => []
  end.

(** The callback of a level, given a group of the level below; [levels] are this
    level and those above. *)
Fixpoint handle_group (level : nat) (levels : list Level) (sub_bitmaps : list bitmap) (left_bound : string)
    : outcome unit (list Level) :=
  match levels with
  | [] => Ok []
  | lv :: above =>
      let sizes := lv_group_sizes lv ++ [Z.of_nat (length sub_bitmaps) mod 256] in
      let bounds := lv_left_bounds lv ++ [left_bound] in
      let bitmaps := lv_bitmaps lv ++ [foldl (∪) ∅ sub_bitmaps] in
      if negb (Z.of_nat (length bitmaps) =? group_size)
      then Ok (mkLevel (lv_writer lv) bitmaps bounds sizes :: above)
      else
        first ← unwrap (head bounds);
        above ← handle_group (S level) above bitmaps first;
        Ok (mkLevel (lv_writer lv ++ drain level bitmaps bounds sizes) [] [] [] :: above)
  end.

(** [read_level_0]: the groups of values are given to level 1. *)
Fixpoint read_level_0 (l : FacetDb) (bitmaps : list bitmap) (left_bound : option string) (levels : list Level)
    : outcome unit (list Level) :=
  match l with
  | [] => match bitmaps with [] => Ok levels | _ => handle_group 1 levels bitmaps (default "" left_bound) end
  | (key, value) :: l =>
      let left_bound := default (fk_left_bound key) left_bound in
      let bitmaps := bitmaps ++ [fv_bitmap value] in
      if Z.of_nat (length bitmaps) =? group_size then
        levels ← handle_group 1 levels bitmaps left_bound;
        read_level_0 l [] None levels
      else read_level_0 l bitmaps (Some left_bound) levels
  end.

(** The end of [compute_higher_levels] for the [n] levels from [level] up: the
    writers. *)
Fixpoint finish_levels (n level : nat) (levels : list Level) : outcome unit (list FacetDb) :=
  match n, levels with
  | O, _ | _, [] => Ok []
  | S n, lv :: above =>
      let len := Z.of_nat (length (lv_writer lv)) in
      '(lv, above) ←
        (if negb (bool_decide (lv_bitmaps lv = [])) && (u64_wrap (min_level_size - 1) <=? len) then
          if negb (Z.of_nat (length (lv_bitmaps lv)) <? group_size) then Panic
          else if negb (0 <? len) then Panic
          else
            first ← unwrap (head (lv_left_bounds lv));
            above ← handle_group (S level) above (lv_bitmaps lv) first;
            Ok (mkLevel (lv_writer lv ++ drain level (lv_bitmaps lv) (lv_left_bounds lv) (lv_group_sizes lv)) [] [] [], above)
        else Ok (lv, above));
      if min_level_size <=? Z.of_nat (length (lv_writer lv)) then
        writers ← finish_levels n (S level) above;
        Ok (lv_writer lv :: writers)
      else
        above ← (match lv_bitmaps lv with
                 | [] => Ok above
                 | _ => first ← unwrap (head (lv_left_bounds lv)); handle_group (S level) above (lv_bitmaps lv) first
                 end);
        finish_levels n (S level) above
  end.

(** [compute_levels_for_field_id]: 32 levels above the values. *)
Definition compute_levels_for_field_id (db : FacetDb) : outcome unit (list FacetDb) :=
  levels ← read_level_0 (level_entries db field_id 0) [] None (replicate 32 (mkLevel [] [] [] []));
  finish_levels 32 1 levels.
End bulk.

(** The loop of [FacetsUpdateBulkInner::update]. *)
Fixpoint update_fields (group_size min_level_size : Z) (db : FacetDb) (field_ids : list Z) : outcome unit FacetDb :=
  match field_ids with
  | [] => Ok db
  | field_id :: field_ids =>
      readers ← compute_levels_for_field_id group_size min_level_size field_id db;
      update_fields group_size min_level_size
        (foldl (λ db e, db_put db e.1 e.2) db (concat readers)) field_ids
  end.

(** [FacetsUpdateBulkInner::update]. *)
Definition bulk_update (group_size min_level_size : Z) (db : FacetDb)
    (delta_data : option (list (FacetGroupKey * DelAdd))) (field_ids : list Z) : outcome unit FacetDb :=
  update_fields group_size min_level_size (clear_facet_levels (update_level0 db delta_data) field_ids) field_ids.

(** ** Groups *)

(** The full groups of [n] elements of a list, and the elements left. *)
Fixpoint groups {A} (n : Z) (acc : list A) (l : list A) : list (list A) * list A :=
  match l with
  | [] => ([], acc)
  | x :: l =>
      let acc := acc ++ [x] in
      if Z.of_nat (length acc) =? n then let '(g, r) := groups n [] l in (acc :: g, r) else groups n acc l
  end.

(** With the elements left as the last group. *)
Definition all_groups {A} (n : Z) (l : list A) : list (list A) :=
  let '(g, r) := groups n [] l in g ++ match r with [] => [] | _ => [r] end.

Lemma groups_snoc {A} n (l : list A) x : ∀ acc,
  groups n acc (l ++ [x]) = let '(g, r) := groups n acc l in
    if Z.of_nat (length (r ++ [x])) =? n then (g ++ [r ++ [x]], []) else (g, r ++ [x]).
Proof.
  induction l as [|y l IH]; intros acc; cbn [groups app].
  - by destruct (_ =? n).
  - destruct (Z.of_nat (length (acc ++ [y])) =? n); [|apply IH]. rewrite IH.
    destruct (groups n [] l) as [g r]. by destruct (_ =? n).
Qed.

(** The groups are full, and the elements left are fewer than a group. *)
Lemma groups_spec {A} n (l : list A) : 1 ≤ n → ∀ acc, Z.of_nat (length acc) < n →
  let '(g, r) := groups n acc l in
  concat g ++ r = acc ++ l ∧ Forall (λ x, Z.of_nat (length x) = n) g ∧ Z.of_nat (length r) < n.
Proof.
  intros Hn. induction l as [|y l IH]; intros acc Hacc; cbn [groups].
  { split_and!; [by rewrite app_nil_r|constructor|done]. }
  assert (Hlen : Z.of_nat (length (acc ++ [y])) = Z.of_nat (length acc) + 1) by (rewrite length_app; cbn; lia).
  destruct (Z.eqb_spec (Z.of_nat (length (acc ++ [y]))) n) as [He|He].
  - specialize (IH [] ltac:(cbn; lia)). destruct (groups n [] l) as [g r]. destruct IH as (Heq & Hg & Hr).
    split_and!; [|by constructor|done]. cbn. rewrite <-!app_assoc, Heq. done.
  - specialize (IH (acc ++ [y]) ltac:(lia)). destruct (groups n (acc ++ [y]) l) as [g r].
    destruct IH as (Heq & Hg & Hr). split_and!; [|done|done]. rewrite Heq. by rewrite <-app_assoc.
Qed.

Lemma length_full {A} n (g : list (list A)) : Forall (λ x, Z.of_nat (length x) = n) g →
  Z.of_nat (length (concat g)) = n * Z.of_nat (length g).
Proof. induction 1 as [|x g Hx _ IH]; cbn [concat length]; [lia|]. rewrite length_app. lia. Qed.

Lemma all_groups_concat {A} n (l : list A) : 1 ≤ n → concat (all_groups n l) = l.
Proof.
  intros Hn. unfold all_groups. pose proof (groups_spec n l Hn [] ltac:(cbn; lia)) as Hs.
  destruct (groups n [] l) as [g r]. destruct Hs as (Heq & _). rewrite concat_app.
  destruct r; cbn in *; rewrite ?app_nil_r in *; done.
Qed.

Lemma all_groups_sizes {A} n (l : list A) : 1 ≤ n →
  Forall (λ x, x ≠ [] ∧ Z.of_nat (length x) ≤ n) (all_groups n l).
Proof.
  intros Hn. unfold all_groups. pose proof (groups_spec n l Hn [] ltac:(cbn; lia)) as Hs.
  destruct (groups n [] l) as [g r]. destruct Hs as (_ & Hg & Hr). apply Forall_app. split.
  - eapply Forall_impl; [exact Hg|]. intros x Hx. cbn in Hx. split; [|lia]. intros ->. cbn in Hx. lia.
  - destruct r; repeat constructor; [done|lia].
Qed.

Lemma concat_snoc {A} (g : list (list A)) x : concat (g ++ [x]) = concat g ++ x.
Proof. rewrite concat_app. cbn. by rewrite app_nil_r. Qed.

Section levels.
Variables gs ms : Z.
Variable fid : Z.
Hypothesis Hgs : 1 ≤ gs ≤ 255.
Hypothesis Hms : 2 ≤ ms ≤ u64_max.

(** The state of [n] levels from [h] up when level [h] was given the groups
    [G]. *)
Fixpoint fed (n h : nat) : list (tree h) → list Level :=
  match n with
  | O => λ _, []
  | S n => λ G,
      let '(g, r) := groups gs [] G in
      mkLevel (entry fid h <$> concat g) ((λ t, docs (leaves h t)) <$> r) (g_bound h <$> r) (g_size h <$> r)
        :: fed n (S h) g
  end.

Lemma docs_app l r : docs (l ++ r) = docs l ∪ docs r.
Proof. unfold docs. by rewrite fmap_app, union_list_app_L. Qed.

(** The union of the bitmaps of a group. *)
Lemma docs_node h (t : list (tree h)) : foldl (∪) ∅ ((λ c, docs (leaves h c)) <$> t) = docs (leaves (S h) t).
Proof.
  assert (Hacc : ∀ (u : bitmap), foldl (∪) u ((λ c, docs (leaves h c)) <$> t) = u ∪ docs (leaves (S h) t)).
  { cbn [leaves]. induction t as [|c t IH]; intros u; cbn [fmap list_fmap foldl concat].
    - change (docs []) with (∅ : bitmap). by rewrite (right_id_L ∅ (∪)).
    - rewrite IH, docs_app. set_solver. }
  rewrite Hacc. set_solver.
Qed.

Lemma drain_entries h (G : list (tree h)) :
  drain fid h ((λ t, docs (leaves h t)) <$> G) (g_bound h <$> G) (g_size h <$> G) = entry fid h <$> G.
Proof. induction G as [|t G IH]; [done|]. cbn [fmap list_fmap drain]. by rewrite IH. Qed.

Definition node_ok (h : nat) (t : list (tree h)) : Prop := tree_ok (S h) t ∧ Z.of_nat (length t) ≤ gs.

Lemma g_bound_head h (t : list (tree h)) : tree_ok (S h) t → head (g_bound h <$> t) = Some (g_bound (S h) t).
Proof.
  intros [Hne Hok]. destruct t as [|c t]; [done|]. inversion Hok as [|?? Hc _]; subst. cbn [fmap list_fmap head].
  by rewrite g_bound_node.
Qed.

(** A level that is given one more group. *)
Lemma handle_group_fed n : ∀ h (G : list (tree (S h))) (t : tree (S h)),
  Forall (node_ok h) G → node_ok h t →
  handle_group gs fid (S h) (fed n (S h) G) ((λ c, docs (leaves h c)) <$> t) (g_bound (S h) t) =
    Ok (fed n (S h) (G ++ [t])).
Proof.
  induction n as [|n IH]; intros h G t HG Ht; [done|]. cbn [fed]. rewrite groups_snoc.
  pose proof (groups_spec gs G ltac:(lia) [] ltac:(cbn; lia)) as Hs.
  destruct (groups gs [] G) as [g r]. destruct Hs as (Heq & Hfull & Hr). cbn [app] in Heq.
  cbn [handle_group lv_group_sizes lv_left_bounds lv_bitmaps lv_writer].
  assert (Hsize : Z.of_nat (length ((λ c, docs (leaves h c)) <$> t)) mod 256 = g_size (S h) t).
  { rewrite length_fmap. apply Z.mod_small. destruct Ht as [_ Ht]. split; [apply Nat2Z.is_nonneg|]. eapply Z.le_lt_trans; [exact Ht|lia]. }
  rewrite Hsize, docs_node.
  replace (((λ t0, docs (leaves (S h) t0)) <$> r) ++ [docs (leaves (S h) t)]) with
    ((λ t0, docs (leaves (S h) t0)) <$> r ++ [t]) by (by rewrite fmap_app).
  replace ((g_bound (S h) <$> r) ++ [g_bound (S h) t]) with (g_bound (S h) <$> r ++ [t]) by (by rewrite fmap_app).
  replace ((g_size (S h) <$> r) ++ [g_size (S h) t]) with (g_size (S h) <$> r ++ [t]) by (by rewrite fmap_app).
  rewrite length_fmap. destruct (Z.eqb_spec (Z.of_nat (length (r ++ [t]))) gs) as [He|He]; cbn [negb]; [|done].
  rewrite <-Heq in HG. rewrite Forall_app in HG. destruct HG as [HGg HGr].
  assert (Hok : node_ok (S h) (r ++ [t])).
  { split; [|lia]. split; [by destruct r|]. apply Forall_app. split.
    - eapply Forall_impl; [exact HGr|]. by intros x [? _].
    - constructor; [apply Ht|constructor]. }
  rewrite (g_bound_head (S h) (r ++ [t])) by apply Hok. cbn [unwrap mbind outcome_bind].
  rewrite (IH (S h) g (r ++ [t])); [|..|done].
  - cbn [mbind outcome_bind]. rewrite drain_entries, <-fmap_app, concat_snoc. done.
  - apply Forall_forall. intros x Hx. rewrite Forall_forall in Hfull. pose proof (Hfull x Hx) as Hlx. cbn in Hlx. split; [|exact (Z.eq_le_incl _ _ Hlx)].
    split; [intros ->; cbn in Hlx; lia|]. apply list_elem_of_split in Hx as (g1 & g2 & ->).
    rewrite concat_app, Forall_app in HGg. destruct HGg as [_ HGg]. cbn [concat] in HGg. apply Forall_app in HGg as [HGg _].
    eapply Forall_impl; [exact HGg|]. by intros y [? _].
Qed.

Definition with_rest {A} (gr : list (list A) * list A) : list (list A) :=
  gr.1 ++ match gr.2 with [] => [] | _ => [gr.2] end.

Lemma all_groups_rest {A} n (l : list A) : all_groups n l = with_rest (groups n [] l).
Proof. unfold all_groups. by destruct (groups n [] l). Qed.

Lemma head_snoc {A} (l : list A) x : head (l ++ [x]) = Some (default x (head l)).
Proof. by destruct l. Qed.

Lemma node_ok_0 (t : list (tree 0)) : t ≠ [] → Z.of_nat (length t) ≤ gs → node_ok 0 t.
Proof. intros Hne Hlen. split; [|done]. split; [done|]. by apply Forall_forall. Qed.

(** The values of a field are given to level 1 by groups. *)
Lemma read_level_0_fed n (G : list (tree 0)) : ∀ acc (g0 : list (tree 1)),
  Z.of_nat (length acc) < gs → Forall (node_ok 0) g0 →
  read_level_0 gs fid (entry fid 0 <$> G) ((λ t, docs (leaves 0 t)) <$> acc) (head (g_bound 0 <$> acc)) (fed n 1 g0) =
    Ok (fed n 1 (g0 ++ with_rest (groups gs acc G))).
Proof.
  induction G as [|x G IH]; intros acc g0 Hacc Hg0; cbn [fmap list_fmap read_level_0 groups].
  - unfold with_rest. cbn [fst snd app]. destruct acc as [|a acc]; [by rewrite app_nil_r|].
    cbn [fmap list_fmap]. change (docs (leaves 0 a) :: ((λ t, docs (leaves 0 t)) <$> acc)) with
      ((λ t, docs (leaves 0 t)) <$> a :: acc). cbn [head default from_option id].
    change (g_bound 0 a) with (g_bound 1 (a :: acc)). apply handle_group_fed; [done|].
    apply node_ok_0; [done|lia].
  - change (fv_bitmap (entry fid 0 x).2) with (docs (leaves 0 x)). change (fk_left_bound (entry fid 0 x).1) with (g_bound 0 x).
    cbn [entry fk_left_bound fv_bitmap]. replace (((λ t, docs (leaves 0 t)) <$> acc) ++ [docs (leaves 0 x)]) with
      ((λ t, docs (leaves 0 t)) <$> acc ++ [x]) by (by rewrite fmap_app). rewrite length_fmap.
    assert (Hlen : Z.of_nat (length (acc ++ [x])) = Z.of_nat (length acc) + 1) by (rewrite length_app; cbn; lia).
    assert (Hh : head (g_bound 0 <$> acc ++ [x]) = Some (default (g_bound 0 x) (head (g_bound 0 <$> acc)))).
    { rewrite fmap_app. apply head_snoc. }
    destruct (Z.eqb_spec (Z.of_nat (length (acc ++ [x]))) gs) as [He|He].
    + assert (Hok : node_ok 0 (acc ++ [x])) by (apply node_ok_0; [by destruct acc|lia]).
      rewrite (g_bound_head 0 (acc ++ [x])) in Hh by apply Hok. injection Hh as Hh. replace (default (g_bound 0 x) _) with (g_bound 1 (acc ++ [x])) by exact Hh.
      rewrite (handle_group_fed n 0 g0 (acc ++ [x])) by done. cbn [mbind outcome_bind].
      etransitivity; [apply (IH [] (g0 ++ [acc ++ [x]])); [cbn; lia|apply Forall_app; split; [done|by constructor]]|].
      destruct (groups gs [] G) as [g r]. unfold with_rest. cbn [fst snd app]. by rewrite <-app_assoc.
    + etransitivity; [|apply (IH (acc ++ [x]) g0); [lia|done]]. by rewrite Hh.
Qed.

(** How many elements of a level are written, and whether the level is kept. *)
Definition written {A} (G : list A) : Z :=
  let '(g, r) := groups gs [] G in
  let full := Z.of_nat (length (concat g)) in
  if negb (bool_decide (r = [])) && (ms - 1 <=? full) then Z.of_nat (length G) else full.
Definition kept {A} (G : list A) : bool := ms <=? written G.

(** The levels above the elements of level [h]. *)
Fixpoint levels_of (n h : nat) : list (tree h) → list FacetDb :=
  match n with
  | O => λ _, []
  | S n => λ G, (if kept G then [entry fid h <$> G] else []) ++ levels_of n (S h) (all_groups gs G)
  end.

Lemma all_groups_ok h (G : list (tree h)) : Forall (tree_ok h) G → Forall (node_ok h) (all_groups gs G).
Proof.
  intros HG. pose proof (all_groups_sizes gs G ltac:(lia)) as Hs. rewrite <-(all_groups_concat gs G) in HG by lia.
  revert HG. induction Hs as [|x l [Hne Hlen] _ IH]; [constructor|]. cbn [concat]. intros [Hx Hl]%Forall_app.
  constructor; [|by apply IH]. split; [by split|done].
Qed.

Lemma ms_wrap : u64_wrap (ms - 1) = ms - 1.
Proof. apply Z.mod_small. unfold u64_max in Hms. lia. Qed.

(** The end of the levels. *)
Lemma finish_levels_fed n : ∀ h (G : list (tree (S h))), Forall (node_ok h) G →
  finish_levels gs ms fid n (S h) (fed n (S h) G) = Ok (levels_of n (S h) G).
Proof.
  induction n as [|n IH]; intros h G HG; [done|]. cbn [levels_of].
  assert (Htree : Forall (tree_ok (S h)) G) by (eapply Forall_impl; [exact HG|]; by intros x [? _]).
  pose proof (all_groups_ok (S h) G Htree) as Hall. rewrite all_groups_rest in *. unfold kept, written.
  cbn [fed]. pose proof (groups_spec gs G ltac:(lia) [] ltac:(cbn; lia)) as Hs.
  destruct (groups gs [] G) as [g r] eqn:Hg. destruct Hs as (Heq & Hfull & Hr). cbn [app] in Heq. unfold with_rest in *.
  cbn [fst snd] in *. cbn [finish_levels lv_writer lv_bitmaps lv_left_bounds lv_group_sizes]. rewrite ms_wrap, length_fmap.
  destruct r as [|a r].
  - cbn [fmap list_fmap]. rewrite !bool_decide_true by done. cbn [negb andb mbind outcome_bind lv_writer lv_bitmaps].
    rewrite app_nil_r in *. subst G. rewrite length_fmap.
    destruct (ms <=? Z.of_nat (length (concat g))); rewrite IH by done; done.
  - rewrite bool_decide_false by done. rewrite (bool_decide_false (a :: r = [])) by done. cbn [negb andb].
    apply Forall_app in Hall as [Hallg Hallr]. inversion Hallr as [|?? Hnode _]; subst.
    assert (Hhandle : handle_group gs fid (S (S h)) (fed n (S (S h)) g) ((λ t, docs (leaves (S h) t)) <$> a :: r)
      (g_bound (S (S h)) (a :: r)) = Ok (fed n (S (S h)) (g ++ [a :: r]))) by (by apply handle_group_fed).
    assert (Hfinish : finish_levels gs ms fid n (S (S h)) (fed n (S (S h)) (g ++ [a :: r])) =
      Ok (levels_of n (S (S h)) (g ++ [a :: r]))) by (apply IH, Forall_app; split; done).
    destruct (Z.leb_spec (ms - 1) (Z.of_nat (length (concat g)))) as [Hle|Hlt].
    + rewrite length_fmap, (proj2 (Z.ltb_lt _ gs) Hr), (proj2 (Z.ltb_lt 0 _)) by lia. cbn [negb].
      rewrite (g_bound_head (S h) (a :: r)) by apply Hnode. cbn [unwrap mbind outcome_bind]. rewrite Hhandle.
      cbn [mbind outcome_bind lv_writer]. rewrite drain_entries, <-fmap_app, length_fmap.
      destruct (ms <=? _); cbn [lv_bitmaps mbind outcome_bind]; rewrite Hfinish; done.
    + cbn [mbind outcome_bind lv_writer lv_bitmaps lv_left_bounds]. rewrite length_fmap.
      rewrite (proj2 (Z.leb_gt ms _)) by lia. cbn [fmap list_fmap].
      change (g_bound (S h) a :: (g_bound (S h) <$> r)) with (g_bound (S h) <$> a :: r).
      rewrite (g_bound_head (S h) (a :: r)) by apply Hnode. cbn [unwrap mbind outcome_bind].
      change (docs (leaves (S h) a) :: ((λ t, docs (leaves (S h) t)) <$> r)) with ((λ t, docs (leaves (S h) t)) <$> a :: r).
      rewrite Hhandle. cbn [mbind outcome_bind]. rewrite Hfinish. done.
Qed.

(** A level is kept only above one that is kept. *)
Lemma kept_below {A} (G : list A) : kept (all_groups gs G) = true → kept G = true.
Proof.
  unfold kept. rewrite !Z.leb_le. intros Hk.
  assert (Hlen : ms ≤ Z.of_nat (length (all_groups gs G))).
  { etransitivity; [exact Hk|]. unfold written. pose proof (groups_spec gs (all_groups gs G) ltac:(lia) [] ltac:(cbn; lia)) as Hs.
    destruct (groups gs [] (all_groups gs G)) as [g r]. destruct Hs as (Heq & _). cbn [app] in Heq.
    destruct (_ && _); [lia|]. rewrite <-Heq, length_app. lia. }
  rewrite all_groups_rest in Hlen. unfold written. pose proof (groups_spec gs G ltac:(lia) [] ltac:(cbn; lia)) as Hs.
  destruct (groups gs [] G) as [g r]. destruct Hs as (Heq & Hg & _). cbn [app] in Heq. unfold with_rest in Hlen.
  cbn [fst snd] in Hlen. rewrite length_app in Hlen. apply length_full in Hg.
  assert (Hmul : Z.of_nat (length g) ≤ gs * Z.of_nat (length g)) by nia. rewrite <-Heq, length_app.
  destruct r as [|a r]; cbn [length] in Hlen |- *.
  - rewrite bool_decide_true by done. cbn [negb andb]. lia.
  - rewrite bool_decide_false by done. cbn [negb andb].
    rewrite (proj2 (Z.leb_le (ms - 1) _)) by lia. lia.
Qed.

Lemma levels_of_none n : ∀ h (G : list (tree h)), kept G = false → levels_of n h G = [].
Proof.
  induction n as [|n IH]; intros h G Hk; [done|]. cbn [levels_of]. rewrite Hk. cbn [app]. apply IH.
  destruct (kept (all_groups gs G)) eqn:Hk'; [|done]. by rewrite (kept_below G Hk') in Hk.
Qed.

(** The levels built above some groups make them the groups of a field. *)
Lemma levels_tree n : ∀ h (F : list (tree h)), Forall (tree_ok h) F → F ≠ [] →
  ∃ h' (F' : list (tree h')), field_entries fid h F ++ concat (levels_of n (S h) (all_groups gs F)) = field_entries fid h' F' ∧
    all_leaves h' F' = all_leaves h F ∧ Forall (tree_ok h') F' ∧ F' ≠ [] ∧ (h' ≤ h + n)%nat.
Proof.
  induction n as [|n IH]; intros h F Hok Hne.
  { exists h, F. split_and!; [by rewrite app_nil_r|done|done|done|lia]. }
  destruct (kept (A:=tree (S h)) (all_groups gs F)) eqn:Hk; [|rewrite levels_of_none by done; exists h, F; split_and!; [by rewrite app_nil_r|done|done|done|lia]].
  cbn [levels_of]. rewrite Hk. cbn [app concat].
  pose proof (all_groups_concat gs F ltac:(lia)) as Hc. pose proof (all_groups_ok h F Hok) as Hall.
  destruct (IH (S h) (all_groups gs F)) as (h' & F' & Heq & Hl & Hok' & Hne' & Hle).
  - eapply Forall_impl; [exact Hall|]. by intros x [? _].
  - intros He. apply Hne. by rewrite <-Hc, He.
  - exists h', F'. split_and!; [| |done|done|lia].
    + rewrite <-Heq. change (field_entries fid (S h) (all_groups gs F)) with
        (field_entries fid h (concat (all_groups gs F)) ++ (entry fid (S h) <$> all_groups gs F)).
      rewrite Hc. by rewrite app_assoc.
    + rewrite Hl. etransitivity; [symmetry; apply all_leaves_concat|]. exact (f_equal (all_leaves h) Hc).
Qed.

Lemma fed_empty n : ∀ h, fed n h [] = replicate n (mkLevel [] [] [] []).
Proof. induction n as [|n IH]; intros h; [done|]. cbn [fed groups replicate]. by rewrite IH. Qed.

(** [compute_levels_for_field_id] on the values [F]. *)
Lemma compute_levels_spec db (F : list (tree 0)) : level_entries db fid 0 = entry fid 0 <$> F →
  compute_levels_for_field_id gs ms fid db = Ok (levels_of 32 1 (all_groups gs F)).
Proof.
  intros Hdb. unfold compute_levels_for_field_id. rewrite Hdb, <-(fed_empty 32 1).
  etransitivity; [apply (f_equal (λ x, x ≫= _)), (read_level_0_fed 32 F [] []); [cbn; lia|constructor]|].
  cbn [mbind outcome_bind app]. rewrite <-all_groups_rest. apply finish_levels_fed, all_groups_ok. by apply Forall_forall.
Qed.
End levels.

(** ** Sorted databases *)

Lemma list_filter_ext {A} (P Q : A → Prop) `{!∀ x, Decision (P x), !∀ x, Decision (Q x)} (l : list A) :
  (∀ x, x ∈ l → P x ↔ Q x) → filter P l = filter Q l.
Proof.
  induction l as [|x l IH]; [done|]. intros Hx. rewrite !filter_cons. rewrite IH by (intros y Hy; apply Hx; by right).
  specialize (Hx x ltac:(by left)). by repeat case_decide; try tauto.
Qed.

Lemma key_lt_irrefl k : key_lt k k = false.
Proof. unfold key_lt. by rewrite Z.ltb_irrefl, Z.eqb_refl, Nat.ltb_irrefl, Nat.eqb_refl, b_lt_irrefl. Qed.

(** The order of the keys, as a proposition. *)
Lemma key_lt_spec k1 k2 : key_lt k1 k2 = true ↔ fk_field_id k1 < fk_field_id k2 ∨
  (fk_field_id k1 = fk_field_id k2 ∧ ((fk_level k1 < fk_level k2)%nat ∨
  (fk_level k1 = fk_level k2 ∧ b_lt (fk_left_bound k1) (fk_left_bound k2) = true))).
Proof.
  unfold key_lt. rewrite orb_true_iff, andb_true_iff, orb_true_iff, andb_true_iff, Z.ltb_lt, Z.eqb_eq, Nat.ltb_lt, Nat.eqb_eq.
  done.
Qed.

Lemma key_lt_trans k1 k2 k3 : key_lt k1 k2 = true → key_lt k2 k3 = true → key_lt k1 k3 = true.
Proof.
  rewrite !key_lt_spec. intros [?|[? [?|[? H1]]]] [?|[? [?|[? H2]]]]; try (left; lia); try (right; split; [lia|left; lia]).
  right. split; [lia|]. right. split; [lia|]. by eapply b_lt_trans.
Qed.

Definition db_sorted (db : FacetDb) : Prop := StronglySorted (λ x y, key_lt x.1 y.1 = true) db.

Lemma db_sorted_app A B : db_sorted (A ++ B) ↔ db_sorted A ∧ db_sorted B ∧ ∀ x y, x ∈ A → y ∈ B → key_lt x.1 y.1 = true.
Proof. unfold db_sorted. rewrite StronglySorted_app. tauto. Qed.

Lemma db_sorted_filter (P : FacetGroupKey * FacetGroupValue → Prop) `{!∀ x, Decision (P x)} db :
  db_sorted db → db_sorted (filter P db).
Proof. apply StronglySorted_filter. Qed.

(** The entries of a field. *)
Definition field_slice (db : FacetDb) (fid : Z) : FacetDb := filter (λ e, fk_field_id e.1 = fid) db.

Lemma field_slices db fid : db_sorted db →
  db = filter (λ e, fk_field_id e.1 < fid) db ++ field_slice db fid ++ filter (λ e, fid < fk_field_id e.1) db.
Proof.
  unfold field_slice. induction 1 as [|x db Hs IH Hx]; [done|]. rewrite Forall_forall in Hx.
  assert (Hge : ∀ y, y ∈ db → fk_field_id x.1 ≤ fk_field_id y.1).
  { intros y Hy. specialize (Hx y Hy). rewrite key_lt_spec in Hx. destruct Hx as [?|[? _]]; lia. }
  assert (HL : fid ≤ fk_field_id x.1 → filter (λ e, fk_field_id e.1 < fid) db = []).
  { intros Hf. apply list_filter_none, Forall_forall. intros y Hy. specialize (Hge y Hy). cbn. lia. }
  assert (HE : fid < fk_field_id x.1 → filter (λ e, fk_field_id e.1 = fid) db = []).
  { intros Hf. apply list_filter_none, Forall_forall. intros y Hy. specialize (Hge y Hy). cbn. lia. }
  destruct (Z.lt_trichotomy (fk_field_id x.1) fid) as [Hlt|[Heq|Hgt]].
  - rewrite filter_cons_True, filter_cons_False, filter_cons_False by (cbn; lia). cbn. by f_equal.
  - rewrite filter_cons_False, filter_cons_True, filter_cons_False by (cbn; lia).
    rewrite HL in IH |- * by lia. cbn. by f_equal.
  - rewrite filter_cons_False, filter_cons_False, filter_cons_True by (cbn; lia).
    rewrite HL, HE in IH |- * by lia. cbn in *. by f_equal.
Qed.

(** Putting new entries between two parts of a database. *)
Lemma put_run new : ∀ A B, db_sorted (A ++ new ++ B) → foldl (λ db e, db_put db e.1 e.2) (A ++ B) new = A ++ new ++ B.
Proof.
  induction new as [|[k v] new IH]; intros A B Hs; [done|]. cbn [foldl fst snd].
  assert (Hput : db_put (A ++ B) k v = (A ++ [(k, v)]) ++ B).
  { apply db_sorted_app in Hs as (_ & Hs & HA). apply StronglySorted_inv in Hs as [_ HB]. rewrite Forall_forall in HB.
    assert (HA' : ∀ x, x ∈ A → key_lt x.1 k = true) by (intros x Hx; apply (HA x (k, v) Hx); by left).
    assert (HB' : ∀ x, x ∈ B → key_lt k x.1 = true) by (intros x Hx; apply (HB x); apply elem_of_app; by right).
    assert (Hno : ∀ k1 k2, key_lt k1 k2 = true → key_lt k2 k1 ≠ true).
    { intros k1 k2 H1 H2. pose proof (key_lt_trans _ _ _ H1 H2) as H3. by rewrite key_lt_irrefl in H3. }
    unfold db_put. rewrite !filter_app, (list_filter_all _ A), (list_filter_none _ B), (list_filter_none _ A), (list_filter_all _ B).
    - rewrite app_nil_r, <-app_assoc. done.
    - by apply Forall_forall.
    - apply Forall_forall. intros x Hx. apply Hno. by apply HA'.
    - apply Forall_forall. intros x Hx. apply Hno. by apply HB'.
    - by apply Forall_forall. }
  rewrite Hput, IH; by rewrite <-app_assoc.
Qed.

(** The groups of a field are sorted. *)
Lemma level_sorted fid h (F : list (tree h)) :
  Forall (tree_ok h) F → sorted (all_leaves h F) → db_sorted (entry fid h <$> F).
Proof.
  induction F as [|t F IH]; intros Hok Hs; [constructor|]. apply Forall_cons in Hok as [Ht Hok].
  change (all_leaves h (t :: F)) with (leaves h t ++ all_leaves h F) in Hs. apply sorted_app in Hs as (Hst & HsF & Hlt).
  constructor; [by apply IH|]. apply Forall_fmap, Forall_forall. intros x Hx. cbn [compose entry fst].
  rewrite key_lt_same. destruct (g_bound_leaf h t Ht) as (b & l & Heq). rewrite Forall_forall in Hok.
  destruct (g_bound_leaf h x (Hok x Hx)) as (b' & l' & Heq'). apply (Hlt (g_bound h t, b) (g_bound h x, b')).
  - rewrite Heq. by left.
  - apply list_elem_of_split in Hx as (F1 & F2 & ->). rewrite all_leaves_app. apply elem_of_app. right.
    change (all_leaves h (x :: F2)) with (leaves h x ++ all_leaves h F2). rewrite Heq'. by left.
Qed.

Lemma field_entries_sorted fid h : ∀ F, Forall (tree_ok h) F → sorted (all_leaves h F) → db_sorted (field_entries fid h F).
Proof.
  induction h as [|h IH]; intros F Hok Hs; [by apply level_sorted|]. cbn [field_entries]. apply db_sorted_app. split_and!.
  - apply IH; [|by rewrite all_leaves_concat]. apply Forall_concat. eapply Forall_impl; [exact Hok|]. by intros x [_ ?].
  - by apply level_sorted.
  - intros x y Hx Hy. apply list_elem_of_fmap in Hy as (t & -> & _).
    pose proof (field_entries_below fid h (concat F)) as Hb. rewrite Forall_forall in Hb. destruct (Hb x Hx) as [Hf Hl].
    rewrite key_lt_spec. right. cbn. split; [done|]. left. lia.
Qed.

(** A database of facets: sorted, values of size 1, levels below 255. *)
Record facet_db (db : FacetDb) : Prop := {
  fd_sorted : db_sorted db;
  fd_size : ∀ e, e ∈ db → fk_level e.1 = O → fv_size e.2 = 1;
  fd_level : ∀ e, e ∈ db → (fk_level e.1 < 255)%nat;
}.

Lemma facet_db_filter (P : FacetGroupKey * FacetGroupValue → Prop) `{!∀ x, Decision (P x)} db :
  facet_db db → facet_db (filter P db).
Proof.
  intros [Hs H1 H2]. constructor; [by apply db_sorted_filter|..]; intros e [_ He]%list_elem_of_filter; eauto.
Qed.

(** Only the values of the fields are left. *)
Lemma clear_facet_levels_spec fids : ∀ db, facet_db db →
  clear_facet_levels db fids = filter (λ e, fk_level e.1 = O ∨ fk_field_id e.1 ∉ fids) db.
Proof.
  induction fids as [|fid fids IH]; intros db Hdb; cbn [clear_facet_levels foldl].
  { symmetry. apply list_filter_all, Forall_forall. intros e _. right. by apply not_elem_of_nil. }
  change (foldl ?f ?d fids) with (clear_facet_levels d fids). rewrite IH by (by apply facet_db_filter).
  rewrite list_filter_filter. apply list_filter_ext. intros e He.
  assert (Hkeep : key_lt e.1 (mkFacetGroupKey fid 1 "") || key_lt (mkFacetGroupKey fid 255 "") e.1 = true ↔
    fk_level e.1 = O ∨ fk_field_id e.1 ≠ fid).
  { rewrite orb_true_iff, !key_lt_spec. cbn [fk_field_id fk_level fk_left_bound].
    pose proof (fd_level _ Hdb e He) as Hlv. assert (Hnil : b_lt (fk_left_bound e.1) "" = false) by (by destruct (fk_left_bound e.1)).
    rewrite Hnil. destruct (Z.lt_trichotomy (fk_field_id e.1) fid) as [|[|]]; split; intros; naive_solver lia. }
  rewrite Hkeep. rewrite not_elem_of_cons. tauto.
Qed.

(** The values of a field are its entries of level 0. *)
Lemma level0_entry db fid : facet_db db → level_entries db fid 0 = entry fid 0 <$> level0_values db fid.
Proof.
  intros Hdb. unfold level0_values, level_entries. rewrite <-list_fmap_compose.
  rewrite <-(list_fmap_id (filter _ db)) at 1. apply list_fmap_ext. intros i [k v] Hi.
  apply list_elem_of_lookup_2, list_elem_of_filter in Hi as [[Hf Hl] Hi]. unfold compose. cbn [id fst snd].
  unfold entry. cbn [g_size]. rewrite docs_leaf. change (g_bound 0 (fk_left_bound k, fv_bitmap v)) with (fk_left_bound k).
  pose proof (fd_size _ Hdb (k, v) Hi Hl) as Hsz. cbn in Hsz. destruct k, v. cbn in *. by subst.
Qed.

Lemma level0_sorted db fid : facet_db db → sorted (level0_values db fid).
Proof.
  intros Hdb. pose proof (fd_sorted _ Hdb) as Hs. apply (db_sorted_filter (λ e, fk_field_id e.1 = fid ∧ fk_level e.1 = O)) in Hs.
  change (filter _ db) with (level_entries db fid 0) in Hs. rewrite level0_entry in Hs by done. unfold sorted.
  induction (level0_values db fid) as [|[x b] l IH]; [constructor|]. rewrite fmap_cons in Hs. apply StronglySorted_inv in Hs as [Hs Hx].
  constructor; [by apply IH|]. rewrite Forall_fmap in Hx. eapply Forall_impl; [exact Hx|]. intros [y b'] Hy.
  cbn [compose entry fst] in Hy. rewrite key_lt_same in Hy. exact Hy.
Qed.

(** What a field becomes: groups of its values, on at most [n] levels. *)
Definition grouped (n : nat) (fid : Z) (values : list (string * bitmap)) (slice : FacetDb) : Prop :=
  (values = [] ∧ slice = []) ∨
  ∃ h (F : list (tree h)), slice = field_entries fid h F ∧ all_leaves h F = values ∧ Forall (tree_ok h) F ∧ F ≠ [] ∧ (h ≤ n)%nat.
Notation built := (grouped 32).

Lemma field_entries_size fid h : ∀ F e, e ∈ field_entries fid h F → fk_level e.1 = O → fv_size e.2 = 1.
Proof.
  induction h as [|h IH]; intros F e; cbn [field_entries].
  - intros (t & -> & _)%list_elem_of_fmap _. done.
  - intros [He|(t & -> & _)%list_elem_of_fmap]%elem_of_app; [intros; by apply (IH (concat F))|done].
Qed.

Lemma elem_of_slice db e : e ∈ db ↔ e ∈ field_slice db (fk_field_id e.1).
Proof. unfold field_slice. rewrite list_elem_of_filter. tauto. Qed.

Lemma level0_slice db fid : level0_values db fid = level0_values (field_slice db fid) fid.
Proof.
  unfold level0_values, field_slice. rewrite list_filter_filter. f_equal. apply list_filter_ext. intros e _. tauto.
Qed.

Lemma grouped_values n fid values slice : grouped n fid values slice → level0_values slice fid = values.
Proof.
  intros [[-> ->]|(h & F & -> & <- & _)]; [done|]. apply level0_leaves.
Qed.

(** New entries put after those of a field. *)
Lemma put_slice db fid new : db_sorted db → Forall (λ e, fk_field_id e.1 = fid) new → db_sorted (field_slice db fid ++ new) →
  let db' := foldl (λ db e, db_put db e.1 e.2) db new in
  db_sorted db' ∧ field_slice db' fid = field_slice db fid ++ new ∧ ∀ fid', fid' ≠ fid → field_slice db' fid' = field_slice db fid'.
Proof.
  intros Hs Hnew Hsb. pose proof (field_slices db fid Hs) as Hsplit. set (A := filter (λ e, fk_field_id e.1 < fid) db) in *.
  set (B := filter (λ e, fid < fk_field_id e.1) db) in *.
  assert (HA : ∀ e, e ∈ A → fk_field_id e.1 < fid) by (by intros e [? _]%list_elem_of_filter).
  assert (HB : ∀ e, e ∈ B → fid < fk_field_id e.1) by (by intros e [? _]%list_elem_of_filter).
  assert (Hfield : ∀ e, e ∈ field_slice db fid ++ new → fk_field_id e.1 = fid).
  { rewrite Forall_forall in Hnew. intros e [[? _]%list_elem_of_filter|?]%elem_of_app; [done|by apply Hnew]. }
  assert (Hall : db_sorted (A ++ (field_slice db fid ++ new) ++ B)).
  { apply db_sorted_app. split_and!; [by apply db_sorted_filter| |].
    - apply db_sorted_app. split_and!; [done|by apply db_sorted_filter|]. intros x y Hx Hy. rewrite key_lt_spec. left.
      rewrite (Hfield x Hx). by apply HB.
    - intros x y Hx [Hy|Hy]%elem_of_app; rewrite key_lt_spec; left; specialize (HA x Hx); [rewrite (Hfield y Hy); done|specialize (HB y Hy); lia]. }
  assert (Hdb' : foldl (λ db e, db_put db e.1 e.2) db new = A ++ (field_slice db fid ++ new) ++ B).
  { pose proof (put_run new (A ++ field_slice db fid) B) as Hput. rewrite <-!app_assoc in Hput. rewrite <-Hsplit in Hput.
    rewrite <-app_assoc in Hall |- *. by apply Hput. }
  cbn zeta. rewrite Hdb'. split; [done|]. split.
  - unfold field_slice at 1. rewrite 2!filter_app, (list_filter_none _ A), (list_filter_none _ B), (list_filter_all _ (_ ++ new)).
    + by rewrite app_nil_r.
    + by apply Forall_forall.
    + apply Forall_forall. intros e He. specialize (HB e He). cbn. lia.
    + apply Forall_forall. intros e He. specialize (HA e He). cbn. lia.
  - intros fid' Hne. transitivity (field_slice (A ++ field_slice db fid ++ B) fid'); [|by rewrite <-Hsplit].
    unfold field_slice at 1 3. rewrite !filter_app, (list_filter_none _ new); [by rewrite app_nil_r|]. eapply Forall_impl; [exact Hnew|]. cbn. intros. lia.
Qed.

Section update.
Variables gs ms : Z.
Hypothesis Hgs : 1 ≤ gs ≤ 255.
Hypothesis Hms : 2 ≤ ms ≤ u64_max.

(** The levels of one field. *)
Lemma update_field_spec db fid : facet_db db → field_slice db fid = level_entries db fid 0 →
  ∃ readers, compute_levels_for_field_id gs ms fid db = Ok readers ∧
  let db' := foldl (λ db e, db_put db e.1 e.2) db (concat readers) in
  db_sorted db' ∧ built fid (level0_values db fid) (field_slice db' fid) ∧
  ∀ fid', fid' ≠ fid → field_slice db' fid' = field_slice db fid'.
Proof.
  intros Hdb Hslice. pose proof (level0_entry db fid Hdb) as Hentry.
  exists (levels_of gs ms fid 32 1 (all_groups gs (level0_values db fid))). split; [by apply compute_levels_spec|].
  set (new := concat _).
  assert (Hbuilt : built fid (level0_values db fid) ((entry fid 0 <$> level0_values db fid) ++ new) ∧
    db_sorted ((entry fid 0 <$> level0_values db fid) ++ new)).
  { destruct (decide (level0_values db fid = [])) as [He|Hne].
    - assert (new = []) as ->; [|rewrite He; split; [by left|constructor]]. unfold new. rewrite He.
      rewrite levels_of_none; [done|done|]. unfold kept. apply Z.leb_gt. cbn. lia.
    - destruct (levels_tree gs ms fid Hgs 32 0 (level0_values db fid)) as (h & F & Heq & Hl & Hok & HF & Hh);
        [by apply Forall_forall|done|]. rewrite all_leaves_0 in Hl.
      assert (Heq' : (entry fid 0 <$> level0_values db fid) ++ new = field_entries fid h F) by exact Heq. rewrite Heq'. split.
      + right. exists h, F. done.
      + apply field_entries_sorted; [done|]. rewrite Hl. by apply level0_sorted. }
  destruct Hbuilt as [Hbuilt Hsb]. rewrite <-Hentry, <-Hslice in Hbuilt, Hsb.
  assert (Hfield : Forall (λ e, fk_field_id e.1 = fid) new).
  { apply (Forall_app (λ e, fk_field_id e.1 = fid) (field_slice db fid) new).
    destruct Hbuilt as [[_ ->]|(h & F & -> & _)]; [constructor|]. eapply Forall_impl; [apply field_entries_below|]. tauto. }
  destruct (put_slice db fid new (fd_sorted _ Hdb) Hfield Hsb) as (H1 & H2 & H3). split_and!; [done|by rewrite H2|done].
Qed.

(** The levels of the fields, one after the other. *)
Lemma update_fields_spec fids : ∀ db, facet_db db → NoDup fids →
  (∀ fid, fid ∈ fids → field_slice db fid = level_entries db fid 0) →
  ∃ db', update_fields gs ms db fids = Ok db' ∧ facet_db db' ∧
    (∀ fid, fid ∈ fids → built fid (level0_values db fid) (field_slice db' fid)) ∧
    ∀ fid, fid ∉ fids → field_slice db' fid = field_slice db fid.
Proof.
  induction fids as [|fid fids IH]; intros db Hdb Hnd Hslice.
  { exists db. split_and!; [done|done|by intros fid ?%elem_of_nil|done]. }
  apply NoDup_cons in Hnd as [Hnin Hnd].
  destruct (update_field_spec db fid Hdb (Hslice fid ltac:(by left))) as (readers & Hr & Hs & Hb & Hother).
  cbn [update_fields]. rewrite Hr. cbn [mbind outcome_bind]. set (db1 := foldl _ db _) in *.
  assert (Hfd : facet_db db1).
  { constructor; [done|..]; intros e He; rewrite elem_of_slice in He;
      (destruct (decide (fk_field_id e.1 = fid)) as [Hf|Hf]; [rewrite Hf in He|rewrite Hother in He by done; apply elem_of_slice in He]).
    - destruct Hb as [[_ Hn]|(h & F & HF & _)]; [rewrite Hn in He; by apply elem_of_nil in He|].
      rewrite HF in He. by apply (field_entries_size fid h F).
    - by apply (fd_size _ Hdb).
    - destruct Hb as [[_ Hn]|(h & F & HF & _ & _ & _ & Hh)]; [rewrite Hn in He; by apply elem_of_nil in He|].
      rewrite HF in He. pose proof (field_entries_below fid h F) as Hbl. rewrite Forall_forall in Hbl.
      destruct (Hbl e He). lia.
    - by apply (fd_level _ Hdb). }
  destruct (IH db1 Hfd Hnd) as (db' & Hup & Hfd' & Hin & Hout).
  { intros fid' Hf. rewrite Hother by (intros ->; done). rewrite (Hslice fid' ltac:(by right)).
    unfold level_entries. rewrite <-(list_filter_filter_l (λ e, fk_field_id e.1 = fid' ∧ fk_level e.1 = O) (λ e, fk_field_id e.1 = fid') db) by tauto.
    rewrite <-(list_filter_filter_l (λ e, fk_field_id e.1 = fid' ∧ fk_level e.1 = O) (λ e, fk_field_id e.1 = fid') db1) by tauto.
    change (filter (λ e, fk_field_id e.1 = fid') ?d) with (field_slice d fid'). by rewrite Hother by (intros ->; done). }
  exists db'. split_and!; [done|done|..].
  - intros fid' [->|Hf]%elem_of_cons.
    + rewrite Hout by done. exact Hb.
    + specialize (Hin fid' Hf). rewrite level0_slice, Hother in Hin by (intros ->; done). by rewrite level0_slice.
  - intros fid' [Hne Hf]%not_elem_of_cons. rewrite Hout by done. by apply Hother.
Qed.
End update.

(** ** The values *)

Lemma b_lt_total x y : x = y ∨ b_lt x y = true ∨ b_lt y x = true.
Proof.
  unfold b_lt, b_le. rewrite !negb_true_iff, !bool_decide_eq_false.
  destruct (decide (String.le x y)) as [Hxy|Hxy]; [|tauto]. destruct (decide (String.le y x)) as [Hyx|Hyx]; [|tauto].
  left. by apply (anti_symm String.le).
Qed.

Lemma key_total k1 k2 : k1 = k2 ∨ key_lt k1 k2 = true ∨ key_lt k2 k1 = true.
Proof.
  rewrite !key_lt_spec. destruct k1 as [f1 l1 b1], k2 as [f2 l2 b2]; cbn.
  destruct (Z.lt_trichotomy f1 f2) as [?|[->|?]]; [tauto| |tauto].
  destruct (Nat.lt_trichotomy l1 l2) as [?|[->|?]]; [tauto| |tauto].
  destruct (b_lt_total b1 b2) as [->|[?|?]]; tauto.
Qed.

Lemma key_lt_asym k1 k2 : key_lt k1 k2 = true → key_lt k2 k1 = false.
Proof. intros H1. destruct (key_lt k2 k1) eqn:H2; [|done]. by rewrite <-(key_lt_irrefl k1), (key_lt_trans _ _ _ H1 H2). Qed.

Lemma key_eqb_spec k1 k2 : key_eqb k1 k2 = true ↔ k1 = k2.
Proof.
  unfold key_eqb. split.
  - intros [H1%negb_true_iff H2%negb_true_iff]%andb_true_iff. destruct (key_total k1 k2) as [?|[?|?]]; congruence.
  - intros ->. by rewrite key_lt_irrefl.
Qed.

Lemma find_filter {A} (f : A → bool) (P : A → Prop) `{!∀ x, Decision (P x)} l :
  ((∀ x, f x = true → P x) → find f (filter P l) = find f l) ∧ ((∀ x, f x = true → ¬ P x) → find f (filter P l) = None).
Proof.
  induction l as [|x l [IH1 IH2]]; [done|]. rewrite filter_cons. split; intros HP; destruct (f x) eqn:Hf; case_decide as Hx; cbn;
    rewrite ?Hf; try done; try (by apply IH1); try (by apply IH2).
  - exfalso. by apply Hx, HP.
  - exfalso. by eapply HP.
Qed.

Lemma find_app {A} (f : A → bool) l r : find f (l ++ r) = match find f l with Some x => Some x | None => find f r end.
Proof. induction l as [|x l IH]; [done|]. cbn. by destruct (f x). Qed.

Lemma db_get_put db k v k' : db_get (db_put db k v) k' = if bool_decide (k' = k) then Some v else db_get db k'.
Proof.
  unfold db_get, db_put. rewrite find_app. cbn [find fst]. case_bool_decide as Hk.
  - subst. rewrite (proj2 (find_filter (λ e, key_eqb e.1 k) _ db)); [|intros e He%key_eqb_spec; rewrite He; by rewrite key_lt_irrefl].
    by rewrite (proj2 (key_eqb_spec k k)).
  - destruct (key_eqb k k') eqn:He; [apply key_eqb_spec in He; congruence|].
    destruct (key_total k' k) as [?|[Hlt|Hlt]]; [done|..].
    + rewrite (proj1 (find_filter (λ e, key_eqb e.1 k') _ db)) by (intros e ->%key_eqb_spec; done).
      destruct (find _ db) eqn:Hf; [done|].
      rewrite (proj2 (find_filter (λ e, key_eqb e.1 k') _ db)); [done|]. intros e ->%key_eqb_spec. by rewrite (key_lt_asym _ _ Hlt).
    + rewrite (proj2 (find_filter (λ e, key_eqb e.1 k') _ db)) by (intros e ->%key_eqb_spec; by rewrite (key_lt_asym _ _ Hlt)).
      by rewrite (proj1 (find_filter (λ e, key_eqb e.1 k') _ db)) by (intros e ->%key_eqb_spec; done).
Qed.

Lemma db_get_delete db k k' : db_get (db_delete db k) k' = if bool_decide (k' = k) then None else db_get db k'.
Proof.
  unfold db_get, db_delete. case_bool_decide as Hk.
  - subst. by rewrite (proj2 (find_filter (λ e, key_eqb e.1 k) _ db)) by (intros e ->; done).
  - rewrite (proj1 (find_filter (λ e, key_eqb e.1 k') _ db)); [done|]. intros e ->%key_eqb_spec.
    destruct (key_eqb k' k) eqn:He; [by apply key_eqb_spec in He|done].
Qed.

(** The documents of a key. *)
Definition docids_of (db : FacetDb) (k : FacetGroupKey) : bitmap := from_option fv_bitmap ∅ (db_get db k).

Lemma update_value_docids db k d k' :
  docids_of (update_value db (k, d)) k' =
    if bool_decide (k' = k) && valid_lmdb_key k then merge_deladd d (docids_of db k) else docids_of db k'.
Proof.
  unfold update_value. destruct (valid_lmdb_key k) eqn:Hv; cbn [negb]; [|by rewrite andb_false_r].
  rewrite andb_true_r. set (new := match db_get db k with Some previous => _ | None => _ end).
  assert (Hnew : from_option id ∅ new = merge_deladd d (docids_of db k) ∧ (new = None → db_get db k = None)).
  { unfold new, docids_of, merge_deladd. destruct (db_get db k) as [p|]; [done|]. cbn.
    destruct (da_deletion d), (da_addition d); cbn; (split; [|done]); set_solver. }
  destruct Hnew as [Hnew Hnone]. destruct new as [b|]; cbn in Hnew.
  - subst. unfold bm_is_empty. case_bool_decide as Hb; unfold docids_of; [rewrite db_get_delete|rewrite db_get_put];
      case_bool_decide; cbn; done.
  - case_bool_decide as Hk; [|done]. subst. unfold docids_of in *. rewrite Hnone in * by done. done.
Qed.

(** The change of a key. *)
Definition change_of (delta : list (FacetGroupKey * DelAdd)) (k : FacetGroupKey) : option DelAdd :=
  snd <$> find (λ c, key_eqb c.1 k) delta.

(** The documents of a key after the changes [delta]. *)
Definition changed (delta : list (FacetGroupKey * DelAdd)) (db : FacetDb) (k : FacetGroupKey) : bitmap :=
  match change_of delta k with
  | Some d => if valid_lmdb_key k then merge_deladd d (docids_of db k) else docids_of db k
  | None => docids_of db k
  end.

(** The changes: of values, by increasing key. *)
Record delta_ok (delta : list (FacetGroupKey * DelAdd)) : Prop := {
  dl_level : ∀ c, c ∈ delta → fk_level c.1 = O;
  dl_sorted : StronglySorted (λ x y, key_lt x.1 y.1 = true) delta;
}.

Lemma change_of_later k d delta : StronglySorted (λ x y, key_lt x.1 y.1 = true) ((k, d) :: delta) → change_of delta k = None.
Proof.
  intros [_ Hk]%StronglySorted_inv. unfold change_of. destruct (find _ delta) as [[k' d']|] eqn:Hf; [|done].
  apply find_some in Hf as [Hin He%key_eqb_spec]. cbn in He. subst. rewrite Forall_forall in Hk.
  apply list_elem_of_In in Hin. specialize (Hk _ Hin). cbn in Hk. by rewrite key_lt_irrefl in Hk.
Qed.

Lemma change_of_cons k d delta k' :
  change_of ((k, d) :: delta) k' = if bool_decide (k' = k) then Some d else change_of delta k'.
Proof.
  unfold change_of. cbn [find fst]. case_bool_decide as Hk; [subst; by rewrite (proj2 (key_eqb_spec k k))|].
  destruct (key_eqb k k') eqn:He; [|done]. apply key_eqb_spec in He. congruence.
Qed.

Lemma update_values_docids delta : ∀ db k, StronglySorted (λ x y, key_lt x.1 y.1 = true) delta →
  docids_of (foldl update_value db delta) k = changed delta db k.
Proof.
  induction delta as [|[k d] delta IH]; intros db k' Hs; [done|]. cbn [foldl].
  pose proof (change_of_later _ _ _ Hs) as Hl. apply StronglySorted_inv in Hs as [Hs _]. rewrite IH by done.
  unfold changed. rewrite change_of_cons, !update_value_docids. case_bool_decide as Hk; [|by rewrite andb_false_l].
  subst. rewrite Hl. cbn [andb]. by destruct (valid_lmdb_key k).
Qed.

Lemma facet_db_put db k v : facet_db db → fk_level k = O → fv_size v = 1 → facet_db (db_put db k v).
Proof.
  intros [Hs H1 H2] Hk Hv. constructor.
  - unfold db_put. apply db_sorted_app. split_and!; [by apply db_sorted_filter| |].
    + constructor; [by apply db_sorted_filter|]. apply Forall_forall. by intros x [? _]%list_elem_of_filter.
    + intros x y [Hx _]%list_elem_of_filter [->|[Hy _]%list_elem_of_filter]%elem_of_cons; [done|].
      by eapply key_lt_trans.
  - unfold db_put. intros e [[_ He]%list_elem_of_filter|[->|[_ He]%list_elem_of_filter]%elem_of_cons]%elem_of_app; eauto.
  - unfold db_put. intros e [[_ He]%list_elem_of_filter|[->|[_ He]%list_elem_of_filter]%elem_of_cons]%elem_of_app;
      [by apply H2|cbn; lia|by apply H2].
Qed.

Lemma update_values_ok delta : ∀ db, facet_db db → (∀ c, c ∈ delta → fk_level c.1 = O) →
  facet_db (foldl update_value db delta).
Proof.
  induction delta as [|[k d] delta IH]; intros db Hdb Hl; [done|]. cbn [foldl]. apply IH; [|intros c Hc; apply Hl; by right].
  unfold update_value. destruct (negb _); [done|]. destruct (match db_get db k with Some p => _ | None => _ end); [|done].
  destruct (bm_is_empty _); [by apply facet_db_filter|]. apply facet_db_put; [done| |done]. by apply (Hl (k, d)); left.
Qed.

Lemma append_is_put db k v : (∀ e, e ∈ db → key_lt e.1 k = true) → db ++ [(k, v)] = db_put db k v ∧ db_get db k = None.
Proof.
  intros Hlt. unfold db_put. rewrite list_filter_all by (by apply Forall_forall).
  rewrite list_filter_none by (apply Forall_forall; intros e He; by rewrite (key_lt_asym _ _ (Hlt e He))). split; [done|].
  unfold db_get. destruct (find _ db) as [[k' v']|] eqn:Hf; [|done]. apply find_some in Hf as [Hin He%key_eqb_spec].
  cbn in He. subst. apply list_elem_of_In in Hin. specialize (Hlt _ Hin). cbn in Hlt. by rewrite key_lt_irrefl in Hlt.
Qed.

Lemma append_value_docids db k d k' : (∀ e, e ∈ db → key_lt e.1 k = true) →
  docids_of (append_value db (k, d)) k' =
    if bool_decide (k' = k) && valid_lmdb_key k then merge_deladd d (docids_of db k) else docids_of db k'.
Proof.
  intros Hlt. unfold append_value. destruct (valid_lmdb_key k); cbn [negb]; [|by rewrite andb_false_r]. rewrite andb_true_r.
  destruct (append_is_put db k (mkFacetGroupValue 1 (default ∅ (da_addition d))) Hlt) as [Heq Hn].
  unfold docids_of. rewrite Hn. unfold merge_deladd. destruct (da_addition d) as [b|]; cbn [default from_option] in Heq.
  - cbn in Heq. rewrite Heq, db_get_put. case_bool_decide; [|done]. cbn. destruct (da_deletion d); set_solver.
  - case_bool_decide; [|done]. subst. rewrite Hn. cbn. destruct (da_deletion d); set_solver.
Qed.

(** On an empty database the entries are appended. *)
Lemma append_values_spec delta : ∀ db, facet_db db → delta_ok delta →
  (∀ e c, e ∈ db → c ∈ delta → key_lt e.1 c.1 = true) →
  facet_db (foldl append_value db delta) ∧ ∀ k, docids_of (foldl append_value db delta) k = changed delta db k.
Proof.
  induction delta as [|[k d] delta IH]; intros db Hdb [Hlv Hs] Hlt; [done|]. cbn [foldl].
  assert (Hk : ∀ e, e ∈ db → key_lt e.1 k = true) by (intros e He; apply (Hlt e (k, d)); [done|by left]).
  pose proof (change_of_later _ _ _ Hs) as Hl. apply StronglySorted_inv in Hs as [Hs Hall]. rewrite Forall_forall in Hall.
  destruct (IH (append_value db (k, d))) as [Hok Hget].
  - unfold append_value. destruct (negb _); [done|]. destruct (da_addition d) as [b|]; [|done].
    rewrite (proj1 (append_is_put db k _ Hk)). apply facet_db_put; [done| |done]. by apply (Hlv (k, d)); left.
  - split; [|done]. intros c Hc. apply Hlv. by right.
  - intros e c He Hc. unfold append_value in He. destruct (negb _); [apply Hlt; [done|by right]|].
    destruct (da_addition d); [|apply Hlt; [done|by right]].
    apply elem_of_app in He as [He| ->%list_elem_of_singleton]; [apply Hlt; [done|by right]|by apply Hall].
  - split; [done|]. intros k'. rewrite Hget. unfold changed. rewrite change_of_cons, !append_value_docids by done.
    case_bool_decide as Hk'; [|by rewrite andb_false_l]. subst. rewrite Hl. cbn [andb]. by destruct (valid_lmdb_key k).
Qed.

(** [update_level0] makes the changes. *)
Lemma update_level0_spec db delta : facet_db db → delta_ok delta →
  facet_db (update_level0 db (Some delta)) ∧ ∀ k, docids_of (update_level0 db (Some delta)) k = changed delta db k.
Proof.
  intros Hdb [Hlv Hs]. unfold update_level0. case_bool_decide as He.
  - subst. apply append_values_spec; [done|done|]. by intros e c ?%elem_of_nil.
  - split; [by apply update_values_ok|]. intros k. by apply update_values_docids.
Qed.

(** The values of a field tell the documents of its keys. *)
Lemma docids_of_values db db' fid x : facet_db db → facet_db db' → level0_values db fid = level0_values db' fid →
  docids_of db (mkFacetGroupKey fid 0 x) = docids_of db' (mkFacetGroupKey fid 0 x).
Proof.
  intros Hdb Hdb' Heq. assert (Hget : ∀ d, db_get d (mkFacetGroupKey fid 0 x) = db_get (level_entries d fid 0) (mkFacetGroupKey fid 0 x)).
  { intros d. unfold db_get, level_entries. rewrite (proj1 (find_filter (λ e, key_eqb e.1 _) _ d)); [done|].
    by intros e ->%key_eqb_spec. }
  unfold docids_of. rewrite (Hget db), (Hget db'), !level0_entry by done. by rewrite Heq.
Qed.

(** The groups built are those the searches need. *)
Lemma grouped_tree n db fid values : facet_db db → Z.of_nat (length db) ≤ u64_max → grouped n fid values (field_slice db fid) →
  (level0_values db fid = [] ∧ get_first_facet_value db fid = None) ∨
  ∃ h F, facet_tree fid db h F ∧ all_leaves h F = level0_values db fid.
Proof.
  intros Hdb Hlen Hb. pose proof (grouped_values _ _ _ _ Hb) as Hv. rewrite <-level0_slice in Hv.
  destruct Hb as [[-> Hs]|(h & F & Hs & Hl & Hok & Hne & _)].
  - left. split; [done|]. unfold get_first_facet_value, level0_bounds. unfold level0_values in Hv.
    by destruct (filter _ db).
  - right. exists h, F. rewrite Hl. split; [|done]. constructor; try done.
    + exists (filter (λ e, fk_field_id e.1 < fid) db), (filter (λ e, fid < fk_field_id e.1) db).
      rewrite <-Hs. split; [by apply field_slices, fd_sorted|]. split; apply Forall_forall; by intros e [? _]%list_elem_of_filter.
    + rewrite Hl, <-Hv. by apply level0_sorted.
Qed.

(** The levels of some fields, from the values there are. *)
Lemma bulk_levels_spec gs ms db fids : 1 ≤ gs ≤ 255 → 2 ≤ ms ≤ u64_max → facet_db db → NoDup fids →
  ∃ db', update_fields gs ms (clear_facet_levels db fids) fids = Ok db' ∧ facet_db db' ∧
    (∀ fid, level0_values db' fid = level0_values db fid) ∧
    (∀ fid, fid ∈ fids → built fid (level0_values db fid) (field_slice db' fid)) ∧
    ∀ fid, fid ∉ fids → field_slice db' fid = field_slice db fid.
Proof.
  intros Hgs Hms Hdb Hnd. rewrite clear_facet_levels_spec by done.
  set (db2 := filter _ db). assert (Hdb2 : facet_db db2) by (by apply facet_db_filter).
  assert (Hsame : ∀ fid, level0_values db2 fid = level0_values db fid).
  { intros fid. unfold level0_values, db2. rewrite list_filter_filter. f_equal. apply list_filter_ext. intros e _. tauto. }
  destruct (update_fields_spec gs ms Hgs Hms fids db2 Hdb2 Hnd) as (db' & Hup & Hdb' & Hin & Hout).
  { intros fid Hf. unfold field_slice, level_entries, db2. rewrite !list_filter_filter. apply list_filter_ext. intros e _.
    split; [|tauto]. intros [He [?|Hn]]; [tauto|]. rewrite He in Hn. done. }
  exists db'. split_and!; [done|done|..].
  - intros fid. rewrite <-Hsame, level0_slice. destruct (decide (fid ∈ fids)) as [Hf|Hf].
    + apply (grouped_values 32 fid _ _ (Hin fid Hf)).
    + by rewrite Hout, <-level0_slice by done.
  - intros fid Hf. rewrite <-Hsame. by apply Hin.
  - intros fid Hf. rewrite Hout by done. unfold field_slice, db2. rewrite list_filter_filter. apply list_filter_ext. intros e _.
    split; [tauto|]. intros He. split; [done|]. right. by rewrite He.
Qed.

(** C4. A bulk update of facets succeeds, whatever the group size and the
    least size of a level: the values of the fields become those of the changes,
    and for each field given its levels are groups of these values, as the
    searches need them; the values of the other fields stay. *)
Theorem bulk_update_groups gs ms db delta fids :
  1 ≤ gs ≤ 255 → 2 ≤ ms ≤ u64_max → facet_db db → delta_ok delta → NoDup fids →
  ∃ db', bulk_update gs ms db (Some delta) fids = Ok db' ∧ facet_db db' ∧
  (∀ fid x, docids_of db' (mkFacetGroupKey fid 0 x) = changed delta db (mkFacetGroupKey fid 0 x)) ∧
  (∀ fid, fid ∈ fids → Z.of_nat (length db') ≤ u64_max →
    (level0_values db' fid = [] ∧ get_first_facet_value db' fid = None) ∨
    ∃ h F, facet_tree fid db' h F ∧ all_leaves h F = level0_values db' fid).
Proof.
  intros Hgs Hms Hdb Hdelta Hnd. destruct (update_level0_spec db delta Hdb Hdelta) as [Hdb1 Hdocs].
  destruct (bulk_levels_spec gs ms (update_level0 db (Some delta)) fids Hgs Hms Hdb1 Hnd) as (db' & Hup & Hdb' & Hval & Hin & _).
  exists db'. split; [done|]. split; [done|]. split.
  - intros fid x. rewrite <-Hdocs. by apply docids_of_values.
  - intros fid Hf Hlen. eapply grouped_tree; [done|done|by apply Hin].
Qed.

(** Six values of a field, and their levels with groups of two. *)
Definition sample_delta : list (FacetGroupKey * DelAdd) :=
  (λ x, (mkFacetGroupKey 5 0 x, mkDelAdd None (Some {[1; 2]}))) <$> ["a"; "b"; "c"; "d"; "e"; "f"].

Lemma bulk_update_groups_witness :
  delta_ok sample_delta ∧ ∃ db', bulk_update 2 2 [] (Some sample_delta) [5] = Ok db' ∧
    get_highest_level db' 5 = 2%nat ∧ docids_of db' (mkFacetGroupKey 5 0 "c") = {[1; 2]}.
Proof.
  assert (Hd : delta_ok sample_delta).
  { split; [|repeat constructor; vm_compute; reflexivity].
    intros c Hc. unfold sample_delta in Hc. apply list_elem_of_fmap in Hc as (x & -> & _). done. }
  split; [exact Hd|].
  destruct (bulk_update_groups 2 2 [] sample_delta [5]) as (db' & Hup & _ & Hdocs & _);
    [lia|unfold u64_max; lia|constructor; [constructor|by intros ? ?%elem_of_nil|by intros ? ?%elem_of_nil]|exact Hd|
     apply NoDup_singleton|].
  exists db'. split; [exact Hup|]. split; [|rewrite Hdocs; vm_compute; reflexivity].
  vm_compute in Hup. injection Hup as <-. vm_compute. reflexivity.
Defined.
