(* ===== verification/FacetIncremental.v ===== *)
(** * Incremental update of the levels of facets

    [crates/milli-core/src/update/facet/new_incremental.rs]: once the values of
    a field (level 0) are written, the groups of the higher levels that hold a
    changed value are computed again, level by level, then a level is added or
    removed at the top.

    The levels of a field that were groups of the previous values become groups
    of the new ones: [execute_groups]. *)

From S2P Require Import Prelude TaskTypes SchedUtils Ids Facet FacetSort FacetBulk.
From Stdlib Require Import Ascii.
From Stdlib Require String.
Open Scope Z_scope.

(** ** The code *)

(** A value that changed. *)
Record FacetFieldIdChange := mkFacetFieldIdChange { facet_value : string }.

(** [valid_facet_value], with [MAX_LMDB_KEY_LENGTH = 500]. *)
Definition valid_facet_value (v : string) : bool := (String.length v <=? 500 - 3)%nat && negb (String.length v =? 0)%nat.

(** [db.range] between two bounds. *)
Definition key_after (b : Bound FacetGroupKey) (k : FacetGroupKey) : bool :=
  match b with Included b => negb (key_lt k b) | Excluded b => key_lt b k | Unbounded => true end.
Definition db_range_bounds (db : FacetDb) (left right : Bound FacetGroupKey) : FacetDb :=
  filter (λ e, key_after left e.1 && key_before right e.1 = true) db.

(** [db.get_greater_than]. *)
Definition db_get_greater_than (db : FacetDb) (k : FacetGroupKey) : option (FacetGroupKey * FacetGroupValue) :=
  head (filter (λ e, key_lt k e.1 = true) db).

(** What a loop with fuel gives when there is not enough. *)
Inductive Stuck := OutOfFuel.

Section incremental.
Variables group_size min_level_size max_group_size : Z.
Variable field_id : Z.

Local Notation key := (mkFacetGroupKey field_id).

(** The number of children put in the next group. *)
Definition pick_group_size (child_count : Z) : Z :=
  if max_group_size * 2 <=? child_count then max_group_size
  else if group_size <=? child_count then child_count / 2
  else child_count.

(** The [try_fold] on the children of a group: its bounds and its value. *)
Definition fold_group (children : FacetDb) : option (string * string) * FacetGroupValue :=
  foldl (λ '(bounds, group_value) '(child_key, child_value),
    (match bounds with
     | Some (left_bound, _) => Some (left_bound, fk_left_bound child_key)
     | None => Some (fk_left_bound child_key, fk_left_bound child_key)
     end,
     mkFacetGroupValue ((fv_size group_value + 1) mod 256) (fv_bitmap group_value ∪ fv_bitmap child_value)))
    (None, mkFacetGroupValue 0 ∅) children.

(** The loop of [compute_parent_group]. *)
Fixpoint compute_group_loop (fuel : nat) (db : FacetDb) (parent_level child_level : nat) (range_left_bound : string)
    (child_left_bound child_right_bound : Bound FacetGroupKey) : outcome Stuck FacetDb :=
  match fuel with
  | O => Err OutOfFuel
  | S fuel =>
      let range := db_range_bounds db child_left_bound child_right_bound in
      let child_count := Z.of_nat (length (ztake (max_group_size * 2) range)) in
      let children :=
        take_while (λ e, (fk_field_id e.1 =? field_id) && (fk_level e.1 =? child_level)%nat)
          (ztake (pick_group_size child_count) range) in
      match fold_group children with
      | (None, _) =>
          Ok (match child_left_bound with
              | Included _ => db_delete db (key parent_level range_left_bound)
              | _ => db
              end)
      | (Some (current_left_bound, right_bound), group_value) =>
          let delete_old_bound :=
            match child_left_bound with
            | Included bound => if negb (fk_left_bound bound =? current_left_bound)%string then Some range_left_bound else None
            | _ => None
            end in
          let db := match delete_old_bound with Some old => db_delete db (key parent_level old) | None => db end in
          let db :=
            if bm_is_empty (fv_bitmap group_value) then db_delete db (key parent_level current_left_bound)
            else db_put db (key parent_level current_left_bound) group_value in
          compute_group_loop fuel db parent_level child_level right_bound (Excluded (key child_level right_bound)) child_right_bound
      end
  end.

(** [compute_parent_group]; every turn of the loop but the last takes an entry. *)
Definition compute_parent_group (db : FacetDb) (parent_level : nat) (parent_left_bound : string) : outcome Stuck FacetDb :=
  match parent_level with
  | O => Ok db
  | S child_level =>
      let child_right_bound :=
        match db_get_greater_than db (key parent_level parent_left_bound) with
        | Some (k, _) =>
            if negb (fk_level k =? parent_level)%nat || negb (fk_field_id k =? field_id) then Unbounded
            else Excluded (key child_level (fk_left_bound k))
        | None => Unbounded
        end in
      compute_group_loop (S (length db)) db parent_level child_level parent_left_bound
        (Included (key child_level parent_left_bound)) child_right_bound
  end.

(** The groups of several children. *)
Definition compute_parent_groups (db : FacetDb) (level : nat) (children : list FacetFieldIdChange) : outcome Stuck FacetDb :=
  for_each (λ db child, compute_parent_group db level (facet_value child)) db children.

(** The loop on the children of a level: the parents that changed, or [None] to
    return from the function. *)
Fixpoint current_level (db : FacetDb) (child_level : nat) (child_it : list FacetFieldIdChange)
    (last_parent : option string) (changed_parents : list FacetFieldIdChange)
    : outcome Stuck (FacetDb * option (list FacetFieldIdChange)) :=
  let parent_level := S child_level in
  match child_it with
  | [] => Ok (db, Some changed_parents)
  | child :: child_it =>
      if (match last_parent with Some p => b_le p (facet_value child) | None => false end) then
        db ← compute_parent_group db child_level (facet_value child);
        current_level db child_level child_it last_parent changed_parents
      else
        match head (reverse (db_range_bounds db (Excluded (key parent_level "")) (Included (key parent_level (facet_value child))))) with
        | Some (parent_key, _) =>
            let p := fk_left_bound parent_key in
            db ← compute_parent_group db child_level (facet_value child);
            current_level db child_level child_it (Some p) (changed_parents ++ [mkFacetFieldIdChange p])
        | None =>
            match head (level_entries db field_id parent_level) with
            | Some (first_key, _) =>
                if negb (fk_field_id first_key =? field_id) || negb (fk_level first_key =? parent_level)%nat then
                  db ← compute_parent_group db child_level (facet_value child);
                  db ← compute_parent_groups db child_level child_it;
                  Ok (db, None)
                else
                  let db := db_delete db first_key in
                  db ← compute_parent_group db child_level (facet_value child);
                  db ← compute_parent_groups db child_level child_it;
                  Ok (db, Some (changed_parents ++ [default child (last child_it)]))
            | None =>
                db ← compute_parent_group db child_level (facet_value child);
                db ← compute_parent_groups db child_level child_it;
                Ok (db, None)
            end
        end
  end.

(** [find_changed_parents], from [child_level] on, for [n] levels. *)
Fixpoint find_changed_parents_from (n : nat) (db : FacetDb) (child_level : nat) (changed_children : list FacetFieldIdChange)
    : outcome Stuck FacetDb :=
  match n with
  | O => Ok db
  | S n =>
      '(db, changed_parents) ←
        current_level db child_level (filter (λ child, valid_facet_value (facet_value child) = true) changed_children) None [];
      match changed_parents with
      | None | Some [] => Ok db
      | Some changed_parents => find_changed_parents_from n db (S child_level) changed_parents
      end
  end.
Definition find_changed_parents (db : FacetDb) (changed_children : list FacetFieldIdChange) : outcome Stuck FacetDb :=
  find_changed_parents_from 255 db 0 changed_children.

(** [delete_level]. *)
Definition delete_level (db : FacetDb) (level : nat) : FacetDb :=
  foldl db_delete db (fst <$> level_entries db field_id level).

(** [n] entries of the level, for one group: its first bound, its documents, and
    the entries after. *)
Fixpoint next_group (n : nat) (groups_iter : FacetDb) (first_key : option string) (values : bitmap)
    : outcome Stuck (option string * bitmap * FacetDb) :=
  match n with
  | O => Ok (first_key, values, groups_iter)
  | S n =>
      '((key_i, value_i), groups_iter) ← (match groups_iter with e :: it => Ok (e, it) | [] => Panic end);
      next_group n groups_iter (Some (default (fk_left_bound key_i) first_key)) (values ∪ fv_bitmap value_i)
  end.

Definition new_group (highest_level : nat) (n : nat) (groups_iter : FacetDb)
    : outcome Stuck ((FacetGroupKey * FacetGroupValue) * FacetDb) :=
  '(first_key, values, groups_iter) ← next_group n groups_iter None ∅;
  first_key ← unwrap first_key;
  Ok ((key (Nat.modulo (highest_level + 1) 256) first_key, mkFacetGroupValue (Z.of_nat n mod 256) values), groups_iter).

Fixpoint new_groups (highest_level : nat) (nbr_new_groups : nat) (groups_iter : FacetDb) (to_add : FacetDb)
    : outcome Stuck (FacetDb * FacetDb) :=
  match nbr_new_groups with
  | O => Ok (to_add, groups_iter)
  | S nbr =>
      '(group, groups_iter) ← new_group highest_level (Z.to_nat group_size) groups_iter;
      new_groups highest_level nbr groups_iter (to_add ++ [group])
  end.

(** [add_level]. *)
Definition add_level (db : FacetDb) (highest_level : nat) (size_highest_level : Z) : outcome Stuck FacetDb :=
  if group_size =? 0 then Panic
  else
    let groups_iter := level_entries db field_id highest_level in
    let nbr_new_groups := size_highest_level / group_size in
    let nbr_leftover_elements := size_highest_level mod group_size in
    '(to_add, groups_iter) ← new_groups highest_level (Z.to_nat nbr_new_groups) groups_iter [];
    to_add ←
      (if 0 <? nbr_leftover_elements then
        '(group, _) ← new_group highest_level (Z.to_nat nbr_leftover_elements) groups_iter;
        Ok (to_add ++ [group])
      else Ok to_add);
    Ok (foldl (λ db e, db_put db e.1 e.2) db to_add).

(** [add_or_delete_level]. *)
Definition add_or_delete_level (db : FacetDb) : outcome Stuck FacetDb :=
  let highest_level := get_highest_level db field_id in
  let size_highest_level := Z.of_nat (length (level_entries db field_id highest_level)) in
  if group_size * min_level_size <=? size_highest_level then add_level db highest_level size_highest_level
  else if (size_highest_level <? min_level_size) && negb (highest_level =? 0)%nat then Ok (delete_level db highest_level)
  else Ok db.

(** The changes, in the reverse order of their values. *)
Definition after_change (x y : FacetFieldIdChange) : Prop := b_le (facet_value y) (facet_value x) = true.
#[global] Instance after_change_dec : RelDecision after_change.
Proof. intros x y. unfold after_change. apply _. Defined.

(** [FacetsUpdateIncremental::execute]. *)
Definition execute (db : FacetDb) (delta_data : list FacetFieldIdChange) : outcome Stuck FacetDb :=
  match delta_data with
  | [] => Ok db
  | _ => db ← find_changed_parents db (merge_sort after_change delta_data); add_or_delete_level db
  end.
End incremental.

(** ** Sorted levels

    A level of a field is the sorted list of its bounds and values. *)

Notation lvl := (list (string * FacetGroupValue)).

Definition lsorted (L : lvl) : Prop := StronglySorted (λ x y, b_lt x.1 y.1 = true) L.

Lemma b_lt_asym x y : b_lt x y = true → b_lt y x = false.
Proof. intros H1. destruct (b_lt y x) eqn:H2; [|done]. by rewrite <-(b_lt_irrefl x), (b_lt_trans _ _ _ H1 H2). Qed.

Lemma b_le_cases x y : b_le x y = true ↔ x = y ∨ b_lt x y = true.
Proof.
  rewrite b_le_not_lt, negb_true_iff. split.
  - intros Hn. destruct (b_lt_total x y) as [?|[?|?]]; [tauto|tauto|congruence].
  - intros [->|?]; [apply b_lt_irrefl|by apply b_lt_asym].
Qed.

Lemma StronglySorted_ext {A} (R : A → A → Prop) (l1 l2 : list A) : (∀ x, ¬ R x x) → (∀ x y, R x y → ¬ R y x) →
  StronglySorted R l1 → StronglySorted R l2 → (∀ x, x ∈ l1 ↔ x ∈ l2) → l1 = l2.
Proof.
  intros Hirr Hasym Hs1. revert l2. induction Hs1 as [|x l1 Hs1 IH Hx]; intros l2 Hs2 Heq.
  { destruct l2 as [|y l2]; [done|]. specialize (Heq y). set_solver. }
  destruct l2 as [|y l2]; [specialize (Heq x); set_solver|].
  apply StronglySorted_inv in Hs2 as [Hs2 Hy]. rewrite Forall_forall in Hx, Hy.
  assert (x = y) as ->.
  { assert (Hxin : x ∈ y :: l2) by (apply Heq; by left). assert (Hyin : y ∈ x :: l1) by (apply Heq; by left).
    apply elem_of_cons in Hxin as [|Hxin]; [done|]. apply elem_of_cons in Hyin as [|Hyin]; [done|].
    destruct (Hasym x y); [by apply Hx|by apply Hy]. }
  f_equal. apply IH; [done|]. intros z. specialize (Heq z). rewrite !elem_of_cons in Heq. split; intros Hz.
  - destruct (proj1 Heq (or_intror Hz)) as [->|?]; [destruct (Hirr y); by apply Hx|done].
  - destruct (proj2 Heq (or_intror Hz)) as [->|?]; [destruct (Hirr y); by apply Hy|done].
Qed.

Lemma lsorted_ext L1 L2 : lsorted L1 → lsorted L2 → (∀ e, e ∈ L1 ↔ e ∈ L2) → L1 = L2.
Proof.
  apply StronglySorted_ext; [intros x; by rewrite b_lt_irrefl|]. intros x y H1. by rewrite (b_lt_asym _ _ H1).
Qed.

Lemma db_sorted_ext db1 db2 : db_sorted db1 → db_sorted db2 → (∀ e, e ∈ db1 ↔ e ∈ db2) → db1 = db2.
Proof.
  apply StronglySorted_ext; [intros x; by rewrite key_lt_irrefl|]. intros x y H1. by rewrite (key_lt_asym _ _ H1).
Qed.

Lemma lsorted_app A B : lsorted (A ++ B) ↔ lsorted A ∧ lsorted B ∧ ∀ x y, x ∈ A → y ∈ B → b_lt x.1 y.1 = true.
Proof. unfold lsorted. rewrite StronglySorted_app. tauto. Qed.

Lemma lsorted_filter (P : string * FacetGroupValue → Prop) `{!∀ x, Decision (P x)} L : lsorted L → lsorted (filter P L).
Proof. apply StronglySorted_filter. Qed.

(** ** Groups of a level *)

(** The group of consecutive entries. *)
Definition group (S : lvl) : string * FacetGroupValue :=
  (default "" (fst <$> head S), mkFacetGroupValue (Z.of_nat (length S)) (⋃ ((λ e, fv_bitmap e.2) <$> S))).

(** [P] groups the entries of [C]. *)
Definition grouping (C P : lvl) : Prop :=
  ∃ segs, Forall (λ S, S ≠ []) segs ∧ concat segs = C ∧ P = group <$> segs.

(** The entries from a bound to another, and the next bound of a level. *)
Definition between_bounds (lo : string) (hi : option string) (k : string) : bool :=
  b_le lo k && match hi with Some h => b_lt k h | None => true end.
Definition from_to (lo : string) (hi : option string) (L : lvl) : lvl := filter (λ e, between_bounds lo hi e.1 = true) L.
Definition next_bound_of (P : lvl) (d : string) : option string := fst <$> head (filter (λ e, b_lt d e.1 = true) P).

(** What [compute_parent_group] does of a level: the children between [d] and
    the next bound are grouped again. *)
Definition regrouped (C P : lvl) (d : string) (P' : lvl) : Prop :=
  ∃ segs, Forall (λ S, S ≠ []) segs ∧ concat segs = from_to d (next_bound_of P d) C ∧
    P' = filter (λ e, b_lt e.1 d = true) P ++ (group <$> segs) ++ filter (λ e, b_lt d e.1 = true) P.

Inductive recomputed (C : lvl) : lvl → list string → lvl → Prop :=
  | recomputed_nil P : recomputed C P [] P
  | recomputed_cons P d P1 D P2 : regrouped C P d P1 → recomputed C P1 D P2 → recomputed C P (d :: D) P2.

Lemma recomputed_app C P D1 D2 P' : recomputed C P (D1 ++ D2) P' ↔ ∃ Pm, recomputed C P D1 Pm ∧ recomputed C Pm D2 P'.
Proof.
  split.
  - revert P. induction D1 as [|d D1 IH]; intros P; cbn [app]; [intros H; exists P; split; [constructor|done]|].
    intros H. inversion H as [|?? P1 ?? Hr Hrest]; subst. destruct (IH P1 Hrest) as (Pm & H1 & H2).
    exists Pm. split; [by econstructor|done].
  - intros (Pm & H1 & H2). induction H1 as [|P d P1 D P2 Hr _ IH]; [done|]. cbn [app]. econstructor; [exact Hr|by apply IH].
Qed.

Lemma elem_of_concat {A} (x : A) l : x ∈ concat l ↔ ∃ y, y ∈ l ∧ x ∈ y.
Proof. setoid_rewrite list_elem_of_In. rewrite in_concat. done. Qed.

Lemma group_key S : S ≠ [] → ∃ e S', S = e :: S' ∧ (group S).1 = e.1.
Proof. destruct S as [|e S]; [done|]. intros _. by exists e, S. Qed.

Lemma group_key_in S : S ≠ [] → (group S).1 ∈ S.*1.
Proof. intros HS. destruct (group_key S HS) as (e & S' & -> & ->). by left. Qed.

Lemma grouping_keys C P : grouping C P → ∀ k, k ∈ P.*1 → k ∈ C.*1.
Proof.
  intros (segs & Hne & <- & ->) k. rewrite <-list_fmap_compose. intros (S & -> & HS)%list_elem_of_fmap. cbn [compose].
  rewrite Forall_forall in Hne. pose proof (group_key_in S (Hne S HS)) as Hin. apply list_elem_of_fmap in Hin as (e & -> & He).
  apply list_elem_of_fmap. exists e. split; [done|]. apply elem_of_concat. eauto.
Qed.

Lemma grouping_head C P : grouping C P → fst <$> head P = fst <$> head C.
Proof.
  intros (segs & Hne & <- & ->). destruct Hne as [|S segs HS _]; [done|]. cbn [fmap list_fmap head option_fmap option_map concat].
  destruct (group_key S HS) as (e & S' & -> & ->). done.
Qed.

Lemma grouping_nil C P : grouping C P → P = [] ↔ C = [].
Proof.
  intros Hg. pose proof (grouping_head C P Hg) as Hh. destruct P as [|p P], C as [|c C]; cbn in Hh; split; try discriminate; done.
Qed.

Lemma grouping_app C1 P1 C2 P2 : grouping C1 P1 → grouping C2 P2 → grouping (C1 ++ C2) (P1 ++ P2).
Proof.
  intros (s1 & H1 & <- & ->) (s2 & H2 & <- & ->). exists (s1 ++ s2). split_and!; [by apply Forall_app|by rewrite concat_app|by rewrite fmap_app].
Qed.

Lemma filter_keys_all (f : string → bool) (L : lvl) : (∀ k, k ∈ L.*1 → f k = true) → filter (λ e, f e.1 = true) L = L.
Proof. intros H. apply list_filter_all, Forall_forall. intros e He. apply H, list_elem_of_fmap. eauto. Qed.
Lemma filter_keys_none (f : string → bool) (L : lvl) : (∀ k, k ∈ L.*1 → f k = false) → filter (λ e, f e.1 = true) L = [].
Proof. intros H. apply list_filter_none, Forall_forall. intros e He. rewrite H; [done|]. apply list_elem_of_fmap. eauto. Qed.

(** ** The groups to compute again

    The entries of a level over its children [N]: groups of them, but between
    the bounds of [D] and the next ones. *)
Inductive marked : lvl → lvl → list string → Prop :=
  | marked_nil : marked [] [] []
  | marked_clean S P N D : S ≠ [] → (∀ s d, s ∈ S.*1 → d ∈ D → b_lt s d = true) →
      marked P N D → marked (group S :: P) (S ++ N) D
  | marked_dirty d e S P N D : (∀ k, k ∈ e.*1 → k = d) → (∀ s, s ∈ S.*1 → b_le d s = true) →
      (∀ k, k ∈ P.*1 ++ N.*1 ++ D → b_lt d k = true) → (∀ s k, s ∈ S.*1 → k ∈ D → b_lt s k = true) →
      marked P N D → marked (e ++ P) (S ++ N) (d :: D).

(** The children between a bound and the next group. *)
Lemma from_to_mid M S N d n : (∀ k, k ∈ M.*1 → b_lt k d = true) → (∀ k, k ∈ S.*1 → b_le d k = true) →
  lsorted (S ++ N) → n = fst <$> head N → from_to d n (M ++ S ++ N) = S.
Proof.
  intros HM HS [_ [HN Hlt]]%lsorted_app ->. unfold from_to. rewrite !filter_app, (filter_keys_none (between_bounds d _) M), (filter_keys_all (between_bounds d _) S), (filter_keys_none (between_bounds d _) N).
  - by rewrite app_nil_r.
  - intros k (e & -> & He)%list_elem_of_fmap. unfold between_bounds. destruct N as [|x N]; [by apply elem_of_nil in He|]. cbn.
    apply andb_false_iff. right. rewrite b_lt_not_le, negb_false_iff. apply elem_of_cons in He as [->|He]; [apply b_le_refl|].
    apply StronglySorted_inv in HN as [_ HN]. rewrite Forall_forall in HN. by apply b_lt_le, HN.
  - intros k Hk. unfold between_bounds. rewrite HS by done. cbn. destruct N as [|x N]; [done|]. cbn.
    apply list_elem_of_fmap in Hk as (e & -> & He). apply Hlt; [done|by left].
  - intros k Hk. unfold between_bounds. by rewrite b_le_not_lt, HM.
Qed.

(** Computing the groups again, from the last bound to the first. *)
Lemma marked_recomputed P N D : marked P N D → ∀ Q M Pf, lsorted (M ++ N) →
  (∀ d k, d ∈ D → k ∈ Q.*1 ++ M.*1 → b_lt k d = true) →
  recomputed (M ++ N) (Q ++ P) (reverse D) Pf → ∃ Pn, Pf = Q ++ Pn ∧ grouping N Pn.
Proof.
  induction 1 as [|S P N D HS HSD _ IH|d e S P N D He HSd Htail HSD _ IH]; intros Q M Pf HN Hlow Hrec.
  - inversion Hrec; subst. exists []. split; [done|]. by exists [].
  - destruct (IH (Q ++ [group S]) (M ++ S) Pf) as (Pn & -> & Hg).
    + by rewrite <-app_assoc.
    + intros d k Hd. rewrite !fmap_app, !elem_of_app. intros [[Hk|Hk]|[Hk|Hk]].
      * apply Hlow; [done|]. apply elem_of_app. by left.
      * apply list_elem_of_singleton in Hk as ->. apply HSD; [|done]. by apply group_key_in.
      * apply Hlow; [done|]. apply elem_of_app. by right.
      * by apply HSD.
    + by rewrite <-!app_assoc.
    + exists (group S :: Pn). rewrite <-app_assoc. split; [done|]. apply (grouping_app S [group S]); [|done].
      exists [S]. cbn. rewrite app_nil_r. by repeat constructor.
  - rewrite reverse_cons in Hrec. apply recomputed_app in Hrec as (Pm & Hrec & Hd).
    destruct (IH (Q ++ e) (M ++ S) Pm) as (Pn & -> & Hg).
    + by rewrite <-app_assoc.
    + intros d' k Hd'. rewrite !fmap_app, !elem_of_app. intros [[Hk|Hk]|[Hk|Hk]].
      * apply Hlow; [by right|]. apply elem_of_app. by left.
      * rewrite (He k Hk). apply Htail. rewrite !elem_of_app. tauto.
      * apply Hlow; [by right|]. apply elem_of_app. by right.
      * by apply HSD.
    + by rewrite <-!app_assoc.
    + inversion Hd as [|?? P1 ?? (segs & Hne & Hsegs & ->) Hnil]; subst. inversion Hnil; subst. clear Hd Hnil.
      assert (HPn : ∀ k, k ∈ Pn.*1 → b_lt d k = true).
      { intros k Hk. apply Htail. rewrite !elem_of_app. right. left. by apply (grouping_keys _ _ Hg). }
      assert (HQ : ∀ k, k ∈ Q.*1 → b_lt k d = true) by (intros k Hk; apply Hlow; [by left|apply elem_of_app; by left]).
      assert (Hgt : filter (λ x, b_lt d x.1 = true) ((Q ++ e) ++ Pn) = Pn).
      { rewrite !filter_app, (filter_keys_none (b_lt d) Q), (filter_keys_none (b_lt d) e), (filter_keys_all (b_lt d) Pn); [done|done|..].
        - intros k Hk. rewrite (He k Hk). apply b_lt_irrefl.
        - intros k Hk. by apply b_lt_asym, HQ. }
      assert (Hlt : filter (λ x, b_lt x.1 d = true) ((Q ++ e) ++ Pn) = Q).
      { rewrite !filter_app, (filter_keys_all (λ k, b_lt k d) Q), (filter_keys_none (λ k, b_lt k d) e), (filter_keys_none (λ k, b_lt k d) Pn).
        - by rewrite !app_nil_r.
        - intros k Hk. by apply b_lt_asym, HPn.
        - intros k Hk. rewrite (He k Hk). apply b_lt_irrefl.
        - done. }
      rewrite Hgt, Hlt. exists ((group <$> segs) ++ Pn). split; [done|]. apply grouping_app; [|done]. exists segs. split; [done|].
      split; [|done]. rewrite Hsegs. apply from_to_mid; [|done|by apply lsorted_app in HN as (_ & ? & _)|].
      * intros k Hk. apply Hlow; [by left|]. apply elem_of_app. by right.
      * unfold next_bound_of. rewrite Hgt. by apply grouping_head.
Qed.

(** ** What changes in a level *)

(** The bounds that computing the groups of [D] may change. *)
Definition touched (O : lvl) (D : list string) (k : string) : Prop :=
  ∃ d, d ∈ D ∧ b_le d k = true ∧ ∀ o, o ∈ (tail O).*1 → b_lt d o = true → b_le o k = true → False.
Definition delta (O N : lvl) (D : list string) : Prop := ∀ e, ¬ touched O D e.1 → (e ∈ N ↔ e ∈ O).

(** A bound between [d] and [k] ends what is grouped again before [k]. *)
Lemma next_key_before P d q k : lsorted P → q ∈ P.*1 → b_lt d q = true → b_le q k = true → between_bounds d (next_bound_of P d) k = false.
Proof.
  intros HP (e & -> & He)%list_elem_of_fmap Hd Hk. unfold between_bounds, next_bound_of.
  pose proof (lsorted_filter (λ x, b_lt d x.1 = true) P HP) as Hs.
  assert (Hin : e ∈ filter (λ x, b_lt d x.1 = true) P) by (by apply list_elem_of_filter).
  destruct (filter _ P) as [|x l]; [by apply elem_of_nil in Hin|]. cbn. apply andb_false_iff. right.
  rewrite b_lt_not_le, negb_false_iff. apply elem_of_cons in Hin as [->|Hin]; [done|].
  apply StronglySorted_inv in Hs as [_ Hs]. rewrite Forall_forall in Hs. eapply b_le_trans; [|exact Hk]. by apply b_lt_le, Hs.
Qed.

Lemma regrouped_sorted C P d P1 : lsorted C → lsorted P → regrouped C P d P1 → lsorted P1.
Proof.
  intros HC HP (segs & Hne & Hsegs & ->).
  assert (Hg : lsorted (group <$> segs)).
  { assert (Hf : lsorted (concat segs)) by (rewrite Hsegs; by apply lsorted_filter). clear Hsegs.
    induction Hne as [|S segs HS Hne IH]; [constructor|]. cbn [concat] in Hf. apply lsorted_app in Hf as (_ & Hf & Hlt).
    constructor; [by apply IH|]. apply Forall_fmap, Forall_forall. intros S' HS'. cbn [compose].
    rewrite Forall_forall in Hne. destruct (group_key S HS) as (x & l & -> & ->). destruct (group_key S' (Hne S' HS')) as (y & l' & -> & ->).
    apply Hlt; [by left|]. apply elem_of_concat. eexists. split; [exact HS'|by left]. }
  assert (Hk : ∀ x, x ∈ group <$> segs → between_bounds d (next_bound_of P d) x.1 = true).
  { intros x Hx. assert (Hin : x.1 ∈ (from_to d (next_bound_of P d) C).*1).
    { apply (grouping_keys _ (group <$> segs)); [by exists segs|]. apply list_elem_of_fmap. eauto. }
    by apply list_elem_of_fmap in Hin as (e & -> & [Hb _]%list_elem_of_filter). }
  apply lsorted_app. split_and!; [by apply lsorted_filter| |].
  - apply lsorted_app. split_and!; [done|by apply lsorted_filter|]. intros x y Hx [Hy Hin]%list_elem_of_filter.
    specialize (Hk x Hx). destruct (b_lt x.1 y.1) eqn:Hxy; [done|]. rewrite b_lt_not_le, negb_false_iff in Hxy.
    rewrite (next_key_before P d y.1 x.1) in Hk; [done|done| |done|done]. apply list_elem_of_fmap. eauto.
  - intros x y [Hx _]%list_elem_of_filter [Hy|[Hy _]%list_elem_of_filter]%elem_of_app; [|by eapply b_lt_trans].
    specialize (Hk y Hy). unfold between_bounds in Hk. apply andb_true_iff in Hk as [Hk _]. by eapply b_lt_le_trans.
Qed.

Lemma regrouped_same C P d P1 e : lsorted P → regrouped C P d P1 →
  (e ∈ P1 ↔ e ∈ P) ∨ between_bounds d (next_bound_of P d) e.1 = true.
Proof.
  intros HP Hr. destruct (between_bounds d (next_bound_of P d) e.1) eqn:Hb; [by right|]. left. pose proof Hr as (segs & Hne & Hsegs & HP1). split; intros He.
  - rewrite HP1, !elem_of_app, !list_elem_of_filter in He. destruct He as [[_ ?]|[He|[_ ?]]]; [done| |done].
    assert (Hin : e.1 ∈ (from_to d (next_bound_of P d) C).*1).
    { apply (grouping_keys _ (group <$> segs)); [by exists segs|]. apply list_elem_of_fmap. eauto. }
    apply list_elem_of_fmap in Hin as (x & Hx & [Hbx _]%list_elem_of_filter). rewrite Hx in Hb. congruence.
  - rewrite HP1, !elem_of_app, !list_elem_of_filter. destruct (b_lt_total e.1 d) as [Heq|[?|?]]; [|tauto|tauto].
    exfalso. unfold between_bounds in Hb. rewrite Heq, b_le_refl in Hb. cbn in Hb. unfold next_bound_of in Hb.
    destruct (filter (λ x, b_lt d x.1 = true) P) as [|x l] eqn:Hf; [done|]. cbn in Hb.
    assert (Hin : x ∈ filter (λ x, b_lt d x.1 = true) P) by (rewrite Hf; by left). apply list_elem_of_filter in Hin as [Hin _]. congruence.
Qed.

Definition descending (D : list string) : Prop := StronglySorted (λ x y, b_le y x = true) D.

(** What computing groups again leaves. *)
Lemma recomputed_same C P D P' : lsorted C → recomputed C P D P' → lsorted P → descending D → lsorted P' ∧
  ∀ e, (e ∈ P' ↔ e ∈ P) ∨ ∃ d, d ∈ D ∧ b_le d e.1 = true ∧ ∀ q, q ∈ P.*1 → b_lt d q = true → b_le q e.1 = true → False.
Proof.
  intros HC. induction 1 as [P|P d P1 D P2 Hr _ IH]; intros HP HD; [split; [done|]; by left|].
  apply StronglySorted_inv in HD as [HD Hd]. rewrite Forall_forall in Hd.
  destruct (IH (regrouped_sorted _ _ _ _ HC HP Hr) HD) as [HP2 Hsame]. split; [done|]. intros e.
  destruct (regrouped_same _ _ _ _ e HP Hr) as [He|Hb]; cycle 1.
  { right. exists d. split; [by left|]. split; [unfold between_bounds in Hb; by apply andb_true_iff in Hb as [? _]|].
    intros q Hq H1 H2. by rewrite (next_key_before P d q e.1) in Hb. }
  destruct (Hsame e) as [He'|(d' & Hd' & Hle & Hno)]; [left; by rewrite He', He|].
  destruct (decide (d ∈ P.*1 ∧ b_lt d' d = true ∧ b_le d e.1 = true)) as [(Hin & H1 & H2)|Hn].
  - right. exists d. split_and!; [by left|done|]. intros q Hq Hlt Hqe. apply (Hno q); [|by eapply b_lt_trans|done].
    destruct Hr as (segs & _ & _ & ->). rewrite !fmap_app, !elem_of_app. right. right.
    apply list_elem_of_fmap in Hq as (x & -> & Hx). apply list_elem_of_fmap. exists x. split; [done|]. by apply list_elem_of_filter.
  - right. exists d'. split_and!; [by right|done|]. intros q Hq Hlt Hqe. destruct (decide (q = d)) as [->|Hne]; [by apply Hn|].
    apply (Hno q); [|done|done]. destruct Hr as (segs & _ & _ & ->). rewrite !fmap_app, !elem_of_app.
    apply list_elem_of_fmap in Hq as (x & -> & Hx). destruct (b_lt_total x.1 d) as [?|[?|?]]; [done| |].
    + left. apply list_elem_of_fmap. exists x. split; [done|]. by apply list_elem_of_filter.
    + right. right. apply list_elem_of_fmap. exists x. split; [done|]. by apply list_elem_of_filter.
Qed.

(** ** The parents to compute again *)

(** What [current_level] finds of the parents [P] of the children [D]: the
    bounds that changed, and whether the first parent is removed. *)
Fixpoint parents (P D : list string) (last_parent : option string) : list string * bool :=
  match D with
  | [] => ([], false)
  | d :: D =>
      if (match last_parent with Some p => b_le p d | None => false end) then parents P D last_parent
      else
        match last (filter (λ p, b_le p d = true) P) with
        | Some p => let '(changed, removed) := parents P D (Some p) in (p :: changed, removed)
        | None => ([default d (last D)], true)
        end
  end.

(** [p] is the parent of some child of [D]. *)
Definition hit (P D : list string) (p : string) : Prop :=
  Exists (λ d, b_le p d = true ∧ Forall (λ q, b_lt p q && b_le q d = false) P) D.
#[global] Instance hit_dec P D p : Decision (hit P D p).
Proof. unfold hit. apply _. Defined.

Lemma parents_snoc_low P p D : (∀ d, d ∈ D → b_lt d p = true) → ∀ l, parents (P ++ [p]) D l = parents P D l.
Proof.
  induction D as [|d D IH]; intros HD l; [done|]. cbn [parents].
  rewrite filter_app, (filter_cons_False _ p) by (rewrite b_le_not_lt, HD by (by left); done). rewrite filter_nil, app_nil_r.
  specialize (IH ltac:(intros d' Hd'; apply HD; by right)). rewrite IH. destruct (last _); [by rewrite IH|done].
Qed.

Lemma parents_last P p D : (∀ d, d ∈ D → b_lt d p = true) → parents P D (Some p) = parents P D None.
Proof. destruct D as [|d D]; [done|]. intros HD. cbn [parents]. by rewrite b_le_not_lt, HD by (by left). Qed.

Lemma parents_skip P p Dm D : (∀ d, d ∈ Dm → b_le p d = true) → parents P (Dm ++ D) (Some p) = parents P D (Some p).
Proof.
  induction Dm as [|d Dm IH]; intros HD; [done|]. cbn [app parents]. rewrite HD by (by left). apply IH.
  intros d' Hd'. apply HD. by right.
Qed.

Lemma parents_snoc P p Dm D : (∀ d, d ∈ Dm → b_le p d = true) → (∀ d, d ∈ D → b_lt d p = true) →
  parents (P ++ [p]) (Dm ++ D) None = let '(changed, removed) := parents P D None in
    ((if bool_decide (Dm = []) then [] else [p]) ++ changed, removed).
Proof.
  intros Hm HD. destruct Dm as [|d Dm].
  - rewrite bool_decide_true by done. cbn [app]. rewrite parents_snoc_low by done. by destruct (parents P D None).
  - rewrite bool_decide_false by done. cbn [app parents].
    rewrite filter_app, (filter_cons_True _ p) by (apply Hm; by left). rewrite filter_nil, last_snoc.
    rewrite parents_skip by (intros d' Hd'; apply Hm; by right). rewrite parents_snoc_low, parents_last by done.
    by destruct (parents P D None).
Qed.

Lemma descending_split p D : descending D →
  D = filter (λ d, b_le p d = true) D ++ filter (λ d, b_lt d p = true) D.
Proof.
  induction 1 as [|d D HD IH Hd]; [done|]. destruct (b_le p d) eqn:Hp.
  - rewrite filter_cons_True, (filter_cons_False _ d) by (rewrite ?b_lt_not_le, Hp; done). cbn [app]. by rewrite <-IH.
  - rewrite filter_cons_False, (filter_cons_True _ d) by (rewrite ?b_lt_not_le, Hp; done).
    rewrite (list_filter_none (λ x, b_le p x = true) D) in IH |- *; [cbn [app] in *; by rewrite <-IH|..];
      (apply Forall_forall; intros x Hx Hpx; rewrite Forall_forall in Hd; by rewrite (b_le_trans _ _ _ Hpx (Hd x Hx)) in Hp).
Qed.

Lemma hit_iff P D p : hit P D p ↔ ∃ d, d ∈ D ∧ b_le p d = true ∧ ∀ q, q ∈ P → b_lt p q = true → b_le q d = true → False.
Proof.
  unfold hit. rewrite Exists_exists. setoid_rewrite Forall_forall. split; intros (d & Hd & Hp & Hq); exists d; split_and!; try done.
  - intros q Hin H1 H2. specialize (Hq q Hin). by rewrite H1, H2 in Hq.
  - intros q Hin. apply andb_false_iff. destruct (b_lt p q) eqn:H1; [|by left]. destruct (b_le q d) eqn:H2; [|by right].
    by destruct (Hq q Hin).
Qed.

Definition bounds_sorted (P : list string) : Prop := StronglySorted (λ x y, b_lt x y = true) P.

Lemma hit_snoc P p D : bounds_sorted (P ++ [p]) →
  filter (hit (P ++ [p]) D) (P ++ [p]) =
    filter (hit P (filter (λ d, b_lt d p = true) D)) P ++ (if bool_decide (filter (λ d, b_le p d = true) D = []) then [] else [p]).
Proof.
  intros [Hlt _]%StronglySorted_app. specialize (λ x Hx, Hlt x p Hx ltac:(by left)). rewrite filter_app. f_equal.
  - apply list_filter_ext. intros q Hq. rewrite !hit_iff. split.
    + intros (d & Hd & Hqd & Hno). exists d. split_and!; [|done|].
      * apply list_elem_of_filter. split; [|done]. rewrite b_lt_not_le, negb_true_iff. destruct (b_le p d) eqn:Hp; [|done].
        destruct (Hno p); [apply elem_of_app; right; by left|by apply Hlt|done].
      * intros x Hx. apply Hno, elem_of_app. by left.
    + intros (d & [Hdp Hd]%list_elem_of_filter & Hqd & Hno). exists d. split_and!; [done|done|].
      intros x [Hx| ->%list_elem_of_singleton]%elem_of_app H1 H2; [by apply (Hno x)|]. by rewrite b_le_not_lt, Hdp in H2.
  - assert (Hp : hit (P ++ [p]) D p ↔ filter (λ d, b_le p d = true) D ≠ []).
    { rewrite hit_iff. split.
      - intros (d & Hd & Hpd & _) Hnil. assert (Hin : d ∈ filter (λ d, b_le p d = true) D) by (by apply list_elem_of_filter).
        rewrite Hnil in Hin. by apply elem_of_nil in Hin.
      - intros Hne. destruct (filter _ D) as [|d l] eqn:Hf; [done|]. exists d.
        assert (Hin : d ∈ filter (λ d, b_le p d = true) D) by (rewrite Hf; by left). apply list_elem_of_filter in Hin as [H1 H2].
        split_and!; [done|done|]. intros q [Hq| ->%list_elem_of_singleton]%elem_of_app Hpq _; [|by rewrite b_lt_irrefl in Hpq].
        rewrite (b_lt_asym q p) in Hpq; [done|by apply Hlt]. }
    case_bool_decide as Hc.
    + rewrite filter_cons_False; [done|]. rewrite Hp. tauto.
    + rewrite filter_cons_True; [done|]. by apply Hp.
Qed.

Definition below_first (P D : list string) : Prop :=
  match P with [] => D ≠ [] | p :: _ => Exists (λ d, b_lt d p = true) D end.
#[global] Instance below_first_dec P D : Decision (below_first P D).
Proof. destruct P; apply _. Defined.

(** The parents found: those of the children, and the least child when it is
    before the first parent. *)
Lemma parents_spec P : ∀ D, bounds_sorted P → descending D →
  parents P D None =
    (reverse ((if bool_decide (below_first P D) then [default "" (last D)] else []) ++ filter (hit P D) P), bool_decide (below_first P D)).
Proof.
  induction P as [|p P IH] using rev_ind; intros D HP HD.
  - destruct D as [|d D]; [by rewrite bool_decide_false by (cbn; tauto)|]. rewrite bool_decide_true by done. cbn. f_equal.
    rewrite last_cons. by destruct (last D).
  - pose proof HP as [Hlt [HP' _]]%StronglySorted_app. specialize (λ x Hx, Hlt x p Hx ltac:(by left)).
    rewrite hit_snoc by done. set (Dm := filter (λ d, b_le p d = true) D). set (D' := filter (λ d, b_lt d p = true) D).
    assert (HDm : ∀ d, d ∈ Dm → b_le p d = true) by (by intros d [? _]%list_elem_of_filter).
    assert (HD' : ∀ d, d ∈ D' → b_lt d p = true) by (by intros d [? _]%list_elem_of_filter).
    pose proof (descending_split p D HD) as Hsplit. fold Dm D' in Hsplit.
    assert (Hbelow : below_first (P ++ [p]) D ↔ below_first P D').
    { destruct P as [|p1 P]; cbn [app below_first].
      - rewrite Exists_exists. split; [|intros Hne; destruct D' as [|d l] eqn:Hl; [done|exists d]].
        + intros (d & Hd & Hdp) Hnil. assert (Hin : d ∈ D') by (by apply list_elem_of_filter). rewrite Hnil in Hin. by apply elem_of_nil in Hin.
        + split; [rewrite Hsplit; apply elem_of_app; right; by left|]. apply HD'. by left.
      - rewrite !Exists_exists. split; intros (d & Hd & Hdp); exists d.
        + split; [|done]. apply list_elem_of_filter. split; [|done]. eapply b_lt_trans; [exact Hdp|]. apply Hlt. by left.
        + split; [|done]. rewrite Hsplit. apply elem_of_app. by right. }
    rewrite Hsplit at 1. rewrite parents_snoc, IH by (try done; by apply StronglySorted_filter).
    rewrite (bool_decide_ext _ _ Hbelow). rewrite app_assoc, (reverse_app (_ ++ _)).
    assert (Hlast : below_first P D' → last D = last D').
    { intros Hb. destruct D' as [|d l] eqn:Hl; [destruct P; [done|by apply Exists_nil in Hb]|]. rewrite Hsplit, last_app_cons. done. }
    f_equal. f_equal; [by destruct (bool_decide (Dm = []))|]. case_bool_decide as Hb; [|done]. by rewrite Hlast.
Qed.

Lemma grouping_bounds segs : Forall (λ S, S ≠ []) segs → lsorted (concat segs) → bounds_sorted ((group <$> segs).*1).
Proof.
  induction 1 as [|S segs HS Hne IH]; [constructor|]. cbn [concat]. intros (_ & Hs & Hlt)%lsorted_app.
  constructor; [by apply IH|]. apply Forall_fmap, Forall_fmap, Forall_forall. intros S' HS'. cbn [compose].
  rewrite Forall_forall in Hne. destruct (group_key S HS) as (x & l & -> & ->). destruct (group_key S' (Hne S' HS')) as (y & l' & -> & ->).
  apply Hlt; [by left|]. apply elem_of_concat. eexists. split; [exact HS'|by left].
Qed.

Lemma descending_reverse L : bounds_sorted L → descending (reverse L).
Proof.
  induction 1 as [|x L HL IH Hx]; [constructor|]. rewrite reverse_cons. apply StronglySorted_app. rewrite Forall_forall in Hx.
  split_and!; [|done|by repeat constructor]. intros y z Hy ->%list_elem_of_singleton. apply b_lt_le, Hx. by rewrite elem_of_reverse in Hy.
Qed.

Lemma descending_last D a : descending D → last D = Some a → a ∈ D ∧ ∀ d, d ∈ D → b_le a d = true.
Proof.
  intros HD [D' ->]%last_Some. split; [apply elem_of_app; right; by left|].
  apply StronglySorted_app in HD as [Hlt _]. intros d [Hd| ->%list_elem_of_singleton]%elem_of_app; [apply Hlt; [done|by left]|apply b_le_refl].
Qed.

(** The children from the first group of [segs] on. *)
Definition children_from (segs : list lvl) (N : lvl) : lvl :=
  match segs with [] => [] | seg :: _ => filter (λ e, b_le (group seg).1 e.1 = true) N end.
Definition first_bound (segs : list lvl) : option string := match segs with [] => None | seg :: _ => Some (group seg).1 end.

Lemma children_from_cons S segs N : lsorted N → bounds_sorted ((group <$> S :: segs).*1) →
  children_from (S :: segs) N = from_to (group S).1 (first_bound segs) N ++ children_from segs N.
Proof.
  intros HN Hb. apply lsorted_ext; [by apply lsorted_filter| |].
  - apply lsorted_app. split_and!; [by apply lsorted_filter|destruct segs; [constructor|by apply lsorted_filter]|].
    intros x y [Hx _]%list_elem_of_filter Hy. destruct segs as [|S' segs]; [by apply elem_of_nil in Hy|].
    apply list_elem_of_filter in Hy as [Hy _]. unfold between_bounds in Hx. cbn in Hx. apply andb_true_iff in Hx as [_ Hx]. by eapply b_lt_le_trans.
  - intros e. unfold from_to. cbn [children_from]. rewrite elem_of_app, !list_elem_of_filter. unfold between_bounds. destruct segs as [|S' segs]; cbn [first_bound children_from].
    + rewrite elem_of_nil, andb_true_r. tauto.
    + rewrite list_elem_of_filter, andb_true_iff. apply StronglySorted_inv in Hb as [_ Hb]. apply Forall_inv in Hb.
      split; [|intros [[[? _] ?]|[Hle ?]]; [done|]; split; [|done]].
      * intros [Hle He]. destruct (b_le (group S').1 e.1) eqn:H'; [tauto|]. left. rewrite (b_lt_not_le e.1), H'. done.
      * eapply b_le_trans; [by apply b_lt_le|done].
Qed.

Lemma between_end lo segs k x : between_bounds lo (first_bound segs) k = true → bounds_sorted ((group <$> segs).*1) →
  x ∈ (group <$> segs).*1 → b_lt k x = true.
Proof.
  intros Hk Hs Hx. destruct segs as [|S segs]; [by apply elem_of_nil in Hx|]. unfold between_bounds in Hk. apply andb_true_iff in Hk as [_ Hk].
  cbn in Hk, Hx. apply elem_of_cons in Hx as [->|Hx]; [done|]. apply StronglySorted_inv in Hs as [_ Hs]. rewrite Forall_forall in Hs.
  eapply b_lt_trans; [exact Hk|]. by apply Hs.
Qed.

Lemma children_from_bound segs N k : bounds_sorted ((group <$> segs).*1) → k ∈ (children_from segs N).*1 →
  ∃ p, first_bound segs = Some p ∧ b_le p k = true.
Proof.
  intros Hs Hk. destruct segs as [|S segs]; [by apply elem_of_nil in Hk|]. apply list_elem_of_fmap in Hk as (e & -> & [He _]%list_elem_of_filter).
  by exists (group S).1.
Qed.

Section parents_marked.
Variables (segs : list lvl) (N : lvl) (D : list string).
Hypothesis Hne : Forall (λ S, S ≠ []) segs.
Hypothesis HO : lsorted (concat segs).
Hypothesis HN : lsorted N.
Hypothesis Hdelta : delta (concat segs) N D.
Local Notation P := ((group <$> segs).*1).

Lemma first_bound_head post : Forall (λ S, S ≠ []) post → first_bound post = fst <$> head (concat post).
Proof. intros [|S post' HS _]; [done|]. destruct (group_key S HS) as (x & l & -> & Hk). cbn. by f_equal. Qed.

(** A group is its children, between its bound and the next. *)
Lemma group_segment pre S post : segs = pre ++ S :: post → from_to (group S).1 (first_bound post) (concat segs) = S.
Proof.
  intros Heq. rewrite Heq in Hne, HO |- *. rewrite concat_app in HO |- *. cbn [concat] in HO |- *.
  apply Forall_app in Hne as [_ [HS Hpost]%Forall_cons]. apply lsorted_app in HO as (_ & HSp & Hlt).
  destruct (group_key S HS) as (x & l & HSx & Hk). rewrite Hk. apply from_to_mid; [..|done|by apply first_bound_head].
  - intros k (e & -> & He)%list_elem_of_fmap. apply Hlt; [done|]. rewrite HSx. by left.
  - intros k (e & -> & He)%list_elem_of_fmap. rewrite HSx in He, HSp. apply elem_of_cons in He as [->|He]; [apply b_le_refl|].
    apply StronglySorted_inv in HSp as [_ HSp]. rewrite Forall_forall in HSp. apply b_lt_le, HSp, elem_of_app. by left.
Qed.

(** The children between two bounds that no change hits stay. *)
Lemma children_unchanged pre S post e : segs = pre ++ S :: post → pre ≠ [] ∨ ¬ below_first P D → ¬ hit P D (group S).1 →
  between_bounds (group S).1 (first_bound post) e.1 = true → (e ∈ N ↔ e ∈ concat segs).
Proof.
  intros Heq Hpre Hhit Hb. pose proof (grouping_bounds segs Hne HO) as HP. apply Hdelta. intros (d & Hd & Hle & Hno).
  pose proof Hb as [Hge _]%andb_true_iff. rewrite Heq, !fmap_app in HP. apply StronglySorted_app in HP as (HP1 & _ & HP2).
  rewrite Heq in Hne. apply Forall_app in Hne as [Hpne [HS _]%Forall_cons].
  assert (Hdp : b_le (group S).1 d = true).
  { destruct (b_le (group S).1 d) eqn:Hlt; [done|]. exfalso. destruct pre as [|S0 pre].
    - destruct Hpre as [|Hbelow]; [done|]. apply Hbelow. rewrite Heq. cbn [app fmap list_fmap below_first]. apply Exists_exists. exists d. by rewrite b_lt_not_le, Hlt.
    - apply (Hno (group S).1); [|by rewrite b_lt_not_le, Hlt|done]. rewrite Heq. apply Forall_inv in Hpne.
      destruct S0 as [|x S0]; [done|]. cbn [app concat tail]. rewrite concat_app, !fmap_app, !elem_of_app. right. right.
      cbn [concat]. rewrite fmap_app, elem_of_app. left. by apply group_key_in. }
  apply Hhit, hit_iff. exists d. split_and!; [done|done|]. intros q Hq H1 H2. rewrite Heq, !fmap_app in Hq.
  apply elem_of_app in Hq as [Hq|Hq].
  - rewrite (b_lt_asym q (group S).1) in H1; [done|]. apply HP1; [done|by left].
  - cbn in Hq. apply elem_of_cons in Hq as [->|Hq]; [by rewrite b_lt_irrefl in H1|].
    assert (Hlt : b_lt e.1 q = true) by (eapply between_end; [exact Hb|by apply StronglySorted_inv in HP2 as [? _]|exact Hq]).
    rewrite b_le_not_lt, negb_true_iff in H2. by rewrite (b_le_lt_trans _ _ _ Hle Hlt) in H2.
Qed.

(** The children of a group that no change hits are those it has. *)
Lemma group_unchanged pre S post : segs = pre ++ S :: post → pre ≠ [] ∨ ¬ below_first P D → ¬ hit P D (group S).1 →
  from_to (group S).1 (first_bound post) N = S.
Proof.
  intros Heq Hpre Hhit. rewrite <-(group_segment pre S post Heq) at 2. apply lsorted_ext; [by apply lsorted_filter..|].
  intros e. unfold from_to. rewrite !list_elem_of_filter. split; intros [Hb He]; (split; [done|]);
    by apply (children_unchanged pre S post e Heq).
Qed.

Lemma hits_in post k : k ∈ filter (hit P D) ((group <$> post).*1) → k ∈ (group <$> post).*1.
Proof. by intros [_ ?]%list_elem_of_filter. Qed.

(** A group that is to compute again, present or removed. *)
Lemma marked_hit e S post D' : bounds_sorted ((group <$> S :: post).*1) → (∀ k, k ∈ e.*1 → k = (group S).1) →
  (∀ k, k ∈ D' → k ∈ (group <$> post).*1) →
  marked (group <$> post) (children_from post N) D' →
  marked (e ++ (group <$> post)) (children_from (S :: post) N) ((group S).1 :: D').
Proof.
  intros Hb He HD' Hm. rewrite children_from_cons by done. pose proof Hb as [Hb' Hfirst]%StronglySorted_inv. rewrite Forall_forall in Hfirst.
  apply marked_dirty; [done|..|done].
  - intros s (x & -> & [Hx _]%list_elem_of_filter)%list_elem_of_fmap. by apply andb_true_iff in Hx as [? _].
  - intros k [Hk|[Hk|Hk]%elem_of_app]%elem_of_app; [by apply Hfirst| |by apply Hfirst, HD'].
    apply children_from_bound in Hk as (p & Hp & Hle); [|done]. eapply b_lt_le_trans; [|exact Hle]. apply Hfirst.
    destruct post; [done|]. injection Hp as <-. by left.
  - intros s k (x & -> & [Hx _]%list_elem_of_filter)%list_elem_of_fmap Hk. eapply between_end; [exact Hx|done|by apply HD'].
Qed.

Lemma marked_suffix post : ∀ pre, segs = pre ++ post → pre ≠ [] ∨ ¬ below_first P D →
  marked (group <$> post) (children_from post N) (filter (hit P D) ((group <$> post).*1)).
Proof.
  induction post as [|S post IH]; intros pre Heq Hpre; [constructor|].
  assert (Hb : bounds_sorted ((group <$> S :: post).*1)).
  { pose proof (grouping_bounds segs Hne HO) as HP. rewrite Heq, !fmap_app in HP. by apply StronglySorted_app in HP as (_ & _ & ?). }
  assert (Hm := IH (pre ++ [S]) ltac:(by rewrite <-app_assoc) ltac:(left; by destruct pre)).
  change ((group <$> S :: post).*1) with ((group S).1 :: (group <$> post).*1). destruct (decide (hit P D (group S).1)) as [Hh|Hh].
  - rewrite filter_cons_True by done. apply (marked_hit [group S]); [done| |apply hits_in|done]. by intros k ->%list_elem_of_singleton.
  - rewrite filter_cons_False by done. rewrite children_from_cons, (group_unchanged pre S post) by done.
    apply marked_clean; [rewrite Heq in Hne; by apply Forall_app in Hne as [_ [? _]%Forall_cons]| |done].
    intros s k Hs Hk. rewrite <-(group_unchanged pre S post) in Hs by done. apply list_elem_of_fmap in Hs as (x & -> & [Hx _]%list_elem_of_filter).
    eapply between_end; [exact Hx|by apply StronglySorted_inv in Hb as [? _]|]. by apply hits_in.
Qed.

(** A bound before the first group. *)
Lemma marked_low a post P' D' : bounds_sorted ((group <$> post).*1) → (∀ e, e ∈ N → b_le a e.1 = true) →
  (∀ p, first_bound post = Some p → b_lt a p = true) → (∀ k, k ∈ P'.*1 ++ D' → k ∈ (group <$> post).*1) →
  marked P' (children_from post N) D' → marked P' N (a :: D').
Proof.
  intros Hb Ha Hp HD' Hm.
  assert (Hap : ∀ k, k ∈ (group <$> post).*1 → b_lt a k = true).
  { intros k Hk. destruct post as [|S post]; [by apply elem_of_nil in Hk|]. apply elem_of_cons in Hk as [->|Hk]; [by apply Hp|].
    apply StronglySorted_inv in Hb as [_ Hb]. rewrite Forall_forall in Hb. eapply b_lt_trans; [by apply Hp|by apply Hb]. }
  assert (HeqN : N = from_to a (first_bound post) N ++ children_from post N).
  { apply lsorted_ext; [done|apply lsorted_app; split_and!|]; [by apply lsorted_filter|destruct post; [constructor|by apply lsorted_filter]|..].
    - intros x y [Hx _]%list_elem_of_filter Hy. destruct post as [|S post]; [by apply elem_of_nil in Hy|].
      apply list_elem_of_filter in Hy as [Hy _]. unfold between_bounds in Hx. apply andb_true_iff in Hx as [_ Hx]. exact (b_lt_le_trans _ _ _ Hx Hy).
    - intros e. unfold from_to. rewrite elem_of_app, list_elem_of_filter. unfold between_bounds. split.
      + intros He. rewrite Ha by done. destruct post as [|S post]; cbn [first_bound children_from andb]; [tauto|].
        rewrite list_elem_of_filter, b_lt_not_le. destruct (b_le (group S).1 e.1); [by right|by left].
      + intros [[_ ?]|He]; [done|]. destruct post; [by apply elem_of_nil in He|]. by apply list_elem_of_filter in He as [_ ?]. }
  rewrite HeqN. apply (marked_dirty a [] _ P'); [by intros k ?%elem_of_nil|..|done].
  - intros s (x & -> & [Hx _]%list_elem_of_filter)%list_elem_of_fmap. by apply andb_true_iff in Hx as [? _].
  - intros k [Hk|[Hk|Hk]%elem_of_app]%elem_of_app; [apply Hap, HD', elem_of_app; by left| |apply Hap, HD', elem_of_app; by right].
    apply children_from_bound in Hk as (p & Hfp & Hle); [|done]. eapply b_lt_le_trans; [by apply Hp|done].
  - intros s k (x & -> & [Hx _]%list_elem_of_filter)%list_elem_of_fmap Hk. eapply between_end; [exact Hx|done|]. apply HD', elem_of_app. by right.
Qed.

Lemma first_least S post e : segs = S :: post → e ∈ concat segs → b_le (group S).1 e.1 = true.
Proof.
  intros Heq Hin. rewrite Heq in HO, Hin, Hne. apply Forall_inv in Hne. destruct (group_key S Hne) as (x & l & -> & ->). cbn [concat app] in HO, Hin.
  apply elem_of_cons in Hin as [->|Hin]; [apply b_le_refl|]. apply StronglySorted_inv in HO as [_ HO'].
  rewrite Forall_forall in HO'. by apply b_lt_le, HO'.
Qed.

(** The least change, when it is before the first group. *)
Lemma least_change S post a : segs = S :: post → descending D → below_first P D → last D = Some a →
  b_lt a (group S).1 = true ∧ ∀ e, e ∈ N → b_le a e.1 = true.
Proof.
  intros Heq HD Hbelow Ha. destruct (descending_last D a HD Ha) as [Hain Hmin].
  assert (Hap : b_lt a (group S).1 = true).
  { rewrite Heq in Hbelow. cbn [fmap list_fmap below_first] in Hbelow. apply Exists_exists in Hbelow as (d & Hd & Hlt).
    eapply b_le_lt_trans; [exact (Hmin d Hd)|exact Hlt]. }
  split; [done|]. intros e He. destruct (b_le a e.1) eqn:Hae; [done|]. exfalso.
  assert (Hin : e ∈ concat segs).
  { apply Hdelta; [|done]. intros (d & Hd & Hle & _). by rewrite (b_le_trans _ _ _ (Hmin d Hd) Hle) in Hae. }
  pose proof (first_least S post e Heq Hin) as Hge.
  by rewrite (b_lt_le a e.1 (b_lt_le_trans _ _ _ Hap Hge)) in Hae.
Qed.

(** What is to compute again, given the parents found. *)
Lemma parents_to_compute S post : segs = S :: post → descending D → D ≠ [] →
  marked (if bool_decide (below_first P D) then group <$> post else group <$> segs) N
    ((if bool_decide (below_first P D) then [default "" (last D)] else []) ++ filter (hit P D) P).
Proof.
  intros Heq HD HDne. pose proof (grouping_bounds segs Hne HO) as HP. case_bool_decide as Hbelow.
  - destruct (last D) as [a|] eqn:Ha; [|by apply last_None in Ha]. destruct (least_change S post a Heq HD Hbelow Ha) as [Hap HaN].
    assert (Hm : marked (group <$> post) (children_from post N) (filter (hit P D) ((group <$> post).*1))).
    { apply (marked_suffix post [S]); [done|by left]. }
    rewrite Heq in HP. cbn [default from_option id app]. replace (filter (hit P D) P) with (filter (hit P D) ((group S).1 :: (group <$> post).*1)) by (by rewrite Heq).
    destruct (decide (hit P D (group S).1)) as [Hh|Hh].
    + rewrite filter_cons_True by done. apply (marked_low a (S :: post)); [done|done|by intros p [= <-]| |].
      * intros k [Hk|Hk]%elem_of_app; [by right|]. apply elem_of_cons in Hk as [->|Hk]; [by left|right; by apply hits_in].
      * apply (marked_hit []); [done|by intros k ?%elem_of_nil|apply hits_in|done].
    + rewrite filter_cons_False by done. pose proof HP as [HP' Hfirst]%StronglySorted_inv. rewrite Forall_forall in Hfirst.
      apply (marked_low a post); [done|done| | |done].
      * intros p Hp. destruct post as [|S' post']; [done|]. injection Hp as <-. eapply b_lt_trans; [exact Hap|]. apply Hfirst. by left.
      * intros k [Hk|Hk]%elem_of_app; [done|by apply hits_in].
  - cbn [app]. assert (HN' : N = children_from segs N).
    { rewrite Heq. symmetry. apply list_filter_all, Forall_forall. intros e He. destruct (b_le (group S).1 e.1) eqn:Hle; [done|].
      assert (Hlt : b_lt e.1 (group S).1 = true) by (by rewrite b_lt_not_le, Hle).
      assert (Hin : e ∈ concat segs).
      { apply Hdelta; [|done]. intros (d & Hd & Hde & _). apply Hbelow. rewrite Heq. cbn [fmap list_fmap below_first]. apply Exists_exists.
        exists d. split; [done|]. by eapply b_le_lt_trans. }
      by rewrite (first_least S post e Heq Hin) in Hle. }
    rewrite HN'. apply (marked_suffix segs []); [done|by right].
Qed.
End parents_marked.

Lemma grouping_sorted C P : grouping C P → lsorted C → lsorted P.
Proof.
  intros (segs & Hne & <- & ->) HC. pose proof (grouping_bounds segs Hne HC) as Hb. unfold bounds_sorted in Hb.
  remember (group <$> segs) as P eqn:HP. clear HP Hne HC. induction P as [|p P IH]; [constructor|]. cbn in Hb.
  apply StronglySorted_inv in Hb as [Hb Hp]. constructor; [by apply IH|]. by rewrite Forall_fmap in Hp.
Qed.

Lemma parents_nonempty P D l : D ≠ [] → (∀ d, d ∈ D → match l with Some p => b_le p d | None => false end = false) → (parents P D l).1 ≠ [].
Proof.
  destruct D as [|d D]; [done|]. intros _ Hl. cbn [parents]. rewrite (Hl d) by (by left). destruct (last _) as [p|]; [|done].
  by destruct (parents P D (Some p)).
Qed.

(** The marks found: in order, among the parents and the changes, with one before
    the first parent when it is removed. *)
Lemma marks_found S post N D : let segs := S :: post in let P := (group <$> segs).*1 in
  Forall (λ S, S ≠ []) segs → lsorted (concat segs) → delta (concat segs) N D → descending D → D ≠ [] →
  let marks := (if bool_decide (below_first P D) then [default "" (last D)] else []) ++ filter (hit P D) P in
  bounds_sorted marks ∧ (∀ k, k ∈ marks → k ∈ P ∨ k ∈ D) ∧
  (below_first P D → ∃ a, a ∈ marks ∧ b_lt a (group S).1 = true).
Proof.
  intros segs P Hne HO Hdelta HD HDne. pose proof (grouping_bounds segs Hne HO) as Hb. fold P in Hb. cbn zeta.
  case_bool_decide as Hbelow; cbn [app].
  - destruct (last D) as [a|] eqn:Ha; [|by apply last_None in Ha].
    destruct (least_change segs N D Hne HO Hdelta S post a eq_refl HD Hbelow Ha) as [Hap _].
    destruct (descending_last D a HD Ha) as [Hin _]. cbn [default from_option id]. split_and!.
    + constructor; [by apply StronglySorted_filter|]. apply Forall_forall. intros k [_ Hk]%list_elem_of_filter.
      unfold P, segs in Hk, Hb. rewrite !fmap_cons in Hk, Hb. apply elem_of_cons in Hk as [->|Hk]; [done|].
      apply StronglySorted_inv in Hb as [_ Hb]. rewrite Forall_forall in Hb. eapply b_lt_trans; [exact Hap|by apply Hb].
    + intros k [->|[_ Hk]%list_elem_of_filter]%elem_of_cons; [by right|by left].
    + intros _. exists a. split; [by left|done].
  - split_and!; [by apply StronglySorted_filter|by intros k [_ ?]%list_elem_of_filter; left|done].
Qed.

(** One level: once the groups of the parents found are computed again, the
    level groups its new children, and its own changes are at these parents. *)
Lemma level_step O P N D changed removed : grouping O P → P ≠ [] → lsorted O → lsorted N → delta O N D → descending D → D ≠ [] →
  parents (P.*1) D None = (changed, removed) →
  changed ≠ [] ∧ descending changed ∧ (∀ k, k ∈ changed → k ∈ P.*1 ∨ k ∈ D) ∧
  ∀ Pf, recomputed N (if removed then tail P else P) changed Pf → grouping N Pf ∧ delta P Pf changed ∧ lsorted Pf.
Proof.
  intros Hg HPne HO HN Hdelta HD HDne Hpar. pose proof (grouping_sorted O P Hg HO) as HPs.
  destruct Hg as (segs & Hne & HOeq & HPeq). subst O. destruct segs as [|S post]; [by subst|].
  pose proof (grouping_bounds _ Hne HO) as Hb. rewrite <-HPeq in Hb.
  pose proof (parents_to_compute (S :: post) N D Hne HO HN Hdelta S post eq_refl HD HDne) as Hm. rewrite <-HPeq in Hm.
  pose proof (parents_nonempty (P.*1) D None HDne ltac:(done)) as Hcne. rewrite Hpar in Hcne. cbn in Hcne.
  rewrite parents_spec in Hpar by done. injection Hpar as Hch Hrm. set (marks := _ ++ filter _ _) in Hch, Hm.
  destruct (marks_found S post N D Hne HO Hdelta HD HDne) as (Hsm & Hin & Hfirst). rewrite <-HPeq in Hsm, Hin, Hfirst. fold marks in Hsm, Hin, Hfirst.
  rewrite <-(bool_decide_eq_true (below_first (P.*1) D)), Hrm in Hfirst.
  rewrite <-Hch. split; [by rewrite Hch|]. split; [by apply descending_reverse|].
  split; [intros k; rewrite elem_of_reverse; apply Hin|]. intros Pf Hrec.
  assert (HP' : lsorted (if removed then tail P else P)).
  { destruct removed; [|done]. destruct P; [done|]. by apply StronglySorted_inv in HPs as [? _]. }
  destruct (recomputed_same N _ _ _ HN Hrec HP' (descending_reverse _ Hsm)) as [HPf Hsame].
  rewrite Hrm in Hm. replace (group <$> post) with (tail P) in Hm by (by rewrite HPeq).
  destruct (marked_recomputed _ _ _ Hm [] [] Pf HN) as (Pn & -> & Hgr); [by intros d k _ ?%elem_of_nil|exact Hrec|].
  split; [exact Hgr|]. split; [|done]. intros e Hnt. destruct (Hsame e) as [He|(d & Hd & Hde & Hno)].
  - rewrite He. destruct removed; [|done]. rewrite HPeq. cbn [fmap list_fmap tail]. rewrite elem_of_cons. split; [tauto|].
    intros [->|?]; [|done]. exfalso. apply Hnt. destruct (Hfirst eq_refl) as (a & Ha & Hlt). exists a. split_and!; [by rewrite elem_of_reverse|by apply b_lt_le|].
    intros o Ho _ Hle. rewrite HPeq in Ho, Hb. cbn [fmap list_fmap tail] in Ho, Hb. apply StronglySorted_inv in Hb as [_ Hb]. rewrite Forall_forall in Hb.
    rewrite b_le_not_lt, (Hb o Ho) in Hle. done.
  - exfalso. apply Hnt. exists d. split_and!; [done|done|]. intros o Ho. apply Hno. destruct removed; [done|].
    destruct P; [by apply elem_of_nil in Ho|]. by right.
Qed.

(** ** The levels of a database *)

Section levels.
Variable fid : Z.
Local Notation key := (mkFacetGroupKey fid).

Definition to_entry (l : nat) (e : string * FacetGroupValue) : FacetGroupKey * FacetGroupValue := (key l e.1, e.2).
Definition level_of (db : FacetDb) (l : nat) : lvl := (λ e, (fk_left_bound e.1, e.2)) <$> level_entries db fid l.

Lemma level_entries_of db l : level_entries db fid l = to_entry l <$> level_of db l.
Proof.
  unfold level_of. rewrite <-list_fmap_compose. rewrite <-(list_fmap_id (level_entries db fid l)) at 1. apply list_fmap_ext.
  intros i [k v] Hi. apply list_elem_of_lookup_2, list_elem_of_filter in Hi as [[Hf Hl] _]. destruct k. cbn in *. by subst.
Qed.

Lemma elem_of_level db l e : e ∈ level_of db l ↔ to_entry l e ∈ db.
Proof.
  unfold level_of. rewrite list_elem_of_fmap. split.
  - intros ([[f l' b] v] & -> & [[Hf Hl] Hin]%list_elem_of_filter). cbn in *. by subst.
  - intros Hin. exists (to_entry l e). split; [by destruct e|]. by apply list_elem_of_filter.
Qed.

Lemma to_entry_sorted l L : db_sorted (to_entry l <$> L) ↔ lsorted L.
Proof.
  unfold db_sorted, lsorted. induction L as [|x L IH]; [split; constructor|]. rewrite fmap_cons. split.
  - intros [Hs Hx]%StronglySorted_inv. constructor; [by apply IH|]. rewrite Forall_fmap in Hx. eapply Forall_impl; [exact Hx|].
    intros y Hy. unfold compose in Hy. cbn in Hy. by rewrite key_lt_same in Hy.
  - intros [Hs Hx]%StronglySorted_inv. constructor; [by apply IH|]. rewrite Forall_fmap. eapply Forall_impl; [exact Hx|].
    intros y Hy. unfold compose. cbn. by rewrite key_lt_same.
Qed.

Lemma level_of_sorted db l : db_sorted db → lsorted (level_of db l).
Proof. intros Hs. apply (to_entry_sorted l). rewrite <-level_entries_of. by apply db_sorted_filter. Qed.

(** [db'] is [db] but at some levels of the field. *)
Definition frame (at_level : nat → Prop) (db db' : FacetDb) : Prop :=
  db_sorted db' ∧ ∀ e, ¬ (fk_field_id e.1 = fid ∧ at_level (fk_level e.1)) → (e ∈ db' ↔ e ∈ db).

Lemma frame_refl at_level db : db_sorted db → frame at_level db db.
Proof. intros Hs. by split. Qed.
Lemma frame_trans (at_level : nat → Prop) db1 db2 db3 : frame at_level db1 db2 → frame at_level db2 db3 → frame at_level db1 db3.
Proof. intros [_ H1] [Hs H2]. split; [done|]. intros e He. by rewrite (H2 e He), (H1 e He). Qed.
Lemma frame_weaken (a b : nat → Prop) db db' : (∀ l, a l → b l) → frame a db db' → frame b db db'.
Proof. intros Hab [Hs H]. split; [done|]. intros e He. apply H. intros [? ?]. apply He. auto. Qed.

Lemma frame_level at_level db db' l : frame at_level db db' → db_sorted db → ¬ at_level l → level_of db' l = level_of db l.
Proof.
  intros [Hs' H] Hs Hl. apply lsorted_ext; [by apply level_of_sorted..|]. intros e. rewrite !elem_of_level. apply H. cbn. tauto.
Qed.

Lemma frame_field at_level db db' f : frame at_level db db' → db_sorted db → f ≠ fid → field_slice db' f = field_slice db f.
Proof.
  intros [Hs' H] Hs Hf. apply db_sorted_ext; [by apply db_sorted_filter..|]. intros e. unfold field_slice. rewrite !list_elem_of_filter.
  split; intros [He Hin]; (split; [done|]); apply (H e); try done; intros [? _]; congruence.
Qed.

(** Writing and removing an entry. *)
Lemma elem_of_put db k v e : e ∈ db_put db k v ↔ e = (k, v) ∨ (e ∈ db ∧ e.1 ≠ k).
Proof.
  unfold db_put. rewrite elem_of_app, elem_of_cons, !list_elem_of_filter. split.
  - intros [[H1 H2]|[->|[H1 H2]]]; [right|by left|right]; (split; [done|]); intros <-; by rewrite key_lt_irrefl in H1.
  - intros [->|[He Hk]]; [tauto|]. destruct (key_total e.1 k) as [?|[?|?]]; tauto.
Qed.

Lemma elem_of_delete db k e : e ∈ db_delete db k ↔ e ∈ db ∧ e.1 ≠ k.
Proof.
  unfold db_delete. rewrite list_elem_of_filter. rewrite <-(key_eqb_spec e.1 k), not_true_iff_false. tauto.
Qed.

Lemma db_put_sorted db k v : db_sorted db → db_sorted (db_put db k v).
Proof.
  intros Hs. apply db_sorted_app. split_and!; [by apply db_sorted_filter| |].
  - constructor; [by apply db_sorted_filter|]. apply Forall_forall. by intros e [? _]%list_elem_of_filter.
  - intros x y [Hx _]%list_elem_of_filter [->|[Hy _]%list_elem_of_filter]%elem_of_cons; [done|by eapply key_lt_trans].
Qed.

Lemma frame_put db l x v : db_sorted db → frame (λ l', l' = l) db (db_put db (key l x) v).
Proof.
  intros Hs. split; [by apply db_put_sorted|]. intros e He. rewrite elem_of_put. split.
  - intros [->|[? _]]; [|done]. by destruct He.
  - intros Hin. right. split; [done|]. intros Hk. apply He. by rewrite Hk.
Qed.

Lemma frame_delete db l x : db_sorted db → frame (λ l', l' = l) db (db_delete db (key l x)).
Proof.
  intros Hs. split; [by apply db_sorted_filter|]. intros e He. rewrite elem_of_delete. split; [tauto|].
  intros Hin. split; [done|]. intros Hk. apply He. by rewrite Hk.
Qed.

Lemma to_entry_key l e x : (to_entry l e).1 = key l x ↔ e.1 = x.
Proof. cbn. split; [by intros [= ->]|by intros ->]. Qed.

Lemma level_put db l x v e : e ∈ level_of (db_put db (key l x) v) l ↔ e = (x, v) ∨ (e ∈ level_of db l ∧ e.1 ≠ x).
Proof.
  rewrite !elem_of_level, elem_of_put, to_entry_key. split; (intros [He|?]; [left|by right]).
  - destruct e. cbn in He. injection He as -> ->. done.
  - by rewrite He.
Qed.

Lemma level_delete db l x e : e ∈ level_of (db_delete db (key l x)) l ↔ e ∈ level_of db l ∧ e.1 ≠ x.
Proof. by rewrite !elem_of_level, elem_of_delete, to_entry_key. Qed.

(** The entries before a level, of the level, and after. *)
#[global] Instance below_level_dec l e : Decision (below_level fid l e).
Proof. unfold below_level. apply _. Defined.
#[global] Instance above_level_dec l e : Decision (above_level fid l e).
Proof. unfold above_level. apply _. Defined.

Lemma level_slices db l : db_sorted db →
  db = filter (below_level fid l) db ++ (to_entry l <$> level_of db l) ++ filter (above_level fid l) db.
Proof.
  intros Hs. assert (Hin : ∀ e, e ∈ to_entry l <$> level_of db l ↔ (fk_field_id e.1 = fid ∧ fk_level e.1 = l) ∧ e ∈ db).
  { intros e. rewrite <-level_entries_of. unfold level_entries. by rewrite list_elem_of_filter. }
  apply db_sorted_ext; [done| |].
  - apply db_sorted_app. split_and!; [by apply db_sorted_filter| |].
    + apply db_sorted_app. split_and!; [rewrite <-level_entries_of; by apply db_sorted_filter|by apply db_sorted_filter|].
      intros x y [[? ?] _]%Hin [Hy _]%list_elem_of_filter. unfold above_level in Hy. rewrite key_lt_spec. naive_solver lia.
    + intros x y [Hx _]%list_elem_of_filter Hy. unfold below_level in Hx. rewrite key_lt_spec.
      apply elem_of_app in Hy as [[[? ?] _]%Hin|[Hy _]%list_elem_of_filter]; [naive_solver lia|]. unfold above_level in Hy. naive_solver lia.
  - intros e. rewrite !elem_of_app, Hin, !list_elem_of_filter. unfold below_level, above_level. split; [|tauto]. intros He.
    destruct (Z.lt_trichotomy (fk_field_id e.1) fid) as [?|[?|?]]; [tauto| |tauto].
    destruct (Nat.lt_trichotomy (fk_level e.1) l) as [?|[?|?]]; tauto.
Qed.

(** Bounds of a level, as bounds of keys. *)
Definition after_bound (lo : Bound string) (x : string) : bool :=
  match lo with Included b => b_le b x | Excluded b => b_lt b x | Unbounded => false end.
Definition key_bound (l : nat) (lo : Bound string) : Bound FacetGroupKey :=
  match lo with Included b => Included (key l b) | Excluded b => Excluded (key l b) | Unbounded => Unbounded end.
Definition key_end (l : nat) (hi : option string) : Bound FacetGroupKey :=
  match hi with Some h => Excluded (key l h) | None => Unbounded end.
Definition range_of (lo : Bound string) (hi : option string) (L : lvl) : lvl :=
  filter (λ e, after_bound lo e.1 && match hi with Some h => b_lt e.1 h | None => true end = true) L.

Lemma filter_to_entry l (f : FacetGroupKey → bool) (g : string → bool) (L : lvl) : (∀ x, f (key l x) = g x) →
  filter (λ e, f e.1 = true) (to_entry l <$> L) = to_entry l <$> filter (λ e, g e.1 = true) L.
Proof.
  intros Hfg. induction L as [|e L IH]; [done|]. rewrite fmap_cons, !filter_cons. cbn [to_entry fst]. rewrite Hfg.
  case_decide; [rewrite fmap_cons|]; by rewrite IH.
Qed.

(** A range that starts in a level: what is in the level, then what is after. *)
Lemma range_level db l lo hi : db_sorted db → lo ≠ Unbounded → ∃ rest,
  db_range_bounds db (key_bound l lo) (key_end l hi) = (to_entry l <$> range_of lo hi (level_of db l)) ++ rest ∧
  Forall (λ e, fk_field_id e.1 = fid ∧ fk_level e.1 = l → False) rest.
Proof.
  intros Hs Hlo. unfold db_range_bounds. set (f := λ k, key_after (key_bound l lo) k && key_before (key_end l hi) k).
  exists (filter (λ e, f e.1 = true) (filter (above_level fid l) db)). split.
  - rewrite (level_slices db l Hs) at 1. rewrite !filter_app.
    rewrite (list_filter_none _ (filter (below_level fid l) db)); cycle 1.
    { apply Forall_forall. intros e [He _]%list_elem_of_filter. destruct lo as [b|b|]; [..|done]; cbn; [rewrite (key_lt_below fid l b e He); done|].
      rewrite (key_lt_asym e.1 (key l b)) by (by apply key_lt_below). done. }
    cbn [app]. f_equal. apply (filter_to_entry l f (λ x, after_bound lo x && match hi with Some h => b_lt x h | None => true end)).
    intros x. unfold f. f_equal; [destruct lo as [b|b|]; [..|done]|destruct hi; [|done]]; cbn [key_bound key_after key_end key_before after_bound].
    + by rewrite key_lt_same, b_le_not_lt.
    + by rewrite key_lt_same.
    + by rewrite key_lt_same.
  - apply Forall_forall. intros e [_ [He _]%list_elem_of_filter]%list_elem_of_filter [Hf Hl]. unfold above_level in He. lia.
Qed.

(** The next bound of a level. *)
Lemma next_sibling db l x : db_sorted db →
  match db_get_greater_than db (key l x) with
  | Some (k, _) => if negb (fk_level k =? l)%nat || negb (fk_field_id k =? fid) then Unbounded else Excluded (key (pred l) (fk_left_bound k))
  | None => Unbounded
  end = key_end (pred l) (next_bound_of (level_of db l) x).
Proof.
  intros Hs. unfold db_get_greater_than, next_bound_of. rewrite (level_slices db l Hs) at 1. rewrite !filter_app.
  rewrite (list_filter_none _ (filter (below_level fid l) db)); cycle 1.
  { apply Forall_forall. intros e [He _]%list_elem_of_filter. rewrite (key_lt_asym e.1 (key l x)) by (by apply key_lt_below). done. }
  rewrite (filter_to_entry l (key_lt (key l x)) (b_lt x)) by (intros y; apply key_lt_same). cbn [app].
  destruct (filter (λ e, b_lt x e.1 = true) (level_of db l)) as [|e L]; cbn.
  - destruct (filter _ (filter _ db)) as [|[k v] r] eqn:Hr; [done|]. cbn.
    assert (Hin : (k, v) ∈ filter (above_level fid l) db).
    { assert (Hin : (k, v) ∈ (k, v) :: r) by (by left). rewrite <-Hr in Hin. by apply list_elem_of_filter in Hin as [_ ?]. }
    apply list_elem_of_filter in Hin as [Ha _]. unfold above_level in Ha. cbn in Ha.
    destruct (Nat.eqb_spec (fk_level k) l), (Z.eqb_spec (fk_field_id k) fid); cbn; try done. lia.
  - by rewrite Nat.eqb_refl, Z.eqb_refl.
Qed.

(** The parent found, when no bound is empty. *)
Lemma parent_before db l d : db_sorted db → (∀ x, x ∈ (level_of db l).*1 → x ≠ ""%string) →
  fk_left_bound ∘ fst <$> head (reverse (db_range_bounds db (Excluded (key l "")) (Included (key l d)))) =
    last (filter (λ p, b_le p d = true) ((level_of db l).*1)).
Proof.
  intros Hs Hne. rewrite head_reverse. unfold db_range_bounds. rewrite (level_slices db l Hs) at 1. rewrite !filter_app.
  rewrite (list_filter_none _ (filter (below_level fid l) db)); cycle 1.
  { apply Forall_forall. intros e [He _]%list_elem_of_filter. cbn. by rewrite (key_lt_asym e.1 (key l "")) by (by apply key_lt_below). }
  rewrite (list_filter_none _ (filter (above_level fid l) db)); cycle 1.
  { apply Forall_forall. intros e [He _]%list_elem_of_filter. cbn. rewrite (proj2 (key_lt_above fid l d e He)). by rewrite andb_false_r. }
  rewrite (filter_to_entry l (λ k, key_after (Excluded (key l "")) k && key_before (Included (key l d)) k) (λ x, b_lt "" x && b_le x d)); cycle 1.
  { intros x. cbn. by rewrite !key_lt_same, b_le_not_lt. }
  cbn [app]. rewrite app_nil_r, <-fmap_last, <-list_fmap_compose. f_equal.
  induction (level_of db l) as [|e L IH]; [done|]. rewrite fmap_cons, !filter_cons.
  assert (Hb : b_lt "" e.1 = true).
  { destruct (b_lt_total "" e.1) as [He|[?|Hlt]]; [|done|].
    - destruct (Hne e.1); [by left|done].
    - by destruct e as [[|a x] v]. }
  rewrite Hb. cbn [andb]. specialize (IH ltac:(intros x Hx; apply Hne; by right)). case_decide; [rewrite fmap_cons|]; by rewrite IH.
Qed.
End levels.

(** ** Computing groups *)

Section compute.
Variables gs ms mx fid : Z.
Hypothesis Hgs : 2 ≤ gs ≤ 255.
Hypothesis Hmx : 1 ≤ mx ≤ 255.
Local Notation key := (mkFacetGroupKey fid).

Lemma pick_group_size_bounds n : 1 ≤ n ≤ mx * 2 → 1 ≤ pick_group_size gs mx n ≤ 255.
Proof.
  intros Hn. unfold pick_group_size. destruct (Z.leb_spec (mx * 2) n); [lia|]. destruct (Z.leb_spec gs n); [|lia].
  pose proof (Z.div_lt_upper_bound n 2 mx ltac:(lia) ltac:(lia)). pose proof (Z.div_le_lower_bound n 2 1 ltac:(lia) ltac:(lia)). lia.
Qed.

Lemma take_while_ztake {A} (p : A → bool) l r : Forall (λ x, p x = true) l → Forall (λ x, p x = false) r →
  ∀ n, take_while p (ztake n (l ++ r)) = ztake n l.
Proof.
  intros Hl Hr. induction Hl as [|x l Hx _ IH]; intros n; cbn [app ztake].
  - destruct Hr as [|y r Hy _]; [done|]. cbn. destruct (0 <? n); [cbn; by rewrite Hy|done].
  - destruct (0 <? n); [|done]. cbn [take_while]. by rewrite Hx, IH.
Qed.

Lemma ztake_split {A} n (l : list A) : l ≠ [] → 1 ≤ n →
  ∃ r, l = ztake n l ++ r ∧ ztake n l ≠ [] ∧ Z.of_nat (length (ztake n l)) ≤ n.
Proof.
  revert n. induction l as [|x l IH]; intros n; [done|]. intros _ Hn. cbn [ztake]. rewrite (proj2 (Z.ltb_lt 0 n)) by lia.
  destruct (decide (l = [] ∨ n = 1)) as [[->| ->]|Hno].
  - exists []. cbn. split_and!; [done|done|lia].
  - exists l. replace (ztake (1 - 1) l) with (@nil A) by (by destruct l). done.
  - destruct (IH (n - 1)) as (r & Heq & _ & Hlen); [naive_solver|naive_solver lia|]. exists r. cbn [app length]. split_and!; [by f_equal|done|lia].
Qed.

Lemma fold_group_from l (R : lvl) : ∀ a b n u, 0 ≤ n → n + Z.of_nat (length R) ≤ 255 →
  foldl (λ '(bounds, group_value) '(child_key, child_value),
    (match bounds with
     | Some (left_bound, _) => Some (left_bound, fk_left_bound child_key)
     | None => Some (fk_left_bound child_key, fk_left_bound child_key)
     end,
     mkFacetGroupValue ((fv_size group_value + 1) mod 256) (fv_bitmap group_value ∪ fv_bitmap child_value)))
    (Some (a, b), mkFacetGroupValue n u) (to_entry fid l <$> R) =
  (Some (a, default b (last (R.*1))), mkFacetGroupValue (n + Z.of_nat (length R)) (u ∪ ⋃ ((λ e, fv_bitmap e.2) <$> R))).
Proof.
  induction R as [|e R IH]; intros a b n u Hn Hlen.
  - cbn. rewrite Z.add_0_r. by rewrite (right_id_L ∅ (∪)).
  - cbn [length] in Hlen. cbn [fmap list_fmap foldl to_entry fst snd fk_left_bound fv_size fv_bitmap].
    rewrite Z.mod_small by lia. rewrite IH by lia. f_equal.
    + cbn [last]. rewrite last_cons. by destruct (last (R.*1)).
    + f_equal; [cbn [length]; lia|]. set_solver.
Qed.

Lemma fold_group_spec l (R : lvl) : R ≠ [] → Z.of_nat (length R) ≤ 255 →
  fold_group (to_entry fid l <$> R) = (Some ((group R).1, default "" (last (R.*1))), (group R).2).
Proof.
  destruct R as [|e R]; [done|]. intros _ Hlen. cbn [length] in Hlen. unfold fold_group.
  cbn [fmap list_fmap foldl to_entry fst snd fk_left_bound fv_size fv_bitmap]. rewrite Z.mod_small by lia.
  pose proof (fold_group_from l R e.1 e.1 (0 + 1) (∅ ∪ fv_bitmap e.2) ltac:(lia) ltac:(lia)) as Hf.
  unfold to_entry in Hf at 1. etransitivity; [exact Hf|]. unfold group. cbn [head fmap option_fmap option_map default from_option id fst snd].
  f_equal.
  - cbn [last]. rewrite last_cons. by destruct (last (R.*1)).
  - f_equal; [cbn [length]; lia|]. cbn [list_fmap union_list]. set_solver.
Qed.

Definition nonempty_bitmaps (L : lvl) : Prop := ∀ e, e ∈ L → fv_bitmap e.2 ≠ ∅.

Lemma group_nonempty (R : lvl) : R ≠ [] → nonempty_bitmaps R → bm_is_empty (fv_bitmap (group R).2) = false.
Proof.
  intros Hne HR. unfold bm_is_empty. apply bool_decide_eq_false. destruct R as [|e R]; [done|]. cbn.
  assert (fv_bitmap e.2 ≠ ∅) by (apply HR; by left). intros [He _]%empty_union_L. done.
Qed.

Lemma grouping_nonempty C P : grouping C P → nonempty_bitmaps C → nonempty_bitmaps P.
Proof.
  intros (segs & Hne & <- & ->) HC e (S & -> & HS)%list_elem_of_fmap. rewrite Forall_forall in Hne.
  assert (HSne : nonempty_bitmaps S) by (intros x Hx; apply HC, elem_of_concat; eauto).
  pose proof (group_nonempty S (Hne S HS) HSne) as Hb. unfold bm_is_empty in Hb. by apply bool_decide_eq_false in Hb.
Qed.

Lemma after_bound_trans lo x y : after_bound lo x = true → b_lt x y = true → after_bound lo y = true.
Proof. destruct lo as [b|b|]; cbn; [|intros; by eapply b_lt_trans|done]. intros H1 H2. by apply (b_le_trans _ x); [|apply b_lt_le]. Qed.

(** The children after those of a group. *)
Lemma range_next C lo hi R1 R2 x : lsorted C → range_of lo hi C = R1 ++ R2 → last (R1.*1) = Some x →
  range_of (Excluded x) hi C = R2.
Proof.
  intros HC Heq Hx. assert (HR : lsorted (R1 ++ R2)) by (rewrite <-Heq; by apply lsorted_filter).
  apply lsorted_app in HR as (HR1 & HR2 & Hlt). rewrite fmap_last in Hx. destruct (last R1) as [y|] eqn:Hy; [|done]. injection Hx as <-.
  apply last_Some in Hy as [R1' ->].
  assert (Hy : y ∈ range_of lo hi C) by (rewrite Heq, !elem_of_app; left; right; by left).
  unfold range_of in Hy. apply list_elem_of_filter in Hy as [[Hlo _]%andb_true_iff _].
  apply lsorted_ext; [by apply lsorted_filter|done|]. intros e. unfold range_of. rewrite list_elem_of_filter. cbn [after_bound]. split.
  - intros [[Hye Hhi]%andb_true_iff HeC].
    assert (He : e ∈ range_of lo hi C).
    { unfold range_of. apply list_elem_of_filter. split; [|done]. rewrite Hhi, (after_bound_trans lo y.1 e.1) by done. done. }
    rewrite Heq, elem_of_app in He. destruct He as [He|?]; [|done]. exfalso.
    apply elem_of_app in He as [He| ->%list_elem_of_singleton]; [|by rewrite b_lt_irrefl in Hye].
    apply lsorted_app in HR1 as (_ & _ & H1). rewrite (b_lt_asym e.1 y.1) in Hye; [done|]. apply H1; [done|by left].
  - intros He. assert (Hin : e ∈ range_of lo hi C) by (rewrite Heq, elem_of_app; by right).
    unfold range_of in Hin. apply list_elem_of_filter in Hin as [[_ Hhi]%andb_true_iff HeC]. split; [|done].
    rewrite Hhi, Hlt; [done| |done]. apply elem_of_app. right. by left.
Qed.

(** One turn of the loop: nothing is left, or a group is written. *)
Lemma group_loop_step fuel db l rb lo hi : db_sorted db → lo ≠ Unbounded → nonempty_bitmaps (level_of fid db l) →
  let R := range_of lo hi (level_of fid db l) in
  let loop := λ fuel db rb lo, compute_group_loop gs mx fid fuel db (S l) l rb (key_bound fid l lo) (key_end fid l hi) in
  (R = [] ∧ loop (S fuel) db rb lo = Ok (match lo with Included _ => db_delete db (key (S l) rb) | _ => db end)) ∨
  ∃ R1 R2 x, R = R1 ++ R2 ∧ R1 ≠ [] ∧ last (R1.*1) = Some x ∧
    loop (S fuel) db rb lo =
      loop fuel (db_put (match lo with
                         | Included b => if negb (b =? (group R1).1)%string then db_delete db (key (S l) rb) else db
                         | _ => db
                         end) (key (S l) (group R1).1) (group R1).2) x (Excluded x).
Proof.
  intros Hs Hlo Hbm R loop. destruct (range_level fid db l lo hi Hs Hlo) as (rest & Hrange & Hrest). fold R in Hrange.
  set (p := λ e : FacetGroupKey * FacetGroupValue, (fk_field_id e.1 =? fid) && (fk_level e.1 =? l)%nat).
  assert (Hp1 : Forall (λ e, p e = true) (to_entry fid l <$> R)).
  { apply Forall_fmap, Forall_forall. intros e _. unfold p, compose. cbn. by rewrite Z.eqb_refl, Nat.eqb_refl. }
  assert (Hp2 : Forall (λ e, p e = false) rest).
  { eapply Forall_impl; [exact Hrest|]. intros e He. unfold p. apply andb_false_iff.
    destruct (Z.eqb_spec (fk_field_id e.1) fid), (Nat.eqb_spec (fk_level e.1) l); naive_solver. }
  unfold loop at 1 2. cbn [compute_group_loop]. rewrite Hrange. change (λ e, _ && _) with p. rewrite (take_while_ztake p _ _ Hp1 Hp2).
  set (n := pick_group_size gs mx _). destruct (decide (R = [])) as [He|He].
  { left. split; [done|]. rewrite He. cbn. by destruct lo. }
  right. assert (Hn : 1 ≤ n ≤ 255).
  { apply pick_group_size_bounds. destruct (ztake_split (mx * 2) ((to_entry fid l <$> R) ++ rest)) as (r & _ & Hne & Hlen); [by destruct R|lia|].
    split; [|done]. destruct (ztake (mx * 2) _); [done|]. cbn [length]. lia. }
  destruct (ztake_split n R He ltac:(lia)) as (R2 & HR & HR1 & Hlen). set (R1 := ztake n R) in *.
  assert (Hz : ztake n (to_entry fid l <$> R) = to_entry fid l <$> R1).
  { unfold R1. clear. generalize n. induction R as [|e R IH]; intros m; [done|]. cbn [fmap list_fmap ztake]. destruct (0 <? m); [|done].
    cbn. by rewrite IH. }
  rewrite Hz, fold_group_spec by (done || lia).
  destruct (last (R1.*1)) as [x|] eqn:Hx; [|apply last_None in Hx; by destruct R1]. exists R1, R2, x. split_and!; [done|done|done|].
  rewrite group_nonempty; [|done|].
  - cbn [default from_option id]. destruct lo as [b|b|]; [| |done]; cbn [key_bound fk_left_bound]; [by destruct (negb _)|done].
  - intros e Hin. apply Hbm. assert (HinR : e ∈ R) by (rewrite HR; apply elem_of_app; by left).
    unfold R, range_of in HinR. by apply list_elem_of_filter in HinR as [_ ?].
Qed.

(** What the loop writes: the groups of the children left. *)
Definition wrote (l : nat) (R : lvl) (old : lvl) (db db' : FacetDb) : Prop :=
  frame fid (λ l', l' = S l) db db' ∧ ∃ segs, Forall (λ S, S ≠ []) segs ∧ concat segs = R ∧
  ∀ e, e ∈ level_of fid db' (S l) ↔ e ∈ group <$> segs ∨ (e ∈ old ∧ e.1 ∉ (group <$> segs).*1).

Lemma wrote_nil l db : db_sorted db → wrote l [] (level_of fid db (S l)) db db.
Proof.
  intros Hs. split; [by apply frame_refl|]. exists []. split_and!; [constructor|done|]. intros e. cbn. rewrite !elem_of_nil. tauto.
Qed.

Lemma wrote_cons l R1 R2 db1 db2 db3 old : R1 ≠ [] → db_sorted db1 → db2 = db_put db1 (key (S l) (group R1).1) (group R1).2 →
  (∀ k, k ∈ R2.*1 → k ≠ (group R1).1) →
  (∀ e, e ∈ level_of fid db1 (S l) ∧ e.1 ≠ (group R1).1 ↔ e ∈ old ∧ e.1 ≠ (group R1).1) →
  wrote l R2 (level_of fid db2 (S l)) db2 db3 → wrote l (R1 ++ R2) old db1 db3.
Proof.
  intros Hne Hs Hdb2 Hk Hold [Hf (segs & Hsegs & HR2 & Hin)]. split.
  { eapply frame_trans; [|exact Hf]. rewrite Hdb2. by apply frame_put. }
  exists (R1 :: segs). split_and!; [by constructor|cbn; by rewrite HR2|]. intros e. rewrite Hin, Hdb2, level_put, fmap_cons, fmap_cons, !elem_of_cons.
  assert (Hk' : ∀ k, k ∈ (group <$> segs).*1 → k ≠ (group R1).1).
  { intros k Hin'. apply Hk. apply (grouping_keys _ (group <$> segs)); [|done]. by exists segs. }
  specialize (Hold e). split.
  - intros [?|[[He|He] Hno]]; [tauto|left; left; by destruct (group R1)|]. destruct (proj1 Hold He). tauto.
  - intros [[->|?]|[He Hn]]; [|tauto|].
    + right. split; [left; by destruct (group R1)|]. intros Hin'. by apply (Hk' _ Hin').
    + right. split; [|tauto]. right. apply Hold. tauto.
Qed.

Lemma range_keys_next C lo hi R1 R2 : lsorted C → range_of lo hi C = R1 ++ R2 → R1 ≠ [] → ∀ k, k ∈ R2.*1 → k ≠ (group R1).1.
Proof.
  intros HC Heq Hne k (e & -> & He)%list_elem_of_fmap. destruct (group_key R1 Hne) as (x & l' & -> & ->). intros Hk.
  assert (HR : lsorted ((x :: l') ++ R2)) by (rewrite <-Heq; by apply lsorted_filter). apply lsorted_app in HR as (_ & _ & Hlt).
  specialize (Hlt x e ltac:(by left) He). by rewrite Hk, b_lt_irrefl in Hlt.
Qed.

(** The loop after its first group. *)
Lemma group_loop_rest fuel l hi : ∀ db x, db_sorted db → nonempty_bitmaps (level_of fid db l) →
  (length (range_of (Excluded x) hi (level_of fid db l)) < fuel)%nat →
  ∃ db', compute_group_loop gs mx fid fuel db (S l) l x (Excluded (key l x)) (key_end fid l hi) = Ok db' ∧
    wrote l (range_of (Excluded x) hi (level_of fid db l)) (level_of fid db (S l)) db db'.
Proof.
  induction fuel as [|fuel IH]; intros db x Hs Hbm Hfuel; [lia|].
  destruct (group_loop_step fuel db l x (Excluded x) hi Hs ltac:(done) Hbm) as [[HR Hloop]|(R1 & R2 & y & HR & Hne & Hy & Hloop)].
  { exists db. split; [exact Hloop|]. rewrite HR. by apply wrote_nil. }
  cbn [key_bound] in Hloop. rewrite Hloop. set (db2 := db_put db _ _) in *.
  assert (Hf : frame fid (λ l', l' = S l) db db2) by (by apply frame_put).
  assert (Hl : level_of fid db2 l = level_of fid db l) by (apply (frame_level fid _ _ _ l Hf Hs); lia).
  assert (Hsl : lsorted (level_of fid db l)) by (by apply level_of_sorted).
  pose proof (range_next _ _ _ _ _ _ Hsl HR Hy) as Hnext.
  destruct (IH db2 y) as (db' & Heq & Hw); [apply Hf|by rewrite Hl|rewrite Hl, Hnext|].
  { rewrite HR, length_app in Hfuel. destruct R1; [done|]. cbn [length] in Hfuel. lia. }
  exists db'. split; [exact Heq|]. rewrite HR. eapply wrote_cons; [exact Hne|exact Hs|reflexivity| |done|].
  - by eapply range_keys_next.
  - by rewrite Hl, Hnext in Hw.
Qed.

Lemma range_length db l lo hi : (length (range_of lo hi (level_of fid db l)) ≤ length db)%nat.
Proof.
  unfold range_of. etransitivity; [apply length_filter|]. unfold level_of. rewrite length_fmap. apply length_filter.
Qed.

(** The groups from a bound on: its entry is removed, then they are written. *)
Lemma group_loop_spec db l d hi : db_sorted db → nonempty_bitmaps (level_of fid db l) →
  ∃ db', compute_group_loop gs mx fid (S (length db)) db (S l) l d (Included (key l d)) (key_end fid l hi) = Ok db' ∧
    wrote l (from_to d hi (level_of fid db l)) (filter (λ e, e.1 ≠ d) (level_of fid db (S l))) db db'.
Proof.
  intros Hs Hbm. assert (Hsl : lsorted (level_of fid db l)) by (by apply level_of_sorted).
  assert (Hdel : frame fid (λ l', l' = S l) db (db_delete db (key (S l) d))) by (by apply frame_delete).
  destruct (group_loop_step (length db) db l d (Included d) hi Hs ltac:(done) Hbm) as [[HR Hloop]|(R1 & R2 & y & HR & Hne & Hy & Hloop)].
  - eexists. split; [exact Hloop|]. split; [exact Hdel|]. exists []. split; [by apply Forall_nil|]. split; [symmetry; exact HR|].
    intros e. cbn. rewrite level_delete, list_elem_of_filter, !elem_of_nil. tauto.
  - cbn [key_bound] in Hloop. rewrite Hloop. set (db1 := if negb _ then _ else _) in *. set (db2 := db_put db1 _ _) in *.
    assert (Hf1 : frame fid (λ l', l' = S l) db db1) by (unfold db1; destruct (negb _); [done|by apply frame_refl]).
    assert (Hf2 : frame fid (λ l', l' = S l) db db2) by (eapply frame_trans; [exact Hf1|apply frame_put, Hf1]).
    assert (Hl : level_of fid db2 l = level_of fid db l) by (apply (frame_level fid _ _ _ l Hf2 Hs); lia).
    pose proof (range_next _ _ _ _ _ _ Hsl HR Hy) as Hnext.
    destruct (group_loop_rest (length db) l hi db2 y) as (db' & Heq & Hw); [apply Hf2|by rewrite Hl|rewrite Hl, Hnext|].
    { pose proof (range_length db l (Included d) hi) as Hlen. rewrite HR, length_app in Hlen. destruct R1; [done|]. cbn [length] in Hlen. lia. }
    exists db'. split; [exact Heq|]. rewrite Hl, Hnext in Hw.
    assert (Hw1 : wrote l (R1 ++ R2) (filter (λ e, e.1 ≠ d) (level_of fid db (S l))) db1 db').
    { eapply wrote_cons; [exact Hne|apply Hf1|reflexivity|by eapply range_keys_next| |exact Hw].
      intros e. rewrite list_elem_of_filter. unfold db1. destruct (String.eqb_spec d (group R1).1) as [Hd|Hd]; cbn [negb].
      - rewrite <-Hd. tauto.
      - rewrite level_delete. tauto. }
    rewrite <-HR in Hw1. destruct Hw1 as [Hf (segs & Hsegs)]. split; [exact (frame_trans _ _ _ _ _ Hf1 Hf)|]. exists segs. exact Hsegs.
Qed.

(** [compute_parent_group] groups again the children from a bound to the next. *)
Lemma compute_parent_group_spec db l d : db_sorted db → nonempty_bitmaps (level_of fid db l) →
  ∃ db', compute_parent_group gs mx fid db (S l) d = Ok db' ∧ frame fid (λ l', l' = S l) db db' ∧
    regrouped (level_of fid db l) (level_of fid db (S l)) d (level_of fid db' (S l)).
Proof.
  intros Hs Hbm. unfold compute_parent_group. pose proof (next_sibling fid db (S l) d Hs) as Hn. cbn [Init.Nat.pred] in Hn. rewrite Hn. clear Hn.
  set (C := level_of fid db l) in *. set (P := level_of fid db (S l)).
  destruct (group_loop_spec db l d (next_bound_of P d) Hs Hbm) as (db' & Heq & Hf & segs & Hne & Hsegs & Hin).
  exists db'. split; [exact Heq|]. split; [exact Hf|]. exists segs. split; [done|]. split; [done|].
  assert (HC : lsorted C) by (by apply level_of_sorted). assert (HP : lsorted P) by (by apply level_of_sorted).
  apply lsorted_ext; [apply level_of_sorted, Hf|apply (regrouped_sorted C P d); [done|done|by exists segs]|].
  intros e. rewrite Hin, !elem_of_app, !list_elem_of_filter. split.
  - intros [?|[[Hd He] _]]; [tauto|]. destruct (b_lt_total e.1 d) as [?|[?|?]]; tauto.
  - assert (Hk : b_lt d e.1 = true → e ∈ P → e.1 ∉ (group <$> segs).*1).
    { intros Hd He Hg. apply (grouping_keys (from_to d (next_bound_of P d) C)) in Hg; [|by exists segs].
      apply list_elem_of_fmap in Hg as (x & Hx & [Hb _]%list_elem_of_filter). rewrite <-Hx in Hb.
      rewrite (next_key_before P d e.1 e.1) in Hb; [done|done| |done|apply b_le_refl]. apply list_elem_of_fmap. eauto. }
    intros [[Hlt He]|[?|[Hlt He]]]; [|tauto|].
    + right. split; [split; [|done]; intros Heq'; by rewrite Heq', b_lt_irrefl in Hlt|]. intros Hg.
      apply (grouping_keys (from_to d (next_bound_of P d) C)) in Hg; [|by exists segs].
      apply list_elem_of_fmap in Hg as (x & Hx & [[Hb _]%andb_true_iff _]%list_elem_of_filter). rewrite <-Hx in Hb.
      by rewrite b_le_not_lt, Hlt in Hb.
    + right. split; [split; [|done]; intros Heq'; by rewrite Heq', b_lt_irrefl in Hlt|]. by apply Hk.
Qed.

(** What becomes of a level when the groups at [D] are computed again. *)
Definition redone (l : nat) (db : FacetDb) (D : list string) (db' : FacetDb) : Prop :=
  match l with
  | O => level_of fid db' O = level_of fid db O
  | S l0 => recomputed (level_of fid db l0) (level_of fid db l) D (level_of fid db' l)
  end.
(** The entries below a level have documents. *)
Definition below_ok (l : nat) (db : FacetDb) : Prop :=
  match l with O => True | S l0 => nonempty_bitmaps (level_of fid db l0) end.
Local Notation near l := (λ l', l' = l ∨ l' = S l).

Lemma redone_same l db db' : db_sorted db → frame fid (λ l', l' = S l) db db' → redone l db [] db'.
Proof. intros Hs Hf. destruct l as [|l]; cbn; [apply (frame_level fid _ _ _ _ Hf Hs); lia|]. rewrite (frame_level fid _ _ _ (S l) Hf Hs) by lia. constructor. Qed.

Lemma redone_trans l db1 db2 db3 D1 D2 : db_sorted db1 → frame fid (near l) db1 db2 →
  redone l db1 D1 db2 → redone l db2 D2 db3 → redone l db1 (D1 ++ D2) db3.
Proof.
  intros Hs Hf H1 H2. destruct l as [|l]; cbn in *; [congruence|]. apply recomputed_app. eexists. split; [exact H1|].
  by rewrite (frame_level fid _ _ _ l Hf Hs) in H2 by lia.
Qed.

Lemma below_ok_frame l db db' : db_sorted db → frame fid (near l) db db' → below_ok l db → below_ok l db'.
Proof. intros Hs Hf. destruct l as [|l]; [done|]. cbn. by rewrite (frame_level fid _ _ _ l Hf Hs) by lia. Qed.

Lemma compute_group_at l db d : db_sorted db → below_ok l db →
  ∃ db', compute_parent_group gs mx fid db l d = Ok db' ∧ frame fid (λ l', l' = l) db db' ∧ redone l db [d] db'.
Proof.
  intros Hs Hb. destruct l as [|l]; [exists db; split_and!; [done|by apply frame_refl|done]|].
  destruct (compute_parent_group_spec db l d Hs Hb) as (db' & Heq & Hf & Hr). exists db'. split_and!; [done|done|].
  econstructor; [exact Hr|constructor].
Qed.

Lemma compute_groups_at l children : ∀ db, db_sorted db → below_ok l db →
  ∃ db', compute_parent_groups gs mx fid db l children = Ok db' ∧ frame fid (λ l', l' = l) db db' ∧ redone l db (facet_value <$> children) db'.
Proof.
  induction children as [|c children IH]; intros db Hs Hb.
  { exists db. split_and!; [done|by apply frame_refl|]. apply redone_same; [done|]. by apply frame_refl. }
  destruct (compute_group_at l db (facet_value c) Hs Hb) as (db1 & Heq1 & Hf1 & Hr1).
  assert (Hn1 : frame fid (near l) db db1) by (eapply frame_weaken; [|exact Hf1]; tauto).
  destruct (IH db1) as (db2 & Heq2 & Hf2 & Hr2); [apply Hf1|by eapply below_ok_frame|].
  exists db2. split_and!; [|by eapply frame_trans|].
  - unfold compute_parent_groups. cbn [for_each]. rewrite Heq1. cbn [mbind outcome_bind]. exact Heq2.
  - rewrite fmap_cons. by eapply (redone_trans l db db1 db2 [facet_value c]).
Qed.

(** A child and those after it. *)
Lemma compute_all_at {A} l db c children (k : FacetDb → outcome Stuck A) : db_sorted db → below_ok l db →
  ∃ db', (db ← compute_parent_group gs mx fid db l (facet_value c); db ← compute_parent_groups gs mx fid db l children; k db) = k db' ∧
    frame fid (λ l', l' = l) db db' ∧ redone l db (facet_value <$> c :: children) db'.
Proof.
  intros Hs Hb. destruct (compute_groups_at l (c :: children) db Hs Hb) as (db' & Heq & Hf & Hr). exists db'. split_and!; [|done|done].
  unfold compute_parent_groups in Heq |- *. cbn [for_each] in Heq. destruct (compute_parent_group gs mx fid db l (facet_value c)); [|done..].
  cbn [mbind outcome_bind] in Heq |- *. by rewrite Heq.
Qed.

(** The highest level has no parents. *)
Lemma current_level_top l db children : db_sorted db → below_ok l db → level_of fid db (S l) = [] → children ≠ [] →
  ∃ db', current_level gs mx fid db l children None [] = Ok (db', None) ∧ frame fid (λ l', l' = l) db db' ∧
    redone l db (facet_value <$> children) db'.
Proof.
  intros Hs Hb Htop Hne. destruct children as [|c children]; [done|]. cbn [current_level].
  assert (Hp : head (reverse (db_range_bounds db (Excluded (key (S l) "")) (Included (key (S l) (facet_value c))))) = None).
  { pose proof (parent_before fid db (S l) (facet_value c) Hs) as Hp. rewrite Htop in Hp. specialize (Hp ltac:(by intros x ?%elem_of_nil)).
    by destruct (head _). }
  rewrite Hp, level_entries_of, Htop. cbn [fmap list_fmap head]. by apply (compute_all_at l db c children (λ db, Ok (db, None))).
Qed.

Lemma level_first_removed l db p v : db_sorted db → head (level_of fid db l) = Some (p, v) →
  level_of fid (db_delete db (key l p)) l = tail (level_of fid db l).
Proof.
  intros Hs Hh. pose proof (level_of_sorted fid db l Hs) as HP.
  assert (Hd : lsorted (level_of fid (db_delete db (key l p)) l)) by (by apply level_of_sorted, db_sorted_filter).
  pose proof (level_delete fid db l p) as Hin. destruct (level_of fid db l) as [|x P]; [done|]. injection Hh as ->.
  apply StronglySorted_inv in HP as [HP Hx]. rewrite Forall_forall in Hx. apply lsorted_ext; [done|done|]. intros e. rewrite Hin, elem_of_cons. cbn [tail]. split.
  - intros [[->|?] Hk]; [done|done].
  - intros He. split; [by right|]. intros Hk. specialize (Hx e He). cbn in Hx. by rewrite Hk, b_lt_irrefl in Hx.
Qed.

(** The children of a level: their groups are computed again, and the parents
    are those found by [parents]. *)
Lemma current_level_spec l P children : P ≠ [] → (∀ x, x ∈ P.*1 → x ≠ ""%string) →
  ∀ db last_parent acc, db_sorted db → below_ok l db → level_of fid db (S l) = P →
  let '(changed, removed) := parents (P.*1) (facet_value <$> children) last_parent in
  ∃ db', current_level gs mx fid db l children last_parent acc = Ok (db', Some (acc ++ (mkFacetFieldIdChange <$> changed))) ∧
    frame fid (near l) db db' ∧ redone l db (facet_value <$> children) db' ∧
    level_of fid db' (S l) = if removed then tail P else P.
Proof.
  intros HPne Hne. induction children as [|c children IH]; intros db last_parent acc Hs Hb HP.
  { exists db. cbn. rewrite app_nil_r. split_and!; [done|by apply frame_refl|apply redone_same; [done|by apply frame_refl]|done]. }
  rewrite fmap_cons. cbn [parents current_level]. set (d := facet_value c).
  assert (Hgo : ∀ lp acc', let '(changed, removed) := parents (P.*1) (facet_value <$> children) lp in
    ∃ db', (db ← compute_parent_group gs mx fid db l d; current_level gs mx fid db l children lp acc') =
        Ok (db', Some (acc' ++ (mkFacetFieldIdChange <$> changed))) ∧
      frame fid (near l) db db' ∧ redone l db (d :: (facet_value <$> children)) db' ∧ level_of fid db' (S l) = if removed then tail P else P).
  { intros lp acc'. destruct (compute_group_at l db d Hs Hb) as (db1 & Heq1 & Hf1 & Hr1).
    assert (Hn1 : frame fid (near l) db db1) by (eapply frame_weaken; [|exact Hf1]; tauto).
    specialize (IH db1 lp acc' (proj1 Hf1) ltac:(by eapply below_ok_frame)).
    rewrite (frame_level fid _ _ _ (S l) Hf1 Hs) in IH by lia. specialize (IH HP).
    destruct (parents _ _ lp) as [changed removed]. destruct IH as (db' & Heq & Hf & Hr & Hl). exists db'.
    rewrite Heq1. cbn [mbind outcome_bind]. split_and!; [exact Heq|by eapply frame_trans| |done].
    by eapply (redone_trans l db db1 db' [d]). }
  destruct (match last_parent with Some p => b_le p d | None => false end) eqn:Hlast; [apply Hgo|].
  pose proof (parent_before fid db (S l) d Hs) as Hp. rewrite HP in Hp. specialize (Hp Hne).
  destruct (head (reverse _)) as [[pk pv]|]; rewrite <-Hp; cbn [fmap option_fmap option_map compose fst].
  - specialize (Hgo (Some (fk_left_bound pk)) (acc ++ [mkFacetFieldIdChange (fk_left_bound pk)])).
    destruct (parents _ _ (Some _)) as [changed removed]. destruct Hgo as (db' & Heq & Hrest). exists db'. split; [|done].
    etransitivity; [exact Heq|]. by rewrite <-app_assoc.
  - rewrite level_entries_of, HP. destruct P as [|[p v] P]; [done|]. cbn [fmap list_fmap head to_entry fst fk_field_id fk_level].
    rewrite Z.eqb_refl, Nat.eqb_refl. cbn [negb orb]. set (db1 := db_delete db (key (S l) p)).
    assert (Hf1 : frame fid (λ l', l' = S l) db db1) by (by apply frame_delete).
    assert (Hn1 : frame fid (near l) db db1) by (eapply frame_weaken; [|exact Hf1]; tauto).
    destruct (compute_all_at l db1 c children (λ db, Ok (db, Some (acc ++ [default c (last children)])))) as (db' & Heq & Hf & Hr);
      [apply Hf1|by eapply below_ok_frame|].
    exists db'. split_and!.
    + etransitivity; [exact Heq|]. rewrite fmap_last. unfold d. cbn. destruct (last children) as [[x]|], c; done.
    + eapply frame_trans; [exact Hn1|]. eapply frame_weaken; [|exact Hf]. tauto.
    + apply (redone_trans l db db1 db' []); [done|done|by apply redone_same|exact Hr].
    + rewrite (frame_level fid _ _ _ (S l) Hf) by (apply Hf1 || lia). unfold db1. rewrite (level_first_removed (S l) db p v); [by rewrite HP|done|by rewrite HP].
Qed.

(** ** The levels, one after the other *)

Definition valid_keys (L : lvl) : Prop := ∀ k, k ∈ L.*1 → valid_facet_value k = true.

(** The levels of the field before the values changed. *)
Record old_levels (old : nat → lvl) (h : nat) : Prop := {
  ol_sorted : lsorted (old O);
  ol_grouping : ∀ j, (j < h)%nat → grouping (old j) (old (S j));
  ol_nonempty : ∀ j, (0 < j ≤ h)%nat → old j ≠ [];
  ol_top : ∀ j, (h < j)%nat → old j = [];
  ol_valid : valid_keys (old O);
}.

Lemma old_level_facts old h j : old_levels old h → lsorted (old j) ∧ valid_keys (old j).
Proof.
  intros Ho. induction j as [|j [IHs IHv]]; [split; apply Ho|]. destruct (decide (j < h)%nat) as [Hj|Hj].
  - pose proof (ol_grouping _ _ Ho j Hj) as Hg. split; [by eapply grouping_sorted|]. intros k Hk. apply IHv. by eapply grouping_keys.
  - rewrite (ol_top _ _ Ho (S j)) by lia. split; [constructor|by intros k ?%elem_of_nil].
Qed.

(** What is known when the changes [D] of a level are about to be followed. *)
Record following (old : nat → lvl) (l : nat) (db : FacetDb) (D : list string) : Prop := {
  fo_sorted : db_sorted db;
  fo_upper : ∀ j, (l < j)%nat → level_of fid db j = old j;
  fo_lower : ∀ j, (S j < l)%nat → grouping (level_of fid db j) (level_of fid db (S j));
  fo_bitmaps : nonempty_bitmaps (level_of fid db O);
  fo_descending : descending D;
  fo_nonempty : D ≠ [];
  fo_valid : ∀ d, d ∈ D → valid_facet_value d = true;
  fo_ready : ∀ db', redone l db D db' →
    delta (old l) (level_of fid db' l) D ∧ lsorted (level_of fid db' l) ∧
    match l with O => True | S l0 => grouping (level_of fid db l0) (level_of fid db' l) end;
}.

Lemma following_below old l db D : following old l db D → below_ok l db.
Proof.
  intros Hf. destruct l as [|l]; [done|]. cbn. assert (Hj : ∀ j, (j ≤ l)%nat → nonempty_bitmaps (level_of fid db j)); [|by apply Hj].
  induction j as [|j IH]; intros Hj; [apply Hf|]. eapply grouping_nonempty; [apply (fo_lower _ _ _ _ Hf); lia|]. apply IH. lia.
Qed.

(** The levels under [S l] are groups once those at [D] are computed again. *)
Lemma following_lower old l db D db' : following old l db D → frame fid (near l) db db' → redone l db D db' →
  ∀ j, (j < l)%nat → grouping (level_of fid db' j) (level_of fid db' (S j)).
Proof.
  intros Hf Hfr Hr j Hj. pose proof (fo_sorted _ _ _ _ Hf) as Hs. destruct (fo_ready _ _ _ _ Hf db' Hr) as (_ & _ & Hg).
  rewrite (frame_level fid _ _ _ j Hfr Hs) by lia. destruct (decide (S j = l)) as [<-|Hne]; [done|].
  rewrite (frame_level fid _ _ _ (S j) Hfr Hs) by lia. apply (fo_lower _ _ _ _ Hf). lia.
Qed.

Lemma redone_0 l db D db' : db_sorted db → frame fid (near l) db db' → redone l db D db' → level_of fid db' O = level_of fid db O.
Proof. intros Hs Hf Hr. destruct l as [|l]; [exact Hr|]. apply (frame_level fid _ _ _ _ Hf Hs). lia. Qed.

(** From a level to the next. *)
Lemma following_next old h l db D : old_levels old h → (l < h)%nat → following old l db D →
  ∃ db' changed, current_level gs mx fid db l (mkFacetFieldIdChange <$> D) None [] = Ok (db', Some (mkFacetFieldIdChange <$> changed)) ∧
    changed ≠ [] ∧ frame fid (near l) db db' ∧ redone l db D db' ∧ following old (S l) db' changed.
Proof.
  intros Ho Hl Hf. pose proof (fo_sorted _ _ _ _ Hf) as Hs. pose proof (fo_upper _ _ _ _ Hf (S l) ltac:(lia)) as HP.
  destruct (old_level_facts old h l Ho) as [HOs HOv]. destruct (old_level_facts old h (S l) Ho) as [_ HPv].
  assert (HPe : ∀ x, x ∈ (old (S l)).*1 → x ≠ ""%string) by (intros x Hx ->; by specialize (HPv _ Hx)).
  assert (HPne : old (S l) ≠ []) by (apply (ol_nonempty _ _ Ho); lia).
  pose proof (current_level_spec l (old (S l)) (mkFacetFieldIdChange <$> D) HPne HPe db None [] Hs (following_below _ _ _ _ Hf) HP) as Hcl.
  assert (HD : facet_value <$> (mkFacetFieldIdChange <$> D) = D).
  { rewrite <-list_fmap_compose. etransitivity; [|apply list_fmap_id]. by apply list_fmap_ext. }
  rewrite HD in Hcl. destruct (parents ((old (S l)).*1) D None) as [changed removed] eqn:Hpar.
  destruct Hcl as (db' & Heq & Hfr & Hr & HP'). exists db', changed. destruct (fo_ready _ _ _ _ Hf db' Hr) as (Hdelta & HN & _).
  destruct (level_step (old l) (old (S l)) (level_of fid db' l) D changed removed) as (Hcne & Hcd & Hck & Hstep); try done;
    [by apply (ol_grouping _ _ Ho)|apply Hf|apply Hf|].
  split_and!; [exact Heq|done|done|done|]. constructor; [apply Hfr|..|done|done| |].
  - intros j Hj. rewrite (frame_level fid _ _ _ j Hfr Hs) by lia. apply (fo_upper _ _ _ _ Hf). lia.
  - intros j Hj. eapply following_lower; [exact Hf|done|done|lia].
  - rewrite (redone_0 l db D db' Hs Hfr Hr). apply Hf.
  - intros d Hd. destruct (Hck d Hd) as [?|?]; [by apply HPv|by apply (fo_valid _ _ _ _ Hf)].
  - intros db'' Hr'. cbn in Hr'. rewrite HP' in Hr'. destruct (Hstep _ Hr') as (Hg & Hd & Hsf). done.
Qed.

(** The levels are groups again. *)
Lemma find_changed_parents_spec old h n : old_levels old h → ∀ l db D, (l ≤ h)%nat → (h < l + n)%nat → following old l db D →
  ∃ db', find_changed_parents_from gs mx fid n db l (mkFacetFieldIdChange <$> D) = Ok db' ∧ frame fid (λ _, True) db db' ∧
    level_of fid db' O = level_of fid db O ∧
    (∀ j, (j < h)%nat → grouping (level_of fid db' j) (level_of fid db' (S j))) ∧ ∀ j, (h < j)%nat → level_of fid db' j = [].
Proof.
  intros Ho. induction n as [|n IH]; intros l db D Hl Hn Hf; [lia|]. cbn [find_changed_parents_from].
  rewrite (list_filter_all _ (mkFacetFieldIdChange <$> D)) by (apply Forall_fmap, Forall_forall; intros d Hd; by apply (fo_valid _ _ _ _ Hf)).
  pose proof (fo_sorted _ _ _ _ Hf) as Hs. destruct (decide (l = h)) as [->|Hlh].
  - destruct (current_level_top h db (mkFacetFieldIdChange <$> D) Hs (following_below _ _ _ _ Hf)) as (db' & Heq & Hfr & Hr).
    { rewrite (fo_upper _ _ _ _ Hf (S h)) by lia. apply (ol_top _ _ Ho). lia. }
    { intros Hnil%fmap_nil_inv. by apply (fo_nonempty _ _ _ _ Hf). }
    replace (facet_value <$> (mkFacetFieldIdChange <$> D)) with D in Hr by (rewrite <-list_fmap_compose; symmetry; apply list_fmap_id).
    assert (Hn' : frame fid (near h) db db') by (eapply frame_weaken; [|exact Hfr]; tauto).
    rewrite Heq. cbn [mbind outcome_bind]. exists db'. split_and!; [done|by eapply frame_weaken; [|exact Hfr]|by eapply redone_0|by eapply following_lower|].
    intros j Hj. rewrite (frame_level fid _ _ _ j Hfr Hs) by lia. rewrite (fo_upper _ _ _ _ Hf j Hj). by apply (ol_top _ _ Ho).
  - destruct (following_next old h l db D Ho ltac:(lia) Hf) as (db1 & changed & Heq & Hcne & Hfr & Hr & Hf1).
    rewrite Heq. cbn [mbind outcome_bind]. destruct (IH (S l) db1 changed ltac:(lia) ltac:(lia) Hf1) as (db' & Heq' & Hfr' & H0 & Hg & Ht).
    exists db'. split_and!; [|eapply frame_trans; [|exact Hfr']; by eapply frame_weaken; [|exact Hfr]| |done|done].
    + destruct changed; [done|]. exact Heq'.
    + rewrite H0. by eapply redone_0.
Qed.
End compute.

(** ** Levels and forests *)

Section forests.
Variable fid : Z.

(** The entry of a group in its level. *)
Definition lv (h : nat) (t : tree h) : string * FacetGroupValue := (g_bound h t, mkFacetGroupValue (g_size h t) (docs (leaves h t))).

Lemma entry_lv h t : entry fid h t = to_entry fid h (lv h t).
Proof. done. Qed.

Lemma docs_children h (t : list (tree h)) : docs (leaves (S h) t) = ⋃ ((λ c, docs (leaves h c)) <$> t).
Proof. cbn [leaves]. induction t as [|c t IH]; [done|]. rewrite !fmap_cons. cbn [concat]. rewrite docs_app, IH. done. Qed.

Lemma group_node h (t : list (tree h)) : tree_ok (S h) t → group (lv h <$> t) = lv (S h) t.
Proof.
  intros Ht. change (lv (S h) t) with (g_bound (S h) t, mkFacetGroupValue (Z.of_nat (length t)) (docs (leaves (S h) t))). unfold group. f_equal.
  - pose proof (g_bound_head h t Ht) as Hb. destruct t as [|c t]; [by destruct Ht|]. cbn in Hb. injection Hb as Hb. cbn. exact Hb.
  - rewrite length_fmap. f_equal. rewrite docs_children, <-list_fmap_compose. done.
Qed.

Lemma forest_grouping h (F : list (tree (S h))) : Forall (tree_ok (S h)) F → grouping (lv h <$> concat F) (lv (S h) <$> F).
Proof.
  intros HF. exists ((λ t : list (tree h), (lv h <$> t : lvl)) <$> (F : list (list (tree h)))). split_and!.
  - apply Forall_fmap. eapply Forall_impl; [exact HF|]. intros t [Hne _]. cbn. by intros ?%fmap_nil_inv.
  - clear HF. induction F as [|t F IH]; [done|]. cbn [fmap list_fmap concat]. by rewrite fmap_app, IH.
  - rewrite <-list_fmap_compose. induction HF as [|t F Ht _ IH]; [done|]. rewrite !fmap_cons, IH. f_equal. symmetry. by apply group_node.
Qed.

(** The groups of a level cut the entries below as the groups of a forest. *)
Lemma grouping_forest h (F : list (tree h)) P : Forall (tree_ok h) F → grouping (lv h <$> F) P →
  ∃ G : list (tree (S h)), concat G = F ∧ Forall (tree_ok (S h)) G ∧ P = lv (S h) <$> G.
Proof.
  intros HF (segs & Hne & Heq & ->). revert F HF Heq. induction Hne as [|seg segs HS _ IH]; intros F HF Heq.
  - symmetry in Heq. apply fmap_nil_inv in Heq as ->. exists []. by repeat constructor.
  - cbn [concat] in Heq. symmetry in Heq. apply fmap_app_inv in Heq as (t & F' & HSt & HF' & ->). apply Forall_app in HF as [Ht HF].
    destruct (IH F' HF ltac:(by rewrite HF')) as (G & HG & HGok & HGP). exists (t :: G).
    assert (Htok : tree_ok (S h) t) by (split; [by intros ->|done]). split_and!; [cbn [concat]; by rewrite HG|by constructor|].
    rewrite !fmap_cons, HGP, HSt. f_equal. by apply group_node.
Qed.

Lemma level_of_app A B l : level_of fid (A ++ B) l = level_of fid A l ++ level_of fid B l.
Proof. unfold level_of, level_entries. by rewrite filter_app, fmap_app. Qed.

Lemma level_of_entries h (F : list (tree h)) l : level_of fid (entry fid h <$> F) l = if decide (l = h) then lv h <$> F else [].
Proof.
  unfold level_of, level_entries. case_decide as Hl.
  - subst. rewrite list_filter_all by (apply Forall_fmap, Forall_forall; done). by rewrite <-list_fmap_compose.
  - rewrite list_filter_none; [done|]. apply Forall_fmap, Forall_forall. cbn. intros t _ [_ ?]. congruence.
Qed.

Lemma level_of_above h F l : (h < l)%nat → level_of fid (field_entries fid h F) l = [].
Proof.
  intros Hl. unfold level_of, level_entries. rewrite list_filter_none; [done|]. eapply Forall_impl; [apply field_entries_below|].
  intros e [_ ?] [_ ?]. lia.
Qed.

Lemma level_of_top h (F : list (tree h)) : level_of fid (field_entries fid h F) h = lv h <$> F.
Proof.
  destruct h as [|h]; cbn [field_entries]; [by rewrite level_of_entries, decide_True|].
  rewrite level_of_app, level_of_above, level_of_entries, decide_True by lia. done.
Qed.

(** The levels of a forest. *)
Lemma forest_levels h : ∀ F : list (tree h), Forall (tree_ok h) F →
  (∀ j, (j < h)%nat → grouping (level_of fid (field_entries fid h F) j) (level_of fid (field_entries fid h F) (S j))) ∧
  (F ≠ [] → ∀ j, (j ≤ h)%nat → level_of fid (field_entries fid h F) j ≠ []).
Proof.
  induction h as [|h IH]; intros F HF.
  - split; [lia|]. intros Hne j Hj. replace j with O by lia. rewrite level_of_top. by intros ?%fmap_nil_inv.
  - assert (Hc : Forall (tree_ok h) (concat F)) by (apply Forall_concat; eapply Forall_impl; [exact HF|]; by intros t [_ ?]).
    destruct (IH (concat F) Hc) as [IH1 IH2].
    assert (Hlow : ∀ j, (j ≤ h)%nat → level_of fid (field_entries fid (S h) F) j = level_of fid (field_entries fid h (concat F)) j).
    { intros j Hj. cbn [field_entries]. rewrite level_of_app, level_of_entries, decide_False by lia. apply app_nil_r. }
    split.
    + intros j Hj. destruct (decide (j = h)) as [->|Hne].
      * rewrite level_of_top, Hlow, level_of_top by lia. by apply forest_grouping.
      * rewrite !Hlow by lia. apply IH1. lia.
    + intros HFne j Hj. destruct (decide (j = S h)) as [->|Hne]; [rewrite level_of_top; by intros ?%fmap_nil_inv|].
      rewrite Hlow by lia. apply IH2; [|lia]. destruct F as [|t F]; [done|]. apply Forall_inv in HF as [Ht _]. cbn [concat]. by destruct t.
Qed.

(** The groups over values are a forest. *)
Lemma levels_forest db values : level_of fid db O = lv 0 <$> values → ∀ h,
  (∀ j, (j < h)%nat → grouping (level_of fid db j) (level_of fid db (S j))) →
  ∃ F : list (tree h), level_of fid db h = lv h <$> F ∧ Forall (tree_ok h) F ∧ all_leaves h F = values ∧
    ∀ e, e ∈ field_entries fid h F ↔ ∃ j x, (j ≤ h)%nat ∧ x ∈ level_of fid db j ∧ e = to_entry fid j x.
Proof.
  intros H0. induction h as [|h IH]; intros Hg.
  - exists values. split_and!; [done|by apply Forall_forall|apply all_leaves_0|]. intros e. cbn [field_entries]. split.
    + intros (t & -> & Ht)%list_elem_of_fmap. exists O, (lv 0 t). split_and!; [done| |done]. rewrite H0. apply list_elem_of_fmap. eauto.
    + intros (j & x & Hj & Hx & ->). replace j with O in * by lia. rewrite H0 in Hx. apply list_elem_of_fmap in Hx as (t & -> & Ht).
      apply list_elem_of_fmap. eauto.
  - destruct (IH ltac:(intros; apply Hg; lia)) as (F & HF & Hok & Hl & Hin). pose proof (Hg h ltac:(lia)) as Hgh. rewrite HF in Hgh.
    destruct (grouping_forest h F _ Hok Hgh) as (G & HG & HGok & HGP). exists G. split_and!; [done|done| |].
    + etransitivity; [symmetry; apply (all_leaves_concat h G)|]. etransitivity; [|exact Hl]. by f_equal.
    + intros e. cbn [field_entries]. rewrite elem_of_app.
      replace (field_entries fid h (concat G)) with (field_entries fid h F) by (by f_equal). rewrite Hin. split.
      * intros [(j & x & Hj & Hx & ->)|(t & -> & Ht)%list_elem_of_fmap]; [exists j, x; split_and!; [lia|done|done]|].
        exists (S h), (lv (S h) t). split_and!; [done| |done]. rewrite HGP. apply list_elem_of_fmap. eauto.
      * intros (j & x & Hj & Hx & ->). destruct (decide (j = S h)) as [->|Hne]; [right|left; exists j, x; split_and!; [lia|done|done]].
        rewrite HGP in Hx. apply list_elem_of_fmap in Hx as (t & -> & Ht). apply list_elem_of_fmap. eauto.
Qed.
End forests.

(** ** The update of a field *)

(** The values of the field at some bounds are all that changes. *)
Definition values_changed (fid : Z) (changes : list string) (db0 db : FacetDb) : Prop :=
  ∀ e, fk_field_id e.1 = fid → ¬ (fk_level e.1 = O ∧ fk_left_bound e.1 ∈ changes) → (e ∈ db ↔ e ∈ db0).

(** The values have documents, and keys that can be stored. *)
Definition values_ok (fid : Z) (db : FacetDb) : Prop :=
  ∀ x b, (x, b) ∈ level0_values db fid → valid_facet_value x = true ∧ b ≠ ∅.

Lemma level_of_slice fid db l : level_of fid db l = level_of fid (field_slice db fid) l.
Proof.
  unfold level_of, level_entries, field_slice. rewrite list_filter_filter. f_equal. apply list_filter_ext. intros e _. tauto.
Qed.

Lemma level_of_values fid db : facet_db db → level_of fid db O = lv 0 <$> level0_values db fid.
Proof. intros Hdb. unfold level_of. rewrite level0_entry by done. by rewrite <-list_fmap_compose. Qed.

Lemma values_ok_level fid db : facet_db db → values_ok fid db → valid_keys (level_of fid db O) ∧ nonempty_bitmaps (level_of fid db O).
Proof.
  intros Hdb Hv. rewrite level_of_values by done. split.
  - intros k (e & -> & ([x b] & -> & Hin)%list_elem_of_fmap)%list_elem_of_fmap. by destruct (Hv x b Hin).
  - intros e ([x b] & -> & Hin)%list_elem_of_fmap. unfold lv. cbn [snd fv_bitmap]. rewrite docs_leaf. by destruct (Hv x b Hin).
Qed.

(** The levels of a field that was grouped. *)
Lemma grouped_old_levels n fid db0 values : facet_db db0 → values_ok fid db0 → grouped n fid values (field_slice db0 fid) →
  ∃ h, (h ≤ n)%nat ∧ old_levels (level_of fid db0) h.
Proof.
  intros Hdb Hv Hg. destruct (values_ok_level fid db0 Hdb Hv) as [Hvk _].
  assert (Hs : lsorted (level_of fid db0 O)) by (by apply level_of_sorted, fd_sorted).
  destruct Hg as [[_ Hnil]|(h & F & HF & _ & Hok & Hne & Hh)].
  - exists O. split; [lia|]. constructor; [done|lia|lia| |done]. intros j _. by rewrite level_of_slice, Hnil.
  - exists h. split; [done|]. destruct (forest_levels fid h F Hok) as [H1 H2]. constructor; [done|..|done].
    + intros j Hj. rewrite !(level_of_slice fid db0), HF. by apply H1.
    + intros j Hj. rewrite (level_of_slice fid db0), HF. apply H2; [done|lia].
    + intros j Hj. rewrite (level_of_slice fid db0), HF. by apply level_of_above.
Qed.

Lemma field_entries_nil fid h : field_entries fid h [] = [].
Proof. induction h as [|h IH]; [done|]. change (field_entries fid (S h) []) with (field_entries fid h [] ++ []). by rewrite IH. Qed.

(** Levels that are groups of the values make a grouped field. *)
Lemma levels_grouped fid db h values : db_sorted db → level_of fid db O = lv 0 <$> values → sorted values →
  (∀ j, (j < h)%nat → grouping (level_of fid db j) (level_of fid db (S j))) → (∀ j, (h < j)%nat → level_of fid db j = []) →
  grouped h fid values (field_slice db fid).
Proof.
  intros Hs H0 Hv Hg Htop. destruct (levels_forest fid db values H0 h Hg) as (F & HF & Hok & Hl & Hin).
  assert (Heq : field_slice db fid = field_entries fid h F).
  { apply db_sorted_ext; [by apply db_sorted_filter|apply field_entries_sorted; [done|by rewrite Hl]|]. intros e.
    unfold field_slice. rewrite list_elem_of_filter, Hin. split.
    - intros [He Hdb]. set (x := (fk_left_bound e.1, e.2)). assert (Hx : e = to_entry fid (fk_level e.1) x) by (destruct e as [[] ?]; cbn in *; by subst).
      assert (Hlv : x ∈ level_of fid db (fk_level e.1)) by (apply elem_of_level; by rewrite <-Hx).
      exists (fk_level e.1), x. split_and!; [|done|done]. destruct (decide (fk_level e.1 ≤ h)%nat) as [|Hgt]; [done|].
      rewrite Htop in Hlv by lia. by apply elem_of_nil in Hlv.
    - intros (j & x & _ & Hx & ->). split; [done|]. by apply elem_of_level. }
  destruct (decide (F = [])) as [->|Hne].
  - left. split; [by rewrite <-Hl|]. by rewrite Heq, field_entries_nil.
  - right. exists h, F. split_and!; done.
Qed.

(** The changes of the values are about to be followed. *)
Lemma values_following fid db0 db D : facet_db db0 → facet_db db → values_ok fid db → values_changed fid D db0 db →
  descending D → D ≠ [] → (∀ d, d ∈ D → valid_facet_value d = true) → following fid (level_of fid db0) 0 db D.
Proof.
  intros Hdb0 Hdb Hv Hch HD HDne HDv. destruct (values_ok_level fid db Hdb Hv) as [_ Hbm].
  constructor; [apply Hdb| |lia|done|done|done|done|].
  - intros j Hj. apply lsorted_ext; [apply level_of_sorted, Hdb|apply level_of_sorted, Hdb0|]. intros e. rewrite !elem_of_level.
    apply Hch; [done|]. cbn. lia.
  - intros db' Hr. cbn in Hr. rewrite Hr. split_and!; [|by apply level_of_sorted, Hdb|done].
    intros e Hnt. rewrite !elem_of_level. apply Hch; [done|]. cbn. intros (_ & Hin). apply Hnt. exists e.1. split_and!; [done|apply b_le_refl|].
    intros o _ H1 H2. by rewrite b_le_not_lt, H1 in H2.
Qed.

Section update.
Variables gs ms mx fid : Z.
Hypothesis Hgs : 2 ≤ gs ≤ 255.
Hypothesis Hmx : 1 ≤ mx ≤ 255.

(** After [find_changed_parents] the field is grouped. *)
Lemma find_changed_parents_groups n db0 db values D : (n < 255)%nat → facet_db db0 → facet_db db →
  values_ok fid db0 → values_ok fid db → values_changed fid D db0 db → grouped n fid values (field_slice db0 fid) →
  descending D → D ≠ [] → (∀ d, d ∈ D → valid_facet_value d = true) →
  ∃ db', find_changed_parents gs mx fid db (mkFacetFieldIdChange <$> D) = Ok db' ∧ frame fid (λ _, True) db db' ∧
    level0_values db' fid = level0_values db fid ∧ grouped n fid (level0_values db fid) (field_slice db' fid).
Proof.
  intros Hn Hdb0 Hdb Hv0 Hv Hch Hg HD HDne HDv. destruct (grouped_old_levels n fid db0 values Hdb0 Hv0 Hg) as (h & Hh & Ho).
  destruct (find_changed_parents_spec gs mx fid Hgs Hmx (level_of fid db0) h 255 Ho 0 db D ltac:(lia) ltac:(lia)) as (db' & Heq & Hf & H0 & Hgr & Htop).
  { by apply values_following. }
  assert (Hgd : grouped h fid (level0_values db fid) (field_slice db' fid)).
  { apply levels_grouped; [apply Hf|by rewrite H0, level_of_values|by apply level0_sorted|done|done]. }
  exists db'. split; [exact Heq|]. split; [done|]. split.
  - rewrite (level0_slice db'). by apply (grouped_values h).
  - destruct Hgd as [?|(h' & F & HF & Hl & Hok & Hne & Hle)]; [by left|]. right. exists h', F. split_and!; try done. lia.
Qed.

(** ** Adding or removing a level *)

Lemma next_group_spec h (t rest : list (tree h)) : ∀ first values,
  next_group (length t) (entry fid h <$> t ++ rest) first values =
    Ok (match first with Some _ => first | None => head (g_bound h <$> t) end, values ∪ docs (leaves (S h) t), entry fid h <$> rest).
Proof.
  induction t as [|c t IH]; intros first values.
  - cbn. rewrite (right_id_L ∅ (∪)). by destruct first.
  - cbn [length app fmap list_fmap next_group mbind outcome_bind]. etransitivity; [apply IH|]. f_equal. f_equal. f_equal.
    + by destruct first.
    + rewrite !docs_children, fmap_cons. cbn [union_list entry snd fv_bitmap]. set_solver.
Qed.

Lemma new_group_spec h (t rest : list (tree h)) : tree_ok (S h) t → Z.of_nat (length t) ≤ 255 → (h < 255)%nat →
  new_group fid h (length t) (entry fid h <$> t ++ rest) = Ok (entry fid (S h) t, entry fid h <$> rest).
Proof.
  intros Ht Hlen Hh. unfold new_group. rewrite next_group_spec. cbn [mbind outcome_bind]. rewrite g_bound_head by done. cbn [unwrap mbind outcome_bind].
  rewrite Z.mod_small by lia. rewrite Nat.mod_small by lia. rewrite Nat.add_1_r. unfold entry. do 3 f_equal. by rewrite (left_id_L ∅ (∪)).
Qed.

Lemma new_groups_spec h nbr : ∀ (F : list (tree h)) acc, Forall (tree_ok h) F → (h < 255)%nat → Z.of_nat nbr * gs ≤ Z.of_nat (length F) →
  ∃ (G : list (tree (S h))) rest, new_groups gs fid h nbr (entry fid h <$> F) acc = Ok (acc ++ (entry fid (S h) <$> G), entry fid h <$> rest) ∧
    concat G ++ rest = F ∧ Forall (tree_ok (S h)) G ∧ Z.of_nat (length rest) = Z.of_nat (length F) - Z.of_nat nbr * gs.
Proof.
  induction nbr as [|nbr IH]; intros F acc HF Hh Hlen.
  { exists [], F. cbn. rewrite app_nil_r. split_and!; [done|done|constructor|lia]. }
  set (t := take (Z.to_nat gs) F). assert (Ht : length t = Z.to_nat gs) by (apply length_take_le; lia).
  rewrite <-(take_drop (Z.to_nat gs) F) in HF. apply Forall_app in HF as [Ht' HF'].
  assert (Htok : tree_ok (S h) t) by (split; [intros Hnil; rewrite Hnil in Ht; cbn in Ht; lia|done]).
  destruct (IH (drop (Z.to_nat gs) F) (acc ++ [entry fid (S h) t]) HF' Hh) as (G & rest & Heq & Hc & HG & Hr); [rewrite length_drop; lia|].
  exists (t :: G), rest. split_and!.
  - cbn [new_groups]. rewrite <-(take_drop (Z.to_nat gs) F) at 1. fold t. rewrite <-Ht at 1. rewrite new_group_spec by (done || lia).
    cbn [mbind outcome_bind]. rewrite Heq. by rewrite <-app_assoc.
  - cbn [concat]. rewrite <-app_assoc. etransitivity; [apply (f_equal (app t)), Hc|]. apply take_drop.
  - by constructor.
  - rewrite Hr, length_drop. lia.
Qed.

(** A level put over the highest one. *)
Lemma put_level db h (G : list (tree (S h))) : db_sorted db → Forall (tree_ok (S h)) G → sorted (all_leaves (S h) G) →
  field_slice db fid = field_entries fid h (concat G) →
  let db' := foldl (λ db e, db_put db e.1 e.2) db (entry fid (S h) <$> G) in
  db_sorted db' ∧ field_slice db' fid = field_entries fid (S h) G ∧ ∀ fid', fid' ≠ fid → field_slice db' fid' = field_slice db fid'.
Proof.
  intros Hs HG Hsorted Hslice. assert (Heq : field_slice db fid ++ (entry fid (S h) <$> G) = field_entries fid (S h) G) by (by rewrite Hslice).
  destruct (put_slice db fid (entry fid (S h) <$> G) Hs) as (H1 & H2 & H3).
  - by apply Forall_fmap, Forall_forall.
  - rewrite Heq. by apply field_entries_sorted.
  - split_and!; [done|by rewrite H2|done].
Qed.

(** [add_level] groups the highest level. *)
Lemma add_level_spec db h (F : list (tree h)) : db_sorted db → Forall (tree_ok h) F → sorted (all_leaves h F) → (h < 255)%nat →
  field_slice db fid = field_entries fid h F →
  ∃ db' (G : list (tree (S h))), add_level gs fid db h (Z.of_nat (length F)) = Ok db' ∧ db_sorted db' ∧
    concat G = F ∧ Forall (tree_ok (S h)) G ∧ field_slice db' fid = field_entries fid (S h) G ∧
    ∀ fid', fid' ≠ fid → field_slice db' fid' = field_slice db fid'.
Proof.
  intros Hs HF Hsorted Hh Hslice. unfold add_level. rewrite (proj2 (Z.eqb_neq gs 0)) by lia.
  assert (Hlv : level_entries db fid h = entry fid h <$> F).
  { rewrite level_entries_of, level_of_slice, Hslice, level_of_top, <-list_fmap_compose. done. }
  pose proof (Z.div_mod (Z.of_nat (length F)) gs ltac:(lia)) as Hdm. pose proof (Z.mod_pos_bound (Z.of_nat (length F)) gs ltac:(lia)) as Hmb.
  assert (Hdiv : 0 ≤ Z.of_nat (length F) / gs) by (apply Z.div_pos; lia).
  set (q := Z.of_nat (length F) / gs) in *. set (r := Z.of_nat (length F) mod gs) in *. rewrite Hlv.
  destruct (new_groups_spec h (Z.to_nat q) F [] HF Hh ltac:(lia)) as (G & rest & -> & Hc & HG & Hr). cbn [mbind outcome_bind app].
  destruct (Z.ltb_spec 0 r) as [Hpos|Hzero].
  - assert (Hlen : length rest = Z.to_nat r) by lia. rewrite <-Hlen. rewrite <-Hc in HF. apply Forall_app in HF as [_ Hrest].
    assert (Hrok : tree_ok (S h) rest) by (split; [intros ->; cbn in Hlen; lia|done]).
    pose proof (new_group_spec h rest [] Hrok ltac:(lia) Hh) as Hng. rewrite app_nil_r in Hng. rewrite Hng. cbn [mbind outcome_bind].
    assert (Hc' : concat (G ++ [rest]) = F) by (rewrite concat_app; cbn; by rewrite app_nil_r).
    assert (HG' : Forall (tree_ok (S h)) (G ++ [rest])) by (apply Forall_app; split; [done|by constructor]).
    rewrite <-Hc' in Hsorted, Hslice.
    destruct (put_level db h (G ++ [rest]) Hs HG' ltac:(by rewrite all_leaves_concat in Hsorted) Hslice) as (H1 & H2 & H3).
    eexists _, (G ++ [rest]). split; [reflexivity|]. replace ((entry fid (S h) <$> G) ++ [entry fid (S h) rest]) with (entry fid (S h) <$> (G ++ [rest])) by (by rewrite fmap_app).
    done.
  - assert (rest = []) as -> by (destruct rest; [done|cbn in Hr; lia]). rewrite app_nil_r in Hc. rewrite <-Hc in Hsorted, Hslice.
    destruct (put_level db h G Hs HG ltac:(by rewrite all_leaves_concat in Hsorted) Hslice) as (H1 & H2 & H3).
    eexists _, G. split; [reflexivity|]. done.
Qed.

(** [delete_level] removes the highest level. *)
Lemma delete_level_spec db h (F : list (tree (S h))) : db_sorted db → field_slice db fid = field_entries fid (S h) F →
  let db' := delete_level fid db (S h) in
  db_sorted db' ∧ field_slice db' fid = field_entries fid h (concat F) ∧ ∀ fid', fid' ≠ fid → field_slice db' fid' = field_slice db fid'.
Proof.
  intros Hs Hslice. cbn zeta. unfold delete_level. set (keys := fst <$> _).
  assert (Hdel : ∀ ks d, foldl db_delete d ks = filter (λ e, e.1 ∉ ks) d).
  { induction ks as [|k ks IH]; intros d; cbn [foldl].
    - symmetry. apply list_filter_all, Forall_forall. intros e _. apply not_elem_of_nil.
    - rewrite IH. unfold db_delete. rewrite list_filter_filter. apply list_filter_ext. intros e _.
      rewrite not_elem_of_cons, <-not_true_iff_false, key_eqb_spec. tauto. }
  rewrite Hdel. assert (Hkeys : ∀ e, e ∈ db → e.1 ∈ keys ↔ fk_field_id e.1 = fid ∧ fk_level e.1 = S h).
  { intros e He. unfold keys, level_entries. rewrite list_elem_of_fmap. split.
    - by intros (x & -> & [? _]%list_elem_of_filter).
    - intros Hk. exists e. split; [done|]. by apply list_elem_of_filter. }
  split; [by apply db_sorted_filter|]. split.
  - unfold field_slice. rewrite list_filter_filter. transitivity (filter (λ e, fk_level e.1 ≠ S h) (field_slice db fid)).
    + unfold field_slice. rewrite list_filter_filter. apply list_filter_ext. intros e He. specialize (Hkeys e He). tauto.
    + rewrite Hslice. cbn [field_entries]. rewrite filter_app, list_filter_all, list_filter_none; [by rewrite app_nil_r|..].
      * apply Forall_fmap, Forall_forall. intros t _. cbn. tauto.
      * eapply Forall_impl; [apply field_entries_below|]. cbn. intros e [_ ?]. lia.
  - intros fid' Hne. unfold field_slice. rewrite list_filter_filter. apply list_filter_ext. intros e He. specialize (Hkeys e He).
    split; [tauto|]. intros ?. split; [done|]. rewrite Hkeys. naive_solver.
Qed.

Lemma highest_level h (F : list (tree h)) db : F ≠ [] → field_slice db fid = field_entries fid h F → get_highest_level db fid = h.
Proof.
  intros Hne Hslice. unfold get_highest_level. change (filter _ db) with (field_slice db fid). rewrite Hslice.
  destruct (exists_last Hne) as (F' & t & ->). by rewrite field_entries_last.
Qed.

(** The field is still grouped. *)
Lemma add_or_delete_level_groups n db values : 1 ≤ ms → (n < 255)%nat → db_sorted db → sorted values →
  grouped n fid values (field_slice db fid) →
  ∃ db', add_or_delete_level gs ms fid db = Ok db' ∧ db_sorted db' ∧ grouped (S n) fid values (field_slice db' fid) ∧
    ∀ fid', fid' ≠ fid → field_slice db' fid' = field_slice db fid'.
Proof.
  intros Hms Hn Hs Hv Hg. unfold add_or_delete_level. destruct Hg as [[-> Hnil]|(h & F & Hslice & Hl & Hok & Hne & Hh)].
  { assert (Hlv : level_of fid db O = []) by (by rewrite level_of_slice, Hnil). exists db.
    unfold get_highest_level. change (filter _ db) with (field_slice db fid). rewrite Hnil. cbn [last].
    rewrite level_entries_of, Hlv. cbn [fmap list_fmap length]. rewrite (proj2 (Z.leb_gt (gs * ms) _)) by nia. cbn [negb Nat.eqb].
    rewrite andb_false_r. split_and!; [done|done|by left|done]. }
  assert (Hlen : length (level_entries db fid h) = length F).
  { by rewrite level_entries_of, level_of_slice, Hslice, level_of_top, !length_fmap. }
  rewrite (highest_level h F db Hne Hslice), Hlen. destruct (gs * ms <=? _).
  - destruct (add_level_spec db h F Hs Hok ltac:(by rewrite Hl) ltac:(lia) Hslice) as (db' & G & Heq & Hs' & HG & HGok & Hslice' & Hother).
    exists db'. split_and!; [exact Heq|done| |done]. right. exists (S h), G. split_and!; [done| |done| |lia].
    + rewrite <-Hl, <-HG. symmetry. apply (all_leaves_concat h G).
    + intros ->. by rewrite <-HG in Hne.
  - destruct (_ && _) eqn:Hd.
    + destruct h as [|h]; [by rewrite andb_false_r in Hd|]. destruct (delete_level_spec db h F Hs Hslice) as (H1 & H2 & H3).
      eexists. split; [reflexivity|]. split_and!; [done| |done]. right. exists h, (concat F).
      split_and!; [done|by rewrite <-Hl, all_leaves_concat| | |lia].
      * apply Forall_concat. eapply Forall_impl; [exact Hok|]. by intros t [_ ?].
      * destruct F as [|t F]; [done|]. apply Forall_inv in Hok as [Ht _]. cbn [concat]. by destruct t.
    + exists db. split_and!; [done|done| |done]. right. exists h, F. split_and!; try done. lia.
Qed.

(** A grouped field beside others makes a database of facets. *)
Lemma facet_db_grouped n db db' values : (n < 255)%nat → facet_db db → db_sorted db' → grouped n fid values (field_slice db' fid) →
  (∀ fid', fid' ≠ fid → field_slice db' fid' = field_slice db fid') → facet_db db'.
Proof.
  intros Hn Hdb Hs Hg Hother.
  assert (He : ∀ e, e ∈ db' → e ∈ db ∨ fk_field_id e.1 = fid ∧ ∃ h (F : list (tree h)), (h ≤ n)%nat ∧ e ∈ field_entries fid h F).
  { intros e He%elem_of_slice. destruct (decide (fk_field_id e.1 = fid)) as [Hf|Hf].
    - right. split; [done|]. rewrite Hf in He. destruct Hg as [[_ Hnil]|(h & F & HF & _ & _ & _ & Hh)].
      + rewrite Hnil in He. by apply elem_of_nil in He.
      + exists h, F. by rewrite <-HF.
    - left. rewrite Hother in He by done. by apply elem_of_slice in He. }
  constructor; [done|..]; intros e [Hin|(_ & h & F & Hh & Hin)]%He.
  - by apply (fd_size _ Hdb).
  - by apply (field_entries_size fid h F).
  - by apply (fd_level _ Hdb).
  - pose proof (field_entries_below fid h F) as Hb. rewrite Forall_forall in Hb. destruct (Hb e Hin). lia.
Qed.

Lemma sorted_changes delta : let D := facet_value <$> merge_sort after_change delta in
  mkFacetFieldIdChange <$> D = merge_sort after_change delta ∧ descending D ∧ ∀ d, d ∈ D ↔ d ∈ facet_value <$> delta.
Proof.
  cbn zeta. split_and!.
  - rewrite <-list_fmap_compose. rewrite <-(list_fmap_id (merge_sort after_change delta)) at 2. apply list_fmap_ext. by intros i [x] _.
  - assert (Hs : StronglySorted after_change (merge_sort after_change delta)).
    { apply StronglySorted_merge_sort.
      - intros x y z H1 H2. unfold after_change in *. by eapply b_le_trans.
      - intros x y. unfold after_change. destruct (b_le (facet_value y) (facet_value x)) eqn:Hle; [by left|right].
        apply b_lt_le. by rewrite b_lt_not_le, Hle. }
    induction Hs as [|x l _ IH Hx]; [constructor|]. rewrite fmap_cons. constructor; [done|]. apply Forall_fmap. exact Hx.
  - intros d. by rewrite merge_sort_Permutation.
Qed.

(** [execute]: the field is grouped again. *)
Lemma execute_grouped n db0 db values delta : 1 ≤ ms → (n < 254)%nat → facet_db db0 → facet_db db →
  values_ok fid db0 → values_ok fid db → values_changed fid (facet_value <$> delta) db0 db →
  (∀ c, c ∈ delta → valid_facet_value (facet_value c) = true) → grouped n fid values (field_slice db0 fid) →
  ∃ db', execute gs ms mx fid db delta = Ok db' ∧ facet_db db' ∧ (∀ fid', fid' ≠ fid → field_slice db' fid' = field_slice db fid') ∧
    grouped (S n) fid (level0_values db fid) (field_slice db' fid).
Proof.
  intros Hms Hn Hdb0 Hdb Hv0 Hv Hch Hvalid Hg. unfold execute. destruct delta as [|c delta].
  { assert (Heq : field_slice db fid = field_slice db0 fid).
    { apply db_sorted_ext; [by apply db_sorted_filter, Hdb|by apply db_sorted_filter, Hdb0|]. intros e. unfold field_slice. rewrite !list_elem_of_filter.
      split; intros [He Hin]; (split; [done|]); (apply Hch; [done| |done]); cbn; rewrite elem_of_nil; tauto. }
    exists db. split_and!; [done|done|done|]. pose proof (grouped_values _ _ _ _ Hg) as Hval. rewrite level0_slice, Heq, Hval.
    destruct Hg as [?|(h & F & ? & ? & ? & ? & ?)]; [by left|right; exists h, F; split_and!; try done; lia]. }
  destruct (sorted_changes (c :: delta)) as (Heq & HD & Hin). set (D := facet_value <$> merge_sort after_change (c :: delta)) in *.
  destruct (find_changed_parents_groups n db0 db values D ltac:(lia) Hdb0 Hdb Hv0 Hv) as (db1 & Hfind & Hf & H0 & Hg1).
  - intros e Hf He. apply Hch; [done|]. intros (H2 & H3). apply He. by rewrite Hin.
  - exact Hg.
  - exact HD.
  - intros Hnil. assert (Hc : facet_value c ∈ D) by (apply Hin; by left). rewrite Hnil in Hc. by apply elem_of_nil in Hc.
  - intros d (x & -> & Hx)%Hin%list_elem_of_fmap. by apply Hvalid.
  - rewrite <-Heq, Hfind. cbn [mbind outcome_bind].
    destruct (add_or_delete_level_groups n db1 (level0_values db fid) Hms ltac:(lia) (proj1 Hf) ltac:(by apply level0_sorted) Hg1)
      as (db' & Hadd & Hs' & Hg' & Hother).
    assert (Hother' : ∀ fid', fid' ≠ fid → field_slice db' fid' = field_slice db fid').
    { intros fid' Hne. rewrite Hother by done. apply (frame_field fid _ _ _ fid' Hf); [apply Hdb|done]. }
    exists db'. split_and!; [done| |done|done]. eapply facet_db_grouped; [|exact Hdb|done|exact Hg'|done]. lia.
Qed.
End update.

(** C6. An incremental update of a field none of whose values is blank succeeds, for groups of at
    least two entries and up to 255: when the levels of the field were groups of
    the previous values, and the values at the bounds given are all that changed,
    its levels become groups of the new values, as the searches need them; its
    values and the other fields stay.  The values have 1 to 497 bytes
    ([values_ok]) and some documents: with a blank value, which the code can store, this
    does not hold ([blank_value_lost]).  The maximum size of a group is up to 255 too, and there are fewer than 254
    levels. *)
Theorem execute_groups gs ms mx fid n db0 db values delta :
  2 ≤ gs ≤ 255 → 1 ≤ mx ≤ 255 → 1 ≤ ms → (n < 254)%nat → facet_db db0 → facet_db db → values_ok fid db0 → values_ok fid db →
  grouped n fid values (field_slice db0 fid) → values_changed fid (facet_value <$> delta) db0 db →
  (∀ c, c ∈ delta → valid_facet_value (facet_value c) = true) →
  ∃ db', execute gs ms mx fid db delta = Ok db' ∧ facet_db db' ∧ (∀ fid', fid' ≠ fid → field_slice db' fid' = field_slice db fid') ∧
    level0_values db' fid = level0_values db fid ∧
    (Z.of_nat (length db') ≤ u64_max →
      (level0_values db fid = [] ∧ get_first_facet_value db' fid = None) ∨
      ∃ h F, facet_tree fid db' h F ∧ all_leaves h F = level0_values db fid).
Proof.
  intros Hgs Hmx Hms Hn Hdb0 Hdb Hv0 Hv Hg Hch Hvalid.
  destruct (execute_grouped gs ms mx fid Hgs Hmx n db0 db values delta Hms Hn Hdb0 Hdb Hv0 Hv Hch Hvalid Hg) as (db' & Heq & Hdb' & Hother & Hg').
  assert (H0 : level0_values db' fid = level0_values db fid) by (rewrite (level0_slice db'); by eapply grouped_values).
  exists db'. split_and!; [done|done|done|done|]. intros Hlen. rewrite <-H0. by eapply grouped_tree.
Qed.

(** ** A sample *)

(** The sample of [Facet] with a new value between ["b"] and ["c"]. *)
Definition sample_new : FacetDb := db_put sample_facets (mkFacetGroupKey 5 0 "bb") (mkFacetGroupValue 1 {[7]}).

Lemma facet_db_check db : db_sorted db →
  Forall (λ e, (fk_level e.1 = O → fv_size e.2 = 1) ∧ (fk_level e.1 < 255)%nat) db → facet_db db.
Proof. intros Hs Hall. rewrite Forall_forall in Hall. constructor; [done|..]; intros e He; by destruct (Hall e He). Qed.

Lemma sample_facets_db : facet_db sample_facets.
Proof. apply facet_db_check; [repeat constructor; vm_compute; reflexivity|]. repeat constructor; cbn; (done || lia). Qed.

Lemma values_ok_check fid db : Forall (λ x, valid_facet_value x.1 = true ∧ x.2 ≠ ∅) (level0_values db fid) → values_ok fid db.
Proof. intros Hall x b Hin. rewrite Forall_forall in Hall. exact (Hall (x, b) Hin). Qed.

Lemma execute_groups_witness : ∃ db', execute 2 2 2 5 sample_new [mkFacetFieldIdChange "bb"] = Ok db' ∧
  fst <$> level0_values db' 5 = ["a"; "b"; "bb"; "c"]%string ∧
  find_docids_of_facet_within_bounds db' 5 (Excluded "a"%string) (Excluded "c"%string) None ∅ = Ok {[2; 3; 7]}.
Proof.
  destruct (execute_groups 2 2 2 5 1 sample_facets sample_new (all_leaves 1 sample_forest) [mkFacetFieldIdChange "bb"])
    as (db' & Heq & _ & _ & Hv & _); [lia|lia|lia|lia|exact sample_facets_db|..].
  - apply facet_db_check; [apply db_put_sorted, sample_facets_db|]. repeat constructor; cbn; (done || lia).
  - apply values_ok_check. repeat constructor; vm_compute; discriminate.
  - apply values_ok_check. repeat constructor; vm_compute; discriminate.
  - right. exists 1%nat, sample_forest. split_and!; [reflexivity|reflexivity|apply sample_tree|done|lia].
  - intros e Hf He. unfold sample_new. rewrite elem_of_put. split; [intros [->|[? _]]; [|done]|intros Hin; right; split; [done|]].
    + exfalso. apply He. split; [done|by left].
    + intros Hk. apply He. rewrite Hk. split; [done|by left].
  - intros c ->%list_elem_of_singleton. reflexivity.
  - exists db'. split; [exact Heq|]. rewrite Hv. split; [reflexivity|]. vm_compute in Heq. injection Heq as <-. vm_compute. reflexivity.
Defined.

(** Twenty-one values, the first one blank, with groups of four. *)
Definition blank_values : list (FacetGroupKey * DelAdd) :=
  (λ '(x, b), (mkFacetGroupKey 5 0 x, mkDelAdd None (Some b))) <$>
    (("", {[9]}) :: ((λ x, (x, {[1]})) <$> ["a"; "b"; "c"; "d"; "e"; "f"; "g"; "h"; "i"; "j"; "k"; "l"; "m"; "n"; "o"; "p"; "q"; "r"; "s"; "t"]))%string.

(** A blank value, whose bound is empty, is lost by an incremental update of its
    group: the search of the parent of a child leaves out the empty bound, so that
    the group is removed as one that comes after the child; the documents of the
    blank value are no longer found by the searches. *)
Theorem blank_value_lost : ∃ db db',
  bulk_update 4 5 [] (Some blank_values) [5] = Ok db ∧
  execute 4 5 8 5 (db_put db (mkFacetGroupKey 5 0 "b") (mkFacetGroupValue 1 {[1; 2]})) [mkFacetFieldIdChange "b"] = Ok db' ∧
  find_docids_of_facet_within_bounds db 5 (Included ""%string) (Included "t"%string) None ∅ = Ok {[1; 9]} ∧
  head (level0_values db' 5) = Some (""%string, {[9]}) ∧
  find_docids_of_facet_within_bounds db' 5 (Included ""%string) (Included "t"%string) None ∅ = Ok {[1; 2]}.
Proof.
  eexists _, _. split; [vm_compute; reflexivity|]. split; [vm_compute; reflexivity|].
  split_and!; vm_compute; reflexivity.
Qed.
