(* ===== verification/SortRule.v ===== *)
(** * The sort ranking rule

    [crates/milli-core/src/search/new/sort.rs]: a ranking rule whose buckets are
    the documents of each value of a field, numbers first, then the documents
    without a value.  It keeps the contracts that bucket sort relies on. *)

From S2P Require Import Prelude TaskTypes SchedUtils Score BucketSort BucketSortPage Facet FacetSort.
From Stdlib Require String.
Open Scope Z_scope.

(** The external conversions of facet values: eight bytes to a finite number
    ([f64::from_be_bytes] and [Number::from_f64]), and the check of UTF-8. *)
Class FacetText `{Float} := {
  number_of_be_bytes : string → option F64;
  is_utf8 : string → bool;
}.

(** ** The rule *)

Section sort.
Context `{FacetText} {Q : Type}.
(** [facet_id_f64_docids] and [facet_id_string_docids]. *)
Variables number_db string_db : FacetDb.

(** A value as it is in a database. *)
Inductive RawValue := RawNumber (bytes : string) | RawString (bytes : string).

(** [OrderedF64Codec::bytes_decode] and [Number::from_f64]. *)
Definition decode_number (bytes : string) : option F64 :=
  if (String.length bytes <? 16)%nat then None
  else if (String.length bytes =? 16)%nat then number_of_be_bytes (String.substring 8 8 bytes) else None.

(** [StrRefCodec::bytes_decode]. *)
Definition decode_string (bytes : string) : option string := if is_utf8 bytes then Some bytes else None.

Definition decode_value (v : RawValue) : option (F64 + string) :=
  match v with
  | RawNumber bytes => inl <$> decode_number bytes
  | RawString bytes => inr <$> decode_string bytes
  end.

(** [Sort]; the iterator is the query it clones and the items it has left. *)
Record Sort := mkSort {
  so_field_name : string;
  so_field_id : option Z;
  so_is_ascending : bool;
  so_original_query : option Q;
  so_iter : option (Q * list (bitmap * RawValue));
  so_must_redact : bool;
}.

(** [Sort::must_redact]. *)
Definition must_redact (displayed_fields : option (list string)) (field_name : string) : bool :=
  match displayed_fields with
  | None => false
  | Some fields => negb (existsb (λ field, bool_decide (field = field_name)) fields)
  end.

(** [Sort::new]. *)
Definition sort_new (fields_ids : gmap string Z) (displayed_fields : option (list string))
    (field_name : string) (is_ascending : bool) : Sort :=
  mkSort field_name (fields_ids !! field_name) is_ascending None None (must_redact displayed_fields field_name).

(** The documents of a field by value; [None] is out of rounds. *)
Definition facet_sort (ascending : bool) (db : FacetDb) (field_id : Z) (candidates : bitmap)
    : option (list (bitmap * string)) :=
  if ascending then ascending_facet_sort db field_id (sort_fuel db) candidates
  else descending_facet_sort db field_id (sort_fuel db) candidates.

Definition sort_items (field_id : option Z) (ascending : bool) (parent_candidates : bitmap)
    : option (list (bitmap * RawValue)) :=
  match field_id with
  | Some field_id =>
      match facet_sort ascending number_db field_id parent_candidates,
            facet_sort ascending string_db field_id parent_candidates with
      | Some numbers, Some strings =>
          Some (((λ i, (i.1, RawNumber i.2)) <$> numbers) ++ ((λ i, (i.1, RawString i.2)) <$> strings))
      | _, _ => None
      end
  | None => Some []
  end.

(** [Sort::start_iteration]; the error is an iterator out of rounds. *)
Definition sort_start_iteration (s : Sort) (parent_candidates : bitmap) (parent_query : Q) : outcome unit Sort :=
  match sort_items (so_field_id s) (so_is_ascending s) parent_candidates with
  | Some items =>
      Ok (mkSort (so_field_name s) (so_field_id s) (so_is_ascending s) (Some parent_query)
            (Some (parent_query, items)) (so_must_redact s))
  | None => Err tt
  end.

Definition sort_score (s : Sort) (value : option (F64 + string)) : ScoreDetails :=
  SdSort (mkSortDetails (so_field_name s) (so_is_ascending s) (so_must_redact s) value).

(** [Sort::next_bucket]. *)
Definition sort_next_bucket (s : Sort) (universe : bitmap)
    : outcome unit (option (RankingRuleOutput Q) * Sort) :=
  '(query, items) ← unwrap (so_iter s);
  match items with
  | (docids, raw) :: items =>
      value ← unwrap (decode_value raw);
      Ok (Some (mkRankingRuleOutput query (docids ∩ universe) (sort_score s (Some value))),
          mkSort (so_field_name s) (so_field_id s) (so_is_ascending s) (so_original_query s)
            (Some (query, items)) (so_must_redact s))
  | [] =>
      query ← unwrap (so_original_query s);
      Ok (Some (mkRankingRuleOutput query universe (sort_score s None)), s)
  end.

(** [Sort::end_iteration]. *)
Definition sort_end_iteration (s : Sort) : Sort :=
  mkSort (so_field_name s) (so_field_id s) (so_is_ascending s) None None (so_must_redact s).

#[local] Instance sort_rule : RankingRule := {|
  Query := Q;
  Rule := Sort;
  SearchError := unit;
  start_iteration := sort_start_iteration;
  next_bucket := sort_next_bucket;
  end_iteration := sort_end_iteration;
|}.

(** ** The contracts *)

(** The databases are groups of values that can be read. *)
Definition well_grouped (db : FacetDb) (decodes : string → Prop) : Prop :=
  ∀ fid, get_first_facet_value db fid = None ∨
    ∃ h F, facet_tree fid db h F ∧ Forall (λ x, decodes x.1) (all_leaves h F).

Hypothesis Hnumbers : well_grouped number_db (λ x, decode_number x ≠ None).
Hypothesis Hstrings : well_grouped string_db (λ x, decode_string x ≠ None).

Lemma facet_order_values c l x : x ∈ facet_order c l → ∃ b, (x.2, b) ∈ l.
Proof.
  revert c. induction l as [|[v b] l IH]; intros c; cbn; [by intros ?%elem_of_nil|].
  destruct (bm_is_empty (b ∩ c)); [|intros [->|Hx]%elem_of_cons].
  - intros Hx. destruct (IH _ Hx) as (b' & ?). exists b'. by right.
  - exists b. by left.
  - destruct (IH _ Hx) as (b' & ?). exists b'. by right.
Qed.

(** The items of one database. *)
Lemma facet_sort_total ascending db decodes fid c : well_grouped db decodes →
  ∃ l, facet_sort ascending db fid c = Some l ∧ Forall (λ i, decodes i.2) l.
Proof.
  intros Hdb. destruct (Hdb fid) as [Hn|(h & F & Ht & Hd)].
  { exists []. unfold facet_sort, ascending_facet_sort, descending_facet_sort. rewrite Hn. by destruct ascending. }
  unfold facet_sort. rewrite Forall_forall in Hd. destruct ascending.
  - rewrite (ascending_sort_ends db fid h F (sort_fuel db) c Ht ltac:(done)). eexists. split; [done|].
    apply Forall_forall. intros x (b & Hx)%facet_order_values. by apply (Hd (x.2, b)).
  - rewrite (descending_sort_ends db fid h F (sort_fuel db) c Ht ltac:(done)). eexists. split; [done|].
    apply Forall_forall. intros x (b & Hx)%facet_order_values. apply (Hd (x.2, b)). by apply elem_of_reverse.
Qed.

Definition readable (items : list (bitmap * RawValue)) : Prop := Forall (λ i, decode_value i.2 ≠ None) items.

Lemma sort_items_total fid ascending c : ∃ items, sort_items fid ascending c = Some items ∧ readable items.
Proof.
  unfold sort_items, readable. destruct fid as [fid|]; [|by exists []].
  destruct (facet_sort_total ascending _ _ fid c Hnumbers) as (ns & -> & Hns).
  destruct (facet_sort_total ascending _ _ fid c Hstrings) as (ss & -> & Hss).
  eexists. split; [done|]. rewrite Forall_app, !Forall_fmap. split; eapply Forall_impl; try eassumption;
    intros [b x]; cbn; [by destruct (decode_number x)|by destruct (decode_string x)].
Qed.

(** What a started rule is. *)
Definition sort_started (s : Sort) : Prop :=
  ∃ q items, so_iter s = Some (q, items) ∧ so_original_query s = Some q ∧ readable items.

(** The rule does not panic once started, and each of its buckets before the
    last uses up an item. *)
#[local] Instance sort_rule_ok : RankingRuleOk.
Proof using Hnumbers Hstrings.
  refine {| query_valid := λ _, True; rule_idle := λ _, True; rule_started := λ s _, sort_started s;
            rule_remaining := λ s, length (from_option snd [] (so_iter s)) |}; [done|done| |].
  - intros s u q _ _. cbn. unfold sort_start_iteration.
    destruct (sort_items_total (so_field_id s) (so_is_ascending s) u) as (items & -> & Hr). by exists q, items.
  - intros s u (q & items & Hi & Hq & Hr) Hu. cbn. unfold sort_next_bucket. rewrite Hi. cbn.
    destruct Hr as [|[b raw] items Hd Hr].
    + rewrite Hq. cbn. split_and!; [done|done| |by left]. exists q, []. split_and!; [done|done|constructor].
    + cbn in Hd. destruct (decode_value raw); [|done]. cbn. split_and!; [set_solver|done|by exists q, items|right; lia].
Defined.

(** The buckets of a rule: each item within what is left, then what is left. *)
Fixpoint sort_buckets (s : Sort) (items : list (bitmap * RawValue)) (u : bitmap) (q : Q) : list (RankingRuleOutput Q) :=
  if bm_is_empty u then []
  else
    match items with
    | [] => [mkRankingRuleOutput q u (sort_score s None)]
    | (docids, raw) :: items =>
        mkRankingRuleOutput q (docids ∩ u) (sort_score s (decode_value raw)) :: sort_buckets s items (u ∖ (docids ∩ u)) q
    end.

Lemma sort_iterates s items : ∀ u q, readable items →
  iterates (mkSort (so_field_name s) (so_field_id s) (so_is_ascending s) (Some q) (Some (q, items)) (so_must_redact s))
    u (sort_buckets s items u q).
Proof.
  induction items as [|[d raw] items IH]; intros u q Hr; cbn [sort_buckets]; unfold bm_is_empty; case_bool_decide as Hu;
    try (rewrite Hu; constructor).
  - econstructor; [done|done|done|]. cbn. rewrite difference_diag_L. constructor.
  - apply Forall_cons in Hr as [Hd Hr]. cbn in Hd. destruct (decode_value raw) as [v|] eqn:Hv; [|done].
    econstructor; [done| |cbn; set_solver|by apply IH].
    cbn. unfold sort_next_bucket. cbn. by rewrite Hv.
Qed.

(** What the rule sorts by. *)
Definition sort_key (s : Sort) : Sort := sort_end_iteration s.

(** The buckets do not depend on what the rule was used for before. *)
#[local] Instance sort_rule_exhaustive : ExhaustiveRules.
Proof using Hnumbers Hstrings.
  refine {| rule_id := sort_key;
            buckets := λ k u q, sort_buckets k (default [] (sort_items (so_field_id k) (so_is_ascending k) u)) u q |}.
  - intros s u q. cbn. unfold sort_start_iteration.
    destruct (sort_items_total (so_field_id s) (so_is_ascending s) u) as (items & -> & Hr).
    eexists. split; [done|]. split; [done|]. cbn. by apply (sort_iterates (sort_key s)).
  - intros s u b s'. cbn. unfold sort_next_bucket. destruct (so_iter s) as [[q [|[d raw] items]]|] eqn:Hi; [..|done]; cbn.
    + destruct (so_original_query s); [|done]. by intros [= _ <-].
    + destruct (decode_value raw); [|done]. by intros [= _ <-].
  - done.
Defined.

(** ** The documents in order *)

(** The values a rule sorts by: numbers, then strings. *)
Definition sort_values (s : Sort) : list (string * bitmap) :=
  match so_field_id s with
  | Some fid =>
      let order (l : list (string * bitmap)) := if so_is_ascending s then l else reverse l in
      order (level0_values number_db fid) ++ order (level0_values string_db fid)
  | None => []
  end.

(** The documents of a universe by the first values, then by the next ones, the
    documents without a value last. *)
Fixpoint sorted_by (values : list (list (string * bitmap))) (u : bitmap) : list Z :=
  match values with
  | [] => bm_iter u
  | l :: values => concat ((λ i, sorted_by values i.1) <$> facet_order u l) ++ sorted_by values (u ∖ docs l)
  end.

Lemma sorted_by_empty values : sorted_by values ∅ = [].
Proof.
  induction values as [|l values IH]; [by vm_compute|]. cbn. rewrite facet_order_empty.
  by replace (∅ ∖ docs l) with (∅ : bitmap) by set_solver.
Qed.

(** The items of one database are a scan of its values. *)
Lemma facet_sort_values ascending db decodes fid c : well_grouped db decodes →
  facet_sort ascending db fid c =
    Some (facet_order c (if ascending then level0_values db fid else reverse (level0_values db fid))).
Proof.
  intros Hdb. unfold facet_sort. destruct (Hdb fid) as [Hn|(h & F & Ht & _)].
  - assert (level0_values db fid = []) as ->.
    { unfold get_first_facet_value, level0_bounds in Hn. unfold level0_values. by destruct (filter _ db). }
    unfold ascending_facet_sort, descending_facet_sort. rewrite Hn. by destruct ascending.
  - rewrite (level0_values_tree _ _ _ _ Ht). destruct ascending; [by apply ascending_sort_ends|by apply descending_sort_ends].
Qed.

(** What the buckets of a rule give, each one sorted by [f]. *)
Fixpoint slices (f : bitmap → list Z) (items : list bitmap) (u : bitmap) : list Z :=
  match items with [] => f u | d :: items => f (d ∩ u) ++ slices f items (u ∖ (d ∩ u)) end.

Section slices.
Variable f : bitmap → list Z.
Hypothesis f_empty : f ∅ = [].

Lemma slices_empty items : slices f items ∅ = [].
Proof.
  induction items as [|d items IH]; [done|]. cbn. replace (d ∩ ∅) with (∅ : bitmap) by set_solver.
  by rewrite f_empty, difference_diag_L.
Qed.

Lemma sort_buckets_slices s items q : ∀ u,
  concat ((λ b, f (rr_candidates b)) <$> sort_buckets s items u q) = slices f items.*1 u.
Proof.
  induction items as [|[d raw] items IH]; intros u; cbn [sort_buckets]; unfold bm_is_empty; case_bool_decide as Hu.
  - subst. by cbn.
  - cbn. by rewrite app_nil_r.
  - subst. by rewrite slices_empty.
  - cbn. by rewrite IH.
Qed.

(** A scan for more candidates than there are left gives the same slices. *)
Lemma slices_order rest l : ∀ c u, u ⊆ c →
  slices f ((facet_order c l).*1 ++ rest) u = concat ((λ i, f i.1) <$> facet_order u l) ++ slices f rest (u ∖ docs l).
Proof.
  induction l as [|[x b] l IH]; intros c u Hu; cbn [facet_order].
  { cbn. by replace (u ∖ docs []) with u by (change (docs []) with (∅ : bitmap); set_solver). }
  assert (Hd : ∀ v, v ∖ (b ∩ v) ∖ docs l = v ∖ docs ((x, b) :: l)).
  { intros v. rewrite docs_cons. apply set_eq. intros z. set_solver. }
  unfold bm_is_empty. case_bool_decide as Hbc.
  - assert (Hbu : b ∩ u = ∅) by set_solver. rewrite (bool_decide_true _ Hbu), (IH c u Hu), <-Hd, Hbu. by rewrite difference_empty_L.
  - cbn [fmap list_fmap fst app slices].
    assert (Heq : b ∩ c ∩ u = b ∩ u) by (apply set_eq; intros z; set_solver). rewrite Heq, IH by set_solver.
    rewrite Hd. case_bool_decide as Hbu; [|cbn; by rewrite app_assoc].
    rewrite Hbu, f_empty. cbn. by rewrite difference_empty_L.
Qed.
End slices.

(** All the buckets have the same query. *)
Lemma ranked_query (rank : bitmap → Q → list Z) (f : bitmap → list Z) (bs : list (RankingRuleOutput Q)) q :
  (∀ u, rank u q = f u) → Forall (λ b, rr_query b = q) bs →
  (λ b, rank (rr_candidates b) (rr_query b)) <$> bs = (λ b, f (rr_candidates b)) <$> bs.
Proof. intros Hrank. induction 1 as [|b bs Hb _ IHb]; [done|]. cbn. by rewrite Hb, Hrank, IHb. Qed.

(** The complete ranking by sort rules. *)
Lemma sort_ranking rules q : ∀ u, ranking (sort_key <$> rules) u q = sorted_by (sort_values <$> rules) u.
Proof using Hnumbers Hstrings.
  induction rules as [|s rules IH]; intros u; [done|]. cbn [fmap list_fmap ranking sorted_by].
  rewrite (ranked_query _ _ _ q IH).
  all: cbn [buckets sort_rule_exhaustive].
  2:{ clear. generalize (default [] (sort_items (so_field_id (sort_key s)) (so_is_ascending (sort_key s)) u)). intros items.
      revert u. induction items as [|[d raw] items IH]; intros u; cbn [sort_buckets]; destruct (bm_is_empty u);
        repeat (constructor; try done). }
  rewrite sort_buckets_slices by apply sorted_by_empty. unfold sort_items. cbn [sort_key sort_end_iteration so_field_id so_is_ascending].
  destruct (so_field_id s) as [fid|] eqn:Hfid.
  - rewrite (facet_sort_values _ _ _ fid u Hnumbers), (facet_sort_values _ _ _ fid u Hstrings). cbn [default from_option].
    set (ns := if so_is_ascending s then level0_values number_db fid else _).
    set (ss := if so_is_ascending s then level0_values string_db fid else _).
    assert (sort_values s = ns ++ ss) as -> by (unfold sort_values; by rewrite Hfid).
    unfold id. rewrite fmap_app, <-!list_fmap_compose. unfold compose. cbn [fst].
    rewrite slices_order by (done || apply sorted_by_empty).
    rewrite <-(app_nil_r ((λ x, x.1) <$> facet_order u ss)), slices_order by (set_solver || apply sorted_by_empty).
    rewrite facet_order_app, fmap_app, concat_app, <-app_assoc. cbn [slices]. do 3 f_equal.
    unfold docs. rewrite fmap_app, union_list_app_L. set_solver.
  - assert (sort_values s = []) as -> by (unfold sort_values; by rewrite Hfid).
    cbn. by replace (u ∖ docs []) with u by (change (docs []) with (∅ : bitmap); set_solver).
Qed.
End sort.

(** C18. A search whose ranking rules all sort by a field, with no distinct
    field, no score threshold and time enough, returns the page of the documents
    by the values of the first field (numbers, then strings, then no value), then
    by those of the next field, and by id at last: the levels of the facets, the
    iterators and the loop of bucket sort together give what a sort of the whole
    universe would give. *)
Theorem sort_search_page `{FacetText} {Q : Type} number_db string_db P (rules : list (Sort (Q:=Q))) query universe :
  well_grouped number_db (λ x, decode_number x ≠ None) → well_grouped string_db (λ x, decode_string x ≠ None) →
  sp_distinct P = None → sp_threshold P = None → (∀ k, sp_exceeded P k = false) →
  0 ≤ sp_from P → 0 ≤ sp_length P →
  ∃ fuel, ∀ fuel', (fuel ≤ fuel')%nat → ∃ out,
    bucket_sort (H0:=sort_rule number_db string_db) P fuel' rules query universe = Some (Ok out) ∧
    out_docids out = page P (sorted_by (sort_values number_db string_db <$> rules) universe).
Proof.
  intros Hn Hs Hd Ht Hb Hf Hl.
  pose (ER := sort_rule_exhaustive (Q:=Q) number_db string_db Hn Hs).
  exists (rounds (H0:=sort_rule number_db string_db) (H1:=ER) (sort_key <$> rules) universe query). intros fuel Hfuel.
  destruct (search_page (H0:=sort_rule number_db string_db) (H1:=ER) P rules query universe fuel Hd Ht Hb Hf Hl Hfuel)
    as (_ & out & Hout & Hdocs & _).
  exists out. split; [exact Hout|]. rewrite Hdocs.
  change (rule_id <$> rules) with (sort_key <$> rules). unfold ER. by rewrite sort_ranking.
Qed.

(** ** Samples *)

#[local] Existing Instance sample_float.
#[local] Instance sample_facet_text : FacetText := {| number_of_be_bytes := λ _, None; is_utf8 := λ _, true |}.

Definition sample_params : SearchParams :=
  mkSearchParams (mkFacetTables ∅ ∅ ∅ ∅) None 1 2 Detailed None (λ _, false).
Definition sample_sort (ascending : bool) : Sort (Q:=unit) := sort_new {["letter" := 5]} None "letter" ascending.

Lemma sample_numbers_grouped : well_grouped [] (λ x, decode_number x ≠ None).
Proof. intros fid. by left. Qed.

Definition sample_strings : FacetDb := field_entries 5 1 sample_forest.

Lemma sample_strings_grouped : well_grouped sample_strings (λ x, decode_string x ≠ None).
Proof.
  intros fid. destruct (decide (fid = 5)) as [->|Hne].
  - right. exists 1%nat, sample_forest. split; [|repeat constructor; done]. constructor.
    + exists [], []. rewrite app_nil_r. split; [done|]. split; constructor.
    + repeat constructor; done.
    + done.
    + repeat constructor; vm_compute; reflexivity.
    + done.
  - left. unfold get_first_facet_value, level0_bounds. rewrite list_filter_none; [done|].
    repeat constructor; cbn; intros [? _]; lia.
Qed.

Lemma sort_search_page_witness :
  well_grouped sample_strings (λ x, decode_string x ≠ None) ∧ ∃ fuel out,
    bucket_sort (H0:=sort_rule [] sample_strings) sample_params fuel [sample_sort false] tt {[1; 2; 3; 4; 9]} = Some (Ok out) ∧
    out_docids out = [2; 3].
Proof.
  split; [exact sample_strings_grouped|].
  destruct (sort_search_page (Q:=unit) [] sample_strings sample_params [sample_sort false] tt {[1; 2; 3; 4; 9]}
    sample_numbers_grouped sample_strings_grouped eq_refl eq_refl (λ _, eq_refl) ltac:(done) ltac:(done)) as (fuel & Hf).
  destruct (Hf fuel (le_n _)) as (out & Hout & Hdocs). exists fuel, out. split; [exact Hout|]. rewrite Hdocs.
  vm_compute. reflexivity.
Defined.

Lemma bucket_sort_page_witness :
  ∃ out, bucket_sort (H0:=sort_rule [] sample_strings) sample_params 100 [sample_sort true; sample_sort false] tt {[1; 2; 3; 4; 9]} =
    Some (Ok out) ∧ length (out_scores out) = length (out_docids out) ∧ out_docids out = [1; 3].
Proof.
  pose (ER := sort_rule_exhaustive (Q:=unit) [] sample_strings sample_numbers_grouped sample_strings_grouped).
  destruct (bucket_sort_page (H0:=sort_rule [] sample_strings) (H1:=ER) sample_params
    [sample_sort true; sample_sort false] tt {[1; 2; 3; 4; 9]} 100 eq_refl eq_refl (λ _, eq_refl) ltac:(done) ltac:(done)
    ltac:(vm_compute; lia)) as (_ & out & Hout & Hdocs & _ & _ & Hlen).
  exists out. split; [exact Hout|]. split; [exact Hlen|]. rewrite Hdocs. vm_compute. reflexivity.
Defined.

(** Documents 1 and 2 share a value of the distinct field. *)
Definition sample_distinct : SearchParams :=
  mkSearchParams (mkFacetTables {[(7, 1) := ["x"]; (7, 2) := ["x"]]} ∅ {[(7, "x") := {[1; 2]}]} ∅) (Some 7) 0 20 Detailed None
    (λ k, (50 <? k)%nat).

Lemma sample_distinct_symmetric fid : sp_distinct sample_distinct = Some fid → sharing_symmetric (sp_facets sample_distinct) fid.
Proof.
  intros [= <-]. assert (Hs : ∀ x, sharing (sp_facets sample_distinct) 7 x =
    if decide (x = 1 ∨ x = 2) then {[1; 2]} else ∅).
  { intros x. destruct (decide (x = 1)) as [->|]; [done|]. destruct (decide (x = 2)) as [->|]; [done|].
    rewrite decide_False by tauto. unfold sharing, distinct_single_docid. cbn [sp_facets sample_distinct facet_strings facet_numbers].
    by rewrite lookup_insert_ne, lookup_singleton_ne, lookup_empty by congruence. }
  intros x y. rewrite !Hs. case_decide; case_decide; set_solver.
Qed.

Lemma bucket_sort_returns_witness :
  sharing_symmetric (sp_facets sample_distinct) 7 ∧ ∃ fuel r,
    bucket_sort (H0:=sort_rule [] sample_strings) sample_distinct fuel [sample_sort true] tt {[1; 2; 3; 4; 9]} = Some r ∧ r ≠ Panic.
Proof.
  split; [by apply sample_distinct_symmetric|].
  pose (OK := sort_rule_ok (Q:=unit) [] sample_strings sample_numbers_grouped sample_strings_grouped).
  destruct (bucket_sort_returns (H0:=sort_rule [] sample_strings) (H1:=OK) sample_distinct [sample_sort true] tt
    {[1; 2; 3; 4; 9]} ltac:(by constructor) I ltac:(done) ltac:(done) ltac:(done) sample_distinct_symmetric) as (fuel & r & Hr & Hok).
  exists fuel, r. split; [by apply Hr|]. by destruct r.
Defined.
