(* ===== verification/GeoSort.v ===== *)
(** * The geo sort ranking rule

    [crates/milli-core/src/search/new/geo_sort.rs]: a ranking rule whose buckets are
    the documents at the same distance of a point, the nearest ones first or last,
    then the documents without a position.  The positions come from an R-tree, or
    from the facets of the documents; those that are not returned yet wait in a
    queue. *)

From S2P Require Import Prelude TaskTypes Score BucketSort SortRule.
Open Scope Z_scope.

(** Floats, and what other crates do: the distance between two points of the globe
    ([geoutils]) and the points of an R-tree from the nearest one on ([rstar]). *)
Class GeoEnv `{Float} := {
  f64_lit : Z → F64;
  f64_add : F64 → F64 → F64;
  f64_sub : F64 → F64 → F64;
  f64_mul : F64 → F64 → F64;
  f64_abs : F64 → F64;
  f64_cos : F64 → F64;
  f64_sin : F64 → F64;
  to_radians : F64 → F64;
  f64_as_usize : F64 → Z;
  f64_from_str : string → option F64;
  Rtree : Type;
  nearest_neighbor_iter : Rtree → F64 * F64 * F64 → list (Z * (F64 * F64));
  haversine_distance : F64 * F64 → F64 * F64 → F64;
}.

Module Strategy.
Inductive t := AlwaysIterative (cache_size : Z) | AlwaysRtree (cache_size : Z) | Dynamic (cache_size : Z).
Definition use_rtree (s : t) (candidates : Z) : bool :=
  match s with AlwaysIterative _ => false | AlwaysRtree _ => true | Dynamic i => i <=? candidates end.
Definition cache_size (s : t) : Z := match s with AlwaysIterative i | AlwaysRtree i | Dynamic i => i end.
End Strategy.

(** Why a bucket is not given: a number that cannot be decoded, or a loop that is out
    of rounds (which never happens). *)
Inductive GeoError := InvalidNumber | OutOfRounds.

(** ** Positions *)

Section geo.
Context `{GeoEnv, !FacetText}.
Notation Point := (F64 * F64)%type.

(** [distance_between_two_points], [lat_lng_to_xyz] and [opposite_of]. *)
Definition distance_between_two_points (a b : Point) : F64 := haversine_distance a b.
Definition lat_lng_to_xyz (coord : Point) : F64 * F64 * F64 :=
  let lat := to_radians coord.1 in
  let lng := to_radians coord.2 in
  (f64_mul (f64_cos lat) (f64_cos lng), f64_mul (f64_cos lat) (f64_sin lng), f64_sin lat).
Definition opposite_of (coord : Point) : Point :=
  (f64_mul coord.1 (f64_lit (-1)),
   if f64_lt f64_zero coord.2 then f64_sub coord.2 (f64_lit 180) else f64_add coord.2 (f64_lit 180)).

(** What the rule reads of an index: the ids of the fields, the numbers and the
    strings of a field of a document (the numbers as they are in the keys, the strings
    as they are in the document), and the R-tree. *)
Record GeoIndex := mkGeoIndex {
  gi_fields : gmap string Z;
  gi_numbers : gmap (Z * Z) (list string);
  gi_strings : gmap (Z * Z) (list string);
  gi_rtree : option Rtree;
}.

(** [Parameter]. *)
Record GeoParameter := mkGeoParameter {
  gp_strategy : Strategy.t;
  gp_max_bucket_size : Z;
  gp_distance_error_margin : F64;
}.

Variable index : GeoIndex.

(** [geo_value]. *)
Definition extract_geo (docid geo_field : Z) : outcome GeoError F64 :=
  match default [] (gi_numbers index !! (geo_field, docid)) with
  | bytes :: _ => ok_or InvalidNumber (decode_number bytes)
  | [] =>
      match default [] (gi_strings index !! (geo_field, docid)) with
      | geo :: _ => unwrap (f64_from_str geo)
      | [] => Panic
      end
  end.
Definition geo_value (docid field_lat field_lng : Z) : outcome GeoError Point :=
  lat ← extract_geo docid field_lat;
  lng ← extract_geo docid field_lng;
  Ok (lat, lng).

(** ** The rule *)

Section rule.
Context {Q : Type}.

Record GeoSort := mkGeoSort {
  go_query : option Q;
  go_strategy : Strategy.t;
  go_is_ascending : bool;
  go_point : Point;
  go_field_ids : option (Z * Z);
  go_rtree : option Rtree;
  cached_sorted_docids : list (Z * Point);
  go_candidates : bitmap;
  go_max_bucket_size : Z;
  go_distance_error_margin : F64;
}.

(** [GeoSort::new]. *)
Definition geo_sort_new (parameter : GeoParameter) (geo_faceted_docids : bitmap) (point : Point) (ascending : bool) : GeoSort :=
  mkGeoSort None (gp_strategy parameter) ascending point None None [] geo_faceted_docids
    (gp_max_bucket_size parameter) (gp_distance_error_margin parameter).

Definition set_cache (l : list (Z * Point)) (s : GeoSort) : GeoSort :=
  mkGeoSort (go_query s) (go_strategy s) (go_is_ascending s) (go_point s) (go_field_ids s) (go_rtree s) l
    (go_candidates s) (go_max_bucket_size s) (go_distance_error_margin s).
Definition set_rtree (tree : option Rtree) (s : GeoSort) : GeoSort :=
  mkGeoSort (go_query s) (go_strategy s) (go_is_ascending s) (go_point s) (go_field_ids s) tree (cached_sorted_docids s)
    (go_candidates s) (go_max_bucket_size s) (go_distance_error_margin s).
Definition set_query (q : option Q) (s : GeoSort) : GeoSort :=
  mkGeoSort q (go_strategy s) (go_is_ascending s) (go_point s) (go_field_ids s) (go_rtree s) (cached_sorted_docids s)
    (go_candidates s) (go_max_bucket_size s) (go_distance_error_margin s).
Definition set_field_ids (fids : option (Z * Z)) (s : GeoSort) : GeoSort :=
  mkGeoSort (go_query s) (go_strategy s) (go_is_ascending s) (go_point s) fids (go_rtree s) (cached_sorted_docids s)
    (go_candidates s) (go_max_bucket_size s) (go_distance_error_margin s).

(** The loops over the neighbours: those that are candidates are pushed at the back or
    at the front of the queue until it is full. *)
Fixpoint push_back_neighbors (cache_size : Z) (candidates : bitmap) (l cache : list (Z * Point)) : list (Z * Point) :=
  match l with
  | [] => cache
  | x :: l =>
      if bm_contains candidates x.1 then
        let cache := cache ++ [x] in
        if cache_size <=? Z.of_nat (length cache) then cache else push_back_neighbors cache_size candidates l cache
      else push_back_neighbors cache_size candidates l cache
  end.
Fixpoint push_front_neighbors (cache_size : Z) (candidates : bitmap) (l cache : list (Z * Point)) : list (Z * Point) :=
  match l with
  | [] => cache
  | x :: l =>
      if bm_contains candidates x.1 then
        let cache := x :: cache in
        if cache_size <=? Z.of_nat (length cache) then cache else push_front_neighbors cache_size candidates l cache
      else push_front_neighbors cache_size candidates l cache
  end.

(** The order of a stable sort of documents that come by increasing id. *)
Definition sort_key (s : GeoSort) (p : Point) : Z := f64_as_usize (distance_between_two_points (go_point s) p).
Definition nearer (s : GeoSort) (x y : Z * Point) : Prop :=
  sort_key s x.2 < sort_key s y.2 ∨ (sort_key s x.2 = sort_key s y.2 ∧ x.1 ≤ y.1).
#[export] Instance nearer_dec s : RelDecision (nearer s).
Proof. intros x y. unfold nearer. apply _. Defined.

(** [GeoSort::fill_buffer]. *)
Definition fill_buffer (s : GeoSort) (geo_candidates : bitmap) : outcome GeoError GeoSort :=
  if Strategy.use_rtree (go_strategy s) (bm_len geo_candidates) then
    rtree ← match go_rtree s with Some rtree => Ok rtree | None => unwrap (gi_rtree index) end;
    let s := set_rtree (Some rtree) s in
    let cache_size := Strategy.cache_size (go_strategy s) in
    if go_is_ascending s then
      Ok (set_cache (push_back_neighbors cache_size geo_candidates
        (nearest_neighbor_iter rtree (lat_lng_to_xyz (go_point s))) (cached_sorted_docids s)) s)
    else
      Ok (set_cache (push_front_neighbors cache_size geo_candidates
        (nearest_neighbor_iter rtree (lat_lng_to_xyz (opposite_of (go_point s)))) (cached_sorted_docids s)) s)
  else
    '(lat, lng) ← unwrap (go_field_ids s);
    documents ← collect (λ id, p ← geo_value id lat lng; Ok (id, p)) (bm_iter geo_candidates);
    Ok (set_cache (cached_sorted_docids s ++ merge_sort (nearer s) documents) s).

(** [GeoSort::start_iteration]. *)
Definition geo_start_iteration (s : GeoSort) (universe : bitmap) (query : Q) : outcome GeoError GeoSort :=
  match go_query s with
  | Some _ => Panic
  | None =>
      let s := set_query (Some query) s in
      let geo_candidates := go_candidates s ∩ universe in
      if bm_is_empty geo_candidates then Ok s
      else
        lat ← unwrap (gi_fields index !! "_geo.lat"%string);
        lng ← unwrap (gi_fields index !! "_geo.lng"%string);
        fill_buffer (set_field_ids (Some (lat, lng)) s) geo_candidates
  end.

(** The queue in the order its elements are taken out. *)
Definition in_order (s : GeoSort) (l : list (Z * Point)) : list (Z * Point) := if go_is_ascending s then l else reverse l.

(** What the documents of the queue lead to: a complete bucket and the rest of the
    queue, or an empty queue. *)
Inductive Drained :=
  | Complete (rest : list (Z * Point)) (bucket : bitmap) (point0 : Point)
  | Exhausted (candidates bucket : bitmap) (current_distance : option (Point * F64)).
Fixpoint drain (s : GeoSort) (l : list (Z * Point)) (candidates bucket : bitmap) (current_distance : option (Point * F64)) : Drained :=
  match l with
  | [] => Exhausted candidates bucket current_distance
  | (id, point) :: l =>
      if bm_contains candidates id then
        let distance := distance_between_two_points (go_point s) point in
        match current_distance with
        | Some (point0, bucket_distance) =>
            if f64_lt (go_distance_error_margin s) (f64_abs (f64_sub bucket_distance distance)) then
              Complete ((id, point) :: l) bucket point0
            else
              let bucket := bucket ∪ {[id]} in
              if bm_len bucket =? go_max_bucket_size s then Complete l bucket point0
              else drain s l (candidates ∖ {[id]}) bucket current_distance
        | None =>
            let bucket := bucket ∪ {[id]} in
            if bm_len bucket =? go_max_bucket_size s then Complete l bucket point
            else drain s l (candidates ∖ {[id]}) bucket (Some (point, distance))
        end
      else drain s l candidates bucket current_distance
  end.

Definition geo_output (s : GeoSort) (query : Q) (candidates : bitmap) (value : option Point) : RankingRuleOutput Q :=
  mkRankingRuleOutput query candidates (SdGeoSort (mkGeoSortDetails (go_point s) (go_is_ascending s) value)).

(** The loop of [next_bucket]; each round empties the queue and fills it again. *)
Fixpoint geo_rounds (rounds : nat) (s : GeoSort) (query : Q) (universe candidates bucket : bitmap)
    (current_distance : option (Point * F64)) : outcome GeoError (option (RankingRuleOutput Q) * GeoSort) :=
  match rounds with
  | O => Err OutOfRounds
  | S rounds =>
      match drain s (in_order s (cached_sorted_docids s)) candidates bucket current_distance with
      | Complete rest bucket point0 => Ok (Some (geo_output s query bucket (Some point0)), set_cache (in_order s rest) s)
      | Exhausted candidates bucket current_distance =>
          s ← fill_buffer (set_cache [] s) candidates;
          match cached_sorted_docids s with
          | [] =>
              match current_distance with
              | Some (point0, _) => Ok (Some (geo_output s query bucket (Some point0)), s)
              | None => Ok (Some (geo_output s query universe None), s)
              end
          | _ => geo_rounds rounds s query universe candidates bucket current_distance
          end
      end
  end.

(** [GeoSort::next_bucket]: each round but the last takes a candidate. *)
Definition geo_next_bucket (s : GeoSort) (universe : bitmap) : outcome GeoError (option (RankingRuleOutput Q) * GeoSort) :=
  query ← unwrap (go_query s);
  let geo_candidates := go_candidates s ∩ universe in
  if bm_is_empty geo_candidates then Ok (Some (geo_output s query universe None), s)
  else geo_rounds (2 + size geo_candidates) s query universe geo_candidates ∅ None.

(** [GeoSort::end_iteration]: the R-tree stays. *)
Definition geo_end_iteration (s : GeoSort) : GeoSort := set_cache [] (set_query None s).
End rule.
End geo.
Arguments GeoSort {_ _} Q.

(** The rule, as one of those of the bucket sort. *)
#[export] Instance geo_ranking_rule `{GeoEnv, !FacetText} (index : GeoIndex) (Q : Type) : RankingRule := {
  Query := Q;
  Rule := GeoSort Q;
  SearchError := GeoError;
  start_iteration := geo_start_iteration index;
  next_bucket := geo_next_bucket index;
  end_iteration := geo_end_iteration;
}.

(** ** Sorted lists *)

Lemma StronglySorted_weaken {A} (R S : A → A → Prop) l :
  (∀ x y, x ∈ l → y ∈ l → R x y → S x y) → StronglySorted R l → StronglySorted S l.
Proof.
  intros HRS. induction 1 as [|x l Hs IH Hf]; constructor.
  - apply IH. intros y z Hy Hz. apply HRS; by right.
  - rewrite Forall_forall in *. intros y Hy. apply HRS; [by left|by right|by apply Hf].
Qed.
Lemma StronglySorted_reverse {A} (R : A → A → Prop) l : StronglySorted R l → StronglySorted (λ x y, R y x) (reverse l).
Proof.
  induction 1 as [|x l Hs IH Hf]; [constructor|]. rewrite reverse_cons. apply StronglySorted_app. split_and!; [|exact IH|by repeat constructor].
  rewrite Forall_forall in Hf. intros y z Hy ->%list_elem_of_singleton. apply Hf. by apply elem_of_reverse.
Qed.

(** ** Positions that are known *)

Section spec.
Context `{GeoEnv, !FacetText} (index : GeoIndex) {Q : Type}.
Notation Point := (F64 * F64)%type.
Notation GeoSort := (GeoSort Q).

(** The position of a document. *)
Definition point_of (docid : Z) : Point :=
  match gi_fields index !! "_geo.lat"%string, gi_fields index !! "_geo.lng"%string with
  | Some lat, Some lng => match geo_value index docid lat lng with Ok p => p | _ => (f64_zero, f64_zero) end
  | _, _ => (f64_zero, f64_zero)
  end.

(** The distance in meters. *)
Definition meters (point : Point) (docid : Z) : Z := f64_as_usize (distance_between_two_points point (point_of docid)).
Definition before (s : GeoSort) (x y : Z) : Prop :=
  if go_is_ascending s then meters (go_point s) x ≤ meters (go_point s) y else meters (go_point s) y ≤ meters (go_point s) x.

(** The R-tree of an index holds the positions of the documents, and goes from the
    nearest to the farthest; the nearest to the antipode are the farthest. *)
Record tree_ok (docs : bitmap) (point : Point) (tree : Rtree) : Prop := {
  tr_point : ∀ p x, x ∈ nearest_neighbor_iter tree p → x.1 ∈ docs → x.2 = point_of x.1;
  tr_all : ∀ p docid, docid ∈ docs → docid ∈ (nearest_neighbor_iter tree p).*1;
  tr_near : StronglySorted (λ x y, f64_as_usize (distance_between_two_points point x.2) ≤ f64_as_usize (distance_between_two_points point y.2))
    (nearest_neighbor_iter tree (lat_lng_to_xyz point));
  tr_far : StronglySorted (λ x y, f64_as_usize (distance_between_two_points point y.2) ≤ f64_as_usize (distance_between_two_points point x.2))
    (nearest_neighbor_iter tree (lat_lng_to_xyz (opposite_of point)));
}.

(** The documents with a position are as the index promises. *)
Record geo_index_ok (docs : bitmap) (point : Point) : Prop := {
  gx_fields : docs ≠ ∅ → ∃ lat lng, gi_fields index !! "_geo.lat"%string = Some lat ∧ gi_fields index !! "_geo.lng"%string = Some lng ∧
    ∀ docid, docid ∈ docs → geo_value index docid lat lng = Ok (point_of docid);
  gx_rtree : docs ≠ ∅ → ∃ tree, gi_rtree index = Some tree ∧ tree_ok docs point tree;
}.

(** A rule as it was created, whatever it was used for. *)
Definition geo_wf (s : GeoSort) : Prop :=
  geo_index_ok (go_candidates s) (go_point s) ∧ (go_rtree s = None ∨ go_rtree s = gi_rtree index).
Definition same_rule (s s' : GeoSort) : Prop :=
  go_query s' = go_query s ∧ go_strategy s' = go_strategy s ∧ go_is_ascending s' = go_is_ascending s ∧ go_point s' = go_point s ∧
  go_field_ids s' = go_field_ids s ∧ go_candidates s' = go_candidates s ∧ go_max_bucket_size s' = go_max_bucket_size s ∧
  go_distance_error_margin s' = go_distance_error_margin s.

(** ** The queue *)

(** The queue, in the order its documents are taken out, when the documents [c] are left. *)
Record queue_ok (s : GeoSort) (c : bitmap) (l : list (Z * Point)) : Prop := {
  qk_points : ∀ x, x ∈ l → x.2 = point_of x.1;
  qk_sorted : StronglySorted (λ x y, before s x.1 y.1) l;
  qk_rest : ∀ x y, x ∈ c → x ∉ l.*1 → y ∈ l → before s y.1 x;
}.

Lemma queue_ok_mono s c c' l : c' ⊆ c → queue_ok s c l → queue_ok s c' l.
Proof. intros Hc [Q1 Q2 Q3]. constructor; [done|done|]. intros x y Hx. apply Q3. by apply Hc. Qed.

Lemma queue_ok_tail s c x l : queue_ok s c (x :: l) → queue_ok s (c ∖ {[x.1]}) l.
Proof.
  intros [Q1 Q2 Q3]. constructor.
  - intros y Hy. apply Q1. by right.
  - by apply StronglySorted_inv in Q2 as [? _].
  - intros y z [Hy Hne]%elem_of_difference Hyl Hz. apply Q3; [done| |by right]. rewrite fmap_cons, elem_of_cons. set_solver.
Qed.

Lemma queue_ok_skip s c x l : queue_ok s c (x :: l) → x.1 ∉ c → queue_ok s c l.
Proof. intros Hq Hx. apply queue_ok_tail in Hq. by replace (c ∖ {[x.1]}) with c in Hq by set_solver. Qed.

(** The first document comes before those that are left. *)
Lemma queue_head s c x l y : queue_ok s c (x :: l) → y ∈ c → y ≠ x.1 → before s x.1 y.
Proof.
  intros [Q1 Q2 Q3] Hy Hne. destruct (decide (y ∈ l.*1)) as [Hin|Hnin].
  - apply StronglySorted_inv in Q2 as [_ Hf]. rewrite Forall_forall in Hf. apply list_elem_of_fmap in Hin as (z & -> & Hz). by apply Hf.
  - apply Q3; [done| |by left]. rewrite fmap_cons, elem_of_cons. naive_solver.
Qed.

(** The neighbours that are pushed are the first candidates. *)
Lemma push_back_spec n c l : ∀ cache, ∃ p rest, filter (λ x, x.1 ∈ c) l = p ++ rest ∧
  push_back_neighbors n c l cache = cache ++ p ∧ (p = [] → rest = []).
Proof.
  induction l as [|x l IH]; intros cache; cbn [push_back_neighbors]; [exists [], []; split_and!; [done|by rewrite app_nil_r|done]|].
  unfold bm_contains. case_bool_decide as Hx; [rewrite filter_cons_True by done|rewrite filter_cons_False by done; apply IH].
  cbv zeta. destruct (n <=? _).
  - by exists [x], (filter (λ x, x.1 ∈ c) l).
  - destruct (IH (cache ++ [x])) as (p & rest & Hf & -> & _). exists (x :: p), rest. rewrite Hf, <-app_assoc. by split_and!.
Qed.
Lemma push_front_spec n c l : ∀ cache, ∃ p rest, filter (λ x, x.1 ∈ c) l = p ++ rest ∧
  push_front_neighbors n c l cache = reverse p ++ cache ∧ (p = [] → rest = []).
Proof.
  induction l as [|x l IH]; intros cache; cbn [push_front_neighbors]; [by exists [], []|].
  unfold bm_contains. case_bool_decide as Hx; [rewrite filter_cons_True by done|rewrite filter_cons_False by done; apply IH].
  cbv zeta. destruct (n <=? _).
  - by exists [x], (filter (λ x, x.1 ∈ c) l).
  - destruct (IH (x :: cache)) as (p & rest & Hf & -> & _). exists (x :: p), rest. rewrite Hf, reverse_cons, <-app_assoc. split_and!; [done|done|done].
Qed.

(** The first neighbours of a tree are a queue. *)
Lemma neighbors_queue (s : GeoSort) docs tree p xyz rest c : tree_ok docs (go_point s) tree → c ⊆ docs →
  StronglySorted (λ x y, if go_is_ascending s then f64_as_usize (distance_between_two_points (go_point s) x.2) ≤ f64_as_usize (distance_between_two_points (go_point s) y.2)
    else f64_as_usize (distance_between_two_points (go_point s) y.2) ≤ f64_as_usize (distance_between_two_points (go_point s) x.2)) (nearest_neighbor_iter tree xyz) →
  filter (λ x, x.1 ∈ c) (nearest_neighbor_iter tree xyz) = p ++ rest → (p = [] → rest = []) →
  queue_ok s c p ∧ (∀ x, x ∈ p → x.1 ∈ c) ∧ (p = [] → c = ∅).
Proof.
  intros Ht Hc Hs Hf Hne. assert (Hin : ∀ x, x ∈ p ++ rest → x.1 ∈ c ∧ x.2 = point_of x.1).
  { intros x Hx. rewrite <-Hf in Hx. apply list_elem_of_filter in Hx as [Hxc Hx]. split; [done|]. eapply tr_point; [done|exact Hx|by apply Hc]. }
  apply (StronglySorted_filter _ (λ x, x.1 ∈ c)) in Hs. rewrite Hf in Hs.
  assert (Hs' : StronglySorted (λ x y, before s x.1 y.1) (p ++ rest)).
  { eapply StronglySorted_weaken; [|exact Hs]. intros x y Hx Hy. unfold before, meters. by rewrite <-(proj2 (Hin x Hx)), <-(proj2 (Hin y Hy)). }
  assert (Hall : ∀ x, x ∈ c → x ∈ (p ++ rest).*1).
  { intros x Hx. rewrite <-Hf. pose proof (tr_all _ _ _ Ht xyz x (Hc _ Hx)) as Hx'. apply list_elem_of_fmap in Hx' as (y & -> & Hy).
    apply list_elem_of_fmap. exists y. split; [done|]. by apply list_elem_of_filter. }
  split_and!.
  - constructor.
    + intros x Hx. apply Hin, elem_of_app. by left.
    + by apply StronglySorted_app_1_l in Hs'.
    + intros x y Hx Hxp Hy. apply Hall in Hx. rewrite fmap_app, elem_of_app in Hx. destruct Hx as [Hx|Hx]; [done|].
      apply list_elem_of_fmap in Hx as (z & -> & Hz). exact (StronglySorted_app_1_elem_of _ _ _ y z Hs' Hy Hz).
  - intros x Hx. apply Hin, elem_of_app. by left.
  - intros ->. rewrite Hne in Hall by done. apply set_eq. intros x. split; [|set_solver]. intros Hx%Hall. by apply elem_of_nil in Hx.
Qed.

Lemma queue_ok_same s s' c l : same_rule s s' → queue_ok s c l → queue_ok s' c l.
Proof.
  intros (_ & _ & Ha & Hp & _) [Q1 Q2 Q3]. assert (Hb : ∀ x y, before s x y ↔ before s' x y) by (intros x y; unfold before; by rewrite Ha, Hp).
  constructor; [done| |intros x y ???; by apply Hb, Q3].
  eapply StronglySorted_weaken; [|exact Q2]. intros x y _ _. by rewrite Hb.
Qed.

(** The fields of the positions are known. *)
Definition located (s : GeoSort) : Prop := ∃ lat lng,
  gi_fields index !! "_geo.lat"%string = Some lat ∧ gi_fields index !! "_geo.lng"%string = Some lng ∧ go_field_ids s = Some (lat, lng).

(** What is in a queue that was just filled. *)
Definition filled (s : GeoSort) (c : bitmap) : Prop :=
  let l := in_order s (cached_sorted_docids s) in queue_ok s c l ∧ (∀ x, x ∈ l → x.1 ∈ c) ∧ (l = [] → c = ∅).

Lemma fill_rtree_spec s c : geo_wf s → c ⊆ go_candidates s → go_candidates s ≠ ∅ → cached_sorted_docids s = [] →
  Strategy.use_rtree (go_strategy s) (bm_len c) = true → ∃ s', fill_buffer index s c = Ok s' ∧ same_rule s s' ∧ geo_wf s' ∧ filled s' c.
Proof.
  intros [[Hx1 Hx2] Hrt] Hc Hne Hcache Huse. destruct (Hx2 Hne) as (tree & Htree & Hok). unfold fill_buffer. rewrite Huse.
  assert ((match go_rtree s with Some rtree => Ok rtree | None => unwrap (gi_rtree index) end) = (Ok tree : outcome GeoError Rtree)) as ->.
  { destruct Hrt as [-> | ->]; rewrite Htree; done. }
  cbn [mbind outcome_bind]. destruct (go_is_ascending s) eqn:Hasc; cbn [set_rtree go_is_ascending]; rewrite Hasc; (eexists; split; [reflexivity|]; split; [by split_and!|]; split; [split; [done|by right]|]);
    unfold filled, in_order; cbn [set_cache set_rtree go_is_ascending cached_sorted_docids go_point go_strategy]; rewrite Hasc, Hcache.
  - destruct (push_back_spec (Strategy.cache_size (go_strategy s)) c (nearest_neighbor_iter tree (lat_lng_to_xyz (go_point s))) []) as (p & rest & Hf & -> & Hr).
    eapply neighbors_queue; [exact Hok|done| |exact Hf|done]. cbn. rewrite Hasc. by apply (tr_near _ _ _ Hok).
  - destruct (push_front_spec (Strategy.cache_size (go_strategy s)) c (nearest_neighbor_iter tree (lat_lng_to_xyz (opposite_of (go_point s)))) []) as (p & rest & Hf & -> & Hr).
    rewrite app_nil_r, reverse_involutive. eapply neighbors_queue; [exact Hok|done| |exact Hf|done]. cbn. rewrite Hasc. by apply (tr_far _ _ _ Hok).
Qed.

(** The positions of the documents, one by one. *)
Lemma collect_points s c lat lng : (∀ docid, docid ∈ c → geo_value index docid lat lng = Ok (point_of docid)) →
  collect (λ id, p ← geo_value index id lat lng; Ok (id, p)) (bm_iter c) = Ok ((λ id, (id, point_of id)) <$> bm_iter c) ∧
  let l := in_order s (merge_sort (nearer s) ((λ id, (id, point_of id)) <$> bm_iter c)) in
  queue_ok s c l ∧ ∀ x, x ∈ l ↔ x.1 ∈ c ∧ x.2 = point_of x.1.
Proof.
  intros Hv. split.
  - apply collect_Ok, Forall2_fmap_r, Forall_Forall2_diag, Forall_forall. intros id Hid%elem_of_bm_iter. by rewrite Hv.
  - set (docs := (λ id, (id, point_of id)) <$> bm_iter c). set (l := merge_sort (nearer s) docs).
    assert (Hin : ∀ x, x ∈ l ↔ x.1 ∈ c ∧ x.2 = point_of x.1).
    { intros [x p]. unfold l. rewrite merge_sort_Permutation. unfold docs. rewrite list_elem_of_fmap. split; [intros (y & [= -> ->] & ?%elem_of_bm_iter); done|].
      cbn. intros [Hx ->]. exists x. by rewrite elem_of_bm_iter. }
    assert (Hs : StronglySorted (λ x y, meters (go_point s) x.1 ≤ meters (go_point s) y.1) l).
    { assert (Hs : StronglySorted (nearer s) l).
      { apply StronglySorted_merge_sort.
        - intros x y z [?|[? ?]] [?|[? ?]]; unfold nearer; lia.
        - intros x y. unfold nearer. lia. }
      eapply StronglySorted_weaken; [|exact Hs]. intros x y Hx%Hin Hy%Hin. unfold nearer, sort_key, meters. destruct Hx as [_ ->], Hy as [_ ->]. lia. }
    assert (Hin' : ∀ x, x ∈ in_order s l ↔ x.1 ∈ c ∧ x.2 = point_of x.1) by (intros x; unfold in_order; destruct (go_is_ascending s); rewrite ?elem_of_reverse; apply Hin).
    split; [|exact Hin']. constructor.
    + intros x Hx%Hin'. apply Hx.
    + unfold in_order. destruct (go_is_ascending s) eqn:Hasc; (eapply StronglySorted_weaken; [|first [exact Hs|exact (StronglySorted_reverse _ _ Hs)]]);
        intros x y _ _; unfold before; by rewrite Hasc.
    + intros x y Hx Hnx. exfalso. apply Hnx, list_elem_of_fmap. exists (x, point_of x). split; [done|by apply Hin'].
Qed.

Lemma bind_value {A B} (a : A) (f : A → outcome GeoError B) : (mbind f (Ok a) : outcome GeoError B) = f a.
Proof. done. Qed.

Lemma fill_buffer_spec s c : geo_wf s → located s → c ⊆ go_candidates s → go_candidates s ≠ ∅ → cached_sorted_docids s = [] →
  ∃ s', fill_buffer index s c = Ok s' ∧ same_rule s s' ∧ geo_wf s' ∧ filled s' c.
Proof.
  intros Hwf Hloc Hc Hne Hcache. destruct (Strategy.use_rtree (go_strategy s) (bm_len c)) eqn:Huse; [by apply fill_rtree_spec|].
  destruct Hwf as [[Hx1 Hx2] Hrt], Hloc as (lat & lng & Hlat & Hlng & Hfids). destruct (Hx1 Hne) as (lat' & lng' & Hlat' & Hlng' & Hv). simplify_eq.
  destruct (collect_points s c lat lng) as (Hcol & Hq & Hin); [intros id Hid; apply Hv; by apply Hc|].
  unfold fill_buffer. rewrite Huse, Hfids. cbn [unwrap]. rewrite (bind_value (lat, lng)), Hcol, bind_value.
  eexists. split; [reflexivity|]. split; [by split_and!|]. split; [split; [by constructor|done]|]. unfold filled. rewrite Hcache. cbn [app set_cache cached_sorted_docids in_order go_is_ascending].
  set (l := merge_sort _ _) in *. change (in_order (set_cache l s)) with (in_order s). split_and!; [by eapply queue_ok_same; [|exact Hq]|by intros x [? _]%Hin|].
  intros Hnil. apply set_eq. intros x. split; [|set_solver]. intros Hx. assert (Hd : (x, point_of x) ∈ in_order s l) by (by apply Hin).
  rewrite Hnil in Hd. by apply elem_of_nil in Hd.
Qed.

(** ** A bucket *)

(** Two documents are at the same distance. *)
Definition close (s : GeoSort) (x y : Z) : Prop :=
  f64_lt (go_distance_error_margin s) (f64_abs (f64_sub
    (distance_between_two_points (go_point s) (point_of x)) (distance_between_two_points (go_point s) (point_of y)))) = false.

(** What a bucket [b] of the candidates [c0] is: documents at the distance of one of
    them, before those that are left; and as many as can be. *)
Record geo_bucket (s : GeoSort) (c0 b : bitmap) (point0 : Point) : Prop := {
  gb_sub : b ⊆ c0;
  gb_first : ∃ x0, x0 ∈ b ∧ point0 = point_of x0 ∧ (∀ y, y ∈ b → y = x0 ∨ close s x0 y) ∧
    (b = c0 ∨ bm_len b = go_max_bucket_size s ∨ ∃ x, x ∈ c0 ∖ b ∧ ¬ close s x0 x ∧ ∀ y, y ∈ c0 ∖ b → y = x ∨ before s x y);
  gb_before : ∀ x y, x ∈ b → y ∈ c0 ∖ b → before s x y;
  gb_size : 1 ≤ go_max_bucket_size s → bm_len b ≤ go_max_bucket_size s;
}.

(** A bucket that is not complete. *)
Record partial_bucket (s : GeoSort) (c0 c b : bitmap) (current_distance : option (Point * F64)) : Prop := {
  pb_sub : b ⊆ c0;
  pb_left : c = c0 ∖ b;
  pb_current : match current_distance with
    | None => b = ∅
    | Some (point0, distance) => ∃ x0, x0 ∈ b ∧ point0 = point_of x0 ∧ distance = distance_between_two_points (go_point s) point0 ∧
        ∀ y, y ∈ b → y = x0 ∨ close s x0 y
    end;
  pb_before : ∀ x y, x ∈ b → y ∈ c → before s x y;
  pb_size : 1 ≤ go_max_bucket_size s → bm_len b < go_max_bucket_size s;
}.

Lemma bm_len_add (b : bitmap) x : x ∉ b → bm_len (b ∪ {[x]}) = bm_len b + 1.
Proof. intros Hx. unfold bm_len. rewrite size_union by set_solver. rewrite size_singleton. lia. Qed.

(** The documents of the queue go to the bucket one by one. *)
Lemma drain_spec s c0 l : ∀ c b cur, partial_bucket s c0 c b cur → queue_ok s c l →
  match drain s l c b cur with
  | Complete rest b' point0 => geo_bucket s c0 b' point0 ∧ queue_ok s (c0 ∖ b') rest
  | Exhausted c' b' cur' => partial_bucket s c0 c' b' cur' ∧ c' = c ∖ list_to_set l.*1
  end.
Proof.
  induction l as [|[x p] l IH]; intros c b cur Hp Hq; cbn [drain]; [split; [done|set_solver]|].
  unfold bm_contains. case_bool_decide as Hx.
  2: { pose proof (IH c b cur Hp (queue_ok_skip _ _ _ _ Hq Hx)) as Hd. destruct (drain s l c b cur) as [|c' b' cur']; [done|].
       destruct Hd as [Hp' ->]. split; [done|]. cbn. set_solver. }
  pose proof (qk_points _ _ _ Hq (x, p) ltac:(by left)) as Hpx. cbn in Hpx. pose proof Hp as [P1 -> P3 P4 P5]. apply elem_of_difference in Hx as [Hxc Hxb].
  pose proof (queue_ok_tail _ _ _ _ Hq) as Hq'. cbn [fst] in Hq'. replace (c0 ∖ b ∖ {[x]}) with (c0 ∖ (b ∪ {[x]})) in * by set_solver.
  assert (Hbefore : ∀ z y, z ∈ b ∪ {[x]} → y ∈ c0 ∖ (b ∪ {[x]}) → before s z y).
  { intros z y [Hz| ->%elem_of_singleton]%elem_of_union Hy; [apply P4; set_solver|]. apply (queue_head _ _ _ _ y Hq); set_solver. }
  assert (Hadd : ∀ cur' point0, match cur' with Some (p0, d) => p0 = point0 ∧ ∃ x0, x0 ∈ b ∪ {[x]} ∧ p0 = point_of x0 ∧ d = distance_between_two_points (go_point s) p0 ∧
        ∀ y, y ∈ b ∪ {[x]} → y = x0 ∨ close s x0 y | None => False end →
    match (if bm_len (b ∪ {[x]}) =? go_max_bucket_size s then Complete l (b ∪ {[x]}) point0 else drain s l (c0 ∖ (b ∪ {[x]})) (b ∪ {[x]}) cur') with
    | Complete rest b' point0 => geo_bucket s c0 b' point0 ∧ queue_ok s (c0 ∖ b') rest
    | Exhausted c' b' cur' => partial_bucket s c0 c' b' cur' ∧ c' = c0 ∖ b ∖ list_to_set (x :: l.*1)
    end).
  { intros [[p0 d]|] point0; [|done]. intros (-> & x0 & Hx0 & Hp0 & Hd & Hclose). destruct (Z.eqb_spec (bm_len (b ∪ {[x]})) (go_max_bucket_size s)) as [Heq|Hne].
    - split; [|done]. constructor; [set_solver|exists x0; split_and!; [done|done|done|by right; left]|done|lia].
    - pose proof (IH (c0 ∖ (b ∪ {[x]})) (b ∪ {[x]}) (Some (point0, d))) as Hd'. destruct (drain s l _ _ _) as [rest b' p'|c' b' cur'].
      + apply Hd'; [|done]. constructor; [set_solver|done|by exists x0|done|]. rewrite bm_len_add in * by done. lia.
      + destruct Hd' as [Hp' ->]; [|done|].
        { constructor; [set_solver|done|by exists x0|done|]. rewrite bm_len_add in * by done. lia. }
        split; [done|]. cbn. apply set_eq. intros z. set_solver. }
  replace (c0 ∖ b ∖ {[x]}) with (c0 ∖ (b ∪ {[x]})) by set_solver.
  destruct cur as [[p0 d]|].
  - destruct P3 as (x0 & Hx0 & -> & -> & Hclose). destruct (f64_lt _ _) eqn:Hlt.
    + split; [|done]. constructor; [done|exists x0; split_and!; [done|done|done|right; right]|done|intros ?; lia].
      exists x. split; [set_solver|]. split; [unfold close; rewrite <-Hpx, Hlt; done|]. intros y Hy. destruct (decide (y = x)) as [->|Hne]; [by left|right].
      apply (queue_head _ _ _ _ y Hq); [set_solver|done].
    + apply (Hadd (Some (point_of x0, distance_between_two_points (go_point s) (point_of x0))) (point_of x0)). split; [done|]. exists x0. split_and!; [set_solver|done|done|].
      intros y [Hy| ->%elem_of_singleton]%elem_of_union; [by apply Hclose|right]. unfold close. by rewrite <-Hpx.
  - subst b. apply (Hadd (Some (p, distance_between_two_points (go_point s) p)) p). split; [done|]. exists x. split_and!; [set_solver|done|done|]. intros y Hy. left. set_solver.
Qed.

Lemma difference_empty_subset (a b : bitmap) : a ∖ b = ∅ → a ⊆ b.
Proof. intros He x Hx. destruct (decide (x ∈ b)) as [?|Hn]; [done|]. assert (Hd : x ∈ a ∖ b) by (by apply elem_of_difference). rewrite He in Hd. set_solver. Qed.

Lemma same_rule_trans s1 s2 s3 : same_rule s1 s2 → same_rule s2 s3 → same_rule s1 s3.
Proof. intros (?&?&?&?&?&?&?&?) (?&?&?&?&?&?&?&?). split_and!; congruence. Qed.
Lemma same_output s s' q b v : same_rule s s' → geo_output s' q b v = geo_output s q b v.
Proof. intros (_ & _ & Ha & Hp & _). unfold geo_output. by rewrite Ha, Hp. Qed.
Lemma same_located s s' : same_rule s s' → located s → located s'.
Proof. intros (_ & _ & _ & _ & Hf & _). unfold located. by rewrite Hf. Qed.
Lemma same_close s s' x y : same_rule s s' → close s' x y ↔ close s x y.
Proof. intros (_ & _ & _ & Hp & _ & _ & _ & Hm). unfold close. by rewrite Hp, Hm. Qed.
Lemma same_before s s' x y : same_rule s s' → before s' x y ↔ before s x y.
Proof. intros (_ & _ & Ha & Hp & _). unfold before. by rewrite Ha, Hp. Qed.
Lemma same_partial s s' c0 c b cur : same_rule s s' → partial_bucket s c0 c b cur → partial_bucket s' c0 c b cur.
Proof.
  intros Hs [P1 P2 P3 P4 P5]. pose proof Hs as (_ & _ & _ & Hp & _ & _ & Hmax & _). constructor; [done|done| |intros x y ??; by apply (same_before s), P4|by rewrite Hmax].
  destruct cur as [[p d]|]; [|done]. destruct P3 as (x0 & ? & ? & ? & Hc). exists x0. rewrite Hp. split_and!; [done..|].
  intros y Hy. destruct (Hc y Hy) as [?|?]; [by left|right]. by apply (same_close s).
Qed.
Lemma same_bucket s s' c0 b p : same_rule s s' → geo_bucket s' c0 b p → geo_bucket s c0 b p.
Proof.
  intros Hs [P1 (x0 & Hx0 & Hp0 & Hc & Hmaxb) P4 P5]. pose proof Hs as (_ & _ & _ & _ & _ & _ & Hmax & _). rewrite Hmax in *. constructor; [done| |intros x y ??; by apply (same_before s s' _ _ Hs), P4|done].
  exists x0. split_and!; [done|done| |].
  - intros y Hy. destruct (Hc y Hy) as [?|?]; [by left|right]. by apply (same_close s s' _ _ Hs).
  - destruct Hmaxb as [?|[?|(x & Hx & Hnc & Hb)]]; [by left|by right; left|right; right]. exists x. split_and!; [done|by rewrite <-(same_close s s' _ _ Hs)|].
    intros y Hy. destruct (Hb y Hy) as [?|?]; [by left|right]. by apply (same_before s s' _ _ Hs).
Qed.

(** What a bucket leaves. *)
Record geo_found (s : GeoSort) (query : Q) (c0 : bitmap) (r : outcome GeoError (option (RankingRuleOutput Q) * GeoSort)) : Prop := {
  gf_result : ∃ b point0 s', r = Ok (Some (geo_output s query b (Some point0)), s') ∧ geo_bucket s c0 b point0 ∧
    same_rule s s' ∧ geo_wf s' ∧ queue_ok s' (c0 ∖ b) (in_order s' (cached_sorted_docids s'));
}.

Lemma geo_rounds_spec query u c0 n : ∀ s c b cur, geo_wf s → located s → c0 ⊆ go_candidates s → c0 ≠ ∅ →
  queue_ok s c (in_order s (cached_sorted_docids s)) → partial_bucket s c0 c b cur →
  (size c + 1 < n)%nat ∨ ((size c < n)%nat ∧ ∃ x, x ∈ in_order s (cached_sorted_docids s) ∧ x.1 ∈ c) →
  geo_found s query c0 (geo_rounds index n s query u c b cur).
Proof.
  induction n as [|n IH]; intros s c b cur Hwf Hloc Hc0 Hne Hq Hp Hn; [lia|]. cbn [geo_rounds].
  pose proof (drain_spec s c0 (in_order s (cached_sorted_docids s)) c b cur Hp Hq) as Hd.
  destruct (drain s _ c b cur) as [rest b' p0|c' b' cur'].
  - destruct Hd as [Hb Hq']. constructor. exists b', p0, (set_cache (in_order s rest) s). split_and!; [done|done|by split_and!|done|].
    apply (queue_ok_same s); [by split_and!|]. change (in_order (set_cache (in_order s rest) s)) with (in_order s). cbn [set_cache cached_sorted_docids].
    unfold in_order. destruct (go_is_ascending s); [done|by rewrite reverse_involutive].
  - destruct Hd as [Hp' Hc']. assert (Hsub : c' ⊆ c0) by (rewrite (pb_left _ _ _ _ _ Hp'); set_solver).
    destruct (fill_buffer_spec (set_cache [] s) c') as (s' & Hfill & Hsame & Hwf' & Hq' & Hin & Hnil); [done|done|cbn; set_solver|cbn; set_solver|done|].
    rewrite Hfill. cbn [mbind outcome_bind]. assert (Hs : same_rule s s') by (eapply same_rule_trans; [|exact Hsame]; by split_and!).
    assert (Hlen : (size c' < n)%nat).
    { subst c'. destruct Hn as [Hn|[Hn (x & Hx & Hxc)]].
      - pose proof (subseteq_size (c ∖ list_to_set (in_order s (cached_sorted_docids s)).*1) c ltac:(set_solver)). lia.
      - assert (Hss : c ∖ list_to_set (in_order s (cached_sorted_docids s)).*1 ⊂ c); [|apply subset_size in Hss; lia].
        split; [set_solver|]. intros Hall. apply (Hall _) in Hxc. apply elem_of_difference in Hxc as [_ Hxc]. apply Hxc, elem_of_list_to_set, list_elem_of_fmap. by exists x. }
    destruct (cached_sorted_docids s') as [|x cache] eqn:Hcache.
    + assert (c' = ∅) as Hce by (apply Hnil; unfold in_order; destruct (go_is_ascending s'); done).
      assert (b' = c0) as -> by (apply (anti_symm (⊆)); [by eapply pb_sub|]; apply (difference_empty_subset c0 b'); by rewrite <-(pb_left _ _ _ _ _ Hp')).
      pose proof (pb_current _ _ _ _ _ Hp') as Hcur. destruct cur' as [[p0 d]|]; [|done]. destruct Hcur as (x0 & Hx0 & Hpx & _ & Hclose).
      constructor. exists c0, p0, s'. rewrite (same_output s s') by done. split_and!; [done| |done|done|rewrite Hcache, <-(pb_left _ _ _ _ _ Hp'); exact Hq'].
      constructor; [done|exists x0; split_and!; [done|done|done|by left]|intros x y _; set_solver|]. intros Hm. pose proof (pb_size _ _ _ _ _ Hp' Hm). lia.
    + assert (Hx : ∃ x, x ∈ in_order s' (cached_sorted_docids s')).
      { rewrite Hcache. exists x. unfold in_order. destruct (go_is_ascending s'); rewrite ?elem_of_reverse; by left. }
      destruct Hx as [z Hz]. rewrite Hcache in Hz. destruct (IH s' c' b' cur') as [(b2 & p2 & s2 & Hr & Hb2 & Hs2 & Hw2 & Hq2)].
      * done.
      * by apply (same_located s).
      * by destruct Hs as (_ & _ & _ & _ & _ & -> & _).
      * done.
      * by rewrite Hcache.
      * by apply (same_partial s).
      * right. split; [done|]. exists z. rewrite Hcache. split; [done|by apply Hin].
      * constructor. exists b2, p2, s2. rewrite Hr, (same_output s s') by done. split_and!; [done|by apply (same_bucket s s')|by eapply same_rule_trans|done|done].
Qed.

(** ** The contract of a rule *)

Definition geo_idle (s : GeoSort) : Prop := geo_wf s ∧ go_query s = None ∧ cached_sorted_docids s = [].
Definition geo_started (s : GeoSort) (u : bitmap) : Prop :=
  geo_wf s ∧ is_Some (go_query s) ∧
  (go_candidates s ∩ u = ∅ ∨ located s ∧ queue_ok s (go_candidates s ∩ u) (in_order s (cached_sorted_docids s))).

Lemma geo_started_mono s u v : v ⊆ u → geo_started s u → geo_started s v.
Proof.
  intros Hv (Hwf & Hq & Hs). split_and!; [done|done|]. destruct Hs as [He|[Hl Hqk]]; [left; set_solver|right].
  split; [done|]. eapply queue_ok_mono; [|exact Hqk]. set_solver.
Qed.

Lemma geo_start_spec s u q : geo_idle s → ∃ s', geo_start_iteration index s u q = Ok s' ∧ geo_started s' u ∧ go_query s' = Some q ∧
  go_candidates s' = go_candidates s ∧ go_is_ascending s' = go_is_ascending s ∧ go_point s' = go_point s ∧
  go_max_bucket_size s' = go_max_bucket_size s ∧ go_distance_error_margin s' = go_distance_error_margin s.
Proof.
  intros (Hwf & Hq & Hcache). unfold geo_start_iteration. rewrite Hq. cbn [set_query go_candidates]. unfold bm_is_empty. case_bool_decide as He.
  { eexists. split; [reflexivity|]. split_and!; try done. split_and!; [done|done|by left]. }
  assert (Hne : go_candidates s ≠ ∅) by set_solver. pose proof Hwf as [[Hx1 _] _]. destruct (Hx1 Hne) as (lat & lng & Hlat & Hlng & _).
  rewrite Hlat, Hlng. cbn [unwrap mbind outcome_bind]. set (s1 := set_field_ids _ _).
  destruct (fill_buffer_spec s1 (go_candidates s ∩ u)) as (s' & Hfill & Hsame & Hwf' & Hq' & _ & _); [done|by exists lat, lng|cbn; set_solver|done|done|].
  rewrite Hfill. exists s'. split; [done|]. pose proof Hsame as (Hq1 & _ & Ha1 & Hp1 & _ & Hc1 & Hm1 & Hd1). split_and!; try done. split_and!; [done|by rewrite Hq1|].
  right. split; [apply (same_located s1); [done|by exists lat, lng]|]. by rewrite Hc1.
Qed.

Lemma geo_next_spec s u : geo_started s u → let c := go_candidates s ∩ u in
  (c = ∅ ∧ ∃ q, go_query s = Some q ∧ geo_next_bucket index s u = Ok (Some (geo_output s q u None), s)) ∨
  (c ≠ ∅ ∧ ∃ q, go_query s = Some q ∧ geo_found s q c (geo_next_bucket index s u)).
Proof.
  intros (Hwf & [q Hq] & Hs) c. unfold geo_next_bucket. rewrite Hq. cbn [unwrap mbind outcome_bind]. fold c. unfold bm_is_empty. case_bool_decide as He; [left|right].
  { split; [done|]. by exists q. }
  destruct Hs as [Hs|[Hl Hqk]]; [done|]. split; [done|]. exists q. split; [done|]. apply geo_rounds_spec; try done; [set_solver| |left; lia].
  constructor; [set_solver|set_solver|done|set_solver|]. intros Hm. unfold bm_len. rewrite size_empty. lia.
Qed.

(** What is left to the rule. *)
Lemma geo_found_started s u q : geo_started s u → geo_found s q (go_candidates s ∩ u) (geo_next_bucket index s u) → go_query s = Some q →
  ∃ b point0 s', geo_next_bucket index s u = Ok (Some (geo_output s q b (Some point0)), s') ∧ geo_bucket s (go_candidates s ∩ u) b point0 ∧
    same_rule s s' ∧ geo_started s' (u ∖ b).
Proof.
  intros (Hwf & _ & Hs) [(b & p & s' & Hr & Hb & Hsame & Hwf' & Hq')] Hq. exists b, p, s'. split_and!; [done..|].
  pose proof Hsame as (Hq1 & _ & _ & _ & _ & Hc1 & _). split_and!; [done|by rewrite Hq1, Hq|]. rewrite Hc1.
  replace (go_candidates s ∩ (u ∖ b)) with ((go_candidates s ∩ u) ∖ b) by set_solver. right. split; [|done].
  destruct Hs as [He|[Hl _]]; [|by apply (same_located s)]. exfalso. pose proof (gb_sub _ _ _ _ Hb). destruct (gb_first _ _ _ _ Hb) as (x0 & Hx0 & _). set_solver.
Qed.

#[export] Instance geo_rule_ok : RankingRuleOk (H0:=geo_ranking_rule index Q).
Proof.
  apply (Build_RankingRuleOk (H0:=geo_ranking_rule index Q) (λ _, True) geo_idle geo_started (λ _, O)).
  - apply geo_started_mono.
  - intros s u (Hwf & _). done.
  - intros s u q Hs _. destruct (geo_start_spec s u q Hs) as (s' & Hr & Hs' & _). cbn. by rewrite Hr.
  - intros s u Hs Hu. cbn. destruct (geo_next_spec s u Hs) as [(_ & q & _ & ->)|(_ & q & Hq & Hf)].
    + cbn. split_and!; [done|done|by eapply geo_started_mono; [|exact Hs]; set_solver|by left].
    + destruct (geo_found_started s u q Hs Hf Hq) as (b & p & s' & -> & Hb & _ & Hs'). cbn. pose proof (gb_sub _ _ _ _ Hb).
      split_and!; [set_solver|done|done|left]. destruct (gb_first _ _ _ _ Hb) as (x0 & Hx0 & _). set_solver.
Defined.

Lemma geo_new_idle parameter docs point ascending : geo_index_ok docs point → geo_idle (geo_sort_new parameter docs point ascending).
Proof. intros Hx. split_and!; [split; [done|by left]|done|done]. Qed.
End spec.

(** ** What the rule gives *)

Lemma geo_after `{GeoEnv, !FacetText} (index : GeoIndex) {Q : Type} (s : GeoSort Q) u s' v :
  after_buckets (H0:=geo_ranking_rule index Q) s u s' v → geo_started index s u →
  geo_started index s' v ∧ go_query s' = go_query s ∧ go_candidates s' = go_candidates s ∧ go_is_ascending s' = go_is_ascending s ∧ go_point s' = go_point s ∧
  go_max_bucket_size s' = go_max_bucket_size s ∧ go_distance_error_margin s' = go_distance_error_margin s.
Proof.
  induction 1 as [s u|s u b s1 v s2 w Hnext Hv _ IH]; intros Hs; [by split_and!|]. cbn in Hnext.
  assert (Hs1 : geo_started index s1 v ∧ go_query s1 = go_query s ∧ go_candidates s1 = go_candidates s ∧ go_is_ascending s1 = go_is_ascending s ∧ go_point s1 = go_point s ∧
    go_max_bucket_size s1 = go_max_bucket_size s ∧ go_distance_error_margin s1 = go_distance_error_margin s).
  { destruct (geo_next_spec index s u Hs) as [(_ & q & Hq & Hn)|(_ & q & Hq & Hf)].
    - rewrite Hnext in Hn. injection Hn as -> ->. split_and!; try done. eapply geo_started_mono; [|exact Hs]. cbn in Hv. set_solver.
    - destruct (geo_found_started index s u q Hs Hf Hq) as (b' & p & s' & Hn & _ & (Hsq & _ & Ha & Hp & _ & Hc & Hm & Hd) & Hs').
      rewrite Hnext in Hn. injection Hn as -> ->. split_and!; try done. by eapply geo_started_mono. }
  destruct Hs1 as (Hs1 & ? & ? & ? & ? & ? & ?). destruct (IH Hs1) as (? & ? & ? & ? & ? & ? & ?). split_and!; congruence.
Qed.

(** The geo sort gives the documents from the nearest to the farthest of the
    point, or the other way round.  On an index whose documents with a position have
    one, a new rule starts without failing; after any buckets, the next one
    holds the documents at the distance of one of them (within the margin) that come
    before all those that are left, and as many as the limit of a bucket allows; its
    score is the position of this document; once no document with a position is
    left, the bucket is the whole universe.  Neither the strategy (the facets of the
    documents or the R-tree), nor the size of the queue, nor when it is filled
    again matters, and the loop always ends. *)
Theorem geo_sort_order `{GeoEnv, !FacetText} (index : GeoIndex) {Q : Type} parameter docs point ascending u (q : Q) :
  geo_index_ok index docs point → let rule := geo_sort_new parameter docs point ascending in
  ∃ started, geo_start_iteration index rule u q = Ok started ∧
  ∀ s v, after_buckets (H0:=geo_ranking_rule index Q) started u s v → let c := docs ∩ v in
    (c = ∅ ∧ geo_next_bucket index s v = Ok (Some (geo_output rule q v None), s)) ∨
    (c ≠ ∅ ∧ ∃ b point0 s', geo_next_bucket index s v = Ok (Some (geo_output rule q b (Some point0)), s') ∧ geo_bucket index rule c b point0).
Proof.
  intros Hx rule. destruct (geo_start_spec index rule u q) as (started & Hstart & Hs & Hq & Hc & Ha & Hp & Hm & Hd); [by apply geo_new_idle|].
  exists started. split; [done|]. intros s v Hafter. destruct (geo_after index _ _ _ _ Hafter Hs) as (Hs' & Hq' & Hc' & Ha' & Hp' & Hm' & Hd').
  assert (Hout : ∀ b o, geo_output s q b o = geo_output rule q b o) by (intros b o; unfold geo_output; congruence).
  rewrite Hq in Hq'. replace docs with (go_candidates s) by (rewrite Hc', Hc; done). destruct (geo_next_spec index s v Hs') as [(He & q' & Hq1 & Hn)|(He & q' & Hq1 & Hf)]; rewrite Hq' in Hq1; injection Hq1 as <-.
  - left. split; [done|]. by rewrite Hn, Hout.
  - right. split; [done|]. destruct (geo_found_started index s v q Hs' Hf Hq') as (b & p & s' & Hn & Hb & _). exists b, p, s'. split; [by rewrite Hn, Hout|].
    destruct Hb as [B1 (x0 & B2 & B3 & B4 & B5) B6 B7]. unfold close, before in *. rewrite Ha', Ha, Hp', Hp, ?Hm', ?Hm, ?Hd', ?Hd in *.
    constructor; [done|by exists x0; split_and!|done|done].
Qed.

(** ** A sample *)

#[local] Existing Instance sample_float.
#[local] Existing Instance sample_facet_text.
(** Positions on a line. *)
#[local] Instance sample_geo : GeoEnv := {|
  f64_lit z := (z, 1);
  f64_add x y := (x.1 * y.2 + y.1 * x.2, x.2 * y.2);
  f64_sub x y := (x.1 * y.2 - y.1 * x.2, x.2 * y.2);
  f64_mul x y := (x.1 * y.1, x.2 * y.2);
  f64_abs x := (Z.abs x.1, x.2);
  f64_cos x := x;
  f64_sin x := x;
  to_radians x := x;
  f64_as_usize x := x.1 / x.2;
  f64_from_str s := if String.eqb s "1" then Some (1, 1) else if String.eqb s "2" then Some (2, 1) else if String.eqb s "9" then Some (9, 1) else None;
  Rtree := list (Z * ((Z * Z) * (Z * Z)));
  nearest_neighbor_iter tree p := if 0 <? p.2.1 then tree else reverse tree;
  haversine_distance p x := (Z.abs (x.1.1 - p.1.1), 1);
|}.

Definition sample_tree : list (Z * ((Z * Z) * (Z * Z))) := [(1, ((2, 1), (1, 1))); (2, ((2, 1), (1, 1))); (3, ((9, 1), (1, 1)))].
Definition sample_near : F64 * F64 * F64 → list (Z * (F64 * F64)) := @nearest_neighbor_iter _ sample_geo sample_tree.
Definition sample_geo_index : GeoIndex :=
  mkGeoIndex {["_geo.lat" := 7; "_geo.lng" := 8]} ∅
    {[(7, 1) := ["2"]; (7, 2) := ["2"]; (7, 3) := ["9"]; (8, 1) := ["1"]; (8, 2) := ["1"]; (8, 3) := ["1"]]} (Some sample_tree).
Definition sample_geo_parameter : GeoParameter := mkGeoParameter (Strategy.Dynamic 2) 1000 (1, 1).

Lemma sample_docs_cases (P : Z → Prop) x : P 1 → P 2 → P 3 → x ∈ ({[1; 2; 3]} : bitmap) → P x.
Proof. intros H1 H2 H3 Hx. assert (x = 1 ∨ x = 2 ∨ x = 3) as [->|[->| ->]] by set_solver; done. Qed.

Lemma sample_geo_index_ok : geo_index_ok sample_geo_index {[1; 2; 3]} ((1, 1), (0, 1)).
Proof.
  constructor; intros _.
  - exists 7, 8. split_and!; [reflexivity|reflexivity|]. intros docid. by apply (sample_docs_cases (λ d, geo_value sample_geo_index d 7 8 = Ok (point_of sample_geo_index d))).
  - exists sample_tree. split; [done|]. assert (Hin : ∀ p x, x ∈ sample_near p ↔ x ∈ sample_tree).
    { intros p x. unfold sample_near. cbn [nearest_neighbor_iter sample_geo]. destruct (0 <? p.2.1); [done|apply elem_of_reverse]. }
    constructor.
    + intros p x Hx%Hin _. unfold sample_tree in Hx. rewrite !elem_of_cons, elem_of_nil in Hx. destruct Hx as [->|[->|[->|[]]]]; reflexivity.
    + intros p docid. apply (sample_docs_cases (λ d, d ∈ (sample_near p).*1)); apply list_elem_of_fmap;
        [exists (1, ((2, 1), (1, 1)))|exists (2, ((2, 1), (1, 1)))|exists (3, ((9, 1), (1, 1)))]; (split; [done|]); apply Hin; unfold sample_tree; set_solver.
    + cbn. repeat constructor; vm_compute; discriminate.
    + cbn. repeat constructor; vm_compute; discriminate.
Qed.

Lemma geo_sort_order_witness : geo_index_ok sample_geo_index {[1; 2; 3]} ((1, 1), (0, 1)) ∧
  let rule := geo_sort_new (Q:=unit) sample_geo_parameter {[1; 2; 3]} ((1, 1), (0, 1)) false in
  ∃ started b point0 s', geo_start_iteration sample_geo_index rule {[1; 2; 3; 4]} tt = Ok started ∧
    geo_next_bucket sample_geo_index started {[1; 2; 3; 4]} = Ok (Some (geo_output rule tt b (Some point0)), s') ∧
    geo_bucket sample_geo_index rule {[1; 2; 3]} b point0.
Proof.
  split; [exact sample_geo_index_ok|]. intros rule.
  destruct (geo_sort_order sample_geo_index sample_geo_parameter {[1; 2; 3]} ((1, 1), (0, 1)) false {[1; 2; 3; 4]} tt sample_geo_index_ok)
    as (started & Hstart & Hnext).
  destruct (Hnext started {[1; 2; 3; 4]} (after_none _ _)) as [[He _]|(_ & b & p & s' & Hn & Hb)].
  - exfalso. assert (Hin : 1 ∈ ({[1; 2; 3]} ∩ {[1; 2; 3; 4]} : bitmap)) by set_solver. rewrite He in Hin. set_solver.
  - exists started, b, p, s'. split; [exact Hstart|]. split; [exact Hn|].
    replace ({[1; 2; 3]} ∩ {[1; 2; 3; 4]} : bitmap) with ({[1; 2; 3]} : bitmap) in Hb by set_solver. exact Hb.
Defined.
