(* ===== verification/VectorStore.v ===== *)
(** * The vectors of an embedder

    [crates/milli-core/src/vector/mod.rs]: [ArroyWrapper], which spreads the vectors
    of the documents over the 256 databases of an embedder, one vector of a document
    in each, and [Embeddings], vectors in one flat list.  The first vectors of a document
    are in the first databases, which deleting one vector does not keep. *)

From stdpp Require Import functions.
From S2P Require Import Prelude.
Open Scope Z_scope.

(** The crate [arroy]: databases of vectors by index, read and written with or without
    quantization (the first boolean).  An item is the id of a document. *)
Class Arroy := {
  F32 : Type;
  f32_eq : F32 → F32 → bool;
  ArroyDb : Type;
  ArroyError : Type;
  writer_add_item : bool → ArroyDb → Z → Z → Z → list F32 → outcome ArroyError ArroyDb;
  writer_del_item : bool → ArroyDb → Z → Z → bool * ArroyDb;
  writer_item_vector : bool → ArroyDb → Z → Z → option (list F32);
  writer_contains_item : bool → ArroyDb → Z → Z → bool;
  writer_is_empty : bool → ArroyDb → Z → bool;
  writer_clear : bool → ArroyDb → Z → ArroyDb;
  reader_item_ids : bool → ArroyDb → Z → bitmap;
  reader_by_item : bool → ArroyDb → Z → Z → option bitmap → Z → option (list (Z * F32));
  reader_by_vector : bool → ArroyDb → Z → Z → option bitmap → list F32 → outcome ArroyError (list (Z * F32));
  sort_by_distance : list (Z * F32) → list (Z * F32);
}.

(** What the crate documents: a database is a map from items to vectors, as they
    are stored. *)
Class ArroyOk `{Arroy} := {
  stored : bool → list F32 → list F32;
  vectors : ArroyDb → Z → gmap Z (list F32);
  add_item_vectors q db index dimension item v db' j : writer_add_item q db index dimension item v = Ok db' →
    vectors db' j = if decide (j = index) then <[item := stored q v]> (vectors db j) else vectors db j;
  add_item_panic q db index dimension item v : writer_add_item q db index dimension item v ≠ Panic;
  del_item_vectors q db index item j : vectors (writer_del_item q db index item).2 j =
    if decide (j = index) then delete item (vectors db j) else vectors db j;
  del_item_found q db index item : (writer_del_item q db index item).1 = bool_decide (is_Some (vectors db index !! item));
  item_vector_spec q db index item : writer_item_vector q db index item = vectors db index !! item;
  contains_item_spec q db index item : writer_contains_item q db index item = bool_decide (is_Some (vectors db index !! item));
  is_empty_spec q db index : writer_is_empty q db index = bool_decide (vectors db index = ∅);
  clear_vectors q db index j : vectors (writer_clear q db index) j = if decide (j = index) then ∅ else vectors db j;
  item_ids_spec q db index : reader_item_ids q db index = dom (vectors db index);
  by_vector_spec q db index limit filter v : match reader_by_vector q db index limit (Some filter) v with
    | Ok l => ∀ x, x ∈ l → x.1 ∈ filter
    | Err _ => True
    | Panic => False
    end;
  sort_by_distance_perm l : sort_by_distance l ≡ₚ l;
}.

(** ** Embeddings *)

Section embeddings.
Context {F : Type}.

Record Embeddings := mkEmbeddings {
  em_data : list F;
  em_dimension : Z;
}.

Definition Embeddings_new (dimension : Z) : Embeddings := mkEmbeddings [] dimension.
Definition from_single_embedding (embedding : list F) : Embeddings := mkEmbeddings embedding (Z.of_nat (length embedding)).
(** [append]: the remainder by 0 panics. *)
Definition append_embeddings (e : Embeddings) (embeddings : list F) : outcome (list F) Embeddings :=
  if em_dimension e =? 0 then Panic
  else if negb (Z.of_nat (length embeddings) mod em_dimension e =? 0) then Err embeddings
  else Ok (mkEmbeddings (em_data e ++ embeddings) (em_dimension e)).
Definition push_embedding (e : Embeddings) (embedding : list F) : outcome (list F) Embeddings :=
  if negb (Z.of_nat (length embedding) =? em_dimension e) then Err embedding
  else Ok (mkEmbeddings (em_data e ++ embedding) (em_dimension e)).
Definition from_inner (data : list F) (dimension : Z) : outcome (list F) Embeddings :=
  append_embeddings (Embeddings_new dimension) data.
Definition embedding_count (e : Embeddings) : outcome unit Z :=
  if em_dimension e =? 0 then Panic else Ok (Z.of_nat (length (em_data e)) / em_dimension e).

(** [chunks_exact], which drops a shorter rest; the fuel is the length of the list. *)
Fixpoint chunks_exact (fuel : nat) (dimension : nat) (l : list F) : list (list F) :=
  match fuel with
  | O => []
  | S fuel => if (length l <? dimension)%nat then [] else take dimension l :: chunks_exact fuel dimension (drop dimension l)
  end.
(** [iter]; a chunk of no element panics. *)
Definition iter_embeddings {E} (e : Embeddings) : outcome E (list (list F)) :=
  if em_dimension e =? 0 then Panic else Ok (chunks_exact (length (em_data e)) (Z.to_nat (em_dimension e)) (em_data e)).
End embeddings.
Arguments Embeddings F : clear implicits.

(** ** The databases of an embedder *)

Definition arroy_db_range_for_embedder (embedder_id : Z) : list Z :=
  (λ k, Z.lor (Z.shiftl embedder_id 8) k) <$> seqZ 0 256.

Section wrapper.
Context `{Arroy}.
Notation M := (outcome ArroyError).

Record ArroyWrapper := mkArroyWrapper {
  aw_quantized : bool;
  aw_embedder_index : Z;
}.

Variable w : ArroyWrapper.
Notation q := (aw_quantized w).
Definition wrapper_range : list Z := arroy_db_range_for_embedder (aw_embedder_index w).

(** [readers]: the databases up to the first empty one. *)
Fixpoint readers_from (db : ArroyDb) (indexes : list Z) : list Z :=
  match indexes with
  | [] => []
  | index :: indexes => if writer_is_empty q db index then [] else index :: readers_from db indexes
  end.
Definition readers (db : ArroyDb) : list Z := readers_from db wrapper_range.

(** [add_items]: the embeddings in the first databases. *)
Definition add_items (db : ArroyDb) (item_id : Z) (embeddings : Embeddings F32) : M ArroyDb :=
  iter ← iter_embeddings embeddings;
  for_each (λ db '(index, v), writer_add_item q db index (em_dimension embeddings) item_id v) db (zip wrapper_range iter).

(** [_add_item]: in the first database that does not have the item. *)
Fixpoint add_item_from (db : ArroyDb) (item_id : Z) (v : list F32) (indexes : list Z) : M ArroyDb :=
  match indexes with
  | [] => Ok db
  | index :: indexes =>
      if negb (writer_contains_item q db index item_id) then writer_add_item q db index (Z.of_nat (length v)) item_id v
      else add_item_from db item_id v indexes
  end.
Definition add_item (db : ArroyDb) (item_id : Z) (v : list F32) : M ArroyDb := add_item_from db item_id v wrapper_range.

(** [del_items]: up to the first database that does not have the item. *)
Fixpoint del_items_from (db : ArroyDb) (item_id : Z) (indexes : list Z) : ArroyDb :=
  match indexes with
  | [] => db
  | index :: indexes =>
      let '(deleted, db) := writer_del_item q db index item_id in
      if deleted : bool then del_items_from db item_id indexes else db
  end.
Definition del_items (db : ArroyDb) (item_id : Z) : ArroyDb := del_items_from db item_id wrapper_range.

(** [_del_item]: the loop that deletes the vector, with the last index where it
    was, ... *)
Fixpoint vec_eq (v1 v2 : list F32) : bool :=
  match v1, v2 with
  | [], [] => true
  | x :: v1, y :: v2 => f32_eq x y && vec_eq v1 v2
  | _, _ => false
  end.
Fixpoint delete_vector (db : ArroyDb) (item_id : Z) (v : list F32) (indexes : list Z) (deleted_index : option Z) : ArroyDb * option Z :=
  match indexes with
  | [] => (db, deleted_index)
  | index :: indexes =>
      match writer_item_vector q db index item_id with
      | None => (db, deleted_index)
      | Some candidate =>
          if vec_eq candidate v then delete_vector (writer_del_item q db index item_id).2 item_id v indexes (Some index)
          else delete_vector db item_id v indexes deleted_index
      end
  end.
(** ... and the loop that looks for a vector to put in its place. *)
Fixpoint last_vector (db : ArroyDb) (item_id : Z) (indexes : list Z) (last : option (Z * list F32)) : option (Z * list F32) :=
  match indexes with
  | [] => last
  | index :: indexes =>
      match writer_item_vector q db index item_id with
      | None => last
      | Some candidate => last_vector db item_id indexes (Some (index, candidate))
      end
  end.
Definition del_item (db : ArroyDb) (item_id : Z) (v : list F32) : M (bool * ArroyDb) :=
  let dimension := Z.of_nat (length v) in
  let '(db, deleted_index) := delete_vector db item_id v wrapper_range None in
  db ← match deleted_index with
    | Some deleted_index =>
        match last_vector db item_id (drop (Z.to_nat deleted_index) wrapper_range) None with
        | Some (last_index, v) =>
            let db := (writer_del_item q db last_index item_id).2 in
            writer_add_item q db deleted_index dimension item_id v
        | None => Ok db
        end
    | None => Ok db
    end;
  Ok (bool_decide (is_Some deleted_index), db).

(** [clear]: up to the first empty database. *)
Fixpoint clear_from (db : ArroyDb) (indexes : list Z) : ArroyDb :=
  match indexes with
  | [] => db
  | index :: indexes => if writer_is_empty q db index then db else clear_from (writer_clear q db index) indexes
  end.
Definition clear_vectors_of (db : ArroyDb) : ArroyDb := clear_from db wrapper_range.

(** [contains_item]. *)
Fixpoint contains_item_from (db : ArroyDb) (item : Z) (indexes : list Z) : bool :=
  match indexes with
  | [] => false
  | index :: indexes =>
      if writer_is_empty q db index then false
      else if writer_contains_item q db index item then true
      else contains_item_from db item indexes
  end.
Definition contains_item (db : ArroyDb) (item : Z) : bool := contains_item_from db item wrapper_range.

(** [item_vectors]: the vectors up to the first database without one. *)
Fixpoint item_vectors_from (db : ArroyDb) (item_id : Z) (indexes : list Z) : list (list F32) :=
  match indexes with
  | [] => []
  | index :: indexes =>
      match writer_item_vector q db index item_id with Some v => v :: item_vectors_from db item_id indexes | None => [] end
  end.
Definition item_vectors (db : ArroyDb) (item_id : Z) : list (list F32) := item_vectors_from db item_id (readers db).

(** [_nns_by_item] and [_nns_by_vector]: the neighbours of every database, by
    distance. *)
Fixpoint by_item_from (db : ArroyDb) (item limit : Z) (filter : option bitmap) (indexes : list Z) (results : list (Z * F32)) : list (Z * F32) :=
  match indexes with
  | [] => results
  | index :: indexes =>
      match reader_by_item q db index limit filter item with
      | Some ret => by_item_from db item limit filter indexes (results ++ ret)
      | None => results
      end
  end.
Definition nns_by_item (db : ArroyDb) (item limit : Z) (filter : option bitmap) : list (Z * F32) :=
  sort_by_distance (by_item_from db item limit filter (readers db) []).
Definition nns_by_vector (db : ArroyDb) (v : list F32) (limit : Z) (filter : option bitmap) : M (list (Z * F32)) :=
  results ← collect (λ index, reader_by_vector q db index limit filter v) (readers db);
  Ok (sort_by_distance (concat results)).

(** [aggregate_stats]. *)
Record ArroyStats := mkArroyStats {
  number_of_embeddings : Z;
  stats_documents : bitmap;
}.
Fixpoint stats_from (db : ArroyDb) (stats : ArroyStats) (indexes : list Z) : ArroyStats :=
  match indexes with
  | [] => stats
  | index :: indexes =>
      let documents := reader_item_ids q db index in
      if bm_is_empty documents then stats
      else stats_from db (mkArroyStats (u64_wrap (number_of_embeddings stats + bm_len documents)) (stats_documents stats ∪ documents)) indexes
  end.
Definition aggregate_stats (db : ArroyDb) (stats : ArroyStats) : ArroyStats := stats_from db stats (readers db).
End wrapper.

(** ** The vectors of an item *)

Section spec.
Context `{ArroyOk}.
Variable w : ArroyWrapper.
Hypothesis Hindex : 0 ≤ aw_embedder_index w.
Notation q := (aw_quantized w).
Notation range := (wrapper_range w).

Lemma lor_shift e k : 0 ≤ k < 256 → Z.lor (Z.shiftl e 8) k = e * 256 + k.
Proof.
  intros Hk. rewrite <-Z.lxor_lor, <-Z.add_nocarry_lxor; [by rewrite Z.shiftl_mul_pow2 by lia|..];
    apply Z.bits_inj'; intros n Hn; rewrite Z.land_spec, Z.bits_0; destruct (decide (n < 8)) as [Hl|Hl];
    (rewrite Z.shiftl_spec_low by lia; done) || (rewrite (Z.bits_above_log2 k n); [apply andb_false_r|lia|]);
    (destruct (decide (k = 0)) as [->|]; [cbn; lia|]; apply Z.log2_lt_pow2; [lia|]; apply Z.lt_le_trans with (2 ^ 8); [lia|]; apply Z.pow_le_mono_r; lia).
Qed.

Lemma range_lookup k i : range !! k = Some i ↔ (k < 256)%nat ∧ i = aw_embedder_index w * 256 + Z.of_nat k.
Proof.
  unfold wrapper_range, arroy_db_range_for_embedder. rewrite list_lookup_fmap. destruct (decide (k < 256)%nat) as [Hk|Hk].
  - rewrite lookup_seqZ_lt by lia. cbn [fmap option_fmap option_map]. rewrite lor_shift by lia. split; [intros [= <-]; lia|intros [_ ->]; f_equal; lia].
  - rewrite lookup_seqZ_ge by lia. split; [done|lia].
Qed.
Lemma arroy_range_length : length range = 256%nat.
Proof. done. Qed.
Lemma range_nodup : NoDup range.
Proof. apply NoDup_alt. intros i j x [_ Hi]%range_lookup [_ Hj]%range_lookup. lia. Qed.

(** The vectors of an item in the databases [idxs] are [l]: one in each of the first
    ones. *)
Definition holds_in (db : ArroyDb) (item : Z) (idxs : list Z) (l : list (list F32)) : Prop :=
  (length l ≤ length idxs)%nat ∧ ∀ k i, idxs !! k = Some i → vectors db i !! item = l !! k.
Definition holds (db : ArroyDb) (item : Z) (l : list (list F32)) : Prop := holds_in db item range l.
(** Nothing else changes. *)
Definition same_but (item : Z) (idxs : list Z) (db db' : ArroyDb) : Prop :=
  ∀ j item', item' ≠ item ∨ j ∉ idxs → vectors db' j !! item' = vectors db j !! item'.

Lemma holds_nil db item : holds_in db item [] [].
Proof. split; [done|]. intros k i. by rewrite lookup_nil. Qed.
Lemma holds_head db item i idxs l : holds_in db item (i :: idxs) l → vectors db i !! item = head l ∧ holds_in db item idxs (tail l).
Proof.
  intros [Hl Hk]. split; [rewrite (Hk 0%nat i eq_refl); by destruct l|]. split; [destruct l; cbn in *; lia|].
  intros k j Hj. rewrite (Hk (S k) j Hj). by destruct l.
Qed.
Lemma holds_cons db item i idxs v l : vectors db i !! item = Some v → holds_in db item idxs l → holds_in db item (i :: idxs) (v :: l).
Proof. intros Hv [Hl Hk]. split; [cbn; lia|]. intros [|k] j; cbn; [by intros [= <-]|apply Hk]. Qed.
Lemma holds_none db item i idxs : vectors db i !! item = None → holds_in db item idxs [] → holds_in db item (i :: idxs) [].
Proof. intros Hv [Hl Hk]. split; [cbn; lia|]. intros [|k] j; cbn; [by intros [= <-]|apply Hk]. Qed.
Lemma holds_same db db' item idxs l : (∀ i, i ∈ idxs → vectors db' i !! item = vectors db i !! item) → holds_in db item idxs l → holds_in db' item idxs l.
Proof. intros Hs [Hl Hk]. split; [done|]. intros k i Hi. rewrite Hs by (by eapply list_elem_of_lookup_2). by apply Hk. Qed.
Lemma same_but_refl item idxs db : same_but item idxs db db.
Proof. done. Qed.
Lemma same_but_trans item idxs db1 db2 db3 : same_but item idxs db1 db2 → same_but item idxs db2 db3 → same_but item idxs db1 db3.
Proof. intros H1 H2 j item' Hj. by rewrite H2, H1. Qed.
Lemma same_but_cons item i idxs db db' : same_but item idxs db db' → same_but item (i :: idxs) db db'.
Proof. intros Hs j item' Hj. apply Hs. rewrite elem_of_cons in Hj. tauto. Qed.
Lemma same_but_head item i idxs db db' : same_but item [i] db db' → same_but item (i :: idxs) db db'.
Proof. intros Hs j item' Hj. apply Hs. rewrite elem_of_cons in Hj. rewrite list_elem_of_singleton. tauto. Qed.

Lemma add_same db index dimension item v db' : writer_add_item q db index dimension item v = Ok db' →
  vectors db' index !! item = Some (stored q v) ∧ same_but item [index] db db'.
Proof.
  intros Ha. split; [by rewrite (add_item_vectors _ _ _ _ _ _ _ _ Ha), decide_True, lookup_insert_eq by done|].
  intros j item' Hj. rewrite (add_item_vectors _ _ _ _ _ _ _ _ Ha). case_decide as Hd; [|done]. subst.
  rewrite list_elem_of_singleton in Hj. rewrite lookup_insert_ne; [done|]. intros ->. naive_solver.
Qed.
Lemma del_same db index item : vectors (writer_del_item q db index item).2 index !! item = None ∧
  same_but item [index] db (writer_del_item q db index item).2.
Proof.
  split; [by rewrite del_item_vectors, decide_True, lookup_delete_eq by done|].
  intros j item' Hj. rewrite del_item_vectors. case_decide as Hd; [|done]. subst.
  rewrite list_elem_of_singleton in Hj. rewrite lookup_delete_ne; [done|]. intros ->. naive_solver.
Qed.

(** ** The operations *)

(** [add_items] puts the embeddings in the first databases and leaves what the others
    have. *)
Lemma add_items_in dimension item vs : ∀ idxs db l, NoDup idxs → holds_in db item idxs l →
  match for_each (λ db '(index, v), writer_add_item q db index dimension item v) db (zip idxs vs) with
  | Ok db' => holds_in db' item idxs ((stored q <$> take (length idxs) vs) ++ drop (length vs) l) ∧ same_but item idxs db db'
  | Err _ => True
  | Panic => False
  end.
Proof.
  induction vs as [|v vs IH]; intros idxs db l Hnd Hl.
  { rewrite zip_with_nil_r. cbn. by rewrite take_nil, drop_0. }
  destruct idxs as [|i idxs]; [cbn; destruct Hl as [Hl _]; destruct l; [|cbn in Hl; lia]; by split; [apply holds_nil|]|].
  cbn [zip_with for_each]. apply NoDup_cons in Hnd as [Hi Hnd]. destruct (holds_head _ _ _ _ _ Hl) as [_ Ht].
  destruct (writer_add_item q db i dimension item v) as [db1|e|] eqn:Ha; cbn [mbind outcome_bind]; [|done|by apply add_item_panic in Ha].
  destruct (add_same _ _ _ _ _ _ Ha) as [Hv Hs]. assert (Ht1 : holds_in db1 item idxs (tail l)).
  { eapply holds_same; [|exact Ht]. intros j Hj. apply Hs. right. rewrite list_elem_of_singleton. by intros ->. }
  pose proof (IH idxs db1 (tail l) Hnd Ht1) as Hr. destruct (for_each _ db1 _) as [db2|e|]; [|done|done]. destruct Hr as [Hh Hs2]. split.
  - assert (drop (length (v :: vs)) l = drop (length vs) (tail l)) as -> by (destruct l; cbn; [by rewrite drop_nil|done]).
    cbn. apply holds_cons; [|exact Hh]. rewrite (Hs2 i item); [done|by right].
  - eapply same_but_trans; [by apply same_but_head|by apply same_but_cons].
Qed.

Lemma add_item_in item v : ∀ idxs db l, NoDup idxs → holds_in db item idxs l →
  match add_item_from w db item v idxs with
  | Ok db' => holds_in db' item idxs (take (length idxs) (l ++ [stored q v])) ∧ same_but item idxs db db'
  | Err _ => True
  | Panic => False
  end.
Proof.
  induction idxs as [|i idxs IH]; intros db l Hnd Hl; cbn [add_item_from].
  { destruct Hl as [Hl _]. destruct l; [|cbn in Hl; lia]. split; [apply holds_nil|done]. }
  apply NoDup_cons in Hnd as [Hi Hnd]. destruct (holds_head _ _ _ _ _ Hl) as [Hh Ht]. rewrite contains_item_spec, Hh. destruct l as [|v0 l]; cbn [head tail] in *.
  - rewrite bool_decide_eq_false_2 by (by intros [? ?]). cbn [negb]. destruct (writer_add_item _ _ _ _ _ _) as [db1|e|] eqn:Ha; [|done|by apply add_item_panic in Ha].
    destruct (add_same _ _ _ _ _ _ Ha) as [Hv Hs]. split; [|by apply same_but_head]. cbn [app length take]. rewrite take_nil. apply holds_cons; [done|].
    eapply holds_same; [|exact Ht]. intros j Hj. apply Hs. right. rewrite list_elem_of_singleton. by intros ->.
  - rewrite bool_decide_eq_true_2 by done. cbn [negb]. pose proof (IH db l Hnd Ht) as Hr. destruct (add_item_from w db item v idxs) as [db'|e|]; [|done|done].
    destruct Hr as [Hr Hs]. split; [|by apply same_but_cons]. cbn. apply holds_cons; [|done]. rewrite (Hs i item); [done|by right].
Qed.

Lemma del_items_in item : ∀ idxs db l, NoDup idxs → holds_in db item idxs l →
  holds_in (del_items_from w db item idxs) item idxs [] ∧ same_but item idxs db (del_items_from w db item idxs).
Proof.
  induction idxs as [|i idxs IH]; intros db l Hnd Hl; cbn [del_items_from]; [split; [apply holds_nil|done]|].
  apply NoDup_cons in Hnd as [Hi Hnd]. destruct (holds_head _ _ _ _ _ Hl) as [Hh Ht]. pose proof (del_item_found q db i item) as Hf. pose proof (del_same db i item) as [Hn Hs].
  destruct (writer_del_item q db i item) as [b db1]. cbn [fst snd] in *. subst b. rewrite Hh.
  assert (Ht1 : holds_in db1 item idxs (tail l)).
  { eapply holds_same; [|exact Ht]. intros j Hj. apply Hs. right. rewrite list_elem_of_singleton. by intros ->. }
  destruct l as [|v l]; cbn [head tail] in *.
  - rewrite bool_decide_eq_false_2 by (by intros [? ?]). split; [by apply holds_none|by apply same_but_head].
  - rewrite bool_decide_eq_true_2 by done. destruct (IH db1 l Hnd Ht1) as [Hr Hs2]. split.
    + apply holds_none; [|done]. rewrite (Hs2 i item); [done|by right].
    + eapply same_but_trans; [by apply same_but_head|by apply same_but_cons].
Qed.

(** Deleting the vectors equal to one, without the loop that follows. *)
Lemma delete_vector_in item v : ∀ idxs db l deleted, NoDup idxs → holds_in db item idxs l →
  let matching x := vec_eq x v in
  let '(db', deleted') := delete_vector w db item v idxs deleted in
  (∀ k i, idxs !! k = Some i → vectors db' i !! item = (x ← l !! k; if matching x then None else Some x)) ∧ same_but item idxs db db' ∧
  if existsb matching l then ∃ i, deleted' = Some i ∧ i ∈ idxs ∧ vectors db' i !! item = None else deleted' = deleted.
Proof.
  intros idxs db l deleted Hnd Hl matching. revert db l deleted Hnd Hl. induction idxs as [|i idxs IH]; intros db l deleted Hnd Hl; cbn [delete_vector].
  { destruct Hl as [Hl _]. destruct l; [|cbn in Hl; lia]. by split_and!; [intros k i; rewrite lookup_nil|..]. }
  apply NoDup_cons in Hnd as [Hi Hnd]. destruct (holds_head _ _ _ _ _ Hl) as [Hh Ht]. rewrite item_vector_spec, Hh. destruct l as [|x l]; cbn [head tail] in *.
  { split_and!; [|done|done]. intros [|k] j Hj; [cbn in Hj; by injection Hj as <-|]. rewrite lookup_nil. rewrite (proj2 Ht k j Hj). done. }
  fold (matching x). destruct (matching x) eqn:Hx.
  - destruct (del_same db i item) as [Hn Hs]. set (db1 := (writer_del_item q db i item).2) in *.
    assert (Ht1 : holds_in db1 item idxs l).
    { eapply holds_same; [|exact Ht]. intros j Hj. apply Hs. right. rewrite list_elem_of_singleton. by intros ->. }
    pose proof (IH db1 l (Some i) Hnd Ht1) as Hr. destruct (delete_vector w db1 item v idxs (Some i)) as [db' deleted']. destruct Hr as (Hv & Hs2 & Hd).
    assert (Hni : vectors db' i !! item = None) by (rewrite (Hs2 i item); [done|by right]). split_and!.
    + intros [|k] j; cbn; [intros [= <-]; by rewrite Hx, Hni|apply Hv].
    + eapply same_but_trans; [by apply same_but_head|by apply same_but_cons].
    + cbn [existsb]. rewrite Hx. cbn [orb]. destruct (existsb matching l); [|exists i; split_and!; [done|by left|done]].
      destruct Hd as (j & -> & Hj & ?). exists j. split_and!; [done|by right|done].
  - pose proof (IH db l deleted Hnd Ht) as Hr. destruct (delete_vector w db item v idxs deleted) as [db' deleted']. destruct Hr as (Hv & Hs2 & Hd). split_and!.
    + intros [|k] j; cbn; [intros [= <-]; rewrite Hx, (Hs2 i item); [done|by right]|apply Hv].
    + by apply same_but_cons.
    + cbn [existsb]. rewrite Hx. cbn [orb]. destruct (existsb matching l); [|done]. destruct Hd as (j & -> & Hj & ?). exists j. split_and!; [done|by right|done].
Qed.

(** Nothing is found to put in the place of a vector that was deleted: the loop
    starts at the database where it was, or after all the databases. *)
Lemma last_vector_none db item i : i ∈ range → vectors db i !! item = None → last_vector w db item (drop (Z.to_nat i) range) None = None.
Proof.
  intros [k [Hk Hi]%range_lookup]%list_elem_of_lookup_1 Hn. destruct (drop (Z.to_nat i) range) as [|j l] eqn:Hd; [done|].
  assert (Hj : range !! (Z.to_nat i + 0)%nat = Some j) by (by rewrite <-lookup_drop, Hd). apply range_lookup in Hj as [Hlt Hj].
  cbn [last_vector]. rewrite item_vector_spec. assert (j = i) as -> by lia. by rewrite Hn.
Qed.

Lemma item_vectors_in db item : ∀ idxs l, holds_in db item idxs l → item_vectors_from w db item (readers_from w db idxs) = l.
Proof.
  induction idxs as [|i idxs IH]; intros l Hl; cbn [readers_from item_vectors_from]; [destruct Hl as [Hl _]; destruct l; [done|cbn in Hl; lia]|].
  destruct (holds_head _ _ _ _ _ Hl) as [Hh Ht]. rewrite is_empty_spec. case_bool_decide as He.
  - rewrite He, lookup_empty in Hh. by destruct l.
  - cbn [item_vectors_from]. rewrite item_vector_spec, Hh. destruct l as [|v l]; [done|]. cbn. f_equal. by apply IH.
Qed.
Lemma contains_item_in db item : ∀ idxs l, holds_in db item idxs l → contains_item_from w db item idxs = bool_decide (l ≠ []).
Proof.
  induction idxs as [|i idxs IH]; intros l Hl; cbn [contains_item_from]; [destruct Hl as [Hl _]; destruct l; [done|cbn in Hl; lia]|].
  destruct (holds_head _ _ _ _ _ Hl) as [Hh Ht]. rewrite is_empty_spec, contains_item_spec, Hh. case_bool_decide as He.
  - rewrite He, lookup_empty in Hh. by destruct l.
  - destruct l as [|v l]; cbn [head]; [|by rewrite bool_decide_eq_true_2 by done]. rewrite bool_decide_eq_false_2 by (by intros [? ?]). by apply IH.
Qed.

(** ** All the items *)

(** The databases hold the vectors [m] of the items, which are thus in the first
    ones. *)
Definition represents (db : ArroyDb) (m : Z → list (list F32)) : Prop := ∀ item, holds db item (m item).
(** The other embedders keep their vectors. *)
Definition others_kept (db db' : ArroyDb) : Prop := ∀ j, j ∉ range → vectors db' j = vectors db j.

Lemma same_but_represents db db' m item l : represents db m → same_but item range db db' → holds db' item l →
  represents db' (<[item := l]> m) ∧ others_kept db db'.
Proof.
  intros Hm Hs Hl. split.
  - intros item'. destruct (decide (item' = item)) as [->|Hne]; [by rewrite fn_lookup_insert|]. rewrite fn_lookup_insert_ne by done.
    eapply holds_same; [|apply Hm]. intros i _. apply Hs. by left.
  - intros j Hj. apply map_eq. intros item'. apply Hs. by right.
Qed.

Lemma clear_in : ∀ idxs db, NoDup idxs → (∀ item, ∃ l, holds_in db item idxs l) →
  (∀ i, i ∈ idxs → vectors (clear_from w db idxs) i = ∅) ∧ ∀ j, j ∉ idxs → vectors (clear_from w db idxs) j = vectors db j.
Proof.
  induction idxs as [|i idxs IH]; intros db Hnd Hp; cbn [clear_from]; [split; [by intros i ?%elem_of_nil|done]|].
  apply NoDup_cons in Hnd as [Hi Hnd]. rewrite is_empty_spec. case_bool_decide as He.
  - split; [|done]. intros j [->|Hj]%elem_of_cons; [done|]. apply map_eq. intros item. rewrite lookup_empty.
    destruct (Hp item) as [l Hl]. destruct (holds_head _ _ _ _ _ Hl) as [Hh Ht]. rewrite He, lookup_empty in Hh. destruct l; [|done].
    apply list_elem_of_lookup_1 in Hj as [k Hk]. by rewrite (proj2 Ht k j Hk).
  - destruct (IH (writer_clear q db i) Hnd) as [H1 H2].
    { intros item. destruct (Hp item) as [l Hl]. exists (tail l). eapply holds_same; [|by eapply holds_head]. intros j Hj.
      rewrite clear_vectors, decide_False; [done|]. by intros ->. }
    split.
    + intros j [->|Hj]%elem_of_cons; [|by apply H1]. rewrite H2 by done. by rewrite clear_vectors, decide_True.
    + intros j Hj. rewrite H2, clear_vectors, decide_False; [done|..]; intros Hin; apply Hj; [subst; by left|by right].
Qed.

Lemma stats_in db : ∀ idxs stats, (∀ item, ∃ l, holds_in db item idxs l) →
  stats_documents (stats_from w db stats (readers_from w db idxs)) = stats_documents stats ∪ default ∅ (dom <$> (vectors db <$> head idxs)).
Proof.
  induction idxs as [|i idxs IH]; intros stats Hp; cbn [readers_from stats_from]; [cbn; set_solver|]. rewrite is_empty_spec. cbn [head fmap option_fmap option_map default from_option].
  assert (Hp' : ∀ item, ∃ l, holds_in db item idxs l) by (intros item; destruct (Hp item) as [l Hl]; exists (tail l); by eapply holds_head).
  case_bool_decide as He; cbn [stats_from]; [rewrite He, dom_empty_L; cbn; set_solver|].
  rewrite item_ids_spec. unfold bm_is_empty. rewrite bool_decide_eq_false_2 by (by rewrite dom_empty_iff_L).
  rewrite IH by done. cbn [stats_documents]. unfold id. destruct idxs as [|i' idxs]; cbn; [set_solver|]. unfold id.
  assert (dom (vectors db i') ⊆ dom (vectors db i)); [|set_solver]. intros item Hd. apply elem_of_dom in Hd as [x Hx].
  destruct (Hp item) as [l Hl]. pose proof (proj2 Hl 1%nat i' eq_refl) as H1. pose proof (proj2 Hl 0%nat i eq_refl) as H2. rewrite Hx in H1.
  apply elem_of_dom. rewrite H2. destruct l; [done|by eexists].
Qed.
End spec.

(** The embeddings of a flat list. *)
Lemma chunks_exact_spec {F} (d : nat) (l : list F) : (0 < d)%nat → ∀ fuel, (length l ≤ fuel)%nat →
  Forall (λ c, length c = d) (chunks_exact fuel d l) ∧ length (chunks_exact fuel d l) = (length l / d)%nat ∧
  concat (chunks_exact fuel d l) = take (length l / d * d) l.
Proof.
  intros Hd fuel. revert l. induction fuel as [|fuel IH]; intros l Hl; cbn [chunks_exact].
  { destruct l; [|cbn in Hl; lia]. rewrite Nat.div_0_l by lia. by split_and!. }
  destruct (Nat.ltb_spec (length l) d) as [Hlt|Hge]; [rewrite Nat.div_small by done; by split_and!|].
  destruct (IH (drop d l)) as (H1 & H2 & H3); [rewrite length_drop; lia|]. rewrite length_drop in *.
  assert (Hdiv : (length l / d = S ((length l - d) / d))%nat).
  { replace (length l) with ((length l - d) + 1 * d)%nat at 1 by lia. rewrite Nat.div_add by lia. lia. }
  split_and!; [constructor; [rewrite length_take; lia|done]|cbn; by rewrite H2, Hdiv|].
  cbn [concat]. rewrite H3, Hdiv. replace (S ((length l - d) / d) * d)%nat with (d + (length l - d) / d * d)%nat by lia.
  by rewrite <-take_take_drop.
Qed.

(** The vectors of an embedder, spread over 256 databases, behave as a
    list of vectors for each document: adding the embeddings of a document replaces
    its first ones and keeps the others, adding a vector puts it at the end and does nothing when
    there are 256 of them, deleting a document or clearing the embedder leaves nothing,
    reading gives the list back, and the statistics tell the documents that have a
    vector; the other embedders are left as they are.  The only failures are those of
    the vector library, and a panic on embeddings of dimension 0. *)
Theorem vector_store_refines `{ArroyOk} w db m : 0 ≤ aw_embedder_index w → represents w db m →
  (∀ item, item_vectors w db item = m item ∧ contains_item w db item = bool_decide (m item ≠ [])) ∧
  (∀ item embeddings, match add_items w db item embeddings with
    | Ok db' => ∃ vs, iter_embeddings embeddings = Ok (E:=ArroyError) vs ∧ others_kept w db db' ∧
        represents w db' (<[item := (stored (aw_quantized w) <$> take 256 vs) ++ drop (length vs) (m item)]> m)
    | Err _ => True
    | Panic => em_dimension embeddings = 0
    end) ∧
  (∀ item v, match add_item w db item v with
    | Ok db' => represents w db' (<[item := take 256 (m item ++ [stored (aw_quantized w) v])]> m) ∧ others_kept w db db'
    | Err _ => True
    | Panic => False
    end) ∧
  (∀ item, represents w (del_items w db item) (<[item := []]> m) ∧ others_kept w db (del_items w db item)) ∧
  (represents w (clear_vectors_of w db) (λ _, []) ∧ others_kept w db (clear_vectors_of w db)) ∧
  ∀ stats item, item ∈ stats_documents (aggregate_stats w db stats) ↔ item ∈ stats_documents stats ∨ m item ≠ [].
Proof.
  intros He Hm. pose proof (range_nodup w) as Hnd. split_and!.
  - intros item. split; [apply (item_vectors_in w db item _ _ (Hm item))|apply (contains_item_in w db item _ _ (Hm item))].
  - intros item embeddings. unfold add_items. destruct (iter_embeddings embeddings) as [vs|e|] eqn:Hvs; cbn [mbind outcome_bind]; [|done|].
    + pose proof (add_items_in w (em_dimension embeddings) item vs _ db _ Hnd (Hm item)) as Hr. destruct (for_each _ db _) as [db'|e|]; [|done|done].
      destruct Hr as [Hr Hs]. rewrite arroy_range_length in Hr. destruct (same_but_represents w _ _ _ _ _ Hm Hs Hr). by exists vs.
    + unfold iter_embeddings in Hvs. by destruct (Z.eqb_spec (em_dimension embeddings) 0).
  - intros item v. pose proof (add_item_in w item v _ db _ Hnd (Hm item)) as Hr. unfold add_item. destruct (add_item_from w db item v _) as [db'|e|]; [|done|done].
    destruct Hr as [Hr Hs]. rewrite arroy_range_length in Hr. by apply same_but_represents.
  - intros item. destruct (del_items_in w item _ db _ Hnd (Hm item)) as [Hr Hs]. by apply same_but_represents.
  - destruct (clear_in w _ db Hnd (λ item, ex_intro _ _ (Hm item))) as [H1 _].
    intros item. split; [cbn; lia|]. intros k i Hi. unfold clear_vectors_of. rewrite (H1 i), lookup_empty; [by rewrite lookup_nil|by eapply list_elem_of_lookup_2].
  - exact (proj2 (clear_in w _ db Hnd (λ item, ex_intro _ _ (Hm item)))).
  - intros stats item. unfold aggregate_stats, readers. rewrite (stats_in w He db _ stats (λ item, ex_intro _ _ (Hm item))), elem_of_union.
    destruct (wrapper_range w !! 0%nat) as [i|] eqn:Hi; [|apply lookup_ge_None in Hi; rewrite arroy_range_length in Hi; lia].
    pose proof (proj2 (Hm item) 0%nat i Hi) as Hv. rewrite head_lookup, Hi. cbn [fmap option_fmap option_map default from_option]. unfold id. rewrite elem_of_dom, Hv.
    destruct (m item); cbn; [|naive_solver]. split; [intros [?|[? ?]]; naive_solver|naive_solver].
Qed.

(** [del_item] does not keep the vectors of a document in the first databases,
    as it means to ("enforce invariant"): the vectors equal to the one given are deleted where
    they are, and no other vector is ever moved, since the loop that should find the last
    one starts at the database that was just emptied, or after the last one. *)
Theorem del_item_leaves_holes `{ArroyOk} w db m item v : 0 ≤ aw_embedder_index w → represents w db m →
  let matching x := vec_eq x v in
  ∃ db', del_item w db item v = Ok (existsb matching (m item), db') ∧
    ∀ k i, wrapper_range w !! k = Some i → vectors db' i !! item = (x ← m item !! k; if matching x then None else Some x).
Proof.
  intros He Hm matching. pose proof (delete_vector_in w item v _ db _ None (range_nodup w) (Hm item)) as Hr. unfold del_item.
  destruct (delete_vector w db item v (wrapper_range w) None) as [db' deleted]. destruct Hr as (Hv & _ & Hd). exists db'. split; [|exact Hv]. fold matching in Hd.
  destruct (existsb matching (m item)).
  - destruct Hd as (i & -> & Hi & Hn). rewrite (last_vector_none w He db' item i Hi Hn). done.
  - subst. done.
Qed.

(** ** A sample *)

(** The neighbours are the items of the filter by the difference of their first
    coordinate. *)
Definition sample_distance (v x : list Z) : Z := Z.abs (default 0 (head v) - default 0 (head x)).
Definition sample_closer (x y : Z * Z) : Prop := x.2 < y.2 ∨ (x.2 = y.2 ∧ x.1 ≤ y.1).
#[local] Instance sample_closer_dec : RelDecision sample_closer.
Proof. intros x y. unfold sample_closer. apply _. Defined.
#[local] Instance sample_arroy : Arroy := {|
  F32 := Z;
  f32_eq := Z.eqb;
  ArroyDb := gmap Z (gmap Z (list Z));
  ArroyError := unit;
  writer_add_item _ db index dimension item v :=
    if Z.of_nat (length v) =? dimension then Ok (<[index := <[item := v]> (default ∅ (db !! index))]> db) else Err tt;
  writer_del_item _ db index item :=
    (bool_decide (is_Some (default ∅ (db !! index) !! item)), <[index := delete item (default ∅ (db !! index))]> db);
  writer_item_vector _ db index item := default ∅ (db !! index) !! item;
  writer_contains_item _ db index item := bool_decide (is_Some (default ∅ (db !! index) !! item));
  writer_is_empty _ db index := bool_decide (default ∅ (db !! index) = ∅);
  writer_clear _ db index := <[index := ∅]> db;
  reader_item_ids _ db index := dom (default ∅ (db !! index));
  reader_by_item _ db index limit f item := None;
  reader_by_vector _ db index limit f v :=
    Ok (take (Z.to_nat limit) (merge_sort sample_closer (filter (λ x, match f with Some f => bm_contains f x.1 | None => true end = true)
      (prod_map id (sample_distance v) <$> map_to_list (default ∅ (db !! index))))));
  sort_by_distance := merge_sort sample_closer;
|}.
#[local] Instance sample_arroy_ok : ArroyOk.
Proof.
  refine {| stored := λ _ v, v; vectors := λ (db : ArroyDb), λ index, default ∅ ((db : gmap Z (gmap Z (list Z))) !! index) |}; cbn; try done.
  - intros q db index dimension item v db' j. destruct (_ =? _); [|done]. intros [= <-]. case_decide; [subst; by rewrite lookup_insert_eq|by rewrite lookup_insert_ne].
  - intros q db index dimension item v. by destruct (_ =? _).
  - intros q db index item j. case_decide; [subst; by rewrite lookup_insert_eq|by rewrite lookup_insert_ne].
  - intros q db index. by apply bool_decide_ext.
  - intros q db index j. case_decide; [subst; by rewrite lookup_insert_eq|by rewrite lookup_insert_ne].
  - intros q db index limit f v x Hx. apply elem_of_take in Hx as (i & Hi & _). apply list_elem_of_lookup_2 in Hi.
    rewrite merge_sort_Permutation in Hi. apply list_elem_of_filter in Hi as [Hi _]. by apply bool_decide_eq_true in Hi.
  - intros l. apply merge_sort_Permutation.
Defined.

(** Document 4 has two vectors, in the databases of the embedder 1. *)
Definition sample_wrapper : ArroyWrapper := mkArroyWrapper false 1.
Definition sample_vectors (item : Z) : list (list Z) := if item =? 4 then [[10]; [20]] else [].
Definition sample_db : ArroyDb := {[256 := {[4 := [10]]}; 257 := {[4 := [20]]}]}.

Lemma sample_vectors_at i : vectors sample_db i =
  default ∅ (({[256 := {[4 := [10]]}; 257 := {[4 := [20]]}]} : gmap Z (gmap Z (list Z))) !! i).
Proof. reflexivity. Qed.

Lemma sample_represents : represents sample_wrapper sample_db sample_vectors.
Proof.
  intros item. unfold sample_vectors. destruct (Z.eqb_spec item 4) as [->|Hne];
    (split; [unfold wrapper_range, arroy_db_range_for_embedder; rewrite length_fmap, length_seqZ; cbn; lia|]);
    intros k i [Hk ->]%range_lookup; try done; rewrite sample_vectors_at; change (aw_embedder_index sample_wrapper) with 1.
  - destruct k as [|[|k]]; [done|done|]. by rewrite lookup_insert_ne, lookup_singleton_ne by lia.
  - rewrite lookup_nil. destruct (decide (k = 0%nat)) as [->|H0]; [|destruct (decide (k = 1%nat)) as [->|H1]].
    + rewrite lookup_insert_eq by done. by apply lookup_singleton_ne.
    + rewrite lookup_insert_ne, lookup_singleton_eq by lia. by apply lookup_singleton_ne.
    + by rewrite lookup_insert_ne, lookup_singleton_ne by lia.
Qed.

Lemma vector_store_refines_witness : represents sample_wrapper sample_db sample_vectors ∧
  item_vectors sample_wrapper sample_db 4 = [[10]; [20]] ∧
  represents sample_wrapper (del_items sample_wrapper sample_db 4) (<[4 := []]> sample_vectors).
Proof.
  split; [exact sample_represents|].
  destruct (vector_store_refines sample_wrapper sample_db sample_vectors ltac:(done) sample_represents) as (Hread & _ & _ & Hdel & _).
  split; [exact (proj1 (Hread 4))|exact (proj1 (Hdel 4))].
Defined.

(** Once its first vector is deleted, the document has no vector to read. *)
Lemma del_item_leaves_holes_witness : represents sample_wrapper sample_db sample_vectors ∧
  ∃ db', del_item sample_wrapper sample_db 4 [10] = Ok (true, db') ∧ vectors db' 256 !! 4 = None ∧ vectors db' 257 !! 4 = Some [20].
Proof.
  split; [exact sample_represents|].
  destruct (del_item_leaves_holes sample_wrapper sample_db sample_vectors 4 [10] ltac:(done) sample_represents) as (db' & Hr & Hv).
  exists db'. split; [exact Hr|]. split; [exact (Hv 0%nat 256 eq_refl)|exact (Hv 1%nat 257 eq_refl)].
Defined.

(** The second vector cannot be read any more. *)
Example vectors_lost : match del_item sample_wrapper sample_db 4 [10] with
  | Ok (_, db) => item_vectors sample_wrapper db 4 = [] ∧ contains_item sample_wrapper db 4 = false
  | _ => False
  end.
Proof. vm_compute. done. Qed.
