(* ===== verification/SmallBitmap.v ===== *)
(** * Small bitmaps

    [crates/milli-core/src/search/new/small_bitmap.rs]: the sets of nodes, edges and
    conditions of a search, as one word of 64 bits or an array of them.  In its
    universe a small bitmap is the set of its bits ([bits]); outside of it, or with
    a bitmap of another size, the operations panic. *)

From S2P Require Import Prelude.
Open Scope Z_scope.

(** ** The code *)

Inductive SmallBitmap := Tiny (set : Z) | Small (sets : list Z).

(** [SmallBitmap::new], and [SmallBitmapInternal::new], used by [from_iter]. *)
Definition SmallBitmap_new (universe_length : Z) : SmallBitmap :=
  if universe_length <=? 64 then Tiny 0 else Small (replicate (Z.to_nat (1 + (universe_length - 1) / 64)) 0).
Definition SmallBitmapInternal_new (universe_length : Z) : SmallBitmap :=
  if universe_length <=? 64 then Tiny 0 else Small (replicate (Z.to_nat (1 + universe_length / 64)) 0).

Definition sb_is_empty (s : SmallBitmap) : bool :=
  match s with Tiny set => set =? 0 | Small sets => forallb (λ set, set =? 0) sets end.
Definition sb_clear (s : SmallBitmap) : SmallBitmap :=
  match s with Tiny _ => Tiny 0 | Small sets => Small ((λ _, 0) <$> sets) end.

(** [64 * xs.len() as u16]. *)
Definition universe_length (s : SmallBitmap) : Z :=
  match s with Tiny _ => 64 | Small xs => (64 * (Z.of_nat (length xs) mod 2 ^ 16)) mod 2 ^ 16 end.

(** [get_set_index]: the word of an index and the bit in it. *)
Definition get_set_index {E} (s : SmallBitmap) (x : Z) : outcome E (Z * Z) :=
  match s with
  | Tiny set => if x <? 64 then Ok (set, x) else Panic
  | Small sets => match sets !! Z.to_nat (x / 64) with Some set => Ok (set, x mod 64) | None => Panic end
  end.
(** [get_set_index_mut], with what is then done of the word. *)
Definition set_word (s : SmallBitmap) (x : Z) (set : Z) : SmallBitmap :=
  match s with Tiny _ => Tiny set | Small sets => Small (<[Z.to_nat (x / 64) := set]> sets) end.

(** [!x] on 64 bits. *)
Definition u64_not (x : Z) : Z := Z.lxor x (Z.ones 64).

Definition sb_contains {E} (s : SmallBitmap) (x : Z) : outcome E bool :=
  '(set, i) ← get_set_index s x; Ok (negb (Z.land set (Z.shiftl 1 i) =? 0)).
Definition sb_insert {E} (s : SmallBitmap) (x : Z) : outcome E SmallBitmap :=
  '(set, i) ← get_set_index s x; Ok (set_word s x (Z.lor set (Z.shiftl 1 i))).
Definition sb_remove {E} (s : SmallBitmap) (x : Z) : outcome E SmallBitmap :=
  '(set, i) ← get_set_index s x; Ok (set_word s x (Z.land set (u64_not (Z.shiftl 1 i)))).

(** [from_iter]. *)
Definition sb_from_iter {E} (xs : list Z) (universe_length : Z) : outcome E SmallBitmap :=
  for_each sb_insert (SmallBitmapInternal_new universe_length) xs.

Definition apply_op {E} (s other : SmallBitmap) (op : Z → Z → Z) : outcome E SmallBitmap :=
  match s, other with
  | Tiny a, Tiny b => Ok (Tiny (op a b))
  | Small a, Small b => if (length a =? length b)%nat then Ok (Small (zip_with op a b)) else Panic
  | _, _ => Panic
  end.
Definition sb_intersection {E} (s other : SmallBitmap) : outcome E SmallBitmap := apply_op s other Z.land.
Definition sb_union {E} (s other : SmallBitmap) : outcome E SmallBitmap := apply_op s other Z.lor.
Definition sb_subtract {E} (s other : SmallBitmap) : outcome E SmallBitmap := apply_op s other (λ a b, Z.land a (u64_not b)).

Definition all_satisfy_op {E} (s other : SmallBitmap) (op : Z → Z → bool) : outcome E bool :=
  match s, other with
  | Tiny a, Tiny b => Ok (op a b)
  | Small a, Small b => if (length a =? length b)%nat then Ok (forallb (λ p, op p.1 p.2) (zip a b)) else Panic
  | _, _ => Panic
  end.
Definition any_satisfy_op {E} (s other : SmallBitmap) (op : Z → Z → bool) : outcome E bool :=
  match s, other with
  | Tiny a, Tiny b => Ok (op a b)
  | Small a, Small b => if (length a =? length b)%nat then Ok (existsb (λ p, op p.1 p.2) (zip a b)) else Panic
  | _, _ => Panic
  end.
Definition sb_is_subset {E} (s other : SmallBitmap) : outcome E bool := all_satisfy_op s other (λ a b, Z.land a (u64_not b) =? 0).
Definition sb_intersects {E} (s other : SmallBitmap) : outcome E bool := any_satisfy_op s other (λ a b, negb (Z.land a b =? 0)).

(** [u64::trailing_zeros]. *)
Fixpoint trailing_zeros_from (n : nat) (i set : Z) : Z :=
  match n with
  | O => i
  | S n => if Z.testbit set i then i else trailing_zeros_from n (i + 1) set
  end.
Definition trailing_zeros (set : Z) : Z := trailing_zeros_from 64 0 set.

(** The iterator of a word, which clears its lowest bit, for at most 64 bits; then
    those of the words that follow. *)
Fixpoint iter_word (n : nat) (base set : Z) : list Z :=
  match n with
  | O => []
  | S n => if 0 <? set then trailing_zeros set + base :: iter_word n base (Z.land set (set - 1)) else []
  end.
Fixpoint iter_words (base : Z) (sets : list Z) : list Z :=
  match sets with
  | [] => []
  | set :: sets => iter_word 64 base set ++ iter_words (base + 64) sets
  end.
Definition sb_iter (s : SmallBitmap) : list Z := match s with Tiny set => iter_word 64 0 set | Small sets => iter_words 0 sets end.

(** ** Bits of words *)

Definition word (set : Z) : Prop := 0 ≤ set < 2 ^ 64.

Lemma word_bits set i : word set → Z.testbit set i = true → 0 ≤ i < 64.
Proof.
  intros [H0 H1] Hi. destruct (decide (i < 0)) as [Hlt|Hge]; [by rewrite Z.testbit_neg_r in Hi|]. split; [lia|].
  destruct (decide (i < 64)) as [?|Hge']; [done|]. rewrite <-(Z.mod_small set (2 ^ 64)), Z.mod_pow2_bits_high in Hi by lia. done.
Qed.

Lemma word_of_bits set : 0 ≤ set → (∀ i, 64 ≤ i → Z.testbit set i = false) → word set.
Proof.
  intros H0 Hbits. split; [done|]. assert (Heq : set = set mod 2 ^ 64); [|rewrite Heq; by apply Z.mod_pos_bound].
  apply Z.bits_inj. intros i. destruct (decide (i < 64)) as [?|?]; [by rewrite Z.mod_pow2_bits_low|].
  rewrite Z.mod_pow2_bits_high by lia. apply Hbits. lia.
Qed.

Lemma u64_not_bits x i : 0 ≤ i → Z.testbit (u64_not x) i = xorb (Z.testbit x i) (i <? 64).
Proof. intros Hi. unfold u64_not. by rewrite Z.lxor_spec, Z.testbit_ones_nonneg by lia. Qed.

Lemma shiftl_1_bits i j : 0 ≤ i → 0 ≤ j → Z.testbit (Z.shiftl 1 i) j = bool_decide (j = i).
Proof.
  intros Hi Hj. rewrite Z.shiftl_1_l. case_bool_decide as Heq; [subst; by rewrite Z.pow2_bits_true|].
  rewrite Z.pow2_bits_false; [done|congruence].
Qed.

Lemma land_bit_zero set i : 0 ≤ i → (Z.land set (Z.shiftl 1 i) =? 0) = negb (Z.testbit set i).
Proof.
  intros Hi. destruct (Z.testbit set i) eqn:Hb.
  - apply Z.eqb_neq. intros H0. apply (f_equal (λ w, Z.testbit w i)) in H0.
    rewrite Z.land_spec, shiftl_1_bits, Hb, bool_decide_true, Z.bits_0 in H0 by done. done.
  - apply Z.eqb_eq, Z.bits_inj_0. intros j. rewrite Z.land_spec. destruct (decide (j < 0)) as [Hj|Hj]; [by rewrite Z.testbit_neg_r|].
    rewrite shiftl_1_bits by lia. case_bool_decide; [by subst; rewrite Hb|apply andb_false_r].
Qed.

Lemma land_zero a b : 0 ≤ a → Z.land a b = 0 ↔ ∀ i, Z.testbit a i = true → Z.testbit b i = false.
Proof.
  intros Ha. rewrite <-Z.bits_inj_iff'. split.
  - intros H i Hi. destruct (decide (i < 0)) as [?|?]; [by rewrite Z.testbit_neg_r in Hi|]. specialize (H i ltac:(lia)).
    rewrite Z.land_spec, Hi, Z.bits_0 in H. done.
  - intros H i Hi. rewrite Z.land_spec, Z.bits_0. destruct (Z.testbit a i) eqn:Hb; [by apply H|done].
Qed.

Lemma trailing_zeros_from_spec set : ∀ n i, (∃ j, i ≤ j < i + Z.of_nat n ∧ Z.testbit set j = true) →
  let t := trailing_zeros_from n i set in i ≤ t ∧ Z.testbit set t = true ∧ ∀ j, i ≤ j < t → Z.testbit set j = false.
Proof.
  induction n as [|n IH]; intros i (j & Hj & Hb); [lia|]. cbn. destruct (Z.testbit set i) eqn:Hi; [split_and!; [lia|done|lia]|].
  destruct (IH (i + 1)) as (H1 & H2 & H3); [exists j; split; [|done]; assert (j ≠ i) by (intros ->; congruence); lia|].
  split_and!; [lia|done|]. intros k Hk. destruct (decide (k = i)) as [->|?]; [done|]. apply H3. lia.
Qed.

Lemma trailing_zeros_spec set : word set → set ≠ 0 → let t := trailing_zeros set in
  0 ≤ t < 64 ∧ Z.testbit set t = true ∧ ∀ j, 0 ≤ j < t → Z.testbit set j = false.
Proof.
  intros Hw Hne t. assert (Hex : ∃ j, 0 ≤ j < 0 + Z.of_nat 64 ∧ Z.testbit set j = true).
  { destruct Hw as [H0 H1]. exists (Z.log2 set). rewrite Z.bit_log2 by lia. split; [|done]. split; [apply Z.log2_nonneg|]. apply Z.log2_lt_pow2; lia. }
  destruct (trailing_zeros_from_spec set 64 0 Hex) as (H1 & H2 & H3). split; [by apply word_bits in H2|done].
Qed.

(** Clearing the lowest bit. *)
Lemma clear_lowest set : word set → set ≠ 0 → ∀ j, 0 ≤ j →
  Z.testbit (Z.land set (set - 1)) j = Z.testbit set j && negb (bool_decide (j = trailing_zeros set)).
Proof.
  intros Hw Hne. destruct (trailing_zeros_spec set Hw Hne) as (Ht & Hb & Hlow). set (t := trailing_zeros set) in *. clearbody t.
  assert (Hset : set = 2 ^ (t + 1) * (set / 2 ^ (t + 1)) + 2 ^ t).
  { rewrite (Z.div_mod set (2 ^ (t + 1))) at 1 by (apply Z.pow_nonzero; lia). f_equal. apply Z.bits_inj'. intros j Hj.
    destruct (decide (j < t + 1)) as [Hlt|Hge].
    - rewrite Z.mod_pow2_bits_low by done. destruct (decide (j = t)) as [->|Hjt]; [by rewrite Z.pow2_bits_true|].
      rewrite Z.pow2_bits_false by congruence. apply Hlow. lia.
    - rewrite Z.mod_pow2_bits_high by lia. rewrite Z.pow2_bits_false by lia. done. }
  set (q := set / 2 ^ (t + 1)) in *. intros j Hj. rewrite Z.land_spec.
  destruct (Z.testbit set j) eqn:Hbj; [cbn [andb]|done].
  assert (Hpow : 0 < 2 ^ t ∧ 2 ^ (t + 1) = 2 * 2 ^ t) by (split; [apply Z.pow_pos_nonneg; lia|rewrite Z.pow_add_r by lia; lia]). destruct Hpow as [Hpow Hdouble].
  destruct (decide (j < t)) as [Hlt|Hge]; [by rewrite Hlow in Hbj by lia|]. case_bool_decide as Heq; cbn [negb].
  - subst j. rewrite <-(Z.mod_pow2_bits_low (set - 1) (t + 1)) by lia.
    replace ((set - 1) mod 2 ^ (t + 1)) with (Z.ones t); [by apply Z.ones_spec_high; lia|].
    rewrite Z.ones_equiv. apply (Z.mod_unique_pos _ _ q); lia.
  - replace j with (j - (t + 1) + (t + 1)) in Hbj |- * by lia. rewrite <-Z.div_pow2_bits in Hbj |- * by lia.
    replace ((set - 1) / 2 ^ (t + 1)) with q; [exact Hbj|]. apply (Z.div_unique_pos _ _ _ (2 ^ t - 1)); lia.
Qed.

(** The iterator of a word gives its bits, in order. *)
Lemma iter_word_sorted base : ∀ n set, word set → StronglySorted Z.lt (iter_word n base set) ∧
  ∀ x, x ∈ iter_word n base set → Z.testbit set (x - base) = true.
Proof.
  induction n as [|n IH]; intros set Hw; cbn [iter_word]; [split; [constructor|by intros x ?%elem_of_nil]|].
  case_match eqn:Hpos; [|split; [constructor|by intros x ?%elem_of_nil]]. apply Z.ltb_lt in Hpos.
  assert (Hne : set ≠ 0) by lia. destruct (trailing_zeros_spec set Hw Hne) as (Ht & Hb & Hlow). pose proof (clear_lowest set Hw Hne) as Hclear.
  set (t := trailing_zeros set) in *. clearbody t. set (set' := Z.land set (set - 1)) in *.
  assert (Hw' : word set').
  { apply word_of_bits; [apply Z.land_nonneg; lia|]. intros i Hi. rewrite Hclear by lia.
    destruct (Z.testbit set i) eqn:Hbi; [apply word_bits in Hbi; [lia|done]|done]. }
  destruct (IH set' Hw') as [Hs Hin]. assert (Hbits : ∀ x, x ∈ iter_word n base set' → t + base < x ∧ Z.testbit set (x - base) = true).
  { intros x Hx. specialize (Hin x Hx). pose proof (word_bits _ _ Hw' Hin) as Hr. rewrite Hclear in Hin by lia.
    apply andb_true_iff in Hin as [Hbx Hne']. split; [|done]. rewrite negb_true_iff, bool_decide_eq_false in Hne'.
    destruct (decide (x - base < t)); [rewrite Hlow in Hbx by lia; done|lia]. }
  split.
  - constructor; [done|]. apply Forall_forall. intros x Hx. by apply Hbits.
  - intros x [->|Hx]%elem_of_cons; [by replace (t + base - base) with t by lia|by apply Hbits].
Qed.

Lemma iter_word_complete base : ∀ n set, word set → (∀ j, 0 ≤ j < 64 - Z.of_nat n → Z.testbit set j = false) →
  ∀ i, Z.testbit set i = true → base + i ∈ iter_word n base set.
Proof.
  induction n as [|n IH]; intros set Hw Hlow i Hi.
  { pose proof (word_bits _ _ Hw Hi). by rewrite Hlow in Hi by lia. }
  cbn [iter_word]. assert (Hne : set ≠ 0) by (intros ->; by rewrite Z.bits_0 in Hi). assert (Hpos : 0 <? set = true) by (apply Z.ltb_lt; destruct Hw; lia).
  rewrite Hpos. destruct (trailing_zeros_spec set Hw Hne) as (Ht & Hb & Hlow'). pose proof (clear_lowest set Hw Hne) as Hclear.
  set (t := trailing_zeros set) in *. clearbody t. destruct (decide (i = t)) as [->|Hit]; [rewrite Z.add_comm; by left|]. right.
  assert (Hge : 63 - Z.of_nat n ≤ t) by (destruct (decide (t < 63 - Z.of_nat n)); [rewrite Hlow in Hb by lia; done|lia]).
  apply IH.
  - apply word_of_bits; [apply Z.land_nonneg; destruct Hw; lia|]. intros j Hj. rewrite Hclear by lia.
    destruct (Z.testbit set j) eqn:Hbj; [apply word_bits in Hbj; [lia|done]|done].
  - intros j Hj. rewrite Hclear by lia. destruct (decide (j < t)); [by rewrite Hlow' by lia|].
    rewrite bool_decide_true by lia. apply andb_false_r.
  - pose proof (word_bits _ _ Hw Hi). rewrite Hclear, Hi by lia. by rewrite bool_decide_false.
Qed.

(** ** Small bitmaps as sets *)

Definition words_of (s : SmallBitmap) : list Z := match s with Tiny set => [set] | Small sets => sets end.
Definition sb_ok (s : SmallBitmap) : Prop := Forall word (words_of s).
Definition capacity (s : SmallBitmap) : Z := 64 * Z.of_nat (length (words_of s)).
Definition same_size (s t : SmallBitmap) : Prop :=
  match s, t with Tiny _, Tiny _ => True | Small a, Small b => length a = length b | _, _ => False end.
Definition bits (s : SmallBitmap) : bitmap := list_to_set (sb_iter s).

(** The bit of an index. *)
Definition bit (ws : list Z) (x : Z) : bool :=
  match ws !! Z.to_nat (x / 64) with Some w => Z.testbit w (x mod 64) | None => false end.

Lemma bit_cons w ws x : 0 ≤ x → bit (w :: ws) x = if x <? 64 then Z.testbit w x else bit ws (x - 64).
Proof.
  intros Hx. unfold bit. destruct (Z.ltb_spec x 64) as [Hlt|Hlt].
  - rewrite Z.div_small, Z.mod_small by lia. done.
  - assert (Heq : x / 64 = (x - 64) / 64 + 1) by (rewrite <-(Z.div_add (x - 64) 1 64) by lia; f_equal; lia).
    assert (0 ≤ (x - 64) / 64) by (apply Z.div_pos; lia). rewrite Heq, Z2Nat.inj_add by lia. change (Z.to_nat 1) with 1%nat. rewrite Nat.add_1_r.
    cbn [lookup list_lookup]. assert (Hm : x mod 64 = (x - 64) mod 64) by (rewrite <-(Z.mod_add (x - 64) 1 64) by lia; f_equal; lia). by rewrite Hm.
Qed.

Lemma iter_words_spec ws : ∀ base, Forall word ws → StronglySorted Z.lt (iter_words base ws) ∧
  ∀ x, x ∈ iter_words base ws ↔ base ≤ x ∧ bit ws (x - base) = true.
Proof.
  induction ws as [|w ws IH]; intros base Hws.
  { split; [constructor|]. intros x. cbn [iter_words]. rewrite elem_of_nil. unfold bit. rewrite lookup_nil. by split; [|intros []]. }
  apply Forall_cons in Hws as [Hw Hws]. destruct (IH (base + 64) Hws) as [Hs Hin]. cbn [iter_words].
  destruct (iter_word_sorted base 64 w Hw) as [Hsw Hbw]. split.
  - apply StronglySorted_app. split_and!; [|done|done]. intros x y Hx [Hy _]%Hin. apply Hbw in Hx. apply word_bits in Hx; [lia|done].
  - intros x. rewrite elem_of_app, Hin. split.
    + intros [Hx|[Hx Hb]].
      * apply Hbw in Hx. pose proof (word_bits _ _ Hw Hx). split; [lia|]. rewrite bit_cons by lia. by rewrite (proj2 (Z.ltb_lt _ _)) by lia.
      * split; [lia|]. rewrite bit_cons by lia. rewrite (proj2 (Z.ltb_ge _ _)) by lia. by replace (x - base - 64) with (x - (base + 64)) by lia.
    + intros [Hx Hb]. rewrite bit_cons in Hb by lia. destruct (Z.ltb_spec (x - base) 64) as [Hlt|Hlt].
      * left. replace x with (base + (x - base)) by lia. apply iter_word_complete; [done|lia|done].
      * right. split; [lia|]. by replace (x - (base + 64)) with (x - base - 64) by lia.
Qed.

Lemma sb_iter_words s : sb_iter s = iter_words 0 (words_of s).
Proof. destruct s; [|done]. cbn [sb_iter words_of iter_words]. by rewrite app_nil_r. Qed.

Lemma elem_of_bits s x : sb_ok s → x ∈ bits s ↔ 0 ≤ x ∧ bit (words_of s) x = true.
Proof. intros Hs. unfold bits. rewrite elem_of_list_to_set, sb_iter_words. rewrite (proj2 (iter_words_spec _ 0 Hs)). by rewrite Z.sub_0_r. Qed.

Lemma bits_range s x : sb_ok s → x ∈ bits s → 0 ≤ x < capacity s.
Proof.
  intros Hs [H0 Hb]%elem_of_bits; [|done]. split; [done|]. unfold bit in Hb. destruct (words_of s !! Z.to_nat (x / 64)) eqn:Hl; [|done].
  apply lookup_lt_Some in Hl. unfold capacity. pose proof (Z.div_pos x 64 ltac:(lia) ltac:(lia)).
  pose proof (Z.mod_pos_bound x 64 ltac:(lia)). pose proof (Z.div_mod x 64 ltac:(lia)). lia.
Qed.

(** A set has one increasing enumeration. *)
Lemma increasing_is_iter (b : bitmap) l : StronglySorted Z.lt l → (∀ x, x ∈ l ↔ x ∈ b) → l = bm_iter b.
Proof.
  intros Hs Hin. apply (StronglySorted_unique Z.le); [|apply StronglySorted_bm_iter|].
  - clear Hin. induction Hs as [|x l Hl IH Hx]; constructor; [done|]. eapply Forall_impl; [exact Hx|]. cbn. lia.
  - apply NoDup_Permutation; [|apply NoDup_bm_iter|intros x; by rewrite elem_of_bm_iter]. clear Hin.
    induction Hs as [|x l Hl IH Hx]; constructor; [|done]. rewrite Forall_forall in Hx. intros Hxl. specialize (Hx _ Hxl). lia.
Qed.

(** The iterator gives the set in order. *)
Lemma sb_iter_bits s : sb_ok s → sb_iter s = bm_iter (bits s).
Proof.
  intros Hs. apply increasing_is_iter; [rewrite sb_iter_words; by apply (iter_words_spec _ 0)|].
  intros x. unfold bits. by rewrite elem_of_list_to_set.
Qed.

(** ** The operations *)

Lemma get_set_index_ok {E} s x : 0 ≤ x < capacity s → ∃ w, words_of s !! Z.to_nat (x / 64) = Some w ∧
  get_set_index (E:=E) s x = Ok (w, x mod 64) ∧ ∀ w', words_of (set_word s x w') = <[Z.to_nat (x / 64) := w']> (words_of s).
Proof.
  intros Hx. unfold capacity in Hx. pose proof (Z.div_pos x 64 ltac:(lia) ltac:(lia)). pose proof (Z.div_mod x 64 ltac:(lia)).
  pose proof (Z.mod_pos_bound x 64 ltac:(lia)). destruct (lookup_lt_is_Some_2 (words_of s) (Z.to_nat (x / 64))) as [w Hw]; [lia|].
  exists w. split; [done|]. destruct s as [set|sets]; cbn [words_of length] in *.
  - rewrite Z.div_small in Hw |- * by lia. cbn in Hw. injection Hw as ->. rewrite Z.mod_small by lia. cbn.
    by rewrite (proj2 (Z.ltb_lt x 64)) by lia.
  - cbn [get_set_index]. by rewrite Hw.
Qed.

Lemma get_set_index_out {E} s x : capacity s ≤ x → get_set_index (E:=E) s x = Panic.
Proof.
  intros Hx. unfold capacity in Hx. destruct s as [set|sets]; cbn [get_set_index words_of length] in *.
  - by rewrite (proj2 (Z.ltb_ge x 64)) by lia.
  - rewrite lookup_ge_None_2; [done|]. pose proof (Z.div_le_lower_bound x 64 (Z.of_nat (length sets)) ltac:(lia) ltac:(lia)). lia.
Qed.

Lemma set_word_same s x w : same_size (set_word s x w) s.
Proof. destruct s; cbn; [done|]. by rewrite length_insert. Qed.

(** Changing a bit of a word. *)
Lemma set_bit s x w v i : sb_ok s → 0 ≤ x → words_of s !! Z.to_nat (x / 64) = Some w →
  words_of (set_word s x v) = <[Z.to_nat (x / 64) := v]> (words_of s) → word v → i = x mod 64 →
  (∀ j, 0 ≤ j → j ≠ i → Z.testbit v j = Z.testbit w j) →
  sb_ok (set_word s x v) ∧ ∀ y, y ∈ bits (set_word s x v) ↔ if decide (y = x) then Z.testbit v i = true else y ∈ bits s.
Proof.
  intros Hs Hx Hw Hset Hv -> Hsame. assert (Hok : sb_ok (set_word s x v)) by (unfold sb_ok; rewrite Hset; by apply Forall_insert).
  split; [done|]. intros y. rewrite elem_of_bits by done. unfold bit. rewrite Hset.
  assert (Hlen : (Z.to_nat (x / 64) < length (words_of s))%nat) by (by apply lookup_lt_Some in Hw).
  case_decide as Hyx.
  - subst y. rewrite list_lookup_insert_eq by done. naive_solver.
  - rewrite elem_of_bits by done. unfold bit. destruct (decide (y < 0)) as [Hneg|Hpos]; [lia|].
    assert (Hd : 0 ≤ y / 64 ∧ 0 ≤ x / 64) by (split; apply Z.div_pos; lia).
    destruct (decide (y / 64 = x / 64)) as [Heq|Hne].
    + rewrite Heq, list_lookup_insert_eq, Hw by done. rewrite Hsame; [done|by apply Z.mod_pos_bound|].
      intros Hm. apply Hyx. rewrite (Z.div_mod y 64), (Z.div_mod x 64) by lia. by rewrite Heq, Hm.
    + rewrite list_lookup_insert_ne by lia. done.
Qed.

Lemma word_at s k w : sb_ok s → words_of s !! k = Some w → word w.
Proof. intros Hs Hw. by eapply Forall_lookup_1. Qed.

Lemma sb_contains_spec {E} s x : sb_ok s → 0 ≤ x < capacity s → sb_contains (E:=E) s x = Ok (bool_decide (x ∈ bits s)).
Proof.
  intros Hs Hx. destruct (get_set_index_ok (E:=E) s x Hx) as (w & Hw & Hget & _). unfold sb_contains. rewrite Hget. cbn [mbind outcome_bind].
  rewrite land_bit_zero, negb_involutive by (by apply Z.mod_pos_bound). f_equal. symmetry. destruct (Z.testbit w (x mod 64)) eqn:Hb.
  - apply bool_decide_eq_true, elem_of_bits; [done|]. unfold bit. rewrite Hw. by split; [lia|].
  - apply bool_decide_eq_false. rewrite elem_of_bits by done. unfold bit. rewrite Hw, Hb. by intros [_ ?].
Qed.

Lemma sb_insert_spec {E} s x : sb_ok s → 0 ≤ x < capacity s →
  ∃ s', sb_insert (E:=E) s x = Ok s' ∧ sb_ok s' ∧ same_size s' s ∧ bits s' = {[x]} ∪ bits s.
Proof.
  intros Hs Hx. destruct (get_set_index_ok (E:=E) s x Hx) as (w & Hw & Hget & Hset). unfold sb_insert. rewrite Hget. cbn [mbind outcome_bind].
  pose proof (Z.mod_pos_bound x 64 ltac:(lia)) as Hi. pose proof (word_at _ _ _ Hs Hw) as Hword.
  assert (Hbits : ∀ j, 0 ≤ j → Z.testbit (Z.lor w (Z.shiftl 1 (x mod 64))) j = Z.testbit w j || bool_decide (j = x mod 64))
    by (intros j Hj; by rewrite Z.lor_spec, shiftl_1_bits by lia).
  destruct (set_bit s x w (Z.lor w (Z.shiftl 1 (x mod 64))) (x mod 64)) as [Hok Hin]; try done; try lia.
  - apply word_of_bits; [apply Z.lor_nonneg; split; [apply Hword|rewrite Z.shiftl_1_l; apply Z.pow_nonneg; lia]|].
    intros j Hj. rewrite Hbits by lia. rewrite bool_decide_false, orb_false_r by lia.
    destruct (Z.testbit w j) eqn:Hb; [apply word_bits in Hb; [lia|done]|done].
  - intros j Hj Hne. by rewrite Hbits, bool_decide_false, orb_false_r by lia.
  - eexists. split; [reflexivity|]. split_and!; [done|apply set_word_same|]. apply set_eq. intros y. rewrite Hin, elem_of_union, elem_of_singleton.
    case_decide; [|naive_solver]. rewrite Hbits, bool_decide_true, orb_true_r by lia. naive_solver.
Qed.

Lemma sb_remove_spec {E} s x : sb_ok s → 0 ≤ x < capacity s →
  ∃ s', sb_remove (E:=E) s x = Ok s' ∧ sb_ok s' ∧ same_size s' s ∧ bits s' = bits s ∖ {[x]}.
Proof.
  intros Hs Hx. destruct (get_set_index_ok (E:=E) s x Hx) as (w & Hw & Hget & Hset). unfold sb_remove. rewrite Hget. cbn [mbind outcome_bind].
  pose proof (Z.mod_pos_bound x 64 ltac:(lia)) as Hi. pose proof (word_at _ _ _ Hs Hw) as Hword.
  assert (Hbits : ∀ j, 0 ≤ j < 64 → Z.testbit (Z.land w (u64_not (Z.shiftl 1 (x mod 64)))) j = Z.testbit w j && negb (bool_decide (j = x mod 64))).
  { intros j Hj. rewrite Z.land_spec, u64_not_bits, shiftl_1_bits, (proj2 (Z.ltb_lt j 64)) by lia. by rewrite xorb_true_r. }
  destruct (set_bit s x w (Z.land w (u64_not (Z.shiftl 1 (x mod 64)))) (x mod 64)) as [Hok Hin]; try done; try lia.
  - apply word_of_bits; [apply Z.land_nonneg; left; apply Hword|]. intros j Hj. rewrite Z.land_spec.
    destruct (Z.testbit w j) eqn:Hb; [apply word_bits in Hb; [lia|done]|done].
  - intros j Hj Hne. destruct (decide (j < 64)) as [Hlt|Hge]; [by rewrite Hbits, bool_decide_false, andb_true_r by lia|].
    rewrite Z.land_spec. destruct (Z.testbit w j) eqn:Hb; [apply word_bits in Hb; [lia|done]|done].
  - eexists. split; [reflexivity|]. split_and!; [done|apply set_word_same|]. apply set_eq. intros y. rewrite Hin, elem_of_difference, elem_of_singleton.
    case_decide; [|naive_solver]. rewrite Hbits, bool_decide_true, andb_false_r by lia. naive_solver.
Qed.

(** Operations on two bitmaps of the same size, word by word. *)
Lemma apply_op_spec {E} s t op f : sb_ok s → sb_ok t → same_size s t → f false false = false →
  (∀ a b, word a → word b → 0 ≤ op a b ∧ ∀ i, 0 ≤ i → Z.testbit (op a b) i = f (Z.testbit a i) (Z.testbit b i)) →
  ∃ s', apply_op (E:=E) s t op = Ok s' ∧ sb_ok s' ∧ same_size s' s ∧
    ∀ x, x ∈ bits s' ↔ f (bool_decide (x ∈ bits s)) (bool_decide (x ∈ bits t)) = true.
Proof.
  intros Hs Ht Hsize Hff Hf.
  assert (Hop : ∀ a b, word a → word b → word (op a b)).
  { intros a b Ha Hb. destruct (Hf a b Ha Hb) as [H0 Hbits]. apply word_of_bits; [done|]. intros i Hi. rewrite Hbits by lia.
    assert (Hhigh : ∀ w, word w → Z.testbit w i = false) by (intros w Hw; destruct (Z.testbit w i) eqn:Hwi; [apply word_bits in Hwi; [lia|done]|done]).
    by rewrite !Hhigh. }
  assert (Hex : ∃ s', apply_op (E:=E) s t op = Ok s' ∧ same_size s' s ∧ words_of s' = zip_with op (words_of s) (words_of t)).
  { destruct s as [a|a], t as [b|b]; try done; cbn in *; [by eexists|]. rewrite Hsize, Nat.eqb_refl. eexists. split; [done|].
    split; [|done]. cbn. rewrite length_zip_with. lia. }
  destruct Hex as (s' & Heq & Hsz & Hw). exists s'. split; [done|].
  assert (Hok : sb_ok s').
  { unfold sb_ok. rewrite Hw. apply Forall_lookup. intros k v Hk. apply lookup_zip_with_Some in Hk as (a & b & -> & Ha & Hb).
    apply Hop; [exact (word_at s k a Hs Ha)|exact (word_at t k b Ht Hb)]. }
  split_and!; [done|done|]. intros x. destruct (decide (x < 0)) as [Hneg|Hpos].
  { rewrite !bool_decide_false by (intros []%elem_of_bits; [lia|done]). rewrite Hff. rewrite elem_of_bits by done. split; [lia|done]. }
  assert (Hd : ∀ u, sb_ok u → bool_decide (x ∈ bits u) = bit (words_of u) x).
  { intros u Hu. destruct (bit (words_of u) x) eqn:Hb; [apply bool_decide_eq_true, elem_of_bits; [done|split; [lia|done]]|].
    apply bool_decide_eq_false. rewrite elem_of_bits, Hb by done. by intros []. }
  rewrite !Hd, elem_of_bits by done. unfold bit. rewrite Hw, lookup_zip_with.
  assert (Hlen : length (words_of s) = length (words_of t)) by (destruct s, t; done).
  destruct (words_of s !! Z.to_nat (x / 64)) as [a|] eqn:Ha; cbn.
  - destruct (lookup_lt_is_Some_2 (words_of t) (Z.to_nat (x / 64))) as [b Hb]; [rewrite <-Hlen; by apply lookup_lt_Some in Ha|].
    rewrite Hb. cbn. destruct (Hf a b) as [_ Hbits]; [exact (word_at s _ _ Hs Ha)|exact (word_at t _ _ Ht Hb)|].
    rewrite Hbits by (by apply Z.mod_pos_bound). split; [by intros [_ ?]|intros ?; split; [lia|done]].
  - apply lookup_ge_None in Ha. rewrite (lookup_ge_None_2 (words_of t)) by lia. cbn. rewrite Hff. split; [by intros []|done].
Qed.

Lemma sb_union_spec {E} s t : sb_ok s → sb_ok t → same_size s t →
  ∃ s', sb_union (E:=E) s t = Ok s' ∧ sb_ok s' ∧ same_size s' s ∧ bits s' = bits s ∪ bits t.
Proof.
  intros Hs Ht Hsize. destruct (apply_op_spec (E:=E) s t Z.lor orb) as (s' & Heq & ? & ? & Hin); try done.
  - intros a b [? ?] [? ?]. split; [by apply Z.lor_nonneg|]. intros. apply Z.lor_spec.
  - exists s'. split_and!; [done..|]. apply set_eq. intros y. rewrite Hin, orb_true_iff, !bool_decide_eq_true. set_solver.
Qed.

Lemma sb_intersection_spec {E} s t : sb_ok s → sb_ok t → same_size s t →
  ∃ s', sb_intersection (E:=E) s t = Ok s' ∧ sb_ok s' ∧ same_size s' s ∧ bits s' = bits s ∩ bits t.
Proof.
  intros Hs Ht Hsize. destruct (apply_op_spec (E:=E) s t Z.land andb) as (s' & Heq & ? & ? & Hin); try done.
  - intros a b [? ?] [? ?]. split; [apply Z.land_nonneg; by left|]. intros. apply Z.land_spec.
  - exists s'. split_and!; [done..|]. apply set_eq. intros y. rewrite Hin, andb_true_iff, !bool_decide_eq_true. set_solver.
Qed.

Lemma sb_subtract_spec {E} s t : sb_ok s → sb_ok t → same_size s t →
  ∃ s', sb_subtract (E:=E) s t = Ok s' ∧ sb_ok s' ∧ same_size s' s ∧ bits s' = bits s ∖ bits t.
Proof.
  intros Hs Ht Hsize. destruct (apply_op_spec (E:=E) s t (λ a b, Z.land a (u64_not b)) (λ a b, a && negb b)) as (s' & Heq & ? & ? & Hin); try done.
  - intros a b Ha Hb. split; [apply Z.land_nonneg; left; apply Ha|]. intros i Hi. rewrite Z.land_spec, u64_not_bits by done.
    destruct (Z.testbit a i) eqn:Hai; [|done]. apply word_bits in Hai; [|done]. rewrite (proj2 (Z.ltb_lt i 64)) by lia. by rewrite xorb_true_r.
  - exists s'. split_and!; [done..|]. apply set_eq. intros y. rewrite Hin, andb_true_iff, negb_true_iff, bool_decide_eq_true, bool_decide_eq_false. set_solver.
Qed.

Lemma forallb_lookup {A} (p : A → bool) l : forallb p l = true ↔ ∀ k x, l !! k = Some x → p x = true.
Proof.
  rewrite forallb_forall. split; [intros H k x Hk; apply H, list_elem_of_In; by eapply list_elem_of_lookup_2|].
  intros H x [k Hk]%list_elem_of_In%list_elem_of_lookup. by eapply H.
Qed.

Lemma all_satisfy_words {E} s t op : same_size s t →
  all_satisfy_op (E:=E) s t op = Ok (forallb (λ p, op p.1 p.2) (zip (words_of s) (words_of t))).
Proof. destruct s, t; try done; cbn; intros Hs; [by rewrite andb_true_r|by rewrite Hs, Nat.eqb_refl]. Qed.
Lemma any_satisfy_words {E} s t op : same_size s t →
  any_satisfy_op (E:=E) s t op = Ok (negb (forallb (λ p, negb (op p.1 p.2)) (zip (words_of s) (words_of t)))).
Proof.
  assert (Hneg : ∀ l : list (Z * Z), existsb (λ p, op p.1 p.2) l = negb (forallb (λ p, negb (op p.1 p.2)) l))
    by (induction l as [|p l IH]; [done|cbn; by rewrite IH, negb_andb, negb_involutive]).
  destruct s as [a|a], t as [b|b]; try done; cbn [same_size any_satisfy_op words_of]; intros Hs; [|by rewrite Hs, Nat.eqb_refl, Hneg].
  cbn. by rewrite andb_true_r, negb_involutive.
Qed.

Lemma same_size_length s t : same_size s t → length (words_of s) = length (words_of t).
Proof. by destruct s, t. Qed.

(** A condition on the words of two bitmaps that is one on each of their bits. *)
Lemma zip_words_bits s t (op : Z → Z → bool) (p : bool → bool → bool) : sb_ok s → sb_ok t → same_size s t →
  (∀ a b, word a → word b → op a b = true ↔ ∀ i, 0 ≤ i < 64 → p (Z.testbit a i) (Z.testbit b i) = true) →
  p false false = true →
  forallb (λ p, op p.1 p.2) (zip (words_of s) (words_of t)) = true ↔
  ∀ x, p (bool_decide (x ∈ bits s)) (bool_decide (x ∈ bits t)) = true.
Proof.
  intros Hs Ht Hsize Hop Hff. pose proof (same_size_length _ _ Hsize) as Hlen. rewrite forallb_lookup.
  assert (Hd : ∀ u x, sb_ok u → 0 ≤ x → bool_decide (x ∈ bits u) = bit (words_of u) x).
  { intros u x Hu Hx. destruct (bit (words_of u) x) eqn:Hb; [by apply bool_decide_eq_true, elem_of_bits|].
    apply bool_decide_eq_false. rewrite elem_of_bits, Hb by done. by intros []. }
  split.
  - intros H x. destruct (decide (x < 0)) as [Hneg|Hpos].
    { rewrite !bool_decide_false by (intros []%elem_of_bits; [lia|done]). done. }
    rewrite !Hd by (done || lia). unfold bit. destruct (words_of s !! Z.to_nat (x / 64)) as [a|] eqn:Ha.
    + destruct (lookup_lt_is_Some_2 (words_of t) (Z.to_nat (x / 64))) as [b Hb]; [rewrite <-Hlen; by apply lookup_lt_Some in Ha|].
      rewrite Hb. specialize (H (Z.to_nat (x / 64)) (a, b)). rewrite lookup_zip_with, Ha in H. cbn in H. rewrite Hb in H.
      apply Hop; [exact (word_at s _ _ Hs Ha)|exact (word_at t _ _ Ht Hb)|by apply H|by apply Z.mod_pos_bound].
    + apply lookup_ge_None in Ha. by rewrite (lookup_ge_None_2 (words_of t)) by lia.
  - intros H k [a b] Hk. apply lookup_zip_with_Some in Hk as (a' & b' & [= -> ->] & Ha & Hb). cbn.
    apply Hop; [exact (word_at s _ _ Hs Ha)|exact (word_at t _ _ Ht Hb)|]. intros i Hi. specialize (H (64 * Z.of_nat k + i)).
    rewrite !Hd in H by (done || lia). unfold bit in H.
    assert (Hdiv : (64 * Z.of_nat k + i) / 64 = Z.of_nat k) by (symmetry; apply (Z.div_unique_pos _ _ _ i); lia).
    assert (Hmod : (64 * Z.of_nat k + i) mod 64 = i) by (symmetry; apply (Z.mod_unique_pos _ _ (Z.of_nat k)); lia).
    by rewrite Hdiv, Hmod, Nat2Z.id, Ha, Hb in H.
Qed.

Lemma sb_is_subset_spec {E} s t : sb_ok s → sb_ok t → same_size s t → sb_is_subset (E:=E) s t = Ok (bool_decide (bits s ⊆ bits t)).
Proof.
  intros Hs Ht Hsize. unfold sb_is_subset. rewrite all_satisfy_words by done. f_equal. apply eq_true_iff_eq.
  rewrite bool_decide_eq_true.
  etransitivity; [apply (zip_words_bits s t (λ a b, Z.land a (u64_not b) =? 0) (λ a b, negb a || b)); try done|].
  - intros a b Ha Hb. rewrite Z.eqb_eq, land_zero by apply Ha. split.
    + intros H i Hi. destruct (Z.testbit a i) eqn:Hai; [|done]. specialize (H i Hai).
      rewrite u64_not_bits, (proj2 (Z.ltb_lt i 64)), xorb_true_r in H by lia. by destruct (Z.testbit b i).
    + intros H i Hai. pose proof (word_bits _ _ Ha Hai) as Hi. specialize (H i Hi). rewrite Hai in H. cbn in H.
      by rewrite u64_not_bits, (proj2 (Z.ltb_lt i 64)), xorb_true_r, H by lia.
  - split; [|intros H x; repeat case_bool_decide; set_solver].
    intros H x Hx. specialize (H x). rewrite bool_decide_true in H by done. cbn in H. by apply bool_decide_eq_true in H.
Qed.

Lemma sb_intersects_spec {E} s t : sb_ok s → sb_ok t → same_size s t → sb_intersects (E:=E) s t = Ok (bool_decide (bits s ∩ bits t ≠ ∅)).
Proof.
  intros Hs Ht Hsize. unfold sb_intersects. rewrite any_satisfy_words by done. f_equal.
  rewrite bool_decide_not. f_equal. apply eq_true_iff_eq. rewrite bool_decide_eq_true.
  etransitivity; [apply (zip_words_bits s t (λ a b, negb (negb (Z.land a b =? 0))) (λ a b, negb (a && b))); try done|].
  - intros a b Ha Hb. rewrite negb_involutive, Z.eqb_eq, land_zero by apply Ha. split.
    + intros H i Hi. specialize (H i). destruct (Z.testbit a i); [by rewrite H|done].
    + intros H i Hai. specialize (H i (word_bits _ _ Ha Hai)). rewrite Hai in H. by destruct (Z.testbit b i).
  - split.
    + intros H. apply set_eq. intros x. specialize (H x). rewrite elem_of_intersection. repeat case_bool_decide; set_solver.
    + intros H x. repeat case_bool_decide; set_solver.
Qed.

Lemma sb_is_empty_spec s : sb_ok s → sb_is_empty s = bool_decide (bits s = ∅).
Proof.
  intros Hs. assert (Hall : sb_is_empty s = forallb (λ w, w =? 0) (words_of s)) by (destruct s; cbn; by rewrite ?andb_true_r).
  rewrite Hall. apply eq_true_iff_eq. rewrite bool_decide_eq_true, forallb_lookup. split.
  - intros H. apply elem_of_equiv_empty_L. intros x [Hx Hb]%elem_of_bits; [|done]. unfold bit in Hb.
    destruct (words_of s !! Z.to_nat (x / 64)) as [w|] eqn:Hw; [|done]. apply H, Z.eqb_eq in Hw as ->. by rewrite Z.bits_0 in Hb.
  - intros H k w Hk. apply Z.eqb_eq, Z.bits_inj_0. intros i. destruct (Z.testbit w i) eqn:Hb; [exfalso|done].
    pose proof (word_bits _ _ (word_at s k w Hs Hk) Hb) as Hi. assert (Hin : 64 * Z.of_nat k + i ∈ bits s); [|by rewrite H in Hin; apply elem_of_empty in Hin].
    apply elem_of_bits; [done|]. split; [lia|]. unfold bit.
    replace ((64 * Z.of_nat k + i) / 64) with (Z.of_nat k) by (apply (Z.div_unique_pos _ _ _ i); lia).
    replace ((64 * Z.of_nat k + i) mod 64) with i by (apply (Z.mod_unique_pos _ _ (Z.of_nat k)); lia). by rewrite Nat2Z.id, Hk.
Qed.

(** The bitmaps without bits. *)
Lemma zeros_ok s : Forall (λ w, w = 0) (words_of s) → sb_ok s ∧ bits s = ∅.
Proof.
  intros H0. assert (Hs : sb_ok s) by (eapply Forall_impl; [exact H0|]; intros w ->; by split; [|apply Z.pow_pos_nonneg]).
  split; [done|]. apply (bool_decide_eq_true_1 _). rewrite <-sb_is_empty_spec by done.
  assert (Hall : sb_is_empty s = forallb (λ w, w =? 0) (words_of s)) by (destruct s; cbn; by rewrite ?andb_true_r).
  rewrite Hall, forallb_lookup. intros k w Hk. apply Z.eqb_eq. exact (Forall_lookup_1 _ _ _ _ H0 Hk).
Qed.

Lemma sb_clear_spec s : sb_ok (sb_clear s) ∧ same_size (sb_clear s) s ∧ bits (sb_clear s) = ∅.
Proof.
  destruct (zeros_ok (sb_clear s)) as [Hok Hb]; [destruct s; cbn; [by repeat constructor|by apply Forall_fmap, Forall_true]|].
  split_and!; [done| |done]. destruct s; cbn; [done|by rewrite length_fmap].
Qed.

Lemma sb_new_spec n : 0 ≤ n → sb_ok (SmallBitmap_new n) ∧ bits (SmallBitmap_new n) = ∅ ∧ n ≤ capacity (SmallBitmap_new n).
Proof.
  intros Hn. destruct (zeros_ok (SmallBitmap_new n)) as [Hok Hb]; [unfold SmallBitmap_new; case_match; cbn; [by repeat constructor|by apply Forall_replicate]|].
  split_and!; [done|done|]. unfold capacity, SmallBitmap_new. destruct (Z.leb_spec n 64); cbn [words_of length]; [lia|].
  rewrite length_replicate. pose proof (Z.div_pos (n - 1) 64 ltac:(lia) ltac:(lia)). pose proof (Z.div_mod (n - 1) 64 ltac:(lia)).
  pose proof (Z.mod_pos_bound (n - 1) 64 ltac:(lia)). lia.
Qed.

(** Two bitmaps of different sizes. *)
Lemma sizes_differ {E} s t : ¬ same_size s t →
  (∀ op, apply_op (E:=E) s t op = Panic) ∧ (∀ op, all_satisfy_op (E:=E) s t op = Panic) ∧ ∀ op, any_satisfy_op (E:=E) s t op = Panic.
Proof. destruct s as [a|a], t as [b|b]; cbn; intros Hne; try done. rewrite (proj2 (Nat.eqb_neq _ _) Hne). done. Qed.

(** C29. A small bitmap is the set of its bits: in its universe, which holds
    the length it was created for, looking up, inserting and removing an index,
    the operations on two bitmaps of the same size, and the iterator are those of
    sets; an index outside of the universe or a bitmap of another size is a
    panic. *)
Theorem small_bitmap_refines s t x : sb_ok s → sb_ok t →
  (∀ n, 0 ≤ n → sb_ok (SmallBitmap_new n) ∧ bits (SmallBitmap_new n) = ∅ ∧ n ≤ capacity (SmallBitmap_new n)) ∧
  (0 ≤ x < capacity s →
    sb_contains (E:=unit) s x = Ok (bool_decide (x ∈ bits s)) ∧
    (∃ s', sb_insert (E:=unit) s x = Ok s' ∧ sb_ok s' ∧ same_size s' s ∧ bits s' = {[x]} ∪ bits s) ∧
    ∃ s', sb_remove (E:=unit) s x = Ok s' ∧ sb_ok s' ∧ same_size s' s ∧ bits s' = bits s ∖ {[x]}) ∧
  (capacity s ≤ x → sb_contains (E:=unit) s x = Panic ∧ sb_insert (E:=unit) s x = Panic ∧ sb_remove (E:=unit) s x = Panic) ∧
  (same_size s t →
    (∃ s', sb_union (E:=unit) s t = Ok s' ∧ sb_ok s' ∧ same_size s' s ∧ bits s' = bits s ∪ bits t) ∧
    (∃ s', sb_intersection (E:=unit) s t = Ok s' ∧ sb_ok s' ∧ same_size s' s ∧ bits s' = bits s ∩ bits t) ∧
    (∃ s', sb_subtract (E:=unit) s t = Ok s' ∧ sb_ok s' ∧ same_size s' s ∧ bits s' = bits s ∖ bits t) ∧
    sb_is_subset (E:=unit) s t = Ok (bool_decide (bits s ⊆ bits t)) ∧
    sb_intersects (E:=unit) s t = Ok (bool_decide (bits s ∩ bits t ≠ ∅))) ∧
  (¬ same_size s t → sb_union (E:=unit) s t = Panic ∧ sb_is_subset (E:=unit) s t = Panic ∧ sb_intersects (E:=unit) s t = Panic) ∧
  sb_iter s = bm_iter (bits s) ∧ sb_is_empty s = bool_decide (bits s = ∅) ∧ bits (sb_clear s) = ∅.
Proof.
  intros Hs Ht. split_and!.
  - intros n. apply sb_new_spec.
  - intros Hx. split_and!; [by apply sb_contains_spec|by apply sb_insert_spec|by apply sb_remove_spec].
  - intros Hx. unfold sb_contains, sb_insert, sb_remove. rewrite (get_set_index_out (E:=unit)) by done. done.
  - intros Hsz. split_and!; [| | |by apply sb_is_subset_spec|by apply sb_intersects_spec].
    + by apply sb_union_spec.
    + by apply sb_intersection_spec.
    + by apply sb_subtract_spec.
  - intros Hne. destruct (sizes_differ (E:=unit) s t Hne) as (Ha & Hb & Hc). split_and!; [apply Ha|apply Hb|apply Hc].
  - by apply sb_iter_bits.
  - by apply sb_is_empty_spec.
  - apply sb_clear_spec.
Qed.

(** ** Samples *)

Lemma small_bitmap_refines_witness :
  sb_iter (Small [5; 2 ^ 63]) = [0; 2; 127] ∧ sb_contains (E:=unit) (Small [5; 2 ^ 63]) 127 = Ok true ∧
  sb_insert (E:=unit) (Small [5; 2 ^ 63]) 128 = Panic.
Proof.
  assert (Hs : sb_ok (Small [5; 2 ^ 63])) by (repeat constructor; cbn; lia).
  destruct (small_bitmap_refines (Small [5; 2 ^ 63]) (Small [1; 1]) 127 Hs ltac:(repeat constructor; cbn; lia)) as (_ & Hin & _).
  destruct (small_bitmap_refines (Small [5; 2 ^ 63]) (Small [1; 1]) 128 Hs ltac:(repeat constructor; cbn; lia)) as (_ & _ & Hout & _).
  split; [reflexivity|]. split.
  - destruct Hin as [Hc _]; [unfold capacity; cbn; lia|]. rewrite Hc. vm_compute. reflexivity.
  - destruct Hout as (_ & Hi & _); [unfold capacity; cbn; lia|exact Hi].
Defined.

(** A bitmap built from an iterator has one word more than a new one when the
    length is a multiple of 64, so that they cannot be combined; and the length of
    the universe of a bitmap of more than 65472 indexes wraps to 0. *)
Example from_iter_is_longer : ∃ s, sb_from_iter (E:=unit) [0; 127] 128 = Ok s ∧ sb_union (E:=unit) (SmallBitmap_new 128) s = Panic.
Proof. eexists. split; vm_compute; reflexivity. Qed.
Example universe_length_wraps : universe_length (SmallBitmap_new 65473) = 0.
Proof. vm_compute. reflexivity. Qed.
