(* ===== verification/QueryGraph.v ===== *)
(** * Query graphs

    [crates/milli-core/src/search/new/query_graph.rs], with the subsets of terms of
    [query_term/mod.rs] and [ntypo_subset.rs] and the resolution of
    [resolve_query_graph.rs]: the graph of the ways to read a query, from a start
    node to an end node.  A [SmallBitmap] is the set of its bits ([SmallBitmap]
    says that it behaves so), an [Interned] value is its index. *)

From S2P Require Import Prelude.
Open Scope Z_scope.

(** ** Subsets of the derivations of a term *)

Inductive NTypoTermSubset := All | Subset (words phrases : gset Z) | Nothing.
#[export] Instance NTypoTermSubset_eq_dec : EqDecision NTypoTermSubset.
Proof. solve_decision. Defined.

Definition ntypo_contains_word (s : NTypoTermSubset) (word : Z) : bool :=
  match s with All => true | Subset words _ => bool_decide (word ∈ words) | Nothing => false end.
Definition ntypo_contains_phrase (s : NTypoTermSubset) (phrase : Z) : bool :=
  match s with All => true | Subset _ phrases => bool_decide (phrase ∈ phrases) | Nothing => false end.
Definition ntypo_is_empty (s : NTypoTermSubset) : bool :=
  match s with All => false | Subset words phrases => bm_is_empty words && bm_is_empty phrases | Nothing => true end.
Definition ntypo_union (s other : NTypoTermSubset) : NTypoTermSubset :=
  match s, other with
  | All, _ => All
  | Subset _ _, All => All
  | Subset w p, Subset w2 p2 => Subset (w ∪ w2) (p ∪ p2)
  | Subset w p, Nothing => Subset w p
  | Nothing, _ => other
  end.
Definition ntypo_intersect (s other : NTypoTermSubset) : NTypoTermSubset :=
  match s, other with
  | All, _ => other
  | Subset w p, All => Subset w p
  | Subset w p, Subset w2 p2 => Subset (w ∩ w2) (p ∩ p2)
  | Subset _ _, Nothing => Nothing
  | Nothing, _ => Nothing
  end.

Record QueryTermSubset := mkQueryTermSubset {
  qts_original : Z;
  zero_typo_subset : NTypoTermSubset;
  one_typo_subset : NTypoTermSubset;
  two_typo_subset : NTypoTermSubset;
  qts_mandatory : bool;
}.
#[export] Instance QueryTermSubset_eq_dec : EqDecision QueryTermSubset.
Proof. solve_decision. Defined.

Definition term_subset_empty (for_term : Z) : QueryTermSubset := mkQueryTermSubset for_term Nothing Nothing Nothing false.
Definition term_subset_full (for_term : Z) : QueryTermSubset := mkQueryTermSubset for_term All All All false.
Definition term_subset_union {E} (s other : QueryTermSubset) : outcome E QueryTermSubset :=
  if qts_original s =? qts_original other then
    Ok (mkQueryTermSubset (qts_original s) (ntypo_union (zero_typo_subset s) (zero_typo_subset other))
      (ntypo_union (one_typo_subset s) (one_typo_subset other)) (ntypo_union (two_typo_subset s) (two_typo_subset other)) (qts_mandatory s))
  else Panic.
Definition term_subset_intersect {E} (s other : QueryTermSubset) : outcome E QueryTermSubset :=
  if qts_original s =? qts_original other then
    Ok (mkQueryTermSubset (qts_original s) (ntypo_intersect (zero_typo_subset s) (zero_typo_subset other))
      (ntypo_intersect (one_typo_subset s) (one_typo_subset other)) (ntypo_intersect (two_typo_subset s) (two_typo_subset other)) (qts_mandatory s))
  else Panic.

(** Ranges are their two ends. *)
Record LocatedQueryTermSubset := mkLocatedQueryTermSubset {
  term_subset : QueryTermSubset;
  positions : Z * Z;
  term_ids : Z * Z;
}.
#[export] Instance LocatedQueryTermSubset_eq_dec : EqDecision LocatedQueryTermSubset.
Proof. solve_decision. Defined.

(** What the graphs read of the context of a search: the phrase of a term, the
    words of a phrase, and the documents of a subset of derivations; and the hash
    of a sequence of terms. *)
Class QueryTerms := {
  QueryError : Type;
  term_phrase : Z → option Z;
  phrase_words : Z → list (option Z);
  compute_query_term_subset_docids : option bitmap → QueryTermSubset → outcome QueryError bitmap;
  terms_hash : list LocatedQueryTermSubset → Z;
}.

(** ** Graphs *)

Inductive QueryNodeData := DTerm (t : LocatedQueryTermSubset) | DDeleted | DStart | DEnd.
Record QueryNode := mkQueryNode {
  node_data : QueryNodeData;
  predecessors : bitmap;
  successors : bitmap;
}.
Record QueryGraph := mkQueryGraph {
  root_node : Z;
  end_node : Z;
  nodes : list QueryNode;
}.

(** [Interned::from_raw] of the indexes of a store. *)
Definition indexes {A} (l : list A) : list Z := Z.of_nat <$> seq 0 (length l).
(** [get], and an update through [get_mut]; an index that is not there panics. *)
Definition interner_get {E A} (l : list A) (i : Z) : outcome E A := unwrap (l !! Z.to_nat i).
Definition interner_update {E A} (f : A → A) (l : list A) (i : Z) : outcome E (list A) :=
  x ← interner_get l i; Ok (<[Z.to_nat i := f x]> l).

Definition add_successors (s : bitmap) (n : QueryNode) : QueryNode := mkQueryNode (node_data n) (predecessors n) (successors n ∪ s).
Definition add_predecessors (s : bitmap) (n : QueryNode) : QueryNode := mkQueryNode (node_data n) (predecessors n ∪ s) (successors n).
Definition remove_successor (i : Z) (n : QueryNode) : QueryNode := mkQueryNode (node_data n) (predecessors n) (successors n ∖ {[i]}).
Definition remove_predecessor (i : Z) (n : QueryNode) : QueryNode := mkQueryNode (node_data n) (predecessors n ∖ {[i]}) (successors n).
Definition delete_node (n : QueryNode) : QueryNode := mkQueryNode DDeleted ∅ ∅.

Section operations.
Context {E : Type}.

(** [remove_nodes_keep_edges] and [remove_nodes]. *)
Definition remove_node_keep_edges (nodes : list QueryNode) (node_id : Z) : outcome E (list QueryNode) :=
  node ← interner_get nodes node_id;
  let old_node_pred := predecessors node in
  let old_node_succ := successors node in
  nodes ← for_each (λ nodes pred, interner_update (λ n, add_successors old_node_succ (remove_successor node_id n)) nodes pred) nodes (bm_iter old_node_pred);
  nodes ← for_each (λ nodes succ, interner_update (λ n, add_predecessors old_node_pred (remove_predecessor node_id n)) nodes succ) nodes (bm_iter old_node_succ);
  interner_update delete_node nodes node_id.
Definition remove_nodes_keep_edges (g : QueryGraph) (ids : list Z) : outcome E QueryGraph :=
  nodes ← for_each remove_node_keep_edges (nodes g) ids; Ok (mkQueryGraph (root_node g) (end_node g) nodes).

Definition remove_node (nodes : list QueryNode) (node_id : Z) : outcome E (list QueryNode) :=
  node ← interner_get nodes node_id;
  nodes ← for_each (λ nodes pred, interner_update (remove_successor node_id) nodes pred) nodes (bm_iter (predecessors node));
  nodes ← for_each (λ nodes succ, interner_update (remove_predecessor node_id) nodes succ) nodes (bm_iter (successors node));
  interner_update delete_node nodes node_id.
Definition remove_nodes (nodes : list QueryNode) (ids : list Z) : outcome E (list QueryNode) := for_each remove_node nodes ids.

(** [build_initial_edges]: the successors of a node are those of the terms that
    start first after it. *)
Definition i16_max : Z := 2 ^ 15 - 1.
Definition end_prev_term_id (d : QueryNodeData) : option Z :=
  match d with DTerm t => Some (term_ids t).2 | DStart => Some (-1) | DDeleted | DEnd => None end.
Definition start_next_term_id (d : QueryNodeData) : option Z :=
  match d with DTerm t => Some (term_ids t).1 | DEnd => Some i16_max | DStart | DDeleted => None end.
Fixpoint next_nodes (end_prev : Z) (l : list (Z * QueryNode)) (min : Z) (found : bitmap) : bitmap :=
  match l with
  | [] => found
  | (node_id, node) :: l =>
      match start_next_term_id (node_data node) with
      | None => next_nodes end_prev l min found
      | Some start =>
          if start <=? end_prev then next_nodes end_prev l min found
          else if start <? min then next_nodes end_prev l start {[node_id]}
          else if start =? min then next_nodes end_prev l min (found ∪ {[node_id]})
          else next_nodes end_prev l min found
      end
  end.
Definition build_node_edges (nodes : list QueryNode) (node_id : Z) : outcome E (list QueryNode) :=
  node ← interner_get nodes node_id;
  match end_prev_term_id (node_data node) with
  | None => Ok nodes
  | Some end_prev =>
      let succ := next_nodes end_prev (zip (indexes nodes) nodes) i16_max ∅ in
      nodes ← interner_update (λ n, mkQueryNode (node_data n) (predecessors n) succ) nodes node_id;
      for_each (λ nodes s, interner_update (add_predecessors {[node_id]}) nodes s) nodes (bm_iter succ)
  end.
Definition build_initial_edges (g : QueryGraph) : outcome E QueryGraph :=
  let cleared := (λ n, mkQueryNode (node_data n) ∅ ∅) <$> nodes g in
  nodes ← for_each build_node_edges cleared (indexes cleared);
  Ok (mkQueryGraph (root_node g) (end_node g) nodes).
End operations.

(** ** The order in which terms are dropped *)

Definition u8_max : Z := 2 ^ 8 - 1.
Definition u8_wrap (z : Z) : Z := z mod 2 ^ 8.

(** An inclusive range. *)
Definition range_ids (r : Z * Z) : list Z := seqZ r.1 (r.2 - r.1 + 1).

Section removal.
Context `{QueryTerms}.
Notation M := (outcome QueryError).

(** [QueryTermSubset::original_phrase]. *)
Definition original_phrase (s : QueryTermSubset) : option Z :=
  match term_phrase (qts_original s) with
  | Some p => if ntypo_contains_phrase (zero_typo_subset s) p then Some p else None
  | None => None
  end.

Definition node_terms (g : QueryGraph) : list (Z * LocatedQueryTermSubset) :=
  omap (λ '(i, n), match node_data n with DTerm t => Some (i, t) | _ => None end) (zip (indexes (nodes g)) (nodes g)).

(** The cost of a node is the greatest order of its terms. *)
Fixpoint node_cost (order : Z → M Z) (ids : list Z) (cost : Z) : M Z :=
  match ids with
  | [] => Ok cost
  | id :: ids => c ← order id; node_cost order ids (Z.max cost c)
  end.

(** [removal_order_for_terms_matching_strategy]: a map from the costs to the
    nodes, in the order of the costs; the last group stays when no term is
    mandatory. *)
Definition removal_step (order : Z → M Z) (st : gmap Z bitmap * bool) (node : Z * LocatedQueryTermSubset) : M (gmap Z bitmap * bool) :=
  let '(nodes_to_remove, mandatory) := st in
  let '(node_id, t) := node in
  if bool_decide (is_Some (original_phrase (term_subset t))) || qts_mandatory (term_subset t) then Ok (nodes_to_remove, true)
  else
    cost ← node_cost order (range_ids (term_ids t)) 0;
    Ok (<[cost := default ∅ (nodes_to_remove !! cost) ∪ {[node_id]}]> nodes_to_remove, mandatory).
Definition removal_order_for_terms_matching_strategy (g : QueryGraph) (order : Z → M Z) : M (list bitmap) :=
  '(nodes_to_remove, mandatory) ← for_each (removal_step order) (∅, false) (node_terms g);
  let res : list bitmap := omap (λ cost, (nodes_to_remove : gmap Z bitmap) !! cost) (merge_sort Z.le (map_to_list nodes_to_remove).*1) in
  Ok (if mandatory : bool then res else take (pred (length res)) res).

(** [removal_order_for_terms_matching_strategy_last]. *)
Definition removal_order_last (g : QueryGraph) : M (list bitmap) :=
  let '(first_term_idx, last_term_idx) :=
    foldl (λ '(f, l) '(_, t), (Z.min f (term_ids t).1, Z.max l (term_ids t).2)) (u8_max, 0) (node_terms g) in
  if last_term_idx <=? first_term_idx then Ok []
  else removal_order_for_terms_matching_strategy g (λ term_idx, Ok (u8_wrap (u8_wrap (1 + last_term_idx) - term_idx))).

(** [removal_order_for_terms_matching_strategy_frequency]; a stable sort of terms
    that come by increasing index is a sort by frequency and then by index. *)
Definition more_frequent (x y : Z * Z) : Prop := y.2 < x.2 ∨ (y.2 = x.2 ∧ x.1 ≤ y.1).
#[export] Instance more_frequent_dec : RelDecision more_frequent.
Proof. intros x y. unfold more_frequent. apply _. Defined.
Fixpoint term_weights (l : list (Z * Z)) (weight : Z) (weights : gmap Z Z) : gmap Z Z :=
  match l with
  | [] => weights
  | (idx, frequency) :: l =>
      let weights := <[idx := weight]> weights in
      match l with
      | (_, f) :: _ => term_weights l (if frequency =? f then weight else (weight + 1) mod 2 ^ 16) weights
      | [] => weights
      end
  end.
Definition removal_order_frequency (g : QueryGraph) : M (list bitmap) :=
  term_docids ← for_each (λ term_docids '(_, t),
    docids ← compute_query_term_subset_docids None (term_subset t);
    Ok (foldl (λ m id, <[id := default ∅ (m !! id) ∪ docids]> m) term_docids (range_ids (term_ids t)))) (∅ : gmap Z bitmap) (node_terms g);
  let frequencies := (λ '(idx, docids), (idx, if bm_len docids =? 0 then u64_max else bm_len docids)) <$> map_to_list term_docids in
  let weights := term_weights (merge_sort more_frequent frequencies) 1 ∅ in
  removal_order_for_terms_matching_strategy g (λ term_idx, unwrap (weights !! term_idx)).

(** [words_in_phrases_count]. *)
Definition words_in_phrases_count (g : QueryGraph) : Z :=
  Z.of_nat (sum_list ((λ '(_, t), match original_phrase (term_subset t) with
    | Some p => length (filter (λ w : option Z, is_Some w) (phrase_words p))
    | None => O
    end) <$> node_terms g)).

(** ** The documents of a graph *)

(** [compute_query_graph_docids], with the queue of the nodes to visit; the
    documents of a node are those of a path to it. *)
Record Resolution := mkResolution {
  nodes_resolved : bitmap;
  path_nodes_docids : list bitmap;
  next_nodes_to_visit : list Z;
}.
Definition clear_resolved (g : QueryGraph) (resolved : bitmap) (docids : list bitmap) (prec : Z) : M (list bitmap) :=
  node ← interner_get (nodes g) prec;
  if bool_decide (successors node ⊆ resolved) then interner_update (λ _, ∅) docids prec else Ok docids.
Definition predecessors_docids (r : Resolution) (node : QueryNode) : M bitmap :=
  for_each (λ acc p, docids ← interner_get (path_nodes_docids r) p; Ok (acc ∪ docids)) ∅ (bm_iter (predecessors node)).
Definition resolve_node (g : QueryGraph) (r : Resolution) (queue : list Z) (node_id : Z) (node : QueryNode) (docids : bitmap) : M Resolution :=
  let resolved := nodes_resolved r ∪ {[node_id]} in
  path_docids ← interner_update (λ _, docids) (path_nodes_docids r) node_id;
  let queue := foldl (λ queue succ,
    if bool_decide (succ ∈ queue) || bm_contains resolved succ then queue else queue ++ [succ]) queue (bm_iter (successors node)) in
  path_docids ← for_each (clear_resolved g resolved) path_docids (bm_iter (predecessors node));
  Ok (mkResolution resolved path_docids queue).

(** A round of the loop: the end of the loop, or its next state. *)
Definition resolve_step (g : QueryGraph) (universe : bitmap) (r : Resolution) : M (bitmap + Resolution) :=
  match next_nodes_to_visit r with
  | [] => Panic
  | node_id :: queue =>
      node ← interner_get (nodes g) node_id;
      if negb (bool_decide (predecessors node ⊆ nodes_resolved r)) then
        Ok (inr (mkResolution (nodes_resolved r) (path_nodes_docids r) (queue ++ [node_id])))
      else
        predecessors_docids ← predecessors_docids r node;
        match node_data node with
        | DTerm t =>
            docids ← compute_query_term_subset_docids (Some predecessors_docids) (term_subset t);
            r ← resolve_node g r queue node_id node docids; Ok (inr r)
        | DDeleted => Panic
        | DStart => r ← resolve_node g r queue node_id node universe; Ok (inr r)
        | DEnd => Ok (inl predecessors_docids)
        end
  end.
Fixpoint resolve_loop (fuel : nat) (g : QueryGraph) (universe : bitmap) (r : Resolution) : option (M bitmap) :=
  match fuel with
  | O => None
  | S fuel =>
      match resolve_step g universe r with
      | Ok (inl docids) => Some (Ok docids)
      | Ok (inr r) => resolve_loop fuel g universe r
      | Err e => Some (Err e)
      | Panic => Some Panic
      end
  end.
Definition compute_query_graph_docids (fuel : nat) (g : QueryGraph) (universe : bitmap) : option (M bitmap) :=
  resolve_loop fuel g universe (mkResolution ∅ (replicate (length (nodes g)) ∅) [root_node g]).

(** ** Graphs from paths *)

(** The terms of a path of conditions: a term that starts a condition is merged
    with the one that ended the previous one. *)
Definition process_condition (st : list LocatedQueryTermSubset * option LocatedQueryTermSubset)
    (c : option LocatedQueryTermSubset * LocatedQueryTermSubset) : M (list LocatedQueryTermSubset * option LocatedQueryTermSubset) :=
  let '(processed_path, prev_dest_term) := st in
  let '(start_term, dest_term) := c in
  processed_path ←
    match prev_dest_term, start_term with
    | Some prev, Some start =>
        if bool_decide (term_ids start = term_ids prev) then
          subset ← term_subset_intersect (term_subset start) (term_subset prev);
          Ok (processed_path ++ [mkLocatedQueryTermSubset subset (positions start) (term_ids start)])
        else Ok (processed_path ++ [prev; start])
    | Some prev, None => Ok (processed_path ++ [prev])
    | None, Some start => Ok (processed_path ++ [start])
    | None, None => Ok processed_path
    end;
  Ok (processed_path, Some dest_term).
Definition process_path (path : list (option LocatedQueryTermSubset * LocatedQueryTermSubset)) : M (list LocatedQueryTermSubset) :=
  '(processed_path, prev_dest_term) ← for_each process_condition ([], None) path;
  Ok (match prev_dest_term with Some prev => processed_path ++ [prev] | None => processed_path end).

(** Each term with the hash of the terms from the last one to it. *)
Fixpoint with_suffix_hash (path : list LocatedQueryTermSubset) : list (LocatedQueryTermSubset * Z) :=
  match path with
  | [] => []
  | term :: rest => (term, terms_hash (reverse (term :: rest))) :: with_suffix_hash rest
  end.

(** The node of a term and a hash, pushed when it is new; a store holds less than
    [u16::MAX] values. *)
Record PathsBuilder := mkPathsBuilder {
  pb_node_data : list QueryNodeData;
  pb_ids : list (LocatedQueryTermSubset * Z * Z);
}.
Definition find_id (ids : list (LocatedQueryTermSubset * Z * Z)) (k : LocatedQueryTermSubset * Z) : option Z :=
  snd <$> find (λ e, bool_decide (e.1 = k)) ids.
Definition node_id_of (b : PathsBuilder) (k : LocatedQueryTermSubset * Z) : M (Z * PathsBuilder) :=
  match find_id (pb_ids b) k with
  | Some id => Ok (id, b)
  | None =>
      if Z.of_nat (length (pb_node_data b)) <? 2 ^ 16 - 1 then
        let id := Z.of_nat (length (pb_node_data b)) in
        Ok (id, mkPathsBuilder (pb_node_data b ++ [DTerm k.1]) (pb_ids b ++ [(k, id)]))
      else Panic
  end.
Definition path_with_ids (b : PathsBuilder) (path : list (LocatedQueryTermSubset * Z)) : M (list Z * PathsBuilder) :=
  for_each (λ '(ids, b) k, '(id, b) ← node_id_of b k; Ok (ids ++ [id], b)) ([], b) path.

(** The edges of a path, from the root to the end. *)
Definition connect (nodes : list QueryNode) (a b : Z) : M (list QueryNode) :=
  nodes ← interner_update (add_successors {[b]}) nodes a; interner_update (add_predecessors {[a]}) nodes b.
Definition connect_path (end_node : Z) (nodes : list QueryNode) (path : list Z) : M (list QueryNode) :=
  '(prev, nodes) ← for_each (λ '(prev, nodes) id, nodes ← connect nodes prev id; Ok (id, nodes)) (0, nodes) path;
  connect nodes prev end_node.

Definition build_from_paths (paths : list (list (option LocatedQueryTermSubset * LocatedQueryTermSubset))) : M QueryGraph :=
  paths_with_single_terms ← collect process_path paths;
  '(paths_with_ids, b) ← for_each (λ '(paths, b) path, '(ids, b) ← path_with_ids b path; Ok (paths ++ [ids], b))
    ([], mkPathsBuilder [DStart; DEnd] []) (with_suffix_hash <$> paths_with_single_terms);
  let nodes := (λ d, mkQueryNode d ∅ ∅) <$> pb_node_data b in
  nodes ← for_each (connect_path 1) nodes paths_with_ids;
  Ok (mkQueryGraph 0 1 nodes).
End removal.
