(* ===== verification/RuleGraph.v ===== *)
(** * Graphs of ranking rules

    [crates/milli-core/src/search/new/ranking_rule_graph]: the graph of a ranking
    rule, with the nodes of a query graph and edges that have a cost and a
    condition ([mod.rs], [build.rs]), the documents of the conditions
    ([condition_docids_cache.rs]) and the conditions known to be useless after
    others ([dead_ends_cache.rs]). *)

From S2P Require Import Prelude TaskTypes Score QueryGraph.
Open Scope Z_scope.

(** ** Data *)

Record Edge := mkEdge {
  source_node : Z;
  dest_node : Z;
  edge_cost : Z;
  edge_condition : option Z;
  nodes_to_skip : bitmap;
}.
(** [PartialEq] of an edge ignores the nodes to skip. *)
Definition edge_eqb (e f : Edge) : bool :=
  (source_node e =? source_node f) && (dest_node e =? dest_node f) && (edge_cost e =? edge_cost f) &&
  bool_decide (edge_condition e = edge_condition f).

Record ComputedCondition := mkComputedCondition {
  cc_docids : bitmap;
  cc_universe_len : Z;
  start_term_subset : option LocatedQueryTermSubset;
  end_term_subset : LocatedQueryTermSubset;
}.

(** [RankingRuleGraphTrait]: the conditions of a rule, their documents in a
    universe, and the edges between two terms, whose conditions are put in the
    interner. *)
Class RankingRuleGraphTrait `{Float, QueryTerms} := {
  Condition : Type;
  resolve_condition : Condition → bitmap → outcome QueryError ComputedCondition;
  build_edges : list Condition → option LocatedQueryTermSubset → LocatedQueryTermSubset →
    outcome QueryError (list Condition * list (Z * Z));
  rank_to_score : Rank → ScoreDetails;
}.

(** [ConditionDocIdsCache]. *)
Notation ConditionDocIdsCache := (gmap Z ComputedCondition).

Section rule_graph.
Context `{RankingRuleGraphTrait}.
Notation M := (outcome QueryError).

Record RankingRuleGraph := mkRankingRuleGraph {
  query_graph : QueryGraph;
  edges_store : list (option Edge);
  edges_of_node : list bitmap;
  conditions_interner : list Condition;
}.

(** [remove_edges_with_condition]: the edges are removed from the store and from
    their source, and their sources are returned. *)
Definition remove_edge (condition_to_remove : Z) (st : list (option Edge) * list bitmap * bitmap) (edge_id : Z)
    : M (list (option Edge) * list bitmap * bitmap) :=
  let '(store, of_node, source_nodes) := st in
  edge ← interner_get store edge_id;
  match edge with
  | Some e =>
      if bool_decide (edge_condition e = Some condition_to_remove) then
        of_node ← interner_update (λ edges, edges ∖ {[edge_id]}) of_node (source_node e);
        Ok (<[Z.to_nat edge_id := None]> store, of_node, source_nodes ∪ {[source_node e]})
      else Ok st
  | None => Ok st
  end.
Definition remove_edges_with_condition (g : RankingRuleGraph) (condition_to_remove : Z) : M (bitmap * RankingRuleGraph) :=
  '(store, of_node, source_nodes) ←
    for_each (remove_edge condition_to_remove) (edges_store g, edges_of_node g, ∅) (indexes (edges_store g));
  Ok (source_nodes, mkRankingRuleGraph (query_graph g) store of_node (conditions_interner g)).

(** ** Building the graph *)

(** [DedupInterner::insert] of an edge. *)
Definition insert_edge (e : Edge) (store : list Edge) : M (Z * list Edge) :=
  match list_find (λ f, edge_eqb e f = true) store with
  | Some (i, _) => Ok (Z.of_nat i, store)
  | None => if Z.of_nat (length store) <? 2 ^ 16 - 1 then Ok (Z.of_nat (length store), store ++ [e]) else Panic
  end.

Record Build := mkBuild {
  bu_conditions : list Condition;
  bu_edges : list Edge;
  bu_of_node : bitmap;
}.
Definition add_edge (b : Build) (e : Edge) : M Build :=
  '(id, store) ← insert_edge e (bu_edges b); Ok (mkBuild (bu_conditions b) store (bu_of_node b ∪ {[id]})).

(** The edges from a node to one of its successors: to the end, one without
    condition; to a term, one that ignores it if that has a cost, and those of the
    rule. *)
Definition build_edges_to (g : QueryGraph) (cost_of_ignoring_node : list (option (Z * bitmap))) (source_id : Z) (source : QueryNode)
    (b : Build) (dest_idx : Z) : M Build :=
  src_term ← match node_data source with
    | DTerm t => Ok (Some t) | DStart => Ok None | DDeleted | DEnd => Panic
    end;
  dest ← interner_get (nodes g) dest_idx;
  match node_data dest with
  | DEnd => add_edge b (mkEdge source_id dest_idx 0 None ∅)
  | DDeleted | DStart => Panic
  | DTerm dest_term =>
      ignoring ← interner_get cost_of_ignoring_node dest_idx;
      b ← match ignoring with
        | Some (cost_of_ignoring, forbidden_nodes) =>
            let dest_size := (term_ids dest_term).2 - (term_ids dest_term).1 + 1 in
            add_edge b (mkEdge source_id dest_idx (u32_wrap (cost_of_ignoring * dest_size)) None forbidden_nodes)
        | None => Ok b
        end;
      '(conditions, edges) ← build_edges (bu_conditions b) src_term dest_term;
      for_each (λ b '(cost, condition), add_edge b (mkEdge source_id dest_idx cost (Some condition) ∅))
        (mkBuild conditions (bu_edges b) (bu_of_node b)) edges
  end.
Definition build_edges_of (g : QueryGraph) (cost_of_ignoring_node : list (option (Z * bitmap)))
    (st : list Condition * list Edge * list bitmap) (source_id : Z) : M (list Condition * list Edge * list bitmap) :=
  let '(conditions, edges, of_node) := st in
  source ← interner_get (nodes g) source_id;
  b ← for_each (build_edges_to g cost_of_ignoring_node source_id source) (mkBuild conditions edges ∅) (bm_iter (successors source));
  Ok (bu_conditions b, bu_edges b, of_node ++ [bu_of_node b]).
(** [RankingRuleGraph::build]. *)
Definition build (g : QueryGraph) (cost_of_ignoring_node : list (option (Z * bitmap))) : M RankingRuleGraph :=
  '(conditions, edges, of_node) ← for_each (build_edges_of g cost_of_ignoring_node) ([], [], []) (indexes (nodes g));
  Ok (mkRankingRuleGraph g (Some <$> edges) of_node conditions).

(** ** The documents of the conditions *)

(** Documents that are in the cache for a universe of another size are restricted
    to the universe. *)
Definition get_computed_condition (cache : ConditionDocIdsCache) (condition : Z) (g : RankingRuleGraph) (universe : bitmap)
    : M (ComputedCondition * ConditionDocIdsCache) :=
  match cache !! condition with
  | Some computed =>
      if cc_universe_len computed =? bm_len universe then Ok (computed, cache)
      else
        let computed := mkComputedCondition (cc_docids computed ∩ universe) (bm_len universe) (start_term_subset computed) (end_term_subset computed) in
        Ok (computed, <[condition := computed]> cache)
  | None =>
      c ← interner_get (conditions_interner g) condition;
      computed ← resolve_condition c universe;
      Ok (computed, <[condition := computed]> cache)
  end.
Definition get_subsets_used_by_condition (cache : ConditionDocIdsCache) (condition : Z)
    : M (option LocatedQueryTermSubset * LocatedQueryTermSubset) :=
  c ← unwrap (cache !! condition); Ok (start_term_subset c, end_term_subset c).
End rule_graph.
Arguments RankingRuleGraph {_ _ _}.

(** ** Dead ends *)

(** [DeadEndsCache]: the vectors [conditions] and [next] as one. *)
Inductive DeadEndsCache := mkDeadEndsCache (next : list (Z * DeadEndsCache)) (forbidden : bitmap).
Definition dec_next (d : DeadEndsCache) := let '(mkDeadEndsCache next _) := d in next.
Definition dec_forbidden (d : DeadEndsCache) := let '(mkDeadEndsCache _ forbidden) := d in forbidden.
Definition DeadEndsCache_new : DeadEndsCache := mkDeadEndsCache [] ∅.
Definition forbid_condition (condition : Z) (d : DeadEndsCache) : DeadEndsCache :=
  mkDeadEndsCache (dec_next d) (dec_forbidden d ∪ {[condition]}).
Definition advance (d : DeadEndsCache) (condition : Z) : option DeadEndsCache :=
  snd <$> find (λ e, e.1 =? condition) (dec_next d).

(** The conditions forbidden after any prefix of the conditions, and after all. *)
Fixpoint forbidden_for_prefixes_from (cursor : DeadEndsCache) (prefix : list Z) (forbidden : bitmap) : bitmap :=
  match prefix with
  | [] => forbidden
  | c :: prefix =>
      match advance cursor c with
      | Some next => forbidden_for_prefixes_from next prefix (forbidden ∪ dec_forbidden next)
      | None => forbidden
      end
  end.
Definition forbidden_conditions_for_all_prefixes_up_to (d : DeadEndsCache) (prefix : list Z) : bitmap :=
  forbidden_for_prefixes_from d prefix (dec_forbidden d).
Fixpoint forbidden_conditions_after_prefix (d : DeadEndsCache) (prefix : list Z) : option bitmap :=
  match prefix with
  | [] => Some (dec_forbidden d)
  | c :: prefix => match advance d c with Some next => forbidden_conditions_after_prefix next prefix | None => None end
  end.

(** The first entry of a condition changed. *)
Fixpoint update_entry (f : DeadEndsCache → DeadEndsCache) (condition : Z) (next : list (Z * DeadEndsCache)) : list (Z * DeadEndsCache) :=
  match next with
  | [] => []
  | (c, d) :: next => if c =? condition then (c, f d) :: next else (c, d) :: update_entry f condition next
  end.
Fixpoint forbid_condition_after_prefix (prefix : list Z) (forbidden : Z) (d : DeadEndsCache) : DeadEndsCache :=
  match prefix with
  | [] => mkDeadEndsCache (dec_next d) (dec_forbidden d ∪ {[forbidden]})
  | first_condition :: prefix =>
      match advance d first_condition with
      | Some _ => mkDeadEndsCache (update_entry (forbid_condition_after_prefix prefix forbidden) first_condition (dec_next d)) (dec_forbidden d)
      | None =>
          let rest := forbid_condition_after_prefix prefix forbidden DeadEndsCache_new in
          mkDeadEndsCache (dec_next d ++ [(first_condition, rest)]) (dec_forbidden d)
      end
  end.

(** What is forbidden after a prefix. *)
Definition dead (d : DeadEndsCache) (prefix : list Z) : bitmap := default ∅ (forbidden_conditions_after_prefix d prefix).

Lemma dead_cons d c prefix : dead d (c :: prefix) = match advance d c with Some next => dead next prefix | None => ∅ end.
Proof. unfold dead. cbn. by destruct (advance d c). Qed.

Lemma advance_update f c next F c' : advance (mkDeadEndsCache (update_entry f c next) F) c' =
  if decide (c' = c) then f <$> advance (mkDeadEndsCache next F) c' else advance (mkDeadEndsCache next F) c'.
Proof.
  unfold advance. cbn [dec_next]. induction next as [|[k d] next IH]; [by case_decide|]. cbn [update_entry].
  destruct (Z.eqb_spec k c) as [->|Hk]; cbn [find fst].
  - case_decide as Hc; [subst; by rewrite Z.eqb_refl|]. by rewrite (proj2 (Z.eqb_neq c c')) by congruence.
  - destruct (Z.eqb_spec k c') as [->|Hk']; [by rewrite decide_False by done|]. exact IH.
Qed.

Lemma advance_app next k d F c : advance (mkDeadEndsCache (next ++ [(k, d)]) F) c =
  match advance (mkDeadEndsCache next F) c with Some x => Some x | None => if decide (c = k) then Some d else None end.
Proof.
  unfold advance. cbn [dec_next]. induction next as [|[k' d'] next IH]; cbn [app find fst].
  - destruct (Z.eqb_spec k c) as [->|Hk]; [by rewrite decide_True|by rewrite decide_False by congruence].
  - by destruct (k' =? c).
Qed.

(** Forbidding a condition after a prefix changes what is forbidden there and
    nowhere else. *)
Lemma dead_forbid_after x : ∀ p d q,
  dead (forbid_condition_after_prefix p x d) q = if decide (q = p) then dead d q ∪ {[x]} else dead d q.
Proof.
  induction p as [|c p IH]; intros d q.
  - destruct d as [next F]. cbn. destruct q as [|c q]; [done|]. rewrite decide_False by done. by rewrite !dead_cons.
  - destruct d as [next F]. cbn [forbid_condition_after_prefix dec_next dec_forbidden]. destruct (advance (mkDeadEndsCache next F) c) as [d'|] eqn:Ha.
    + destruct q as [|c' q]; [by rewrite decide_False by done|]. rewrite !dead_cons, advance_update. case_decide as Hc.
      * subst c'. rewrite Ha. cbn. rewrite IH. repeat case_decide; congruence.
      * by rewrite decide_False by congruence.
    + destruct q as [|c' q]; [by rewrite decide_False by done|]. rewrite !dead_cons, advance_app.
      destruct (decide (c' = c)) as [->|Hc].
      * rewrite Ha, IH. assert (Hnew : dead DeadEndsCache_new q = ∅) by (by destruct q). rewrite Hnew. repeat case_decide; congruence.
      * rewrite (decide_False (P := c' :: q = c :: p)) by congruence. by destruct (advance _ c').
Qed.

Lemma dead_forbid x d q : dead (forbid_condition x d) q = if decide (q = []) then dead d q ∪ {[x]} else dead d q.
Proof. change (forbid_condition x d) with (forbid_condition_after_prefix [] x d). rewrite dead_forbid_after. repeat case_decide; done. Qed.

Lemma dead_new q : dead DeadEndsCache_new q = ∅.
Proof. by destruct q. Qed.

(** What is forbidden after the prefixes of conditions. *)
Lemma forbidden_prefixes_spec x : ∀ p d F, x ∈ forbidden_for_prefixes_from d p F →
  x ∈ F ∨ ∃ q, q ≠ [] ∧ q `prefix_of` p ∧ x ∈ dead d q.
Proof.
  induction p as [|c p IH]; intros d F Hx; [by left|]. cbn in Hx. destruct (advance d c) as [next|] eqn:Ha; [|by left].
  destruct (IH next _ Hx) as [[?|Hin]%elem_of_union|(q & Hq & Hp & Hin)]; [by left|right|right].
  - exists [c]. split_and!; [done|by apply prefix_cons, prefix_nil|]. rewrite dead_cons, Ha. exact Hin.
  - exists (c :: q). split_and!; [done|by apply prefix_cons|]. by rewrite dead_cons, Ha.
Qed.

Lemma forbidden_up_to_spec d p x : x ∈ forbidden_conditions_for_all_prefixes_up_to d p → ∃ q, q `prefix_of` p ∧ x ∈ dead d q.
Proof.
  intros [Hin|(q & _ & Hp & Hin)]%forbidden_prefixes_spec; [exists []; split; [apply prefix_nil|done]|by exists q].
Qed.
