(* ===== verification/RulePaths.v ===== *)
(** * Paths of a given cost

    [crates/milli-core/src/search/new/ranking_rule_graph/cheapest_paths.rs], the
    [PathVisitor]: a depth-first search of the paths of a given cost of the graph
    of a ranking rule, which avoids the conditions that the cache of dead ends
    forbids.  The closure that visits a path may change the graph and the cache.

    With a closure that takes from the universe the documents of the path it
    visits and forbids only conditions without documents, the search leaves no
    document of any path of that cost: [visit_paths_exhausts]. *)

From S2P Require Import Prelude TaskTypes Score QueryGraph RuleGraph.
Open Scope Z_scope.

Section visitor.
Context `{RankingRuleGraphTrait}.
Context {Env : Type}.

(** The closure: it stops the search with [true]. *)
Variable visit : Env → list Z → RankingRuleGraph → DeadEndsCache →
  outcome QueryError (bool * Env * RankingRuleGraph * DeadEndsCache).
Variable all_costs_from_node : list (list Z).

(** [None] is the end of the fuel. *)
Notation M := (outcome (option QueryError)).

(** [VisitorState], the graph and the cache of [VisitorContext], and what the
    closure keeps. *)
Record Visitor := mkVisitor {
  remaining_cost : Z;
  v_path : list Z;
  visited_conditions : bitmap;
  visited_nodes : bitmap;
  forbidden_conditions : bitmap;
  v_nodes_to_skip : bitmap;
  v_graph : RankingRuleGraph;
  dead_ends_cache : DeadEndsCache;
  v_env : Env;
}.
Definition set_cost (r : Z) (v : Visitor) : Visitor :=
  mkVisitor r (v_path v) (visited_conditions v) (visited_nodes v) (forbidden_conditions v) (v_nodes_to_skip v) (v_graph v) (dead_ends_cache v) (v_env v).
Definition set_forbidden (f : bitmap) (v : Visitor) : Visitor :=
  mkVisitor (remaining_cost v) (v_path v) (visited_conditions v) (visited_nodes v) f (v_nodes_to_skip v) (v_graph v) (dead_ends_cache v) (v_env v).
Definition set_skip (s : bitmap) (v : Visitor) : Visitor :=
  mkVisitor (remaining_cost v) (v_path v) (visited_conditions v) (visited_nodes v) (forbidden_conditions v) s (v_graph v) (dead_ends_cache v) (v_env v).
Definition set_place (p : list Z) (cs ns : bitmap) (v : Visitor) : Visitor :=
  mkVisitor (remaining_cost v) p cs ns (forbidden_conditions v) (v_nodes_to_skip v) (v_graph v) (dead_ends_cache v) (v_env v).
Definition set_context (g : RankingRuleGraph) (d : DeadEndsCache) (env : Env) (v : Visitor) : Visitor :=
  mkVisitor (remaining_cost v) (v_path v) (visited_conditions v) (visited_nodes v) (forbidden_conditions v) (v_nodes_to_skip v) g d env.

(** [ControlFlow<(), bool>]: [None] is [Break]. *)
Definition Flow := option bool.

(** There is a cost to the end that is the remaining one. *)
Definition reaches_end (dest : Z) (v : Visitor) : M bool :=
  costs ← interner_get all_costs_from_node dest; Ok (existsb (λ next_cost, next_cost =? remaining_cost v) costs).

Section edges.
Variable visit_node : Z → Visitor → M (Flow * Visitor).

Definition visit_no_condition (dest : Z) (edge_new_nodes_to_skip : bitmap) (v : Visitor) : M (Flow * Visitor) :=
  reaches ← reaches_end dest v;
  if negb reaches then Ok (Some false, v)
  else if dest =? end_node (query_graph (v_graph v)) then
    '(stop, env, g, d) ← map_err Some (visit (v_env v) (v_path v) (v_graph v) (dead_ends_cache v));
    Ok (if stop : bool then None else Some true, set_context g d env v)
  else
    let old := v_nodes_to_skip v in
    '(cf, v) ← visit_node dest (set_skip (old ∪ edge_new_nodes_to_skip) v);
    Ok (cf, set_skip old v).

Definition visit_condition (condition dest : Z) (edge_new_nodes_to_skip : bitmap) (v : Visitor) : M (Flow * Visitor) :=
  if dest =? end_node (query_graph (v_graph v)) then Panic
  else if bm_contains (forbidden_conditions v) condition || bm_contains (v_nodes_to_skip v) dest ||
    negb (bm_is_disjoint edge_new_nodes_to_skip (visited_nodes v)) then Ok (Some false, v)
  else
    reaches ← reaches_end dest v;
    if negb reaches then Ok (Some false, v)
    else
      let v := set_place (v_path v ++ [condition]) (visited_conditions v ∪ {[condition]}) (visited_nodes v ∪ {[dest]}) v in
      let old_forb_cond := forbidden_conditions v in
      let v := match forbidden_conditions_after_prefix (dead_ends_cache v) (v_path v) with
        | Some next_forbidden => set_forbidden (old_forb_cond ∪ next_forbidden) v
        | None => v
        end in
      let old_nodes_to_skip := v_nodes_to_skip v in
      '(cf, v) ← visit_node dest (set_skip (old_nodes_to_skip ∪ edge_new_nodes_to_skip) v);
      let v := set_forbidden old_forb_cond (set_skip old_nodes_to_skip v) in
      Ok (cf, set_place (take (pred (length (v_path v))) (v_path v)) (visited_conditions v ∖ {[condition]}) (visited_nodes v ∖ {[dest]}) v).

(** An edge, with its cost taken from the remaining one. *)
Definition visit_edge (e : Edge) (v : Visitor) : M (Flow * Visitor) :=
  let v := set_cost (remaining_cost v - edge_cost e) v in
  '(cf, v) ← match edge_condition e with
    | Some condition => visit_condition condition (dest_node e) (nodes_to_skip e) v
    | None => visit_no_condition (dest_node e) (nodes_to_skip e) v
    end;
  Ok (cf, set_cost (remaining_cost v + edge_cost e) v).

(** The loop on the edges of a node. *)
Fixpoint visit_edges (edges : list Z) (any_valid : bool) (v : Visitor) : M (Flow * Visitor) :=
  match edges with
  | [] => Ok (Some any_valid, v)
  | edge_idx :: edges =>
      edge ← interner_get (edges_store (v_graph v)) edge_idx;
      match edge with
      | None => visit_edges edges any_valid v
      | Some e =>
          if remaining_cost v <? edge_cost e then visit_edges edges any_valid v
          else
            '(cf, v) ← visit_edge e v;
            match cf : Flow with
            | None => Ok (None, v)
            | Some next_any_valid =>
                if next_any_valid then
                  let v := set_forbidden (forbidden_conditions_for_all_prefixes_up_to (dead_ends_cache v) (v_path v)) v in
                  if negb (bm_is_disjoint (visited_conditions v) (forbidden_conditions v)) then Ok (Some true, v)
                  else visit_edges edges true v
                else visit_edges edges any_valid v
            end
      end
  end.
End edges.

(** The graph has no cycle: its number of nodes is enough fuel. *)
Fixpoint visit_node (fuel : nat) (from_node : Z) (v : Visitor) : M (Flow * Visitor) :=
  match fuel with
  | O => Err None
  | S fuel =>
      edges ← interner_get (edges_of_node (v_graph v)) from_node;
      visit_edges (visit_node fuel) (bm_iter edges) false v
  end.

(** [PathVisitor::new] and [visit_paths]. *)
Definition Visitor_new (cost : Z) (g : RankingRuleGraph) (d : DeadEndsCache) (env : Env) : Visitor := mkVisitor cost [] ∅ ∅ ∅ ∅ g d env.
Definition visit_paths (cost : Z) (g : RankingRuleGraph) (d : DeadEndsCache) (env : Env) : M (RankingRuleGraph * DeadEndsCache * Env) :=
  '(_, v) ← visit_node (length (nodes (query_graph g))) (root_node (query_graph g)) (Visitor_new cost g d env);
  Ok (v_graph v, dead_ends_cache v, v_env v).
End visitor.
Arguments Visitor {_ _ _} Env.
Arguments mkVisitor {_ _ _ _}.

(** ** The paths *)

Section routes.
Context `{RankingRuleGraphTrait}.
Variable g0 : RankingRuleGraph.
Notation END := (end_node (query_graph g0)).

(** The edges of a node. *)
Definition is_edge (from : Z) (e : Edge) : Prop :=
  ∃ edges i, edges_of_node g0 !! Z.to_nat from = Some edges ∧ i ∈ edges ∧ edges_store g0 !! Z.to_nat i = Some (Some e).

(** The conditions of the paths from a node to the end, for a cost: a term that
    was to be skipped is not matched, and an edge with a condition does not skip a
    term that was matched. *)
Inductive route : Z → Z → bitmap → bitmap → list Z → Prop :=
  | route_end from r V S e : is_edge from e → edge_condition e = None → dest_node e = END → r = edge_cost e →
      route from r V S []
  | route_skip from r V S e q : is_edge from e → edge_condition e = None → dest_node e ≠ END → edge_cost e ≤ r →
      route (dest_node e) (r - edge_cost e) V (S ∪ nodes_to_skip e) q → route from r V S q
  | route_condition from r V S e c q : is_edge from e → edge_condition e = Some c → edge_cost e ≤ r →
      dest_node e ∉ S → nodes_to_skip e ## V →
      route (dest_node e) (r - edge_cost e) (V ∪ {[dest_node e]}) (S ∪ nodes_to_skip e) q → route from r V S (c :: q).

(** Those that start with an edge. *)
Definition via (e : Edge) (r : Z) (V S : bitmap) (q : list Z) : Prop :=
  edge_cost e ≤ r ∧
  match edge_condition e with
  | None =>
      (dest_node e = END ∧ r = edge_cost e ∧ q = []) ∨
      (dest_node e ≠ END ∧ route (dest_node e) (r - edge_cost e) V (S ∪ nodes_to_skip e) q)
  | Some c =>
      dest_node e ∉ S ∧ nodes_to_skip e ## V ∧
      ∃ q', q = c :: q' ∧ route (dest_node e) (r - edge_cost e) (V ∪ {[dest_node e]}) (S ∪ nodes_to_skip e) q'
  end.

Lemma route_via from r V S q : route from r V S q ↔ ∃ e, is_edge from e ∧ via e r V S q.
Proof.
  split.
  - destruct 1 as [from r V S e He Hc Hd Hr|from r V S e q He Hc Hd Hr Hq|from r V S e c q He Hc Hr HS HV Hq]; exists e; (split; [done|]); unfold via; rewrite Hc.
    + split; [lia|]. left. done.
    + split; [lia|]. by right.
    + split_and!; try done. by exists q.
  - intros (e & He & Hr & Hv). destruct (edge_condition e) as [c|] eqn:Hc.
    + destruct Hv as (HS & HV & q' & -> & Hq). by eapply route_condition.
    + destruct Hv as [(Hd & Hrc & ->)|[Hd Hq]]; [by eapply route_end|by eapply route_skip].
Qed.

(** A query graph whose successors and predecessors agree, and without cycle:
    [rank] decreases along the edges. *)
Record query_ok (q : QueryGraph) (rank : Z → nat) : Prop := {
  qo_succ : ∀ n node s, 0 ≤ n → nodes q !! Z.to_nat n = Some node → s ∈ successors node →
    0 ≤ s ∧ (rank s < rank n)%nat ∧ ∃ node', nodes q !! Z.to_nat s = Some node' ∧ n ∈ predecessors node';
  qo_pred : ∀ n node p, 0 ≤ n → nodes q !! Z.to_nat n = Some node → p ∈ predecessors node →
    0 ≤ p ∧ ∃ node', nodes q !! Z.to_nat p = Some node' ∧ n ∈ successors node';
  qo_end : 0 ≤ end_node q ∧ ∃ node, nodes q !! Z.to_nat (end_node q) = Some node ∧ successors node = ∅ ∧ node_data node = DEnd;
}.

(** A graph of a rule, with edges between a node and its successors. *)
Record graph_ok (rank : Z → nat) : Prop := {
  go_edge : ∀ i e, edges_store g0 !! i = Some (Some e) →
    0 ≤ edge_cost e ∧ 0 ≤ dest_node e ∧ (Z.to_nat (dest_node e) < length (edges_of_node g0))%nat ∧
    (rank (dest_node e) < rank (source_node e))%nat ∧ (is_Some (edge_condition e) → dest_node e ≠ END);
  go_edges : ∀ n edges i, 0 ≤ n → edges_of_node g0 !! Z.to_nat n = Some edges → i ∈ edges →
    0 ≤ i ∧ ∃ e, edges_store g0 !! Z.to_nat i = Some (Some e) ∧ source_node e = n;
  go_query : query_ok (query_graph g0) rank;
  go_succ : ∀ i e, edges_store g0 !! i = Some (Some e) →
    0 ≤ source_node e ∧ ∃ node, nodes (query_graph g0) !! Z.to_nat (source_node e) = Some node ∧ dest_node e ∈ successors node;
  go_nodes : length (edges_of_node g0) = length (nodes (query_graph g0));
  go_root : 0 ≤ root_node (query_graph g0) ∧ (Z.to_nat (root_node (query_graph g0)) < length (edges_of_node g0))%nat;
  go_end : 0 ≤ END ∧ edges_of_node g0 !! Z.to_nat END = Some ∅;
  go_condition : ∀ i e c, edges_store g0 !! i = Some (Some e) → edge_condition e = Some c →
    0 ≤ c ∧ (Z.to_nat c < length (conditions_interner g0))%nat;
  go_rank : ∀ n, (Z.to_nat n < length (edges_of_node g0))%nat → (rank n < length (edges_of_node g0))%nat;
}.
End routes.

(** ** The search exhausts the paths *)

Section exhausts.
Context `{RankingRuleGraphTrait}.
Variables (g0 : RankingRuleGraph) (rank : Z → nat).
Hypothesis Hok : graph_ok g0 rank.
Notation END := (end_node (query_graph g0)).
(** The documents of a condition. *)
Variable sat : Z → Z → Prop.

Definition path_sat (p : list Z) (doc : Z) : Prop := ∀ c, c ∈ p → sat c doc.
Definition no_doc (u : bitmap) (p : list Z) : Prop := ∀ doc, doc ∈ u → ¬ path_sat p doc.

(** The graph without edges whose condition has no document left. *)
Record pruned (g : RankingRuleGraph) (u : bitmap) : Prop := {
  pr_query : query_graph g = query_graph g0;
  pr_conditions : conditions_interner g = conditions_interner g0;
  pr_store : ∀ i e, edges_store g0 !! i = Some (Some e) → edges_store g !! i = Some (Some e) ∨
    (edges_store g !! i = Some None ∧ ∃ c, edge_condition e = Some c ∧ no_doc u [c]);
  pr_only : ∀ i e, edges_store g !! i = Some (Some e) → edges_store g0 !! i = Some (Some e);
  pr_length : length (edges_store g) = length (edges_store g0);
  pr_nodes : length (edges_of_node g) = length (edges_of_node g0);
  pr_edges : ∀ n edges0, edges_of_node g0 !! n = Some edges0 → ∃ edges, edges_of_node g !! n = Some edges ∧
    ∀ i, i ∈ edges ↔ i ∈ edges0 ∧ ∃ e, edges_store g !! Z.to_nat i = Some (Some e);
}.
(** The cache forbids conditions that no document has with the prefix. *)
Definition cache_sound (d : DeadEndsCache) (u : bitmap) : Prop := ∀ p x, x ∈ dead d p → no_doc u (p ++ [x]).

Lemma path_sat_app p q doc : path_sat (p ++ q) doc ↔ path_sat p doc ∧ path_sat q doc.
Proof. unfold path_sat. setoid_rewrite elem_of_app. naive_solver. Qed.
Lemma path_sat_one c doc : path_sat [c] doc ↔ sat c doc.
Proof. unfold path_sat. setoid_rewrite list_elem_of_singleton. naive_solver. Qed.
Lemma path_sat_prefix p q doc : p `prefix_of` q → path_sat q doc → path_sat p doc.
Proof. intros [k ->]. rewrite path_sat_app. tauto. Qed.
Lemma no_doc_mono u u' p : u' ⊆ u → no_doc u p → no_doc u' p.
Proof. intros Hu Hn doc Hd. apply Hn. by apply Hu. Qed.
Lemma no_doc_app u p q : no_doc u p → no_doc u (p ++ q).
Proof. intros Hn doc Hd [Hp _]%path_sat_app. by apply (Hn doc). Qed.
Lemma no_doc_sub u p q : (∀ c, c ∈ p → c ∈ q) → no_doc u p → no_doc u q.
Proof. intros Hs Hn doc Hd Hq. apply (Hn doc Hd). intros c Hc. by apply Hq, Hs. Qed.

Context {Env : Type}.
Variable visit : Env → list Z → RankingRuleGraph → DeadEndsCache → outcome QueryError (bool * Env * RankingRuleGraph * DeadEndsCache).
Variable all_costs : list (list Z).
Variable universe : Env → bitmap.
Variable Inv : Env → RankingRuleGraph → DeadEndsCache → Prop.
(** The conditions of whole paths. *)
Variable Good : list Z → Prop.
Hypothesis Hgraph : ∀ env g d, Inv env g d → pruned g (universe env).
Hypothesis Hcache : ∀ env g d, Inv env g d → cache_sound d (universe env).
Hypothesis Hvisit : ∀ env p g d, Inv env g d → Good p → ∃ stop env' g' d', visit env p g d = Ok (stop, env', g', d') ∧ Inv env' g' d' ∧
  universe env' ⊆ universe env ∧ (∀ doc, doc ∈ universe env → doc ∉ universe env' → path_sat p doc) ∧
  no_doc (universe env') p ∧ (stop = true → universe env' = ∅).
Hypothesis Hcosts : ∀ n, 0 ≤ n → (Z.to_nat n < length (edges_of_node g0))%nat → ∃ costs, all_costs !! Z.to_nat n = Some costs ∧
  (∀ r V S q, route g0 n r V S q → r ∈ costs) ∧ (n = END → ∀ r, r ∈ costs ↔ r = 0).

Notation Visitor := (Visitor Env).
Notation U v := (universe (v_env v)).

(** The state of the search at a node. *)
Record visiting (from : Z) (v : Visitor) : Prop := {
  vi_node : 0 ≤ from ∧ (Z.to_nat from < length (edges_of_node g0))%nat;
  vi_inv : Inv (v_env v) (v_graph v) (dead_ends_cache v);
  vi_forbidden : ∀ x, x ∈ forbidden_conditions v → no_doc (U v) (v_path v ++ [x]);
  vi_conditions : ∀ x, x ∈ visited_conditions v → x ∈ v_path v;
  vi_nodes : ∀ n, n ∈ visited_nodes v → (rank from ≤ rank n)%nat;
  vi_good : ∀ q, route g0 from (remaining_cost v) (visited_nodes v) (v_nodes_to_skip v) q → Good (v_path v ++ q);
}.

(** What the visit of a part of the graph keeps of the state. *)
Record kept (v v' : Visitor) : Prop := {
  ke_cost : remaining_cost v' = remaining_cost v;
  ke_path : v_path v' = v_path v;
  ke_nodes : visited_nodes v' = visited_nodes v;
  ke_skip : v_nodes_to_skip v' = v_nodes_to_skip v;
  ke_inv : Inv (v_env v') (v_graph v') (dead_ends_cache v');
  ke_forbidden : ∀ x, x ∈ forbidden_conditions v' → no_doc (U v') (v_path v ++ [x]);
  ke_conditions : ∀ x, x ∈ visited_conditions v' → x ∈ v_path v;
  ke_universe : U v' ⊆ U v;
  ke_taken : ∀ doc, doc ∈ U v → doc ∉ U v' → ∃ p, Good p ∧ path_sat p doc;
}.

Lemma kept_visiting from v v' : visiting from v → kept v v' → visiting from v'.
Proof.
  intros [V1 V2 V3 V4 V5 V6] [K1 K2 K3 K4 K5 K6 K7 K8 K9]. constructor; rewrite ?K1, ?K2, ?K3, ?K4; done.
Qed.

Lemma kept_refl from v : visiting from v → kept v v.
Proof. intros [V1 V2 V3 V4 V5 V6]. by constructor. Qed.

Lemma kept_trans v1 v2 v3 : kept v1 v2 → kept v2 v3 → kept v1 v3.
Proof.
  intros [K1 K2 K3 K4 K5 K6 K7 K8 K9] [L1 L2 L3 L4 L5 L6 L7 L8 L9]. constructor; try congruence.
  - intros x Hx. rewrite <-K2. by apply L6.
  - intros x Hx. rewrite <-K2. by apply L7.
  - set_solver.
  - intros doc Hd Hn. destruct (decide (doc ∈ U v2)); [by apply L9|by apply K9].
Qed.

(** The visit of a node or an edge, for the paths [q] that follow. *)
Definition exhausted (v : Visitor) (r : outcome (option QueryError) (Flow * Visitor)) (paths : list Z → Prop) : Prop :=
  ∃ cf v', r = Ok (cf, v') ∧ kept v v' ∧ (cf = None → U v' = ∅) ∧ ∀ q, paths q → no_doc (U v') (v_path v ++ q).

Section step.
Variable visit_node : Z → Visitor → outcome (option QueryError) (Flow * Visitor).
Variable from : Z.
Hypothesis IH : ∀ dest v, (rank dest < rank from)%nat → visiting dest v →
  exhausted v (visit_node dest v) (route g0 dest (remaining_cost v) (visited_nodes v) (v_nodes_to_skip v)).

Lemma edge_facts e : 0 ≤ from → is_edge g0 from e → 0 ≤ edge_cost e ∧ (0 ≤ dest_node e ∧ (Z.to_nat (dest_node e) < length (edges_of_node g0))%nat) ∧
  (rank (dest_node e) < rank from)%nat ∧ (is_Some (edge_condition e) → dest_node e ≠ END).
Proof.
  intros Hf (edges & i & Hn & Hi & He). destruct (go_edges _ _ Hok from edges i Hf Hn Hi) as (Hi0 & e' & He' & Hs).
  rewrite He in He'. injection He' as <-. destruct (go_edge _ _ Hok _ _ He) as (V1 & V2 & V3 & V4 & V5). rewrite Hs in V4. done.
Qed.

(** Whether the destination of an edge can reach the end with the remaining cost. *)
Lemma reaches_end_spec dest (v : Visitor) : 0 ≤ dest → (Z.to_nat dest < length (edges_of_node g0))%nat →
  ∃ b, reaches_end all_costs dest v = Ok b ∧ (b = false → ∀ V S q, ¬ route g0 dest (remaining_cost v) V S q) ∧
    (b = true → dest = END → remaining_cost v = 0).
Proof.
  intros Hd0 Hdl. destruct (Hcosts dest Hd0 Hdl) as (costs & Hl & Hr & Hend). unfold reaches_end, interner_get. rewrite Hl. cbn.
  eexists. split; [reflexivity|]. split.
  - intros Hb V S q Hq. apply Hr in Hq. rewrite <-not_true_iff_false, existsb_exists in Hb. apply Hb. exists (remaining_cost v).
    split; [by apply list_elem_of_In|apply Z.eqb_refl].
  - intros Hb ->. apply existsb_exists in Hb as (r & Hin%list_elem_of_In & Heq%Z.eqb_eq). rewrite <-Heq. by apply Hend.
Qed.

Lemma visit_no_condition_spec e (v : Visitor) : visiting from v → is_edge g0 from e → edge_condition e = None → edge_cost e ≤ remaining_cost v →
  exhausted (set_cost (remaining_cost v - edge_cost e) v)
    (visit_no_condition visit all_costs visit_node (dest_node e) (nodes_to_skip e) (set_cost (remaining_cost v - edge_cost e) v))
    (via g0 e (remaining_cost v) (visited_nodes v) (v_nodes_to_skip v)).
Proof.
  intros Hv He Hc Hcost. destruct (edge_facts e (proj1 (vi_node _ _ Hv)) He) as (V0 & [Hd0 Hdl] & Hrank & _).
  set (w := set_cost _ v). assert (Hw : kept w w) by (destruct Hv; by constructor).
  unfold visit_no_condition. destruct (reaches_end_spec (dest_node e) w Hd0 Hdl) as ([] & Hreach & Hno & Hend); rewrite Hreach; cbn [mbind outcome_bind negb].
  2: { exists (Some false), w. split_and!; [done|done|done|]. intros q [_ Hq]. rewrite Hc in Hq. exfalso. destruct Hq as [(Hd & Hr & ->)|[Hd Hq]].
       - destruct (Hcosts END) as (costs & Hl & _ & Hzero); [apply Hok|rewrite <-Hd; done|]. unfold reaches_end, interner_get in Hreach. rewrite Hd, Hl in Hreach.
         cbn [unwrap mbind outcome_bind] in Hreach. injection Hreach as Hex. rewrite <-not_true_iff_false, existsb_exists in Hex. apply Hex. exists 0.
         split; [apply list_elem_of_In; by apply Hzero|]. apply Z.eqb_eq. cbn. lia.
       - by eapply Hno. }
  pose proof (vi_inv _ _ Hv) as Hinv. pose proof (Hgraph _ _ _ Hinv) as Hpr. change (v_graph w) with (v_graph v). rewrite (pr_query _ _ Hpr).
  destruct (Z.eqb_spec (dest_node e) END) as [Hd|Hd].
  - assert (Hgood : Good (v_path v)).
    { rewrite <-(app_nil_r (v_path v)). apply (vi_good _ _ Hv). apply route_via. exists e. split; [done|]. split; [done|]. rewrite Hc. left.
      split_and!; [done| |done]. specialize (Hend eq_refl Hd). cbn in Hend. lia. }
    destruct (Hvisit _ _ _ _ Hinv Hgood) as (stop & env' & g' & d' & Heq & Hinv' & Hsub & Htaken & Hnone & Hstop).
    cbn [w set_cost v_env v_path v_graph dead_ends_cache]. rewrite Heq. cbn [map_err mbind outcome_bind].
    eexists _, _. split; [reflexivity|]. split_and!.
    + constructor; cbn; try done.
      * intros x Hx. eapply no_doc_mono; [exact Hsub|]. by apply (vi_forbidden _ _ Hv).
      * apply (vi_conditions _ _ Hv).
      * intros doc Hdoc Hn. exists (v_path v). split; [done|by apply Htaken].
    + destruct stop; [by intros _; apply Hstop|done].
    + intros q [_ Hq]. rewrite Hc in Hq. destruct Hq as [(_ & _ & ->)|[? _]]; [|done]. cbn. by rewrite app_nil_r.
  - assert (Hvis : visiting (dest_node e) (set_skip (v_nodes_to_skip w ∪ nodes_to_skip e) w)).
    { destruct Hv as [V1 V2 V3 V4 V5 V6]. constructor; cbn; try done.
      - intros n Hn. specialize (V5 n Hn). lia.
      - intros q Hq. apply V6, route_via. exists e. split; [done|]. split; [done|]. rewrite Hc. right. done. }
    destruct (IH _ _ Hrank Hvis) as (cf & v' & Heq & Hk & Hcf & Hq). rewrite Heq. cbn [mbind outcome_bind].
    eexists cf, _. split; [reflexivity|]. split_and!.
    + destruct Hk as [K1 K2 K3 K4 K5 K6 K7 K8 K9]. by constructor.
    + exact Hcf.
    + intros q [_ Hv']. rewrite Hc in Hv'. destruct Hv' as [(? & _)|[_ Hr]]; [done|]. exact (Hq q Hr).
Qed.

Lemma route_nonneg n r V S q : 0 ≤ n → route g0 n r V S q → 0 ≤ r.
Proof.
  intros Hn (e & (edges & i & Hl & Hi & He) & Hr & _)%route_via. destruct (go_edges _ _ Hok n edges i Hn Hl Hi) as (_ & e' & He' & _).
  destruct (go_edge _ _ Hok _ _ He) as (V1 & _). lia.
Qed.

Lemma take_pred_snoc (p : list Z) c : take (pred (length (p ++ [c]))) (p ++ [c]) = p.
Proof. rewrite length_app, Nat.add_1_r. cbn [pred]. by rewrite take_app_length. Qed.

(** Entering the destination of an edge with a condition. *)
Lemma enter_visiting e c (w : Visitor) forb : visiting from (set_cost (remaining_cost w + edge_cost e) w) → is_edge g0 from e → edge_condition e = Some c →
  dest_node e ∉ v_nodes_to_skip w → nodes_to_skip e ## visited_nodes w →
  (∀ x, x ∈ forb → no_doc (U w) ((v_path w ++ [c]) ++ [x])) →
  visiting (dest_node e) (set_skip (v_nodes_to_skip w ∪ nodes_to_skip e) (set_forbidden forb
    (set_place (v_path w ++ [c]) (visited_conditions w ∪ {[c]}) (visited_nodes w ∪ {[dest_node e]}) w))).
Proof.
  intros [V1 V2 V3 V4 V5 V6] He Hc HS HV Hforb. cbn in V2, V3, V4, V5, V6.
  destruct (edge_facts e (proj1 V1) He) as (V0 & Hd & Hrank & _). constructor; cbn; try done.
  - intros x [Hx|Hx%elem_of_singleton]%elem_of_union; apply elem_of_app; [left; by apply V4|right; subst; by left].
  - intros n [Hn|Hn%elem_of_singleton]%elem_of_union; [specialize (V5 n Hn); lia|by subst].
  - intros q Hq. rewrite <-app_assoc. apply V6, route_via. exists e. split; [done|]. unfold via. split; [pose proof (route_nonneg _ _ _ _ _ (proj1 Hd) Hq); lia|].
    rewrite Hc. split_and!; [done|done|]. exists q. split; [done|]. by replace (remaining_cost w + edge_cost e - edge_cost e) with (remaining_cost w) by lia.
Qed.

Lemma visit_condition_spec e c (v : Visitor) : visiting from v → is_edge g0 from e → edge_condition e = Some c → edge_cost e ≤ remaining_cost v →
  exhausted (set_cost (remaining_cost v - edge_cost e) v)
    (visit_condition all_costs visit_node c (dest_node e) (nodes_to_skip e) (set_cost (remaining_cost v - edge_cost e) v))
    (via g0 e (remaining_cost v) (visited_nodes v) (v_nodes_to_skip v)).
Proof.
  intros Hv He Hc Hcost. destruct (edge_facts e (proj1 (vi_node _ _ Hv)) He) as (V0 & [Hd0 Hdl] & Hrank & Hend). specialize (Hend ltac:(by rewrite Hc)).
  set (w := set_cost _ v). assert (Hw : kept w w) by (destruct Hv; by constructor).
  pose proof (Hgraph _ _ _ (vi_inv _ _ Hv)) as Hpr. unfold visit_condition.
  change (v_graph w) with (v_graph v). rewrite (pr_query _ _ Hpr). rewrite (proj2 (Z.eqb_neq _ _) Hend).
  assert (Hskip : (∀ q, via g0 e (remaining_cost v) (visited_nodes v) (v_nodes_to_skip v) q → no_doc (U v) (v_path v ++ q)) →
    exhausted w (Ok (Some false, w)) (via g0 e (remaining_cost v) (visited_nodes v) (v_nodes_to_skip v)))
    by (intros Hq; exists (Some false), w; split_and!; done).
  destruct (_ || negb _) eqn:Hforb.
  { apply Hskip. intros q [_ Hq]. rewrite Hc in Hq. destruct Hq as (HS & HV & q' & -> & _).
    rewrite !orb_true_iff, negb_true_iff in Hforb. unfold bm_contains, bm_is_disjoint, bm_is_empty in Hforb.
    rewrite !bool_decide_eq_true, bool_decide_eq_false in Hforb. destruct Hforb as [[Hf|Hf]|Hf]; [|by destruct HS|set_solver].
    change (c :: q') with ([c] ++ q'). rewrite app_assoc. by apply no_doc_app, (vi_forbidden _ _ Hv). }
  destruct (reaches_end_spec (dest_node e) w Hd0 Hdl) as ([] & Hreach & Hno & _); rewrite Hreach; cbn [mbind outcome_bind negb].
  2: { apply Hskip. intros q [_ Hq]. rewrite Hc in Hq. destruct Hq as (_ & _ & q' & _ & Hq). by apply Hno in Hq. }
  rewrite !orb_false_iff, negb_false_iff in Hforb. unfold bm_contains, bm_is_disjoint, bm_is_empty in Hforb.
  rewrite !bool_decide_eq_false, bool_decide_eq_true in Hforb. destruct Hforb as [[Hforb HS] HV].
  set (v1 := set_place _ _ _ w). pose proof (Hcache _ _ _ (vi_inv _ _ Hv)) as Hsound.
  assert (Hmatch : ∃ forb, match forbidden_conditions_after_prefix (dead_ends_cache v1) (v_path v1) with
      | Some next_forbidden => set_forbidden (forbidden_conditions v1 ∪ next_forbidden) v1
      | None => v1
      end = set_forbidden forb v1 ∧ ∀ x, x ∈ forb → no_doc (U w) ((v_path w ++ [c]) ++ [x])).
  { assert (Hold : ∀ x, x ∈ forbidden_conditions v → no_doc (U w) ((v_path w ++ [c]) ++ [x])).
    { intros x Hx. eapply no_doc_sub; [|apply (vi_forbidden _ _ Hv x Hx)]. cbn. intros y. rewrite !elem_of_app. tauto. }
    destruct (forbidden_conditions_after_prefix (dead_ends_cache v1) (v_path v1)) as [next|] eqn:Hnext.
    - eexists. split; [reflexivity|]. intros x [Hx|Hx]%elem_of_union; [by apply Hold|].
      apply (Hsound (v_path v ++ [c]) x). unfold dead. cbn in Hnext. by rewrite Hnext.
    - exists (forbidden_conditions v1). split; [reflexivity|exact Hold]. }
  destruct Hmatch as (forb & -> & Hforb'). change (v_nodes_to_skip (set_forbidden forb v1)) with (v_nodes_to_skip v).
  assert (Hvis : visiting (dest_node e) (set_skip (v_nodes_to_skip v ∪ nodes_to_skip e) (set_forbidden forb v1))).
  { apply (enter_visiting e c w forb); [|done|done|exact HS|cbn in HV |- *; set_solver|exact Hforb']. destruct Hv as [V1 V2 V3 V4 V5 V6]. constructor; cbn; [exact V1|exact V2|exact V3|exact V4|exact V5|].
    replace (remaining_cost v - edge_cost e + edge_cost e) with (remaining_cost v) by lia. exact V6. }
  destruct (IH _ _ Hrank Hvis) as (cf & v' & Heq & Hk & Hcf & Hq). rewrite Heq. cbn [mbind outcome_bind].
  eexists cf, _. split; [reflexivity|]. destruct Hk as [K1 K2 K3 K4 K5 K6 K7 K8 K9]. split_and!; [constructor|exact Hcf|]; cbn.
  - done.
  - rewrite K2. cbn. apply take_pred_snoc.
  - rewrite K3. cbn. assert (dest_node e ∉ visited_nodes v) by (intros Hin; pose proof (vi_nodes _ _ Hv _ Hin); lia). set_solver.
  - done.
  - done.
  - intros x Hx. eapply no_doc_mono; [exact K8|]. by apply (vi_forbidden _ _ Hv).
  - intros x [Hx Hxc]%elem_of_difference. apply K7 in Hx. cbn in Hx. apply elem_of_app in Hx as [?|?%list_elem_of_singleton]; [done|set_solver].
  - exact K8.
  - exact K9.
  - intros q [_ Hvia]. rewrite Hc in Hvia. destruct Hvia as (_ & _ & q' & -> & Hr). change (c :: q') with ([c] ++ q'). rewrite app_assoc. exact (Hq q' Hr).
Qed.

(** An edge, with its cost taken and given back. *)
Lemma visit_edge_spec e (v : Visitor) : visiting from v → is_edge g0 from e → edge_cost e ≤ remaining_cost v →
  exhausted v (visit_edge visit all_costs visit_node e v) (via g0 e (remaining_cost v) (visited_nodes v) (v_nodes_to_skip v)).
Proof.
  intros Hv He Hcost. unfold visit_edge.
  assert (Hmid : exhausted (set_cost (remaining_cost v - edge_cost e) v)
    (match edge_condition e with
     | Some c => visit_condition all_costs visit_node c (dest_node e) (nodes_to_skip e) (set_cost (remaining_cost v - edge_cost e) v)
     | None => visit_no_condition visit all_costs visit_node (dest_node e) (nodes_to_skip e) (set_cost (remaining_cost v - edge_cost e) v)
     end) (via g0 e (remaining_cost v) (visited_nodes v) (v_nodes_to_skip v)))
    by (destruct (edge_condition e) eqn:Hc; [by apply visit_condition_spec|by apply visit_no_condition_spec]).
  destruct Hmid as (cf & v' & -> & [K1 K2 K3 K4 K5 K6 K7 K8 K9] & Hcf & Hq). cbn [mbind outcome_bind]. eexists cf, _. split; [reflexivity|].
  split_and!; [constructor; try done|exact Hcf|exact Hq]. cbn. rewrite K1. cbn. lia.
Qed.

(** The loop on the edges, the first of which the edges [done] have been. *)
Lemma visit_edges_spec : ∀ edges any_valid v, visiting from v →
  (∀ i, i ∈ edges → 0 ≤ i ∧ ∃ edges0, edges_of_node g0 !! Z.to_nat from = Some edges0 ∧ i ∈ edges0) →
  exhausted v (visit_edges visit all_costs visit_node edges any_valid v)
    (λ q, ∃ i e, i ∈ edges ∧ edges_store g0 !! Z.to_nat i = Some (Some e) ∧ via g0 e (remaining_cost v) (visited_nodes v) (v_nodes_to_skip v) q).
Proof.
  induction edges as [|i edges IHe]; intros any_valid v Hv Hin.
  { exists (Some any_valid), v. split_and!; [done|by eapply kept_refl|done|]. intros q (i & e & Hi%elem_of_nil & _). done. }
  destruct (Hin i ltac:(by left)) as (Hi0 & edges0 & Hedges0 & Hi).
  destruct (go_edges _ _ Hok from edges0 i (proj1 (vi_node _ _ Hv)) Hedges0 Hi) as (_ & e & He & Hsrc).
  assert (Hedge : is_edge g0 from e) by (by exists edges0, i).
  assert (Hin' : ∀ j, j ∈ edges → 0 ≤ j ∧ ∃ edges0, edges_of_node g0 !! Z.to_nat from = Some edges0 ∧ j ∈ edges0) by (intros j Hj; apply Hin; by right).
  (** The first edge is done, and the others are left. *)
  assert (Hnext : ∀ v' any, kept v v' → (∀ q, via g0 e (remaining_cost v) (visited_nodes v) (v_nodes_to_skip v) q → no_doc (U v') (v_path v ++ q)) →
    exhausted v (visit_edges visit all_costs visit_node edges any v')
      (λ q, ∃ j e, j ∈ i :: edges ∧ edges_store g0 !! Z.to_nat j = Some (Some e) ∧ via g0 e (remaining_cost v) (visited_nodes v) (v_nodes_to_skip v) q)).
  { intros v' any Hk Hfirst. destruct (IHe any v' (kept_visiting _ _ _ Hv Hk) Hin') as (cf & v'' & Heq & Hk' & Hcf & Hq).
    exists cf, v''. split_and!; [exact Heq|by eapply kept_trans|exact Hcf|]. intros q (j & e' & [->|Hj]%elem_of_cons & He' & Hvia).
    - rewrite He in He'. injection He' as <-. eapply no_doc_mono; [apply (ke_universe _ _ Hk')|]. by apply Hfirst.
    - destruct Hk. rewrite <-ke_path0. apply Hq. exists j, e'. by rewrite ke_cost0, ke_nodes0, ke_skip0. }
  cbn [visit_edges]. pose proof (Hgraph _ _ _ (vi_inv _ _ Hv)) as Hpr. unfold interner_get.
  destruct (pr_store _ _ Hpr _ _ He) as [Hs|(Hs & c & Hc & Hno)]; rewrite Hs; cbn [unwrap mbind outcome_bind].
  2: { apply Hnext; [by eapply kept_refl|]. intros q [_ Hvia]. rewrite Hc in Hvia. destruct Hvia as (_ & _ & q' & -> & _).
       eapply no_doc_sub; [|exact Hno]. intros y ->%list_elem_of_singleton. apply elem_of_app. right. by left. }
  destruct (Z.ltb_spec (remaining_cost v) (edge_cost e)) as [Hlt|Hge].
  { apply Hnext; [by eapply kept_refl|]. intros q [Hr _]. lia. }
  destruct (visit_edge_spec e v Hv Hedge Hge) as (cf & v' & -> & Hk & Hcf & Hq). cbn [mbind outcome_bind].
  destruct cf as [[]|]; [|by apply Hnext|].
  - set (forb := forbidden_conditions_for_all_prefixes_up_to _ _).
    assert (Hforb : ∀ x, x ∈ forb → no_doc (U v') (v_path v ++ [x])).
    { intros x (p & Hp & Hx)%forbidden_up_to_spec. rewrite (ke_path _ _ Hk) in Hp. destruct Hp as [k Hp].
      eapply no_doc_sub; [|apply (Hcache _ _ _ (ke_inv _ _ Hk) p x Hx)]. intros y. rewrite Hp, !elem_of_app. tauto. }
    assert (Hk' : kept v (set_forbidden forb v')) by (destruct Hk; by constructor).
    destruct (negb _) eqn:Hback; [|by apply Hnext].
    eexists (Some true), _. split; [reflexivity|]. split_and!; [done|done|]. intros q _. apply no_doc_app.
    unfold bm_is_disjoint, bm_is_empty in Hback. rewrite negb_true_iff, bool_decide_eq_false in Hback. cbn in Hback.
    apply set_choose_L in Hback as [x [Hx1 Hx2]%elem_of_intersection]. cbn. eapply no_doc_sub; [|exact (Hforb x Hx2)].
    intros y [?|?%list_elem_of_singleton]%elem_of_app; [done|subst]. by apply (ke_conditions _ _ Hk).
  - eexists None, _. split; [reflexivity|]. split_and!; [done|done|]. intros q _ doc Hdoc. rewrite (Hcf eq_refl) in Hdoc. by apply elem_of_empty in Hdoc.
Qed.
End step.

Lemma visit_node_spec : ∀ fuel from (v : Visitor), (rank from < fuel)%nat → visiting from v →
  exhausted v (visit_node visit all_costs fuel from v) (route g0 from (remaining_cost v) (visited_nodes v) (v_nodes_to_skip v)).
Proof.
  induction fuel as [|fuel IHf]; intros from v Hf Hv; [lia|]. cbn [visit_node].
  pose proof (Hgraph _ _ _ (vi_inv _ _ Hv)) as Hpr. destruct (vi_node _ _ Hv) as [Hf0 Hfl].
  destruct (lookup_lt_is_Some_2 _ _ Hfl) as [edges0 Hedges0]. destruct (pr_edges _ _ Hpr _ _ Hedges0) as (edges & Hedges & Hin).
  unfold interner_get. rewrite Hedges. cbn [unwrap mbind outcome_bind].
  destruct (visit_edges_spec (visit_node visit all_costs fuel) from) with (edges := bm_iter edges) (any_valid := false) (v := v) as (cf & v' & Heq & Hk & Hcf & Hq).
  - intros dest w Hr Hw. apply IHf; [lia|done].
  - done.
  - intros i Hi. rewrite elem_of_bm_iter in Hi. apply Hin in Hi as [Hi _]. split; [by destruct (go_edges _ _ Hok from edges0 i Hf0 Hedges0 Hi)|]. by exists edges0.
  - exists cf, v'. split_and!; [done..|]. intros q (e & (edges' & i & Hl & Hi & He) & Hvia)%route_via.
    rewrite Hedges0 in Hl. injection Hl as <-. destruct (decide (i ∈ edges)) as [Hie|Hie].
    + apply Hq. exists i, e. rewrite elem_of_bm_iter. done.
    + destruct (pr_store _ _ Hpr _ _ He) as [Hs|(_ & c & Hc & Hno)]; [exfalso; apply Hie, Hin; split; [done|by exists e]|].
      destruct Hvia as [_ Hvia]. rewrite Hc in Hvia. destruct Hvia as (_ & _ & q' & -> & _).
      eapply no_doc_mono; [apply (ke_universe _ _ Hk)|]. eapply no_doc_sub; [|exact Hno]. intros y ->%list_elem_of_singleton. apply elem_of_app. right. by left.
Qed.

(** The whole search, from the root. *)
Lemma visit_paths_exhausts cost g d env : Inv env g d →
  (∀ q, route g0 (root_node (query_graph g0)) cost ∅ ∅ q → Good q) →
  ∃ g' d' env', visit_paths visit all_costs cost g d env = Ok (g', d', env') ∧ Inv env' g' d' ∧ universe env' ⊆ universe env ∧
    (∀ doc, doc ∈ universe env → doc ∉ universe env' → ∃ p, Good p ∧ path_sat p doc) ∧
    ∀ q, route g0 (root_node (query_graph g0)) cost ∅ ∅ q → no_doc (universe env') q.
Proof.
  intros Hinv Hgood. pose proof (Hgraph _ _ _ Hinv) as Hpr. destruct (go_root _ _ Hok) as [Hr0 Hrl].
  destruct (visit_node_spec (length (nodes (query_graph g))) (root_node (query_graph g0)) (Visitor_new cost g d env)) as (cf & v' & Heq & Hk & _ & Hq).
  - rewrite (pr_query _ _ Hpr), <-(go_nodes _ _ Hok). by apply (go_rank _ _ Hok).
  - constructor; cbn; try done; set_solver.
  - unfold visit_paths. rewrite (pr_query _ _ Hpr) in Heq |- *. rewrite Heq. cbn [mbind outcome_bind]. destruct Hk.
    eexists _, _, _. split; [reflexivity|]. split_and!; done.
Qed.
End exhausts.
