(* ===== verification/RuleCosts.v ===== *)
(** * Costs of the paths of a ranking rule

    [find_all_costs_to_end], [update_all_costs_before_node] and
    [traverse_breadth_first_backward] of
    [crates/milli-core/src/search/new/ranking_rule_graph/cheapest_paths.rs]: the
    costs of the paths from each node of the graph to its end, computed backward.
    They are exact, and stay exact when they are updated after the edges of one
    node were removed. *)

From S2P Require Import Prelude TaskTypes Score QueryGraph RuleGraph RulePaths.
Open Scope Z_scope.

(** ** The traversal *)

Section traverse.
Context {E : Type}.
Notation M := (outcome (option E)).

(** The predecessors of a node that were not seen go to the back of the queue. *)
Definition enqueue_new (seen : bitmap) (st : list Z * bitmap) (prev_node : Z) : list Z * bitmap :=
  let '(stack, enqueued) := st in
  if negb (bm_contains enqueued prev_node) && negb (bm_contains seen prev_node) then (stack ++ [prev_node], enqueued ∪ {[prev_node]})
  else (stack, enqueued).
Definition enqueue (seen preds : bitmap) (stack : list Z) (enqueued : bitmap) : list Z * bitmap :=
  foldl (enqueue_new seen) (stack, enqueued) (bm_iter preds).

Fixpoint reachable_loop (fuel : nat) (g : QueryGraph) (stack : list Z) (enqueued reachable : bitmap) : M bitmap :=
  match fuel with
  | O => Err None
  | S fuel =>
      match stack with
      | [] => Ok reachable
      | n :: stack =>
          if bm_contains reachable n then reachable_loop fuel g stack enqueued reachable
          else
            let reachable := reachable ∪ {[n]} in
            node ← interner_get (nodes g) n;
            let '(stack, enqueued) := enqueue reachable (predecessors node) stack enqueued in
            reachable_loop fuel g stack enqueued reachable
      end
  end.

Context {A : Type}.
Variable visit : A → Z → M A.

(** A node waits for its successors. *)
Fixpoint backward_loop (fuel : nat) (g : QueryGraph) (stack : list Z) (enqueued unreachable_or_visited : bitmap) (a : A) : M A :=
  match fuel with
  | O => Err None
  | S fuel =>
      match stack with
      | [] => Ok a
      | cur_node :: stack =>
          node ← interner_get (nodes g) cur_node;
          if negb (bool_decide (successors node ⊆ unreachable_or_visited)) then
            backward_loop fuel g (stack ++ [cur_node]) enqueued unreachable_or_visited a
          else
            let unreachable_or_visited := unreachable_or_visited ∪ {[cur_node]} in
            a ← visit a cur_node;
            let '(stack, enqueued) := enqueue unreachable_or_visited (predecessors node) stack enqueued in
            backward_loop fuel g stack enqueued unreachable_or_visited a
      end
  end.

(** Each round of the queue visits a node. *)
Definition traverse_breadth_first_backward (g : QueryGraph) (from : Z) (a : A) : M A :=
  let n := length (nodes g) in
  reachable ← reachable_loop (S n) g [from] {[from]} ∅;
  backward_loop (S (n * n)) g [from] {[from]} (list_to_set (indexes (nodes g)) ∖ reachable) a.
End traverse.

(** ** The costs *)

Section costs.
Context `{RankingRuleGraphTrait}.
Notation M := (outcome (option QueryError)).
Notation Costs := (list (list Z)).

(** [edges_store.get(edge_idx).as_ref().unwrap()]. *)
Definition get_edge (g : RankingRuleGraph) (edge_idx : Z) : M Edge := edge ← interner_get (edges_store g) edge_idx; unwrap edge.

(** A path has fewer than [2^16] edges of a [u32] cost: sums stay under [2^64]. *)
Definition add_edge_costs (g : RankingRuleGraph) (costs : Costs) (self_costs : list Z) (edge_idx : Z) : M (list Z) :=
  e ← get_edge g edge_idx; succ_costs ← interner_get costs (dest_node e); Ok (self_costs ++ ((λ succ_cost, edge_cost e + succ_cost) <$> succ_costs)).
Definition visit_costs (g : RankingRuleGraph) (costs : Costs) (cur_node : Z) : M Costs :=
  if cur_node =? end_node (query_graph g) then interner_update (λ _, [0]) costs (end_node (query_graph g))
  else
    edges ← interner_get (edges_of_node g) cur_node;
    self_costs ← for_each (add_edge_costs g costs) [] (bm_iter edges);
    interner_update (λ _, dedup (merge_sort Z.le self_costs)) costs cur_node.
Definition find_all_costs_to_end (g : RankingRuleGraph) : M Costs :=
  traverse_breadth_first_backward (visit_costs g) (query_graph g) (end_node (query_graph g)) ((λ _, []) <$> nodes (query_graph g)).

(** The costs of a node that no edge gives any more; [None] is the early return
    when none is left. *)
Fixpoint remove_given (cost : Z) (succ_costs : list Z) (costs_to_remove : bitmap) : option bitmap :=
  match succ_costs with
  | [] => Some costs_to_remove
  | c :: succ_costs =>
      let costs_to_remove := costs_to_remove ∖ {[c + cost]} in
      if bm_is_empty costs_to_remove then None else remove_given cost succ_costs costs_to_remove
  end.
Fixpoint lost_costs (g : RankingRuleGraph) (costs : Costs) (edges : list Z) (costs_to_remove : bitmap) : M (option bitmap) :=
  match edges with
  | [] => Ok (Some costs_to_remove)
  | edge_idx :: edges =>
      e ← get_edge g edge_idx;
      succ_costs ← interner_get costs (dest_node e);
      match remove_given (edge_cost e) succ_costs costs_to_remove with
      | None => Ok None
      | Some costs_to_remove => lost_costs g costs edges costs_to_remove
      end
  end.
Definition update_costs (g : RankingRuleGraph) (costs : Costs) (cur_node : Z) : M Costs :=
  self_costs ← interner_get costs cur_node;
  edges ← interner_get (edges_of_node g) cur_node;
  lost ← lost_costs g costs (bm_iter edges) (list_to_set self_costs);
  match lost with
  | None => Ok costs
  | Some costs_to_remove =>
      if bm_is_empty costs_to_remove then Ok costs
      else interner_update (λ _, bm_iter (list_to_set self_costs ∖ costs_to_remove)) costs cur_node
  end.
Definition update_all_costs_before_node (g : RankingRuleGraph) (node_with_removed_outgoing_conditions : Z) (costs : Costs) : M Costs :=
  traverse_breadth_first_backward (update_costs g) (query_graph g) node_with_removed_outgoing_conditions costs.
End costs.

(** ** The traversal visits each node after its successors *)

Lemma enqueue_spec seen preds stack (enqueued : bitmap) stack' enqueued' : NoDup stack → (∀ x, x ∈ stack → x ∈ enqueued) →
  enqueue seen preds stack enqueued = (stack', enqueued') →
  NoDup stack' ∧ (∃ l, stack' = stack ++ l) ∧ (∀ x, x ∈ stack' ↔ x ∈ stack ∨ (x ∈ preds ∧ x ∉ seen ∧ x ∉ enqueued)) ∧
  (∀ x, x ∈ enqueued' ↔ x ∈ enqueued ∨ (x ∈ preds ∧ x ∉ seen)).
Proof.
  unfold enqueue. setoid_rewrite <-(elem_of_bm_iter preds). generalize (bm_iter preds). intros l. revert stack enqueued.
  induction l as [|p l IH]; intros stack enqueued Hn Hs; cbn [foldl].
  - intros [= <- <-]. split_and!; [done|exists []; by rewrite app_nil_r|set_solver|set_solver].
  - unfold enqueue_new at 2. unfold bm_contains. rewrite <-!bool_decide_not. destruct (_ && _) eqn:Hnew.
    + rewrite andb_true_iff, !bool_decide_eq_true in Hnew. destruct Hnew as [He Hseen]. intros Heq. apply IH in Heq as (Q1 & (l' & Q2) & Q3 & Q4).
      * split_and!; [done|exists (p :: l'); by rewrite Q2, <-app_assoc| |]; intros x; rewrite ?Q3, ?Q4, ?elem_of_app, ?elem_of_union, ?list_elem_of_singleton, ?elem_of_singleton, ?elem_of_cons;
          destruct (decide (x = p)) as [->|]; tauto.
      * apply NoDup_app. split_and!; [done| |apply NoDup_singleton]. intros x Hx ->%list_elem_of_singleton. by apply He, Hs.
      * intros x [?|?%list_elem_of_singleton]%elem_of_app; set_solver.
    + rewrite andb_false_iff, !bool_decide_eq_false in Hnew. intros Heq. apply IH in Heq as (Q1 & Q2 & Q3 & Q4); [|done..].
      assert (Hp : p ∈ enqueued ∨ p ∈ seen) by (destruct Hnew as [Hp|Hp]; apply dec_stable in Hp; tauto).
      split_and!; [done|done| |]; intros x; rewrite ?Q3, ?Q4, ?elem_of_cons; destruct (decide (x = p)) as [->|]; tauto.
Qed.

Section traverse_spec.
Variables (q : QueryGraph) (rank : Z → nat) (from : Z).
Hypothesis Hq : query_ok q rank.

Definition valid_node (n : Z) : Prop := 0 ≤ n ∧ (Z.to_nat n < length (nodes q))%nat.
Hypothesis Hfrom : valid_node from.

(** The nodes that come before [from]. *)
Inductive before : Z → Prop :=
  | before_refl : before from
  | before_pred n node p : before n → nodes q !! Z.to_nat n = Some node → p ∈ predecessors node → before p.

Lemma before_valid n : before n → valid_node n.
Proof.
  induction 1 as [|n node p Hn IH Hl Hp]; [done|]. destruct IH as [Hn0 _]. destruct (qo_pred _ _ Hq n node p Hn0 Hl Hp) as (? & node' & Hl' & _).
  split; [done|]. by eapply lookup_lt_Some.
Qed.

Lemma valid_node_lookup n : valid_node n → ∃ node, nodes q !! Z.to_nat n = Some node.
Proof. intros [_ Hl]. by apply lookup_lt_is_Some. Qed.

Lemma elem_of_indexes {A} (l : list A) n : n ∈ indexes l ↔ 0 ≤ n ∧ (Z.to_nat n < length l)%nat.
Proof.
  unfold indexes. rewrite list_elem_of_fmap. setoid_rewrite elem_of_seq. split.
  - intros (i & -> & Hi). lia.
  - intros [? ?]. exists (Z.to_nat n). lia.
Qed.

(** At most as many nodes are in a set as the graph has. *)
Lemma size_valid (s : bitmap) : (∀ n, n ∈ s → valid_node n) → (size s ≤ length (nodes q))%nat.
Proof.
  intros Hs. transitivity (length (indexes (nodes q))); [|unfold indexes; by rewrite length_fmap, length_seq].
  apply submseteq_length, NoDup_submseteq; [apply NoDup_elements|]. intros n Hn%elem_of_elements. apply elem_of_indexes. by apply Hs.
Qed.

Context {E : Type}.
Lemma reachable_loop_spec : ∀ fuel stack (enqueued reachable : bitmap), (length (nodes q) < fuel + size reachable)%nat →
  NoDup stack → (∀ x, x ∈ enqueued ↔ x ∈ stack ∨ x ∈ reachable) → (∀ x, x ∈ stack → x ∉ reachable) → from ∈ enqueued →
  (∀ x, x ∈ enqueued → before x) → (∀ n node p, n ∈ reachable → nodes q !! Z.to_nat n = Some node → p ∈ predecessors node → p ∈ enqueued) →
  ∃ r, reachable_loop (E := E) fuel q stack enqueued reachable = Ok r ∧ ∀ n, n ∈ r ↔ before n.
Proof.
  induction fuel as [|fuel IH]; intros stack enqueued reachable Hfuel Hn Henq Hdisj Hin Hbefore Hclosed.
  { assert (size reachable ≤ length (nodes q))%nat; [|lia]. apply size_valid. intros n Hr. apply before_valid, Hbefore, Henq. by right. }
  cbn [reachable_loop]. destruct stack as [|n stack].
  - exists reachable. split; [done|]. intros n. assert (Heq : ∀ x, x ∈ enqueued ↔ x ∈ reachable) by (intros x; rewrite Henq, elem_of_nil; tauto).
    split; [intros Hr; by apply Hbefore, Heq|]. induction 1 as [|m node p Hm IHm Hl Hp]; [by apply Heq|]. apply Heq. by eapply Hclosed.
  - unfold bm_contains. rewrite bool_decide_false by (apply Hdisj; left). destruct (valid_node_lookup n) as [node Hl]; [apply before_valid, Hbefore, Henq; left; left|].
    unfold interner_get. rewrite Hl. cbn [unwrap mbind outcome_bind]. apply NoDup_cons in Hn as [Hnn Hn].
    destruct (enqueue _ _ stack enqueued) as [stack' enqueued'] eqn:Heq.
    apply enqueue_spec in Heq as (Q1 & _ & Q3 & Q4); [|done|intros x Hx; apply Henq; left; by right].
    apply IH; try done.
    + rewrite size_union by (apply disjoint_singleton_r, Hdisj; left). rewrite size_singleton. lia.
    + intros x. rewrite Q4, Q3, Henq, elem_of_cons, elem_of_union, elem_of_singleton. destruct (decide (x ∈ enqueued)) as [Hx|Hx]; [rewrite Henq, elem_of_cons in Hx; tauto|].
      rewrite Henq, elem_of_cons in Hx. tauto.
    + intros x [Hx|(_ & Hx & _)]%Q3; [|done]. intros [Hr| ->%elem_of_singleton]%elem_of_union; [|done]. apply (Hdisj x); [by right|done].
    + apply Q4. by left.
    + intros x [Hx|[Hx _]]%Q4; [by apply Hbefore|]. eapply before_pred; [|exact Hl|exact Hx]. apply Hbefore, Henq. left; left.
    + intros m mnode p [Hm| ->%elem_of_singleton]%elem_of_union Hml Hp; apply Q4; [left; by eapply Hclosed|].
      rewrite Hml in Hl. injection Hl as ->. destruct (decide (p ∈ reachable ∪ {[n]})) as [Hr|Hr]; [|by right]. left. apply Henq.
      apply elem_of_union in Hr as [Hr| ->%elem_of_singleton]; [by right|left; left].
Qed.

Context {A : Type}.
Variable visit : A → Z → outcome (option E) A.
(** The state when the nodes of a set were visited. *)
Variable P : bitmap → A → Prop.
Variable R : bitmap.
Hypothesis HR : ∀ n, n ∈ R ↔ before n.
Hypothesis Hvisit : ∀ S a n node, S ⊆ R → n ∈ R → n ∉ S → P S a → nodes q !! Z.to_nat n = Some node →
  (∀ s, s ∈ successors node → s ∈ R → s ∈ S) → ∃ a', visit a n = Ok a' ∧ P (S ∪ {[n]}) a'.

Record waiting (stack : list Z) (enqueued S : bitmap) (a : A) : Prop := {
  wa_visited : S ⊆ R;
  wa_state : P S a;
  wa_nodup : NoDup stack;
  wa_enqueued : ∀ x, x ∈ enqueued ↔ x ∈ stack ∨ x ∈ S;
  wa_stack : ∀ x, x ∈ stack → x ∈ R ∧ x ∉ S;
  wa_from : from ∈ enqueued;
  wa_closed : ∀ n node p, n ∈ S → nodes q !! Z.to_nat n = Some node → p ∈ predecessors node → p ∈ enqueued;
}.
Definition ready (S : bitmap) (n : Z) : Prop := ∀ node, nodes q !! Z.to_nat n = Some node → ∀ s, s ∈ successors node → s ∈ R → s ∈ S.
#[local] Instance ready_dec S n : Decision (ready S n).
Proof.
  unfold ready. destruct (nodes q !! Z.to_nat n) as [node|]; [|left; done].
  destruct (decide (set_Forall (λ s, s ∈ R → s ∈ S) (successors node))) as [Hd|Hd]; [left|right].
  - intros node' [= <-]. exact Hd.
  - intros Hr. apply Hd. exact (Hr node eq_refl).
Defined.

(** A node is ready as long as some are left. *)
Lemma some_ready stack enqueued S a : waiting stack enqueued S a → ∀ k m, (rank m < k)%nat → m ∈ R → m ∉ S → ∃ x, x ∈ stack ∧ ready S x.
Proof.
  intros [W1 W2 W3 W4 W5 W6 W7]. induction k as [|k IH]; intros m Hk Hm HS; [lia|].
  destruct (valid_node_lookup m (before_valid m (proj1 (HR m) Hm))) as [node Hl]. destruct (before_valid m (proj1 (HR m) Hm)) as [Hm0 _].
  destruct (decide (ready S m)) as [Hr|Hr].
  - exists m. split; [|done]. apply HR in Hm as Hb. assert (He : m ∈ enqueued); [|apply W4 in He; tauto].
    inversion Hb as [|n nnode p Hn Hnl Hp]; subst; [done|]. destruct (before_valid n Hn) as [Hn0 _].
    destruct (qo_pred _ _ Hq n nnode m Hn0 Hnl Hp) as (_ & node' & Hl' & Hs). rewrite Hl in Hl'. injection Hl' as <-.
    eapply W7; [|exact Hnl|exact Hp]. apply (Hr node Hl n Hs). by apply HR.
  - destruct (decide (set_Forall (λ s, s ∈ R → s ∈ S) (successors node))) as [Hd|Hd].
    + exfalso. apply Hr. intros node' Hl'. rewrite Hl in Hl'. injection Hl' as <-. exact Hd.
    + apply (not_set_Forall_Exists _ _) in Hd as (s & Hs & Hns). destruct (qo_succ _ _ Hq m node s Hm0 Hl Hs) as (_ & Hrank & _).
      apply (IH s); [lia| |]; [destruct (decide (s ∈ R)); [done|]|intros HsS]; exfalso; apply Hns; tauto.
Qed.

Notation n := (length (nodes q)).
Notation unreachable := (list_to_set (indexes (nodes q)) ∖ R).
Lemma ready_subset S x node : S ⊆ R → x ∈ R → nodes q !! Z.to_nat x = Some node → successors node ⊆ unreachable ∪ S ↔ ready S x.
Proof.
  intros HS Hx Hl. destruct (before_valid x (proj1 (HR x) Hx)) as [Hx0 _]. split.
  - intros Hsub node' Hl' s Hs HsR. rewrite Hl in Hl'. injection Hl' as <-. set_solver.
  - intros Hr s Hs. destruct (decide (s ∈ R)) as [HsR|HsR]; [apply elem_of_union_r; by apply (Hr node)|].
    apply elem_of_union_l, elem_of_difference. split; [|done]. apply elem_of_list_to_set, elem_of_indexes.
    destruct (qo_succ _ _ Hq x node s Hx0 Hl Hs) as (? & _ & node' & Hl' & _). split; [done|]. by eapply lookup_lt_Some.
Qed.

(** The visit of a node at the front of the queue. *)
Lemma backward_visit x stack enqueued S a : waiting (x :: stack) enqueued S a → ready S x →
  ∃ a' stack' enqueued', waiting stack' enqueued' (S ∪ {[x]}) a' ∧ (size (R ∖ (S ∪ {[x]})) < size (R ∖ S))%nat ∧
    ∀ fuel, backward_loop visit (Datatypes.S fuel) q (x :: stack) enqueued (unreachable ∪ S) a =
      backward_loop visit fuel q stack' enqueued' (unreachable ∪ (S ∪ {[x]})) a'.
Proof.
  intros [W1 W2 W3 W4 W5 W6 W7] Hready. destruct (W5 x ltac:(by left)) as [HxR HxS].
  destruct (valid_node_lookup x (before_valid x (proj1 (HR x) HxR))) as [node Hl].
  destruct (Hvisit S a x node W1 HxR HxS W2 Hl (Hready node Hl)) as (a' & Ha & HP). apply NoDup_cons in W3 as [Hxs W3].
  destruct (enqueue (unreachable ∪ (S ∪ {[x]})) (predecessors node) stack enqueued) as [stack' enqueued'] eqn:Heq.
  pose proof Heq as Hspec. apply enqueue_spec in Hspec as (Q1 & _ & Q3 & Q4); [|done|intros y Hy; apply W4; left; by right].
  assert (Hpred : ∀ p, p ∈ predecessors node → p ∈ R) by (intros p Hp; apply HR; eapply before_pred; [by apply HR|exact Hl|exact Hp]).
  exists a', stack', enqueued'. split_and!.
  - constructor; try done.
    + intros y [?|?%elem_of_singleton]%elem_of_union; [by apply W1|by subst].
    + intros y. rewrite Q3, Q4. assert (He : y ∈ S ∪ {[x]} → y ∈ enqueued) by (intros [?|?%elem_of_singleton]%elem_of_union; apply W4; [by right|subst; left; left]).
      specialize (Hpred y). assert (He' : y ∈ enqueued → y ∈ stack ∨ y ∈ S ∪ {[x]}) by (rewrite W4, elem_of_cons; set_solver).
      assert (Hs : y ∈ stack → y ∈ enqueued) by (intros ?; apply W4; left; by right). rewrite (not_elem_of_union y unreachable), not_elem_of_difference.
      destruct (decide (y ∈ enqueued)); tauto.
    + intros y [Hy|(Hy & Hns & _)]%Q3; [|set_solver]. destruct (W5 y ltac:(by right)) as [HyR HyS]. split; [done|].
      intros [?|?%elem_of_singleton]%elem_of_union; [done|by subst].
    + apply Q4. by left.
    + intros m mnode p [Hm|Hm%elem_of_singleton]%elem_of_union Hml Hp; apply Q4; [left; by eapply W7|]. subst m.
      rewrite Hml in Hl. injection Hl as ->. destruct (decide (p ∈ S ∪ {[x]})) as [Hr|Hr]; [|right; specialize (Hpred p Hp); set_solver].
      left. apply W4. apply elem_of_union in Hr as [Hr|Hr%elem_of_singleton]; [by right|subst; left; left].
  - apply subset_size. set_solver.
  - intros fuel. cbn [backward_loop]. unfold interner_get. rewrite Hl. cbn [unwrap mbind outcome_bind].
    rewrite bool_decide_true by (by apply (ready_subset S x)). cbn [negb]. rewrite Ha. cbn [mbind outcome_bind]. by rewrite <-(union_assoc_L unreachable), Heq.
Qed.

Lemma backward_loop_spec : ∀ k stack enqueued S a fuel, size (R ∖ S) = k → waiting stack enqueued S a → (k * n < fuel)%nat →
  ∃ a', backward_loop visit fuel q stack enqueued (unreachable ∪ S) a = Ok a' ∧ P R a'.
Proof.
  induction k as [k IH] using lt_wf_ind; intros stack enqueued S a fuel Hk Hw Hfuel. destruct (decide (k = 0%nat)) as [->|Hk0].
  { assert (HS : S = R).
    { apply size_empty_inv in Hk. apply set_eq. intros x. split; [apply (wa_visited _ _ _ _ Hw)|]. intros Hx. destruct (decide (x ∈ S)); set_solver. }
    pose proof (wa_state _ _ _ _ Hw) as HP. destruct fuel as [|fuel]; [lia|]. destruct stack as [|x stack]; [exists a; by rewrite <-HS|].
    destruct (wa_stack _ _ _ _ Hw x ltac:(by left)) as [Hx1 Hx2]. by rewrite HS in Hx2. }
  assert (Hm : ∃ m, m ∈ R ∖ S) by (apply set_choose_L; intros He; rewrite He, size_empty in Hk; lia).
  destruct Hm as [m [HmR HmS]%elem_of_difference]. destruct (some_ready _ _ _ _ Hw _ m (Nat.lt_succ_diag_r _) HmR HmS) as (x & Hx & Hready).
  apply list_elem_of_split in Hx as (l1 & l2 & ->).
  assert (Hlen : (length (l1 ++ x :: l2) ≤ n)%nat).
  { assert (Hsub : l1 ++ x :: l2 ⊆+ indexes (nodes q)); [|apply submseteq_length in Hsub; unfold indexes in Hsub; by rewrite length_fmap, length_seq in Hsub].
    apply NoDup_submseteq; [apply Hw|]. intros y Hy. apply elem_of_indexes, before_valid, HR. by apply (wa_stack _ _ _ _ Hw). }
  assert (Hfuel' : (length l1 + 1 + (k - 1) * n < fuel)%nat) by (destruct k as [|k]; [done|]; rewrite length_app in Hlen; cbn in Hlen, Hfuel |- *; rewrite Nat.sub_0_r; lia). clear Hlen Hfuel m HmR HmS.
  assert (Hvisited : ∀ y stack fuel, waiting (y :: stack) enqueued S a → ready S y → ((k - 1) * n < fuel)%nat →
    ∃ a', backward_loop visit (Datatypes.S fuel) q (y :: stack) enqueued (unreachable ∪ S) a = Ok a' ∧ P R a').
  { intros y stack fuel' Hwy Hy Hf. destruct (backward_visit _ _ _ _ _ Hwy Hy) as (a1 & stack1 & enq1 & Hw1 & Hsize & Heq). rewrite Heq.
    eapply IH; [|reflexivity|exact Hw1|]; [lia|].
    eapply Nat.le_lt_trans; [apply Nat.mul_le_mono_r|exact Hf]. lia. }
  revert l2 fuel Hw Hfuel'. induction l1 as [|y l1 IHl]; intros l2 fuel Hw Hfuel; (destruct fuel as [|fuel]; [by apply Nat.nlt_0_r in Hfuel|]); cbn [app] in *.
  { apply Hvisited; [done|done|]. cbn in Hfuel. lia. }
  destruct (decide (ready S y)) as [Hy|Hy]; [apply Hvisited; [done|done|cbn in Hfuel; lia]|].
  destruct (wa_stack _ _ _ _ Hw y ltac:(by left)) as [HyR HyS]. destruct (valid_node_lookup y (before_valid y (proj1 (HR y) HyR))) as [node Hl].
  cbn [backward_loop]. unfold interner_get. rewrite Hl. cbn [unwrap mbind outcome_bind].
  rewrite bool_decide_false by (by rewrite (ready_subset S y node (wa_visited _ _ _ _ Hw) HyR Hl)). cbn [negb].
  rewrite <-app_assoc. cbn [app]. apply IHl; [|cbn in Hfuel; lia].
  assert (Hp : y :: l1 ++ x :: l2 ≡ₚ l1 ++ x :: l2 ++ [y]) by (by rewrite (app_comm_cons l2 [y] x), app_assoc, <-Permutation_cons_append).
  destruct Hw as [W1 W2 W3 W4 W5 W6 W7]. constructor; try done.
  - by rewrite <-Hp.
  - intros z. by rewrite W4, Hp.
  - intros z. rewrite <-Hp. apply W5.
Qed.
End traverse_spec.

Lemma traverse_backward_spec {E A} (q : QueryGraph) rank from (visit : A → Z → outcome (option E) A) (P : bitmap → A → Prop) a :
  query_ok q rank → valid_node q from → P ∅ a →
  (∀ S a n node, (∀ x, x ∈ S → before q from x) → before q from n → n ∉ S → P S a → nodes q !! Z.to_nat n = Some node →
    (∀ s, s ∈ successors node → before q from s → s ∈ S) → ∃ a', visit a n = Ok a' ∧ P (S ∪ {[n]}) a') →
  ∃ a' R, traverse_breadth_first_backward visit q from a = Ok a' ∧ P R a' ∧ ∀ n, n ∈ R ↔ before q from n.
Proof.
  intros Hq Hfrom HP Hvisit. unfold traverse_breadth_first_backward.
  destruct (reachable_loop_spec q rank from Hq Hfrom (E := E) (S (length (nodes q))) [from] {[from]} ∅) as (R & -> & HR).
  - rewrite size_empty. lia.
  - apply NoDup_singleton.
  - intros x. rewrite elem_of_singleton, list_elem_of_singleton. set_solver.
  - set_solver.
  - set_solver.
  - intros x ->%elem_of_singleton. constructor.
  - set_solver.
  - cbn [mbind outcome_bind]. rewrite <-(union_empty_r_L (list_to_set _ ∖ R)).
    destruct (backward_loop_spec q rank from Hq Hfrom visit P R HR) with (k := size (R ∖ ∅)) (stack := [from]) (enqueued := {[from]} : bitmap) (S := ∅ : bitmap) (a := a)
      (fuel := S (length (nodes q) * length (nodes q))) as (a' & Heq & HP').
    + intros S' a0 n node HS Hn HnS HP0 Hl Hs. apply (Hvisit S' a0 n node); try done.
      * intros x Hx. by apply HR, HS.
      * by apply HR.
      * intros s Hsn Hb. apply Hs; [done|by apply HR].
    + done.
    + constructor; try done.
      * apply NoDup_singleton.
      * intros x. rewrite elem_of_singleton, list_elem_of_singleton. set_solver.
      * intros x ->%list_elem_of_singleton. split; [apply HR; constructor|set_solver].
      * set_solver.
    + assert (size (R ∖ ∅) ≤ length (nodes q))%nat; [|nia]. apply size_valid. intros n Hn. eapply before_valid; [exact Hq|exact Hfrom|]. apply HR. set_solver.
    + by exists a', R.
Qed.

(** ** The costs are exact *)

Section exact.
Context `{RankingRuleGraphTrait}.

(** A chain of edges to the end has a cost. *)
Inductive chain (g : RankingRuleGraph) : Z → Z → Prop :=
  | chain_end : chain g (end_node (query_graph g)) 0
  | chain_edge n e r : is_edge g n e → chain g (dest_node e) r → chain g n (edge_cost e + r).

Notation valid g n := (valid_node (query_graph g) n).
Record edges_ok (g : RankingRuleGraph) (rank : Z → nat) : Prop := {
  eo_query : query_ok (query_graph g) rank;
  eo_edges : ∀ n node, 0 ≤ n → nodes (query_graph g) !! Z.to_nat n = Some node → ∃ edges, edges_of_node g !! Z.to_nat n = Some edges ∧
    ∀ i, i ∈ edges → ∃ e, edges_store g !! Z.to_nat i = Some (Some e) ∧ dest_node e ∈ successors node;
}.

(** The costs of a node are sorted, and those of its chains. *)
Definition exact (g : RankingRuleGraph) (costs : list (list Z)) (n : Z) : Prop :=
  ∃ l, costs !! Z.to_nat n = Some l ∧ StronglySorted Z.le l ∧ ∀ r, r ∈ l ↔ chain g n r.

Variables (g : RankingRuleGraph) (rank : Z → nat).
Hypothesis Hok : edges_ok g rank.
Notation END := (end_node (query_graph g)).

Lemma edge_before from n e : 0 ≤ n → is_edge g n e → valid g n → before (query_graph g) from (dest_node e) → before (query_graph g) from n.
Proof.
  intros Hn0 (edges & i & Hl & Hi & He) Hn Hb. destruct (valid_node_lookup _ _ Hn) as [node Hnode].
  destruct (eo_edges _ _ Hok n node Hn0 Hnode) as (edges' & Hl' & Hedges). rewrite Hl in Hl'. injection Hl' as <-.
  destruct (Hedges i Hi) as (e' & He' & Hd). rewrite He in He'. injection He' as <-.
  destruct (qo_succ _ _ (eo_query _ _ Hok) n node (dest_node e) Hn0 Hnode Hd) as (_ & _ & node' & Hnode' & Hp).
  by eapply before_pred.
Qed.

(** What the edges of a list give. *)
Definition given (costs : list (list Z)) (l : list Z) (x : Z) : Prop :=
  ∃ i e succ c, i ∈ l ∧ edges_store g !! Z.to_nat i = Some (Some e) ∧ costs !! Z.to_nat (dest_node e) = Some succ ∧ c ∈ succ ∧ x = edge_cost e + c.
(** Their edges are there, and their destinations have costs. *)
Definition edges_known (costs : list (list Z)) (l : list Z) : Prop :=
  ∀ i, i ∈ l → ∃ e succ, edges_store g !! Z.to_nat i = Some (Some e) ∧ costs !! Z.to_nat (dest_node e) = Some succ.

Lemma given_cons costs i l x : given costs (i :: l) x ↔ given costs [i] x ∨ given costs l x.
Proof.
  unfold given. split.
  - intros (j & e & succ & c & [->|Hj]%elem_of_cons & ?); [left; exists i, e, succ, c; rewrite list_elem_of_singleton; tauto|right; by exists j, e, succ, c].
  - intros [(j & e & succ & c & ->%list_elem_of_singleton & ?)|(j & e & succ & c & Hj & ?)]; [exists i, e, succ, c|exists j, e, succ, c]; rewrite elem_of_cons; tauto.
Qed.
Lemma given_one costs i e succ x : edges_store g !! Z.to_nat i = Some (Some e) → costs !! Z.to_nat (dest_node e) = Some succ →
  given costs [i] x ↔ ∃ c, c ∈ succ ∧ x = edge_cost e + c.
Proof.
  intros He Hs. split.
  - intros (j & e' & succ' & c & ->%list_elem_of_singleton & He' & Hs' & Hc & ->). rewrite He in He'. injection He' as <-. rewrite Hs in Hs'. injection Hs' as <-. by exists c.
  - intros (c & Hc & ->). exists i, e, succ, c. by rewrite list_elem_of_singleton.
Qed.

Lemma add_edge_costs_spec costs : ∀ l acc, edges_known costs l →
  ∃ l', for_each (add_edge_costs g costs) acc l = Ok l' ∧ ∀ x, x ∈ l' ↔ x ∈ acc ∨ given costs l x.
Proof.
  induction l as [|i l IH]; intros acc Hk.
  - exists acc. split; [done|]. intros x. split; [by left|]. intros [?|(i & e & succ & c & Hi%elem_of_nil & _)]; done.
  - destruct (Hk i ltac:(by left)) as (e & succ & He & Hs). cbn [for_each].
    assert (Hadd : add_edge_costs g costs acc i = Ok (acc ++ ((λ c, edge_cost e + c) <$> succ))).
    { unfold add_edge_costs, get_edge, interner_get. rewrite He. cbn [unwrap mbind outcome_bind]. by rewrite Hs. }
    rewrite Hadd. cbn [mbind outcome_bind]. destruct (IH (acc ++ ((λ c, edge_cost e + c) <$> succ))) as (l' & -> & Hl'); [intros j Hj; apply Hk; by right|].
    exists l'. split; [done|]. intros x. rewrite Hl', (given_cons costs i l), (given_one costs i e succ) by done. rewrite elem_of_app, list_elem_of_fmap.
    assert (Hc : (∃ y, x = edge_cost e + y ∧ y ∈ succ) ↔ ∃ c, c ∈ succ ∧ x = edge_cost e + c) by naive_solver. tauto.
Qed.

Lemma remove_given_spec cost : ∀ succ T, match remove_given cost succ T with
  | None => ∀ x, x ∈ T → ∃ c, c ∈ succ ∧ x = cost + c
  | Some T' => ∀ x, x ∈ T' ↔ x ∈ T ∧ ¬ ∃ c, c ∈ succ ∧ x = cost + c
  end.
Proof.
  induction succ as [|c succ IH]; intros T; cbn [remove_given].
  - intros x. split; [|tauto]. intros ?. split; [done|]. by intros (c & ?%elem_of_nil & _).
  - unfold bm_is_empty. case_bool_decide as Hempty.
    + intros x Hx. exists c. split; [by left|]. destruct (decide (x = c + cost)); [lia|]. assert (x ∈ T ∖ {[c + cost]}) by set_solver. set_solver.
    + specialize (IH (T ∖ {[c + cost]})). destruct (remove_given cost succ _) as [T'|].
      * intros x. rewrite IH, elem_of_difference, elem_of_singleton. setoid_rewrite elem_of_cons. split.
        -- intros [[Hx Hne] Hno]. split; [done|]. intros (c' & [->|Hc'] & ->); [lia|]. apply Hno. by exists c'.
        -- intros [Hx Hno]. split_and!; [done|intros ->; apply Hno; exists c; split; [by left|lia]|]. intros (c' & Hc' & ->). apply Hno. exists c'. tauto.
      * intros x Hx. destruct (decide (x = c + cost)) as [->|Hne]; [exists c; split; [by left|lia]|].
        destruct (IH x) as (c' & Hc' & ->); [set_solver|]. exists c'. split; [by right|done].
Qed.

Lemma lost_costs_spec costs : ∀ l T, edges_known costs l → ∃ o, lost_costs g costs l T = Ok o ∧ match o with
  | None => ∀ x, x ∈ T → given costs l x
  | Some T' => ∀ x, x ∈ T' ↔ x ∈ T ∧ ¬ given costs l x
  end.
Proof.
  induction l as [|i l IH]; intros T Hk.
  - exists (Some T). split; [done|]. intros x. split; [|tauto]. intros ?. split; [done|]. by intros (i & e & succ & c & Hi%elem_of_nil & _).
  - destruct (Hk i ltac:(by left)) as (e & succ & He & Hs). cbn [lost_costs]. unfold get_edge, interner_get. rewrite He. cbn [unwrap mbind outcome_bind].
    rewrite Hs. cbn [unwrap mbind outcome_bind].
    assert (Hgiven : ∀ x, given costs (i :: l) x ↔ (∃ c, c ∈ succ ∧ x = edge_cost e + c) ∨ given costs l x)
      by (intros x; by rewrite (given_cons costs i l), (given_one costs i e succ) by done).
    pose proof (remove_given_spec (edge_cost e) succ T) as Hrem. destruct (remove_given _ succ T) as [T'|].
    + destruct (IH T') as (o & -> & Ho); [intros j Hj; apply Hk; by right|]. exists o. split; [done|]. destruct o as [T''|].
      * intros x. rewrite Ho, Hrem, Hgiven. tauto.
      * intros x Hx. specialize (Ho x). rewrite Hrem in Ho. apply Hgiven. destruct (decide (Exists (λ c, x = edge_cost e + c) succ)) as [Hex|Hex].
        -- left. by apply Exists_exists in Hex.
        -- right. apply Ho. split; [done|]. intros Hc. apply Hex. by apply Exists_exists.
    + exists None. split; [done|]. intros x Hx. apply Hgiven. left. by apply Hrem.
Qed.

(** The edges of a node, when the costs of their destinations are exact. *)
Lemma edges_exact g' costs n node edges : 0 ≤ n → nodes (query_graph g) !! Z.to_nat n = Some node → edges_of_node g !! Z.to_nat n = Some edges →
  (∀ s, s ∈ successors node → exact g' costs s) → edges_known costs (bm_iter edges) ∧
  ∀ i e, i ∈ edges → edges_store g !! Z.to_nat i = Some (Some e) → exact g' costs (dest_node e).
Proof.
  intros Hn Hnode Hl Hs. destruct (eo_edges _ _ Hok n node Hn Hnode) as (edges' & Hl' & Hedges). rewrite Hl in Hl'. injection Hl' as <-. split.
  - intros i Hi%elem_of_bm_iter. destruct (Hedges i Hi) as (e & He & Hd). destruct (Hs _ Hd) as (succ & Hsucc & _). by exists e, succ.
  - intros i e Hi He. destruct (Hedges i Hi) as (e' & He' & Hd). rewrite He in He'. injection He' as <-. by apply Hs.
Qed.
Lemma chain_given costs n edges : n ≠ END → edges_of_node g !! Z.to_nat n = Some edges →
  (∀ i e, i ∈ edges → edges_store g !! Z.to_nat i = Some (Some e) → exact g costs (dest_node e)) →
  ∀ r, chain g n r ↔ given costs (bm_iter edges) r.
Proof.
  intros Hn Hl Hd r. split.
  - intros Hr. inversion Hr as [|n' e r' (edges' & i & Hl' & Hi & He) Hr']; subst; [done|]. rewrite Hl in Hl'. injection Hl' as <-.
    destruct (Hd i e Hi He) as (succ & Hs & _ & Hsucc). exists i, e, succ, r'. rewrite elem_of_bm_iter, Hsucc. done.
  - intros (i & e & succ & c & Hi%elem_of_bm_iter & He & Hs & Hc & ->). destruct (Hd i e Hi He) as (succ' & Hs' & _ & Hsucc).
    rewrite Hs in Hs'. injection Hs' as <-. apply Hsucc in Hc. by apply chain_edge; [exists edges, i|].
Qed.

Lemma end_valid : valid g END.
Proof. destruct (qo_end _ _ (eo_query _ _ Hok)) as (? & node & Hl & _). split; [done|by eapply lookup_lt_Some]. Qed.

Lemma valid_same n m : valid g n → valid g m → Z.to_nat n = Z.to_nat m → n = m.
Proof. intros [? _] [? _]. lia. Qed.

(** The end has one chain. *)
Lemma chain_of_end r : chain g END r ↔ r = 0.
Proof.
  split; [|intros ->; constructor]. intros Hr. inversion Hr as [|n' e r' (edges & i & Hl & Hi & He) Hr']; subst; [done|].
  destruct (qo_end _ _ (eo_query _ _ Hok)) as (H0' & node & Hnode & Hs & _). destruct (eo_edges _ _ Hok END node H0' Hnode) as (edges' & Hl' & Hedges).
  rewrite Hl in Hl'. injection Hl' as <-. destruct (Hedges i Hi) as (e' & _ & Hd). rewrite Hs in Hd. set_solver.
Qed.

Lemma chain_before n r : valid g n → chain g n r → before (query_graph g) END n.
Proof.
  intros Hn. induction 1 as [|n e r He Hr IH]; [constructor|]. eapply edge_before; [apply Hn|exact He|done|]. apply IH.
  destruct He as (edges & i & Hl & Hi & He). destruct (valid_node_lookup _ _ Hn) as [node Hnode].
  destruct (eo_edges _ _ Hok n node (proj1 Hn) Hnode) as (edges' & Hl' & Hedges). rewrite Hl in Hl'. injection Hl' as <-.
  destruct (Hedges i Hi) as (e' & He' & Hd). rewrite He in He'. injection He' as <-.
  destruct (qo_succ _ _ (eo_query _ _ Hok) n node (dest_node e) (proj1 Hn) Hnode Hd) as (? & _ & node' & Hnode' & _). split; [done|]. by eapply lookup_lt_Some.
Qed.

(** The costs of a node, once those of its successors are exact. *)
Lemma exact_insert costs n l : valid g n → length costs = length (nodes (query_graph g)) → StronglySorted Z.le l → (∀ r, r ∈ l ↔ chain g n r) →
  exact g (<[Z.to_nat n := l]> costs) n.
Proof. intros [_ Hn] Hlen Hs Hl. exists l. split; [|done]. apply list_lookup_insert_eq. by rewrite Hlen. Qed.
Lemma exact_other costs n m l : valid g n → valid g m → n ≠ m → exact g costs m ↔ exact g (<[Z.to_nat n := l]> costs) m.
Proof. intros Hn Hm Hne. unfold exact. rewrite list_lookup_insert_ne; [done|]. intros Heq. by apply Hne, valid_same. Qed.

Lemma succ_valid n node s : 0 ≤ n → nodes (query_graph g) !! Z.to_nat n = Some node → s ∈ successors node → valid g s ∧ s ≠ n.
Proof.
  intros Hn Hl Hs. destruct (qo_succ _ _ (eo_query _ _ Hok) n node s Hn Hl Hs) as (? & Hr & node' & Hl' & _).
  split; [split; [done|by eapply lookup_lt_Some]|]. intros ->. lia.
Qed.

Lemma find_all_costs_exact : ∃ costs, find_all_costs_to_end g = Ok costs ∧ length costs = length (nodes (query_graph g)) ∧ ∀ n, valid g n → exact g costs n.
Proof.
  destruct (traverse_backward_spec (query_graph g) rank END (visit_costs g)
    (λ S costs, length costs = length (nodes (query_graph g)) ∧ (∀ n, n ∈ S → exact g costs n) ∧
       ∀ n, valid g n → n ∉ S → costs !! Z.to_nat n = Some []) ((λ _, []) <$> nodes (query_graph g))) as (costs & R & Heq & (Hlen & HR & Hrest) & Hb).
  - apply Hok.
  - exact end_valid.
  - split_and!; [by rewrite length_fmap|set_solver|]. intros n Hn _. destruct (valid_node_lookup _ _ Hn) as [node Hl]. by rewrite list_lookup_fmap, Hl.
  - intros S costs n node HS Hbefore HnS (Hlen & Hexact & Hrest) Hl Hsucc. pose proof (before_valid _ _ _ (eo_query _ _ Hok) end_valid n Hbefore) as Hn.
    assert (Hset : ∃ l, visit_costs g costs n = Ok (<[Z.to_nat n := l]> costs) ∧ StronglySorted Z.le l ∧ ∀ r, r ∈ l ↔ chain g n r).
    { unfold visit_costs. destruct (Z.eqb_spec n END) as [->|Hne].
      - exists [0]. unfold interner_update, interner_get. rewrite (Hrest END Hn HnS).
        split_and!; [done|by repeat constructor|]. intros r. by rewrite list_elem_of_singleton, chain_of_end.
      - destruct (eo_edges _ _ Hok n node (proj1 Hn) Hl) as (edges & Hedges & _).
        destruct (edges_exact g costs n node edges (proj1 Hn) Hl Hedges) as [Hknown Hd].
        { intros s Hs. destruct (succ_valid n node s (proj1 Hn) Hl Hs) as [Hsv _]. destruct (decide (s ∈ S)) as [HsS|HsS]; [by apply Hexact|].
          exists []. split_and!; [by apply Hrest|constructor|]. intros r. split; [by intros ?%elem_of_nil|]. intros Hr. exfalso.
          apply HsS, (Hsucc s Hs). by eapply chain_before. }
        pose proof (chain_given costs n edges Hne Hedges Hd) as Hchain. destruct (add_edge_costs_spec costs _ [] Hknown) as (l & Hl1 & Hl2).
        exists (dedup (merge_sort Z.le l)). unfold interner_get. rewrite Hedges. cbn [unwrap mbind outcome_bind]. rewrite Hl1. cbn [mbind outcome_bind].
        unfold interner_update, interner_get. rewrite (Hrest n Hn HnS). split_and!; [done|apply dedup_sorted, StronglySorted_merge_sort; apply _|].
        intros r. rewrite dedup_elem, merge_sort_Permutation, Hl2, elem_of_nil, Hchain. tauto. }
    destruct Hset as (l & Hvisit & Hs & Hl'). exists (<[Z.to_nat n := l]> costs). split; [exact Hvisit|]. split_and!; [by rewrite length_insert| |].
    + intros m [Hm|Hm%elem_of_singleton]%elem_of_union; [|subst; by apply exact_insert]. apply exact_other; [done| | |by apply Hexact].
      * apply (before_valid _ _ _ (eo_query _ _ Hok) end_valid m). by apply HS.
      * by intros ->.
    + intros m Hm Hnm. rewrite list_lookup_insert_ne; [apply Hrest; set_solver|]. intros He. apply Hnm. rewrite (valid_same n m) by done. set_solver.
  - exists costs. split_and!; [done|done|]. intros n Hn. destruct (decide (n ∈ R)) as [HnR|HnR]; [by apply HR|].
    exists []. split_and!; [by apply Hrest|constructor|]. intros r. split; [by intros ?%elem_of_nil|]. intros Hr. exfalso. apply HnR, Hb. by eapply chain_before.
Qed.

(** ** The update keeps the costs exact *)

(** A graph whose edges left [from] only. *)
Variables (g0 : RankingRuleGraph) (from : Z).
Hypothesis Hq0 : query_graph g0 = query_graph g.
Hypothesis Hfrom : valid g from.
Hypothesis Hsub : ∀ n e, is_edge g n e → is_edge g0 n e.
Hypothesis Hsame : ∀ n e, 0 ≤ n → n ≠ from → is_edge g0 n e → is_edge g n e.

Lemma chain_sub n r : chain g n r → chain g0 n r.
Proof. induction 1 as [|n e r He Hr IH]; [rewrite <-Hq0; constructor|]. apply chain_edge; [by apply Hsub|done]. Qed.

Lemma chain_elsewhere n r : valid g n → ¬ before (query_graph g) from n → chain g0 n r → chain g n r.
Proof.
  intros Hn Hb Hr. induction Hr as [|n e r He Hr IH]; [rewrite Hq0; constructor|].
  assert (Hne : n ≠ from) by (intros ->; apply Hb; constructor). apply (Hsame n e (proj1 Hn) Hne) in He. apply chain_edge; [done|].
  apply IH; [|intros Hbd; apply Hb; by eapply edge_before; [apply Hn|exact He|done|]].
  destruct He as (edges & i & Hl & Hi & He). destruct (valid_node_lookup _ _ Hn) as [node Hnode].
  destruct (eo_edges _ _ Hok n node (proj1 Hn) Hnode) as (edges' & Hl' & Hedges). rewrite Hl in Hl'. injection Hl' as <-.
  destruct (Hedges i Hi) as (e' & He' & Hd). rewrite He in He'. injection He' as <-.
  by destruct (succ_valid n node (dest_node e) (proj1 Hn) Hnode Hd).
Qed.

(** No node before [from] is the end. *)
Lemma before_not_end n : (∃ node s, nodes (query_graph g) !! Z.to_nat from = Some node ∧ s ∈ successors node) →
  before (query_graph g) from n → n ≠ END.
Proof.
  intros (node & s & Hnode & Hd) Hb ->. destruct (qo_end _ _ (eo_query _ _ Hok)) as (Hend & enode & Hl & Hs & _).
  inversion Hb as [Heq|m mnode p Hm Hml Hp]; subst; [rewrite Hnode in Hl; injection Hl as ->; rewrite Hs in Hd; set_solver|].
  pose proof (before_valid _ _ _ (eo_query _ _ Hok) Hfrom m Hm) as [Hm0 _].
  destruct (qo_pred _ _ (eo_query _ _ Hok) m mnode END Hm0 Hml Hp) as (_ & node' & Hl' & Hs'). rewrite Hl in Hl'. injection Hl' as <-. rewrite Hs in Hs'. set_solver.
Qed.

Lemma update_costs_exact costs : (∃ node s, nodes (query_graph g) !! Z.to_nat from = Some node ∧ s ∈ successors node) →
  length costs = length (nodes (query_graph g)) → (∀ n, valid g n → exact g0 costs n) →
  ∃ costs', update_all_costs_before_node g from costs = Ok costs' ∧ length costs' = length (nodes (query_graph g)) ∧ ∀ n, valid g n → exact g costs' n.
Proof.
  intros Hedge Hlen0 Hold. destruct (traverse_backward_spec (query_graph g) rank from (update_costs g)
    (λ S costs, length costs = length (nodes (query_graph g)) ∧ (∀ n, n ∈ S → exact g costs n) ∧ ∀ n, valid g n → n ∉ S → exact g0 costs n) costs)
    as (costs' & R & Heq & (Hlen & HR & Hrest) & Hb).
  - apply Hok.
  - done.
  - split_and!; [done|set_solver|]. intros n Hn _. by apply Hold.
  - intros S c n node HS Hbefore HnS (Hlen & Hexact & Hrest) Hl Hsucc. pose proof (before_valid _ _ _ (eo_query _ _ Hok) Hfrom n Hbefore) as Hn.
    destruct (Hrest n Hn HnS) as (self & Hself & Hsort & Hin). destruct (eo_edges _ _ Hok n node (proj1 Hn) Hl) as (edges & Hedges & _).
    assert (Helse : ∀ m, valid g m → ¬ before (query_graph g) from m → exact g0 c m → exact g c m).
    { intros m Hm Hnb (l & Hl' & Hs' & Hr'). exists l. split_and!; [done|done|]. intros r. rewrite Hr'. split; [by apply chain_elsewhere|by apply chain_sub]. }
    destruct (edges_exact g c n node edges (proj1 Hn) Hl Hedges) as [Hknown Hd].
    { intros s Hs. destruct (succ_valid n node s (proj1 Hn) Hl Hs) as [Hsv _]. destruct (decide (s ∈ S)) as [HsS|HsS]; [by apply Hexact|].
      apply Helse; [done| |by apply Hrest]. intros Hbs. by apply HsS, Hsucc. }
    pose proof (chain_given c n edges (before_not_end n Hedge Hbefore) Hedges Hd) as Hchain.
    destruct (lost_costs_spec c (bm_iter edges) (list_to_set self) Hknown) as (o & Hlost & Ho).
    assert (Hset : ∃ l, update_costs g c n = Ok (<[Z.to_nat n := l]> c) ∧ StronglySorted Z.le l ∧ ∀ r, r ∈ l ↔ chain g n r).
    { unfold update_costs, interner_get. rewrite Hself. cbn [unwrap mbind outcome_bind]. rewrite Hedges. cbn [unwrap mbind outcome_bind]. rewrite Hlost. cbn [mbind outcome_bind].
      destruct (add_edge_costs_spec c _ [] Hknown) as (L & _ & HL). assert (HL' : ∀ r, chain g n r ↔ r ∈ L) by (intros r; rewrite HL, Hchain, elem_of_nil; tauto).
      assert (Hgiven : ∀ r, given c (bm_iter edges) r ↔ r ∈ L) by (intros r; by rewrite <-Hchain).
      assert (Hself' : (∀ r, r ∈ self → r ∈ L) → ∀ r, r ∈ self ↔ chain g n r).
      { intros Hr r. rewrite HL'. split; [apply Hr|]. rewrite <-HL', Hin. apply chain_sub. }
      destruct o as [T|]; [unfold bm_is_empty; case_bool_decide as HT|].
      - exists self. rewrite list_insert_id by done. split_and!; [done|done|]. apply Hself'. intros r Hr.
        destruct (decide (r ∈ L)) as [|Hno]; [done|]. assert (r ∈ T) by (apply Ho; rewrite elem_of_list_to_set, Hgiven; done). set_solver.
      - exists (bm_iter (list_to_set self ∖ T)). unfold interner_update, interner_get. rewrite Hself. split_and!; [done|apply StronglySorted_bm_iter|].
        intros r. rewrite elem_of_bm_iter, elem_of_difference, elem_of_list_to_set, Ho, elem_of_list_to_set, Hgiven, HL'. pose proof (chain_sub n r) as Hsub'.
        rewrite HL', <-Hin in Hsub'. destruct (decide (r ∈ L)); tauto.
      - exists self. rewrite list_insert_id by done. split_and!; [done|done|]. apply Hself'. intros r Hr. apply Hgiven, Ho. by apply elem_of_list_to_set. }
    destruct Hset as (l & Hvisit & Hs & Hl'). exists (<[Z.to_nat n := l]> c). split; [exact Hvisit|]. split_and!; [by rewrite length_insert| |].
    + intros m [Hm|Hm%elem_of_singleton]%elem_of_union; [|subst; by apply exact_insert]. apply exact_other; [done| | |by apply Hexact].
      * apply (before_valid _ _ _ (eo_query _ _ Hok) Hfrom m). by apply HS.
      * by intros ->.
    + intros m Hm Hnm. destruct (Hrest m Hm ltac:(set_solver)) as (lm & Hlm & Hrm). exists lm. split; [|done]. rewrite list_lookup_insert_ne; [done|].
      intros He. apply Hnm. rewrite (valid_same n m) by done. set_solver.
  - exists costs'. split_and!; [done|done|]. intros n Hn. destruct (decide (n ∈ R)) as [HnR|HnR]; [by apply HR|].
    destruct (Hrest n Hn HnR) as (l & Hl & Hs & Hr). exists l. split_and!; [done|done|]. intros r. rewrite Hr. split; [|apply chain_sub].
    apply chain_elsewhere; [done|]. by rewrite <-Hb.
Qed.
End exact.
