(* ===== verification/QueryGraphSpec.v ===== *)
(** * The documents of a query graph

    [compute_query_graph_docids] of [QueryGraph]: the traversal visits a node once
    all its predecessors are resolved, forgets the documents that no node needs any
    more, and ends with the documents of the paths from the start to the end. *)

From S2P Require Import Prelude TaskTypes Score QueryGraph RuleGraph RulePaths RuleCosts.
Open Scope Z_scope.

Section resolution.
Context `{QueryTerms}.
Variables (g : QueryGraph) (rank : Z → nat) (universe : bitmap) (tsat : QueryTermSubset → Z → Prop).
Hypothesis Hg : query_ok g rank.
(** The documents of a subset of derivations are restricted to a universe. *)
Definition resolves_terms : Prop := ∀ u t, ∃ b, compute_query_term_subset_docids (Some u) t = Ok b ∧ ∀ doc, doc ∈ b ↔ doc ∈ u ∧ tsat t doc.
Hypothesis Hterms : resolves_terms.

(** The nodes after the start. *)
Inductive after : Z → Prop :=
  | after_root : after (root_node g)
  | after_succ n node s : after n → nodes g !! Z.to_nat n = Some node → s ∈ successors node → after s.

(** The graph of a query: every node leads from the start, which is the only one
    without predecessor, and the terms are between the start and the end. *)
Record connected : Prop := {
  co_pred : ∀ n node p, after n → nodes g !! Z.to_nat n = Some node → p ∈ predecessors node → after p;
  co_root : ∃ node, nodes g !! Z.to_nat (root_node g) = Some node ∧ 0 ≤ root_node g ∧ predecessors node = ∅ ∧ node_data node = DStart;
  co_term : ∀ n node, after n → n ≠ root_node g → n ≠ end_node g → nodes g !! Z.to_nat n = Some node → ∃ t, node_data node = DTerm t;
  co_end : after (end_node g);
  co_rank : ∀ n, valid_node g n → (rank n < length (nodes g))%nat;
}.
Hypothesis Hc : connected.

Definition node_sat (node : QueryNode) (doc : Z) : Prop := match node_data node with DTerm t => tsat (term_subset t) doc | _ => True end.
(** A document satisfies the terms of a path from the start to a node. *)
Inductive walk (doc : Z) : Z → Prop :=
  | walk_root : doc ∈ universe → walk doc (root_node g)
  | walk_step p n node : walk doc p → nodes g !! Z.to_nat n = Some node → p ∈ predecessors node → node_sat node doc → walk doc n.

Lemma after_valid n : after n → valid_node g n.
Proof.
  induction 1 as [|n node s Hn IH Hl Hs].
  - destruct (co_root Hc) as (node & Hl & H0' & _). split; [done|by eapply lookup_lt_Some].
  - destruct (qo_succ _ _ Hg n node s (proj1 IH) Hl Hs) as (? & _ & node' & Hl' & _). split; [done|by eapply lookup_lt_Some].
Qed.

Lemma end_not_root : end_node g ≠ root_node g.
Proof.
  destruct (qo_end _ _ Hg) as (_ & node & Hl & _ & Hd). destruct (co_root Hc) as (node' & Hl' & _ & _ & Hd'). intros Heq. rewrite Heq, Hl' in Hl. injection Hl as ->. by rewrite Hd in Hd'.
Qed.

(** A document that walks to a node walks to one of its predecessors. *)
Lemma walk_pred doc n node : n ≠ root_node g → nodes g !! Z.to_nat n = Some node →
  walk doc n ↔ node_sat node doc ∧ ∃ p, p ∈ predecessors node ∧ walk doc p.
Proof.
  intros Hn Hl. split.
  - intros Hw. inversion Hw as [|p n' node' Hp Hl' Hpred Hsat]; subst; [done|]. rewrite Hl in Hl'. injection Hl' as <-. split; [done|]. by exists p.
  - intros (Hsat & p & Hp & Hw). by eapply walk_step.
Qed.

(** ** The state of the traversal *)

Record resolving (r : Resolution) : Prop := {
  rv_after : ∀ n, n ∈ nodes_resolved r → after n;
  rv_end : end_node g ∉ nodes_resolved r;
  rv_length : length (path_nodes_docids r) = length (nodes g);
  rv_docids : ∀ n node docids, n ∈ nodes_resolved r → nodes g !! Z.to_nat n = Some node → path_nodes_docids r !! Z.to_nat n = Some docids →
    successors node ⊆ nodes_resolved r ∨ ∀ doc, doc ∈ docids ↔ walk doc n;
  rv_nodup : NoDup (next_nodes_to_visit r);
  rv_queue : ∀ n, n ∈ next_nodes_to_visit r → after n ∧ n ∉ nodes_resolved r;
  rv_root : root_node g ∈ next_nodes_to_visit r ∨ root_node g ∈ nodes_resolved r;
  rv_closed : ∀ n node s, n ∈ nodes_resolved r → nodes g !! Z.to_nat n = Some node → s ∈ successors node → s ∈ next_nodes_to_visit r ∨ s ∈ nodes_resolved r;
}.
Definition resolvable (r : Resolution) (n : Z) : Prop := ∀ node, nodes g !! Z.to_nat n = Some node → predecessors node ⊆ nodes_resolved r.
#[local] Instance resolvable_dec r n : Decision (resolvable r n).
Proof.
  unfold resolvable. destruct (nodes g !! Z.to_nat n) as [node|]; [|left; done].
  destruct (decide (predecessors node ⊆ nodes_resolved r)) as [Hd|Hd]; [left; by intros ? [= <-]|right; intros Hr; by apply Hd, Hr].
Defined.

Lemma some_resolvable r : resolving r → ∀ k m, (length (nodes g) - rank m < k)%nat → after m → m ∉ nodes_resolved r →
  ∃ x, x ∈ next_nodes_to_visit r ∧ resolvable r x.
Proof.
  intros Hr. induction k as [|k IH]; intros m Hk Hm HS; [lia|]. destruct (valid_node_lookup g m (after_valid m Hm)) as [node Hl]. pose proof (proj1 (after_valid m Hm)) as Hm0.
  destruct (decide (resolvable r m)) as [Hready|Hready].
  - exists m. split; [|done]. inversion Hm as [Heq|n nnode s Hn Hnl Hs]; subst; [by destruct (rv_root _ Hr)|].
    destruct (qo_succ _ _ Hg n nnode m (proj1 (after_valid n Hn)) Hnl Hs) as (_ & _ & node' & Hl' & Hp). rewrite Hl in Hl'. injection Hl' as <-.
    destruct (rv_closed _ Hr n nnode m) as [?|?]; [by apply (Hready node)|done|done|done|done].
  - destruct (decide (set_Forall (λ p, p ∈ nodes_resolved r) (predecessors node))) as [Hd|Hd].
    { exfalso. apply Hready. intros node' Hl'. rewrite Hl in Hl'. injection Hl' as <-. exact Hd. }
    apply (not_set_Forall_Exists _ _) in Hd as (p & Hp & Hnp). pose proof (co_pred Hc m node p Hm Hl Hp) as Hpa.
    destruct (qo_pred _ _ Hg m node p Hm0 Hl Hp) as (Hp0 & pnode & Hpl & Hs). destruct (qo_succ _ _ Hg p pnode m Hp0 Hpl Hs) as (_ & Hlt & _).
    pose proof (co_rank Hc p (after_valid p Hpa)). apply (IH p); [lia|done|done].
Qed.

(** The documents that come to a node. *)
Lemma predecessors_docids_spec r n node : resolving r → after n → n ∉ nodes_resolved r → nodes g !! Z.to_nat n = Some node → predecessors node ⊆ nodes_resolved r →
  ∃ docids, predecessors_docids r node = Ok docids ∧ ∀ doc, doc ∈ docids ↔ ∃ p, p ∈ predecessors node ∧ walk doc p.
Proof.
  intros Hr Hn HnS Hl Hsub. unfold predecessors_docids. setoid_rewrite <-(elem_of_bm_iter (predecessors node)).
  assert (Hpred : ∀ p, p ∈ bm_iter (predecessors node) → ∃ docids, path_nodes_docids r !! Z.to_nat p = Some docids ∧ ∀ doc, doc ∈ docids ↔ walk doc p).
  { intros p Hp%elem_of_bm_iter. pose proof (co_pred Hc n node p Hn Hl Hp) as Hpa. destruct (after_valid p Hpa) as [Hp0 Hpl].
    rewrite <-(rv_length _ Hr) in Hpl. destruct (lookup_lt_is_Some_2 _ _ Hpl) as [docids Hd]. exists docids. split; [done|].
    destruct (qo_pred _ _ Hg n node p (proj1 (after_valid n Hn)) Hl Hp) as (_ & pnode & Hpn & Hs).
    destruct (rv_docids _ Hr p pnode docids) as [Hcl|Hw]; [by apply Hsub|done|done| |done]. exfalso. by apply HnS, Hcl. }
  assert (Hloop : ∀ l acc, (∀ p, p ∈ l → p ∈ bm_iter (predecessors node)) → ∃ docids,
    for_each (E := QueryError) (λ acc p, docids ← interner_get (path_nodes_docids r) p; Ok (acc ∪ docids)) acc l = Ok docids ∧
    ∀ doc, doc ∈ docids ↔ doc ∈ acc ∨ ∃ p, p ∈ l ∧ walk doc p).
  { induction l as [|p l IHl]; intros acc Hin; cbn [for_each].
    { exists acc. split; [done|]. intros doc. split; [by left|]. intros [?|(p & ?%elem_of_nil & _)]; done. }
    destruct (Hpred p ltac:(apply Hin; by left)) as (docids & Hd & Hw). assert (Hget : interner_get (E := QueryError) (path_nodes_docids r) p = Ok docids) by (unfold interner_get; by rewrite Hd).
    rewrite Hget. cbn [mbind outcome_bind]. destruct (IHl (acc ∪ docids)) as (docids' & -> & Hdocs); [intros p' Hp'; apply Hin; by right|]. exists docids'. split; [done|].
    intros doc. rewrite Hdocs, elem_of_union, Hw. setoid_rewrite elem_of_cons. naive_solver. }
  destruct (Hloop (bm_iter (predecessors node)) ∅) as (docids & -> & Hdocs); [done|]. exists docids. split; [done|]. intros doc. rewrite Hdocs. set_solver.
Qed.

(** The documents of the predecessors that no node needs any more are forgotten. *)
Lemma clear_resolved_spec resolved l : ∀ docids, length docids = length (nodes g) → (∀ p, p ∈ l → valid_node g p) →
  ∃ docids', for_each (clear_resolved g resolved) docids l = Ok docids' ∧ length docids' = length docids ∧
    ∀ n node d, nodes g !! Z.to_nat n = Some node → docids' !! Z.to_nat n = Some d → docids !! Z.to_nat n = Some d ∨ successors node ⊆ resolved.
Proof.
  induction l as [|p l IH]; intros docids Hlen Hl; cbn [for_each]; [exists docids; split_and!; [done|done|by left]|].
  destruct (Hl p ltac:(by left)) as [Hp0 Hpl]. destruct (lookup_lt_is_Some_2 _ _ Hpl) as [pnode Hpn].
  assert (Hclear : ∃ docids1, clear_resolved g resolved docids p = Ok docids1 ∧ length docids1 = length docids ∧
    ∀ n node d, nodes g !! Z.to_nat n = Some node → docids1 !! Z.to_nat n = Some d → docids !! Z.to_nat n = Some d ∨ successors node ⊆ resolved).
  { unfold clear_resolved, interner_update, interner_get. rewrite Hpn. cbn [unwrap mbind outcome_bind]. case_bool_decide as Hs; [|exists docids; split_and!; [done|done|by left]].
    rewrite <-Hlen in Hpl. destruct (lookup_lt_is_Some_2 _ _ Hpl) as [d0 Hd0]. rewrite Hd0. eexists. split; [reflexivity|]. split; [by rewrite length_insert|].
    intros n node d Hn [[Heq _]|[_ Hd]]%list_lookup_insert_Some; [|by left]. rewrite <-Heq, Hpn in Hn. injection Hn as <-. by right. }
  destruct Hclear as (docids1 & -> & Hlen1 & Hd1). cbn [mbind outcome_bind]. destruct (IH docids1) as (docids' & Heq & Hlen' & Hd'); [congruence|intros x Hx; apply Hl; by right|].
  exists docids'. split_and!; [done|congruence|]. intros n node d Hn Hd. destruct (Hd' n node d Hn Hd) as [Hd1'|?]; [by eapply Hd1|by right].
Qed.

Lemma new_queue_spec (resolved : bitmap) l : ∀ queue, NoDup queue → ∀ queue', foldl (λ queue succ,
    if bool_decide (succ ∈ queue) || bm_contains resolved succ then queue else queue ++ [succ]) queue l = queue' →
  NoDup queue' ∧ ∀ x, x ∈ queue' ↔ x ∈ queue ∨ (x ∈ l ∧ x ∉ resolved).
Proof.
  induction l as [|s l IH]; intros queue Hn queue'; cbn [foldl]; [intros <-; split; [done|]; intros x; rewrite elem_of_nil; tauto|].
  unfold bm_contains at 2. destruct (decide (s ∈ queue)) as [Hs|Hs]; [rewrite bool_decide_true by done|rewrite bool_decide_false by done]; cbn [orb].
  - intros Hq%IH; [|done]. destruct Hq as [Q1 Q2]. split; [done|]. intros x. rewrite Q2, elem_of_cons. destruct (decide (x = s)) as [->|]; tauto.
  - destruct (decide (s ∈ resolved)) as [Hr|Hr]; [rewrite bool_decide_true by done|rewrite bool_decide_false by done]; intros Hq%IH; try done.
    + destruct Hq as [Q1 Q2]. split; [done|]. intros x. rewrite Q2, elem_of_cons. destruct (decide (x = s)) as [->|]; tauto.
    + destruct Hq as [Q1 Q2]. split; [done|]. intros x. rewrite Q2, elem_of_app, list_elem_of_singleton, elem_of_cons. destruct (decide (x = s)) as [->|]; tauto.
    + apply NoDup_app. split_and!; [done| |apply NoDup_singleton]. by intros x Hx ->%list_elem_of_singleton.
Qed.

Lemma resolve_node_spec r queue n node docids : resolving r → next_nodes_to_visit r = n :: queue → n ≠ end_node g → nodes g !! Z.to_nat n = Some node →
  (∀ doc, doc ∈ docids ↔ walk doc n) → ∃ r', resolve_node g r queue n node docids = Ok r' ∧ resolving r' ∧ nodes_resolved r' = nodes_resolved r ∪ {[n]}.
Proof.
  intros Hr Hqueue Hend Hl Hdocs. pose proof Hr as [R1 R2 R3 R4 R5 R6 R7 R8]. rewrite Hqueue in *. destruct (R6 n ltac:(by left)) as [Hn HnS].
  destruct (after_valid n Hn) as [Hn0 Hnl]. apply NoDup_cons in R5 as [Hnq Hnd]. unfold resolve_node, interner_update, interner_get.
  destruct (lookup_lt_is_Some_2 (path_nodes_docids r) (Z.to_nat n)) as [d0 Hd0]; [by rewrite R3|]. rewrite Hd0. cbn [unwrap mbind outcome_bind].
  set (resolved := nodes_resolved r ∪ {[n]}). set (docids1 := <[Z.to_nat n := docids]> (path_nodes_docids r)).
  destruct (clear_resolved_spec resolved (bm_iter (predecessors node)) docids1) as (docids2 & -> & Hlen2 & Hd2).
  { unfold docids1. by rewrite length_insert. }
  { intros p Hp%elem_of_bm_iter. apply after_valid. by eapply co_pred. }
  cbn [mbind outcome_bind]. destruct (new_queue_spec resolved (bm_iter (successors node)) queue Hnd _ eq_refl) as [Q1 Q2]. set (queue' := foldl _ _ _) in *.
  setoid_rewrite elem_of_bm_iter in Q2. eexists. split; [reflexivity|]. split; [|done]. constructor; cbn.
  - intros m [Hm|Hm%elem_of_singleton]%elem_of_union; [by apply R1|by subst].
  - intros [?|?%elem_of_singleton]%elem_of_union; [done|congruence].
  - rewrite Hlen2. unfold docids1. by rewrite length_insert.
  - intros m mnode d Hm Hml Hd. destruct (Hd2 m mnode d Hml Hd) as [Hd1|?]; [|by left]. unfold docids1 in Hd1.
    apply list_lookup_insert_Some in Hd1 as [(Heq & <- & _)|[Hne Hd1]].
    + assert (m = n) as ->; [|by right]. apply elem_of_union in Hm as [Hm|?%elem_of_singleton]; [|done]. destruct (after_valid m (R1 m Hm)). lia.
    + apply elem_of_union in Hm as [Hm|?%elem_of_singleton]; [|by subst]. destruct (R4 m mnode d Hm Hml Hd1) as [Hs|?]; [left; set_solver|by right].
  - done.
  - intros m [Hm|[Hm Hns]]%Q2.
    + destruct (R6 m ltac:(by right)) as [? ?]. split; [done|]. intros [?|?%elem_of_singleton]%elem_of_union; [done|by subst].
    + split; [by eapply after_succ|done].
  - destruct R7 as [[->|Hq]%elem_of_cons|?]; [right; set_solver|left; apply Q2; by left|right; set_solver].
  - intros m mnode s [Hm|Hm%elem_of_singleton]%elem_of_union Hml Hs.
    + destruct (R8 m mnode s Hm Hml Hs) as [[->|Hq]%elem_of_cons|?]; [right; set_solver|left; apply Q2; by left|right; set_solver].
    + subst m. rewrite Hl in Hml. injection Hml as <-. destruct (decide (s ∈ resolved)) as [?|Hns]; [by right|left]. apply Q2. by right.
Qed.

(** A round: a node waits, is resolved, or is the end. *)
Lemma resolve_step_spec r x queue : resolving r → next_nodes_to_visit r = x :: queue →
  if decide (resolvable r x) then
    (x = end_node g ∧ ∃ docids, resolve_step g universe r = Ok (inl docids) ∧ ∀ doc, doc ∈ docids ↔ walk doc (end_node g)) ∨
    (∃ r', resolve_step g universe r = Ok (inr r') ∧ resolving r' ∧ nodes_resolved r' = nodes_resolved r ∪ {[x]})
  else resolve_step g universe r = Ok (inr (mkResolution (nodes_resolved r) (path_nodes_docids r) (queue ++ [x]))).
Proof.
  intros Hr Hqueue. unfold resolve_step. rewrite Hqueue. destruct (rv_queue _ Hr x) as [Hx HxS]; [rewrite Hqueue; by left|].
  destruct (valid_node_lookup g x (after_valid x Hx)) as [node Hl]. assert (Hget : interner_get (E := QueryError) (nodes g) x = Ok node) by (unfold interner_get; by rewrite Hl).
  rewrite Hget. cbn [mbind outcome_bind]. case_decide as Hready.
  2: { rewrite bool_decide_false; [done|]. intros Hsub. apply Hready. intros node' Hl'. rewrite Hl in Hl'. by injection Hl' as <-. }
  pose proof (Hready node Hl) as Hsub. rewrite bool_decide_true by done. cbn [negb].
  destruct (predecessors_docids_spec r x node Hr Hx HxS Hl Hsub) as (docids & -> & Hdocids). cbn [mbind outcome_bind].
  destruct (decide (x = end_node g)) as [->|Hne].
  { destruct (qo_end _ _ Hg) as (_ & enode & Hel & _ & Hed). rewrite Hl in Hel. injection Hel as <-. rewrite Hed. left. split; [done|]. exists docids. split; [done|].
    intros doc. rewrite Hdocids, (walk_pred doc _ _ end_not_root Hl). unfold node_sat. rewrite Hed. tauto. }
  right. destruct (decide (x = root_node g)) as [->|Hroot].
  - destruct (co_root Hc) as (node' & Hl' & _ & Hp & Hd). rewrite Hl in Hl'. injection Hl' as <-. rewrite Hd.
    destruct (resolve_node_spec r queue (root_node g) node universe Hr Hqueue Hne Hl) as (r' & -> & Hr' & Hres); [|by exists r'].
    intros doc. split; [by constructor|]. intros Hw. inversion Hw as [|p n' node' Hp' Hl' Hpred Hsat]; subst; [done|]. rewrite Hl in Hl'. injection Hl' as <-. rewrite Hp in Hpred. set_solver.
  - destruct (co_term Hc x node Hx Hroot Hne Hl) as [t Ht]. rewrite Ht. destruct (Hterms docids (term_subset t)) as (b & -> & Hb). cbn [mbind outcome_bind].
    destruct (resolve_node_spec r queue x node b Hr Hqueue Hne Hl) as (r' & -> & Hr' & Hres); [|by exists r'].
    intros doc. rewrite Hb, Hdocids, (walk_pred doc x node Hroot Hl). unfold node_sat. rewrite Ht. tauto.
Qed.

Notation n := (length (nodes g)).
Notation idx := (list_to_set (indexes (nodes g)) : bitmap).
Lemma resolve_loop_spec : ∀ k r fuel, size (idx ∖ nodes_resolved r) = k → resolving r → (k * n < fuel)%nat →
  ∃ docids, resolve_loop fuel g universe r = Some (Ok docids) ∧ ∀ doc, doc ∈ docids ↔ walk doc (end_node g).
Proof.
  induction k as [k IH] using lt_wf_ind; intros r fuel Hk Hr Hfuel.
  assert (Hidx : ∀ x, after x → x ∈ idx) by (intros x Hx; apply elem_of_list_to_set, elem_of_indexes; by apply after_valid).
  destruct (some_resolvable r Hr _ _ (Nat.lt_succ_diag_r _) (co_end Hc) (rv_end _ Hr)) as (x & Hx & Hready).
  assert (Hk0 : k ≠ 0%nat).
  { intros ->. apply size_empty_inv in Hk. destruct (rv_queue _ Hr x Hx) as [Hxa HxS]. specialize (Hidx x Hxa). set_solver. }
  apply list_elem_of_split in Hx as (l1 & l2 & Hqueue).
  assert (Hlen : (length (next_nodes_to_visit r) ≤ n)%nat).
  { assert (Hsub : next_nodes_to_visit r ⊆+ indexes (nodes g)); [|apply submseteq_length in Hsub; unfold indexes in Hsub; by rewrite length_fmap, length_seq in Hsub].
    apply NoDup_submseteq; [apply Hr|]. intros y Hy. apply elem_of_indexes, after_valid. by apply (rv_queue _ Hr). }
  assert (Hfuel' : (length l1 + 1 + (k - 1) * n < fuel)%nat) by (destruct k as [|k]; [done|]; rewrite Hqueue, length_app in Hlen; cbn in Hlen, Hfuel |- *; rewrite Nat.sub_0_r; lia).
  assert (Hvisit : ∀ r2 y queue fuel, nodes_resolved r2 = nodes_resolved r → resolving r2 → next_nodes_to_visit r2 = y :: queue → resolvable r2 y → ((k - 1) * n < fuel)%nat →
    ∃ docids, resolve_loop (S fuel) g universe r2 = Some (Ok docids) ∧ ∀ doc, doc ∈ docids ↔ walk doc (end_node g)).
  { intros r2 y queue fuel2 Hres Hr2 Hq2 Hy Hf. pose proof (resolve_step_spec r2 y queue Hr2 Hq2) as Hstep. rewrite decide_True in Hstep by done. cbn [resolve_loop].
    destruct Hstep as [(_ & docids & -> & Hd)|(r3 & -> & Hr3 & Hres3)]; [by exists docids|]. eapply IH; [|reflexivity|exact Hr3|].
    - rewrite <-Hk, Hres3, Hres. destruct (rv_queue _ Hr2 y) as [Hya Hys]; [rewrite Hq2; by left|]. specialize (Hidx y Hya). rewrite Hres in Hys. apply subset_size. set_solver.
    - eapply Nat.le_lt_trans; [apply Nat.mul_le_mono_r|exact Hf]. enough (size (idx ∖ nodes_resolved r3) < k)%nat by lia. rewrite <-Hk, Hres3, Hres.
      destruct (rv_queue _ Hr2 y) as [Hya Hys]; [rewrite Hq2; by left|]. specialize (Hidx y Hya). rewrite Hres in Hys. apply subset_size. set_solver. }
  clear Hfuel Hlen. revert l2 fuel r Hk Hr Hidx Hready Hqueue Hfuel' Hvisit.
  induction l1 as [|y l1 IHl]; intros l2 fuel r Hk Hr Hidx Hready Hqueue Hfuel Hvisit; (destruct fuel as [|fuel]; [by apply Nat.nlt_0_r in Hfuel|]).
  { apply (Hvisit r x l2 fuel eq_refl Hr Hqueue Hready). cbn in Hfuel. lia. }
  destruct (decide (resolvable r y)) as [Hy|Hy]; [apply (Hvisit r y (l1 ++ x :: l2) fuel eq_refl Hr Hqueue Hy); cbn in Hfuel; lia|].
  pose proof (resolve_step_spec r y (l1 ++ x :: l2) Hr Hqueue) as Hstep. rewrite decide_False in Hstep by done. cbn [resolve_loop]. rewrite Hstep.
  set (r2 := mkResolution _ _ _). apply (IHl (l2 ++ [y])); [exact Hk| |exact Hidx|exact Hready|cbn; by rewrite <-app_assoc|cbn in Hfuel; lia|exact Hvisit].
  assert (Hp : y :: l1 ++ x :: l2 ≡ₚ (l1 ++ x :: l2) ++ [y]) by (by rewrite <-Permutation_cons_append).
  destruct Hr as [R1 R2 R3 R4 R5 R6 R7 R8]. rewrite Hqueue in *. constructor; cbn; try done.
  - by rewrite <-Hp.
  - intros z. rewrite <-Hp. apply R6.
  - by rewrite <-Hp.
  - intros m mnode s. rewrite <-Hp. by apply R8.
Qed.
End resolution.

(** C27. The resolution of a query graph without cycle, whose
    reachable nodes have reachable predecessors only, ends without panic and gives
    the documents of the universe that match every term of some path from the start
    to the end; forgetting the documents of a node once its successors are resolved
    loses none. *)
Theorem query_graph_docids `{QueryTerms} g rank universe tsat fuel : query_ok g rank → resolves_terms tsat → connected g rank →
  (length (nodes g) * length (nodes g) < fuel)%nat →
  ∃ docids, compute_query_graph_docids fuel g universe = Some (Ok docids) ∧ ∀ doc, doc ∈ docids ↔ walk g universe tsat doc (end_node g).
Proof.
  intros Hg Hterms Hc Hfuel. unfold compute_query_graph_docids. set (r := mkResolution _ _ _).
  apply (resolve_loop_spec g rank universe tsat Hg Hterms Hc (size ((list_to_set (indexes (nodes g)) : bitmap) ∖ nodes_resolved r)) r fuel eq_refl).
  - constructor; cbn.
    + set_solver.
    + set_solver.
    + by rewrite length_replicate.
    + set_solver.
    + apply NoDup_singleton.
    + intros n ->%list_elem_of_singleton. split; [constructor|set_solver].
    + left. by left.
    + set_solver.
  - eapply Nat.le_lt_trans; [apply Nat.mul_le_mono_r|exact Hfuel]. apply size_valid. intros n [Hn%elem_of_list_to_set _]%elem_of_difference. by apply elem_of_indexes in Hn.
Qed.

(** ** A concrete graph: one of two terms, and then a third *)

#[local] Instance sample_query_terms : QueryTerms := {|
  QueryError := unit;
  term_phrase _ := None;
  phrase_words _ := [];
  compute_query_term_subset_docids u t := Ok (filter (λ d, d mod qts_original t = 0) (default ∅ u));
  terms_hash l := Z.of_nat (length l);
|}.
Definition multiple_of (k : Z) : QueryNodeData := DTerm (mkLocatedQueryTermSubset (term_subset_full k) (0, 0) (0, 0)).
Definition sample_terms_graph : QueryGraph := mkQueryGraph 0 1 [
  mkQueryNode DStart ∅ {[2; 3]}; mkQueryNode DEnd {[4]} ∅;
  mkQueryNode (multiple_of 2) {[0]} {[4]}; mkQueryNode (multiple_of 3) {[0]} {[4]}; mkQueryNode (multiple_of 5) {[2; 3]} {[1]}].
Definition terms_rank (n : Z) : nat := if n =? 0 then 3%nat else if n =? 1 then 0%nat else if n =? 4 then 1%nat else 2%nat.

(** The five nodes, and the elements of their sets. *)
Ltac sample_node Hn Hl :=
  let Hcases := fresh in
  match type of Hl with _ !! Z.to_nat ?n = Some _ =>
    assert (Hcases : n = 0 ∨ n = 1 ∨ n = 2 ∨ n = 3 ∨ n = 4) by (apply lookup_lt_Some in Hl; cbn in Hl; lia);
    destruct Hcases as [-> |[-> |[-> |[-> | ->]]]]; injection Hl as <-
  end.
Ltac sample_elem Hs :=
  cbn in Hs; repeat (apply elem_of_union in Hs as [Hs|Hs]); first [by apply elem_of_empty in Hs|apply elem_of_singleton in Hs as ->].

Lemma sample_terms_ok : query_ok sample_terms_graph terms_rank.
Proof.
  constructor.
  - intros n node s Hn Hl Hs. sample_node Hn Hl; sample_elem Hs; (split; [lia|]; split; [vm_compute; lia|]; eexists; split; [reflexivity|]; set_solver).
  - intros n node p Hn Hl Hp. sample_node Hn Hl; sample_elem Hp; (split; [lia|]; eexists; split; [reflexivity|]; set_solver).
  - split; [done|]. eexists. by split.
Qed.
Lemma sample_after n : n = 0 ∨ n = 2 ∨ n = 3 ∨ n = 4 ∨ n = 1 → after sample_terms_graph n.
Proof.
  assert (H0' : after sample_terms_graph 0) by apply after_root.
  assert (H2 : after sample_terms_graph 2) by (eapply after_succ; [exact H0'|reflexivity|set_solver]).
  assert (H3 : after sample_terms_graph 3) by (eapply after_succ; [exact H0'|reflexivity|set_solver]).
  assert (H4 : after sample_terms_graph 4) by (eapply after_succ; [exact H2|reflexivity|set_solver]).
  assert (H1 : after sample_terms_graph 1) by (eapply after_succ; [exact H4|reflexivity|set_solver]). naive_solver.
Qed.
Lemma after_sample n : after sample_terms_graph n → 0 ≤ n ≤ 4.
Proof.
  induction 1 as [|n node s Hn IH Hl Hs]; [done|]. assert (Hn0 : 0 ≤ n) by lia. sample_node Hn0 Hl; sample_elem Hs; lia.
Qed.
Lemma sample_connected : connected sample_terms_graph terms_rank.
Proof.
  constructor.
  - intros n node p Hn%after_sample Hl Hp. assert (Hn0 : 0 ≤ n) by lia. sample_node Hn0 Hl; sample_elem Hp; apply sample_after; lia.
  - eexists. split; [reflexivity|]. done.
  - intros n node Hn%after_sample Hr He Hl. assert (Hn0 : 0 ≤ n) by lia. cbn in Hr, He. sample_node Hn0 Hl; [done|done|by eexists..].
  - apply sample_after. cbn. lia.
  - intros n _. unfold terms_rank. cbn. destruct (n =? 0), (n =? 1), (n =? 4); lia.
Qed.

Definition sample_tsat (t : QueryTermSubset) (doc : Z) : Prop := doc mod qts_original t = 0.
Lemma sample_resolves_terms : resolves_terms sample_tsat.
Proof. intros u t. eexists. split; [reflexivity|]. intros doc. cbn. rewrite elem_of_filter. unfold sample_tsat. tauto. Qed.

Lemma query_graph_docids_witness : compute_query_graph_docids 30 sample_terms_graph {[5; 6; 10; 12; 15; 30]} = Some (Ok {[10; 15; 30]}) ∧
  walk sample_terms_graph {[5; 6; 10; 12; 15; 30]} sample_tsat 15 1 ∧ ¬ walk sample_terms_graph {[5; 6; 10; 12; 15; 30]} sample_tsat 5 1.
Proof.
  destruct (query_graph_docids sample_terms_graph terms_rank {[5; 6; 10; 12; 15; 30]} sample_tsat 30 sample_terms_ok sample_resolves_terms sample_connected
    ltac:(cbn; lia)) as (docids & Heq & Hdocs).
  assert (Hv : compute_query_graph_docids 30 sample_terms_graph {[5; 6; 10; 12; 15; 30]} = Some (Ok {[10; 15; 30]})) by (vm_compute; reflexivity).
  split; [exact Hv|]. rewrite Hv in Heq. injection Heq as <-. split; [apply (Hdocs 15); set_solver|]. intros Hw. apply (Hdocs 5) in Hw. set_solver.
Defined.
