(* ===== verification/GraphRule.v ===== *)
(** * Graph-based ranking rules

    [crates/milli-core/src/search/new/graph_based_ranking_rule.rs]: the ranking
    rule whose buckets are the documents of the paths of a graph, by increasing
    cost.  The bucket of a cost is what a path of this cost gives, whatever the
    caches, the dead ends and the order of the visits. *)

From S2P Require Import Prelude TaskTypes Score BucketSort QueryGraph RuleGraph RulePaths RuleCosts.
Open Scope Z_scope.

Inductive TermsMatchingStrategy := StrategyLast | StrategyAll | StrategyFrequency.

Section rule.
Context `{RankingRuleGraphTrait}.
Notation M := (outcome (option QueryError)).

Record GraphBasedRankingRuleState := mkGraphRuleState {
  rs_graph : RankingRuleGraph;
  conditions_cache : ConditionDocIdsCache;
  rs_dead_ends : DeadEndsCache;
  all_costs : list (list Z);
  cur_cost : Z;
  next_max_cost : Z;
}.
Record GraphBasedRankingRule := mkGraphRule {
  gr_id : string;
  terms_matching_strategy : option TermsMatchingStrategy;
  gr_state : option GraphBasedRankingRuleState;
}.

(** ** The start *)

(** The cost of ignoring the nodes: the nodes of a group are ignored after those of
    the previous groups. *)
Definition removal_group (st : list (option (Z * bitmap)) * bitmap) (ns : bitmap) : outcome QueryError (list (option (Z * bitmap)) * bitmap) :=
  let '(costs, forbidden_nodes) := st in
  costs ← for_each (λ costs n, interner_update (λ _, Some (1, forbidden_nodes)) costs n) costs (bm_iter ns);
  Ok (costs, forbidden_nodes ∪ ns).
Definition removal_costs (strategy : option TermsMatchingStrategy) (g : QueryGraph) : outcome QueryError (list (option (Z * bitmap))) :=
  let none := (λ _, None) <$> nodes g in
  match strategy with
  | Some StrategyLast => order ← removal_order_last g; '(costs, _) ← for_each removal_group (none, ∅) order; Ok costs
  | Some StrategyFrequency => order ← removal_order_frequency g; '(costs, _) ← for_each removal_group (none, ∅) order; Ok costs
  | Some StrategyAll | None => Ok none
  end.

Definition graph_start_iteration (r : GraphBasedRankingRule) (universe : bitmap) (g : QueryGraph) : M GraphBasedRankingRule :=
  let phrases := match terms_matching_strategy r with Some _ => Z.max 0 (words_in_phrases_count g - 1) | None => 0 end in
  removal_cost ← map_err Some (removal_costs (terms_matching_strategy r) g);
  graph ← map_err Some (build g removal_cost);
  costs ← find_all_costs_to_end graph;
  root_costs ← interner_get costs (root_node (query_graph graph));
  Ok (mkGraphRule (gr_id r) (terms_matching_strategy r)
    (Some (mkGraphRuleState graph ∅ DeadEndsCache_new costs 0 (1 + phrases + foldr Z.max 0 root_costs)))).

(** ** A bucket *)

(** What the visit of a path changes besides the graph and the dead ends. *)
Record PathEnv := mkPathEnv {
  pe_universe : bitmap;
  pe_bucket : bitmap;
  pe_cache : ConditionDocIdsCache;
  subpaths_docids : list (Z * bitmap);
  removed_nodes : bitmap;
  good_paths : list (list Z);
}.
Definition set_subpaths (l : list (Z * bitmap)) (env : PathEnv) : PathEnv :=
  mkPathEnv (pe_universe env) (pe_bucket env) (pe_cache env) l (removed_nodes env) (good_paths env).
Definition set_pe_cache (c : ConditionDocIdsCache) (env : PathEnv) : PathEnv :=
  mkPathEnv (pe_universe env) (pe_bucket env) c (subpaths_docids env) (removed_nodes env) (good_paths env).
Definition add_removed (ns : bitmap) (env : PathEnv) : PathEnv :=
  mkPathEnv (pe_universe env) (pe_bucket env) (pe_cache env) (subpaths_docids env) (removed_nodes env ∪ ns) (good_paths env).

(** The prefixes whose documents are disjoint from those of the condition. *)
Fixpoint forbid_after_prefixes (condition : Z) (condition_docids : bitmap) (subprefix : list Z) (subpaths : list (Z * bitmap)) (d : DeadEndsCache) : DeadEndsCache :=
  match subpaths with
  | [] => d
  | (past_condition, sp_docids) :: subpaths =>
      let subprefix := subprefix ++ [past_condition] in
      forbid_after_prefixes condition condition_docids subprefix subpaths
        (if bm_is_disjoint condition_docids sp_docids then forbid_condition_after_prefix subprefix condition d else d)
  end.

(** [visit_path_condition]. *)
Definition visit_path_condition (env : PathEnv) (g : RankingRuleGraph) (d : DeadEndsCache) (latest_condition : Z)
    : outcome QueryError (bool * PathEnv * RankingRuleGraph * DeadEndsCache) :=
  '(computed, cache) ← get_computed_condition (pe_cache env) latest_condition g (pe_universe env);
  let env := set_pe_cache cache env in
  let condition_docids := cc_docids computed in
  let subpath := subpaths_docids env in
  if bm_is_empty condition_docids then
    '(source_nodes, g) ← remove_edges_with_condition g latest_condition;
    Ok (false, add_removed source_nodes env, g, forbid_condition latest_condition d)
  else
    let latest_path_docids := match last subpath with Some (_, prev_docids) => prev_docids ∩ condition_docids | None => condition_docids end in
    if negb (bm_is_empty latest_path_docids) then
      Ok (true, set_subpaths (subpath ++ [(latest_condition, latest_path_docids)]) env, g, d)
    else
      let d := forbid_condition_after_prefix subpath.*1 latest_condition d in
      if (length subpath <=? 1)%nat then Ok (false, env, g, d)
      else Ok (false, env, g, forbid_after_prefixes latest_condition condition_docids [] (take (pred (length subpath)) subpath) d).
Fixpoint visit_path_conditions (path : list Z) (env : PathEnv) (g : RankingRuleGraph) (d : DeadEndsCache)
    : outcome QueryError (bool * PathEnv * RankingRuleGraph * DeadEndsCache) :=
  match path with
  | [] => Ok (true, env, g, d)
  | latest_condition :: path =>
      '(success, env, g, d) ← visit_path_condition env g d latest_condition;
      if success : bool then visit_path_conditions path env g d else Ok (false, env, g, d)
  end.

(** The length of the prefix that a path shares with the previous one. *)
Fixpoint idx_of_first_different_condition (path : list Z) (subpaths : list (Z * bitmap)) : nat :=
  match path, subpaths with
  | last_c :: path, (cur_c, _) :: subpaths => if last_c =? cur_c then S (idx_of_first_different_condition path subpaths) else O
  | _, _ => O
  end.

(** The closure of [next_bucket]; the paths are those considered. *)
Definition take_path (path : list Z) (env : PathEnv) (g : RankingRuleGraph) (d : DeadEndsCache)
    : outcome QueryError (bool * PathEnv * RankingRuleGraph * DeadEndsCache) :=
  let '(path_docids, subpaths) := match last (subpaths_docids env) with
    | Some (_, docids) => (docids, take (pred (length (subpaths_docids env))) (subpaths_docids env))
    | None => (pe_universe env, [])
    end in
  if bm_is_empty path_docids then Panic
  else
    let universe := pe_universe env ∖ path_docids in
    Ok (bm_is_empty universe,
      mkPathEnv universe (pe_bucket env ∪ path_docids) (pe_cache env) ((λ '(c, docids), (c, docids ∖ path_docids)) <$> subpaths) (removed_nodes env) (good_paths env ++ [path]),
      g, d).
Definition visit_path (env : PathEnv) (path : list Z) (g : RankingRuleGraph) (d : DeadEndsCache)
    : outcome QueryError (bool * PathEnv * RankingRuleGraph * DeadEndsCache) :=
  if bm_is_empty (pe_universe env) then Ok (true, env, g, d)
  else
    let idx := idx_of_first_different_condition path (subpaths_docids env) in
    '(success, env, g, d) ← visit_path_conditions (drop idx path) (set_subpaths (take idx (subpaths_docids env)) env) g d;
    if negb success then Ok (false, env, g, d)
    else if negb (bool_decide ((subpaths_docids env).*1 = path)) then Panic
    else take_path path env g d.

(** The costs, once the conditions that gave no documents were removed. *)
Definition update_costs_after (g : RankingRuleGraph) (removed : bitmap) (costs : list (list Z)) : M (list (list Z)) :=
  if bm_len removed =? 1 then n ← unwrap (bm_min removed); update_all_costs_before_node g n costs
  else if 1 <? bm_len removed then find_all_costs_to_end g
  else Ok costs.

Definition graph_next_bucket (r : GraphBasedRankingRule) (universe : bitmap) : M (option (RankingRuleOutput QueryGraph) * GraphBasedRankingRule) :=
  let with_state st := mkGraphRule (gr_id r) (terms_matching_strategy r) st in
  state ← unwrap (gr_state r);
  root_costs ← interner_get (all_costs state) (root_node (query_graph (rs_graph state)));
  match find (λ c, cur_cost state <=? c) root_costs with
  | None => Ok (None, with_state None)
  | Some cost =>
      let score := rank_to_score (mkRank (u32_wrap (next_max_cost state - cost)) (u32_wrap (next_max_cost state))) in
      '(g, d, env) ← visit_paths visit_path (all_costs state) cost (rs_graph state) (rs_dead_ends state) (mkPathEnv universe ∅ (conditions_cache state) [] ∅ []);
      paths ← map_err Some (collect (collect (get_subsets_used_by_condition (pe_cache env))) (good_paths env));
      next_query_graph ← map_err Some (build_from_paths paths);
      costs ← update_costs_after g (removed_nodes env) (all_costs state);
      Ok (Some (mkRankingRuleOutput next_query_graph (pe_bucket env) score),
        with_state (Some (mkGraphRuleState g (pe_cache env) d costs (cost + 1) (next_max_cost state))))
  end.
Definition graph_end_iteration (r : GraphBasedRankingRule) : GraphBasedRankingRule := mkGraphRule (gr_id r) (terms_matching_strategy r) None.
End rule.
Arguments GraphBasedRankingRule {_ _ _}.
Arguments GraphBasedRankingRuleState {_ _ _}.

(** The rule, as one of those of the bucket sort. *)
#[export] Instance graph_ranking_rule `{RankingRuleGraphTrait} : RankingRule := {
  Query := QueryGraph;
  Rule := GraphBasedRankingRule;
  SearchError := option QueryError;
  start_iteration := graph_start_iteration;
  next_bucket := graph_next_bucket;
  end_iteration := graph_end_iteration;
}.
