(* ===== verification/GraphRuleSpec.v ===== *)
(** * Graph-based ranking rules sort by least cost

    The operations of [GraphRule]: the documents of the paths of a cost are found
    whatever the order of the visits, and the caches, the dead ends, the removed
    edges and the updated costs stay true to the universe that is left. *)

From S2P Require Import Prelude TaskTypes Score BucketSort QueryGraph RuleGraph RulePaths RuleCosts GraphRule.
Open Scope Z_scope.

(** ** Removing the edges of a condition *)

Section removal.
Context `{RankingRuleGraphTrait}.

Definition has_condition (c : Z) (e : Edge) : Prop := edge_condition e = Some c.

(** The state of the loop, when the edges of the ids [l] have been looked at. *)
Record removing (g : RankingRuleGraph) (c : Z) (l : list Z) (store : list (option Edge)) (of_node : list bitmap) (sources : bitmap) : Prop := {
  rm_length : length store = length (edges_store g);
  rm_nodes : length of_node = length (edges_of_node g);
  rm_keep : ∀ i e, edges_store g !! Z.to_nat i = Some (Some e) → 0 ≤ i → ¬ (i ∈ l ∧ has_condition c e) → store !! Z.to_nat i = Some (Some e);
  rm_gone : ∀ i e, edges_store g !! Z.to_nat i = Some (Some e) → 0 ≤ i → i ∈ l → has_condition c e → store !! Z.to_nat i = Some None;
  rm_only : ∀ i e, store !! i = Some (Some e) → edges_store g !! i = Some (Some e);
  rm_edges : ∀ n edges, edges_of_node g !! n = Some edges → ∃ edges', of_node !! n = Some edges' ∧
    ∀ i, i ∈ edges' ↔ i ∈ edges ∧ ¬ ∃ e, edges_store g !! Z.to_nat i = Some (Some e) ∧ i ∈ l ∧ has_condition c e ∧ Z.to_nat (source_node e) = n;
  rm_sources : ∀ n, n ∈ sources ↔ ∃ i e, i ∈ l ∧ edges_store g !! Z.to_nat i = Some (Some e) ∧ has_condition c e ∧ source_node e = n;
}.

Variables (g : RankingRuleGraph) (c : Z).
Hypothesis Hsources : ∀ i e, edges_store g !! i = Some (Some e) → (Z.to_nat (source_node e) < length (edges_of_node g))%nat.

Lemma removing_skip l i store of_node sources : removing g c l store of_node sources → 0 ≤ i →
  (∀ e, edges_store g !! Z.to_nat i = Some (Some e) → ¬ has_condition c e) → removing g c (l ++ [i]) store of_node sources.
Proof.
  intros [R1 R2 R3 R4 R5 R6 R7] Hi0 Hi. constructor; try done.
  - intros j e He Hj0 Hn. apply R3; [done|done|]. intros [Hj Hc]. apply Hn. rewrite elem_of_app. tauto.
  - intros j e He Hj0 [Hj|Hj%list_elem_of_singleton]%elem_of_app Hc; [by eapply R4|]. subst. by apply Hi in He.
  - intros n edges Hl. destruct (R6 n edges Hl) as (edges' & Hl' & Hin). exists edges'. split; [done|]. intros j. rewrite Hin. setoid_rewrite elem_of_app. setoid_rewrite list_elem_of_singleton.
    split; intros [Hj Hn]; (split; [done|]); intros (e & He & Hjl & Hc & Hs); apply Hn; exists e.
    + destruct Hjl as [?|?]; [done|subst; by apply Hi in He].
    + tauto.
  - intros n. rewrite R7. setoid_rewrite elem_of_app. setoid_rewrite list_elem_of_singleton. split.
    + intros (j & e & ?). exists j, e. tauto.
    + intros (j & e & [Hj|Hj] & He & Hc & Hs); [by exists j, e|subst; by apply Hi in He].
Qed.

Lemma remove_edge_spec l i store of_node sources : removing g c l store of_node sources → i ∉ l → (∀ j, j ∈ l → 0 ≤ j) → 0 ≤ i → (Z.to_nat i < length (edges_store g))%nat →
  ∃ st', remove_edge c (store, of_node, sources) i = Ok st' ∧ removing g c (l ++ [i]) st'.1.1 st'.1.2 st'.2.
Proof.
  intros Hrm Hil Hl0 Hi0 Hlen. pose proof Hrm as [R1 R2 R3 R4 R5 R6 R7]. destruct (lookup_lt_is_Some_2 (edges_store g) _ Hlen) as [o Ho].
  unfold remove_edge, interner_get. destruct o as [e|].
  2: { destruct (lookup_lt_is_Some_2 store (Z.to_nat i) ltac:(lia)) as [[e|] He]; [apply R5 in He; by rewrite Ho in He|].
       rewrite He. cbn [unwrap mbind outcome_bind]. eexists. split; [reflexivity|]. apply removing_skip; [done|done|]. intros e He'. by rewrite Ho in He'. }
  assert (Hstore : store !! Z.to_nat i = Some (Some e)) by (apply R3; [done|done|]; tauto).
  rewrite Hstore. cbn [unwrap mbind outcome_bind]. case_bool_decide as Hc.
  2: { eexists. split; [reflexivity|]. apply removing_skip; [done|done|]. intros e' He'. rewrite Ho in He'. by injection He' as <-. }
  unfold interner_update, interner_get. destruct (lookup_lt_is_Some_2 of_node (Z.to_nat (source_node e))) as [edges0 Hedges0]; [rewrite R2; by eapply Hsources|].
  rewrite Hedges0. cbn [unwrap mbind outcome_bind]. eexists. split; [reflexivity|]. cbn [fst snd].
  assert (Hlt : (Z.to_nat i < length store)%nat) by lia. constructor.
  - by rewrite length_insert.
  - by rewrite length_insert.
  - intros j e' He' Hj0 Hn. rewrite elem_of_app, list_elem_of_singleton in Hn. assert (j ≠ i) by (intros ->; rewrite Ho in He'; injection He' as <-; tauto).
    rewrite list_lookup_insert_ne by lia. apply R3; tauto.
  - intros j e' He' Hj0 [Hj|Hj%list_elem_of_singleton]%elem_of_app Hc'; [|subst; by apply list_lookup_insert_eq].
    rewrite list_lookup_insert_ne; [by eapply R4|]. intros Heq. apply Hil. by replace i with j by lia.
  - intros j e' [[? ?]|[? Hj]]%list_lookup_insert_Some; [naive_solver|by apply R5].
  - intros n edges Hn. destruct (R6 n edges Hn) as (edges' & Hl' & Hin). destruct (decide (Z.to_nat (source_node e) = n)) as [Hsn|Hsn].
    + subst n. rewrite Hedges0 in Hl'. injection Hl' as <-. eexists. split; [apply list_lookup_insert_eq; by eapply lookup_lt_Some|].
      intros j. rewrite elem_of_difference, elem_of_singleton, Hin. setoid_rewrite elem_of_app. setoid_rewrite list_elem_of_singleton. split.
      * intros [[Hj Hno] Hne]. split; [done|]. intros (e' & He' & [Hjl|Hjl] & Hc' & Hs'); [|done]. apply Hno. by exists e'.
      * intros [Hj Hno]. split_and!; [done| |].
        -- intros (e' & He' & Hjl & Hc' & Hs'). apply Hno. exists e'. tauto.
        -- intros ->. apply Hno. exists e. tauto.
    + exists edges'. split; [by rewrite list_lookup_insert_ne|]. intros j. rewrite Hin. setoid_rewrite elem_of_app. setoid_rewrite list_elem_of_singleton.
      split; intros [Hj Hno]; (split; [done|]); intros (e' & He' & Hjl & Hc' & Hs'); apply Hno; exists e'; [|tauto].
      destruct Hjl as [?| ->]; [done|]. rewrite Ho in He'. injection He' as <-. done.
  - intros n. rewrite elem_of_union, elem_of_singleton, R7. setoid_rewrite elem_of_app. setoid_rewrite list_elem_of_singleton. split.
    + intros [(j & e' & ?)| ->]; [exists j, e'; tauto|by exists i, e; tauto].
    + intros (j & e' & [Hj|Hj] & He' & Hc' & Hs'); [left; by exists j, e'|subst; right]. rewrite Ho in He'. by injection He' as <-.
Qed.

Lemma remove_edges_spec : ∃ sources g', remove_edges_with_condition g c = Ok (sources, g') ∧ query_graph g' = query_graph g ∧
  conditions_interner g' = conditions_interner g ∧ removing g c (indexes (edges_store g)) (edges_store g') (edges_of_node g') sources.
Proof.
  unfold remove_edges_with_condition.
  assert (Hloop : ∀ l l0 store of_node sources, indexes (edges_store g) = l0 ++ l → removing g c l0 store of_node sources →
    ∃ st', for_each (remove_edge c) (store, of_node, sources) l = Ok st' ∧ removing g c (indexes (edges_store g)) st'.1.1 st'.1.2 st'.2).
  { induction l as [|i l IHl]; intros l0 store of_node sources Heq Hrm; cbn [for_each].
    { exists (store, of_node, sources). rewrite app_nil_r in Heq. by rewrite Heq. }
    assert (Hall : ∀ j, j ∈ l0 ++ i :: l → 0 ≤ j ∧ (Z.to_nat j < length (edges_store g))%nat) by (intros j; rewrite <-Heq; apply elem_of_indexes).
    assert (Hnd : NoDup (l0 ++ i :: l)) by (rewrite <-Heq; apply NoDup_fmap; [apply _|apply NoDup_seq]).
    destruct (remove_edge_spec l0 i store of_node sources Hrm) as ([[store' of_node'] sources'] & -> & Hrm').
    - apply NoDup_app in Hnd as (_ & Hnd & _). intros Hi. apply (Hnd i Hi). by left.
    - intros j Hj. apply Hall, elem_of_app. by left.
    - apply Hall, elem_of_app. right. by left.
    - apply Hall, elem_of_app. right. by left.
    - cbn [mbind outcome_bind]. apply (IHl (l0 ++ [i])); [by rewrite <-app_assoc|exact Hrm']. }
  destruct (Hloop (indexes (edges_store g)) [] (edges_store g) (edges_of_node g) ∅) as ([[store' of_node'] sources'] & -> & Hrm'); [done| |].
  - constructor; try done; [by intros i e _ _ ?%elem_of_nil| |].
    + intros n edges Hl. exists edges. split; [done|]. intros i. split; [|tauto]. intros Hi. split; [done|]. by intros (e & _ & ?%elem_of_nil & _).
    + intros n. split; [set_solver|]. by intros (i & e & ?%elem_of_nil & _).
  - cbn [mbind outcome_bind]. by eexists _, _.
Qed.
End removal.

(** ** Graphs without the conditions that have no documents *)

Section pruning.
Context `{RankingRuleGraphTrait}.
Variables (rank : Z → nat) (sat : Z → Z → Prop).

Lemma pruned_refl g u : graph_ok g rank → pruned g sat g u.
Proof.
  intros Hok. constructor; try done; [by left|]. intros n edges Hl. exists edges. split; [done|]. intros i. split; [|tauto]. intros Hi. split; [done|].
  pose proof (go_edges _ _ Hok (Z.of_nat n) edges i ltac:(lia)) as Hn. rewrite Nat2Z.id in Hn. destruct (Hn Hl Hi) as (_ & e & He & _). by exists e.
Qed.

Lemma pruned_trans g0 g1 g2 u1 u2 : pruned g0 sat g1 u1 → pruned g1 sat g2 u2 → u2 ⊆ u1 → pruned g0 sat g2 u2.
Proof.
  intros [P1 P2 P3 P4 P5 P6 P7] [Q1 Q2 Q3 Q4 Q5 Q6 Q7] Hu. constructor; try congruence.
  - intros i e He. destruct (P3 i e He) as [He1|(He1 & c & Hc & Hn)]; [by apply Q3|]. right. split; [|exists c; split; [done|by eapply no_doc_mono]].
    assert (Hlt : (i < length (edges_store g2))%nat) by (rewrite Q5; by eapply lookup_lt_Some).
    destruct (lookup_lt_is_Some_2 _ _ Hlt) as [[e'|] He']; [|done]. apply Q4 in He'. by rewrite He1 in He'.
  - intros i e He. by apply P4, Q4.
  - intros n edges0 Hl. destruct (P7 n edges0 Hl) as (edges1 & Hl1 & Hin1). destruct (Q7 n edges1 Hl1) as (edges2 & Hl2 & Hin2). exists edges2. split; [done|].
    intros i. rewrite Hin2, Hin1. split; [tauto|]. intros [Hi (e & He)]. split_and!; [done| |by exists e]. exists e. by apply Q4.
Qed.

Lemma pruned_mono g0 g u u' : u' ⊆ u → pruned g0 sat g u → pruned g0 sat g u'.
Proof.
  intros Hu [P1 P2 P3 P4 P5 P6 P7]. constructor; try done. intros i e He. destruct (P3 i e He) as [?|(? & c & Hc & Hn)]; [by left|right].
  split; [done|]. exists c. split; [done|by eapply no_doc_mono].
Qed.

(** Removing the edges of a condition without documents. *)
Lemma pruned_remove g c g' sources u : graph_ok g rank → query_graph g' = query_graph g → conditions_interner g' = conditions_interner g →
  removing g c (indexes (edges_store g)) (edges_store g') (edges_of_node g') sources → no_doc sat u [c] → pruned g sat g' u.
Proof.
  intros Hok Hqg Hci [R1 R2 R3 R4 R5 R6 R7] Hno. constructor; try done.
  - intros i e He. destruct (decide (edge_condition e = Some c)) as [Hc|Hc].
    + right. split; [|by exists c]. rewrite <-(Nat2Z.id i). apply (R4 _ e); rewrite ?Nat2Z.id; [done|lia| |done].
      apply elem_of_indexes. rewrite Nat2Z.id. split; [lia|by eapply lookup_lt_Some].
    + left. rewrite <-(Nat2Z.id i). apply (R3 _ e); rewrite ?Nat2Z.id; [done|lia|]. by intros [_ ?].
  - intros n edges Hl. destruct (R6 n edges Hl) as (edges' & Hl' & Hin). exists edges'. split; [done|]. intros i. rewrite Hin.
    assert (Hi : i ∈ edges → 0 ≤ i ∧ ∃ e, edges_store g !! Z.to_nat i = Some (Some e) ∧ source_node e = Z.of_nat n).
    { pose proof (go_edges _ _ Hok (Z.of_nat n) edges i ltac:(lia)) as Hn. rewrite Nat2Z.id in Hn. by apply Hn. }
    split; intros [Hie He]; (split; [done|]); destruct (Hi Hie) as (Hi0 & e & Hs & Hsrc).
    + exists e. apply R3; [done|done|]. intros [Hidx Hc]. apply He. exists e. split_and!; [done|done|done|by rewrite Hsrc, Nat2Z.id].
    + destruct He as (e' & He'). intros (e'' & He'' & Hidx & Hc & _). by rewrite (R4 i e'' He'' Hi0 Hidx Hc) in He'.
Qed.

(** The edges of the other nodes are still there. *)
Lemma removed_same g c g' sources u n e : graph_ok g rank → pruned g sat g' u →
  removing g c (indexes (edges_store g)) (edges_store g') (edges_of_node g') sources → 0 ≤ n → n ∉ sources → is_edge g n e → is_edge g' n e.
Proof.
  intros Hok Hpr Hrm Hn0 Hns (edges & i & Hl & Hi & Hs).
  destruct (pr_edges _ _ _ _ Hpr _ _ Hl) as (edges' & Hl' & Hin). destruct (go_edges _ _ Hok n edges i Hn0 Hl Hi) as (Hi0 & e' & He' & Hsrc).
  rewrite Hs in He'. injection He' as <-. assert (Hnc : ¬ (i ∈ indexes (edges_store g) ∧ has_condition c e)).
  { intros [Hidx Hce]. apply Hns. apply (rm_sources _ _ _ _ _ _ Hrm). by exists i, e. }
  pose proof (rm_keep _ _ _ _ _ _ Hrm i e Hs Hi0 Hnc) as Hs'. exists edges', i. split_and!; [done| |done]. apply Hin. split; [done|by exists e].
Qed.

Section ok.
Variables (g0 g : RankingRuleGraph) (u : bitmap).
Hypothesis Hok : graph_ok g0 rank.
Hypothesis Hpr : pruned g0 sat g u.

Lemma pruned_edge n e : is_edge g n e → is_edge g0 n e.
Proof.
  intros (edges & i & Hl & Hi & He). assert (Hlt : (Z.to_nat n < length (edges_of_node g0))%nat) by (rewrite <-(pr_nodes _ _ _ _ Hpr); by eapply lookup_lt_Some).
  destruct (lookup_lt_is_Some_2 _ _ Hlt) as [edges0 Hl0]. destruct (pr_edges _ _ _ _ Hpr _ _ Hl0) as (edges' & Hl' & Hin). rewrite Hl in Hl'. injection Hl' as <-.
  exists edges0, i. split_and!; [done|by apply Hin|by apply (pr_only _ _ _ _ Hpr)].
Qed.

(** An edge is gone only if no document has its condition. *)
Lemma kept_edge n e doc : is_edge g0 n e → doc ∈ u → (∀ c, edge_condition e = Some c → sat c doc) → is_edge g n e.
Proof.
  intros (edges0 & i & Hl & Hi & He) Hdoc Hsat. destruct (pr_edges _ _ _ _ Hpr _ _ Hl) as (edges & Hl' & Hin).
  destruct (pr_store _ _ _ _ Hpr _ _ He) as [He'|(_ & c & Hc & Hno)]; [|exfalso; apply (Hno doc Hdoc); apply path_sat_one; by apply Hsat].
  exists edges, i. split_and!; [done| |done]. apply Hin. split; [done|by exists e].
Qed.

Lemma pruned_route n r V S q : route g n r V S q → route g0 n r V S q.
Proof.
  pose proof (pr_query _ _ _ _ Hpr) as Hqg. induction 1 as [n r V S e He Hc Hd Hr|n r V S e q He Hc Hd Hr Hq IH|n r V S e c q He Hc Hr HS HV Hq IH]; apply pruned_edge in He; rewrite ?Hqg in *.
  - by eapply route_end.
  - by eapply route_skip.
  - by eapply route_condition.
Qed.
Lemma kept_route n r V S q doc : route g0 n r V S q → doc ∈ u → path_sat sat q doc → route g n r V S q.
Proof.
  intros Hr Hdoc. assert (Hend : end_node (query_graph g) = end_node (query_graph g0)) by (by rewrite (pr_query _ _ _ _ Hpr)).
  induction Hr as [n r V S e He Hc Hd Hr|n r V S e q He Hc Hd Hr Hq IH|n r V S e c q He Hc Hr HS HV Hq IH]; intros Hsat;
    assert (He' : is_edge g n e) by (apply (kept_edge n e doc He Hdoc); intros c'; rewrite Hc; try done; intros [= <-]; apply Hsat; by left).
  - eapply route_end; [exact He'|done|congruence|done].
  - eapply route_skip; [exact He'|done|congruence|done|by apply IH].
  - eapply route_condition; [exact He'|done..|]. apply IH. intros c' Hc'. apply Hsat. by right.
Qed.

Lemma pruned_ok : graph_ok g rank.
Proof.
  destruct Hpr as [P1 P2 P3 P4 P5 P6 P7]. constructor; rewrite ?P1, ?P2, ?P6; try (by apply Hok).
  - intros i e He. by apply (go_edge _ _ Hok i), P4.
  - intros n edges i Hn Hl Hi. assert (Hlt : (Z.to_nat n < length (edges_of_node g0))%nat) by (rewrite <-P6; by eapply lookup_lt_Some).
    destruct (lookup_lt_is_Some_2 _ _ Hlt) as [edges0 Hl0]. destruct (P7 _ _ Hl0) as (edges' & Hl' & Hin). rewrite Hl in Hl'. injection Hl' as <-.
    apply Hin in Hi as [Hi (e & He)]. destruct (go_edges _ _ Hok n edges0 i Hn Hl0 Hi) as (Hi0 & e' & He' & Hs). split; [done|]. exists e. split; [done|].
    apply P4 in He. rewrite He in He'. by injection He' as ->.
  - intros i e He. by apply (go_succ _ _ Hok i), P4.
  - destruct (go_end _ _ Hok) as [Hend Hl]. split; [done|]. destruct (P7 _ _ Hl) as (edges & -> & Hin). f_equal. apply set_eq. intros i. rewrite Hin. set_solver.
  - intros i e c He. by apply (go_condition _ _ Hok i e c), P4.
Qed.
End ok.

Lemma graph_edges_ok g : graph_ok g rank → edges_ok g rank.
Proof.
  intros Hok. constructor; [apply Hok|]. intros n node Hn Hl.
  assert (Hlt : (Z.to_nat n < length (edges_of_node g))%nat) by (rewrite (go_nodes _ _ Hok); by eapply lookup_lt_Some).
  destruct (lookup_lt_is_Some_2 _ _ Hlt) as [edges Hedges]. exists edges. split; [done|]. intros i Hi.
  destruct (go_edges _ _ Hok n edges i Hn Hedges Hi) as (_ & e & He & Hs). exists e. split; [done|].
  destruct (go_succ _ _ Hok _ _ He) as (_ & node' & Hl' & Hd). rewrite Hs, Hl in Hl'. by injection Hl' as <-.
Qed.

(** The cost of a path is that of a chain. *)
Lemma route_chain g n r V S q : route g n r V S q → chain g n r.
Proof.
  induction 1 as [n r V S e He Hc Hd ->|n r V S e q He Hc Hd Hr Hq IH|n r V S e c q He Hc Hr HS HV Hq IH].
  - replace (edge_cost e) with (edge_cost e + 0) by lia. apply chain_edge; [done|]. rewrite Hd. constructor.
  - replace r with (edge_cost e + (r - edge_cost e)) by lia. by apply chain_edge.
  - replace r with (edge_cost e + (r - edge_cost e)) by lia. by apply chain_edge.
Qed.
End pruning.

(** ** The visit of a path *)

Section bucket.
Context `{RankingRuleGraphTrait}.
Variables (g0 : RankingRuleGraph) (rank : Z → nat).
Hypothesis Hok : graph_ok g0 rank.
(** The documents of a condition. *)
Variable csat : Condition → Z → Prop.
(** [resolve_condition] returns "the document ids associated with the given edge
    condition, restricted to the given universe". *)
Definition resolves : Prop := ∀ condition u, ∃ cc, resolve_condition condition u = Ok cc ∧
  (∀ doc, doc ∈ cc_docids cc ↔ doc ∈ u ∧ csat condition doc) ∧ cc_universe_len cc = bm_len u.
Hypothesis Hresolve : resolves.
Definition cond_sat (g : RankingRuleGraph) (c doc : Z) : Prop := ∃ condition, conditions_interner g !! Z.to_nat c = Some condition ∧ csat condition doc.
Notation sat := (cond_sat g0).
Definition valid_condition (c : Z) : Prop := 0 ≤ c ∧ (Z.to_nat c < length (conditions_interner g0))%nat.

(** The documents in the cache are those of a condition in a larger universe. *)
Definition cache_ok (cache : ConditionDocIdsCache) (u : bitmap) : Prop := ∀ c cc, cache !! c = Some cc →
  ∃ uc, u ⊆ uc ∧ (∀ doc, doc ∈ cc_docids cc ↔ doc ∈ uc ∧ sat c doc) ∧ cc_universe_len cc = bm_len uc.

Lemma cache_ok_mono cache u u' : u' ⊆ u → cache_ok cache u → cache_ok cache u'.
Proof. intros Hu Hc c cc Hl. destruct (Hc c cc Hl) as (uc & Huc & Hr). exists uc. split; [by etrans|done]. Qed.

Lemma cache_ok_insert cache u c cc : cache_ok cache u → (∀ doc, doc ∈ cc_docids cc ↔ doc ∈ u ∧ sat c doc) → cc_universe_len cc = bm_len u →
  cache_ok (<[c := cc]> cache) u.
Proof.
  intros Hc Hd Hl c' cc'. rewrite lookup_insert_Some. intros [[<- <-]|[_ Hcc]]; [by exists u|by apply Hc].
Qed.

Lemma get_computed_spec cache c g u : cache_ok cache u → conditions_interner g = conditions_interner g0 → valid_condition c →
  ∃ cc cache', get_computed_condition cache c g u = Ok (cc, cache') ∧ (∀ doc, doc ∈ cc_docids cc ↔ doc ∈ u ∧ sat c doc) ∧
    cache_ok cache' u ∧ is_Some (cache' !! c) ∧ ∀ k, is_Some (cache !! k) → is_Some (cache' !! k).
Proof.
  intros Hcache Hci [Hc0 Hcl]. unfold get_computed_condition.
  assert (Hins : ∀ cc, is_Some (<[c := cc]> cache !! c) ∧ ∀ k, is_Some (cache !! k) → is_Some (<[c := cc]> cache !! k)).
  { intros cc. split; [by rewrite lookup_insert_eq|]. intros k Hk. rewrite lookup_insert. case_decide; [done|exact Hk]. }
  destruct (cache !! c) as [cc|] eqn:Hl.
  - destruct (Hcache c cc Hl) as (uc & Huc & Hd & Hlen). destruct (Z.eqb_spec (cc_universe_len cc) (bm_len u)) as [Heq|Hne].
    + exists cc, cache. split; [done|]. split; [|by rewrite Hl]. rewrite Hlen in Heq.
      assert (u = uc) as ->; [|done]. apply set_subseteq_size_eq; [done|]. unfold bm_len in Heq. lia.
    + eexists _, _. split; [reflexivity|]. cbn. assert (Hd' : ∀ doc, doc ∈ cc_docids cc ∩ u ↔ doc ∈ u ∧ sat c doc).
      { intros doc. rewrite elem_of_intersection, Hd. specialize (Huc doc). tauto. }
      split; [done|]. split; [by apply cache_ok_insert|apply Hins].
  - unfold interner_get. rewrite Hci. destruct (lookup_lt_is_Some_2 _ _ Hcl) as [condition Hcond]. rewrite Hcond. cbn [unwrap mbind outcome_bind].
    destruct (Hresolve condition u) as (cc & -> & Hd & Hlen). cbn [mbind outcome_bind].
    assert (Hd' : ∀ doc, doc ∈ cc_docids cc ↔ doc ∈ u ∧ sat c doc).
    { intros doc. rewrite Hd. unfold cond_sat. rewrite Hcond. split; intros [? Hs]; (split; [done|]); [by exists condition|]. by destruct Hs as (? & [= <-] & ?). }
    eexists _, _. split; [reflexivity|]. split; [done|]. split; [by apply cache_ok_insert|apply Hins].
Qed.

(** The documents of each prefix of the previous path. *)
Definition subpaths_exact (u : bitmap) (l : list (Z * bitmap)) : Prop :=
  ∀ i c b, l !! i = Some (c, b) → ∀ doc, doc ∈ b ↔ doc ∈ u ∧ path_sat sat (take (S i) l.*1) doc.

Record path_inv (U0 : bitmap) (env : PathEnv) (g : RankingRuleGraph) (d : DeadEndsCache) : Prop := {
  pi_graph : pruned g0 sat g (pe_universe env);
  pi_dead : cache_sound sat d (pe_universe env);
  pi_cache : cache_ok (pe_cache env) (pe_universe env);
  pi_universe : pe_universe env ⊆ U0;
  pi_bucket : pe_bucket env = U0 ∖ pe_universe env;
  pi_subpaths : subpaths_exact (pe_universe env) (subpaths_docids env);
  pi_known : ∀ c, c ∈ (subpaths_docids env).*1 → is_Some (pe_cache env !! c);
  pi_good : ∀ p c, p ∈ good_paths env → c ∈ p → is_Some (pe_cache env !! c);
  pi_removed : ∀ n, n ∈ removed_nodes env → valid_node (query_graph g0) n ∧ ∃ node s, nodes (query_graph g0) !! Z.to_nat n = Some node ∧ s ∈ successors node;
  pi_same : ∀ n e, 0 ≤ n → n ∉ removed_nodes env → is_edge g0 n e → is_edge g n e;
}.

Lemma subpaths_exact_take u l k : subpaths_exact u l → subpaths_exact u (take k l).
Proof.
  intros Hl i c b Hi doc. rewrite lookup_take in Hi. case_decide as Hk; [|done]. rewrite (Hl i c b Hi doc), fmap_take, take_take. by rewrite Nat.min_l by lia.
Qed.

(** The documents of the whole previous path. *)
Lemma subpaths_last u l c b : subpaths_exact u l → last l = Some (c, b) → ∀ doc, doc ∈ b ↔ doc ∈ u ∧ path_sat sat l.*1 doc.
Proof.
  rewrite last_lookup. intros Hl Hi doc. rewrite (Hl _ c b Hi). apply lookup_lt_Some in Hi. by rewrite take_ge by (rewrite length_fmap; lia).
Qed.

Lemma subpaths_exact_snoc u l c b : subpaths_exact u l → (∀ doc, doc ∈ b ↔ doc ∈ u ∧ path_sat sat (l.*1 ++ [c]) doc) → subpaths_exact u (l ++ [(c, b)]).
Proof.
  intros Hl Hb i c' b' Hi doc. rewrite fmap_app. apply lookup_app_Some in Hi as [Hi|[Hi Hi']].
  - apply lookup_lt_Some in Hi as Hlt. rewrite take_app_le by (rewrite length_fmap; lia). by apply (Hl i c').
  - apply list_lookup_singleton_Some in Hi' as [Hi0 [= <- <-]]. rewrite take_ge by (rewrite length_app, length_fmap; cbn; lia). apply Hb.
Qed.

Lemma path_inv_take U0 env g d k : path_inv U0 env g d → path_inv U0 (set_subpaths (take k (subpaths_docids env)) env) g d.
Proof.
  intros [P1 P2 P3 P4 P5 P6 P7 P8 P9 P10]. constructor; cbn; try done; [by apply subpaths_exact_take|].
  intros c. rewrite fmap_take. intros Hc. apply P7. apply elem_of_take in Hc as (i & Hi & _). by eapply list_elem_of_lookup_2.
Qed.

Lemma forbid_after_prefixes_sound u c b : (∀ doc, doc ∈ b ↔ doc ∈ u ∧ sat c doc) → ∀ l l0 d,
  subpaths_exact u (l0 ++ l) → cache_sound sat d u → cache_sound sat (forbid_after_prefixes c b l0.*1 l d) u.
Proof.
  intros Hb. induction l as [|[c' b'] l IH]; intros l0 d Hl Hd; [done|]. cbn [forbid_after_prefixes].
  replace (l0.*1 ++ [c']) with (l0 ++ [(c', b')]).*1 by (by rewrite fmap_app). apply IH; [by rewrite <-app_assoc|].
  unfold bm_is_disjoint, bm_is_empty. case_bool_decide as Hdis; [|done]. intros p x. rewrite dead_forbid_after. case_decide as Hp; [|apply Hd].
  intros [Hx|Hx%elem_of_singleton]%elem_of_union; [by apply Hd|]. subst x p. intros doc Hdoc [Hpre Hc%path_sat_one]%path_sat_app.
  assert (doc ∈ b') as Hb'.
  { assert (Hi : (l0 ++ (c', b') :: l) !! length l0 = Some (c', b')) by (by rewrite list_lookup_middle).
    apply (Hl _ _ _ Hi doc). split; [done|]. rewrite cons_middle, app_assoc, fmap_app. rewrite take_app_le by (rewrite length_fmap, length_app; cbn; lia).
    by rewrite take_ge by (rewrite length_fmap, length_app; cbn; lia). }
  assert (doc ∈ b) by (by apply Hb). set_solver.
Qed.

(** What the visit of conditions keeps. *)
Record same_search (env env' : PathEnv) : Prop := {
  sv_universe : pe_universe env' = pe_universe env;
  sv_good : good_paths env' = good_paths env;
}.

Lemma visit_path_condition_spec U0 env g d c : path_inv U0 env g d → valid_condition c →
  ∃ success env' g' d', visit_path_condition env g d c = Ok (success, env', g', d') ∧ path_inv U0 env' g' d' ∧ same_search env env' ∧
    if success : bool then ∃ b, b ≠ ∅ ∧ subpaths_docids env' = subpaths_docids env ++ [(c, b)]
    else subpaths_docids env' = subpaths_docids env ∧ no_doc sat (pe_universe env) ((subpaths_docids env).*1 ++ [c]).
Proof.
  intros Hinv Hc. pose proof Hinv as [P1 P2 P3 P4 P5 P6 P7 P8 P9 P10].
  destruct (get_computed_spec (pe_cache env) c g (pe_universe env) P3 (pr_conditions _ _ _ _ P1) Hc) as (cc & cache' & Hget & Hdocs & Hcache & Hcin & Hkeep).
  unfold visit_path_condition. rewrite Hget. cbn [mbind outcome_bind]. set (env1 := set_pe_cache cache' env).
  assert (Hinv1 : path_inv U0 env1 g d).
  { constructor; try done; cbn; [intros k Hk; by apply Hkeep, P7|]. intros p k Hp Hk. by apply Hkeep, (P8 p k). }
  assert (Hlast : ∀ docids, docids = (match last (subpaths_docids env1) with Some (_, prev) => prev ∩ cc_docids cc | None => cc_docids cc end) →
    ∀ doc, doc ∈ docids ↔ doc ∈ pe_universe env ∧ path_sat sat ((subpaths_docids env).*1 ++ [c]) doc).
  { intros docids -> doc. rewrite path_sat_app, path_sat_one. change (subpaths_docids env1) with (subpaths_docids env).
    destruct (last (subpaths_docids env)) as [[c' b']|] eqn:Hl.
    - rewrite elem_of_intersection, Hdocs, (subpaths_last _ _ _ _ P6 Hl). tauto.
    - apply last_None in Hl. rewrite Hl, Hdocs. unfold path_sat. split; [intros [? ?]; split_and!; [done|by intros ? ?%elem_of_nil|done]|tauto]. }
  specialize (Hlast _ eq_refl). set (docids := match last _ with Some _ => _ | None => _ end) in *.
  unfold bm_is_empty at 1. case_bool_decide as Hempty.
  { assert (Hno : no_doc sat (pe_universe env) [c]) by (intros doc Hdoc Hs%path_sat_one; assert (doc ∈ cc_docids cc) by (by apply Hdocs); set_solver).
    assert (Hokg : graph_ok g rank) by (by eapply pruned_ok).
    destruct (remove_edges_spec g c) as (sources & g' & Hrem & Hqg & Hci & Hrm).
    { intros i e He. destruct (go_succ _ _ Hokg i e He) as (_ & node & Hl & _). rewrite (go_nodes _ _ Hokg). by eapply lookup_lt_Some. }
    rewrite Hrem. cbn [mbind outcome_bind]. eexists _, _, _, _. split; [reflexivity|]. split_and!; [|by constructor|done|].
    - pose proof (pruned_remove rank sat g c g' sources _ Hokg Hqg Hci Hrm Hno) as Hpr. destruct Hinv1 as [_ _ Q3 Q4 Q5 Q6 Q7 Q8 _ _]. constructor; [| |exact Q3|exact Q4|exact Q5|exact Q6|exact Q7|exact Q8| |]; cbn.
      + by apply (pruned_trans rank sat g0 g g' (pe_universe env) _ P1 Hpr).
      + intros p x. rewrite dead_forbid. case_decide as Hp; [|apply P2]. intros [?|Hx%elem_of_singleton]%elem_of_union; [by apply P2|]. by rewrite Hp, Hx.
      + intros n [Hn|Hn]%elem_of_union; [by apply P9|]. apply (rm_sources _ _ _ _ _ _ Hrm) in Hn as (i & e & _ & He & _ & <-).
        apply (pr_only _ _ _ _ P1) in He. destruct (go_succ _ _ Hok _ _ He) as (Hs0 & node & Hl & Hd). split; [|by exists node, (dest_node e)].
        split; [done|by eapply lookup_lt_Some].
      + intros n e Hn0 [Hn Hns]%not_elem_of_union He. eapply (removed_same rank sat g c g' sources); [done..|]. by apply P10.
    - eapply no_doc_sub; [|exact Hno]. intros y Hy. apply elem_of_app. by right. }
  unfold bm_is_empty. destruct (decide (docids = ∅)) as [Hd0|Hd0]; [rewrite bool_decide_true by done|rewrite bool_decide_false by done]; cbn [negb].
  - assert (Hno : no_doc sat (pe_universe env) ((subpaths_docids env).*1 ++ [c])) by (intros doc Hdoc Hs; assert (doc ∈ docids) by (by apply Hlast); set_solver).
    set (d' := forbid_condition_after_prefix _ _ d).
    assert (Hd' : cache_sound sat d' (pe_universe env)).
    { intros p x. unfold d'. rewrite dead_forbid_after. case_decide as Hp; [|apply P2]. intros [?|Hx%elem_of_singleton]%elem_of_union; [by apply P2|]. by rewrite Hp, Hx. }
    assert (Hinv2 : ∀ d2, cache_sound sat d2 (pe_universe env) → path_inv U0 env1 g d2) by (intros d2 Hd2; destruct Hinv1 as [Q1 _ Q3 Q4 Q5 Q6 Q7 Q8 Q9 Q10]; by constructor).
    destruct (Nat.leb_spec (length (subpaths_docids env1)) 1) as [Hle|Hgt]; (eexists _, _, _, _; split; [reflexivity|]; split_and!; [|by constructor|done|exact Hno]);
      apply Hinv2; [exact Hd'|].
    apply (forbid_after_prefixes_sound _ c (cc_docids cc) Hdocs _ []); [apply subpaths_exact_take, P6|exact Hd'].
  - eexists _, _, _, _. split; [reflexivity|]. split_and!; [|by constructor|by exists docids].
    destruct Hinv1 as [Q1 Q2 Q3 Q4 Q5 Q6 Q7 Q8 Q9 Q10]. constructor; try done; cbn; [by apply subpaths_exact_snoc|].
    intros k. rewrite fmap_app. change ([(c, docids)].*1) with [c]. rewrite elem_of_app, list_elem_of_singleton. intros [Hk|Hk]; [by apply Q7|]. by rewrite Hk.
Qed.

Lemma visit_path_conditions_spec U0 : ∀ path env g d, path_inv U0 env g d → (∀ c, c ∈ path → valid_condition c) →
  ∃ success env' g' d', visit_path_conditions path env g d = Ok (success, env', g', d') ∧ path_inv U0 env' g' d' ∧ same_search env env' ∧
    if success : bool then (subpaths_docids env').*1 = (subpaths_docids env).*1 ++ path ∧
      (path = [] → subpaths_docids env' = subpaths_docids env) ∧ (path ≠ [] → ∃ c b, last (subpaths_docids env') = Some (c, b) ∧ b ≠ ∅)
    else no_doc sat (pe_universe env) ((subpaths_docids env).*1 ++ path) ∧
      ∃ k, (subpaths_docids env').*1 = (subpaths_docids env).*1 ++ k ∧ k `prefix_of` path ∧ k ≠ path.
Proof.
  induction path as [|c path IH]; intros env g d Hinv Hc; cbn [visit_path_conditions].
  { eexists true, _, _, _. split; [reflexivity|]. split_and!; [done|by constructor|by rewrite app_nil_r|done|done]. }
  destruct (visit_path_condition_spec U0 env g d c Hinv) as (success & env1 & g1 & d1 & -> & Hinv1 & [S1 S2] & Hres); [apply Hc; by left|]. cbn [mbind outcome_bind].
  destruct success.
  - destruct Hres as (b & Hb & Hsub). destruct (IH env1 g1 d1 Hinv1) as (success & env2 & g2 & d2 & -> & Hinv2 & [T1 T2] & Hres); [intros k Hk; apply Hc; by right|].
    assert (Hsub' : (subpaths_docids env1).*1 = (subpaths_docids env).*1 ++ [c]) by (by rewrite Hsub, fmap_app).
    eexists success, _, _, _. split; [reflexivity|]. split_and!; [done|constructor; congruence|]. rewrite Hsub', <-app_assoc in Hres. destruct success.
    + destruct Hres as (Hr1 & Hr2 & Hr3). split_and!; [done|done|]. intros _. destruct path as [|c' path]; [|by apply Hr3].
      rewrite Hr2, Hsub by done. exists c, b. by rewrite last_snoc.
    + destruct Hres as (Hr1 & k & Hr2 & Hr3 & Hr4). rewrite S1 in Hr1. split; [done|]. exists (c :: k). rewrite Hr2, <-app_assoc. split_and!; [done|by apply prefix_cons|congruence].
  - destruct Hres as [Hsub Hno]. eexists false, _, _, _. split; [reflexivity|]. split_and!; [done|done| |].
    + rewrite cons_middle, app_assoc. by apply no_doc_app.
    + exists []. rewrite app_nil_r, Hsub. split_and!; [done|apply prefix_nil|done].
Qed.

Lemma idx_spec : ∀ path (l : list (Z * bitmap)), (take (idx_of_first_different_condition path l) l).*1 = take (idx_of_first_different_condition path l) path.
Proof.
  induction path as [|c path IH]; intros [|[c' b] l]; cbn [idx_of_first_different_condition]; try done.
  destruct (Z.eqb_spec c c') as [->|_]; [|done]. cbn [take fmap list_fmap]. f_equal. apply IH.
Qed.

(** ** The closure *)

(** The conditions of the paths to visit; none is followed by those of another. *)
Variable Good : list Z → Prop.
Hypothesis Hgood : ∀ p c, Good p → c ∈ p → valid_condition c.
Hypothesis Hfree : ∀ p q, Good p → Good q → p `prefix_of` q → p = q.
Definition begun (l : list Z) : Prop := l = [] ∨ ∃ p, Good p ∧ l `prefix_of` p ∧ l ≠ p.
Definition search_inv (U0 : bitmap) (env : PathEnv) (g : RankingRuleGraph) (d : DeadEndsCache) : Prop :=
  path_inv U0 env g d ∧ begun (subpaths_docids env).*1.

Lemma take_path_spec U0 env path g d : path_inv U0 env g d → Good path → (subpaths_docids env).*1 = path → pe_universe env ≠ ∅ →
  (∀ c b, last (subpaths_docids env) = Some (c, b) → b ≠ ∅) →
  ∃ stop env', take_path path env g d = Ok (stop, env', g, d) ∧ search_inv U0 env' g d ∧ pe_universe env' ⊆ pe_universe env ∧
    (∀ doc, doc ∈ pe_universe env → doc ∉ pe_universe env' → path_sat sat path doc) ∧ no_doc sat (pe_universe env') path ∧
    (stop = true → pe_universe env' = ∅).
Proof.
  intros [P1 P2 P3 P4 P5 P6 P7 P8 P9 P10] Hg Hpath Hu Hlast. unfold take_path.
  set (taken := match last _ with Some _ => _ | None => _ end).
  assert (Htaken : ∃ docids, taken = (docids, take (pred (length (subpaths_docids env))) (subpaths_docids env)) ∧ docids ≠ ∅ ∧
    ∀ doc, doc ∈ docids ↔ doc ∈ pe_universe env ∧ path_sat sat path doc).
  { unfold taken. destruct (last (subpaths_docids env)) as [[c b]|] eqn:Hl.
    - exists b. split_and!; [done|by eapply Hlast|]. rewrite <-Hpath. by eapply subpaths_last.
    - apply last_None in Hl. rewrite Hl in Hpath |- *. exists (pe_universe env). split_and!; [done|done|]. intros doc. subst path.
      split; [|tauto]. intros ?. split; [done|]. by intros ? ?%elem_of_nil. }
  destruct Htaken as (docids & -> & Hne & Hdocids). unfold bm_is_empty at 1. rewrite bool_decide_false by done.
  set (subpaths := take _ _). eexists _, _. split; [reflexivity|]. cbn [pe_universe]. split_and!; [split|set_solver| | |].
  - set (u' := pe_universe env ∖ docids). assert (Hu' : u' ⊆ pe_universe env) by (unfold u'; set_solver).
    assert (Hkeys : ((λ '(c, b), (c, b ∖ docids)) <$> subpaths).*1 = subpaths.*1) by (rewrite <-list_fmap_compose; apply list_fmap_ext; by intros i [c b]).
    constructor; cbn; try done.
    + by eapply pruned_mono.
    + intros p x Hx. eapply no_doc_mono; [exact Hu'|by apply P2].
    + by eapply cache_ok_mono.
    + by etrans.
    + rewrite P5. unfold u'. apply set_eq. intros x. rewrite !elem_of_union, !elem_of_difference. specialize (P4 x).
      pose proof (proj1 (Hdocids x)). destruct (decide (x ∈ docids)), (decide (x ∈ pe_universe env)); tauto.
    + intros i c b Hi doc. rewrite Hkeys. rewrite list_lookup_fmap in Hi. destruct (subpaths !! i) as [[c' b']|] eqn:Hi'; [|done]. injection Hi as <- <-.
      rewrite elem_of_difference, (subpaths_exact_take _ _ _ P6 i c' b' Hi' doc). unfold u'. rewrite elem_of_difference. tauto.
    + intros c. rewrite Hkeys. unfold subpaths. rewrite fmap_take. intros Hc. apply P7. apply elem_of_take in Hc as (i & Hi & _). by eapply list_elem_of_lookup_2.
    + intros p c [Hp|Hp%list_elem_of_singleton]%elem_of_app Hc; [by eapply P8|]. subst p. apply P7. by rewrite Hpath.
  - cbn. assert (Hkeys : ((λ '(c, b), (c, b ∖ docids)) <$> subpaths).*1 = subpaths.*1) by (rewrite <-list_fmap_compose; apply list_fmap_ext; by intros i [c b]).
    rewrite Hkeys. unfold subpaths. rewrite fmap_take, Hpath. destruct path as [|c path]; [left; by rewrite take_nil|right].
    exists (c :: path). split_and!; [done|apply prefix_take|]. intros Heq. apply (f_equal length) in Heq. rewrite length_take, <-Hpath, length_fmap in Heq.
    apply (f_equal length) in Hpath. rewrite length_fmap in Hpath. cbn in Hpath. lia.
  - intros doc Hdoc Hn. apply Hdocids. destruct (decide (doc ∈ docids)); [done|]. exfalso. apply Hn. by apply elem_of_difference.
  - intros doc [Hdoc Hn]%elem_of_difference Hs. by apply Hn, Hdocids.
  - unfold bm_is_empty. by rewrite bool_decide_eq_true.
Qed.

Lemma visit_path_spec U0 env path g d : search_inv U0 env g d → Good path →
  ∃ stop env' g' d', visit_path env path g d = Ok (stop, env', g', d') ∧ search_inv U0 env' g' d' ∧ pe_universe env' ⊆ pe_universe env ∧
    (∀ doc, doc ∈ pe_universe env → doc ∉ pe_universe env' → path_sat sat path doc) ∧ no_doc sat (pe_universe env') path ∧
    (stop = true → pe_universe env' = ∅).
Proof.
  intros [Hinv Hbegun] Hg. unfold visit_path, bm_is_empty at 1. case_bool_decide as Hu.
  { exists true, env, g, d. split_and!; [done|done|done|done| |done]. intros doc. rewrite Hu. set_solver. }
  set (idx := idx_of_first_different_condition path (subpaths_docids env)). pose proof (idx_spec path (subpaths_docids env)) as Hidx. fold idx in Hidx.
  pose proof (path_inv_take _ _ _ _ idx Hinv) as Hinv1. set (env1 := set_subpaths _ _) in *.
  destruct (visit_path_conditions_spec U0 (drop idx path) env1 g d Hinv1) as (success & env2 & g2 & d2 & -> & Hinv2 & [S1 S2] & Hres).
  { intros c Hc. apply (Hgood path); [done|]. rewrite <-(take_drop idx path). apply elem_of_app. by right. }
  cbn [mbind outcome_bind]. change (subpaths_docids env1) with (take idx (subpaths_docids env)) in Hres. rewrite Hidx, take_drop in Hres.
  change (pe_universe env1) with (pe_universe env) in Hres, S1. destruct success; cbn [negb].
  - destruct Hres as (Hr1 & Hr2 & Hr3). rewrite bool_decide_true by done. cbn [negb].
    destruct (take_path_spec U0 env2 path g2 d2 Hinv2 Hg Hr1) as (stop & env' & Heq & Hr); [by rewrite S1| |].
    + intros c b Hl. destruct (decide (drop idx path = [])) as [Hd|Hd]; [|destruct (Hr3 Hd) as (c' & b' & Hl' & Hb'); rewrite Hl in Hl'; by injection Hl' as <- <-].
      exfalso. rewrite (Hr2 Hd) in Hl. assert (Hp : take idx path = path) by (rewrite <-(take_drop idx path) at 2; by rewrite Hd, app_nil_r).
      rewrite Hp in Hidx. assert (Hpre : path `prefix_of` (subpaths_docids env).*1) by (rewrite <-Hidx, fmap_take; apply prefix_take).
      destruct Hbegun as [Hnil|(p & Hgp & Hpp & Hne)].
      * apply fmap_nil_inv in Hnil. rewrite Hnil, take_nil in Hl. done.
      * assert (path = p) as -> by (apply Hfree; [done|done|by etrans]). apply Hne. by apply (anti_symm prefix).
    + rewrite S1 in Hr. by exists stop, env', g2, d2.
  - destruct Hres as (Hno & k & Hr1 & Hr2 & Hr3). exists false, env2, g2, d2. rewrite S1. split_and!; [done| |done|done|done|done]. split; [done|]. right.
    exists path. rewrite Hr1. pose proof (prefix_app (take idx path) _ _ Hr2) as Hp. rewrite take_drop in Hp. split_and!; [done|exact Hp|].
    intros Heq. apply Hr3. apply (app_inv_head (take idx path)). by rewrite take_drop.
Qed.
End bucket.

(** ** A bucket *)

Section next.
Context `{RankingRuleGraphTrait}.
(** The graph that was built, and its conditions. *)
Variables (G : RankingRuleGraph) (rank : Z → nat) (csat : Condition → Z → Prop).
Hypothesis HG : graph_ok G rank.
Hypothesis Hresolve : resolves csat.
Notation sat := (cond_sat csat G).
Notation root g := (root_node (query_graph g)).

(** The paths of a cost. *)
Definition path_of (g : RankingRuleGraph) (cost : Z) (q : list Z) : Prop := route g (root g) cost ∅ ∅ q.
(** The conditions of a path are not followed by others in a path of the same
    cost. *)
Definition prefix_free : Prop := ∀ cost p q, path_of G cost p → path_of G cost q → p `prefix_of` q → p = q.
Hypothesis Hfree : prefix_free.

(** A document satisfies a path of a cost. *)
Definition matches (cost doc : Z) : Prop := ∃ q, path_of G cost q ∧ path_sat sat q doc.

(** The state of the rule, between two buckets: what is known of the universe that
    is left. *)
Record state_ok (u : bitmap) (st : GraphBasedRankingRuleState) : Prop := {
  so_graph : pruned G sat (rs_graph st) u;
  so_dead : cache_sound sat (rs_dead_ends st) u;
  so_cache : cache_ok G csat (conditions_cache st) u;
  so_length : length (all_costs st) = length (nodes (query_graph G));
  so_costs : ∀ n, valid_node (query_graph G) n → exact (rs_graph st) (all_costs st) n;
  so_past : ∀ cost doc, cost < cur_cost st → doc ∈ u → ¬ matches cost doc;
}.

Lemma cond_sat_same g : conditions_interner g = conditions_interner G → cond_sat csat g = sat.
Proof. intros Hci. unfold cond_sat. by rewrite Hci. Qed.

Lemma route_conditions g n r V S q : graph_ok g rank → route g n r V S q → ∀ c, c ∈ q → valid_condition g c.
Proof.
  intros Hok. induction 1 as [n r V S e He Hc Hd Hr|n r V S e q He Hc Hd Hr Hq IH|n r V S e c q He Hc Hr HS HV Hq IH]; intros c' Hin; [by apply elem_of_nil in Hin|by apply IH|].
  apply elem_of_cons in Hin as [->|Hin]; [|by apply IH]. destruct He as (edges & i & _ & _ & He). exact (go_condition _ _ Hok _ e _ He Hc).
Qed.

Lemma chain_mono (P : Z → Prop) g g' n r : end_node (query_graph g) = end_node (query_graph g') →
  (∀ m e, P m → is_edge g m e → is_edge g' m e ∧ P (dest_node e)) → P n → chain g n r → chain g' n r.
Proof.
  intros Hend Hedge Hn Hc. revert Hn. induction Hc as [|m e r' He Hc IH]; intros Hn; [rewrite Hend; constructor|].
  destruct (Hedge m e Hn He) as [He' Hd]. apply chain_edge; [done|by apply IH].
Qed.

(** The costs once a bucket is known. *)
Lemma update_costs_after_spec g g' removed costs : graph_ok g rank → graph_ok g' rank → query_graph g' = query_graph g →
  (∀ n e, is_edge g' n e → is_edge g n e) → (∀ n e, 0 ≤ n → n ∉ removed → is_edge g n e → is_edge g' n e) →
  (∀ n, n ∈ removed → valid_node (query_graph g) n ∧ ∃ node s, nodes (query_graph g) !! Z.to_nat n = Some node ∧ s ∈ successors node) →
  length costs = length (nodes (query_graph g)) → (∀ n, valid_node (query_graph g) n → exact g costs n) →
  ∃ costs', update_costs_after g' removed costs = Ok costs' ∧ length costs' = length (nodes (query_graph g)) ∧
    ∀ n, valid_node (query_graph g) n → exact g' costs' n.
Proof.
  intros Hg Hg' Hq Hsub Hsame Hrem Hlen Hcosts. unfold update_costs_after. pose proof (graph_edges_ok rank g' Hg') as Hok'. rewrite <-Hq in Hrem, Hlen, Hcosts |- *.
  destruct (Z.eqb_spec (bm_len removed) 1) as [Hone|Hone]; [|destruct (Z.ltb_spec 1 (bm_len removed)) as [Htwo|Htwo]].
  - unfold bm_min. pose proof (length_bm_iter removed) as Hl. rewrite Hone in Hl. destruct (bm_iter removed) as [|n [|m l]] eqn:Hiter; [done| |cbn in Hl; lia].
    assert (Hin : ∀ x, x ∈ removed ↔ x = n) by (intros x; by rewrite <-elem_of_bm_iter, Hiter, list_elem_of_singleton).
    cbn [head unwrap mbind outcome_bind]. destruct (Hrem n) as [Hn Hsucc]; [by apply Hin|].
    apply (update_costs_exact g' rank Hok' g n); try done. intros m e Hm Hne. apply Hsame; [done|]. by rewrite Hin.
  - by apply (find_all_costs_exact g' rank Hok').
  - exists costs. split_and!; [done|done|]. assert (Hempty : removed = ∅) by (apply leibniz_equiv, size_empty_inv; unfold bm_len in *; lia).
    assert (Hdest : ∀ n e, is_edge g n e → valid_node (query_graph g') (dest_node e)).
    { intros n e (edges & i & _ & _ & He). destruct (go_edge _ _ Hg _ _ He) as (_ & ? & ? & _). unfold valid_node. by rewrite Hq, <-(go_nodes _ _ Hg). }
    intros n Hn. destruct (Hcosts n Hn) as (l & Hl & Hs & Hr). exists l. split_and!; [done|done|]. intros r. rewrite Hr.
    split; (apply (chain_mono (valid_node (query_graph g'))); [by rewrite Hq| |done]); intros m e Hm He.
    + split; [apply Hsame; [apply Hm|set_solver|done]|by eapply Hdest].
    + split; [by apply Hsub|by eapply Hdest, Hsub].
Qed.

(** The paths of a cost are searched in the graph that is left, whose paths are
    those of the documents that are left. *)
Lemma search_cost u st cost : state_ok u st → chain (rs_graph st) (root G) cost →
  ∃ g d env, visit_paths visit_path (all_costs st) cost (rs_graph st) (rs_dead_ends st) (mkPathEnv u ∅ (conditions_cache st) [] ∅ []) = Ok (g, d, env) ∧
    path_inv (rs_graph st) csat u env g d ∧ pe_universe env ⊆ u ∧
    ∀ doc, doc ∈ u ∖ pe_universe env ↔ doc ∈ u ∧ matches cost doc.
Proof.
  intros [S1 S2 S3 S4 S5 S6] Hchain. set (g0 := rs_graph st) in *. pose proof (pruned_ok rank sat G g0 u HG S1) as Hg0.
  pose proof (cond_sat_same g0 (pr_conditions _ _ _ _ S1)) as Hsat. pose proof (pr_query _ _ _ _ S1) as Hq.
  set (Good := path_of g0 cost).
  assert (Hgood : ∀ p c, Good p → c ∈ p → valid_condition g0 c) by (intros p c Hp; by eapply route_conditions).
  assert (HgoodG : ∀ p, Good p → path_of G cost p) by (intros p Hp; unfold Good, path_of in Hp; rewrite Hq in Hp; by eapply pruned_route).
  assert (Hfree0 : ∀ p q, Good p → Good q → p `prefix_of` q → p = q) by (intros p q Hp Hq'; apply (Hfree cost); by apply HgoodG).
  destruct (visit_paths_exhausts g0 rank Hg0 (cond_sat csat g0) visit_path (all_costs st) pe_universe (search_inv g0 csat Good u) Good)
    with (cost := cost) (g := g0) (d := rs_dead_ends st) (env := mkPathEnv u ∅ (conditions_cache st) [] ∅ []) as (g & d & env & Heq & [Hinv _] & Hsub & Htaken & Hno).
  - intros env g d [Hinv _]. by apply (pi_graph _ _ _ _ _ _ Hinv).
  - intros env g d [Hinv _]. by apply (pi_dead _ _ _ _ _ _ Hinv).
  - intros env p g d Hinv Hp. by apply (visit_path_spec g0 rank Hg0 csat Hresolve Good Hgood Hfree0 u env p g d).
  - intros n Hn Hl. assert (Hv : valid_node (query_graph G) n) by (split; [done|]; by rewrite <-Hq, <-(go_nodes _ _ Hg0)).
    destruct (S5 n Hv) as (costs & Hcosts & _ & Hr). exists costs. split_and!; [done| |].
    + intros r V S q Hroute. apply Hr. by eapply route_chain.
    + intros -> r. rewrite Hr. by apply (chain_of_end g0 rank (graph_edges_ok rank g0 Hg0)).
  - split; [|by left]. rewrite <-Hsat in S2. constructor; cbn; try done.
    + by apply (pruned_refl rank).
    + intros c cc Hc. destruct (S3 c cc Hc) as (uc & Huc & Hd & Hlen). exists uc. split_and!; [done| |done]. intros doc. by rewrite Hsat.
    + apply set_eq. set_solver.
    + intros c. by intros ?%elem_of_nil.
    + set_solver.
  - done.
  - exists g, d, env. split_and!; [exact Heq|exact Hinv|exact Hsub|]. rewrite Hsat in Htaken, Hno. intros doc. rewrite elem_of_difference. split.
    + intros [Hdoc Hn]. split; [done|]. destruct (Htaken doc Hdoc Hn) as (p & Hp & Hs). exists p. split; [by apply HgoodG|done].
    + intros [Hdoc (q & Hq' & Hs)]. split; [done|]. intros Hin. refine (Hno q _ doc Hin Hs).
      rewrite Hq. by eapply (kept_route sat G g0 u).
Qed.

(** The state once a bucket was taken. *)
Lemma next_state u st cost g d env : state_ok u st → path_inv (rs_graph st) csat u env g d → pe_universe env ⊆ u →
  (∀ c doc, c ≤ cost → doc ∈ pe_universe env → ¬ matches c doc) →
  ∃ costs, update_costs_after g (removed_nodes env) (all_costs st) = Ok costs ∧
    state_ok (pe_universe env) (mkGraphRuleState g (pe_cache env) d costs (cost + 1) (next_max_cost st)).
Proof.
  intros [S1 S2 S3 S4 S5 S6] [P1 P2 P3 P4 P5 P6 P7 P8 P9 P10] Hsub Hpast. set (g0 := rs_graph st) in *.
  pose proof (pruned_ok rank sat G g0 u HG S1) as Hg0. pose proof (cond_sat_same g0 (pr_conditions _ _ _ _ S1)) as Hsat. pose proof (pr_query _ _ _ _ S1) as Hq.
  rewrite Hsat in P1, P2. pose proof (pruned_ok rank sat g0 g _ Hg0 P1) as Hg.
  destruct (update_costs_after_spec g0 g (removed_nodes env) (all_costs st) Hg0 Hg (pr_query _ _ _ _ P1)) as (costs & Hcosts & Hlen & Hexact); [| | | |by rewrite Hq|].
  - intros n e. by apply (pruned_edge sat g0 g (pe_universe env)).
  - done.
  - done.
  - by rewrite Hq.
  - exists costs. split; [exact Hcosts|]. rewrite Hq in Hlen, Hexact. constructor; cbn; try done.
    + by apply (pruned_trans rank sat G g0 g u _ S1 P1).
    + intros c cc Hc. destruct (P3 c cc Hc) as (uc & Huc & Hd & Hl). exists uc. split_and!; [done| |done]. intros doc. by rewrite <-Hsat.
    + intros c doc Hc. apply Hpast. lia.
Qed.

Lemma known_subsets (cache : ConditionDocIdsCache) (paths : list (list Z)) : (∀ p c, p ∈ paths → c ∈ p → is_Some (cache !! c)) →
  ∃ l, collect (E := QueryError) (collect (get_subsets_used_by_condition cache)) paths = Ok l.
Proof.
  intros Hknown. apply collect_total, Forall_forall. intros p Hp. apply collect_total, Forall_forall. intros c Hc. destruct (Hknown p c Hp Hc) as [cc Hcc].
  unfold get_subsets_used_by_condition. rewrite Hcc. by eexists.
Qed.

Lemma find_least k l : StronglySorted Z.le l → match find (λ c, k <=? c) l with
  | None => ∀ r, r ∈ l → r < k
  | Some cost => k ≤ cost ∧ cost ∈ l ∧ ∀ r, r ∈ l → k ≤ r → cost ≤ r
  end.
Proof.
  induction 1 as [|c l Hs IH Hf]; cbn [find]; [by intros r ?%elem_of_nil|]. destruct (Z.leb_spec k c) as [Hle|Hlt].
  - split_and!; [done|by left|]. intros r [->|Hin]%elem_of_cons _; [done|]. rewrite Forall_forall in Hf. by apply Hf.
  - destruct (find _ l) as [cost|].
    + destruct IH as (IH1 & IH2 & IH3). split_and!; [done|by right|]. intros r [->|Hin]%elem_of_cons Hr; [lia|by apply IH3].
    + intros r [->|Hin]%elem_of_cons; [done|by apply IH].
Qed.

(** The next cost is the least that is left. *)
Lemma next_cost u st root_costs : state_ok u st → all_costs st !! Z.to_nat (root G) = Some root_costs →
  match find (λ c, cur_cost st <=? c) root_costs with
  | None => ∀ r, chain (rs_graph st) (root G) r → r < cur_cost st
  | Some cost => cur_cost st ≤ cost ∧ chain (rs_graph st) (root G) cost ∧ ∀ r, chain (rs_graph st) (root G) r → cur_cost st ≤ r → cost ≤ r
  end.
Proof.
  intros [S1 S2 S3 S4 S5 S6] Hl. destruct (S5 (root G)) as (costs & Hl' & Hs & Hr).
  { destruct (go_root _ _ HG) as [H0' Hlt]. rewrite (go_nodes _ _ HG) in Hlt. done. }
  rewrite Hl in Hl'. injection Hl' as <-. pose proof (find_least (cur_cost st) root_costs Hs) as Hf. destruct (find _ root_costs) as [cost|].
  - destruct Hf as (Hf1 & Hf2 & Hf3). split_and!; [done|by apply Hr|]. intros r Hc. by apply Hf3, Hr.
  - intros r Hc. by apply Hf, Hr.
Qed.

(** Documents left match no cost without a chain. *)
Lemma matches_chain u st cost doc : state_ok u st → doc ∈ u → matches cost doc → chain (rs_graph st) (root G) cost.
Proof.
  intros Hst Hdoc (q & Hq & Hs). eapply route_chain. by apply (kept_route sat G (rs_graph st) u (so_graph _ _ Hst) _ _ _ _ q doc Hq).
Qed.

Lemma next_bucket_least r u st : gr_state r = Some st → state_ok u st →
  (graph_next_bucket r u = Ok (None, mkGraphRule (gr_id r) (terms_matching_strategy r) None) ∧ ∀ cost doc, doc ∈ u → ¬ matches cost doc) ∨
  ∃ cost bucket paths st', (cur_cost st ≤ cost ∧ chain G (root G) cost) ∧ cur_cost st' = cost + 1 ∧ next_max_cost st' = next_max_cost st ∧
    graph_next_bucket r u = (query ← map_err Some (build_from_paths paths);
      Ok (Some (mkRankingRuleOutput query bucket (rank_to_score (mkRank (u32_wrap (next_max_cost st - cost)) (u32_wrap (next_max_cost st))))),
          mkGraphRule (gr_id r) (terms_matching_strategy r) (Some st'))) ∧
    (∀ doc, doc ∈ bucket ↔ doc ∈ u ∧ matches cost doc ∧ ∀ c, c < cost → ¬ matches c doc) ∧ state_ok (u ∖ bucket) st'.
Proof.
  intros Hst Hok. pose proof Hok as [S1 S2 S3 S4 S5 S6]. unfold graph_next_bucket. rewrite Hst. cbn [unwrap mbind outcome_bind]. rewrite (pr_query _ _ _ _ S1).
  destruct (S5 (root G)) as (root_costs & Hl & _). { destruct (go_root _ _ HG) as [H0' Hlt]. rewrite (go_nodes _ _ HG) in Hlt. done. }
  unfold interner_get. rewrite Hl. cbn [unwrap mbind outcome_bind]. pose proof (next_cost u st root_costs Hok Hl) as Hnext.
  destruct (find _ root_costs) as [cost|].
  2: { left. split; [done|]. intros cost doc Hdoc Hm. pose proof (Hnext cost (matches_chain u st cost doc Hok Hdoc Hm)). by apply (S6 cost doc). }
  right. destruct Hnext as (Hcur & Hchain & Hleast). destruct (search_cost u st cost Hok Hchain) as (g & d & env & -> & Hinv & Hsub & Hdocs). cbn [mbind outcome_bind].
  assert (Hpast : ∀ c doc, c < cost → doc ∈ u → ¬ matches c doc).
  { intros c doc Hc Hdoc Hm. destruct (decide (c < cur_cost st)) as [Hlt|Hge]; [by apply (S6 c doc)|].
    pose proof (Hleast c (matches_chain u st c doc Hok Hdoc Hm)). lia. }
  destruct (known_subsets (pe_cache env) (good_paths env)) as [paths Hpaths]; [apply Hinv|]. rewrite Hpaths. cbn [map_err mbind outcome_bind].
  destruct (next_state u st cost g d env Hok Hinv Hsub) as (costs & -> & Hst').
  { intros c doc Hc Hdoc Hm. destruct (decide (c = cost)) as [->|Hne]; [|apply (Hpast c doc); [lia|by apply Hsub|done]].
    specialize (Hdocs doc). assert (doc ∈ u) by (by apply Hsub). assert (doc ∈ u ∖ pe_universe env) as Hin by (by apply Hdocs). set_solver. }
  assert (HchainG : chain G (root G) cost).
  { revert Hchain. apply (chain_mono (λ _, True)); [by rewrite (pr_query _ _ _ _ S1)| |done]. intros m e _ He. split; [|done].
    by apply (pruned_edge sat G (rs_graph st) u). }
  exists cost, (u ∖ pe_universe env), paths. eexists. split_and!; [done|done| | |..].
  4: { intros doc. rewrite Hdocs. split; [|tauto]. intros [Hdoc Hm]. split_and!; [done|done|]. intros c Hc. by apply Hpast. }
  4: { replace (u ∖ (u ∖ pe_universe env)) with (pe_universe env); [exact Hst'|]. apply set_eq. intros x. rewrite !elem_of_difference. specialize (Hsub x). destruct (decide (x ∈ pe_universe env)); tauto. }
  3: { rewrite (pi_bucket _ _ _ _ _ _ Hinv). cbn [mbind outcome_bind]. reflexivity. }
  - done.
  - done.
Qed.
End next.

(** ** The graph that is built *)

Section build.
Context `{RankingRuleGraphTrait}.
Variables (q : QueryGraph) (rank : Z → nat).
Hypothesis Hq : query_ok q rank.
Hypothesis Hrank : ∀ n, (Z.to_nat n < length (nodes q))%nat → (rank n < length (nodes q))%nat.
Hypothesis Hroot : 0 ≤ root_node q ∧ (Z.to_nat (root_node q) < length (nodes q))%nat.
(** The rules add their conditions to the interner, and their costs are [u32]. *)
Definition builds : Prop := ∀ conditions source dest conditions' edges, build_edges conditions source dest = Ok (conditions', edges) →
  conditions `prefix_of` conditions' ∧ ∀ cost c, (cost, c) ∈ edges → 0 ≤ cost ∧ 0 ≤ c ∧ (Z.to_nat c < length conditions')%nat.
Hypothesis Hbuild : builds.

Definition edge_built (conditions : list Condition) (e : Edge) : Prop :=
  0 ≤ edge_cost e ∧ 0 ≤ source_node e ∧ (∃ node, nodes q !! Z.to_nat (source_node e) = Some node ∧ dest_node e ∈ successors node) ∧
  ∀ c, edge_condition e = Some c → dest_node e ≠ end_node q ∧ 0 ≤ c ∧ (Z.to_nat c < length conditions)%nat.
Definition edges_built (conditions : list Condition) (edges : list Edge) : Prop := Forall (edge_built conditions) edges.
Definition node_built (edges : list Edge) (n : Z) (of_node : bitmap) : Prop :=
  ∀ i, i ∈ of_node → 0 ≤ i ∧ ∃ e, edges !! Z.to_nat i = Some e ∧ source_node e = n.

Lemma edges_built_mono conditions conditions' edges : conditions `prefix_of` conditions' → edges_built conditions edges → edges_built conditions' edges.
Proof.
  intros Hp%prefix_length Hf. eapply Forall_impl; [exact Hf|]. intros e (Hb1 & Hb2 & Hb3 & Hb4). split_and!; try done. intros c Hc.
  destruct (Hb4 c Hc) as (? & ? & ?). split_and!; [done|done|lia].
Qed.
Lemma node_built_mono edges edges' n b : edges `prefix_of` edges' → node_built edges n b → node_built edges' n b.
Proof. intros Hp Hb i Hi. destruct (Hb i Hi) as (? & e & He & ?). split; [done|]. exists e. split; [by eapply prefix_lookup_Some|done]. Qed.

(** A build of the edges of a node. *)
Definition build_ok (n : Z) (b : Build) : Prop := edges_built (bu_conditions b) (bu_edges b) ∧ node_built (bu_edges b) n (bu_of_node b).
Definition build_extends (b b' : Build) : Prop := bu_conditions b `prefix_of` bu_conditions b' ∧ bu_edges b `prefix_of` bu_edges b'.

Lemma add_edge_ok n b e b' : build_ok n b → edge_built (bu_conditions b) e → source_node e = n → add_edge b e = Ok b' → build_ok n b' ∧ build_extends b b'.
Proof.
  intros [Hb1 Hb2] He Hs. unfold add_edge, insert_edge. destruct (list_find _ _) as [[i f]|] eqn:Hf; cbn [mbind outcome_bind].
  - apply list_find_Some in Hf as (Hi & Heq & _). intros [= <-]. split; [|by split]. split; [done|]. cbn. intros j [Hj|Hj%elem_of_singleton]%elem_of_union; [by apply Hb2|]. subst j.
    split; [lia|]. exists f. rewrite Nat2Z.id. split; [done|]. unfold edge_eqb in Heq. rewrite !andb_true_iff in Heq. destruct Heq as [[[Heq _] _] _]. apply Z.eqb_eq in Heq. congruence.
  - destruct (_ <? _); [|done]. cbn [mbind outcome_bind]. intros [= <-]. split; [split|split; [done|by apply prefix_app_r]].
    + cbn. apply Forall_app. split; [done|by apply Forall_singleton].
    + cbn. intros j [Hj|Hj%elem_of_singleton]%elem_of_union.
      * destruct (Hb2 j Hj) as (? & f & Hf' & ?). split; [done|]. exists f. split; [by apply lookup_app_l_Some|done].
      * subst j. split; [lia|]. exists e. rewrite Nat2Z.id. split; [by rewrite list_lookup_middle|done].
Qed.

Lemma build_edges_to_ok costs n node b dest_idx b' : build_ok n b → 0 ≤ n → nodes q !! Z.to_nat n = Some node → dest_idx ∈ successors node →
  build_edges_to q costs n node b dest_idx = Ok b' → build_ok n b' ∧ build_extends b b'.
Proof.
  intros Hb Hn Hl Hd. unfold build_edges_to. intros (src_term & _ & Hr)%bind_Ok. apply bind_Ok in Hr as (dest & Hdest & Hr).
  assert (Hedge : ∀ conditions cost skip, 0 ≤ cost → edge_built conditions (mkEdge n dest_idx cost None skip)).
  { intros conditions cost skip Hc. split_and!; [done|done|by exists node|]. intros c Hcc. by cbn in Hcc. }
  destruct (node_data dest) as [dest_term| | |] eqn:Hdata; try done; [|by eapply add_edge_ok; [exact Hb|apply Hedge| |exact Hr]].
  apply bind_Ok in Hr as (ignoring & _ & Hr). apply bind_Ok in Hr as (b1 & Hb1 & Hr). apply bind_Ok in Hr as ([conditions edges] & Hedges & Hr).
  assert (Hok1 : build_ok n b1 ∧ build_extends b b1).
  { destruct ignoring as [[cost forbidden]|]; [|injection Hb1 as <-; by split]. eapply add_edge_ok; [exact Hb|apply Hedge|reflexivity|exact Hb1]. apply Z.mod_pos_bound. lia. }
  destruct Hok1 as [[Ho1 Ho2] [He1 He2]]. destruct (Hbuild _ _ _ _ _ Hedges) as [Hpre Hc].
  assert (Hend : dest_idx ≠ end_node q).
  { intros ->. destruct (qo_end _ _ Hq) as (_ & enode & Hel & _ & Hed). unfold interner_get in Hdest. rewrite Hel in Hdest. injection Hdest as <-. by rewrite Hed in Hdata. }
  assert (Hinv : build_ok n b' ∧ build_extends (mkBuild conditions (bu_edges b1) (bu_of_node b1)) b').
  { revert Hr. apply (for_each_inv (λ b', build_ok n b' ∧ build_extends (mkBuild conditions (bu_edges b1) (bu_of_node b1)) b')).
    - split; [split; [by eapply edges_built_mono|done]|by split].
    - intros s [cost c] s1 Hin [Hs1 [Hs2 Hs3]] Hadd. destruct (Hc cost c Hin) as (? & ? & ?). destruct (add_edge_ok n s (mkEdge n dest_idx cost (Some c) ∅) s1 Hs1) as [Hs1' [Hs2' Hs3']]; [|done|exact Hadd|].
      + split_and!; [done|done|by exists node|]. intros c' [= <-]. split_and!; [done|done|]. apply prefix_length in Hs2. cbn in Hs2. lia.
      + split; [done|]. split; [by etrans|by etrans]. }
  destruct Hinv as [Hinv [Hi1 Hi2]]. split; [done|]. cbn in Hi1, Hi2. split; [etrans; [exact He1|]; by etrans|by etrans].
Qed.

(** The edges of the first [k] nodes. *)
Definition built (k : nat) (st : list Condition * list Edge * list bitmap) : Prop :=
  let '(conditions, edges, of_node) := st in
  edges_built conditions edges ∧ length of_node = k ∧
  ∀ n b node, of_node !! n = Some b → nodes q !! n = Some node → node_built edges (Z.of_nat n) b ∧ (successors node = ∅ → b = ∅).

Lemma build_edges_of_ok costs k st st' : built k st → build_edges_of q costs st (Z.of_nat k) = Ok st' → built (S k) st'.
Proof.
  destruct st as [[conditions edges] of_node]. intros (Hb1 & Hb2 & Hb3). unfold build_edges_of. intros (source & Hsource & Hr)%bind_Ok.
  apply bind_Ok in Hr as (b & Hb & [= <-]). unfold interner_get in Hsource. rewrite Nat2Z.id in Hsource. destruct (nodes q !! k) as [node|] eqn:Hl; [|done]. injection Hsource as <-.
  assert (Hinv : build_ok (Z.of_nat k) b ∧ build_extends (mkBuild conditions edges ∅) b).
  { revert Hb. apply (for_each_inv (λ b, build_ok (Z.of_nat k) b ∧ build_extends (mkBuild conditions edges ∅) b)).
    - split; [split; [done|intros i; cbn; set_solver]|by split].
    - intros s dest s1 Hdest%elem_of_bm_iter [Hs1 [Hs2 Hs3]] Hadd. destruct (build_edges_to_ok costs (Z.of_nat k) node s dest s1 Hs1) as [Hs1' [Hs2' Hs3']]; try done; [lia|by rewrite Nat2Z.id|].
      split; [done|]. split; [by etrans|by etrans]. }
  destruct Hinv as [[Ho1 Ho2] [He1 He2]]. cbn in He1, He2. split_and!; [done|rewrite length_app; cbn; lia|]. intros n b' node' Hn Hln.
  apply lookup_app_Some in Hn as [Hn|[Hn Hn']].
  - destruct (Hb3 n b' node' Hn Hln) as [Hnb Hne]. split; [by eapply node_built_mono|done].
  - apply list_lookup_singleton_Some in Hn' as [Hn' <-]. assert (n = k) as -> by lia. split; [done|]. rewrite Hl in Hln. injection Hln as <-. intros Hs. rewrite Hs in Hb.
    replace (bm_iter ∅) with ([] : list Z) in Hb by done. cbn in Hb. by injection Hb as <-.
Qed.

Lemma build_graph_ok costs g : build q costs = Ok g → graph_ok g rank ∧ query_graph g = q.
Proof.
  unfold build. intros ([[conditions edges] of_node] & Hloop & [= <-])%bind_Ok. split; [|done].
  assert (Hall : ∀ m k st st', built k st → for_each (build_edges_of q costs) st (Z.of_nat <$> seq k m) = Ok st' → built (k + m) st').
  { induction m as [|m IH]; intros k st st' Hb; cbn [seq fmap list_fmap for_each]; [intros [= <-]; by rewrite Nat.add_0_r|].
    intros (s & Hs & Hr)%bind_Ok. replace (k + S m)%nat with (S k + m)%nat by lia. eapply IH; [|exact Hr]. by eapply build_edges_of_ok. }
  assert (H0' : built 0 ([], [], [])) by (split_and!; [constructor|done|by intros n b node Hn; rewrite lookup_nil in Hn]).
  destruct (Hall _ _ _ _ H0' Hloop) as (Hb1 & Hb2 & Hb3). cbn in Hb2.
  assert (Hedges : ∀ i e, (Some <$> edges) !! i = Some (Some e) → edges !! i = Some e ∧ edge_built conditions e).
  { intros i e. rewrite list_lookup_fmap. destruct (edges !! i) as [e'|] eqn:He; [|done]. intros [= ->]. split; [done|]. by eapply Forall_lookup_1. }
  assert (Hnode : ∀ n b, of_node !! n = Some b → ∃ node, nodes q !! n = Some node ∧ node_built edges (Z.of_nat n) b ∧ (successors node = ∅ → b = ∅)).
  { intros n b Hn. destruct (lookup_lt_is_Some_2 (nodes q) n) as [node Hl]; [rewrite <-Hb2; by eapply lookup_lt_Some|]. exists node. split; [done|by apply Hb3]. }
  constructor; cbn [query_graph edges_store edges_of_node conditions_interner]; rewrite ?Hb2; try done.
  - intros i e [_ (He1 & He2 & (node & Hl & Hd) & He4)]%Hedges. destruct (qo_succ _ _ Hq _ node _ He2 Hl Hd) as (? & Hr & node' & Hl' & _).
    split_and!; [done|done|by eapply lookup_lt_Some|done|]. intros [c Hc]. by destruct (He4 c Hc).
  - intros n b i Hn Hl Hi. destruct (Hnode _ _ Hl) as (node & _ & Hnb & _). destruct (Hnb i Hi) as (? & e & He & Hs). split; [done|].
    exists e. rewrite list_lookup_fmap, He. split; [done|lia].
  - intros i e [_ (He1 & He2 & (node & Hl & Hd) & He4)]%Hedges. split; [done|by exists node].
  - destruct (qo_end _ _ Hq) as (Hend & node & Hl & Hs & _). split; [done|].
    destruct (lookup_lt_is_Some_2 of_node (Z.to_nat (end_node q))) as [b Hb]; [rewrite Hb2; by eapply lookup_lt_Some|].
    destruct (Hnode _ _ Hb) as (node' & Hl' & _ & He). rewrite Hl in Hl'. injection Hl' as <-. rewrite Hb. by rewrite He.
  - intros i e c [_ (_ & _ & _ & He4)]%Hedges Hc. by apply He4.
Qed.
End build.

(** ** The life of the rule *)

Section life.
Context `{RankingRuleGraphTrait}.

Variables (rank : Z → nat) (csat : Condition → Z → Prop).
Hypothesis Hresolve : resolves csat.

Lemma state_ok_mono G u v st : v ⊆ u → state_ok G csat u st → state_ok G csat v st.
Proof.
  intros Hv [S1 S2 S3 S4 S5 S6]. constructor; try done.
  - by eapply pruned_mono.
  - intros p x Hx. eapply no_doc_mono; [exact Hv|by apply S2].
  - by eapply cache_ok_mono.
  - intros cost doc Hc Hdoc. apply (S6 cost doc Hc). by apply Hv.
Qed.

Lemma next_state_ok G r u st b r' : graph_ok G rank → prefix_free G → gr_state r = Some st → state_ok G csat u st →
  graph_next_bucket r u = Ok (Some b, r') →
  ∃ st', gr_state r' = Some st' ∧ state_ok G csat (u ∖ rr_candidates b) st' ∧ next_max_cost st' = next_max_cost st.
Proof.
  intros HG Hfree Hst Hok Hnext. destruct (next_bucket_least G rank csat HG Hresolve Hfree r u st Hst Hok) as [[Hn _]|(cost & bucket & paths & st' & _ & _ & Hmax & Hn & _ & Hok')];
    rewrite Hnext in Hn; [done|]. symmetry in Hn. apply bind_Ok in Hn as (query & _ & [= <- <-]). by exists st'.
Qed.

Lemma after_buckets_ok G r u r' v : after_buckets r u r' v → ∀ st, graph_ok G rank → prefix_free G → gr_state r = Some st → state_ok G csat u st →
  ∃ st', gr_state r' = Some st' ∧ state_ok G csat v st' ∧ next_max_cost st' = next_max_cost st.
Proof.
  induction 1 as [r u|r u b r1 v r2 w Hn Hv _ IH]; intros st HG Hfree Hst Hok; [by exists st|].
  destruct (next_state_ok G r u st b r1 HG Hfree Hst Hok Hn) as (st1 & Hst1 & Hok1 & Hmax). rewrite <-Hmax. apply (IH st1); try done. by eapply state_ok_mono.
Qed.

Lemma max_at_least l c : c ∈ l → c ≤ foldr Z.max 0 l.
Proof. induction l as [|x l IH]; [by intros ?%elem_of_nil|]. intros [->|Hin]%elem_of_cons; cbn; [lia|]. specialize (IH Hin). lia. Qed.

Lemma start_state_ok r u q r' : query_ok q rank → (∀ n, (Z.to_nat n < length (nodes q))%nat → (rank n < length (nodes q))%nat) →
  (0 ≤ root_node q ∧ (Z.to_nat (root_node q) < length (nodes q))%nat) → builds → graph_start_iteration r u q = Ok r' →
  ∃ costs G st, removal_costs (terms_matching_strategy r) q = Ok costs ∧ build q costs = Ok G ∧ graph_ok G rank ∧ gr_state r' = Some st ∧ state_ok G csat u st ∧
    ∀ c, chain G (root_node (query_graph G)) c → c < next_max_cost st.
Proof.
  intros Hq Hrank Hroot Hbuild. unfold graph_start_iteration.
  destruct (removal_costs _ q) as [costs|e|] eqn:Hcosts; cbn [map_err mbind outcome_bind]; [|done..].
  destruct (build q costs) as [G|e|] eqn:HG; cbn [map_err mbind outcome_bind]; [|done..].
  destruct (build_graph_ok q rank Hq Hrank Hroot Hbuild costs G HG) as [Hok HqG].
  destruct (find_all_costs_exact G rank (graph_edges_ok rank G Hok)) as (all & -> & Hlen & Hexact). cbn [mbind outcome_bind].
  intros (root_costs & Hroots & [= <-])%bind_Ok. exists costs, G. eexists. split_and!; [done|done|done|reflexivity| |].
  2: { intros c Hc. cbn [next_max_cost]. assert (Hin : c ∈ root_costs).
    { destruct (Hexact (root_node (query_graph G))) as (l & Hl & _ & Hr).
      { destruct (go_root _ _ Hok) as [H0' Hlt]. rewrite (go_nodes _ _ Hok) in Hlt. done. }
      unfold interner_get in Hroots. rewrite Hl in Hroots. injection Hroots as <-. by apply Hr. }
    pose proof (max_at_least root_costs c Hin). destruct (terms_matching_strategy r); lia. }
  constructor; cbn; try done.
  - by apply (pruned_refl rank).
  - intros p x. rewrite dead_new. set_solver.
  - intros cost doc Hc _ (p & Hp & _). pose proof (route_nonneg G rank Hok _ _ _ _ _ (proj1 (go_root _ _ Hok)) Hp). lia.
Qed.

(** Paths with as many conditions are not prefixes of each other. *)
Lemma same_length_free G (depth : Z → nat) : graph_ok G rank →
  (∀ i e, edges_store G !! i = Some (Some e) → depth (source_node e) = match edge_condition e with Some _ => S (depth (dest_node e)) | None => depth (dest_node e) end) →
  depth (end_node (query_graph G)) = O → prefix_free G.
Proof.
  intros Hok Hdepth Hend. assert (Hlen : ∀ n r V S q, 0 ≤ n → route G n r V S q → length q = depth n).
  { assert (Hedge : ∀ n e, 0 ≤ n → is_edge G n e → 0 ≤ dest_node e ∧ depth n = match edge_condition e with Some _ => S (depth (dest_node e)) | None => depth (dest_node e) end).
    { intros n e Hn (edges & i & Hl & Hi & He). destruct (go_edges _ _ Hok n edges i Hn Hl Hi) as (_ & e' & He' & Hs). rewrite He in He'. injection He' as <-.
      rewrite <-Hs. split; [by apply (go_edge _ _ Hok _ _ He)|by eapply Hdepth]. }
    intros n r V S q Hn Hr. revert Hn. induction Hr as [n r V S e He Hc Hd Hr|n r V S e q He Hc Hd Hr Hq IH|n r V S e c q He Hc Hr HS HV Hq IH]; intros Hn;
      destruct (Hedge n e Hn He) as [Hd0 Hde]; rewrite Hc in Hde; rewrite Hde; [by rewrite Hd|by apply IH|]. cbn. f_equal. by apply IH. }
  intros cost p q Hp Hq [k ->]. pose proof (proj1 (go_root _ _ Hok)) as Hr. apply Hlen in Hp; [|done]. apply Hlen in Hq; [|done].
  rewrite length_app in Hq. destruct k; [by rewrite app_nil_r|cbn in Hq; lia].
Qed.
End life.

(** ** The contract of the bucket sort *)

Section contract.
Context `{RankingRuleGraphTrait}.
Variable csat : Condition → Z → Prop.
Hypotheses (Hresolve : resolves csat) (Hbuild : builds).
(** The query graphs on which the rule can be started: without cycle, and whose graph of
    conditions can be built and has no path of conditions that is a prefix of another of
    the same cost; those of the paths of a bucket are such graphs. *)
Variable valid : QueryGraph → Prop.
Hypothesis Hvalid : ∀ q, valid q →
  (∃ rank, query_ok q rank ∧ (∀ n, (Z.to_nat n < length (nodes q))%nat → (rank n < length (nodes q))%nat) ∧
     0 ≤ root_node q ∧ (Z.to_nat (root_node q) < length (nodes q))%nat) ∧
  ∀ strategy, removal_costs strategy q ≠ Panic ∧ ∀ costs, removal_costs strategy q = Ok costs →
    build q costs ≠ Panic ∧ ∀ G, build q costs = Ok G → prefix_free G.
Hypothesis Hpaths : ∀ paths, match build_from_paths paths with Ok q => valid q | Err _ => True | Panic => False end.

Definition graph_started (r : GraphBasedRankingRule) (u : bitmap) : Prop :=
  ∃ G rank st, graph_ok G rank ∧ prefix_free G ∧ gr_state r = Some st ∧ state_ok G csat u st ∧
    ∀ c, chain G (root_node (query_graph G)) c → c < next_max_cost st.

(** Each bucket raises the cost, which stays below that of all paths. *)
Definition graph_remaining (r : GraphBasedRankingRule) : nat :=
  match gr_state r with Some st => Z.to_nat (next_max_cost st - cur_cost st) | None => 0%nat end.

Lemma graph_rule_ok : RankingRuleOk.
Proof.
  refine {| query_valid := (valid : @Query _ graph_ranking_rule → Prop); rule_idle := λ _, True;
            rule_started := graph_started; rule_remaining := graph_remaining |}; [|done| |].
  - intros r u v Hv (G & rank & st & Hok & Hfree & Hst & Hs & Hmax). exists G, rank, st. split_and!; try done. by eapply state_ok_mono.
  - intros r u q _ Hq. cbn. destruct (Hvalid q Hq) as [(rank & Hqok & Hrank & Hroot) Hno].
    destruct (Hno (terms_matching_strategy r)) as [Hnr Hnb]. destruct (graph_start_iteration r u q) as [r'|e|] eqn:Hstart; [|done|].
    + destruct (start_state_ok rank csat Hresolve r u q r' Hqok Hrank Hroot Hbuild Hstart) as (costs & G & st & Hcosts & HG & Hok & Hst & Hs & Hmax).
      exists G, rank, st. split_and!; try done. by eapply Hnb.
    + revert Hstart. unfold graph_start_iteration. destruct (removal_costs _ q) as [costs|e|]; cbn [map_err mbind outcome_bind]; [|done|done].
      destruct (Hnb costs eq_refl) as [Hb _]. destruct (build q costs) as [G|e|] eqn:HG; cbn [map_err mbind outcome_bind]; [|done|done].
      destruct (build_graph_ok q rank Hqok Hrank Hroot Hbuild costs G HG) as [Hok _].
      destruct (find_all_costs_exact G rank (graph_edges_ok rank G Hok)) as (all & -> & _ & Hexact). cbn [mbind outcome_bind].
      destruct (Hexact (root_node (query_graph G))) as (l & Hl & _).
      { destruct (go_root _ _ Hok) as [H0' Hlt]. rewrite (go_nodes _ _ Hok) in Hlt. done. }
      unfold interner_get. by rewrite Hl.
  - intros r u (G & rank & st & Hok & Hfree & Hst & Hs & Hmax) _. cbn.
    destruct (next_bucket_least G rank csat Hok Hresolve Hfree r u st Hst Hs) as
      [[-> _]|(cost & bucket & paths & st' & [Hcur Hchain] & Hcost & Hm & -> & Hb & Hs')]; [done|].
    pose proof (Hpaths paths) as Hp. destruct (build_from_paths paths) as [q|e|]; cbn [map_err mbind outcome_bind]; [|done|done].
    cbn [rr_candidates rr_query]. split_and!; [intros doc Hdoc; by apply Hb|done| |].
    + exists G, rank, st'. split_and!; try done. by rewrite Hm.
    + right. unfold graph_remaining. cbn [gr_state]. rewrite Hst, Hm, Hcost. specialize (Hmax _ Hchain). lia.
Qed.
End contract.


(** C28. When the edges of a condition that all start at one node are
    removed, updating the costs backward from this node ends and gives, at every
    node, the costs that are computed from scratch: those of the chains of edges to
    the end, sorted. *)
Theorem update_costs_from_scratch `{RankingRuleGraphTrait} g0 rank c n g costs : graph_ok g0 rank → find_all_costs_to_end g0 = Ok costs →
  remove_edges_with_condition g0 c = Ok ({[n]}, g) →
  ∃ updated scratch, update_all_costs_before_node g n costs = Ok updated ∧ find_all_costs_to_end g = Ok scratch ∧
    ∀ m, valid_node (query_graph g0) m → ∃ l l', updated !! Z.to_nat m = Some l ∧ scratch !! Z.to_nat m = Some l' ∧
      StronglySorted Z.le l ∧ StronglySorted Z.le l' ∧ ∀ r, (r ∈ l ↔ chain g m r) ∧ (r ∈ l' ↔ chain g m r).
Proof.
  intros Hok Hcosts Hremove. destruct (remove_edges_spec g0 c) as (sources & g' & Hrem & Hq & Hci & Hrm).
  { intros i e He. destruct (go_succ _ _ Hok i e He) as (_ & node & Hl & _). rewrite (go_nodes _ _ Hok). by eapply lookup_lt_Some. }
  rewrite Hremove in Hrem. injection Hrem as <- <-. set (none := λ _ _ : Z, False).
  assert (Hpr : pruned g0 none g ∅) by (by apply (pruned_remove rank none g0 c g {[n]})).
  pose proof (pruned_ok rank none g0 g ∅ Hok Hpr) as Hokg. pose proof (graph_edges_ok rank g Hokg) as Heok.
  destruct (find_all_costs_exact g0 rank (graph_edges_ok rank g0 Hok)) as (costs' & Hcosts' & Hlen & Hexact). rewrite Hcosts in Hcosts'. injection Hcosts' as <-.
  destruct (find_all_costs_exact g rank Heok) as (scratch & Hscratch & _ & Hexact').
  destruct (proj1 (rm_sources _ _ _ _ _ _ Hrm n)) as (i & e & _ & He & _ & Hsrc); [set_solver|].
  destruct (go_succ _ _ Hok _ _ He) as (Hn0 & node & Hl & Hd). rewrite Hsrc in Hn0, Hl.
  destruct (update_costs_exact g rank Heok g0 n) with (costs := costs) as (updated & Hupdated & _ & Hexact''); rewrite ?Hq; try done.
  - split; [done|]. by eapply lookup_lt_Some.
  - intros m e'. by apply (pruned_edge none g0 g ∅).
  - intros m e' Hm Hne. apply (removed_same rank none g0 c g {[n]} ∅); [done..|]. by intros ?%elem_of_singleton.
  - by exists node, (dest_node e).
  - exists updated, scratch. split_and!; [done|done|]. intros m Hm. rewrite Hq in Hexact', Hexact''.
    destruct (Hexact'' m Hm) as (l & Hl1 & Hs1 & Hr1). destruct (Hexact' m Hm) as (l' & Hl2 & Hs2 & Hr2). by exists l, l'.
Qed.

(** ** A concrete rule *)

#[local] Existing Instance sample_float.
Definition sample_term : LocatedQueryTermSubset := mkLocatedQueryTermSubset (term_subset_full 0) (0, 0) (0, 0).
#[local] Instance sample_terms : QueryTerms := {|
  QueryError := unit;
  term_phrase _ := None;
  phrase_words _ := [];
  compute_query_term_subset_docids u _ := Ok (default ∅ u);
  terms_hash l := Z.of_nat (length l);
|}.
(** A term at no cost is that of even documents, and at a cost that of all. *)
#[local] Instance sample_rule : RankingRuleGraphTrait := {|
  Condition := bool;
  resolve_condition c u := Ok (mkComputedCondition (filter (λ d, c || Z.even d = true) u) (bm_len u) None sample_term);
  build_edges conditions _ _ := Ok (conditions ++ [false; true], [(0, Z.of_nat (length conditions)); (1, Z.of_nat (length conditions) + 1)]);
  rank_to_score r := SdProximity r;
|}.
Definition sample_csat (c : bool) (doc : Z) : Prop := c || Z.even doc = true.
Lemma sample_resolves : resolves sample_csat.
Proof. intros c u. eexists. split; [reflexivity|]. split; [|done]. intros doc. cbn. rewrite elem_of_filter. unfold sample_csat. tauto. Qed.
Lemma sample_builds : builds.
Proof.
  intros conditions source dest conditions' edges [= <- <-]. split; [by apply prefix_app_r|]. intros cost c. rewrite length_app. cbn.
  rewrite !elem_of_cons, elem_of_nil. intros [[= -> ->]|[[= -> ->]|[]]]; lia.
Qed.

(** One term between the start and the end. *)
Definition sample_query : QueryGraph :=
  mkQueryGraph 0 1 [mkQueryNode DStart ∅ {[2]}; mkQueryNode DEnd {[2]} ∅; mkQueryNode (DTerm sample_term) {[0]} {[1]}].
Definition sample_rank (n : Z) : nat := if n =? 1 then 0%nat else if n =? 2 then 1%nat else 2%nat.
Lemma sample_graph_query_ok : query_ok sample_query sample_rank.
Proof.
  constructor.
  - intros n node s Hn Hl Hs. assert (Hn' : n = 0 ∨ n = 1 ∨ n = 2) by (apply lookup_lt_Some in Hl; cbn in Hl; lia).
    destruct Hn' as [-> |[-> | ->]]; injection Hl as <-; cbn in Hs; [| |]; try (by apply elem_of_empty in Hs); apply elem_of_singleton in Hs as ->; cbn; (split; [lia|]; split; [lia|]; eexists; split; [done|]; set_solver).
  - intros n node p Hn Hl Hp. assert (Hn' : n = 0 ∨ n = 1 ∨ n = 2) by (apply lookup_lt_Some in Hl; cbn in Hl; lia).
    destruct Hn' as [-> |[-> | ->]]; injection Hl as <-; cbn in Hp; [| |]; try (by apply elem_of_empty in Hp); apply elem_of_singleton in Hp as ->; cbn; (split; [lia|]; eexists; split; [done|]; set_solver).
  - split; [done|]. eexists. by split.
Qed.

Definition sample_graph_rule : GraphBasedRankingRule := mkGraphRule "typo" (Some StrategyAll) None.
Definition sample_depth (n : Z) : nat := if n =? 0 then 1%nat else 0%nat.
Definition sample_universe : bitmap := {[1; 2; 3; 4]}.
Definition sample_started : GraphBasedRankingRule :=
  match graph_start_iteration sample_graph_rule sample_universe sample_query with Ok r => r | _ => sample_graph_rule end.
Lemma sample_start : graph_start_iteration sample_graph_rule sample_universe sample_query = Ok sample_started.
Proof. vm_compute. reflexivity. Qed.

Definition depth_decreases (o : option Edge) : Prop :=
  match o with
  | Some e => sample_depth (source_node e) = match edge_condition e with Some _ => S (sample_depth (dest_node e)) | None => sample_depth (dest_node e) end
  | None => True
  end.
Lemma sample_rank_bound n : (Z.to_nat n < length (nodes sample_query))%nat → (sample_rank n < length (nodes sample_query))%nat.
Proof. intros Hn. unfold sample_rank. cbn. destruct (n =? 1), (n =? 2); lia. Qed.
Lemma sample_root : 0 ≤ root_node sample_query ∧ (Z.to_nat (root_node sample_query) < length (nodes sample_query))%nat.
Proof. split; [done|cbn; lia]. Qed.
Lemma sample_edges : match build sample_query [None; None; None] with Ok G => Forall depth_decreases (edges_store G) | _ => True end.
Proof. vm_compute. repeat constructor. Qed.
Lemma sample_free costs G : removal_costs (terms_matching_strategy sample_graph_rule) sample_query = Ok costs → build sample_query costs = Ok G → prefix_free G.
Proof.
  intros [= <-] HG. pose proof sample_edges as Hf. rewrite HG in Hf.
  destruct (build_graph_ok sample_query sample_rank sample_graph_query_ok sample_rank_bound sample_root sample_builds _ G HG) as [Hok Hq].
  apply (same_length_free sample_rank G sample_depth Hok); [|by rewrite Hq]. intros i e He. exact (proj1 (Forall_lookup _ _) Hf i _ He).
Qed.

(** The first bucket is that of the even documents. *)
Lemma sample_bucket : ∃ b r', graph_next_bucket sample_started sample_universe = Ok (Some b, r') ∧ rr_candidates b = {[2; 4]}.
Proof.
  assert (Hb : match graph_next_bucket sample_started sample_universe with Ok (Some b, _) => bool_decide (rr_candidates b = {[2; 4]}) | _ => false end = true)
    by (vm_compute; reflexivity).
  destruct (graph_next_bucket sample_started sample_universe) as [[[b|] r']|e|]; [|done..]. exists b, r'. split; [done|]. by apply bool_decide_eq_true in Hb.
Qed.


(** The condition that matches all documents is removed: the cost 1 is lost. *)
Definition sample_built : RankingRuleGraph :=
  match build sample_query [None; None; None] with Ok G => G | _ => mkRankingRuleGraph sample_query [] [] [] end.
Lemma sample_built_ok : graph_ok sample_built sample_rank.
Proof.
  assert (HG : build sample_query [None; None; None] = Ok sample_built) by (vm_compute; reflexivity).
  apply (build_graph_ok sample_query sample_rank sample_graph_query_ok sample_rank_bound sample_root sample_builds _ _ HG).
Qed.
Definition sample_removed : RankingRuleGraph := match remove_edges_with_condition sample_built 1 with Ok (_, g) => g | _ => sample_built end.
Lemma sample_removal : remove_edges_with_condition sample_built 1 = Ok ({[0]}, sample_removed).
Proof. vm_compute. reflexivity. Qed.
Lemma sample_costs : find_all_costs_to_end sample_built = Ok [[0; 1]; [0]; [0]].
Proof. vm_compute. reflexivity. Qed.

Lemma update_costs_from_scratch_witness : ∃ updated, update_all_costs_before_node sample_removed 0 [[0; 1]; [0]; [0]] = Ok updated ∧
  ¬ chain sample_removed 0 1.
Proof.
  destruct (update_costs_from_scratch sample_built sample_rank 1 0 sample_removed [[0; 1]; [0]; [0]] sample_built_ok sample_costs sample_removal)
    as (updated & scratch & Hupdated & Hscratch & Hall).
  exists updated. split; [exact Hupdated|]. destruct (Hall 0) as (l & l' & Hl & _ & _ & _ & Hr); [split; [lia|vm_compute; lia]|].
  assert (Hlist : update_all_costs_before_node sample_removed 0 [[0; 1]; [0]; [0]] = Ok [[0]; [0]; [0]]) by (vm_compute; reflexivity).
  rewrite Hlist in Hupdated. injection Hupdated as <-. injection Hl as <-. rewrite <-(proj1 (Hr 1)), list_elem_of_singleton. done.
Defined.

(** A rule whose conditions are all those of the even documents, on a graph where the
    term 1 can be followed by the term 2 or by the end: the conditions of the second path are a prefix of those of
    the first one, which takes all their documents. *)
Definition even_rule : RankingRuleGraphTrait := {|
  Condition := ();
  resolve_condition _ u := Ok (mkComputedCondition (filter (λ d, Z.even d = true) u) (bm_len u) None sample_term);
  build_edges conditions _ _ := Ok (conditions ++ [()], [(0, Z.of_nat (length conditions))]);
  rank_to_score r := SdProximity r;
|}.
Definition forked_query : QueryGraph :=
  mkQueryGraph 0 3 [mkQueryNode DStart ∅ {[1]}; mkQueryNode (DTerm sample_term) {[0]} {[2; 3]};
    mkQueryNode (DTerm sample_term) {[1]} {[3]}; mkQueryNode DEnd {[1; 2]} ∅].

Example prefix_paths_panic :
  match graph_start_iteration (H1 := even_rule) (mkGraphRule "typo" None None) {[1; 2]} forked_query with
  | Ok started => graph_next_bucket (H1 := even_rule) started {[1; 2]} = Panic
  | _ => False
  end.
Proof. vm_compute. reflexivity. Qed.
