(* ===== verification/Bytes.v ===== *)
(** * Bytes

    What the storage codecs share: slices of bytes as strings, the big-endian and
    native bytes of integers, UTF-8, and the order in which LMDB compares keys. *)

From S2P Require Import Prelude TaskTypes SchedUtils Facet.
From Stdlib Require Import Ascii.
From Stdlib Require String.
Open Scope Z_scope.

#[local] Arguments String.append !_ _ : simpl nomatch.

(** The byte of an integer, and the integer of a byte. *)
Definition byte_of (z : Z) : ascii := ascii_of_N (Z.to_N (z mod 256)).
Definition code (c : ascii) : Z := Z.of_N (N_of_ascii c).

(** [to_be_bytes] on [n] bytes. *)
Fixpoint be_bytes (n : nat) (z : Z) : string :=
  match n with
  | O => String.EmptyString
  | S n => String.String (byte_of (z / 256 ^ Z.of_nat n)) (be_bytes n z)
  end.

(** [from_be_bytes]. *)
Fixpoint from_be_bytes (s : string) : Z :=
  match s with
  | String.EmptyString => 0
  | String.String c s => code c * 256 ^ Z.of_nat (String.length s) + from_be_bytes s
  end.

(** [try_split_at]. *)
Fixpoint try_split_at (s : string) (n : nat) {struct n} : option (string * string) :=
  match n, s with
  | O, _ => Some (String.EmptyString, s)
  | S n, String.String c s => match try_split_at s n with Some (l, r) => Some (String.String c l, r) | None => None end
  | S _, String.EmptyString => None
  end.

(** [str::from_utf8]: the well-formed sequences of the Unicode standard. *)
Definition between (a b : Z) (c : ascii) : bool := (a <=? code c) && (code c <=? b).
Fixpoint is_utf8 (s : string) : bool :=
  match s with
  | String.EmptyString => true
  | String.String c s =>
      if between 0 127 c then is_utf8 s
      else match s with
      | String.EmptyString => false
      | String.String d s =>
          if between 194 223 c then between 128 191 d && is_utf8 s
          else match s with
          | String.EmptyString => false
          | String.String e s =>
              if between 224 239 c
              then between (if code c =? 224 then 160 else 128) (if code c =? 237 then 159 else 191) d &&
                   between 128 191 e && is_utf8 s
              else match s with
              | String.EmptyString => false
              | String.String f s =>
                  between 240 244 c &&
                  between (if code c =? 240 then 144 else 128) (if code c =? 244 then 143 else 191) d &&
                  between 128 191 e && between 128 191 f && is_utf8 s
              end
          end
      end
  end.

(** [str::str_strip_prefix]: what follows a prefix. *)
Fixpoint str_strip_prefix (pat s : string) : option string :=
  match pat, s with
  | String.EmptyString, _ => Some s
  | String.String c pat, String.String d s => if Ascii.eqb c d then str_strip_prefix pat s else None
  | _, _ => None
  end.

(** [str::starts_with], [str::str_ends_with] and [str::contains]. *)
Definition starts_with (pat s : string) : bool := bool_decide (is_Some (str_strip_prefix pat s)).
Fixpoint str_ends_with (pat s : string) : bool :=
  String.eqb pat s || match s with String.String _ s => str_ends_with pat s | String.EmptyString => false end.
Fixpoint str_contains (pat s : string) : bool :=
  starts_with pat s || match s with String.String _ s => str_contains pat s | String.EmptyString => false end.

(** ** Lemmas *)

Lemma string_app_nil_r s : s +:+ String.EmptyString = s.
Proof. induction s as [|c s IH]; [done|]. cbn. by rewrite IH. Qed.

Lemma str_app_assoc a b c : (a +:+ b) +:+ c = a +:+ b +:+ c.
Proof. induction a as [|x a IH]; [done|]. cbn. by rewrite IH. Qed.

Lemma string_length_app a b : String.length (a +:+ b) = (String.length a + String.length b)%nat.
Proof. induction a as [|x a IH]; [done|]. cbn. by rewrite IH. Qed.

Lemma str_strip_prefix_spec pat : ∀ s rest, str_strip_prefix pat s = Some rest ↔ s = pat +:+ rest.
Proof.
  induction pat as [|c pat IH]; intros s rest; [cbn; split; congruence|].
  destruct s as [|d s]; [done|]. cbn. destruct (Ascii.eqb_spec c d) as [->|Hne]; [|split; congruence].
  rewrite IH. split; congruence.
Qed.

Lemma string_app_split a b c d : a +:+ b = c +:+ d → (∃ t, a = c +:+ t ∧ d = t +:+ b) ∨ (∃ t, c = a +:+ t ∧ b = t +:+ d).
Proof.
  revert c. induction a as [|x a IH]; intros c Heq; [right; by exists c|].
  destruct c as [|y c]; [left; by exists (String.String x a)|]. cbn in Heq. injection Heq as -> Heq.
  destruct (IH c Heq) as [(t & -> & ->)|(t & -> & ->)]; [left|right]; by exists t.
Qed.

(** A path at a key or below it. *)
Lemma strip_dot_spec s k :
  match str_strip_prefix k s with Some (String.String c _) => Ascii.eqb c "."%char | Some String.EmptyString => true | None => false end = true
  ↔ s = k ∨ ∃ t, s = k +:+ "." +:+ t.
Proof.
  split.
  - destruct (str_strip_prefix k s) as [[|c t]|] eqn:Hp; [| |done]; apply str_strip_prefix_spec in Hp as ->.
    + left. apply string_app_nil_r.
    + intros ->%Ascii.eqb_eq. right. by exists t.
  - intros [->|[t ->]]; [|by rewrite (proj2 (str_strip_prefix_spec _ _ _) eq_refl)].
    by rewrite (proj2 (str_strip_prefix_spec k k String.EmptyString)) by (by rewrite string_app_nil_r).
Qed.

Lemma starts_with_spec pat s : starts_with pat s = true ↔ ∃ rest, s = pat +:+ rest.
Proof. unfold starts_with. rewrite bool_decide_eq_true. unfold is_Some. by setoid_rewrite str_strip_prefix_spec. Qed.

Lemma str_ends_with_spec pat s : str_ends_with pat s = true ↔ ∃ first, s = first +:+ pat.
Proof.
  induction s as [|c s IH]; cbn [str_ends_with]; rewrite orb_true_iff, String.eqb_eq.
  - split; [intros [->|]; [by exists String.EmptyString|done]|]. intros [[|? ?] He]; [by left|done].
  - rewrite IH. split.
    + intros [->|[f ->]]; [by exists String.EmptyString|by exists (String.String c f)].
    + intros [[|d f] He]; [by left|]. right. cbn in He. injection He as _ He. by exists f.
Qed.

Lemma str_contains_spec pat s : str_contains pat s = true ↔ ∃ first rest, s = first +:+ pat +:+ rest.
Proof.
  induction s as [|c s IH]; cbn [str_contains]; rewrite orb_true_iff, starts_with_spec.
  - split; [intros [[r ->]|]; [by exists String.EmptyString, r|done]|]. intros ([|? ?] & r & He); [left; by exists r|done].
  - rewrite IH. split.
    + intros [[r ->]|(f & r & ->)]; [by exists String.EmptyString, r|by exists (String.String c f), r].
    + intros ([|d f] & r & He); [left; by exists r|]. right. cbn in He. injection He as _ He. by exists f, r.
Qed.

Lemma code_bounds c : 0 ≤ code c < 256.
Proof. unfold code. pose proof (N_ascii_bounded c). lia. Qed.

Lemma code_byte_of z : code (byte_of z) = z mod 256.
Proof.
  unfold code, byte_of. pose proof (Z.mod_pos_bound z 256 ltac:(lia)).
  rewrite N_ascii_embedding by lia. lia.
Qed.

Lemma code_inj c d : code c = code d → c = d.
Proof. unfold code. intros H. rewrite <-(ascii_N_embedding c), <-(ascii_N_embedding d). f_equal. lia. Qed.

Lemma byte_of_code c : byte_of (code c) = c.
Proof. apply code_inj. rewrite code_byte_of. apply Z.mod_small, code_bounds. Qed.

Lemma length_be_bytes n z : String.length (be_bytes n z) = n.
Proof. induction n as [|n IH]; [done|]. cbn. by rewrite IH. Qed.

Lemma from_be_bytes_bounds s : 0 ≤ from_be_bytes s < 256 ^ Z.of_nat (String.length s).
Proof.
  induction s as [|c s IH]; [done|]. cbn [from_be_bytes String.length]. pose proof (code_bounds c).
  rewrite Nat2Z.inj_succ, Z.pow_succ_r by lia. nia.
Qed.

Lemma from_be_bytes_be n z : from_be_bytes (be_bytes n z) = z mod 256 ^ Z.of_nat n.
Proof.
  induction n as [|n IH]; [cbn; by rewrite Z.mod_1_r|]. cbn [from_be_bytes be_bytes].
  rewrite IH, length_be_bytes, code_byte_of, Nat2Z.inj_succ, Z.pow_succ_r, (Z.mul_comm 256) by lia.
  rewrite Z.rem_mul_r by lia. lia.
Qed.

Lemma from_be_bytes_small n z : 0 ≤ z < 256 ^ Z.of_nat n → from_be_bytes (be_bytes n z) = z.
Proof. intros. rewrite from_be_bytes_be. by apply Z.mod_small. Qed.

Lemma try_split_at_app a b : try_split_at (a +:+ b) (String.length a) = Some (a, b).
Proof. induction a as [|c a IH]; [done|]. cbn. by rewrite IH. Qed.

Lemma try_split_at_be n z s : try_split_at (be_bytes n z +:+ s) n = Some (be_bytes n z, s).
Proof. rewrite <-(try_split_at_app (be_bytes n z) s). by rewrite length_be_bytes. Qed.

(** *** The order of keys *)

Lemma b_lt_compare x y : b_lt x y = match String.compare x y with Lt => true | _ => false end.
Proof.
  unfold b_lt, b_le, String.le, String.leb. rewrite (String.compare_antisym y x). by destruct (String.compare x y).
Qed.

Lemma b_lt_nil_r s : b_lt s String.EmptyString = false.
Proof. rewrite b_lt_compare. by destruct s. Qed.
Lemma b_lt_nil_l c s : b_lt String.EmptyString (String.String c s) = true.
Proof. done. Qed.

Lemma b_lt_cons c s d t :
  b_lt (String.String c s) (String.String d t) = (code c <? code d) || ((code c =? code d) && b_lt s t).
Proof.
  rewrite !b_lt_compare. cbn. unfold Ascii.compare, code.
  destruct (N.compare_spec (N_of_ascii c) (N_of_ascii d)) as [->|Hlt|Hgt].
  - rewrite Z.ltb_irrefl, Z.eqb_refl. done.
  - by rewrite (proj2 (Z.ltb_lt _ _)) by lia.
  - rewrite (proj2 (Z.ltb_ge _ _)) by lia. by rewrite (proj2 (Z.eqb_neq _ _)) by lia.
Qed.

(** On slices of the same length, the order of the integers. *)
Lemma b_lt_from_be_bytes s t : String.length s = String.length t → b_lt s t = (from_be_bytes s <? from_be_bytes t).
Proof.
  revert t. induction s as [|c s IH]; intros [|d t] Hlen; try done. injection Hlen as Hlen.
  rewrite b_lt_cons, IH by done. cbn [from_be_bytes]. rewrite Hlen.
  pose proof (from_be_bytes_bounds s) as Hs. pose proof (from_be_bytes_bounds t) as Ht. rewrite Hlen in Hs. clear IH Hlen.
  set (p := 256 ^ Z.of_nat (String.length t)) in *. clearbody p. generalize dependent (from_be_bytes s). generalize dependent (from_be_bytes t).
  intros y Hy x Hx. generalize (code c) (code d). intros a b.
  destruct (Z.ltb_spec a b); [symmetry; apply Z.ltb_lt; nia|].
  destruct (Z.eqb_spec a b) as [->|]; cbn; [|symmetry; apply Z.ltb_ge; nia].
  destruct (Z.ltb_spec x y); symmetry; [apply Z.ltb_lt|apply Z.ltb_ge]; lia.
Qed.

Lemma from_be_bytes_inj s t : String.length s = String.length t → from_be_bytes s = from_be_bytes t → s = t.
Proof.
  revert t. induction s as [|c s IH]; intros [|d t] Hlen Heq; try done. injection Hlen as Hlen. cbn in Heq. rewrite Hlen in Heq.
  pose proof (from_be_bytes_bounds s) as Hs. pose proof (from_be_bytes_bounds t) as Ht. rewrite Hlen in Hs.
  assert (code c = code d) by nia. f_equal; [by apply code_inj|]. apply IH; [done|nia].
Qed.

(** Slices with prefixes of the same length are compared by their prefixes first. *)
Lemma b_lt_app a b s t : String.length a = String.length b →
  b_lt (a +:+ s) (b +:+ t) = b_lt a b || (String.eqb a b && b_lt s t).
Proof.
  revert b. induction a as [|c a IH]; intros [|d b] Hlen; try done. injection Hlen as Hlen.
  cbn [String.append]. rewrite !b_lt_cons, IH by done. cbn.
  destruct (Ascii.eqb_spec c d) as [->|Hne]; [rewrite Z.ltb_irrefl, Z.eqb_refl; done|].
  destruct (Z.eqb_spec (code c) (code d)) as [He%code_inj|]; [done|]. cbn. by rewrite !orb_false_r.
Qed.

Lemma b_lt_be_app n x y s t : 0 ≤ x < 256 ^ Z.of_nat n → 0 ≤ y < 256 ^ Z.of_nat n →
  b_lt (be_bytes n x +:+ s) (be_bytes n y +:+ t) = (x <? y) || ((x =? y) && b_lt s t).
Proof.
  intros Hx Hy. rewrite b_lt_app by (by rewrite !length_be_bytes).
  rewrite b_lt_from_be_bytes by (by rewrite !length_be_bytes). rewrite !from_be_bytes_small by done. f_equal. f_equal.
  destruct (String.eqb_spec (be_bytes n x) (be_bytes n y)) as [He|Hne], (Z.eqb_spec x y) as [->|Hne']; try done.
  apply (f_equal from_be_bytes) in He. rewrite !from_be_bytes_small in He by done. done.
Qed.

Lemma be_app_inj n x y s t : 0 ≤ x < 256 ^ Z.of_nat n → 0 ≤ y < 256 ^ Z.of_nat n →
  be_bytes n x +:+ s = be_bytes n y +:+ t → x = y ∧ s = t.
Proof.
  intros Hx Hy He. apply (f_equal (λ s, try_split_at s n)) in He. cbn beta in He. rewrite !try_split_at_be in He.
  apply (inj Some) in He. pose proof (f_equal fst He) as H1. pose proof (f_equal snd He) as H2. cbn [fst snd] in H1, H2.
  apply (f_equal from_be_bytes) in H1. rewrite !from_be_bytes_small in H1 by done. done.
Qed.
