(* ===== verification/Codecs.v ===== *)
(** * Storage codecs

    The codecs of the databases of an index, [crates/milli-core/src/heed_codec] and
    [facet/value_encoding.rs]: how keys and bitmaps become bytes.  LMDB keeps the
    keys in the order of their bytes, so the codecs must not only give back what
    was encoded but also order the keys as the searches expect. *)

From S2P Require Import Prelude TaskTypes SchedUtils Facet Bytes.
From Stdlib Require Import Ascii.
From Stdlib Require String.
Open Scope Z_scope.

#[local] Arguments String.append !_ _ : simpl nomatch.

(** The traits [BytesEncode] and [BytesDecode]: encoding may fail, decoding may
    fail or panic. *)
Record BytesCodec (T : Type) := mkBytesCodec {
  bytes_encode : T → option string;
  bytes_decode : string → outcome unit T;
}.
Arguments mkBytesCodec {T}.
Arguments bytes_encode {T}.
Arguments bytes_decode {T}.

(** What is encoded is decoded as it was. *)
Class CodecOk {T} (C : BytesCodec T) (valid : T → Prop) := {
  codec_roundtrip x : valid x → ∃ b, bytes_encode C x = Some b ∧ bytes_decode C b = Ok x;
}.

(** ** Strings and integers *)

Definition StrRefCodec : BytesCodec string :=
  mkBytesCodec (λ s, Some s) (λ b, if is_utf8 b then Ok b else Err tt).
Definition BytesRefCodec : BytesCodec string := mkBytesCodec (λ s, Some s) (λ b, Ok b).

(** A big-endian integer of [n] bytes before a string; the slice of the integer is
    taken without a check. *)
Definition be_str_codec (n : nat) : BytesCodec (Z * string) :=
  mkBytesCodec (λ '(x, s), Some (be_bytes n x +:+ s))
    (λ b, match try_split_at b n with
          | Some (l, r) => if is_utf8 r then Ok (from_be_bytes l, r) else Err tt
          | None => Panic
          end).
Definition BEU16StrCodec : BytesCodec (Z * string) := be_str_codec 2.
Definition BEU32StrCodec : BytesCodec (Z * string) := be_str_codec 4.

Definition FieldIdWordCountCodec : BytesCodec (Z * Z) :=
  mkBytesCodec (λ '(fid, count), Some (be_bytes 2 fid +:+ be_bytes 1 count))
    (λ b, match try_split_at b 2 with
          | Some (l, b) => match try_split_at b 1 with Some (c, _) => Ok (from_be_bytes l, from_be_bytes c) | None => Err tt end
          | None => Err tt
          end).

Definition StrBEU32Codec : BytesCodec (string * Z) :=
  mkBytesCodec (λ '(word, pos), Some (word +:+ be_bytes 4 pos))
    (λ b, if (String.length b <? 4)%nat then Err tt
          else match try_split_at b (String.length b - 4) with
               | Some (word, pos) => if is_utf8 word then Ok (word, from_be_bytes pos) else Err tt
               | None => Panic
               end).

Definition nul : string := String.String (byte_of 0) String.EmptyString.

(** [split_last]: all but the last byte. *)
Definition StrBEU16Codec : BytesCodec (string * Z) :=
  mkBytesCodec (λ '(word, pos), Some (word +:+ nul +:+ be_bytes 2 pos))
    (λ b, if (String.length b <? 3)%nat then Err tt
          else match try_split_at b (String.length b - 2) with
               | Some (word_plus_nul_byte, pos) =>
                   match try_split_at word_plus_nul_byte (String.length word_plus_nul_byte - 1) with
                   | Some (word, _) => if is_utf8 word then Ok (word, from_be_bytes pos) else Err tt
                   | None => Panic
                   end
               | None => Panic
               end).

(** [CStr::from_bytes_until_nul]. *)
Fixpoint until_nul (s : string) : option (string * string) :=
  match s with
  | String.EmptyString => None
  | String.String c s =>
      if code c =? 0 then Some (String.EmptyString, s)
      else match until_nul s with Some (l, r) => Some (String.String c l, r) | None => None end
  end.

Definition UncheckedU8StrStrCodec : BytesCodec (Z * string * string) :=
  mkBytesCodec (λ '(n, s1, s2), Some (be_bytes 1 n +:+ s1 +:+ nul +:+ s2))
    (λ b, match try_split_at b 1 with
          | Some (n, b) => match until_nul b with Some (s1, s2) => Ok (from_be_bytes n, s1, s2) | None => Err tt end
          | None => Err tt
          end).
Definition U8StrStrCodec : BytesCodec (Z * string * string) :=
  mkBytesCodec (bytes_encode UncheckedU8StrStrCodec)
    (λ b, '(n, s1, s2) ← bytes_decode UncheckedU8StrStrCodec b;
          if is_utf8 s1 && is_utf8 s2 then Ok (n, s1, s2) else Err tt).

Definition VersionCodec : BytesCodec (Z * Z * Z) :=
  mkBytesCodec (λ '(major, minor, patch), Some (be_bytes 4 major +:+ be_bytes 4 minor +:+ be_bytes 4 patch))
    (λ b, if negb (String.length b =? 12)%nat then Err tt
          else '(major, b) ← unwrap (try_split_at b 4);
               '(minor, b) ← unwrap (try_split_at b 4);
               '(patch, _) ← unwrap (try_split_at b 4);
               Ok (from_be_bytes major, from_be_bytes minor, from_be_bytes patch)).

(** ** Floats *)

(** A 64-bit float, by its bits: the sign, then the exponent and the mantissa,
    which order floats of a sign by their absolute value. *)
Module F64.
Definition sign (f : Z) : bool := 2 ^ 63 <=? f.
Definition magnitude (f : Z) : Z := f mod 2 ^ 63.
Definition is_finite (f : Z) : bool := magnitude f <? 2047 * 2 ^ 52.
(** Comparing two finite floats is comparing their magnitudes with their signs;
    the two zeros are equal. *)
Definition signed (f : Z) : Z := if sign f then - magnitude f else magnitude f.
Definition lt (x y : Z) : bool := signed x <? signed y.
Definition eq (x y : Z) : bool := signed x =? signed y.
Definition valid (f : Z) : Prop := 0 ≤ f < 2 ^ 64 ∧ is_finite f = true.
End F64.

(** [xor_first_bit] and [xor_all_bits]. *)
Definition xor_byte (mask : N) (c : ascii) : ascii := ascii_of_N (N.lxor (N_of_ascii c) mask).
Definition xor_first_bit (s : string) : string :=
  match s with String.String c s => String.String (xor_byte 128 c) s | String.EmptyString => String.EmptyString end.
Fixpoint xor_all_bits (s : string) : string :=
  match s with String.String c s => String.String (xor_byte 255 c) (xor_all_bits s) | String.EmptyString => String.EmptyString end.

(** [f64_into_bytes]. *)
Definition f64_into_bytes (f : Z) : option string :=
  if F64.is_finite f then
    if F64.eq f 0 then Some (xor_first_bit (be_bytes 8 0))
    else if F64.sign f then Some (xor_all_bits (be_bytes 8 f))
    else Some (xor_first_bit (be_bytes 8 f))
  else None.

Definition OrderedF64Codec : BytesCodec Z :=
  mkBytesCodec (λ f, ordered ← f64_into_bytes f; Some (ordered +:+ be_bytes 8 f))
    (λ b, if (String.length b <? 16)%nat then Err tt
          else match try_split_at b 8 with
               | Some (_, f) => if (String.length f =? 8)%nat then Ok (from_be_bytes f) else Err tt
               | None => Panic
               end).

(** ** Facets *)

Definition FacetGroupKeyCodec {T} (C : BytesCodec T) : BytesCodec (Z * Z * T) :=
  mkBytesCodec (λ '(field_id, level, left_bound),
      bound ← bytes_encode C left_bound; Some (be_bytes 2 field_id +:+ be_bytes 1 level +:+ bound))
    (λ b, '(fid, b) ← unwrap (try_split_at b 2);
          '(level, b) ← unwrap (try_split_at b 1);
          bound ← bytes_decode C b;
          Ok (from_be_bytes fid, from_be_bytes level, bound)).

Definition FieldDocIdFacetCodec {T} (C : BytesCodec T) : BytesCodec (Z * Z * T) :=
  mkBytesCodec (λ '(field_id, document_id, value),
      value ← bytes_encode C value; Some (be_bytes 2 field_id +:+ be_bytes 4 document_id +:+ value))
    (λ b, '(fid, b) ← ok_or tt (try_split_at b 2);
          '(document_id, b) ← ok_or tt (try_split_at b 4);
          value ← bytes_decode C b;
          Ok (from_be_bytes fid, from_be_bytes document_id, value)).

(** ** Round trips *)

(** An unsigned integer of [n] bytes. *)
Definition unsigned (n : nat) (x : Z) : Prop := 0 ≤ x < 256 ^ Z.of_nat n.


#[global] Instance StrRefCodec_ok : CodecOk StrRefCodec (λ s, is_utf8 s = true).
Proof. split. intros s Hs. exists s. split; [done|]. cbn. by rewrite Hs. Qed.
#[global] Instance BytesRefCodec_ok : CodecOk BytesRefCodec (λ _, True).
Proof. split. intros s _. by exists s. Qed.

#[global] Instance be_str_codec_ok n : CodecOk (be_str_codec n) (λ x, unsigned n x.1 ∧ is_utf8 x.2 = true).
Proof.
  split. intros [x s] [Hx Hs]. eexists. split; [reflexivity|]. cbn in *. by rewrite try_split_at_be, Hs, from_be_bytes_small.
Qed.

#[global] Instance FieldIdWordCountCodec_ok : CodecOk FieldIdWordCountCodec (λ x, unsigned 2 x.1 ∧ unsigned 1 x.2).
Proof.
  split. intros [x c] [Hx Hc]. eexists. split; [reflexivity|]. cbn [bytes_decode FieldIdWordCountCodec fst snd] in *.
  rewrite try_split_at_be, <-(string_app_nil_r (be_bytes 1 c)), try_split_at_be. by rewrite !from_be_bytes_small.
Qed.

Lemma split_footer word n x : try_split_at (word +:+ be_bytes n x) (String.length (word +:+ be_bytes n x) - n) = Some (word, be_bytes n x).
Proof.
  rewrite string_length_app, length_be_bytes. replace (String.length word + n - n)%nat with (String.length word) by lia.
  apply try_split_at_app.
Qed.

#[global] Instance StrBEU32Codec_ok : CodecOk StrBEU32Codec (λ x, is_utf8 x.1 = true ∧ unsigned 4 x.2).
Proof.
  split. intros [word pos] [Hw Hp]. eexists. split; [reflexivity|]. cbn [bytes_decode StrBEU32Codec fst snd] in *.
  rewrite (proj2 (Nat.ltb_ge _ _)) by (rewrite string_length_app, length_be_bytes; lia).
  by rewrite split_footer, Hw, from_be_bytes_small.
Qed.

#[global] Instance StrBEU16Codec_ok : CodecOk StrBEU16Codec (λ x, is_utf8 x.1 = true ∧ unsigned 2 x.2).
Proof.
  split. intros [word pos] [Hw Hp]. eexists. split; [reflexivity|]. cbn [bytes_decode StrBEU16Codec fst snd] in *.
  rewrite (proj2 (Nat.ltb_ge _ _)) by (rewrite !string_length_app, length_be_bytes; cbn; lia).
  rewrite <-str_app_assoc, split_footer, string_length_app. cbn [String.length nul].
  replace (String.length word + 1 - 1)%nat with (String.length word) by lia.
  by rewrite try_split_at_app, Hw, from_be_bytes_small.
Qed.

Definition no_nul (s : string) : Prop := ∀ a b, s ≠ a +:+ nul +:+ b.

Lemma until_nul_app s r : no_nul s → until_nul (s +:+ nul +:+ r) = Some (s, r).
Proof.
  induction s as [|c s IH]; [done|]. intros Hn. cbn. destruct (Z.eqb_spec (code c) 0) as [Hc|_].
  - exfalso. apply (Hn String.EmptyString s). cbn. f_equal. apply code_inj. by rewrite Hc.
  - change (String.String (byte_of 0) r) with (nul +:+ r). rewrite IH; [done|]. intros a b ->. by apply (Hn (String.String c a) b).
Qed.

#[global] Instance U8StrStrCodec_ok : CodecOk U8StrStrCodec
  (λ '(n, s1, s2), unsigned 1 n ∧ no_nul s1 ∧ is_utf8 s1 = true ∧ is_utf8 s2 = true).
Proof.
  split. intros [[n s1] s2] (Hn & Hs & H1 & H2). eexists. split; [reflexivity|].
  cbn [bytes_decode U8StrStrCodec UncheckedU8StrStrCodec]. rewrite try_split_at_be, until_nul_app by done.
  cbn [mbind outcome_bind]. rewrite H1, H2, from_be_bytes_small by done. done.
Qed.

#[global] Instance VersionCodec_ok : CodecOk VersionCodec (λ '(x, y, z), unsigned 4 x ∧ unsigned 4 y ∧ unsigned 4 z).
Proof.
  split. intros [[x y] z] (Hx & Hy & Hz). eexists. split; [reflexivity|]. cbn [bytes_decode VersionCodec].
  rewrite !string_length_app, !length_be_bytes. cbn [Nat.add Nat.eqb negb]. rewrite !try_split_at_be. cbn [unwrap mbind outcome_bind].
  rewrite try_split_at_be. cbn [unwrap mbind outcome_bind]. rewrite <-(string_app_nil_r (be_bytes 4 z)), try_split_at_be.
  cbn [unwrap mbind outcome_bind]. by rewrite !from_be_bytes_small.
Qed.

#[global] Instance FacetGroupKeyCodec_ok {T} (C : BytesCodec T) valid `{!CodecOk C valid} :
  CodecOk (FacetGroupKeyCodec C) (λ '(fid, level, bound), unsigned 2 fid ∧ unsigned 1 level ∧ valid bound).
Proof.
  split. intros [[fid level] bound] (Hf & Hl & Hb). destruct (codec_roundtrip bound Hb) as (b & He & Hd).
  cbn [bytes_encode bytes_decode FacetGroupKeyCodec]. rewrite He. eexists. split; [reflexivity|].
  rewrite try_split_at_be. cbn [unwrap mbind outcome_bind]. rewrite try_split_at_be. cbn [unwrap mbind outcome_bind].
  rewrite Hd. cbn [mbind outcome_bind]. by rewrite !from_be_bytes_small.
Qed.

#[global] Instance FieldDocIdFacetCodec_ok {T} (C : BytesCodec T) valid `{!CodecOk C valid} :
  CodecOk (FieldDocIdFacetCodec C) (λ '(fid, docid, value), unsigned 2 fid ∧ unsigned 4 docid ∧ valid value).
Proof.
  split. intros [[fid docid] value] (Hf & Hl & Hb). destruct (codec_roundtrip value Hb) as (b & He & Hd).
  cbn [bytes_encode bytes_decode FieldDocIdFacetCodec]. rewrite He. eexists. split; [reflexivity|].
  rewrite try_split_at_be. cbn [ok_or mbind outcome_bind]. rewrite try_split_at_be. cbn [ok_or mbind outcome_bind].
  rewrite Hd. cbn [mbind outcome_bind]. by rewrite !from_be_bytes_small.
Qed.

(** *** Floats *)

Lemma xor_128 c : code (xor_byte 128 c) = if code c <? 128 then code c + 128 else code c - 128.
Proof. destruct c as [[] [] [] [] [] [] [] []]; vm_compute; reflexivity. Qed.
Lemma xor_255 c : code (xor_byte 255 c) = 255 - code c.
Proof. destruct c as [[] [] [] [] [] [] [] []]; vm_compute; reflexivity. Qed.

Lemma length_xor_first_bit s : String.length (xor_first_bit s) = String.length s.
Proof. by destruct s. Qed.
Lemma length_xor_all_bits s : String.length (xor_all_bits s) = String.length s.
Proof. induction s as [|c s IH]; [done|]. cbn. by rewrite IH. Qed.

Lemma from_be_bytes_xor_all_bits s : from_be_bytes (xor_all_bits s) = 256 ^ Z.of_nat (String.length s) - 1 - from_be_bytes s.
Proof.
  induction s as [|c s IH]; [done|]. cbn [from_be_bytes xor_all_bits String.length].
  rewrite IH, length_xor_all_bits, xor_255, Nat2Z.inj_succ, Z.pow_succ_r by lia. lia.
Qed.

Lemma from_be_bytes_xor_first_bit f : 0 ≤ f < 2 ^ 63 → from_be_bytes (xor_first_bit (be_bytes 8 f)) = 2 ^ 63 + f.
Proof.
  intros Hf. assert (Hv : from_be_bytes (be_bytes 8 f) = f) by (apply from_be_bytes_small; lia).
  revert Hv. generalize (length_be_bytes 8 f). destruct (be_bytes 8 f) as [|c s]; [done|]. cbn [xor_first_bit from_be_bytes String.length].
  intros Hlen Hv. injection Hlen as Hlen. rewrite Hlen in *. rewrite xor_128.
  pose proof (from_be_bytes_bounds s) as Hs. rewrite Hlen in Hs. pose proof (code_bounds c).
  destruct (Z.ltb_spec (code c) 128); lia.
Qed.

(** The integer whose bytes come first in the encoding of a float. *)
Definition ordered (f : Z) : Z := if F64.signed f <? 0 then 2 ^ 63 - 1 + F64.signed f else 2 ^ 63 + F64.signed f.

Lemma f64_into_bytes_spec f : F64.valid f →
  ∃ b, f64_into_bytes f = Some b ∧ String.length b = 8%nat ∧ from_be_bytes b = ordered f.
Proof.
  intros [Hf Hfin]. unfold f64_into_bytes. rewrite Hfin. unfold ordered, F64.eq, F64.signed, F64.sign, F64.magnitude in *.
  change (if 2 ^ 63 <=? 0 then - (0 mod 2 ^ 63) else 0 mod 2 ^ 63) with 0.
  destruct (Z.leb_spec (2 ^ 63) f) as [Hs|Hs].
  - assert (Hm : f mod 2 ^ 63 = f - 2 ^ 63) by (symmetry; apply (Z.mod_unique _ _ 1); lia). rewrite Hm.
    destruct (Z.eqb_spec (- (f - 2 ^ 63)) 0) as [He|Hne].
    + eexists. split; [reflexivity|]. split; [done|]. rewrite from_be_bytes_xor_first_bit by lia. rewrite He. done.
    + eexists. split; [reflexivity|]. rewrite length_xor_all_bits, length_be_bytes. split; [done|].
      rewrite from_be_bytes_xor_all_bits, length_be_bytes, from_be_bytes_small by (cbn; lia).
      rewrite (proj2 (Z.ltb_lt _ _)) by lia. change (256 ^ Z.of_nat 8) with (2 ^ 64). lia.
  - assert (Hm : f mod 2 ^ 63 = f) by (apply Z.mod_small; lia). rewrite Hm.
    rewrite (proj2 (Z.ltb_ge _ _)) by lia.
    destruct (Z.eqb_spec f 0) as [->|Hne]; eexists; (split; [reflexivity|]); (split; [by rewrite length_xor_first_bit, length_be_bytes|]);
      apply from_be_bytes_xor_first_bit; lia.
Qed.

#[global] Instance OrderedF64Codec_ok : CodecOk OrderedF64Codec F64.valid.
Proof.
  split. intros f Hv. destruct (f64_into_bytes_spec f Hv) as (b & He & Hlen & _). destruct Hv as [Hf _].
  cbn [bytes_encode bytes_decode OrderedF64Codec]. rewrite He. eexists. split; [reflexivity|].
  rewrite string_length_app, Hlen, length_be_bytes. cbn [Nat.add Nat.ltb Nat.leb].
  pose proof (try_split_at_app b (be_bytes 8 f)) as Hsp. rewrite Hlen in Hsp. rewrite Hsp, length_be_bytes. cbn [Nat.eqb]. by rewrite from_be_bytes_small by (cbn; lia).
Qed.

Lemma ordered_lt x y : (ordered x <? ordered y) = F64.lt x y.
Proof.
  unfold ordered, F64.lt.
  destruct (Z.ltb_spec (F64.signed x) 0), (Z.ltb_spec (F64.signed y) 0), (Z.ltb_spec (F64.signed x) (F64.signed y));
    (apply Z.ltb_lt || apply Z.ltb_ge); lia.
Qed.
Lemma ordered_inj x y : ordered x = ordered y ↔ F64.signed x = F64.signed y.
Proof. unfold ordered. destruct (Z.ltb_spec (F64.signed x) 0), (Z.ltb_spec (F64.signed y) 0); lia. Qed.

(** Floats are equal when their bits are, the two zeros apart. *)
Lemma signed_inj x y : 0 ≤ x < 2 ^ 64 → 0 ≤ y < 2 ^ 64 → F64.signed x = F64.signed y → x = y ∨ F64.signed x = 0.
Proof.
  unfold F64.signed, F64.sign, F64.magnitude. intros Hx Hy. pose proof (Z.mod_pos_bound x (2 ^ 63)). pose proof (Z.mod_pos_bound y (2 ^ 63)).
  pose proof (Z.div_mod x (2 ^ 63)). pose proof (Z.div_mod y (2 ^ 63)).
  assert (0 ≤ x / 2 ^ 63 < 2) by (split; [apply Z.div_pos; lia|apply Z.div_lt_upper_bound; lia]).
  assert (0 ≤ y / 2 ^ 63 < 2) by (split; [apply Z.div_pos; lia|apply Z.div_lt_upper_bound; lia]).
  destruct (Z.leb_spec (2 ^ 63) x), (Z.leb_spec (2 ^ 63) y); lia.
Qed.

Lemma f64_bytes_lt x y bx by_ : F64.valid x → F64.valid y →
  bytes_encode OrderedF64Codec x = Some bx → bytes_encode OrderedF64Codec y = Some by_ →
  b_lt bx by_ = F64.lt x y || (F64.eq x y && (x <? y)).
Proof.
  intros Hx Hy Hbx Hby. destruct (f64_into_bytes_spec x Hx) as (ox & Eox & Lx & Vx), (f64_into_bytes_spec y Hy) as (oy & Eoy & Ly & Vy).
  cbn in Hbx, Hby. rewrite Eox in Hbx. rewrite Eoy in Hby. cbn in Hbx, Hby. injection Hbx as <-. injection Hby as <-.
  change (b_lt (ox +:+ be_bytes 8 x) (oy +:+ be_bytes 8 y) = F64.lt x y || F64.eq x y && (x <? y)).
  destruct Hx as [Hx _], Hy as [Hy _].
  rewrite b_lt_app, b_lt_from_be_bytes, Vx, Vy, ordered_lt by congruence. f_equal.
  rewrite <-(string_app_nil_r (be_bytes 8 x)), <-(string_app_nil_r (be_bytes 8 y)), b_lt_be_app by (cbn; lia).
  rewrite b_lt_irrefl, andb_false_r, orb_false_r. f_equal. unfold F64.eq.
  destruct (String.eqb_spec ox oy) as [->|Hne], (Z.eqb_spec (F64.signed x) (F64.signed y)) as [He|He]; try done.
  - destruct He. apply ordered_inj. congruence.
  - destruct Hne. apply from_be_bytes_inj; [congruence|]. rewrite Vx, Vy. by apply ordered_inj.
Qed.

(** C36. The bytes of two finite floats are in the order of the floats; two
    equal floats have the same bytes, except that -0.0 is after 0.0. *)
Theorem ordered_f64_order x y bx by_ : F64.valid x → F64.valid y →
  bytes_encode OrderedF64Codec x = Some bx → bytes_encode OrderedF64Codec y = Some by_ →
  b_lt bx by_ = F64.lt x y || (F64.eq x y && (x <? y)).
Proof. exact (f64_bytes_lt x y bx by_). Qed.

(** -10.0 and 10.0. *)
Lemma ordered_f64_order_witness :
  let x := 13844628204602982400 in let y := 4621819117588971520 in
  let bx := default String.EmptyString (bytes_encode OrderedF64Codec x) in
  let by_ := default String.EmptyString (bytes_encode OrderedF64Codec y) in
  F64.valid x ∧ F64.valid y ∧ b_lt bx by_ = true.
Proof.
  intros x y bx by_. assert (Hx : F64.valid x) by (split; [unfold x; lia|reflexivity]).
  assert (Hy : F64.valid y) by (split; [unfold y; lia|reflexivity]). split; [done|]. split; [done|].
  rewrite (ordered_f64_order x y bx by_ Hx Hy); vm_compute; reflexivity.
Defined.

(** The two zeros are different keys: a document with -0.0 is not found by a
    filter on 0, and comes after it. *)
Example minus_zero_is_another_key :
  F64.eq 0 (2 ^ 63) = true ∧ bytes_encode OrderedF64Codec 0 ≠ bytes_encode OrderedF64Codec (2 ^ 63) ∧
  option_map (λ bx, option_map (b_lt bx) (bytes_encode OrderedF64Codec (2 ^ 63))) (bytes_encode OrderedF64Codec 0) = Some (Some true).
Proof. split; [reflexivity|]. split; [vm_compute; congruence|vm_compute; reflexivity]. Qed.

(** C35. LMDB orders the keys of the facet databases by the field, then by
    the level, then by the bytes of the bound, as all the searches assume; no two
    keys are encoded as the same bytes. *)
Theorem facet_key_order fid1 level1 bound1 fid2 level2 bound2 b1 b2 :
  unsigned 2 fid1 → unsigned 2 fid2 → unsigned 1 (Z.of_nat level1) → unsigned 1 (Z.of_nat level2) →
  bytes_encode (FacetGroupKeyCodec BytesRefCodec) (fid1, Z.of_nat level1, bound1) = Some b1 →
  bytes_encode (FacetGroupKeyCodec BytesRefCodec) (fid2, Z.of_nat level2, bound2) = Some b2 →
  b_lt b1 b2 = key_lt (mkFacetGroupKey fid1 level1 bound1) (mkFacetGroupKey fid2 level2 bound2) ∧
  (b1 = b2 → (fid1, level1, bound1) = (fid2, level2, bound2)).
Proof.
  intros Hf1 Hf2 Hl1 Hl2 E1 E2. cbn [bytes_encode FacetGroupKeyCodec BytesRefCodec mbind option_bind] in E1, E2.
  simplify_eq. split.
  - rewrite !b_lt_be_app by done. unfold key_lt. cbn [fk_field_id fk_level fk_left_bound]. f_equal. f_equal.
    f_equal; [|f_equal].
    + destruct (Nat.ltb_spec level1 level2); [apply Z.ltb_lt|apply Z.ltb_ge]; lia.
    + destruct (Nat.eqb_spec level1 level2); [apply Z.eqb_eq|apply Z.eqb_neq]; lia.
  - intros [-> [Hl ->]%be_app_inj]%be_app_inj; try done. by apply Nat2Z.inj in Hl as ->.
Qed.

Lemma facet_key_order_witness :
  let b1 := default String.EmptyString (bytes_encode (FacetGroupKeyCodec BytesRefCodec) (255, 1, "z"%string)) in
  let b2 := default String.EmptyString (bytes_encode (FacetGroupKeyCodec BytesRefCodec) (256, 0, "a"%string)) in
  b_lt b1 b2 = key_lt (mkFacetGroupKey 255 1 "z") (mkFacetGroupKey 256 0 "a") ∧ b_lt b1 b2 = true.
Proof.
  intros b1 b2. split; [|vm_compute; reflexivity].
  apply (facet_key_order 255 1 "z" 256 0 "a" b1 b2); try (split; [discriminate|reflexivity]); vm_compute; reflexivity.
Defined.

(** ** Bitmaps *)

(** [to_ne_bytes] and [from_ne_bytes] of a [u32]. *)
Section native.
Variable big_endian : bool.

Fixpoint le_bytes (n : nat) (z : Z) : string :=
  match n with O => String.EmptyString | S n => String.String (byte_of z) (le_bytes n (z / 256)) end.
Fixpoint from_le_bytes (s : string) : Z :=
  match s with String.EmptyString => 0 | String.String c s => code c + 256 * from_le_bytes s end.

Definition ne_bytes (z : Z) : string := if big_endian then be_bytes 4 z else le_bytes 4 z.
Definition from_ne_bytes (s : string) : Z := if big_endian then from_be_bytes s else from_le_bytes s.

Lemma from_le_bytes_le n z : 0 ≤ z < 256 ^ Z.of_nat n → from_le_bytes (le_bytes n z) = z.
Proof.
  revert z. induction n as [|n IH]; intros z Hz; [cbn in *; lia|]. cbn [le_bytes from_le_bytes].
  rewrite code_byte_of, IH; [pose proof (Z.div_mod z 256); lia|].
  rewrite Nat2Z.inj_succ, Z.pow_succ_r in Hz by lia. split; [apply Z.div_pos; lia|apply Z.div_lt_upper_bound; lia].
Qed.

Lemma length_ne_bytes z : String.length (ne_bytes z) = 4%nat.
Proof. unfold ne_bytes. destruct big_endian; [apply length_be_bytes|reflexivity]. Qed.

Lemma ne_bytes_roundtrip z : unsigned 4 z → from_ne_bytes (ne_bytes z) = z.
Proof. unfold from_ne_bytes, ne_bytes. destruct big_endian; [apply from_be_bytes_small|apply from_le_bytes_le]. Qed.
End native.

(** The crate [roaring]: bitmaps as bytes, and the intersection with the bytes of a
    bitmap. *)
Class Roaring := {
  native_big_endian : bool;
  roaring_serialize : bitmap → string;
  roaring_serialized_size : bitmap → Z;
  roaring_deserialize : string → option bitmap;
  roaring_intersection : bitmap → string → option bitmap;
}.
Definition u32_bitmap (b : bitmap) : Prop := ∀ x, x ∈ b → unsigned 4 x.
(** The format has a header: eight integers take 32 bytes at least. *)
Class RoaringOk `{Roaring} := {
  roaring_roundtrip b : u32_bitmap b → roaring_deserialize (roaring_serialize b) = Some b;
  roaring_size b : roaring_serialized_size b = Z.of_nat (String.length (roaring_serialize b));
  roaring_header b : 7 < bm_len b → 28 < roaring_serialized_size b;
  roaring_intersection_spec b bytes : roaring_intersection b bytes = (λ c, c ∩ b) <$> roaring_deserialize bytes;
}.

Module Cbo.
Section cbo.
Context `{Roaring}.

Definition THRESHOLD : Z := 7.

Definition serialized_size (roaring : bitmap) : Z :=
  if bm_len roaring <=? THRESHOLD then bm_len roaring * 4 else roaring_serialized_size roaring.

(** The bytes of some integers. *)
Fixpoint write_u32s (l : list Z) : string :=
  match l with [] => String.EmptyString | x :: l => ne_bytes native_big_endian x +:+ write_u32s l end.
(** [while let Ok(integer) = bytes.read_u32()]. *)
Fixpoint read_u32s (bytes : string) : list Z :=
  match bytes with
  | String.String a (String.String b (String.String c (String.String d bytes))) =>
      from_ne_bytes native_big_endian (String.String a (String.String b (String.String c (String.String d String.EmptyString)))) :: read_u32s bytes
  | _ => []
  end.
Definition is_short (bytes : string) : bool := Z.of_nat (String.length bytes) <=? THRESHOLD * 4.

Definition serialize_into_vec (roaring : bitmap) : string :=
  if bm_len roaring <=? THRESHOLD then write_u32s (bm_iter roaring) else roaring_serialize roaring.

Definition deserialize_from (bytes : string) : option bitmap :=
  if is_short bytes then Some (list_to_set (read_u32s bytes)) else roaring_deserialize bytes.

Definition intersection_with_serialized (bytes : string) (other : bitmap) : option bitmap :=
  if is_short bytes then Some (list_to_set (filter (λ x, x ∈ other) (read_u32s bytes)))
  else roaring_intersection other bytes.

(** The loop of [merge_into]. *)
Fixpoint merge_loop (slices : list string) (roaring : bitmap) (vec : list Z) : option (bitmap * list Z) :=
  match slices with
  | [] => Some (roaring, vec)
  | bytes :: slices =>
      if is_short bytes then merge_loop slices roaring (vec ++ read_u32s bytes)
      else b ← roaring_deserialize bytes; merge_loop slices (roaring ∪ b) vec
  end.

Definition merge_into (slices : list string) : option string :=
  '(roaring, vec) ← merge_loop slices ∅ [];
  if bool_decide (roaring = ∅) then
    let vec := dedup (merge_sort Z.le vec) in
    Some (if Z.of_nat (length vec) <=? THRESHOLD then write_u32s vec else roaring_serialize (list_to_set vec))
  else Some (roaring_serialize (roaring ∪ list_to_set vec)).

(** [merge_deladd_into]: the bytes to delete and to add, if any; [None] inside when
    nothing remains. *)
Definition merge_deladd_into (deletion addition : option string) (previous : string) : option (option string) :=
  previous ← deserialize_from previous;
  deleted ← match deletion with Some value => deserialize_from value | None => Some ∅ end;
  added ← match addition with Some value => deserialize_from value | None => Some ∅ end;
  let previous := previous ∖ deleted ∪ added in
  Some (if bool_decide (previous = ∅) then None else Some (serialize_into_vec previous)).

(** *** Correctness *)

Lemma dedup_sort_iter vec : dedup (merge_sort Z.le vec) = bm_iter (list_to_set vec).
Proof.
  destruct (dedup_sorted (merge_sort Z.le vec)) as [Hs Hn]; [apply StronglySorted_merge_sort; apply _|].
  apply (StronglySorted_unique Z.le); [done|apply StronglySorted_bm_iter|].
  apply NoDup_Permutation; [done|apply NoDup_bm_iter|]. intros x.
  by rewrite dedup_elem, merge_sort_Permutation, elem_of_bm_iter, elem_of_list_to_set.
Qed.

Lemma read_write_u32s l : Forall (unsigned 4) l → read_u32s (write_u32s l) = l.
Proof.
  induction 1 as [|x l Hx _ IH]; [done|]. cbn [write_u32s]. pose proof (ne_bytes_roundtrip native_big_endian x Hx) as Hr.
  pose proof (length_ne_bytes native_big_endian x) as Hlen.
  destruct (ne_bytes native_big_endian x) as [|a [|b [|c [|d [|e s]]]]]; try done. cbn [String.append read_u32s].
  by rewrite Hr, IH.
Qed.

Lemma length_write_u32s l : Z.of_nat (String.length (write_u32s l)) = Z.of_nat (length l) * 4.
Proof.
  induction l as [|x l IH]; [done|]. cbn [write_u32s length]. rewrite string_length_app, Nat2Z.inj_add, IH, length_ne_bytes. lia.
Qed.

Context `{!RoaringOk}.

Lemma is_short_serialized b : is_short (serialize_into_vec b) = (bm_len b <=? THRESHOLD).
Proof.
  unfold is_short, serialize_into_vec, THRESHOLD. destruct (Z.leb_spec (bm_len b) 7) as [Hle|Hgt].
  - rewrite length_write_u32s, length_bm_iter. apply Z.leb_le. lia.
  - rewrite <-roaring_size. apply Z.leb_gt. by apply roaring_header.
Qed.

Lemma short_read b : u32_bitmap b → (bm_len b <=? THRESHOLD) = true → read_u32s (serialize_into_vec b) = bm_iter b.
Proof.
  intros Hb Hle. unfold serialize_into_vec. rewrite Hle. apply read_write_u32s.
  apply Forall_forall. intros x Hx%elem_of_bm_iter. by apply Hb.
Qed.

Lemma list_to_set_bm_iter b : list_to_set (bm_iter b) = b.
Proof. apply set_eq. intros x. by rewrite elem_of_list_to_set, elem_of_bm_iter. Qed.

Lemma deserialize_serialize b : u32_bitmap b → deserialize_from (serialize_into_vec b) = Some b.
Proof.
  intros Hb. unfold deserialize_from. rewrite is_short_serialized. destruct (bm_len b <=? THRESHOLD) eqn:Hle.
  - by rewrite short_read, list_to_set_bm_iter.
  - unfold serialize_into_vec. rewrite Hle. by apply roaring_roundtrip.
Qed.

Lemma intersection_serialized b other : u32_bitmap b →
  intersection_with_serialized (serialize_into_vec b) other = Some (b ∩ other).
Proof.
  intros Hb. unfold intersection_with_serialized. rewrite is_short_serialized. destruct (bm_len b <=? THRESHOLD) eqn:Hle.
  - rewrite short_read by done. f_equal. apply set_eq. intros x.
    rewrite elem_of_list_to_set, list_elem_of_filter, elem_of_bm_iter. set_solver.
  - rewrite roaring_intersection_spec. unfold serialize_into_vec. by rewrite Hle, roaring_roundtrip.
Qed.

Lemma merge_loop_serialized bs : ∀ roaring vec, Forall u32_bitmap bs → (roaring = ∅ ∨ 7 < bm_len roaring) →
  ∃ roaring' vec', merge_loop (serialize_into_vec <$> bs) roaring vec = Some (roaring', vec') ∧
    roaring' ∪ list_to_set vec' = roaring ∪ list_to_set vec ∪ ⋃ bs ∧ (roaring' = ∅ ∨ 7 < bm_len roaring').
Proof.
  induction bs as [|b bs IH]; intros roaring vec Hbs Hr; [exists roaring, vec; cbn; by rewrite (right_id_L ∅ (∪))|].
  apply Forall_cons in Hbs as [Hb Hbs]. cbn [fmap list_fmap merge_loop union_list]. rewrite is_short_serialized.
  destruct (bm_len b <=? THRESHOLD) eqn:Hle.
  - rewrite short_read by done. destruct (IH roaring (vec ++ bm_iter b) Hbs Hr) as (r & v & E & Hu & Hr').
    exists r, v. split; [done|]. split; [|done]. rewrite Hu, list_to_set_app_L, list_to_set_bm_iter. cbn. set_solver.
  - assert (Hd : roaring_deserialize (serialize_into_vec b) = Some b).
    { unfold serialize_into_vec. rewrite Hle. by apply roaring_roundtrip. }
    rewrite Hd. cbn [mbind option_bind]. destruct (IH (roaring ∪ b) vec Hbs) as (r & v & E & Hu & Hr').
    + right. apply Z.leb_gt in Hle. unfold THRESHOLD, bm_len in *.
      pose proof (subseteq_size b (roaring ∪ b) (union_subseteq_r _ _)). lia.
    + exists r, v. split; [done|]. split; [|done]. rewrite Hu. cbn. set_solver.
Qed.

(** Merging the bytes of bitmaps gives the bytes of their union. *)
Lemma merge_serialized bs : Forall u32_bitmap bs → merge_into (serialize_into_vec <$> bs) = Some (serialize_into_vec (⋃ bs)).
Proof.
  intros Hbs. unfold merge_into. destruct (merge_loop_serialized bs ∅ [] Hbs) as (r & v & -> & Hu & Hr); [by left|].
  cbn [mbind option_bind]. assert (Hbu : ⋃ bs = r ∪ list_to_set v) by (rewrite Hu; cbn; set_solver). rewrite Hbu.
  case_bool_decide as He.
  - subst r. rewrite (left_id_L ∅ (∪)), dedup_sort_iter, length_bm_iter. f_equal. unfold serialize_into_vec.
    by rewrite list_to_set_bm_iter.
  - destruct Hr as [->|Hr]; [done|]. f_equal. unfold serialize_into_vec. rewrite (proj2 (Z.leb_gt _ _)); [done|].
    unfold THRESHOLD, bm_len in *. pose proof (subseteq_size r (r ∪ list_to_set v) (union_subseteq_l _ _)). lia.
Qed.

(** C37. The bytes of a bitmap of [u32], whichever of the two encodings is used,
    have the size announced and are decoded as the bitmap; the operations that work
    on the bytes do what they do on the bitmaps: the intersection, the merge of
    several bitmaps, and the removal then addition of a change. *)
Theorem cbo_bitmap_spec b other bs deleted added :
  u32_bitmap b → Forall u32_bitmap bs → u32_bitmap deleted → u32_bitmap added →
  Z.of_nat (String.length (serialize_into_vec b)) = serialized_size b ∧
  deserialize_from (serialize_into_vec b) = Some b ∧
  intersection_with_serialized (serialize_into_vec b) other = Some (b ∩ other) ∧
  merge_into (serialize_into_vec <$> bs) = Some (serialize_into_vec (⋃ bs)) ∧
  merge_deladd_into (Some (serialize_into_vec deleted)) (Some (serialize_into_vec added)) (serialize_into_vec b) =
    Some (if bool_decide (b ∖ deleted ∪ added = ∅) then None else Some (serialize_into_vec (b ∖ deleted ∪ added))).
Proof.
  intros Hb Hbs Hd Ha. split; [|split; [|split; [|split]]].
  - unfold serialize_into_vec, serialized_size. destruct (bm_len b <=? THRESHOLD); [|by rewrite roaring_size].
    by rewrite length_write_u32s, length_bm_iter.
  - by apply deserialize_serialize.
  - by apply intersection_serialized.
  - by apply merge_serialized.
  - unfold merge_deladd_into. by rewrite !deserialize_serialize.
Qed.
End cbo.

(** A serializer: a header, then the integers. *)
Fixpoint zeros (n : nat) : string := match n with O => String.EmptyString | S n => String.String (byte_of 0) (zeros n) end.
Fixpoint be_u32s (l : list Z) : string := match l with [] => String.EmptyString | x :: l => be_bytes 4 x +:+ be_u32s l end.
Fixpoint from_be_u32s (bytes : string) : list Z :=
  match bytes with
  | String.String a (String.String b (String.String c (String.String d bytes))) =>
      from_be_bytes (String.String a (String.String b (String.String c (String.String d String.EmptyString)))) :: from_be_u32s bytes
  | _ => []
  end.
#[local] Instance sample_roaring : Roaring := {|
  native_big_endian := false;
  roaring_serialize b := zeros 28 +:+ be_u32s (bm_iter b);
  roaring_serialized_size b := 28 + 4 * bm_len b;
  roaring_deserialize bytes := match try_split_at bytes 28 with Some (_, s) => Some (list_to_set (from_be_u32s s)) | None => None end;
  roaring_intersection b bytes := match try_split_at bytes 28 with Some (_, s) => Some (list_to_set (from_be_u32s s) ∩ b) | None => None end;
|}.

Lemma from_be_u32s_be l : Forall (unsigned 4) l → from_be_u32s (be_u32s l) = l.
Proof.
  induction 1 as [|x l Hx _ IH]; [done|]. cbn [be_u32s]. pose proof (from_be_bytes_small 4 x Hx) as Hr.
  pose proof (length_be_bytes 4 x) as Hlen.
  destruct (be_bytes 4 x) as [|a [|b [|c [|d [|e s]]]]]; try done. cbn [String.append from_be_u32s]. by rewrite Hr, IH.
Qed.

#[local] Instance sample_roaring_ok : RoaringOk.
Proof.
  split; cbn [roaring_serialize roaring_serialized_size roaring_deserialize roaring_intersection sample_roaring].
  - intros b Hb. change 28%nat with (String.length (zeros 28)) at 2. rewrite try_split_at_app. f_equal.
    rewrite from_be_u32s_be; [apply list_to_set_bm_iter|]. apply Forall_forall. intros x Hx%elem_of_bm_iter. by apply Hb.
  - intros b. rewrite string_length_app. rewrite <-length_bm_iter. change (String.length (zeros 28)) with 28%nat.
    assert (∀ l, String.length (be_u32s l) = (4 * length l)%nat) as ->; [|lia].
    induction l as [|x l IH]; [done|]. cbn [be_u32s length]. rewrite string_length_app, length_be_bytes, IH. lia.
  - lia.
  - intros b bytes. by destruct (try_split_at bytes 28) as [[? ?]|].
Qed.

Lemma u32_bitmap_dec b : forallb (λ x, (0 <=? x) && (x <? 256 ^ 4)) (elements b) = true → u32_bitmap b.
Proof.
  intros Hb x Hx%elem_of_elements. apply list_elem_of_In in Hx. apply (proj1 (forallb_forall _ _) Hb) in Hx. unfold unsigned. lia.
Qed.

Lemma cbo_bitmap_spec_witness :
  let b : bitmap := list_to_set (seqZ 0 10) in
  deserialize_from (serialize_into_vec b) = Some b ∧ String.length (serialize_into_vec b) = 68%nat.
Proof.
  intros b. split; [|vm_compute; reflexivity].
  assert (Hb : u32_bitmap b) by (apply u32_bitmap_dec; vm_compute; reflexivity).
  assert (H3 : u32_bitmap {[3]}) by (apply u32_bitmap_dec; vm_compute; reflexivity).
  destruct (cbo_bitmap_spec b ∅ [b] {[3]} {[3]} Hb (Forall_cons_2 _ _ _ Hb (Forall_nil_2 _)) H3 H3) as (_ & Hd & _).
  exact Hd.
Defined.
End Cbo.

(** ** All the keys *)

Definition roundtrips {T} (C : BytesCodec T) (x : T) : Prop := ∃ b, bytes_encode C x = Some b ∧ bytes_decode C b = Ok x.

(** C38. Every key is decoded as what was encoded: the keys of the facet
    databases with their bounds and their documents, the positions of words, the
    pairs of words, the numbers of words and the version of an index (its major,
    minor and patch numbers).  The integers are those of their types, the floats
    valid, the strings UTF-8, and the word before a position holds no NUL byte. *)
Theorem codecs_roundtrip fid level docid count f s word major minor patch :
  unsigned 2 fid → unsigned 1 level → unsigned 4 docid → unsigned 1 count → F64.valid f →
  unsigned 4 major → unsigned 4 minor → unsigned 4 patch →
  is_utf8 s = true → is_utf8 word = true → no_nul word →
  roundtrips (FacetGroupKeyCodec OrderedF64Codec) (fid, level, f) ∧
  roundtrips (FacetGroupKeyCodec StrRefCodec) (fid, level, s) ∧
  roundtrips (FieldDocIdFacetCodec OrderedF64Codec) (fid, docid, f) ∧
  roundtrips (FieldDocIdFacetCodec StrRefCodec) (fid, docid, s) ∧
  roundtrips BEU16StrCodec (fid, s) ∧ roundtrips BEU32StrCodec (docid, s) ∧
  roundtrips StrBEU32Codec (word, docid) ∧ roundtrips StrBEU16Codec (word, fid) ∧
  roundtrips FieldIdWordCountCodec (fid, count) ∧ roundtrips U8StrStrCodec (count, word, s) ∧
  roundtrips VersionCodec (major, minor, patch).
Proof.
  intros. unfold roundtrips, BEU16StrCodec, BEU32StrCodec. repeat split; by apply codec_roundtrip.
Qed.

Lemma codecs_roundtrip_witness :
  roundtrips (FacetGroupKeyCodec OrderedF64Codec) (513, 2, 4621819117588971520) ∧
  roundtrips U8StrStrCodec (3, "ab"%string, "cd"%string) ∧ roundtrips VersionCodec (1, 14, 2).
Proof.
  assert (Hn : no_nul "ab") by (intros [|x [|y [|z a]]] b; discriminate).
  destruct (codecs_roundtrip 513 2 7 3 4621819117588971520 "cd" "ab" 1 14 2)
    as (H & _ & _ & _ & _ & _ & _ & _ & _ & Hu & Hv);
    try (split; [lia|reflexivity]); [reflexivity|reflexivity|exact Hn|].
  split; [exact H|]. split; assumption.
Defined.
