(* ===== verification/AttributeRules.v ===== *)
(** * Filterable attributes

    [crates/milli-core/src/attribute_patterns.rs] and
    [filterable_attributes_rules.rs]: which fields of the documents the rules of an
    index let a filter use, and which ones are put into the databases of facets. *)

From S2P Require Import Prelude TaskTypes SchedUtils Ids Documents Facet Bytes.
From Stdlib Require Import Ascii.
From Stdlib Require String.
Open Scope Z_scope.

#[local] Arguments String.append !_ _ : simpl nomatch.

(** ** Patterns *)

Module PatternMatch.
Inductive t := Parent | Match | NoMatch.
#[global] Instance t_eq_dec : EqDecision t.
Proof. solve_decision. Defined.
End PatternMatch.

(** [str::strip_suffix('*')]. *)
Fixpoint strip_star_suffix (s : string) : option string :=
  match s with
  | String.EmptyString => None
  | String.String c String.EmptyString => if Ascii.eqb c "*"%char then Some String.EmptyString else None
  | String.String c s => String.String c <$> strip_star_suffix s
  end.

(** [match_pattern]. *)
Definition match_pattern (pattern str : string) : PatternMatch.t :=
  let is_match :=
    if String.eqb pattern "*" then true
    else match str_strip_prefix "*" pattern, strip_star_suffix pattern with
         | Some inner, Some _ => str_contains (default inner (strip_star_suffix inner)) str
         | Some suffix, None => str_ends_with suffix str
         | None, Some prefix => starts_with prefix str
         | None, None => String.eqb pattern str
         end in
  if is_match then PatternMatch.Match
  else if is_faceted_by pattern str then PatternMatch.Parent
  else PatternMatch.NoMatch.

(** [match_field_legacy]. *)
Definition match_field_legacy (pattern field : string) : PatternMatch.t :=
  if is_faceted_by field pattern then PatternMatch.Match
  else if is_faceted_by pattern field then PatternMatch.Parent
  else PatternMatch.NoMatch.

(** [match_distinct_field]. *)
Definition match_distinct_field (distinct_field : option string) (field : string) : PatternMatch.t :=
  match distinct_field with
  | Some distinct_field =>
      if String.eqb field distinct_field then PatternMatch.Match
      else if is_faceted_by distinct_field field then PatternMatch.Parent
      else PatternMatch.NoMatch
  | None => PatternMatch.NoMatch
  end.

(** The loop of [AttributePatterns::match_str], which is also that over the
    sortable fields: the first match, or else whether some pattern has the field as
    a parent. *)
Fixpoint first_match (matches : string → PatternMatch.t) (patterns : list string) (selection : PatternMatch.t) : PatternMatch.t :=
  match patterns with
  | [] => selection
  | pattern :: patterns =>
      match matches pattern with
      | PatternMatch.Match => PatternMatch.Match
      | PatternMatch.Parent => first_match matches patterns PatternMatch.Parent
      | PatternMatch.NoMatch => first_match matches patterns selection
      end
  end.
Definition patterns_match_str (patterns : list string) (str : string) : PatternMatch.t :=
  first_match (λ pattern, match_pattern pattern str) patterns PatternMatch.NoMatch.

(** ** Rules *)

Record FilterFeatures := mkFilterFeatures { equality : bool; comparison : bool }.
Definition filter_is_filterable (f : FilterFeatures) : bool := equality f || comparison f.

Record FilterableAttributesFeatures := mkFeatures { facet_search : bool; filter_features : FilterFeatures }.
Definition legacy_default : FilterableAttributesFeatures := mkFeatures true (mkFilterFeatures true true).
Definition is_filterable (f : FilterableAttributesFeatures) : bool := filter_is_filterable (filter_features f).
(** [is_filterable_empty], [is_filterable_null] and [is_filterable_exists] are
    [is_filterable]. *)
Definition is_filterable_equality (f : FilterableAttributesFeatures) : bool := equality (filter_features f).
Definition is_filterable_comparison (f : FilterableAttributesFeatures) : bool := comparison (filter_features f).
Definition is_facet_searchable (f : FilterableAttributesFeatures) : bool := facet_search f.

(** [allowed_operators]. *)
Definition allowed_operators (f : FilterFeatures) : list string :=
  if negb (filter_is_filterable f) then []
  else ["OR"; "AND"; "NOT"]%string ++ (if equality f then ["="; "!="; "IN"]%string else []) ++
       (if comparison f then ["<"; ">"; "<="; ">="; "TO"]%string else []) ++ ["IS EMPTY"; "IS NULL"; "EXISTS"]%string.

Inductive FilterableAttributesRule :=
| RuleField (field : string)
| RulePattern (patterns : list string) (features : FilterableAttributesFeatures).

Definition rule_match_str (rule : FilterableAttributesRule) (field : string) : PatternMatch.t :=
  match rule with
  | RuleField pattern => match_field_legacy pattern field
  | RulePattern patterns _ => patterns_match_str patterns field
  end.
Definition rule_features (rule : FilterableAttributesRule) : FilterableAttributesFeatures :=
  match rule with RuleField _ => legacy_default | RulePattern _ features => features end.
Definition has_geo (rule : FilterableAttributesRule) : bool :=
  match rule with RuleField field => String.eqb field RESERVED_GEO_FIELD_NAME | RulePattern _ _ => false end.

(** [filtered_matching_patterns]. *)
Definition filtered_matching_patterns (rules : list FilterableAttributesRule) (f : FilterableAttributesFeatures → bool) : gset string :=
  ⋃ ((λ rule, if f (rule_features rule)
              then match rule with RuleField field => {[field]} | RulePattern patterns _ => list_to_set patterns end
              else ∅) <$> rules).

(** [matching_features]; [id] is the index of the first rule. *)
Fixpoint matching_features_from (id : Z) (field_name : string) (rules : list FilterableAttributesRule)
    : option (Z * FilterableAttributesFeatures) :=
  match rules with
  | [] => None
  | rule :: rules =>
      if bool_decide (rule_match_str rule field_name = PatternMatch.Match) then Some (id, rule_features rule)
      else matching_features_from (id + 1) field_name rules
  end.
Definition matching_features (field_name : string) (rules : list FilterableAttributesRule)
    : option (Z * FilterableAttributesFeatures) := matching_features_from 0 field_name rules.

(** [match_pattern_by_features]. *)
Fixpoint match_by_features_loop (field_name : string) (rules : list FilterableAttributesRule)
    (f : FilterableAttributesFeatures → bool) (can_match : bool) (selection : PatternMatch.t) : PatternMatch.t :=
  match rules with
  | [] => selection
  | rule :: rules =>
      match rule_match_str rule field_name with
      | PatternMatch.Match =>
          if f (rule_features rule) && can_match then PatternMatch.Match
          else match_by_features_loop field_name rules f false selection
      | PatternMatch.Parent =>
          match_by_features_loop field_name rules f can_match (if f (rule_features rule) then PatternMatch.Parent else selection)
      | PatternMatch.NoMatch => match_by_features_loop field_name rules f can_match selection
      end
  end.
Definition match_pattern_by_features (field_name : string) (rules : list FilterableAttributesRule)
    (f : FilterableAttributesFeatures → bool) : PatternMatch.t :=
  match_by_features_loop field_name rules f true PatternMatch.NoMatch.

(** [match_faceted_field]. *)
Definition faceted_features (f : FilterableAttributesFeatures) : bool := is_facet_searchable f || is_filterable f.
Definition match_faceted_field (field_name : string) (filterable_fields : list FilterableAttributesRule)
    (sortable_fields asc_desc_fields : gset string) (distinct_field : option string) : PatternMatch.t :=
  match match_pattern_by_features field_name filterable_fields faceted_features with
  | PatternMatch.Match => PatternMatch.Match
  | selection =>
      match match_distinct_field distinct_field field_name with
      | PatternMatch.Match => PatternMatch.Match
      | m =>
          let selection := match m with PatternMatch.Parent => PatternMatch.Parent | _ => selection end in
          first_match (λ pattern, match_field_legacy pattern field_name) (elements sortable_fields ++ elements asc_desc_fields) selection
      end
  end.

(** ** What is faceted *)

Lemma is_faceted_by_spec field facet : is_faceted_by field facet = true ↔ field = facet ∨ ∃ t, field = facet +:+ "." +:+ t.
Proof.
  rewrite <-strip_dot_spec. f_equiv. revert field. induction facet as [|c facet IH]; intros [|d field]; try done.
  cbn. rewrite IH. by destruct (Ascii.eqb c d).
Qed.

Lemma first_match_spec matches patterns : ∀ selection,
  first_match matches patterns selection =
    if existsb (λ p, bool_decide (matches p = PatternMatch.Match)) patterns then PatternMatch.Match
    else if existsb (λ p, bool_decide (matches p = PatternMatch.Parent)) patterns then PatternMatch.Parent
    else selection.
Proof.
  induction patterns as [|p patterns IH]; intros selection; [done|]. cbn.
  destruct (matches p) eqn:Hp; [|done|]; rewrite IH; cbn; repeat case_match; done.
Qed.

Lemma existsb_decide_true {A} (P : A → Prop) `{∀ x, Decision (P x)} l : existsb (λ x, bool_decide (P x)) l = true ↔ ∃ x, x ∈ l ∧ P x.
Proof.
  rewrite existsb_exists. split; intros (x & Hx & HP); exists x; [rewrite bool_decide_eq_true in HP|rewrite bool_decide_eq_true];
    (split; [by apply list_elem_of_In|done]).
Qed.

(** The rule that decides is the first one that matches. *)
Lemma match_by_features_Match field rules f : ∀ id selection, selection ≠ PatternMatch.Match →
  match_by_features_loop field rules f true selection = PatternMatch.Match ↔
  ∃ i features, matching_features_from id field rules = Some (i, features) ∧ f features = true.
Proof.
  assert (Hno : ∀ rules selection, selection ≠ PatternMatch.Match →
    match_by_features_loop field rules f false selection ≠ PatternMatch.Match).
  { clear. induction rules as [|rule rules IH]; intros selection Hs; [done|]. cbn.
    destruct (rule_match_str rule field); rewrite ?andb_false_r; apply IH; [by destruct (f _)|done..]. }
  induction rules as [|rule rules IH]; intros id selection Hs; cbn; [naive_solver|].
  destruct (rule_match_str rule field) eqn:Hm; cbn.
  - apply IH. by destruct (f (rule_features rule)).
  - destruct (f (rule_features rule)) eqn:Hf; cbn; [split; [eauto|done]|].
    split; [intros Hc; by apply Hno in Hc|intros (i & ft & [= <- <-] & Hft); congruence].
  - by apply IH.
Qed.

(** The fields that are faceted: those whose first matching rule lets them be
    filtered or searched, the distinct field, and the sortable fields with all that
    is below them. *)
Lemma match_faceted_field_Match field rules sortable asc_desc distinct :
  match_faceted_field field rules sortable asc_desc distinct = PatternMatch.Match ↔
  (∃ i features, matching_features field rules = Some (i, features) ∧ faceted_features features = true) ∨
  distinct = Some field ∨ ∃ p, p ∈ sortable ∪ asc_desc ∧ is_faceted_by field p = true.
Proof.
  unfold match_faceted_field, matching_features. rewrite <-(match_by_features_Match field rules faceted_features 0 PatternMatch.NoMatch) by done.
  change (match_by_features_loop field rules faceted_features true PatternMatch.NoMatch) with (match_pattern_by_features field rules faceted_features).
  assert (Hd : match_distinct_field distinct field = PatternMatch.Match ↔ distinct = Some field).
  { unfold match_distinct_field. destruct distinct as [d|]; [|naive_solver]. destruct (String.eqb_spec field d) as [->|Hne]; [done|].
    case_match; naive_solver. }
  assert (Hs : ∀ sel, sel ≠ PatternMatch.Match →
    first_match (λ p, match_field_legacy p field) (elements sortable ++ elements asc_desc) sel = PatternMatch.Match ↔
    ∃ p, p ∈ sortable ∪ asc_desc ∧ is_faceted_by field p = true).
  { intros sel Hsel. rewrite first_match_spec.
    assert (existsb (λ p, bool_decide (match_field_legacy p field = PatternMatch.Match)) (elements sortable ++ elements asc_desc) = true ↔
            ∃ p, p ∈ sortable ∪ asc_desc ∧ is_faceted_by field p = true) as He.
    { rewrite existsb_decide_true. setoid_rewrite elem_of_app. setoid_rewrite elem_of_elements. setoid_rewrite elem_of_union.
      apply exist_proper. intros p. unfold match_field_legacy. destruct (is_faceted_by field p); [naive_solver|]. case_match; naive_solver. }
    rewrite <-He. destruct (existsb _ _); [done|]. case_match; naive_solver. }
  destruct (match_pattern_by_features field rules faceted_features); [|naive_solver|];
    destruct (match_distinct_field distinct field); rewrite ?Hs by done; naive_solver.
Qed.

(** ** Nested fields *)

Lemma strip_star_suffix_spec s p : strip_star_suffix s = Some p → s = p +:+ "*".
Proof.
  revert p. induction s as [|c [|d s] IH]; intros p; [done| |].
  - cbn. destruct (Ascii.eqb_spec c "*"%char) as [->|]; [|done]. by intros [= <-].
  - change (strip_star_suffix (String.String c (String.String d s))) with (String.String c <$> strip_star_suffix (String.String d s)).
    destruct (strip_star_suffix (String.String d s)) as [q|] eqn:Hq; [|done]. intros [= <-]. cbn. by rewrite (IH q eq_refl).
Qed.

(** A prefix of the path of a nested field is a prefix of the path of its parent,
    or is below it. *)
Lemma nested_prefix p f x r : f +:+ "." +:+ x = p +:+ r → (∃ t, f = p +:+ t) ∨ ∃ t, p = f +:+ "." +:+ t.
Proof.
  intros [(t & -> & _)|(t & -> & Ht)]%string_app_split; [left; by exists t|].
  destruct t as [|c t]; [left; exists String.EmptyString; by rewrite !string_app_nil_r|].
  cbn in Ht. injection Ht as <- _. right. by exists t.
Qed.

Definition no_leading_star (pattern : string) : bool := String.eqb pattern "*" || negb (starts_with "*" pattern).

Lemma match_pattern_parent p f x : no_leading_star p = true →
  match_pattern p (f +:+ "." +:+ x) = PatternMatch.Match → match_pattern p f ≠ PatternMatch.NoMatch.
Proof.
  unfold no_leading_star, match_pattern. destruct (String.eqb p "*"); [done|]. cbn [orb].
  destruct (str_strip_prefix "*" p) as [q|] eqn:Hstar; [unfold starts_with; by rewrite Hstar, bool_decide_eq_true_2|]. intros _.
  destruct (strip_star_suffix p) as [q|] eqn:Hq.
  - destruct (starts_with q (f +:+ "." +:+ x)) eqn:Hs; [|intros Hm; by destruct (is_faceted_by p _) in Hm].
    intros _. apply starts_with_spec in Hs as [r Hr].
    apply nested_prefix in Hr as [[t ->]|[t ->]].
    + by rewrite (proj2 (starts_with_spec _ _)) by (by exists t).
    + case_match; [done|]. apply strip_star_suffix_spec in Hq as ->.
      rewrite (proj2 (is_faceted_by_spec _ _)); [done|]. right. exists (t +:+ "*"). by rewrite !str_app_assoc.
  - destruct (String.eqb_spec p (f +:+ "." +:+ x)) as [->|];
      [|intros Hm; by destruct (is_faceted_by p _) in Hm]. intros _. case_match; [done|].
    rewrite (proj2 (is_faceted_by_spec _ _)); [done|]. right. by exists x.
Qed.

Lemma match_field_legacy_parent p f x :
  is_faceted_by (f +:+ "." +:+ x) p = true → match_field_legacy p f ≠ PatternMatch.NoMatch.
Proof.
  intros Hg. unfold match_field_legacy. destruct (is_faceted_by f p) eqn:Hf; [done|].
  rewrite (proj2 (is_faceted_by_spec p f)); [done|].
  apply is_faceted_by_spec in Hg as [<-|[t Ht]]; [right; by exists x|].
  apply string_app_split in Ht as [(u & -> & Hu)|(u & -> & Hu)].
  - destruct u as [|c u]; [left; by rewrite string_app_nil_r|]. cbn in Hu. injection Hu as <- _.
    exfalso. apply not_true_iff_false in Hf. apply Hf, is_faceted_by_spec. right. by exists u.
  - destruct u as [|c u]; [left; by rewrite string_app_nil_r|]. cbn in Hu. injection Hu as <- _. right. by exists u.
Qed.

(** Rules without leading wildcards, all of which let their fields be filtered or
    searched. *)
Definition rule_ok (rule : FilterableAttributesRule) : bool :=
  faceted_features (rule_features rule) &&
  match rule with RuleField _ => true | RulePattern patterns _ => forallb no_leading_star patterns end.

Lemma first_match_not_NoMatch matches patterns selection :
  selection ≠ PatternMatch.NoMatch ∨ (∃ p, p ∈ patterns ∧ matches p ≠ PatternMatch.NoMatch) →
  first_match matches patterns selection ≠ PatternMatch.NoMatch.
Proof.
  intros H. rewrite first_match_spec. destruct (existsb _ patterns) eqn:H1; [done|]. destruct (existsb _ patterns) eqn:H2 in |- *; [done|].
  destruct H as [H|(p & Hp & Hm)]; [done|]. apply not_true_iff_false in H1, H2. rewrite existsb_decide_true in H1, H2.
  destruct (matches p) eqn:He; [destruct H2|destruct H1|done]; by exists p.
Qed.

Lemma rule_match_parent rule f x : rule_ok rule = true →
  rule_match_str rule (f +:+ "." +:+ x) = PatternMatch.Match → rule_match_str rule f ≠ PatternMatch.NoMatch.
Proof.
  intros [_ Hok]%andb_true_iff. destruct rule as [p|patterns features]; cbn.
  - intros Hm. apply (match_field_legacy_parent p f x). unfold match_field_legacy in Hm. by repeat case_match.
  - unfold patterns_match_str. intros Hm. apply first_match_not_NoMatch. right. rewrite first_match_spec in Hm.
    destruct (existsb _ patterns) eqn:He in Hm; [|by case_match]. apply existsb_decide_true in He as (p & Hp & Hpm).
    exists p. split; [done|]. apply (match_pattern_parent p f x); [|done].
    apply (proj1 (forallb_forall _ _) Hok). by apply list_elem_of_In.
Qed.

Lemma match_by_features_not_NoMatch field rules : forallb rule_ok rules = true → ∀ selection,
  selection ≠ PatternMatch.NoMatch ∨ (∃ rule, rule ∈ rules ∧ rule_match_str rule field ≠ PatternMatch.NoMatch) →
  match_by_features_loop field rules faceted_features true selection ≠ PatternMatch.NoMatch.
Proof.
  induction rules as [|rule rules IH]; intros Hok selection H; [set_solver|]. cbn in Hok |- *.
  apply andb_true_iff in Hok as [[Hf _]%andb_true_iff Hok]. rewrite Hf. destruct (rule_match_str rule field) eqn:Hm; [|done|].
  - apply IH; [done|]. by left.
  - apply IH; [done|]. destruct H as [H|(r & [->|Hr]%elem_of_cons & Hn)]; [by left|done|right; eauto].
Qed.

Lemma matching_features_rule field rules : ∀ id i features,
  matching_features_from id field rules = Some (i, features) → ∃ rule, rule ∈ rules ∧ rule_match_str rule field = PatternMatch.Match.
Proof.
  induction rules as [|rule rules IH]; intros id i features; [done|]. cbn. case_bool_decide as Hm; [intros _; exists rule; set_solver|].
  intros (r & Hr & Hrm)%IH. exists r. set_solver.
Qed.

(** Every field a filter may use is faceted, and so are exactly the
    fields the rules let be filtered or searched, the distinct field and the
    sortable fields with what is below them.  With rules that have no leading
    wildcard and all enable something, the parents of a faceted field are visited
    too, so its values are found inside of the objects of a document. *)
Theorem faceted_fields_spec field rules sortable asc_desc distinct :
  (match_faceted_field field rules sortable asc_desc distinct = PatternMatch.Match ↔
    (∃ i features, matching_features field rules = Some (i, features) ∧ faceted_features features = true) ∨
    distinct = Some field ∨ ∃ p, p ∈ sortable ∪ asc_desc ∧ is_faceted_by field p = true) ∧
  (∀ i features, matching_features field rules = Some (i, features) → is_filterable features = true →
    match_faceted_field field rules sortable asc_desc distinct = PatternMatch.Match) ∧
  (forallb rule_ok rules = true → ∀ parent x, field = parent +:+ "." +:+ x →
    match_faceted_field field rules sortable asc_desc distinct = PatternMatch.Match →
    match_faceted_field parent rules sortable asc_desc distinct ≠ PatternMatch.NoMatch).
Proof.
  split; [apply match_faceted_field_Match|]. split.
  { intros i features Hm Hf. apply match_faceted_field_Match. left. exists i, features. split; [done|].
    unfold faceted_features. by rewrite Hf, orb_true_r. }
  intros Hok parent x -> Hm. apply match_faceted_field_Match in Hm. unfold match_faceted_field.
  assert (Hp := match_by_features_not_NoMatch parent rules Hok PatternMatch.NoMatch).
  fold (match_pattern_by_features parent rules faceted_features) in Hp.
  destruct Hm as [(i & features & Hm & _)|[->|(p & Hp' & Hfac)]].
  - apply matching_features_rule in Hm as (rule & Hr & Hrm).
    assert (Hrok : rule_ok rule = true) by (apply (proj1 (forallb_forall _ _) Hok); by apply list_elem_of_In).
    assert (Hn : match_pattern_by_features parent rules faceted_features ≠ PatternMatch.NoMatch).
    { apply Hp. right. exists rule. split; [done|]. by apply (rule_match_parent rule parent x). }
    destruct (match_pattern_by_features parent rules faceted_features); [|done|done].
    case_match; [apply first_match_not_NoMatch; by left|done|apply first_match_not_NoMatch; by left].
  - assert (Hd : match_distinct_field (Some (parent +:+ "." +:+ x)) parent ≠ PatternMatch.NoMatch).
    { cbn. case_match; [done|]. rewrite (proj2 (is_faceted_by_spec _ _)); [done|]. right. by exists x. }
    case_match; [|done|]; (case_match; [apply first_match_not_NoMatch; by left|done|done]).
  - assert (Hl : ∃ q, q ∈ elements sortable ++ elements asc_desc ∧ match_field_legacy q parent ≠ PatternMatch.NoMatch).
    { exists p. split; [set_solver|]. by apply (match_field_legacy_parent p parent x). }
    case_match; [|done|]; (case_match; [apply first_match_not_NoMatch; by right|done|apply first_match_not_NoMatch; by right]).
Qed.

(** A pattern with a leading wildcard lets a filter use a nested field, and its
    parent is not visited. *)
Example leading_wildcard_not_visited :
  let rules := [RulePattern ["*_name"%string] legacy_default] in
  matching_features "doggo.first_name" rules = Some (0, legacy_default) ∧
  match_faceted_field "doggo" rules ∅ ∅ None = PatternMatch.NoMatch.
Proof. split; vm_compute; reflexivity. Qed.

(** A rule that disables a field hides what a later rule enables below it, when the
    later rule matches the field itself. *)
Example disabled_parent_not_visited :
  let rules := [RulePattern ["doggo"%string] (mkFeatures false (mkFilterFeatures false false)); RuleField "doggo"] in
  matching_features "doggo.name" rules = Some (1, legacy_default) ∧
  match_faceted_field "doggo.name" rules ∅ ∅ None = PatternMatch.Match ∧
  match_faceted_field "doggo" rules ∅ ∅ None = PatternMatch.NoMatch.
Proof. split; [|split]; vm_compute; reflexivity. Qed.

Example match_pattern_tests :
  (λ p, match_pattern p.1 p.2) <$> [("*", "test"); ("test*", "testa"); ("*test", "atest"); ("*test*", "atesta"); ("test*test", "test"); ("*test", "testa"); ("a.b*", "a")]%string
  = [PatternMatch.Match; PatternMatch.Match; PatternMatch.Match; PatternMatch.Match; PatternMatch.NoMatch; PatternMatch.NoMatch; PatternMatch.Parent].
Proof. vm_compute. reflexivity. Qed.
