(* ===== verification/FieldMetadata.v ===== *)
(** * Metadata of the fields

    [crates/milli-core/src/fields_ids_map/metadata.rs] and [global.rs]: what the
    settings say of each field, and the map of the fields that the threads of an
    indexing share, each with a local copy of what it has seen. *)

From S2P Require Import Prelude TaskTypes SchedUtils Ids Documents Facet Bytes AttributeRules.
From Stdlib Require Import Ascii.
From Stdlib Require String.
Open Scope Z_scope.

(** ** Metadata *)

(** [Iterator::position]. *)
Fixpoint rule_position {A} (p : A → bool) (l : list A) : option Z :=
  match l with
  | [] => None
  | x :: l => if p x then Some 0 else (λ i, i + 1) <$> rule_position p l
  end.

(** The number of a rule: [NonZeroU16::new(id.saturating_add(1).try_into().unwrap()).unwrap()]. *)
Definition rule_number {E} (id : option Z) : outcome E (option Z) :=
  match id with
  | Some id => if id + 1 <=? u16_max then Ok (Some (id + 1)) else Panic
  | None => Ok None
  end.

Record Metadata := mkMetadata {
  searchable : option Z;
  sortable : bool;
  distinct : bool;
  asc_desc : bool;
  geo : bool;
  localized_attributes_rule_id : option Z;
  filterable_attributes_rule_id : option Z;
}.
#[export] Instance Metadata_eq_dec : EqDecision Metadata.
Proof. solve_decision. Defined.

(** [FilterableAttributesFeatures::no_features]. *)
Definition no_features : FilterableAttributesFeatures := mkFeatures false (mkFilterFeatures false false).

(** [filterable_attributes_with_rule_index]. *)
Definition filterable_attributes_with_rule_index {E} (m : Metadata) (rules : list FilterableAttributesRule)
    : outcome E (option (Z * FilterableAttributesRule)) :=
  match filterable_attributes_rule_id m with
  | None => Ok None
  | Some id => rule ← unwrap (rules !! Z.to_nat (id - 1)); Ok (Some (id - 1, rule))
  end.
Definition filterable_attributes_features_with_rule_index {E} (m : Metadata) (rules : list FilterableAttributesRule)
    : outcome E (option Z * FilterableAttributesFeatures) :=
  r ← filterable_attributes_with_rule_index m rules;
  Ok (match r with Some (rule_index, rule) => (Some rule_index, rule_features rule) | None => (None, no_features) end).
Definition filterable_attributes_features {E} (m : Metadata) (rules : list FilterableAttributesRule)
    : outcome E FilterableAttributesFeatures :=
  '(_, features) ← filterable_attributes_features_with_rule_index m rules; Ok features.

(** [is_faceted] and [require_facet_level_database]. *)
Definition metadata_is_faceted {E} (m : Metadata) (rules : list FilterableAttributesRule) : outcome E bool :=
  if distinct m || sortable m || asc_desc m then Ok true
  else
    features ← filterable_attributes_features m rules;
    Ok (if is_filterable features || is_facet_searchable features then true else false).
Definition require_facet_level_database {E} (m : Metadata) (rules : list FilterableAttributesRule) : outcome E bool :=
  features ← filterable_attributes_features m rules;
  Ok (sortable m || asc_desc m || is_filterable_comparison features).

Section language.
(** [charabia::Language]. *)
Context {Language : Type}.

Record LocalizedAttributesRule := mkLocalizedAttributesRule { attribute_patterns : list string; rule_locales : list Language }.

(** [Metadata::locales]. *)
Definition metadata_locales {E} (m : Metadata) (rules : list LocalizedAttributesRule) : outcome E (option (list Language)) :=
  match localized_attributes_rule_id m with
  | None => Ok None
  | Some id => rule ← unwrap (rules !! Z.to_nat (id - 1)); Ok (Some (rule_locales rule))
  end.

Record MetadataBuilder := mkMetadataBuilder {
  mb_searchable_attributes : option (list string);
  mb_filterable_attributes : list FilterableAttributesRule;
  mb_sortable_attributes : gset string;
  mb_localized_attributes : option (list LocalizedAttributesRule);
  mb_distinct_attribute : option string;
  mb_asc_desc_attributes : gset string;
}.

(** [MetadataBuilder::new]. *)
Definition MetadataBuilder_new (searchable_attributes : option (list string)) (filterable_attributes : list FilterableAttributesRule)
    (sortable_attributes : gset string) (localized_attributes : option (list LocalizedAttributesRule))
    (distinct_attribute : option string) (asc_desc_attributes : gset string) : MetadataBuilder :=
  let searchable_attributes :=
    match searchable_attributes with
    | Some fields => if existsb (λ f, String.eqb f "*") fields then None else Some fields
    | None => None
    end in
  mkMetadataBuilder searchable_attributes filterable_attributes sortable_attributes localized_attributes distinct_attribute asc_desc_attributes.

(** [metadata_for_field]. *)
Definition metadata_for_field (b : MetadataBuilder) (field : string) : outcome unit Metadata :=
  if is_faceted_by field RESERVED_VECTORS_FIELD_NAME then Ok (mkMetadata None false false false false None None)
  else
    let sortable :=
      existsb (λ pattern, bool_decide (match_field_legacy pattern field = PatternMatch.Match)) (elements (mb_sortable_attributes b)) in
    filterable_attributes_rule_id ←
      rule_number (rule_position (λ rule, bool_decide (rule_match_str rule field = PatternMatch.Match)) (mb_filterable_attributes b));
    if bool_decide (match_field_legacy RESERVED_GEO_FIELD_NAME field = PatternMatch.Match) then
      Ok (mkMetadata None sortable false false true None filterable_attributes_rule_id)
    else
      let searchable :=
        match mb_searchable_attributes b with
        | Some attributes => (λ i, i mod 2 ^ 16) <$> rule_position (λ pattern, is_faceted_by field pattern) attributes
        | None => Some 0
        end in
      let distinct := match mb_distinct_attribute b with Some d => String.eqb field d | None => false end in
      let asc_desc := bool_decide (field ∈ mb_asc_desc_attributes b) in
      localized_attributes_rule_id ←
        rule_number (rule_position (λ rule, bool_decide (patterns_match_str (attribute_patterns rule) field = PatternMatch.Match))
          (default [] (mb_localized_attributes b)));
      Ok (mkMetadata searchable sortable distinct asc_desc false localized_attributes_rule_id filterable_attributes_rule_id).

(** ** The map of the fields, with their metadata *)

Record FieldIdMapWithMetadata := mkFieldIdMapWithMetadata {
  fm_fields_ids_map : FieldsIdsMap;
  fm_builder : MetadataBuilder;
  fm_metadata : gmap Z Metadata;
}.

(** [FieldIdMapWithMetadata::new]. *)
Definition FieldIdMapWithMetadata_new (existing : FieldsIdsMap) (builder : MetadataBuilder) : outcome unit FieldIdMapWithMetadata :=
  metadata ← for_each (λ acc '(id, name), m ← metadata_for_field builder name; Ok (<[id := m]> acc)) ∅ (map_to_list (ids_names existing));
  Ok (mkFieldIdMapWithMetadata existing builder metadata).

(** [insert]; the result is [None] when there is no id left. *)
Definition fm_insert (name : string) (fm : FieldIdMapWithMetadata) : outcome unit (option Z * FieldIdMapWithMetadata) :=
  match fields_insert name (fm_fields_ids_map fm) with
  | (None, fields) => Ok (None, mkFieldIdMapWithMetadata fields (fm_builder fm) (fm_metadata fm))
  | (Some id, fields) =>
      m ← metadata_for_field (fm_builder fm) name;
      Ok (Some id, mkFieldIdMapWithMetadata fields (fm_builder fm) (<[id := m]> (fm_metadata fm)))
  end.

Definition fm_metadata_of (fm : FieldIdMapWithMetadata) (id : Z) : option Metadata := fm_metadata fm !! id.
(** [id_with_metadata] and [name_with_metadata]. *)
Definition id_with_metadata (fm : FieldIdMapWithMetadata) (name : string) : outcome unit (option (Z * Metadata)) :=
  match field_id (fm_fields_ids_map fm) name with
  | None => Ok None
  | Some id => m ← unwrap (fm_metadata_of fm id); Ok (Some (id, m))
  end.
Definition name_with_metadata (fm : FieldIdMapWithMetadata) (id : Z) : outcome unit (option (string * Metadata)) :=
  match field_name (fm_fields_ids_map fm) id with
  | None => Ok None
  | Some name => m ← unwrap (fm_metadata_of fm id); Ok (Some (name, m))
  end.

(** ** The copy of a thread *)

Record LocalFieldsIdsMap := mkLocalFieldsIdsMap {
  lm_names_ids : gmap string Z;
  lm_ids_names : gmap Z string;
  lm_metadata : gmap Z Metadata;
}.

(** [LocalFieldsIdsMap::new]. *)
Definition LocalFieldsIdsMap_new (global : FieldIdMapWithMetadata) : LocalFieldsIdsMap :=
  mkLocalFieldsIdsMap (names_ids (fm_fields_ids_map global)) (ids_names (fm_fields_ids_map global)) (fm_metadata global).
Definition local_insert (name : string) (field_id : Z) (m : Metadata) (l : LocalFieldsIdsMap) : LocalFieldsIdsMap :=
  mkLocalFieldsIdsMap (<[name := field_id]> (lm_names_ids l)) (<[field_id := name]> (lm_ids_names l)) (<[field_id := m]> (lm_metadata l)).
Definition local_id_with_metadata (l : LocalFieldsIdsMap) (name : string) : outcome unit (option (Z * Metadata)) :=
  match lm_names_ids l !! name with
  | None => Ok None
  | Some id => m ← unwrap (lm_metadata l !! id); Ok (Some (id, m))
  end.

(** The first two lookups of [id_with_metadata_or_insert]: in the copy, then in the
    global map that is locked for reading. *)
Definition lookup_step (global : FieldIdMapWithMetadata) (l : LocalFieldsIdsMap) (name : string)
    : outcome unit (option (Z * Metadata) * LocalFieldsIdsMap) :=
  found ← local_id_with_metadata l name;
  match found with
  | Some entry => Ok (Some entry, l)
  | None =>
      found ← id_with_metadata global name;
      Ok (match found with
          | Some (field_id, m) => (Some (field_id, m), local_insert name field_id m l)
          | None => (None, l)
          end)
  end.
(** The rest, with the global map locked for writing. *)
Definition insert_step (global : FieldIdMapWithMetadata) (l : LocalFieldsIdsMap) (name : string)
    : outcome unit (option (Z * Metadata) * FieldIdMapWithMetadata * LocalFieldsIdsMap) :=
  found ← id_with_metadata global name;
  match found with
  | Some (field_id, m) => Ok (Some (field_id, m), global, local_insert name field_id m l)
  | None =>
      '(field_id, global) ← fm_insert name global;
      match field_id with
      | None => Ok (None, global, l)
      | Some field_id =>
          m ← unwrap (fm_metadata_of global field_id);
          Ok (Some (field_id, m), global, local_insert name field_id m l)
      end
  end.

(** [id_with_metadata_or_insert], when no other thread runs between its locks. *)
Definition id_with_metadata_or_insert (global : FieldIdMapWithMetadata) (l : LocalFieldsIdsMap) (name : string)
    : outcome unit (option (Z * Metadata) * FieldIdMapWithMetadata * LocalFieldsIdsMap) :=
  '(found, l) ← lookup_step global l name;
  match found with
  | Some entry => Ok (Some entry, global, l)
  | None => insert_step global l name
  end.

(** [GlobalFieldsIdsMap::name] and [metadata]. *)
Definition global_name (global : FieldIdMapWithMetadata) (l : LocalFieldsIdsMap) (id : Z) : outcome unit (option string * LocalFieldsIdsMap) :=
  match lm_ids_names l !! id with
  | Some name => Ok (Some name, l)
  | None =>
      found ← name_with_metadata global id;
      Ok (match found with
          | None => (None, l)
          | Some (name, m) => let l := local_insert name id m l in (lm_ids_names l !! id, l)
          end)
  end.
Definition global_metadata (global : FieldIdMapWithMetadata) (l : LocalFieldsIdsMap) (id : Z) : outcome unit (option Metadata * LocalFieldsIdsMap) :=
  match lm_metadata l !! id with
  | Some m => Ok (Some m, l)
  | None =>
      found ← name_with_metadata global id;
      Ok (match found with
          | None => (None, l)
          | Some (name, m) => let l := local_insert name id m l in (lm_metadata l !! id, l)
          end)
  end.
End language.
Arguments LocalizedAttributesRule : clear implicits.
Arguments MetadataBuilder : clear implicits.
Arguments FieldIdMapWithMetadata : clear implicits.
Arguments LocalFieldsIdsMap : clear implicits.

(** ** What is faceted *)

Lemma rule_position_spec {A} (p : A → bool) l :
  match rule_position p l with
  | Some i => 0 ≤ i < Z.of_nat (length l) ∧ ∃ x, l !! Z.to_nat i = Some x ∧ p x = true
  | None => Forall (λ x, p x = false) l
  end.
Proof.
  induction l as [|x l IH]; [constructor|]. cbn [rule_position]. destruct (p x) eqn:Hp; [split; [cbn; lia|by exists x]|].
  destruct (rule_position p l) as [i|]; [|by constructor]. cbn [fmap option_fmap option_map]. destruct IH as [Hi (y & Hy & Hpy)].
  cbn [length]. split; [lia|]. exists y. split; [|done]. replace (Z.to_nat (i + 1)) with (S (Z.to_nat i)) by lia. done.
Qed.

(** The rule that decides of a field, by its position. *)
Lemma matching_features_position field rules : ∀ id, matching_features_from id field rules =
  match rule_position (λ rule, bool_decide (rule_match_str rule field = PatternMatch.Match)) rules with
  | Some i => (λ rule, (id + i, rule_features rule)) <$> rules !! Z.to_nat i
  | None => None
  end.
Proof.
  induction rules as [|rule rules IH]; intros id; [done|]. cbn [matching_features_from rule_position]. case_bool_decide as Hm.
  - cbn. by rewrite Z.add_0_r.
  - rewrite IH. pose proof (rule_position_spec (λ rule, bool_decide (rule_match_str rule field = PatternMatch.Match)) rules) as Hp.
    destruct (rule_position _ rules) as [i|]; [|done]. cbn [fmap option_fmap option_map]. destruct Hp as [Hi _].
    replace (Z.to_nat (i + 1)) with (S (Z.to_nat i)) by lia. cbn [lookup list_lookup]. destruct (rules !! Z.to_nat i); [|done].
    cbn. do 2 f_equal. lia.
Qed.

Section metadata.
Context {Language : Type}.
Implicit Types b : MetadataBuilder Language.

(** The rules can be numbered. *)
Definition builder_ok b : Prop :=
  Z.of_nat (length (mb_filterable_attributes b)) ≤ u16_max ∧ Z.of_nat (length (default [] (mb_localized_attributes b))) ≤ u16_max.

Lemma rule_number_ok {A} (p : A → bool) l : Z.of_nat (length l) ≤ u16_max →
  rule_number (E:=unit) (rule_position p l) = Ok ((λ i, i + 1) <$> rule_position p l).
Proof.
  intros Hl. pose proof (rule_position_spec p l) as Hp. unfold rule_number. destruct (rule_position p l) as [i|]; [|done]. destruct Hp as [Hi _].
  by rewrite (proj2 (Z.leb_le (i + 1) u16_max)) by lia.
Qed.

(** The metadata of a field that is neither of vectors nor of coordinates. *)
Lemma metadata_for_field_eq b field : builder_ok b → is_faceted_by field RESERVED_VECTORS_FIELD_NAME = false →
  match_field_legacy RESERVED_GEO_FIELD_NAME field ≠ PatternMatch.Match →
  ∃ m, metadata_for_field b field = Ok m ∧
    (sortable m = true ↔ ∃ p, p ∈ mb_sortable_attributes b ∧ is_faceted_by field p = true) ∧
    (distinct m = true ↔ mb_distinct_attribute b = Some field) ∧
    (asc_desc m = true ↔ field ∈ mb_asc_desc_attributes b) ∧
    filterable_attributes_features (E:=unit) m (mb_filterable_attributes b) =
      Ok (match matching_features field (mb_filterable_attributes b) with Some (_, f) => f | None => no_features end).
Proof.
  intros [Hf Hl] Hv Hg. unfold metadata_for_field. rewrite Hv, !rule_number_ok by done. cbn [mbind outcome_bind].
  rewrite bool_decide_false by done. eexists. split; [reflexivity|]. cbn [sortable distinct asc_desc].
  split_and!.
  - rewrite existsb_decide_true. setoid_rewrite elem_of_elements. apply exist_proper. intros p. unfold match_field_legacy.
    destruct (is_faceted_by field p); [naive_solver|]. case_match; naive_solver.
  - destruct (mb_distinct_attribute b) as [d|]; [|naive_solver]. rewrite String.eqb_eq. naive_solver.
  - by rewrite bool_decide_eq_true.
  - unfold filterable_attributes_features, filterable_attributes_features_with_rule_index, filterable_attributes_with_rule_index, matching_features.
    cbn [filterable_attributes_rule_id]. rewrite matching_features_position.
    pose proof (rule_position_spec (λ rule, bool_decide (rule_match_str rule field = PatternMatch.Match)) (mb_filterable_attributes b)) as Hp.
    destruct (rule_position _ (mb_filterable_attributes b)) as [i|]; [|done]. destruct Hp as [Hi (rule & Hr & _)].
    cbn [fmap option_fmap option_map]. replace (i + 1 - 1) with i by lia. rewrite Hr. done.
Qed.

Lemma metadata_for_field_total b field : builder_ok b → ∃ m, metadata_for_field b field = Ok m.
Proof.
  intros [Hf Hl]. unfold metadata_for_field. destruct (is_faceted_by _ _); [by eexists|]. rewrite !rule_number_ok by done. cbn [mbind outcome_bind].
  case_bool_decide; by eexists.
Qed.

(** The rule of a field is one of the rules. *)
Lemma metadata_rule b field m id : metadata_for_field b field = Ok m → filterable_attributes_rule_id m = Some id →
  ∃ rule, mb_filterable_attributes b !! Z.to_nat (id - 1) = Some rule.
Proof.
  unfold metadata_for_field. destruct (is_faceted_by field _); [by intros [= <-]|].
  pose proof (rule_position_spec (λ rule, bool_decide (rule_match_str rule field = PatternMatch.Match)) (mb_filterable_attributes b)) as Hp.
  destruct (rule_position _ (mb_filterable_attributes b)) as [i|]; cbn [rule_number].
  2: { cbn [mbind outcome_bind]. case_bool_decide; [by intros [= <-]|]. by intros (? & _ & [= <-])%bind_Ok. }
  destruct Hp as [Hi (rule & Hr & _)]. destruct (i + 1 <=? u16_max); [|done]. cbn [mbind outcome_bind].
  assert (Hid : id = i + 1 → ∃ rule, mb_filterable_attributes b !! Z.to_nat (id - 1) = Some rule).
  { intros ->. exists rule. by replace (i + 1 - 1) with i by lia. }
  case_bool_decide; [intros [= <-]; cbn; intros [= <-]; by apply Hid|]. intros (? & _ & [= <-])%bind_Ok. cbn. intros [= <-]. by apply Hid.
Qed.

Lemma require_total {E} b field m : metadata_for_field b field = Ok m →
  ∃ r, require_facet_level_database (E:=E) m (mb_filterable_attributes b) = Ok r.
Proof.
  intros Hm. unfold require_facet_level_database, filterable_attributes_features, filterable_attributes_features_with_rule_index,
    filterable_attributes_with_rule_index. destruct (filterable_attributes_rule_id m) as [id|] eqn:Hid; [|by eexists].
  destruct (metadata_rule b field m id Hm Hid) as [rule ->]. by eexists.
Qed.

Lemma features_with (o : option (Z * FilterableAttributesFeatures)) (P : FilterableAttributesFeatures → bool) :
  (∃ i features, o = Some (i, features) ∧ P features = true) ↔ match o with Some (_, f) => P f | None => false end = true.
Proof.
  destruct o as [[i f]|]; [|split; [by intros (? & ? & ? & _)|done]]. split; [by intros (? & ? & [= <- <-] & ?)|]. intros Hf. by exists i, f.
Qed.

(** The metadata of a field that is neither of vectors nor of
    coordinates: it says that the field is faceted exactly when its first matching
    rule enables something, or it is the distinct field, a sortable field or below
    one, or a field of an ascending or descending ranking rule; then the extraction
    of facets selects the field too.  The levels of its facets are needed exactly
    when it is sorted on, or its first matching rule allows comparisons. *)
Theorem metadata_faceted b field : builder_ok b → is_faceted_by field RESERVED_VECTORS_FIELD_NAME = false →
  match_field_legacy RESERVED_GEO_FIELD_NAME field ≠ PatternMatch.Match →
  let rules := mb_filterable_attributes b in
  let sorted_on := (∃ p, p ∈ mb_sortable_attributes b ∧ is_faceted_by field p = true) ∨ field ∈ mb_asc_desc_attributes b in
  ∃ m, metadata_for_field b field = Ok m ∧
    (∃ faceted, metadata_is_faceted (E:=unit) m rules = Ok faceted ∧
      (faceted = true ↔
        (∃ i features, matching_features field rules = Some (i, features) ∧ faceted_features features = true) ∨
        mb_distinct_attribute b = Some field ∨ sorted_on) ∧
      (faceted = true →
        match_faceted_field field rules (mb_sortable_attributes b) (mb_asc_desc_attributes b) (mb_distinct_attribute b) = PatternMatch.Match)) ∧
    (∃ leveled, require_facet_level_database (E:=unit) m rules = Ok leveled ∧
      (leveled = true ↔ sorted_on ∨
        ∃ i features, matching_features field rules = Some (i, features) ∧ is_filterable_comparison features = true)).
Proof.
  intros Hb Hv Hg rules sorted_on. destruct (metadata_for_field_eq b field Hb Hv Hg) as (m & Hm & Hs & Hd & Ha & Hf). fold rules in Hf.
  exists m. split; [done|]. split.
  - unfold metadata_is_faceted. rewrite Hf. cbn [mbind outcome_bind].
    set (faceted := distinct m || sortable m || asc_desc m ||
      match matching_features field rules with Some (_, f) => faceted_features f | None => false end).
    assert (Hfac : faceted = true ↔ (∃ i features, matching_features field rules = Some (i, features) ∧ faceted_features features = true) ∨
      mb_distinct_attribute b = Some field ∨ sorted_on).
    { unfold faceted. rewrite features_with, !orb_true_iff, Hs, Hd, Ha. unfold sorted_on. tauto. }
    exists faceted. split; [|split; [done|]].
    + unfold faceted. destruct (distinct m || sortable m || asc_desc m); [done|]. cbn [orb]. unfold faceted_features.
      destruct (matching_features field rules) as [[i f]|]; cbn; [|done]. rewrite orb_comm. by destruct (is_facet_searchable f || is_filterable f).
    + rewrite Hfac, match_faceted_field_Match. unfold sorted_on. intros [?|[?|[(p & Hp & Hfp)|Hin]]]; [by left|by right; left|right; right..].
      * exists p. split; [set_solver|done].
      * exists field. split; [set_solver|]. apply is_faceted_by_spec. by left.
  - unfold require_facet_level_database. rewrite Hf. cbn [mbind outcome_bind]. eexists. split; [reflexivity|].
    rewrite features_with, !orb_true_iff, Hs, Ha. unfold sorted_on. by destruct (matching_features field rules) as [[i f]|].
Qed.
End metadata.

(** ** The map shared by the threads *)

Section shared.
Context {Language : Type}.
Implicit Types (g : FieldIdMapWithMetadata Language) (l : LocalFieldsIdsMap).

(** The metadata of every field is that of its name, and there is no other. *)
Record fm_wf g : Prop := {
  fmw_fields : fields_wf (fm_fields_ids_map g);
  fmw_metadata : ∀ id name, ids_names (fm_fields_ids_map g) !! id = Some name →
    ∃ m, metadata_for_field (fm_builder g) name = Ok m ∧ fm_metadata g !! id = Some m;
  fmw_dom : ∀ id m, fm_metadata g !! id = Some m → is_Some (ids_names (fm_fields_ids_map g) !! id);
}.

(** What the map says of a name. *)
Definition known g (name : string) (id : Z) (m : Metadata) : Prop :=
  names_ids (fm_fields_ids_map g) !! name = Some id ∧ fm_metadata g !! id = Some m.
(** What was said is still said. *)
Definition grows g g' : Prop := fm_builder g' = fm_builder g ∧ ∀ name id m, known g name id m → known g' name id m.

Lemma grows_refl g : grows g g.
Proof. by split. Qed.
Lemma grows_trans g1 g2 g3 : grows g1 g2 → grows g2 g3 → grows g1 g3.
Proof. intros [H1 H2] [H3 H4]. split; [congruence|auto]. Qed.

Lemma known_fun g name id m id' m' : known g name id m → known g name id' m' → id' = id ∧ m' = m.
Proof. intros [H1 H2] [H3 H4]. rewrite H1 in H3. injection H3 as <-. rewrite H2 in H4. by injection H4 as <-. Qed.

Lemma known_metadata g name id m : fm_wf g → known g name id m → metadata_for_field (fm_builder g) name = Ok m.
Proof.
  intros Hwf [H1 H2]. apply (fw_inverse _ (fmw_fields _ Hwf)) in H1. destruct (fmw_metadata _ Hwf _ _ H1) as (m' & Hm & Hl).
  rewrite H2 in Hl. by injection Hl as <-.
Qed.

Lemma known_inj g name name' id m m' : fm_wf g → known g name id m → known g name' id m' → name = name'.
Proof.
  intros Hwf [H1 _] [H2 _]. apply (fw_inverse _ (fmw_fields _ Hwf)) in H1, H2. rewrite H1 in H2. by injection H2.
Qed.

(** The lookups in the map. *)
Lemma id_with_metadata_spec g name : fm_wf g →
  (∃ id m, id_with_metadata g name = Ok (Some (id, m)) ∧ known g name id m) ∨
  (id_with_metadata g name = Ok None ∧ names_ids (fm_fields_ids_map g) !! name = None).
Proof.
  intros Hwf. unfold id_with_metadata, field_id. destruct (names_ids (fm_fields_ids_map g) !! name) as [id|] eqn:Hid; [left|by right].
  pose proof Hid as Hn. apply (fw_inverse _ (fmw_fields _ Hwf)) in Hn. destruct (fmw_metadata _ Hwf _ _ Hn) as (m & _ & Hm).
  exists id, m. unfold fm_metadata_of. rewrite Hm. done.
Qed.

Lemma name_with_metadata_spec g id : fm_wf g →
  (∃ name m, name_with_metadata g id = Ok (Some (name, m)) ∧ known g name id m) ∨
  (name_with_metadata g id = Ok None ∧ ids_names (fm_fields_ids_map g) !! id = None).
Proof.
  intros Hwf. unfold name_with_metadata, field_name. destruct (ids_names (fm_fields_ids_map g) !! id) as [name|] eqn:Hid; [left|by right].
  destruct (fmw_metadata _ Hwf _ _ Hid) as (m & _ & Hm). exists name, m. unfold fm_metadata_of. rewrite Hm. split; [done|].
  split; [by apply (fw_inverse _ (fmw_fields _ Hwf))|done].
Qed.

(** Inserting a name that is not there. *)
Lemma fm_insert_spec g name : fm_wf g → builder_ok (fm_builder g) → names_ids (fm_fields_ids_map g) !! name = None →
  ∃ r g', fm_insert name g = Ok (r, g') ∧ fm_wf g' ∧ grows g g' ∧
    match r with Some id => ∃ m, known g' name id m | None => next_id (fm_fields_ids_map g) = None end.
Proof.
  intros Hwf Hb Hnone. destruct (metadata_for_field_total (fm_builder g) name Hb) as [m Hm].
  pose proof (fields_insert_wf name _ (fmw_fields _ Hwf)) as Hwf'. unfold fm_insert, fields_insert in *. rewrite Hnone in *.
  destruct (next_id (fm_fields_ids_map g)) as [id|] eqn:Hn; cbn [snd] in Hwf'.
  2: { exists None, g. destruct g. cbn in *. split_and!; [done|done|apply grows_refl|done]. }
  rewrite Hm. cbn [mbind outcome_bind]. eexists (Some id), _. split; [reflexivity|].
  destruct (fw_next _ (fmw_fields _ Hwf) id Hn) as [_ Hlt].
  assert (Hfresh : ∀ x y, names_ids (fm_fields_ids_map g) !! x = Some y → y ≠ id) by (intros x y Hxy ->; specialize (Hlt _ _ Hxy); lia).
  split; [|split; [split; [done|]|]].
  - constructor; cbn [fm_fields_ids_map fm_builder fm_metadata ids_names]; [done|..].
    + intros i x [[<- <-]|[Hne Hx]]%lookup_insert_Some; [exists m; by rewrite lookup_insert_eq|].
      destruct (fmw_metadata _ Hwf _ _ Hx) as (m' & Hm' & Hl). exists m'. by rewrite lookup_insert_ne.
    + intros i m' [[<- <-]|[Hne Hx]]%lookup_insert_Some; [rewrite lookup_insert_eq; by eexists|]. rewrite lookup_insert_ne by done. by apply (fmw_dom _ Hwf i m').
  - intros x y m' [H1 H2]. unfold known. cbn [fm_fields_ids_map fm_metadata names_ids]. pose proof (Hfresh _ _ H1).
    rewrite !lookup_insert_ne by (congruence || (intros ->; congruence)). done.
  - exists m. unfold known. cbn [fm_fields_ids_map fm_metadata names_ids]. by rewrite !lookup_insert_eq.
Qed.

(** The copy of a thread only says what the map says. *)
Record local_ok g l : Prop := {
  lo_names : ∀ name id, lm_names_ids l !! name = Some id → ∃ m, known g name id m ∧ lm_metadata l !! id = Some m;
  lo_ids : ∀ id name, lm_ids_names l !! id = Some name → ∃ m, known g name id m;
  lo_metadata : ∀ id m, lm_metadata l !! id = Some m → ∃ name, known g name id m;
}.

Lemma local_ok_grows g g' l : grows g g' → local_ok g l → local_ok g' l.
Proof.
  intros [_ Hg] [H1 H2 H3]. constructor.
  - intros name id Hl. destruct (H1 name id Hl) as (m & ? & ?). eauto.
  - intros id name Hl. destruct (H2 id name Hl) as (m & ?). eauto.
  - intros id m Hl. destruct (H3 id m Hl) as (name & ?). eauto.
Qed.

Lemma local_new_ok g : fm_wf g → local_ok g (LocalFieldsIdsMap_new g).
Proof.
  intros Hwf. assert (Hid : ∀ id name, ids_names (fm_fields_ids_map g) !! id = Some name → ∃ m, known g name id m).
  { intros id name Hl. destruct (fmw_metadata _ Hwf _ _ Hl) as (m & _ & Hm). exists m. split; [|done]. by apply (fw_inverse _ (fmw_fields _ Hwf)). }
  constructor; cbn.
  - intros name id Hl. apply (fw_inverse _ (fmw_fields _ Hwf)) in Hl. destruct (Hid _ _ Hl) as (m & Hk). exists m. split; [done|apply Hk].
  - done.
  - intros id m Hl. destruct (fmw_dom _ Hwf _ _ Hl) as [name Hn]. destruct (Hid _ _ Hn) as (m' & Hk). exists name.
    destruct Hk as [Hk1 Hk2]. rewrite Hl in Hk2. injection Hk2 as ->. done.
Qed.

Lemma local_insert_ok g l name id m : fm_wf g → local_ok g l → known g name id m → local_ok g (local_insert name id m l).
Proof.
  intros Hwf [H1 H2 H3] Hk. constructor; cbn [local_insert lm_names_ids lm_ids_names lm_metadata].
  - intros x i [[<- <-]|[Hne Hx]]%lookup_insert_Some; [exists m; by rewrite lookup_insert_eq|].
    destruct (H1 x i Hx) as (m' & Hk' & Hm'). exists m'. split; [done|]. rewrite lookup_insert_ne; [done|].
    intros ->. by destruct (known_inj _ _ _ _ _ _ Hwf Hk Hk').
  - intros i x [[<- <-]|[Hne Hx]]%lookup_insert_Some; [by exists m|by apply H2].
  - intros i m' [[<- <-]|[Hne Hx]]%lookup_insert_Some; [by exists name|by apply H3].
Qed.

(** The two steps of [id_with_metadata_or_insert]. *)
Lemma lookup_step_spec g l name : fm_wf g → local_ok g l →
  ∃ r l', lookup_step g l name = Ok (r, l') ∧ local_ok g l' ∧
    match r with Some (id, m) => known g name id m | None => names_ids (fm_fields_ids_map g) !! name = None end.
Proof.
  intros Hwf Hl. unfold lookup_step, local_id_with_metadata. destruct (lm_names_ids l !! name) as [id|] eqn:Hid.
  - destruct (lo_names _ _ Hl _ _ Hid) as (m & Hk & Hm). rewrite Hm. cbn [unwrap mbind outcome_bind]. by exists (Some (id, m)), l.
  - cbn [mbind outcome_bind]. destruct (id_with_metadata_spec g name Hwf) as [(id & m & -> & Hk)|[-> Hno]]; cbn [mbind outcome_bind].
    + exists (Some (id, m)), (local_insert name id m l). split_and!; [done|by apply local_insert_ok|done].
    + by exists None, l.
Qed.

Lemma insert_step_spec g l name : fm_wf g → builder_ok (fm_builder g) → local_ok g l →
  ∃ r g' l', insert_step g l name = Ok (r, g', l') ∧ fm_wf g' ∧ grows g g' ∧ local_ok g' l' ∧
    match r with
    | Some (id, m) => known g' name id m
    | None => names_ids (fm_fields_ids_map g) !! name = None ∧ next_id (fm_fields_ids_map g) = None
    end.
Proof.
  intros Hwf Hb Hl. unfold insert_step. destruct (id_with_metadata_spec g name Hwf) as [(id & m & -> & Hk)|[-> Hno]]; cbn [mbind outcome_bind].
  - eexists (Some (id, m)), g, _. split_and!; [reflexivity|done|apply grows_refl|by apply local_insert_ok|done].
  - destruct (fm_insert_spec g name Hwf Hb Hno) as (r & g' & -> & Hwf' & Hg & Hr). cbn [mbind outcome_bind].
    pose proof (local_ok_grows _ _ _ Hg Hl) as Hl'. destruct r as [id|].
    + destruct Hr as [m Hk]. unfold fm_metadata_of. rewrite (proj2 Hk). cbn [unwrap mbind outcome_bind].
      eexists (Some (id, m)), g', _. split_and!; [reflexivity|done|done|by apply local_insert_ok|done].
    + exists None, g', l. done.
Qed.

(** The map made for an index. *)
Lemma fm_new_loop (b : MetadataBuilder Language) (l : list (Z * string)) : builder_ok b → NoDup l.*1 → ∀ acc : gmap Z Metadata,
  ∃ acc', for_each (λ acc '(id, name), m ← metadata_for_field b name; Ok (<[id := m]> acc)) acc l = Ok acc' ∧
    ∀ id m, acc' !! id = Some m ↔ (∃ name, (id, name) ∈ l ∧ metadata_for_field b name = Ok m) ∨ (id ∉ l.*1 ∧ acc !! id = Some m).
Proof.
  intros Hb. induction l as [|[i x] l IH]; intros Hnd acc.
  { exists acc. split; [done|]. intros id m. split; [by right; split; [apply not_elem_of_nil|]|]. by intros [(? & ?%elem_of_nil & _)|[_ ?]]. }
  cbn [fmap list_fmap fst] in Hnd. apply NoDup_cons in Hnd as [Hi Hnd]. destruct (metadata_for_field_total b x Hb) as [mx Hx].
  destruct (IH Hnd (<[i := mx]> acc)) as (acc' & Heq & Hin). exists acc'. split; [cbn; rewrite Hx; exact Heq|].
  intros id m. rewrite Hin. cbn [fmap list_fmap fst]. rewrite not_elem_of_cons. destruct (decide (id = i)) as [->|Hne].
  - rewrite lookup_insert_eq. split.
    + intros [(name & Hl & _)|[_ [= <-]]]; [destruct Hi; apply list_elem_of_fmap; by exists (i, name)|]. left. exists x. split; [by left|done].
    + intros [(name & [[= ->]|Hl]%elem_of_cons & Hm)|[[? _] _]]; [right; split; [done|congruence]|left; eauto|done].
  - rewrite lookup_insert_ne by done. split.
    + intros [(name & Hl & Hm)|[Hl Ha]]; [left; exists name; split; [by right|done]|by right].
    + intros [(name & [[= ? _]|Hl]%elem_of_cons & Hm)|[[_ Hl] Ha]]; [done|left; eauto|by right].
Qed.

Lemma fm_new_wf existing (b : MetadataBuilder Language) : fields_wf existing → builder_ok b →
  ∃ g, FieldIdMapWithMetadata_new existing b = Ok g ∧ fm_wf g ∧ fm_builder g = b ∧ fm_fields_ids_map g = existing.
Proof.
  intros Hwf Hb. unfold FieldIdMapWithMetadata_new.
  destruct (fm_new_loop b (map_to_list (ids_names existing)) Hb ltac:(apply NoDup_fst_map_to_list) ∅) as (md & -> & Hin).
  cbn [mbind outcome_bind]. eexists. split; [reflexivity|]. split; [|done]. constructor; cbn [fm_fields_ids_map fm_builder fm_metadata]; [done|..].
  - intros id name Hl. destruct (metadata_for_field_total b name Hb) as [m Hm]. exists m. split; [done|]. apply Hin. left.
    exists name. by rewrite elem_of_map_to_list.
  - intros id m [(name & Hl & _)|[_ Hl]]%Hin; [apply elem_of_map_to_list in Hl; by eexists|by rewrite lookup_empty in Hl].
Qed.

(** Without other threads, a call answers what the map without copies would. *)
Lemma id_or_insert_transparent g l name : fm_wf g → builder_ok (fm_builder g) → local_ok g l →
  ∃ r g' l', id_with_metadata_or_insert g l name = Ok (r, g', l') ∧ fm_wf g' ∧ local_ok g' l' ∧
    fst <$> r = (fields_insert name (fm_fields_ids_map g)).1.
Proof.
  intros Hwf Hb Hl. unfold id_with_metadata_or_insert. destruct (lookup_step_spec g l name Hwf Hl) as (r & l1 & -> & Hl1 & Hr).
  cbn [mbind outcome_bind]. unfold fields_insert. destruct r as [[id m]|].
  { exists (Some (id, m)), g, l1. destruct Hr as [-> _]. done. }
  destruct (insert_step_spec g l1 name Hwf Hb Hl1) as (r & g' & l' & Heq & Hwf' & Hg & Hl' & Hr'). exists r, g', l'. split_and!; [done|done|done|].
  rewrite Hr. unfold insert_step in Heq. destruct (id_with_metadata_spec g name Hwf) as [(id & m & _ & [Hk _])|[Hid _]]; [congruence|].
  rewrite Hid in Heq. cbn [mbind outcome_bind] in Heq. unfold fm_insert, fields_insert in Heq. rewrite Hr in Heq.
  destruct (next_id (fm_fields_ids_map g)) as [n|]; [|by injection Heq as <- _ _].
  destruct (metadata_for_field_total (fm_builder g) name Hb) as [mx Hm]. rewrite Hm in Heq. cbn [mbind outcome_bind] in Heq.
  unfold fm_metadata_of in Heq. cbn [fm_metadata] in Heq. rewrite lookup_insert_eq in Heq. cbn [unwrap mbind outcome_bind] in Heq. by injection Heq as <- _ _.
Qed.

Lemma global_name_spec g l id : fm_wf g → local_ok g l →
  ∃ l', global_name g l id = Ok (ids_names (fm_fields_ids_map g) !! id, l') ∧ local_ok g l'.
Proof.
  intros Hwf Hl. unfold global_name. destruct (lm_ids_names l !! id) as [name|] eqn:Hid.
  - destruct (lo_ids _ _ Hl _ _ Hid) as (m & [Hk _]). apply (fw_inverse _ (fmw_fields _ Hwf)) in Hk. rewrite Hk. by exists l.
  - destruct (name_with_metadata_spec g id Hwf) as [(name & m & -> & Hk)|[-> ->]]; cbn [mbind outcome_bind]; [|by exists l].
    exists (local_insert name id m l). split; [|by apply local_insert_ok]. cbn. rewrite lookup_insert_eq.
    destruct Hk as [Hk _]. apply (fw_inverse _ (fmw_fields _ Hwf)) in Hk. by rewrite Hk.
Qed.

Lemma global_metadata_spec g l id : fm_wf g → local_ok g l →
  ∃ l', global_metadata g l id = Ok (fm_metadata g !! id, l') ∧ local_ok g l'.
Proof.
  intros Hwf Hl. unfold global_metadata. destruct (lm_metadata l !! id) as [m|] eqn:Hid.
  - destruct (lo_metadata _ _ Hl _ _ Hid) as (name & [_ Hk]). rewrite Hk. by exists l.
  - destruct (name_with_metadata_spec g id Hwf) as [(name & m & -> & Hk)|[-> Hno]]; cbn [mbind outcome_bind].
    + exists (local_insert name id m l). split; [|by apply local_insert_ok]. cbn. rewrite lookup_insert_eq. destruct Hk as [_ Hk]. by rewrite Hk.
    + exists l. split; [|done]. destruct (fm_metadata g !! id) as [m|] eqn:Hm; [|done]. destruct (fmw_dom _ Hwf _ _ Hm) as [name Hn]. congruence.
Qed.

(** ** The threads of an indexing *)

(** Between the locks of [id_with_metadata_or_insert], a thread has missed a
    name. *)
Inductive Position := Idle | Missed (name : string).

(** The map, the copy and the position of each thread, and the answers given. *)
Record Threads := mkThreads {
  th_global : FieldIdMapWithMetadata Language;
  th_locals : gmap nat (LocalFieldsIdsMap * Position);
  th_answers : list (string * (Z * Metadata));
}.

Inductive thread_step : Threads → Threads → Prop :=
  | step_new g ls answers t :
      thread_step (mkThreads g ls answers) (mkThreads g (<[t := (LocalFieldsIdsMap_new g, Idle)]> ls) answers)
  | step_found g ls answers t l name entry l' : ls !! t = Some (l, Idle) → lookup_step g l name = Ok (Some entry, l') →
      thread_step (mkThreads g ls answers) (mkThreads g (<[t := (l', Idle)]> ls) ((name, entry) :: answers))
  | step_missed g ls answers t l name l' : ls !! t = Some (l, Idle) → lookup_step g l name = Ok (None, l') →
      thread_step (mkThreads g ls answers) (mkThreads g (<[t := (l', Missed name)]> ls) answers)
  | step_insert g ls answers t l name r g' l' : ls !! t = Some (l, Missed name) → insert_step g l name = Ok (r, g', l') →
      thread_step (mkThreads g ls answers)
        (mkThreads g' (<[t := (l', Idle)]> ls) (match r with Some entry => (name, entry) :: answers | None => answers end))
  | step_name g ls answers t l id r l' : ls !! t = Some (l, Idle) → global_name g l id = Ok (r, l') →
      thread_step (mkThreads g ls answers) (mkThreads g (<[t := (l', Idle)]> ls) answers)
  | step_metadata g ls answers t l id r l' : ls !! t = Some (l, Idle) → global_metadata g l id = Ok (r, l') →
      thread_step (mkThreads g ls answers) (mkThreads g (<[t := (l', Idle)]> ls) answers).

(** The map is well formed, the copies and the answers agree with it. *)
Record threads_ok (g0 : FieldIdMapWithMetadata Language) (s : Threads) : Prop := {
  to_wf : fm_wf (th_global s);
  to_grows : grows g0 (th_global s);
  to_locals : ∀ t l p, th_locals s !! t = Some (l, p) → local_ok (th_global s) l;
  to_answers : ∀ name id m, (name, (id, m)) ∈ th_answers s → known (th_global s) name id m;
}.

Lemma threads_ok_local g0 g ls answers t l p : threads_ok g0 (mkThreads g ls answers) → local_ok g l →
  threads_ok g0 (mkThreads g (<[t := (l, p)]> ls) answers).
Proof.
  intros [H1 H2 H3 H4] Hl. constructor; cbn in *; [done|done| |done].
  intros t' l' p' [[<- [= <- <-]]|[_ Ht]]%lookup_insert_Some; [done|by apply (H3 t' l' p')].
Qed.

Lemma threads_ok_answer g0 g ls answers name id m : threads_ok g0 (mkThreads g ls answers) → known g name id m →
  threads_ok g0 (mkThreads g ls ((name, (id, m)) :: answers)).
Proof.
  intros [H1 H2 H3 H4] Hk. constructor; cbn in *; [done|done|done|]. intros x i m' [[= -> -> ->]|Hin]%elem_of_cons; [done|by apply H4].
Qed.

Lemma threads_ok_grows g0 g g' ls answers : threads_ok g0 (mkThreads g ls answers) → fm_wf g' → grows g g' →
  threads_ok g0 (mkThreads g' ls answers).
Proof.
  intros [H1 H2 H3 H4] Hwf Hg. constructor; cbn in *; [done|by eapply grows_trans| |].
  - intros t l p Ht. eapply local_ok_grows; [exact Hg|]. by apply (H3 t l p).
  - intros name id m Hin. apply Hg. by apply H4.
Qed.

Lemma thread_step_ok g0 s s' : builder_ok (fm_builder g0) → thread_step s s' → threads_ok g0 s → threads_ok g0 s'.
Proof.
  intros Hb Hstep Hok. pose proof (to_wf _ _ Hok) as Hwf. pose proof (to_locals _ _ Hok) as Hls.
  destruct Hstep as [g ls answers t|g ls answers t l name [id m] l' Ht Hl|g ls answers t l name l' Ht Hl|
    g ls answers t l name r g' l' Ht Hi|g ls answers t l id r l' Ht Hl|g ls answers t l id r l' Ht Hl]; cbn in Hwf, Hls.
  - apply threads_ok_local; [done|by apply local_new_ok].
  - destruct (lookup_step_spec g l name Hwf (Hls _ _ _ Ht)) as (r & l'' & Heq & Hl' & Hr). rewrite Hl in Heq. injection Heq as <- <-.
    apply threads_ok_answer; [by apply threads_ok_local|done].
  - destruct (lookup_step_spec g l name Hwf (Hls _ _ _ Ht)) as (r & l'' & Heq & Hl' & Hr). rewrite Hl in Heq. injection Heq as <- <-.
    by apply threads_ok_local.
  - assert (Hb' : builder_ok (fm_builder g)) by (pose proof (proj1 (to_grows _ _ Hok)) as Hbg; cbn in Hbg; by rewrite Hbg).
    destruct (insert_step_spec g l name Hwf Hb' (Hls _ _ _ Ht)) as (r' & g'' & l'' & Heq & Hwf' & Hg & Hl' & Hr).
    rewrite Hi in Heq. injection Heq as <- <- <-. assert (Hok' : threads_ok g0 (mkThreads g' ls answers)) by (by eapply threads_ok_grows).
    destruct r as [[id m]|]; [apply threads_ok_answer; [|done]|]; by apply threads_ok_local.
  - destruct (global_name_spec g l id Hwf (Hls _ _ _ Ht)) as (l'' & Heq & Hl'). rewrite Hl in Heq. injection Heq as _ <-. by apply threads_ok_local.
  - destruct (global_metadata_spec g l id Hwf (Hls _ _ _ Ht)) as (l'' & Heq & Hl'). rewrite Hl in Heq. injection Heq as _ <-. by apply threads_ok_local.
Qed.

Lemma threads_reachable_ok g s : fm_wf g → builder_ok (fm_builder g) → rtc thread_step (mkThreads g ∅ []) s → threads_ok g s.
Proof.
  intros Hwf Hb Hr. assert (H0 : threads_ok g (mkThreads g ∅ [])).
  { constructor; cbn; [done|apply grows_refl|intros *; by rewrite lookup_empty|by intros * ?%elem_of_nil]. }
  clear Hwf. revert H0. induction Hr as [s|s1 s2 s3 Hs _ IH]; [done|]. intros H0. apply IH. by eapply thread_step_ok.
Qed.

(** C34. However the threads of an indexing interleave on the shared
    map of the fields, each with its own copy.  The answers to a name all have the
    same id, with the metadata of that name, the answers to different names have
    different ids, and the fields that were known keep their ids.  And no call panics,
    whatever thread makes it: looking a name up in the copy then in the map misses it only
    when the map does not have it; inserting a name that was missed gives none only
    when the ids are exhausted; asking for the name and for the metadata of any id gives those
    of the shared map, which are those of the answers.  The names in the
    rules of the metadata are few enough for their positions. *)
Theorem fields_shared g s : fm_wf g → builder_ok (fm_builder g) → rtc thread_step (mkThreads g ∅ []) s →
  (∀ name id m, (name, (id, m)) ∈ th_answers s →
    metadata_for_field (fm_builder g) name = Ok m ∧ known (th_global s) name id m ∧
    (∀ id0 m0, known g name id0 m0 → id = id0) ∧
    ∀ name' id' m', (name', (id', m')) ∈ th_answers s → name' = name ↔ id' = id) ∧
  ∀ t l p, th_locals s !! t = Some (l, p) →
    match p with
    | Idle =>
        (∀ name, ∃ r l', lookup_step (th_global s) l name = Ok (r, l') ∧
           match r with
           | Some (id, m) => known (th_global s) name id m
           | None => names_ids (fm_fields_ids_map (th_global s)) !! name = None
           end) ∧
        ∀ id, (∃ l', global_name (th_global s) l id = Ok (ids_names (fm_fields_ids_map (th_global s)) !! id, l')) ∧
          (∃ l', global_metadata (th_global s) l id = Ok (fm_metadata (th_global s) !! id, l')) ∧
          ∀ name m, (name, (id, m)) ∈ th_answers s →
            ids_names (fm_fields_ids_map (th_global s)) !! id = Some name ∧ fm_metadata (th_global s) !! id = Some m
    | Missed name => ∃ r g' l', insert_step (th_global s) l name = Ok (r, g', l') ∧
        match r with
        | Some (id, m) => known g' name id m
        | None => names_ids (fm_fields_ids_map (th_global s)) !! name = None ∧
            next_id (fm_fields_ids_map (th_global s)) = None
        end
    end.
Proof.
  intros Hwf Hb Hr. pose proof (threads_reachable_ok g s Hwf Hb Hr) as Hok. pose proof (to_wf _ _ Hok) as Hwf'.
  destruct (to_grows _ _ Hok) as [Hbuilder Hgrows]. split.
  - intros name id m Hin. pose proof (to_answers _ _ Hok _ _ _ Hin) as Hk. split_and!; [|done|..].
    + rewrite <-Hbuilder. by eapply known_metadata.
    + intros id0 m0 Hk0. apply Hgrows in Hk0. by destruct (known_fun _ _ _ _ _ _ Hk0 Hk).
    + intros name' id' m' Hin'. pose proof (to_answers _ _ Hok _ _ _ Hin') as Hk'. split.
      * intros ->. by destruct (known_fun _ _ _ _ _ _ Hk Hk').
      * intros ->. by eapply known_inj.
  - intros t l p Ht. pose proof (to_locals _ _ Hok _ _ _ Ht) as Hl. destruct p as [|name].
    + split; [|intros id; split_and!].
      * intros name. destruct (lookup_step_spec _ _ name Hwf' Hl) as (r & l' & Heq & _ & ?). eauto.
      * destruct (global_name_spec _ _ id Hwf' Hl) as (l' & Heq & _). eauto.
      * destruct (global_metadata_spec _ _ id Hwf' Hl) as (l' & Heq & _). eauto.
      * intros name m [Hk Hm]%(to_answers _ _ Hok). split; [|done]. by apply (fw_inverse _ (fmw_fields _ Hwf')).
    + assert (Hb' : builder_ok (fm_builder (th_global s))) by (by rewrite Hbuilder).
      destruct (insert_step_spec _ _ name Hwf' Hb' Hl) as (r & g' & l' & Heq & _ & _ & _ & ?).
      exists r, g', l'. split; [done|]. by destruct r as [[]|].
Qed.
End shared.

(** ** A sample *)

(** Rules that let [genres] be filtered, with [price] sortable. *)
Definition sample_builder : MetadataBuilder unit :=
  MetadataBuilder_new None [RuleField "genres"] {["price"]} None None ∅.

Lemma metadata_faceted_witness : ∃ m, metadata_for_field sample_builder "genres" = Ok m ∧
  metadata_is_faceted (E:=unit) m (mb_filterable_attributes sample_builder) = Ok true.
Proof.
  destruct (metadata_faceted sample_builder "genres") as (m & Hm & (faceted & Hf & _) & _);
    [split; vm_compute; discriminate|vm_compute; reflexivity|vm_compute; discriminate|].
  exists m. split; [exact Hm|]. vm_compute in Hm. injection Hm as <-. reflexivity.
Defined.

Definition sample_field_map : FieldIdMapWithMetadata unit := mkFieldIdMapWithMetadata FieldsIdsMap_new sample_builder ∅.
Definition price_metadata : Metadata := mkMetadata (Some 0) true false false false None None.

(** Two threads both miss [price] before one inserts it. *)
Definition sample_race : Threads :=
  let l := mkLocalFieldsIdsMap (<["price"%string := 0]> ∅) (<[0 := "price"%string]> ∅) (<[0 := price_metadata]> ∅) in
  let g := mkFieldIdMapWithMetadata (mkFieldsIdsMap (<["price"%string := 0]> ∅) (<[0 := "price"%string]> ∅) (Some 1)) sample_builder (<[0 := price_metadata]> ∅) in
  mkThreads g (<[2%nat := (l, Idle)]> (<[1%nat := (l, Idle)]> (<[2%nat := (mkLocalFieldsIdsMap ∅ ∅ ∅, Missed "price")]>
    (<[1%nat := (mkLocalFieldsIdsMap ∅ ∅ ∅, Missed "price")]> (<[2%nat := (mkLocalFieldsIdsMap ∅ ∅ ∅, Idle)]>
    (<[1%nat := (mkLocalFieldsIdsMap ∅ ∅ ∅, Idle)]> ∅)))))) [("price", (0, price_metadata)); ("price", (0, price_metadata))]%string.

Lemma sample_race_reachable : rtc thread_step (mkThreads sample_field_map ∅ []) sample_race.
Proof.
  eapply rtc_l; [apply (step_new _ _ _ 1%nat)|]. eapply rtc_l; [apply (step_new _ _ _ 2%nat)|].
  eapply rtc_l; [eapply (step_missed _ _ _ 1%nat _ "price"); reflexivity|].
  eapply rtc_l; [eapply (step_missed _ _ _ 2%nat _ "price"); reflexivity|].
  eapply rtc_l; [eapply (step_insert _ _ _ 1%nat); reflexivity|].
  eapply rtc_l; [eapply (step_insert _ _ _ 2%nat); reflexivity|]. apply rtc_refl.
Qed.

Lemma sample_field_map_wf : fm_wf sample_field_map.
Proof. constructor; cbn; [apply fields_new_wf|..]; intros *; by rewrite lookup_empty. Qed.

Lemma fields_shared_witness : th_answers sample_race = [("price", (0, price_metadata)); ("price", (0, price_metadata))]%string ∧
  metadata_for_field sample_builder "price" = Ok price_metadata.
Proof.
  destruct (fields_shared sample_field_map sample_race sample_field_map_wf) as [Hans _]; [split; vm_compute; discriminate|exact sample_race_reachable|].
  split; [reflexivity|]. destruct (Hans "price"%string 0 price_metadata) as (Hm & _); [by left|exact Hm].
Defined.
