(* ===== verification/FacetLevels.v ===== *)
(** * The facets of an indexing

    The part of [crates/milli-core/src/update/new] that writes the databases of
    facets: [merger.rs] merges the changes of the threads into the values and
    records what changed, and [indexer/post_processing.rs] then follows these
    changes in the levels, by bulk or incremental updates. *)

From S2P Require Import Prelude TaskTypes SchedUtils Ids Documents Facet FacetSort FacetBulk Bytes AttributeRules FieldMetadata FacetIncremental.
From Stdlib Require Import Ascii.
From Stdlib Require String.
Open Scope Z_scope.

#[local] Arguments String.append !_ _ : simpl nomatch.

(** ** Keys *)

Inductive FacetKind := Number | KString | Null | Empty | Exists.

(** [From<u8>], which panics on another byte. *)
Definition FacetKind_from {E} (value : Z) : outcome E FacetKind :=
  match value with
  | 0 => Ok Number | 1 => Ok KString | 2 => Ok Null | 3 => Ok Empty | 4 => Ok Exists
  | _ => Panic
  end.
Definition kind_byte (k : FacetKind) : Z :=
  match k with Number => 0 | KString => 1 | Null => 2 | Empty => 3 | Exists => 4 end.

(** A key of the caches, as the extraction of facets writes it: the value is that
    of level 0 for the numbers and the strings, and there is none for the others. *)
Record FacetKey := mkFacetKey { key_kind : FacetKind; key_field_id : Z; key_value : string }.
Definition facet_key_bytes (k : FacetKey) : string :=
  String.String (byte_of (kind_byte (key_kind k)))
    (be_bytes 2 (key_field_id k) +:+
      match key_kind k with
      | Number | KString => String.String (byte_of 0) (key_value k)
      | Null | Empty | Exists => String.EmptyString
      end).

(** [extract_key_data]. *)
Definition extract_key_data {E} (key : string) : outcome E (FacetKind * Z * option string) :=
  match key with
  | String.String kind (String.String a (String.String b rest)) =>
      facet_kind ← FacetKind_from (code kind);
      Ok (facet_kind, from_be_bytes (String.String a (String.String b String.EmptyString)),
          match rest with String.String _ value => Some value | String.EmptyString => None end)
  | _ => Panic
  end.

(** ** What changed *)

Inductive FacetFieldIdDelta := Bulk | Incremental (v : list FacetFieldIdChange).

(** [FacetFieldIdDelta::push] and [merge]. *)
Definition delta_push (facet_value : string) (max_count : Z) (d : FacetFieldIdDelta) : FacetFieldIdDelta :=
  match d with
  | Bulk => Bulk
  | Incremental v =>
      if max_count <=? Z.of_nat (length v) then Bulk else Incremental (v ++ [mkFacetFieldIdChange facet_value])
  end.
Definition delta_merge (d : FacetFieldIdDelta) (rhs : option FacetFieldIdDelta) (max_count : Z) : FacetFieldIdDelta :=
  match rhs with
  | None => d
  | Some rhs =>
      match d, rhs with
      | Incremental v, Incremental v' =>
          if max_count <=? Z.of_nat (length v) + Z.of_nat (length v') then Bulk else Incremental (v ++ v')
      | _, _ => Bulk
      end
  end.

Record FacetFieldIdsDelta := mkFacetFieldIdsDelta {
  modified_facet_string_ids : gmap Z FacetFieldIdDelta;
  modified_facet_number_ids : gmap Z FacetFieldIdDelta;
  max_string_count : Z;
  max_number_count : Z;
}.
Definition FacetFieldIdsDelta_new (max_string_count max_number_count : Z) : FacetFieldIdsDelta :=
  mkFacetFieldIdsDelta ∅ ∅ max_string_count max_number_count.

(** [register_facet_string_id] and [register_facet_number_id]: the entry is made
    when there is none. *)
Definition register_id (ids : gmap Z FacetFieldIdDelta) (max_count : Z) (field_id : Z) (facet_value : string) : gmap Z FacetFieldIdDelta :=
  <[field_id := delta_push facet_value max_count (default (Incremental []) (ids !! field_id))]> ids.

(** [register_from_key]. *)
Definition register_from_key {E} (d : FacetFieldIdsDelta) (key : string) : outcome E FacetFieldIdsDelta :=
  '(facet_kind, field_id, facet_value) ← extract_key_data key;
  Ok (match facet_kind, facet_value with
      | Number, Some v =>
          mkFacetFieldIdsDelta (modified_facet_string_ids d) (register_id (modified_facet_number_ids d) (max_number_count d) field_id v)
            (max_string_count d) (max_number_count d)
      | KString, Some v =>
          mkFacetFieldIdsDelta (register_id (modified_facet_string_ids d) (max_string_count d) field_id v) (modified_facet_number_ids d)
            (max_string_count d) (max_number_count d)
      | _, _ => d
      end).

(** [FacetFieldIdsDelta::merge]: the deltas of the right are merged with those of
    the left and put in their place. *)
Definition merge_ids (left right : gmap Z FacetFieldIdDelta) (max_count : Z) : gmap Z FacetFieldIdDelta :=
  foldl (λ ids '(fid, delta), <[fid := delta_merge delta (ids !! fid) max_count]> (delete fid ids)) left (map_to_list right).
Definition deltas_merge (d rhs : FacetFieldIdsDelta) : FacetFieldIdsDelta :=
  mkFacetFieldIdsDelta
    (merge_ids (modified_facet_string_ids d) (modified_facet_string_ids rhs) (max_string_count d))
    (merge_ids (modified_facet_number_ids d) (modified_facet_number_ids rhs) (max_number_count d))
    (max_string_count d) (max_number_count d).

(** ** Merging the changes of the threads *)

Inductive Operation := Write (b : bitmap) | Delete | Ignore.

(** [merge_cbo_bitmaps]. *)
Definition merge_cbo_bitmaps (current del add : option bitmap) : Operation :=
  match current, del, add with
  | None, None, None => Ignore
  | None, None, Some add => Write add
  | None, Some _, None => Ignore
  | None, Some _, Some add => Write add
  | Some _, None, None => Ignore
  | Some current, None, Some add => Write (current ∪ add)
  | Some current, Some del, add =>
      let output := match add with Some add => (current ∖ (del ∖ add)) ∪ (add ∖ del) | None => current ∖ del end in
      if bm_is_empty output then Delete
      else if bool_decide (current = output) then Ignore
      else Write output
  end.

(** The databases of facets: those of numbers and strings have levels. *)
Record FacetDatabases := mkFacetDatabases {
  facet_id_string_docids : FacetDb;
  facet_id_f64_docids : FacetDb;
  facet_id_is_null_docids : gmap Z bitmap;
  facet_id_is_empty_docids : gmap Z bitmap;
  facet_id_exists_docids : gmap Z bitmap;
}.

Definition level0_key (k : FacetKey) : FacetGroupKey := mkFacetGroupKey (key_field_id k) 0 (key_value k).

(** [get_cbo_roaring_bytes_value]. *)
Definition facet_docids (dbs : FacetDatabases) (k : FacetKey) : option bitmap :=
  match key_kind k with
  | Number => fv_bitmap <$> db_get (facet_id_f64_docids dbs) (level0_key k)
  | KString => fv_bitmap <$> db_get (facet_id_string_docids dbs) (level0_key k)
  | Null => facet_id_is_null_docids dbs !! key_field_id k
  | Empty => facet_id_is_empty_docids dbs !! key_field_id k
  | Exists => facet_id_exists_docids dbs !! key_field_id k
  end.

(** What the writer does of [FacetDocidsSender::write] and [delete]: a value of a
    number or a string has the size of group 1. *)
Definition set_docids (k : FacetKey) (new : option bitmap) (dbs : FacetDatabases) : FacetDatabases :=
  let set_level0 db := match new with Some b => db_put db (level0_key k) (mkFacetGroupValue 1 b) | None => db_delete db (level0_key k) end in
  let set_field (m : gmap Z bitmap) := match new with Some b => <[key_field_id k := b]> m | None => delete (key_field_id k) m end in
  let '(mkFacetDatabases s n nl em ex) := dbs in
  match key_kind k with
  | Number => mkFacetDatabases s (set_level0 n) nl em ex
  | KString => mkFacetDatabases (set_level0 s) n nl em ex
  | Null => mkFacetDatabases s n (set_field nl) em ex
  | Empty => mkFacetDatabases s n nl (set_field em) ex
  | Exists => mkFacetDatabases s n nl em (set_field ex)
  end.

(** The closure of [merge_and_send_facet_docids] on a key: the current documents
    are those of [dbs0], the databases when the indexing started. *)
Definition merge_key {E} (dbs0 : FacetDatabases) (st : FacetDatabases * FacetFieldIdsDelta) (change : FacetKey * DelAdd)
    : outcome E (FacetDatabases * FacetFieldIdsDelta) :=
  let '(dbs, delta) := st in
  let '(k, d) := change in
  match merge_cbo_bitmaps (facet_docids dbs0 k) (da_deletion d) (da_addition d) with
  | Write b => delta ← register_from_key delta (facet_key_bytes k); Ok (set_docids k (Some b) dbs, delta)
  | Delete => delta ← register_from_key delta (facet_key_bytes k); Ok (set_docids k None dbs, delta)
  | Ignore => Ok (dbs, delta)
  end.

(** [merge_and_send_facet_docids]: each thread merges its changes, and their
    deltas are merged. *)
Definition max_count (len : nat) : Z := Z.min 100000 (Z.max 1000 (Z.of_nat len / 500)).
Definition merge_and_send_facet_docids {E} (dbs0 : FacetDatabases) (threads : list (list (FacetKey * DelAdd)))
    : outcome E (FacetDatabases * FacetFieldIdsDelta) :=
  let max_string_count := max_count (length (facet_id_string_docids dbs0)) in
  let max_number_count := max_count (length (facet_id_f64_docids dbs0)) in
  let new := FacetFieldIdsDelta_new max_string_count max_number_count in
  for_each (λ '(dbs, delta) changes,
    '(dbs, thread_delta) ← for_each (merge_key dbs0) (dbs, new) changes;
    Ok (dbs, deltas_merge delta thread_delta)) (dbs0, new) threads.

(** ** The levels *)

Definition FACET_GROUP_SIZE : Z := 4.
Definition FACET_MIN_LEVEL_SIZE : Z := 5.
Definition FACET_MAX_GROUP_SIZE : Z := 8.

Definition is_bulk (d : FacetFieldIdDelta) : bool := match d with Bulk => true | Incremental _ => false end.

(** [sort_by_key]: the bulk updates first. *)
Definition bulks_first (deltas : list (Z * FacetFieldIdDelta)) : list (Z * FacetFieldIdDelta) :=
  filter (λ d, is_bulk d.2 = true) deltas ++ filter (λ d, is_bulk d.2 = false) deltas.

(** The update of a field. *)
Definition update_levels (db : FacetDb) (fid : Z) (delta : FacetFieldIdDelta) : outcome Stuck FacetDb :=
  match delta with
  | Bulk => map_err (λ _ : unit, OutOfFuel) (bulk_update FACET_GROUP_SIZE FACET_MIN_LEVEL_SIZE db None [fid])
  | Incremental delta_data => execute FACET_GROUP_SIZE FACET_MIN_LEVEL_SIZE FACET_MAX_GROUP_SIZE fid db delta_data
  end.

(** The loop on the fields of numbers, and that on the fields of strings, which
    skips those whose levels are not needed. *)
Definition number_levels (db : FacetDb) (deltas : list (Z * FacetFieldIdDelta)) : outcome Stuck FacetDb :=
  for_each (λ db '(fid, delta), update_levels db fid delta) db (bulks_first deltas).

Definition string_field {Language} (global : FieldIdMapWithMetadata Language) (rules : list FilterableAttributesRule)
    (st : FacetDb * LocalFieldsIdsMap) (fd : Z * FacetFieldIdDelta) : outcome Stuck (FacetDb * LocalFieldsIdsMap) :=
  let '(db, l) := st in
  let '(fid, delta) := fd in
  '(m, l) ← map_err (λ _ : unit, OutOfFuel) (global_metadata global l fid);
  match m with
  | None => Ok (db, l)
  | Some m =>
      required ← require_facet_level_database m rules;
      if negb required then Ok (db, l)
      else db ← update_levels db fid delta; Ok (db, l)
  end.
Definition string_levels {Language} (global : FieldIdMapWithMetadata Language) (rules : list FilterableAttributesRule)
    (st : FacetDb * LocalFieldsIdsMap) (deltas : list (Z * FacetFieldIdDelta)) : outcome Stuck (FacetDb * LocalFieldsIdsMap) :=
  for_each (string_field global rules) st (bulks_first deltas).

(** [compute_facet_level_database]; [strings] and [numbers] are the deltas, in the
    order the tables of the fields give them. *)
Definition compute_facet_level_database {Language} (global : FieldIdMapWithMetadata Language) (rules : list FilterableAttributesRule)
    (dbs : FacetDatabases) (l : LocalFieldsIdsMap) (strings numbers : list (Z * FacetFieldIdDelta)) : outcome Stuck (FacetDatabases * LocalFieldsIdsMap) :=
  let '(mkFacetDatabases s n nl em ex) := dbs in
  '(s, l) ← string_levels global rules (s, l) strings;
  n ← number_levels n numbers;
  Ok (mkFacetDatabases s n nl em ex, l).

(** ** The keys say the field and the value *)

Lemma FacetKind_from_byte {E} k : FacetKind_from (E:=E) (code (byte_of (kind_byte k))) = Ok k.
Proof. by destruct k. Qed.

Lemma extract_facet_key {E} k : 0 ≤ key_field_id k ≤ u16_max →
  extract_key_data (E:=E) (facet_key_bytes k) =
    Ok (key_kind k, key_field_id k, match key_kind k with Number | KString => Some (key_value k) | _ => None end).
Proof.
  intros Hf. unfold facet_key_bytes. pose proof (from_be_bytes_small 2 (key_field_id k) ltac:(unfold u16_max in Hf; cbn; lia)) as Hfid.
  cbn [be_bytes String.append extract_key_data]. rewrite FacetKind_from_byte. cbn [mbind outcome_bind].
  replace (from_be_bytes _) with (key_field_id k) by (symmetry; exact Hfid). by destruct (key_kind k).
Qed.

(** ** The deltas say what changed *)

(** The deltas of the fields tell all the changes, or that they are too many, and
    only these. *)
Record tracks (ids : gmap Z FacetFieldIdDelta) (ks : list (Z * string)) : Prop := {
  tr_all : ∀ fid x, (fid, x) ∈ ks → ∃ d, ids !! fid = Some d ∧ ∀ v, d = Incremental v → x ∈ facet_value <$> v;
  tr_only : ∀ fid v x, ids !! fid = Some (Incremental v) → x ∈ facet_value <$> v → (fid, x) ∈ ks;
  tr_fields : ∀ fid d, ids !! fid = Some d → ∃ x, (fid, x) ∈ ks;
}.

Lemma tracks_empty : tracks ∅ [].
Proof. constructor; intros *; [by intros ?%elem_of_nil|by rewrite lookup_empty..]. Qed.

Lemma tracks_register ids ks mx fid x : tracks ids ks → tracks (register_id ids mx fid x) (ks ++ [(fid, x)]).
Proof.
  intros [H1 H2 H3]. unfold register_id. set (d := delta_push _ _ _).
  assert (Hd : ∀ v, d = Incremental v → ∃ v0, default (Incremental []) (ids !! fid) = Incremental v0 ∧ v = v0 ++ [mkFacetFieldIdChange x]).
  { unfold d, delta_push. intros v. destruct (default _ _) as [|v0]; [done|]. destruct (mx <=? _); [done|]. intros [= <-]. eauto. }
  constructor.
  - intros f y Hin. destruct (decide (f = fid)) as [->|Hne].
    + rewrite lookup_insert_eq. exists d. split; [done|]. intros v (v0 & Hv0 & ->)%Hd. rewrite fmap_app, elem_of_app.
      apply elem_of_app in Hin as [Hin|[= ->]%list_elem_of_singleton]; [left|right; by left].
      destruct (H1 fid y Hin) as (d0 & Hd0 & Hv). rewrite Hd0 in Hv0. cbn in Hv0. by apply Hv.
    + rewrite lookup_insert_ne by done. apply H1. apply elem_of_app in Hin as [?|[= -> _]%list_elem_of_singleton]; done.
  - intros f v y Hl Hy. rewrite elem_of_app. destruct (decide (f = fid)) as [->|Hne].
    + rewrite lookup_insert_eq in Hl. injection Hl as Hl. apply Hd in Hl as (v0 & Hv0 & ->). rewrite fmap_app, elem_of_app in Hy.
      destruct Hy as [Hy|Hy%list_elem_of_singleton]; [|right; rewrite Hy; by left]. left.
      destruct (ids !! fid) as [d0|] eqn:Hd0; cbn in Hv0; [subst; by apply (H2 fid v0)|]. injection Hv0 as <-. by apply elem_of_nil in Hy.
    + rewrite lookup_insert_ne in Hl by done. left. by apply (H2 f v).
  - intros f d' [[<- _]|[_ Hl]]%lookup_insert_Some; [exists x; apply elem_of_app; right; by left|].
    destruct (H3 f d' Hl) as [y Hy]. exists y. apply elem_of_app. by left.
Qed.

Lemma merge_ids_lookup left right mx fid : merge_ids left right mx !! fid =
  match right !! fid with Some d => Some (delta_merge d (left !! fid) mx) | None => left !! fid end.
Proof.
  unfold merge_ids. rewrite <-(list_to_map_to_list right) at 2. pose proof (NoDup_fst_map_to_list right) as Hnd.
  revert left. induction (map_to_list right) as [|[f d] l IH]; intros left; [cbn; by rewrite lookup_empty|].
  cbn [fmap list_fmap fst] in Hnd. apply NoDup_cons in Hnd as [Hf Hnd]. cbn [foldl]. rewrite list_to_map_cons. rewrite IH by done.
  destruct (decide (f = fid)) as [->|Hne].
  - rewrite !lookup_insert_eq. rewrite (not_elem_of_list_to_map_1 _ _ Hf). done.
  - rewrite !lookup_insert_ne, lookup_delete_ne by done. done.
Qed.

Lemma tracks_merge left right mx ks1 ks2 : tracks left ks1 → tracks right ks2 → tracks (merge_ids left right mx) (ks1 ++ ks2).
Proof.
  intros [H1 H2 H3] [H4 H5 H6].
  assert (Hinc : ∀ d o v, delta_merge d o mx = Incremental v →
    ∃ v2, d = Incremental v2 ∧ ((o = None ∧ v = v2) ∨ ∃ v1, o = Some (Incremental v1) ∧ v = v2 ++ v1)).
  { intros d o v. unfold delta_merge. destruct o as [[|v1]|]; destruct d as [|v2]; try done; [|intros [= <-]; exists v2; tauto].
    destruct (mx <=? _); [done|]. intros [= <-]. exists v2. split; [done|]. right. by exists v1. }
  constructor.
  - intros fid x Hin. rewrite merge_ids_lookup. apply elem_of_app in Hin as [Hin|Hin].
    + destruct (H1 fid x Hin) as (d1 & Hd1 & Hv1). destruct (right !! fid) as [d2|]; [|by exists d1]. rewrite Hd1. eexists. split; [reflexivity|].
      intros v (v2 & -> & [[? _]|(v1 & [= ->] & ->)])%Hinc; [done|]. rewrite fmap_app, elem_of_app. right. by apply Hv1.
    + destruct (H4 fid x Hin) as (d2 & Hd2 & Hv2). rewrite Hd2. eexists. split; [reflexivity|].
      intros v (v2 & -> & [[_ ->]|(v1 & _ & ->)])%Hinc; [by apply Hv2|]. rewrite fmap_app, elem_of_app. left. by apply Hv2.
  - intros fid v x. rewrite merge_ids_lookup, elem_of_app. destruct (right !! fid) as [d2|] eqn:Hd2; [|left; by apply (H2 fid v)].
    intros [= (v2 & -> & [[_ ->]|(v1 & Hv1 & ->)])%Hinc] Hx; [right; by apply (H5 fid v2)|]. rewrite fmap_app, elem_of_app in Hx.
    destruct Hx as [Hx|Hx]; [right; by apply (H5 fid v2)|left; by apply (H2 fid v1)].
  - intros fid d. rewrite merge_ids_lookup. destruct (right !! fid) as [d2|] eqn:Hd2; intros Hl.
    + destruct (H6 fid d2 Hd2) as [x Hx]. exists x. apply elem_of_app. by right.
    + destruct (H3 fid d Hl) as [x Hx]. exists x. apply elem_of_app. by left.
Qed.

(** ** The values written *)

#[export] Instance FacetKind_eq_dec : EqDecision FacetKind.
Proof. solve_decision. Defined.

(** The kinds with levels. *)
Definition leveled (K : FacetKind) : Prop := K = Number ∨ K = KString.
Definition db_of (K : FacetKind) (dbs : FacetDatabases) : FacetDb :=
  match K with Number => facet_id_f64_docids dbs | _ => facet_id_string_docids dbs end.
Definition ids_of (K : FacetKind) (d : FacetFieldIdsDelta) : gmap Z FacetFieldIdDelta :=
  match K with Number => modified_facet_number_ids d | _ => modified_facet_string_ids d end.

(** The new documents of a key, when they are written. *)
Definition new_docids (dbs0 : FacetDatabases) (change : FacetKey * DelAdd) : option (option bitmap) :=
  match merge_cbo_bitmaps (facet_docids dbs0 change.1) (da_deletion change.2) (da_addition change.2) with
  | Write b => Some (Some b)
  | Delete => Some None
  | Ignore => None
  end.
Definition apply_change (dbs0 dbs : FacetDatabases) (change : FacetKey * DelAdd) : FacetDatabases :=
  match new_docids dbs0 change with Some new => set_docids change.1 new dbs | None => dbs end.

(** What is written of a kind, and the values it is written at. *)
Definition writes (K : FacetKind) (dbs0 : FacetDatabases) (changes : list (FacetKey * DelAdd)) : list (FacetGroupKey * option bitmap) :=
  omap (λ c, if decide (key_kind c.1 = K) then (λ new, (level0_key c.1, new)) <$> new_docids dbs0 c else None) changes.
Definition written_values (W : list (FacetGroupKey * option bitmap)) : list (Z * string) :=
  (λ w, (fk_field_id w.1, fk_left_bound w.1)) <$> W.

Definition register_key (d : FacetFieldIdsDelta) (k : FacetKey) : FacetFieldIdsDelta :=
  match key_kind k with
  | Number =>
      mkFacetFieldIdsDelta (modified_facet_string_ids d) (register_id (modified_facet_number_ids d) (max_number_count d) (key_field_id k) (key_value k))
        (max_string_count d) (max_number_count d)
  | KString =>
      mkFacetFieldIdsDelta (register_id (modified_facet_string_ids d) (max_string_count d) (key_field_id k) (key_value k)) (modified_facet_number_ids d)
        (max_string_count d) (max_number_count d)
  | _ => d
  end.

Lemma register_from_key_eq {E} d k : 0 ≤ key_field_id k ≤ u16_max → register_from_key (E:=E) d (facet_key_bytes k) = Ok (register_key d k).
Proof. intros Hf. unfold register_from_key, register_key. rewrite extract_facet_key by done. cbn [mbind outcome_bind]. by destruct (key_kind k). Qed.

Lemma writes_app K dbs0 l1 l2 : writes K dbs0 (l1 ++ l2) = writes K dbs0 l1 ++ writes K dbs0 l2.
Proof. apply omap_app. Qed.
Lemma written_values_app W1 W2 : written_values (W1 ++ W2) = written_values W1 ++ written_values W2.
Proof. apply fmap_app. Qed.

Lemma merge_key_eq {E} dbs0 dbs delta c : 0 ≤ key_field_id c.1 ≤ u16_max → ∃ delta',
  merge_key (E:=E) dbs0 (dbs, delta) c = Ok (apply_change dbs0 dbs c, delta') ∧
  ∀ K ks, leveled K → tracks (ids_of K delta) ks → tracks (ids_of K delta') (ks ++ written_values (writes K dbs0 [c])).
Proof.
  intros Hf. destruct c as [k d]. unfold merge_key, apply_change, new_docids. cbn [fst snd] in *.
  assert (Hreg : ∀ new, new_docids dbs0 (k, d) = Some new → ∀ K ks, leveled K → tracks (ids_of K delta) ks →
    tracks (ids_of K (register_key delta k)) (ks ++ written_values (writes K dbs0 [(k, d)]))).
  { intros new Hnew K ks HK Ht. unfold writes. cbn [omap list_omap fst]. rewrite Hnew. unfold register_key.
    case_decide as Hk; [rewrite Hk|]; cbn [written_values fmap list_fmap option_fmap option_map level0_key fst fk_field_id fk_left_bound].
    - destruct HK as [->| ->]; cbn; by apply tracks_register.
    - rewrite app_nil_r. destruct HK as [->| ->], (key_kind k); done. }
  unfold new_docids in Hreg. cbn [fst snd] in Hreg. destruct (merge_cbo_bitmaps _ _ _) eqn:Hop; cbn beta iota.
  - rewrite register_from_key_eq by done. cbn [mbind outcome_bind]. eexists. split; [reflexivity|]. by eapply Hreg.
  - rewrite register_from_key_eq by done. cbn [mbind outcome_bind]. eexists. split; [reflexivity|]. by eapply Hreg.
  - exists delta. split; [done|]. intros K ks HK Ht. unfold writes. cbn [omap list_omap fst]. unfold new_docids. cbn [fst snd]. rewrite Hop.
    case_decide; cbn; by rewrite app_nil_r.
Qed.

Lemma merge_keys_eq {E} dbs0 changes : Forall (λ c, 0 ≤ key_field_id c.1 ≤ u16_max) changes → ∀ dbs delta, ∃ delta',
  for_each (merge_key (E:=E) dbs0) (dbs, delta) changes = Ok (foldl (apply_change dbs0) dbs changes, delta') ∧
  ∀ K ks, leveled K → tracks (ids_of K delta) ks → tracks (ids_of K delta') (ks ++ written_values (writes K dbs0 changes)).
Proof.
  induction 1 as [|c changes Hc _ IH]; intros dbs delta.
  { exists delta. split; [done|]. intros K ks _. cbn. by rewrite app_nil_r. }
  destruct (merge_key_eq (E:=E) dbs0 dbs delta c Hc) as (d1 & Heq1 & Ht1). destruct (IH (apply_change dbs0 dbs c) d1) as (d2 & Heq2 & Ht2).
  exists d2. cbn [for_each foldl]. rewrite Heq1. cbn [mbind outcome_bind]. split; [exact Heq2|]. intros K ks HK Ht.
  change (c :: changes) with ([c] ++ changes). rewrite writes_app, written_values_app, app_assoc. by apply Ht2, Ht1.
Qed.

(** [merge_and_send_facet_docids]: the values written, and the deltas. *)
Lemma merge_and_send_eq {E} dbs0 threads : Forall (λ c, 0 ≤ key_field_id c.1 ≤ u16_max) (concat threads) → ∃ delta,
  merge_and_send_facet_docids (E:=E) dbs0 threads = Ok (foldl (apply_change dbs0) dbs0 (concat threads), delta) ∧
  ∀ K, leveled K → tracks (ids_of K delta) (written_values (writes K dbs0 (concat threads))).
Proof.
  intros Hall. unfold merge_and_send_facet_docids. set (new := FacetFieldIdsDelta_new _ _).
  assert (Hnew : ∀ K, leveled K → tracks (ids_of K new) []) by (intros K [->| ->]; apply tracks_empty).
  cut (∀ dbs delta, ∃ delta', for_each (λ '(dbs, delta) changes,
      '(dbs, thread_delta) ← for_each (merge_key (E:=E) dbs0) (dbs, new) changes; Ok (dbs, deltas_merge delta thread_delta)) (dbs, delta) threads =
      Ok (foldl (apply_change dbs0) dbs (concat threads), delta') ∧
    ∀ K ks, leveled K → tracks (ids_of K delta) ks → tracks (ids_of K delta') (ks ++ written_values (writes K dbs0 (concat threads)))).
  { intros Hcut. destruct (Hcut dbs0 new) as (delta' & Heq & Ht). exists delta'. split; [exact Heq|]. intros K HK. by apply (Ht K []), Hnew. }
  induction threads as [|changes threads IH]; intros dbs delta.
  { exists delta. split; [done|]. intros K ks _. cbn. by rewrite app_nil_r. }
  cbn [concat] in Hall |- *. apply Forall_app in Hall as [Hc Hall].
  destruct (merge_keys_eq (E:=E) dbs0 changes Hc dbs new) as (d1 & Heq1 & Ht1). cbn [for_each]. rewrite Heq1. cbn [mbind outcome_bind].
  destruct (IH Hall (foldl (apply_change dbs0) dbs changes) (deltas_merge delta d1)) as (d2 & Heq2 & Ht2). exists d2.
  rewrite foldl_app. split; [exact Heq2|]. intros K ks HK Ht. rewrite writes_app, written_values_app, app_assoc. apply Ht2; [done|].
  assert (Hd1 : tracks (ids_of K d1) (written_values (writes K dbs0 changes))) by (by apply (Ht1 K []), Hnew).
  destruct HK as [->| ->]; by apply tracks_merge.
Qed.

Definition write_level0 (db : FacetDb) (w : FacetGroupKey * option bitmap) : FacetDb :=
  match w.2 with Some b => db_put db w.1 (mkFacetGroupValue 1 b) | None => db_delete db w.1 end.

Lemma writes_cons K dbs0 c changes : writes K dbs0 (c :: changes) =
  match (if decide (key_kind c.1 = K) then new_docids dbs0 c else None) with
  | Some new => (level0_key c.1, new) :: writes K dbs0 changes
  | None => writes K dbs0 changes
  end.
Proof. unfold writes. cbn [omap list_omap]. case_decide; [|done]. by destruct (new_docids dbs0 c). Qed.

Lemma db_of_apply K dbs0 changes : leveled K → ∀ dbs,
  db_of K (foldl (apply_change dbs0) dbs changes) = foldl write_level0 (db_of K dbs) (writes K dbs0 changes).
Proof.
  intros HK. induction changes as [|c changes IH]; intros dbs; [done|]. cbn [foldl]. rewrite IH, writes_cons.
  unfold apply_change. destruct (new_docids dbs0 c) as [new|]; [|case_decide; done]. case_decide as Hk.
  - cbn [foldl]. f_equal. unfold set_docids, write_level0. destruct dbs. rewrite Hk. destruct HK as [->| ->]; cbn; by destruct new.
  - f_equal. unfold set_docids. destruct dbs, HK as [->| ->], (key_kind c.1); done.
Qed.

Lemma elem_of_writes W : NoDup W.*1 → ∀ db e, e ∈ foldl write_level0 db W ↔
  (∃ b, (e.1, Some b) ∈ W ∧ e.2 = mkFacetGroupValue 1 b) ∨ (e.1 ∉ W.*1 ∧ e ∈ db).
Proof.
  induction W as [|[k new] W IH]; intros Hnd db e.
  { cbn. split; [intros He; right; split; [apply not_elem_of_nil|done]|]. by intros [(? & ?%elem_of_nil & _)|[_ ?]]. }
  rewrite fmap_cons in Hnd |- *. apply NoDup_cons in Hnd as [Hk Hnd]. cbn [foldl]. rewrite IH by done. cbn [fst] in *. rewrite not_elem_of_cons.
  assert (Hno : ∀ b, (k, b) ∉ W) by (intros b Hb; apply Hk, list_elem_of_fmap; by exists (k, b)). split.
  - intros [(b & Hb & He)|[Hn He]]; [left; exists b; split; [by right|done]|]. unfold write_level0 in He. cbn in He. destruct new as [b|].
    + apply elem_of_put in He as [->|[He Hne]]; [left; exists b; split; [by left|done]|right; done].
    + apply elem_of_delete in He as [He Hne]. by right.
  - intros [(b & [[= <- <-]|Hb]%elem_of_cons & He)|[[Hne Hn] He]].
    + right. split; [done|]. unfold write_level0. cbn. apply elem_of_put. left. destruct e. cbn in *. by subst.
    + left. by exists b.
    + right. split; [done|]. unfold write_level0. cbn. destruct new; [apply elem_of_put; by right|by apply elem_of_delete].
Qed.

Lemma writes_spec K dbs0 changes w : w ∈ writes K dbs0 changes ↔
  ∃ c, c ∈ changes ∧ key_kind c.1 = K ∧ w.1 = level0_key c.1 ∧ new_docids dbs0 c = Some w.2.
Proof.
  unfold writes. rewrite list_elem_of_omap. split.
  - intros (c & Hc & Hw). exists c. case_decide as Hk; [|done]. destruct (new_docids dbs0 c) as [new|]; [|done]. injection Hw as <-. done.
  - intros (c & Hc & Hk & Hw & Hn). exists c. split; [done|]. rewrite decide_True by done. rewrite Hn. cbn. by rewrite <-Hw, <-surjective_pairing.
Qed.

Lemma level0_key_inj k1 k2 : key_kind k1 = key_kind k2 → level0_key k1 = level0_key k2 → k1 = k2.
Proof. destruct k1, k2. cbn. by intros -> [= -> ->]. Qed.

Lemma writes_nodup K dbs0 changes : NoDup changes.*1 → NoDup (writes K dbs0 changes).*1.
Proof.
  induction changes as [|c changes IH]; [constructor|]. rewrite fmap_cons. intros [Hc Hnd]%NoDup_cons. rewrite writes_cons.
  case_decide as Hk; [|by apply IH]. destruct (new_docids dbs0 c) as [new|]; [|by apply IH]. rewrite fmap_cons. cbn [fst].
  apply NoDup_cons. split; [|by apply IH]. intros ([k new'] & Heq & (c' & Hc' & Hk' & Hw & _)%writes_spec)%list_elem_of_fmap. cbn in Heq, Hw. subst k.
  apply Hc, list_elem_of_fmap. exists c'. split; [|done]. apply level0_key_inj; congruence.
Qed.

(** A change the threads may give: the field has an id, the value can be stored,
    the documents removed are there and there are documents added. *)
Record change_ok (dbs0 : FacetDatabases) (c : FacetKey * DelAdd) : Prop := {
  co_field : 0 ≤ key_field_id c.1 ≤ u16_max;
  co_value : leveled (key_kind c.1) → valid_facet_value (key_value c.1) = true;
  co_deletion : ∀ b, da_deletion c.2 = Some b → b ⊆ default ∅ (facet_docids dbs0 c.1);
  co_addition : ∀ b, da_addition c.2 = Some b → b ≠ ∅;
}.

(** The documents of a key are those it had, without those removed and with those
    added. *)
Lemma new_docids_spec dbs0 c : change_ok dbs0 c → (∀ b, facet_docids dbs0 c.1 = Some b → b ≠ ∅) →
  default ∅ (default (facet_docids dbs0 c.1) (new_docids dbs0 c)) = merge_deladd c.2 (default ∅ (facet_docids dbs0 c.1)) ∧
  ∀ b, new_docids dbs0 c = Some (Some b) → b ≠ ∅.
Proof.
  intros [_ _ Hdel Hadd] Hcur. destruct c as [k [del add]]. cbn [fst snd da_deletion da_addition] in *. unfold new_docids, merge_deladd.
  cbn [fst snd da_deletion da_addition]. set (cur := facet_docids dbs0 k) in *. clearbody cur.
  destruct cur as [cur|]; destruct del as [del|]; destruct add as [add|]; cbn [merge_cbo_bitmaps default from_option id] in *.
  - specialize (Hdel del eq_refl). specialize (Hadd add eq_refl). assert (Heq : (cur ∖ (del ∖ add)) ∪ (add ∖ del) = cur ∖ del ∪ add).
    { apply set_eq. intros x. destruct (decide (x ∈ del)), (decide (x ∈ add)); set_solver. }
    rewrite Heq. unfold bm_is_empty. case_bool_decide as He; [exfalso; set_solver|]. case_bool_decide as Hs; cbn; [done|].
    split; [done|]. by intros b [= <-].
  - unfold bm_is_empty. case_bool_decide as He; cbn; [done|]. case_bool_decide as Hs; cbn; [done|]. split; [done|]. by intros b [= <-].
  - split; [done|]. intros b [= <-]. specialize (Hadd add eq_refl). set_solver.
  - done.
  - specialize (Hdel del eq_refl). split; [set_solver|]. intros b [= <-]. by apply Hadd.
  - specialize (Hdel del eq_refl). split; [set_solver|done].
  - split; [set_solver|]. intros b [= <-]. by apply Hadd.
  - done.
Qed.

Lemma db_get_elem db k v : db_sorted db → db_get db k = Some v ↔ (k, v) ∈ db.
Proof.
  intros Hs. unfold db_get. induction Hs as [|[k' v'] db Hs IH Hx]; [cbn; rewrite elem_of_nil; done|]. cbn [find fst].
  rewrite elem_of_cons. destruct (key_eqb k' k) eqn:Hk.
  - apply key_eqb_spec in Hk as ->. cbn. split; [intros [= ->]; by left|]. intros [[= ->]|Hin]; [done|].
    rewrite Forall_forall in Hx. specialize (Hx _ Hin). cbn in Hx. by rewrite key_lt_irrefl in Hx.
  - rewrite IH. split; [by right|]. intros [[= -> ->]|?]; [|done]. by rewrite (proj2 (key_eqb_spec k' k')) in Hk.
Qed.

Lemma elem_of_level0_values db fid x b : facet_db db →
  (x, b) ∈ level0_values db fid ↔ (mkFacetGroupKey fid 0 x, mkFacetGroupValue 1 b) ∈ db.
Proof.
  intros Hdb. unfold level0_values. rewrite list_elem_of_fmap. split.
  - intros ([[f l y] [s b']] & Heq & [[Hf Hl] Hin]%list_elem_of_filter). cbn in *. injection Heq as -> ->. subst.
    pose proof (fd_size _ Hdb _ Hin eq_refl) as Hs. cbn in Hs. by subst.
  - intros Hin. exists (mkFacetGroupKey fid 0 x, mkFacetGroupValue 1 b). split; [done|]. by apply list_elem_of_filter.
Qed.

Section merged.
Variables (K : FacetKind) (dbs0 : FacetDatabases) (changes : list (FacetKey * DelAdd)).
Hypothesis HK : leveled K.
Hypothesis Hdb0 : facet_db (db_of K dbs0).
Hypothesis Hvalues0 : ∀ fid, values_ok fid (db_of K dbs0).
Hypothesis Hnodup : NoDup changes.*1.
Hypothesis Hchanges : Forall (change_ok dbs0) changes.
Local Notation W := (writes K dbs0 changes).
Local Notation db := (foldl write_level0 (db_of K dbs0) W).

Lemma facet_docids_level0 k : key_kind k = K → facet_docids dbs0 k = fv_bitmap <$> db_get (db_of K dbs0) (level0_key k).
Proof. intros Hk. unfold facet_docids. rewrite Hk. by destruct HK as [->| ->]. Qed.

Lemma current_nonempty k b : key_kind k = K → facet_docids dbs0 k = Some b → b ≠ ∅.
Proof.
  intros Hk. rewrite facet_docids_level0 by done. destruct (db_get _ _) as [v|] eqn:Hv; [|done]. intros [= <-].
  apply db_get_elem in Hv; [|apply Hdb0]. pose proof (fd_size _ Hdb0 _ Hv eq_refl) as Hsz. destruct v as [s b']. cbn in Hsz. subst s.
  apply elem_of_level0_values in Hv; [|done]. by destruct (Hvalues0 _ _ _ Hv).
Qed.

Lemma write_ok w : w ∈ W → fk_level w.1 = O ∧ valid_facet_value (fk_left_bound w.1) = true ∧ ∀ b, w.2 = Some b → b ≠ ∅.
Proof.
  intros (c & Hc & Hk & Hw & Hn)%writes_spec. rewrite Forall_forall in Hchanges. pose proof (Hchanges c Hc) as Hok. rewrite Hw.
  split_and!; [done|apply (co_value _ _ Hok); by rewrite Hk|]. intros b Hb. rewrite Hb in Hn.
  destruct (new_docids_spec dbs0 c Hok) as [_ Hne]; [intros b' Hb'; by eapply current_nonempty|]. by apply Hne.
Qed.

Lemma merged_elem e : e ∈ db ↔ (∃ b, (e.1, Some b) ∈ W ∧ e.2 = mkFacetGroupValue 1 b) ∨ (e.1 ∉ W.*1 ∧ e ∈ db_of K dbs0).
Proof. apply elem_of_writes. by apply writes_nodup. Qed.

Lemma merged_facet_db : facet_db db.
Proof.
  constructor.
  - assert (Hs : db_sorted (db_of K dbs0)) by apply Hdb0. revert Hs. generalize (db_of K dbs0) as d. induction W as [|[k new] W' IH]; intros d Hs; [done|].
    cbn [foldl]. apply IH. unfold write_level0. cbn. destruct new; [by apply db_put_sorted|by apply db_sorted_filter].
  - intros e [(b & _ & ->)|[_ He]]%merged_elem; [done|by apply (fd_size _ Hdb0)].
  - intros e [(b & Hw & _)|[_ He]]%merged_elem; [|by apply (fd_level _ Hdb0)]. apply write_ok in Hw as [Hl _]. cbn in Hl. lia.
Qed.

Lemma merged_values_ok fid : values_ok fid db.
Proof.
  intros x b Hin. apply elem_of_level0_values in Hin; [|apply merged_facet_db]. apply merged_elem in Hin as [(b' & Hw & Heq)|[_ Hin]].
  - cbn in Hw, Heq. injection Heq as <-. destruct (write_ok _ Hw) as (_ & Hv & Hb). split; [exact Hv|by apply Hb].
  - apply elem_of_level0_values in Hin; [|done]. by apply (Hvalues0 fid).
Qed.

Lemma merged_values_changed fid xs : (∀ x, (fid, x) ∈ written_values W → x ∈ xs) → values_changed fid xs (db_of K dbs0) db.
Proof.
  intros Hxs e Hf Hno. assert (Hn : e.1 ∉ W.*1).
  { intros ([k new] & Heq & Hw)%list_elem_of_fmap. cbn in Heq. subst k. apply Hno. destruct (write_ok _ Hw) as [Hl _]. split; [exact Hl|].
    apply Hxs, list_elem_of_fmap. exists (e.1, new). cbn. by rewrite Hf. }
  rewrite merged_elem. split; [|by right]. intros [(b & Hw & _)|[_ ?]]; [|done]. destruct Hn. apply list_elem_of_fmap. by exists (e.1, Some b).
Qed.

(** A field without changes is as it was. *)
Lemma merged_untouched fid : (∀ x, (fid, x) ∉ written_values W) → field_slice db fid = field_slice (db_of K dbs0) fid.
Proof.
  intros Hno. apply db_sorted_ext; [apply db_sorted_filter, merged_facet_db|apply db_sorted_filter, Hdb0|]. intros e. unfold field_slice.
  rewrite !list_elem_of_filter. assert (Hch : fk_field_id e.1 = fid → e ∈ db ↔ e ∈ db_of K dbs0); [|naive_solver].
  intros Hf. apply (merged_values_changed fid []); [|done|intros [_ ?%elem_of_nil]; done]. intros x Hx. by destruct (Hno x).
Qed.

(** The documents of the values: those of the other keys stay. *)
Lemma merged_other fid x : mkFacetKey K fid x ∉ changes.*1 →
  docids_of db (mkFacetGroupKey fid 0 x) = docids_of (db_of K dbs0) (mkFacetGroupKey fid 0 x).
Proof.
  intros Hno. unfold docids_of. f_equal. apply option_eq. intros v. rewrite !db_get_elem by (apply merged_facet_db || apply Hdb0). rewrite merged_elem.
  assert (Hw : ∀ new, (mkFacetGroupKey fid 0 x, new) ∉ W).
  { intros new (c & Hc & Hk & Hw & _)%writes_spec. apply Hno, list_elem_of_fmap. exists c. split; [|done]. destruct c as [[k f y] d]. cbn in *.
    injection Hw as -> ->. by subst. }
  split.
  - intros [(b & Hb & _)|[_ ?]]; [by apply Hw in Hb|done].
  - intros Hin. right. split; [|done]. intros ([k new] & Heq & Hin')%list_elem_of_fmap. cbn in Heq. subst k. by apply Hw in Hin'.
Qed.

Lemma merged_docids c : c ∈ changes → key_kind c.1 = K →
  docids_of db (level0_key c.1) = merge_deladd c.2 (docids_of (db_of K dbs0) (level0_key c.1)).
Proof.
  intros Hc Hk. pose proof (proj1 (Forall_forall _ _) Hchanges c Hc) as Hok.
  destruct (new_docids_spec dbs0 c Hok) as [Hnew _]; [intros b' Hb'; by eapply current_nonempty|].
  unfold docids_of. rewrite facet_docids_level0 in Hnew by done.
  replace (from_option fv_bitmap ∅ (db_get (db_of K dbs0) (level0_key c.1))) with (default ∅ (fv_bitmap <$> db_get (db_of K dbs0) (level0_key c.1)))
    by (by destruct (db_get _ _)). rewrite <-Hnew.
  assert (Huniq : ∀ new, (level0_key c.1, new) ∈ W → new_docids dbs0 c = Some new).
  { intros new (c' & Hc' & Hk' & Hw & Hn)%writes_spec. cbn in Hw, Hn. replace c with c'; [done|].
    assert (Hkey : c'.1 = c.1) by (apply level0_key_inj; congruence).
    apply list_elem_of_lookup in Hc as [i Hi]. apply list_elem_of_lookup in Hc' as [j Hj].
    assert (i = j) as <-; [|congruence]. apply (NoDup_lookup changes.*1 i j c.1 Hnodup); rewrite list_lookup_fmap; [by rewrite Hi|by rewrite Hj; cbn; rewrite Hkey]. }
  destruct (new_docids dbs0 c) as [new|] eqn:Hn; cbn [default from_option id].
  - assert (Hw : (level0_key c.1, new) ∈ W) by (apply writes_spec; exists c; done). destruct new as [b|]; cbn.
    + assert (Hget : db_get db (level0_key c.1) = Some (mkFacetGroupValue 1 b)); [|by rewrite Hget].
      apply db_get_elem; [apply merged_facet_db|]. apply merged_elem. left. by exists b.
    + destruct (db_get db (level0_key c.1)) as [v|] eqn:Hget; [|done]. exfalso. apply db_get_elem in Hget; [|apply merged_facet_db].
      apply merged_elem in Hget as [(b & Hb & _)|[Hno _]]; [by apply Huniq in Hb|]. apply Hno, list_elem_of_fmap. by exists (level0_key c.1, None).
  - assert (Hget : db_get db (level0_key c.1) = db_get (db_of K dbs0) (level0_key c.1)); [|rewrite Hget; by destruct (db_get _ _)].
    apply option_eq. intros v. rewrite !db_get_elem by (apply merged_facet_db || apply Hdb0). rewrite merged_elem. split.
    + intros [(b & Hb & _)|[_ ?]]; [by apply Huniq in Hb|done].
    + intros Hin. right. split; [|done]. intros ([k new] & Heq & Hw)%list_elem_of_fmap. cbn in Heq. subst k. by apply Huniq in Hw.
Qed.
End merged.

(** ** The levels follow *)

Lemma grouped_mono n m fid values slice : (n ≤ m)%nat → grouped n fid values slice → grouped m fid values slice.
Proof. intros Hnm [?|(h & F & ? & ? & ? & ? & ?)]; [by left|right]. exists h, F. split_and!; try done. lia. Qed.

Section follow.
Variables (n : nat) (db0 dbm : FacetDb) (ids : gmap Z FacetFieldIdDelta) (ks : list (Z * string)).
Hypothesis Hn : (n < 254)%nat.
Hypothesis Hdb0 : facet_db db0.
Hypothesis Hvalues0 : ∀ fid, values_ok fid db0.
Hypothesis Hgrouped0 : ∀ fid, grouped n fid (level0_values db0 fid) (field_slice db0 fid).
Hypothesis Hdbm : facet_db dbm.
Hypothesis Hvaluesm : ∀ fid, values_ok fid dbm.
Hypothesis Hchanged : ∀ fid xs, (∀ x, (fid, x) ∈ ks → x ∈ xs) → values_changed fid xs db0 dbm.
Hypothesis Hvalid : ∀ fid x, (fid, x) ∈ ks → valid_facet_value x = true.
Hypothesis Htracks : tracks ids ks.
Local Notation N := (Nat.max 32 (S n)).

(** The levels of the fields of [done] follow the values, the others are as they
    were. *)
Definition followed (done : Z → Prop) (db : FacetDb) : Prop :=
  facet_db db ∧ ∀ fid, (done fid → grouped N fid (level0_values dbm fid) (field_slice db fid)) ∧
    (¬ done fid → field_slice db fid = field_slice dbm fid).

Lemma update_levels_spec done db fid d : followed done db → ¬ done fid → ids !! fid = Some d →
  ∃ db', update_levels db fid d = Ok db' ∧ followed (λ f, done f ∨ f = fid) db'.
Proof.
  intros [Hdb Hf] Hnd Hd. pose proof (proj2 (Hf fid) Hnd) as Hslice.
  assert (Hval : level0_values db fid = level0_values dbm fid) by (by rewrite (level0_slice db), (level0_slice dbm), Hslice).
  assert (Hgo : ∀ db', facet_db db' → (∀ f, f ≠ fid → field_slice db' f = field_slice db f) →
    grouped N fid (level0_values db fid) (field_slice db' fid) → followed (λ f, done f ∨ f = fid) db').
  { intros db' Hdb' Hother Hg. split; [done|]. intros f. destruct (decide (f = fid)) as [->|Hne]; [split; [by rewrite <-Hval|tauto]|].
    rewrite Hother by done. split; [intros [?|?]; [by apply Hf|done]|]. intros Hno. apply Hf. tauto. }
  destruct d as [|v]; cbn [update_levels].
  - unfold bulk_update. cbn [update_level0].
    destruct (bulk_levels_spec FACET_GROUP_SIZE FACET_MIN_LEVEL_SIZE db [fid]) as (db' & -> & Hdb' & _ & Hin & Hout);
      [unfold FACET_GROUP_SIZE; lia|unfold FACET_MIN_LEVEL_SIZE, u64_max; lia|done|apply NoDup_singleton|].
    exists db'. split; [done|]. apply Hgo; [done| |].
    + intros f Hne. apply Hout. by rewrite list_elem_of_singleton.
    + eapply grouped_mono; [|apply Hin; by left]. lia.
  - destruct (execute_grouped FACET_GROUP_SIZE FACET_MIN_LEVEL_SIZE FACET_MAX_GROUP_SIZE fid) with (n := n) (db0 := db0) (db := db)
      (values := level0_values db0 fid) (delta := v) as (db' & Heq & Hdb' & Hother & Hg);
      [unfold FACET_GROUP_SIZE; lia|unfold FACET_MAX_GROUP_SIZE; lia|unfold FACET_MIN_LEVEL_SIZE; lia|done|done|done|done| | | |done|].
    + intros x b. rewrite Hval. apply Hvaluesm.
    + intros e He Hno. transitivity (e ∈ dbm).
      * rewrite (elem_of_slice db), (elem_of_slice dbm), He. by rewrite Hslice.
      * apply (Hchanged fid (facet_value <$> v)); [|done|done]. intros x Hx. destruct (tr_all _ _ Htracks fid x Hx) as (d & Hd' & Hv).
        rewrite Hd in Hd'. injection Hd' as <-. by apply Hv.
    + intros c Hc. apply (Hvalid fid), (tr_only _ _ Htracks fid v); [done|]. apply list_elem_of_fmap. eauto.
    + exists db'. split; [done|]. apply Hgo; [done|done|]. eapply grouped_mono; [|exact Hg]. lia.
Qed.

Lemma followed_ext done done' db : (∀ fid, done fid ↔ done' fid) → followed done db → followed done' db.
Proof. intros Hext [Hdb Hf]. split; [done|]. intros fid. rewrite <-Hext. apply Hf. Qed.

Lemma followed_start : followed (λ _, False) dbm.
Proof. split; [done|]. intros fid. split; [done|done]. Qed.

Lemma elem_of_bulks_first deltas x : x ∈ bulks_first deltas ↔ x ∈ deltas.
Proof. unfold bulks_first. rewrite elem_of_app, !list_elem_of_filter. destruct (is_bulk x.2); naive_solver. Qed.

Lemma bulks_first_nodup deltas : NoDup deltas.*1 → NoDup (bulks_first deltas).*1.
Proof.
  intros Hnd. assert (Hp : bulks_first deltas ≡ₚ deltas); [|by rewrite Hp]. unfold bulks_first. clear.
  induction deltas as [|d deltas IH]; [done|]. destruct (is_bulk d.2) eqn:Hb.
  - rewrite filter_cons_True, (filter_cons_False _ d) by (rewrite Hb; done). cbn [app]. by rewrite IH.
  - rewrite filter_cons_False, (filter_cons_True _ d) by (rewrite Hb; done). rewrite <-Permutation_middle. by rewrite IH.
Qed.

(** A loop that updates the levels of the fields that are required. *)
Lemma follow_loop {St} (f : St → Z * FacetFieldIdDelta → outcome Stuck St) (get : St → FacetDb) (I : St → Prop) (req : Z → Prop) :
  (∀ st fid d, I st →
    (req fid ∧ ∀ db', update_levels (get st) fid d = Ok db' → ∃ st', f st (fid, d) = Ok st' ∧ get st' = db' ∧ I st') ∨
    (¬ req fid ∧ ∃ st', f st (fid, d) = Ok st' ∧ get st' = get st ∧ I st')) →
  ∀ l st done, NoDup l.*1 → (∀ fid, fid ∈ l.*1 → ¬ done fid) → (∀ fid d, (fid, d) ∈ l → ids !! fid = Some d) → I st → followed done (get st) →
  ∃ st', for_each f st l = Ok st' ∧ I st' ∧ followed (λ fid, done fid ∨ (req fid ∧ fid ∈ l.*1)) (get st').
Proof.
  intros Hstep l. induction l as [|[fid d] l IH]; intros st done Hnd Hdone Hids HI Hf.
  { exists st. split_and!; [done|done|]. eapply followed_ext; [|exact Hf]. intros fid. cbn. rewrite elem_of_nil. tauto. }
  rewrite fmap_cons in Hnd, Hdone |- *. cbn [fst] in *. apply NoDup_cons in Hnd as [Hfid Hnd].
  assert (Hids' : ∀ f0 d', (f0, d') ∈ l → ids !! f0 = Some d') by (intros f0 d' Hl; apply Hids; by right).
  cbn [for_each]. destruct (Hstep st fid d HI) as [[Hreq Hgo]|[Hreq (st1 & -> & Hget & HI1)]].
  - destruct (update_levels_spec done (get st) fid d Hf) as (db1 & Heq & Hf1); [apply Hdone; by left|apply Hids; by left|].
    destruct (Hgo db1 Heq) as (st1 & -> & <- & HI1). cbn [mbind outcome_bind].
    destruct (IH st1 (λ f0, done f0 ∨ f0 = fid) Hnd) as (st' & Heq' & HI' & Hf'); [|done|done|done|].
    { intros f0 Hl [Hd| ->]; [|done]. by apply (Hdone f0); [right|]. }
    exists st'. split_and!; [done|done|]. eapply followed_ext; [|exact Hf']. intros f0. cbn. rewrite elem_of_cons.
    split; [|naive_solver]. intros [[?| ->]|?]; [by left|right; split; [done|by left]|right; tauto].
  - cbn [mbind outcome_bind]. destruct (IH st1 done Hnd) as (st' & Heq' & HI' & Hf'); [|done|done|by rewrite Hget|].
    { intros f0 Hl. apply Hdone. by right. }
    exists st'. split_and!; [done|done|]. eapply followed_ext; [|exact Hf']. intros f0. cbn. rewrite elem_of_cons.
    split; [tauto|]. intros [?|[Hr [->|?]]]; [by left|done|by right].
Qed.

Definition drained (deltas : list (Z * FacetFieldIdDelta)) : Prop := deltas ≡ₚ map_to_list ids.

Lemma drained_facts deltas : drained deltas → NoDup (bulks_first deltas).*1 ∧ (∀ fid d, (fid, d) ∈ bulks_first deltas → ids !! fid = Some d) ∧
  ∀ fid, fid ∈ (bulks_first deltas).*1 ↔ is_Some (ids !! fid).
Proof.
  unfold drained. intros Hd. assert (Hin : ∀ fid d, (fid, d) ∈ bulks_first deltas ↔ ids !! fid = Some d).
  { intros fid d. rewrite elem_of_bulks_first, Hd. apply elem_of_map_to_list. }
  split_and!; [apply bulks_first_nodup; rewrite Hd; apply NoDup_fst_map_to_list|intros fid d; by apply Hin|].
  intros fid. rewrite list_elem_of_fmap. split.
  - intros ([f d] & -> & Hl). apply Hin in Hl. by eexists.
  - intros [d Hl]. exists (fid, d). split; [done|]. by apply Hin.
Qed.

(** The loop on the numbers. *)
Lemma number_levels_spec deltas : drained deltas → ∃ db', number_levels dbm deltas = Ok db' ∧ followed (λ fid, is_Some (ids !! fid)) db'.
Proof.
  intros Hd. destruct (drained_facts deltas Hd) as (Hnd & Hids & Hin).
  destruct (follow_loop (λ db '(fid, delta), update_levels db fid delta) id (λ _, True) (λ _, True)) with
    (l := bulks_first deltas) (st := dbm) (done := λ _ : Z, False) as (db' & Heq & _ & Hf);
    [|exact Hnd|tauto|exact Hids|done|apply followed_start|].
  - intros st fid d _. left. split; [done|]. intros db' Hup. by exists db'.
  - exists db'. split; [exact Heq|]. eapply followed_ext; [|exact Hf]. intros fid. cbn. rewrite Hin. tauto.
Qed.

(** The loop on the strings. *)
Definition levels_required {Language} (g : FieldIdMapWithMetadata Language) (rules : list FilterableAttributesRule) (fid : Z) : Prop :=
  ∃ m, fm_metadata g !! fid = Some m ∧ require_facet_level_database (E:=Stuck) m rules = Ok true.

Lemma string_levels_spec {Language} (g : FieldIdMapWithMetadata Language) rules l deltas : fm_wf g → local_ok g l →
  (∀ fid m, fm_metadata g !! fid = Some m → ∃ r, require_facet_level_database (E:=Stuck) m rules = Ok r) → drained deltas →
  ∃ db' l', string_levels g rules (dbm, l) deltas = Ok (db', l') ∧ local_ok g l' ∧
    followed (λ fid, levels_required g rules fid ∧ is_Some (ids !! fid)) db'.
Proof.
  intros Hwf Hl Hreq Hd. destruct (drained_facts deltas Hd) as (Hnd & Hids & Hin). unfold string_levels.
  destruct (follow_loop (string_field g rules) fst (λ st, local_ok g st.2) (levels_required g rules)) with
    (l := bulks_first deltas) (st := (dbm, l)) (done := λ _ : Z, False) as ([db' l'] & Heq & Hl' & Hf);
    [|exact Hnd|tauto|exact Hids|done|apply followed_start|].
  - intros [db lo] fid d Hlo. cbn [fst snd] in *. destruct (global_metadata_spec g lo fid Hwf Hlo) as (lo' & Hm & Hlo'). unfold string_field. rewrite Hm.
    cbn [map_err mbind outcome_bind]. destruct (fm_metadata g !! fid) as [m|] eqn:Hfm; cycle 1.
    { right. split; [intros (m & Hm' & _); congruence|]. by exists (db, lo'). }
    destruct (Hreq fid m Hfm) as [r Hr]. rewrite Hr. cbn [mbind outcome_bind]. destruct r; cbn [negb].
    + left. split; [by exists m|]. intros db' Hup. exists (db', lo'). by rewrite Hup.
    + right. split; [intros (m' & Hm' & Hr'); congruence|]. by exists (db, lo').
  - exists db', l'. split_and!; [exact Heq|exact Hl'|]. eapply followed_ext; [|exact Hf]. intros fid. cbn. rewrite Hin. tauto.
Qed.

(** A field that was followed, or did not change, is grouped over its values. *)
Lemma followed_grouped done db fid : followed done db → done fid ∨ (¬ done fid ∧ ∀ x, (fid, x) ∉ ks) →
  level0_values db fid = level0_values dbm fid ∧ grouped N fid (level0_values db fid) (field_slice db fid).
Proof.
  intros [Hdb Hf] [Hd|[Hnd Hno]].
  - pose proof (proj1 (Hf fid) Hd) as Hg. assert (Heq : level0_values db fid = level0_values dbm fid) by (rewrite level0_slice; by eapply grouped_values).
    by rewrite Heq.
  - pose proof (proj2 (Hf fid) Hnd) as Hs. assert (Heq : level0_values db fid = level0_values dbm fid) by (by rewrite (level0_slice db), (level0_slice dbm), Hs).
    split; [done|]. assert (Hs0 : field_slice db fid = field_slice db0 fid).
    { rewrite Hs. apply db_sorted_ext; [apply db_sorted_filter, Hdbm|apply db_sorted_filter, Hdb0|]. intros e. unfold field_slice. rewrite !list_elem_of_filter.
      assert (Hch : fk_field_id e.1 = fid → e ∈ dbm ↔ e ∈ db0); [|naive_solver]. intros He.
      apply (Hchanged fid []); [intros x Hx; by destruct (Hno x)|done|by intros [_ ?%elem_of_nil]]. }
    rewrite (level0_slice db), Hs0, <-level0_slice. eapply grouped_mono; [|apply Hgrouped0]. lia.
Qed.

(** The values stay. *)
Lemma followed_values done db : (∀ fid, Decision (done fid)) → followed done db → ∀ fid, level0_values db fid = level0_values dbm fid.
Proof.
  intros Hdec [Hdb Hf] fid. destruct (decide (done fid)) as [Hd|Hnd].
  - rewrite level0_slice. eapply grouped_values. by apply Hf.
  - rewrite (level0_slice db), (level0_slice dbm). by rewrite (proj2 (Hf fid) Hnd).
Qed.
End follow.

#[export] Instance levels_required_dec {Language} (g : FieldIdMapWithMetadata Language) rules fid : Decision (levels_required g rules fid).
Proof.
  unfold levels_required. destruct (fm_metadata g !! fid) as [m|]; [|right; by intros (? & ? & _)].
  destruct (require_facet_level_database (E:=Stuck) m rules) as [[]| |] eqn:Hr; [left; by exists m|right; intros (? & [= <-] & ?); congruence..].
Defined.

(** What the merge says of a kind of facets. *)
Lemma merged_follow K n dbs0 changes ids : leveled K → (n < 254)%nat → facet_db (db_of K dbs0) →
  (∀ fid, values_ok fid (db_of K dbs0) ∧ grouped n fid (level0_values (db_of K dbs0) fid) (field_slice (db_of K dbs0) fid)) →
  NoDup changes.*1 → Forall (change_ok dbs0) changes → tracks ids (written_values (writes K dbs0 changes)) →
  let dbm := foldl write_level0 (db_of K dbs0) (writes K dbs0 changes) in
  (∀ fid x, (fid, x) ∈ written_values (writes K dbs0 changes) → valid_facet_value x = true) ∧
  ∀ done db, (∀ fid, Decision (done fid)) → followed n dbm done db → (∀ fid, done fid → is_Some (ids !! fid)) →
    facet_db db ∧
    (∀ c, c ∈ changes → key_kind c.1 = K → docids_of db (level0_key c.1) = merge_deladd c.2 (docids_of (db_of K dbs0) (level0_key c.1))) ∧
    (∀ fid x, mkFacetKey K fid x ∉ changes.*1 → docids_of db (mkFacetGroupKey fid 0 x) = docids_of (db_of K dbs0) (mkFacetGroupKey fid 0 x)) ∧
    ∀ fid, (is_Some (ids !! fid) → done fid) → grouped (Nat.max 32 (S n)) fid (level0_values db fid) (field_slice db fid).
Proof.
  intros HK Hn Hdb0 Hf0 Hnd Hch Ht dbm. assert (Hv0 : ∀ fid, values_ok fid (db_of K dbs0)) by (intros; apply Hf0). split.
  { intros fid x ([k new] & Heq & Hw)%list_elem_of_fmap. cbn in Heq. injection Heq as _ ->. by destruct (write_ok K dbs0 changes HK Hdb0 Hv0 Hch _ Hw) as (_ & Hv & _). }
  intros done db Hdec Hf Hdone. pose proof (merged_facet_db K dbs0 changes HK Hdb0 Hv0 Hnd Hch) as Hdbm. fold dbm in Hdbm.
  assert (Hdocs : ∀ fid x, docids_of db (mkFacetGroupKey fid 0 x) = docids_of dbm (mkFacetGroupKey fid 0 x)).
  { intros fid x. apply docids_of_values; [apply Hf|done|]. by apply (followed_values n dbm done db). }
  split_and!; [apply Hf|..].
  - intros c Hc Hk. unfold level0_key at 1. rewrite Hdocs. by apply merged_docids.
  - intros fid x Hno. rewrite Hdocs. by apply merged_other.
  - intros fid Hr. eapply (followed_grouped n (db_of K dbs0) dbm (written_values (writes K dbs0 changes))); [exact Hn|exact Hdb0|intros; apply Hf0|exact Hdbm| |exact Hf|].
    + intros f xs Hxs. by apply merged_values_changed.
    + destruct (ids !! fid) as [d|] eqn:Hd; [left; apply Hr; by eexists|]. right. split; [intros Hdf; destruct (Hdone fid Hdf); congruence|].
      intros x Hx. destruct (tr_all _ _ Ht fid x Hx) as (d & Hd' & _). congruence.
Qed.

(** ** An indexing of facets *)

(** The facets of a kind, when the indexing starts: values that can be stored, and
    levels that group them. *)
Definition kind_ok (n : nat) (dbs : FacetDatabases) (K : FacetKind) : Prop :=
  facet_db (db_of K dbs) ∧
  ∀ fid, values_ok fid (db_of K dbs) ∧ grouped n fid (level0_values (db_of K dbs) fid) (field_slice (db_of K dbs) fid).

(** The rules of the map of the fields say whether the levels are needed. *)
Lemma required_total {Language} (g : FieldIdMapWithMetadata Language) fid m : fm_wf g → fm_metadata g !! fid = Some m →
  ∃ r, require_facet_level_database (E:=Stuck) m (mb_filterable_attributes (fm_builder g)) = Ok r.
Proof.
  intros Hwf Hm. destruct (fmw_dom _ Hwf _ _ Hm) as [name Hn]. destruct (fmw_metadata _ Hwf _ _ Hn) as (m' & Hfor & Hm').
  rewrite Hm in Hm'. injection Hm' as <-. by eapply require_total.
Qed.

Section indexing.
Context {Language : Type} (g : FieldIdMapWithMetadata Language) (l : LocalFieldsIdsMap).
Variables (n : nat) (dbs0 : FacetDatabases) (changes : list (FacetKey * DelAdd)) (delta : FacetFieldIdsDelta).
Hypothesis Hwf : fm_wf g.
Hypothesis Hlocal : local_ok g l.
Hypothesis Hn : (n < 254)%nat.
Hypothesis Hkinds : ∀ K, leveled K → kind_ok n dbs0 K.
Hypothesis Hnodup : NoDup changes.*1.
Hypothesis Hchanges : Forall (change_ok dbs0) changes.
Hypothesis Htracks : ∀ K, leveled K → tracks (ids_of K delta) (written_values (writes K dbs0 changes)).
Local Notation rules := (mb_filterable_attributes (fm_builder g)).
Local Notation dbm K := (foldl write_level0 (db_of K dbs0) (writes K dbs0 changes)).

(** What an indexing leaves of a kind, for the fields whose levels are followed. *)
Definition kind_followed (K : FacetKind) (needed : Z → Prop) (db : FacetDb) : Prop :=
  facet_db db ∧
  (∀ c, c ∈ changes → key_kind c.1 = K → docids_of db (level0_key c.1) = merge_deladd c.2 (docids_of (db_of K dbs0) (level0_key c.1))) ∧
  (∀ fid x, mkFacetKey K fid x ∉ changes.*1 → docids_of db (mkFacetGroupKey fid 0 x) = docids_of (db_of K dbs0) (mkFacetGroupKey fid 0 x)) ∧
  ∀ fid, needed fid → grouped (Nat.max 32 (S n)) fid (level0_values db fid) (field_slice db fid).

Lemma numbers_follow numbers : numbers ≡ₚ map_to_list (modified_facet_number_ids delta) →
  ∃ db, number_levels (dbm Number) numbers = Ok db ∧ kind_followed Number (λ _, True) db.
Proof.
  intros Hp. assert (HK : leveled Number) by (by left). destruct (Hkinds Number HK) as [Hdb0 Hf0].
  destruct (merged_follow Number n dbs0 changes (modified_facet_number_ids delta) HK Hn Hdb0 Hf0 Hnodup Hchanges (Htracks _ HK)) as [Hvalid Hall].
  destruct (number_levels_spec n (db_of Number dbs0) (dbm Number) (modified_facet_number_ids delta) (written_values (writes Number dbs0 changes)))
    with (deltas := numbers) as (db & Heq & Hf); try done; try (intros; apply Hf0).
  - apply merged_facet_db; try done. intros; apply Hf0.
  - intros fid. apply merged_values_ok; try done. intros; apply Hf0.
  - intros fid xs Hxs. apply merged_values_changed; try done. intros; apply Hf0.
  - by apply (Htracks Number).
  - exists db. split; [done|]. edestruct Hall as (H1 & H2 & H3 & H4); [|exact Hf|done|]; [intros; apply _|].
    split_and!; [done..|]. intros fid _. by apply H4.
Qed.

Lemma strings_follow strings : strings ≡ₚ map_to_list (modified_facet_string_ids delta) →
  ∃ db l', string_levels g rules (dbm KString, l) strings = Ok (db, l') ∧ local_ok g l' ∧ kind_followed KString (levels_required g rules) db.
Proof.
  intros Hp. assert (HK : leveled KString) by (by right). destruct (Hkinds KString HK) as [Hdb0 Hf0].
  destruct (merged_follow KString n dbs0 changes (modified_facet_string_ids delta) HK Hn Hdb0 Hf0 Hnodup Hchanges (Htracks _ HK)) as [Hvalid Hall].
  destruct (string_levels_spec n (db_of KString dbs0) (dbm KString) (modified_facet_string_ids delta) (written_values (writes KString dbs0 changes)))
    with (g := g) (rules := rules) (l := l) (deltas := strings) as (db & l' & Heq & Hl' & Hf); try done; try (intros; apply Hf0).
  - apply merged_facet_db; try done. intros; apply Hf0.
  - intros fid. apply merged_values_ok; try done. intros; apply Hf0.
  - intros fid xs Hxs. apply merged_values_changed; try done. intros; apply Hf0.
  - by apply (Htracks KString).
  - intros fid m. by apply required_total.
  - exists db, l'. split; [done|]. split; [done|]. edestruct Hall as (H1 & H2 & H3 & H4); [|exact Hf|by intros fid []|]; [intros; apply _|].
    split_and!; [done..|]. intros fid Hr. apply H4. done.
Qed.
End indexing.

(** C5. An indexing of facets, the changes of the threads merged into the
    values and then followed in the levels, where no facet value is blank: it succeeds, whatever the order in
    which the tables give the fields; each value that changed has the documents it
    had without those removed and with those added, the other values stay, and the
    levels of the fields of numbers, and of those of strings that need levels, are
    groups of the new values.  The values, those stored and those that change, have 1 to 497
    bytes ([values_ok], [change_ok]): a value whose normalized form is
    blank can be lost by the incremental update ([FacetIncremental.blank_value_lost]).  Each key changes once, its
    documents removed were there, those added are some, its field is a [u16]; the levels were groups of
    the values, and the map of the fields is well formed. *)
Theorem facet_levels_follow {Language} (g : FieldIdMapWithMetadata Language) l n dbs0 threads :
  fm_wf g → local_ok g l → (n < 254)%nat → (∀ K, leveled K → kind_ok n dbs0 K) →
  NoDup (concat threads).*1 → Forall (change_ok dbs0) (concat threads) →
  ∃ dbs delta, merge_and_send_facet_docids (E:=Stuck) dbs0 threads = Ok (dbs, delta) ∧
    ∀ strings numbers, strings ≡ₚ map_to_list (modified_facet_string_ids delta) → numbers ≡ₚ map_to_list (modified_facet_number_ids delta) →
    ∃ dbs' l', compute_facet_level_database g (mb_filterable_attributes (fm_builder g)) dbs l strings numbers = Ok (dbs', l') ∧ local_ok g l' ∧
      kind_followed n dbs0 (concat threads) Number (λ _, True) (facet_id_f64_docids dbs') ∧
      kind_followed n dbs0 (concat threads) KString (levels_required g (mb_filterable_attributes (fm_builder g))) (facet_id_string_docids dbs').
Proof.
  intros Hwf Hl Hn Hk Hnd Hch. destruct (merge_and_send_eq (E:=Stuck) dbs0 threads) as (delta & Heq & Ht); [eapply Forall_impl; [exact Hch|by intros c []]|].
  eexists _, delta. split; [exact Heq|]. intros strings numbers Hs Hnum.
  destruct (numbers_follow n dbs0 (concat threads) delta Hn Hk Hnd Hch Ht numbers Hnum) as (dbn & Hneq & Hnf).
  destruct (strings_follow g l n dbs0 (concat threads) delta Hwf Hl Hn Hk Hnd Hch Ht strings Hs) as (dbs & l' & Hseq & Hl' & Hsf).
  pose proof (db_of_apply Number dbs0 (concat threads) ltac:(by left) dbs0) as Hdn.
  pose proof (db_of_apply KString dbs0 (concat threads) ltac:(by right) dbs0) as Hds.
  unfold compute_facet_level_database. destruct (foldl _ _ _) as [s num nl em ex]. change (num = foldl write_level0 (db_of Number dbs0) (writes Number dbs0 (concat threads))) in Hdn.
  change (s = foldl write_level0 (db_of KString dbs0) (writes KString dbs0 (concat threads))) in Hds. subst s num.
  rewrite Hseq. cbn [mbind outcome_bind]. rewrite Hneq. cbn [mbind outcome_bind]. by eexists _, l'.
Qed.

(** ** A sample *)

(** The numbers of a field in two groups, and the changes of two threads. *)
Definition sample_databases : FacetDatabases := mkFacetDatabases [] (field_entries 5 1 sample_forest) ∅ ∅ ∅.
Definition sample_changes : list (list (FacetKey * DelAdd)) :=
  [[(mkFacetKey Number 5 "b", mkDelAdd (Some {[3]}) (Some {[9]}))];
   [(mkFacetKey Number 5 "bb", mkDelAdd None (Some {[7]})); (mkFacetKey KString 7 "x", mkDelAdd None (Some {[1]}))]].

Lemma sample_kind_ok K : leveled K → kind_ok 1 sample_databases K.
Proof.
  intros [->| ->]; cbn [db_of sample_databases facet_id_f64_docids facet_id_string_docids].
  - split; [apply facet_db_check; [repeat constructor; vm_compute; reflexivity|repeat constructor; cbn; (done || lia)]|].
    intros fid. destruct (decide (fid = 5)) as [->|Hne].
    + split; [apply values_ok_check; repeat constructor; vm_compute; discriminate|]. right. exists 1%nat, sample_forest.
      split_and!; [reflexivity|reflexivity|apply sample_tree|done|lia].
    + assert (Hs : field_slice (field_entries 5 1 sample_forest) fid = []).
      { apply elem_of_nil_inv. intros e [Hf He]%list_elem_of_filter. cbn in He. rewrite !elem_of_cons, elem_of_nil in He.
        destruct He as [->|[->|[->|[->|[->|[]]]]]]; cbn in Hf; congruence. }
      assert (Hv : level0_values (field_entries 5 1 sample_forest) fid = []) by (by rewrite level0_slice, Hs).
      split; [|by left]. intros x b Hin. assert (Hin' : (x, b) ∈ level0_values (field_entries 5 1 sample_forest) fid) by exact Hin.
      rewrite Hv in Hin'. by apply elem_of_nil in Hin'.
  - split; [apply facet_db_check; constructor|]. intros fid. split; [intros x b; by intros ?%elem_of_nil|by left].
Qed.

Lemma facet_levels_follow_witness : ∃ dbs' l',
  compute_facet_level_database sample_field_map (mb_filterable_attributes sample_builder)
    (foldl (apply_change sample_databases) sample_databases (concat sample_changes)) (LocalFieldsIdsMap_new sample_field_map)
    [(7, Incremental [mkFacetFieldIdChange "x"])] [(5, Incremental [mkFacetFieldIdChange "bb"; mkFacetFieldIdChange "b"])] = Ok (dbs', l') ∧
  find_docids_of_facet_within_bounds (facet_id_f64_docids dbs') 5 (Included "b"%string) (Excluded "c"%string) None ∅ = Ok {[2; 7; 9]}.
Proof.
  destruct (facet_levels_follow sample_field_map (LocalFieldsIdsMap_new sample_field_map) 1 sample_databases sample_changes)
    as (dbs & delta & Heq & Hall); [exact sample_field_map_wf|apply local_new_ok, sample_field_map_wf|lia|exact sample_kind_ok|..].
  - cbn. repeat (apply NoDup_cons; split; [rewrite ?elem_of_cons, elem_of_nil; intuition discriminate|]). apply NoDup_nil_2.
  - cbn [concat sample_changes app]. apply Forall_forall. intros c Hc. rewrite !elem_of_cons, elem_of_nil in Hc.
    destruct Hc as [->|[->|[->|[]]]]; constructor; try (cbn; unfold u16_max; lia); try done; intros b [= <-]; [|discriminate..].
    apply (bool_decide_eq_true_1 _). vm_compute. reflexivity.
  - vm_compute in Heq. injection Heq as <- <-.
    destruct (Hall [(7, Incremental [mkFacetFieldIdChange "x"])] [(5, Incremental [mkFacetFieldIdChange "bb"; mkFacetFieldIdChange "b"])])
      as (dbs' & l' & Hc & _); [vm_compute; reflexivity..|].
    exists dbs', l'. split; [exact Hc|]. vm_compute in Hc. injection Hc as <- _. vm_compute. reflexivity.
Defined.
