(* ===== verification/Filter.v ===== *)
(** * Filters

    [crates/milli-core/src/search/facet/filter.rs] and the syntax of filters of
    [crates/filter-parser]: which documents a filter selects, computed with the
    databases of facets of an index. *)

From S2P Require Import Prelude TaskTypes SchedUtils Ids Documents Facet FacetBulk Bytes Codecs AttributeRules.
From Stdlib Require Import Ascii.
From Stdlib Require String.
Open Scope Z_scope.

(** ** The syntax *)

(** A token: a part of the input, and its text when it is not that part. *)
Record Token := mkToken { tk_span : string; tk_text : option string }.
Definition token_value (t : Token) : string := default (tk_span t) (tk_text t).

Module Condition.
Inductive t :=
| GreaterThan (val : Token)
| GreaterThanOrEqual (val : Token)
| Equal (val : Token)
| NotEqual (val : Token)
| Null
| Empty
| Exists
| LowerThan (val : Token)
| LowerThanOrEqual (val : Token)
| Between (from to : Token)
| Contains (keyword word : Token)
| StartsWith (keyword word : Token).

Definition operator (c : t) : string :=
  match c with
  | GreaterThan _ => ">"
  | GreaterThanOrEqual _ => ">="
  | Equal _ => "="
  | NotEqual _ => "!="
  | Null => "IS NULL"
  | Empty => "IS EMPTY"
  | Exists => "EXISTS"
  | LowerThan _ => "<"
  | LowerThanOrEqual _ => "<="
  | Between _ _ => "TO"
  | Contains _ _ => "CONTAINS"
  | StartsWith _ _ => "STARTS WITH"
  end.
End Condition.

Module FilterCondition.
Inductive t :=
| Not (f : t)
| Condition (fid : Token) (op : Condition.t)
| In (fid : Token) (els : list Token)
| Or (subfilters : list t)
| And (subfilters : list t)
| GeoLowerThan (point : Token * Token) (radius : Token)
| GeoBoundingBox (top_right_point bottom_left_point : Token * Token).

Section induction.
Variable P : t → Prop.
Hypothesis HNot : ∀ f, P f → P (Not f).
Hypothesis HCondition : ∀ fid op, P (Condition fid op).
Hypothesis HIn : ∀ fid els, P (In fid els).
Hypothesis HOr : ∀ l, Forall P l → P (Or l).
Hypothesis HAnd : ∀ l, Forall P l → P (And l).
Hypothesis HGeoLowerThan : ∀ point radius, P (GeoLowerThan point radius).
Hypothesis HGeoBoundingBox : ∀ tr bl, P (GeoBoundingBox tr bl).

Fixpoint nested_ind (f : t) : P f :=
  let all := fix all (l : list t) : Forall P l :=
    match l with [] => Forall_nil_2 _ | f :: l => Forall_cons_2 _ _ _ (nested_ind f) (all l) end in
  match f with
  | Not f => HNot f (nested_ind f)
  | Condition fid op => HCondition fid op
  | In fid els => HIn fid els
  | Or l => HOr l (all l)
  | And l => HAnd l (all l)
  | GeoLowerThan point radius => HGeoLowerThan point radius
  | GeoBoundingBox tr bl => HGeoBoundingBox tr bl
  end.
End induction.

(** [use_contains_operator]. *)
Fixpoint use_contains_operator (f : t) : option Token :=
  match f with
  | Condition _ (Condition.Contains keyword _) | Condition _ (Condition.StartsWith keyword _) => Some keyword
  | Not f => use_contains_operator f
  | Or l | And l =>
      (fix find_map (l : list t) := match l with
       | [] => None
       | f :: l => match use_contains_operator f with Some k => Some k | None => find_map l end
       end) l
  | _ => None
  end.

(** [fids]. *)
Fixpoint fids (f : t) (depth : Z) : list Token :=
  if depth =? 0 then []
  else match f with
  | Condition fid _ | In fid _ => [fid]
  | Not f => fids f (Z.max 0 (depth - 1))
  | And l | Or l => concat ((λ f, fids f (Z.max 0 (depth - 1))) <$> l)
  | _ => []
  end.

(** [token_at_depth]. *)
Fixpoint token_at_depth (f : t) (depth : Z) : option Token :=
  match f with
  | Condition fid _ => if depth =? 0 then Some fid else None
  | Or l | And l =>
      (fix first (l : list t) := match l with
       | [] => None
       | f :: l => match token_at_depth f (Z.max 0 (depth - 1)) with Some t => Some t | None => first l end
       end) l
  | GeoLowerThan point _ => if depth =? 0 then Some point.1 else None
  | _ => None
  end.
End FilterCondition.

Definition MAX_FILTER_DEPTH : Z := 2000.

(** ** The index *)

(** What other crates do: parsing a float ([str::parse]), the normalization of
    strings, the distance between two points with the tolerance of the filter, and
    the points of an R-tree from the nearest to the farthest. *)
Class FilterEnv := {
  parse_f64 : string → option Z;
  normalize_facet : string → string;
  Rtree : Type;
  nearest_neighbor_iter : Rtree → Z * Z → list (Z * (Z * Z));
  distance_between_two_points : Z * Z → Z * Z → Z;
  f64_add_epsilon : Z → Z;
}.

(** A float of 64 bits, and points by increasing distance. *)
Class FilterEnvOk `{FilterEnv} := {
  parse_f64_bits s f : parse_f64 s = Some f → 0 ≤ f < 2 ^ 64;
  nearest_sorted tree p : StronglySorted (λ x y,
    F64.lt (distance_between_two_points p y.2) (distance_between_two_points p x.2) = false) (nearest_neighbor_iter tree p);
}.

Section filter.
Context `{FilterEnv}.

Record FilterIndex := mkFilterIndex {
  facet_id_f64_docids : FacetDb;
  facet_id_string_docids : FacetDb;
  facet_id_is_null_docids : gmap Z bitmap;
  facet_id_is_empty_docids : gmap Z bitmap;
  facet_id_exists_docids : gmap Z bitmap;
  documents_ids : bitmap;
  index_fields_ids_map : FieldsIdsMap;
  filterable_attributes_rules : list FilterableAttributesRule;
  geo_rtree : option Rtree;
}.

Inductive FilterError :=
| AttributeNotFilterable (at_token : Token) (attribute : string) (filterable_patterns : gset string)
| BadGeoLat (at_token : Token) (lat : Z)
| BadGeoLng (at_token : Token) (lng : Z)
| BoundingBoxTopIsBelowBottom (at_token : Token) (top bottom : Z)
| TooDeep (at_token : Token)
| InvalidFloat (at_token : Token)
| NonFiniteFloat (at_token : Token)
| FilterOperatorNotAllowed (field : string) (allowed : list string) (operator : string) (rule_index : Z)
| InvalidFilter
| InvalidFilterExpression (value : json)
| EncodingError.

Abbreviation Res := (outcome FilterError).

(** [parse_finite_float]. *)
Definition parse_finite_float (t : Token) : Res Z :=
  match parse_f64 (token_value t) with
  | Some f => if F64.is_finite f then Ok f else Err (NonFiniteFloat t)
  | None => Err (InvalidFloat t)
  end.
Definition finite_float (t : Token) : option Z :=
  match parse_finite_float t with Ok f => Some f | _ => None end.

Definition f64_MAX : Z := 2047 * 2 ^ 52 - 1.
Definition f64_MIN : Z := 2 ^ 63 + f64_MAX.

(** ** Operators *)

Section index.
Variable index : FilterIndex.

(** [generate_filter_error]. *)
Definition generate_filter_error (field_id : Z) (op : Condition.t) (features : FilterableAttributesFeatures) (rule_index : Z) : FilterError :=
  FilterOperatorNotAllowed (default String.EmptyString (field_name (index_fields_ids_map index) field_id))
    (allowed_operators (filter_features features)) (Condition.operator op) rule_index.

(** The bytes of a bound. *)
Definition encode_bound {T} (C : BytesCodec T) (b : Bound T) : Res (Bound string) :=
  match b with
  | Included x => x ← ok_or EncodingError (bytes_encode C x); Ok (Included x)
  | Excluded x => x ← ok_or EncodingError (bytes_encode C x); Ok (Excluded x)
  | Unbounded => Ok Unbounded
  end.

(** The bounds leave nothing between them; [lt] compares values. *)
Definition empty_range {T} (lt : T → T → bool) (left right : Bound T) : bool :=
  match left, right with
  | Included l, Included r => lt r l
  | Included l, Excluded r | Excluded l, Excluded r | Excluded l, Included r => negb (lt l r)
  | _, _ => false
  end.

(** [explore_facet_levels]. *)
Definition explore_facet_levels {T} (C : BytesCodec T) (lt : T → T → bool) (db : FacetDb) (field_id : Z)
    (left right : Bound T) (universe : option bitmap) (output : bitmap) : Res bitmap :=
  if empty_range lt left right then Ok output
  else left ← encode_bound C left;
       right ← encode_bound C right;
       map_err (λ _, EncodingError) (find_docids_of_facet_within_bounds db field_id left right universe output).

(** Whether the features of a field forbid an operator. *)
Definition operator_forbidden (op : Condition.t) (features : FilterableAttributesFeatures) : bool :=
  match op with
  | Condition.GreaterThan _ | Condition.GreaterThanOrEqual _ | Condition.LowerThan _ | Condition.LowerThanOrEqual _
  | Condition.Between _ _ => negb (is_filterable_comparison features)
  | Condition.Empty | Condition.Null | Condition.Exists => negb (is_filterable features)
  | Condition.Equal _ | Condition.NotEqual _ => negb (is_filterable_equality features)
  | Condition.Contains _ _ | Condition.StartsWith _ _ => false
  end.

Definition db_docids (db : FacetDb) (field_id : Z) (bound : string) : bitmap :=
  match db_get db (mkFacetGroupKey field_id 0 bound) with Some v => fv_bitmap v | None => ∅ end.

(** [prefix_iter] on level 0: the entries whose bound starts with a prefix. *)
Definition prefix_iter (db : FacetDb) (field_id : Z) (prefix : string) : FacetDb :=
  filter (λ e, fk_field_id e.1 = field_id ∧ fk_level e.1 = O ∧ starts_with prefix (fk_left_bound e.1) = true) db.

(** The documents with a value, [Condition::Equal]. *)
Definition evaluate_equal (field_id : Z) (val : Token) : Res bitmap :=
  let string_docids := db_docids (facet_id_string_docids index) field_id (normalize_facet (token_value val)) in
  match finite_float val with
  | Some n =>
      bytes ← ok_or EncodingError (bytes_encode OrderedF64Codec n);
      Ok (string_docids ∪ db_docids (facet_id_f64_docids index) field_id bytes)
  | None => Ok string_docids
  end.

(** The numbers, if the values are numbers, then the strings between two bounds. *)
Definition evaluate_range (field_id : Z) (universe : option bitmap) (number_bounds : option (Bound Z * Bound Z))
    (left_str right_str : Bound string) : Res bitmap :=
  output ← match number_bounds with
           | Some (l, r) => explore_facet_levels OrderedF64Codec F64.lt (facet_id_f64_docids index) field_id l r universe ∅
           | None => Ok ∅
           end;
  explore_facet_levels StrRefCodec b_lt (facet_id_string_docids index) field_id left_str right_str universe output.

(** [evaluate_operator]. *)
Definition evaluate_operator (field_id : Z) (universe : option bitmap) (op : Condition.t)
    (features : FilterableAttributesFeatures) (rule_index : Z) : Res bitmap :=
  if operator_forbidden op features then Err (generate_filter_error field_id op features rule_index)
  else match op with
  | Condition.GreaterThan val =>
      evaluate_range field_id universe ((λ n, (Excluded n, Included f64_MAX)) <$> finite_float val) (Excluded (token_value val)) Unbounded
  | Condition.GreaterThanOrEqual val =>
      evaluate_range field_id universe ((λ n, (Included n, Included f64_MAX)) <$> finite_float val) (Included (token_value val)) Unbounded
  | Condition.LowerThan val =>
      evaluate_range field_id universe ((λ n, (Included f64_MIN, Excluded n)) <$> finite_float val) Unbounded (Excluded (token_value val))
  | Condition.LowerThanOrEqual val =>
      evaluate_range field_id universe ((λ n, (Included f64_MIN, Included n)) <$> finite_float val) Unbounded (Included (token_value val))
  | Condition.Between from to =>
      evaluate_range field_id universe
        (match finite_float from, finite_float to with Some f, Some t => Some (Included f, Included t) | _, _ => None end)
        (Included (token_value from)) (Included (token_value to))
  | Condition.Null => Ok (default ∅ (facet_id_is_null_docids index !! field_id))
  | Condition.Empty => Ok (default ∅ (facet_id_is_empty_docids index !! field_id))
  | Condition.Exists => Ok (default ∅ (facet_id_exists_docids index !! field_id))
  | Condition.Equal val => evaluate_equal field_id val
  | Condition.NotEqual val => docids ← evaluate_equal field_id val; Ok (documents_ids index ∖ docids)
  | Condition.Contains _ word =>
      let value := normalize_facet (token_value word) in
      Ok (⋃ ((λ e, fv_bitmap e.2) <$> filter (λ e, str_contains value (fk_left_bound e.1) = true)
               (prefix_iter (facet_id_string_docids index) field_id String.EmptyString)))
  | Condition.StartsWith _ word =>
      Ok (⋃ ((λ e, fv_bitmap e.2) <$> prefix_iter (facet_id_string_docids index) field_id (normalize_facet (token_value word))))
  end.

(** ** Filters *)

(** [is_some_and(|u| u.is_empty())]. *)
Definition nothing_to_do (universe : option bitmap) : bool :=
  match universe with Some u => bool_decide (u = ∅) | None => false end.

(** The field of a token and the rule for it; nothing without one of them. *)
Definition on_field (fid : Token) (k : Z → Z → FilterableAttributesFeatures → Res bitmap) : Res bitmap :=
  match Ids.field_id (index_fields_ids_map index) (token_value fid) with
  | None => Ok ∅
  | Some field_id =>
      match matching_features (token_value fid) (filterable_attributes_rules index) with
      | None => Ok ∅
      | Some (rule_index, features) => k field_id rule_index features
      end
  end.

(** [MultiOps::union] of results: their union, or the first error. *)
Definition union_results {A} (f : A → Res bitmap) (l : list A) : Res bitmap :=
  for_each (λ acc x, b ← f x; Ok (acc ∪ b)) ∅ l.

(** [FilterCondition::Condition] of [inner_evaluate]. *)
Definition evaluate_condition (fid : Token) (op : Condition.t) (universe : option bitmap) : Res bitmap :=
  if nothing_to_do universe then Ok ∅
  else on_field fid (λ field_id rule_index features, evaluate_operator field_id universe op features rule_index).

Definition is_geo_filtering_enabled : bool := existsb has_geo (filterable_attributes_rules index).
Definition geo_not_filterable (t : Token) : FilterError :=
  AttributeNotFilterable t RESERVED_GEO_FIELD_NAME (filtered_matching_patterns (filterable_attributes_rules index) is_filterable).

(** 90, -90, 180 and -180 as floats; [RangeInclusive::contains]. *)
Definition f64_90 : Z := 4636033603912859648.
Definition f64_m90 : Z := 13859405640767635456.
Definition f64_180 : Z := 4640537203540230144.
Definition f64_m180 : Z := 13863909240395005952.
Definition f64_within (lo hi x : Z) : bool := negb (F64.lt x lo) && negb (F64.lt hi x).

(** A latitude and a longitude. *)
Definition check_lat (t : Token) (lat : Z) : Res unit := if f64_within f64_m90 f64_90 lat then Ok tt else Err (BadGeoLat t lat).
Definition check_lng (t : Token) (lng : Z) : Res unit := if f64_within f64_m180 f64_180 lng then Ok tt else Err (BadGeoLng t lng).

(** [FilterCondition::GeoLowerThan]. *)
Definition evaluate_geo_radius (point : Token * Token) (radius : Token) : Res bitmap :=
  if is_geo_filtering_enabled then
    lat ← parse_finite_float point.1;
    lng ← parse_finite_float point.2;
    check_lat point.1 lat;;
    check_lng point.2 lng;;
    radius ← parse_finite_float radius;
    match geo_rtree index with
    | None => Ok ∅
    | Some rtree =>
        Ok (list_to_set (fst <$> take_while (λ p, negb (F64.lt (f64_add_epsilon radius) (distance_between_two_points (lat, lng) p.2)))
              (nearest_neighbor_iter rtree (lat, lng))))
    end
  else Err (geo_not_filterable point.1).

(** [FilterCondition::GeoBoundingBox]: ranges of latitudes and of longitudes, two of
    these when the box goes around the earth. *)
Definition text_token (span : Token) (text : string) : Token := mkToken (tk_span span) (Some text).
Definition evaluate_geo_box (top_right bottom_left : Token * Token) (universe : option bitmap) : Res bitmap :=
  if is_geo_filtering_enabled then
    top ← parse_finite_float top_right.1;
    right ← parse_finite_float top_right.2;
    bottom ← parse_finite_float bottom_left.1;
    left ← parse_finite_float bottom_left.2;
    check_lat top_right.1 top;;
    check_lng top_right.2 right;;
    check_lat bottom_left.1 bottom;;
    check_lng bottom_left.2 left;;
    (if F64.lt top bottom then Err (BoundingBoxTopIsBelowBottom bottom_left.2 top bottom) else Ok tt);;
    let geo_lat_token := text_token top_right.1 "_geo.lat" in
    selected_lat ← evaluate_condition geo_lat_token (Condition.Between bottom_left.1 top_right.1) universe;
    let geo_lng_token := text_token top_right.2 "_geo.lng" in
    selected_lng ←
      (if F64.lt right left then
         let min_lng_token := text_token top_right.2 "-180.0" in
         let max_lng_token := text_token top_right.2 "180.0" in
         left ← evaluate_condition geo_lng_token (Condition.Between bottom_left.2 max_lng_token) universe;
         right ← evaluate_condition geo_lng_token (Condition.Between min_lng_token top_right.2) universe;
         Ok (left ∪ right)
       else evaluate_condition geo_lng_token (Condition.Between bottom_left.2 top_right.2) universe);
    Ok (selected_lat ∩ selected_lng)
  else Err (geo_not_filterable top_right.1).

(** [inner_evaluate]. *)
Fixpoint inner_evaluate (f : FilterCondition.t) (universe : option bitmap) : Res bitmap :=
  if nothing_to_do universe then Ok ∅
  else match f with
  | FilterCondition.Not f =>
      selected ← inner_evaluate f universe;
      Ok (default (documents_ids index) universe ∖ selected)
  | FilterCondition.In fid els =>
      on_field fid (λ field_id rule_index features,
        union_results (λ el, evaluate_operator field_id universe (Condition.Equal el) features rule_index) els)
  | FilterCondition.Condition fid op => evaluate_condition fid op universe
  | FilterCondition.Or subfilters => union_results (λ f, inner_evaluate f universe) subfilters
  | FilterCondition.And [] => Ok ∅
  | FilterCondition.And (first :: rest) =>
      selected ← inner_evaluate first universe;
      (fix and (l : list FilterCondition.t) (acc : bitmap) : Res bitmap :=
         match l with
         | [] => Ok acc
         | f :: l =>
             if bool_decide (acc = ∅) then Ok acc
             else b ← inner_evaluate f (Some acc); and l (acc ∩ b)
         end) rest selected
  | FilterCondition.GeoLowerThan point radius => evaluate_geo_radius point radius
  | FilterCondition.GeoBoundingBox tr bl => evaluate_geo_box tr bl universe
  end.

(** [evaluate]. *)
Definition evaluate (f : FilterCondition.t) : Res bitmap :=
  for_each (λ _ fid,
    if match matching_features (token_value fid) (filterable_attributes_rules index) with
       | Some (_, features) => is_filterable features
       | None => false
       end
    then Ok tt
    else Err (AttributeNotFilterable fid (token_value fid) (filtered_matching_patterns (filterable_attributes_rules index) is_filterable)))
    tt (FilterCondition.fids f MAX_FILTER_DEPTH);;
  inner_evaluate f None.
End index.
End filter.

(** ** Filters of a request *)

(** [FilterCondition::parse]: an error, nothing for a blank text, or a filter. *)
Class FilterParser := { parse_filter : string → option (option FilterCondition.t) }.

Section from_json.
Context `{FilterParser}.

(** [token_at_depth] and [FilterError::TooDeep]. *)
Definition check_depth (f : FilterCondition.t) : outcome FilterError FilterCondition.t :=
  match FilterCondition.token_at_depth f MAX_FILTER_DEPTH with Some t => Err (TooDeep t) | None => Ok f end.

(** [Filter::filter_from_str]. *)
Definition filter_from_str (expression : string) : outcome FilterError (option FilterCondition.t) :=
  match parse_filter expression with
  | None => Err InvalidFilter
  | Some None => Ok None
  | Some (Some f) => f ← check_depth f; Ok (Some f)
  end.

(** The filters of some texts. *)
Fixpoint parse_rules (rules : list string) : outcome FilterError (list FilterCondition.t) :=
  match rules with
  | [] => Ok []
  | rule :: rules => f ← filter_from_str rule; fs ← parse_rules rules; Ok (match f with Some f => f :: fs | None => fs end)
  end.

(** [Filter::from_array]: the conjunction of the entries, an inner array being a
    disjunction. *)
Definition or_of (ors : list FilterCondition.t) : list FilterCondition.t :=
  match ors with [] => [] | [f] => [f] | ors => [FilterCondition.Or ors] end.
Fixpoint array_ands (array : list (list string + string)) : outcome FilterError (list FilterCondition.t) :=
  match array with
  | [] => Ok []
  | inl rules :: array => ors ← parse_rules rules; ands ← array_ands array; Ok (or_of ors ++ ands)
  | inr rule :: array => f ← filter_from_str rule; ands ← array_ands array; Ok (match f with Some f => f :: ands | None => ands end)
  end.
Definition from_array (array : list (list string + string)) : outcome FilterError (option FilterCondition.t) :=
  ands ← array_ands array;
  match ands with
  | [] => Ok None
  | [f] => f ← check_depth f; Ok (Some f)
  | ands => f ← check_depth (FilterCondition.And ands); Ok (Some f)
  end.

(** [Filter::parse_filter_array]. *)
Definition inner_string (v : json) : outcome FilterError string :=
  match v with JString s => Ok s | v => Err (InvalidFilterExpression v) end.
Definition array_entry (v : json) : outcome FilterError (list string + string) :=
  match v with
  | JString s => Ok (inr s)
  | JArray arr => ors ← collect inner_string arr; Ok (inl ors)
  | v => Err (InvalidFilterExpression v)
  end.
Definition parse_filter_array (arr : list json) : outcome FilterError (option FilterCondition.t) :=
  ands ← collect array_entry arr; from_array ands.

(** [Filter::from_json]. *)
Definition from_json (facets : json) : outcome FilterError (option FilterCondition.t) :=
  match facets with
  | JString expr => filter_from_str expr
  | JArray arr => parse_filter_array arr
  | v => Err (InvalidFilterExpression v)
  end.
End from_json.
