(* ===== verification/FilterSpec.v ===== *)
(** * What filters select

    The documents found by [Filter.evaluate] are those that satisfy the filter one
    by one: the levels of the facets, the universes handed from one part of a filter
    to the next and the short cuts change nothing. *)

From S2P Require Import Prelude TaskTypes SchedUtils Ids Documents Facet FacetBulk Bytes Codecs AttributeRules Filter.
From Stdlib Require Import Ascii.
From Stdlib Require String.
Open Scope Z_scope.

(** ** The meaning of a filter for a document *)

(** The order of floats, where -0.0 is after 0.0. *)
Definition f64_before (x y : Z) : bool := F64.lt x y || (F64.eq x y && (x <? y)).
Definition f64_upto (x y : Z) : bool := negb (f64_before y x).

(** A value of a field of a document. *)
Definition has_value (db : FacetDb) (field_id d : Z) (s : string) : Prop := ∃ b, (s, b) ∈ level0_values db field_id ∧ d ∈ b.

Fixpoint any {A} (P : A → Prop) (l : list A) : Prop := match l with [] => False | x :: l => P x ∨ any P l end.
Fixpoint all {A} (P : A → Prop) (l : list A) : Prop := match l with [] => True | x :: l => P x ∧ all P l end.

Section spec.
Context `{FilterEnv}.
Variable index : FilterIndex.

Definition has_string (field_id d : Z) (s : string) : Prop := has_value (facet_id_string_docids index) field_id d s.
Definition has_number (field_id d : Z) (f : Z) : Prop :=
  F64.valid f ∧ ∃ s, bytes_encode OrderedF64Codec f = Some s ∧ has_value (facet_id_f64_docids index) field_id d s.

(** Some number of the document compares to a number of the filter, or some string
    compares to its text. *)
Definition compares (field_id d : Z) (val : Token) (number : Z → Z → bool) (str : string → string → bool) : Prop :=
  (∃ n f, finite_float val = Some n ∧ has_number field_id d f ∧ number n f = true) ∨
  (∃ s, has_string field_id d s ∧ str (token_value val) s = true).

Definition op_holds (field_id : Z) (op : Condition.t) (d : Z) : Prop :=
  match op with
  | Condition.GreaterThan val => compares field_id d val f64_before b_lt
  | Condition.GreaterThanOrEqual val => compares field_id d val f64_upto b_le
  | Condition.LowerThan val => compares field_id d val (λ n f, f64_before f n) (λ v s, b_lt s v)
  | Condition.LowerThanOrEqual val => compares field_id d val (λ n f, f64_upto f n) (λ v s, b_le s v)
  | Condition.Between from to =>
      (∃ n m f, finite_float from = Some n ∧ finite_float to = Some m ∧ has_number field_id d f ∧
        f64_upto n f = true ∧ f64_upto f m = true) ∨
      (∃ s, has_string field_id d s ∧ b_le (token_value from) s = true ∧ b_le s (token_value to) = true)
  | Condition.Null => d ∈ default ∅ (facet_id_is_null_docids index !! field_id)
  | Condition.Empty => d ∈ default ∅ (facet_id_is_empty_docids index !! field_id)
  | Condition.Exists => d ∈ default ∅ (facet_id_exists_docids index !! field_id)
  | Condition.Equal val =>
      has_string field_id d (normalize_facet (token_value val)) ∨ ∃ n, finite_float val = Some n ∧ has_number field_id d n
  | Condition.NotEqual val =>
      d ∈ documents_ids index ∧
      ¬ (has_string field_id d (normalize_facet (token_value val)) ∨ ∃ n, finite_float val = Some n ∧ has_number field_id d n)
  | Condition.Contains _ word => ∃ s, has_string field_id d s ∧ str_contains (normalize_facet (token_value word)) s = true
  | Condition.StartsWith _ word => ∃ s, has_string field_id d s ∧ starts_with (normalize_facet (token_value word)) s = true
  end.

(** The field of a token is known and a rule is about it. *)
Definition field_holds (fid : Token) (P : Z → Prop) : Prop :=
  ∃ field_id rule, Ids.field_id (index_fields_ids_map index) (token_value fid) = Some field_id ∧
    matching_features (token_value fid) (filterable_attributes_rules index) = Some rule ∧ P field_id.

Fixpoint holds (f : FilterCondition.t) (d : Z) : Prop :=
  match f with
  | FilterCondition.Not f => d ∈ documents_ids index ∧ ¬ holds f d
  | FilterCondition.Condition fid op => field_holds fid (λ id, op_holds id op d)
  | FilterCondition.In fid els => field_holds fid (λ id, any (λ el, op_holds id (Condition.Equal el) d) els)
  | FilterCondition.Or l => any (λ f, holds f d) l
  | FilterCondition.And l => l ≠ [] ∧ all (λ f, holds f d) l
  | FilterCondition.GeoLowerThan point radius =>
      ∃ lat lng r tree p, finite_float point.1 = Some lat ∧ finite_float point.2 = Some lng ∧ finite_float radius = Some r ∧
        geo_rtree index = Some tree ∧ (d, p) ∈ nearest_neighbor_iter tree (lat, lng) ∧
        F64.lt (f64_add_epsilon r) (distance_between_two_points (lat, lng) p) = false
  | FilterCondition.GeoBoundingBox tr bl =>
      let lng from to := field_holds (text_token tr.2 "_geo.lng") (λ id, op_holds id (Condition.Between from to) d) in
      field_holds (text_token tr.1 "_geo.lat") (λ id, op_holds id (Condition.Between bl.1 tr.1) d) ∧
      match finite_float tr.2, finite_float bl.2 with
      | Some r, Some l =>
          if F64.lt r l
          then lng bl.2 (text_token tr.2 "180.0") ∨ lng (text_token tr.2 "-180.0") tr.2
          else lng bl.2 tr.2
      | _, _ => False
      end
  end.

(** ** Well-formed indexes *)

(** The levels of a field are groups of its values, as a bulk update builds them. *)
Definition grouped (db : FacetDb) (fid : Z) : Prop :=
  (level0_values db fid = [] ∧ get_first_facet_value db fid = None) ∨ ∃ h F, facet_tree fid db h F.

Record index_ok : Prop := {
  io_numbers fid : grouped (facet_id_f64_docids index) fid;
  io_strings fid : grouped (facet_id_string_docids index) fid;
  io_bytes fid s b : (s, b) ∈ level0_values (facet_id_f64_docids index) fid →
    ∃ f, F64.valid f ∧ bytes_encode OrderedF64Codec f = Some s;
  io_number_docs fid s b : (s, b) ∈ level0_values (facet_id_f64_docids index) fid → b ⊆ documents_ids index;
  io_string_docs fid s b : (s, b) ∈ level0_values (facet_id_string_docids index) fid → b ⊆ documents_ids index;
  io_null fid b : facet_id_is_null_docids index !! fid = Some b → b ⊆ documents_ids index;
  io_empty fid b : facet_id_is_empty_docids index !! fid = Some b → b ⊆ documents_ids index;
  io_exists fid b : facet_id_exists_docids index !! fid = Some b → b ⊆ documents_ids index;
  io_rtree tree p d q : geo_rtree index = Some tree → (d, q) ∈ nearest_neighbor_iter tree p → d ∈ documents_ids index;
}.

Definition in_universe (universe : option bitmap) (d : Z) : Prop := match universe with Some u => d ∈ u | None => True end.
End spec.

(** ** Values and ranges *)

Lemma grouped_sorted db fid : grouped db fid → sorted (level0_values db fid).
Proof. intros [[-> _]|(h & F & Ht)]; [constructor|]. rewrite (level0_values_tree _ _ _ _ Ht). apply Ht. Qed.

Lemma range_search_values db fid left right universe docids : grouped db fid →
  find_docids_of_facet_within_bounds db fid left right universe docids =
    Ok (docids ∪ hits left right universe (level0_values db fid)).
Proof.
  intros [[Hv Hf]|(h & F & Ht)].
  - unfold find_docids_of_facet_within_bounds. rewrite Hf, Hv. cbn. by rewrite (right_id_L ∅ (∪)).
  - rewrite (range_search_leaves _ _ _ _ _ _ _ _ Ht). by rewrite (level0_values_tree _ _ _ _ Ht).
Qed.

Lemma elem_of_hits left right universe l d :
  d ∈ hits left right universe l ↔ in_universe universe d ∧ ∃ s b, (s, b) ∈ l ∧ d ∈ b ∧ in_bounds left right s = true.
Proof.
  unfold hits. rewrite elem_of_union_list. setoid_rewrite list_elem_of_fmap. split.
  - intros (X & ([s b] & -> & [Hb Hin]%list_elem_of_filter) & Hd). destruct universe; cbn in *; set_solver.
  - intros (Hu & s & b & Hin & Hd & Hb). exists (useful universe b). split; [|destruct universe; cbn in *; set_solver].
    exists (s, b). split; [done|]. by apply list_elem_of_filter.
Qed.

(** The documents of a value, from the database. *)
Lemma elem_of_db_docids db fid s d : grouped db fid → d ∈ db_docids db fid s ↔ has_value db fid d s.
Proof.
  intros Hg%grouped_sorted. unfold db_docids, db_get, has_value.
  destruct (find (λ e, key_eqb e.1 (mkFacetGroupKey fid 0 s)) db) as [[k v]|] eqn:Hf; cbn.
  - apply find_some in Hf as [Hin%list_elem_of_In Hk%key_eqb_spec]. cbn in Hk. subst k.
    assert (Hv : (s, fv_bitmap v) ∈ level0_values db fid).
    { unfold level0_values. apply list_elem_of_fmap. exists (mkFacetGroupKey fid 0 s, v). split; [done|]. by apply list_elem_of_filter. }
    split; [intros Hd; by exists (fv_bitmap v)|]. intros (b & Hb & Hd).
    assert (b = fv_bitmap v) as <-; [|done]. clear -Hg Hb Hv. induction Hg as [|x l Hs IH Hx]; [set_solver|].
    pose proof (proj1 (Forall_forall _ _) Hx) as Hx'. apply elem_of_cons in Hb as [<-|Hb]; apply elem_of_cons in Hv as [Heq|Hv]; [congruence| | |by apply IH].
    + apply Hx' in Hv. cbn in Hv. by rewrite b_lt_irrefl in Hv.
    + subst x. apply Hx' in Hb. cbn in Hb. by rewrite b_lt_irrefl in Hb.
  - split; [set_solver|]. intros (b & Hb & _). exfalso. unfold level0_values in Hb. apply list_elem_of_fmap in Hb as ([k v] & [= -> ->] & [[Hfid Hlev] Hin]%list_elem_of_filter).
    apply list_elem_of_In in Hin. pose proof (find_none _ _ Hf _ Hin) as Hk. cbn in *.
    assert (key_eqb k (mkFacetGroupKey fid 0 (fk_left_bound k)) = true); [|congruence]. apply key_eqb_spec. destruct k. cbn in *. congruence.
Qed.

(** Between two bounds, in an order. *)
Definition within {T} (before : T → T → bool) (left right : Bound T) (x : T) : bool :=
  match left with Included l => negb (before x l) | Excluded l => before l x | Unbounded => true end &&
  match right with Included r => negb (before r x) | Excluded r => before x r | Unbounded => true end.

Definition bound_ok {T} (valid : T → Prop) (b : Bound T) : Prop :=
  match b with Included x | Excluded x => valid x | Unbounded => True end.

Section explore.
Context `{FilterEnv} {T : Type} (C : BytesCodec T) (lt before : T → T → bool) (valid : T → Prop).
Hypothesis encode_ok : ∀ x, valid x → is_Some (bytes_encode C x).
Hypothesis encode_lt : ∀ x y bx by_, valid x → valid y → bytes_encode C x = Some bx → bytes_encode C y = Some by_ →
  b_lt bx by_ = before x y.

Lemma encode_bound_spec b : bound_ok valid b →
  ∃ e, encode_bound C b = Ok e ∧ match b, e with
    | Included x, Included s | Excluded x, Excluded s => bytes_encode C x = Some s
    | Unbounded, Unbounded => True
    | _, _ => False
    end.
Proof. destruct b as [x|x|]; cbn; intros Hx; [| |by eexists]; destruct (encode_ok x Hx) as [s Hs]; rewrite Hs; by eexists. Qed.

Lemma explore_spec db fid left right universe output :
  grouped db fid → bound_ok valid left → bound_ok valid right →
  (∀ s b, (s, b) ∈ level0_values db fid → ∃ x, valid x ∧ bytes_encode C x = Some s) →
  (empty_range lt left right = true → ∀ x, valid x → within before left right x = false) →
  ∃ r, explore_facet_levels C lt db fid left right universe output = Ok r ∧
    ∀ d, d ∈ r ↔ d ∈ output ∨ (in_universe universe d ∧ ∃ x s, valid x ∧ bytes_encode C x = Some s ∧
      has_value db fid d s ∧ within before left right x = true).
Proof.
  intros Hg Hl Hr Hdb Hempty. unfold explore_facet_levels. destruct (empty_range lt left right) eqn:He.
  { exists output. split; [done|]. intros d. split; [by left|]. intros [?|(_ & x & s & Hx & _ & _ & Hw)]; [done|].
    by rewrite Hempty in Hw. }
  destruct (encode_bound_spec left Hl) as (el & -> & Hel), (encode_bound_spec right Hr) as (er & -> & Her).
  cbn [mbind outcome_bind]. rewrite range_search_values by done. eexists. split; [reflexivity|]. intros d.
  assert (Hin : ∀ x s, valid x → bytes_encode C x = Some s → in_bounds el er s = within before left right x).
  { intros x s Hx Hs.
    assert (H1 : ∀ y sy, valid y → bytes_encode C y = Some sy → b_lt sy s = before y x) by (intros; by apply encode_lt).
    assert (H2 : ∀ y sy, valid y → bytes_encode C y = Some sy → b_lt s sy = before x y) by (intros; by apply encode_lt).
    unfold in_bounds, within. f_equal.
    - destruct left as [l|l|], el as [sl|sl|]; try done; cbn in Hl; rewrite ?b_le_not_lt, ?(H1 l sl), ?(H2 l sl) by done; done.
    - destruct right as [l|l|], er as [sl|sl|]; try done; cbn in Hr; rewrite ?b_le_not_lt, ?(H1 l sl), ?(H2 l sl) by done; done. }
  rewrite elem_of_union, elem_of_hits. f_equiv. f_equiv. split.
  - intros (s & b & Hsb & Hd & Hb). destruct (Hdb s b Hsb) as (x & Hx & Hs). exists x, s. rewrite <-(Hin x s) by done.
    split; [done|]. split; [done|]. split; [by exists b|done].
  - intros (x & s & Hx & Hs & (b & Hsb & Hd) & Hw). exists s, b. by rewrite (Hin x s).
Qed.
End explore.

(** *** Numbers *)

Lemma f64_before_spec x y : f64_before x y = true ↔ F64.signed x < F64.signed y ∨ (F64.signed x = F64.signed y ∧ x < y).
Proof. unfold f64_before, F64.lt, F64.eq. lia. Qed.

Lemma f64_MAX_valid : F64.valid f64_MAX.
Proof. split; [unfold f64_MAX; lia|reflexivity]. Qed.
Lemma f64_MIN_valid : F64.valid f64_MIN.
Proof. split; [unfold f64_MIN, f64_MAX; lia|reflexivity]. Qed.

Lemma f64_signed_bounds f : F64.valid f → F64.signed f64_MIN ≤ F64.signed f ≤ F64.signed f64_MAX.
Proof.
  intros [Hf Hfin]. change (F64.signed f64_MIN) with (- f64_MAX). change (F64.signed f64_MAX) with f64_MAX.
  unfold F64.is_finite in Hfin. apply Z.ltb_lt in Hfin. unfold F64.signed, f64_MAX.
  assert (0 ≤ F64.magnitude f) by (apply Z.mod_pos_bound; lia). destruct (F64.sign f); lia.
Qed.

Lemma f64_MAX_last f : F64.valid f → f64_before f64_MAX f = false.
Proof.
  intros Hf. pose proof (f64_signed_bounds f Hf) as Hb. apply not_true_iff_false. rewrite f64_before_spec. intros [Hlt|[He Hlt]]; [lia|].
  destruct Hf as [Hf _]. destruct (signed_inj f f64_MAX) as [->|Hz]; [done|apply f64_MAX_valid|done|lia|]. by rewrite <-He in Hz.
Qed.
Lemma f64_MIN_first f : F64.valid f → f64_before f f64_MIN = false.
Proof.
  intros Hf. pose proof (f64_signed_bounds f Hf) as Hb. apply not_true_iff_false. rewrite f64_before_spec. intros [Hlt|[He Hlt]]; [lia|].
  destruct Hf as [Hf _]. destruct (signed_inj f f64_MIN) as [->|Hz]; [done|apply f64_MIN_valid|done|lia|]. by rewrite He in Hz.
Qed.

Lemma encode_f64_ok f : F64.valid f → is_Some (bytes_encode OrderedF64Codec f).
Proof. intros Hf. destruct (codec_roundtrip f Hf) as (b & Hb & _). by exists b. Qed.

(** ** Operators *)

Section operators.
Context `{FilterEnvOk} (index : FilterIndex).
Hypothesis Hok : index_ok index.

Lemma finite_float_valid t n : finite_float t = Some n → F64.valid n.
Proof.
  unfold finite_float, parse_finite_float. destruct (parse_f64 (token_value t)) as [f|] eqn:Hp; [|done].
  destruct (F64.is_finite f) eqn:Hf; [|done]. intros [= <-]. split; [by eapply parse_f64_bits|done].
Qed.

Definition number_bounds_ok (nb : option (Bound Z * Bound Z)) : Prop :=
  match nb with
  | Some (l, r) => bound_ok F64.valid l ∧ bound_ok F64.valid r ∧
      (empty_range F64.lt l r = true → ∀ x, F64.valid x → within f64_before l r x = false)
  | None => True
  end.

Lemma evaluate_range_spec fid universe nb ls rs :
  number_bounds_ok nb → (empty_range b_lt ls rs = true → ∀ s, within b_lt ls rs s = false) →
  ∃ r, evaluate_range index fid universe nb ls rs = Ok r ∧
    ∀ d, d ∈ r ↔ in_universe universe d ∧
      ((∃ l u x, nb = Some (l, u) ∧ has_number index fid d x ∧ within f64_before l u x = true) ∨
       (∃ s, has_string index fid d s ∧ within b_lt ls rs s = true)).
Proof.
  intros Hnb Hs. unfold evaluate_range.
  assert (∃ o, match nb with Some (l, r) => explore_facet_levels OrderedF64Codec F64.lt (facet_id_f64_docids index) fid l r universe ∅ | None => Ok ∅ end = Ok o ∧
    ∀ d, d ∈ o ↔ in_universe universe d ∧ ∃ l u x, nb = Some (l, u) ∧ has_number index fid d x ∧ within f64_before l u x = true) as (o & Ho & Hdo).
  { destruct nb as [[l u]|]; [|exists ∅; split; [done|set_solver]]. destruct Hnb as (Hl & Hu & He).
    destruct (explore_spec OrderedF64Codec F64.lt f64_before F64.valid encode_f64_ok f64_bytes_lt
      (facet_id_f64_docids index) fid l u universe ∅) as (o & -> & Hdo); try done; [by apply Hok|by apply Hok|].
    exists o. split; [done|]. intros d. rewrite Hdo. unfold has_number. split.
    - intros [?%not_elem_of_empty|(Hu' & x & s & Hx & Hs' & Hd & Hw)]; [done|]. split; [done|]. exists l, u, x. naive_solver.
    - intros (Hu' & l' & u' & x & [= <- <-] & [Hx (s & Hs' & Hd)] & Hw). right. split; [done|]. exists x, s. naive_solver. }
  rewrite Ho. cbn [mbind outcome_bind].
  destruct (explore_spec StrRefCodec b_lt b_lt (λ _, True) (λ x _, mk_is_Some _ _ eq_refl)) with
    (db := facet_id_string_docids index) (fid := fid) (left := ls) (right := rs) (universe := universe) (output := o) as (r & -> & Hdr).
  - intros x y bx by_ _ _ [= ->] [= ->]. done.
  - apply Hok.
  - by destruct ls.
  - by destruct rs.
  - intros s b _. by exists s.
  - intros He x _. by apply Hs.
  - exists r. split; [done|]. intros d. rewrite Hdr, Hdo. unfold has_string. cbn [bytes_encode StrRefCodec]. split.
    + intros [[Hu Hn]|(Hu & x & s & _ & [= ->] & Hd & Hw)]; (split; [done|]); [by left|right; eauto].
    + intros [Hu [Hn|(s & Hd & Hw)]]; [left; eauto|right]. split; [done|]. exists s, s. naive_solver.
Qed.

(** The number bounds of each operator. *)
Lemma f64_lt_before x y : F64.lt x y = true → f64_before x y = true.
Proof. unfold f64_before. by intros ->. Qed.

Lemma bounds_above val : number_bounds_ok ((λ n, (Excluded n, Included f64_MAX)) <$> finite_float val) ∧
  number_bounds_ok ((λ n, (Included n, Included f64_MAX)) <$> finite_float val).
Proof.
  destruct (finite_float val) as [n|] eqn:Hn; [|done]. apply finite_float_valid in Hn. cbn.
  pose proof f64_MAX_valid. pose proof (f64_signed_bounds n Hn) as Hb. split; (split; [done|]); (split; [done|]); intros He x Hx.
  - pose proof (f64_signed_bounds x Hx). unfold within. apply andb_false_iff. left. apply not_true_iff_false. rewrite f64_before_spec.
    unfold F64.lt in He. intros [?|[? ?]]; [lia|]. pose proof (f64_MAX_last n Hn) as HM. apply not_true_iff_false in HM. rewrite f64_before_spec in HM.
    pose proof (f64_MAX_last x Hx) as Hm. apply not_true_iff_false in Hm. rewrite f64_before_spec in Hm.
    assert (F64.signed n = F64.signed f64_MAX) by lia. assert (n = f64_MAX ∨ F64.signed n = 0) as [->|Hz]; [| |change (F64.signed f64_MAX) with f64_MAX in *; unfold f64_MAX in *; lia].
    + apply signed_inj; [apply Hn|apply f64_MAX_valid|lia].
    + lia.
  - unfold F64.lt in He. lia.
Qed.

Lemma bounds_below val : number_bounds_ok ((λ n, (Included f64_MIN, Excluded n)) <$> finite_float val) ∧
  number_bounds_ok ((λ n, (Included f64_MIN, Included n)) <$> finite_float val).
Proof.
  destruct (finite_float val) as [n|] eqn:Hn; [|done]. apply finite_float_valid in Hn. cbn.
  pose proof f64_MIN_valid. pose proof (f64_signed_bounds n Hn) as Hb. split; (split; [done|]); (split; [done|]); intros He x Hx.
  - pose proof (f64_signed_bounds x Hx). unfold within. apply andb_false_iff. right. apply not_true_iff_false. rewrite f64_before_spec.
    unfold F64.lt in He. intros [?|[? ?]]; [lia|].
    assert (F64.signed n = F64.signed f64_MIN) by lia. pose proof (f64_MIN_first x Hx) as Hm. apply not_true_iff_false in Hm. rewrite f64_before_spec in Hm.
    assert (n = f64_MIN ∨ F64.signed n = 0) as [->|Hz]; [| |change (F64.signed f64_MIN) with (- f64_MAX) in *; unfold f64_MAX in *; lia].
    + apply signed_inj; [apply Hn|apply f64_MIN_valid|lia].
    + lia.
  - unfold F64.lt in He. lia.
Qed.

Lemma bounds_between from to :
  number_bounds_ok (match finite_float from, finite_float to with Some f, Some t => Some (Included f, Included t) | _, _ => None end).
Proof.
  destruct (finite_float from) as [n|] eqn:Hn, (finite_float to) as [m|] eqn:Hm; try done.
  apply finite_float_valid in Hn, Hm. cbn. split; [done|]. split; [done|]. intros He x Hx. unfold within.
  apply andb_false_iff. rewrite !negb_false_iff, !f64_before_spec. unfold F64.lt in He. lia.
Qed.

Lemma has_number_docs fid d x : has_number index fid d x → d ∈ documents_ids index.
Proof. intros (_ & s & _ & b & Hb & Hd). by eapply io_number_docs. Qed.
Lemma has_string_docs fid d s : has_string index fid d s → d ∈ documents_ids index.
Proof. intros (b & Hb & Hd). by eapply io_string_docs. Qed.

Lemma evaluate_equal_spec fid val :
  ∃ r, evaluate_equal index fid val = Ok r ∧ ∀ d, d ∈ r ↔ op_holds index fid (Condition.Equal val) d.
Proof.
  unfold evaluate_equal. cbn [op_holds]. destruct (finite_float val) as [n|] eqn:Hn.
  - pose proof (finite_float_valid _ _ Hn) as Hv. destruct (encode_f64_ok n Hv) as [bytes Hb]. rewrite Hb. cbn [ok_or mbind outcome_bind].
    eexists. split; [reflexivity|]. intros d. rewrite elem_of_union, !elem_of_db_docids by apply Hok. unfold has_string, has_number.
    f_equiv. split; [intros Hh; exists n; split; [done|]; split; [done|]; by exists bytes|].
    intros (m & [= <-] & _ & s & Hs & Hh). by rewrite Hb in Hs; simplify_eq.
  - eexists. split; [reflexivity|]. intros d. rewrite elem_of_db_docids by apply Hok. unfold has_string. naive_solver.
Qed.

Lemma elem_of_values (P : string → Prop) `{∀ s, Decision (P s)} db fid d :
  d ∈ ⋃ ((λ e, fv_bitmap e.2) <$> filter (λ e, fk_field_id e.1 = fid ∧ fk_level e.1 = O ∧ P (fk_left_bound e.1)) db) ↔
  ∃ s, has_value db fid d s ∧ P s.
Proof.
  rewrite elem_of_union_list. setoid_rewrite list_elem_of_fmap. unfold has_value, level0_values. split.
  - intros (X & ([k v] & -> & [(Hf & Hl & HP) Hin]%list_elem_of_filter) & Hd). exists (fk_left_bound k). split; [|done].
    exists (fv_bitmap v). split; [|done]. apply list_elem_of_fmap. exists (k, v). split; [done|]. by apply list_elem_of_filter.
  - intros (s & (b & Hb & Hd) & HP). apply list_elem_of_fmap in Hb as ([k v] & [= -> ->] & [[Hf Hl] Hin]%list_elem_of_filter).
    exists (fv_bitmap v). split; [|done]. exists (k, v). split; [done|]. by apply list_elem_of_filter.
Qed.

Lemma starts_with_nil s : starts_with String.EmptyString s = true.
Proof. apply starts_with_spec. by exists s. Qed.

(** A range as a comparison. *)
Lemma range_compares fid universe val mk ls rs number str :
  number_bounds_ok (mk <$> finite_float val) →
  (∀ n f, F64.valid n → F64.valid f → within f64_before (mk n).1 (mk n).2 f = number n f) →
  empty_range b_lt ls rs = false → (∀ s, within b_lt ls rs s = str (token_value val) s) →
  ∃ r, evaluate_range index fid universe (mk <$> finite_float val) ls rs = Ok r ∧
    (∀ d, in_universe universe d → d ∈ r ↔ compares index fid d val number str) ∧ r ⊆ documents_ids index.
Proof.
  intros Hnb Hn He Hs. destruct (evaluate_range_spec fid universe (mk <$> finite_float val) ls rs) as (r & -> & Hr).
  - done.
  - congruence.
  - exists r. split; [done|]. split.
    + intros d Hu. rewrite Hr. unfold compares. setoid_rewrite Hs. split.
      * intros [_ [(l & u & x & Hb & Hx & Hw)|Hstr]]; [left|by right]. destruct (finite_float val) as [n|] eqn:Hv; [|done].
        exists n, x. cbn in Hb. simplify_eq. split; [done|]. split; [done|]. rewrite <-Hn; [|by eapply finite_float_valid|apply Hx].
        destruct (mk n). cbn in *. by simplify_eq.
      * intros [(n & x & Hv & Hx & Hw)|Hstr]; (split; [done|]); [left|by right]. exists (mk n).1, (mk n).2, x.
        rewrite Hv. cbn. split; [by destruct (mk n)|]. split; [done|]. rewrite Hn; [done|by eapply finite_float_valid|apply Hx].
    + intros d [_ [(l & u & x & _ & Hx & _)|(s & Hs' & _)]]%Hr; [by eapply has_number_docs|by eapply has_string_docs].
Qed.

Lemma between_spec fid universe from to :
  ∃ r, evaluate_range index fid universe
      (match finite_float from, finite_float to with Some f, Some t => Some (Included f, Included t) | _, _ => None end)
      (Included (token_value from)) (Included (token_value to)) = Ok r ∧
    (∀ d, in_universe universe d → d ∈ r ↔ op_holds index fid (Condition.Between from to) d) ∧ r ⊆ documents_ids index.
Proof.
  destruct (evaluate_range_spec fid universe _ (Included (token_value from)) (Included (token_value to)) (bounds_between from to)) as (r & -> & Hr).
  { cbn. intros Hlt s. unfold within. apply andb_false_iff. rewrite !negb_false_iff.
    destruct (b_lt s (token_value from)) eqn:Hs; [by left|]. right. rewrite b_lt_not_le, negb_false_iff in Hs. by eapply b_lt_le_trans. }
  exists r. split; [done|]. split.
  + intros d Hu. rewrite Hr. split.
    * intros [_ [(l & u & x & Hb & Hx & Hw)|(s & Hs & Hw)]]; [left|right].
      -- destruct (finite_float from) as [n|] eqn:Hn, (finite_float to) as [m|] eqn:Hm; try done. simplify_eq.
         exists n, m, x. apply andb_true_iff in Hw as [? ?]. done.
      -- exists s. apply andb_true_iff in Hw as [? ?]. by rewrite !b_le_not_lt.
    * intros [(n & m & x & Hn & Hm & Hx & H1 & H2)|(s & Hs & H1 & H2)]; (split; [done|]); [left|right].
      -- rewrite Hn, Hm. exists (Included n), (Included m), x. split; [done|]. split; [done|]. unfold within. by apply andb_true_iff.
      -- exists s. split; [done|]. unfold within. rewrite !b_le_not_lt in H1, H2. by rewrite H1, H2.
  + intros d [_ [(l & u & x & _ & Hx & _)|(s & Hs' & _)]]%Hr; [by eapply has_number_docs|by eapply has_string_docs].
Qed.

Lemma contains_spec fid keyword word d :
  d ∈ ⋃ ((λ e, fv_bitmap e.2) <$> filter (λ e, str_contains (normalize_facet (token_value word)) (fk_left_bound e.1) = true)
    (prefix_iter (facet_id_string_docids index) fid String.EmptyString)) ↔ op_holds index fid (Condition.Contains keyword word) d.
Proof.
  cbn [op_holds]. unfold has_string. rewrite <-(elem_of_values (λ s, str_contains (normalize_facet (token_value word)) s = true)).
  unfold prefix_iter. rewrite list_filter_filter. f_equiv. f_equiv. f_equiv. apply list_filter_iff.
  intros e. rewrite starts_with_nil. tauto.
Qed.

Lemma starts_with_op_spec fid keyword word d :
  d ∈ ⋃ ((λ e, fv_bitmap e.2) <$> prefix_iter (facet_id_string_docids index) fid (normalize_facet (token_value word))) ↔
  op_holds index fid (Condition.StartsWith keyword word) d.
Proof.
  cbn [op_holds]. unfold has_string. rewrite <-(elem_of_values (λ s, starts_with (normalize_facet (token_value word)) s = true)).
  unfold prefix_iter. by f_equiv.
Qed.

Lemma evaluate_operator_spec fid universe op features rule_index : operator_forbidden op features = false →
  ∃ r, evaluate_operator index fid universe op features rule_index = Ok r ∧
    (∀ d, in_universe universe d → d ∈ r ↔ op_holds index fid op d) ∧ r ⊆ documents_ids index.
Proof.
  intros Hf. unfold evaluate_operator. rewrite Hf.
  assert (Hdefault : ∀ m : gmap Z bitmap, (∀ b, m !! fid = Some b → b ⊆ documents_ids index) → default ∅ (m !! fid) ⊆ documents_ids index).
  { intros m Hm. destruct (m !! fid) as [b|] eqn:Hb; [by apply Hm|set_solver]. }
  destruct op as [val|val|val|val| | | |val|val|from to|keyword word|keyword word]; cbn [op_holds].
  - apply range_compares; [apply bounds_above| |done|].
    + intros n f _ Hf'. unfold within. cbn. by rewrite f64_MAX_last, andb_true_r.
    + intros s. unfold within. by rewrite andb_true_r.
  - apply range_compares; [apply bounds_above| |done|].
    + intros n f _ Hf'. unfold within. cbn. by rewrite f64_MAX_last, andb_true_r.
    + intros s. unfold within. by rewrite andb_true_r, b_le_not_lt.
  - destruct (evaluate_equal_spec fid val) as (r & -> & Hr). exists r. split; [done|]. split; [intros d _; apply Hr|].
    intros d [?|(n & _ & ?)]%Hr; [by eapply has_string_docs|by eapply has_number_docs].
  - destruct (evaluate_equal_spec fid val) as (r & -> & Hr). cbn [mbind outcome_bind]. eexists. split; [reflexivity|]. split; [|set_solver].
    intros d _. rewrite elem_of_difference, Hr. done.
  - eexists. split; [reflexivity|]. split; [done|]. apply Hdefault, Hok.
  - eexists. split; [reflexivity|]. split; [done|]. apply Hdefault, Hok.
  - eexists. split; [reflexivity|]. split; [done|]. apply Hdefault, Hok.
  - apply range_compares; [apply bounds_below| |done|].
    + intros n f _ Hf'. unfold within. cbn. by rewrite f64_MIN_first.
    + intros s. done.
  - apply range_compares; [apply bounds_below| |done|].
    + intros n f _ Hf'. unfold within. cbn. by rewrite f64_MIN_first.
    + intros s. unfold within. cbn. by rewrite b_le_not_lt.
  - apply between_spec.
  - eexists. split; [reflexivity|]. split; [intros d _; apply (contains_spec fid keyword word)|].
    intros d Hd. apply (contains_spec fid keyword word) in Hd as (s & Hs & _). by eapply has_string_docs.
  - eexists. split; [reflexivity|]. split; [intros d _; apply (starts_with_op_spec fid keyword word)|].
    intros d Hd. apply (starts_with_op_spec fid keyword word) in Hd as (s & Hs & _). by eapply has_string_docs.
Qed.
End operators.

(** ** Filters *)

Lemma any_elem {A} (P : A → Prop) l : any P l ↔ ∃ x, x ∈ l ∧ P x.
Proof. induction l as [|y l IH]; cbn; [set_solver|]. rewrite IH. set_solver. Qed.
Lemma all_elem {A} (P : A → Prop) l : all P l ↔ ∀ x, x ∈ l → P x.
Proof. induction l as [|y l IH]; cbn; [set_solver|]. rewrite IH. set_solver. Qed.

Lemma union_results_Ok {A} (f : A → outcome FilterError bitmap) l : ∀ acc r,
  for_each (λ acc x, b ← f x; Ok (acc ∪ b)) acc l = Ok r →
  (∀ x, x ∈ l → ∃ b, f x = Ok b) ∧ ∀ d, d ∈ r ↔ d ∈ acc ∨ ∃ x b, x ∈ l ∧ f x = Ok b ∧ d ∈ b.
Proof.
  induction l as [|x l IH]; intros acc r; cbn; [intros [= <-]; split; set_solver|].
  destruct (f x) as [b| |] eqn:Hf; cbn; [|done|done]. intros [Hall Hr]%IH. setoid_rewrite elem_of_cons.
  split; [intros y [->|Hy]; [by exists b|by apply Hall]|]. intros d. rewrite Hr, elem_of_union. clear Hr Hall IH. split.
  - intros [[?|?]|(y & c & Hy & Hc & Hd)]; [by left|right; exists x, b; auto|right; exists y, c; auto].
  - intros [?|(y & c & [->|Hy] & Hc & Hd)]; [auto| |right; eauto]. rewrite Hf in Hc. injection Hc as ->. auto.
Qed.

Lemma union_results_total {A} (f : A → outcome FilterError bitmap) l : (∀ x, x ∈ l → ∃ b, f x = Ok b) →
  ∀ acc, ∃ r, for_each (λ acc x, b ← f x; Ok (acc ∪ b)) acc l = Ok r.
Proof.
  induction l as [|x l IH]; intros Hl acc; cbn; [eauto|]. destruct (Hl x) as [b ->]; [by left|]. cbn. apply IH. intros y Hy. apply Hl. by right.
Qed.

Lemma take_while_sorted {A} (P : A → bool) (R : A → A → Prop) l : StronglySorted R l →
  (∀ x y, R x y → P y = true → P x = true) → ∀ x, x ∈ take_while P l ↔ x ∈ l ∧ P x = true.
Proof.
  intros Hs HP. induction Hs as [|y l Hs IH Hy]; intros x; cbn; [set_solver|]. destruct (P y) eqn:Hp.
  - rewrite !elem_of_cons, IH. naive_solver.
  - split; [set_solver|]. intros [[->|Hx]%elem_of_cons Hpx]; [congruence|].
    rewrite (HP y x) in Hp; [done|by apply (proj1 (Forall_forall _ _) Hy)|done].
Qed.

Section filters.
Context `{FilterEnvOk} (index : FilterIndex).
Hypothesis Hok : index_ok index.

Definition universe_ok (universe : option bitmap) : Prop :=
  match universe with Some u => u ⊆ documents_ids index | None => True end.

(** A result is right: it decides the documents of the universe, and has documents
    only. *)
Definition right_result (universe : option bitmap) (P : Z → Prop) (r : bitmap) : Prop :=
  (∀ d, in_universe universe d → d ∈ r ↔ P d) ∧ r ⊆ documents_ids index.

Lemma nothing_right universe P : nothing_to_do universe = true → right_result universe P ∅.
Proof.
  destruct universe as [u|]; [|done]. cbn. intros ->%bool_decide_eq_true. split; [intros d; cbn; set_solver|set_solver].
Qed.

(** The operators of a field are allowed by its rule. *)
Definition field_allows (fid : Token) (op : Condition.t) : bool :=
  match Ids.field_id (index_fields_ids_map index) (token_value fid), matching_features (token_value fid) (filterable_attributes_rules index) with
  | Some _, Some (_, features) => negb (operator_forbidden op features)
  | _, _ => true
  end.

Lemma evaluate_condition_total fid op universe : field_allows fid op = true → ∃ r, evaluate_condition index fid op universe = Ok r.
Proof.
  unfold field_allows, evaluate_condition, on_field. destruct (nothing_to_do universe); [eauto|].
  destruct (Ids.field_id _ _) as [id|]; [|eauto]. destruct (matching_features _ _) as [[ri features]|]; [|eauto].
  intros Ha%negb_true_iff. destruct (evaluate_operator_spec index Hok id universe op features ri Ha) as (r & Hr & _). eauto.
Qed.

Lemma on_field_Ok fid k universe P r : on_field index fid k = Ok r →
  (∀ id ri features, matching_features (token_value fid) (filterable_attributes_rules index) = Some (ri, features) →
    Ids.field_id (index_fields_ids_map index) (token_value fid) = Some id →
    k id ri features = Ok r → right_result universe (P id) r) →
  right_result universe (λ d, field_holds index fid (λ id, P id d)) r.
Proof.
  unfold on_field, field_holds. destruct (Ids.field_id _ _) as [id|]; [|intros [= <-]; split; [intros d _; naive_solver set_solver|set_solver]].
  destruct (matching_features _ _) as [[ri features]|]; [|intros [= <-]; split; [intros d _; naive_solver set_solver|set_solver]].
  intros Hk Hr. destruct (Hr id ri features eq_refl eq_refl Hk) as [Hm Hd]. split; [|done]. intros d Hu. rewrite Hm by done. naive_solver.
Qed.

Lemma evaluate_operator_Ok fid universe op features ri r :
  evaluate_operator index fid universe op features ri = Ok r → right_result universe (op_holds index fid op) r.
Proof.
  intros He. destruct (operator_forbidden op features) eqn:Hf; [unfold evaluate_operator in He; by rewrite Hf in He|].
  destruct (evaluate_operator_spec index Hok fid universe op features ri Hf) as (r' & He' & Hr). rewrite He in He'. by simplify_eq.
Qed.

Lemma evaluate_condition_Ok fid op universe r : evaluate_condition index fid op universe = Ok r →
  right_result universe (λ d, field_holds index fid (λ id, op_holds index id op d)) r.
Proof.
  unfold evaluate_condition. destruct (nothing_to_do universe) eqn:Hn; [intros [= <-]; by apply nothing_right|].
  intros Hr. eapply on_field_Ok; [exact Hr|]. intros id ri features _ _. apply evaluate_operator_Ok.
Qed.

(** *** Points *)

Lemma parse_finite_Ok t f : parse_finite_float t = Ok f ↔ finite_float t = Some f.
Proof. unfold finite_float. destruct (parse_finite_float t); naive_solver. Qed.

Lemma evaluate_geo_radius_Ok point radius universe r : evaluate_geo_radius index point radius = Ok r →
  right_result universe (holds index (FilterCondition.GeoLowerThan point radius)) r.
Proof.
  unfold evaluate_geo_radius. destruct (is_geo_filtering_enabled index); [|done].
  intros (lat & Hlat%parse_finite_Ok & (lng & Hlng%parse_finite_Ok & ([] & _ & ([] & _ & (rad & Hrad%parse_finite_Ok & Hr)%bind_Ok)%bind_Ok)%bind_Ok)%bind_Ok)%bind_Ok.
  cbn [holds]. destruct (geo_rtree index) as [tree|] eqn:Ht; [|injection Hr as <-; split; [intros d _; split; [set_solver|naive_solver]|set_solver]].
  injection Hr as <-. set (R := λ p : Z * (Z * Z), negb (F64.lt (f64_add_epsilon rad) (distance_between_two_points (lat, lng) p.2))).
  assert (Hin : ∀ d, d ∈ (list_to_set (fst <$> take_while R (nearest_neighbor_iter tree (lat, lng))) : bitmap) ↔
    ∃ p, (d, p) ∈ nearest_neighbor_iter tree (lat, lng) ∧ F64.lt (f64_add_epsilon rad) (distance_between_two_points (lat, lng) p) = false).
  { intros d. rewrite elem_of_list_to_set, list_elem_of_fmap.
    setoid_rewrite (take_while_sorted R _ _ (nearest_sorted tree (lat, lng))); [|unfold R, F64.lt; intros ? ? Hxy Hy; lia].
    unfold R. split; [intros ([d' p] & -> & Hp & Hlt); exists p; by apply negb_true_iff in Hlt|].
    intros (p & Hp & Hlt). exists (d, p). split; [done|]. split; [done|]. by apply negb_true_iff. }
  split; [|intros d (p & Hp & _)%Hin; by eapply io_rtree]. intros d _. rewrite Hin. split.
  - intros (p & Hp & Hlt). exists lat, lng, rad, tree, p. done.
  - intros (lat' & lng' & rad' & tree' & p & H1 & H2 & H3 & H4 & H5). simplify_eq. by exists p.
Qed.

Lemma right_result_proper universe P Q r : right_result universe P r → (∀ d, P d ↔ Q d) → right_result universe Q r.
Proof. intros [Hr Hd] HPQ. split; [|done]. intros d Hu. by rewrite Hr, HPQ. Qed.

Lemma union_results_right {A} universe (f : A → outcome FilterError bitmap) (P : A → Z → Prop) l r :
  (∀ x b, x ∈ l → f x = Ok b → right_result universe (P x) b) → union_results f l = Ok r →
  right_result universe (λ d, any (λ x, P x d) l) r.
Proof.
  intros Hf [Hall Hr]%union_results_Ok. split.
  - intros d Hu. rewrite Hr, any_elem. split.
    + intros [?%not_elem_of_empty|(x & b & Hx & Hb & Hd)]; [done|]. exists x. split; [done|]. by apply (Hf x b Hx Hb).
    + intros (x & Hx & HP). right. destruct (Hall x Hx) as [b Hb]. exists x, b. split; [done|]. split; [done|].
      by apply (Hf x b Hx Hb).
  - intros d [?%not_elem_of_empty|(x & b & Hx & Hb & Hd)]%Hr; [done|]. by apply (Hf x b Hx Hb).
Qed.

Lemma right_result_and universe P Q a b : right_result universe P a → right_result universe Q b → right_result universe (λ d, P d ∧ Q d) (a ∩ b).
Proof. intros [Ha1 Ha2] [Hb1 Hb2]. split; [|set_solver]. intros d Hu. rewrite elem_of_intersection, Ha1, Hb1 by done. done. Qed.
Lemma right_result_or universe P Q a b : right_result universe P a → right_result universe Q b → right_result universe (λ d, P d ∨ Q d) (a ∪ b).
Proof. intros [Ha1 Ha2] [Hb1 Hb2]. split; [|set_solver]. intros d Hu. rewrite elem_of_union, Ha1, Hb1 by done. done. Qed.

Lemma evaluate_geo_box_Ok tr bl universe r : evaluate_geo_box index tr bl universe = Ok r →
  right_result universe (holds index (FilterCondition.GeoBoundingBox tr bl)) r.
Proof.
  unfold evaluate_geo_box. destruct (is_geo_filtering_enabled index); [|done].
  intros (top & _ & (rt & Hrt%parse_finite_Ok & (bot & _ & (lt & Hlt%parse_finite_Ok & Hr)%bind_Ok)%bind_Ok)%bind_Ok)%bind_Ok.
  do 5 (apply bind_Ok in Hr as ([] & _ & Hr)). apply bind_Ok in Hr as (lat & Hlat%evaluate_condition_Ok & Hr).
  apply bind_Ok in Hr as (lng & Hlng & [= <-]). cbn [holds]. rewrite Hrt, Hlt. apply right_result_and; [done|].
  destruct (F64.lt rt lt); [|by apply evaluate_condition_Ok].
  apply bind_Ok in Hlng as (a & Ha%evaluate_condition_Ok & Hlng). apply bind_Ok in Hlng as (b & Hb%evaluate_condition_Ok & [= <-]).
  by apply right_result_or.
Qed.

(** *** All filters *)

Lemma inner_evaluate_Ok f : ∀ universe r, universe_ok universe → inner_evaluate index f universe = Ok r →
  right_result universe (holds index f) r.
Proof.
  induction f as [f IH|fid op|fid els|l IH|l IH|point radius|tr bl] using FilterCondition.nested_ind; intros universe r Hu;
    cbn [inner_evaluate]; (destruct (nothing_to_do universe) eqn:Hn; [intros [= <-]; by apply nothing_right|]).
  - intros (s & [Hs _]%IH & [= <-])%bind_Ok; [|done]. cbn [holds]. split.
    + intros d Hd. rewrite elem_of_difference, Hs by done. destruct universe; cbn in *; set_solver.
    + destruct universe; cbn in *; set_solver.
  - apply evaluate_condition_Ok.
  - intros Hr. cbn [holds]. eapply on_field_Ok; [exact Hr|]. intros id ri features _ _ Hk.
    eapply union_results_right; [|exact Hk]. intros el b _. apply evaluate_operator_Ok.
  - cbn [holds]. apply union_results_right. intros g b Hg. apply (proj1 (Forall_forall _ _) IH); done.
  - destruct IH as [|g l Hg Hl]; [intros [= <-]; split; [intros d _; cbn; set_solver|set_solver]|].
    intros (s & Hs%Hg & Hr)%bind_Ok; [|done]. clear Hg Hn. cbn [holds].
    assert (Hgoal : right_result universe (λ d, holds index g d ∧ all (λ f, holds index f d) l) r).
    { revert s Hs Hr. generalize (holds index g). induction Hl as [|g' l Hg' _ IH]; intros P s Hs Hr.
      - injection Hr as <-. eapply right_result_proper; [exact Hs|]. intros d. cbn. tauto.
      - case_bool_decide as He.
        + injection Hr as <-. subst s. split; [|set_solver]. intros d Hd. destruct Hs as [Hs _]. cbn. rewrite Hs by done. set_solver.
        + apply bind_Ok in Hr as (b & Hb & Hr). apply Hg' in Hb as [Hb Hbd]; [|apply Hs].
          eapply right_result_proper; [apply (IH (λ d, P d ∧ holds index g' d) (s ∩ b)); [|exact Hr]|intros d; cbn; tauto].
          destruct Hs as [Hs Hsd]. split; [|set_solver]. intros d Hd. rewrite elem_of_intersection, Hs by done.
          split; [intros [HP Hdb]|intros [HP Hh]]; (split; [done|]); apply Hb; try done; by apply Hs. }
    eapply right_result_proper; [exact Hgoal|]. intros d. cbn. naive_solver.
  - apply evaluate_geo_radius_Ok.
  - apply evaluate_geo_box_Ok.
Qed.

(** *** Errors *)

(** A latitude and a longitude, and the operators a filter uses, are accepted. *)
Definition point_ok (point : Token * Token) : bool :=
  match finite_float point.1, finite_float point.2 with
  | Some lat, Some lng => f64_within f64_m90 f64_90 lat && f64_within f64_m180 f64_180 lng
  | _, _ => false
  end.

Fixpoint accepted (f : FilterCondition.t) : bool :=
  match f with
  | FilterCondition.Not f => accepted f
  | FilterCondition.Condition fid op => field_allows fid op
  | FilterCondition.In fid els => forallb (λ el, field_allows fid (Condition.Equal el)) els
  | FilterCondition.Or l | FilterCondition.And l => forallb accepted l
  | FilterCondition.GeoLowerThan point radius =>
      is_geo_filtering_enabled index && point_ok point && bool_decide (is_Some (finite_float radius))
  | FilterCondition.GeoBoundingBox tr bl =>
      is_geo_filtering_enabled index && point_ok tr && point_ok bl &&
      match finite_float tr.1, finite_float bl.1 with Some top, Some bottom => negb (F64.lt top bottom) | _, _ => false end &&
      field_allows (text_token tr.1 "_geo.lat") (Condition.Between bl.1 tr.1) &&
      field_allows (text_token tr.2 "_geo.lng") (Condition.Between bl.2 tr.2)
  end.

Lemma point_ok_spec point : point_ok point = true → ∃ lat lng,
  parse_finite_float point.1 = Ok lat ∧ parse_finite_float point.2 = Ok lng ∧ check_lat point.1 lat = Ok tt ∧ check_lng point.2 lng = Ok tt.
Proof.
  unfold point_ok, check_lat, check_lng. setoid_rewrite parse_finite_Ok. destruct (finite_float point.1) as [lat|]; [|done]. destruct (finite_float point.2) as [lng|]; [|done].
  intros [Hlat Hlng]%andb_true_iff. exists lat, lng. by rewrite Hlat, Hlng.
Qed.

Lemma evaluate_geo_radius_total point radius : accepted (FilterCondition.GeoLowerThan point radius) = true →
  ∃ r, evaluate_geo_radius index point radius = Ok r.
Proof.
  cbn [accepted]. rewrite !andb_true_iff, bool_decide_eq_true. intros [[Hg (lat & lng & E1 & E2 & E3 & E4)%point_ok_spec] [rad Hr%parse_finite_Ok]].
  unfold evaluate_geo_radius. rewrite Hg, E1. cbn. rewrite E2. cbn. rewrite E3. cbn. rewrite E4. cbn. rewrite Hr. cbn. case_match; eauto.
Qed.

Lemma evaluate_geo_box_total tr bl universe : accepted (FilterCondition.GeoBoundingBox tr bl) = true →
  ∃ r, evaluate_geo_box index tr bl universe = Ok r.
Proof.
  cbn [accepted]. rewrite !andb_true_iff.
  intros [[[[[Hg (top & rt & T1 & T2 & T3 & T4)%point_ok_spec] (bot & lft & B1 & B2 & B3 & B4)%point_ok_spec] Hle] Hlat] Hlng].
  apply parse_finite_Ok in T1 as T1', B1 as B1'. rewrite T1', B1' in Hle. apply negb_true_iff in Hle.
  unfold evaluate_geo_box. rewrite Hg, T1. cbn [mbind outcome_bind]. rewrite T2. cbn [mbind outcome_bind]. rewrite B1. cbn [mbind outcome_bind].
  rewrite B2. cbn [mbind outcome_bind]. rewrite T3. cbn [mbind outcome_bind]. rewrite T4. cbn [mbind outcome_bind]. rewrite B3. cbn [mbind outcome_bind].
  rewrite B4. cbn [mbind outcome_bind]. rewrite Hle. cbn [mbind outcome_bind].
  destruct (evaluate_condition_total _ _ universe Hlat) as [a ->]. cbn [mbind outcome_bind].
  assert (Hany : ∀ from to, ∃ r, evaluate_condition index (text_token tr.2 "_geo.lng") (Condition.Between from to) universe = Ok r).
  { intros from to. apply evaluate_condition_total. exact Hlng. }
  destruct (F64.lt rt lft).
  - destruct (Hany bl.2 (text_token tr.2 "180.0")) as [b ->]. cbn [mbind outcome_bind].
    destruct (Hany (text_token tr.2 "-180.0") tr.2) as [c ->]. cbn [mbind outcome_bind]. eauto.
  - destruct (Hany bl.2 tr.2) as [b ->]. cbn [mbind outcome_bind]. eauto.
Qed.

Lemma inner_evaluate_total f : accepted f = true → ∀ universe, ∃ r, inner_evaluate index f universe = Ok r.
Proof.
  induction f as [f IH|fid op|fid els|l IH|l IH|point radius|tr bl] using FilterCondition.nested_ind; intros Ha universe;
    cbn [inner_evaluate]; (destruct (nothing_to_do universe) eqn:Hn; [eauto|]).
  - destruct (IH Ha universe) as [s ->]. cbn. eauto.
  - by apply evaluate_condition_total.
  - unfold on_field. cbn in Ha. unfold field_allows in Ha.
    destruct (Ids.field_id _ _) as [id|]; [|eauto]. destruct (matching_features _ _) as [[ri features]|]; [|eauto].
    apply union_results_total. intros el Hel. apply list_elem_of_In in Hel. apply (proj1 (forallb_forall _ _) Ha), negb_true_iff in Hel.
    destruct (evaluate_operator_spec index Hok id universe _ features ri Hel) as (r & Hr & _). eauto.
  - cbn in Ha. apply union_results_total. intros g Hg. apply (proj1 (Forall_forall _ _) IH g Hg).
    apply (proj1 (forallb_forall _ _) Ha). by apply list_elem_of_In.
  - cbn in Ha. destruct IH as [|g l Hg Hl]; [eauto|]. cbn in Ha. apply andb_true_iff in Ha as [Hag Ha].
    destruct (Hg Hag universe) as [s ->]. cbn [mbind outcome_bind]. clear Hg Hag Hn. revert s Ha.
    induction Hl as [|g' l Hg' _ IH]; intros s Ha; [eauto|]. cbn in Ha. apply andb_true_iff in Ha as [Hag Ha].
    case_bool_decide; [eauto|]. destruct (Hg' Hag (Some s)) as [b ->]. cbn [mbind outcome_bind]. by apply IH.
  - by apply evaluate_geo_radius_total.
  - by apply evaluate_geo_box_total.
Qed.

(** A field of a filter that no rule lets be filtered. *)
Definition not_filterable (fid : Token) : bool :=
  match matching_features (token_value fid) (filterable_attributes_rules index) with
  | Some (_, features) => negb (is_filterable features)
  | None => true
  end.

Lemma evaluate_checks f :
  evaluate index f = match find not_filterable (FilterCondition.fids f MAX_FILTER_DEPTH) with
                     | Some fid => Err (AttributeNotFilterable fid (token_value fid)
                                     (filtered_matching_patterns (filterable_attributes_rules index) is_filterable))
                     | None => inner_evaluate index f None
                     end.
Proof.
  unfold evaluate. induction (FilterCondition.fids f MAX_FILTER_DEPTH) as [|fid l IH]; [done|]. cbn [for_each find].
  unfold not_filterable. destruct (matching_features _ _) as [[ri features]|]; cbn; [|done].
  destruct (is_filterable features); cbn; [apply IH|done].
Qed.
End filters.

(** C8. Evaluating a filter on a well-formed index: when some attribute is
    not filterable, the error names the first one; otherwise, a result is exactly
    the documents that satisfy the filter one by one, whatever the levels of the
    facets and the universes passed along; and there is a result whenever the
    operators are allowed by the rules of their fields and the points are on the
    earth. *)
Theorem evaluate_spec `{FilterEnvOk} (index : FilterIndex) (f : FilterCondition.t) : index_ok index →
  match find (not_filterable index) (FilterCondition.fids f MAX_FILTER_DEPTH) with
  | Some fid => evaluate index f = Err (AttributeNotFilterable fid (token_value fid)
                  (filtered_matching_patterns (filterable_attributes_rules index) is_filterable))
  | None => (accepted index f = true → ∃ r, evaluate index f = Ok r) ∧
            (∀ r, evaluate index f = Ok r → ∀ d, d ∈ r ↔ holds index f d)
  end.
Proof.
  intros Hok. rewrite evaluate_checks. destruct (find _ _) as [fid|]; [done|]. split.
  - intros Ha. by apply inner_evaluate_total.
  - intros r Hr d. by apply (inner_evaluate_Ok index Hok f None r I Hr).
Qed.

(** ** Filters of a request *)

Section requests.
Context `{FilterEnv} `{FilterParser} (index : FilterIndex).

(** The filter of a text holds; a blank text always does. *)
Definition rule_holds (rule : string) (d : Z) : Prop :=
  match parse_filter rule with Some (Some f) => holds index f d | _ => True end.
(** Some filter of an inner array holds, the blank ones apart; an array of blank
    texts always does. *)
Definition is_blank (rule : string) : bool := match parse_filter rule with Some None => true | _ => false end.
Definition entry_holds (entry : list string + string) (d : Z) : Prop :=
  match entry with
  | inl rules => all (λ rule, is_blank rule = true) rules ∨ any (λ rule, is_blank rule = false ∧ rule_holds rule d) rules
  | inr rule => rule_holds rule d
  end.

Lemma filter_from_str_Ok rule f : filter_from_str rule = Ok f → parse_filter rule = Some f.
Proof.
  unfold filter_from_str. destruct (parse_filter rule) as [[g|]|]; [|by intros [= <-]|done].
  unfold check_depth. destruct (FilterCondition.token_at_depth g MAX_FILTER_DEPTH); [done|]. by intros [= <-].
Qed.

Lemma parse_rules_Ok rules : ∀ fs, parse_rules rules = Ok fs →
  (fs = [] ↔ all (λ rule, is_blank rule = true) rules) ∧
  ∀ d, any (λ f, holds index f d) fs ↔ any (λ rule, is_blank rule = false ∧ rule_holds rule d) rules.
Proof.
  induction rules as [|rule rules IH]; intros fs; [by intros [= <-]|]. cbn [parse_rules].
  intros (f & Hf%filter_from_str_Ok & (gs & [Hg1 Hg2]%IH & [= <-])%bind_Ok)%bind_Ok. cbn [all any].
  assert (Hbl : is_blank rule = bool_decide (f = None)) by (unfold is_blank; rewrite Hf; by destruct f).
  rewrite Hbl. unfold rule_holds. rewrite Hf. destruct f as [f|]; cbn; split.
  - naive_solver.
  - intros d. rewrite Hg2. naive_solver.
  - naive_solver.
  - intros d. rewrite Hg2. naive_solver.
Qed.

Lemma or_of_holds ors d : all (λ f, holds index f d) (or_of ors) ↔ ors = [] ∨ any (λ f, holds index f d) ors.
Proof. destruct ors as [|f [|g ors]]; cbn; naive_solver. Qed.

Lemma array_ands_Ok array : ∀ ands, array_ands array = Ok ands →
  ∀ d, all (λ f, holds index f d) ands ↔ all (λ e, entry_holds e d) array.
Proof.
  induction array as [|[rules|rule] array IH]; intros ands; cbn [array_ands]; [by intros [= <-]| |].
  - intros (ors & [Ho1 Ho2]%parse_rules_Ok & (rest & Hr & [= <-])%bind_Ok)%bind_Ok d. pose proof (IH _ Hr d) as IHd.
    rewrite all_elem. setoid_rewrite elem_of_app. cbn [all entry_holds]. rewrite <-IHd, <-Ho1, <-Ho2, <-or_of_holds, !all_elem. naive_solver.
  - intros (f & Hf%filter_from_str_Ok & (rest & Hr & [= <-])%bind_Ok)%bind_Ok d. pose proof (IH _ Hr d) as IHd.
    cbn [all entry_holds]. unfold rule_holds. rewrite Hf. destruct f; cbn; rewrite IHd; naive_solver.
Qed.

(** The filter of an array holds when each entry does, and an inner array when one
    of its texts does; without any filter, everything does. *)
Theorem from_array_holds array f : from_array array = Ok f →
  ∀ d, match f with Some f => holds index f d | None => True end ↔ all (λ e, entry_holds e d) array.
Proof.
  unfold from_array. intros (ands & Ha & Hf)%bind_Ok d. rewrite <-(array_ands_Ok array ands Ha d).
  destruct ands as [|g [|g' ands]]; [by injection Hf as <-|..];
    apply bind_Ok in Hf as (h & Hh & [= <-]); unfold check_depth in Hh; destruct (FilterCondition.token_at_depth _ _); try done;
    injection Hh as <-; cbn; naive_solver.
Qed.
End requests.

(** ** A sample *)

#[local] Instance sample_env : FilterEnv := {|
  parse_f64 s := if String.eqb s "10" then Some 4621819117588971520 else None;
  normalize_facet s := s;
  Rtree := unit;
  nearest_neighbor_iter _ _ := [];
  distance_between_two_points _ _ := 0;
  f64_add_epsilon r := r;
|}.
#[local] Instance sample_env_ok : FilterEnvOk.
Proof.
  split; [|constructor]. cbn. intros s f. destruct (String.eqb s "10"); [|done]. intros [= <-]. lia.
Qed.

(** Three strings and the number 10. *)
Definition sample_number : string := default String.EmptyString (bytes_encode OrderedF64Codec 4621819117588971520).
Definition sample_numbers : list (tree 0) := [(sample_number, {[3; 9]})].
Definition sample_index : FilterIndex := {|
  facet_id_f64_docids := field_entries 5 0 sample_numbers;
  facet_id_string_docids := field_entries 5 1 sample_forest;
  facet_id_is_null_docids := ∅;
  facet_id_is_empty_docids := ∅;
  facet_id_exists_docids := {[5 := {[1; 2; 3; 4; 9]}]};
  documents_ids := {[1; 2; 3; 4; 8; 9]};
  index_fields_ids_map := mkFieldsIdsMap {["color"%string := 5]} {[5 := "color"%string]} (Some 6);
  filterable_attributes_rules := [RuleField "color"];
  geo_rtree := None;
|}.

Lemma sample_grouped_numbers fid : grouped (facet_id_f64_docids sample_index) fid.
Proof.
  destruct (decide (fid = 5)) as [->|Hne]; [right; exists 0%nat, sample_numbers|left].
  - split; [exists [], []; rewrite app_nil_r; by repeat constructor|by repeat constructor|done|repeat constructor|vm_compute; discriminate].
  - unfold level0_values, get_first_facet_value, level0_bounds. rewrite list_filter_none; [done|].
    repeat constructor; cbn; intros [? _]; by subst.
Qed.
Lemma sample_grouped_strings fid : grouped (facet_id_string_docids sample_index) fid.
Proof.
  destruct (decide (fid = 5)) as [->|Hne]; [right; exists 1%nat, sample_forest|left].
  - split; [exists [], []; rewrite app_nil_r; by repeat constructor|repeat constructor; done|done|repeat constructor; vm_compute; reflexivity|vm_compute; discriminate].
  - unfold level0_values, get_first_facet_value, level0_bounds. rewrite list_filter_none; [done|].
    repeat constructor; cbn; intros [? _]; by subst.
Qed.

Lemma sample_values fid s b db (P : string → bitmap → Prop) :
  (s, b) ∈ level0_values db fid → Forall (λ e, P (fk_left_bound e.1) (fv_bitmap e.2)) db → P s b.
Proof.
  intros ([k v] & [= -> ->] & [_ Hin]%list_elem_of_filter)%list_elem_of_fmap Hall. by apply (proj1 (Forall_forall _ _) Hall (k, v)).
Qed.

Lemma sample_index_ok : index_ok sample_index.
Proof.
  split; try apply sample_grouped_numbers; try apply sample_grouped_strings.
  - intros fid s b Hs. eapply (sample_values _ _ _ _ (λ s _, ∃ f, F64.valid f ∧ bytes_encode OrderedF64Codec f = Some s) Hs).
    repeat constructor. exists 4621819117588971520. split; [split; [lia|reflexivity]|vm_compute; reflexivity].
  - intros fid s b Hs. eapply (sample_values _ _ _ _ (λ _ b, b ⊆ documents_ids sample_index) Hs). repeat constructor; cbn; set_solver.
  - intros fid s b Hs. eapply (sample_values _ _ _ _ (λ _ b, b ⊆ documents_ids sample_index) Hs). repeat constructor; cbn; set_solver.
  - by intros fid b.
  - by intros fid b.
  - intros fid b. cbn. rewrite lookup_singleton_Some. intros [_ <-]. set_solver.
  - done.
Qed.

Definition tok (s : string) : Token := mkToken s None.
(** [color >= b AND (NOT color = c)], and [color <= 10]. *)
Definition sample_filter : FilterCondition.t :=
  FilterCondition.And [FilterCondition.Condition (tok "color") (Condition.GreaterThanOrEqual (tok "b"));
                       FilterCondition.Not (FilterCondition.Condition (tok "color") (Condition.Equal (tok "c")))].

Lemma evaluate_spec_witness :
  evaluate sample_index sample_filter = Ok {[2; 3]} ∧ (∀ d, d ∈ ({[2; 3]} : bitmap) ↔ holds sample_index sample_filter d) ∧
  evaluate sample_index (FilterCondition.Condition (tok "color") (Condition.LowerThanOrEqual (tok "10"))) = Ok {[3; 9]}.
Proof.
  assert (He : evaluate sample_index sample_filter = Ok {[2; 3]}) by (vm_compute; reflexivity).
  split; [exact He|]. split; [|vm_compute; reflexivity].
  exact (proj2 (evaluate_spec sample_index sample_filter sample_index_ok) _ He).
Defined.

(** An operator on a field that no document has: not even the documents without the
    field are different from a value, while they are not equal to it. *)
Example not_equal_on_unknown_field :
  let index := mkFilterIndex [] [] ∅ ∅ ∅ {[1; 2]} (mkFieldsIdsMap ∅ ∅ (Some 0)) [RuleField "color"] None in
  evaluate index (FilterCondition.Condition (tok "color") (Condition.NotEqual (tok "red"))) = Ok ∅ ∧
  evaluate index (FilterCondition.Not (FilterCondition.Condition (tok "color") (Condition.Equal (tok "red")))) = Ok {[1; 2]}.
Proof. split; vm_compute; reflexivity. Qed.
