(* ===== verification/JsonHelpers.v ===== *)
(** * JSON helpers

    The crates [flatten-serde-json], [permissive-json-pointer] and
    [json-depth-checker]: flattening the nested fields of a document, selecting
    and mapping some of its fields, and telling from the text of a value whether
    it must be flattened. *)

From S2P Require Import Prelude TaskTypes SchedUtils Facet Ids Documents Bytes.
From Stdlib Require Import Ascii.
From Stdlib Require String.
Open Scope Z_scope.

(** Induction on nested values. *)
Section json_induction.
Variable P : json → Prop.
Hypothesis Hleaf : ∀ v, (match v with JArray _ | JObject _ => False | _ => True end) → P v.
Hypothesis Harray : ∀ l, Forall P l → P (JArray l).
Hypothesis Hobject : ∀ o, Forall (λ e, P e.2) o → P (JObject o).

Fixpoint json_nested_ind (v : json) : P v :=
  match v with
  | JArray l => Harray l ((fix go l := match l return Forall P l with [] => Forall_nil_2 _ | x :: l => Forall_cons_2 _ _ _ (json_nested_ind x) (go l) end) l)
  | JObject o => Hobject o ((fix go o := match o return Forall (λ e, P e.2) o with
                              | [] => Forall_nil_2 _
                              | e :: o => Forall_cons_2 _ _ _ (json_nested_ind e.2) (go o) end) o)
  | v => Hleaf v I
  end.
End json_induction.

(** [serde_json::Map], which keeps the order of insertion. *)
Abbreviation JsonMap := (list (string * json)).

Fixpoint object_get (key : string) (m : JsonMap) : option json :=
  match m with
  | [] => None
  | (k, v) :: m => if String.eqb k key then Some v else object_get key m
  end.

Fixpoint object_insert (key : string) (value : json) (m : JsonMap) : JsonMap :=
  match m with
  | [] => [(key, value)]
  | (k, v) :: m => if String.eqb k key then (k, value) :: m else (k, v) :: object_insert key value m
  end.

Lemma object_get_insert key value m k :
  object_get k (object_insert key value m) = if String.eqb key k then Some value else object_get k m.
Proof.
  induction m as [|[k' v'] m IH]; cbn; [done|]. destruct (String.eqb_spec k' key) as [->|Hne]; cbn.
  - by destruct (String.eqb key k).
  - rewrite IH. destruct (String.eqb_spec k' k) as [->|]; [|done].
    destruct (String.eqb_spec key k) as [->|]; [done|done].
Qed.

(** ** Flattening *)

Module Flatten.

(** [insert_value]. *)
Definition insert_value (base_json : JsonMap) (key : string) (to_insert : json) (came_from_array : bool) : JsonMap :=
  match object_get key base_json with
  | Some (JArray array) => object_insert key (JArray (array ++ [to_insert])) base_json
  | Some value => object_insert key (JArray [value; to_insert]) base_json
  | None => object_insert key (if came_from_array then JArray [to_insert] else to_insert) base_json
  end.

(** [format!("{base_key}.{key}")]. *)
Definition new_key (base_key : option string) (key : string) : string :=
  match base_key with Some base_key => base_key +:+ "." +:+ key | None => key end.

(** The entries seen and the flattened object. *)
Abbreviation State := (JsonMap * list (string * json))%type.

(** What [insert_object] and [insert_array] do with a value under a key, found in
    an array or not. *)
Fixpoint insert_in (key : string) (in_array : bool) (value : json) (st : State) : State :=
  match value with
  | JArray array =>
      (fix insert_array (array : list json) (st : State) : State :=
         match array with
         | [] => st
         | value :: array => insert_array array (insert_in key true value st)
         end) array st
  | JObject object =>
      (fix insert_object (object : JsonMap) (st : State) : State :=
         match object with
         | [] => st
         | (k, value) :: object =>
             let key := new_key (Some key) k in
             insert_object object (insert_in key false value (st.1, st.2 ++ [(key, value)]))
         end) object st
  | value => (insert_value st.1 key value in_array, st.2)
  end.

(** [insert_object] at the root. *)
Fixpoint insert_root (object : JsonMap) (st : State) : State :=
  match object with
  | [] => st
  | (k, value) :: object => insert_root object (insert_in (new_key None k) false value (st.1, st.2 ++ [(new_key None k, value)]))
  end.

(** [obj.entry(key).or_insert(old_val)]. *)
Definition or_insert (obj : JsonMap) (entry : string * json) : JsonMap :=
  match object_get entry.1 obj with Some _ => obj | None => object_insert entry.1 entry.2 obj end.

(** [flatten]. *)
Definition flatten (json : JsonMap) : JsonMap :=
  let '(obj, all_entries) := insert_root json ([], []) in
  foldl or_insert obj all_entries.

(** ** What flattening gives *)

(** The values that are neither arrays nor objects under a key, with their keys
    and whether they come from an array; and the keys of the objects on the way,
    with their values. *)
Fixpoint leaves (key : string) (in_array : bool) (value : json) : list (string * (bool * json)) :=
  match value with
  | JArray array => concat (leaves key true <$> array)
  | JObject object => concat ((λ e, leaves (new_key (Some key) e.1) false e.2) <$> object)
  | value => [(key, (in_array, value))]
  end.
Fixpoint entries (key : string) (value : json) : list (string * json) :=
  match value with
  | JArray array => concat (entries key <$> array)
  | JObject object => concat ((λ e, (new_key (Some key) e.1, e.2) :: entries (new_key (Some key) e.1) e.2) <$> object)
  | _ => []
  end.
Definition root_leaves (object : JsonMap) : list (string * (bool * json)) := concat ((λ e, leaves e.1 false e.2) <$> object).
Definition root_entries (object : JsonMap) : list (string * json) := concat ((λ e, e :: entries e.1 e.2) <$> object).

(** The values of a key together. *)
Definition gathered (values : list (bool * json)) : option json :=
  match values with
  | [] => None
  | [(false, value)] => Some value
  | values => Some (JArray (snd <$> values))
  end.

Definition at_key {A} (key : string) (l : list (string * A)) : list A := snd <$> filter (λ e, e.1 = key) l.

Lemma insert_in_spec value : ∀ key in_array st,
  insert_in key in_array value st =
    (foldl (λ m e, insert_value m e.1 e.2.2 e.2.1) st.1 (leaves key in_array value), st.2 ++ entries key value).
Proof.
  induction value as [v Hv|l IH|o IH] using json_nested_ind; intros key in_array [m es].
  - destruct v; try done; cbn; by rewrite app_nil_r.
  - cbn. revert m es. induction IH as [|v l Hv _ IH]; intros m es; cbn; [by rewrite app_nil_r|].
    rewrite Hv, IH. cbn. by rewrite foldl_app, <-app_assoc.
  - cbn. revert m es. induction IH as [|[k v] o Hv _ IH]; intros m es; cbn; [by rewrite app_nil_r|].
    cbn in Hv. rewrite Hv, IH. cbn. by rewrite foldl_app, <-!app_assoc.
Qed.

Lemma insert_root_spec object : ∀ st,
  insert_root object st = (foldl (λ m e, insert_value m e.1 e.2.2 e.2.1) st.1 (root_leaves object), st.2 ++ root_entries object).
Proof.
  induction object as [|[k v] o IH]; intros [m es]; cbn [insert_root]; [cbn; by rewrite app_nil_r|].
  rewrite IH, insert_in_spec. unfold root_leaves, root_entries. cbn. by rewrite foldl_app, <-!app_assoc.
Qed.

(** Leaves are neither arrays nor objects. *)
Definition is_leaf (v : json) : Prop := match v with JArray _ | JObject _ => False | _ => True end.

Lemma leaves_leaf value : ∀ key in_array, Forall (λ e, is_leaf e.2.2) (leaves key in_array value).
Proof.
  induction value as [v Hv|l IH|o IH] using json_nested_ind; intros key in_array.
  - destruct v; try done; repeat constructor.
  - cbn. apply Forall_concat, Forall_fmap. eapply Forall_impl; [exact IH|]. intros v Hv. apply Hv.
  - cbn. apply Forall_concat, Forall_fmap. eapply Forall_impl; [exact IH|]. intros [k v] Hv. apply Hv.
Qed.

Lemma insert_value_get m key v b k : is_leaf v →
  object_get k (insert_value m key v b) =
    if String.eqb key k
    then Some (match object_get key m with
               | Some (JArray a) => JArray (a ++ [v])
               | Some w => JArray [w; v]
               | None => if b then JArray [v] else v
               end)
    else object_get k m.
Proof.
  intros _. unfold insert_value. destruct (object_get key m) as [[]|]; by rewrite object_get_insert.
Qed.

Lemma gathered_snoc l b v : Forall (λ e, is_leaf e.2) l →
  gathered (l ++ [(b, v)]) = Some (match gathered l with
    | Some (JArray a) => JArray (a ++ [v])
    | Some w => JArray [w; v]
    | None => if b then JArray [v] else v
    end).
Proof.
  intros Hl. destruct l as [|[[] w] [|e l]]; cbn; try done.
  - by destruct b.
  - by rewrite fmap_app.
  - apply Forall_cons in Hl as [Hw _]. by destruct w.
  - by rewrite fmap_app.
Qed.

Lemma foldl_insert_get l : ∀ k, Forall (λ e, is_leaf e.2.2) l →
  object_get k (foldl (λ m e, insert_value m e.1 e.2.2 e.2.1) [] l) = gathered (at_key k l).
Proof.
  induction l as [|[key [b v]] l IH] using rev_ind; intros k Hl; [done|].
  apply Forall_app in Hl as [Hl [Hv _]%Forall_cons]. rewrite foldl_app. cbn [foldl fst snd].
  rewrite insert_value_get by done. unfold at_key. rewrite filter_app, fmap_app.
  destruct (String.eqb_spec key k) as [->|Hne].
  - rewrite filter_cons_True, filter_nil by done. cbn [fmap list_fmap snd].
    rewrite gathered_snoc.
    2: { apply Forall_fmap, Forall_forall. intros e [_ He]%list_elem_of_filter.
         exact (proj1 (Forall_forall _ _) Hl e He). }
    rewrite IH by done. done.
  - rewrite filter_cons_False, filter_nil by done. cbn. rewrite app_nil_r. by apply IH.
Qed.

Lemma or_insert_get l : ∀ m k, object_get k (foldl or_insert m l) =
  match object_get k m with Some v => Some v | None => head (at_key k l) end.
Proof.
  induction l as [|[key v] l IH]; intros m k; [cbn; by destruct (object_get k m)|]. cbn [foldl]. rewrite IH.
  unfold at_key. unfold or_insert. cbn [fst snd]. destruct (object_get key m) as [w|] eqn:Hm.
  - destruct (object_get k m) eqn:Hk; [done|]. rewrite filter_cons_False; [done|]. cbn. intros ->. congruence.
  - rewrite object_get_insert. destruct (String.eqb_spec key k) as [->|Hne].
    + rewrite Hm. by rewrite filter_cons_True.
    + by rewrite filter_cons_False.
Qed.

(** C39. Flattening an object: under each path of keys joined by dots are
    all the values found there, in the order of the object and through any
    nesting of arrays: one that is not in an array as it is, several of them or
    those of an array as one array; a path with no such value, to an empty array
    or an object, has the first value found there.  This is what the code and its tests do; the
    examples of the README of the crate say otherwise (see [flatten_readme_examples]). *)
Theorem flatten_spec object key :
  object_get key (flatten object) =
    match gathered (at_key key (root_leaves object)) with
    | Some value => Some value
    | None => head (at_key key (root_entries object))
    end.
Proof.
  unfold flatten. rewrite insert_root_spec. cbn [fst snd app]. rewrite or_insert_get, foldl_insert_get; [done|].
  unfold root_leaves. apply Forall_concat, Forall_fmap, Forall_forall. intros e _. apply leaves_leaf.
Qed.

(** The README flattens the first object without [a], the second one without [a], and
    the third one with 42 out of its array. *)
Example flatten_readme_examples :
  (let object := JObject [("b", JString "c"); ("d", JString "e")]%string in
   flatten [("a"%string, object)] = [("a.b", JString "c"); ("a.d", JString "e"); ("a", object)]%string) ∧
  (let array := JArray [JObject [("b", JString "c")]; JObject [("b", JString "d")]]%string in
   flatten [("a"%string, array)] = [("a.b", JArray [JString "c"; JString "d"]); ("a", array)]%string) ∧
  flatten [("a", JArray [JU64 42; JObject [("b", JString "c")]])]%string =
    [("a", JArray [JU64 42]); ("a.b", JString "c")]%string.
Proof. split_and!; vm_compute; reflexivity. Qed.
End Flatten.

(** ** Selecting and mapping fields *)

Module Pointer.

Definition SPLIT_SYMBOL : ascii := "."%char.

(** [contained_in]. *)
Definition contained_in (selector key : string) : bool :=
  match str_strip_prefix key selector with
  | Some (String.String c _) => Ascii.eqb c SPLIT_SYMBOL
  | Some String.EmptyString => true
  | None => false
  end.

(** [str::trim_start_matches]: the prefix is removed as long as there is one; an
    empty one is not. *)
Fixpoint trim_matches (fuel : nat) (pat s : string) : string :=
  match fuel with
  | O => s
  | S fuel => match str_strip_prefix pat s with Some s => trim_matches fuel pat s | None => s end
  end.
Definition trim_start_matches (pat s : string) : string :=
  match pat with String.EmptyString => s | _ => trim_matches (String.length s) pat s end.

(** [str::get(1..)]: [None] when there is no byte, or inside of a character. *)
Definition is_continuation (s : string) : bool :=
  match s with String.String c _ => (128 <=? N_of_ascii c)%N && (N_of_ascii c <? 192)%N | String.EmptyString => false end.
Definition get_from_1 (s : string) : option string :=
  match s with
  | String.String _ s => if is_continuation s then None else Some s
  | String.EmptyString => None
  end.

(** [is_simple]. *)
Fixpoint is_simple (key : string) : bool :=
  match key with String.String c key => negb (Ascii.eqb c SPLIT_SYMBOL) && is_simple key | String.EmptyString => true end.

(** The selectors of the fields of a field. *)
Definition sub_selectors (selectors : gset string) (key : string) : gset string :=
  list_to_set (omap (λ s, get_from_1 (trim_start_matches key s)) (filter (λ s, contained_in s key = true) (elements selectors))).

(** [create_value] and [create_array], where the recursive call is that on a value
    in the object or in the array. *)
Section create.
Variable create : json → gset string → json.

Fixpoint create_value (object : JsonMap) (selectors : gset string) (new_value : JsonMap) : JsonMap :=
  match object with
  | [] => new_value
  | (key, value) :: object =>
      let contains := bool_decide (key ∈ selectors) in
      let new_value := if contains then object_insert key value new_value else new_value in
      if contains && is_simple key
      then create_value object (selectors ∖ {[key]}) new_value
      else
        let sub := sub_selectors selectors key in
        let new_value :=
          if bool_decide (sub = ∅) then new_value
          else match value with
               | JArray _ | JObject _ => object_insert key (create value sub) new_value
               | _ => new_value
               end in
        create_value object selectors new_value
  end.

Fixpoint create_array (array : list json) (selectors : gset string) : list json :=
  match array with
  | [] => []
  | value :: array =>
      match value with
      | JArray _ => [create value selectors]
      | JObject _ => match create value selectors with JObject [] => [] | object => [object] end
      | _ => []
      end ++ create_array array selectors
  end.
End create.

Fixpoint create (value : json) (selectors : gset string) : json :=
  match value with
  | JObject object => JObject (create_value create object selectors [])
  | JArray array => JArray (create_array create array selectors)
  | value => value
  end.

(** [select_values]. *)
Definition select_values (value : JsonMap) (selectors : list string) : JsonMap :=
  create_value create value (list_to_set selectors) [].

(** *** What is selected *)

(** The values that are neither arrays nor objects, with the keys that lead to
    them. *)
Fixpoint paths (value : json) : list (list string * json) :=
  match value with
  | JArray array => concat (paths <$> array)
  | JObject object => concat ((λ e, prod_map (cons e.1) id <$> paths e.2) <$> object)
  | value => [([], value)]
  end.
Abbreviation paths_in := (λ object : JsonMap, concat ((λ e, prod_map (cons e.1) id <$> paths e.2) <$> object)).

(** Some of the first keys of a path, joined by dots, are a selector. *)
Fixpoint covered (selectors : gset string) (base_key : option string) (path : list string) : bool :=
  match path with
  | [] => false
  | key :: path =>
      let key := Flatten.new_key base_key key in
      bool_decide (key ∈ selectors) || covered selectors (Some key) path
  end.

(** An object where no key has a dot or is there twice. *)
Fixpoint well_keyed (value : json) : bool :=
  match value with
  | JArray array => forallb well_keyed array
  | JObject object => bool_decide (NoDup object.*1) && forallb (λ e, is_simple e.1 && well_keyed e.2) object
  | _ => true
  end.

(** No dot is before a byte inside of a character. *)
Fixpoint dots_ok (s : string) : bool :=
  match s with
  | String.String c s => negb (Ascii.eqb c SPLIT_SYMBOL && is_continuation s) && dots_ok s
  | String.EmptyString => true
  end.

#[local] Arguments String.append !_ _ : simpl nomatch.

Lemma is_simple_dot k r : is_simple (k +:+ "." +:+ r) = false.
Proof. induction k as [|c k IH]; [done|]. cbn in *. rewrite IH. by rewrite andb_false_r. Qed.

(** The parts of a selector of a field of [key]. *)
Lemma trim_simple key s : is_simple key = true → get_from_1 (trim_start_matches key (key +:+ "." +:+ s)) = get_from_1 ("." +:+ s).
Proof.
  intros Hs. destruct key as [|c key]; [done|]. unfold trim_start_matches.
  assert (∃ n, String.length (String.String c key +:+ "." +:+ s) = S (S n)) as [n ->].
  { destruct key as [|d key]; by eexists. }
  cbn [trim_matches]. rewrite (proj2 (str_strip_prefix_spec _ _ ("." +:+ s)) eq_refl).
  cbn in Hs |- *. unfold SPLIT_SYMBOL in Hs. by destruct (Ascii.eqb c "."%char).
Qed.
Lemma trim_all key : get_from_1 (trim_start_matches key key) = None.
Proof.
  destruct key as [|c key]; [done|]. unfold trim_start_matches. cbn [trim_matches String.length].
  rewrite (proj2 (str_strip_prefix_spec _ _ String.EmptyString)); [|by rewrite string_app_nil_r].
  by destruct (String.length key).
Qed.

Lemma dots_ok_app a b : dots_ok (a +:+ b) = true → dots_ok b = true.
Proof. induction a as [|c a IH]; [done|]. cbn. intros [_ ?]%andb_true_iff. auto. Qed.

(** A byte of a sequence is not a dot. *)
Lemma not_dot c a b : between a b c = true → 46 < a → Ascii.eqb c SPLIT_SYMBOL = false.
Proof. unfold between. intros Hc Ha. apply Ascii.eqb_neq. intros ->. change (code SPLIT_SYMBOL) with 46 in Hc. lia. Qed.

Lemma dots_ok_skip c s : Ascii.eqb c SPLIT_SYMBOL = false → dots_ok (String.String c s) = dots_ok s.
Proof. intros Hc. cbn. by rewrite Hc. Qed.

Lemma utf8_not_continuation s : is_utf8 s = true → is_continuation s = false.
Proof.
  destruct s as [|c s]; [done|]. unfold is_continuation. intros Hu. apply not_true_is_false. intros Hc.
  apply andb_true_iff in Hc as [H1%N.leb_le H2%N.ltb_lt]. assert (128 ≤ code c < 192) by (unfold code; lia).
  assert (Hno : ∀ a b, b < 128 ∨ 192 ≤ a → between a b c = false) by (intros; unfold between; lia).
  cbn in Hu. rewrite !Hno in Hu by lia. by destruct s as [|? [|? [|? s]]].
Qed.

Lemma utf8_dots_ok s : is_utf8 s = true → dots_ok s = true.
Proof.
  assert (∀ n s, (String.length s < n)%nat → is_utf8 s = true → dots_ok s = true) as H;
    [|intros Hu; apply (H (S (String.length s))); [lia|exact Hu]].
  induction n as [|n IH]; [lia|]. intros [|c s'] Hlen Hu; [done|]. cbn in Hlen.
  pose proof (not_dot c 194 223). pose proof (not_dot c 224 239). pose proof (not_dot c 240 244).
  cbn [is_utf8] in Hu. destruct (between 0 127 c).
  { cbn. rewrite (utf8_not_continuation s' Hu), andb_false_r. apply IH; [lia|done]. }
  destruct s' as [|d s']; [done|]. cbn in Hlen.
  destruct (between 194 223 c).
  { apply andb_true_iff in Hu as [Hd Hu]. rewrite !dots_ok_skip; [apply IH; [lia|done]|by eapply not_dot; [exact Hd|lia]|auto with lia]. }
  destruct s' as [|e s']; [done|]. cbn in Hlen.
  destruct (between 224 239 c).
  { apply andb_true_iff in Hu as [[Hd He]%andb_true_iff Hu]. rewrite !dots_ok_skip;
      [apply IH; [lia|done]|by eapply not_dot; [exact He|lia]|eapply not_dot; [exact Hd|by case_match]|auto with lia]. }
  destruct s' as [|f s']; [done|]. cbn in Hlen. rewrite !andb_true_iff in Hu. destruct Hu as [[[[Hc Hd] He] Hf] Hu].
  rewrite !dots_ok_skip; [apply IH; [lia|done]|by eapply not_dot; [exact Hf|lia]|by eapply not_dot; [exact He|lia]|eapply not_dot; [exact Hd|by case_match]|auto with lia].
Qed.

Definition selectors_ok (selectors : gset string) : Prop := ∀ s, s ∈ selectors → dots_ok s = true.

Lemma elem_of_sub_selectors selectors key s : is_simple key = true → selectors_ok selectors →
  s ∈ sub_selectors selectors key ↔ key +:+ "." +:+ s ∈ selectors.
Proof.
  intros Hk Hok. unfold sub_selectors. rewrite elem_of_list_to_set, list_elem_of_omap. split.
  - intros (t & [Hc Ht%elem_of_elements]%list_elem_of_filter & Hs). unfold contained_in in Hc.
    destruct (str_strip_prefix key t) as [rest|] eqn:Hp; [|done]. apply str_strip_prefix_spec in Hp as ->.
    destruct rest as [|c rest]; [rewrite string_app_nil_r in Hs; by rewrite trim_all in Hs|].
    apply Ascii.eqb_eq in Hc as ->. change (String.String SPLIT_SYMBOL rest) with ("." +:+ rest) in *.
    rewrite trim_simple in Hs by done. cbn in Hs. destruct (is_continuation rest); by simplify_eq.
  - intros Hs. exists (key +:+ "." +:+ s). split.
    + apply list_elem_of_filter. split; [|by apply elem_of_elements].
      unfold contained_in. by rewrite (proj2 (str_strip_prefix_spec _ _ _) eq_refl).
    + rewrite trim_simple by done. cbn. apply Hok, dots_ok_app in Hs. cbn in Hs. by destruct (is_continuation s).
Qed.

Lemma sub_selectors_ok selectors key : is_simple key = true → selectors_ok selectors → selectors_ok (sub_selectors selectors key).
Proof.
  intros Hk Hok s Hs. apply elem_of_sub_selectors, Hok in Hs; [|done..]. by apply (dots_ok_app "."), (dots_ok_app key).
Qed.

(** Below a field, the selectors are its sub selectors. *)
Lemma covered_sub selectors key path : is_simple key = true → selectors_ok selectors →
  ∀ base, covered selectors (Some (match base with Some b => key +:+ "." +:+ b | None => key end)) path =
          covered (sub_selectors selectors key) base path.
Proof.
  intros Hk Hok. induction path as [|k path IH]; intros base; [done|]. cbn [covered].
  assert (Hkey : Flatten.new_key (Some (match base with Some b => key +:+ "." +:+ b | None => key end)) k =
                 key +:+ "." +:+ Flatten.new_key base k).
  { destruct base as [b|]; [|done]. unfold Flatten.new_key. by rewrite !str_app_assoc. }
  rewrite Hkey, <-(IH (Some (Flatten.new_key base k))). f_equal.
  apply bool_decide_ext. symmetry. by apply elem_of_sub_selectors.
Qed.

Lemma covered_empty base path : covered ∅ base path = false.
Proof. revert base. induction path as [|k path IH]; intros base; [done|]. cbn. rewrite IH. by rewrite bool_decide_eq_false_2 by set_solver. Qed.

(** A simple selector only covers what is below its field. *)
Lemma covered_difference selectors key k path : is_simple key = true → k ≠ key →
  covered (selectors ∖ {[key]}) None (k :: path) = covered selectors None (k :: path).
Proof.
  intros Hk Hne. cbn. f_equal; [apply bool_decide_ext; set_solver|]. clear Hne.
  assert (∀ b, covered (selectors ∖ {[key]}) (Some b) path = covered selectors (Some b) path) as ->; [|done].
  induction path as [|k' path IH]; intros b; [done|]. cbn. rewrite IH. f_equal. apply bool_decide_ext.
  rewrite elem_of_difference, elem_of_singleton. split; [tauto|]. intros H. split; [done|]. intros Heq.
  change (b +:+ "." +:+ k' = key) in Heq. by rewrite <-Heq, is_simple_dot in Hk.
Qed.

Lemma object_insert_fresh key value m : key ∉ m.*1 → object_insert key value m = m ++ [(key, value)].
Proof.
  induction m as [|[k v] m IH]; [done|]. cbn. intros [Hne Hin]%not_elem_of_cons.
  destruct (String.eqb_spec k key); [congruence|]. by rewrite IH.
Qed.

Abbreviation select selectors := (filter (λ e : list string * json, covered selectors None e.1 = true)).

Lemma filter_prod_cons P `{∀ x, Decision (P x)} key (l : list (list string * json)) :
  filter P (prod_map (cons key) id <$> l) = prod_map (cons key) id <$> filter (λ e, P (key :: e.1, e.2)) l.
Proof.
  induction l as [|[p v] l IH]; [done|]. cbn [fmap list_fmap]. rewrite !filter_cons. cbn [fst snd prod_map id].
  destruct (decide (P (key :: p, id v))); destruct (decide (P (key :: p, v))); rewrite IH; done.
Qed.

Lemma select_field selectors key (l : list (list string * json)) : is_simple key = true → selectors_ok selectors →
  select selectors (prod_map (cons key) id <$> l) =
    prod_map (cons key) id <$> (if bool_decide (key ∈ selectors) then l else select (sub_selectors selectors key) l).
Proof.
  intros Hk Hok. rewrite filter_prod_cons. f_equal. induction l as [|[p v] l IH]; [by case_bool_decide|].
  rewrite filter_cons, IH. cbn [covered fst Flatten.new_key].
  case_bool_decide as Hin; cbn [orb]; [done|]. rewrite filter_cons. cbn [fst]. by rewrite <-(covered_sub _ key p Hk Hok None).
Qed.

Lemma select_empty l : select ∅ l = [].
Proof. induction l as [|e l IH]; [done|]. rewrite filter_cons, covered_empty. done. Qed.

Lemma select_difference selectors key (object : JsonMap) : is_simple key = true → key ∉ object.*1 →
  select (selectors ∖ {[key]}) (paths_in object) = select selectors (paths_in object).
Proof.
  intros Hk. induction object as [|[k v] object IH]; [done|]. cbn. intros [Hne Hin]%not_elem_of_cons.
  rewrite !filter_app, IH by done. f_equal. rewrite !filter_prod_cons. f_equal.
  apply list_filter_iff. intros [p w]. cbn [fst]. by rewrite covered_difference.
Qed.

Definition is_compound (v : json) : bool := match v with JArray _ | JObject _ => true | _ => false end.
Definition selects (v : json) : Prop := well_keyed v = true →
  ∀ sub, selectors_ok sub → is_compound v = true → paths (create v sub) = select sub (paths v).

Lemma select_scalar selectors v : is_compound v = false → select selectors (paths v) = [].
Proof. by destruct v. Qed.

Lemma create_value_paths object : Forall (λ e, selects e.2) object → ∀ selectors new_value,
  NoDup object.*1 → forallb (λ e, is_simple e.1 && well_keyed e.2) object = true → selectors_ok selectors →
  (∀ k, k ∈ object.*1 → k ∉ new_value.*1) →
  paths_in (create_value create object selectors new_value) = paths_in new_value ++ select selectors (paths_in object).
Proof.
  induction 1 as [|[key v] object Hv _ IH]; intros selectors nv Hnd Hwf Hok Hfresh; [cbn; by rewrite app_nil_r|].
  cbn in Hnd, Hwf, Hfresh. apply NoDup_cons in Hnd as [Hnin Hnd].
  apply andb_true_iff in Hwf as [[Hs Hwv]%andb_true_iff Hwf]. cbn [fst snd] in *.
  assert (Hkey : key ∉ nv.*1) by (apply Hfresh; left).
  assert (Hnext : ∀ w k, k ∈ object.*1 → k ∉ (nv ++ [(key, w)]).*1).
  { intros w k Hk. rewrite fmap_app. cbn. rewrite not_elem_of_app, list_elem_of_singleton. split; [apply Hfresh; by right|].
    by intros ->. }
  cbn [create_value fmap list_fmap concat]. rewrite filter_app, select_field by done. rewrite Hs.
  destruct (decide (key ∈ selectors)) as [Hin|Hin];
    [do 2 rewrite (bool_decide_eq_true_2 _ Hin)|do 2 rewrite (bool_decide_eq_false_2 _ Hin)]; cbn [andb fst snd].
  - assert (Hok' : selectors_ok (selectors ∖ {[key]})) by (intros s [? _]%elem_of_difference; by apply Hok).
    rewrite object_insert_fresh, IH by (done || by apply Hnext).
    rewrite select_difference, fmap_app, concat_app by done. cbn. by rewrite app_nil_r, <-app_assoc.
  - case_bool_decide as Hsub.
    { rewrite Hsub, select_empty. cbn. apply IH; try done. intros k Hk. apply Hfresh. by right. }
    destruct (is_compound v) eqn:Hc; [|rewrite select_scalar by done; destruct v; try done; (apply IH; try done; intros k Hk; apply Hfresh; by right)].
    assert (Hins : (match v with JArray _ | JObject _ => object_insert key (create v (sub_selectors selectors key)) nv | _ => nv end) =
                   nv ++ [(key, create v (sub_selectors selectors key))]).
    { rewrite <-object_insert_fresh by done. by destruct v. }
    rewrite Hins, IH by (done || by apply Hnext).
    rewrite <-(Hv Hwv) by (by try apply sub_selectors_ok). rewrite fmap_app, concat_app. cbn. by rewrite app_nil_r, <-app_assoc.
Qed.

Lemma create_selects v : selects v.
Proof.
  induction v as [v Hv|l IH|o IH] using json_nested_ind; intros Hwf sub Hok Hc; [by destruct v| |].
  - cbn in *. clear Hc. induction IH as [|v l Hv _ IH]; [done|]. cbn in *. apply andb_true_iff in Hwf as [Hwv Hwf].
    rewrite filter_app, fmap_app, concat_app, (IH Hwf). f_equal.
    destruct (is_compound v) eqn:Hc; [|rewrite select_scalar by done; by destruct v].
    rewrite <-(Hv Hwv) by done. destruct v; try done; [cbn; by rewrite app_nil_r|].
    destruct (create (JObject entries) sub) as [| | | | | | |[|e o]]; cbn; by rewrite ?app_nil_r.
  - cbn in *. apply andb_true_iff in Hwf as [Hnd Hwf]. apply bool_decide_eq_true in Hnd.
    rewrite create_value_paths; [done..|]. intros k _. apply not_elem_of_nil.
Qed.

(** Selecting fields of a document whose keys have no dot: the values of
    the selection are those of the document with a path that starts with a
    selector, in their order and at their path, through any nesting of arrays. *)
Theorem select_values_spec object selectors :
  well_keyed (JObject object) = true → forallb is_utf8 selectors = true →
  paths (JObject (select_values object selectors)) =
    filter (λ e, covered (list_to_set selectors) None e.1 = true) (paths (JObject object)).
Proof.
  intros Hwf Hok. apply (create_selects (JObject object) Hwf); [|done].
  intros s Hs%elem_of_list_to_set. apply utf8_dots_ok, (proj1 (forallb_forall _ _) Hok). by apply list_elem_of_In.
Qed.

Definition sample_document : JsonMap :=
  [("name"%string, JString "peanut"); ("age"%string, JU64 8);
   ("race"%string, JObject [("name"%string, JString "bernese mountain"); ("sizes"%string, JArray [JString "80cm"; JArray [JObject [("unit"%string, JString "cm"); ("max"%string, JU64 90)]]])])].

Lemma select_values_spec_witness :
  let selection := [("name"%string, JString "peanut"); ("race"%string, JObject [("sizes"%string, JArray [JArray [JObject [("max"%string, JU64 90)]]])])] in
  select_values sample_document ["name"%string; "race.sizes.max"%string] = selection ∧
  paths (JObject (select_values sample_document ["name"%string; "race.sizes.max"%string])) =
    filter (λ e, covered (list_to_set ["name"%string; "race.sizes.max"%string]) None e.1 = true) (paths (JObject sample_document)).
Proof. split; [vm_compute; reflexivity|]. apply select_values_spec; vm_compute; reflexivity. Defined.

(** A key with a dot: its field is in the selection as a whole only as long as no
    other selector is below it. *)
Example dotted_key_whole :
  select_values [("a.b"%string, JObject [("c"%string, JU64 1); ("d"%string, JU64 2)])] ["a.b"%string]
  = [("a.b"%string, JObject [("c"%string, JU64 1); ("d"%string, JU64 2)])].
Proof. vm_compute. reflexivity. Qed.
Example dotted_key_overwritten :
  select_values [("a.b"%string, JObject [("c"%string, JU64 1); ("d"%string, JU64 2)])] ["a.b"%string; "a.b.c"%string]
  = [("a.b"%string, JObject [("c"%string, JU64 1)])].
Proof. vm_compute. reflexivity. Qed.

(** A key that starts with a dot: as many copies of it as the selector starts with
    are removed, and the field selected is another one. *)
Example dotted_key_trimmed :
  select_values [(".a"%string, JObject [("a.b"%string, JU64 1); ("b"%string, JU64 2)])] [".a.a.b"%string]
  = [(".a"%string, JObject [("b"%string, JU64 2)])].
Proof. vm_compute. reflexivity. Qed.

(** *** Mapping the leaves *)

(** The state and the mapper of [map_leaf_values]: a closure that updates a value,
    given its key and the indices in the arrays above it. *)
Section map_leaf_values.
Context {St : Type} (mapper : string → list Z → json → St → json * St).
Variable selectors : list string.

Definition should_continue (base_key : string) : bool :=
  existsb (λ selector, contained_in selector base_key || contained_in base_key selector) selectors.

Definition next_key (base_key key : string) : string :=
  match base_key with String.EmptyString => key | _ => base_key +:+ "." +:+ key end.

(** [map_leaf_values_in_object] and [map_leaf_values_in_array], where the
    recursive call is that on a value reached. *)
Section map_values.
Variable map_value : string → list Z → json → St → json * St.

Fixpoint map_leaf_values_in_object (object : JsonMap) (base_key : string) (array_indices : list Z) (st : St) : JsonMap * St :=
  match object with
  | [] => ([], st)
  | (key, value) :: object =>
      let '(value, st) :=
        if should_continue (next_key base_key key) then map_value (next_key base_key key) array_indices value st
        else (value, st) in
      let '(object, st) := map_leaf_values_in_object object base_key array_indices st in
      ((key, value) :: object, st)
  end.

Fixpoint map_leaf_values_in_array (values : list json) (i : Z) (base_key : string) (base_array_indices : list Z) (st : St) : list json * St :=
  match values with
  | [] => ([], st)
  | value :: values =>
      let '(value, st) := map_value base_key (base_array_indices ++ [i]) value st in
      let '(values, st) := map_leaf_values_in_array values (i + 1) base_key base_array_indices st in
      (value :: values, st)
  end.
End map_values.

Fixpoint map_value (base_key : string) (array_indices : list Z) (value : json) (st : St) : json * St :=
  match value with
  | JObject object => prod_map JObject id (map_leaf_values_in_object map_value object base_key array_indices st)
  | JArray array => prod_map JArray id (map_leaf_values_in_array map_value array 0 base_key array_indices st)
  | value => mapper base_key array_indices value st
  end.

(** [map_leaf_values]. *)
Definition map_leaf_values (value : JsonMap) (st : St) : JsonMap * St :=
  map_leaf_values_in_object map_value value String.EmptyString [] st.

(** Mapping all of the leaves, in their order. *)
Section map_all.
Variable f : string → list Z → json → St → json * St.

Fixpoint map_all (base_key : string) (array_indices : list Z) (value : json) (st : St) : json * St :=
  match value with
  | JObject object =>
      prod_map JObject id ((fix go (object : JsonMap) (st : St) : JsonMap * St :=
        match object with
        | [] => ([], st)
        | (key, value) :: object =>
            let '(value, st) := map_all (next_key base_key key) array_indices value st in
            let '(object, st) := go object st in ((key, value) :: object, st)
        end) object st)
  | JArray array =>
      prod_map JArray id ((fix go (array : list json) (i : Z) (st : St) : list json * St :=
        match array with
        | [] => ([], st)
        | value :: array =>
            let '(value, st) := map_all base_key (array_indices ++ [i]) value st in
            let '(array, st) := go array (i + 1) st in (value :: array, st)
        end) array 0 st)
  | value => f base_key array_indices value st
  end.
End map_all.

(** The mapper on the selected leaves only. *)
Definition guarded (key : string) (array_indices : list Z) (value : json) (st : St) : json * St :=
  if should_continue key then mapper key array_indices value st else (value, st).

Lemma contained_in_spec s k : contained_in s k = true ↔ s = k ∨ ∃ t, s = k +:+ "." +:+ t.
Proof. apply strip_dot_spec. Qed.

(** A field that is not selected has no selected field. *)
Lemma should_continue_below base key : base ≠ String.EmptyString →
  should_continue (next_key base key) = true → should_continue base = true.
Proof.
  intros Hb. assert (next_key base key = base +:+ "." +:+ key) as -> by (by destruct base).
  unfold should_continue. rewrite !existsb_exists. intros (s & Hin & Hs). exists s. split; [done|].
  apply orb_true_iff. apply orb_true_iff in Hs. rewrite !contained_in_spec in *.
  destruct Hs as [[->|[t ->]]|[<-|[t Ht]]]; [left..|]; [right; eauto| |right; eauto|].
  { right. exists (key +:+ "." +:+ t). by rewrite !str_app_assoc. }
  apply string_app_split in Ht as [(u & -> & Hu)|(u & -> & Hu)].
  - destruct u as [|c u]; [rewrite string_app_nil_r; auto|]. injection Hu as <- _. right. right. by exists u.
  - destruct u as [|c u]; [rewrite string_app_nil_r; auto|]. injection Hu as <- _. left. right. by exists u.
Qed.

Lemma next_key_nonempty base key : base ≠ String.EmptyString ∨ key ≠ String.EmptyString → next_key base key ≠ String.EmptyString.
Proof. by destruct base as [|c base], key as [|d key]; intros []. Qed.

Lemma map_all_unselected v : ∀ base idx st, base ≠ String.EmptyString → should_continue base = false →
  map_all guarded base idx v st = (v, st).
Proof.
  induction v as [v Hv|l IH|o IH] using json_nested_ind; intros base idx st Hb Hs.
  - destruct v; try done; cbn; unfold guarded; by rewrite Hs.
  - cbn. generalize 0. induction IH as [|v l Hv _ IH]; intros i; [done|]. cbn. rewrite Hv by done.
    specialize (IH (i + 1)). destruct (_ l (i + 1) st) as [l' st']. cbn in *. by simplify_eq.
  - cbn. induction IH as [|[k v] o Hv _ IH]; [done|]. cbn in *. rewrite Hv; [|by apply next_key_nonempty; left|].
    + destruct (_ o st) as [o' st']. cbn in *. by simplify_eq.
    + destruct (should_continue (next_key base k)) eqn:Hk; [|done]. apply should_continue_below in Hk; congruence.
Qed.

Lemma map_value_spec v : ∀ base idx st, should_continue base = true → base ≠ String.EmptyString →
  map_value base idx v st = map_all guarded base idx v st.
Proof.
  induction v as [v Hv|l IH|o IH] using json_nested_ind; intros base idx st Hs Hb.
  - destruct v; try done; cbn; unfold guarded; by rewrite Hs.
  - cbn. f_equal. generalize 0. revert st. induction IH as [|v l Hv _ IH]; intros st i; [done|]. cbn. rewrite Hv by done.
    destruct (map_all guarded base (idx ++ [i]) v st) as [v' st']. by rewrite IH.
  - cbn. f_equal. revert st. induction IH as [|[k v] o Hv _ IH]; intros st; [done|]. cbn in *.
    assert (Hk : next_key base k ≠ String.EmptyString) by (apply next_key_nonempty; by left).
    destruct (should_continue (next_key base k)) eqn:Hc.
    + rewrite Hv by done. destruct (map_all guarded _ idx v st) as [v' st']. by rewrite IH.
    + rewrite map_all_unselected by done. by rewrite IH.
Qed.

(** Mapping the selected leaves of an object is calling the mapper once on each
    leaf whose key is at, above or below a selector, in the order of the object,
    and on no other leaf. *)
Theorem map_leaf_values_spec object st : Forall (λ e, e.1 ≠ String.EmptyString) object →
  prod_map JObject id (map_leaf_values object st) = map_all guarded String.EmptyString [] (JObject object) st.
Proof.
  intros Hne. unfold map_leaf_values. cbn. f_equal. revert st. induction Hne as [|[k v] o Hk _ IH]; intros st; [done|]. cbn in *.
  destruct (should_continue k) eqn:Hc.
  - rewrite map_value_spec by done. destruct (map_all guarded k [] v st) as [v' st']. by rewrite IH.
  - rewrite map_all_unselected by done. by rewrite IH.
Qed.
End map_leaf_values.

End Pointer.

(** ** Whether a value must be flattened *)

Module Depth.

(** The loop over the bytes after the first one. *)
Fixpoint scan (json : list ascii) (skip_next in_string : bool) : bool :=
  match json with
  | [] => false
  | byte :: json =>
      if skip_next then scan json false in_string
      else if Ascii.eqb byte "\"%char then scan json true in_string
      else if in_string then scan json false (negb (Ascii.eqb byte "034"%char))
      else if Ascii.eqb byte "034"%char then scan json false true
      else if Ascii.eqb byte "["%char then true
      else if Ascii.eqb byte "{"%char then true
      else scan json false in_string
  end.

(** [should_flatten_from_unchecked_slice]. *)
Definition should_flatten_from_unchecked_slice (json : list ascii) : bool :=
  match json with
  | [] => false
  | byte :: json =>
      if Ascii.eqb byte "{"%char then true
      else if negb (Ascii.eqb byte "["%char) then false
      else scan json false false
  end.

(** [should_flatten_from_value]. *)
Definition should_flatten_from_value (json : json) : bool :=
  match json with
  | JObject _ => true
  | JArray array => existsb (λ value, match value with JArray _ | JObject _ => true | _ => false end) array
  | _ => false
  end.

(** *** The text of a value *)

Abbreviation quote := ("034"%char).
Abbreviation backslash := ("\"%char).

(** The inside of a JSON string: no quote, and a character after each backslash. *)
Inductive escaped : list ascii → Prop :=
| escaped_nil : escaped []
| escaped_plain c body : c ≠ quote → c ≠ backslash → escaped body → escaped (c :: body)
| escaped_escape c body : escaped body → escaped (backslash :: c :: body).

(** The texts of the elements of an array, with commas between them. *)
Definition elements_text (texts : list (list ascii)) : list ascii :=
  match texts with [] => [] | text :: texts => text ++ concat (cons ","%char <$> texts) end.

(** A byte of a number, a boolean or null. *)
Definition plain (c : ascii) : bool :=
  negb (Ascii.eqb c quote || Ascii.eqb c backslash || Ascii.eqb c "["%char || Ascii.eqb c "{"%char).

(** [serde_json::to_vec], with the grammar of what it writes: no space, the
    brackets of arrays and objects, quoted and escaped strings, and numbers,
    booleans and null without any of these. *)
Class JsonSerializer := { to_vec : json → list ascii }.
Class JsonSerializerOk `{JsonSerializer} := {
  to_vec_object object : head (to_vec (JObject object)) = Some "{"%char;
  to_vec_array array : to_vec (JArray array) = "["%char :: elements_text (to_vec <$> array) ++ ["]"%char];
  to_vec_string s : ∃ body, to_vec (JString s) = quote :: body ++ [quote] ∧ escaped body;
  to_vec_scalar v : (match v with JArray _ | JObject _ | JString _ => False | _ => True end) → Forall (λ c, plain c = true) (to_vec v);
}.

Lemma scan_plain c rest : plain c = true → scan (c :: rest) false false = scan rest false false.
Proof.
  unfold plain. cbn. by destruct (Ascii.eqb c quote), (Ascii.eqb c backslash), (Ascii.eqb c "["%char), (Ascii.eqb c "{"%char).
Qed.

Lemma scan_plains text rest : Forall (λ c, plain c = true) text → scan (text ++ rest) false false = scan rest false false.
Proof. induction 1 as [|c text Hc _ IH]; [done|]. cbn [app]. by rewrite scan_plain. Qed.

Lemma scan_string body rest : escaped body → scan (body ++ quote :: rest) false true = scan rest false false.
Proof.
  induction 1 as [|c body Hq Hb _ IH|c body _ IH]; [done| |done]. cbn [app scan].
  by rewrite (proj2 (Ascii.eqb_neq _ _) Hb), (proj2 (Ascii.eqb_neq _ _) Hq).
Qed.

Section depth.
Context `{JsonSerializerOk}.

(** Nothing is found in the text of a value that is neither an array nor an
    object; an array or an object is seen at its first byte. *)
Lemma scan_element v rest : scan (to_vec v ++ rest) false false = Pointer.is_compound v || scan rest false false.
Proof.
  destruct (Pointer.is_compound v) eqn:Hv; cbn.
  - destruct v; try done; [by rewrite to_vec_array|].
    pose proof (to_vec_object entries) as Hh. destruct (to_vec (JObject entries)); [done|]. by simplify_eq/=.
  - destruct v; try done; try (apply scan_plains; by apply to_vec_scalar).
    destruct (to_vec_string s) as (body & -> & Hb). cbn. rewrite <-app_assoc. by apply scan_string.
Qed.

Lemma scan_elements l : scan (elements_text (to_vec <$> l) ++ ["]"%char]) false false = existsb Pointer.is_compound l.
Proof.
  destruct l as [|v l]; [done|]. cbn [elements_text fmap list_fmap existsb]. rewrite <-app_assoc, scan_element. f_equal.
  induction l as [|w l IH]; [done|]. cbn [fmap list_fmap concat existsb app]. rewrite scan_plain by done.
  rewrite <-app_assoc, scan_element. by f_equal.
Qed.

(** On the text that the serializer writes for a value, looking for a
    bracket outside of the strings tells exactly whether the value is an object or
    an array that contains an array or an object. *)
Theorem should_flatten_from_text v :
  should_flatten_from_unchecked_slice (to_vec v) = should_flatten_from_value v.
Proof.
  destruct (Pointer.is_compound v) eqn:Hv.
  - destruct v; try done; [rewrite to_vec_array; cbn; by rewrite scan_elements|].
    pose proof (to_vec_object entries) as Hh. destruct (to_vec (JObject entries)); [done|]. by simplify_eq/=.
  - assert (should_flatten_from_value v = false) as -> by (by destruct v).
    destruct v; try done; try (unfold should_flatten_from_unchecked_slice;
      match goal with |- context [to_vec ?w] => pose proof (to_vec_scalar w I) as Hp end;
      destruct Hp as [|c ? Hc _]; [done|]; unfold plain in Hc; by destruct (Ascii.eqb c quote), (Ascii.eqb c backslash), (Ascii.eqb c "["%char), (Ascii.eqb c "{"%char)).
    destruct (to_vec_string s) as (body & -> & Hb). done.
Qed.
End depth.

(** A serializer. *)
Fixpoint sample_to_vec (v : json) : list ascii :=
  let text s := filter (λ c, plain c = true) (String.list_ascii_of_string s) in
  match v with
  | JNull => text "null"%string
  | JBool b => text (if b then "true" else "false")%string
  | JU64 n | JI64 n => text (pretty n)
  | JF64 t => text t
  | JString s => quote :: concat ((λ c, if Ascii.eqb c quote || Ascii.eqb c backslash then [backslash; c] else [c]) <$> String.list_ascii_of_string s) ++ [quote]
  | JArray l => "["%char :: elements_text (sample_to_vec <$> l) ++ ["]"%char]
  | JObject o => "{"%char :: elements_text ((λ e, quote :: String.list_ascii_of_string e.1 ++ [quote; ":"%char] ++ sample_to_vec e.2) <$> o) ++ ["}"%char]
  end.
#[local] Instance sample_serializer : JsonSerializer := {| to_vec := sample_to_vec |}.
#[local] Instance sample_serializer_ok : JsonSerializerOk.
Proof.
  split; [done|done| |].
  - intros s. eexists. split; [reflexivity|]. induction (String.list_ascii_of_string s) as [|c l IH]; [constructor|].
    cbn. destruct (Ascii.eqb c quote || Ascii.eqb c backslash) eqn:Hc; cbn; [by constructor|].
    apply orb_false_iff in Hc as [Hq%Ascii.eqb_neq Hb%Ascii.eqb_neq]. by constructor.
  - intros v Hv. destruct v; try done; cbn [to_vec sample_serializer sample_to_vec];
      apply Forall_forall; by intros c [? _]%list_elem_of_filter.
Qed.

Lemma should_flatten_from_text_witness :
  let v := JArray [JString "["; JArray [JU64 12]] in
  should_flatten_from_unchecked_slice (to_vec v) = should_flatten_from_value v ∧
  should_flatten_from_unchecked_slice (to_vec v) = true ∧
  should_flatten_from_unchecked_slice (to_vec (JArray [JString "["; JU64 12])) = false.
Proof. split; [exact (should_flatten_from_text _)|]. split; vm_compute; reflexivity. Defined.
End Depth.
