(* ===== verification/IndexOp.v ===== *)
(** * Operations on one index

    [crates/index-scheduler/src/scheduler/process_index_operation.rs]: what each
    task of a batch on one index becomes.  The payloads are prepared as in
    [Documents]; what the search engine computes besides is the class
    [Indexer]. *)

From S2P Require Import Prelude TaskTypes DetailsView SchedUtils TaskQueue BatchQueue Queue Autobatcher CreateBatch ProcessBatch Lru IndexMap Versions Ids Documents.
Open Scope Z_scope.

(** The functions of the search engine an index operation calls.  [Changes] is
    what is handed to [indexer::index], which writes the documents. *)
Class Indexer `{IndexEnv, JsonText} := {
  user_error_response : DocUserError → ResponseError;
  error_response : Error → ResponseError;
  doc_error : DocError → MilliError;
  clear_documents : Index → IndexStore → outcome MilliError (Z * IndexStore);
  Embedders : Type;
  index_embedders : string → Index → IndexStore → outcome Error Embedders;
  advise_payload : Uuid → outcome MilliError ();
  payload_content : Uuid → Payload;
  Changes : Type;
  payload_changes : gmap string PayloadOperations → option PrimaryKey.t → Changes;
  edition_changes : bitmap → option Object → string → PrimaryKey.t → outcome MilliError Changes;
  deletion_changes : bitmap → PrimaryKey.t → Changes;
  index_changes : Index → Changes → Embedders → IndexStore → outcome MilliError IndexStore;
  number_of_documents : Index → IndexStore → outcome MilliError Z;
  documents_ids : Index → IndexStore → bitmap;
  external_documents_ids : Index → IndexStore → gmap string Z;
  fields_ids_map : Index → IndexStore → FieldsIdsMap;
  stored_primary_key : Index → IndexStore → option string;
  Filter : Type;
  filter_from_json : Value → outcome MilliError (option Filter);
  filter_evaluate : Filter → Index → IndexStore → outcome MilliError bitmap;
  SettingsBuilder : Type;
  builder_new : Index → IndexStore → SettingsBuilder;
  apply_settings_to_builder : Settings → SettingsBuilder → SettingsBuilder;
  set_primary_key : string → SettingsBuilder → SettingsBuilder;
  builder_execute : SettingsBuilder → IndexStore → outcome MilliError IndexStore;
}.

Section index_operation.
Context `{Indexer}.

(** [map_err(|e| Error::from_milli(e, Some(index_uid)))]. *)
Definition milli {A} (index_uid : string) (r : outcome MilliError A) : outcome Error A :=
  map_err (λ e, from_milli e (Some index_uid)) r.

Definition with_error (task : Task) (e : option ResponseError) : Task :=
  mkTask (uid task) (batch_uid task) (enqueued_at task) (started_at task) (finished_at task)
    e (canceled_by task) (details task) (status task) (kind task).

(** ** Clearing *)

(** The body of the loop over the tasks of a clear: the first clear is credited
    with all the documents. *)
Definition clear_task (count : Z) (acc : bool * list Task) (task : Task) : bool * list Task :=
  let '(first_clear_found, out) := acc in
  match kind task with
  | KindWithContent.DocumentClear _ =>
      let count := if first_clear_found then 0 else count in
      (true, out ++ [with_status_details task Status.Succeeded (Some (Details.ClearAll (Some count)))])
  | otherwise => (first_clear_found, out ++ [with_status_details task Status.Succeeded (default_details otherwise)])
  end.

Definition apply_document_clear (index : Index) (store : IndexStore) (index_uid : string) (ts : list Task)
    : outcome Error (list Task * IndexStore) :=
  '(count, store) ← milli index_uid (clear_documents index store);
  Ok ((foldl (clear_task count) (false, []) ts).2, store).

(** ** Document additions and deletions *)

(** The payload of an operation: the content of its update file. *)
Definition document_payload (operation : DocumentOperation.t) : DocPayload :=
  match operation with
  | DocumentOperation.Replace u => PayloadReplace (payload_content u)
  | DocumentOperation.Update u => PayloadUpdate (payload_content u)
  | DocumentOperation.Delete ids => PayloadDeletion ids
  end.

(** [into_changes] on the index. *)
Definition prepare_changes (must_stop : nat → bool) (index : Index) (store : IndexStore)
    (primary_key : option string) (operations : list DocumentOperation.t)
    : outcome DocError (gmap string PayloadOperations * list PayloadStats * Preparation) :=
  into_changes must_stop (mkIndexView (external_documents_ids index store) (stored_primary_key index store))
    (documents_ids index store) (fields_ids_map index store) primary_key (document_payload <$> operations).

(** The update file of an operation: it is opened in the first loop. *)
Definition open_payload (not_found : ForeignError) (files : gmap Uuid Z) (operation : DocumentOperation.t)
    : outcome Error () :=
  match operation with
  | DocumentOperation.Replace u | DocumentOperation.Update u =>
      match files !! u with Some _ => Ok () | None => Err (FileStore not_found) end
  | DocumentOperation.Delete _ => Ok ()
  end.

(** And handed to the indexer in the second one. *)
Definition push_payload (index_uid : string) (operation : DocumentOperation.t) : outcome Error () :=
  match operation with
  | DocumentOperation.Replace u | DocumentOperation.Update u => milli index_uid (advise_payload u)
  | DocumentOperation.Delete _ => Ok ()
  end.

(** The body of the loop over the tasks and the statistics of their payloads. *)
Definition credit_payload (stats : PayloadStats) (task : Task) : outcome Error Task :=
  let status := match ps_error stats with Some _ => Status.Failed | None => Status.Succeeded end in
  let task :=
    match ps_error stats with
    | Some e => with_error task (Some (user_error_response e))
    | None => task
    end in
  match details task with
  | Some (Details.DocumentAdditionOrUpdate received_documents _) =>
      Ok (with_status_details task status
            (Some (Details.DocumentAdditionOrUpdate received_documents (Some (document_count stats)))))
  | Some (Details.DocumentDeletion provided_ids _) =>
      Ok (with_status_details task status
            (Some (Details.DocumentDeletion provided_ids (Some (document_count stats)))))
  | _ => Panic
  end.

(** [operation_stats.into_iter().zip(&mut tasks)]. *)
Fixpoint credit_payloads (stats : list PayloadStats) (ts : list Task) : outcome Error (list Task) :=
  match stats, ts with
  | s :: stats, t :: ts => t ← credit_payload s t; ts ← credit_payloads stats ts; Ok (t :: ts)
  | _, ts => Ok ts
  end.

Definition has_no_error (t : Task) : bool := match error t with None => true | Some _ => false end.

Definition apply_document_operation (not_found : ForeignError) (must_stop : nat → bool)
    (files : gmap Uuid Z) (index : Index) (store : IndexStore) (index_uid : string)
    (primary_key : option string) (operations : list DocumentOperation.t) (ts : list Task)
    : outcome Error (list Task * IndexStore) :=
  _ ← collect (open_payload not_found files) operations;
  embedders ← index_embedders index_uid index store;
  _ ← collect (push_payload index_uid) operations;
  '(main, stats, st) ← milli index_uid (map_err doc_error (prepare_changes must_stop index store primary_key operations));
  ts ← credit_payloads stats ts;
  if existsb has_no_error ts then
    let changes := payload_changes main (pr_primary_key st) in
    store ← milli index_uid (index_changes index changes embedders store);
    _ ← milli index_uid (number_of_documents index store);
    Ok (ts, store)
  else Ok (ts, store).

(** The primary key of an index that has one: [PrimaryKey::new_or_insert]. *)
Definition primary_key_new (primary_key : string) (index : Index) (store : IndexStore)
    : outcome MilliError PrimaryKey.t :=
  match (new_or_insert primary_key (fields_ids_map index store)).1 with
  | inr pk => Ok pk
  | inl e => Err (doc_error (UserError e))
  end.

(** ** Document edition *)

Definition edition_candidates (index : Index) (store : IndexStore) (index_uid : string) (filter : option Value)
    : outcome Error bitmap :=
  match filter with
  | None => Ok (documents_ids index store)
  | Some filter =>
      f ← milli index_uid (filter_from_json filter);
      match f with
      | Some f => milli index_uid (filter_evaluate f index store)
      | None => Ok (documents_ids index store)
      end
  end.

Definition apply_document_edition (index : Index) (store : IndexStore) (index_uid : string) (task : Task)
    : outcome Error (list Task * IndexStore) :=
  match kind task with
  | KindWithContent.DocumentEdition _ filter _ code =>
      candidates ← edition_candidates index store index_uid filter;
      match details task with
      | Some (Details.DocumentEdition _ _ original_filter context function) =>
          let edited n := with_status_details task Status.Succeeded
            (Some (Details.DocumentEdition (Some n) (Some n) original_filter context function)) in
          if bm_is_empty candidates then Ok ([edited 0], store) else
          primary_key ← unwrap (stored_primary_key index store);
          primary_key ← milli index_uid (primary_key_new primary_key index store);
          if has_no_error task then
            changes ← milli index_uid (edition_changes candidates context code primary_key);
            embedders ← index_embedders index_uid index store;
            store ← milli index_uid (index_changes index changes embedders store);
            _ ← milli index_uid (number_of_documents index store);
            Ok ([edited (bm_len candidates)], store)
          else Ok ([edited (bm_len candidates)], store)
      | _ => Panic
      end
  | _ => Panic
  end.

(** ** Document deletion *)

(** The body of the loop over the deletions of a batch: a filter that cannot be
    read or evaluated fails its own task only. *)
Definition delete_documents_of (index : Index) (store : IndexStore) (acc : bitmap * list Task) (task : Task)
    : outcome Error (bitmap * list Task) :=
  let '(to_delete, out) := acc in
  let before := bm_len to_delete in
  match kind task with
  | KindWithContent.DocumentDeletion _ ids =>
      let to_delete := foldl (λ d id, match external_documents_ids index store !! id with
                                      | Some id => {[id]} ∪ d | None => d end) to_delete ids in
      let d := Details.DocumentDeletion (Z.of_nat (length ids)) (Some (bm_len to_delete - before)) in
      Ok (to_delete, out ++ [with_status_details task Status.Succeeded (Some d)])
  | KindWithContent.DocumentDeletionByFilter index_uid filter_expr =>
      let found :=
        f ← milli index_uid (filter_from_json filter_expr);
        match f with Some f => milli index_uid (filter_evaluate f index store) | None => Ok ∅ end in
      '(to_delete, task, status) ←
        match found with
        | Ok candidates => Ok (to_delete ∪ candidates, task, Status.Succeeded)
        | Err e => Ok (to_delete, with_error task (Some (error_response e)), Status.Failed)
        | Panic => Panic
        end;
      match details task with
      | Some (Details.DocumentDeletionByFilter original_filter _) =>
          let d := Details.DocumentDeletionByFilter original_filter (Some (bm_len to_delete - before)) in
          Ok (to_delete, out ++ [with_status_details task status (Some d)])
      | _ => Panic
      end
  | _ => Panic
  end.

Definition apply_document_deletion (index : Index) (store : IndexStore) (index_uid : string) (ts : list Task)
    : outcome Error (list Task * IndexStore) :=
  '(to_delete, ts) ← for_each (delete_documents_of index store) (∅, []) ts;
  if bm_is_empty to_delete then Ok (ts, store) else
  primary_key ← unwrap (stored_primary_key index store);
  primary_key ← milli index_uid (primary_key_new primary_key index store);
  if existsb has_no_error ts then
    embedders ← index_embedders index_uid index store;
    store ← milli index_uid (index_changes index (deletion_changes to_delete primary_key) embedders store);
    _ ← milli index_uid (number_of_documents index store);
    Ok (ts, store)
  else Ok (ts, store).

(** ** Settings *)

(** The loop over the tasks and their settings. *)
Fixpoint settings_loop (settings : list (bool * Settings)) (ts : list Task) (builder : SettingsBuilder)
    : list Task * SettingsBuilder :=
  match settings, ts with
  | (_, s) :: settings, t :: ts =>
      let t := with_status_details t Status.Succeeded (Some (Details.SettingsUpdate s)) in
      let '(ts, builder) := settings_loop settings ts (apply_settings_to_builder s builder) in
      (t :: ts, builder)
  | _, ts => (ts, builder)
  end.

Definition apply_settings (index : Index) (store : IndexStore) (index_uid : string)
    (settings : list (bool * Settings)) (ts : list Task) : outcome Error (list Task * IndexStore) :=
  let '(ts, builder) := settings_loop settings ts (builder_new index store) in
  store ← milli index_uid (builder_execute builder store);
  Ok (ts, store).

(** ** [IndexScheduler::apply_index_operation] *)

Definition apply_index_operation (not_found : ForeignError) (must_stop : nat → bool) (files : gmap Uuid Z)
    (index : Index) (store : IndexStore) (operation : IndexOperation.t)
    : outcome Error (list Task * IndexStore) :=
  match operation with
  | IndexOperation.DocumentClear index_uid ts => apply_document_clear index store index_uid ts
  | IndexOperation.DocumentOperation index_uid primary_key operations ts =>
      apply_document_operation not_found must_stop files index store index_uid primary_key operations ts
  | IndexOperation.DocumentEdition index_uid task => apply_document_edition index store index_uid task
  | IndexOperation.DocumentDeletion index_uid ts => apply_document_deletion index store index_uid ts
  | IndexOperation.Settings index_uid settings ts => apply_settings index store index_uid settings ts
  | IndexOperation.DocumentClearAndSetting index_uid cleared_tasks settings settings_tasks =>
      '(import_tasks, store) ← apply_document_clear index store index_uid cleared_tasks;
      '(settings_tasks, store) ← apply_settings index store index_uid settings settings_tasks;
      Ok (settings_tasks ++ import_tasks, store)
  end.
End index_operation.

(** ** Every task comes out processed *)

Section facts.
Context `{Indexer}.

Lemma clear_tasks_progressed count ts : ∀ found out,
  ∃ found' ts', foldl (clear_task count) (found, out) ts = (found', out ++ ts') ∧ Forall2 progressed ts ts'.
Proof.
  induction ts as [|t ts IH]; intros found out; cbn [foldl].
  { exists found, []. by rewrite app_nil_r. }
  assert (∃ f t', clear_task count (found, out) t = (f, out ++ [t']) ∧ progressed t t') as (f & t' & -> & Ht).
  { unfold clear_task. destruct (kind t) eqn:Hk; eexists _, _; (split; [done|]);
      by apply with_status_details_progressed. }
  destruct (IH f (out ++ [t'])) as (found' & ts' & -> & Hts).
  exists found', (t' :: ts'). rewrite <-app_assoc. split; [done|by constructor].
Qed.

Lemma apply_document_clear_progressed index store i ts ts' store' :
  apply_document_clear index store i ts = Ok (ts', store') → Forall2 progressed ts ts'.
Proof.
  unfold apply_document_clear. intros Hr. inv_bind Hr. destruct r as [count store1]. simplify_eq.
  destruct (clear_tasks_progressed count ts false []) as (f & ts1 & -> & Hts). done.
Qed.

Lemma prepare_changes_length stop index store pk ops main stats st :
  prepare_changes stop index store pk ops = Ok (main, stats, st) → length stats = length ops.
Proof. intros Hr%into_changes_length. by rewrite length_fmap in Hr. Qed.

(** What a task becomes from the statistics of its payload. *)
Record credited (s : PayloadStats) (t t' : Task) : Prop := {
  cr_progressed : progressed t t';
  cr_status : status t' = match ps_error s with Some _ => Status.Failed | None => Status.Succeeded end;
  cr_error : error t' = match ps_error s with Some e => Some (user_error_response e) | None => error t end;
  cr_count : details t' = Some (Details.DocumentDeletion
                 (match details t with Some (Details.DocumentDeletion n _) => n | _ => 0 end) (Some (document_count s)))
    ∨ details t' = Some (Details.DocumentAdditionOrUpdate
                 (match details t with Some (Details.DocumentAdditionOrUpdate n _) => n | _ => 0 end)
                 (Some (document_count s)));
}.

Lemma credit_payload_credited s t t' : credit_payload s t = Ok t' → credited s t t'.
Proof.
  unfold credit_payload. destruct (ps_error s) as [e|] eqn:He.
  - change (details (with_error t (Some (user_error_response e)))) with (details t).
    destruct (details t) as [[]|] eqn:Hd; try done; intros [= <-];
      (constructor; [by constructor|by rewrite He|by rewrite He|rewrite Hd; simpl; auto]).
  - destruct (details t) as [[]|] eqn:Hd; try done; intros [= <-];
      (constructor; [by constructor|by rewrite He|by rewrite He|rewrite Hd; simpl; auto]).
Qed.

Lemma credit_payloads_credited stats : ∀ ts ts',
  length stats = length ts → credit_payloads stats ts = Ok ts' → Forall3 credited stats ts ts'.
Proof.
  induction stats as [|s stats IH]; intros [|t ts] ts' Hl Hr; cbn [credit_payloads] in Hr; try done;
    [simplify_eq; constructor|].
  inv_bind Hr. inv_bind Hr. simplify_eq. constructor; [by apply credit_payload_credited|].
  apply IH; [simpl in Hl; lia|done].
Qed.

Lemma Forall3_progressed stats ts ts' : Forall3 credited stats ts ts' → Forall2 progressed ts ts'.
Proof. induction 1 as [|???? ?? []]; by constructor. Qed.

Lemma apply_document_operation_credited nf stop files index store i pk ops ts ts' store' :
  apply_document_operation nf stop files index store i pk ops ts = Ok (ts', store') →
  length ops = length ts →
  ∃ main stats st, prepare_changes stop index store pk ops = Ok (main, stats, st) ∧
    Forall3 credited stats ts ts' ∧
    if existsb has_no_error ts' then ∃ embedders,
      index_changes index (payload_changes main (pr_primary_key st)) embedders store = Ok store'
    else store' = store.
Proof.
  unfold apply_document_operation. intros Hr Hl. inv_bind Hr. inv_bind Hr. rename r0 into emb.
  inv_bind Hr. inv_bind Hr. destruct r1 as [[main stats] st].
  destruct (prepare_changes stop index store pk ops) as [[[main1 stats1] st1]|?|] eqn:Hloop; [|done|done].
  match goal with Hm : milli _ _ = Ok _ |- _ => cbn in Hm; simplify_eq end. inv_bind Hr. rename r1 into ts1.
  assert (Hcr : Forall3 credited stats ts ts1).
  { apply credit_payloads_credited; [|done]. rewrite <-Hl. by eapply prepare_changes_length. }
  exists main, stats, st. split; [done|].
  destruct (existsb has_no_error ts1) eqn:He; [|simplify_eq; by rewrite He].
  inv_bind Hr. inv_bind Hr. simplify_eq. rewrite He. split; [done|].
  match goal with Hm : milli _ (index_changes _ _ _ _) = Ok _ |- _ => rename Hm into Hidx end.
  exists emb. destruct (index_changes _ _ _ _); by simplify_eq/=.
Qed.

Lemma apply_document_edition_progressed index store i t ts' store' :
  apply_document_edition index store i t = Ok (ts', store') → Forall2 progressed [t] ts'.
Proof.
  unfold apply_document_edition. destruct (kind t) eqn:Hk; try done. intros Hr. inv_bind Hr.
  destruct (details t) as [[]|]; try done. destruct (bm_is_empty r); [simplify_eq; by repeat constructor|].
  inv_bind Hr. inv_bind Hr. destruct (has_no_error t); [|simplify_eq; by repeat constructor].
  do 4 inv_bind Hr. simplify_eq. by repeat constructor.
Qed.

(** The number of documents a deletion task reports. *)
Definition deleted_documents (t : Task) : Z :=
  match details t with
  | Some (Details.DocumentDeletion _ (Some n)) | Some (Details.DocumentDeletionByFilter _ (Some n)) => n
  | _ => 0
  end.

Lemma deletion_ids_grow index store ids : ∀ d : bitmap,
  d ⊆ foldl (λ d id, match external_documents_ids index store !! id with
                     | Some id => {[id]} ∪ d | None => d end) d ids.
Proof.
  induction ids as [|id ids IH]; intros d; [done|]. cbn [foldl].
  destruct (external_documents_ids index store !! id); [|apply IH]. etransitivity; [|apply IH]. set_solver.
Qed.

Lemma delete_documents_step index store D out t D' out' :
  delete_documents_of index store (D, out) t = Ok (D', out') →
  ∃ t', out' = out ++ [t'] ∧ progressed t t' ∧ D ⊆ D' ∧ deleted_documents t' = bm_len D' - bm_len D ∧
    (status t' = Status.Failed → D' = D).
Proof.
  unfold delete_documents_of. destruct (kind t) eqn:Hk; try done; intros Hr.
  - simplify_eq. eexists. split; [done|]. split; [by constructor|]. split; [apply deletion_ids_grow|]. by split.
  - inv_bind Hr. destruct r as [[D1 t1] st].
    match goal with Hm : match ?x with _ => _ end = Ok _ |- _ => destruct x as [c|e|]; simplify_eq/= end.
    + destruct (details t1) as [[]|]; try done. simplify_eq. eexists. split; [done|]. split; [by constructor|].
      split; [set_solver|]. by split.
    + destruct (details t) as [[]|]; try done. simplify_eq. eexists. split; [done|]. split; [by constructor|].
      split; [done|]. by split.
Qed.

Definition total_documents (ts : list Task) : Z := foldr (λ t n, deleted_documents t + n) 0 ts.

Lemma delete_documents_loop index store ts : ∀ D out D' out',
  for_each (delete_documents_of index store) (D, out) ts = Ok (D', out') →
  ∃ ts', out' = out ++ ts' ∧ Forall2 progressed ts ts' ∧ D ⊆ D' ∧
    total_documents ts' = bm_len D' - bm_len D ∧ Forall (λ t, 0 ≤ deleted_documents t) ts'.
Proof.
  induction ts as [|t ts IH]; intros D out D' out' Hr; cbn [for_each] in Hr.
  { simplify_eq. exists []. rewrite app_nil_r. split_and!; try done. cbn. lia. }
  inv_bind Hr. destruct r as [D1 out1].
  match goal with Hs : delete_documents_of _ _ _ _ = _ |- _ =>
    apply delete_documents_step in Hs as (t' & -> & Ht & Hsub & Hn & _) end.
  apply IH in Hr as (ts' & -> & Hts & Hsub' & Hn' & Hpos). exists (t' :: ts').
  rewrite <-app_assoc. split_and!; try done; [by constructor|set_solver|cbn; fold (total_documents ts'); lia|].
  constructor; [|done]. rewrite Hn. unfold bm_len. pose proof (subseteq_size D D1 Hsub). lia.
Qed.

Lemma apply_document_deletion_effect index store i ts ts' store' :
  apply_document_deletion index store i ts = Ok (ts', store') →
  Forall2 progressed ts ts' ∧ ∃ D, for_each (delete_documents_of index store) (∅, []) ts = Ok (D, ts') ∧
    total_documents ts' = bm_len D ∧ Forall (λ t, 0 ≤ deleted_documents t) ts' ∧
    (D = ∅ ∨ existsb has_no_error ts' = false → store' = store).
Proof.
  unfold apply_document_deletion. intros Hr. inv_bind Hr. destruct r as [D ts1].
  match goal with Hs : for_each _ _ _ = _ |- _ => pose proof Hs as Hloop;
    apply delete_documents_loop in Hs as (ts2 & -> & Hts & _ & Hn & Hpos) end.
  cbn [app] in *. assert (Hn' : total_documents ts2 = bm_len D).
  { rewrite Hn. unfold bm_len. rewrite size_empty. lia. }
  destruct (bm_is_empty D) eqn:He.
  { simplify_eq. split; [done|]. by exists D. }
  inv_bind Hr. inv_bind Hr. destruct (existsb has_no_error ts2) eqn:Hx.
  - do 3 inv_bind Hr. simplify_eq. split; [done|]. exists D. split_and!; try done.
    intros [->|?]; [|congruence]. by apply bool_decide_eq_false in He.
  - simplify_eq. split; [done|]. by exists D.
Qed.

Lemma settings_loop_progressed settings : ∀ ts builder,
  length settings = length ts → Forall2 progressed ts (settings_loop settings ts builder).1.
Proof.
  induction settings as [|[b s] settings IH]; intros [|t ts] builder Hl; try done; cbn [settings_loop].
  specialize (IH ts (apply_settings_to_builder s builder) ltac:(simpl in Hl; lia)).
  destruct (settings_loop settings ts _) as [ts1 b1]. constructor; [by constructor|done].
Qed.

Lemma apply_settings_progressed index store i settings ts ts' store' :
  apply_settings index store i settings ts = Ok (ts', store') → length settings = length ts →
  Forall2 progressed ts ts'.
Proof.
  unfold apply_settings. intros Hr Hl.
  pose proof (settings_loop_progressed settings ts (builder_new index store) Hl) as Hp.
  destruct (settings_loop settings ts _) as [ts1 b1]. inv_bind Hr. by simplify_eq.
Qed.

(** The tasks an operation returns are its tasks, processed. *)
Lemma apply_index_operation_progressed nf stop files index store op create ts' store' :
  apply_index_operation nf stop files index store op = Ok (ts', store') →
  shaped (SchedBatch.IndexOperation op create) →
  ∃ ts, ts ≡ₚ IndexOperation.tasks op ∧ Forall2 progressed ts ts'.
Proof.
  destruct op as [i pk ops ts|i t|i ts|i ts|i settings ts|i cleared settings ts];
    cbn [apply_index_operation shaped IndexOperation.tasks]; intros Hr Hs.
  - exists ts. split; [done|].
    apply apply_document_operation_credited in Hr as (? & ? & ? & _ & Hc & _); [|done].
    by eapply Forall3_progressed.
  - exists [t]. split; [done|]. by eapply apply_document_edition_progressed.
  - exists ts. split; [done|]. by apply apply_document_deletion_effect in Hr as [? _].
  - exists ts. split; [done|]. by eapply apply_document_clear_progressed.
  - exists ts. split; [done|]. by eapply apply_settings_progressed.
  - inv_bind Hr. destruct r as [ts1 store1]. inv_bind Hr. destruct r as [ts2 store2]. simplify_eq.
    exists (ts ++ cleared). split; [apply Permutation_app_comm|]. apply Forall2_app.
    + by eapply apply_settings_progressed.
    + by eapply apply_document_clear_progressed.
Qed.

(** A batch of document additions and deletions, each task coming with
    its operation.  If it returns, every payload was examined in order: a task
    whose payload the user is responsible for is failed with that error and the
    other tasks of the batch are not affected; each task reports the number of
    documents of its own payload; and the documents are written to the index
    exactly when some task is left without error. *)
Theorem apply_document_operation_spec nf stop files index store i pk ops ts ts' store' :
  apply_document_operation nf stop files index store i pk ops ts = Ok (ts', store') →
  length ops = length ts →
  ∃ main stats st, prepare_changes stop index store pk ops = Ok (main, stats, st) ∧
    length stats = length ops ∧ Forall3 credited stats ts ts' ∧
    if existsb has_no_error ts' then ∃ embedders,
      index_changes index (payload_changes main (pr_primary_key st)) embedders store = Ok store'
    else store' = store.
Proof.
  intros Hr Hl.
  destruct (apply_document_operation_credited _ _ _ _ _ _ _ _ _ _ _ Hr Hl) as (main & stats & st & Hloop & Hc).
  exists main, stats, st. split; [done|]. split; [by eapply prepare_changes_length|done].
Qed.

(** A batch of document deletions, by ids and by filter.  If it
    returns, every deletion is processed; the numbers of documents they report
    are not negative and add up to the number of documents to delete, so that a
    document matched by several deletions is counted once; and the index is left
    alone when there is nothing to delete or every deletion failed. *)
Theorem apply_document_deletion_spec index store i ts ts' store' :
  apply_document_deletion index store i ts = Ok (ts', store') →
  Forall2 progressed ts ts' ∧ ∃ D, for_each (delete_documents_of index store) (∅, []) ts = Ok (D, ts') ∧
    total_documents ts' = bm_len D ∧ Forall (λ t, 0 ≤ deleted_documents t) ts' ∧
    (D = ∅ ∨ existsb has_no_error ts' = false → store' = store).
Proof. apply apply_document_deletion_effect. Qed.

(** An edition by function reports as many deleted documents as edited
    ones: both are the number of documents its filter selects, whatever the
    function did to them. *)
Theorem edition_reports_candidates index store i t ts' store' filter context code :
  kind t = KindWithContent.DocumentEdition i filter context code →
  apply_document_edition index store i t = Ok (ts', store') →
  ∃ candidates t' original_filter context' function, edition_candidates index store i filter = Ok candidates ∧
    ts' = [t'] ∧ status t' = Status.Succeeded ∧
    details t' = Some (Details.DocumentEdition (Some (bm_len candidates)) (Some (bm_len candidates))
                         original_filter context' function).
Proof.
  intros Hk Hr. unfold apply_document_edition in Hr. rewrite Hk in Hr. inv_bind Hr. rename r into c.
  exists c. destruct (details t) as [[]|]; try done. destruct (bm_is_empty c) eqn:He.
  { apply bool_decide_eq_true in He. subst c. simplify_eq. by do 4 eexists. }
  inv_bind Hr. inv_bind Hr. destruct (has_no_error t); [do 4 inv_bind Hr|]; simplify_eq; by do 4 eexists.
Qed.
End facts.

(** ** Witnesses *)

Section witnesses.
#[local] Existing Instance sample_externals.
#[local] Existing Instance sample_index_env.
#[local] Existing Instance sample_json.

(** An engine where the update file 13 holds a document without id, the others
    two documents, and the documents 1, 2 and 3 exist. *)
#[local] Instance sample_indexer : Indexer := {|
  user_error_response := λ e, match e with MissingDocumentId _ _ => "missing id" | _ => "error" end;
  error_response := λ _, "error";
  doc_error := λ _, "error";
  clear_documents := λ _ s, Ok (3, s);
  Embedders := unit;
  index_embedders := λ _ _ _, Ok ();
  advise_payload := λ _, Ok ();
  payload_content := λ u, (if (u =? 13)%Z then [JObject [("title", JNull)]]
    else [sample_document "one" "title" "a"; sample_document "four" "title" "b"])%string;
  Changes := Z;
  payload_changes := λ m _, Z.of_nat (size m);
  edition_changes := λ c _ _ _, Ok (bm_len c);
  deletion_changes := λ c _, bm_len c;
  index_changes := λ _ _ _ s, Ok s;
  number_of_documents := λ _ _, Ok 3;
  documents_ids := λ _ _, {[1; 2; 3]};
  external_documents_ids := λ _ _, {["one" := 1; "two" := 2; "three" := 3]}%string;
  fields_ids_map := λ _ _, FieldsIdsMap_new;
  stored_primary_key := λ _ _, Some "id";
  Filter := unit;
  filter_from_json := λ _, Ok (Some tt);
  filter_evaluate := λ _ _ _, Ok {[1; 3]};
  SettingsBuilder := list string;
  builder_new := λ _ _, [];
  apply_settings_to_builder := λ s b, b ++ s;
  set_primary_key := λ k b, b ++ [k];
  builder_execute := λ _ s, Ok s;
|}.

Definition sample_index : Index := 4096.
Definition sample_store : IndexStore := None.

Definition sample_import (id : TaskId) (file : Uuid) : Task :=
  mkTask id (Some 0) 10 None None None None (Some (Details.DocumentAdditionOrUpdate 2 None)) Status.Enqueued
    (KindWithContent.DocumentAdditionOrUpdate "movies" None IndexDocumentsMethod.ReplaceDocuments file 2 true).

Lemma apply_document_operation_spec_witness :
  ∃ ts' stats, apply_document_operation "" (λ _, false) {[12 := 5; 13 := 5]} sample_index sample_store "movies" None
      [DocumentOperation.Replace 12; DocumentOperation.Replace 13] [sample_import 1 12; sample_import 2 13]
      = Ok (ts', sample_store) ∧
    Forall3 credited stats [sample_import 1 12; sample_import 2 13] ts' ∧
    (status <$> ts') = [Status.Succeeded; Status.Failed].
Proof.
  eexists _. pose proof (apply_document_operation_spec "" (λ _, false) {[12 := 5; 13 := 5]} sample_index sample_store "movies" None
    [DocumentOperation.Replace 12; DocumentOperation.Replace 13] [sample_import 1 12; sample_import 2 13])
    as Hspec. destruct (Hspec _ _ eq_refl eq_refl) as (main & stats & st & _ & _ & Hc & _).
  exists stats. split; [reflexivity|]. split; [exact Hc | reflexivity].
Defined.

Definition sample_document_deletion (id : TaskId) (ids : list string) : Task :=
  mkTask id (Some 0) 10 None None None None (Some (Details.DocumentDeletion 2 None)) Status.Enqueued
    (KindWithContent.DocumentDeletion "movies" ids).

Definition sample_deleted (id : TaskId) (ids : list string) (n : Z) : Task :=
  with_status_details (sample_document_deletion id ids) Status.Succeeded
    (Some (Details.DocumentDeletion (Z.of_nat (length ids)) (Some n))).

Lemma apply_document_deletion_spec_witness :
  apply_document_deletion sample_index sample_store "movies"
      [sample_document_deletion 1 ["one"; "two"]; sample_document_deletion 2 ["one"]]
    = Ok ([sample_deleted 1 ["one"; "two"] 2; sample_deleted 2 ["one"] 0], sample_store) ∧
  Forall2 progressed [sample_document_deletion 1 ["one"; "two"]; sample_document_deletion 2 ["one"]]
    [sample_deleted 1 ["one"; "two"] 2; sample_deleted 2 ["one"] 0].
Proof.
  assert (Hr : apply_document_deletion sample_index sample_store "movies"
      [sample_document_deletion 1 ["one"; "two"]; sample_document_deletion 2 ["one"]]
    = Ok ([sample_deleted 1 ["one"; "two"] 2; sample_deleted 2 ["one"] 0], sample_store)) by (by vm_compute).
  split; [exact Hr|]. exact (proj1 (apply_document_deletion_spec _ _ _ _ _ _ Hr)).
Defined.

Definition sample_edition : Task :=
  mkTask 1 (Some 0) 10 None None None None
    (Some (Details.DocumentEdition None None None None "doc.seen = true")) Status.Enqueued
    (KindWithContent.DocumentEdition "movies" None None "doc.seen = true").

Lemma edition_reports_candidates_witness :
  ∃ t', apply_document_edition sample_index sample_store "movies" sample_edition = Ok ([t'], sample_store) ∧
    ∃ f c fn, details t' = Some (Details.DocumentEdition (Some 3) (Some 3) f c fn).
Proof.
  set (t' := with_status_details sample_edition Status.Succeeded
    (Some (Details.DocumentEdition (Some 3) (Some 3) None None "doc.seen = true"))).
  assert (Hr : apply_document_edition sample_index sample_store "movies" sample_edition = Ok ([t'], sample_store))
    by (by vm_compute).
  exists t'. split; [exact Hr|].
  destruct (edition_reports_candidates sample_index sample_store "movies" sample_edition [t'] sample_store
    None None "doc.seen = true" eq_refl Hr) as (cand & t1 & f & c & fn & Hc & Ht & _ & Hd).
  injection Ht as Ht. subst t1. injection Hc as Hc. subst cand. exists f, c, fn. exact Hd.
Defined.
End witnesses.
