(* ===== verification/Archive.v ===== *)
(** * Snapshots and dumps

    [crates/index-scheduler/src/scheduler/process_snapshot_creation.rs] and
    [process_dump_creation.rs]: which tasks, update files, batches and indexes
    enter an archive.  Writing the archive itself is input and output; what it
    contains is a value. *)

From S2P Require Import Prelude TaskTypes DetailsView SchedUtils TaskQueue BatchQueue Queue Autobatcher CreateBatch ProcessBatch Tick Lru IndexMap Versions Ids Documents IndexOp.
Open Scope Z_scope.

(** Copying or dumping the content of an index, and the name of a dump. *)
Class Archiver `{Indexer} := {
  copy_index : Index → IndexStore → outcome MilliError ();
  dump_index : string → Index → IndexStore → outcome Error ();
  format_dump_uid : DateTime → string;
}.

Section archive.
Context `{Archiver}.

(** [try_for_each_index] and the loops like it: every index is opened in turn;
    [sch k] is the schedule of the other threads during the [k]-th opening. *)
Fixpoint for_each_index (opts : MapperOptions) (sch : nat → Schedule)
    (f : string → Index → outcome Error ()) (k : nat) (names : list string) (mapper : IndexMapper)
    : outcome Error () * IndexMapper :=
  match names with
  | [] => (Ok (), mapper)
  | name :: names =>
      match mapper_index opts (sch k) mapper name with
      | (Ok index, mapper) =>
          match f name index with
          | Ok _ => for_each_index opts sch f (S k) names mapper
          | r => (r, mapper)
          end
      | (Err e, mapper) => (Err e, mapper)
      | (Panic, mapper) => (Panic, mapper)
      end
  end.

(** ** Snapshots *)

(** The files of a snapshot: the task database, the update files and the
    indexes. *)
Record Snapshot := mkSnapshot {
  sn_queue : Queue;
  sn_files : gmap Uuid Z;
  sn_indexes : gmap string Uuid;
}.

(** The loop over the enqueued tasks: [fs::copy] fails on a missing file. *)
Fixpoint copy_update_files (not_found : ForeignError) (q : Queue) (ids : list TaskId) (copied : gmap Uuid Z)
    : outcome Error (gmap Uuid Z) :=
  match ids with
  | [] => Ok copied
  | id :: ids =>
      task ← ok_or CorruptedTaskQueue (get_task (tasks q) id);
      match content_uuid task with
      | Some u =>
          match file_store q !! u with
          | Some size => copy_update_files not_found q ids (<[u := size]> copied)
          | None => Err (IoError not_found)
          end
      | None => copy_update_files not_found q ids copied
      end
  end.

(** [IndexScheduler::process_snapshot]: the processed tasks with the snapshot. *)
Definition process_snapshot (not_found : ForeignError) (opts : MapperOptions) (sch : nat → Schedule)
    (q : Queue) (store : IndexStore) (mapper : IndexMapper) (ts : list Task)
    : outcome Error (list Task * Snapshot) * IndexMapper :=
  match copy_update_files not_found q (bm_iter (get_status (tasks q) Status.Enqueued)) ∅ with
  | Ok files =>
      let '(r, mapper) := for_each_index opts sch (λ name index, milli name (copy_index index store)) 0
                            (index_names mapper) mapper in
      (_ ← r;
       Ok ((λ t, with_status_details t Status.Succeeded (details t)) <$> ts,
           mkSnapshot q files (index_mapping mapper)), mapper)
  | Err e => (Err e, mapper)
  | Panic => (Panic, mapper)
  end.

(** ** Dumps *)

Record Dump := mkDump {
  d_tasks : list (Task * option Uuid);
  d_batches : list Batch;
  d_indexes : list string;
}.

(** A task as it is dumped: the dump task itself is marked as succeeded. *)
Definition dump_task (self : TaskId) (started_at finished_at : DateTime) (t : Task) : Task :=
  if uid t =? self then
    mkTask (uid t) None (enqueued_at t) (Some started_at) (Some finished_at) (error t) (canceled_by t)
      (details t) Status.Succeeded (kind t)
  else
    mkTask (uid t) None (enqueued_at t) (TaskTypes.started_at t) (TaskTypes.finished_at t) (error t)
      (canceled_by t) (details t) (status t) (kind t).

(** The loop over the tasks: [must_stop] is read before each task and again
    before its update file, which is dumped while the task is enqueued. *)
Fixpoint dump_tasks (not_found : ForeignError) (must_stop : nat → bool) (self : TaskId)
    (started_at finished_at : DateTime) (files : gmap Uuid Z) (k : nat) (ts : list Task)
    : outcome Error (list (Task * option Uuid)) :=
  match ts with
  | [] => Ok []
  | t :: ts =>
      if must_stop k then Err AbortedTask else
      '(file, k) ←
        match content_uuid t with
        | Some u =>
            if must_stop (S k) then Err AbortedTask else
            if bool_decide (status t = Status.Enqueued) then
              match files !! u with Some _ => Ok (Some u, S (S k)) | None => Err (FileStore not_found) end
            else Ok (None, S (S k))
        | None => Ok (None, S k)
        end;
      rest ← dump_tasks not_found must_stop self started_at finished_at files k ts;
      Ok ((dump_task self started_at finished_at t, file) :: rest)
  end.

(** A batch as it is dumped: it is compared with the id of the dump _task_. *)
Definition dump_batch (self : TaskId) (finished_at : DateTime) (b : Batch) : Batch :=
  if b_uid b =? self then
    let s := b_stats b in
    mkBatch (b_uid b) (b_progress b) (b_details b)
      (mkBatchStats (total_nb_tasks s) {[Status.Succeeded := total_nb_tasks s]} (bs_types s) (bs_index_uids s)
         (progress_trace s) (write_channel_congestion s) (internal_database_sizes s))
      (b_started_at b) (Some finished_at) (b_enqueued_at b) (b_stop_reason b)
  else b.

(** The values of a table, by increasing key. *)
Definition table_values {A} (m : gmap Z A) : list A :=
  omap (λ k, m !! k) (bm_iter (dom m)).

(** The loop over the batches reads [must_stop] before each of them. *)
Fixpoint dump_batches (must_stop : nat → bool) (self : TaskId) (finished_at : DateTime) (k : nat)
    (bs : list Batch) : outcome Error (list Batch) :=
  match bs with
  | [] => Ok []
  | b :: bs =>
      if must_stop k then Err AbortedTask else
      rest ← dump_batches must_stop self finished_at (S k) bs;
      Ok (dump_batch self finished_at b :: rest)
  end.

(** [IndexScheduler::process_dump_creation].  [stop_task], [stop_batch] and
    [stop_end] are the readings of [must_stop_processing]. *)
Definition process_dump_creation (not_found : ForeignError) (opts : MapperOptions) (sch : nat → Schedule)
    (stop_task stop_batch : nat → bool) (stop_end : bool) (started_at finished_at : DateTime)
    (q : Queue) (store : IndexStore) (mapper : IndexMapper) (task : Task)
    : outcome Error (list Task * Dump) * IndexMapper :=
  match kind task with
  | KindWithContent.DumpCreation _ _ =>
      let queues :=
        ts ← dump_tasks not_found stop_task (uid task) started_at finished_at (file_store q) 0
               (table_values (all_tasks (tasks q)));
        bs ← dump_batches stop_batch (uid task) finished_at 0 (table_values (all_batches (batches q)));
        Ok (ts, bs) in
      match queues with
      | Ok (ts, bs) =>
          let names := index_names mapper in
          let '(r, mapper) := for_each_index opts sch (λ name index, dump_index name index store) 0
                                names mapper in
          (_ ← r;
           if stop_end then Err AbortedTask else
           Ok ([with_status_details task Status.Succeeded
                  (Some (Details.Dump (Some (format_dump_uid started_at))))], mkDump ts bs names), mapper)
      | Err e => (Err e, mapper)
      | Panic => (Panic, mapper)
      end
  | _ => (Panic, mapper)
  end.
End archive.

(** ** What an archive contains *)

Section facts.
Context `{Archiver}.

Lemma table_values_uid {A} (f : A → Z) (m : gmap Z A) :
  (∀ k a, m !! k = Some a → f a = k) → f <$> table_values m = bm_iter (dom m).
Proof.
  intros Hf. unfold table_values.
  assert (Hl : ∀ k, k ∈ bm_iter (dom m) → is_Some (m !! k))
    by (intros k Hk%elem_of_bm_iter; by apply elem_of_dom).
  induction (bm_iter (dom m)) as [|k l IH]; [done|]. destruct (Hl k) as [a Ha]; [by left|].
  cbn. rewrite Ha. cbn. f_equal; [by apply Hf|]. apply IH. intros k' Hk'. apply Hl. by right.
Qed.

Lemma elem_of_table_values {A} (m : gmap Z A) a :
  a ∈ table_values m ↔ ∃ k, m !! k = Some a.
Proof.
  unfold table_values. rewrite list_elem_of_omap. split; [intros (k & _ & ?); eauto|].
  intros [k Hk]. exists k. split; [|done]. apply elem_of_bm_iter, elem_of_dom. eauto.
Qed.

(** The update files of the tasks [ids]. *)
Definition files_of (q : Queue) (ids : list TaskId) : list Uuid :=
  omap (λ id, all_tasks (tasks q) !! id ≫= content_uuid) ids.

Lemma elem_of_files_of q ids u : u ∈ files_of q ids ↔ owned q ids u.
Proof.
  unfold files_of, owned. rewrite list_elem_of_omap. setoid_rewrite bind_Some. naive_solver.
Qed.

Lemma copy_update_files_ok nf q ids : ∀ copied,
  (∀ id, id ∈ ids → ∃ t, all_tasks (tasks q) !! id = Some t ∧
     ∀ u, content_uuid t = Some u → is_Some (file_store q !! u)) →
  ∃ files, copy_update_files nf q ids copied = Ok files ∧
    ∀ u, files !! u = if decide (u ∈ files_of q ids) then file_store q !! u else copied !! u.
Proof.
  induction ids as [|id ids IH]; intros copied Hids; cbn [copy_update_files].
  { exists copied. split; [done|]. intros u. by rewrite decide_False by (by intros []%not_elem_of_nil). }
  destruct (Hids id) as (t & Ht & Hu); [by left|]. unfold get_task. rewrite Ht. cbn [ok_or mbind outcome_bind].
  assert (Hrest : ∀ id, id ∈ ids → ∃ t, all_tasks (tasks q) !! id = Some t ∧
    ∀ u, content_uuid t = Some u → is_Some (file_store q !! u)) by (intros; apply Hids; by right).
  unfold files_of. cbn [omap list_omap]. rewrite Ht. cbn [mbind option_bind]. fold (files_of q ids).
  destruct (content_uuid t) as [u|] eqn:Hc; [|apply (IH copied Hrest)].
  destruct (Hu u eq_refl) as [size Hsize]. rewrite Hsize.
  destruct (IH (<[u := size]> copied) Hrest) as (files & -> & Hf). exists files. split; [done|].
  intros u'. rewrite Hf. destruct (decide (u' = u)) as [->|Hne].
  - rewrite lookup_insert_eq, Hsize. rewrite (decide_True (P := u ∈ u :: _)) by (by left). by case_decide.
  - rewrite lookup_insert_ne by done. destruct (decide (u' ∈ files_of q ids));
      [rewrite decide_True by (by right)|rewrite decide_False by (by rewrite elem_of_cons; intros [])]; done.
Qed.

(** The update files a snapshot of a queue in order contains. *)
Lemma snapshot_files nf q :
  queue_ok q →
  ∃ files, copy_update_files nf q (bm_iter (get_status (tasks q) Status.Enqueued)) ∅ = Ok files ∧
    (∀ u, is_Some (files !! u) ↔
       ∃ id t, all_tasks (tasks q) !! id = Some t ∧ status t = Status.Enqueued ∧ content_uuid t = Some u) ∧
    (∀ u size, files !! u = Some size → file_store q !! u = Some size).
Proof.
  intros Hq. pose proof (ok_tq _ Hq) as Hwf.
  assert (Henq : ∀ id, id ∈ bm_iter (get_status (tasks q) Status.Enqueued) ↔
    ∃ t, all_tasks (tasks q) !! id = Some t ∧ status t = Status.Enqueued)
    by (intros; rewrite elem_of_bm_iter; apply (wf_status _ Hwf)).
  destruct (copy_update_files_ok nf q (bm_iter (get_status (tasks q) Status.Enqueued)) ∅) as (files & Hc & Hf).
  { intros id (t & Ht & Hs)%Henq. exists t. split; [done|]. intros u. by apply (ok_files _ Hq id). }
  assert (Hown : ∀ u, u ∈ files_of q (bm_iter (get_status (tasks q) Status.Enqueued)) ↔
    ∃ id t, all_tasks (tasks q) !! id = Some t ∧ status t = Status.Enqueued ∧ content_uuid t = Some u).
  { intros u. rewrite elem_of_files_of. unfold owned. setoid_rewrite Henq. naive_solver. }
  exists files. split; [done|]. split.
  - intros u. rewrite Hf, <-Hown. case_decide as Hd; [|rewrite lookup_empty; split; [by intros []|done]].
    split; [done|]. intros _. apply Hown in Hd as (id & t & Ht & Hs & Hu). by apply (ok_files _ Hq id t u).
  - intros u size. rewrite Hf. case_decide; [done|by rewrite lookup_empty].
Qed.

Lemma process_snapshot_progressed nf opts sch q store m ts ts' sn m' :
  process_snapshot nf opts sch q store m ts = (Ok (ts', sn), m') → Forall2 progressed ts ts'.
Proof.
  unfold process_snapshot. destruct (copy_update_files _ _ _ _); try done.
  destruct (for_each_index _ _ _ _ _ _) as [r m1]. intros [= Hr ->]. inv_bind Hr. simplify_eq.
  apply Forall2_fmap_r. apply Forall_Forall2_diag, Forall_forall. intros t _. by constructor.
Qed.

(** A snapshot of a queue in order.  Copying its update files cannot
    fail; the snapshot holds the files of the tasks still enqueued and no other,
    unchanged, so that an instance restored from it is in order: all the pending
    tasks have their file.  The snapshot tasks come out succeeded. *)
Theorem snapshot_restores nf opts sch q store m ts :
  queue_ok q →
  ((∃ files, copy_update_files nf q (bm_iter (get_status (tasks q) Status.Enqueued)) ∅ = Ok files) ∧
   ∀ ts' sn m', process_snapshot nf opts sch q store m ts = (Ok (ts', sn), m') →
     sn_queue sn = q ∧ queue_ok (set_file_store (sn_files sn) (sn_queue sn)) ∧
     (∀ u, is_Some (sn_files sn !! u) ↔
        ∃ id t, all_tasks (tasks q) !! id = Some t ∧ status t = Status.Enqueued ∧ content_uuid t = Some u) ∧
     Forall2 progressed ts ts').
Proof.
  intros Hq. destruct (snapshot_files nf q Hq) as (files & Hc & Hin & Hsame). split; [by eauto|].
  intros ts' sn m' Hr. pose proof (process_snapshot_progressed _ _ _ _ _ _ _ _ _ _ Hr) as Hp.
  unfold process_snapshot in Hr. rewrite Hc in Hr.
  destruct (for_each_index _ _ _ _ _ _) as [r m1]. injection Hr as Hr <-. inv_bind Hr. simplify_eq.
  cbn [sn_queue sn_files]. split; [done|]. split; [|done].
  destruct Hq. constructor; try done. cbn [set_file_store tasks file_store].
  intros id t u Ht Hs Hu. apply Hin. eauto.
Qed.

(** The tasks of a dump that is not stopped. *)
Lemma dump_tasks_ok nf self d1 d2 files ts : ∀ k,
  (∀ t u, t ∈ ts → status t = Status.Enqueued → content_uuid t = Some u → is_Some (files !! u)) →
  dump_tasks nf (λ _, false) self d1 d2 files k ts =
    Ok ((λ t, (dump_task self d1 d2 t,
               if bool_decide (status t = Status.Enqueued) then content_uuid t else None)) <$> ts).
Proof.
  induction ts as [|t ts IH]; intros k Hf; [done|]. cbn [dump_tasks fmap list_fmap].
  assert (Hf' : ∀ t u, t ∈ ts → status t = Status.Enqueued → content_uuid t = Some u → is_Some (files !! u))
    by (intros t' u Ht'; apply Hf; by right).
  destruct (content_uuid t) as [u|] eqn:Hu.
  - case_bool_decide as Hs; [|cbn; by rewrite IH].
    destruct (Hf t u) as [x ->]; [by left|done..|]. cbn. by rewrite IH.
  - cbn. rewrite IH by done. cbn. by case_bool_decide.
Qed.

(** The task queue of a dump of a queue in order, when the dump is not
    stopped.  Every task is dumped once, by increasing id, and refers to no
    batch; the dump task itself is dumped as succeeded, so that importing the
    dump does not dump again, and the other tasks keep their status; the update
    file of a task is dumped exactly if the task is still enqueued. *)
Theorem dump_tasks_spec nf q self d1 d2 :
  queue_ok q →
  ∃ out, dump_tasks nf (λ _, false) self d1 d2 (file_store q) 0 (table_values (all_tasks (tasks q))) = Ok out ∧
    (uid ∘ fst <$> out) = bm_iter (dom (all_tasks (tasks q))) ∧
    ∀ t' f, (t', f) ∈ out → ∃ t, all_tasks (tasks q) !! uid t' = Some t ∧ kind t' = kind t ∧ batch_uid t' = None ∧
      status t' = (if uid t' =? self then Status.Succeeded else status t) ∧
      f = (if bool_decide (status t = Status.Enqueued) then content_uuid t else None).
Proof.
  intros Hq. eexists. split.
  { apply dump_tasks_ok. intros t u [id Ht]%elem_of_table_values Hs Hu. by apply (ok_files _ Hq id t u). }
  split.
  - rewrite <-list_fmap_compose, <-(table_values_uid uid _ (wf_uid _ (ok_tq _ Hq))).
    apply list_fmap_ext. intros i t _. cbn. unfold dump_task. by destruct (uid t =? self).
  - intros t' f (t & Heq & [id Ht]%elem_of_table_values)%list_elem_of_fmap. simplify_eq.
    pose proof (wf_uid _ (ok_tq _ Hq) _ _ Ht) as Hid. exists t.
    unfold dump_task. destruct (uid t =? self) eqn:Hself; cbn; rewrite Hid in *; rewrite ?Hself; done.
Qed.

Lemma process_dump_progressed nf opts sch s1 s2 s3 d1 d2 q store m t ts' d m' :
  process_dump_creation nf opts sch s1 s2 s3 d1 d2 q store m t = (Ok (ts', d), m') → Forall2 progressed [t] ts'.
Proof.
  unfold process_dump_creation. destruct (kind t) eqn:Hk; try done.
  destruct (ts ← _; _) as [[ts bs]|?|]; try done.
  destruct (for_each_index _ _ _ _ _ _) as [r m1]. intros [= Hr ->]. inv_bind Hr.
  destruct s3; [done|]. simplify_eq. by repeat constructor.
Qed.

(** A finished batch whose id happens to be that of the dump task is
    rewritten in the dump: all its tasks are counted as succeeded and its
    finishing date is the date of the dump. *)
Theorem dump_rewrites_batch self d2 b n :
  b_uid b = self → bs_status (b_stats b) = {[Status.Failed := n]} → total_nb_tasks (b_stats b) = n →
  dump_batches (λ _, false) self d2 0 [b] = Ok [dump_batch self d2 b] ∧
  bs_status (b_stats (dump_batch self d2 b)) = {[Status.Succeeded := n]} ∧
  b_finished_at (dump_batch self d2 b) = Some d2.
Proof.
  intros <- _ <-. split; [done|]. unfold dump_batch. rewrite Z.eqb_refl. by split.
Qed.
End facts.

(** ** Witnesses *)

Section witnesses.
#[local] Existing Instance sample_externals.
#[local] Existing Instance sample_externals_ok.
#[local] Existing Instance sample_index_env.
#[local] Existing Instance sample_json.
#[local] Existing Instance sample_indexer.

(** Copies never fail. *)
#[local] Instance sample_archiver : Archiver := {|
  copy_index := λ _ _, Ok ();
  dump_index := λ _ _ _, Ok ();
  format_dump_uid := λ _, "dump";
|}.

Definition sample_error : ForeignError := "".

(** A queue with the file 12, and a task that imports it. *)
Definition sample_kind : KindWithContent.t :=
  KindWithContent.DocumentAdditionOrUpdate "movies" None IndexDocumentsMethod.ReplaceDocuments 12 2 true.
Definition sample_queue : Queue :=
  set_tasks (tq_register TaskQueue_new (new_task 10 0 sample_kind)) (set_file_store {[12 := 5]} (Queue_new 10)).

Lemma sample_queue_ok : queue_ok sample_queue.
Proof.
  apply (reachable_ok 10 (sample_queue, ProcessingTasks_new)).
  eapply rtc_l; [apply (step_file (Queue_new 10) ProcessingTasks_new 12 5); reflexivity|].
  apply rtc_once.
  apply (step_register _ _ 10 sample_kind None false (new_task 10 0 sample_kind));
    [intros t; by vm_compute | done | | reflexivity].
  intros u [= <-]. split; [by eexists|]. intros id2 t2. by vm_compute.
Qed.

Definition sample_snapshot_task : Task := new_task 10 1 KindWithContent.SnapshotCreation.

Definition sample_snapshot : Snapshot := mkSnapshot sample_queue {[12 := 5]} ∅.
Definition empty_mapper : IndexMapper := mkIndexMapper sample_map ∅ ∅ None.

Lemma process_sample_snapshot :
  process_snapshot sample_error sample_opts (λ _, quiet_schedule) sample_queue sample_store empty_mapper
      [sample_snapshot_task]
    = (Ok ([with_status_details sample_snapshot_task Status.Succeeded None], sample_snapshot), empty_mapper).
Proof.
  unfold process_snapshot.
  assert (copy_update_files sample_error sample_queue (bm_iter (get_status (tasks sample_queue) Status.Enqueued)) ∅ =
    Ok {[12 := 5]}) as -> by (vm_compute; reflexivity). reflexivity.
Qed.

Lemma snapshot_restores_witness :
  queue_ok (set_file_store {[12 := 5]} sample_queue) ∧
  Forall2 progressed [sample_snapshot_task] [with_status_details sample_snapshot_task Status.Succeeded None].
Proof.
  destruct (snapshot_restores sample_error sample_opts (λ _, quiet_schedule) sample_queue sample_store
    empty_mapper [sample_snapshot_task] sample_queue_ok) as [_ Hs].
  destruct (Hs _ _ _ process_sample_snapshot) as (_ & Hq & _ & Hp).
  split; [exact Hq | exact Hp].
Defined.

Lemma dump_tasks_spec_witness :
  dump_tasks sample_error (λ _, false) 0 20 30 (file_store sample_queue) 0 (table_values (all_tasks (tasks sample_queue)))
    = Ok [(dump_task 0 20 30 (new_task 10 0 sample_kind), Some 12)] ∧
  status (dump_task 0 20 30 (new_task 10 0 sample_kind)) = Status.Succeeded.
Proof.
  destruct (dump_tasks_spec sample_error sample_queue 0 20 30 sample_queue_ok) as (out & Hout & _ & Hin).
  assert (Hr : dump_tasks sample_error (λ _, false) 0 20 30 (file_store sample_queue) 0
      (table_values (all_tasks (tasks sample_queue))) = Ok [(dump_task 0 20 30 (new_task 10 0 sample_kind), Some 12)])
    by (by vm_compute).
  split; [exact Hr|]. rewrite Hr in Hout. injection Hout as Hout.
  destruct (Hin (dump_task 0 20 30 (new_task 10 0 sample_kind)) (Some 12)) as (t & _ & _ & _ & Hs & _);
    [rewrite <-Hout; by left | exact Hs].
Defined.

(** A batch of one task that failed, with the id of a later dump task. *)
Definition sample_failed_batch : Batch :=
  mkBatch 3 None DetailsView_default
    (mkBatchStats 1 {[Status.Failed := 1]} ∅ ∅ object_empty None object_empty) 20 (Some 25) None "".

Lemma dump_rewrites_batch_witness :
  bs_status (b_stats sample_failed_batch) = {[Status.Failed := 1]} ∧
  bs_status (b_stats (dump_batch 3 40 sample_failed_batch)) = {[Status.Succeeded := 1]}.
Proof.
  split; [reflexivity|].
  exact (proj1 (proj2 (dump_rewrites_batch 3 40 sample_failed_batch 1 eq_refl eq_refl eq_refl))).
Defined.
End witnesses.
