(* ===== verification/Upgrade.v ===== *)
(** * The upgrade of one index

    [crates/milli-core/src/update/upgrade]: [mod.rs] chooses the steps from the
    version of the index and runs them, [v1_12.rs] to [v1_15.rs] are the steps.
    What a step rebuilds in the index is the class [Upgrader]. *)

From S2P Require Import Prelude TaskTypes SchedUtils TaskQueue BatchQueue Queue Lru IndexMap Versions Ids Documents IndexOp Archive.
Open Scope Z_scope.

Class Upgrader `{Archiver} := {
  reindex_field_distribution : Index → IndexStore → outcome MilliError IndexStore;
  create_documents_stats : Index → IndexStore → outcome MilliError IndexStore;
  upgrade_vector_store : Index → IndexStore → outcome MilliError IndexStore;
  recompute_word_fst : Index → IndexStore → outcome MilliError IndexStore;
  get_index_version : Index → IndexStore → option Version;
  put_index_version : Index → Version → IndexStore → IndexStore;
  cannot_upgrade_to_version : Version → MilliError;
  create_version_file : Version → outcome Error ();
}.

(** The version written in an index is read back. *)
Class UpgraderOk `{Upgrader} := {
  get_put_index_version : ∀ i v s, get_index_version i (put_index_version i v s) = Some v;
}.

Module UpgradeIndex.
Inductive t :=
| V1_12_To_V1_12_3
| V1_12_3_To_V1_13_0
| V1_13_0_To_V1_13_1
| V1_13_1_To_Latest_V1_13
| Latest_V1_13_To_Latest_V1_14
| Latest_V1_14_To_Latest_V1_15
| ToCurrentNoOp.
End UpgradeIndex.

Section upgrade.
Context `{Upgrader}.

(** The steps: whether the cached statistics must be computed again, with the
    index. *)
Definition upgrade_v1_12 (index : Index) (store : IndexStore) : outcome MilliError (bool * IndexStore) :=
  store ← reindex_field_distribution index store; Ok (true, store).

Definition upgrade_v1_12_3 (store : IndexStore) : outcome MilliError (bool * IndexStore) := Ok (true, store).

Definition upgrade_v1_13_0 (index : Index) (store : IndexStore) : outcome MilliError (bool * IndexStore) :=
  store ← create_documents_stats index store; Ok (true, store).

Definition upgrade_v1_13_1 (store : IndexStore) : outcome MilliError (bool * IndexStore) := Ok (false, store).

Definition upgrade_v1_13 (index : Index) (store : IndexStore) : outcome MilliError (bool * IndexStore) :=
  store ← upgrade_vector_store index store; Ok (false, store).

Definition upgrade_v1_14 (index : Index) (store : IndexStore) : outcome MilliError (bool * IndexStore) :=
  store ← recompute_word_fst index store; Ok (false, store).

(** [UpgradeIndex::upgrade]. *)
Definition upgrade_step (u : UpgradeIndex.t) (index : Index) (store : IndexStore)
    : outcome MilliError (bool * IndexStore) :=
  match u with
  | UpgradeIndex.V1_12_To_V1_12_3 => upgrade_v1_12 index store
  | UpgradeIndex.V1_12_3_To_V1_13_0 => upgrade_v1_12_3 store
  | UpgradeIndex.V1_13_0_To_V1_13_1 => upgrade_v1_13_0 index store
  | UpgradeIndex.V1_13_1_To_Latest_V1_13 => upgrade_v1_13_1 store
  | UpgradeIndex.Latest_V1_13_To_Latest_V1_14 => upgrade_v1_13 index store
  | UpgradeIndex.Latest_V1_14_To_Latest_V1_15 => upgrade_v1_14 index store
  | UpgradeIndex.ToCurrentNoOp => Ok (false, store)
  end.

(** [UpgradeIndex::target_version]. *)
Definition target_version (u : UpgradeIndex.t) : Version :=
  match u with
  | UpgradeIndex.V1_12_To_V1_12_3 => (1, 12, 3)
  | UpgradeIndex.V1_12_3_To_V1_13_0 => (1, 13, 0)
  | UpgradeIndex.V1_13_0_To_V1_13_1 => (1, 13, 1)
  | UpgradeIndex.V1_13_1_To_Latest_V1_13 => (1, 13, 3)
  | UpgradeIndex.Latest_V1_13_To_Latest_V1_14 => (1, 14, 0)
  | UpgradeIndex.Latest_V1_14_To_Latest_V1_15 => (1, 15, 0)
  | UpgradeIndex.ToCurrentNoOp => VERSION
  end.

Definition upgrade_functions : list UpgradeIndex.t :=
  [UpgradeIndex.V1_12_To_V1_12_3; UpgradeIndex.V1_12_3_To_V1_13_0; UpgradeIndex.V1_13_0_To_V1_13_1;
   UpgradeIndex.V1_13_1_To_Latest_V1_13; UpgradeIndex.Latest_V1_13_To_Latest_V1_14;
   UpgradeIndex.Latest_V1_14_To_Latest_V1_15; UpgradeIndex.ToCurrentNoOp].

(** The first step from a version. *)
Definition upgrade_start (from : Version) : option nat :=
  let '(major, minor, patch) := from in
  if negb (major =? 1) then None
  else if minor =? 12 then if patch <=? 2 then Some 0%nat else Some 1%nat
  else if minor =? 13 then if patch =? 0 then Some 2%nat else Some 4%nat
  else if minor =? 14 then Some 5%nat
  else if minor =? 15 then Some 6%nat
  else None.

(** The loop over the steps; [must_stop k] is read before the [k]-th. *)
Fixpoint upgrade_steps (must_stop : nat → bool) (index : Index) (k : nat) (path : list UpgradeIndex.t)
    (regenerate_stats : bool) (store : IndexStore) : outcome MilliError (bool * IndexStore) :=
  match path with
  | [] => Ok (regenerate_stats, store)
  | u :: path =>
      if must_stop k then Err (doc_error AbortedIndexation) else
      '(regen, store) ← upgrade_step u index store;
      upgrade_steps must_stop index (S k) path (regenerate_stats || regen)
        (put_index_version index (target_version u) store)
  end.

(** [upgrade]. *)
Definition upgrade (must_stop : nat → bool) (db_version : Version) (index : Index) (store : IndexStore)
    : outcome MilliError (bool * IndexStore) :=
  let from := default db_version (get_index_version index store) in
  match upgrade_start from with
  | Some start => upgrade_steps must_stop index 0 (drop start upgrade_functions) false store
  | None => Err (cannot_upgrade_to_version from)
  end.
End upgrade.

(** ** An upgraded index is at the version of the binary *)

Section facts.
Context `{Upgrader, !UpgraderOk}.

(** Whether a step makes the statistics obsolete. *)
Definition regenerates (u : UpgradeIndex.t) : bool :=
  match u with
  | UpgradeIndex.V1_12_To_V1_12_3 | UpgradeIndex.V1_12_3_To_V1_13_0 | UpgradeIndex.V1_13_0_To_V1_13_1 => true
  | _ => false
  end.

Lemma upgrade_step_regenerates u index store regen store' :
  upgrade_step u index store = Ok (regen, store') → regen = regenerates u.
Proof.
  destruct u; cbn [upgrade_step regenerates];
    unfold upgrade_v1_12, upgrade_v1_12_3, upgrade_v1_13_0, upgrade_v1_13_1, upgrade_v1_13, upgrade_v1_14;
    intros Hr; try inv_bind Hr; by simplify_eq.
Qed.

Lemma upgrade_steps_Ok must_stop index path : ∀ k regen store regen' store',
  upgrade_steps must_stop index k path regen store = Ok (regen', store') →
  regen' = regen || existsb regenerates path ∧
  (∀ u, last path = Some u → get_index_version index store' = Some (target_version u)).
Proof.
  induction path as [|u path IH]; intros k regen store regen' store' Hr; cbn [upgrade_steps] in Hr.
  { simplify_eq. by rewrite orb_false_r. }
  destruct (must_stop k); [done|]. apply bind_Ok in Hr as ([r1 store1] & Hu & Hr).
  apply upgrade_step_regenerates in Hu as ->. destruct path as [|u' path].
  { cbn in Hr. simplify_eq. split; [cbn; by rewrite orb_false_r|]. intros ? [= <-]. apply get_put_index_version. }
  apply IH in Hr as [-> Hlast]. split; [cbn; by rewrite <-orb_assoc|]. exact Hlast.
Qed.

(** Upgrading one index.  From a version outside 1.12 to 1.15 it is
    refused.  If it succeeds, the index is at the version of the binary, and the
    cached statistics are to be computed again exactly if the index was older
    than 1.13.1.  The version is that of the index itself, not of the database,
    so that an upgrade that was interrupted can be run again. *)
Theorem upgrade_spec must_stop db_version index store :
  let from := default db_version (get_index_version index store) in
  (upgrade_start from = None ↔ from.1.1 ≠ 1 ∨ from.1.2 < 12 ∨ 15 < from.1.2) ∧
  (upgrade_start from = None → upgrade must_stop db_version index store = Err (cannot_upgrade_to_version from)) ∧
  ∀ regen store', 0 ≤ from.2 → upgrade must_stop db_version index store = Ok (regen, store') →
    get_index_version index store' = Some VERSION ∧ regen = version_gt (1, 13, 1) from ∧
    ∀ must_stop' db_version', (∀ k, must_stop' k = false) → upgrade_start VERSION = Some 6%nat →
      ∃ store'', upgrade must_stop' db_version' index store' = Ok (false, store'').
Proof.
  intros from. unfold upgrade. fold from. split_and!.
  - destruct from as [[major minor] patch]. cbn [fst snd]. unfold upgrade_start.
    repeat first [case_match|rewrite negb_true_iff in *|rewrite negb_false_iff in *
                 |rewrite Z.eqb_eq in *|rewrite Z.eqb_neq in *]; simplify_eq;
      (split; [done || lia|]); intros; try done; lia.
  - by intros ->.
  - intros regen store' Hpos Hr.
    destruct (upgrade_start from) as [start|] eqn:Hs; [|done].
    apply upgrade_steps_Ok in Hr as [-> Hlast].
    assert (Hst : (start ≤ 6)%nat ∧ existsb regenerates (drop start upgrade_functions) = version_gt (1, 13, 1) from).
    { destruct from as [[major minor] patch]. cbn [fst snd] in Hpos. unfold upgrade_start in Hs.
      unfold version_gt. repeat case_match; simplify_eq; cbn [existsb drop upgrade_functions regenerates orb];
        (split; [lia|]); symmetry; rewrite ?negb_false_iff, ?Z.eqb_eq, ?Z.eqb_neq, ?Z.leb_le, ?Z.leb_gt in *;
        subst; lia. }
    destruct Hst as [Hst ->]. assert (Hv : get_index_version index store' = Some VERSION).
    { apply (Hlast UpgradeIndex.ToCurrentNoOp). by do 7 (destruct start as [|start]; [done|]); lia. }
    split; [done|]. split; [done|]. intros must_stop' db' Hgo Hcur. rewrite Hv.
    change (default db' (Some VERSION)) with VERSION.
    rewrite Hcur. cbn. rewrite Hgo. eauto.
Qed.
End facts.

(** ** Witnesses *)

Section witnesses.
#[local] Existing Instance sample_externals.
#[local] Existing Instance sample_index_env.
#[local] Existing Instance sample_json.
#[local] Existing Instance sample_indexer.
#[local] Existing Instance sample_archiver.

(** The store is the version of the only index. *)
#[local] Instance sample_upgrader : Upgrader := {|
  reindex_field_distribution := λ _ s, Ok s;
  create_documents_stats := λ _ s, Ok s;
  upgrade_vector_store := λ _ s, Ok s;
  recompute_word_fst := λ _ s, Ok s;
  get_index_version := λ _ s, s;
  put_index_version := λ _ v _, Some v;
  cannot_upgrade_to_version := λ _, "cannot upgrade";
  create_version_file := λ _, Ok ();
|}.

#[local] Instance sample_upgrader_ok : UpgraderOk.
Proof. by constructor. Qed.

Definition sample_current : IndexStore := Some (1, 15, 1).

Lemma upgrade_spec_witness :
  upgrade (λ _, false) (1, 12, 7) sample_index sample_store = Ok (true, sample_current) ∧
  get_index_version sample_index sample_current = Some VERSION ∧
  ∃ store, upgrade (λ _, false) (1, 12, 7) sample_index sample_current = Ok (false, store).
Proof.
  assert (Hr : upgrade (λ _, false) (1, 12, 7) sample_index sample_store = Ok (true, sample_current)) by reflexivity.
  destruct (upgrade_spec (λ _, false) (1, 12, 7) sample_index sample_store) as (_ & _ & Hspec).
  destruct (Hspec true sample_current ltac:(by vm_compute) Hr) as (Hv & _ & Hagain).
  split; [exact Hr|]. split; [exact Hv|]. exact (Hagain (λ _, false) (1, 12, 7) (λ _, eq_refl) eq_refl).
Defined.
End witnesses.
