(* ===== verification/RunBatch.v ===== *)
(** * Processing a whole batch

    [crates/index-scheduler/src/scheduler/process_batch.rs], [process_batch],
    with [process_upgrade/mod.rs]: every branch, on the state of the scheduler
    made of the queue, the index mapper, the indexes on disk and the version of
    the database.  The processing keeps the promise the tick relies on. *)

From S2P Require Import Prelude TaskTypes DetailsView SchedUtils TaskQueue BatchQueue Queue Autobatcher CreateBatch ProcessBatch Tick Lru IndexMap Versions Ids Documents IndexOp Archive Upgrade.
Open Scope Z_scope.

Section run_batch.
Context `{Upgrader}.

(** The state besides the queue. *)
Record Indexes := mkIndexes {
  ix_mapper : IndexMapper;
  ix_store : IndexStore;
  ix_version : option (Z * Z * Z);
}.

(** The choices of the outside world during a batch: the schedules of the other
    threads at each use of the index mapper, the readings of
    [must_stop_processing], the fresh uuid, the clock, and the message of a
    panic. *)
Record RunEnv := mkRunEnv {
  re_opts : MapperOptions;
  re_schedule : nat → Schedule;
  re_closed : nat → bool;
  re_stop : nat → bool;
  re_stop_upgrade : nat → nat → bool;
  re_stop_end : bool;
  re_uuid : Uuid;
  re_started_at : DateTime;
  re_finished_at : DateTime;
  re_not_found : ForeignError;
  re_panic_msg : string;
}.

Definition set_mapper (m : IndexMapper) (s : Indexes) : Indexes := mkIndexes m (ix_store s) (ix_version s).
Definition set_store (st : IndexStore) (s : Indexes) : Indexes := mkIndexes (ix_mapper s) st (ix_version s).

(** ** Upgrades *)

(** The loop of [process_upgrade]. *)
Fixpoint upgrade_loop (env : RunEnv) (db_version : Z * Z * Z) (k : nat) (names : list string) (s : Indexes)
    : outcome Error () * Indexes :=
  match names with
  | [] => (Ok (), s)
  | name :: names =>
      if re_stop env k then (Err AbortedTask, s) else
      match mapper_index (re_opts env) (re_schedule env k) (ix_mapper s) name with
      | (Ok index, m) =>
          let s := set_mapper m s in
          match milli name (upgrade (re_stop_upgrade env k) db_version index (ix_store s)) with
          | Ok (regen_stats, store) =>
              if regen_stats then
                match IndexStats_new store index with
                | inr stats =>
                    let s := set_store store s in
                    match store_stats_of (ix_mapper s) name stats with
                    | Ok m => upgrade_loop env db_version (S k) names (set_mapper m s)
                    | Err e => (Err e, s)
                    | Panic => (Panic, s)
                    end
                | inl e => (Err (from_milli e (Some name)), s)
                end
              else upgrade_loop env db_version (S k) names (set_store store s)
          | Err e => (Err e, s)
          | Panic => (Panic, s)
          end
      | (Err e, m) => (Err e, set_mapper m s)
      | (Panic, m) => (Panic, set_mapper m s)
      end
  end.

Definition process_upgrade (env : RunEnv) (db_version : Z * Z * Z) (s : Indexes) : outcome Error () * Indexes :=
  upgrade_loop env db_version 0 (index_names (ix_mapper s)) s.

(** The loop of [process_rollback]. *)
Fixpoint rollback_all (env : RunEnv) (db_version : Z * Z * Z) (k : nat) (names : list string) (s : Indexes)
    : outcome Error () * Indexes :=
  match names with
  | [] => (create_version_file db_version, s)
  | name :: names =>
      match rollback_index (re_opts env) (re_closed env k) (ix_store s) (ix_mapper s) name db_version with
      | (Ok rollback_outcome, m, store) =>
          let s := set_store store (set_mapper m s) in
          if rollback_succeeded rollback_outcome then rollback_all env db_version (S k) names s
          else (Err (RollbackFailed name rollback_outcome), s)
      | (Err e, m, store) => (Err e, set_store store (set_mapper m s))
      | (Panic, m, store) => (Panic, set_store store (set_mapper m s))
      end
  end.

Definition process_rollback (env : RunEnv) (s : Indexes) (db_version : Z * Z * Z)
    : outcome Error () * Indexes :=
  let s := mkIndexes (ix_mapper s) (ix_store s) (Some db_version) in
  rollback_all env db_version 0 (index_names (ix_mapper s)) s.

(** ** The branches on one index *)

(** The statistics are stored if they can be computed; a failure is only
    logged. *)
Definition refresh_stats (index_uid : string) (index : Index) (s : Indexes) : Indexes :=
  match IndexStats_new (ix_store s) index with
  | inr stats =>
      match store_stats_of (ix_mapper s) index_uid stats with
      | Ok m => set_mapper m s
      | _ => s
      end
  | inl _ => s
  end.

(** The [IndexOperation] branch. *)
Definition process_index_operation (env : RunEnv) (files : gmap Uuid Z) (s : Indexes)
    (op : IndexOperation.t) (must_create_index : bool) : outcome Error (list Task) * Indexes :=
  let index_uid := IndexOperation.index_uid op in
  let '(r, m) :=
    if must_create_index
    then mapper_create_index (re_opts env) (re_schedule env 0) (re_uuid env) (ix_store s) (ix_mapper s)
           index_uid None
    else mapper_index (re_opts env) (re_schedule env 0) (ix_mapper s) index_uid in
  let s := set_mapper m s in
  match r with
  | Ok index =>
      let index_version := default (1, 12, 0) (get_index_version index (ix_store s)) in
      if negb (bool_decide (index_version = VERSION))
      then (Err (IndexVersionMismatch index_uid index_version VERSION), s)
      else
        let s := set_mapper (set_currently_updating_index (Some (index_uid, index)) (ix_mapper s)) s in
        match apply_index_operation (re_not_found env) (re_stop env) files index (ix_store s) op with
        | Ok (ts, store) => (Ok ts, refresh_stats index_uid index (set_store store s))
        | Err e => (Err e, s)
        | Panic => (Panic, s)
        end
  | Err e => (Err e, s)
  | Panic => (Panic, s)
  end.

(** The [IndexUpdate] branch. *)
Definition process_index_update (env : RunEnv) (k : nat) (s : Indexes) (index_uid : string)
    (primary_key : option string) (task : Task) : outcome Error (list Task) * Indexes :=
  let '(r, m) := mapper_index (re_opts env) (re_schedule env k) (ix_mapper s) index_uid in
  let s := set_mapper m s in
  match r with
  | Ok index =>
      let updated :=
        match primary_key with
        | Some primary_key =>
            milli index_uid (builder_execute (set_primary_key primary_key (builder_new index (ix_store s)))
                               (ix_store s))
        | None => Ok (ix_store s)
        end in
      match updated with
      | Ok store =>
          (Ok [with_status_details task Status.Succeeded (Some (Details.IndexInfo primary_key))],
           refresh_stats index_uid index (set_store store s))
      | Err e => (Err e, s)
      | Panic => (Panic, s)
      end
  | Err e => (Err e, s)
  | Panic => (Panic, s)
  end.

(** The [IndexCreation] branch. *)
Definition process_index_creation (env : RunEnv) (s : Indexes) (index_uid : string)
    (primary_key : option string) (task : Task) : outcome Error (list Task) * Indexes :=
  if mapper_exists (ix_mapper s) index_uid then (Err (IndexAlreadyExists index_uid), s) else
  let '(r, m) := mapper_create_index (re_opts env) (re_schedule env 0) (re_uuid env) (ix_store s)
                   (ix_mapper s) index_uid None in
  let s := set_mapper m s in
  match r with
  | Ok _ => process_index_update env 1 s index_uid primary_key task
  | Err e => (Err e, s)
  | Panic => (Panic, s)
  end.

(** The [IndexDeletion] branch. *)
Definition process_index_deletion (env : RunEnv) (s : Indexes) (index_uid : string) (ts : list Task)
    (index_has_been_created : bool) : outcome Error (list Task) * Indexes :=
  let '(r, m) := mapper_index (re_opts env) (re_schedule env 0) (ix_mapper s) index_uid in
  let s := set_mapper m s in
  let count :=
    match r with
    | Ok index => match number_of_documents index (ix_store s) with
                  | Ok n => Some n | Err _ => Some 0 | Panic => None end
    | Err _ => Some 0
    | Panic => None
    end in
  match count with
  | None => (Panic, s)
  | Some number_of_documents =>
      let '(r, m) := mapper_delete_index (re_schedule env 1) (ix_mapper s) index_uid in
      let s := set_mapper m s in
      let finish := collect (finish_index_deletion number_of_documents) ts in
      match r with
      | Ok _ => (finish, s)
      | Err (IndexNotFound _ as e) => (if index_has_been_created then finish else Err e, s)
      | Err e => (Err e, s)
      | Panic => (Panic, s)
      end
  end.

(** The [UpgradeDatabase] branch: a panic of the upgrade is an error. *)
Definition process_upgrade_batch (env : RunEnv) (s : Indexes) (ts : list Task)
    : outcome Error (list Task) * Indexes :=
  match kind <$> last ts with
  | Some (KindWithContent.UpgradeDatabase from) =>
      match process_upgrade env from s with
      | (Ok _, s) => (Ok (finish_upgrade <$> ts), s)
      | (Err AbortedTask, s) => (Err AbortedTask, s)
      | (Err e, s) => (Err (DatabaseUpgrade e), s)
      | (Panic, s) => (Err (DatabaseUpgrade (ProcessBatchPanicked (re_panic_msg env))), s)
      end
  | _ => (Panic, s)
  end.

(** ** [IndexScheduler::process_batch] *)

Definition process_batch (env : RunEnv) (q : Queue) (s : Indexes) (b : SchedBatch.t) (pb : ProcessingBatch)
    : outcome Error (list Task) * ProcessingBatch * Queue * Indexes :=
  match b with
  | SchedBatch.TaskCancelation task =>
      let '(r, pb, s) := process_cancelation (process_rollback env) (re_panic_msg env) (tasks q) s pb task in
      (r, pb, q, s)
  | SchedBatch.TaskDeletions ts =>
      let '(r, q) := process_deletions q (SchedBatch.ids b) ts in (r, pb, q, s)
  | SchedBatch.SnapshotCreation ts =>
      let '(r, m) := process_snapshot (re_not_found env) (re_opts env) (re_schedule env) q (ix_store s)
                       (ix_mapper s) ts in
      ('(ts, _) ← r; Ok ts, pb, q, set_mapper m s)
  | SchedBatch.Dump task =>
      let '(r, m) := process_dump_creation (re_not_found env) (re_opts env) (re_schedule env) (re_stop env)
                       (re_stop env) (re_stop_end env) (re_started_at env) (re_finished_at env) q (ix_store s)
                       (ix_mapper s) task in
      ('(ts, _) ← r; Ok ts, pb, q, set_mapper m s)
  | SchedBatch.IndexOperation op must_create_index =>
      let '(r, s) := process_index_operation env (file_store q) s op must_create_index in (r, pb, q, s)
  | SchedBatch.IndexCreation index_uid primary_key task =>
      let '(r, s) := process_index_creation env s index_uid primary_key task in (r, pb, q, s)
  | SchedBatch.IndexUpdate index_uid primary_key task =>
      let '(r, s) := process_index_update env 0 s index_uid primary_key task in (r, pb, q, s)
  | SchedBatch.IndexDeletion index_uid ts index_has_been_created =>
      let '(r, s) := process_index_deletion env s index_uid ts index_has_been_created in (r, pb, q, s)
  | SchedBatch.IndexSwap task =>
      match process_index_swap (tasks q) (index_mapping (ix_mapper s)) task with
      | Ok (ts, tq, mapping) =>
          let m := ix_mapper s in
          (Ok ts, pb, set_tasks tq q,
           set_mapper (mkIndexMapper (index_map m) mapping (index_stats m) (currently_updating_index m)) s)
      | Err e => (Err e, pb, q, s)
      | Panic => (Panic, pb, q, s)
      end
  | SchedBatch.UpgradeDatabase ts =>
      let '(r, s) := process_upgrade_batch env s ts in (r, pb, q, s)
  end.

(** The processing as [tick] runs it, in a thread whose panic is caught. *)
Definition run_batch (env : RunEnv) (s : Indexes) (q : Queue) (b : SchedBatch.t) (pb : ProcessingBatch)
    : Queue * ProcessingBatch * (list Task + Error) :=
  let '(r, pb, q, _) := process_batch env q s b pb in
  (q, pb, match r with
          | Ok ts => inl ts
          | Err e => inr e
          | Panic => inr (ProcessBatchPanicked (re_panic_msg env))
          end).
End run_batch.

(** ** The processing keeps its promise *)

Section promise.
Context `{Upgrader, !ExternalsOk}.

Lemma good_batch_pending q b pb stored t t0 :
  good_batch q b pb stored t → t0 ∈ stored → pending q t0.
Proof. intros Hg. pose proof (gb_pending _ _ _ _ _ Hg) as Hp. rewrite Forall_forall in Hp. apply Hp. Qed.

(** The tasks of the batch are still stored in [q']. *)
Definition holds_batch (q' : Queue) (stored : list Task) : Prop :=
  ∀ t0, t0 ∈ stored → all_tasks (tasks q') !! uid t0 = Some t0.

Lemma good_batch_held q b pb stored t : good_batch q b pb stored t → holds_batch q stored.
Proof. intros Hg t0 Ht0. by eapply good_batch_pending. Qed.

(** A processed task replaces the stored one. *)
Lemma progressed_replaces q' t0 t1 t' b :
  queue_ok q' → all_tasks (tasks q') !! uid t0 = Some t0 → t1 = with_batch_uid t0 (Some b) → progressed t1 t' →
  replaces (tasks q') t' ∧ status t' ≠ Status.Enqueued ∧
  ∀ old, all_tasks (tasks q') !! uid t' = Some old → kind t' = kind old.
Proof.
  intros Hq Ht0 -> [Hu He Hk Hs]. cbn in Hu, He, Hk. split; [|split; [done|]].
  - exists t0. rewrite Hu. split; [done|]. split; [by eapply (ok_started _ Hq)|]. split; [done|].
    intros i. unfold Task_indexes. by rewrite Hk.
  - intros old. rewrite Hu, Ht0. by intros [= <-].
Qed.

Lemma processed_ok q q' b pb stored t pb' ts ts' :
  good_batch q b pb stored t → queue_ok q' → holds_batch q' stored → dated pb' →
  ts ≡ₚ SchedBatch.tasks b → Forall2 progressed ts ts' → processed b (q', pb', inl ts').
Proof.
  intros Hg Hq Hh Hd Hp Hts. constructor; [done..|]. cbn.
  assert (Huids : uid <$> ts' = uid <$> ts).
  { clear Hp. induction Hts as [|t1 t' ts ts' [Hu] _ IH]; [done|]. cbn. by rewrite Hu, IH. }
  assert (Hperm : ts ≡ₚ (λ t, with_batch_uid t (Some (pb_uid pb))) <$> stored)
    by (rewrite Hp; apply (gb_tasks _ _ _ _ _ Hg)).
  assert (Hin : ∀ t', t' ∈ ts' → replaces (tasks q') t' ∧ status t' ≠ Status.Enqueued ∧
    ∀ old, all_tasks (tasks q') !! uid t' = Some old → kind t' = kind old).
  { intros t' Ht'. apply list_elem_of_lookup in Ht' as [i Hi].
    destruct (Forall2_lookup_r _ _ _ _ _ Hts Hi) as (t1 & Ht1 & Hpr).
    apply list_elem_of_lookup_2 in Ht1. rewrite Hperm in Ht1.
    apply list_elem_of_fmap in Ht1 as (t0 & -> & Ht0). by eapply progressed_replaces; [|apply Hh| |]. }
  split_and!.
  - rewrite Huids, Hperm, <-list_fmap_compose. exact (gb_nodup _ _ _ _ _ Hg).
  - apply Forall_forall. intros t' Ht'. by apply Hin.
  - apply Forall_forall. intros t' Ht'. by apply Hin.
  - rewrite Huids. unfold SchedBatch.ids. by rewrite Hp.
Qed.

Lemma failed_ok q q' b pb stored t pb' e :
  good_batch q b pb stored t → queue_ok q' → holds_batch q' stored → dated pb' → processed b (q', pb', inr e).
Proof.
  intros Hg Hq Hh Hd. constructor; [done..|]. cbn. intros id. rewrite (good_batch_ids _ _ _ _ _ Hg).
  rewrite elem_of_list_to_set, list_elem_of_fmap. intros (t0 & -> & Ht0). rewrite (Hh t0 Ht0). eauto.
Qed.

(** The result of a branch that leaves the queue as it is. *)
Lemma unchanged_ok env q b pb stored t pb' (r : outcome Error (list Task)) :
  good_batch q b pb stored t → queue_ok q → dated pb' →
  (∀ ts', r = Ok ts' → ∃ ts, ts ≡ₚ SchedBatch.tasks b ∧ Forall2 progressed ts ts') →
  processed b (q, pb', match r with
                       | Ok ts => inl ts
                       | Err e => inr e
                       | Panic => inr (ProcessBatchPanicked (re_panic_msg env))
                       end).
Proof.
  intros Hg Hq Hd Hr. pose proof (good_batch_held _ _ _ _ _ Hg) as Hh. destruct r as [ts'|e|].
  - destruct (Hr ts' eq_refl) as (ts & Hp & Hts). by eapply processed_ok.
  - by eapply failed_ok.
  - by eapply failed_ok.
Qed.

(** ** Cancelation *)

Lemma cancel_tasks_dated c l : ∀ pb out, dated pb → dated (foldl (cancel_task c) (pb, out) l).1.
Proof.
  induction l as [|t l IH]; intros pb out Hd; [done|]. cbn [foldl].
  destruct (cancel_task c (pb, out) t) as [pb1 out1] eqn:Hc. apply IH. unfold cancel_task in Hc.
  pose proof (processing_one_dated pb (mkTask (uid t) (batch_uid t) (enqueued_at t) (started_at t)
    (finished_at t) (error t) (Some c) (Details.to_failed <$> details t) Status.Canceled (kind t))) as Hp.
  destruct (processing_one _ _) as [pb2 t2]. cbn in Hp. by simplify_eq.
Qed.

Lemma cancel_matched_dated {S} rollback msg q (s : S) c pb matched ts pb' s' :
  cancel_matched_tasks rollback msg q s c pb matched = (Ok (ts, pb'), s') → dated pb → dated pb'.
Proof.
  unfold cancel_matched_tasks. destruct (cancel_upgrade _ _ _ _ _) as [r s1]. intros Hr Hd.
  injection Hr as Hr _. inv_bind Hr. inv_bind Hr. rename r1 into l.
  pose proof (cancel_tasks_dated c l pb [] Hd) as Hp. destruct (foldl _ _ _). by simplify_eq/=.
Qed.

Lemma cancelation_ok env q s task pb stored t :
  queue_ok q → good_batch q (SchedBatch.TaskCancelation task) pb stored t → dated pb →
  processed (SchedBatch.TaskCancelation task) (run_batch env s q (SchedBatch.TaskCancelation task) pb).
Proof.
  intros Hq Hg Hd. unfold run_batch. cbn [process_batch].
  destruct (process_cancelation (process_rollback env) (re_panic_msg env) (tasks q) s pb task)
    as [[r pb'] s'] eqn:Hrun.
  pose proof (good_batch_held _ _ _ _ _ Hg) as Hh. unfold process_cancelation in Hrun.
  destruct (kind task) as [| | | | | | | | | |query matched| | | |] eqn:Hk; try (simplify_eq; by eapply failed_ok).
  destruct (cancel_matched_tasks_effect (process_rollback env) (re_panic_msg env) (tasks q) s (uid task) pb matched
    (ok_tq _ Hq)) as (st & Hids & Hst & Hin & Heff).
  destruct (cancel_upgrade _ _ _ _ _) as [ru s1]. destruct Heff as [Heff _].
  destruct ru as [u|e|]; [|rewrite Heff in Hrun; simplify_eq; by eapply failed_ok..].
  destruct Heff as (pb1 & Heff & _). pose proof (cancel_matched_dated _ _ _ _ _ _ _ _ _ _ Heff Hd) as Hd1.
  rewrite Heff in Hrun. destruct (details task) as [[]|]; simplify_eq; try (by eapply failed_ok).
  pose proof (gb_tasks _ _ _ _ _ Hg) as Hperm. cbn [SchedBatch.tasks] in Hperm.
  apply Permutation_singleton_l in Hperm.
  destruct stored as [|t0 [|]]; try done. injection Hperm as Htask.
  assert (Ht0 : all_tasks (tasks q) !! uid t0 = Some t0) by (apply Hh; by left).
  constructor; [done..|]. cbn [fst snd].
  assert (Hrep : ∀ t', t' ∈ (canceled (uid task) (pb_uid pb) <$> st) ++
      [with_status_details task Status.Succeeded (Some (Details.TaskCancelation matched_tasks
         (Some (Z.of_nat (length (canceled (uid task) (pb_uid pb) <$> st)))) original_filter))] →
    replaces (tasks q) t' ∧ status t' ≠ Status.Enqueued ∧
    ∀ old, all_tasks (tasks q) !! uid t' = Some old → kind t' = kind old).
  { intros t' [(t1 & -> & Ht1)%list_elem_of_fmap| ->%list_elem_of_singleton]%elem_of_app.
    - rewrite Forall_forall in Hst. eapply (progressed_replaces _ _ _ _ 0); [done|by apply Hst|done|]. by constructor.
    - eapply progressed_replaces; [done|exact Ht0|exact Htask|]. by constructor. }
  split_and!.
  - rewrite fmap_app, <-list_fmap_compose. apply NoDup_app. split; [|split; [|apply NoDup_singleton]].
    + change (uid ∘ canceled (uid task) (pb_uid pb)) with uid. rewrite Hids. apply NoDup_bm_iter.
    + intros x (t1 & -> & Ht1)%list_elem_of_fmap Hx%list_elem_of_singleton. cbn in Hx.
      rewrite Forall_forall in Hst. pose proof (Hst _ Ht1) as Hs1. rewrite Htask in Hx, Hk. cbn in Hx, Hk.
      rewrite Hx, Ht0 in Hs1. injection Hs1 as <-. apply (Hin t0 Ht0) in Ht1 as [[Hm _]|(Hkd & _)].
      * pose proof (ok_refs _ Hq _ _ Ht0) as Hr. by rewrite Hk in Hr.
      * unfold task_kind in Hkd. by rewrite Hk in Hkd.
  - apply Forall_forall. intros t' Ht'. by apply Hrep.
  - apply Forall_forall. intros t' Ht'. by apply Hrep.
  - unfold SchedBatch.ids. cbn [SchedBatch.tasks]. rewrite fmap_app. intros x. rewrite !elem_of_list_to_set.
    intros Hx. apply elem_of_app. by right.
Qed.

(** ** Deletions *)

Lemma deletions_ok env q s ts pb stored t :
  queue_ok q → good_batch q (SchedBatch.TaskDeletions ts) pb stored t → dated pb →
  processed (SchedBatch.TaskDeletions ts) (run_batch env s q (SchedBatch.TaskDeletions ts) pb).
Proof.
  intros Hq Hg Hd. unfold run_batch. cbn [process_batch]. set (b := SchedBatch.TaskDeletions ts) in *.
  pose proof (good_batch_held _ _ _ _ _ Hg) as Hh. unfold process_deletions.
  destruct (collect matched_by ts) as [ms|e|]; cbn [mbind outcome_bind]; [|by eapply failed_ok..].
  destruct (delete_matched_Ok q (SchedBatch.ids b) (⋃ ms) (ok_tq _ Hq)) as (q' & -> & Hwf & [Hfs Hbq] & Hall).
  set (D := deletable (tasks q) (SchedBatch.ids b) (⋃ ms)) in *.
  assert (Hsub : ∀ id t, all_tasks (tasks q') !! id = Some t → all_tasks (tasks q) !! id = Some t).
  { intros id t'. rewrite Hall. by case_decide. }
  assert (Hq' : queue_ok q').
  { destruct Hq. constructor; [done|by apply Hbq|..]; rewrite ?Hfs; eauto 10. }
  assert (Hh' : holds_batch q' stored).
  { intros t0 Ht0. rewrite Hall, decide_False; [by apply Hh|].
    intros (t1 & _ & _ & Hn & _)%elem_of_deletable; [|apply Hq]. apply Hn.
    rewrite (good_batch_ids _ _ _ _ _ Hg). apply elem_of_list_to_set, list_elem_of_fmap. eauto. }
  destruct (for_each credit_deletion (D, []) ts) as [[D' ts']|e|] eqn:Hc; cbn [mbind outcome_bind];
    [|by eapply failed_ok..].
  apply credit_progressed in Hc as (ts1 & -> & Hts). by eapply processed_ok.
Qed.

(** ** Swaps *)

Lemma renamed_ok q tq id :
  queue_ok q → tq_wf tq → renamed_before id (tasks q) tq → queue_ok (set_tasks tq q).
Proof.
  intros Hq Hwf Hr.
  assert (Hold : ∀ y t', all_tasks tq !! y = Some t' → ∃ t, all_tasks (tasks q) !! y = Some t ∧ renamed t t').
  { intros y t' Ht'. specialize (Hr y). rewrite Ht' in Hr. destruct (all_tasks (tasks q) !! y) as [t|]; [|done].
    exists t. by destruct Hr. }
  constructor; cbn [tasks set_tasks batches file_store]; [done|apply Hq|..].
  - intros y t' (t & Ht & _ & Hs & _ & Hst & Hf & _)%Hold. pose proof (ok_started _ Hq _ _ Ht) as Hn.
    unfold not_started. by rewrite Hs, Hst, Hf.
  - intros y t' u (t & Ht & _ & Hs & _ & _ & _ & Hc & _)%Hold. rewrite Hs, Hc. by apply (ok_files _ Hq y).
  - intros y1 y2 t1' t2' u (t1 & Ht1 & _ & _ & _ & _ & _ & Hc1 & _)%Hold
      (t2 & Ht2 & _ & _ & _ & _ & _ & Hc2 & _)%Hold. rewrite Hc1, Hc2. by apply (ok_owner _ Hq).
  - intros y t' (t & Ht & _ & _ & _ & _ & _ & _ & Href)%Hold. rewrite Href. by apply (ok_refs _ Hq).
Qed.

Lemma swap_ok env q s task pb stored t :
  queue_ok q → good_batch q (SchedBatch.IndexSwap task) pb stored t → dated pb →
  processed (SchedBatch.IndexSwap task) (run_batch env s q (SchedBatch.IndexSwap task) pb).
Proof.
  intros Hq Hg Hd. unfold run_batch. cbn [process_batch]. pose proof (good_batch_held _ _ _ _ _ Hg) as Hh.
  destruct (process_index_swap (tasks q) (index_mapping (ix_mapper s)) task) as [[[ts tq] m]|e|] eqn:Hr;
    [|by eapply failed_ok..].
  apply process_index_swap_renamed in Hr as (Hwf & Hren & ->); [|apply Hq].
  eapply processed_ok; [exact Hg|by eapply renamed_ok| |done|reflexivity|by repeat constructor].
  pose proof (gb_tasks _ _ _ _ _ Hg) as Hperm. cbn [SchedBatch.tasks] in Hperm.
  apply Permutation_singleton_l in Hperm. destruct stored as [|t0 [|]]; try done. injection Hperm as Htask.
  intros t1 ->%list_elem_of_singleton. cbn [tasks set_tasks].
  pose proof (Hh t0 ltac:(by left)) as Ht0. specialize (Hren (uid t0)). rewrite Ht0 in Hren.
  destruct (all_tasks tq !! uid t0) as [t1|]; [|done]. destruct Hren as [_ ->]; [done|]. rewrite Htask. cbn. lia.
Qed.

(** ** The other branches leave the queue alone *)

Lemma index_operation_ok env files s op create r s' ts' :
  process_index_operation env files s op create = (r, s') → shaped (SchedBatch.IndexOperation op create) →
  r = Ok ts' → ∃ ts, ts ≡ₚ IndexOperation.tasks op ∧ Forall2 progressed ts ts'.
Proof.
  intros Hr Hs ->. unfold process_index_operation in Hr.
  destruct (if create then _ else _) as [[index|e|] m]; try done. destruct (negb _); [done|].
  destruct (apply_index_operation _ _ _ _ _ _) as [[ts store]|e|] eqn:Ha; simplify_eq.
  by eapply apply_index_operation_progressed.
Qed.

Lemma index_update_ok env k s i pk task r s' ts' :
  process_index_update env k s i pk task = (r, s') → r = Ok ts' → Forall2 progressed [task] ts'.
Proof.
  intros Hr ->. unfold process_index_update in Hr. destruct (mapper_index _ _ _ _) as [[index|e|] m]; try done.
  destruct (match pk with Some _ => _ | None => _ end); simplify_eq. by repeat constructor.
Qed.

Lemma index_creation_ok env s i pk task r s' ts' :
  process_index_creation env s i pk task = (r, s') → r = Ok ts' → Forall2 progressed [task] ts'.
Proof.
  intros Hr ->. unfold process_index_creation in Hr. destruct (mapper_exists _ _); [done|].
  destruct (mapper_create_index _ _ _ _ _ _ _) as [[index|e|] m]; try done. by eapply index_update_ok.
Qed.

Lemma index_deletion_ok env s i ts created r s' ts' :
  process_index_deletion env s i ts created = (r, s') → r = Ok ts' → Forall2 progressed ts ts'.
Proof.
  intros Hr ->. unfold process_index_deletion in Hr. destruct (mapper_index _ _ _ _) as [r1 m1].
  destruct (match r1 with Ok _ => _ | Err _ => _ | Panic => _ end) as [n|]; [|done].
  destruct (mapper_delete_index _ _ _) as [r2 m2].
  assert (collect (finish_index_deletion n) ts = Ok ts') as Hc.
  { destruct r2 as [?|e|]; [by simplify_eq| |done]. destruct e; try done. destruct created; by simplify_eq. }
  eapply collect_Forall2; [|exact Hc]. apply finish_index_deletion_progressed.
Qed.

Lemma upgrade_batch_ok env s ts r s' ts' :
  process_upgrade_batch env s ts = (r, s') → r = Ok ts' → Forall2 progressed ts ts'.
Proof.
  intros Hr ->. unfold process_upgrade_batch in Hr.
  destruct (kind <$> last ts) as [[]|]; try done. destruct (process_upgrade _ _ _) as [[u|e|] s1]; [|by destruct e|done].
  simplify_eq. apply Forall2_fmap_r, Forall_Forall2_diag, Forall_forall. intros t _. by constructor.
Qed.

(** [process_batch] keeps the promise of [BatchProcessor], whatever the search
    engine, the other threads and the clock do. *)
#[export] Instance run_batch_processor env s : BatchProcessor (run_batch env s).
Proof.
  intros q b pb stored t Hq Hg Hd Hs. destruct b;
    [by eapply cancelation_ok|by eapply deletions_ok| | | | | | |by eapply swap_ok|];
    unfold run_batch; cbn [process_batch];
    match goal with |- context [match ?run with (_, _) => _ end] =>
      lazymatch run with context [match _ with (_, _) => _ end] => fail | _ => destruct run as [r m] eqn:Hrun end end;
    eapply unchanged_ok; try done; intros ts' Hr.
  - inv_bind Hr. destruct r0 as [ts1 sn]. simplify_eq. exists tasks. split; [done|].
    by eapply process_snapshot_progressed.
  - inv_bind Hr. destruct r0 as [ts1 d]. simplify_eq. exists [task]. split; [done|].
    by eapply process_dump_progressed.
  - by eapply index_operation_ok.
  - exists [task]. split; [done|]. by eapply index_creation_ok.
  - exists [task]. split; [done|]. by eapply index_update_ok.
  - exists tasks. split; [done|]. by eapply index_deletion_ok.
  - exists tasks. split; [done|]. by eapply upgrade_batch_ok.
Qed.

End promise.

(** ** Witness *)

Section witnesses.
#[local] Existing Instance sample_externals.
#[local] Existing Instance sample_externals_ok.
#[local] Existing Instance sample_index_env.
#[local] Existing Instance sample_json.
#[local] Existing Instance sample_indexer.
#[local] Existing Instance sample_archiver.
#[local] Existing Instance sample_upgrader.

Definition sample_run_env : RunEnv :=
  mkRunEnv sample_opts (λ _, quiet_schedule) (λ _, true) (λ _, false) (λ _ _, false) false 5 20 30 sample_error "".
Definition sample_progress : ProgressView := tt.
Definition sample_indexes : Indexes := mkIndexes empty_mapper sample_current (Some VERSION).

End witnesses.
