(* ===== verification/Front.v ===== *)
(** * The front of the index scheduler

    [crates/index-scheduler/src/lib.rs]: the memory budget of the indexes, the
    registration of a task with its effect on the batch being processed, and the
    decision of the run loop after a tick. *)

From S2P Require Import Prelude TaskTypes DetailsView SchedUtils TaskQueue BatchQueue Queue Autobatcher CreateBatch ProcessBatch Tick.
Open Scope Z_scope.

(** ** The budget of the indexes *)

Record IndexBudget := mkIndexBudget {
  map_size : Z;
  index_count : Z;
  task_db_size : Z;
}.

(** 80 TiB. *)
Definition DEFAULT_BUDGET : Z := 80 * 1024 * 1024 * 1024 * 1024.

(** [IndexScheduler::index_budget]; [is_good_heed] tells whether an environment
    of a size can be opened.  [None] is a search that needs more than [fuel]
    attempts. *)
Definition index_budget (page_size : Z) (is_good_heed : Z → bool) (fuel : nat)
    (base_map_size task_db_size max_index_count : Z) : option IndexBudget :=
  budget ← (if is_good_heed DEFAULT_BUDGET then Some DEFAULT_BUDGET
            else dichotomic_search fuel (DEFAULT_BUDGET / 2) is_good_heed);
  let budget := budget / 2 in
  let task_db_size :=
    if budget / 2 <? task_db_size then clamp_to_page_size page_size (u64_wrap (budget * 2) / 5)
    else task_db_size in
  let budget := u64_wrap (budget - task_db_size) in
  let index_count := budget / base_map_size in
  if index_count <? 2 then Some (mkIndexBudget (u64_wrap (budget * 2) / 5) 1 task_db_size)
  else
    let index_count := index_count - 1 in
    let index_count := if max_index_count <? index_count then max_index_count else index_count in
    Some (mkIndexBudget base_map_size index_count task_db_size).

(** ** The registration of a task *)

Section register.
Context `{Externals}.

(** The state the registration reads and changes: the queue, what is being
    processed, and the two flags of [Scheduler]. *)
Record SchedulerState := mkSchedulerState {
  queue : Queue;
  processing_tasks : ProcessingTasks;
  must_stop_processing : bool;
  wake_up : bool;
}.

Definition TASK_SCHEDULER_SIZE_THRESHOLD_PERCENT_INT : Z := 40.

(** The tasks that are accepted when the queue is full. *)
Definition frees_space (kind : KindWithContent.t) : bool :=
  match kind with
  | KindWithContent.TaskDeletion _ tasks | KindWithContent.TaskCancelation _ tasks =>
      negb (bm_is_empty tasks)
  | _ => false
  end.

(** [IndexScheduler::register], for an environment of size [map_size] of which
    [non_free_pages_size] bytes are used, when the commit succeeds. *)
Definition scheduler_register (now : DateTime) (non_free_pages_size map_size : Z) (s : SchedulerState)
    (kind : KindWithContent.t) (task_id : option TaskId) (dry_run : bool)
    : outcome Error (Task * SchedulerState) :=
  if negb (frees_space kind) &&
     (TASK_SCHEDULER_SIZE_THRESHOLD_PERCENT_INT <? u64_wrap (non_free_pages_size * 100) / map_size)
  then Err NoSpaceLeftInTaskQueue
  else
    '(task, q) ← register now (queue s) kind task_id dry_run;
    let must_stop :=
      match kind with
      | KindWithContent.TaskCancelation _ tasks_to_cancel =>
          must_stop_processing s || must_cancel_processing_tasks (processing_tasks s) tasks_to_cancel
      | _ => must_stop_processing s
      end in
    Ok (task, mkSchedulerState q (processing_tasks s) must_stop true).

(** The bytes that can be written before tasks are refused. *)
Definition remaining_size_until_task_queue_stop (non_free_pages_size map_size : Z) : Z :=
  Z.max 0 (u64_wrap (map_size * TASK_SCHEDULER_SIZE_THRESHOLD_PERCENT_INT) / 100 - non_free_pages_size).

(** ** The run loop *)

Inductive run_action := RunTick | RunWait | RunStop | RunSleep.

(** What the loop of [IndexScheduler::run] does after a tick. *)
Definition after_tick (r : outcome Error TickOutcome) : run_action :=
  match r with
  | Ok (TickAgain _) => RunTick
  | Ok WaitForSignal => RunWait
  | Ok StopProcessingForever => RunStop
  | Err e => if is_recoverable e then RunTick else RunSleep
  | Panic => RunTick
  end.
End register.

(** ** The budget fits *)

Lemma clamp_le page size : 0 < page → 0 ≤ size → 0 ≤ clamp_to_page_size page size ≤ size.
Proof.
  intros Hp Hs. unfold clamp_to_page_size. rewrite Z.mul_comm.
  pose proof (Z.mul_div_le size page Hp). pose proof (Z.div_pos size page Hs Hp).
  split; [apply Z.mul_nonneg_nonneg|]; lia.
Qed.

Section budget.
#[local] Ltac Zify.zify_post_hook ::= Z.to_euclidean_division_equations.

(** When environments can be opened exactly up to [N] bytes, the
    budget is computed within 128 attempts; at least one index can be opened;
    and all the indexes that may be open together with the task database fit
    into half of the memory that was found, with room for one more index when
    several may be open. *)
Theorem index_budget_fits page_size N is_good base task max_count :
  0 ≤ N < 2 ^ 62 → (∀ n, 0 ≤ n < 2 ^ 64 → is_good n = (n <=? N)) →
  0 < page_size → 0 < base → 0 ≤ task → 1 ≤ max_count →
  ∃ b, index_budget page_size is_good 128 base task max_count = Some b ∧
    1 ≤ index_count b ≤ max_count ∧ 0 ≤ task_db_size b ≤ task ∧ 0 ≤ map_size b ≤ base ∧
    map_size b * index_count b + task_db_size b ≤ Z.min N DEFAULT_BUDGET / 2 ∧
    (1 < index_count b → base * (index_count b + 1) + task_db_size b ≤ Z.min N DEFAULT_BUDGET / 2).
Proof.
  intros HN Hgood Hp Hb Ht Hm. unfold index_budget.
  set (B := Z.min N DEFAULT_BUDGET).
  assert (HB : (if is_good DEFAULT_BUDGET then Some DEFAULT_BUDGET
                else dichotomic_search 128 (DEFAULT_BUDGET / 2) is_good) = Some B).
  { rewrite Hgood by done. unfold B. destruct (Z.leb_spec DEFAULT_BUDGET N).
    - f_equal. lia.
    - rewrite (dichotomic_search_spec N is_good HN Hgood) by done. f_equal. lia. }
  rewrite HB. cbn [mbind option_bind]. clear HB.
  assert (HB : 0 ≤ B < 2 ^ 48) by (unfold B, DEFAULT_BUDGET; lia). clearbody B. clear Hgood.
  set (h := B / 2). assert (Hh : 0 ≤ h < 2 ^ 47) by (unfold h; lia). clearbody h.
  assert (Hw : u64_wrap (h * 2) = h * 2) by (apply u64_wrap_small; lia).
  rewrite Hw. set (t := if h / 2 <? task then _ else _).
  assert (Htb : 0 ≤ t ≤ task ∧ t ≤ h / 2).
  { unfold t. destruct (Z.ltb_spec (h / 2) task); [|lia].
    pose proof (clamp_le page_size (h * 2 / 5) Hp). lia. }
  clearbody t. rewrite (u64_wrap_small (h - t)) by lia.
  rewrite (u64_wrap_small ((h - t) * 2)) by lia.
  set (c := (h - t) / base). assert (Hc : base * c ≤ h - t) by (apply Z.mul_div_le; lia).
  assert (Hlt : h - t < base * (c + 1)) by (pose proof (Z.mul_succ_div_gt (h - t) base Hb); unfold c; lia).
  clearbody c. destruct (Z.ltb_spec c 2).
  - eexists. split; [done|]. simpl. split_and!; try lia. nia.
  - destruct (Z.ltb_spec max_count (c - 1)); eexists; (split; [done|]); simpl; split_and!; try lia; nia.
Qed.
End budget.

(** ** What a registration does *)

Section register_facts.
Context `{Externals}.

Definition full (used size : Z) : Prop := 41 * size ≤ used * 100.

Lemma over_threshold used size :
  0 < size → 0 ≤ used * 100 < 2 ^ 64 →
  (TASK_SCHEDULER_SIZE_THRESHOLD_PERCENT_INT <? u64_wrap (used * 100) / size) = true ↔ full used size.
Proof.
  intros Hs Hu. rewrite u64_wrap_small by done. unfold full, TASK_SCHEDULER_SIZE_THRESHOLD_PERCENT_INT.
  rewrite Z.ltb_lt. split.
  - intros Hlt. pose proof (Z.mul_div_le (used * 100) size Hs). nia.
  - intros Hle. assert (41 ≤ used * 100 / size); [|lia]. apply Z.div_le_lower_bound; lia.
Qed.

Lemma register_never_full now q kind task_id dry_run :
  register now q kind task_id dry_run ≠ Err NoSpaceLeftInTaskQueue.
Proof.
  unfold register, check_index_swap_validity. destruct (match task_id with Some _ => _ | None => _ end); [done|].
  set (t := filter_out_references_to_newer_tasks _). destruct (TaskTypes.kind t); simpl; try by destruct dry_run.
  destruct (foldl _ _ _) as [? dup]. destruct (btree_iter dup) as [|? []]; simpl; by destruct dry_run.
Qed.

(** The registration refuses a task for lack of space exactly when at
    least 41% of the task database is used and the task neither cancels nor
    deletes anything; as long as [remaining_size_until_task_queue_stop] reports
    free bytes no task is refused this way, and the queue can always be emptied. *)
Theorem register_refuses_when_full now used size s kind task_id dry_run :
  0 < size → size * 40 < 2 ^ 64 → 0 ≤ used * 100 < 2 ^ 64 →
  (scheduler_register now used size s kind task_id dry_run = Err NoSpaceLeftInTaskQueue
   ↔ full used size ∧ frees_space kind = false) ∧
  (0 < remaining_size_until_task_queue_stop used size → ¬ full used size).
Proof.
  intros Hs Hsz Hu. pose proof (over_threshold used size Hs Hu) as Hfull. split.
  - unfold scheduler_register. destruct (frees_space kind) eqn:Hf; simpl.
    + split; [|naive_solver]. destruct (register _ _ _ _ _) as [[? ?]|e|] eqn:Hr; try done.
      intros [= ->]. by apply register_never_full in Hr.
    + destruct (_ <? _) eqn:Hlt; [by naive_solver|]. split; [|naive_solver].
      destruct (register _ _ _ _ _) as [[? ?]|e|] eqn:Hr; try done.
      intros [= ->]. by apply register_never_full in Hr.
  - unfold remaining_size_until_task_queue_stop, TASK_SCHEDULER_SIZE_THRESHOLD_PERCENT_INT, full.
    rewrite u64_wrap_small by lia. pose proof (Z.mul_div_le (size * 40) 100). lia.
Qed.

(** A cancelation that may be registered under a free id. *)
Lemma register_cancelation now used size s query ids dry_run :
  (ids ≠ ∅ ∨ ¬ full used size) → 0 < size → 0 ≤ used * 100 < 2 ^ 64 →
  let task := filter_out_references_to_newer_tasks
    (new_task now (next_task_id (tasks (queue s))) (KindWithContent.TaskCancelation query ids)) in
  scheduler_register now used size s (KindWithContent.TaskCancelation query ids) None dry_run =
    Ok (task, mkSchedulerState
          (if dry_run then queue s else set_tasks (tq_register (tasks (queue s)) task) (queue s))
          (processing_tasks s)
          (must_stop_processing s || must_cancel_processing_tasks (processing_tasks s) ids) true).
Proof.
  intros Hsp Hs Hu task. unfold scheduler_register.
  assert (Hok : negb (frees_space (KindWithContent.TaskCancelation query ids)) &&
    (TASK_SCHEDULER_SIZE_THRESHOLD_PERCENT_INT <? u64_wrap (used * 100) / size) = false).
  { apply andb_false_iff. destruct Hsp as [Hne|Hnf].
    - left. simpl. rewrite negb_involutive. unfold bm_is_empty. by rewrite bool_decide_false.
    - right. apply not_true_iff_false. by rewrite over_threshold. }
  rewrite Hok. unfold register. cbn [default].
  pose proof (filter_out_references_spec (new_task now (next_task_id (tasks (queue s)))
    (KindWithContent.TaskCancelation query ids))) as (_ & _ & _ & _ & _ & Hc & _).
  rewrite Hc. unfold task. by destruct dry_run.
Qed.

Lemma must_cancel_spec pt ids :
  must_cancel_processing_tasks pt ids = true ↔ ∃ id, id ∈ pt_processing pt ∧ id ∈ ids.
Proof.
  unfold must_cancel_processing_tasks, bm_is_disjoint, bm_is_empty. rewrite negb_true_iff, bool_decide_eq_false. split.
  - intros Hn. destruct (decide (pt_processing pt ∩ ids = ∅)) as [He|[id Hid]%set_choose_L]; [set_solver|].
    exists id. set_solver.
  - set_solver.
Qed.

(** The enqueued cancelation with the largest id of the queue is served first. *)
Lemma newest_cancelation_next nf now env q t :
  tq_wf (tasks q) → all_tasks (tasks q) !! uid t = Some t → status t = Status.Enqueued →
  task_kind t = Kind.TaskCancelation → (∀ y, is_Some (all_tasks (tasks q) !! y) → y ≤ uid t) →
  ∃ pb, create_next_batch nf now env q =
    Ok (Some (SchedBatch.TaskCancelation (with_batch_uid t (Some (next_batch_id (batches q)))), pb)).
Proof.
  intros Hwf Ht Hs Hk Hmax. unfold create_next_batch.
  destruct (bm_max _) as [id|] eqn:Hm.
  - apply bm_max_Some in Hm as [(t' & Ht' & _ & _)%elem_of_kind_status Hge]; [|done].
    assert (Hid : id = uid t).
    { apply Z.le_antisymm; [apply Hmax; eauto|]. apply Hge, elem_of_kind_status; eauto. }
    subst id. destruct (get_one_task_Ok q (ProcessingBatch_new now (next_batch_id (batches q))) _ _ Ht)
      as (pb' & -> & _). eexists. reflexivity.
  - apply bm_max_None in Hm. exfalso. apply (not_elem_of_empty (C := bitmap) (uid t)).
    rewrite <-Hm. apply elem_of_kind_status; eauto.
Qed.

(** A cancelation that names at least one task, or that comes while
    there is room, is accepted.  It becomes the newest task of the queue and is
    the next batch, before everything that was enqueued earlier and even
    when the version of the database is not the current one.  The batch being
    processed is told to stop exactly if it contains a task to cancel (or was
    told so before), and the scheduler is woken up. *)
Theorem registered_cancelation_is_next now used size s query ids nf later env :
  tq_wf (tasks (queue s)) → (∀ t, all_tasks (tasks (queue s)) !! u32_max ≠ Some t) →
  (ids ≠ ∅ ∨ ¬ full used size) → 0 < size → 0 ≤ used * 100 < 2 ^ 64 →
  ∃ task s' pb,
    scheduler_register now used size s (KindWithContent.TaskCancelation query ids) None false = Ok (task, s') ∧
    all_tasks (tasks (queue s')) = <[uid task := task]> (all_tasks (tasks (queue s))) ∧
    all_tasks (tasks (queue s)) !! uid task = None ∧
    create_next_batch nf later env (queue s') = Ok (Some (SchedBatch.TaskCancelation
      (with_batch_uid task (Some (next_batch_id (batches (queue s))))), pb)) ∧
    (must_stop_processing s' = true ↔
      must_stop_processing s = true ∨ ∃ id, id ∈ pt_processing (processing_tasks s) ∧ id ∈ ids) ∧
    wake_up s' = true.
Proof.
  intros Hwf Hmax Hsp Hs Hu. rewrite (register_cancelation now used size s query ids false) by done.
  pose proof (next_task_id_range (tasks (queue s))) as Hr.
  pose proof (new_task_fresh now (tasks (queue s)) (KindWithContent.TaskCancelation query ids)
    (next_task_id (tasks (queue s))) Hwf Hmax ltac:(lia) ltac:(lia)) as Hfr.
  set (task := filter_out_references_to_newer_tasks _) in *.
  destruct (tq_register_wf _ _ Hwf Hfr) as [Hwf' Hall].
  set (q' := set_tasks (tq_register (tasks (queue s)) task) (queue s)).
  assert (Hnext : ∃ pb, create_next_batch nf later env q' =
    Ok (Some (SchedBatch.TaskCancelation (with_batch_uid task (Some (next_batch_id (batches (queue s))))), pb))).
  { apply (newest_cancelation_next nf later env q' task); try done; unfold q'; cbn [tasks set_tasks].
    - by rewrite Hall, lookup_insert_eq.
    - intros y. rewrite Hall, lookup_insert_is_Some'. intros [->|Hy]; [lia|].
      apply (next_task_id_fresh _ _ Hwf Hmax) in Hy. unfold task. simpl. lia. }
  destruct Hnext as [pb Hpb]. eexists task, _, pb. split; [done|]. cbn [queue must_stop_processing wake_up].
  split_and!; try done.
  - apply Hfr.
  - rewrite orb_true_iff. by rewrite must_cancel_spec.
Qed.

(** A dry run of a cancelation leaves the queue as it is, so no
    cancelation is ever processed, but it still tells the batch being processed
    to stop when the batch contains one of the named tasks. *)
Theorem dry_run_cancelation_stops_batch now used size s query ids id :
  id ∈ pt_processing (processing_tasks s) → id ∈ ids → 0 < size → 0 ≤ used * 100 < 2 ^ 64 →
  ∃ task s',
    scheduler_register now used size s (KindWithContent.TaskCancelation query ids) None true = Ok (task, s') ∧
    queue s' = queue s ∧ processing_tasks s' = processing_tasks s ∧ must_stop_processing s' = true.
Proof.
  intros Hp Hid Hs Hu. rewrite (register_cancelation now used size s query ids true) by (try done; set_solver).
  eexists _, _. split; [done|]. split_and!; try done. cbn [must_stop_processing].
  apply orb_true_iff. right. apply must_cancel_spec. eauto.
Qed.
End register_facts.

(** ** Witnesses *)

Section witnesses.
#[local] Existing Instance sample_externals.

Definition sample_state : SchedulerState :=
  mkSchedulerState sample_q (mkProcessingTasks None {[0]} None) false false.

Lemma index_budget_fits_witness :
  ∃ b, index_budget 4096 (λ n, n <=? 1000000) 128 100000 50000 20 = Some b ∧ 1 ≤ index_count b ≤ 20 ∧
    map_size b * index_count b + task_db_size b ≤ 500000.
Proof.
  destruct (index_budget_fits 4096 1000000 (λ n, n <=? 1000000) 100000 50000 20)
    as (b & Hb & Hc & _ & _ & Hf & _); [lia | reflexivity | lia | lia | lia | lia |].
  exists b. split; [exact Hb|]. split; [exact Hc | exact Hf].
Defined.

Lemma register_refuses_when_full_witness :
  scheduler_register 50 41 100 sample_state (KindWithContent.IndexDeletion "a") None false
    = Err NoSpaceLeftInTaskQueue ∧ remaining_size_until_task_queue_stop 39 100 = 1 ∧ ¬ full 39 100.
Proof.
  split; [|split; [reflexivity|]].
  - apply (register_refuses_when_full 50 41 100 sample_state (KindWithContent.IndexDeletion "a") None false);
      [lia | lia | lia | split; [unfold full; lia | reflexivity]].
  - apply (register_refuses_when_full 50 39 100 sample_state (KindWithContent.IndexDeletion "a") None false);
      [lia | lia | lia | reflexivity].
Defined.

Lemma registered_cancelation_is_next_witness :
  tq_wf (tasks sample_q) ∧ ∃ task s' pb,
    scheduler_register 50 90 100 sample_state (KindWithContent.TaskCancelation "" {[0]}) None false
      = Ok (task, s') ∧
    create_next_batch "" 60 sample_env (queue s') = Ok (Some (SchedBatch.TaskCancelation
      (with_batch_uid task (Some 0)), pb)) ∧ must_stop_processing s' = true.
Proof.
  split; [exact sample_q_wf|].
  destruct (registered_cancelation_is_next 50 90 100 sample_state "" {[0]} "" 60 sample_env)
    as (task & s' & pb & Hr & _ & _ & Hn & Hm & _);
    [exact sample_q_wf | exact sample_q_no_max | left; by vm_compute | lia | lia |].
  exists task, s', pb. split; [exact Hr|]. split; [exact Hn|].
  apply Hm. right. exists 0. split; by vm_compute.
Defined.

Lemma dry_run_cancelation_stops_batch_witness :
  ∃ task s',
    scheduler_register 50 10 100 sample_state (KindWithContent.TaskCancelation "" {[0]}) None true
      = Ok (task, s') ∧ queue s' = sample_q ∧ must_stop_processing s' = true.
Proof.
  destruct (dry_run_cancelation_stops_batch 50 10 100 sample_state "" {[0]} 0)
    as (task & s' & Hr & Hq & _ & Hm); [by vm_compute | by vm_compute | lia | lia |].
  exists task, s'. split; [exact Hr|]. split; [exact Hq | exact Hm].
Defined.
End witnesses.
